(* ===== verification/_CoqProject ===== *)
-Q . S2P
Prelude.v
CString.v
Getopt.v
DataLab.v
Btest.v
NumShow.v
FloatPuzzles.v
BtestMain.v
MemLib.v
Mm.v
MmHeap.v
MmCoalesce.v
MmSpec.v
MmTotal.v
MDriver.v
MDriverTrace.v
MDriverSpec.v
MDriverMm.v
Double.v
Clock.v
Fcyc.v
MDriverMain.v
MDriverMainSpec.v
Sort.v
SortSpec.v
SortKeySpec.v
Heap.v
RingBuffer.v
UnionFind.v
Crc32.v
Md5.v
Fenwick.v
Bytes.v
Buddy.v
BuddySpec.v
BuddyBuilder.v
RbTree.v
RbShape.v
RbInv.v
RbInsert.v
RbFind.v
RbErase.v
RbUnlink.v
RbSpec.v
SegTree.v
ShmList.v
ShmQueue.v
ShmSpec.v
Murmur.v
Bloom.v
SpinLock.v
ThreadPool.v
BlockingQueue.v
Graph.v
BellmanFord.v
SPFA.v
Dijkstra.v
Matrix.v
Floyd.v
TopoSort.v
Tarjan.v
Kmp.v
SparseTable.v
Store.v
Stack.v
Trie.v
PairHeap.v
RollHash.v
Numbers.v
SimdSum.v
Singleton.v
Scheduler.v
Reactor.v
ReactorSpec.v
Client.v
