(* ===== verification/Prelude.v ===== *)
(** * Verification of the cpp-learn repository

    cpp-learn is a collection of C and C++ programs: two of the CS:APP labs
    (src/homework/CSAPP/lab), libraries of data structures and algorithms
    (src/cpp/datastructure, src/cpp/algorithm), stand-alone components
    (src/cpp/examples), and servers and demonstrations that are mostly system
    calls.  This library models the parts with logic of their own and proves
    them correct.

    ** Conventions

    Every definition translates the C or C++ function of the same name.
    - A call that can fault (index out of range, dead or null pointer, failed
      assertion) or loop returns [outcome]; the constructors of [fault] say
      which fault.  A theorem "returns Ok" therefore excludes undefined
      behaviour of the kinds modelled.
    - Integers are [Z], and every operation that can leave its width is written
      with its wrap-around ([u32], [u64], [s32], ...), except where the comment
      of the file says that signed overflow is undefined in the source.
    - Mutable state is a record that the functions pass on, directly or in a
      state monad; raw memory is a list of bytes or a map from addresses.
    - Loops are [for_range] or [while_fuel] of this file.  The latter takes fuel, a
      bound on the rounds computed from the state at the call: the number of
      blocks of a heap, the length of a vector, a small multiple of the number
      of nodes, the width of the type.  That the fuel is enough is part of each
      theorem, which states [Ok]; [wp_while] asks for a measure below the fuel.
      Where a loop of the source may really not end (callibrate of clock.c, a
      rounding loop of the buddy allocator) the theorem says when it does.
    - Library and system calls of the code (rand, strtof, gettimeofday, rdtsc,
      mmap, the timed function of fcyc) are parameters.

    ** Malloc lab (malloclab-handout)

    mdriver.c reads trace files and drives an allocator, mm.c, that works on
    the simulated memory of memlib.c; clock.c, ftimer.c, fcyc.c and fsecs.c time
    it.
    - CString: <ctype.h>, strtoll and decimal notation.
    - MemLib: memlib.c, the storage and the three brk pointers.
    - Mm: every function and macro of mm.c.  MmHeap: the implicit block list as
      a predicate on memory.  MmCoalesce: the invariant of the coalescing pass.
      MmSpec: malloc, free and realloc on the abstract state "the allocated
      blocks": returned blocks are aligned, large enough, inside the heap and
      disjoint from the live ones, whose bytes are kept; first fit; behaviour
      when the memory is exhausted and for realloc(p, 0).  MmTotal: on every live
      heap a request is served, or the heap is full for it and the code faults.
    - MDriver, MDriverTrace: range list, validity, utilisation and speed runs,
      and the trace reader of mdriver.c.  [MallocPackage] is the link-time
      interface of mm.h and [MallocLaws] (MDriverSpec) the contract that the
      driver checks; MDriverMm is the instance for mm.c, so the driver accepts
      mm.c on every well-formed trace unless a run reaches a request for which the
      heap is full; this needs requests that add up to more than the heap.
      Fragmentation decides whether it happens, so the theorems have it as a second
      case and not as a condition on the trace.  Reading a printed trace gives the
      trace back.
    - Double, Clock, Fcyc: the timers.  [double] is a class of operations with
      an exact rational instance; the clocks are streams of readings.
    - Getopt: the command line of both labs.  MDriverMain: main of mdriver.c, with
      its options, the team check, the two loops over the trace files and the
      performance index.  MDriverMainSpec: for every package errors and correct
      traces add up; linked with mm.c every well-formed trace is correct and the
      index is the weighted sum of config.h, between 0 and 100, or the heap is
      exhausted in a run.

    ** Data lab (datalab-handout)

    - DataLab: the puzzles of bits.c and the reference functions of tests.c, and
      their equality on all arguments; the unfinished puzzles are the stubs they
      are.  Btest: the harness btest.c with the table of decl.c; the solved
      puzzles pass, and a reported counterexample is the first failing value.  The
      values of rand() are one stream for all puzzles, and which puzzles the alarm
      interrupts is a parameter.
    - FloatPuzzles: the floating-point reference functions on IEEE single
      precision (SpecFloat of the Standard Library) equal their definition by
      bit fields; the score of the whole table.  BtestMain: main of btest.c.
    - NumShow: fshow.c, ishow.c and the number parser they share with btest.c.

    ** Data structures and algorithms

    - Sort, SortSpec, SortKeySpec: sort.h.  The comparison sorts, merge sort,
      quick sort, heap sort, counting sort and radix sort return sorted
      permutations for every strict weak order.  Sizes and indices are int32_t:
      the theorems bound the vectors, longer ones are left unsorted.
    - Heap (heap.h) refines a priority queue, RingBuffer (ringbuffer.cc) a
      bounded queue that drops the oldest nodes, UnionFind (UFS.h) the
      connectivity of a graph, Fenwick (binary_index_tree.h, elements of type int) an
      array with range updates and range sums, SegTree (segment_tree.h) the same with lazy marks;
      its range_set does not return.
    - RbTree: red_black_tree.h on a heap of nodes with parent pointers and a
      sentinel.  RbShape follows the shape of the tree with a focus and its
      context; RbInv has the red-black and search-tree invariants; RbInsert,
      RbFind, RbErase and RbUnlink verify the parts; RbSpec shows that every
      sequence of operations refines a finite map, that no deleted node is
      touched, that the height is logarithmic and that the destructor frees all.
    - Store: nodes made with new and released with delete.  On it Stack (stack.h)
      refines a list, Trie (trie.h) a set of strings, and PairHeap (pair_heap.h)
      keeps a minimum at its root under push and update; its pop removes nothing.
    - RollHash (string_roll_hash.h): a result 0 means that no substring occurs
      twice.  Numbers (math.cc, permutation.h): powers modulo 2^64 and binomial
      coefficients.
    - SparseTable (sparse_table.h): range queries of an associative and
      idempotent operation.  Kmp (kmp.h): longest borders and the matching
      automaton.  Matrix has the vectors of vectors they use.
    - Graph: adjacency lists, walks and their costs.  BellmanFord, SPFA,
      Dijkstra and Floyd return the lengths of shortest walks, the first two
      also detect negative cycles; TopoSort (topological_sort.h) orders exactly
      the acyclic graphs.  Distances are [Z]; the theorems bound the weights so
      that a simple path stays below INT32_MAX, the value for "unreachable".
    - Tarjan (tarjan.h): the recursive search with its stack, over linked
      adjacency lists; the invariant of a nested call has the path of active
      calls, the visited nodes and the stack.  The numbers it assigns are the
      strongly connected components in reverse topological order; a recursion
      depth of the number of nodes is enough.
    - Crc32, Md5 and Murmur: crc32.cc is the bitwise CRC, md5.cc is the MD5 of
      RFC 1321, murmurhash.cc is the 128-bit MurmurHash3.  The references have
      constants of their own: those of MD5 are computed from the sine, MurmurHash3
      is written out again.

    ** Stand-alone components (cpp/examples)

    - Bytes: little-endian integers in byte buffers.  Buddy: the buddy
      allocator, over the interface [PoolStore] of its array.  BuddySpec: blocks
      handed out are aligned, in the pool and disjoint; a request fails only
      when no block is free; freeing merges; rounding up ends for sizes up to
      2^63.  BuddyBuilder: the same allocator inside a relocatable
      [ObjectBuilder] buffer with relative pointers.
    - ShmList, ShmQueue, ShmSpec: the shared-memory message queue.  Its node
      list, its control block (built by BuddyBuilder) and its buffer are one
      state; each operation is one critical section.  The abstract view is a
      queue of chunks with their bytes and owners.  The size of the buffer is one
      that the buddy tree divides evenly; for others blocks do not merge back.
    - Bloom: the plain and the counting bloom filter over Murmur.

    - SpinLock, ThreadPool, BlockingQueue: concurrency.  The state has the
      position of every thread, an execution is a list of scheduler choices, and
      a critical section under the mutex is one step.  Waiting on a condition
      variable, notification, time-outs and spurious wake-ups are steps.  The
      theorems hold for all interleavings: mutual exclusion, exactly-once
      execution, linearizability against a sequential queue, and termination
      without lost wake-ups.
    - Singleton: double-checked creation constructs one object.  SimdSum: the
      vector kernels of simd_sum.h equal the scalar loop; the block loop around
      them does not advance.
    - Scheduler: the parts of function_schduler.h that have a body and timer.h.
      A steady schedule does not drift, another one carries lateness over.

    ** Reactor server (src/reactor)

    - Reactor: handlers, the demultiplexer over epoll, the event loop and the
      closures that worker threads run, over the class [Kernel] of system calls.
      Handlers are shared objects whose destructor closes the descriptor.  A thread
      is a program of atomic actions, one for each access to a shared object and
      each system call, and a schedule interleaves the threads in any order.
      ReactorSpec states the documented laws of the kernel, ghost claims of the
      threads, and the invariant of state and claims that every action keeps
      whatever the other threads claim.  A simulated kernel runs the examples, among
      them the overflow of the event buffer, the task that takes over the descriptor
      of another client, a response lost in a race, and the endless reading after an
      interrupted call.  The memory model is sequentially consistent: that
      unsynchronised accesses are undefined in C++ is outside of it.

    ** Card game client (src/spades_three)

    - Client: the client thread over the results of its system calls and of the
      generated message class.  The topic is received however it is split into
      packets; the id is only sent when it has ten characters, a connection
      closed at the wrong moment is polled for ever, and no game ends.

    ** Not modelled

    The text of the messages of the labs (the numbers they show are modelled); the
    network and system-call demonstrations, which are
    calls of the operating system; kafka.h, which does not compile;
    the member functions that function_schduler.h, a header of the folly library,
    only declares; avl_tree.h, b_tree.h, b_plus_tree.h, huffman_tree.h and
    a_star_search.h, which are empty or commented out. *)

From stdpp Require Export base tactics list numbers.
From Stdlib Require Export ZArith Lia Sorting.Permutation.

#[global] Open Scope Z_scope.

(** * 1. Outcomes: what a run of the C or C++ code can do

    A function of the source that can index out of range, dereference a null
    pointer, fail an [assert]/[CHECK] or loop is translated to a function into
    [outcome]; [Ok] is a normal return. *)

Inductive fault : Set :=
| OutOfBounds            (* index or address outside the object *)
| NullDeref              (* dereference of a null pointer *)
| AssertFail             (* a failed assert, CHECK or LOG(FATAL) *)
| DivByZero              (* division or remainder by zero *)
| Exit (code : Z)        (* exit(code) *)
| LengthError            (* std::length_error of a container *)
| OutOfFuel.             (* the loop bound of the model was exhausted *)

#[export] Instance fault_eq_dec : EqDecision fault.
Proof. solve_decision. Defined.

Inductive outcome (A : Type) : Type :=
| Ok (a : A)
| Fault (e : fault).
Arguments Ok {A} _.
Arguments Fault {A} _.

#[export] Instance outcome_ret : MRet outcome := fun _ a => Ok a.
#[export] Instance outcome_bind : MBind outcome :=
  fun _ _ k m => match m with Ok a => k a | Fault e => Fault e end.

Definition require (b : bool) (e : fault) : outcome unit :=
  if b then Ok tt else Fault e.

(** [wp m Q]: the computation [m] returns normally and its result satisfies
    [Q]; a total-correctness triple. *)
Definition wp {A} (m : outcome A) (Q : A -> Prop) : Prop :=
  exists a, m = Ok a /\ Q a.

Lemma wp_ret {A} (a : A) (Q : A -> Prop) : Q a -> wp (Ok a) Q.
Proof. intros H. exists a. auto. Qed.

Lemma wp_mret {A} (a : A) (Q : A -> Prop) : Q a -> wp (mret a) Q.
Proof. apply wp_ret. Qed.

Lemma wp_bind {A B} (m : outcome A) (k : A -> outcome B) (Q : B -> Prop) :
  wp m (fun a => wp (k a) Q) -> wp (m ≫= k) Q.
Proof. intros (a & -> & H). exact H. Qed.

Lemma wp_mono {A} (m : outcome A) (P Q : A -> Prop) :
  wp m P -> (forall a, P a -> Q a) -> wp m Q.
Proof. intros (a & -> & H) HPQ. exists a. auto. Qed.

Lemma wp_require (b : bool) (e : fault) (Q : unit -> Prop) :
  b = true -> Q tt -> wp (require b e) Q.
Proof. intros -> H. by apply wp_ret. Qed.

(** * 2. Loops

    [for_range lo hi body s] is [for (i = lo; i < hi; ++i) s = body(i, s)] and
    [for_down hi lo body s] is [for (i = hi; i >= lo; --i)].  Both recurse on
    the number of iterations, so they need no fuel.  [while_fuel] runs a step
    that either continues ([inl]) or leaves the loop ([inr]). *)

Fixpoint for_up {S} (n : nat) (i : Z) (body : Z -> S -> outcome S) (s : S)
  : outcome S :=
  match n with
  | O => Ok s
  | Datatypes.S n' => s' ← body i s; for_up n' (i + 1) body s'
  end.

Definition for_range {S} (lo hi : Z) (body : Z -> S -> outcome S) (s : S)
  : outcome S := for_up (Z.to_nat (hi - lo)) lo body s.

Fixpoint for_dn {S} (n : nat) (i : Z) (body : Z -> S -> outcome S) (s : S)
  : outcome S :=
  match n with
  | O => Ok s
  | Datatypes.S n' => s' ← body i s; for_dn n' (i - 1) body s'
  end.

Definition for_down {S} (hi lo : Z) (body : Z -> S -> outcome S) (s : S)
  : outcome S := for_dn (Z.to_nat (hi - lo + 1)) hi body s.

Fixpoint while_fuel {S R} (fuel : nat) (step : S -> outcome (S + R)) (s : S)
  : outcome R :=
  match fuel with
  | O => Fault OutOfFuel
  | Datatypes.S f =>
      r ← step s;
      match r with inl s' => while_fuel f step s' | inr r => Ok r end
  end.

Lemma wp_for_up {S} (I : Z -> S -> Prop) n i body s :
  I i s ->
  (forall j t, i <= j < i + Z.of_nat n -> I j t -> wp (body j t) (I (j + 1))) ->
  wp (for_up n i body s) (I (i + Z.of_nat n)).
Proof.
  revert i s. induction n as [|n IH]; intros i s H0 Hstep; cbn [for_up].
  - apply wp_ret. by replace (i + Z.of_nat 0) with i by lia.
  - apply wp_bind. eapply wp_mono; [apply Hstep; [lia|exact H0]|].
    intros t Ht.
    replace (i + Z.of_nat (Datatypes.S n)) with ((i + 1) + Z.of_nat n) by lia.
    apply IH; [exact Ht|]. intros j u Hj. apply Hstep. lia.
Qed.

Lemma wp_for_range {S} (I : Z -> S -> Prop) (Q : S -> Prop) lo hi body s :
  lo <= hi ->
  I lo s ->
  (forall i t, lo <= i < hi -> I i t -> wp (body i t) (I (i + 1))) ->
  (forall t, I hi t -> Q t) ->
  wp (for_range lo hi body s) Q.
Proof.
  intros Hle H0 Hstep HQ. unfold for_range.
  eapply wp_mono.
  - apply (wp_for_up I); [exact H0|]. intros j t Hj. apply Hstep. lia.
  - intros t Ht. apply HQ.
    by replace hi with (lo + Z.of_nat (Z.to_nat (hi - lo))) by lia.
Qed.

Lemma for_range_empty {S} lo hi (body : Z -> S -> outcome S) s :
  hi <= lo -> for_range lo hi body s = Ok s.
Proof. intros H. unfold for_range. by replace (Z.to_nat (hi - lo)) with O by lia. Qed.

Lemma for_range_step {S} lo hi (body : Z -> S -> outcome S) s :
  lo < hi -> for_range lo hi body s = (s' ← body lo s; for_range (lo + 1) hi body s').
Proof.
  intros H. unfold for_range.
  replace (Z.to_nat (hi - lo)) with (Datatypes.S (Z.to_nat (hi - (lo + 1)))) by lia.
  reflexivity.
Qed.

Lemma for_up_app {S} n m i (body : Z -> S -> outcome S) s :
  for_up (n + m) i body s = (s' ← for_up n i body s; for_up m (i + Z.of_nat n) body s').
Proof.
  revert i s. induction n as [|n IH]; intros i s; cbn [Nat.add for_up].
  - cbn. by rewrite Z.add_0_r.
  - destruct (body i s) as [s'|e]; [|done]. cbn [mbind outcome_bind]. rewrite IH.
    by replace (i + 1 + Z.of_nat n) with (i + Z.of_nat (Datatypes.S n)) by lia.
Qed.

Lemma for_range_split {S} lo mid hi (body : Z -> S -> outcome S) s :
  lo <= mid <= hi ->
  for_range lo hi body s = (s' ← for_range lo mid body s; for_range mid hi body s').
Proof.
  intros H. unfold for_range.
  replace (Z.to_nat (hi - lo)) with (Z.to_nat (mid - lo) + Z.to_nat (hi - mid))%nat by lia.
  rewrite for_up_app. by replace (lo + Z.of_nat (Z.to_nat (mid - lo))) with mid by lia.
Qed.

Lemma wp_for_dn {S} (I : Z -> S -> Prop) n i body s :
  I i s ->
  (forall j t, i - Z.of_nat n < j <= i -> I j t -> wp (body j t) (I (j - 1))) ->
  wp (for_dn n i body s) (I (i - Z.of_nat n)).
Proof.
  revert i s. induction n as [|n IH]; intros i s H0 Hstep; cbn [for_dn].
  - apply wp_ret. by replace (i - Z.of_nat 0) with i by lia.
  - apply wp_bind. eapply wp_mono; [apply Hstep; [lia|exact H0]|].
    intros t Ht.
    replace (i - Z.of_nat (Datatypes.S n)) with ((i - 1) - Z.of_nat n) by lia.
    apply IH; [exact Ht|]. intros j u Hj. apply Hstep. lia.
Qed.

Lemma wp_for_down {S} (I : Z -> S -> Prop) (Q : S -> Prop) hi lo body s :
  lo - 1 <= hi ->
  I hi s ->
  (forall i t, lo <= i <= hi -> I i t -> wp (body i t) (I (i - 1))) ->
  (forall t, I (lo - 1) t -> Q t) ->
  wp (for_down hi lo body s) Q.
Proof.
  intros Hle H0 Hstep HQ. unfold for_down.
  eapply wp_mono.
  - apply (wp_for_dn I); [exact H0|]. intros j t Hj. apply Hstep. lia.
  - intros t Ht. apply HQ.
    by replace (lo - 1) with (hi - Z.of_nat (Z.to_nat (hi - lo + 1))) by lia.
Qed.

(** The rule for [while]: an invariant and a natural measure below the fuel. *)
Lemma wp_while {S R} (I : S -> Prop) (m : S -> nat) (Q : R -> Prop)
    fuel (step : S -> outcome (S + R)) s :
  I s -> (m s < fuel)%nat ->
  (forall t, I t ->
     wp (step t) (fun r => match r with
                           | inl t' => I t' /\ (m t' < m t)%nat
                           | inr r => Q r
                           end)) ->
  wp (while_fuel fuel step s) Q.
Proof.
  intros H0 Hm Hstep. revert s H0 Hm.
  induction fuel as [|f IH]; intros s H0 Hm; [lia|]. cbn [while_fuel].
  apply wp_bind. eapply wp_mono; [apply (Hstep s H0)|].
  intros [t|r] H; [destruct H; apply IH; [done|lia] | by apply wp_ret].
Qed.

(** [for_ret lo hi body s] is a counting loop whose body may [return] from the
    function ([inr]); [inl] is the state after the last round. *)
Fixpoint for_ret_up {S R} (n : nat) (i : Z) (body : Z -> S -> outcome (S + R)) (s : S)
  : outcome (S + R) :=
  match n with
  | O => Ok (inl s)
  | Datatypes.S n' =>
      r ← body i s;
      match r with inl s' => for_ret_up n' (i + 1) body s' | inr r => Ok (inr r) end
  end.

Definition for_ret {S R} (lo hi : Z) (body : Z -> S -> outcome (S + R)) (s : S)
  : outcome (S + R) := for_ret_up (Z.to_nat (hi - lo)) lo body s.

Lemma wp_for_ret {S R} (I : Z -> S -> Prop) (Q : S + R -> Prop) lo hi body s :
  lo <= hi -> I lo s ->
  (forall i t, lo <= i < hi -> I i t ->
     wp (body i t) (fun r => match r with inl t' => I (i + 1) t' | inr _ => Q r end)) ->
  (forall t, I hi t -> Q (inl t)) ->
  wp (for_ret lo hi body s) Q.
Proof.
  intros Hle H0 Hstep HQ. unfold for_ret.
  assert (E : hi = lo + Z.of_nat (Z.to_nat (hi - lo))) by lia.
  revert E. generalize (Z.to_nat (hi - lo)) as n. intros n. revert lo s Hle H0 Hstep.
  induction n as [|n IH]; intros lo s Hle H0 Hstep E; cbn [for_ret_up].
  - apply wp_ret, HQ. by replace hi with lo by lia.
  - apply wp_bind. eapply wp_mono; [apply Hstep; [lia|done]|].
    intros [t|r] Ht; [|by apply wp_ret].
    apply IH; [lia|done| |lia]. intros j u Hj. apply Hstep. lia.
Qed.

(** A loop whose rounds keep [I] or end in the fault [e] with [X]: it ends with [I],
    or some round [k] faults and the loop over the first [k] rounds did not. *)
Lemma for_up_or {S} (I X : Z -> S -> Prop) e n i body s :
  I i s ->
  (forall j t, i <= j < i + Z.of_nat n -> I j t -> wp (body j t) (I (j + 1)) \/ (body j t = Fault e /\ X j t)) ->
  wp (for_up n i body s) (I (i + Z.of_nat n)) \/
  (for_up n i body s = Fault e /\ exists (k : nat) t, (k < n)%nat /\ for_up k i body s = Ok t /\ X (i + Z.of_nat k) t).
Proof.
  revert i s. induction n as [|n IH]; intros i s H0 Hstep; cbn [for_up].
  { left. apply wp_ret. by replace (i + Z.of_nat 0) with i by lia. }
  destruct (Hstep i s ltac:(lia) H0) as [(t & E & Ht)|[E Hx]]; rewrite E; cbn [mbind outcome_bind].
  - destruct (IH (i + 1) t Ht) as [W|(E2 & k & u & Hk & Eu & Hu)].
    + intros j u Hj. apply Hstep. lia.
    + left. by replace (i + Z.of_nat (Datatypes.S n)) with ((i + 1) + Z.of_nat n) by lia.
    + right. split; [done|]. exists (Datatypes.S k), u. split; [lia|]. cbn [for_up]. rewrite E. split; [done|].
      by replace (i + Z.of_nat (Datatypes.S k)) with ((i + 1) + Z.of_nat k) by lia.
  - right. split; [done|]. exists O, s. split; [lia|]. split; [done|]. by replace (i + Z.of_nat 0) with i by lia.
Qed.

Lemma for_range_or {S} (I X : Z -> S -> Prop) e n body s :
  0 <= n -> I 0 s ->
  (forall j t, 0 <= j < n -> I j t -> wp (body j t) (I (j + 1)) \/ (body j t = Fault e /\ X j t)) ->
  wp (for_range 0 n body s) (I n) \/
  (for_range 0 n body s = Fault e /\ exists k t, 0 <= k < n /\ for_range 0 k body s = Ok t /\ X k t).
Proof.
  intros Hn H0 Hstep. unfold for_range. rewrite Z.sub_0_r.
  destruct (for_up_or I X e (Z.to_nat n) 0 body s H0) as [W|(E & k & t & Hk & Et & Hx)].
  - intros j t Hj. apply Hstep. lia.
  - left. by replace (0 + Z.of_nat (Z.to_nat n)) with n in W by lia.
  - right. split; [done|]. exists (Z.of_nat k), t. split; [lia|]. by rewrite Z.sub_0_r, Nat2Z.id.
Qed.

(** The same for a loop with [return], when no round returns. *)
Lemma for_ret_or {S R} (I X : Z -> S -> Prop) e n (body : Z -> S -> outcome (S + R)) s :
  0 <= n -> I 0 s ->
  (forall j t, 0 <= j < n -> I j t ->
     wp (body j t) (fun r => exists t', r = inl t' /\ I (j + 1) t') \/ (body j t = Fault e /\ X j t)) ->
  wp (for_ret 0 n body s) (fun r => exists t, r = inl t /\ I n t) \/
  (for_ret 0 n body s = Fault e /\ exists k t, 0 <= k < n /\ for_ret 0 k body s = Ok (inl t) /\ X k t).
Proof.
  intros Hn H0 Hstep. unfold for_ret. rewrite Z.sub_0_r.
  enough (G : forall (m : nat) i s, I i s -> i + Z.of_nat m = n -> 0 <= i ->
    wp (for_ret_up m i body s) (fun r => exists t, r = inl t /\ I n t) \/
    (for_ret_up m i body s = Fault e /\
     exists (k : nat) t, (k < m)%nat /\ for_ret_up k i body s = Ok (inl t) /\ X (i + Z.of_nat k) t)).
  { destruct (G (Z.to_nat n) 0 s H0) as [W|(E & k & t & Hk & Et & Hx)]; [lia|lia|by left|].
    right. split; [done|]. exists (Z.of_nat k), t. split; [lia|]. by rewrite Z.sub_0_r, Nat2Z.id. }
  clear H0 s. intros m. induction m as [|m IH]; intros i s H0 Hi Hpos; cbn [for_ret_up].
  { left. apply wp_ret. exists s. split; [done|]. by replace n with i by lia. }
  destruct (Hstep i s ltac:(lia) H0) as [(r & E & t & -> & Ht)|[E Hx]]; rewrite E; cbn [mbind outcome_bind].
  - destruct (IH (i + 1) t Ht) as [W|(E2 & k & u & Hk & Eu & Hu)]; [lia|lia|by left|].
    right. split; [done|]. exists (Datatypes.S k), u. split; [lia|]. cbn [for_ret_up]. rewrite E. split; [done|].
    by replace (i + Z.of_nat (Datatypes.S k)) with ((i + 1) + Z.of_nat k) by lia.
  - right. split; [done|]. exists O, s. split; [lia|]. split; [done|]. by replace (i + Z.of_nat 0) with i by lia.
Qed.

(** More fuel does not change a result that was reached. *)
Lemma while_fuel_mono {S R} f1 f2 (step : S -> outcome (S + R)) s r :
  (f1 <= f2)%nat -> while_fuel f1 step s = Ok r -> while_fuel f2 step s = Ok r.
Proof.
  revert f2 s. induction f1 as [|f1 IH]; intros f2 s Hle H; [discriminate|].
  destruct f2 as [|f2]; [lia|]. cbn [while_fuel mbind outcome_bind] in *.
  destruct (step s) as [[s'|r']|e]; try done. apply IH; [lia|done].
Qed.

(** A loop whose step always continues never returns, whatever the fuel. *)
Lemma while_fuel_diverges {S R} (I : S -> Prop) (step : S -> outcome (S + R)) f s :
  I s -> (forall t, I t -> exists t', step t = Ok (inl t') /\ I t') ->
  while_fuel f step s = Fault OutOfFuel.
Proof.
  intros H0 Hstep. revert s H0. induction f as [|f IH]; intros s H0; [done|].
  destruct (Hstep s H0) as (t & Et & Ht). cbn [while_fuel]. rewrite Et. by apply IH.
Qed.

(** * 3. Vectors indexed by integers

    [std::vector] and C arrays are lists; an index is a [Z] because the source
    computes with signed indices.  Reading or writing outside the range is the
    fault [OutOfBounds]. *)

Definition zlen {A} (v : list A) : Z := Z.of_nat (length v).

Definition zget {A} (v : list A) (i : Z) : option A :=
  if i <? 0 then None else v !! Z.to_nat i.

Definition zset {A} (v : list A) (i : Z) (x : A) : list A :=
  if i <? 0 then v else <[Z.to_nat i := x]> v.

Definition vget {A} (v : list A) (i : Z) : outcome A :=
  match zget v i with Some x => Ok x | None => Fault OutOfBounds end.

Definition vset {A} (v : list A) (i : Z) (x : A) : outcome (list A) :=
  if (0 <=? i) && (i <? zlen v) then Ok (zset v i x) else Fault OutOfBounds.

(** [std::swap(v[i], v[j])] *)
Definition vswap {A} (v : list A) (i j : Z) : outcome (list A) :=
  a ← vget v i; b ← vget v j; v' ← vset v i b; vset v' j a.

(** A vector of [n] copies of [x]. *)
Definition zreplicate {A} (n : Z) (x : A) : list A := replicate (Z.to_nat n) x.

Section Vectors.
Context {A : Type}.
Implicit Types (v : list A) (i j : Z) (x y : A).

Lemma zlen_nonneg v : 0 <= zlen v.
Proof. unfold zlen. lia. Qed.

Lemma zget_bounds v i x : zget v i = Some x -> 0 <= i < zlen v.
Proof.
  unfold zget, zlen. destruct (Z.ltb_spec i 0); [discriminate|].
  intros H1%lookup_lt_Some. lia.
Qed.

Lemma zget_in_range v i : 0 <= i < zlen v -> exists x, zget v i = Some x.
Proof.
  unfold zget, zlen. intros H. destruct (Z.ltb_spec i 0); [lia|].
  apply lookup_lt_is_Some_2. lia.
Qed.

Lemma zget_None v i : zget v i = None <-> i < 0 \/ zlen v <= i.
Proof.
  split.
  - intros H. destruct (decide (0 <= i < zlen v)) as [Hr|]; [|lia].
    destruct (zget_in_range v i Hr). congruence.
  - intros H. destruct (zget v i) as [x|] eqn:E; [|done].
    apply zget_bounds in E. lia.
Qed.

Lemma zget_nat v (n : nat) : zget v (Z.of_nat n) = v !! n.
Proof. unfold zget. destruct (Z.ltb_spec (Z.of_nat n) 0); [lia|]. by rewrite Nat2Z.id. Qed.

Lemma zlen_zset v i x : zlen (zset v i x) = zlen v.
Proof. unfold zset, zlen. destruct (i <? 0); [done|]. by rewrite length_insert. Qed.

Lemma zget_zset_eq v i x : 0 <= i < zlen v -> zget (zset v i x) i = Some x.
Proof.
  unfold zget, zset, zlen. intros H. destruct (Z.ltb_spec i 0); [lia|].
  apply list_lookup_insert_eq. lia.
Qed.

Lemma zget_zset_ne v i j x : i <> j -> zget (zset v i x) j = zget v j.
Proof.
  unfold zget, zset. intros H.
  destruct (Z.ltb_spec i 0), (Z.ltb_spec j 0); try done.
  apply list_lookup_insert_ne. lia.
Qed.

Lemma zget_zset v i j x :
  0 <= i < zlen v ->
  zget (zset v i x) j = if decide (i = j) then Some x else zget v j.
Proof. intros H. case_decide; subst; [by apply zget_zset_eq|by apply zget_zset_ne]. Qed.

Lemma zvec_ext v w :
  zlen v = zlen w -> (forall i, 0 <= i < zlen v -> zget v i = zget w i) -> v = w.
Proof.
  intros Hl H. apply list_eq. intros n.
  destruct (decide (n < length v)%nat) as [Hn|Hn].
  - rewrite <- !zget_nat. apply H. unfold zlen. lia.
  - rewrite !lookup_ge_None_2; [done|unfold zlen in Hl; lia|lia].
Qed.

Lemma zlen_replicate n x : zlen (zreplicate n x) = Z.max 0 n.
Proof. unfold zlen, zreplicate. rewrite length_replicate. lia. Qed.

Lemma zget_replicate n x i : 0 <= i < n -> zget (zreplicate n x) i = Some x.
Proof.
  intros H. unfold zget, zreplicate. destruct (Z.ltb_spec i 0); [lia|].
  apply lookup_replicate_2. lia.
Qed.

Lemma zget_elem v i x : zget v i = Some x -> x ∈ v.
Proof.
  unfold zget. destruct (i <? 0); [discriminate|]. apply list_elem_of_lookup_2.
Qed.

Lemma zget_app_l v w i : i < zlen v -> zget (v ++ w) i = zget v i.
Proof.
  unfold zget, zlen. intros H. destruct (Z.ltb_spec i 0); [done|].
  apply lookup_app_l. lia.
Qed.

Lemma zget_app_r v w i : zlen v <= i -> zget (v ++ w) i = zget w (i - zlen v).
Proof.
  unfold zget, zlen. intros H.
  destruct (Z.ltb_spec i 0), (Z.ltb_spec (i - Z.of_nat (length v)) 0); try lia.
  rewrite lookup_app_r by lia. f_equal. lia.
Qed.

Lemma zlen_app v w : zlen (v ++ w) = zlen v + zlen w.
Proof. unfold zlen. rewrite length_app. lia. Qed.

Lemma zlen_cons x v : zlen (x :: v) = zlen v + 1.
Proof. unfold zlen. cbn. lia. Qed.

Lemma drop_zget v i x :
  zget v i = Some x -> drop (Z.to_nat i) v = x :: drop (Z.to_nat (i + 1)) v.
Proof.
  intros Hx. pose proof (zget_bounds v i x Hx). unfold zget in Hx.
  destruct (Z.ltb_spec i 0); [lia|].
  replace (Z.to_nat (i + 1)) with (S (Z.to_nat i)) by lia. by apply drop_S.
Qed.

Lemma take_zget v i x :
  zget v i = Some x -> take (Z.to_nat (i + 1)) v = take (Z.to_nat i) v ++ [x].
Proof.
  intros Hx. pose proof (zget_bounds _ _ _ Hx). unfold zget in Hx.
  destruct (Z.ltb_spec i 0); [lia|]. replace (Z.to_nat (i + 1)) with (S (Z.to_nat i)) by lia.
  by apply take_S_r.
Qed.

Lemma vget_some v i x : zget v i = Some x -> vget v i = Ok x.
Proof. unfold vget. by intros ->. Qed.

(** The element after a prefix. *)
Lemma vget_mid v x r i : i = zlen v -> vget (v ++ x :: r) i = Ok x.
Proof. intros ->. unfold vget. rewrite zget_app_r by lia. by rewrite Z.sub_diag. Qed.

Lemma zset_mid v x y r i : i = zlen v -> zset (v ++ x :: r) i y = v ++ y :: r.
Proof.
  intros ->. unfold zset, zlen. destruct (Z.ltb_spec (Z.of_nat (length v)) 0); [lia|].
  rewrite Nat2Z.id. by rewrite insert_app_r_alt, Nat.sub_diag.
Qed.

Lemma vset_mid v x y r i : i = zlen v -> vset (v ++ x :: r) i y = Ok (v ++ y :: r).
Proof.
  intros Hi. unfold vset. rewrite (zset_mid v x y r i Hi), zlen_app, zlen_cons.
  pose proof (zlen_nonneg v). pose proof (zlen_nonneg r).
  by replace (_ && _) with true by lia.
Qed.

Lemma wp_vget v i (Q : A -> Prop) :
  0 <= i < zlen v -> (forall x, zget v i = Some x -> Q x) -> wp (vget v i) Q.
Proof.
  intros Hr HQ. destruct (zget_in_range v i Hr) as [x Hx].
  exists x. unfold vget. rewrite Hx. auto.
Qed.

Lemma wp_vset v i x (Q : list A -> Prop) :
  0 <= i < zlen v -> Q (zset v i x) -> wp (vset v i x) Q.
Proof.
  intros Hr HQ. exists (zset v i x). unfold vset.
  destruct (Z.leb_spec 0 i), (Z.ltb_spec i (zlen v)); try lia. auto.
Qed.

(** The vector after [std::swap(v[i], v[j])]. *)
Definition zswap v i j : list A :=
  match zget v i, zget v j with
  | Some a, Some b => zset (zset v i b) j a
  | _, _ => v
  end.

Lemma wp_vswap v i j (Q : list A -> Prop) :
  0 <= i < zlen v -> 0 <= j < zlen v -> Q (zswap v i j) -> wp (vswap v i j) Q.
Proof.
  intros Hi Hj HQ. unfold vswap, zswap in *.
  apply wp_bind, wp_vget; [done|]. intros a Ha.
  apply wp_bind, wp_vget; [done|]. intros b Hb. rewrite Ha, Hb in HQ.
  apply wp_bind, wp_vset; [done|]. apply wp_vset; [by rewrite zlen_zset|done].
Qed.

Lemma zlen_zswap v i j : zlen (zswap v i j) = zlen v.
Proof. unfold zswap. repeat case_match; by rewrite ?zlen_zset. Qed.

Lemma zget_zswap v i j k :
  0 <= i < zlen v -> 0 <= j < zlen v ->
  zget (zswap v i j) k =
    if decide (k = i) then zget v j else if decide (k = j) then zget v i else zget v k.
Proof.
  intros Hi Hj. unfold zswap.
  destruct (zget_in_range v i Hi) as [a Ha], (zget_in_range v j Hj) as [b Hb].
  rewrite Ha, Hb. rewrite zget_zset by by rewrite zlen_zset.
  rewrite zget_zset by done.
  repeat case_decide; subst; congruence.
Qed.

Lemma zswap_perm v i j : zswap v i j ≡ₚ v.
Proof.
  unfold zswap, zset, zget.
  destruct (i <? 0); [done|]. destruct (j <? 0); [by destruct (v !! _)|].
  destruct (v !! Z.to_nat i) as [a|] eqn:Ha; [|done].
  destruct (v !! Z.to_nat j) as [b|] eqn:Hb; [|done].
  set (p := Z.to_nat i) in *. set (q := Z.to_nat j) in *. clearbody p q.
  destruct (decide (p = q)) as [<-|Hne].
  { rewrite list_insert_insert_eq. rewrite list_insert_id; [done|congruence]. }
  apply Permutation_insert_swap; done.
Qed.
End Vectors.

(** ** Vectors given by a function of the index *)

Lemma zlen_fmap_seqZ {A} (f : Z -> A) off n : 0 <= n -> zlen (f <$> seqZ off n) = n.
Proof. intros Hn. unfold zlen. rewrite length_fmap, length_seqZ. lia. Qed.

Lemma zget_fmap_seqZ {A} (f : Z -> A) off n i : 0 <= i < n -> zget (f <$> seqZ off n) i = Some (f (off + i)).
Proof.
  intros Hi. unfold zget. destruct (Z.ltb_spec i 0); [lia|].
  rewrite list_lookup_fmap, lookup_seqZ_lt by lia. cbn. do 2 f_equal. lia.
Qed.

Lemma zlen_seqZ n : 0 <= n -> zlen (seqZ 0 n) = n.
Proof. intros Hn. unfold zlen. rewrite length_seqZ. lia. Qed.

Lemma zget_seqZ n i : 0 <= i < n -> zget (seqZ 0 n) i = Some i.
Proof. intros Hi. rewrite <- (list_fmap_id (seqZ 0 n)). by rewrite zget_fmap_seqZ. Qed.

Lemma seqZ_1 m : seqZ m 1 = [m].
Proof. unfold seqZ. change (seq 0 (Z.to_nat 1)) with [0%nat]. cbn. f_equal. Qed.

(** A loop over a vector that stops with [bad] at the first element that fails
    the test. *)
Lemma for_ret_forallb {A S R} (P : A -> bool) (v : list A) (body : Z -> S -> outcome (S + R))
    (st : S) (bad : R) :
  (forall i x, zget v i = Some x -> body i st = Ok (if P x then inl st else inr bad)) ->
  for_ret 0 (zlen v) body st = Ok (if forallb P v then inl st else inr bad).
Proof.
  intros Hb. unfold for_ret.
  replace (Z.to_nat (zlen v - 0)) with (length v) by (unfold zlen; lia).
  enough (H : forall pre suf, v = pre ++ suf ->
    for_ret_up (length suf) (zlen pre) body st = Ok (if forallb P suf then inl st else inr bad))
    by by apply (H []).
  intros pre suf. revert pre. induction suf as [|x r IH]; intros pre E; [done|].
  cbn [length for_ret_up forallb]. rewrite (Hb (zlen pre) x).
  2: { rewrite E, zget_app_r by lia. by rewrite Z.sub_diag. }
  destruct (P x); [|done]. cbn [mbind outcome_bind andb].
  specialize (IH (pre ++ [x])). rewrite zlen_app in IH. apply IH. by rewrite <- app_assoc.
Qed.

(** * 4. Automation

    [zlen] normalises lengths; [wp_step] runs one step of the program under a
    [wp], leaving only the side conditions [lia] cannot close. *)

Create Rewrite HintDb zlen.
#[export] Hint Rewrite @zlen_zset @zlen_zswap @zlen_app @zlen_cons @zlen_replicate : zlen.

Create HintDb outcome.
#[export] Hint Resolve wp_ret wp_mret wp_require : outcome.

Ltac zlia := autorewrite with zlen in *; lia.

Ltac wp_step :=
  lazymatch goal with
  | |- wp (_ ≫= _) _ => apply wp_bind
  | |- wp (Ok _) _ => apply wp_ret
  | |- wp (mret _) _ => apply wp_mret
  | |- wp (vget _ _) _ => apply wp_vget; [try zlia|intros ? ?]
  | |- wp (vset _ _ _) _ => apply wp_vset; [try zlia|]
  | |- wp (vswap _ _ _) _ => apply wp_vswap; [try zlia|try zlia|]
  | |- wp (require _ _) _ => apply wp_require
  end.

Ltac wp_steps := repeat (wp_step; cbv beta).

(** Case split on a boolean integer comparison in the goal. *)
Ltac zcase :=
  match goal with
  | |- context [?a <? ?b] => destruct (Z.ltb_spec a b)
  | |- context [?a <=? ?b] => destruct (Z.leb_spec a b)
  | |- context [?a =? ?b] => destruct (Z.eqb_spec a b)
  end.

(** * 5. Machine integers

    A [w]-bit unsigned value is a [Z] in [0, 2^w) and a signed one a [Z] in
    [-2^(w-1), 2^(w-1)); arithmetic is done in [Z] and wrapped explicitly.  The
    bitwise operators of the source are those of [Z] (two's complement). *)

Definition u8 (x : Z) : Z := x mod 2 ^ 8.
Definition u32 (x : Z) : Z := x mod 2 ^ 32.
Definition u64 (x : Z) : Z := x mod 2 ^ 64.
Definition s32 (x : Z) : Z := (x + 2 ^ 31) mod 2 ^ 32 - 2 ^ 31.
Definition s64 (x : Z) : Z := (x + 2 ^ 63) mod 2 ^ 64 - 2 ^ 63.

Definition int_min : Z := - 2 ^ 31.
Definition int_max : Z := 2 ^ 31 - 1.

Definition is_s32 (x : Z) : Prop := - 2 ^ 31 <= x < 2 ^ 31.
Definition is_u8 (x : Z) : Prop := 0 <= x < 2 ^ 8.
Definition is_u32 (x : Z) : Prop := 0 <= x < 2 ^ 32.
Definition is_u64 (x : Z) : Prop := 0 <= x < 2 ^ 64.

Lemma s32_range x : is_s32 (s32 x).
Proof. unfold is_s32, s32. pose proof (Z.mod_pos_bound (x + 2 ^ 31) (2 ^ 32)). lia. Qed.

Lemma u32_range x : is_u32 (u32 x).
Proof. apply Z.mod_pos_bound. lia. Qed.

Lemma u64_range x : is_u64 (u64 x).
Proof. apply Z.mod_pos_bound. lia. Qed.

Lemma u8_range x : is_u8 (u8 x).
Proof. apply Z.mod_pos_bound. lia. Qed.

Lemma s32_id x : is_s32 x -> s32 x = x.
Proof. unfold is_s32, s32. intros H. rewrite Z.mod_small; lia. Qed.

(** The upper half of the unsigned range is the negative half of the signed one. *)
Lemma s32_upper x : 2 ^ 31 <= x < 2 ^ 32 -> s32 x = x - 2 ^ 32.
Proof.
  intros Hx. unfold s32. replace (x + 2 ^ 31) with (x - 2 ^ 31 + 1 * 2 ^ 32) by lia.
  rewrite Z.mod_add by lia. rewrite Z.mod_small; lia.
Qed.

Lemma s64_id x : - 2 ^ 63 <= x < 2 ^ 63 -> s64 x = x.
Proof. intros Hx. unfold s64. rewrite Z.mod_small; lia. Qed.

Lemma u32_id x : is_u32 x -> u32 x = x.
Proof. apply Z.mod_small. Qed.

Lemma u64_id x : is_u64 x -> u64 x = x.
Proof. apply Z.mod_small. Qed.

Lemma u8_id x : is_u8 x -> u8 x = x.
Proof. apply Z.mod_small. Qed.

Lemma u64_add_l a b : u64 (u64 a + b) = u64 (a + b).
Proof. apply Zplus_mod_idemp_l. Qed.

Lemma u64_add_r a b : u64 (a + u64 b) = u64 (a + b).
Proof. apply Zplus_mod_idemp_r. Qed.

Lemma u64_mul_l a b : u64 (u64 a * b) = u64 (a * b).
Proof. apply Zmult_mod_idemp_l. Qed.

Lemma u64_mul_r a b : u64 (a * u64 b) = u64 (a * b).
Proof. apply Zmult_mod_idemp_r. Qed.

Lemma u64_sub_r a b : u64 (a - u64 b) = u64 (a - b).
Proof. apply Zminus_mod_idemp_r. Qed.

Lemma u64_sub_l a b : u64 (u64 a - b) = u64 (a - b).
Proof. apply Zminus_mod_idemp_l. Qed.

(** The signed wrap-around only depends on the value modulo 2^32. *)
Lemma s32_congr x y : x mod 2 ^ 32 = y mod 2 ^ 32 -> s32 x = s32 y.
Proof.
  intros H. unfold s32. rewrite Zplus_mod, H, <- Zplus_mod. done.
Qed.

Lemma s32_mod x : s32 x mod 2 ^ 32 = x mod 2 ^ 32.
Proof.
  unfold s32. rewrite Zminus_mod_idemp_l. f_equal. lia.
Qed.

Lemma s32_add_l a b : s32 (s32 a + b) = s32 (a + b).
Proof. apply s32_congr. by rewrite Z.add_mod, s32_mod, <- Z.add_mod by lia. Qed.

Lemma s32_add_r a b : s32 (a + s32 b) = s32 (a + b).
Proof. rewrite Z.add_comm, s32_add_l. f_equal. lia. Qed.

Lemma s32_mul_r a b : s32 (a * s32 b) = s32 (a * b).
Proof. apply s32_congr. by rewrite Z.mul_mod, s32_mod, <- Z.mul_mod by lia. Qed.

Lemma s32_s32 x : s32 (s32 x) = s32 x.
Proof. apply s32_congr, s32_mod. Qed.

Lemma s64_congr x y : x mod 2 ^ 64 = y mod 2 ^ 64 -> s64 x = s64 y.
Proof.
  unfold s64. intros E. f_equal. rewrite (Z.add_mod x), (Z.add_mod y) by lia. by rewrite E.
Qed.

Lemma s64_mod x : s64 x mod 2 ^ 64 = x mod 2 ^ 64.
Proof.
  unfold s64. rewrite Zminus_mod_idemp_l. f_equal. lia.
Qed.

(** A wrapped value differs by a multiple of 2^64. *)
Lemma s64_multiple x : exists q, s64 x = x + q * 2 ^ 64.
Proof. exists (- ((x + 2 ^ 63) / 2 ^ 64)). unfold s64. pose proof (Z.div_mod (x + 2 ^ 63) (2 ^ 64)). lia. Qed.

Lemma s32_s64 x : s32 (s64 x) = s32 x.
Proof.
  apply s32_congr. destruct (s64_multiple x) as [q ->].
  replace (x + q * 2 ^ 64) with (x + q * 2 ^ 32 * 2 ^ 32) by lia. by rewrite Z.mod_add.
Qed.

Lemma s64_add_l a b : s64 (s64 a + b) = s64 (a + b).
Proof. apply s64_congr. by rewrite Z.add_mod, s64_mod, <- Z.add_mod by lia. Qed.

#[export] Hint Resolve s32_range u32_range u64_range u8_range : outcome.

(** Masking with [2^n - 1] is the remainder. *)
Lemma land_mask x n : 0 <= n -> Z.land x (2 ^ n - 1) = x mod 2 ^ n.
Proof. intros H. rewrite <- Z.land_ones by done. by rewrite Z.ones_equiv, Z.sub_1_r. Qed.

(** Clearing the [k] low bits of a 64-bit value. *)
Lemma land_align k x : 0 <= k <= 64 -> is_u64 x -> Z.land x (2 ^ 64 - 2 ^ k) = 2 ^ k * (x / 2 ^ k).
Proof.
  unfold is_u64. intros Hk Hx.
  assert (E : 2 ^ 64 - 2 ^ k = Z.ldiff (Z.ones 64) (Z.ones k)).
  { rewrite Z.ldiff_ones_r, Z.shiftl_mul_pow2, Z.shiftr_div_pow2 by lia. rewrite Z.ones_equiv, <- Z.sub_1_r.
    replace 64 with ((64 - k) + k) at 1 2 by lia. rewrite Z.pow_add_r by lia. assert (0 < 2 ^ k) by lia.
    rewrite <- (Z.div_unique_pos (2 ^ (64 - k) * 2 ^ k - 1) (2 ^ k) (2 ^ (64 - k) - 1) (2 ^ k - 1)); lia. }
  rewrite E, Z.ldiff_land, Z.land_assoc, Z.land_ones by lia. rewrite Z.mod_small by lia.
  rewrite <- Z.ldiff_land, Z.ldiff_ones_r by lia. rewrite Z.shiftl_mul_pow2, Z.shiftr_div_pow2 by lia. lia.
Qed.

Lemma land_align8 x : is_u64 x -> Z.land x (2 ^ 64 - 8) = 8 * (x / 8).
Proof. apply (land_align 3). lia. Qed.

(** * 6. Orderings

    The templates of the source compare with [operator<] (and [operator>] with
    the arguments exchanged).  The class states what they rely on: a strict
    weak order, so that "not less" is a total preorder. *)

Class StrictWeak (T : Type) := {
  ltb : T -> T -> bool;
  ltb_asym : forall a b, ltb a b = true -> ltb b a = false;
  ltb_ntrans : forall a b c, ltb b a = false -> ltb c b = false -> ltb c a = false
}.

Definition leT {T} `{StrictWeak T} (a b : T) : Prop := ltb b a = false.

#[export] Program Instance Z_strict_weak : StrictWeak Z := {| ltb := Z.ltb |}.
Next Obligation. intros a b. rewrite Z.ltb_lt, Z.ltb_ge. lia. Qed.
Next Obligation. intros a b c. rewrite !Z.ltb_ge. lia. Qed.

Section Orders.
Context {T : Type} `{StrictWeak T}.

#[export] Instance leT_preorder : PreOrder leT.
Proof.
  split.
  - intros a. unfold leT. destruct (ltb a a) eqn:E; [|done].
    by rewrite (ltb_asym _ _ E) in E.
  - intros a b c. unfold leT. apply ltb_ntrans.
Qed.

Lemma leT_total a b : leT a b \/ leT b a.
Proof. unfold leT. destruct (ltb b a) eqn:E; [right|auto]. by apply ltb_asym. Qed.

Lemma ltb_true_leT a b : ltb a b = true -> leT a b.
Proof. apply ltb_asym. Qed.

(** [sorted v]: no element is smaller than an earlier one. *)
Definition sorted (v : list T) : Prop :=
  forall i j x y, i <= j -> zget v i = Some x -> zget v j = Some y -> leT x y.

(** [sorted_on v lo hi]: the slice [lo, hi) of [v] is in order. *)
Definition sorted_on (v : list T) (lo hi : Z) : Prop :=
  forall i j x y, lo <= i -> i <= j -> j < hi ->
    zget v i = Some x -> zget v j = Some y -> leT x y.

Lemma sorted_on_all v : sorted_on v 0 (zlen v) -> sorted v.
Proof.
  intros Hs i j x y Hij Hi Hj.
  pose proof (zget_bounds _ _ _ Hi). pose proof (zget_bounds _ _ _ Hj).
  by apply (Hs i j); try lia.
Qed.

(** A slice is in order when its neighbours are. *)
Lemma sorted_on_adjacent v lo hi :
  0 <= lo -> hi <= zlen v ->
  (forall i x y, lo <= i -> i + 1 < hi ->
     zget v i = Some x -> zget v (i + 1) = Some y -> leT x y) ->
  sorted_on v lo hi.
Proof.
  intros Hlo Hhi Hadj i j x y Hi Hij Hj Hx Hy.
  replace j with (i + Z.of_nat (Z.to_nat (j - i))) in * by lia.
  remember (Z.to_nat (j - i)) as d eqn:Ed. clear Ed.
  revert y Hj Hy. induction d as [|d IH]; intros y Hj Hy.
  - replace (i + Z.of_nat 0) with i in Hy by lia.
    assert (x = y) by congruence. subst. reflexivity.
  - destruct (zget_in_range v (i + Z.of_nat d)) as [z Hz]; [lia|].
    transitivity z; [apply IH; [lia|lia|done]|].
    apply (Hadj (i + Z.of_nat d)); try lia; [done|].
    by replace (i + Z.of_nat d + 1) with (i + Z.of_nat (S d)) by lia.
Qed.
End Orders.

Definition is_nil {A} (l : list A) : bool := match l with [] => true | _ => false end.

(** Lists updated at an index. *)

Section Lists.
Context {A B : Type}.

Lemma insert_elem (i : nat) (x y : A) (l : list A) : y ∈ <[i := x]> l -> y = x \/ y ∈ l.
Proof.
  intros [k Hk]%list_elem_of_lookup. apply list_lookup_insert_Some in Hk as [(_ & -> & _)|[_ Hk]]; [by left|].
  right. apply list_elem_of_lookup. eauto.
Qed.

Lemma insert_elem_new (i : nat) (x y : A) (l : list A) : l !! i = Some y -> x ∈ <[i := x]> l.
Proof. intros H. apply list_elem_of_lookup. exists i. apply list_lookup_insert_eq. by eapply lookup_lt_Some. Qed.

Lemma insert_elem_old (i : nat) (x y z : A) (l : list A) : l !! i = Some y -> z ∈ l -> z <> y -> z ∈ <[i := x]> l.
Proof.
  intros Hi [k Hk]%list_elem_of_lookup Hne. apply list_elem_of_lookup. exists k.
  rewrite list_lookup_insert_ne; [done|]. intros ->. congruence.
Qed.

Lemma sum_insert (f : A -> nat) (i : nat) x y (l : list A) :
  l !! i = Some y -> (sum_list_with f (<[i := x]> l) + f y = sum_list_with f l + f x)%nat.
Proof.
  revert i. induction l as [|z l IH]; intros [|i] H; cbn in *; simplify_eq; [lia|]. specialize (IH i H). rewrite <- !Nat.add_assoc. f_equal. exact IH.
Qed.

Lemma omap_insert (f : A -> option B) (i : nat) x y (l : list A) :
  l !! i = Some y -> omap f (<[i := x]> l) ++ option_list (f y) ≡ₚ omap f l ++ option_list (f x).
Proof.
  revert i. induction l as [|z l IH]; intros [|i] H; cbn in *; simplify_eq.
  - destruct (f x), (f y); cbn; rewrite ?app_nil_r; try done.
    + rewrite <- !Permutation_cons_append. constructor.
    + by rewrite <- Permutation_cons_append.
    + by rewrite <- Permutation_cons_append.
  - specialize (IH i H). destruct (f z); cbn; [by rewrite IH|done].
Qed.
End Lists.

(** * Range-based loops *)

(** [for (const auto& x : l)] *)
Fixpoint for_each {A S} (l : list A) (body : A -> S -> outcome S) (s : S) : outcome S :=
  match l with [] => Ok s | x :: l => s ← body x s; for_each l body s end.

(** [I] holds of the elements already seen and the state. *)
Lemma wp_for_each {A S} (I : list A -> S -> Prop) (l : list A) (body : A -> S -> outcome S) (s : S) :
  I [] s -> (forall seen x rest s, l = seen ++ x :: rest -> I seen s -> wp (body x s) (fun s' => I (seen ++ [x]) s')) ->
  wp (for_each l body s) (I l).
Proof.
  intros H0 Hstep. enough (G : forall l' seen s, l = seen ++ l' -> I seen s -> wp (for_each l' body s) (I l)) by (by apply (G l [])).
  induction l' as [|x l' IH]; intros seen t E Ht; cbn [for_each].
  - rewrite app_nil_r in E. subst. by apply wp_ret.
  - apply wp_bind. eapply wp_mono; [by eapply Hstep|]. intros t' Ht'. apply (IH (seen ++ [x])); [by rewrite <- app_assoc|done].
Qed.

(** A range-based loop whose body may return from the function. *)
Fixpoint for_each_ret {A S R} (l : list A) (body : A -> S -> outcome (S + R)) (s : S) : outcome (S + R) :=
  match l with
  | [] => Ok (inl s)
  | x :: l => r ← body x s; match r with inl s => for_each_ret l body s | inr r => Ok (inr r) end
  end.

(** * Partial correctness: what holds of a result if there is one *)

Definition wlp {A} (m : outcome A) (Q : A -> Prop) : Prop := forall a, m = Ok a -> Q a.

Lemma wlp_ret {A} (a : A) (Q : A -> Prop) : Q a -> wlp (Ok a) Q.
Proof. by intros ? ? [= <-]. Qed.

Lemma wlp_fault {A} e (Q : A -> Prop) : wlp (Fault e) Q.
Proof. intros ? [=]. Qed.

Lemma wlp_any {A} (m : outcome A) : wlp m (fun _ => True).
Proof. by intros ? _. Qed.

Lemma wlp_bind {A B} (m : outcome A) (k : A -> outcome B) (P : A -> Prop) (Q : B -> Prop) :
  wlp m P -> (forall a, P a -> wlp (k a) Q) -> wlp (m ≫= k) Q.
Proof. intros Hm Hk b. destruct m as [a|]; [|done]. cbn. by apply Hk, Hm. Qed.

Lemma wlp_mono {A} (m : outcome A) (P Q : A -> Prop) : wlp m P -> (forall a, P a -> Q a) -> wlp m Q.
Proof. intros H HPQ a E. by apply HPQ, H. Qed.

Lemma wlp_for_range {S} (I : Z -> S -> Prop) lo hi body s :
  lo <= hi -> I lo s -> (forall i t, lo <= i < hi -> I i t -> wlp (body i t) (I (i + 1))) ->
  wlp (for_range lo hi body s) (I hi).
Proof.
  intros Hle H0 Hb. unfold for_range. remember (Z.to_nat (hi - lo)) as n eqn:En.
  revert lo s Hle H0 Hb En. induction n as [|n IH]; intros lo s Hle H0 Hb En; cbn [for_up].
  - apply wlp_ret. by replace hi with lo by lia.
  - apply wlp_bind with (I (lo + 1)); [apply Hb; [lia|done]|]. intros t Ht.
    apply IH; [lia|done| |lia]. intros i u Hi. apply Hb. lia.
Qed.

(** A loop whose rounds all keep [P]. *)
Lemma wlp_for_range_inv {S} (P : S -> Prop) lo hi body s :
  P s -> (forall i t, P t -> wlp (body i t) P) -> wlp (for_range lo hi body s) P.
Proof.
  intros H0 Hb. destruct (Z.le_gt_cases lo hi) as [Hle|Hgt].
  - apply (wlp_for_range (fun _ => P)); auto.
  - rewrite for_range_empty by lia. by apply wlp_ret.
Qed.

Lemma wlp_for_ret_inv {S R} (P : S -> Prop) (Q : R -> Prop) lo hi body s :
  P s -> (forall i t, P t -> wlp (body i t) (fun r => match r with inl t => P t | inr r => Q r end)) ->
  wlp (for_ret lo hi body s) (fun r => match r with inl t => P t | inr r => Q r end).
Proof.
  intros H0 Hb. unfold for_ret. generalize (Z.to_nat (hi - lo)) as n. intros n. revert lo s H0.
  induction n as [|n IH]; intros lo s H0; cbn [for_ret_up]; [by apply wlp_ret|].
  eapply wlp_bind; [by apply Hb|]. intros [t|r] Hr; [by apply IH|by apply wlp_ret].
Qed.

Lemma wlp_for_each {A S} (P : S -> Prop) (l : list A) body s :
  P s -> (forall x t, P t -> wlp (body x t) P) -> wlp (for_each l body s) P.
Proof.
  intros H0 Hb. revert s H0. induction l as [|x l IH]; intros s H0; cbn [for_each]; [by apply wlp_ret|].
  apply wlp_bind with P; auto.
Qed.

(** Skip a computation whose result does not matter. *)
Ltac wskip := eapply wlp_bind; [apply wlp_any|]; intros ? _.
