(* ===== verification/CString.v ===== *)
(** Characters and C strings, as lists of character codes: the parts of
    <ctype.h>, [strtoll] and the decimal notation that the command-line and
    trace-file readers of the labs use. *)

From S2P Require Import Prelude.

(** * Characters *)
Definition isspace (c : Z) : bool := (c =? 32) || ((9 <=? c) && (c <=? 13)).
Definition isdigit (c : Z) : bool := (48 <=? c) && (c <=? 57).

Fixpoint span (P : Z -> bool) (l : list Z) : list Z * list Z :=
  match l with
  | [] => ([], [])
  | c :: r => if P c then let '(a, b) := span P r in (c :: a, b) else ([], c :: r)
  end.

Definition skip_ws (l : list Z) : list Z := (span isspace l).2.

Definition digits_val (ds : list Z) : Z := foldl (fun acc c => acc * 10 + (c - 48)) 0 ds.

(** Decimal notation of a number of at most [fuel] digits. *)
Fixpoint dec_digits (fuel : nat) (n : Z) : list Z :=
  match fuel with
  | O => []
  | S f => if n <? 10 then [48 + n] else dec_digits f (n / 10) ++ [48 + n mod 10]
  end.

Definition all_digits (l : list Z) : Prop := Forall (fun c => isdigit c = true) l.

Lemma dec_digits_ok f n :
  0 <= n < 10 ^ Z.of_nat f -> (0 < f)%nat ->
  all_digits (dec_digits f n) /\ dec_digits f n <> [] /\ digits_val (dec_digits f n) = n.
Proof.
  revert n. induction f as [|f IH]; intros n Hn Hf; [lia|]. cbn [dec_digits].
  rewrite Nat2Z.inj_succ, Z.pow_succ_r in Hn by lia.
  pose proof (Z.div_mod n 10). pose proof (Z.mod_pos_bound n 10).
  destruct (Z.ltb_spec n 10) as [Hlt|Hge].
  - split; [|split; [done|cbn; lia]]. constructor; [unfold isdigit; lia|constructor].
  - assert (0 < n / 10) by (apply Z.div_str_pos; lia).
    destruct (IH (n / 10)) as (IH1 & IH2 & IH3).
    + split; [lia|]. apply Z.div_lt_upper_bound; lia.
    + destruct f; [cbn in Hn; lia|lia].
    + split; [|split; [by intros [_ ?]%app_nil|]].
      * apply Forall_app_2; [done|]. constructor; [unfold isdigit; lia|constructor].
      * unfold digits_val in *. rewrite foldl_app, IH3. cbn. lia.
Qed.

Lemma span_stop (P : Z -> bool) l c r :
  Forall (fun x => P x = true) l -> P c = false -> span P (l ++ c :: r) = (l, c :: r).
Proof. intros Hl Hc. induction Hl as [|x l Hx _ IH]; cbn; [by rewrite Hc|]. by rewrite Hx, IH. Qed.

Lemma digit_not_space c : isdigit c = true -> isspace c = false.
Proof. unfold isdigit, isspace. lia. Qed.


(** * strtoll with base 0 *)

Definition isxdigit (c : Z) : bool :=
  isdigit c || ((65 <=? c) && (c <=? 70)) || ((97 <=? c) && (c <=? 102)).
Definition isodigit (c : Z) : bool := (48 <=? c) && (c <=? 55).

Definition xdigit_val (c : Z) : Z :=
  if isdigit c then c - 48 else if c <=? 70 then c - 55 else c - 87.

Definition base_val (base : Z) (ds : list Z) : Z :=
  foldl (fun acc c => acc * base + xdigit_val c) 0 ds.

(** The sign and the rest of a number. *)
Definition scan_sign (l : list Z) : Z * list Z :=
  match l with
  | c :: r => if c =? 45 then (-1, r) else if c =? 43 then (1, r) else (1, l)
  | [] => (1, l)
  end.

Definition llong_min : Z := - 2 ^ 63.
Definition llong_max : Z := 2 ^ 63 - 1.

(** Out of range values saturate. *)
Definition saturate (v : Z) : Z :=
  if v <? llong_min then llong_min else if llong_max <? v then llong_max else v.

(** The value of [strtoll(s, &endp, 0)]: white space, a sign, and a hexadecimal
    (0x), octal (0) or decimal number; 0 if there is none. *)
Definition strtoll (s : list Z) : Z :=
  let '(sgn, l) := scan_sign (skip_ws s) in
  let v :=
    match l with
    | 48 :: x :: d :: r =>
        if ((x =? 120) || (x =? 88)) && isxdigit d
        then base_val 16 (span isxdigit (d :: r)).1
        else base_val 8 (span isodigit l).1
    | 48 :: _ => base_val 8 (span isodigit l).1
    | _ => digits_val (span isdigit l).1
    end in
  saturate (sgn * v).
