(* ===== verification/Getopt.v ===== *)
(** The command line: [getopt] of unistd.h, as the [main] functions of
    [mdriver.c] and [btest.c] use it, and string literals.

    [getopt_all optstring args] lists the results of calling
    [getopt(argc, argv, optstring)] until it returns -1: the character and
    [optarg] ([[]] for an option without argument).  An argument that does not
    start with '-' is skipped (the library permutes it to the end), "--" ends
    the options, and an unknown option or a missing argument is the result '?'. *)

From Stdlib Require Import Ascii String.
From S2P Require Import Prelude.

(** The character codes of a literal, and the code of a one-character literal. *)
Definition cstr (s : string) : list Z :=
  (fun a => Z.of_nat (nat_of_ascii a)) <$> list_ascii_of_string s.

Definition chr (s : string) : Z := default 0 (head (cstr s)).

Definition COLON : Z := 58.
Definition DASH : Z := 45.
Definition QUESTION : Z := 63.

(** [None]: not an option; [Some b]: an option, [b] if it takes an argument. *)
Fixpoint opt_kind (optstring : list Z) (c : Z) : option bool :=
  match optstring with
  | [] => None
  | o :: rest =>
      if (o =? c) && negb (c =? COLON)
      then Some (match rest with a :: _ => a =? COLON | [] => false end)
      else opt_kind rest c
  end.

(** The characters behind a dash; [next] is the following element of [argv].
    The boolean tells whether it was consumed as an argument. *)
Fixpoint scan_cluster (optstring cluster : list Z) (next : option (list Z))
  : list (Z * list Z) * bool :=
  match cluster with
  | [] => ([], false)
  | c :: r =>
      match opt_kind optstring c with
      | None => let '(l, u) := scan_cluster optstring r next in ((QUESTION, []) :: l, u)
      | Some false => let '(l, u) := scan_cluster optstring r next in ((c, []) :: l, u)
      | Some true =>
          match r, next with
          | _ :: _, _ => ([(c, r)], false)
          | [], Some a => ([(c, a)], true)
          | [], None => ([(QUESTION, [])], false)
          end
      end
  end.

Fixpoint getopt_all (optstring : list Z) (args : list (list Z)) : list (Z * list Z) :=
  match args with
  | [] => []
  | a :: rest =>
      match a with
      | d :: cluster =>
          if (d =? DASH) && negb (bool_decide (cluster = [])) then
            if bool_decide (cluster = [DASH]) then []
            else
              let '(l, used) := scan_cluster optstring cluster (head rest) in
              l ++ match rest with
                   | _ :: rest' => if used then getopt_all optstring rest' else getopt_all optstring rest
                   | [] => []
                   end
          else getopt_all optstring rest
      | [] => getopt_all optstring rest
      end
  end.

(** The results for a line that uses every form. *)
Example getopt_forms :
  getopt_all (cstr "f:t:hvVgal")
    (cstr <$> ["-vg"; "x.rep"; "-t"; "dir"; "-fa.rep"; "-z"; "--"; "-l"]%string) =
  [(chr "v", []); (chr "g", []); (chr "t", cstr "dir"); (chr "f", cstr "a.rep"); (QUESTION, [])].
Proof. vm_compute. reflexivity. Qed.

(** A result is '?', or an option of [optstring]. *)
Lemma getopt_known optstring args c a :
  (c, a) ∈ getopt_all optstring args -> c = QUESTION \/ is_Some (opt_kind optstring c).
Proof.
  assert (Hc : forall cluster next, (c, a) ∈ (scan_cluster optstring cluster next).1 ->
    c = QUESTION \/ is_Some (opt_kind optstring c)).
  { induction cluster as [|x r IH]; intros next; cbn [scan_cluster]; [by rewrite elem_of_nil|].
    destruct (opt_kind optstring x) as [[]|] eqn:E.
    - destruct r, next; cbn [fst]; rewrite list_elem_of_singleton; intros [= -> ?]; eauto.
    - specialize (IH next). destruct (scan_cluster optstring r next). cbn [fst] in *.
      rewrite elem_of_cons. intros [[= -> ?]|?]; eauto.
    - specialize (IH next). destruct (scan_cluster optstring r next). cbn [fst] in *.
      rewrite elem_of_cons. intros [[= -> ?]|?]; eauto. }
  assert (G : forall n args, (length args <= n)%nat -> (c, a) ∈ getopt_all optstring args ->
    c = QUESTION \/ is_Some (opt_kind optstring c)).
  { induction n as [|n IH]; intros [|x rest] Hn; cbn [getopt_all] in *; try by rewrite elem_of_nil.
    { cbn in Hn. lia. }
    cbn in Hn. assert (Hr : (c, a) ∈ getopt_all optstring rest -> c = QUESTION \/ is_Some (opt_kind optstring c))
      by (apply IH; lia).
    destruct x as [|d cluster]; [done|]. destruct (_ && _); [|done].
    case_bool_decide; [by rewrite elem_of_nil|].
    specialize (Hc cluster (head rest)). destruct (scan_cluster optstring cluster (head rest)) as [l used].
    rewrite elem_of_app. intros [?|Hin]; [by apply Hc|].
    destruct rest as [|y rest']; [by apply elem_of_nil in Hin|]. cbn [length] in Hn.
    destruct used; [|by apply Hr]. apply (IH rest'); [lia|done]. }
  by apply (G (length args)).
Qed.
