(* ===== verification/DataLab.v ===== *)
(** The CS:APP data lab: the puzzles of [bits.c] against the reference
    functions of [tests.c] that [btest] compares them with.

    [int] is 32-bit two's complement (bits.c, "Integer coding rules": "Uses 2s
    complement, 32-bit representations of integers", arithmetic right shifts),
    so [+] and [<<] wrap ([c_add], [c_shl]) and [>>] is [Z.shiftr]; [~ & | ^]
    are the operators of [Z].  The puzzles the author left as the stub
    [return 2] are translated as they are. *)

From S2P Require Import Prelude.

(** * C operators on [int] *)
Module CInt.
Definition c_add (x y : Z) : Z := s32 (x + y).
Definition c_neg (x : Z) : Z := s32 (- x).
Definition c_sub (x y : Z) : Z := s32 (x - y).
Definition c_shl (x n : Z) : Z := s32 (Z.shiftl x n).
Definition c_shr (x n : Z) : Z := Z.shiftr x n.
Definition c_lnot (x : Z) : Z := if x =? 0 then 1 else 0.
Definition c_bool (b : bool) : Z := if b then 1 else 0.
End CInt.
Import CInt.

(** * bits.c *)
Module Bits.
Definition bitXor (x y : Z) : Z :=
  Z.lnot (Z.land (Z.lnot (Z.land x (Z.lnot y))) (Z.lnot (Z.land (Z.lnot x) y))).

Definition tmin : Z := c_shl 0x80 24.

Definition isTmax (x : Z) : Z :=
  Z.land (c_lnot (c_lnot (Z.lxor (c_add x 1) 0)))
         (c_lnot (Z.lxor (c_add x 1) (Z.lnot x))).

Definition allOddBits (x : Z) : Z :=
  let val := Z.lor (Z.lor (Z.lor (c_shl 0xaa 24) (c_shl 0xaa 16)) (c_shl 0xaa 8)) 0xaa in
  c_lnot (Z.lxor (Z.land x val) val).

Definition negate (x : Z) : Z := c_add (Z.lnot x) 1.

Definition isAsciiDigit (x : Z) : Z :=
  Z.land
    (Z.land (c_lnot (Z.land (c_shr x 31) 1))
            (Z.land (c_shr (c_add 0x2f (c_add (Z.lnot x) 1)) 31) 1))
    (Z.land (c_shr (c_add x (c_add (Z.lnot 0x3a) 1)) 31) 1).

Definition conditional (x y z : Z) : Z :=
  let v := c_add (Z.lnot (c_lnot (c_lnot x))) 1 in
  Z.lor (Z.land v y) (Z.land (Z.lnot v) z).

Definition isLessOrEqual (x y : Z) : Z :=
  let a := c_lnot (Z.land (Z.land (c_shr (Z.lnot x) 31) 1) (Z.land (c_shr y 31) 1)) in
  let b := Z.land (Z.land (c_shr x 31) 1) (Z.land (c_shr (Z.lnot y) 31) 1) in
  let val := c_add (c_add x (Z.lnot y)) 1 in
  let c := Z.lor (Z.land (c_shr val 31) 1) (c_lnot val) in
  Z.land a (Z.lor b c).

Definition logicalNeg (x : Z) : Z :=
  let t := u32 (c_shl (c_shr (Z.lnot (Z.lor (c_shl (c_shr (c_add (Z.lnot x) 1) 31) 31) x))
                             31) 31) in
  Z.shiftr t 31.

Definition howManyBits (x : Z) : Z := 2.
Definition floatScale2 (uf : Z) : Z := 2.
Definition floatFloat2Int (uf : Z) : Z := 2.
Definition floatPower2 (x : Z) : Z := 2.
End Bits.

(** * tests.c *)
Module Tests.
Definition test_bitXor (x y : Z) : Z := Z.lxor x y.

Definition test_tmin : Z := s32 0x80000000.

Definition test_isTmax (x : Z) : Z := c_bool (x =? 0x7FFFFFFF).

(** [for (i = 1; i < 32; i += 2) if ((x & (1 << i)) == 0) return 0; return 1;] *)
Fixpoint test_allOddBits_loop (n : nat) (i x : Z) : Z :=
  match n with
  | O => 1
  | S n' => if Z.land x (c_shl 1 i) =? 0 then 0 else test_allOddBits_loop n' (i + 2) x
  end.
Definition test_allOddBits (x : Z) : Z := test_allOddBits_loop 16 1 x.

Definition test_negate (x : Z) : Z := c_neg x.

Definition test_isAsciiDigit (x : Z) : Z := c_bool ((0x30 <=? x) && (x <=? 0x39)).

Definition test_conditional (x y z : Z) : Z := if x =? 0 then z else y.

Definition test_isLessOrEqual (x y : Z) : Z := c_bool (x <=? y).

Definition test_logicalNeg (x : Z) : Z := c_lnot x.

(** [for (cnt = 0; a; a >>= 1, cnt++) ;] on an [unsigned int]: at most 32 rounds. *)
Fixpoint test_howManyBits_loop (fuel : nat) (a cnt : Z) : Z :=
  match fuel with
  | O => cnt
  | S f => if a =? 0 then cnt else test_howManyBits_loop f (Z.shiftr a 1) (cnt + 1)
  end.
Definition test_howManyBits (x : Z) : Z :=
  let x := if x <? 0 then c_sub (c_neg x) 1 else x in
  s32 (test_howManyBits_loop 32 (u32 x) 0 + 1).
End Tests.

Import Bits Tests.

Lemma sign_bit x : is_s32 x -> Z.land (c_shr x 31) 1 = c_bool (x <? 0).
Proof.
  unfold is_s32, c_shr. intros H. rewrite Z.shiftr_div_pow2 by lia.
  zcase; cbn [c_bool].
  - by replace (x / 2 ^ 31) with (-1) by (apply Z.div_unique with (x + 2 ^ 31); lia).
  - by rewrite Z.div_small by lia.
Qed.

Lemma lnot_s32 x : is_s32 x -> is_s32 (Z.lnot x).
Proof. unfold is_s32, Z.lnot. lia. Qed.

Lemma c_bool_land a b : Z.land (c_bool a) (c_bool b) = c_bool (a && b).
Proof. by destruct a, b. Qed.

Lemma c_bool_lor a b : Z.lor (c_bool a) (c_bool b) = c_bool (a || b).
Proof. by destruct a, b. Qed.

Lemma c_lnot_bool b : c_lnot (c_bool b) = c_bool (negb b).
Proof. by destruct b. Qed.

Lemma c_lnot_as_bool x : c_lnot x = c_bool (x =? 0).
Proof. reflexivity. Qed.

Lemma s32_cases x :
  - 2 ^ 32 - 2 ^ 31 <= x < 2 ^ 32 + 2 ^ 31 ->
  s32 x = x /\ is_s32 x \/ s32 x = x - 2 ^ 32 /\ 2 ^ 31 <= x
  \/ s32 x = x + 2 ^ 32 /\ x < - 2 ^ 31.
Proof.
  intros H. unfold s32, is_s32.
  destruct (Z_lt_le_dec x (- 2 ^ 31)); [|destruct (Z_lt_le_dec x (2 ^ 31))].
  - right; right. replace (x + 2 ^ 31) with (x + 2 ^ 32 + 2 ^ 31 + (-1) * 2 ^ 32) by lia.
    rewrite Z_mod_plus_full, Z.mod_small by lia. lia.
  - left. rewrite Z.mod_small; lia.
  - right; left. replace (x + 2 ^ 31) with (x - 2 ^ 32 + 2 ^ 31 + 1 * 2 ^ 32) by lia.
    rewrite Z_mod_plus_full, Z.mod_small by lia. lia.
Qed.

Ltac s32_case x :=
  destruct (s32_cases x) as [[? ?]|[[? ?]|[? ?]]]; [unfold is_s32, Z.lnot in *; lia|..].

(** Resolve every boolean comparison left in the goal by linear arithmetic. *)
Ltac zbool :=
  repeat (match goal with
          | |- context [?a <? ?b] => destruct (Z.ltb_spec a b)
          | |- context [?a <=? ?b] => destruct (Z.leb_spec a b)
          | |- context [?a =? ?b] => destruct (Z.eqb_spec a b)
          end; cbn [andb orb negb]);
  try reflexivity; try (exfalso; lia).

Lemma bitXor_ok x y : bitXor x y = test_bitXor x y.
Proof.
  unfold bitXor, test_bitXor. apply Z.bits_inj'. intros n Hn.
  repeat rewrite ?Z.lnot_spec, ?Z.land_spec, ?Z.lxor_spec by done.
  by destruct (Z.testbit x n), (Z.testbit y n).
Qed.

Lemma isTmax_ok x : is_s32 x -> isTmax x = test_isTmax x.
Proof.
  intros Hx. unfold isTmax, test_isTmax, c_add.
  rewrite (c_lnot_as_bool (Z.lxor _ 0)), c_lnot_bool, (c_lnot_as_bool (Z.lxor _ (Z.lnot x))).
  rewrite Z.lxor_0_r, c_bool_land. f_equal.
  assert (Hxor : forall a b, (Z.lxor a b =? 0) = (a =? b)).
  { intros a b. destruct (Z.eqb_spec a b) as [->|Hne]; [by rewrite Z.lxor_nilpotent|].
    apply Z.eqb_neq. by rewrite Z.lxor_eq_0_iff. }
  rewrite Hxor. unfold is_s32 in Hx.
  s32_case (x + 1); rewrite H; unfold is_s32, Z.lnot in *; zbool.
Qed.

Lemma negate_ok x : negate x = test_negate x.
Proof. unfold negate, test_negate, c_add, c_neg, Z.lnot. f_equal. lia. Qed.

Lemma isAsciiDigit_ok x : is_s32 x -> isAsciiDigit x = test_isAsciiDigit x.
Proof.
  intros Hx. unfold isAsciiDigit, test_isAsciiDigit, c_add.
  rewrite !sign_bit, c_lnot_bool, !c_bool_land by auto with outcome.
  change (s32 (Z.lnot 0x3a + 1)) with (-58). f_equal.
  replace (0x2f + s32 (Z.lnot x + 1)) with (47 + s32 (- x)) by (unfold Z.lnot; do 2 f_equal; lia).
  unfold is_s32 in Hx. s32_case (- x); s32_case (x + -58); s32_case (47 + s32 (- x));
    rewrite ?H in *; unfold is_s32 in *; zbool.
Qed.

Lemma conditional_ok x y z : conditional x y z = test_conditional x y z.
Proof.
  unfold conditional, test_conditional, c_add.
  rewrite !c_lnot_as_bool. unfold c_bool. destruct (x =? 0); cbn [Z.eqb].
  - change (s32 (Z.lnot 0 + 1)) with 0. change (Z.lnot 0) with (-1).
    by rewrite Z.land_0_l, Z.lor_0_l, Z.land_m1_l.
  - change (s32 (Z.lnot 1 + 1)) with (-1). change (Z.lnot (-1)) with 0.
    by rewrite Z.land_m1_l, Z.land_0_l, Z.lor_0_r.
Qed.

Lemma isLessOrEqual_ok x y :
  is_s32 x -> is_s32 y -> isLessOrEqual x y = test_isLessOrEqual x y.
Proof.
  intros Hx Hy. unfold isLessOrEqual, test_isLessOrEqual, c_add.
  rewrite !sign_bit by auto using lnot_s32 with outcome.
  rewrite !c_bool_land, !c_lnot_bool, c_lnot_as_bool, !c_bool_lor, !c_bool_land.
  f_equal.
  replace (s32 (s32 (x + Z.lnot y) + 1)) with (s32 (x - y)).
  2:{ apply s32_congr. rewrite Zplus_mod, s32_mod, <- Zplus_mod. f_equal. unfold Z.lnot. lia. }
  unfold is_s32, Z.lnot in *. s32_case (x - y); unfold is_s32 in *; zbool.
Qed.

Lemma shiftr31_s32 x : is_s32 x -> Z.shiftr x 31 = if x <? 0 then -1 else 0.
Proof.
  unfold is_s32. intros H. rewrite Z.shiftr_div_pow2 by lia. zcase.
  - symmetry. apply Z.div_unique with (x + 2 ^ 31); lia.
  - by rewrite Z.div_small by lia.
Qed.

Lemma logicalNeg_ok x : is_s32 x -> logicalNeg x = test_logicalNeg x.
Proof.
  intros Hx. unfold logicalNeg, test_logicalNeg, c_shr, c_shl, c_add.
  rewrite (shiftr31_s32 (s32 (Z.lnot x + 1))) by auto with outcome.
  assert (Hs : s32 (Z.lnot x + 1) < 0 \/ x <= 0).
  { replace (Z.lnot x + 1) with (- x) by (unfold Z.lnot; lia).
    unfold is_s32 in Hx. s32_case (- x); lia. }
  destruct (decide (x = 0)) as [->|Hne]; [reflexivity|].
  unfold c_lnot. rewrite (proj2 (Z.eqb_neq x 0) Hne).
  set (w := Z.lor _ x). assert (Hw : is_s32 w /\ w < 0).
  { subst w. destruct (Z.ltb_spec (s32 (Z.lnot x + 1)) 0).
    - change (s32 (Z.shiftl (-1) 31)) with (- 2 ^ 31).
      assert (Z.lor (- 2 ^ 31) x < 0) by (apply Z.lor_neg; lia).
      split; [|done]. unfold is_s32.
      rewrite <- (Z.lnot_involutive (Z.lor _ x)), Z.lnot_lor.
      change (Z.lnot (- 2 ^ 31)) with (2 ^ 31 - 1).
      rewrite Z.land_comm, land_mask by lia.
      pose proof (Z.mod_pos_bound (Z.lnot x) (2 ^ 31)). unfold Z.lnot in *. lia.
    - change (s32 (Z.shiftl 0 31)) with 0. rewrite Z.lor_0_l. split; [done|lia]. }
  rewrite (shiftr31_s32 (Z.lnot w)) by (apply lnot_s32, Hw). unfold is_s32, Z.lnot in *.
  destruct (Z.ltb_spec (Z.pred (- w)) 0); [lia|reflexivity].
Qed.

(** ** Odd bits *)

Definition odd_mask : Z := s32 0xaaaaaaaa.

Lemma land_pow2_zero x i : 0 <= i -> (Z.land x (2 ^ i) =? 0) = negb (Z.testbit x i).
Proof.
  intros Hi. destruct (Z.testbit x i) eqn:E; cbn.
  - apply Z.eqb_neq. intros H0. apply (f_equal (fun z => Z.testbit z i)) in H0.
    by rewrite Z.land_spec, E, Z.pow2_bits_true, Z.bits_0 in H0.
  - apply Z.eqb_eq, Z.bits_inj'. intros n Hn.
    rewrite Z.land_spec, Z.bits_0, Z.pow2_bits_eqb by done.
    destruct (Z.eqb_spec i n) as [<-|]; by rewrite ?E, ?andb_false_r.
Qed.

Lemma c_shl_1 i : 0 <= i < 31 -> c_shl 1 i = 2 ^ i.
Proof.
  intros Hi. unfold c_shl. rewrite Z.shiftl_1_l. apply s32_id.
  split; [pose proof (Z.pow_nonneg 2 i); lia|]. apply Z.pow_lt_mono_r; lia.
Qed.

Lemma testbit31_neg x : is_s32 x -> Z.testbit x 31 = (x <? 0).
Proof.
  intros Hx. rewrite Z.testbit_odd, shiftr31_s32 by done. by destruct (x <? 0).
Qed.

Lemma land_sign_bit x : is_s32 x -> (Z.land x (c_shl 1 31) =? 0) = negb (Z.testbit x 31).
Proof.
  intros Hx. change (c_shl 1 31) with (- 2 ^ 31). rewrite testbit31_neg by done.
  zcase; cbn.
  - apply Z.eqb_neq. assert (Z.land x (- 2 ^ 31) < 0) by (apply Z.land_neg; lia). lia.
  - apply Z.eqb_eq. apply Z.bits_inj'. intros n Hn.
    rewrite Z.land_spec, Z.bits_0.
    destruct (Z_lt_le_dec n 31).
    + replace (- 2 ^ 31) with ((-1) * 2 ^ 31) by lia.
      by rewrite Z.mul_pow2_bits_low, andb_false_r by lia.
    + unfold is_s32 in Hx. rewrite (Z.bits_above_log2 x n); [done|lia|].
      destruct (Z.eq_dec x 0) as [->|]; [cbn; lia|].
      apply Z.log2_lt_pow2; [lia|]. eapply Z.lt_le_trans; [apply Hx|].
      apply Z.pow_le_mono_r; lia.
Qed.

Lemma test_allOddBits_loop_spec x : is_s32 x ->
  test_allOddBits x = c_bool (forallb (Z.testbit x)
    [1; 3; 5; 7; 9; 11; 13; 15; 17; 19; 21; 23; 25; 27; 29; 31]).
Proof.
  intros Hx. unfold test_allOddBits. cbn [test_allOddBits_loop forallb].
  repeat match goal with
         | |- context [c_shl 1 (?a + 2)] =>
             let v := eval cbv in (a + 2) in change (a + 2) with v
         end.
  rewrite (land_sign_bit x Hx), !c_shl_1, !land_pow2_zero by lia.
  repeat match goal with |- context [Z.testbit x ?i] => destruct (Z.testbit x i); [|done] end.
  done.
Qed.

(** The mask of bits.c has exactly the odd bits set (and the sign extension). *)
Lemma odd_mask_bits n : 0 <= n -> Z.testbit odd_mask n = Z.odd n || (31 <=? n).
Proof.
  intros Hn. destruct (Z_lt_le_dec n 32) as [Hlt|Hge].
  - assert (Hc : Forall (fun k => Z.testbit odd_mask k = Z.odd k || (31 <=? k))
                   (map Z.of_nat (seq 0 32))).
    { vm_compute. repeat constructor. }
    rewrite Forall_forall in Hc. apply Hc, in_map_iff.
    exists (Z.to_nat n). rewrite in_seq. lia.
  - rewrite (proj2 (Z.leb_le 31 n)), orb_true_r by lia.
    apply Z.bits_above_log2_neg; [vm_compute; reflexivity|].
    vm_compute Z.log2. lia.
Qed.

Lemma bits_above_sign x n : is_s32 x -> 31 <= n -> Z.testbit x n = Z.testbit x 31.
Proof.
  intros Hx Hn. rewrite testbit31_neg by done.
  replace n with (n - 31 + 31) by lia. rewrite <- Z.shiftr_spec, shiftr31_s32 by (done || lia).
  zcase; [by apply Z.bits_m1; lia|apply Z.bits_0].
Qed.

Lemma allOddBits_mask x :
  is_s32 x -> Z.land x odd_mask = odd_mask <->
  forallb (Z.testbit x) [1; 3; 5; 7; 9; 11; 13; 15; 17; 19; 21; 23; 25; 27; 29; 31] = true.
Proof.
  intros Hx. rewrite forallb_forall. split.
  - intros H n Hn. apply (f_equal (fun z => Z.testbit z n)) in H.
    rewrite Z.land_spec in H.
    assert (Hb : Z.testbit odd_mask n = true).
    { cbn in Hn. repeat destruct Hn as [<-|Hn]; try reflexivity. done. }
    rewrite Hb, andb_true_r in H. done.
  - intros H. apply Z.bits_inj'. intros n Hn. rewrite Z.land_spec.
    rewrite odd_mask_bits by done.
    destruct (Z.leb_spec 31 n) as [Hge|Hlt].
    + rewrite orb_true_r, andb_true_r, bits_above_sign by done.
      apply H. cbn; tauto.
    + rewrite orb_false_r. destruct (Z.odd n) eqn:Ho; [|by rewrite andb_false_r].
      rewrite andb_true_r. apply H.
      apply Z.odd_spec in Ho as [k ->].
      assert (k = 0 \/ k = 1 \/ k = 2 \/ k = 3 \/ k = 4 \/ k = 5 \/ k = 6 \/ k = 7 \/
              k = 8 \/ k = 9 \/ k = 10 \/ k = 11 \/ k = 12 \/ k = 13 \/ k = 14) by lia.
      cbn. intuition lia.
Qed.

Lemma allOddBits_ok x : is_s32 x -> allOddBits x = test_allOddBits x.
Proof.
  intros Hx. rewrite test_allOddBits_loop_spec by done.
  unfold allOddBits. change (Z.lor _ 0xaa) with odd_mask. cbv zeta.
  rewrite c_lnot_as_bool. f_equal.
  destruct (forallb _ _) eqn:E.
  - apply (allOddBits_mask x Hx) in E. rewrite E. by rewrite Z.lxor_nilpotent.
  - apply Z.eqb_neq. rewrite Z.lxor_eq_0_iff, (allOddBits_mask x Hx), E. done.
Qed.

(** C12: for all 32-bit arguments the nine solved puzzles of bits.c (bitXor, tmin,
    isTmax, allOddBits, negate, isAsciiDigit, conditional, isLessOrEqual, logicalNeg)
    return what the reference functions of tests.c return. *)
Theorem datalab_puzzles_match_reference (x y z : Z) :
  is_s32 x -> is_s32 y -> is_s32 z ->
  bitXor x y = test_bitXor x y /\
  tmin = test_tmin /\
  isTmax x = test_isTmax x /\
  allOddBits x = test_allOddBits x /\
  negate x = test_negate x /\
  isAsciiDigit x = test_isAsciiDigit x /\
  conditional x y z = test_conditional x y z /\
  isLessOrEqual x y = test_isLessOrEqual x y /\
  logicalNeg x = test_logicalNeg x.
Proof.
  intros Hx Hy Hz.
  repeat split;
    auto using bitXor_ok, isTmax_ok, allOddBits_ok, negate_ok, isAsciiDigit_ok,
      conditional_ok, isLessOrEqual_ok, logicalNeg_ok.
Qed.

Lemma datalab_puzzles_match_reference_witness :
  is_s32 (-2147483648) /\ isTmax (-2147483648) = test_isTmax (-2147483648) /\
  isLessOrEqual (-2147483648) 2147483647 = 1 /\ logicalNeg (-2147483648) = 0.
Proof.
  assert (H1 : is_s32 (-2147483648)) by (split; vm_compute; congruence).
  assert (H2 : is_s32 2147483647) by (split; vm_compute; congruence).
  assert (H3 : is_s32 7) by (split; vm_compute; congruence).
  pose proof (datalab_puzzles_match_reference _ _ _ H1 H2 H3) as H.
  split; [exact H1|]. split; [apply H|]. split; vm_compute; reflexivity.
Defined.

(** ** The stub [howManyBits] *)

Lemma test_howManyBits_loop_spec n a cnt :
  0 <= a < 2 ^ Z.of_nat n ->
  test_howManyBits_loop n a cnt = cnt + (if a =? 0 then 0 else Z.log2 a + 1).
Proof.
  revert a cnt. induction n as [|n IH]; intros a cnt Ha; cbn [test_howManyBits_loop].
  - replace a with 0 by (cbn in Ha; lia). cbn. lia.
  - destruct (Z.eqb_spec a 0) as [|Hne]; [lia|].
    assert (Hdiv : Z.shiftr a 1 = a / 2) by (rewrite Z.shiftr_div_pow2; done).
    rewrite Nat2Z.inj_succ, Z.pow_succ_r in Ha by lia.
    rewrite IH by (rewrite Hdiv; split; [apply Z.div_pos|apply Z.div_lt_upper_bound]; lia).
    rewrite Hdiv. destruct (Z.eqb_spec (a / 2) 0) as [H0|H0].
    + assert (a = 1) as -> by (apply Z.div_small_iff in H0; lia). cbn. lia.
    + rewrite <- Hdiv, Z.log2_shiftr by lia.
      assert (a / 2 < a) by (apply Z.div_lt; lia).
      assert (0 < a / 2) by (pose proof (Z.div_pos a 2); lia).
      assert (1 <= Z.log2 a); [|lia].
      apply Z.log2_le_pow2; [lia|]. pose proof (Z.mul_div_le a 2). lia.
Qed.

Lemma test_howManyBits_spec x :
  is_s32 x ->
  test_howManyBits x = let m := if x <? 0 then - x - 1 else x in
                       if m =? 0 then 1 else Z.log2 m + 2.
Proof.
  intros Hx. unfold test_howManyBits, c_sub, c_neg.
  set (m := if x <? 0 then - x - 1 else x).
  assert (Hm : 0 <= m < 2 ^ 31) by (subst m; unfold is_s32 in Hx; zcase; lia).
  replace (if x <? 0 then s32 (s32 (- x) - 1) else x) with m.
  2:{ subst m. zcase; [|done]. unfold is_s32 in Hx.
      destruct (Z.eq_dec x (- 2 ^ 31)) as [->|]; [reflexivity|].
      rewrite (s32_id (- x)), s32_id; unfold is_s32; lia. }
  rewrite (u32_id m) by (unfold is_u32; lia).
  rewrite test_howManyBits_loop_spec by lia. cbv zeta.
  destruct (Z.eqb_spec m 0); [reflexivity|].
  assert (Z.log2 m < 31) by (apply Z.log2_lt_pow2; lia).
  pose proof (Z.log2_nonneg m). rewrite s32_id; unfold is_s32; lia.
Qed.

(** the stub howManyBits, which returns 2, agrees with its reference exactly on the
    arguments 1 and -2. *)
Theorem howManyBits_stub_correct_only_on (x : Z) :
  is_s32 x -> howManyBits x = test_howManyBits x <-> x = 1 \/ x = -2.
Proof.
  intros Hx. rewrite test_howManyBits_spec by done. unfold howManyBits. cbv zeta.
  set (m := if x <? 0 then - x - 1 else x).
  assert (Hm : 0 <= m /\ (m = 1 <-> x = 1 \/ x = -2)) by (subst m; zcase; lia).
  destruct (Z.eqb_spec m 0) as [E|E]; [rewrite <- (proj2 Hm); lia|].
  rewrite <- (proj2 Hm). pose proof (Z.log2_nonneg m).
  split; [|intros ->; reflexivity]. intros Hlog.
  assert (Z.log2 m = 0) as Hl by lia.
  pose proof (Z.log2_spec m) as Hs. rewrite Hl in Hs. cbn in Hs. lia.
Qed.

Lemma howManyBits_stub_correct_only_on_witness :
  is_s32 12 /\ howManyBits 12 <> test_howManyBits 12.
Proof.
  assert (H : is_s32 12) by (split; vm_compute; congruence).
  split; [exact H|]. intros E.
  apply (howManyBits_stub_correct_only_on 12 H) in E. destruct E; discriminate.
Defined.
