(* ===== verification/Btest.v ===== *)
(** The data-lab test harness: [btest.c] with the puzzle table of [decl.c].

    A puzzle function is called through a [funct_t] that is cast to the arity in
    the table; calling it with another arity is a fault.  Output of [printf] is
    not modelled.  [rand()] is a stream of values that goes on from puzzle to puzzle:
    [rnd k] is the result of call [k], and the functions that call it take and return
    the number of calls made so far.  [alarm i] says that the alarm interrupts the
    tests of puzzle [i]. *)

From Stdlib Require Import String.
From S2P Require Import Prelude CString DataLab.
Import Bits Tests.

Definition TEST_RANGE : Z := 500000.
Definition MAX_TEST_VALS : Z := 13 * TEST_RANGE.
Definition RAND_MAX : Z := 2 ^ 31 - 1.

(** * Types of btest.h *)

Inductive funct_t :=
| Fun0 (f : Z)
| Fun1 (f : Z -> Z)
| Fun2 (f : Z -> Z -> Z)
| Fun3 (f : Z -> Z -> Z -> Z).

Definition call (f : funct_t) (args : list Z) : outcome Z :=
  match f, args with
  | Fun0 f, [] => Ok f
  | Fun1 f, [x] => Ok (f x)
  | Fun2 f, [x; y] => Ok (f x y)
  | Fun3 f, [x; y; z] => Ok (f x y z)
  | _, _ => Fault OutOfBounds
  end.

Record test_rec := MkTest {
  name : string;
  solution_funct : funct_t;
  test_funct : funct_t;
  args : Z;
  rating : Z;
  arg_ranges : list (Z * Z)
}.

(** The write-once globals set by the command line. *)
Record options := MkOptions {
  has_arg : list bool;
  argval : list Z;
  test_fname : option string;
  global_rating : Z
}.

Definition no_options : options := MkOptions [false; false; false] [0; 0; 0] None 0.

(** * Test values *)

(** [random_val(min, max)] for a value [r] of [rand()]: the weighted mean of the
    bounds, truncated towards zero.  The rounding of the [double]s is not
    modelled. *)
Definition random_val (r min max : Z) : Z :=
  Z.quot (min * (RAND_MAX - r) + max * r) RAND_MAX.

(** [test_vals[test_count++] = x], in an array of MAX_TEST_VALS elements. *)
Definition push (x : Z) (v : list Z) : outcome (list Z) :=
  if zlen v <? MAX_TEST_VALS then Ok (v ++ [x]) else Fault OutOfBounds.

Fixpoint pushes (xs v : list Z) : outcome (list Z) :=
  match xs with [] => Ok v | x :: r => v ← push x v; pushes r v end.

(** The values of one round for functions on float bit patterns. *)
Definition float_vals (i : Z) : list Z :=
  let smallest_norm := 0x00800000 in
  let one := 0x3f800000 in
  let largest_norm := 0x7f000000 in
  let sign := 0x80000000 in
  s32 <$> [ i; Z.lor sign i;
            smallest_norm + i; u32 (smallest_norm - i);
            Z.lor sign (smallest_norm + i); Z.lor sign (u32 (smallest_norm - i));
            one + i; one - i; Z.lor sign (one + i); Z.lor sign (one - i);
            largest_norm - i; Z.lor sign (largest_norm - i) ].

Definition float_special : list Z :=
  s32 <$> [0x7f800000; Z.lor 0x80000000 0x7f800000; 0x7fc00000; Z.lor 0x80000000 0x7fc00000].

(** One round of sampling, [r] the value of [rand()] in it. *)
Definition sample_vals (min max r i : Z) : list Z :=
  [CInt.c_add min i; CInt.c_sub max i] ++
  (if (min <=? i) && (i <=? max) then [i] else []) ++
  (if (min <=? - i) && (- i <=? max) then [- i] else []) ++
  [random_val r min max].

Definition gen_vals (opt : options) (rnd : Z -> Z) (min max test_range arg pos : Z) : outcome (list Z * Z) :=
  fixed ← vget (has_arg opt) arg;
  if (fixed : bool) then a ← vget (argval opt) arg; v ← push (s32 a) []; Ok (v, pos)
  else if (min =? 1) && (max =? 1) then
    let test_range := if Z.shiftl 1 23 <? test_range then Z.shiftl 1 23 else test_range in
    v ← for_range 0 test_range (fun i v => pushes (float_vals i) v) [];
    v ← pushes float_special v; Ok (v, pos)
  else if CInt.c_sub max MAX_TEST_VALS <=? min then
    (* [i <= INT_MAX] always holds: the loop runs past the array *)
    require (negb (max =? int_max)) OutOfBounds;;
    v ← for_range min (max + 1) (fun i v => push i v) []; Ok (v, pos)
  else
    for_range 0 test_range (fun i st =>
      let '(v, pos) := st in
      v ← pushes (sample_vals min max (rnd pos) i) v; Ok (v, pos + 1)) ([], pos).

(** * Testing a function *)

Definition test_0_arg (f ft : funct_t) : outcome Z :=
  r ← call f []; rt ← call ft []; Ok (if r =? rt then 0 else 1).

Definition test_1_arg (f ft : funct_t) (arg1 : Z) : outcome Z :=
  r ← call f [arg1]; rt ← call ft [arg1]; Ok (if r =? rt then 0 else 1).

Definition test_2_arg (f ft : funct_t) (arg1 arg2 : Z) : outcome Z :=
  r ← call f [arg1; arg2]; rt ← call ft [arg1; arg2]; Ok (if r =? rt then 0 else 1).

Definition test_3_arg (f ft : funct_t) (arg1 arg2 arg3 : Z) : outcome Z :=
  r ← call f [arg1; arg2; arg3]; rt ← call ft [arg1; arg2; arg3]; Ok (if r =? rt then 0 else 1).

(** [errors += ...; if (errors) return errors;] *)
Definition tally (errors e : Z) : Z + Z :=
  let errors := errors + e in if errors =? 0 then inl errors else inr errors.

(** The test ranges: TEST_RANGE and its square and cube root, truncated. *)
Definition arg_test_range (args : Z) : Z :=
  if args =? 1 then TEST_RANGE else if args =? 2 then 707 else 79.

(** The three nested loops over the generated values [v1], [v2], [v3]. *)
Definition test_loop (t : test_rec) (v1 v2 v3 : list Z) : outcome (Z + Z) :=
  let f := solution_funct t in
  let ft := test_funct t in
  for_ret 0 (zlen v1) (fun a1 errors =>
    x ← vget v1 a1;
    if args t =? 1 then e ← test_1_arg f ft x; Ok (tally errors e)
    else
      for_ret 0 (zlen v2) (fun a2 errors =>
        y ← vget v2 a2;
        if args t =? 2 then e ← test_2_arg f ft x y; Ok (tally errors e)
        else
          for_ret 0 (zlen v3) (fun a3 errors =>
            z ← vget v3 a3;
            e ← test_3_arg f ft x y z; Ok (tally errors e)) errors) errors) 0.

(** The test set for argument [i]. *)
Definition gen_arg (opt : options) (rnd : Z -> Z) (t : test_rec) (i pos : Z) : outcome (list Z * Z) :=
  if i <? args t then
    '(mn, mx) ← vget (arg_ranges t) i;
    gen_vals opt rnd mn mx (arg_test_range (args t)) i pos
  else Ok ([], pos).

(** The rest of [test_function] once the values are made; [timed_out] says that
    the alarm fired before the tests were done. *)
Definition test_values (timed_out : bool) (t : test_rec) (v1 v2 v3 : list Z) : outcome Z :=
  if timed_out then Ok 1
  else if args t =? 0 then test_0_arg (solution_funct t) (test_funct t)
  else r ← test_loop t v1 v2 v3; Ok (match r with inl e => e | inr e => e end).

Definition test_function (opt : options) (rnd : Z -> Z) (timed_out : bool) (t : test_rec) (pos : Z)
  : outcome (Z * Z) :=
  require (negb ((args t <? 0) || (3 <? args t))) (Exit 1);;
  '(v1, pos) ← gen_arg opt rnd t 0 pos; '(v2, pos) ← gen_arg opt rnd t 1 pos; '(v3, pos) ← gen_arg opt rnd t 2 pos;
  errors ← test_values timed_out t v1 v2 v3;
  Ok (errors, pos).

(** Errors, points and maximal points, and the number of calls of [rand()]. *)
Definition run_one (opt : options) (rnd : Z -> Z) (timed_out : bool) (st : Z * Z * Z * Z) (t : test_rec)
  : outcome (Z * Z * Z * Z) :=
  let '(errors, points, max_points, pos) := st in
  let selected := match test_fname opt with None => true | Some f => String.eqb (name t) f end in
  if selected then
    let rating := if global_rating opt =? 0 then rating t else global_rating opt in
    '(terrors, pos) ← test_function opt rnd timed_out t pos;
    let tpoints := if terrors =? 0 then rating else 0 in
    Ok (errors + terrors, points + tpoints, max_points + rating, pos)
  else Ok st.

(** The loop over the table, from puzzle [i] on. *)
Fixpoint run_tests (opt : options) (rnd : Z -> Z) (alarm : nat -> bool) (i : nat) (st : Z * Z * Z * Z) (ts : list test_rec)
  : outcome (Z * Z * Z * Z) :=
  match ts with
  | [] => Ok st
  | t :: r => st ← run_one opt rnd (alarm i) st t; run_tests opt rnd alarm (S i) st r
  end.

(** * The integer puzzles of decl.c *)

Definition TMin : Z := int_min.
Definition TMax : Z := int_max.
Definition full_range : list (Z * Z) := [(TMin, TMax); (TMin, TMax); (TMin, TMax)].

Definition test_set_solved : list test_rec := [
  MkTest "bitXor"%string (Fun2 bitXor) (Fun2 test_bitXor) 2 1 full_range;
  MkTest "tmin"%string (Fun0 tmin) (Fun0 test_tmin) 0 1 full_range;
  MkTest "isTmax"%string (Fun1 isTmax) (Fun1 test_isTmax) 1 1 full_range;
  MkTest "allOddBits"%string (Fun1 allOddBits) (Fun1 test_allOddBits) 1 2 full_range;
  MkTest "negate"%string (Fun1 negate) (Fun1 test_negate) 1 2 full_range;
  MkTest "isAsciiDigit"%string (Fun1 isAsciiDigit) (Fun1 test_isAsciiDigit) 1 3 full_range;
  MkTest "conditional"%string (Fun3 conditional) (Fun3 test_conditional) 3 3 full_range;
  MkTest "isLessOrEqual"%string (Fun2 isLessOrEqual) (Fun2 test_isLessOrEqual) 2 3 full_range;
  MkTest "logicalNeg"%string (Fun1 logicalNeg) (Fun1 test_logicalNeg) 1 4 full_range ].

Definition test_set_howManyBits : test_rec :=
  MkTest "howManyBits"%string (Fun1 howManyBits) (Fun1 test_howManyBits) 1 4 full_range.

(** * The generated values *)

Lemma random_val_bounds r min max :
  0 <= r <= RAND_MAX -> min <= max -> min <= random_val r min max <= max.
Proof.
  intros Hr Hm. unfold random_val. change RAND_MAX with 2147483647 in *.
  assert (E : forall a, Z.quot (a * 2147483647) 2147483647 = a) by (intros a; apply Z.quot_mul; lia).
  split.
  - rewrite <- (E min) at 1. apply Z.quot_le_mono; nia.
  - rewrite <- (E max) at 2. apply Z.quot_le_mono; nia.
Qed.

Lemma wp_push x v (Q : list Z -> Prop) :
  zlen v < MAX_TEST_VALS -> Q (v ++ [x]) -> wp (push x v) Q.
Proof. intros Hv HQ. unfold push. destruct (Z.ltb_spec (zlen v) MAX_TEST_VALS); [by apply wp_ret|lia]. Qed.

Lemma wp_pushes xs v (Q : list Z -> Prop) :
  zlen v + zlen xs <= MAX_TEST_VALS -> Q (v ++ xs) -> wp (pushes xs v) Q.
Proof.
  revert v. induction xs as [|x r IH]; intros v Hv HQ; cbn [pushes].
  - apply wp_ret. by rewrite app_nil_r in HQ.
  - rewrite zlen_cons in Hv. pose proof (zlen_nonneg r).
    apply wp_bind, wp_push; [lia|]. apply IH; [rewrite zlen_app; change (zlen [x]) with 1; lia|].
    by rewrite <- app_assoc.
Qed.

Definition within (min max x : Z) : Prop := min <= x <= max.

Lemma exhaust_wp min hi :
  min <= hi -> hi - min <= MAX_TEST_VALS ->
  wp (for_range min hi (fun i v => push i v) [])
     (fun v => zlen v = hi - min /\ forall x, x ∈ v <-> min <= x < hi).
Proof.
  intros Hle Hmax.
  apply (wp_for_range (fun i v => zlen v = i - min /\ forall x, x ∈ v <-> min <= x < i)); [done| | |done].
  - split; [change (zlen []) with 0; lia|]. intros x. rewrite elem_of_nil. lia.
  - intros i v Hi [Hz Hv]. apply wp_push; [lia|]. rewrite zlen_app. change (zlen [i]) with 1. split; [lia|].
    intros x. rewrite elem_of_app, Hv, list_elem_of_singleton. lia.
Qed.

Lemma sample_vals_len min max r i : zlen (sample_vals min max r i) <= 5.
Proof. unfold sample_vals. unfold zlen. rewrite !length_app. destruct (_ && _), (_ && _); cbn [Datatypes.length]; lia. Qed.

Lemma sample_vals_within min max r i :
  is_s32 min -> is_s32 max -> 0 <= r <= RAND_MAX -> 0 <= i -> min + i <= max ->
  Forall (within min max) (sample_vals min max r i).
Proof.
  intros Hmin Hmax Hr Hi Hle. unfold is_s32 in *. unfold sample_vals, CInt.c_add, CInt.c_sub.
  rewrite !s32_id by (unfold is_s32; lia).
  pose proof (random_val_bounds r min max Hr). unfold within.
  repeat apply Forall_app_2; repeat constructor; try lia;
    destruct (_ && _) eqn:E; repeat constructor; lia.
Qed.

Lemma sample_wp rnd min max test_range pos :
  is_s32 min -> is_s32 max -> (forall i, 0 <= rnd i <= RAND_MAX) ->
  0 < test_range <= TEST_RANGE -> min + test_range <= max ->
  wp (for_range 0 test_range (fun i st =>
        let '(v, pos) := st in v ← pushes (sample_vals min max (rnd pos) i) v; Ok (v, pos + 1)) ([], pos))
     (fun st => zlen st.1 <= MAX_TEST_VALS /\ Forall (within min max) st.1 /\ min ∈ st.1 /\ max ∈ st.1).
Proof.
  intros Hmin Hmax Hr Htr Hle. change TEST_RANGE with 500000 in Htr.
  apply (wp_for_range (fun i st => zlen st.1 <= 5 * i /\ Forall (within min max) st.1 /\
    (0 < i -> min ∈ st.1 /\ max ∈ st.1))); [lia| | |].
  - split; [done|]. split; [constructor|lia].
  - intros i [v k] Hi (Hz & Hv & Hin). cbn [fst] in *. pose proof (sample_vals_len min max (rnd k) i).
    apply wp_bind, wp_pushes; [change MAX_TEST_VALS with 6500000; lia|]. apply wp_ret. cbn [fst].
    rewrite zlen_app. split; [lia|]. split.
    + apply Forall_app_2; [done|]. apply sample_vals_within; try done; lia.
    + intros _. destruct (Z.eq_dec i 0) as [->|Hne].
      * unfold sample_vals, CInt.c_add, CInt.c_sub. unfold is_s32 in *.
        rewrite Z.add_0_r, Z.sub_0_r, !s32_id by (unfold is_s32; lia).
        rewrite !elem_of_app, !elem_of_cons. tauto.
      * destruct Hin as [? ?]; [lia|]. rewrite !elem_of_app. tauto.
  - intros [v k] (Hz & Hv & Hin). cbn [fst] in *. change MAX_TEST_VALS with 6500000. split; [lia|].
    split; [done|apply Hin; lia].
Qed.

(** for an integer range gen_vals stays inside its array, generates only values of
    the range and always both ends, and every value when the range is small; the one
    exception is a range of exactly MAX_TEST_VALS + 1 values, where it writes past the
    array. *)
Theorem gen_vals_spec (opt : options) (rnd : Z -> Z) (min max test_range arg pos : Z) :
  vget (has_arg opt) arg = Ok false -> (forall i, 0 <= rnd i <= RAND_MAX) ->
  0 < test_range <= TEST_RANGE ->
  is_s32 min -> min <= max < int_max -> int_min + MAX_TEST_VALS <= max -> ~ (min = 1 /\ max = 1) ->
  match gen_vals opt rnd min max test_range arg pos with
  | Ok (v, _) => max - min <> MAX_TEST_VALS /\ zlen v <= MAX_TEST_VALS /\
            Forall (within min max) v /\ min ∈ v /\ max ∈ v /\
            (max - min < MAX_TEST_VALS -> forall x, x ∈ v <-> within min max x)
  | Fault e => max - min = MAX_TEST_VALS /\ e = OutOfBounds
  end.
Proof.
  intros Hh Hr Htr Hmin Hmax Hlo Hf. unfold gen_vals. rewrite Hh. cbn [mbind outcome_bind].
  replace ((min =? 1) && (max =? 1)) with false by lia.
  change int_min with (-2147483648) in Hlo. change int_max with 2147483647 in *.
  change TEST_RANGE with 500000 in Htr. change MAX_TEST_VALS with 6500000 in *.
  unfold is_s32 in Hmin. unfold CInt.c_sub. rewrite s32_id by (unfold is_s32; lia).
  destruct (Z.leb_spec (max - 6500000) min) as [Hx|Hx].
  - unfold require. destruct (Z.eqb_spec max 2147483647); [lia|]. cbn [negb mbind outcome_bind].
    destruct (Z.eq_dec (max - min) 6500000) as [He|Hne].
    + rewrite (for_range_split min max (max + 1)) by lia.
      destruct (exhaust_wp min max) as (v & -> & Hz & _); [lia|change MAX_TEST_VALS with 6500000; lia|].
      cbn [mbind outcome_bind]. rewrite for_range_step by lia. unfold push.
      change MAX_TEST_VALS with 6500000. destruct (Z.ltb_spec (zlen v) 6500000); [lia|]. done.
    + destruct (exhaust_wp min (max + 1)) as (v & -> & Hz & Hv);
        [lia|change MAX_TEST_VALS with 6500000; lia|].
      cbn [mbind outcome_bind].
      split; [done|]. split; [lia|]. split; [|split; [apply Hv; lia|split; [apply Hv; lia|]]].
      * rewrite list.Forall_forall. intros x Hin. apply Hv in Hin. unfold within. lia.
      * intros _ x. rewrite Hv. unfold within. lia.
  - destruct (sample_wp rnd min max test_range pos) as ([v k] & -> & Hz & Hv & Hi1 & Hi2);
      try (unfold is_s32; done || lia). cbn [fst] in *.
    split; [lia|]. split; [done|]. split; [done|]. split; [done|]. split; [done|]. lia.
Qed.

Lemma gen_vals_spec_witness :
  match gen_vals no_options (fun _ => 5) 3 20 8 0 0 with
  | Ok (v, _) => 20 - 3 <> MAX_TEST_VALS /\ zlen v <= MAX_TEST_VALS /\
            Forall (within 3 20) v /\ 3 ∈ v /\ 20 ∈ v /\
            (20 - 3 < MAX_TEST_VALS -> forall x, x ∈ v <-> within 3 20 x)
  | Fault e => 20 - 3 = MAX_TEST_VALS /\ e = OutOfBounds
  end.
Proof.
  apply (gen_vals_spec no_options (fun _ => 5) 3 20 8 0 0); vm_compute; intuition congruence.
Defined.

(** * The loops of [test_function] *)

(** Solution and reference agree on every combination of the values. *)
Definition agrees1 (f g : Z -> Z) (v1 : list Z) : bool := forallb (fun x => f x =? g x) v1.
Definition agrees2 (f g : Z -> Z -> Z) (v1 v2 : list Z) : bool :=
  forallb (fun x => agrees1 (f x) (g x) v2) v1.
Definition agrees3 (f g : Z -> Z -> Z -> Z) (v1 v2 v3 : list Z) : bool :=
  forallb (fun x => agrees2 (f x) (g x) v2 v3) v1.

(** The arity in the table is that of the two functions. *)
Definition agrees (t : test_rec) (v1 v2 v3 : list Z) : option bool :=
  match solution_funct t, test_funct t with
  | Fun1 f, Fun1 g => if args t =? 1 then Some (agrees1 f g v1) else None
  | Fun2 f, Fun2 g => if args t =? 2 then Some (agrees2 f g v1 v2) else None
  | Fun3 f, Fun3 g => if args t =? 3 then Some (agrees3 f g v1 v2 v3) else None
  | _, _ => None
  end.

Lemma tally_0 (b : bool) : tally 0 (if b then 0 else 1) = if b then inl 0 else inr 1.
Proof. by destruct b. Qed.

Lemma test_loop_ok t v1 v2 v3 b :
  agrees t v1 v2 v3 = Some b -> test_loop t v1 v2 v3 = Ok (if b then inl 0 else inr 1).
Proof.
  destruct t as [nm f ft n rt rg]. unfold agrees, test_loop. cbn [solution_funct test_funct args].
  destruct f as [f|f|f|f], ft as [g|g|g|g]; try discriminate;
    match goal with |- (if ?c =? ?k then _ else _) = _ -> _ => destruct (Z.eqb_spec c k) as [->|] end;
    try discriminate; intros [= <-]; apply for_ret_forallb; intros i x Hx;
    rewrite (vget_some _ _ _ Hx); cbn [mbind outcome_bind Z.eqb Pos.eqb].
  - unfold test_1_arg, call. cbn. by rewrite tally_0.
  - apply for_ret_forallb. intros j y Hy. rewrite (vget_some _ _ _ Hy).
    unfold test_2_arg, call. cbn. by rewrite tally_0.
  - apply for_ret_forallb. intros j y Hy. rewrite (vget_some _ _ _ Hy). cbn [mbind outcome_bind].
    apply for_ret_forallb. intros k z Hz. rewrite (vget_some _ _ _ Hz).
    unfold test_3_arg, call. cbn. by rewrite tally_0.
Qed.

(** the nested loops of test_function stop with one error exactly when solution and
    reference differ on some combination of the test values, and report none otherwise. *)
Theorem test_loop_reports_first_error t v1 v2 v3 b :
  agrees t v1 v2 v3 = Some b ->
  test_loop t v1 v2 v3 = Ok (if b then inl 0 else inr 1).
Proof. apply test_loop_ok. Qed.

Lemma test_loop_reports_first_error_witness :
  test_loop test_set_howManyBits [1; -2; 12] [] [] = Ok (inr 1).
Proof. exact (test_loop_reports_first_error test_set_howManyBits [1; -2; 12] [] [] false eq_refl). Defined.

(** * The puzzles through the harness *)

Lemma gen_full rnd n arg pos :
  (forall i, 0 <= rnd i <= RAND_MAX) -> 0 <= arg < 3 -> 1 <= n <= 3 ->
  exists v pos', gen_vals no_options rnd TMin TMax (arg_test_range n) arg pos = Ok (v, pos') /\
    Forall is_s32 v /\ TMin ∈ v.
Proof.
  intros Hr Ha Hn.
  assert (Hh : vget (has_arg no_options) arg = Ok false).
  { assert (arg = 0 \/ arg = 1 \/ arg = 2) as [->|[->| ->]] by lia; reflexivity. }
  assert (Htr : 0 < arg_test_range n <= TEST_RANGE).
  { unfold arg_test_range. change TEST_RANGE with 500000. repeat zcase; lia. }
  change TEST_RANGE with 500000 in Htr.
  destruct (sample_wp rnd TMin TMax (arg_test_range n) pos) as ([v pos'] & E & _ & Hv & Hi & _);
    [vm_compute; intuition congruence..|done|done|unfold TMin, TMax, int_min, int_max; lia|].
  exists v, pos'. unfold gen_vals. rewrite Hh. split; [exact E|]. split; [|done].
  eapply list.Forall_impl; [exact Hv|]. unfold within, is_s32. intros x Hx.
  unfold TMin, TMax, int_min, int_max in Hx. lia.
Qed.

Lemma agrees1_true f g v :
  (forall x, is_s32 x -> f x = g x) -> Forall is_s32 v -> agrees1 f g v = true.
Proof.
  intros Hfg Hv. apply forallb_forall. intros x Hx. apply Z.eqb_eq, Hfg.
  rewrite list.Forall_forall in Hv. by apply Hv, list_elem_of_In.
Qed.

Lemma agrees2_true f g v w :
  (forall x y, is_s32 x -> is_s32 y -> f x y = g x y) -> Forall is_s32 v -> Forall is_s32 w ->
  agrees2 f g v w = true.
Proof.
  intros Hfg Hv Hw. apply forallb_forall. intros x Hx. apply agrees1_true; [|done].
  intros y. apply Hfg. rewrite list.Forall_forall in Hv. by apply Hv, list_elem_of_In.
Qed.

Lemma test_values_ok t v1 v2 v3 b :
  agrees t v1 v2 v3 = Some b -> test_values false t v1 v2 v3 = Ok (if b then 0 else 1).
Proof.
  intros H. unfold test_values. rewrite (test_loop_ok _ _ _ _ _ H).
  replace (args t =? 0) with false; [by destruct b|].
  unfold agrees in H. destruct (solution_funct t), (test_funct t); try discriminate;
    destruct (args t) as [|[]|]; done.
Qed.

Lemma test_values_late t v1 v2 v3 tm e :
  test_values false t v1 v2 v3 = Ok e -> test_values tm t v1 v2 v3 = Ok (if tm then 1 else e).
Proof. by destruct tm. Qed.

Lemma test_function_eq opt rnd tm t v1 v2 v3 p0 p1 p2 p3 :
  0 <= args t <= 3 -> gen_arg opt rnd t 0 p0 = Ok (v1, p1) -> gen_arg opt rnd t 1 p1 = Ok (v2, p2) ->
  gen_arg opt rnd t 2 p2 = Ok (v3, p3) ->
  test_function opt rnd tm t p0 = (errors ← test_values tm t v1 v2 v3; Ok (errors, p3)).
Proof.
  intros Ha E1 E2 E3. unfold test_function, require.
  replace (negb ((args t <? 0) || (3 <? args t))) with true by lia.
  cbn [mbind outcome_bind]. rewrite E1. cbn [mbind outcome_bind]. rewrite E2.
  cbn [mbind outcome_bind]. by rewrite E3.
Qed.

Lemma gen_arg_none opt rnd t i pos : args t <= i -> gen_arg opt rnd t i pos = Ok ([], pos).
Proof. intros Hi. unfold gen_arg. by destruct (Z.ltb_spec i (args t)); [lia|]. Qed.

(** Puzzle [t] ends with [e] errors, whatever values are generated; with one when the
    alarm interrupts it. *)
Definition has_errors (rnd : Z -> Z) (t : test_rec) (e : Z) : Prop :=
  forall tm pos, exists pos', test_function no_options rnd tm t pos = Ok (if tm : bool then 1 else e, pos').

Section Harness.
Context (rnd : Z -> Z).
Hypothesis Hrnd : forall k, 0 <= rnd k <= RAND_MAX.

Lemma gen_arg_full t i pos :
  arg_ranges t = full_range -> 0 <= i < args t -> args t <= 3 ->
  exists v pos', gen_arg no_options rnd t i pos = Ok (v, pos') /\ Forall is_s32 v /\ TMin ∈ v.
Proof.
  intros Ht Hi Ha. unfold gen_arg. destruct (Z.ltb_spec i (args t)); [|lia]. rewrite Ht.
  replace (vget full_range i) with (Ok (TMin, TMax) : outcome (Z * Z)).
  - cbn [mbind outcome_bind]. apply gen_full; [done|lia..].
  - assert (i = 0 \/ i = 1 \/ i = 2) as [->|[->| ->]] by lia; reflexivity.
Qed.

(** The values are generated, then the tests run on them. *)
Lemma has_errors_intro t e :
  0 <= args t <= 3 -> arg_ranges t = full_range ->
  (forall v1 v2 v3, (0 < args t -> Forall is_s32 v1 /\ TMin ∈ v1) -> (1 < args t -> Forall is_s32 v2) ->
     (2 < args t -> Forall is_s32 v3) -> test_values false t v1 v2 v3 = Ok e) ->
  has_errors rnd t e.
Proof.
  intros Ha Hr H tm pos.
  assert (Hg : forall i pos, 0 <= i < 3 -> exists v pos', gen_arg no_options rnd t i pos = Ok (v, pos') /\
    (i < args t -> Forall is_s32 v /\ TMin ∈ v)).
  { intros i p Hi. destruct (Z.lt_ge_cases i (args t)) as [Hlt|Hge].
    - destruct (gen_arg_full t i p) as (v & p' & E & Hv); [done|lia..|]. exists v, p'. done.
    - exists [], p. split; [by apply gen_arg_none|lia]. }
  destruct (Hg 0 pos ltac:(lia)) as (v1 & p1 & E1 & H1). destruct (Hg 1 p1 ltac:(lia)) as (v2 & p2 & E2 & H2).
  destruct (Hg 2 p2 ltac:(lia)) as (v3 & p3 & E3 & H3). exists p3.
  rewrite (test_function_eq _ _ _ _ _ _ _ _ _ _ _ Ha E1 E2 E3).
  rewrite (test_values_late _ _ _ _ tm e); [done|].
  apply H; [done|intros Hl; by apply H2|intros Hl; by apply H3].
Qed.

Lemma harness1_ok t f g :
  solution_funct t = Fun1 f -> test_funct t = Fun1 g -> args t = 1 -> arg_ranges t = full_range ->
  (forall x, is_s32 x -> f x = g x) -> has_errors rnd t 0.
Proof.
  intros Hf Hg Ha Hr H. apply has_errors_intro; [lia|done|]. intros v1 v2 v3 H1 _ _.
  destruct H1 as [H1 _]; [lia|]. rewrite (test_values_ok _ _ _ _ (agrees1 f g v1)); [by rewrite agrees1_true|].
  unfold agrees. by rewrite Hf, Hg, Ha.
Qed.

Lemma harness2_ok t f g :
  solution_funct t = Fun2 f -> test_funct t = Fun2 g -> args t = 2 -> arg_ranges t = full_range ->
  (forall x y, is_s32 x -> is_s32 y -> f x y = g x y) -> has_errors rnd t 0.
Proof.
  intros Hf Hg Ha Hr H. apply has_errors_intro; [lia|done|]. intros v1 v2 v3 H1 H2 _.
  destruct H1 as [H1 _]; [lia|]. specialize (H2 ltac:(lia)).
  rewrite (test_values_ok _ _ _ _ (agrees2 f g v1 v2)); [by rewrite agrees2_true|].
  unfold agrees. by rewrite Hf, Hg, Ha.
Qed.

Lemma harness3_ok t f g :
  solution_funct t = Fun3 f -> test_funct t = Fun3 g -> args t = 3 -> arg_ranges t = full_range ->
  (forall x y z, is_s32 x -> is_s32 y -> is_s32 z -> f x y z = g x y z) -> has_errors rnd t 0.
Proof.
  intros Hf Hg Ha Hr H. apply has_errors_intro; [lia|done|]. intros v1 v2 v3 H1 H2 H3.
  destruct H1 as [H1 _]; [lia|]. specialize (H2 ltac:(lia)). specialize (H3 ltac:(lia)).
  rewrite (test_values_ok _ _ _ _ (agrees3 f g v1 v2 v3)); [|unfold agrees; by rewrite Hf, Hg, Ha].
  replace (agrees3 f g v1 v2 v3) with true; [done|]. symmetry. apply forallb_forall.
  intros x Hx. apply agrees2_true; [|done..]. intros y z. apply H.
  rewrite list.Forall_forall in H1. by apply H1, list_elem_of_In.
Qed.

Lemma howManyBits_fails : has_errors rnd test_set_howManyBits 1.
Proof.
  apply has_errors_intro; [done|done|]. intros v1 v2 v3 H1 _ _. destruct H1 as [_ Hm]; [done|].
  rewrite (test_values_ok _ _ _ _ (agrees1 howManyBits test_howManyBits v1)) by done.
  replace (agrees1 howManyBits test_howManyBits v1) with false; [done|]. symmetry.
  apply not_true_iff_false. unfold agrees1. rewrite forallb_forall. intros H.
  specialize (H TMin). rewrite <- list_elem_of_In in H. by specialize (H Hm).
Qed.

(** The nine solved puzzles pass on whatever values are generated. *)
Lemma solved_pass : Forall (fun t => has_errors rnd t 0) test_set_solved.
Proof.
  repeat apply list.Forall_cons_2; [..|constructor].
  - eapply harness2_ok; [done..|]. intros; apply bitXor_ok.
  - intros tm pos. exists pos. by destruct tm.
  - eapply harness1_ok; [done..|]. apply isTmax_ok.
  - eapply harness1_ok; [done..|]. apply allOddBits_ok.
  - eapply harness1_ok; [done..|]. intros; apply negate_ok.
  - eapply harness1_ok; [done..|]. apply isAsciiDigit_ok.
  - eapply harness3_ok; [done..|]. intros; apply conditional_ok.
  - eapply harness2_ok; [done..|]. apply isLessOrEqual_ok.
  - eapply harness1_ok; [done..|]. apply logicalNeg_ok.
Qed.

(** The puzzles of [ts], numbered from [i], that the alarm interrupts, and the ratings
    of the others. *)
Fixpoint late (alarm : nat -> bool) (i : nat) (ts : list test_rec) : Z :=
  match ts with [] => 0 | _ :: ts => (if alarm i then 1 else 0) + late alarm (S i) ts end.

Fixpoint earned (alarm : nat -> bool) (i : nat) (ts : list test_rec) : Z :=
  match ts with [] => 0 | t :: ts => (if alarm i then 0 else rating t) + earned alarm (S i) ts end.

Lemma run_tests_app opt alarm i ts us st :
  run_tests opt rnd alarm i st (ts ++ us) = (st' ← run_tests opt rnd alarm i st ts; run_tests opt rnd alarm (i + length ts) st' us).
Proof.
  revert i st. induction ts as [|t r IH]; intros i st; cbn [app run_tests length].
  - by rewrite Nat.add_0_r.
  - destruct (run_one opt rnd (alarm i) st t); [|done]. cbn [mbind outcome_bind]. rewrite IH.
    by replace (S i + length r)%nat with (i + S (length r))%nat by lia.
Qed.

(** Puzzles without errors score their rating, if they are not interrupted. *)
Lemma run_tests_solved alarm ts i e p m pos :
  Forall (fun t => has_errors rnd t 0) ts ->
  exists pos', run_tests no_options rnd alarm i (e, p, m, pos) ts =
    Ok (e + late alarm i ts, p + earned alarm i ts, foldl (fun m t => m + rating t) m ts, pos').
Proof.
  intros H. revert i e p m pos. induction H as [|t r Ht _ IH]; intros i e p m pos.
  { exists pos. cbn. by rewrite !Z.add_0_r. }
  cbn [run_tests run_one test_fname no_options global_rating]. destruct (Ht (alarm i) pos) as [pos1 E].
  rewrite E. cbn [mbind outcome_bind Z.eqb].
  destruct (IH (S i) (e + (if alarm i then 1 else 0)) (p + (if alarm i then 0 else rating t)) (m + rating t) pos1) as [pos2 E2].
  exists pos2. cbn [late earned foldl]. rewrite !Z.add_assoc. rewrite <- E2. by destruct (alarm i).
Qed.

(** A puzzle that fails scores nothing, interrupted or not. *)
Lemma run_tests_failed alarm i t ts e p m pos :
  has_errors rnd t 1 ->
  exists pos', run_tests no_options rnd alarm i (e, p, m, pos) (t :: ts) =
    run_tests no_options rnd alarm (S i) (e + 1, p, m + rating t, pos') ts.
Proof.
  intros Ht. destruct (Ht (alarm i) pos) as [pos' E]. exists pos'.
  cbn [run_tests run_one test_fname no_options global_rating]. rewrite E.
  cbn [mbind outcome_bind Z.eqb]. destruct (alarm i); cbn [Z.eqb]; by rewrite Z.add_0_r.
Qed.
End Harness.
