(* ===== verification/NumShow.v ===== *)
(** Number arguments and their display: [get_num_val] of btest.c, fshow.c and
    ishow.c, and the bit fields that [show_float] prints.

    [strtof] is a parameter: it gives the bit pattern of the value and whether
    the whole string was consumed. *)

From S2P Require Import Prelude CString.

(** * get_num_val *)

(** The scan for x, X, e, E and '.': ([ishex], [isfloat]). *)
Fixpoint scan_kind (ishex isfloat : bool) (s : list Z) : bool * bool :=
  match s with
  | [] => (ishex, isfloat)
  | c :: r =>
      if (c =? 120) || (c =? 88) then scan_kind true isfloat r
      else if (c =? 101) || (c =? 69) then scan_kind ishex (if ishex then isfloat else true) r
      else if c =? 46 then scan_kind ishex true r
      else scan_kind ishex isfloat r
  end.

(** The integer branch: [upperbits] is 0, -1 or 1, then the low 32 bits. *)
Definition int_val (s : list Z) : option Z :=
  let llval := strtoll s in
  let upperbits := Z.shiftr llval 31 in
  if (upperbits =? 0) || (upperbits =? -1) || (upperbits =? 1) then Some (u32 llval) else None.

Section GetNumVal.
Context (strtof : list Z -> Z * bool).     (* bits of the float, all consumed *)

Definition float_val (s : list Z) : option Z :=
  let '(bits, consumed) := strtof s in if consumed then Some bits else None.

(** btest.c: [valp] points to [old]; the test [!*valp] asks that it is 0. *)
Definition get_num_val_btest (s : list Z) (old : Z) : option Z :=
  if (scan_kind false false s).2 then float_val s
  else if old =? 0 then int_val s else None.

(** fshow.c: the test is [valp], which holds. *)
Definition get_num_val_fshow (s : list Z) : option Z :=
  if (scan_kind false false s).2 then float_val s else int_val s.

(** ishow.c: no floats. *)
Definition get_num_val_ishow (s : list Z) : option Z :=
  if (scan_kind false false s).2 then None else int_val s.
End GetNumVal.

(** * show_float and show_int *)

Definition FRAC_SIZE : Z := 23.
Definition EXP_SIZE : Z := 8.
Definition FLOAT_SIZE : Z := 32.
Definition BIAS : Z := Z.shiftl 1 (EXP_SIZE - 1) - 1.
Definition FRAC_MASK : Z := Z.shiftl 1 FRAC_SIZE - 1.
Definition EXP_MASK : Z := Z.shiftl 1 EXP_SIZE - 1.

Definition get_exp (uf : Z) : Z := Z.land (Z.shiftr uf FRAC_SIZE) EXP_MASK.
Definition get_frac (uf : Z) : Z := Z.land uf FRAC_MASK.
Definition get_sign (uf : Z) : Z := Z.land (Z.shiftr uf (FLOAT_SIZE - 1)) 1.

(** What [show_float] prints after the bit representation. *)
Inductive shown :=
| Infinity (negative : bool)
| NotANumber
| Denormalized (negative : bool) (mantissa uexp : Z)
| Normalized (negative : bool) (mantissa uexp : Z).

Definition show_float (uf : Z) : shown :=
  let exp := get_exp uf in
  let frac := get_frac uf in
  let sign := negb (get_sign uf =? 0) in
  if exp =? EXP_MASK then
    if frac =? 0 then Infinity sign else NotANumber
  else
    let denorm := exp =? 0 in
    let uexp := if denorm then 1 - BIAS else exp - BIAS in
    let mantissa := if denorm then frac else frac + Z.shiftl 1 FRAC_SIZE in
    if denorm then Denormalized sign mantissa uexp else Normalized sign mantissa uexp.

(** [show_int]: the pattern as a signed and as an unsigned number. *)
Definition show_int (uf : Z) : Z * Z := (s32 uf, uf).

(** * The two programs *)

(** [main] of ishow.c without argv[0]: one line per argument, [None] for one that
    cannot be converted; [usage] exits with 0. *)
Definition ishow_main (args : list (list Z)) : outcome (list (option (Z * Z))) :=
  require (negb (bool_decide (args = []))) (Exit 0);;
  Ok ((fun sval => show_int <$> get_num_val_ishow sval) <$> args).

(** [main] of fshow.c: what is shown, and whether all arguments were converted;
    the first one that is not ends the program through [usage]. *)
Fixpoint fshow_args (strtof : list Z -> Z * bool) (args : list (list Z)) : list shown * bool :=
  match args with
  | [] => ([], true)
  | sval :: rest =>
      match get_num_val_fshow strtof sval with
      | Some uf => let '(l, ok) := fshow_args strtof rest in (show_float uf :: l, ok)
      | None => ([], false)
      end
  end.

Definition fshow_main (strtof : list Z -> Z * bool) (args : list (list Z)) : list shown * bool :=
  match args with [] => ([], false) | _ => fshow_args strtof args end.

(** * Theorems *)

Lemma int_val_iff s v :
  int_val s = Some v <-> - 2 ^ 31 <= strtoll s < 2 ^ 32 /\ v = u32 (strtoll s).
Proof.
  unfold int_val. rewrite Z.shiftr_div_pow2 by lia. set (x := strtoll s).
  assert (H : ((x / 2 ^ 31 =? 0) || (x / 2 ^ 31 =? -1) || (x / 2 ^ 31 =? 1)) = true <->
              - 2 ^ 31 <= x < 2 ^ 32).
  { pose proof (Z.div_mod x (2 ^ 31)). pose proof (Z.mod_pos_bound x (2 ^ 31)). lia. }
  destruct (_ || _ || _).
  - split; [intros [= <-]; split; [by apply H|done]|by intros [_ ->]].
  - split; [discriminate|intros [Hx _]]. by apply H in Hx.
Qed.

Lemma scan_kind_digits s h f : all_digits s -> scan_kind h f s = (h, f).
Proof.
  intros Hs. revert h f. induction Hs as [|c r Hc _ IH]; intros h f; [done|]. cbn.
  unfold isdigit in Hc.
  replace ((c =? 120) || (c =? 88)) with false by lia.
  replace ((c =? 101) || (c =? 69)) with false by lia.
  replace (c =? 46) with false by lia. apply IH.
Qed.

Lemma span_all (P : Z -> bool) l : Forall (fun x => P x = true) l -> span P l = (l, []).
Proof. intros Hl. induction Hl as [|x r Hx _ IH]; cbn; [done|]. by rewrite Hx, IH. Qed.

Lemma dec_digits_head f n : 0 < n < 10 ^ Z.of_nat f -> (0 < f)%nat -> 
  exists c r, dec_digits f n = c :: r /\ 48 < c <= 57.
Proof.
  revert n. induction f as [|f IH]; intros n Hn Hf; [lia|]. cbn [dec_digits].
  rewrite Nat2Z.inj_succ, Z.pow_succ_r in Hn by lia.
  destruct (Z.ltb_spec n 10); [exists (48 + n), []; split; [done|lia]|].
  destruct (IH (n / 10)) as (c & r & -> & Hc).
  - split; [apply Z.div_str_pos; lia|apply Z.div_lt_upper_bound; lia].
  - destruct f; [cbn in Hn; lia|lia].
  - exists c, (r ++ [48 + n mod 10]). done.
Qed.

(** The decimal notation of a number is read back by [strtoll]. *)
Lemma strtoll_dec n : 0 <= n < 2 ^ 32 -> strtoll (dec_digits 10 n) = n.
Proof.
  intros Hn. destruct (Z.eq_dec n 0) as [->|Hne]; [reflexivity|].
  destruct (dec_digits_ok 10 n) as (Hd & _ & Hv); [cbn; lia|lia|].
  destruct (dec_digits_head 10 n) as (c & r & E & Hc); [cbn; lia|lia|].
  rewrite E in *. unfold strtoll, skip_ws. cbn [span].
  replace (isspace c) with false by (unfold isspace; lia). cbn [snd scan_sign].
  replace (c =? 45) with false by lia. replace (c =? 43) with false by lia.
  rewrite (span_all isdigit) by done. cbn [fst].
  assert (Hs : saturate (1 * digits_val (c :: r)) = n).
  { rewrite Hv, Z.mul_1_l. unfold saturate, llong_min, llong_max. repeat zcase; lia. }
  assert (c = 49 \/ c = 50 \/ c = 51 \/ c = 52 \/ c = 53 \/ c = 54 \/ c = 55 \/ c = 56 \/ c = 57)
    as Hcs by lia.
  clear - Hs Hcs. repeat destruct Hcs as [->|Hcs]; try subst c; exact Hs.
Qed.

(** the decimal notation of every 32-bit number is read back by get_num_val of
    fshow.c, ishow.c and btest.c; the version of btest.c rejects it when the variable it
    fills already holds a non-zero value. *)
Theorem get_num_val_decimal (strtof : list Z -> Z * bool) (n : Z) :
  0 <= n < 2 ^ 32 ->
  get_num_val_fshow strtof (dec_digits 10 n) = Some n /\
  get_num_val_ishow (dec_digits 10 n) = Some n /\
  get_num_val_btest strtof (dec_digits 10 n) 0 = Some n /\
  (forall old, old <> 0 -> get_num_val_btest strtof (dec_digits 10 n) old = None).
Proof.
  intros Hn. destruct (dec_digits_ok 10 n) as (Hd & _ & _); [cbn; lia|lia|].
  unfold get_num_val_fshow, get_num_val_ishow, get_num_val_btest.
  rewrite (scan_kind_digits _ _ _ Hd). cbn [snd].
  assert (E : int_val (dec_digits 10 n) = Some n).
  { apply int_val_iff. rewrite strtoll_dec by done. split; [lia|]. by rewrite u32_id. }
  rewrite E. split; [done|]. split; [done|]. split; [done|].
  intros old Ho. by destruct (Z.eqb_spec old 0).
Qed.

Lemma get_num_val_decimal_witness :
  get_num_val_fshow (fun _ => (0, true)) (dec_digits 10 4294967295) = Some 4294967295.
Proof.
  assert (H : 0 <= 4294967295 < 2 ^ 32) by lia.
  exact (proj1 (get_num_val_decimal (fun _ => (0, true)) 4294967295 H)).
Defined.

(** the sign, exponent and fraction fields that show_float extracts are within
    their widths and reassemble to the bit pattern. *)
Theorem float_fields_reassemble (uf : Z) :
  is_u32 uf ->
  uf = get_sign uf * 2 ^ 31 + get_exp uf * 2 ^ 23 + get_frac uf /\
  0 <= get_sign uf < 2 /\ 0 <= get_exp uf < 2 ^ 8 /\ 0 <= get_frac uf < 2 ^ 23.
Proof.
  intros Hu. unfold is_u32 in Hu. unfold get_sign, get_exp, get_frac, FRAC_SIZE, FLOAT_SIZE.
  change EXP_MASK with (2 ^ 8 - 1). change FRAC_MASK with (2 ^ 23 - 1).
  change (Z.land (Z.shiftr uf (32 - 1)) 1) with (Z.land (Z.shiftr uf 31) (2 ^ 1 - 1)).
  rewrite !land_mask, !Z.shiftr_div_pow2 by lia.
  assert (E : uf / 2 ^ 31 = uf / 2 ^ 23 / 2 ^ 8) by (rewrite Z.div_div by lia; done).
  pose proof (Z.div_mod uf (2 ^ 23)). pose proof (Z.mod_pos_bound uf (2 ^ 23)).
  pose proof (Z.div_mod (uf / 2 ^ 23) (2 ^ 8)). pose proof (Z.mod_pos_bound (uf / 2 ^ 23) (2 ^ 8)).
  assert (0 <= uf / 2 ^ 31 < 2) by (split; [apply Z.div_pos|apply Z.div_lt_upper_bound]; lia).
  rewrite (Z.mod_small (uf / 2 ^ 31)) by lia. lia.
Qed.

Lemma float_fields_reassemble_witness :
  0x40490fdb = get_sign 0x40490fdb * 2 ^ 31 + get_exp 0x40490fdb * 2 ^ 23 + get_frac 0x40490fdb.
Proof. apply (float_fields_reassemble 0x40490fdb). split; vm_compute; congruence. Defined.

(** Both programs on the decimal notations of 32-bit numbers: every argument is
    converted and shown, in order. *)
Theorem show_programs_decimal (strtof : list Z -> Z * bool) (ns : list Z) :
  ns <> [] -> Forall (fun n => 0 <= n < 2 ^ 32) ns ->
  ishow_main (dec_digits 10 <$> ns) = Ok ((fun n => Some (s32 n, n)) <$> ns) /\
  fshow_main strtof (dec_digits 10 <$> ns) = (show_float <$> ns, true).
Proof.
  intros Hne Hns. split.
  - unfold ishow_main, require. rewrite bool_decide_eq_false_2 by by destruct ns. cbn [negb mbind outcome_bind].
    f_equal. rewrite <- list_fmap_compose. apply list_fmap_ext. intros i n Hn.
    rewrite list.Forall_forall in Hns. specialize (Hns n (list_elem_of_lookup_2 _ _ _ Hn)). unfold compose.
    destruct (get_num_val_decimal strtof n Hns) as (_ & -> & _). done.
  - destruct ns as [|n ns]; [done|]. change (fshow_main strtof (dec_digits 10 <$> n :: ns))
      with (fshow_args strtof (dec_digits 10 <$> n :: ns)). clear Hne.
    induction Hns as [|m r Hm _ IH]; [done|]. rewrite !fmap_cons. cbn [fshow_args].
    destruct (get_num_val_decimal strtof m Hm) as (-> & _). by rewrite IH.
Qed.

Lemma show_programs_decimal_witness :
  fshow_main (fun _ => (0, true)) [dec_digits 10 1065353216] = ([Normalized false 8388608 0], true).
Proof.
  apply (show_programs_decimal (fun _ => (0, true)) [1065353216]); [done|].
  constructor; [lia|constructor].
Defined.
