(* ===== verification/FloatPuzzles.v ===== *)
(** The floating-point reference functions of [tests.c], on the bit patterns of
    IEEE single precision, and the whole table of [decl.c].

    [float] is [spec_float] of the Standard Library with precision 24 and
    largest exponent 128; multiplication rounds to nearest even.  The union of
    [u2f] and [f2u] is the interchange format written out.  The conversion to
    [int] of a value that does not fit is the one of the target (cvttss2si),
    INT_MIN, which is also what the comment of the puzzle asks for. *)

From Stdlib Require Import SpecFloat String.
From S2P Require Import Prelude DataLab Btest.
Import Bits Tests.
Local Open Scope Z_scope.

(** * The interchange format *)

Definition sign_of (u : Z) : bool := Z.testbit u 31.
Definition exp_of (u : Z) : Z := Z.land (Z.shiftr u 23) 0xFF.
Definition frac_of (u : Z) : Z := Z.land u 0x7FFFFF.

Definition u2f (u : Z) : spec_float :=
  let s := sign_of u in
  let e := exp_of u in
  let f := frac_of u in
  if e =? 0xFF then if f =? 0 then S754_infinity s else S754_nan
  else
    match (if e =? 0 then f else f + 0x800000) with
    | Zpos m => S754_finite s m (Z.max e 1 - 150)
    | _ => S754_zero s
    end.

(** The pattern of NaN is the default one. *)
Definition f2u (f : spec_float) : Z :=
  let sign (s : bool) := if s then 0x80000000 else 0 in
  match f with
  | S754_zero s => sign s
  | S754_infinity s => sign s + 0x7f800000
  | S754_nan => 0x7fc00000
  | S754_finite s m e =>
      sign s + (if Zpos m <? 0x800000 then Zpos m else (e + 150) * 0x800000 + (Zpos m - 0x800000))
  end.

Definition f_mul (x y : spec_float) : spec_float := SFmul 24 128 x y.

Definition isnan (f : spec_float) : bool := match f with S754_nan => true | _ => false end.

(** [(int)f] *)
Definition f_to_int (f : spec_float) : Z :=
  match f with
  | S754_zero _ => 0
  | S754_finite s m e =>
      let v := if 0 <=? e then Zpos m * 2 ^ e else Zpos m / 2 ^ (- e) in
      let v := if s then - v else v in
      if (- 2 ^ 31 <=? v) && (v <? 2 ^ 31) then v else int_min
  | _ => int_min
  end.

(** The literals 1.0, 2.0 and 0.5. *)
Definition f_one : spec_float := S754_finite false 0x800000 (-23).
Definition f_two : spec_float := S754_finite false 0x800000 (-22).
Definition f_half : spec_float := S754_finite false 0x800000 (-24).

(** * The reference functions *)

Definition test_floatScale2 (uf : Z) : Z :=
  let f := u2f uf in
  let tf := f_mul f_two f in
  if isnan f then uf else f2u tf.

Definition test_floatFloat2Int (uf : Z) : Z := f_to_int (u2f uf).

(** The loop of [test_floatPower2]; [x] loses a bit in every round. *)
Fixpoint power2_loop (fuel : nat) (x : Z) (result p2 : spec_float) : spec_float :=
  match fuel with
  | O => result
  | S fuel =>
      if 0 <? x then
        power2_loop fuel (Z.shiftr x 1)
          (if Z.land x 1 =? 0 then result else f_mul result p2) (f_mul p2 p2)
      else result
  end.

Definition test_floatPower2 (x : Z) : Z :=
  if u32 x =? 0x80000000 then 0
  else if x <? 0 then f2u (power2_loop 32 (- x) f_one f_half)
  else f2u (power2_loop 32 x f_one f_two).

(** * The table of decl.c *)

Definition float_range : list (Z * Z) := [(1, 1); (1, 1); (1, 1)].

(** The functions are called through [int (int)]. *)
Definition as_int (f : Z -> Z) (x : Z) : Z := s32 (f (u32 x)).

Definition test_set_float : list test_rec := [
  MkTest "floatScale2"%string (Fun1 (as_int floatScale2)) (Fun1 (as_int test_floatScale2)) 1 4 float_range;
  MkTest "floatFloat2Int"%string (Fun1 (as_int floatFloat2Int)) (Fun1 (as_int test_floatFloat2Int)) 1 4 float_range;
  MkTest "floatPower2"%string (Fun1 (fun x => s32 (floatPower2 x))) (Fun1 (fun x => s32 (test_floatPower2 x))) 1 4 float_range ].

Definition test_set : list test_rec := test_set_solved ++ [test_set_howManyBits] ++ test_set_float.

(** * Powers of two *)

(** What the comment of [floatPower2] asks for. *)
Definition power2_bits (x : Z) : Z :=
  if x <? -149 then 0
  else if x <? -126 then 2 ^ (x + 149)
  else if x <=? 127 then (x + 127) * 0x800000
  else 0x7f800000.

(** The power [2^(s*a)], [a] from 0. *)
Definition pow2 (s a : Z) : spec_float := u2f (power2_bits (s * a)).

Definition all_to (n : nat) (P : Z -> bool) : bool := forallb (fun k => P (Z.of_nat k)) (seq 0 n).

Lemma all_to_spec n P : all_to n P = true -> forall k, 0 <= k < Z.of_nat n -> P k = true.
Proof.
  unfold all_to. rewrite forallb_forall. intros H k Hk. rewrite <- (Z2Nat.id k) by lia. apply H.
  apply in_seq. lia.
Qed.



Lemma pow2_clamp s a : (s = 1 \/ s = -1) -> 0 <= a -> pow2 s a = pow2 s (Z.min a 150).
Proof.
  intros Hs Ha. destruct (Z.le_gt_cases a 150); [by rewrite Z.min_l by lia|].
  rewrite Z.min_r by lia. unfold pow2. f_equal. unfold power2_bits. destruct Hs as [->| ->]; repeat zcase; lia.
Qed.

#[export] Instance spec_float_eq_dec : EqDecision spec_float.
Proof. solve_decision. Defined.

Definition products_ok (s : Z) : bool :=
  all_to 151 (fun a => all_to 151 (fun b =>
    bool_decide (f_mul (pow2 s a) (pow2 s b) = pow2 s (a + b)))).

Lemma products_hold s : s = 1 \/ s = -1 -> products_ok s = true.
Proof. intros [->| ->]; vm_compute; reflexivity. Qed.

(** Multiplying powers of two adds the exponents, in the range and beyond it. *)
Lemma pow2_mul s a b :
  s = 1 \/ s = -1 -> 0 <= a -> 0 <= b -> f_mul (pow2 s a) (pow2 s b) = pow2 s (a + b).
Proof.
  intros Hs Ha Hb. rewrite (pow2_clamp s a), (pow2_clamp s b), (pow2_clamp s (a + b)) by (done || lia).
  pose proof (all_to_spec _ _ (products_hold s Hs) (Z.min a 150) ltac:(lia)) as H. cbn beta in H.
  pose proof (all_to_spec _ _ H (Z.min b 150) ltac:(lia)) as H2. cbn beta in H2.
  apply bool_decide_eq_true in H2. rewrite H2, (pow2_clamp s (Z.min a 150 + Z.min b 150)) by (done || lia).
  f_equal. lia.
Qed.

Lemma power2_loop_ok s fuel x r p :
  s = 1 \/ s = -1 -> 0 <= x < 2 ^ Z.of_nat fuel -> 0 <= r -> 0 <= p ->
  power2_loop fuel x (pow2 s r) (pow2 s p) = pow2 s (r + p * x).
Proof.
  intros Hs. revert x r p. induction fuel as [|fuel IH]; intros x r p Hx Hr Hp; cbn [power2_loop].
  { cbn in Hx. replace x with 0 by lia. f_equal. lia. }
  destruct (Z.ltb_spec 0 x); [|replace x with 0 by lia; f_equal; lia].
  rewrite Nat2Z.inj_succ, Z.pow_succ_r in Hx by lia.
  replace (Z.land x 1) with (x mod 2) by (symmetry; apply (land_mask x 1); lia).
  rewrite Z.shiftr_div_pow2 by lia. change (2 ^ 1) with 2.
  pose proof (Z.div_mod x 2). pose proof (Z.mod_pos_bound x 2).
  rewrite !pow2_mul by done. destruct (Z.eqb_spec (x mod 2) 0); rewrite IH by lia; f_equal; nia.
Qed.

(** * Fields *)

Lemma fields u :
  is_u32 u -> u = (if sign_of u then 2 ^ 31 else 0) + exp_of u * 2 ^ 23 + frac_of u /\
  0 <= exp_of u < 256 /\ 0 <= frac_of u < 2 ^ 23.
Proof.
  unfold is_u32. intros Hu. unfold exp_of, frac_of, sign_of.
  change 0xFF with (2 ^ 8 - 1). change 0x7FFFFF with (2 ^ 23 - 1).
  rewrite !land_mask, Z.shiftr_div_pow2 by lia.
  replace (Z.testbit u 31) with (2 ^ 31 <=? u).
  - pose proof (Z.div_mod u (2 ^ 23)). pose proof (Z.mod_pos_bound u (2 ^ 23)).
    pose proof (Z.div_mod (u / 2 ^ 23) (2 ^ 8)). pose proof (Z.mod_pos_bound (u / 2 ^ 23) (2 ^ 8)).
    destruct (Z.leb_spec (2 ^ 31) u); lia.
  - rewrite Z.testbit_odd, Z.shiftr_div_pow2 by lia. destruct (Z.leb_spec (2 ^ 31) u).
    + by replace (u / 2 ^ 31) with 1 by (apply Z.div_unique with (u - 2 ^ 31); lia).
    + by rewrite Z.div_small by lia.
Qed.

(** A pattern is recovered from its value unless it is NaN. *)
Lemma f2u_u2f u : is_u32 u -> isnan (u2f u) = false -> f2u (u2f u) = u.
Proof.
  intros Hu. destruct (fields u Hu) as (E & He & Hf). revert E He Hf. unfold u2f.
  generalize (sign_of u) (exp_of u) (frac_of u). intros s e f E He Hf.
  destruct (Z.eqb_spec e 0xFF) as [->|].
  { destruct (Z.eqb_spec f 0); [|done]. intros _. cbn [f2u]. destruct s; lia. }
  intros _. destruct (Z.eqb_spec e 0).
  - destruct f as [|m|m] eqn:Ef; cbn [f2u]; [|destruct (Z.ltb_spec (Zpos m) 0x800000)|]; destruct s; lia.
  - destruct (f + 0x800000) as [|m|m] eqn:Ef; cbn [f2u]; [|destruct (Z.ltb_spec (Zpos m) 0x800000)|]; destruct s; lia.
Qed.

Lemma power2_bits_u32 x : is_u32 (power2_bits x).
Proof.
  unfold power2_bits, is_u32. repeat zcase; try lia.
  assert (0 < 2 ^ (x + 149) < 2 ^ 32) by (split; [apply Z.pow_pos_nonneg|apply Z.pow_lt_mono_r]; lia). lia.
Qed.

Lemma power2_bits_number x : isnan (u2f (power2_bits x)) = false.
Proof.
  unfold u2f. destruct (Z.eqb_spec (exp_of (power2_bits x)) 0xFF) as [E|].
  - replace (power2_bits x) with 0x7f800000; [done|]. unfold power2_bits in *. repeat zcase; try done.
    + exfalso. destruct (fields (2 ^ (x + 149))) as (E' & _ & Hf).
      * assert (0 < 2 ^ (x + 149) < 2 ^ 23) by (split; [apply Z.pow_pos_nonneg|apply Z.pow_lt_mono_r]; lia).
        unfold is_u32. lia.
      * assert (2 ^ (x + 149) < 2 ^ 23) by (apply Z.pow_lt_mono_r; lia). rewrite E in E'.
        destruct (sign_of (2 ^ (x + 149))); lia.
    + exfalso. destruct (fields ((x + 127) * 0x800000)) as (E' & _ & Hf); [unfold is_u32; lia|]. rewrite E in E'.
      destruct (sign_of ((x + 127) * 0x800000)); lia.
  - destruct (_ =? 0); [by destruct (frac_of _)|by destruct (frac_of _ + _)].
Qed.

(** For every 32-bit argument the repeated squaring of test_floatPower2 gives the
    pattern of the power of two that the puzzle asks for: 0 below the smallest
    denormalised number, the denormalised and normalised powers, and infinity. *)
Theorem test_floatPower2_correct (x : Z) : is_s32 x -> test_floatPower2 x = power2_bits x.
Proof.
  unfold is_s32. intros Hx. unfold test_floatPower2. destruct (Z.eqb_spec (u32 x) 0x80000000) as [E|E].
  { assert (x = - 2 ^ 31) as ->; [|done]. unfold u32 in E.
    destruct (Z.lt_ge_cases x 0); [|rewrite Z.mod_small in E by lia; lia].
    rewrite <- (Z_mod_plus_full x 1), Z.mod_small in E by lia. lia. }
  assert (x <> - 2 ^ 31) by (intros ->; by apply E).
  change f_one with (pow2 1 0) at 2. change f_one with (pow2 (-1) 0).
  change f_two with (pow2 1 1). change f_half with (pow2 (-1) 1).
  destruct (Z.ltb_spec x 0); rewrite power2_loop_ok by (cbn; lia); unfold pow2.
  - replace (-1 * (0 + 1 * - x)) with x by lia. apply f2u_u2f; [apply power2_bits_u32|apply power2_bits_number].
  - replace (1 * (0 + 1 * x)) with x by lia. apply f2u_u2f; [apply power2_bits_u32|apply power2_bits_number].
Qed.

Lemma test_floatPower2_correct_witness :
  is_s32 (-130) /\ test_floatPower2 (-130) = power2_bits (-130).
Proof. split; [unfold is_s32; lia|apply (test_floatPower2_correct (-130)); unfold is_s32; lia]. Defined.

(** * Doubling *)

(** The doubled pattern without floating-point arithmetic: NaN and infinity stay,
    a denormalised fraction is shifted, otherwise the exponent grows by one. *)
Definition scale2_bits (uf : Z) : Z :=
  let sign := if sign_of uf then 0x80000000 else 0 in
  if exp_of uf =? 0xFF then uf
  else if exp_of uf =? 0 then sign + 2 * frac_of uf
  else if exp_of uf =? 0xFE then sign + 0x7f800000
  else uf + 0x800000.

Lemma digits2_size m : digits2_pos m = Pos.size m.
Proof. induction m as [m IH|m IH|]; cbn; congruence. Qed.

Lemma digits2_bounds m : 2 ^ (Zpos (digits2_pos m) - 1) <= Zpos m < 2 ^ Zpos (digits2_pos m).
Proof.
  rewrite digits2_size. pose proof (Pos.size_gt m) as Hg. pose proof (Pos.size_le m) as Hl.
  assert (E : 2 ^ Zpos (Pos.size m) = Zpos (2 ^ Pos.size m)) by (symmetry; apply Pos2Z.inj_pow).
  split; [|lia]. enough (2 * 2 ^ (Zpos (Pos.size m) - 1) <= 2 * Zpos m) by lia.
  rewrite <- Z.pow_succ_r by lia. replace (Z.succ (Zpos (Pos.size m) - 1)) with (Zpos (Pos.size m)) by lia.
  rewrite E. lia.
Qed.

(** The number of digits from the range of the mantissa. *)
Lemma digits2_normal m : 2 ^ 23 <= Zpos m < 2 ^ 24 -> Zpos (digits2_pos m) = 24.
Proof.
  intros Hm. pose proof (digits2_bounds m) as [Hl Hu].
  assert (23 < Zpos (digits2_pos m)) by (apply (Z.pow_lt_mono_r_iff 2); lia).
  assert (Zpos (digits2_pos m) - 1 < 24) by (apply (Z.pow_lt_mono_r_iff 2); lia). lia.
Qed.

Lemma digits2_subnormal m : Zpos m < 2 ^ 23 -> Zpos (digits2_pos m) <= 23.
Proof.
  intros Hm. pose proof (digits2_bounds m) as [Hl _].
  assert (Zpos (digits2_pos m) - 1 < 23) by (apply (Z.pow_lt_mono_r_iff 2); lia). lia.
Qed.

(** A canonical mantissa is not rounded. *)
Lemma round_canonical s m e :
  fexp 24 128 (Zpos (digits2_pos m) + e) = e ->
  binary_round_aux 24 128 s (Zpos m) e loc_Exact =
  if e <=? 104 then S754_finite s m e else S754_infinity s.
Proof.
  intros He. unfold binary_round_aux, shr_fexp. cbn [Zdigits2 shr_record_of_loc]. rewrite He, Z.sub_diag.
  cbn [shr shr_m loc_of_shr_record round_nearest_even Zdigits2]. rewrite He, Z.sub_diag. reflexivity.
Qed.

(** Shifting out the 23 or 22 zeros of the factor 2.0. *)
Lemma double_normal s m e :
  2 ^ 23 <= Zpos m < 2 ^ 24 -> -149 <= e ->
  f_mul f_two (S754_finite s m e) = if e + 1 <=? 104 then S754_finite s m (e + 1) else S754_infinity s.
Proof.
  intros Hm He. pose proof (digits2_normal m Hm) as Hd.
  assert (Hf : fexp 24 128 (Zpos (digits2_pos m) + (e + 1)) = e + 1) by (unfold fexp, emin; lia).
  rewrite <- (round_canonical s m (e + 1) Hf). unfold f_mul, f_two. cbn [SFmul xorb].
  change (8388608 * m)%positive with (Nat.iter 23 xO m). cbn [Nat.iter nat_rect].
  unfold binary_round_aux at 1, shr_fexp at 1. cbn [Zdigits2 digits2_pos].
  match goal with |- context [fexp 24 128 ?a - ?b] => replace (fexp 24 128 a - b) with 23 by (unfold fexp, emin; lia) end.
  cbn [shr shr_record_of_loc iter_pos shr_1 orb shr_m loc_of_shr_record round_nearest_even].
  replace (-22 + e + 23) with (e + 1) by lia. unfold binary_round_aux, shr_fexp.
  cbn [Zdigits2]. rewrite Hf, Z.sub_diag. cbn [shr shr_record_of_loc shr_m loc_of_shr_record round_nearest_even Zdigits2].
  reflexivity.
Qed.

Lemma double_subnormal s m :
  Zpos m < 2 ^ 23 -> f_mul f_two (S754_finite s m (-149)) = S754_finite s (xO m) (-149).
Proof.
  intros Hm. pose proof (digits2_subnormal m Hm) as Hd.
  assert (Hf : fexp 24 128 (Zpos (digits2_pos (xO m)) + -149) = -149) by (cbn [digits2_pos]; unfold fexp, emin; lia).
  pose proof (round_canonical s (xO m) (-149) Hf) as Hr. cbn [Z.leb Z.compare] in Hr. rewrite <- Hr.
  unfold f_mul, f_two. cbn [SFmul xorb].
  change (8388608 * m)%positive with (Nat.iter 22 xO (xO m)). cbn [Nat.iter nat_rect].
  unfold binary_round_aux at 1, shr_fexp at 1. cbn [Zdigits2 digits2_pos].
  match goal with |- context [fexp 24 128 ?a - ?b] => replace (fexp 24 128 a - b) with 22 by (unfold fexp, emin; lia) end.
  cbn [shr shr_record_of_loc iter_pos shr_1 orb shr_m loc_of_shr_record round_nearest_even].
  change (-22 + -149 + 22) with (-149). unfold binary_round_aux, shr_fexp.
  cbn [Zdigits2]. rewrite Hf, Z.sub_diag. cbn [shr shr_record_of_loc shr_m loc_of_shr_record round_nearest_even Zdigits2].
  reflexivity.
Qed.

(** For every 32-bit pattern the reference function of the puzzle floatScale2
    doubles by the bits: the rounded product with 2.0 is exact, except that the
    largest exponent becomes infinity. *)
Theorem test_floatScale2_correct (uf : Z) : is_u32 uf -> test_floatScale2 uf = scale2_bits uf.
Proof.
  intros Hu. destruct (fields uf Hu) as (E & He & Hf). revert E He Hf.
  unfold test_floatScale2, scale2_bits, u2f.
  generalize (sign_of uf) (exp_of uf) (frac_of uf). intros s e f E He Hf.
  destruct (Z.eqb_spec e 0xFF) as [->|].
  { destruct (Z.eqb_spec f 0); [|done]. cbn. destruct s; lia. }
  destruct (Z.eqb_spec e 0) as [->|].
  - destruct f as [|m|m]; [by destruct s| |lia]. change (Z.max 0 1 - 150) with (-149).
    rewrite double_subnormal by lia. cbn [isnan f2u]. destruct (Z.ltb_spec (Zpos (xO m)) 0x800000); lia.
  - destruct (f + 0x800000) as [|m|m] eqn:Ef; [lia| |lia]. rewrite double_normal by lia. cbn [isnan].
    destruct (Z.eqb_spec e 0xFE) as [->|]; [done|].
    destruct (Z.leb_spec (Z.max e 1 - 150 + 1) 104); [|lia]. cbn [f2u].
    destruct (Z.ltb_spec (Zpos m) 0x800000); destruct s; lia.
Qed.

Lemma test_floatScale2_correct_witness :
  is_u32 0x80000003 /\ test_floatScale2 0x80000003 = scale2_bits 0x80000003.
Proof. split; [unfold is_u32; lia|apply (test_floatScale2_correct 0x80000003); unfold is_u32; lia]. Defined.

(** * The score of the whole table *)

Lemma gen_float rnd r pos : 0 < r <= 500000 -> wp (gen_vals no_options rnd 1 1 r 0 pos) (fun st => 0 ∈ st.1).
Proof.
  intros Hr. unfold gen_vals. cbn [has_arg no_options]. change (vget [false; false; false] 0) with (Ok false).
  cbn [mbind outcome_bind Z.eqb Pos.eqb andb].
  replace (Z.shiftl 1 23 <? r) with false by (symmetry; apply Z.ltb_ge; change (Z.shiftl 1 23) with 8388608; lia).
  apply wp_bind. apply (wp_for_range (fun i v => zlen v = 12 * i /\ (0 < i -> 0 ∈ v)) _ 0 r).
  - lia.
  - split; [done|lia].
  - intros i v Hi [Hl H0]. apply wp_pushes.
    + rewrite Hl. change (zlen (float_vals i)) with 12. change MAX_TEST_VALS with 6500000. lia.
    + split; [rewrite zlen_app, Hl; change (zlen (float_vals i)) with 12; lia|]. intros _.
      apply elem_of_app. destruct (Z.eq_dec i 0) as [->|]; [right|left; apply H0; lia].
      apply elem_of_cons. by left.
  - intros v [Hl H0]. apply wp_bind, wp_pushes.
    + rewrite Hl. change (zlen float_special) with 4. change MAX_TEST_VALS with 6500000. lia.
    + apply wp_ret. cbn [fst]. apply elem_of_app. left. apply H0. lia.
Qed.

Lemma float_fails rnd t f g :
  solution_funct t = Fun1 f -> test_funct t = Fun1 g -> args t = 1 -> arg_ranges t = float_range ->
  (f 0 =? g 0) = false -> has_errors rnd t 1.
Proof.
  intros Hf Hg Ha Hr Hd tm pos. destruct (gen_float rnd (arg_test_range 1) pos) as ([v pos'] & E & Hv);
    [change (arg_test_range 1) with 500000; lia|]. cbn [fst] in Hv. exists pos'.
  rewrite (test_function_eq _ _ _ _ v [] [] pos pos' pos' pos'); [|lia| |apply gen_arg_none; lia..].
  - rewrite (test_values_late _ _ _ _ tm 1); [done|].
    rewrite (test_values_ok _ _ _ _ (agrees1 f g v)); [|unfold agrees; by rewrite Hf, Hg, Ha].
    replace (agrees1 f g v) with false; [done|]. symmetry. apply not_true_iff_false. unfold agrees1.
    rewrite forallb_forall. intros H. specialize (H 0). rewrite <- list_elem_of_In, Hd in H. by specialize (H Hv).
  - unfold gen_arg. rewrite Ha, Hr. change (0 <? 1) with true. cbn iota.
    change (vget float_range 0) with (Ok (1, 1) : outcome (Z * Z)). cbn [mbind outcome_bind]. exact E.
Qed.

(** C13: with the default options run_tests over the whole table of decl.c, on any
    stream of rand() values, which goes on from puzzle to puzzle, and whichever puzzles
    the alarm interrupts, reports an error for the stub howManyBits, the three
    floating-point stubs and every interrupted puzzle, and gives the points of the
    solved puzzles that are not interrupted, of 36; without an alarm these are four
    errors and 20 points. *)
Theorem datalab_score (rnd : Z -> Z) (alarm : nat -> bool) (pos : Z) :
  (forall k, 0 <= rnd k <= RAND_MAX) ->
  exists pos', run_tests no_options rnd alarm 0 (0, 0, 0, pos) test_set =
    Ok (4 + late alarm 0 test_set_solved, earned alarm 0 test_set_solved, 36, pos') /\
  ((forall i, alarm i = false) -> late alarm 0 test_set_solved = 0 /\ earned alarm 0 test_set_solved = 20).
Proof.
  intros Hr. unfold test_set. rewrite run_tests_app.
  destruct (run_tests_solved rnd alarm test_set_solved 0 0 0 0 pos (solved_pass rnd Hr)) as [p1 ->].
  cbn [mbind outcome_bind app].
  destruct (run_tests_failed rnd alarm (0 + length test_set_solved) test_set_howManyBits test_set_float
    (0 + late alarm 0 test_set_solved) (0 + earned alarm 0 test_set_solved)
    (foldl (fun m t => m + rating t) 0 test_set_solved) p1 (howManyBits_fails rnd Hr)) as [p2 ->].
  unfold test_set_float.
  do 3 (edestruct run_tests_failed as [? ->];
    [eapply float_fails; [reflexivity|reflexivity|reflexivity|reflexivity|vm_compute; reflexivity]|]).
  eexists. split.
  - cbn [run_tests]. do 4 f_equal. lia.
  - intros H. cbn [late earned test_set_solved]. rewrite !H. done.
Qed.

(** The stream 7, 8, 9, ... and an alarm in the second puzzle. *)
Lemma datalab_score_witness :
  exists pos', run_tests no_options (fun k => (7 + k) mod 2 ^ 31) (fun i => (i =? 1)%nat) 0 (0, 0, 0, 0) test_set = Ok (5, 19, 36, pos').
Proof.
  destruct (datalab_score (fun k => (7 + k) mod 2 ^ 31) (fun i => (i =? 1)%nat) 0) as (pos' & E & _).
  - intros k. pose proof (Z.mod_pos_bound (7 + k) (2 ^ 31) ltac:(lia)). change RAND_MAX with (2 ^ 31 - 1). lia.
  - exists pos'. exact E.
Defined.
