(* ===== verification/BtestMain.v ===== *)
(** [main] of the data-lab test harness ([btest.c]): the options set the
    write-once globals, then [run_tests] runs over the table.

    [strtof] is a parameter as in [NumShow].  [alarm i] says that a time limit is set
    and the alarm interrupts the tests of puzzle [i]; [rand()] is not seeded, so it
    starts with call 0 of its stream. *)

From Stdlib Require Import Ascii String.
From stdpp Require Import strings.
From S2P Require Import Prelude CString Getopt NumShow DataLab Btest FloatPuzzles.
Local Open Scope Z_scope.

(** [atoi]: white space, a sign and decimal digits; the [long] is cut to 32 bits. *)
Definition atoi (s : list Z) : Z :=
  let '(sign, s) := scan_sign (skip_ws s) in
  s32 (saturate (sign * digits_val (span isdigit s).1)).

(** [strdup(optarg)] *)
Definition to_string (s : list Z) : string :=
  string_of_list_ascii ((fun c => ascii_of_nat (Z.to_nat c)) <$> s).

(** The globals: those that [run_tests] reads, [grade] and [timeout_limit]. *)
Record globals := MkGlobals { opts : options; grade : bool; timeout_limit : Z }.

Definition TIMEOUT_LIMIT : Z := 10.
Definition initial_globals : globals := MkGlobals no_options false TIMEOUT_LIMIT.

(** [usage(argv[0])] ends with [exit(1)]. *)
Definition usage {A} : outcome A := Fault (Exit 1).

Definition btest_optstring : list Z := cstr "hgf:r:T:1:2:3:".

Section BtestMain.
Context (strtof : list Z -> Z * bool).

(** The cases 1, 2 and 3: [has_arg[i] = get_num_val(optarg, &argval[i])]. *)
Definition set_arg (i : Z) (optarg : list Z) (g : globals) : outcome globals :=
  old ← vget (argval (opts g)) i;
  match get_num_val_btest strtof optarg old with
  | None => Fault (Exit 0)
  | Some v =>
      h ← vset (has_arg (opts g)) i true; a ← vset (argval (opts g)) i v;
      Ok (MkGlobals (MkOptions h a (test_fname (opts g)) (global_rating (opts g))) (grade g) (timeout_limit g))
  end.

Definition handle_btest_option (o : Z * list Z) (g : globals) : outcome globals :=
  let '(c, optarg) := o in
  let '(MkGlobals (MkOptions h a fname r) gr tl) := g in
  if c =? chr "h" then usage
  else if c =? chr "g" then Ok (MkGlobals (MkOptions h a fname r) true tl)
  else if c =? chr "f" then Ok (MkGlobals (MkOptions h a (Some (to_string optarg)) r) gr tl)
  else if c =? chr "r" then
    if atoi optarg <? 0 then usage else Ok (MkGlobals (MkOptions h a fname (atoi optarg)) gr tl)
  else if c =? chr "1" then set_arg 0 optarg g
  else if c =? chr "2" then set_arg 1 optarg g
  else if c =? chr "3" then set_arg 2 optarg g
  else if c =? chr "T" then Ok (MkGlobals (MkOptions h a fname r) gr (atoi optarg))
  else usage.

Definition parse_btest (args : list (list Z)) : outcome globals :=
  for_each (getopt_all btest_optstring args) handle_btest_option initial_globals.

(** [main] on the table [ts]; the result of [run_tests] is only printed.  Without a
    positive time limit no alarm is set. *)
Definition btest_main (rnd : Z -> Z) (alarm : nat -> bool) (ts : list test_rec) (args : list (list Z)) : outcome (Z * Z * Z) :=
  g ← parse_btest args;
  '(errors, points, max_points, _) ← run_tests (opts g) rnd (fun i => (0 <? timeout_limit g) && alarm i) 0 (0, 0, 0, 0) ts;
  Ok (errors, points, max_points).
End BtestMain.

(** * The named function alone is tested *)

(** The names of the puzzles are turned into the same [string]. *)
Lemma to_string_cstr s : to_string (cstr s) = s.
Proof.
  unfold to_string, cstr. rewrite <- list_fmap_compose.
  rewrite <- (string_of_list_ascii_of_string s) at 2. f_equal.
  induction (list_ascii_of_string s) as [|a l IH]; [done|].
  rewrite fmap_cons, IH. unfold compose. by rewrite Nat2Z.id, ascii_nat_embedding.
Qed.

(** A test does not read the name and the rating of the options. *)
Lemma test_function_opts opt rnd tm t pos :
  has_arg opt = has_arg no_options -> argval opt = argval no_options ->
  test_function opt rnd tm t pos = test_function no_options rnd tm t pos.
Proof. destruct opt as [h a f r]. cbn [has_arg argval]. by intros -> ->. Qed.

Lemma run_tests_other opt rnd alarm i st ts f :
  test_fname opt = Some f -> Forall (fun t => name t <> f) ts -> run_tests opt rnd alarm i st ts = Ok st.
Proof.
  intros Hf Hts. revert i. induction Hts as [|t ts Ht _ IH]; intros i; [done|]. cbn [run_tests]. unfold run_one. rewrite Hf.
  destruct st as [[[e p] m] pos]. rewrite (proj2 (String.eqb_neq _ _) Ht). apply IH.
Qed.

Lemma run_tests_selected opt rnd i ts t e pos pos' :
  test_fname opt = Some (name t) -> global_rating opt = 0 -> NoDup (name <$> ts) -> t ∈ ts ->
  test_function opt rnd false t pos = Ok (e, pos') ->
  run_tests opt rnd (fun _ => false) i (0, 0, 0, pos) ts = Ok (e, if e =? 0 then rating t else 0, rating t, pos').
Proof.
  intros Hf Hr Hnd Ht He. revert i. induction ts as [|u ts IH]; intros i; [by apply elem_of_nil in Ht|].
  rewrite fmap_cons in Hnd. apply list.NoDup_cons in Hnd as [Hu Hnd]. cbn [run_tests]. unfold run_one. rewrite Hf.
  destruct (String.eqb_spec (name u) (name t)) as [E|Hne].
  - assert (u = t) as ->.
    { apply elem_of_cons in Ht as [->|Ht]; [done|]. exfalso. apply Hu. rewrite E.
      by apply list_elem_of_fmap_2. }
    rewrite Hr, He. cbn [mbind outcome_bind Z.eqb]. apply (run_tests_other _ _ _ _ _ _ (name t)); [done|].
    apply list.Forall_forall. intros v Hv E2. apply Hu. rewrite <- E2. by apply list_elem_of_fmap_2.
  - cbn [mbind outcome_bind]. apply elem_of_cons in Ht as [->|Ht]; [done|]. by apply IH.
Qed.

(** The name of a solved puzzle given with -f: that puzzle alone is run, has no
    errors and scores its rating, unless it is interrupted. *)
Theorem btest_single_puzzle (strtof : list Z -> Z * bool) (rnd : Z -> Z) (t : test_rec) :
  (forall k, 0 <= rnd k <= RAND_MAX) -> t ∈ test_set_solved ->
  btest_main strtof rnd (fun _ => false) test_set [cstr "-f"; cstr (name t)] =
  Ok (0, rating t, rating t).
Proof.
  intros Hr Ht. unfold btest_main.
  change (parse_btest strtof [cstr "-f"; cstr (name t)])
    with (Ok (MkGlobals (MkOptions [false; false; false] [0; 0; 0] (Some (to_string (cstr (name t)))) 0) false 10)).
  cbn [mbind outcome_bind opts timeout_limit]. rewrite to_string_cstr. change (fun i => (0 <? 10) && false) with (fun _ : nat => false).
  pose proof (solved_pass rnd Hr) as Hs. rewrite list.Forall_forall in Hs. destruct (Hs t Ht false 0) as [pos' E].
  rewrite (run_tests_selected _ _ _ _ t 0 _ pos'); [done|done|done| |by apply elem_of_app; left|].
  - apply (bool_decide_unpack _). by vm_compute.
  - by rewrite test_function_opts.
Qed.

Lemma btest_single_puzzle_witness :
  btest_main (fun _ => (0, false)) (fun _ => 7) (fun _ => false) test_set
    [cstr "-f"; cstr "negate"] = Ok (0, 2, 2).
Proof.
  apply (btest_single_puzzle (fun _ => (0, false)) (fun _ => 7)
    (MkTest "negate"%string (Fun1 Bits.negate) (Fun1 Tests.test_negate) 1 2 full_range)).
  - intros k. vm_compute. intuition congruence.
  - unfold test_set_solved. do 4 (apply elem_of_cons; right). apply elem_of_cons. by left.
Defined.

(** A fixed argument that is not 0 cannot be given twice: the second -1 ends the
    program with a message about a bad argument. *)
Theorem btest_argument_once (strtof : list Z -> Z * bool) (n m : Z) :
  0 < n < 2 ^ 32 -> 0 <= m < 2 ^ 32 ->
  parse_btest strtof [cstr "-1"; dec_digits 10 n; cstr "-1"; dec_digits 10 m] = Fault (Exit 0).
Proof.
  intros Hn Hm.
  destruct (get_num_val_decimal strtof n) as (_ & _ & E1 & _); [lia|].
  destruct (get_num_val_decimal strtof m Hm) as (_ & _ & _ & E2).
  unfold parse_btest. change (getopt_all _ _) with [(chr "1", dec_digits 10 n); (chr "1", dec_digits 10 m)].
  cbn [for_each].
  replace (handle_btest_option strtof (chr "1", dec_digits 10 n) initial_globals)
    with (Ok (MkGlobals (MkOptions [true; false; false] [n; 0; 0] None 0) false TIMEOUT_LIMIT)).
  - cbn [mbind outcome_bind]. change (handle_btest_option strtof (chr "1", ?x) ?g) with (set_arg strtof 0 x g).
    unfold set_arg. change (vget _ 0) with (Ok n). cbn [mbind outcome_bind].
    by rewrite E2 by lia.
  - change (handle_btest_option strtof (chr "1", ?x) ?g) with (set_arg strtof 0 x g).
    unfold set_arg. change (vget (argval (opts initial_globals)) 0) with (Ok 0). cbn [mbind outcome_bind].
    by rewrite E1.
Qed.

Lemma btest_argument_once_witness :
  parse_btest (fun _ => (0, false)) [cstr "-1"; dec_digits 10 5; cstr "-1"; dec_digits 10 6] = Fault (Exit 0).
Proof. apply (btest_argument_once (fun _ => (0, false)) 5 6); lia. Defined.
