(* ===== verification/MemLib.v ===== *)
(** The simulated memory system of the malloc lab ([memlib.c], [config.h]).

    The Makefile builds with [-m32]: pointers and [size_t] have 32 bits.  The
    state is the three brk pointers of memlib.c and the bytes of the storage
    that [mem_init] got from libc.  Words are read and written little endian;
    an access outside the storage is the fault [OutOfBounds]. *)

From S2P Require Import Prelude.

(** config.h: [#define MAX_HEAP (20 * (1 << 20))] *)
Definition MAX_HEAP : Z := 20 * Z.shiftl 1 20.

Record memlib := MkMemlib {
  mem_start_brk : Z;      (* points to first byte of heap *)
  mem_brk : Z;            (* points to last byte of heap (plus one) *)
  mem_max_addr : Z;       (* largest legal heap address *)
  mem_bytes : Z -> Z      (* contents of the storage *)
}.

(** [mem_init]: [p] is what libc [malloc(MAX_HEAP)] returned, [bytes] the
    unspecified contents of that storage. *)
Definition mem_init (p : option Z) (bytes : Z -> Z) : outcome memlib :=
  match p with
  | None => Fault (Exit 1)
  | Some a => Ok (MkMemlib a a (a + MAX_HEAP) bytes)
  end.

Definition mem_reset_brk (ml : memlib) : memlib :=
  MkMemlib (mem_start_brk ml) (mem_start_brk ml) (mem_max_addr ml) (mem_bytes ml).

(** [(void * )-1] on a 32-bit machine. *)
Definition void_minus_1 : Z := 2 ^ 32 - 1.

Definition mem_sbrk (incr : Z) (ml : memlib) : Z * memlib :=
  let old_brk := mem_brk ml in
  if (incr <? 0) || (mem_max_addr ml <? mem_brk ml + incr) then
    (void_minus_1, ml)
  else
    (old_brk, MkMemlib (mem_start_brk ml) (mem_brk ml + incr) (mem_max_addr ml) (mem_bytes ml)).

Definition mem_heap_lo (ml : memlib) : Z := mem_start_brk ml.
Definition mem_heap_hi (ml : memlib) : Z := mem_brk ml - 1.
Definition mem_heapsize (ml : memlib) : Z := mem_brk ml - mem_start_brk ml.

(** * Bytes and words *)

Definition load32 (m : Z -> Z) (a : Z) : Z :=
  m a + 2 ^ 8 * m (a + 1) + 2 ^ 16 * m (a + 2) + 2 ^ 24 * m (a + 3).

Definition store32 (m : Z -> Z) (a v : Z) : Z -> Z := fun x =>
  if x =? a then v mod 2 ^ 8
  else if x =? a + 1 then (v / 2 ^ 8) mod 2 ^ 8
  else if x =? a + 2 then (v / 2 ^ 16) mod 2 ^ 8
  else if x =? a + 3 then (v / 2 ^ 24) mod 2 ^ 8
  else m x.

(** [memcpy(dst, src, n)] and [memset(p, c, n)] *)
Definition memcpy (m : Z -> Z) (dst src n : Z) : Z -> Z := fun x =>
  if (dst <=? x) && (x <? dst + n) then m (src + (x - dst)) else m x.

Definition memset (m : Z -> Z) (p c n : Z) : Z -> Z := fun x =>
  if (p <=? x) && (x <? p + n) then c mod 2 ^ 8 else m x.

(** [n] bytes at [a] lie in the storage. *)
Definition in_storage (ml : memlib) (a n : Z) : bool :=
  (mem_start_brk ml <=? a) && (a + n <=? mem_max_addr ml).

Lemma store32_other m a v x : x < a \/ a + 4 <= x -> store32 m a v x = m x.
Proof. intros H. unfold store32. repeat (zcase; [lia|]). done. Qed.

Lemma load_store_ne m a b v :
  a + 4 <= b \/ b + 4 <= a -> load32 (store32 m a v) b = load32 m b.
Proof. intros H. unfold load32. rewrite !store32_other by lia. done. Qed.

Lemma load_store_eq m a b v :
  a = b -> 0 <= v < 2 ^ 32 -> load32 (store32 m a v) b = v.
Proof.
  intros <- Hv. unfold load32, store32.
  repeat (match goal with |- context [?x =? ?y] => destruct (Z.eqb_spec x y); [|lia] end ||
          match goal with |- context [?x =? ?y] => destruct (Z.eqb_spec x y); [lia|] end).
  assert (H1 := Z.div_mod v (2 ^ 8)). assert (H2 := Z.div_mod (v / 2 ^ 8) (2 ^ 8)).
  assert (H3 := Z.div_mod (v / 2 ^ 16) (2 ^ 8)).
  assert (E2 : v / 2 ^ 16 = v / 2 ^ 8 / 2 ^ 8) by (rewrite Z.div_div; done).
  assert (E3 : v / 2 ^ 24 = v / 2 ^ 16 / 2 ^ 8) by (rewrite Z.div_div; done).
  assert (0 <= v / 2 ^ 24 < 2 ^ 8)
    by (split; [apply Z.div_pos|apply Z.div_lt_upper_bound]; lia).
  rewrite (Z.mod_small (v / 2 ^ 24)) by lia. rewrite <- E2 in H2. rewrite <- E3 in H3. lia.
Qed.

Lemma load32_agree m m' a :
  (forall x, a <= x < a + 4 -> m x = m' x) -> load32 m a = load32 m' a.
Proof. intros H. unfold load32. rewrite !H by lia. done. Qed.

(** * What the memory system promises

    The heap never shrinks, stays inside the storage, and [mem_sbrk] either
    returns the old break or changes nothing. *)

Definition memlib_ok (ml : memlib) : Prop :=
  0 <= mem_start_brk ml <= mem_brk ml /\ mem_brk ml <= mem_max_addr ml /\
  mem_max_addr ml < 2 ^ 32 /\ mem_max_addr ml = mem_start_brk ml + MAX_HEAP.

(** mem_sbrk extends the heap by incr bytes and returns the old break when incr is
    non-negative and fits the storage; otherwise it returns the failure value -1 and
    changes nothing; the invariant of the memory system is kept. *)
Theorem mem_sbrk_spec (incr : Z) (ml : memlib) :
  memlib_ok ml ->
  memlib_ok (mem_sbrk incr ml).2 /\
  if bool_decide (0 <= incr <= mem_max_addr ml - mem_brk ml)
  then (mem_sbrk incr ml).1 = mem_brk ml /\
       mem_heapsize (mem_sbrk incr ml).2 = mem_heapsize ml + incr /\
       mem_bytes (mem_sbrk incr ml).2 = mem_bytes ml
  else (mem_sbrk incr ml).1 = void_minus_1 /\ (mem_sbrk incr ml).2 = ml.
Proof.
  unfold memlib_ok, mem_sbrk, mem_heapsize. intros H.
  case_bool_decide as Hd.
  - replace ((incr <? 0) || (mem_max_addr ml <? mem_brk ml + incr)) with false by lia.
    cbn. split; [lia|]. split; [done|]. split; [lia|done].
  - replace ((incr <? 0) || (mem_max_addr ml <? mem_brk ml + incr)) with true by lia.
    cbn. split; [lia|done].
Qed.

Lemma mem_sbrk_spec_witness :
  (mem_sbrk 8 (MkMemlib 4096 4096 (4096 + MAX_HEAP) (fun _ => 0))).1 = 4096.
Proof.
  assert (H : memlib_ok (MkMemlib 4096 4096 (4096 + MAX_HEAP) (fun _ => 0)))
    by (unfold memlib_ok; vm_compute; intuition congruence).
  destruct (mem_sbrk_spec 8 _ H) as [_ H2]. exact (proj1 H2).
Defined.
