(* ===== verification/Mm.v ===== *)
(** The allocator [mm.c] of the malloc lab: an implicit list of blocks with a
    header and a footer word, first fit, and a coalescing pass that runs only
    when no block fits.

    Every function of mm.c is translated statement by statement into the state
    monad [M] over the memory system of [MemLib] and the static
    [total_free_size].  [GET]/[PUT] are 32-bit accesses that fault outside the
    storage; [size_t] arithmetic wraps at 2^32 ([u32]); [void *] is an address
    and [NULL] is 0. *)

From S2P Require Import Prelude MemLib.

Record mm_state := MkMm {
  ml : memlib;
  total_free_size : Z       (* static size_t total_free_size *)
}.

(** * The monad *)
Definition M (A : Type) : Type := mm_state -> outcome (A * mm_state).

#[export] Instance M_ret : MRet M := fun _ a s => Ok (a, s).
#[export] Instance M_bind : MBind M := fun _ _ k m s =>
  match m s with Ok (a, s') => k a s' | Fault e => Fault e end.

Definition get_ml : M memlib := fun s => Ok (ml s, s).
Definition fail {A} (e : fault) : M A := fun _ => Fault e.
Definition with_mem (f : (Z -> Z) -> Z -> Z) (s : mm_state) : mm_state :=
  MkMm (MkMemlib (mem_start_brk (ml s)) (mem_brk (ml s)) (mem_max_addr (ml s))
         (f (mem_bytes (ml s)))) (total_free_size s).

Fixpoint whileM {S R} (fuel : nat) (step : S -> M (S + R)) (t : S) : M R :=
  match fuel with
  | O => fail OutOfFuel
  | Datatypes.S f => r ← step t; match r with inl t' => whileM f step t' | inr r => mret r end
  end.

(** * The macros of mm.c *)
Module Macros.
Definition NULL : Z := 0.
Definition ALIGNMENT : Z := 8.
Definition ALIGN (size : Z) : Z := Z.land (u32 (size + (ALIGNMENT - 1))) 0xFFFFFFF8.
Definition SIZE_T_SIZE : Z := ALIGN 4.
Definition PACK (size val : Z) : Z := Z.lor size val.

Definition GET (p : Z) : M Z := fun s =>
  if in_storage (ml s) p 4 then Ok (load32 (mem_bytes (ml s)) p, s) else Fault OutOfBounds.
Definition PUT (p val : Z) : M unit := fun s =>
  if in_storage (ml s) p 4
  then Ok (tt, with_mem (fun m => store32 m p val) s) else Fault OutOfBounds.

Definition GET_SIZE (p : Z) : M Z := v ← GET p; mret (Z.land v 0xFFFFFFF8).
Definition GET_ALLOC (p : Z) : M Z := v ← GET p; mret (Z.land v 0x1).
Definition IS_END (p : Z) : M bool := v ← GET p; mret (Z.land v 0x7 =? 0x7).

Definition STEP (p : Z) : Z := p + SIZE_T_SIZE.
Definition HDRP (p : Z) : Z := p - SIZE_T_SIZE.
Definition FTRP (p : Z) : M Z := sz ← GET_SIZE (HDRP p); mret (p + sz - 2 * SIZE_T_SIZE).
Definition DATA_SIZE (p : Z) : M Z := sz ← GET_SIZE p; mret (u32 (sz - 2 * SIZE_T_SIZE)).
Definition NEXT_BLK (p : Z) : M Z := sz ← GET_SIZE (HDRP p); mret (p + sz).
Definition PREV_BLK (p : Z) : M Z := sz ← GET_SIZE (HDRP (HDRP p)); mret (p - sz).
Definition IS_BEGIN (p : Z) : M bool := l ← get_ml; mret (p =? STEP (mem_heap_lo l)).
End Macros.
Import Macros.

Definition sbrk (incr : Z) : M Z := fun s =>
  let '(p, l) := mem_sbrk (s32 incr) (ml s) in Ok (p, MkMm l (total_free_size s)).

(** A block occupies at least 8 bytes of the heap, so the list has at most
    [heapsize / 8] blocks: the bound of the two walks. *)
Definition walk_fuel : M nat := fun s =>
  Ok (Datatypes.S (Z.to_nat (mem_heapsize (ml s) / 8)), s).

(** * The functions of mm.c *)

Definition final_free_size : M Z :=
  l ← get_ml;
  if mem_heapsize l =? SIZE_T_SIZE then mret 0
  else
    let ht := mem_heap_hi l + 1 - 2 * SIZE_T_SIZE in
    a ← GET_ALLOC ht;
    if negb (a =? 0) then mret 0 else GET_SIZE ht.

(** The four cases of [coalesce], once the tags of the neighbours and the size
    of the block have been read. *)
Definition coalesce_merge (p prev_alloc next_alloc free_size : Z) : M unit :=
  if negb (prev_alloc =? 0) && negb (next_alloc =? 0) then
    PUT (HDRP p) (PACK free_size 0);;
    f ← FTRP p; PUT f (PACK free_size 0)
  else if negb (prev_alloc =? 0) && (next_alloc =? 0) then
    q ← NEXT_BLK p; n ← GET_SIZE (HDRP q);
    let free_size := u32 (free_size + n) in
    PUT (HDRP p) (PACK free_size 0);;
    f ← FTRP p; PUT f (PACK free_size 0)
  else if (prev_alloc =? 0) && negb (next_alloc =? 0) then
    q ← PREV_BLK p; n ← GET_SIZE (HDRP q);
    let free_size := u32 (free_size + n) in
    f ← FTRP p; PUT f (PACK free_size 0);;
    q ← PREV_BLK p; PUT (HDRP q) (PACK free_size 0)
  else
    q ← PREV_BLK p; a ← GET_SIZE (HDRP q);
    r ← NEXT_BLK p; b ← GET_SIZE (HDRP r);
    let free_size := u32 (free_size + u32 (a + b)) in
    q ← PREV_BLK p; PUT (HDRP q) (PACK free_size 0);;
    r ← NEXT_BLK p; f ← FTRP r; PUT f (PACK free_size 0).

Definition coalesce (p : Z) : M unit :=
  begin ← IS_BEGIN p;
  prev_alloc ← (if negb begin then q ← PREV_BLK p; GET_ALLOC (HDRP q) else mret 1);
  next_alloc ← (q ← NEXT_BLK p; GET_ALLOC (HDRP q));
  free_size ← GET_SIZE (HDRP p);
  coalesce_merge p prev_alloc next_alloc free_size.

(** The body of the loop of [coalesces]. *)
Definition coalesces_step (p : Z) : M (Z + unit) :=
  e ← IS_END (HDRP p);
  if (e : bool) then mret (inr tt)
  else
    a ← GET_ALLOC (HDRP p);
    (if a =? 0 then coalesce p else mret tt);;
    q ← NEXT_BLK p; mret (inl q).

Definition coalesces : M unit :=
  l ← get_ml; fuel ← walk_fuel;
  whileM fuel coalesces_step (STEP (mem_heap_lo l)).

(** The body of the loop of [find_fit_block]. *)
Definition find_fit_step (new_size p : Z) : M (Z + Z) :=
  e ← IS_END (HDRP p);
  if (e : bool) then mret (inr NULL)
  else
    a ← GET_ALLOC (HDRP p);
    sz ← GET_SIZE (HDRP p);
    if (a =? 0) && (new_size <=? sz) then mret (inr p)
    else q ← NEXT_BLK p; mret (inl q).

Definition find_fit_block (new_size : Z) : M Z :=
  l ← get_ml; fuel ← walk_fuel;
  whileM fuel (find_fit_step new_size) (STEP (mem_heap_lo l)).

Definition place (p new_size : Z) : M Z :=
  free_size ← GET_SIZE (HDRP p);
  let res := p in
  if 2 * SIZE_T_SIZE <? u32 (free_size - new_size) then
    PUT (HDRP p) (PACK new_size 1);;
    f ← FTRP p; PUT f (PACK new_size 1);;
    q ← NEXT_BLK p;
    PUT (HDRP q) (PACK (u32 (free_size - new_size)) 0);;
    f ← FTRP q; PUT f (PACK (u32 (free_size - new_size)) 0);;
    mret res
  else
    PUT (HDRP p) (PACK free_size 1);;
    f ← FTRP p; PUT f (PACK free_size 1);;
    mret res.

Definition mm_init : M Z :=
  en ← sbrk SIZE_T_SIZE;
  PUT en (PACK 0 0x7);;
  mret 0.

(** The tail of [mm_malloc] and of [mm_realloc] after [mem_sbrk]: header and
    footer of the new block at [p] and a new end marker. *)
Definition new_block (p new_size : Z) : M unit :=
  PUT (HDRP p) (PACK new_size 1);;
  f ← FTRP p; PUT f (PACK new_size 1);;
  en ← NEXT_BLK p;
  PUT (HDRP en) (PACK 0 0x7).

Definition get_total : M Z := fun s => Ok (total_free_size s, s).
Definition set_total (v : Z) : M unit := fun s => Ok (tt, MkMm (ml s) v).

Definition mm_malloc (size : Z) : M Z :=
  if size =? 0 then mret NULL
  else
    let new_size := u32 (ALIGN size + 2 * SIZE_T_SIZE) in
    p ← find_fit_block new_size;
    if negb (p =? NULL) then place p new_size;; mret p
    else
      t ← get_total;
      (if new_size <=? t then coalesces else mret tt);;
      p ← find_fit_block new_size;
      if negb (p =? NULL) then place p new_size;; mret p
      else
        let free_size := 0 in
        fs ← final_free_size;
        let alloc_size := if negb (fs =? 0) then u32 (new_size - free_size) else new_size in
        p ← sbrk alloc_size;
        if p =? NULL then mret NULL
        else
          let p := if negb (free_size =? 0) then p - free_size else p in
          new_block p new_size;; mret p.

Definition mm_free (ptr : Z) : M unit :=
  if ptr =? NULL then mret tt
  else
    free_size ← GET_SIZE (HDRP ptr);
    t ← get_total;
    set_total (u32 (t + free_size));;
    PUT (HDRP ptr) (PACK free_size 0);;
    f ← FTRP ptr; PUT f (PACK free_size 0).

(** [memcpy] of the C library on the storage. *)
Definition c_memcpy (dst src n : Z) : M unit := fun s =>
  if in_storage (ml s) dst n && in_storage (ml s) src n
  then Ok (tt, with_mem (fun m => memcpy m dst src n) s) else Fault OutOfBounds.

Definition mm_realloc (p size : Z) : M Z :=
  (if size =? 0 then mm_free p else mret tt);;
  if p =? NULL then mm_malloc size
  else
    let new_size := u32 (ALIGN size + 2 * SIZE_T_SIZE) in
    old_size ← GET_SIZE (HDRP p);
    data_size ← DATA_SIZE (HDRP p);
    if old_size =? new_size then mret p
    else if new_size <? old_size then place p new_size;; mret p
    else
      let move new_p := place new_p new_size;; c_memcpy new_p p data_size;;
                        mm_free p;; mret new_p in
      new_p ← find_fit_block new_size;
      if negb (new_p =? NULL) then move new_p
      else
        t ← get_total;
        (if new_size <? t then coalesces else mret tt);;
        new_p ← find_fit_block new_size;
        if negb (new_p =? NULL) then move new_p
        else
          new_p ← sbrk new_size;
          if new_p =? NULL then mret NULL
          else new_block new_p new_size;;
               c_memcpy new_p p data_size;; mm_free p;; mret new_p.
