(* ===== verification/MmHeap.v ===== *)
(** Reasoning about [Mm]: the rules of the state monad for the macros of mm.c,
    the block list as a predicate on memory, and its frame properties.

    [block m p sz al] is one block of [sz] bytes with payload address [p].  An
    allocated block carries its size and the allocated bit in header and
    footer.  For a free block only the header has to hold the size: the
    coalescing pass of mm.c can leave a footer that describes a proper suffix
    [f] of the block, whose own stale header then agrees with it.  This weak
    form is what the code really preserves. *)

From S2P Require Import Prelude MemLib Mm.
Import Macros.

(** * Rules *)

Definition wpM {A} (m : M A) (s : mm_state) (Q : A -> mm_state -> Prop) : Prop :=
  exists a s', m s = Ok (a, s') /\ Q a s'.

(** A state from its components. *)
Definition mk (lo brk mx : Z) (m : Z -> Z) (t : Z) : mm_state :=
  MkMm (MkMemlib lo brk mx m) t.

Lemma wpM_ret {A} (a : A) s (Q : A -> mm_state -> Prop) : Q a s -> wpM (mret a) s Q.
Proof. intros H. exists a, s. auto. Qed.

Lemma wpM_bind {A B} (m : M A) (k : A -> M B) s (Q : B -> mm_state -> Prop) :
  wpM m s (fun a s' => wpM (k a) s' Q) -> wpM (m ≫= k) s Q.
Proof.
  intros (a & s' & E & H). destruct H as (b & s2 & E2 & H).
  exists b, s2. split; [|done]. unfold mbind, M_bind. by rewrite E.
Qed.

Lemma wpM_mono {A} (m : M A) s (P Q : A -> mm_state -> Prop) :
  wpM m s P -> (forall a s', P a s' -> Q a s') -> wpM m s Q.
Proof. intros (a & s' & E & H) HPQ. exists a, s'. auto. Qed.

Lemma wpM_while {A B} (I : A -> mm_state -> Prop) (meas : A -> nat) fuel
    (step : A -> M (A + B)) (t : A) s (Q : B -> mm_state -> Prop) :
  I t s -> (meas t < fuel)%nat ->
  (forall t s, I t s -> wpM (step t) s (fun r s' =>
     match r with inl t' => I t' s' /\ (meas t' < meas t)%nat | inr r => Q r s' end)) ->
  wpM (whileM fuel step t) s Q.
Proof.
  intros H0 Hm Hstep. revert t s H0 Hm.
  induction fuel as [|f IH]; intros t s H0 Hm; [lia|]. cbn [whileM].
  apply wpM_bind. eapply wpM_mono; [apply (Hstep t s H0)|].
  intros [t'|r] s' H; [destruct H; apply IH; [done|lia]|by apply wpM_ret].
Qed.

Lemma wpM_GET lo brk mx m t p (Q : Z -> mm_state -> Prop) :
  lo <= p -> p + 4 <= mx ->
  Q (load32 m p) (mk lo brk mx m t) -> wpM (GET p) (mk lo brk mx m t) Q.
Proof.
  intros H1 H2 HQ. eexists _, _. split; [|exact HQ].
  unfold GET, in_storage. cbn. by replace (_ && _) with true by lia.
Qed.

Lemma wpM_PUT lo brk mx m t p v (Q : unit -> mm_state -> Prop) :
  lo <= p -> p + 4 <= mx ->
  Q tt (mk lo brk mx (store32 m p v) t) -> wpM (PUT p v) (mk lo brk mx m t) Q.
Proof.
  intros H1 H2 HQ. eexists _, _. split; [|exact HQ].
  unfold PUT, in_storage. cbn. by replace (_ && _) with true by lia.
Qed.

Lemma wpM_get_ml s (Q : memlib -> mm_state -> Prop) : Q (ml s) s -> wpM get_ml s Q.
Proof. intros H. by eexists _, _. Qed.

Lemma wpM_get_total s (Q : Z -> mm_state -> Prop) : Q (total_free_size s) s -> wpM get_total s Q.
Proof. intros H. by eexists _, _. Qed.

Lemma wpM_set_total lo brk mx m t v (Q : unit -> mm_state -> Prop) :
  Q tt (mk lo brk mx m v) -> wpM (set_total v) (mk lo brk mx m t) Q.
Proof. intros H. by eexists _, _. Qed.

(** A header or footer word: a multiple of 8 and a 3-bit tag. *)
Lemma land_size sz b : 0 <= sz < 2 ^ 32 -> sz mod 8 = 0 -> 0 <= b < 8 ->
  Z.land (sz + b) 0xFFFFFFF8 = sz.
Proof.
  intros Hs Hm Hb.
  assert (Hsb : sz + b < 2 ^ 32).
  { apply Z.mod_divide in Hm as [k ->]; [|lia]. lia. }
  change 0xFFFFFFF8 with (Z.land (Z.ones 32) (Z.lnot (Z.ones 3))).
  rewrite Z.land_assoc, Z.land_ones, Z.mod_small by lia.
  rewrite <- Z.ldiff_land, Z.ldiff_ones_r by lia.
  rewrite Z.shiftr_div_pow2, Z.shiftl_mul_pow2 by lia. change (2 ^ 3) with 8.
  apply Z.mod_divide in Hm as [k ->]; [|lia].
  by rewrite Z.div_add_l, Z.div_small, Z.add_0_r by lia.
Qed.

Lemma land_tag sz b n : 0 <= n <= 3 -> sz mod 8 = 0 -> 0 <= b < 8 ->
  Z.land (sz + b) (2 ^ n - 1) = b mod 2 ^ n.
Proof.
  intros Hn Hm Hb. rewrite land_mask by lia.
  apply Z.mod_divide in Hm as [k ->]; [|lia].
  replace (k * 8 + b) with (b + k * 2 ^ (3 - n) * 2 ^ n).
  - apply Z_mod_plus_full.
  - rewrite <- Z.mul_assoc, <- Z.pow_add_r by lia.
    replace (3 - n + n) with 3 by lia. lia.
Qed.

Lemma pack_add sz b : sz mod 8 = 0 -> 0 <= b < 8 -> PACK sz b = sz + b.
Proof.
  intros Hm Hb. unfold PACK.
  assert (H0 : Z.land sz b = 0).
  { apply Z.bits_inj'. intros n Hn. rewrite Z.land_spec, Z.bits_0.
    apply Z.mod_divide in Hm as [k ->]; [|lia]. change 8 with (2 ^ 3).
    destruct (Z_lt_le_dec n 3); [by rewrite Z.mul_pow2_bits_low|].
    rewrite (Z.bits_above_log2 b n), andb_false_r; [done|lia|].
    destruct (Z.eq_dec b 0) as [->|]; [cbn; lia|].
    enough (Z.log2 b < 3) by lia. apply Z.log2_lt_pow2; lia. }
  by rewrite Z.add_nocarry_lxor, Z.lxor_lor.
Qed.

(** [is_word m a sz b]: the word at [a] is the size [sz] with the tag [b]. *)
Definition is_word (m : Z -> Z) (a sz b : Z) : Prop :=
  load32 m a = sz + b /\ sz mod 8 = 0 /\ 0 <= sz /\ sz < 2 ^ 31 /\ 0 <= b < 8.

Section WordRules.
Context (lo brk mx : Z) (m : Z -> Z) (t : Z).
Let s := mk lo brk mx m t.

Lemma wpM_GET_SIZE p sz b (Q : Z -> mm_state -> Prop) :
  lo <= p -> p + 4 <= mx -> is_word m p sz b -> Q sz s -> wpM (GET_SIZE p) s Q.
Proof.
  intros H1 H2 (E & Hm & H0 & Hlt & Hb) HQ. apply wpM_bind, wpM_GET; [done..|].
  apply wpM_ret. rewrite E, land_size; (done || lia).
Qed.

Lemma wpM_GET_ALLOC p sz b (Q : Z -> mm_state -> Prop) :
  lo <= p -> p + 4 <= mx -> is_word m p sz b -> Q (b mod 2) s -> wpM (GET_ALLOC p) s Q.
Proof.
  intros H1 H2 (E & Hm & H0 & Hlt & Hb) HQ. apply wpM_bind, wpM_GET; [done..|].
  apply wpM_ret. change 0x1 with (2 ^ 1 - 1). rewrite E, land_tag; (done || lia).
Qed.

Lemma wpM_IS_END p sz b (Q : bool -> mm_state -> Prop) :
  lo <= p -> p + 4 <= mx -> is_word m p sz b -> Q (b =? 7) s -> wpM (IS_END p) s Q.
Proof.
  intros H1 H2 (E & Hm & H0 & Hlt & Hb) HQ. apply wpM_bind, wpM_GET; [done..|].
  apply wpM_ret. change (Z.land _ 0x7) with (Z.land (load32 m p) (2 ^ 3 - 1)).
  rewrite E, land_tag by (done || lia). rewrite Z.mod_small by lia. done.
Qed.

Lemma wpM_NEXT_BLK p sz b (Q : Z -> mm_state -> Prop) :
  lo <= p - 8 -> p - 8 + 4 <= mx -> is_word m (p - 8) sz b -> Q (p + sz) s ->
  wpM (NEXT_BLK p) s Q.
Proof.
  intros H1 H2 Hw HQ. apply wpM_bind. eapply wpM_GET_SIZE; [done..|exact Hw|].
  by apply wpM_ret.
Qed.

Lemma wpM_FTRP p sz b (Q : Z -> mm_state -> Prop) :
  lo <= p - 8 -> p - 8 + 4 <= mx -> is_word m (p - 8) sz b -> Q (p + sz - 16) s ->
  wpM (FTRP p) s Q.
Proof.
  intros H1 H2 Hw HQ. apply wpM_bind. eapply wpM_GET_SIZE; [done..|exact Hw|].
  by apply wpM_ret.
Qed.

Lemma wpM_PREV_BLK p sz b (Q : Z -> mm_state -> Prop) :
  lo <= p - 16 -> p - 16 + 4 <= mx -> is_word m (p - 16) sz b -> Q (p - sz) s ->
  wpM (PREV_BLK p) s Q.
Proof.
  intros H1 H2 Hw HQ. apply wpM_bind.
  assert (E : HDRP (HDRP p) = p - 16) by (unfold HDRP; change SIZE_T_SIZE with 8; lia).
  rewrite E. eapply wpM_GET_SIZE; [done..|exact Hw|]. by apply wpM_ret.
Qed.
End WordRules.

Lemma HDRP_eq p : HDRP p = p - 8.
Proof. reflexivity. Qed.

(** Words after stores. *)
Lemma is_word_store_ne m a v p sz b :
  is_word m p sz b -> a + 4 <= p \/ p + 4 <= a -> is_word (store32 m a v) p sz b.
Proof. intros (E & H) Hd. split; [|done]. by rewrite load_store_ne. Qed.

Lemma is_word_store_tag m a p sz b :
  a = p -> sz mod 8 = 0 -> 0 <= sz < 2 ^ 31 -> 0 <= b < 8 ->
  is_word (store32 m a (sz + b)) p sz b.
Proof. intros -> Hm Hs Hb. split; [|lia]. rewrite load_store_eq; lia. Qed.

Lemma is_word_store_free m a p sz :
  a = p -> sz mod 8 = 0 -> 0 <= sz < 2 ^ 31 -> is_word (store32 m a sz) p sz 0.
Proof. intros -> Hm Hs. rewrite <- (Z.add_0_r sz) at 1. by apply is_word_store_tag. Qed.

Lemma is_word_fun m p sz b sz' b' : is_word m p sz b -> is_word m p sz' b' -> sz = sz' /\ b = b'.
Proof.
  intros (E & H1 & _ & _ & H2) (E' & H1' & _ & _ & H2').
  apply Z.mod_divide in H1 as [k ->]; [|lia]. apply Z.mod_divide in H1' as [k' ->]; lia.
Qed.

(** * Blocks and segments *)

Definition blk : Type := Z * bool.        (* size, allocated *)

Definition block (m : Z -> Z) (p sz : Z) (al : bool) : Prop :=
  16 <= sz /\
  if al then is_word m (p - 8) sz 1 /\ is_word m (p + sz - 16) sz 1
  else is_word m (p - 8) sz 0 /\
       exists f, 16 <= f <= sz /\ is_word m (p + sz - 16) f 0 /\ is_word m (p + sz - f - 8) f 0.

(** [seg m p bs q]: from payload address [p] to [q] the heap is the list [bs]. *)
Fixpoint seg (m : Z -> Z) (p : Z) (bs : list blk) (q : Z) : Prop :=
  match bs with
  | [] => p = q
  | (sz, al) :: r => block m p sz al /\ seg m (p + sz) r q
  end.

(** The allocated blocks of a list, as payload address and size. *)
Fixpoint allocs (p : Z) (bs : list blk) : list (Z * Z) :=
  match bs with
  | [] => []
  | (sz, al) :: r => (if al then [(p, sz)] else []) ++ allocs (p + sz) r
  end.

Fixpoint bsize (bs : list blk) : Z :=
  match bs with [] => 0 | (sz, _) :: r => sz + bsize r end.

Lemma bsize_app bs1 bs2 : bsize (bs1 ++ bs2) = bsize bs1 + bsize bs2.
Proof. induction bs1 as [|[sz al] r IH]; cbn in *; [done|]. rewrite IH. lia. Qed.

Lemma seg_end m p bs q : seg m p bs q -> q = p + bsize bs.
Proof.
  revert p. induction bs as [|[sz al] r IH]; intros p; cbn; [lia|].
  intros [_ H]. apply IH in H. lia.
Qed.

Lemma seg_le m p bs q : seg m p bs q -> p <= q.
Proof.
  revert p. induction bs as [|[sz al] r IH]; intros p; cbn; [lia|].
  intros [[H0 _] H]. apply IH in H. lia.
Qed.

Lemma seg_app m p bs1 bs2 q :
  seg m p (bs1 ++ bs2) q <-> seg m p bs1 (p + bsize bs1) /\ seg m (p + bsize bs1) bs2 q.
Proof.
  revert p. induction bs1 as [|[sz al] r IH]; intros p; cbn.
  - rewrite Z.add_0_r. tauto.
  - rewrite IH. rewrite Z.add_assoc. tauto.
Qed.

Lemma seg_join m p bs1 r bs2 q : seg m p bs1 r -> seg m r bs2 q -> seg m p (bs1 ++ bs2) q.
Proof. intros H1 H2. pose proof (seg_end _ _ _ _ H1). subst r. by apply seg_app. Qed.

Lemma seg_snoc m p bs r sz al q :
  seg m p bs r -> block m r sz al -> q = r + sz -> seg m p (bs ++ [(sz, al)]) q.
Proof. intros H1 H2 ->. eapply seg_join; [done|]. cbn. auto. Qed.

Lemma seg_mod8 m p bs q : seg m p bs q -> p mod 8 = 0 -> q mod 8 = 0.
Proof.
  revert p. induction bs as [|[sz al] r IH]; intros p; cbn; [by intros ->|].
  intros [[_ Hb] H] Hp. apply (IH _ H).
  assert (Hs : sz mod 8 = 0) by (destruct al; destruct Hb as [Hw _]; apply Hw).
  rewrite Zplus_mod, Hp, Hs. done.
Qed.

Lemma allocs_app p bs1 bs2 : allocs p (bs1 ++ bs2) = allocs p bs1 ++ allocs (p + bsize bs1) bs2.
Proof.
  revert p. induction bs1 as [|[sz al] r IH]; intros p; cbn; [by rewrite Z.add_0_r|].
  rewrite IH, app_assoc. do 2 f_equal. lia.
Qed.

Lemma allocs_snoc p bs sz al :
  allocs p (bs ++ [(sz, al)]) = allocs p bs ++ (if al then [(p + bsize bs, sz)] else []).
Proof. rewrite allocs_app. cbn. by rewrite app_nil_r. Qed.

Lemma allocs_bounds m p bs q a sz :
  seg m p bs q -> (a, sz) ∈ allocs p bs -> p <= a /\ 16 <= sz /\ a + sz <= q.
Proof.
  revert p. induction bs as [|[z al] r IH]; intros p; cbn; [by intros _ ?%elem_of_nil|].
  intros [Hb H] Hin. pose proof (seg_le _ _ _ _ H). destruct Hb as [Hsz _].
  apply elem_of_app in Hin as [Hin|Hin].
  - destruct al; [|by apply elem_of_nil in Hin].
    apply list_elem_of_singleton in Hin. inversion Hin; subst. lia.
  - specialize (IH _ H Hin). lia.
Qed.

(** ** Frame: a block depends only on the bytes [p - 8, p + sz - 8) *)

Lemma is_word_agree m m' a sz b :
  (forall x, a <= x < a + 4 -> m x = m' x) -> is_word m a sz b -> is_word m' a sz b.
Proof. intros H (E & Hr). split; [|done]. by rewrite <- (load32_agree m m'). Qed.

Lemma block_agree m m' p sz al :
  (forall x, p - 8 <= x < p + sz - 8 -> m x = m' x) -> block m p sz al -> block m' p sz al.
Proof.
  intros H [H0 Hb]. split; [done|]. destruct al.
  - destruct Hb as [Ha Hf].
    split; eapply is_word_agree; try eassumption; intros; apply H; lia.
  - destruct Hb as [Ha (f & Hr & Hf & Hs)]. split; [|exists f; split; [done|split]].
    all: eapply is_word_agree; try eassumption; intros; apply H; lia.
Qed.

Lemma seg_agree m m' p bs q :
  (forall x, p - 8 <= x < q - 8 -> m x = m' x) -> seg m p bs q -> seg m' p bs q.
Proof.
  revert p. induction bs as [|[sz al] r IH]; intros p H; cbn; [done|].
  intros [Hb Hs]. pose proof (seg_le _ _ _ _ Hs). pose proof (proj1 Hb).
  split; [eapply block_agree; [|done]|eapply IH; [|done]]; intros; apply H; lia.
Qed.

Lemma seg_store m p bs q a v :
  seg m p bs q -> a + 4 <= p - 8 \/ q - 8 <= a -> seg (store32 m a v) p bs q.
Proof.
  intros Hs Hd. eapply seg_agree; [|done].
  intros x Hx. rewrite store32_other; [done|lia].
Qed.

Lemma block_store m p sz al a v :
  block m p sz al -> a + 4 <= p - 8 \/ p + sz - 8 <= a -> block (store32 m a v) p sz al.
Proof.
  intros Hs Hd. eapply block_agree; [|done].
  intros x Hx. rewrite store32_other; [done|lia].
Qed.

(** The payload bytes of the blocks in [as_] are the same in both memories. *)
Definition payload_same (as_ : list (Z * Z)) (m m' : Z -> Z) : Prop :=
  forall a sz x, (a, sz) ∈ as_ -> a <= x < a + sz - 16 -> m' x = m x.

Lemma payload_same_refl as_ m : payload_same as_ m m.
Proof. done. Qed.

Lemma payload_same_trans as_ m1 m2 m3 :
  payload_same as_ m1 m2 -> payload_same as_ m2 m3 -> payload_same as_ m1 m3.
Proof. intros H1 H2 a sz x Hin Hx. rewrite (H2 a sz x Hin Hx). by apply (H1 a sz). Qed.

(** Every block of [as_] ends at or before [b], or starts at or after [e]. *)
Definition outside (as_ : list (Z * Z)) (b e : Z) : Prop :=
  forall a sz, (a, sz) ∈ as_ -> a + sz <= b \/ e <= a.

Lemma payload_same_store as_ m0 m b e w v :
  payload_same as_ m0 m -> outside as_ b e -> b - 8 <= w -> w + 4 <= e ->
  payload_same as_ m0 (store32 m w v).
Proof.
  intros Hs Ho H1 H2 a sz x Hin Hx.
  rewrite store32_other; [by apply (Hs a sz)|]. specialize (Ho a sz Hin). lia.
Qed.

Lemma outside_segs m lo pre b suf e q :
  seg m lo pre b -> seg m e suf q -> outside (allocs lo pre ++ allocs e suf) b e.
Proof.
  intros H1 H2 a sz [Hin|Hin]%elem_of_app.
  - left. apply (allocs_bounds _ _ _ _ _ _ H1 Hin).
  - right. apply (allocs_bounds _ _ _ _ _ _ H2 Hin).
Qed.

(** * The heap invariant *)

Definition geom (lo brk mx : Z) : Prop :=
  0 <= lo /\ lo mod 8 = 0 /\ lo + 8 <= brk /\ brk <= mx /\ mx < 2 ^ 32 - 1 /\ mx = lo + MAX_HEAP.

(** The heap of state [s] is the block list [bs], closed by the end marker. *)
Definition heap_wf (s : mm_state) (bs : list blk) : Prop :=
  let lo := mem_start_brk (ml s) in
  let brk := mem_brk (ml s) in
  let m := mem_bytes (ml s) in
  geom lo brk (mem_max_addr (ml s)) /\
  seg m (lo + 8) bs brk /\ is_word m (brk - 8) 0 7 /\ 0 <= total_free_size s < 2 ^ 32.

(** The payload address of the first block of [s]. *)
Definition heap_base (s : mm_state) : Z := mem_start_brk (ml s) + 8.

Lemma heap_wf_mk lo brk mx m t bs :
  heap_wf (mk lo brk mx m t) bs <->
  geom lo brk mx /\ seg m (lo + 8) bs brk /\ is_word m (brk - 8) 0 7 /\ 0 <= t < 2 ^ 32.
Proof. done. Qed.

Lemma state_mk s :
  s = mk (mem_start_brk (ml s)) (mem_brk (ml s)) (mem_max_addr (ml s)) (mem_bytes (ml s))
         (total_free_size s).
Proof. by destruct s as [[]]. Qed.

(** The word in front of a payload address [p] that ends a segment: the header
    of the next block, or the end marker. *)
Lemma next_header m p suf brk :
  seg m p suf brk -> is_word m (brk - 8) 0 7 ->
  (suf = [] /\ p = brk /\ is_word m (p - 8) 0 7) \/
  (exists sz al r, suf = (sz, al) :: r /\ block m p sz al /\ seg m (p + sz) r brk /\
     is_word m (p - 8) sz (if al then 1 else 0)).
Proof.
  destruct suf as [|[sz al] r]; cbn.
  - intros -> H. left. auto.
  - intros [Hb Hs] _. right. exists sz, al, r. split; [done|]. split; [done|]. split; [done|].
    destruct al; apply Hb.
Qed.
