(* ===== verification/MmCoalesce.v ===== *)
(** The coalescing pass of mm.c ([coalesce], [coalesces]).

    The pass walks the list by headers.  Where three free blocks meet, the
    pointer of the walk stays on the old third block, inside the merged one,
    so the next round merges a stale suffix and overwrites the footer.  [cinv]
    is the invariant of the walk with its three modes; it shows that the
    header list, the allocated blocks and their payloads survive. *)

From S2P Require Import Prelude MemLib Mm MmHeap.
Import Macros.

Lemma mod8_add a b : a mod 8 = 0 -> b mod 8 = 0 -> (a + b) mod 8 = 0.
Proof. intros Ha Hb. by rewrite Zplus_mod, Ha, Hb. Qed.

Lemma mod8_sub a b : a mod 8 = 0 -> b mod 8 = 0 -> (a - b) mod 8 = 0.
Proof. intros Ha Hb. by rewrite Zminus_mod, Ha, Hb. Qed.

Ltac mod8 :=
  first [ done | assumption | apply mod8_add; mod8 | apply mod8_sub; mod8 ].

(** Find a word fact, through the stores made since. *)
Ltac word :=
  first [ eassumption
        | eapply is_word_store_ne; [word|lia]
        | eapply is_word_store_tag; [lia|mod8|lia|lia]
        | eapply is_word_store_free; [lia|mod8|lia] ].

Ltac wM :=
  cbv beta zeta iota;
  lazymatch goal with
  | |- wpM (mbind _ _) _ _ => apply wpM_bind
  | |- wpM (mret _) _ _ => apply wpM_ret
  | |- wpM get_ml _ _ => apply wpM_get_ml
  | |- wpM get_total _ _ => apply wpM_get_total
  | |- wpM (set_total _) _ _ => apply wpM_set_total
  | |- wpM (GET_SIZE _) _ _ => rewrite ?HDRP_eq; eapply wpM_GET_SIZE; [lia|lia|word|]
  | |- wpM (GET_ALLOC _) _ _ => rewrite ?HDRP_eq; eapply wpM_GET_ALLOC; [lia|lia|word|]
  | |- wpM (IS_END _) _ _ => rewrite ?HDRP_eq; eapply wpM_IS_END; [lia|lia|word|]
  | |- wpM (NEXT_BLK _) _ _ => eapply wpM_NEXT_BLK; [lia|lia|word|]
  | |- wpM (PREV_BLK _) _ _ => eapply wpM_PREV_BLK; [lia|lia|word|]
  | |- wpM (FTRP _) _ _ => eapply wpM_FTRP; [lia|lia|word|]
  | |- wpM (PUT _ _) _ _ => rewrite ?HDRP_eq; apply wpM_PUT; [lia|lia|]
  end.

(** * One call of [coalesce] on words *)
Section CoalesceWords.
Context (lo brk mx : Z) (m : Z -> Z) (t p s : Z).
Hypothesis Hgeo : geom lo brk mx.
Hypothesis Hp : lo + 8 <= p.
Hypothesis Hs : 16 <= s.
Hypothesis Hend : p + s <= brk.
Hypothesis Hhdr : is_word m (p - 8) s 0.

(** What [coalesce] reads about the block before [p]: the tag [pa]. *)
Definition prev_reads (pa : Z) : Prop :=
  (p = lo + 8 /\ pa = 1) \/
  (lo + 24 <= p /\ exists f fb h hb, 16 <= f <= p - lo - 8 /\
     is_word m (p - 16) f fb /\ is_word m (p - f - 8) h hb /\ pa = hb mod 2).

Lemma coalesce_start pa nsz nb (Q : unit -> mm_state -> Prop) :
  prev_reads pa -> is_word m (p + s - 8) nsz nb ->
  wpM (coalesce_merge p pa (nb mod 2) s) (mk lo brk mx m t) Q ->
  wpM (coalesce p) (mk lo brk mx m t) Q.
Proof.
  intros Hprev Hn HQ. destruct Hgeo as (? & ? & ? & ? & ? & HM).
  unfold coalesce, IS_BEGIN. wM. wM. wM. wM.
  change (STEP (mem_heap_lo _)) with (lo + 8). apply wpM_bind.
  assert (wpM (if negb (p =? lo + 8) then q ← PREV_BLK p; GET_ALLOC (HDRP q) else mret 1)
            (mk lo brk mx m t) (fun a st => a = pa /\ st = mk lo brk mx m t)) as Hpa.
  { destruct Hprev as [[-> ->]|(? & f & fb & h & hb & ? & Hf & Hh & ->)].
    - rewrite Z.eqb_refl. cbn [negb]. by wM.
    - destruct (Z.eqb_spec p (lo + 8)); [lia|]. cbn [negb]. wM. wM. wM. done. }
  eapply wpM_mono; [exact Hpa|]. intros ? ? [-> ->]. wM. wM. wM. wM. wM. wM. exact HQ.
Qed.

(** Case 1: both neighbours allocated. *)
Lemma merge_none (Q : unit -> mm_state -> Prop) :
  Q tt (mk lo brk mx (store32 (store32 m (p - 8) s) (p + s - 16) s) t) ->
  wpM (coalesce_merge p 1 1 s) (mk lo brk mx m t) Q.
Proof.
  intros HQ. destruct Hgeo as (? & ? & ? & ? & ? & HM).
  pose proof Hhdr as (_ & Hs8 & _ & Hs31 & _).
  unfold coalesce_merge. cbn [negb Z.eqb andb]. rewrite pack_add, Z.add_0_r by (done || lia).
  wM. wM. wM. wM. wM. exact HQ.
Qed.

(** Case 2: the next block, of size [n], is free. *)
Lemma merge_next n (Q : unit -> mm_state -> Prop) :
  16 <= n -> p + s + n <= brk -> is_word m (p + s - 8) n 0 ->
  Q tt (mk lo brk mx (store32 (store32 m (p - 8) (s + n)) (p + (s + n) - 16) (s + n)) t) ->
  wpM (coalesce_merge p 1 0 s) (mk lo brk mx m t) Q.
Proof.
  intros Hn Hn2 Hnw HQ. destruct Hgeo as (? & ? & ? & ? & ? & HM).
  pose proof Hhdr as (_ & Hs8 & _ & Hs31 & _). pose proof Hnw as (_ & Hn8 & _ & Hn31 & _).
  unfold coalesce_merge. cbn [negb Z.eqb andb]. wM. wM. wM. wM.
  rewrite u32_id by (unfold is_u32; lia). rewrite pack_add, Z.add_0_r by (mod8 || lia).
  change (MAX_HEAP) with 20971520 in HM. wM. wM. wM. wM. wM. exact HQ.
Qed.

(** Case 3: the previous block is free; its footer says [f], the header that
    footer leads to says [h]. *)
Lemma merge_prev f h (Q : unit -> mm_state -> Prop) :
  16 <= f <= p - lo - 8 -> 0 <= h <= MAX_HEAP ->
  is_word m (p - 16) f 0 -> is_word m (p - f - 8) h 0 ->
  Q tt (mk lo brk mx (store32 (store32 m (p + s - 16) (s + h)) (p - f - 8) (s + h)) t) ->
  wpM (coalesce_merge p 0 1 s) (mk lo brk mx m t) Q.
Proof.
  intros Hf Hh0 Hfw Hhw HQ. destruct Hgeo as (? & ? & ? & ? & ? & HM).
  pose proof Hhdr as (_ & Hs8 & _ & Hs31 & _). pose proof Hhw as (_ & Hh8 & _ & Hh31 & _).
  change (MAX_HEAP) with 20971520 in *.
  unfold coalesce_merge. cbn [negb Z.eqb andb]. wM. wM. wM. wM.
  rewrite u32_id by (unfold is_u32; lia). rewrite pack_add, Z.add_0_r by (mod8 || lia).
  wM. wM. wM. wM. wM. wM. wM. exact HQ.
Qed.

(** Case 4: both neighbours are free. *)
Lemma merge_both f h n (Q : unit -> mm_state -> Prop) :
  16 <= f <= p - lo - 8 -> 0 <= h <= MAX_HEAP -> 16 <= n -> p + s + n <= brk ->
  is_word m (p - 16) f 0 -> is_word m (p - f - 8) h 0 -> is_word m (p + s - 8) n 0 ->
  Q tt (mk lo brk mx (store32 (store32 m (p - f - 8) (s + (h + n)))
                        (p + s + n - 16) (s + (h + n))) t) ->
  wpM (coalesce_merge p 0 0 s) (mk lo brk mx m t) Q.
Proof.
  intros Hf Hh0 Hn Hn2 Hfw Hhw Hnw HQ. destruct Hgeo as (? & ? & ? & ? & ? & HM).
  pose proof Hhdr as (_ & Hs8 & _ & Hs31 & _). pose proof Hhw as (_ & Hh8 & _ & Hh31 & _).
  pose proof Hnw as (_ & Hn8 & _ & Hn31 & _).
  change (MAX_HEAP) with 20971520 in *.
  unfold coalesce_merge. cbn [negb Z.eqb andb]. wM. wM. wM. wM. wM. wM. wM. wM.
  rewrite !u32_id by (unfold is_u32; rewrite ?u32_id by (unfold is_u32; lia); lia).
  rewrite pack_add, Z.add_0_r by (mod8 || lia).
  wM. wM. wM. wM. wM. wM. wM. wM. wM. exact HQ.
Qed.
End CoalesceWords.

(** * The walk *)
Section Walk.
Context (lo brk mx : Z) (as_ : list (Z * Z)) (m0 : Z -> Z) (t : Z).
Hypothesis Hgeo : geom lo brk mx.

(** In front of a free block the previous block, if free, has a footer with
    its full size. *)
Definition prev_good (m : Z -> Z) (p : Z) (pre suf : list blk) : Prop :=
  pre = [] \/
  (exists pre' sz, pre = pre' ++ [(sz, true)]) \/
  (exists pre' sz, pre = pre' ++ [(sz, false)] /\ is_word m (p - 16) sz 0) \/
  (match suf with (_, false) :: _ => False | _ => True end).

Inductive cinv (m : Z -> Z) (p : Z) : Prop :=
| cinv_norm pre suf :
    (* [p] is a block of the list *)
    seg m (lo + 8) pre p -> seg m p suf brk ->
    allocs (lo + 8) pre ++ allocs p suf = as_ ->
    prev_good m p pre suf -> cinv m p
| cinv_stale pre suf b S s f :
    (* [p] is the old last part, of size [s], of the free block at [b] *)
    seg m (lo + 8) pre b -> is_word m (b - 8) S 0 -> p + s = b + S ->
    is_word m (p + s - 16) S 0 -> 16 <= s -> is_word m (p - 8) s 0 ->
    16 <= f -> b + 16 <= p - f -> is_word m (p - 16) f 0 -> is_word m (p - f - 8) f 0 ->
    seg m (p + s) suf brk ->
    allocs (lo + 8) pre ++ allocs (p + s) suf = as_ -> cinv m p
| cinv_mid pre suf b S s g :
    (* [p] is a free block whose footer reaches back into the free block at [b] *)
    seg m (lo + 8) pre b -> is_word m (b - 8) S 0 -> p = b + S -> 32 <= S ->
    is_word m (p - 16) S 0 -> 16 <= s -> is_word m (p - 8) s 0 ->
    is_word m (p + s - 16) g 0 -> is_word m (p + s - g - 8) g 0 ->
    b + 16 <= p + s - g -> p + s - g <= p - 16 ->
    seg m (p + s) suf brk ->
    allocs (lo + 8) pre ++ allocs (p + s) suf = as_ -> cinv m p.

Definition walk_ok (m : Z -> Z) (p : Z) : Prop :=
  cinv m p /\ is_word m (brk - 8) 0 7 /\ payload_same as_ m0 m.

(** What a round of the loop establishes. *)
Definition round_post (p : Z) (r : Z + unit) (st : mm_state) : Prop :=
  match r with
  | inl p' => p + 16 <= p' /\ exists m', st = mk lo brk mx m' t /\ walk_ok m' p'
  | inr _ => exists m' bs, st = mk lo brk mx m' t /\ seg m' (lo + 8) bs brk /\
               allocs (lo + 8) bs = as_ /\ is_word m' (brk - 8) 0 7 /\ payload_same as_ m0 m'
  end.

(** A round on a free block, given the effect of [coalesce]. *)
Lemma round_free m p s :
  lo + 8 <= p -> p + s <= brk -> is_word m (p - 8) s 0 ->
  wpM (coalesce p) (mk lo brk mx m t) (fun _ st => exists m' s',
    st = mk lo brk mx m' t /\ 16 <= s' /\ is_word m' (p - 8) s' 0 /\ walk_ok m' (p + s')) ->
  wpM (coalesces_step p) (mk lo brk mx m t) (round_post p).
Proof.
  intros H1 H2 Hw Hc. destruct Hgeo as (? & ? & ? & ? & ? & HM).
  pose proof (proj1 (proj2 (proj2 Hw))).
  unfold coalesces_step. wM. wM. cbn [Z.eqb Pos.eqb]. wM. wM. change (0 mod 2) with 0. cbn [Z.eqb Pos.eqb].
  wM. eapply wpM_mono; [exact Hc|]. intros _ st (m' & s' & -> & Hs' & Hw' & Hok).
  wM. wM. wM. cbn. split; [lia|]. eauto.
Qed.

Lemma prev_reads_norm m p pre s r :
  seg m (lo + 8) pre p -> prev_good m p pre ((s, false) :: r) -> s < 2 ^ 31 ->
  (prev_reads lo m p 1) \/
  (exists pre' sz, pre = pre' ++ [(sz, false)] /\ seg m (lo + 8) pre' (p - sz) /\ 16 <= sz /\
     is_word m (p - 16) sz 0 /\ is_word m (p - sz - 8) sz 0 /\ prev_reads lo m p 0).
Proof.
  intros Hseg Hg Hs.
  destruct Hg as [->|[(pre' & sz & ->)|[(pre' & sz & -> & Hw)|[]]]].
  - left. left. cbn in Hseg. auto.
  - apply seg_app in Hseg as [H1 [[Hb0 [Hb1 Hb2]] E]]. pose proof (seg_le _ _ _ _ H1).
    cbn in E. set (b := lo + 8 + bsize pre') in *. subst p.
    left. right. split; [lia|]. exists sz, 1, sz, 1. split; [lia|].
    split; [done|]. split; [|done]. by replace (b + sz - sz - 8) with (b - 8) by lia.
  - apply seg_app in Hseg as [H1 [[Hb0 [Hb1 _]] E]]. pose proof (seg_le _ _ _ _ H1).
    cbn in E. set (b := lo + 8 + bsize pre') in *. subst p.
    assert (Eb : b + sz - sz = b) by lia.
    right. exists pre', sz. rewrite Eb. do 5 (split; [done|]).
    right. split; [lia|]. exists sz, 0, sz, 0. rewrite Eb. split; [lia|]. auto.
Qed.

(** The block at the end of the walked prefix, rebuilt by two stores at its
    header [b - 8] and its footer [b + S - 16]. *)
Definition coal_post (p : Z) : unit -> mm_state -> Prop := fun _ st =>
  exists m' s', st = mk lo brk mx m' t /\ 16 <= s' /\ is_word m' (p - 8) s' 0 /\
    walk_ok m' (p + s').

Lemma payload_two m b e w1 v1 w2 v2 :
  payload_same as_ m0 m -> outside as_ b e ->
  b - 8 <= w1 -> w1 + 4 <= e -> b - 8 <= w2 -> w2 + 4 <= e ->
  payload_same as_ m0 (store32 (store32 m w1 v1) w2 v2).
Proof.
  intros Hp Ho ? ? ? ?. eapply (payload_same_store _ _ _ b e); try done.
  by eapply (payload_same_store _ _ _ b e).
Qed.

Lemma good_block m b S :
  16 <= S -> is_word m (b - 8) S 0 -> is_word m (b + S - 16) S 0 -> block m b S false.
Proof.
  intros H Hh Hf. split; [done|]. split; [done|]. exists S. split; [lia|]. split; [done|].
  by replace (b + S - S - 8) with (b - 8) by lia.
Qed.

(** A prefix extended by a free block with a full footer. *)
Lemma walk_norm m pre b S suf :
  seg m (lo + 8) pre b -> 16 <= S -> is_word m (b - 8) S 0 -> is_word m (b + S - 16) S 0 ->
  seg m (b + S) suf brk -> allocs (lo + 8) pre ++ allocs (b + S) suf = as_ ->
  is_word m (brk - 8) 0 7 -> payload_same as_ m0 m -> walk_ok m (b + S).
Proof.
  intros Hpre HS Hh Hf Hsuf Has He Hp. split; [|done].
  apply (cinv_norm _ _ (pre ++ [(S, false)]) suf).
  - eapply seg_snoc; [done|by apply good_block|done].
  - done.
  - by rewrite allocs_snoc, app_nil_r.
  - right; right; left. eauto.
Qed.

Section Cases.
Context (m : Z -> Z) (p s : Z).
Hypothesis Hend : is_word m (brk - 8) 0 7.
Hypothesis Hpay : payload_same as_ m0 m.
Hypothesis Hs : 16 <= s.
Hypothesis Hw : is_word m (p - 8) s 0.

Ltac geo := pose proof Hgeo as (? & ? & ? & ? & ? & HM); change MAX_HEAP with 20971520 in HM.

(** No free neighbour: header and footer are rewritten. *)
Lemma case_none pre r nsz nb :
  seg m (lo + 8) pre p -> seg m (p + s) r brk -> prev_reads lo m p 1 ->
  is_word m (p + s - 8) nsz nb -> nb mod 2 = 1 ->
  allocs (lo + 8) pre ++ allocs (p + s) r = as_ ->
  wpM (coalesce p) (mk lo brk mx m t) (coal_post p).
Proof.
  intros Hpre Hr Hprev Hn Hnb Has. geo.
  pose proof (seg_le _ _ _ _ Hpre). pose proof (seg_le _ _ _ _ Hr).
  pose proof Hw as (_ & Hs8 & _ & Hs31 & _).
  eapply (coalesce_start lo brk mx m t p s); try done. rewrite Hnb. apply merge_none; try done.
  eexists _, s. split; [done|]. split; [done|]. split; [word|].
  apply (walk_norm _ pre p s r); try done.
  - apply seg_store; [apply seg_store; [done|lia]|lia].
  - word.
  - word.
  - apply seg_store; [apply seg_store; [done|lia]|lia].
  - word.
  - eapply (payload_two _ p (p + s)); try lia; [done|].
    rewrite <- Has. by eapply outside_segs.
Qed.

(** The next block is free. *)
Lemma case_next pre r n :
  seg m (lo + 8) pre p -> block m (p + s) n false -> seg m (p + s + n) r brk ->
  prev_reads lo m p 1 -> allocs (lo + 8) pre ++ allocs (p + s + n) r = as_ ->
  wpM (coalesce p) (mk lo brk mx m t) (coal_post p).
Proof.
  intros Hpre [Hn0 [Hnw _]] Hr Hprev Has. geo.
  pose proof (seg_le _ _ _ _ Hpre). pose proof (seg_le _ _ _ _ Hr).
  pose proof Hw as (_ & Hs8 & _ & Hs31 & _). pose proof Hnw as (_ & Hn8 & _ & Hn31 & _).
  replace (p + s + n) with (p + (s + n)) in * by lia.
  eapply (coalesce_start lo brk mx m t p s); try done; try lia. apply (merge_next _ _ _ _ _ _ s) with (n := n); try done; try lia.
  eexists _, (s + n). split; [done|]. split; [lia|]. split; [word|].
  apply (walk_norm _ pre p (s + n) r); try done.
  - apply seg_store; [apply seg_store; [done|lia]|lia].
  - lia.
  - word.
  - word.
  - apply seg_store; [apply seg_store; [done|lia]|lia].
  - word.
  - eapply (payload_two _ p (p + (s + n))); try lia; [done|].
    rewrite <- Has. by eapply outside_segs.
Qed.

(** The previous block, at [b] with a full footer, is free; [p] is a real block. *)
Lemma case_prev pre b S r nsz nb :
  seg m (lo + 8) pre b -> p = b + S -> 16 <= S -> is_word m (b - 8) S 0 ->
  is_word m (p - 16) S 0 -> seg m (p + s) r brk -> prev_reads lo m p 0 ->
  is_word m (p + s - 8) nsz nb -> nb mod 2 = 1 ->
  allocs (lo + 8) pre ++ allocs (p + s) r = as_ ->
  wpM (coalesce p) (mk lo brk mx m t) (coal_post p).
Proof.
  intros Hpre Hp HS Hbw Hfw Hr Hprev Hn Hnb Has. geo.
  pose proof (seg_le _ _ _ _ Hpre). pose proof (seg_le _ _ _ _ Hr).
  pose proof Hw as (_ & Hs8 & _ & Hs31 & _). pose proof Hbw as (_ & HS8 & _ & HS31 & _).
  assert (Eb : p - S - 8 = b - 8) by lia.
  eapply (coalesce_start lo brk mx m t p s); try done; try lia. rewrite Hnb.
  eapply (merge_prev _ _ _ _ _ _ s) with (f := S) (h := S); try done; try lia.
  { change MAX_HEAP with 20971520. lia. }
  { by rewrite Eb. }
  rewrite Eb. eexists _, s. split; [done|]. split; [done|]. split; [word|].
  replace (p + s) with (b + (s + S)) in * by lia.
  apply (walk_norm _ pre b (s + S) r); try done.
  - apply seg_store; [apply seg_store; [done|lia]|lia].
  - lia.
  - word.
  - word.
  - apply seg_store; [apply seg_store; [done|lia]|lia].
  - word.
  - eapply (payload_two _ b (b + (s + S))); try lia; [done|].
    rewrite <- Has. by eapply outside_segs.
Qed.

(** Both neighbours are free: the walk goes on inside the merged block. *)
Lemma case_both pre b S r n f :
  seg m (lo + 8) pre b -> p = b + S -> 16 <= S -> is_word m (b - 8) S 0 ->
  is_word m (p - 16) S 0 -> block m (p + s) n false -> seg m (p + s + n) r brk ->
  prev_reads lo m p 0 ->
  16 <= f -> b + 16 <= p + s - f -> p + s - f <= p + s - 16 ->
  is_word m (p + s - 16) f 0 -> is_word m (p + s - f - 8) f 0 ->
  allocs (lo + 8) pre ++ allocs (p + s + n) r = as_ ->
  wpM (coalesce p) (mk lo brk mx m t) (coal_post p).
Proof.
  intros Hpre Hp HS Hbw Hfw [Hn0 [Hnw _]] Hr Hprev Hf Hf1 Hf2 Hfw1 Hfw2 Has. geo.
  pose proof (seg_le _ _ _ _ Hpre). pose proof (seg_le _ _ _ _ Hr).
  pose proof Hw as (_ & Hs8 & _ & Hs31 & _). pose proof Hbw as (_ & HS8 & _ & HS31 & _).
  pose proof Hnw as (_ & Hn8 & _ & Hn31 & _).
  assert (Eb : p - S - 8 = b - 8) by lia.
  eapply (coalesce_start lo brk mx m t p s); try done; try lia.
  eapply (merge_both _ _ _ _ _ _ s) with (f := S) (h := S) (n := n); try done; try lia.
  { change MAX_HEAP with 20971520. lia. }
  { by rewrite Eb. }
  rewrite Eb. eexists _, s. split; [done|]. split; [done|]. split; [word|].
  split; [|split].
  - apply (cinv_stale _ _ pre r b (s + (S + n)) n f); try lia; try done; try word.
    + apply seg_store; [apply seg_store; [done|lia]|lia].
    + apply seg_store; [apply seg_store; [done|lia]|lia].
  - word.
  - eapply (payload_two _ b (p + s + n)); try lia; [done|].
    rewrite <- Has. by eapply outside_segs.
Qed.

(** Inside a merged block, next block allocated: the stale suffix becomes
    the footer of the merged block. *)
Lemma case_stale_prev pre b S r nsz nb f :
  seg m (lo + 8) pre b -> is_word m (b - 8) S 0 -> p + s = b + S ->
  16 <= f -> b + 16 <= p - f -> is_word m (p - 16) f 0 -> is_word m (p - f - 8) f 0 ->
  seg m (p + s) r brk -> is_word m (p + s - 8) nsz nb -> nb mod 2 = 1 ->
  (match r with (_, false) :: _ => False | _ => True end) ->
  allocs (lo + 8) pre ++ allocs (p + s) r = as_ ->
  wpM (coalesce p) (mk lo brk mx m t) (coal_post p).
Proof.
  intros Hpre Hbw Hp Hf Hf1 Hfw Hqw Hr Hn Hnb Hhead Has. geo.
  pose proof (seg_le _ _ _ _ Hpre). pose proof (seg_le _ _ _ _ Hr).
  pose proof Hw as (_ & Hs8 & _ & Hs31 & _). pose proof Hbw as (_ & HS8 & _ & HS31 & _).
  pose proof Hqw as (_ & Hf8 & _ & Hf31 & _).
  eapply (coalesce_start lo brk mx m t p s) with (pa := 0); try done; try lia.
  { right. split; [lia|]. exists f, 0, f, 0. split; [lia|]. auto. }
  rewrite Hnb. eapply (merge_prev _ _ _ _ _ _ s) with (f := f) (h := f); try done; try lia.
  { change MAX_HEAP with 20971520. lia. }
  eexists _, s. split; [done|]. split; [done|]. split; [word|].
  split; [|split].
  - apply (cinv_norm _ _ (pre ++ [(S, false)]) r).
    + eapply seg_snoc; [apply seg_store; [apply seg_store; [done|lia]|lia]| |done].
      split; [lia|]. split; [word|]. exists (s + f). split; [lia|].
      replace (b + S - 16) with (p + s - 16) by lia.
      replace (b + S - (s + f) - 8) with (p - f - 8) by lia. split; word.
    + apply seg_store; [apply seg_store; [done|lia]|lia].
    + by rewrite allocs_snoc, app_nil_r.
    + right; right; right. done.
  - word.
  - eapply (payload_two _ b (p + s)); try lia; [done|].
    rewrite <- Has. by eapply outside_segs.
Qed.

(** Inside a merged block, next block free: its footer reaches back. *)
Lemma case_stale_both pre b S r n f :
  seg m (lo + 8) pre b -> is_word m (b - 8) S 0 -> p + s = b + S ->
  is_word m (p + s - 16) S 0 ->
  16 <= f -> b + 16 <= p - f -> is_word m (p - 16) f 0 -> is_word m (p - f - 8) f 0 ->
  block m (p + s) n false -> seg m (p + s + n) r brk ->
  allocs (lo + 8) pre ++ allocs (p + s + n) r = as_ ->
  wpM (coalesce p) (mk lo brk mx m t) (coal_post p).
Proof.
  intros Hpre Hbw Hp Hbf Hf Hf1 Hfw Hqw [Hn0 [Hnw _]] Hr Has. geo.
  pose proof (seg_le _ _ _ _ Hpre). pose proof (seg_le _ _ _ _ Hr).
  pose proof Hw as (_ & Hs8 & _ & Hs31 & _). pose proof Hbw as (_ & HS8 & _ & HS31 & _).
  pose proof Hnw as (_ & Hn8 & _ & Hn31 & _). pose proof Hqw as (_ & Hf8 & _ & Hf31 & _).
  eapply (coalesce_start lo brk mx m t p s) with (pa := 0); try done; try lia.
  { right. split; [lia|]. exists f, 0, f, 0. split; [lia|]. auto. }
  eapply (merge_both _ _ _ _ _ _ s) with (f := f) (h := f) (n := n); try done; try lia.
  { change MAX_HEAP with 20971520. lia. }
  eexists _, s. split; [done|]. split; [done|]. split; [word|].
  split; [|split].
  - apply (cinv_mid _ _ pre r b S n (s + (f + n))); try lia; try done; try word.
    + apply seg_store; [apply seg_store; [done|lia]|lia].
    + apply seg_store; [apply seg_store; [done|lia]|lia].
  - word.
  - eapply (payload_two _ b (p + s + n)); try lia; [done|].
    rewrite <- Has. by eapply outside_segs.
Qed.
End Cases.

(** One round of the loop, in every mode. *)
Lemma round_norm m p pre suf :
  seg m (lo + 8) pre p -> seg m p suf brk ->
  allocs (lo + 8) pre ++ allocs p suf = as_ -> prev_good m p pre suf ->
  is_word m (brk - 8) 0 7 -> payload_same as_ m0 m ->
  wpM (coalesces_step p) (mk lo brk mx m t) (round_post p).
Proof.
  intros Hpre Hsuf Has Hg He Hp. pose proof Hgeo as (? & ? & ? & ? & ? & HM).
  pose proof (seg_le _ _ _ _ Hpre). pose proof (seg_le _ _ _ _ Hsuf).
  destruct (next_header _ _ _ _ Hsuf He) as [(-> & -> & Hw)|(s & al & r & -> & Hb & Hr & Hw)].
  { unfold coalesces_step. wM. wM. cbn [Z.eqb Pos.eqb]. wM. cbn. exists m, pre.
    cbn in Has. rewrite app_nil_r in Has. done. }
  pose proof (seg_le _ _ _ _ Hr). destruct al.
  { unfold coalesces_step. pose proof (proj1 Hb). wM. wM. cbn [Z.eqb Pos.eqb]. wM. wM.
    change (1 mod 2) with 1. cbn [Z.eqb Pos.eqb]. wM. wM. wM. wM. wM. cbn.
    split; [lia|]. exists m. split; [done|]. split; [|done].
    apply (cinv_norm _ _ (pre ++ [(s, true)]) r); [by eapply seg_snoc|done| |].
    - rewrite allocs_snoc, <- app_assoc. cbn in *. by rewrite <- (seg_end _ _ _ _ Hpre).
    - right; left. eauto. }
  destruct Hb as [Hs [Hw' (f & Hf & Hfw1 & Hfw2)]]. cbn in Has.
  apply (round_free m p s); [lia|lia|done|].
  destruct (prev_reads_norm m p pre s r Hpre Hg) as
    [Hprev|(pre' & S & -> & Hpre' & HS & Hfw & Hbw & Hprev)]; [apply Hw'| |].
  - destruct (next_header _ _ _ _ Hr He) as [(-> & E & Hn)|(n & [] & r' & -> & Hn & Hr' & Hnw)].
    + by eapply case_none.
    + by eapply case_none.
    + by eapply case_next.
  - rewrite allocs_snoc, app_nil_r in Has.
    destruct (next_header _ _ _ _ Hr He) as [(-> & E & Hn)|(n & [] & r' & -> & Hn & Hr' & Hnw)].
    + eapply (case_prev m p s He Hp Hs Hw' pre' (p - S) S); try done; lia.
    + eapply (case_prev m p s He Hp Hs Hw' pre' (p - S) S); try done; lia.
    + eapply (case_both m p s He Hp Hs Hw' pre' (p - S) S r' n f); try done; lia.
Qed.

Lemma round_stale m p pre suf b S s f :
  seg m (lo + 8) pre b -> is_word m (b - 8) S 0 -> p + s = b + S ->
  is_word m (p + s - 16) S 0 -> 16 <= s -> is_word m (p - 8) s 0 ->
  16 <= f -> b + 16 <= p - f -> is_word m (p - 16) f 0 -> is_word m (p - f - 8) f 0 ->
  seg m (p + s) suf brk ->
  allocs (lo + 8) pre ++ allocs (p + s) suf = as_ ->
  is_word m (brk - 8) 0 7 -> payload_same as_ m0 m ->
  wpM (coalesces_step p) (mk lo brk mx m t) (round_post p).
Proof.
  intros Hpre Hbw Hp Hbf Hs Hw Hf Hf1 Hfw Hqw Hsuf Has He Hpay.
  pose proof (seg_le _ _ _ _ Hpre). pose proof (seg_le _ _ _ _ Hsuf).
  apply (round_free m p s); [lia|lia|done|].
  destruct (next_header _ _ _ _ Hsuf He) as [(-> & E & Hn)|(n & [] & r' & -> & Hn & Hr' & Hnw)].
  - eapply (case_stale_prev m p s He Hpay Hs Hw pre b S _ _ _ f Hpre Hbw Hp Hf Hf1 Hfw Hqw Hsuf); done.
  - eapply (case_stale_prev m p s He Hpay Hs Hw pre b S _ _ _ f Hpre Hbw Hp Hf Hf1 Hfw Hqw Hsuf); done.
  - eapply (case_stale_both m p s He Hpay Hs Hw pre b S); done.
Qed.

Lemma round_mid m p pre suf b S s g :
  seg m (lo + 8) pre b -> is_word m (b - 8) S 0 -> p = b + S -> 32 <= S ->
  is_word m (p - 16) S 0 -> 16 <= s -> is_word m (p - 8) s 0 ->
  is_word m (p + s - 16) g 0 -> is_word m (p + s - g - 8) g 0 ->
  b + 16 <= p + s - g -> p + s - g <= p - 16 ->
  seg m (p + s) suf brk ->
  allocs (lo + 8) pre ++ allocs (p + s) suf = as_ ->
  is_word m (brk - 8) 0 7 -> payload_same as_ m0 m ->
  wpM (coalesces_step p) (mk lo brk mx m t) (round_post p).
Proof.
  intros Hpre Hbw Hp HS Hfw Hs Hw Hgw Hqw Hg1 Hg2 Hsuf Has He Hpay.
  pose proof (seg_le _ _ _ _ Hpre). pose proof (seg_le _ _ _ _ Hsuf).
  assert (Hprev : prev_reads lo m p 0).
  { right. split; [lia|]. exists S, 0, S, 0. split; [lia|]. split; [done|].
    split; [|done]. by replace (p - S - 8) with (b - 8) by lia. }
  apply (round_free m p s); [lia|lia|done|].
  destruct (next_header _ _ _ _ Hsuf He) as [(-> & E & Hn)|(n & [] & r' & -> & Hn & Hr' & Hnw)].
  - eapply (case_prev m p s He Hpay Hs Hw pre b S); try done; lia.
  - eapply (case_prev m p s He Hpay Hs Hw pre b S); try done; lia.
  - eapply (case_both m p s He Hpay Hs Hw pre b S r' n g); try done; lia.
Qed.

Lemma cinv_le m p : cinv m p -> lo + 8 <= p <= brk.
Proof.
  intros [pre suf H1 H2 _ _|pre suf b S s f H1 _ ? _ ? _ ? ? _ _ H2 _
         |pre suf b S s g H1 _ ? ? _ ? _ _ _ ? ? H2 _];
    pose proof (seg_le _ _ _ _ H1); pose proof (seg_le _ _ _ _ H2); lia.
Qed.

Lemma coalesces_walk m p :
  walk_ok m p -> wpM (coalesces_step p) (mk lo brk mx m t) (round_post p).
Proof.
  intros ([pre suf|pre suf b S s f|pre suf b S s g] & He & Hp).
  - by eapply round_norm.
  - by eapply round_stale.
  - by eapply round_mid.
Qed.
End Walk.

(** * The pass keeps the heap *)

(** The whole pass returns, and keeps the block list well formed, the allocated
    blocks and their payload. *)
Lemma coalesces_ok s bs :
  heap_wf s bs ->
  wpM coalesces s (fun _ s' => exists bs',
    heap_wf s' bs' /\ allocs (heap_base s') bs' = allocs (heap_base s) bs /\
    payload_same (allocs (heap_base s) bs) (mem_bytes (ml s)) (mem_bytes (ml s')) /\
    mem_start_brk (ml s') = mem_start_brk (ml s) /\ mem_brk (ml s') = mem_brk (ml s) /\
    mem_max_addr (ml s') = mem_max_addr (ml s) /\ total_free_size s' = total_free_size s).
Proof.
  rewrite (state_mk s). set (lo := mem_start_brk _). set (brk := mem_brk _).
  set (mx := mem_max_addr _). set (m := mem_bytes _). set (t := total_free_size _).
  rewrite heap_wf_mk. intros (Hgeo & Hseg & He & Ht).
  unfold coalesces, walk_fuel. wM. wM. apply wpM_bind.
  eexists _, _. split; [reflexivity|]. cbn [ml mk mem_heap_lo mem_start_brk].
  set (as_ := allocs (lo + 8) bs).
  eapply (wpM_while
    (fun p st => exists m', st = mk lo brk mx m' t /\ walk_ok lo brk as_ m m' p)
    (fun p => Z.to_nat ((brk - p) / 8))).
  - exists m. split; [done|]. split; [|done].
    apply (cinv_norm _ _ _ _ _ [] bs); [done|done|done|by left].
  - unfold mem_heapsize. cbn. change (STEP lo) with (lo + 8).
    replace (brk - (lo + 8)) with (brk - lo + (-1) * 8) by lia.
    rewrite Z.div_add by lia. destruct Hgeo as (? & ? & ? & _).
    assert (1 <= (brk - lo) / 8) by (apply Z.div_le_lower_bound; lia). lia.
  - intros p st (m' & -> & Hok). eapply wpM_mono; [by apply coalesces_walk|].
    intros [p'|[]] st' H; cbn in H.
    + destruct H as (Hlt & m2 & -> & Hok'). split; [eauto|].
      pose proof (cinv_le _ _ _ _ _ (proj1 Hok')).
      assert ((brk - p') / 8 < (brk - p) / 8); [|].
      { apply Z.lt_le_trans with ((brk - p' + 1 * 8) / 8);
          [rewrite Z.div_add by lia; lia|apply Z.div_le_mono; lia]. }
      assert (0 <= (brk - p') / 8) by (apply Z.div_pos; lia). lia.
    + destruct H as (m2 & bs' & -> & Hs' & Ha & He' & Hp). exists bs'.
      split; [by rewrite heap_wf_mk|]. done.
Qed.
