(* ===== verification/MmSpec.v ===== *)
(** Specifications of the operations of mm.c over the abstract state "the
    allocated blocks, as payload address and block size" ([allocs]).

    The block list of [MmHeap.heap_wf] tiles the heap, so two different
    allocated blocks never overlap; the theorems say how each operation changes
    the set of allocated blocks and that it leaves their payload bytes alone. *)

From S2P Require Import Prelude MemLib Mm MmHeap MmCoalesce.
Import Macros.

(** * Sizes *)

(** [ALIGN(size) + 2 * SIZE_T_SIZE], the block size for a request. *)
Definition block_size (size : Z) : Z := u32 (ALIGN size + 2 * SIZE_T_SIZE).

Lemma ALIGN_spec size :
  0 <= size <= 2 ^ 32 - 8 -> ALIGN size mod 8 = 0 /\ size <= ALIGN size < size + 8.
Proof.
  intros H. unfold ALIGN, ALIGNMENT. change (8 - 1) with 7. rewrite u32_id by (unfold is_u32; lia).
  pose proof (Z.div_mod (size + 7) 8). pose proof (Z.mod_pos_bound (size + 7) 8).
  replace (size + 7) with (8 * ((size + 7) / 8) + (size + 7) mod 8) at 1 2 3 by lia.
  assert (8 * ((size + 7) / 8) mod 8 = 0) by (rewrite Z.mul_comm; apply Z.mod_mul; lia).
  assert (0 <= 8 * ((size + 7) / 8)) by (pose proof (Z.div_pos (size + 7) 8); lia).
  rewrite land_size by lia. lia.
Qed.

Lemma block_size_spec size :
  0 <= size <= MAX_HEAP ->
  block_size size mod 8 = 0 /\ size + 16 <= block_size size < size + 24.
Proof.
  change MAX_HEAP with 20971520. intros H. destruct (ALIGN_spec size) as [H1 H2]; [lia|].
  unfold block_size. change (2 * SIZE_T_SIZE) with 16. rewrite u32_id by (unfold is_u32; lia).
  split; [by apply mod8_add|lia].
Qed.

(** * The list of allocated blocks *)

Lemma allocs_split p bs a sz :
  (a, sz) ∈ allocs p bs ->
  exists pre suf, bs = pre ++ (sz, true) :: suf /\ a = p + bsize pre.
Proof.
  revert p. induction bs as [|[z al] r IH]; intros p; cbn; [by intros ?%elem_of_nil|].
  intros [Hin|Hin]%elem_of_app.
  - destruct al; [|by apply elem_of_nil in Hin].
    apply list_elem_of_singleton in Hin. inversion Hin; subst. exists [], r. cbn. split; [done|lia].
  - destruct (IH _ Hin) as (pre & suf & -> & ->). exists ((z, al) :: pre), suf. cbn. split; [done|lia].
Qed.

Lemma allocs_mid p pre sz al suf :
  allocs p (pre ++ (sz, al) :: suf) =
  allocs p pre ++ (if al then [(p + bsize pre, sz)] else []) ++ allocs (p + bsize pre + sz) suf.
Proof. by rewrite allocs_app. Qed.

Lemma seg_mid m p pre sz al suf q :
  seg m p (pre ++ (sz, al) :: suf) q <->
  seg m p pre (p + bsize pre) /\ block m (p + bsize pre) sz al /\ seg m (p + bsize pre + sz) suf q.
Proof. by rewrite seg_app. Qed.

(** Two allocated blocks are the same or disjoint. *)
Lemma allocs_disjoint m p bs q a sz a' sz' :
  seg m p bs q -> (a, sz) ∈ allocs p bs -> (a', sz') ∈ allocs p bs ->
  (a, sz) = (a', sz') \/ a + sz <= a' \/ a' + sz' <= a.
Proof.
  intros Hs H1 H2. destruct (allocs_split _ _ _ _ H1) as (pre & suf & -> & ->).
  apply seg_mid in Hs as (Hp & Hb & Hf).
  rewrite allocs_mid in H2. apply elem_of_app in H2 as [H2|[H2|H2]%elem_of_app].
  - right; right. apply (allocs_bounds _ _ _ _ _ _ Hp H2).
  - left. by apply list_elem_of_singleton in H2.
  - right; left. apply (allocs_bounds _ _ _ _ _ _ Hf H2).
Qed.

(** What every operation keeps: the storage, and the bytes of the blocks in [as_]. *)
Definition keeps (as_ : list (Z * Z)) (s s' : mm_state) : Prop :=
  mem_start_brk (ml s') = mem_start_brk (ml s) /\ mem_max_addr (ml s') = mem_max_addr (ml s) /\
  mem_brk (ml s) <= mem_brk (ml s') /\
  payload_same as_ (mem_bytes (ml s)) (mem_bytes (ml s')).

(** * find_fit_block *)

Definition unfit (n : Z) (b : blk) : Prop := b.2 = true \/ b.1 < n.

Lemma find_fit_ok s bs n :
  heap_wf s bs ->
  wpM (find_fit_block n) s (fun p s' => s' = s /\
    ((p = NULL /\ Forall (unfit n) bs) \/
     exists pre sz suf, bs = pre ++ (sz, false) :: suf /\ n <= sz /\
       p = heap_base s + bsize pre /\ Forall (unfit n) pre)).
Proof.
  rewrite (state_mk s). set (lo := mem_start_brk _). set (brk := mem_brk _).
  set (mx := mem_max_addr _). set (m := mem_bytes _). set (t := total_free_size _).
  rewrite heap_wf_mk. intros (Hgeo & Hseg & He & Ht).
  pose proof Hgeo as (? & ? & ? & ? & ? & HM).
  unfold find_fit_block, walk_fuel. wM. wM. apply wpM_bind.
  eexists _, _. split; [reflexivity|].
  change (STEP (mem_heap_lo _)) with (lo + 8).
  eapply (wpM_while
    (fun p st => st = mk lo brk mx m t /\ exists pre suf, bs = pre ++ suf /\
       Forall (unfit n) pre /\ p = lo + 8 + bsize pre /\
       seg m (lo + 8) pre p /\ seg m p suf brk)
    (fun p => Z.to_nat ((brk - p) / 8))).
  - split; [done|]. exists [], bs. cbn. split; [done|]. split; [constructor|].
    split; [lia|]. done.
  - unfold mem_heapsize. cbn.
    replace (brk - (lo + 8)) with (brk - lo + (-1) * 8) by lia. rewrite Z.div_add by lia.
    assert (1 <= (brk - lo) / 8) by (apply Z.div_le_lower_bound; lia). lia.
  - intros p st (-> & pre & suf & -> & Hun & Ep & Hpre & Hsuf).
    pose proof (seg_le _ _ _ _ Hpre). pose proof (seg_le _ _ _ _ Hsuf).
    unfold find_fit_step.
    destruct (next_header _ _ _ _ Hsuf He) as [(-> & E & Hw)|(sz & al & r & -> & Hb & Hr & Hw)].
    { wM. wM. cbn [Z.eqb Pos.eqb]. wM. split; [done|]. left. by rewrite app_nil_r. }
    pose proof (seg_le _ _ _ _ Hr). pose proof (proj1 Hb).
    wM. wM. replace ((if al then 1 else 0) =? 7) with false by by destruct al.
    wM. wM. wM. wM.
    destruct ((_ =? 0) && (n <=? sz)) eqn:Efit.
    + wM. split; [done|]. right. apply andb_prop in Efit as [Ea En].
      apply Z.leb_le in En. destruct al; [discriminate|].
      exists pre, sz, r. rewrite Ep. done.
    + wM. wM. wM. split.
      * split; [done|]. exists (pre ++ [(sz, al)]), r. rewrite <- app_assoc. split; [done|].
        split; [|split; [rewrite bsize_app; cbn; lia|split; [by eapply seg_snoc|done]]].
        apply Forall_app_2; [done|]. constructor; [|constructor]. unfold unfit. cbn.
        destruct al; [by left|right]. cbn in Efit. by apply Z.leb_gt in Efit.
      * assert ((brk - (p + sz)) / 8 < (brk - p) / 8).
        { apply Z.lt_le_trans with ((brk - (p + sz) + 1 * 8) / 8);
            [rewrite Z.div_add by lia; lia|apply Z.div_le_mono; lia]. }
        assert (0 <= (brk - (p + sz)) / 8) by (apply Z.div_pos; lia). lia.
Qed.

(** * place *)

(** What [place] turns a block of [sz] bytes into for a request of [n]. *)
Definition placed (sz n : Z) : list blk :=
  if 16 <? sz - n then [(n, true); (sz - n, false)] else [(sz, true)].

Lemma bsize_placed sz n : bsize (placed sz n) = sz.
Proof. unfold placed. zcase; cbn; lia. Qed.

Lemma block_size_bounds m p sz al : block m p sz al -> 16 <= sz < 2 ^ 31 /\ sz mod 8 = 0.
Proof.
  intros [H0 Hb]. destruct al; destruct Hb as [(_ & H8 & _ & H31 & _) _]; lia.
Qed.

Section Ops.
Context (lo brk mx : Z) (m : Z -> Z) (t : Z).
Hypothesis Hgeo : geom lo brk mx.
Hypothesis He : is_word m (brk - 8) 0 7.

Ltac geo := pose proof Hgeo as (? & ? & ? & ? & ? & HM); change MAX_HEAP with 20971520 in HM.

(** The stores of [place] as one memory transformer. *)
Lemma place_mem p sz al n (Q : Z -> mm_state -> Prop) :
  lo + 8 <= p -> p + sz <= brk -> block m p sz al -> 16 <= n <= sz -> n mod 8 = 0 ->
  (forall m', seg m' p (placed sz n) (p + sz) ->
     (forall x, x < p - 8 \/ p + sz - 8 <= x -> m' x = m x) ->
     (forall x, p <= x < p + n - 16 -> m' x = m x) ->
     Q p (mk lo brk mx m' t)) ->
  wpM (place p n) (mk lo brk mx m t) Q.
Proof.
  intros Hp Hend Hb Hn Hn8 HQ. geo.
  destruct (block_size_bounds _ _ _ _ Hb) as [Hsz Hsz8].
  assert (Hw : is_word m (p - 8) sz (if al then 1 else 0)) by (destruct al; apply Hb).
  unfold place. wM. wM. rewrite u32_id by (unfold is_u32; lia).
  change (2 * SIZE_T_SIZE) with 16. unfold placed in HQ.
  destruct (Z.ltb_spec 16 (sz - n)) as [Hlt|Hge].
  - rewrite !pack_add, Z.add_0_r by (mod8 || lia).
    repeat wM.
    apply HQ.
    + cbn. split; [split; [lia|split; word]|]. split; [|lia].
      apply good_block; [lia|word|word].
    + intros x Hx. by rewrite !store32_other by lia.
    + intros x Hx. by rewrite !store32_other by lia.
  - rewrite !pack_add by (mod8 || lia). repeat wM.
    apply HQ.
    + cbn. split; [|lia]. split; [lia|split; word].
    + intros x Hx. by rewrite !store32_other by lia.
    + intros x Hx. by rewrite !store32_other by lia.
Qed.

Lemma free_mem p sz (Q : unit -> mm_state -> Prop) :
  lo + 8 <= p -> p + sz <= brk -> block m p sz true ->
  (forall m', block m' p sz false ->
     (forall x, x < p - 8 \/ p + sz - 8 <= x -> m' x = m x) ->
     (forall x, p <= x < p + sz - 16 -> m' x = m x) ->
     Q tt (mk lo brk mx m' (u32 (t + sz)))) ->
  wpM (mm_free p) (mk lo brk mx m t) Q.
Proof.
  intros Hp Hend Hb HQ. geo. destruct (block_size_bounds _ _ _ _ Hb) as [Hsz Hsz8].
  destruct Hb as [_ [Hw Hf]]. unfold mm_free.
  destruct (Z.eqb_spec p NULL) as [E|_]; [unfold NULL in E; lia|].
  do 4 wM. cbn [total_free_size mk].
  rewrite !pack_add, Z.add_0_r by (done || lia). repeat wM.
  apply HQ.
  - apply good_block; [lia|word|word].
  - intros x Hx. by rewrite !store32_other by lia.
  - intros x Hx. by rewrite !store32_other by lia.
Qed.

Lemma new_block_mem n bs (Q : unit -> mm_state -> Prop) :
  seg m (lo + 8) bs brk -> 16 <= n -> n mod 8 = 0 -> brk + n <= mx ->
  (forall m', seg m' (lo + 8) (bs ++ [(n, true)]) (brk + n) ->
     is_word m' (brk + n - 8) 0 7 ->
     (forall x, x < brk - 8 -> m' x = m x) ->
     (forall x, brk <= x < brk + n - 16 -> m' x = m x) ->
     Q tt (mk lo (brk + n) mx m' t)) ->
  wpM (new_block brk n) (mk lo (brk + n) mx m t) Q.
Proof.
  intros Hs Hn Hn8 Hroom HQ. geo. unfold new_block.
  rewrite !pack_add by (mod8 || lia). change (0 + 7) with 7.
  repeat wM.
  apply HQ.
  - eapply seg_snoc; [apply seg_store; [apply seg_store; [apply seg_store; [done|lia]|lia]|lia]| |done].
    split; [lia|]. split; word.
  - change 7 with (0 + 7) at 1. word.
  - intros x Hx. by rewrite !store32_other by lia.
  - intros x Hx. by rewrite !store32_other by lia.
Qed.
End Ops.

(** The bytes of the blocks around a block that was rewritten. *)
Lemma payload_around m m' p pre b e suf q as_ :
  seg m p pre b -> seg m e suf q -> as_ = allocs p pre ++ allocs e suf -> b <= e ->
  (forall x, x < b - 8 \/ e - 8 <= x -> m' x = m x) -> payload_same as_ m m'.
Proof.
  intros H1 H2 -> Hbe Hx a sz x Hin Hr. apply Hx.
  apply elem_of_app in Hin as [Hin|Hin].
  - pose proof (allocs_bounds _ _ _ _ _ _ H1 Hin). lia.
  - pose proof (allocs_bounds _ _ _ _ _ _ H2 Hin). lia.
Qed.

Lemma place_ok s pre sz al suf p n :
  heap_wf s (pre ++ (sz, al) :: suf) -> p = heap_base s + bsize pre ->
  16 <= n <= sz -> n mod 8 = 0 ->
  wpM (place p n) s (fun r s' => r = p /\
    heap_wf s' (pre ++ placed sz n ++ suf) /\ heap_base s' = heap_base s /\
    mem_brk (ml s') = mem_brk (ml s) /\ total_free_size s' = total_free_size s /\
    keeps ((p, n) :: allocs (heap_base s) pre ++ allocs (p + sz) suf) s s').
Proof.
  unfold heap_base. rewrite (state_mk s). set (lo := mem_start_brk _). set (brk := mem_brk _).
  set (mx := mem_max_addr _). set (m := mem_bytes _). set (t := total_free_size _).
  rewrite heap_wf_mk. cbn [ml mk mem_start_brk]. intros (Hgeo & Hseg & He & Ht) Ep Hn Hn8.
  apply seg_mid in Hseg as (Hpre & Hb & Hsuf). rewrite <- Ep in *.
  pose proof (seg_le _ _ _ _ Hpre). pose proof (seg_le _ _ _ _ Hsuf). pose proof (proj1 Hb).
  eapply (place_mem lo brk mx m t Hgeo); try done.
  intros m' Hpl Hout Hpay. split; [done|]. split; [|split; [done|split; [done|split; [done|]]]].
  - rewrite heap_wf_mk. split; [done|]. split; [|split; [|done]].
    + eapply seg_join; [eapply seg_agree; [|exact Hpre]; intros; symmetry; apply Hout; lia|].
      eapply seg_join; [exact Hpl|].
      eapply seg_agree; [|exact Hsuf]. intros. symmetry. apply Hout. lia.
    + eapply is_word_agree; [|exact He]. intros. symmetry. apply Hout. lia.
  - unfold keeps. cbn. split; [done|]. split; [done|]. split; [lia|].
    intros a z x [E|Hin]%elem_of_cons Hx.
    + inversion E; subst. apply Hpay. lia.
    + eapply (payload_around m m' _ _ _ _ _ _ _ Hpre Hsuf eq_refl); try done. lia.
Qed.

(** * The abstract state: the live blocks

    [live s A]: the allocated blocks of the heap of [s] are the pairs
    (payload address, block size) of [A], in any order. *)
Definition live (s : mm_state) (A : list (Z * Z)) : Prop :=
  exists bs, heap_wf s bs /\ allocs (heap_base s) bs ≡ₚ A.

#[export] Instance live_proper : Proper (eq ==> (≡ₚ) ==> iff) live.
Proof.
  intros s ? <- A B HAB. unfold live.
  split; intros (bs & Hwf & HA); exists bs; (split; [done|]); by rewrite HA, HAB.
Qed.

#[export] Instance payload_same_proper :
  Proper ((≡ₚ) ==> eq ==> eq ==> iff) payload_same.
Proof.
  intros A B HAB m ? <- m' ? <-. unfold payload_same.
  split; intros H a sz x Hin; apply (H a sz); revert Hin; by rewrite HAB.
Qed.

#[export] Instance keeps_proper : Proper ((≡ₚ) ==> eq ==> eq ==> iff) keeps.
Proof. intros A B HAB s ? <- s' ? <-. unfold keeps. by rewrite HAB. Qed.

Lemma keeps_refl A s : keeps A s s.
Proof. unfold keeps. repeat (split; [done || lia|]). apply payload_same_refl. Qed.

Lemma keeps_trans A s1 s2 s3 : keeps A s1 s2 -> keeps A s2 s3 -> keeps A s1 s3.
Proof.
  intros (E1 & E2 & L1 & P1) (E3 & E4 & L2 & P2). unfold keeps.
  split; [congruence|]. split; [congruence|]. split; [lia|]. by eapply payload_same_trans.
Qed.

Lemma keeps_sub A B s s' : (forall b, b ∈ A -> b ∈ B) -> keeps B s s' -> keeps A s s'.
Proof.
  intros Hsub (? & ? & ? & P). split; [done|]. split; [done|]. split; [done|].
  intros a sz x Hin. apply (P a sz x). by apply Hsub.
Qed.

(** Live blocks are aligned, inside the heap and pairwise disjoint. *)
Lemma allocs_NoDup m p bs q : seg m p bs q -> NoDup (allocs p bs).
Proof.
  revert p. induction bs as [|[sz al] r IH]; intros p; cbn; [constructor|].
  intros [Hb Hs]. specialize (IH _ Hs). destruct al; [|done]. cbn. constructor; [|done].
  intros Hin. pose proof (allocs_bounds _ _ _ _ _ _ Hs Hin). destruct Hb. lia.
Qed.

Definition disjoint_from (p sz : Z) (A : list (Z * Z)) : Prop :=
  forall a z, (a, z) ∈ A -> p + sz <= a \/ a + z <= p.

Lemma live_disjoint s p sz A : live s ((p, sz) :: A) -> disjoint_from p sz A.
Proof.
  intros (bs & (_ & Hseg & _) & HA) a z Hin.
  pose proof (allocs_NoDup _ _ _ _ Hseg) as Hnd. fold (heap_base s) in Hnd, Hseg.
  rewrite HA in Hnd. apply list.NoDup_cons in Hnd as [Hnd _].
  destruct (allocs_disjoint _ _ _ _ p sz a z Hseg) as [E|?]; [rewrite HA..| |done];
    [by apply elem_of_cons; left|by apply elem_of_cons; right|].
  inversion E; subst. done.
Qed.

Lemma live_bounds s p sz A :
  live s A -> (p, sz) ∈ A ->
  p mod 8 = 0 /\ 16 <= sz < 2 ^ 31 /\ sz mod 8 = 0 /\ heap_base s <= p /\ p + sz <= mem_brk (ml s).
Proof.
  intros (bs & (Hgeo & Hseg & _) & HA) Hin. rewrite <- HA in Hin.
  destruct (allocs_split _ _ _ _ Hin) as (pre & suf & -> & ->).
  pose proof (allocs_bounds _ _ _ _ _ _ Hseg Hin).
  apply seg_mid in Hseg as (Hp & Hb & _). fold (heap_base s) in Hp, Hb.
  destruct (block_size_bounds _ _ _ _ Hb).
  pose proof (seg_mod8 _ _ _ _ Hp) as H8. destruct Hgeo as (_ & Hlo & _).
  unfold heap_base in *. split; [apply H8; by apply mod8_add|]. split; [done|]. split; [done|]. lia.
Qed.

(** * The operations on live blocks *)

Lemma find_place_ok s A n :
  live s A -> 16 <= n -> n mod 8 = 0 ->
  wpM (find_fit_block n) s (fun p s1 => s1 = s /\
    (p = NULL \/ p <> NULL /\ wpM (place p n) s (fun r s' => exists sz,
       n <= sz /\ live s' ((p, sz) :: A) /\ keeps A s s' /\
       mem_brk (ml s') = mem_brk (ml s) /\ total_free_size s' = total_free_size s))).
Proof.
  intros (bs & Hwf & HA) Hn Hn8. eapply wpM_mono; [by apply (find_fit_ok s bs)|].
  intros p ? (-> & [[-> _]|(pre & sz & suf & -> & Hle & -> & _)]); [by auto|].
  split; [done|]. right. pose proof Hwf as (Hgeo & Hseg & _).
  apply seg_mid in Hseg as (Hpre & Hb & _). pose proof (seg_le _ _ _ _ Hpre).
  fold (heap_base s) in *. split.
  { unfold NULL, heap_base in *. destruct Hgeo. lia. }
  set (p := heap_base s + bsize pre) in *.
  eapply wpM_mono; [apply (place_ok s pre sz false suf p n); done || lia|].
  intros r s' (_ & Hwf' & Hbase & Hbrk & Ht & Hk).
  exists (if 16 <? sz - n then n else sz). split; [zcase; lia|].
  rewrite allocs_mid in HA. cbn in HA. fold p in HA. rewrite <- HA.
  split; [|split; [eapply keeps_sub, Hk; intros b Hb'; by apply elem_of_cons; right|done]].
  exists (pre ++ placed sz n ++ suf). split; [done|]. rewrite Hbase.
  rewrite !allocs_app, bsize_placed. fold p. unfold placed.
  zcase; cbn; by rewrite <- Permutation_middle.
Qed.

Lemma coalesces_live s A :
  live s A ->
  wpM coalesces s (fun _ s' => live s' A /\ keeps A s s' /\
    mem_brk (ml s') = mem_brk (ml s) /\ total_free_size s' = total_free_size s).
Proof.
  intros (bs & Hwf & HA). eapply wpM_mono; [by apply coalesces_ok|].
  intros [] s' (bs' & Hwf' & Ha & Hp & E1 & E2 & E3 & E4).
  split; [exists bs'; split; [done|by rewrite Ha]|]. split; [|done].
  rewrite <- HA. split; [done|]. split; [done|]. split; [lia|done].
Qed.

Lemma maybe_coalesce_ok (b : bool) s A :
  live s A ->
  wpM (if b then coalesces else mret tt) s (fun _ s1 => live s1 A /\ keeps A s s1 /\
    mem_brk (ml s1) = mem_brk (ml s)).
Proof.
  intros Hl. destruct b; [|wM; auto using keeps_refl].
  eapply wpM_mono; [by apply coalesces_live|]. intros [] s1 (? & ? & ? & _). auto.
Qed.

Lemma free_ok s pre sz suf p :
  heap_wf s (pre ++ (sz, true) :: suf) -> p = heap_base s + bsize pre ->
  wpM (mm_free p) s (fun _ s' =>
    heap_wf s' (pre ++ (sz, false) :: suf) /\ heap_base s' = heap_base s /\
    total_free_size s' = u32 (total_free_size s + sz) /\
    mem_brk (ml s') = mem_brk (ml s) /\
    keeps ((p, sz) :: allocs (heap_base s) pre ++ allocs (p + sz) suf) s s').
Proof.
  unfold heap_base. rewrite (state_mk s). set (lo := mem_start_brk _). set (brk := mem_brk _).
  set (mx := mem_max_addr _). set (m := mem_bytes _). set (t := total_free_size _).
  rewrite heap_wf_mk. cbn [ml mk mem_start_brk]. intros (Hgeo & Hseg & He & Ht) Ep.
  apply seg_mid in Hseg as (Hpre & Hb & Hsuf). rewrite <- Ep in *.
  pose proof (seg_le _ _ _ _ Hpre). pose proof (seg_le _ _ _ _ Hsuf). pose proof (proj1 Hb).
  eapply (free_mem lo brk mx m t Hgeo); try done. intros m' Hb' Hout Hpay.
  split; [|split; [done|split; [done|split; [done|]]]].
  - rewrite heap_wf_mk. split; [done|]. split; [|split; [|apply u32_range]].
    + eapply seg_join; [eapply seg_agree, Hpre; intros; symmetry; apply Hout; lia|].
      split; [done|]. eapply seg_agree, Hsuf. intros. symmetry. apply Hout. lia.
    + eapply is_word_agree, He. intros. symmetry. apply Hout. lia.
  - split; [done|]. split; [done|]. split; [cbn; lia|].
    intros a z x [E|Hin]%elem_of_cons Hx.
    + inversion E; subst. apply Hpay. lia.
    + eapply (payload_around m m' _ _ _ _ _ _ _ Hpre Hsuf eq_refl); try done. lia.
Qed.

(** A live block is one of the blocks of the list, and the others are around it. *)
Lemma live_split s p sz A :
  live s ((p, sz) :: A) ->
  exists pre suf, heap_wf s (pre ++ (sz, true) :: suf) /\ p = heap_base s + bsize pre /\
    allocs (heap_base s) pre ++ allocs (p + sz) suf ≡ₚ A.
Proof.
  intros (bs & Hwf & HA).
  destruct (allocs_split (heap_base s) bs p sz) as (pre & suf & -> & Ep);
    [rewrite HA; by apply elem_of_cons; left|].
  exists pre, suf. split; [done|]. split; [done|].
  rewrite allocs_mid, <- Ep in HA. cbn in HA. rewrite <- Permutation_middle in HA.
  by apply Permutation_cons_inv in HA.
Qed.

Lemma mm_free_live s A p sz :
  live s ((p, sz) :: A) ->
  wpM (mm_free p) s (fun _ s' => live s' A /\
    total_free_size s' = u32 (total_free_size s + sz) /\
    mem_brk (ml s') = mem_brk (ml s) /\
    keeps ((p, sz) :: A) s s').
Proof.
  intros (pre & suf & Hwf & Ep & HA)%live_split. eapply wpM_mono; [by eapply free_ok|].
  intros [] s' (Hwf' & Hbase & Ht & Hb & Hk). rewrite HA in Hk.
  split; [|done]. exists (pre ++ (sz, false) :: suf). split; [done|].
  by rewrite Hbase, allocs_mid, <- Ep.
Qed.

Lemma sbrk_ok lo brk mx m t n (Q : Z -> mm_state -> Prop) :
  0 <= n < 2 ^ 31 -> brk + n <= mx -> Q brk (mk lo (brk + n) mx m t) ->
  wpM (sbrk n) (mk lo brk mx m t) Q.
Proof.
  intros Hn Hroom HQ. eexists _, _. split; [|exact HQ].
  unfold sbrk, mem_sbrk. rewrite s32_id by (unfold is_s32; lia). cbn.
  by replace ((n <? 0) || (mx <? brk + n)) with false by lia.
Qed.

(** Extending the heap by a block of [n] bytes. *)
Lemma grow_ok s A n :
  live s A -> 16 <= n -> n mod 8 = 0 -> mem_brk (ml s) + n <= mem_max_addr (ml s) ->
  wpM (sbrk n) s (fun p s1 => p = mem_brk (ml s) /\ p <> NULL /\
    wpM (new_block p n) s1 (fun _ s' =>
      live s' ((p, n) :: A) /\ keeps A s s' /\
      mem_brk (ml s') = mem_brk (ml s) + n /\ total_free_size s' = total_free_size s)).
Proof.
  intros (bs & Hwf & HA). revert Hwf HA. unfold live, heap_base. rewrite (state_mk s).
  set (lo := mem_start_brk _). set (brk := mem_brk _). set (mx := mem_max_addr _).
  set (m := mem_bytes _). set (t := total_free_size _).
  cbn [ml mk mem_start_brk total_free_size mem_brk mem_max_addr].
  rewrite heap_wf_mk. intros (Hgeo & Hseg & He & Ht) HA Hn Hn8 Hroom.
  pose proof Hgeo as (? & ? & ? & ? & ? & HM). change MAX_HEAP with 20971520 in HM.
  apply sbrk_ok; [lia|lia|]. split; [done|]. split; [unfold NULL; lia|].
  eapply (new_block_mem lo brk mx m t Hgeo); try done. intros m' Hs' He' Hout Hpay.
  split; [|split; [|done]].
  - exists (bs ++ [(n, true)]). split; [|cbn [ml mk mem_start_brk]].
    + rewrite heap_wf_mk. split; [|done]. repeat split; try (done || lia).
    + rewrite allocs_snoc, HA, <- (seg_end _ _ _ _ Hseg). by rewrite Permutation_app_comm.
  - rewrite <- HA. split; [done|]. split; [done|]. split; [cbn; lia|].
    intros a z x Hin Hx. apply Hout. pose proof (allocs_bounds _ _ _ _ _ _ Hseg Hin). lia.
Qed.

Lemma final_free_ok s A : live s A -> wpM final_free_size s (fun _ s' => s' = s).
Proof.
  intros (bs & Hwf & _). revert Hwf. rewrite (state_mk s).
  set (lo := mem_start_brk _). set (brk := mem_brk _). set (mx := mem_max_addr _).
  set (m := mem_bytes _). set (t := total_free_size _).
  rewrite heap_wf_mk. intros (Hgeo & Hseg & _). pose proof Hgeo as (? & ? & ? & ? & ? & HM).
  unfold final_free_size, mem_heapsize, mem_heap_hi, GET_ALLOC, GET_SIZE. wM. wM.
  cbn [ml mk mem_start_brk mem_brk]. change SIZE_T_SIZE with 8.
  destruct (Z.eqb_spec (brk - lo) 8); [by wM|].
  assert (lo + 24 <= brk).
  { destruct bs as [|[sz al] r]; cbn in Hseg; [lia|]. destruct Hseg as [[? _] Hr].
    apply seg_le in Hr. lia. }
  do 2 wM. apply wpM_GET; [lia|lia|]. wM. destruct (negb _); [by wM|].
  wM. apply wpM_GET; [lia|lia|]. by wM.
Qed.

(** A write of [f] that stays inside the payload of one live block. *)
Lemma write_payload s A p sz f :
  live s ((p, sz) :: A) ->
  (forall x, x < p \/ p + sz - 16 <= x -> f (mem_bytes (ml s)) x = mem_bytes (ml s) x) ->
  live (with_mem f s) ((p, sz) :: A) /\ keeps A s (with_mem f s).
Proof.
  intros Hl Hf. pose proof (live_disjoint _ _ _ _ Hl) as Hdis.
  destruct Hl as (bs & Hwf & HA).
  destruct (allocs_split (heap_base s) bs p sz) as (pre & suf & -> & Ep);
    [rewrite HA; by apply elem_of_cons; left|].
  pose proof Hwf as (Hgeo & Hseg & He & Ht). fold (heap_base s) in Hseg.
  apply seg_mid in Hseg as (Hpre & Hb & Hsuf). rewrite <- Ep in *.
  pose proof (seg_le _ _ _ _ Hpre). pose proof (seg_le _ _ _ _ Hsuf).
  destruct Hb as (Hsz & Hh & Hft).
  assert (Hag : forall b e, e <= p \/ p + sz - 16 <= b ->
    forall x, b <= x < e -> mem_bytes (ml s) x = mem_bytes (ml (with_mem f s)) x)
    by (intros b e Hbe x Hx; cbn; rewrite Hf; [done|lia]).
  split.
  - exists (pre ++ (sz, true) :: suf). split; [|done]. split; [done|].
    split; [|split; [eapply is_word_agree, He; apply Hag; cbn; lia|done]].
    eapply seg_join; [eapply seg_agree, Hpre; apply Hag; lia|].
    split; [|eapply seg_agree, Hsuf; apply Hag; lia].
    split; [done|]. split; eapply is_word_agree; try eassumption; apply Hag; lia.
  - split; [done|]. split; [done|]. split; [cbn; lia|].
    intros a z x Hin Hx. cbn. apply Hf. specialize (Hdis a z Hin). lia.
Qed.

Lemma mm_malloc_live s A size :
  live s A -> 0 < size <= MAX_HEAP ->
  mem_brk (ml s) + block_size size <= mem_max_addr (ml s) ->
  wpM (mm_malloc size) s (fun p s' => exists sz,
    block_size size <= sz /\ live s' ((p, sz) :: A) /\ keeps A s s' /\
    mem_brk (ml s') <= mem_brk (ml s) + block_size size).
Proof.
  intros Hl Hsize Hroom. destruct (block_size_spec size) as [H8 Hbs]; [lia|].
  unfold mm_malloc. fold (block_size size). set (n := block_size size) in *.
  assert (Hn : 16 <= n < 2 ^ 31) by (change MAX_HEAP with 20971520 in Hsize; lia).
  destruct (Z.eqb_spec size 0); [lia|]. wM. eapply wpM_mono; [by apply (find_place_ok s A n); [|lia|]|].
  intros p ? (-> & [->|[Hp Hpl]]).
  2: { destruct (Z.eqb_spec p NULL); [done|]. cbn [negb]. wM. eapply wpM_mono; [exact Hpl|].
       intros r s' (sz & ? & ? & ? & E & _). wM. exists sz. rewrite E. auto with lia. }
  cbn [negb Z.eqb NULL]. wM. wM. wM.
  eapply wpM_mono; [by apply maybe_coalesce_ok|].
  intros [] s1 (Hl1 & Hk1 & Hb1). wM. eapply wpM_mono; [by apply (find_place_ok s1 A n); [|lia|]|].
  intros p ? (-> & [->|[Hp Hpl]]).
  2: { destruct (Z.eqb_spec p NULL); [done|]. cbn [negb]. wM. eapply wpM_mono; [exact Hpl|].
       intros r s' (sz & ? & ? & ? & E & _). wM. exists sz. rewrite E, Hb1.
       split; [done|]. split; [done|]. split; [by eapply keeps_trans|lia]. }
  cbn [negb Z.eqb NULL]. wM. eapply wpM_mono; [by eapply final_free_ok|]. intros fs ? ->.
  replace (if negb (fs =? 0) then u32 (n - 0) else n) with n
    by (rewrite Z.sub_0_r, u32_id by (unfold is_u32; lia); by destruct (fs =? 0)).
  wM. eapply wpM_mono; [apply (grow_ok s1 A n); [done|lia|done|]|].
  { rewrite Hb1. destruct Hk1 as (_ & -> & _). done. }
  intros p s2 (-> & Hp & Hnb). destruct (Z.eqb_spec (mem_brk (ml s1)) NULL); [done|].
  cbn [negb]. change (0 =? 0) with true. cbn [negb]. wM. eapply wpM_mono; [exact Hnb|].
  intros [] s' (Hl' & Hk & Hb & _). wM. exists n.
  split; [lia|]. split; [done|]. split; [by eapply keeps_trans|lia].
Qed.

(** The three ways [mm_realloc] moves a block end in this: the block [q] was
    just made, the old payload is copied and the old block freed. *)
Lemma move_ok s A p sz q zq :
  live s ((q, zq) :: (p, sz) :: A) -> sz <= zq ->
  wpM (c_memcpy q p (sz - 16);; mm_free p;; mret q) s (fun r s' => r = q /\
    live s' ((q, zq) :: A) /\ keeps A s s' /\ mem_brk (ml s') = mem_brk (ml s) /\
    forall i, 0 <= i < sz - 16 -> mem_bytes (ml s') (q + i) = mem_bytes (ml s) (p + i)).
Proof.
  intros Hl Hle.
  assert (Hq : (q, zq) ∈ (q, zq) :: (p, sz) :: A) by (apply elem_of_cons; auto).
  assert (Hp : (p, sz) ∈ (q, zq) :: (p, sz) :: A) by (rewrite !elem_of_cons; auto).
  destruct (live_bounds _ _ _ _ Hl Hq) as (_ & ? & _ & ? & ?).
  destruct (live_bounds _ _ _ _ Hl Hp) as (_ & ? & _ & ? & ?).
  assert (Hgeo := Hl). destruct Hgeo as (bs & (Hgeo & _) & _).
  destruct Hgeo as (? & ? & ? & ? & ? & _). unfold heap_base in *.
  destruct (write_payload s ((p, sz) :: A) q zq (fun m => memcpy m q p (sz - 16)) Hl) as [Hl1 Hk1].
  { intros x Hx. unfold memcpy. by replace (_ && _) with false by lia. }
  wM. exists tt, (with_mem (fun m => memcpy m q p (sz - 16)) s). split.
  { unfold c_memcpy, in_storage. by replace (_ && _ && _) with true by lia. }
  wM. rewrite (perm_swap (p, sz) (q, zq)) in Hl1.
  eapply wpM_mono; [apply (mm_free_live _ _ _ _ Hl1)|].
  intros [] s' (Hl2 & _ & Hb2 & Hk2). wM. split; [done|]. split; [done|]. split; [|split; [done|]].
  - eapply keeps_trans; [|eapply keeps_sub, Hk2; intros b Hb; rewrite !elem_of_cons; auto].
    eapply keeps_sub, Hk1. intros b Hb; rewrite !elem_of_cons; auto.
  - intros i Hi. destruct Hk2 as (_ & _ & _ & Hk2). rewrite (Hk2 q zq (q + i)).
    + cbn. unfold memcpy. replace (_ && _) with true by lia. f_equal. lia.
    + rewrite !elem_of_cons. auto.
    + lia.
Qed.

(** [place] on a live block shrinks it. *)
Lemma shrink_ok s A p sz n :
  live s ((p, sz) :: A) -> 16 <= n <= sz -> n mod 8 = 0 ->
  wpM (place p n) s (fun _ s' => exists z, n <= z /\ live s' ((p, z) :: A) /\
    keeps ((p, n) :: A) s s' /\ mem_brk (ml s') = mem_brk (ml s)).
Proof.
  intros (pre & suf & Hwf & Ep & HA)%live_split Hn Hn8.
  eapply wpM_mono; [by eapply (place_ok s pre sz true suf p n)|].
  intros r s' (_ & Hwf' & Hbase & Hbrk & Ht & Hk). rewrite HA in Hk.
  exists (if 16 <? sz - n then n else sz). split; [zcase; lia|]. split; [|done].
  exists (pre ++ placed sz n ++ suf). split; [done|]. rewrite Hbase, <- HA.
  rewrite !allocs_app, bsize_placed, <- Ep. unfold placed.
  zcase; cbn; by rewrite <- Permutation_middle.
Qed.

(** The old payload, up to [n] bytes, is at the start of the new block. *)
Definition moved (s s' : mm_state) (p q n : Z) : Prop :=
  forall i, 0 <= i < n -> mem_bytes (ml s') (q + i) = mem_bytes (ml s) (p + i).

Lemma moved_keeps s s1 s2 A p sz q n :
  keeps ((p, sz) :: A) s s1 -> n <= sz - 16 -> moved s1 s2 p q n -> moved s s2 p q n.
Proof.
  intros (_ & _ & _ & Hk) Hn Hm i Hi. rewrite Hm by lia. apply (Hk p sz); [|lia].
  by apply elem_of_cons; left.
Qed.

Lemma wpM_hdr_size s A p sz (Q : Z -> mm_state -> Prop) :
  live s A -> (p, sz) ∈ A -> Q sz s -> wpM (GET_SIZE (HDRP p)) s Q.
Proof.
  intros (bs & Hwf & HA) Hin HQ. rewrite <- HA in Hin.
  destruct (allocs_split (heap_base s) bs p sz) as (pre & suf & -> & Ep); [done|].
  revert Hwf. unfold heap_base in *. rewrite (state_mk s) in *. cbn [ml mk mem_start_brk] in *.
  rewrite heap_wf_mk. intros (Hgeo & Hseg & _). apply seg_mid in Hseg as (Hpre & Hb & Hsuf).
  rewrite <- Ep in *. pose proof (seg_le _ _ _ _ Hpre). pose proof (seg_le _ _ _ _ Hsuf).
  destruct (block_size_bounds _ _ _ _ Hb) as [Hsz _]. destruct Hb as (_ & Hw & _).
  destruct Hgeo as (? & ? & ? & ? & ? & _). by wM.
Qed.

Lemma wpM_DATA_SIZE s A p sz (Q : Z -> mm_state -> Prop) :
  live s A -> (p, sz) ∈ A -> Q (sz - 16) s -> wpM (DATA_SIZE (HDRP p)) s Q.
Proof.
  intros Hl Hin HQ. destruct (live_bounds _ _ _ _ Hl Hin) as (_ & Hsz & _).
  unfold DATA_SIZE. wM. eapply wpM_hdr_size; [done..|]. wM.
  change (2 * SIZE_T_SIZE) with 16. by rewrite u32_id by (unfold is_u32; lia).
Qed.

(** What [mm_realloc] promises for the block [(p, sz)]. *)
Definition realloc_post (s : mm_state) (A : list (Z * Z)) (p sz size q : Z) (s' : mm_state) : Prop :=
  exists zq, block_size size <= zq /\ live s' ((q, zq) :: A) /\ keeps A s s' /\
    moved s s' p q (Z.min (sz - 16) size) /\
    mem_brk (ml s') <= mem_brk (ml s) + block_size size.

Lemma move_post s s1 s2 A p sz q zq size :
  keeps ((p, sz) :: A) s s1 -> mem_brk (ml s1) = mem_brk (ml s) ->
  keeps ((p, sz) :: A) s1 s2 -> mem_brk (ml s2) <= mem_brk (ml s) + block_size size ->
  live s2 ((q, zq) :: (p, sz) :: A) -> sz <= zq -> block_size size <= zq ->
  wpM (c_memcpy q p (sz - 16);; mm_free p;; mret q) s2 (realloc_post s A p sz size).
Proof.
  intros Hk1 Hb1 Hk2 Hb2 Hl Hz Hz2. pose proof (keeps_trans _ _ _ _ Hk1 Hk2) as Hk.
  eapply wpM_mono; [by apply move_ok|]. intros r s' (-> & Hl' & Hk' & Hb' & Hm).
  exists zq. split; [done|]. split; [done|].
  split; [eapply keeps_trans, Hk'; eapply keeps_sub, Hk; intros b ?; by apply elem_of_cons; right|].
  split; [|lia]. eapply moved_keeps; [exact Hk|lia|]. intros i Hi. apply Hm. lia.
Qed.

Lemma mm_realloc_live s A p sz size :
  live s ((p, sz) :: A) -> 0 < size <= MAX_HEAP ->
  mem_brk (ml s) + block_size size <= mem_max_addr (ml s) ->
  wpM (mm_realloc p size) s (realloc_post s A p sz size).
Proof.
  intros Hl Hsize Hroom. destruct (block_size_spec size) as [H8 Hbs]; [lia|].
  assert (Hin : (p, sz) ∈ (p, sz) :: A) by (apply elem_of_cons; auto).
  destruct (live_bounds _ _ _ _ Hl Hin) as (_ & Hsz & _ & Hp & _).
  assert (p <> NULL).
  { destruct Hl as (? & ((? & _) & _) & _). unfold NULL, heap_base in *. lia. }
  unfold mm_realloc. fold (block_size size). set (n := block_size size) in *.
  assert (Hn : 16 <= n < 2 ^ 31) by (change MAX_HEAP with 20971520 in Hsize; lia).
  destruct (Z.eqb_spec size 0); [lia|]. wM. wM. destruct (Z.eqb_spec p NULL); [done|].
  wM. eapply wpM_hdr_size; [done..|]. wM. eapply wpM_DATA_SIZE; [done..|].
  destruct (Z.eqb_spec sz n).
  { wM. exists sz. split; [lia|]. split; [done|]. split; [apply keeps_refl|].
    split; [by intros i Hi|lia]. }
  destruct (Z.ltb_spec n sz).
  { wM. eapply wpM_mono; [apply (shrink_ok _ _ _ _ n Hl); [lia|done]|].
    intros _ s' (z & Hz & Hl' & Hk & Hb). wM. exists z. split; [done|]. split; [done|].
    split; [eapply keeps_sub, Hk; intros b ?; by apply elem_of_cons; right|].
    split; [|lia]. eapply moved_keeps; [exact Hk|lia|]. by intros i Hi. }
  wM. eapply wpM_mono; [by apply (find_place_ok s _ n Hl); [lia|]|].
  intros q ? (-> & [->|[Hq Hpl]]).
  2: { destruct (Z.eqb_spec q NULL); [done|]. cbn [negb]. wM. eapply wpM_mono; [exact Hpl|].
       intros r s' (zq & ? & ? & ? & E & _).
       eapply (move_post s s s'); try done; first [apply keeps_refl|fold n; lia]. }
  cbn [negb Z.eqb NULL]. wM. wM. wM.
  eapply wpM_mono; [by apply maybe_coalesce_ok|].
  intros [] s1 (Hl1 & Hk1 & Hb1). wM. eapply wpM_mono; [by apply (find_place_ok s1 _ n Hl1); [lia|]|].
  intros q ? (-> & [->|[Hq Hpl]]).
  2: { destruct (Z.eqb_spec q NULL); [done|]. cbn [negb]. wM. eapply wpM_mono; [exact Hpl|].
       intros r s' (zq & ? & ? & ? & E & _). eapply (move_post s s1 s'); try done; fold n; lia. }
  cbn [negb Z.eqb NULL]. wM. eapply wpM_mono; [apply (grow_ok s1 _ n Hl1); [lia|done|]|].
  { rewrite Hb1. destruct Hk1 as (_ & -> & _). done. }
  intros q s2 (-> & Hq & Hnb). destruct (Z.eqb_spec (mem_brk (ml s1)) NULL); [done|].
  wM. eapply wpM_mono; [exact Hnb|]. intros [] s' (Hl' & Hk & Hb & _).
  eapply (move_post s s1 s'); try done; fold n; lia.
Qed.

(** [mm_init] on storage whose break was reset: an empty heap. *)
Definition fresh (l : memlib) : Prop :=
  0 <= mem_start_brk l /\ mem_start_brk l mod 8 = 0 /\ mem_brk l = mem_start_brk l /\
  mem_max_addr l = mem_start_brk l + MAX_HEAP /\ mem_max_addr l < 2 ^ 32 - 1.

Lemma mm_init_live s :
  fresh (ml s) -> 0 <= total_free_size s < 2 ^ 32 ->
  wpM mm_init s (fun r s' => r = 0 /\ live s' [] /\
    mem_start_brk (ml s') = mem_start_brk (ml s) /\ mem_max_addr (ml s') = mem_max_addr (ml s) /\
    mem_brk (ml s') = mem_brk (ml s) + 8 /\ total_free_size s' = total_free_size s).
Proof.
  destruct s as [[lo brk mx m] t]. unfold fresh, live, heap_base. cbn. intros (H0 & H8 & -> & HM & Hmx) Ht.
  change MAX_HEAP with 20971520 in HM. change (MkMm _ t) with (mk lo lo mx m t).
  unfold mm_init. change SIZE_T_SIZE with 8. change (PACK 0 7) with (0 + 7). wM.
  apply sbrk_ok; [lia|lia|]. wM. wM. wM. split; [done|]. split; [|done].
  exists []. split; [|done]. rewrite heap_wf_mk. split; [|split; [done|split; [|done]]].
  - unfold geom. change MAX_HEAP with 20971520. repeat split; (done || lia).
  - word.
Qed.

(** * The contract of the allocator *)

(** C1: on a well-formed heap with live blocks A and room for the request, mm_malloc
    returns an 8-byte aligned block of at least size bytes inside the heap and disjoint
    from every live block; the heap stays well formed and no payload byte of A changes. *)
Theorem mm_malloc_spec s A size :
  live s A -> 0 < size <= MAX_HEAP ->
  mem_brk (ml s) + block_size size <= mem_max_addr (ml s) ->
  exists p sz s', mm_malloc size s = Ok (p, s') /\
    live s' ((p, sz) :: A) /\ p mod ALIGNMENT = 0 /\ size + 2 * SIZE_T_SIZE <= sz /\
    disjoint_from p sz A /\
    mem_heap_lo (ml s') + SIZE_T_SIZE <= p /\ p + sz <= mem_heap_hi (ml s') + 1 /\
    payload_same A (mem_bytes (ml s)) (mem_bytes (ml s')).
Proof.
  intros Hl Hsize Hroom.
  destruct (mm_malloc_live s A size Hl Hsize Hroom) as (p & s' & E & sz & Hsz & Hl' & Hk & _).
  destruct (block_size_spec size) as [_ ?]; [lia|].
  destruct (live_bounds s' p sz _ Hl') as (Hp8 & _ & _ & ? & ?); [by apply elem_of_cons; left|].
  unfold heap_base, mem_heap_lo, mem_heap_hi in *.
  change (2 * SIZE_T_SIZE) with 16. change SIZE_T_SIZE with 8.
  exists p, sz, s'. split; [done|]. split; [done|]. split; [done|]. split; [lia|].
  split; [by eapply live_disjoint|]. split; [lia|]. split; [lia|apply Hk].
Qed.

(** C7: mm_free of a live block removes exactly this block from the live blocks, keeps
    every other payload and adds the block size to total_free_size modulo 2^32. *)
Theorem mm_free_spec s A p sz :
  live s ((p, sz) :: A) ->
  exists s', mm_free p s = Ok (tt, s') /\ live s' A /\
    total_free_size s' = u32 (total_free_size s + sz) /\
    mem_brk (ml s') = mem_brk (ml s) /\
    payload_same A (mem_bytes (ml s)) (mem_bytes (ml s')).
Proof.
  intros Hl. destruct (mm_free_live s A p sz Hl) as ([] & s' & E & Hl' & Ht & Hb & Hk).
  exists s'. split; [done|]. split; [done|]. split; [done|]. split; [done|].
  intros a z x Hin. apply Hk. by apply elem_of_cons; right.
Qed.

(** C2: mm_realloc of a live block returns an aligned block of the new size, disjoint
    from the others, that starts with the first min(old payload, size) bytes of the old
    block; the payloads of all other live blocks are kept. *)
Theorem mm_realloc_spec s A p sz size :
  live s ((p, sz) :: A) -> 0 < size <= MAX_HEAP ->
  mem_brk (ml s) + block_size size <= mem_max_addr (ml s) ->
  exists q zq s', mm_realloc p size s = Ok (q, s') /\
    live s' ((q, zq) :: A) /\ q mod ALIGNMENT = 0 /\ size + 2 * SIZE_T_SIZE <= zq /\
    disjoint_from q zq A /\
    (forall i, 0 <= i < Z.min (sz - 2 * SIZE_T_SIZE) size ->
       mem_bytes (ml s') (q + i) = mem_bytes (ml s) (p + i)) /\
    payload_same A (mem_bytes (ml s)) (mem_bytes (ml s')).
Proof.
  intros Hl Hsize Hroom.
  destruct (mm_realloc_live s A p sz size Hl Hsize Hroom)
    as (q & s' & E & zq & Hz & Hl' & Hk & Hm & _).
  destruct (block_size_spec size) as [_ ?]; [lia|].
  destruct (live_bounds s' q zq _ Hl') as (Hp8 & _); [by apply elem_of_cons; left|].
  exists q, zq, s'. split; [done|]. split; [done|]. split; [done|].
  change (2 * SIZE_T_SIZE) with 16. split; [lia|].
  split; [by eapply live_disjoint|]. split; [exact Hm|apply Hk].
Qed.

(** C6: the coalescing pass terminates on every well-formed heap and keeps the block
    list well formed, the allocated blocks with their payload bytes, and the break. *)
Theorem coalesces_spec s bs :
  heap_wf s bs ->
  exists s' bs', coalesces s = Ok (tt, s') /\ heap_wf s' bs' /\
    allocs (heap_base s') bs' = allocs (heap_base s) bs /\
    keeps (allocs (heap_base s) bs) s s' /\ mem_brk (ml s') = mem_brk (ml s).
Proof.
  intros Hwf. destruct (coalesces_ok s bs Hwf) as ([] & s' & E & bs' & ? & ? & ? & ? & ? & ? & _).
  exists s', bs'. split; [done|]. split; [done|]. split; [done|]. split; [|done].
  split; [done|]. split; [done|]. split; [lia|done].
Qed.

(** find_fit_block is first fit: it returns the first free block of the list that is
    large enough, or NULL when every block is allocated or too small. *)
Theorem find_fit_block_spec s bs n :
  heap_wf s bs ->
  exists p, find_fit_block n s = Ok (p, s) /\
    ((p = NULL /\ Forall (unfit n) bs) \/
     exists pre sz suf, bs = pre ++ (sz, false) :: suf /\ n <= sz /\
       p = heap_base s + bsize pre /\ Forall (unfit n) pre).
Proof. intros Hwf. destruct (find_fit_ok s bs n Hwf) as (p & ? & E & -> & H). by exists p. Qed.

(** * Where the code departs from malloc(3) *)

Lemma find_fit_none s bs n :
  heap_wf s bs -> Forall (unfit n) bs -> find_fit_block n s = Ok (NULL, s).
Proof.
  intros Hwf Hun. destruct (find_fit_ok s bs n Hwf) as (p & ? & E & -> & [[-> _]|H]); [done|].
  destruct H as (pre & sz & suf & -> & Hle & _). apply Forall_app in Hun as [_ Hun].
  inversion Hun as [|? ? [H|H]]; cbn in H; [done|lia].
Qed.

(** C14: when no block fits, coalescing is not tried and the storage is exhausted,
    mm_malloc does not return NULL: it takes the failure value -1 of mem_sbrk for an
    address and writes outside the storage. *)
Theorem mm_malloc_exhausted s bs size :
  heap_wf s bs -> 0 < size <= MAX_HEAP ->
  Forall (unfit (block_size size)) bs -> total_free_size s < block_size size ->
  mem_max_addr (ml s) < mem_brk (ml s) + block_size size ->
  mm_malloc size s = Fault OutOfBounds.
Proof.
  intros Hwf Hsize Hun Ht Hfull. destruct (block_size_spec size) as [H8 Hbs]; [lia|].
  unfold mm_malloc. fold (block_size size). set (n := block_size size) in *.
  assert (Hn : 16 <= n < 2 ^ 31) by (change MAX_HEAP with 20971520 in Hsize; lia).
  destruct (Z.eqb_spec size 0); [lia|]. unfold mbind, M_bind.
  rewrite (find_fit_none s bs n Hwf Hun). cbn [negb Z.eqb NULL get_total].
  destruct (Z.leb_spec n (total_free_size s)); [lia|]. unfold mret, M_ret.
  rewrite (find_fit_none s bs n Hwf Hun). cbn [negb Z.eqb NULL].
  destruct (final_free_ok s _ (ex_intro _ bs (conj Hwf (reflexivity _)))) as (fs & ? & -> & ->).
  replace (if negb (fs =? 0) then u32 (n - 0) else n) with n
    by (rewrite Z.sub_0_r, u32_id by (unfold is_u32; lia); by destruct (fs =? 0)).
  unfold sbrk, mem_sbrk. rewrite s32_id by (unfold is_s32; lia).
  replace (_ || _) with true by lia. cbn [Z.eqb void_minus_1 negb].
  change (void_minus_1 =? NULL) with false. cbn [negb]. change (0 =? 0) with true. cbn [negb].
  unfold new_block, mbind, M_bind, PUT, in_storage. cbn [ml].
  destruct Hwf as ((? & Hlo8 & ? & ? & Hmx & HM) & _). change MAX_HEAP with 20971520 in HM.
  change (HDRP void_minus_1 + 4) with (2 ^ 32 - 5). rewrite HM in *.
  apply Z.mod_divide in Hlo8 as [k Hk]; [|lia]. by replace (_ && _) with false by lia.
Qed.

(** What the header of a free block says to [mm_realloc]. *)
Lemma hdr_free s pre sz suf p :
  heap_wf s (pre ++ (sz, false) :: suf) -> p = heap_base s + bsize pre ->
  GET_SIZE (HDRP p) s = Ok (sz, s) /\ DATA_SIZE (HDRP p) s = Ok (sz - 16, s).
Proof.
  unfold heap_base. rewrite (state_mk s). cbn [ml mk mem_start_brk].
  rewrite heap_wf_mk. intros (Hgeo & Hseg & _) Ep.
  apply seg_mid in Hseg as (Hpre & Hb & Hsuf). rewrite <- Ep in *.
  pose proof (seg_le _ _ _ _ Hpre). pose proof (seg_le _ _ _ _ Hsuf).
  destruct (block_size_bounds _ _ _ _ Hb) as [Hsz _]. destruct Hb as (_ & Hw & _).
  destruct Hgeo as (? & ? & ? & ? & ? & _).
  match goal with |- GET_SIZE _ ?st = _ /\ _ =>
    assert (E : GET_SIZE (HDRP p) st = Ok (sz, st))
      by (enough (W : wpM (GET_SIZE (HDRP p)) st (fun r s' => r = sz /\ s' = st))
            by (destruct W as (? & ? & ? & -> & ->); done); by wM) end.
  split; [exact E|]. unfold DATA_SIZE, mbind, M_bind. rewrite E.
  unfold mret, M_ret. change (2 * SIZE_T_SIZE) with 16. by rewrite u32_id by (unfold is_u32; lia).
Qed.

(** mm_realloc(p, 0) frees the block and then marks it allocated again: it returns
    p and the block stays live. *)
Theorem mm_realloc_zero_keeps_block s A p sz :
  live s ((p, sz) :: A) -> 2 * SIZE_T_SIZE < sz ->
  exists z s', mm_realloc p 0 s = Ok (p, s') /\ live s' ((p, z) :: A).
Proof.
  change (2 * SIZE_T_SIZE) with 16. intros Hl Hsz.
  assert (Hin : (p, sz) ∈ (p, sz) :: A) by (apply elem_of_cons; auto).
  destruct (live_bounds _ _ _ _ Hl Hin) as (_ & Hsz2 & _ & Hp & _).
  destruct (live_split _ _ _ _ Hl) as (pre & suf & Hwf & Ep & HA).
  enough (H : wpM (mm_realloc p 0) s (fun r s' => r = p /\ exists z, live s' ((p, z) :: A))).
  { destruct H as (? & s' & E & -> & z & H). by exists z, s'. }
  unfold mm_realloc. cbn [Z.eqb]. wM. eapply wpM_mono; [by eapply free_ok|].
  intros [] s1 (Hwf1 & Hbase & _ & _ & _). destruct (Z.eqb_spec p NULL) as [E|_].
  { destruct Hwf as ((? & _) & _). unfold NULL, heap_base in *. lia. }
  change (u32 (ALIGN 0 + 2 * SIZE_T_SIZE)) with 16.
  destruct (hdr_free s1 pre sz suf p Hwf1) as [Hg Hd]; [congruence|].
  wM. eexists _, _. split; [exact Hg|]. wM. eexists _, _. split; [exact Hd|].
  destruct (Z.eqb_spec sz 16); [lia|]. destruct (Z.ltb_spec 16 sz); [|lia].
  wM. eapply wpM_mono; [eapply (place_ok s1 pre sz false suf p 16 Hwf1); [congruence|lia|done]|].
  intros r s2 (_ & Hwf2 & Hbase2 & _). wM. split; [done|].
  exists (if 16 <? sz - 16 then 16 else sz). exists (pre ++ placed sz 16 ++ suf). split; [done|].
  rewrite Hbase2, Hbase, <- HA, !allocs_app, bsize_placed, <- Ep. unfold placed.
  zcase; cbn; by rewrite <- Permutation_middle.
Qed.

(** * Concrete heaps *)

(** An initialised heap in storage at 4096, empty and with one live block of 24 bytes. *)
Definition demo0 : mm_state := mk 4096 4104 (4096 + MAX_HEAP) (store32 (fun _ => 0) 4096 7) 0.
Definition demo1 : mm_state := mk 4096 4128 (4096 + MAX_HEAP)
  (store32 (store32 (store32 (fun _ => 0) 4096 25) 4112 25) 4120 7) 0.

Ltac demo_word := split; [reflexivity|split; [reflexivity|lia]].

Lemma demo_geom brk : 4104 <= brk <= 8192 -> geom 4096 brk (4096 + MAX_HEAP).
Proof. unfold geom. change MAX_HEAP with 20971520. intros H. repeat split; (done || lia). Qed.

Lemma demo1_wf : heap_wf demo1 [(24, true)].
Proof.
  unfold demo1. rewrite heap_wf_mk. split; [apply demo_geom; lia|].
  split; [split; [split; [lia|split; demo_word]|done]|]. split; [demo_word|lia].
Qed.

Lemma demo1_live : live demo1 [(4104, 24)].
Proof. exists [(24, true)]. split; [apply demo1_wf|reflexivity]. Qed.

Lemma mm_malloc_spec_witness :
  exists p sz s', mm_malloc 5 demo1 = Ok (p, s') /\ live s' [(p, sz); (4104, 24)].
Proof.
  destruct (mm_malloc_spec demo1 [(4104, 24)] 5 demo1_live) as (p & sz & s' & E & Hl & _);
    [vm_compute; intuition congruence..|].
  exists p, sz, s'. exact (conj E Hl).
Defined.

Lemma mm_free_spec_witness : exists s', mm_free 4104 demo1 = Ok (tt, s') /\ live s' [].
Proof.
  destruct (mm_free_spec demo1 [] 4104 24 demo1_live) as (s' & E & Hl & _).
  exists s'. exact (conj E Hl).
Defined.

Lemma mm_realloc_spec_witness :
  exists q zq s', mm_realloc 4104 100 demo1 = Ok (q, s') /\ live s' [(q, zq)].
Proof.
  destruct (mm_realloc_spec demo1 [] 4104 24 100 demo1_live) as (q & zq & s' & E & Hl & _);
    [vm_compute; intuition congruence..|].
  exists q, zq, s'. exact (conj E Hl).
Defined.

Lemma coalesces_spec_witness :
  exists s' bs', coalesces demo1 = Ok (tt, s') /\ heap_wf s' bs'.
Proof.
  destruct (coalesces_spec demo1 [(24, true)] demo1_wf) as (s' & bs' & E & Hwf & _).
  exists s', bs'. exact (conj E Hwf).
Defined.

Lemma find_fit_block_spec_witness : exists p, find_fit_block 24 demo1 = Ok (p, demo1).
Proof.
  destruct (find_fit_block_spec demo1 [(24, true)] 24 demo1_wf) as (p & E & _).
  exists p. exact E.
Defined.

Lemma mm_malloc_exhausted_witness : mm_malloc MAX_HEAP demo1 = Fault OutOfBounds.
Proof.
  apply (mm_malloc_exhausted demo1 [(24, true)] MAX_HEAP demo1_wf).
  - vm_compute; intuition congruence.
  - constructor; [left; reflexivity|constructor].
  - vm_compute; reflexivity.
  - vm_compute; reflexivity.
Defined.

Lemma mm_realloc_zero_keeps_block_witness :
  exists z s', mm_realloc 4104 0 demo1 = Ok (4104, s') /\ live s' [(4104, z)].
Proof. apply (mm_realloc_zero_keeps_block demo1 [] 4104 24 demo1_live). reflexivity. Defined.

(** Five requests, the first four blocks freed, then the coalescing pass; the
    header and footer words of the block at the start of the heap. *)
Definition coalesce_run : M (Z * Z) :=
  mm_init;;
  a ← mm_malloc 10; b ← mm_malloc 20; c ← mm_malloc 30; d ← mm_malloc 8; e ← mm_malloc 100;
  mm_free a;; mm_free b;; mm_free c;; mm_free d;;
  coalesces;;
  h ← GET (HDRP a); f ← (x ← FTRP a; GET x); mret (h, f).

(** after five requests and the release of the first four blocks, coalesces leaves
    a merged block whose header says 144 bytes and whose footer says 72. *)
Theorem coalesces_leaves_wrong_footer :
  exists s', coalesce_run (mk 4096 4096 (4096 + MAX_HEAP) (fun _ => 0) 0) = Ok ((144, 72), s').
Proof. eexists. vm_compute. reflexivity. Qed.
