(* ===== verification/MmTotal.v ===== *)
(** [mm_malloc] and [mm_realloc] on every live heap and for every positive size of
    type int: the request is served, or the heap is full for it and the failure
    value of [mem_sbrk] is used as an address. *)

From S2P Require Import Prelude MemLib Mm MmHeap MmCoalesce MmSpec.
Import Macros.

(** * A heap that is full for a block of [n] bytes *)

(** Every block of the heap is allocated or smaller than [n]. *)
Definition no_fit (s : mm_state) (n : Z) : Prop := exists bs, heap_wf s bs /\ Forall (unfit n) bs.

(** The break cannot move by [n], and no block fits, in the heap as it is or after
    a run of [coalesces]. *)
Definition heap_full (s : mm_state) (n : Z) : Prop :=
  mem_max_addr (ml s) < mem_brk (ml s) + n /\
  exists s1, (s1 = s \/ coalesces s = Ok (tt, s1)) /\ no_fit s1 n.

(** The computation ends in [Q], or it writes outside the storage and [X] holds. *)
Definition served {A} (m : M A) (s : mm_state) (Q : A -> mm_state -> Prop) (X : Prop) : Prop :=
  wpM m s Q \/ (m s = Fault OutOfBounds /\ X).

Lemma served_bind {A B} (m : M A) (k : A -> M B) s Q X :
  wpM m s (fun a s' => served (k a) s' Q X) -> served (a ← m; k a) s Q X.
Proof.
  intros (a & s' & E & [(b & s2 & E2 & HQ)|[E2 HX]]); [left|right; split; [|done]].
  - exists b, s2. split; [|done]. unfold mbind, M_bind. by rewrite E.
  - unfold mbind, M_bind. by rewrite E.
Qed.

Lemma block_size_int size :
  0 < size < 2 ^ 31 -> block_size size mod 8 = 0 /\ size + 16 <= block_size size < size + 24.
Proof.
  intros H. destruct (ALIGN_spec size) as [H1 H2]; [lia|].
  unfold block_size. change (2 * SIZE_T_SIZE) with 16. rewrite u32_id by (unfold is_u32; lia).
  split; [by apply mod8_add|lia].
Qed.

(** [find_fit_block] finds a block that [place] can use, or no block fits. *)
Lemma find_or_none s A n :
  live s A -> 16 <= n -> n mod 8 = 0 ->
  wpM (find_fit_block n) s (fun p s1 => s1 = s /\
    (p = NULL /\ no_fit s n \/ p <> NULL /\ wpM (place p n) s (fun r s' => exists sz,
       n <= sz /\ live s' ((p, sz) :: A) /\ keeps A s s' /\
       mem_brk (ml s') = mem_brk (ml s) /\ total_free_size s' = total_free_size s))).
Proof.
  intros Hl Hn Hn8. destruct (find_place_ok s A n Hl Hn Hn8) as (p & ? & E & -> & Hp).
  exists p, s. split; [done|]. split; [done|]. destruct Hp as [->|Hp]; [left|by right].
  split; [done|]. destruct Hl as (bs & Hwf & _). exists bs. split; [done|].
  destruct (find_fit_ok s bs n Hwf) as (q & ? & E2 & _ & Hq). rewrite E in E2. injection E2 as <- <-.
  destruct Hq as [[_ ?]|(pre & sz & suf & -> & _ & Hq & _)]; [done|].
  destruct Hwf as ((? & _) & Hseg & _). apply seg_mid in Hseg as (Hpre & _). apply seg_le in Hpre.
  unfold NULL, heap_base in *. lia.
Qed.

(** What both functions do when the break cannot move. *)
Lemma grow_fails {A} s B n (k : Z -> M A) (e : M A) :
  live s B -> 0 < n < 2 ^ 32 -> mem_max_addr (ml s) < mem_brk (ml s) + n ->
  (p ← sbrk n; if p =? NULL then e else new_block p n;; k p) s = Fault OutOfBounds.
Proof.
  intros (bs & ((? & Hlo8 & ? & ? & Hmx & HM) & _) & _) Hn Hfull. change MAX_HEAP with 20971520 in HM.
  unfold mbind, M_bind, sbrk, mem_sbrk.
  assert (Hs : s32 n = n \/ s32 n < 0).
  { destruct (Z.lt_ge_cases n (2 ^ 31)); [left; apply s32_id; unfold is_s32; lia|right].
    unfold s32. replace (n + 2 ^ 31) with (n - 2 ^ 31 + 1 * 2 ^ 32) by lia.
    rewrite Z.mod_add, Z.mod_small by lia. lia. }
  replace (_ || _) with true by lia. change (void_minus_1 =? NULL) with false. cbn [ml].
  unfold new_block, mbind, M_bind, PUT, in_storage.
  change (HDRP void_minus_1 + 4) with (2 ^ 32 - 5). cbn [ml]. rewrite HM in *.
  apply Z.mod_divide in Hlo8 as [j Hj]; [|lia]. by replace (_ && _) with false by lia.
Qed.

(** * The two functions *)

(** The block that [mm_malloc] gives. *)
Definition malloc_post (s : mm_state) A (size p : Z) (s' : mm_state) : Prop := exists sz,
  block_size size <= sz /\ live s' ((p, sz) :: A) /\ keeps A s s' /\
  mem_brk (ml s') <= mem_brk (ml s) + block_size size.

Lemma room_size s A size :
  live s A -> 0 < size < 2 ^ 31 -> mem_brk (ml s) + block_size size <= mem_max_addr (ml s) -> size <= MAX_HEAP.
Proof.
  intros (bs & ((? & ? & ? & ? & ? & HM) & _) & _) Hs Hr. destruct (block_size_int size Hs) as [_ ?]. lia.
Qed.

(** After [coalesces], which may have been skipped. *)
Lemma full_intro (b : bool) s s1 n :
  (if b then coalesces else mret tt) s = Ok (tt, s1) -> mem_max_addr (ml s) < mem_brk (ml s) + n -> no_fit s1 n ->
  heap_full s n.
Proof.
  intros E Hm Hn. split; [done|]. exists s1. split; [|done]. destruct b; [by right|left]. by injection E.
Qed.

Lemma mm_malloc_served s A size :
  live s A -> 0 < size < 2 ^ 31 ->
  served (mm_malloc size) s (malloc_post s A size) (heap_full s (block_size size)).
Proof.
  intros Hl Hsize. destruct (Z.le_gt_cases (mem_brk (ml s) + block_size size) (mem_max_addr (ml s))) as [Hr|Hr].
  { left. apply mm_malloc_live; [done|split; [lia|by eapply room_size]|done]. }
  destruct (block_size_int size Hsize) as [H8 Hbs].
  unfold mm_malloc, malloc_post. fold (block_size size). set (n := block_size size) in *.
  destruct (Z.eqb_spec size 0); [lia|].
  apply served_bind. eapply wpM_mono; [apply (find_or_none s A n); (done || lia)|].
  intros p ? (-> & [[-> _]|[Hp Hpl]]).
  2: { left. destruct (Z.eqb_spec p NULL); [done|]. cbn [negb]. wM. eapply wpM_mono; [exact Hpl|].
       intros r s' (sz & ? & ? & ? & E & _). wM. exists sz. rewrite E. auto with lia. }
  cbn [negb Z.eqb NULL]. apply served_bind. eexists _, _. split; [reflexivity|].
  set (b := n <=? total_free_size s). apply served_bind.
  destruct (maybe_coalesce_ok b s A Hl) as ([] & s1 & E1 & Hl1 & Hk1 & Hb1). exists tt, s1. split; [done|].
  apply served_bind. eapply wpM_mono; [apply (find_or_none s1 A n); (done || lia)|].
  intros p ? (-> & [[-> Hnf]|[Hp Hpl]]).
  2: { left. destruct (Z.eqb_spec p NULL); [done|]. cbn [negb]. wM. eapply wpM_mono; [exact Hpl|].
       intros r s' (sz & ? & ? & ? & E & _). wM. exists sz. rewrite E, Hb1.
       split; [done|]. split; [done|]. split; [by eapply keeps_trans|lia]. }
  cbn [negb Z.eqb NULL]. apply served_bind. eapply wpM_mono; [by eapply final_free_ok|]. intros fs ? ->.
  replace (if negb (fs =? 0) then u32 (n - 0) else n) with n
    by (rewrite Z.sub_0_r, u32_id by (unfold is_u32; lia); by destruct (fs =? 0)).
  right. split; [|by eapply full_intro].
  eapply (grow_fails s1 A n); [done|lia|]. rewrite Hb1. destruct Hk1 as (_ & -> & _). lia.
Qed.

Lemma mm_realloc_served s A p sz size :
  live s ((p, sz) :: A) -> 0 < size < 2 ^ 31 ->
  served (mm_realloc p size) s (realloc_post s A p sz size) (heap_full s (block_size size)).
Proof.
  intros Hl Hsize. destruct (Z.le_gt_cases (mem_brk (ml s) + block_size size) (mem_max_addr (ml s))) as [Hr|Hr].
  { left. apply mm_realloc_live; [done|split; [lia|by eapply room_size]|done]. }
  destruct (block_size_int size Hsize) as [H8 Hbs].
  assert (Hin : (p, sz) ∈ (p, sz) :: A) by (apply elem_of_cons; auto).
  destruct (live_bounds _ _ _ _ Hl Hin) as (_ & Hsz & _ & Hp & _).
  assert (p <> NULL).
  { destruct Hl as (? & ((? & _) & _) & _). unfold NULL, heap_base in *. lia. }
  unfold mm_realloc. fold (block_size size). set (n := block_size size) in *.
  destruct (Z.eqb_spec size 0); [lia|]. apply served_bind. wM. destruct (Z.eqb_spec p NULL); [done|].
  apply served_bind. eapply wpM_hdr_size; [done..|]. apply served_bind. eapply wpM_DATA_SIZE; [done..|].
  destruct (Z.eqb_spec sz n).
  { left. wM. exists sz. split; [lia|]. split; [done|]. split; [apply keeps_refl|].
    split; [by intros i Hi|lia]. }
  destruct (Z.ltb_spec n sz).
  { left. wM. eapply wpM_mono; [apply (shrink_ok _ _ _ _ n Hl); [lia|done]|].
    intros _ s' (z & Hz & Hl' & Hk & Hb). wM. exists z. split; [done|]. split; [done|].
    split; [eapply keeps_sub, Hk; intros b ?; by apply elem_of_cons; right|].
    split; [|lia]. eapply moved_keeps; [exact Hk|lia|]. by intros i Hi. }
  apply served_bind. eapply wpM_mono; [apply (find_or_none s _ n Hl); (done || lia)|].
  intros q ? (-> & [[-> _]|[Hq Hpl]]).
  2: { left. destruct (Z.eqb_spec q NULL); [done|]. cbn [negb]. wM. eapply wpM_mono; [exact Hpl|].
       intros r s' (zq & ? & ? & ? & E & _).
       eapply (move_post s s s'); try done; first [apply keeps_refl|fold n; lia]. }
  cbn [negb Z.eqb NULL]. apply served_bind. eexists _, _. split; [reflexivity|].
  set (b := n <? total_free_size s). apply served_bind.
  destruct (maybe_coalesce_ok b s _ Hl) as ([] & s1 & E1 & Hl1 & Hk1 & Hb1). exists tt, s1. split; [done|].
  apply served_bind. eapply wpM_mono; [apply (find_or_none s1 _ n Hl1); (done || lia)|].
  intros q ? (-> & [[-> Hnf]|[Hq Hpl]]).
  2: { left. destruct (Z.eqb_spec q NULL); [done|]. cbn [negb]. wM. eapply wpM_mono; [exact Hpl|].
       intros r s' (zq & ? & ? & ? & E & _). eapply (move_post s s1 s'); try done; fold n; lia. }
  cbn [negb Z.eqb NULL]. right. split; [|by eapply full_intro].
  eapply (grow_fails s1 _ n); [done|lia|]. rewrite Hb1. destruct Hk1 as (_ & -> & _). lia.
Qed.
