(* ===== verification/MDriver.v ===== *)
(** The driver of the malloc lab ([mdriver.c]): the range list that checks
    payloads, the trace reader and the functions that run a trace against a
    malloc package.

    The driver is linked against a package ([mm_malloc], [mm_free], ...) and
    the memory system; [MallocPackage] is that link-time interface, so the
    functions below are the C functions for every package.  [printf] output is
    not modelled; the global [errors] is. *)

From S2P Require Import Prelude.
From Stdlib Require Import Ascii.

(** * The link-time interface (mm.h, memlib.h, string.h) *)

Class MallocPackage (S : Type) := {
  mm_init : S -> outcome (Z * S);
  mm_malloc : Z -> S -> outcome (Z * S);
  mm_realloc : Z -> Z -> S -> outcome (Z * S);
  mm_free : Z -> S -> outcome (unit * S);
  mem_reset_brk : S -> S;
  mem_heap_lo : S -> Z;
  mem_heap_hi : S -> Z;
  mem_heapsize : S -> Z;
  read_byte : S -> Z -> outcome Z;                 (* unsigned value of a byte *)
  memset : Z -> Z -> Z -> S -> outcome S
}.

Definition NULL : Z := 0.
Definition ALIGNMENT : Z := 8.
Definition IS_ALIGNED (p : Z) : bool := u32 p mod ALIGNMENT =? 0.

(** [char] is signed on the target. *)
Definition s8 (b : Z) : Z := (b + 2 ^ 7) mod 2 ^ 8 - 2 ^ 7.

(** * The key compound data types *)

Record range_t := MkRange { lo : Z; hi : Z }.

#[export] Instance range_eq_dec : EqDecision range_t.
Proof. solve_decision. Defined.

Inductive op_type := ALLOC | FREE | REALLOC.

Record traceop_t := MkOp { type : op_type; index : Z; size : Z }.

Record trace_t := MkTrace {
  sugg_heapsize : Z;
  num_ids : Z;
  num_ops : Z;
  weight : Z;
  ops : list traceop_t;
  blocks : list Z;
  block_sizes : list Z
}.

(** What the functions below change: the package with its memory, the range
    list, the global [errors] and the two arrays of the trace. *)
Record drv (S : Type) := MkDrv {
  pkg : S;
  ranges : list range_t;
  errors : Z;
  t_blocks : list Z;
  t_sizes : list Z
}.
Arguments MkDrv {S} _ _ _ _ _.
Arguments pkg {S} _.
Arguments ranges {S} _.
Arguments errors {S} _.
Arguments t_blocks {S} _.
Arguments t_sizes {S} _.

Section Driver.
Context {S : Type} `{MallocPackage S}.
Implicit Types (d : drv S) (t : trace_t).

Definition with_pkg (s : S) d := MkDrv s (ranges d) (errors d) (t_blocks d) (t_sizes d).
Definition with_ranges (r : list range_t) d :=
  MkDrv (pkg d) r (errors d) (t_blocks d) (t_sizes d).
Definition with_blocks (b : list Z) d := MkDrv (pkg d) (ranges d) (errors d) b (t_sizes d).
Definition with_sizes (z : list Z) d := MkDrv (pkg d) (ranges d) (errors d) (t_blocks d) z.

Definition malloc_error d : drv S :=
  MkDrv (pkg d) (ranges d) (errors d + 1) (t_blocks d) (t_sizes d).

(** * The range list *)

Definition overlaps (l h : Z) (p : range_t) : bool :=
  ((lo p <=? l) && (l <=? hi p)) || ((lo p <=? h) && (h <=? hi p)).

Definition add_range (l sz : Z) d : outcome (Z * drv S) :=
  let h := l + sz - 1 in
  require (0 <? sz) AssertFail;;
  if negb (IS_ALIGNED l) then Ok (0, malloc_error d)
  else if (l <? mem_heap_lo (pkg d)) || (mem_heap_hi (pkg d) <? l) ||
          (h <? mem_heap_lo (pkg d)) || (mem_heap_hi (pkg d) <? h)
  then Ok (0, malloc_error d)
  else if existsb (overlaps l h) (ranges d) then Ok (0, malloc_error d)
  else Ok (1, with_ranges (MkRange l h :: ranges d) d).

(** [remove_range] unlinks the first record that starts at [l]. *)
Fixpoint remove_range (rs : list range_t) (l : Z) : list range_t :=
  match rs with
  | [] => []
  | p :: next => if lo p =? l then next else p :: remove_range next l
  end.

(** [clear_ranges] frees the records from the head and stores NULL. *)
Fixpoint clear_ranges (rs : list range_t) : list range_t :=
  match rs with [] => [] | _ :: pnext => clear_ranges pnext end.

(** * eval_mm_valid *)

(** [trace->blocks[index] = p; trace->block_sizes[index] = size;] *)
Definition remember (i p sz : Z) d : outcome (drv S) :=
  b ← vset (t_blocks d) i p; z ← vset (t_sizes d) i (u32 sz);
  Ok (with_sizes z (with_blocks b d)).

Definition valid_alloc (i sz : Z) d : outcome (drv S + Z * drv S) :=
  '(p, s) ← mm_malloc (u32 sz) (pkg d);
  let d := with_pkg s d in
  if p =? NULL then Ok (inr (0, malloc_error d))
  else
    '(ok, d) ← add_range p sz d;
    if ok =? 0 then Ok (inr (0, d))
    else
      s ← memset p (Z.land i 0xFF) (u32 sz) (pkg d);
      d ← remember i p sz (with_pkg s d);
      Ok (inl d).

(** The loop that compares the first [n] bytes of the new block. *)
Definition check_data (p i n : Z) d : outcome (unit + Z * drv S) :=
  for_ret 0 n (fun j _ =>
    c ← read_byte (pkg d) (p + j);
    if negb (s8 c =? Z.land i 0xFF) then Ok (inr (0, malloc_error d)) else Ok (inl tt)) tt.

Definition valid_realloc (i sz : Z) d : outcome (drv S + Z * drv S) :=
  oldp ← vget (t_blocks d) i;
  '(newp, s) ← mm_realloc oldp (u32 sz) (pkg d);
  let d := with_pkg s d in
  if newp =? NULL then Ok (inr (0, malloc_error d))
  else
    let d := with_ranges (remove_range (ranges d) oldp) d in
    '(ok, d) ← add_range newp sz d;
    if ok =? 0 then Ok (inr (0, d))
    else
      z ← vget (t_sizes d) i;
      let oldsize := s32 z in
      let oldsize := if sz <? oldsize then sz else oldsize in
      r ← check_data newp i oldsize d;
      match r with
      | inr e => Ok (inr e)
      | inl tt =>
          s ← memset newp (Z.land i 0xFF) (u32 sz) (pkg d);
          d ← remember i newp sz (with_pkg s d);
          Ok (inl d)
      end.

Definition valid_free (i : Z) d : outcome (drv S + Z * drv S) :=
  p ← vget (t_blocks d) i;
  let d := with_ranges (remove_range (ranges d) p) d in
  '(_, s) ← mm_free p (pkg d);
  Ok (inl (with_pkg s d)).

Definition valid_op (o : traceop_t) d : outcome (drv S + Z * drv S) :=
  match type o with
  | ALLOC => valid_alloc (index o) (size o) d
  | REALLOC => valid_realloc (index o) (size o) d
  | FREE => valid_free (index o) d
  end.

Definition eval_mm_valid t d : outcome (Z * drv S) :=
  let d := with_pkg (mem_reset_brk (pkg d)) d in
  let d := with_ranges (clear_ranges (ranges d)) d in
  '(r, s) ← mm_init (pkg d);
  let d := with_pkg s d in
  if r <? 0 then Ok (0, malloc_error d)
  else
    r ← for_ret 0 (num_ops t) (fun i d => o ← vget (ops t) i; valid_op o d) d;
    match r with inl d => Ok (1, d) | inr e => Ok e end.

(** * eval_mm_util *)

Definition app_error {A} : outcome A := Fault (Exit 1).

(** State of the loop: the driver, [total_size] and [max_total_size]. *)
Definition util_state : Type := drv S * Z * Z.

Definition util_op (o : traceop_t) (st : util_state) : outcome util_state :=
  let '(d, total_size, max_total_size) := st in
  match type o with
  | ALLOC =>
      '(p, s) ← mm_malloc (u32 (size o)) (pkg d);
      if p =? NULL then app_error
      else
        d ← remember (index o) p (size o) (with_pkg s d);
        let total_size := s32 (total_size + size o) in
        Ok (d, total_size, if max_total_size <? total_size then total_size else max_total_size)
  | REALLOC =>
      z ← vget (t_sizes d) (index o);
      let oldsize := s32 z in
      oldp ← vget (t_blocks d) (index o);
      '(newp, s) ← mm_realloc oldp (u32 (size o)) (pkg d);
      if newp =? NULL then app_error
      else
        d ← remember (index o) newp (size o) (with_pkg s d);
        let total_size := s32 (total_size + (size o - oldsize)) in
        Ok (d, total_size, if max_total_size <? total_size then total_size else max_total_size)
  | FREE =>
      z ← vget (t_sizes d) (index o);
      p ← vget (t_blocks d) (index o);
      '(_, s) ← mm_free p (pkg d);
      Ok (with_pkg s d, s32 (total_size - s32 z), max_total_size)
  end.

(** The returned [double] is the quotient of the two integers of the pair. *)
Definition eval_mm_util t d : outcome (Z * Z * drv S) :=
  let d := with_pkg (mem_reset_brk (pkg d)) d in
  '(r, s) ← mm_init (pkg d);
  if r <? 0 then app_error
  else
    '(d, _, max_total_size) ←
      for_range 0 (num_ops t) (fun i st => o ← vget (ops t) i; util_op o st) (with_pkg s d, 0, 0);
    Ok (max_total_size, mem_heapsize (pkg d), d).

(** * eval_mm_speed *)

Definition speed_op (o : traceop_t) d : outcome (drv S) :=
  match type o with
  | ALLOC =>
      '(p, s) ← mm_malloc (u32 (size o)) (pkg d);
      if p =? NULL then app_error
      else b ← vset (t_blocks d) (index o) p; Ok (with_blocks b (with_pkg s d))
  | REALLOC =>
      oldp ← vget (t_blocks d) (index o);
      '(newp, s) ← mm_realloc oldp (u32 (size o)) (pkg d);
      if newp =? NULL then app_error
      else b ← vset (t_blocks d) (index o) newp; Ok (with_blocks b (with_pkg s d))
  | FREE =>
      block ← vget (t_blocks d) (index o);
      '(_, s) ← mm_free block (pkg d);
      Ok (with_pkg s d)
  end.

Definition eval_mm_speed t d : outcome (drv S) :=
  let d := with_pkg (mem_reset_brk (pkg d)) d in
  '(r, s) ← mm_init (pkg d);
  if r <? 0 then app_error
  else for_range 0 (num_ops t) (fun i d => o ← vget (ops t) i; speed_op o d) (with_pkg s d).

(** * eval_libc_valid, eval_libc_speed: the same package interface, for libc *)

(** [unix_error]: report and [exit(1)]. *)
Definition unix_error {A} : outcome A := Fault (Exit 1).

Definition libc_op (o : traceop_t) d : outcome (drv S) :=
  match type o with
  | ALLOC =>
      '(p, s) ← mm_malloc (u32 (size o)) (pkg d);
      if p =? NULL then unix_error
      else b ← vset (t_blocks d) (index o) p; Ok (with_blocks b (with_pkg s d))
  | REALLOC =>
      oldp ← vget (t_blocks d) (index o);
      '(newp, s) ← mm_realloc oldp (u32 (size o)) (pkg d);
      if newp =? NULL then unix_error
      else b ← vset (t_blocks d) (index o) newp; Ok (with_blocks b (with_pkg s d))
  | FREE =>
      p ← vget (t_blocks d) (index o);
      '(_, s) ← mm_free p (pkg d);
      Ok (with_pkg s d)
  end.

Definition eval_libc_speed t d : outcome (drv S) :=
  for_range 0 (num_ops t) (fun i d => o ← vget (ops t) i; libc_op o d) d.

Definition eval_libc_valid t d : outcome (Z * drv S) :=
  d ← for_range 0 (num_ops t) (fun i d => o ← vget (ops t) i; libc_op o d) d;
  Ok (1, d).
End Driver.
