(* ===== verification/MDriverTrace.v ===== *)
(** Trace files: [read_trace] of mdriver.c on the characters of the file.

    [fscanf] is modelled on a list of character codes: a conversion skips white
    space, consumes the longest match and leaves the rest; on a matching failure
    the variable keeps its value.  [junk] is the indeterminate value of memory
    that was never written.  Numbers are converted modulo 2^32. *)

From S2P Require Import Prelude CString MDriver.

(** [%d] and [%u] before the conversion to the type of the variable. *)
Definition scan_number (l : list Z) : option Z * list Z :=
  let l := skip_ws l in
  let '(sgn, l) := scan_sign l in
  let '(ds, rest) := span isdigit l in
  match ds with [] => (None, rest) | _ => (Some (sgn * digits_val ds), rest) end.

Definition scan_d (old : Z) (l : list Z) : Z * list Z :=
  let '(r, rest) := scan_number l in (match r with Some v => s32 v | None => old end, rest).

Definition scan_u (old : Z) (l : list Z) : Z * list Z :=
  let '(r, rest) := scan_number l in (match r with Some v => u32 v | None => old end, rest).

(** [%s]; [None] is EOF. *)
Definition scan_s (l : list Z) : option (list Z) * list Z :=
  let '(w, rest) := span (fun c => negb (isspace c)) (skip_ws l) in
  match w with [] => (None, rest) | _ => (Some w, rest) end.

(** * read_trace *)

(** The variables of the loop: [ops], [op_index], [index], [size], [max_index]
    and the unread part of the file. *)
Record reader := MkReader {
  r_ops : list traceop_t; r_op_index : Z; r_index : Z; r_size : Z; r_max : Z; r_input : list Z
}.

Definition umax (a b : Z) : Z := if b <? a then a else b.

(** One request line of type ALLOC or REALLOC: ["%u %u"]. *)
Definition read_sized (ty : op_type) (st : reader) (inp : list Z) : outcome reader :=
  let '(index, inp) := scan_u (r_index st) inp in
  let '(size, inp) := scan_u (r_size st) inp in
  ops ← vset (r_ops st) (r_op_index st) (MkOp ty (s32 index) (s32 size));
  Ok (MkReader ops (r_op_index st + 1) index size (umax index (r_max st)) inp).

(** FREE: ["%ud"], a number and a literal d; the [size] field is not written. *)
Definition read_free (st : reader) (inp : list Z) : outcome reader :=
  let '(index, inp) := scan_u (r_index st) inp in
  let inp := match inp with c :: r => if c =? 100 then r else inp | [] => inp end in
  old ← vget (r_ops st) (r_op_index st);
  ops ← vset (r_ops st) (r_op_index st) (MkOp FREE (s32 index) (MDriver.size old));
  Ok (MkReader ops (r_op_index st + 1) index (r_size st) (r_max st) inp).

Definition read_step (st : reader) : outcome (reader + reader) :=
  match scan_s (r_input st) with
  | (None, _) => Ok (inr st)
  | (Some [], _) => Ok (inr st)
  | (Some (c :: _), inp) =>
      if c =? 97 then st ← read_sized ALLOC st inp; Ok (inl st)
      else if c =? 114 then st ← read_sized REALLOC st inp; Ok (inl st)
      else if c =? 102 then st ← read_free st inp; Ok (inl st)
      else Fault (Exit 1)
  end.

(** [file] is the contents of the file, [None] if it cannot be opened. *)
Definition read_trace (junk : Z) (file : option (list Z)) : outcome trace_t :=
  match file with
  | None => unix_error
  | Some inp =>
      let '(sugg_heapsize, inp) := scan_d junk inp in
      let '(num_ids, inp) := scan_d junk inp in
      let '(num_ops, inp) := scan_d junk inp in
      let '(weight, inp) := scan_d junk inp in
      require ((0 <=? num_ops) && (0 <=? num_ids)) (Exit 1);;
      st ← while_fuel (S (length inp)) read_step
             (MkReader (zreplicate num_ops (MkOp ALLOC junk junk)) 0 0 junk 0 inp);
      require (r_max st =? u32 (num_ids - 1)) AssertFail;;
      require (u32 num_ops =? r_op_index st) AssertFail;;
      Ok (MkTrace sugg_heapsize num_ids num_ops weight (r_ops st)
            (zreplicate num_ids junk) (zreplicate num_ids junk))
  end.

(** * The format, as a printer *)

(** Numbers of the format have at most 10 decimal digits. *)
Definition print_num (n : Z) : list Z := dec_digits 10 n.

Definition print_op (o : traceop_t) : list Z :=
  match type o with
  | ALLOC => [97; 32] ++ print_num (index o) ++ [32] ++ print_num (size o) ++ [10]
  | REALLOC => [114; 32] ++ print_num (index o) ++ [32] ++ print_num (size o) ++ [10]
  | FREE => [102; 32] ++ print_num (index o) ++ [10]
  end.

Definition print_trace (t : trace_t) : list Z :=
  print_num (sugg_heapsize t) ++ [10] ++ print_num (num_ids t) ++ [10] ++
  print_num (num_ops t) ++ [10] ++ print_num (weight t) ++ [10] ++
  concat (print_op <$> ops t).

(** * Round trip *)

(** A printed number is read back, whatever white space comes before it. *)
Lemma scan_print sp n c r :
  Forall (fun x => isspace x = true) sp -> 0 <= n < 2 ^ 31 -> isdigit c = false ->
  scan_number (sp ++ print_num n ++ c :: r) = (Some n, c :: r).
Proof.
  intros Hsp Hn Hc. unfold scan_number, print_num.
  destruct (dec_digits_ok 10 n) as (Hd & Hne & Hv); [cbn; lia|lia|].
  destruct (dec_digits 10 n) as [|x ds] eqn:E; [done|].
  pose proof Hd as Hd'. apply Forall_cons_1 in Hd' as [Hx _].
  unfold skip_ws. change ((x :: ds) ++ c :: r) with (x :: (ds ++ c :: r)).
  rewrite (span_stop isspace) by (done || by apply digit_not_space). cbn [snd scan_sign].
  assert ((x =? 45) = false) as -> by (unfold isdigit in Hx; lia).
  assert ((x =? 43) = false) as -> by (unfold isdigit in Hx; lia).
  change (x :: ds ++ c :: r) with ((x :: ds) ++ c :: r). rewrite (span_stop isdigit) by done.
  by rewrite Hv, Z.mul_1_l.
Qed.

Lemma scan_d_print sp old n c r :
  Forall (fun x => isspace x = true) sp -> 0 <= n < 2 ^ 31 -> isdigit c = false ->
  scan_d old (sp ++ print_num n ++ c :: r) = (n, c :: r).
Proof. intros. unfold scan_d. rewrite scan_print by done. by rewrite s32_id by (unfold is_s32; lia). Qed.

Lemma scan_d_first old n r :
  0 <= n < 2 ^ 31 -> scan_d old (print_num n ++ 10 :: r) = (n, 10 :: r).
Proof. intros Hn. by apply (scan_d_print []); [constructor|..]. Qed.

Lemma scan_d_line old n r :
  0 <= n < 2 ^ 31 -> scan_d old (10 :: print_num n ++ 10 :: r) = (n, 10 :: r).
Proof. intros Hn. by apply (scan_d_print [10]); [repeat constructor|..]. Qed.

Lemma scan_u_print sp old n c r :
  Forall (fun x => isspace x = true) sp -> 0 <= n < 2 ^ 31 -> isdigit c = false ->
  scan_u old (sp ++ print_num n ++ c :: r) = (n, c :: r).
Proof. intros. unfold scan_u. rewrite scan_print by done. by rewrite u32_id by (unfold is_u32; lia). Qed.

(** The largest id of the requests with a size. *)
Fixpoint max_id (mx : Z) (os : list traceop_t) : Z :=
  match os with
  | [] => mx
  | o :: r => max_id (match type o with FREE => mx | _ => umax (index o) mx end) r
  end.

(** A request the format can hold; FREE has no size, the array keeps [junk]. *)
Definition op_printable (junk : Z) (o : traceop_t) : Prop :=
  0 <= index o < 2 ^ 31 /\
  match type o with FREE => size o = junk | _ => 0 <= size o < 2 ^ 31 end.

Lemma scan_s_letter c r :
  isspace c = false -> scan_s (10 :: c :: 32 :: r) = (Some [c], 32 :: r).
Proof. intros Hc. unfold scan_s, skip_ws. cbn. rewrite Hc. cbn. by rewrite Hc. Qed.

Lemma read_sized_print junk ty pre r i sz mx o rest :
  type o = ty -> ty <> FREE -> op_printable junk o ->
  read_sized ty (MkReader (pre ++ MkOp ALLOC junk junk :: r) (zlen pre) i sz mx rest)
    ([32] ++ print_num (index o) ++ [32] ++ print_num (size o) ++ [10] ++ rest) =
  Ok (MkReader (pre ++ o :: r) (zlen pre + 1) (index o) (size o) (umax (index o) mx) (10 :: rest)).
Proof.
  intros <- Hty [Hi Hs]. unfold read_sized. cbn [r_index r_size r_ops r_op_index r_max].
  change ([32] ++ print_num (size o) ++ [10] ++ rest) with (32 :: print_num (size o) ++ 10 :: rest).
  rewrite scan_u_print by (done || by repeat constructor).
  change (32 :: print_num (size o) ++ 10 :: rest) with ([32] ++ print_num (size o) ++ 10 :: rest).
  assert (Hs' : 0 <= size o < 2 ^ 31) by by destruct (type o).
  rewrite scan_u_print by (done || by repeat constructor).
  rewrite !s32_id by (unfold is_s32; lia).
  replace (MkOp (type o) (index o) (size o)) with o by by destruct o.
  by rewrite vset_mid.
Qed.

Lemma read_free_print junk pre r i sz mx o rest :
  type o = FREE -> op_printable junk o ->
  read_free (MkReader (pre ++ MkOp ALLOC junk junk :: r) (zlen pre) i sz mx rest)
    ([32] ++ print_num (index o) ++ [10] ++ rest) =
  Ok (MkReader (pre ++ o :: r) (zlen pre + 1) (index o) sz mx (10 :: rest)).
Proof.
  intros Hty [Hi Hs]. rewrite Hty in Hs. unfold read_free. cbn [r_index r_size r_ops r_op_index r_max].
  change (print_num (index o) ++ [10] ++ rest) with (print_num (index o) ++ 10 :: rest).
  rewrite scan_u_print by (done || by repeat constructor). cbn [Z.eqb Pos.eqb].
  rewrite vget_mid by done. cbn [mbind outcome_bind MDriver.size].
  rewrite !s32_id by (unfold is_s32; lia).
  replace (MkOp FREE (index o) junk) with o by (destruct o; cbn in *; congruence).
  by rewrite vset_mid.
Qed.

Lemma read_op_print junk pre r i sz mx o rest :
  op_printable junk o ->
  exists i' sz', read_step (MkReader (pre ++ MkOp ALLOC junk junk :: r) (zlen pre) i sz mx
      (10 :: print_op o ++ rest)) =
    Ok (inl (MkReader (pre ++ o :: r) (zlen pre + 1) i' sz'
               (match type o with FREE => mx | _ => umax (index o) mx end) (10 :: rest))).
Proof.
  intros Ho. unfold read_step, print_op. cbn [r_input].
  destruct (type o) eqn:Ety; rewrite <- !app_assoc; cbn [app]; rewrite scan_s_letter by done;
    cbn [Z.eqb Pos.eqb].
  - exists (index o), (size o).
    pose proof (read_sized_print junk ALLOC pre r i sz mx o rest Ety ltac:(done) Ho) as E.
    cbn [app] in E. unfold read_sized in *. cbn [r_index r_size r_ops r_op_index r_max] in *.
    by rewrite E.
  - exists (index o), sz.
    pose proof (read_free_print junk pre r i sz mx o rest Ety Ho) as E.
    cbn [app] in E. unfold read_free in *. cbn [r_index r_size r_ops r_op_index r_max] in *.
    by rewrite E.
  - exists (index o), (size o).
    pose proof (read_sized_print junk REALLOC pre r i sz mx o rest Ety ltac:(done) Ho) as E.
    cbn [app] in E. unfold read_sized in *. cbn [r_index r_size r_ops r_op_index r_max] in *.
    by rewrite E.
Qed.

Lemma read_loop junk os pre i sz mx fuel :
  Forall (op_printable junk) os -> (length os < fuel)%nat ->
  exists i' sz', while_fuel fuel read_step
    (MkReader (pre ++ replicate (length os) (MkOp ALLOC junk junk)) (zlen pre) i sz mx
       (10 :: concat (print_op <$> os))) =
    Ok (MkReader (pre ++ os) (zlen pre + zlen os) i' sz' (max_id mx os) [10]).
Proof.
  intros Hos. revert pre i sz mx fuel.
  induction Hos as [|o r Ho Hr IH]; intros pre i sz mx [|fuel] Hf; try (cbn in Hf; lia).
  - exists i, sz. cbn. change (zlen []) with 0. by rewrite Z.add_0_r.
  - cbn [length replicate fmap list_fmap concat].
    destruct (read_op_print junk pre (replicate (length r) (MkOp ALLOC junk junk)) i sz mx o
                (concat (print_op <$> r)) Ho) as (i1 & sz1 & E).
    destruct (IH (pre ++ [o]) i1 sz1
                (match type o with FREE => mx | _ => umax (index o) mx end) fuel)
      as (i2 & sz2 & E2); [cbn in Hf; lia|].
    exists i2, sz2. cbn [while_fuel]. rewrite E. cbn [mbind outcome_bind max_id].
    rewrite <- !app_assoc in E2. cbn [app] in E2. rewrite zlen_app in E2.
    change (zlen [o]) with 1 in E2. rewrite E2, zlen_cons. do 2 f_equal. lia.
Qed.

Lemma print_op_len (os : list traceop_t) :
  (length os <= length (concat (print_op <$> os)))%nat.
Proof.
  induction os as [|o r IH]; [done|]. rewrite fmap_cons. cbn [concat length].
  rewrite length_app. unfold print_op at 1. destruct (type o); cbn [app length]; lia.
Qed.

(** C8: read_trace recovers every trace from its textual form: printing the header and
    the request lines and reading them back gives the same requests, with the arrays of
    blocks and sizes still uninitialised. *)
Theorem read_trace_print (junk : Z) (t : trace_t) :
  0 <= sugg_heapsize t < 2 ^ 31 -> 0 < num_ids t < 2 ^ 31 -> 0 <= weight t < 2 ^ 31 ->
  num_ops t = zlen (ops t) -> zlen (ops t) < 2 ^ 31 ->
  Forall (op_printable junk) (ops t) -> max_id 0 (ops t) = num_ids t - 1 ->
  read_trace junk (Some (print_trace t)) =
    Ok (MkTrace (sugg_heapsize t) (num_ids t) (num_ops t) (weight t) (ops t)
          (zreplicate (num_ids t) junk) (zreplicate (num_ids t) junk)).
Proof.
  intros Hs Hi Hw Hn Hn2 Hops Hmx. pose proof (zlen_nonneg (ops t)).
  unfold read_trace, print_trace. cbn [app].
  rewrite scan_d_first, !scan_d_line by lia.
  unfold require. replace ((0 <=? num_ops t) && (0 <=? num_ids t)) with true by lia.
  cbn [mbind outcome_bind].
  destruct (read_loop junk (ops t) [] 0 junk 0
    (S (length (10 :: concat (print_op <$> ops t)))) Hops) as (i' & sz' & E).
  { cbn [length]. pose proof (print_op_len (ops t)). lia. }
  cbn [app] in E. change (zlen []) with 0 in E. rewrite Z.add_0_l in E.
  replace (zreplicate (num_ops t) (MkOp ALLOC junk junk))
    with (replicate (length (ops t)) (MkOp ALLOC junk junk))
    by (unfold zreplicate; f_equal; unfold zlen in *; lia).
  rewrite E. cbn [mbind outcome_bind r_max r_op_index r_ops].
  rewrite Hmx, !u32_id by (unfold is_u32; lia). rewrite Z.eqb_refl. cbn [mbind outcome_bind].
  by rewrite Hn, Z.eqb_refl.
Qed.

Lemma read_trace_print_witness :
  read_trace 0 (Some (print_trace (MkTrace 7 2 4 1
    [MkOp ALLOC 0 40; MkOp ALLOC 1 24; MkOp REALLOC 0 100; MkOp FREE 1 0] [] []))) =
  Ok (MkTrace 7 2 4 1
    [MkOp ALLOC 0 40; MkOp ALLOC 1 24; MkOp REALLOC 0 100; MkOp FREE 1 0] [0; 0] [0; 0]).
Proof.
  apply (read_trace_print 0 (MkTrace 7 2 4 1
    [MkOp ALLOC 0 40; MkOp ALLOC 1 24; MkOp REALLOC 0 100; MkOp FREE 1 0] [] []));
    cbn; try lia; try reflexivity.
  repeat constructor; cbn; lia.
Defined.
