(* ===== verification/MDriverSpec.v ===== *)
(** What the driver [mdriver.c] promises about a malloc package.

    [MallocLaws] states the contract of malloc, realloc and free that the
    driver tests for.  Against this interface: on every well-formed trace a package
    that keeps the contract passes [eval_mm_valid] and the other two evaluation
    functions run to completion, unless a run reaches a request for which the
    package is full. *)

From S2P Require Import Prelude MDriver.

(** * The contract of a malloc package *)

(** The bytes of the blocks together. *)
Definition caps (A : list (Z * Z)) : Z := foldr (fun b n => b.2 + n) 0 A.

(** Live blocks are pairs (payload address, usable bytes). *)
Class MallocLaws (S : Type) `{MallocPackage S} := {
  inv : S -> list (Z * Z) -> Prop;
  startable : S -> Prop;            (* [mem_reset_brk] gives an empty heap *)
  room : S -> Z;                    (* bytes left in the storage *)
  capacity : Z;                     (* bytes left right after [mm_init] *)
  cost : Z -> Z;                    (* storage a request may use *)
  full : S -> Z -> Prop;            (* there is no place for so many bytes *)
  byte : S -> Z -> Z;
  same (A : list (Z * Z)) (s s' : S) : Prop :=
    (forall a c x, (a, c) ∈ A -> a <= x < a + c -> byte s' x = byte s x) /\
    mem_heapsize s <= mem_heapsize s';
  inv_perm s A B : A ≡ₚ B -> inv s A -> inv s B;
  law_start s A : inv s A -> startable s;
  law_init s : startable s -> exists s',
    mm_init (mem_reset_brk s) = Ok (0, s') /\ inv s' [] /\ room s' = capacity;
  law_block s p c A : inv s ((p, c) :: A) ->
    p <> NULL /\ IS_ALIGNED p = true /\ mem_heap_lo s <= p /\ p + c - 1 <= mem_heap_hi s /\
    forall a z, (a, z) ∈ A -> p + c <= a \/ a + z <= p;
  law_size s A : inv s A -> caps A <= mem_heapsize s < 2 ^ 31;
  law_cost n : 0 < n -> 0 <= cost n;
  law_full s A n : inv s A -> 0 < n < 2 ^ 31 -> full s n -> room s < cost n;
  law_read s p c A x : inv s ((p, c) :: A) -> p <= x < p + c -> read_byte s x = Ok (byte s x);
  law_malloc s A n : inv s A -> 0 < n < 2 ^ 31 ->
    (exists p c s', mm_malloc n s = Ok (p, s') /\ inv s' ((p, c) :: A) /\ n <= c /\ same A s s' /\
       room s - cost n <= room s') \/
    (mm_malloc n s = Fault OutOfBounds /\ full s n);
  law_realloc s p c A n : inv s ((p, c) :: A) -> 0 < n < 2 ^ 31 ->
    (exists q z s', mm_realloc p n s = Ok (q, s') /\ inv s' ((q, z) :: A) /\ n <= z /\ same A s s' /\
       room s - cost n <= room s' /\
       forall i, 0 <= i < Z.min c n -> byte s' (q + i) = byte s (p + i)) \/
    (mm_realloc p n s = Fault OutOfBounds /\ full s n);
  law_free s p c A : inv s ((p, c) :: A) -> exists s',
    mm_free p s = Ok (tt, s') /\ inv s' A /\ same A s s' /\ room s <= room s';
  law_memset s p c A b n : inv s ((p, c) :: A) -> 0 <= n <= c -> exists s',
    memset p b n s = Ok s' /\ inv s' ((p, c) :: A) /\ same A s s' /\ room s <= room s' /\
    forall i, 0 <= i < n -> byte s' (p + i) = b mod 2 ^ 8
}.

(** * Well-formed traces *)

(** Every id is allocated before it is reallocated or freed and not twice, the
    sizes are positive ints.  [signed_ok] keeps a REALLOC to ids whose low byte is
    a non-negative [char]. *)
Section Traces.
Context (signed_ok : Z -> bool) (ids : Z).

Fixpoint ops_ok (live : list Z) (os : list traceop_t) : bool :=
  match os with
  | [] => true
  | o :: r =>
      match type o with
      | ALLOC =>
          (0 <=? index o) && (index o <? ids) && bool_decide (index o ∉ live) &&
          (0 <? size o) && (size o <? 2 ^ 31) &&
          ops_ok (index o :: live) r
      | REALLOC =>
          bool_decide (index o ∈ live) && signed_ok (index o) &&
          (0 <? size o) && (size o <? 2 ^ 31) &&
          ops_ok live r
      | FREE =>
          bool_decide (index o ∈ live) &&
          ops_ok (filter (.≠ index o) live) r
      end
  end.
End Traces.

(** The ids for which [newp[j] != (index & 0xFF)] compares what was stored. *)
Definition low_byte_is_char (i : Z) : bool := Z.land i 0xFF <? 2 ^ 7.

Definition trace_ok (signed_ok : Z -> bool) (t : trace_t) : bool :=
  (num_ops t =? zlen (ops t)) && (0 <=? num_ids t) && ops_ok signed_ok (num_ids t) [] (ops t).

(** ** Requests and the storage *)

(** What all requests of the trace may use together, whether freed or not. *)
Definition op_cost {S : Type} `{MallocLaws S} (o : traceop_t) : Z :=
  match type o with FREE => 0 | _ => cost (size o) end.
Definition spent {S : Type} `{MallocLaws S} (os : list traceop_t) : Z := foldr (fun o n => op_cost o + n) 0 os.

(** The trace up to its [k]-th operation. *)
Definition first (k : Z) (t : trace_t) : trace_t :=
  MkTrace (sugg_heapsize t) (num_ids t) k (weight t) (ops t) (blocks t) (block_sizes t).

(** An evaluation function stops at a request for which the package is full: it
    ends in a fault, after it has finished on the trace up to that request.  [ends]
    says with which results the function has finished in which state. *)
Definition stops {S X : Type} `{MallocLaws S} (run : trace_t -> drv S -> outcome X)
    (ends : X -> drv S -> Prop) (t : trace_t) (d : drv S) : Prop :=
  run t d = Fault OutOfBounds /\
  exists k x d' o, run (first k t) d = Ok x /\ ends x d' /\ zget (ops t) k = Some o /\
    type o <> FREE /\ full (pkg d') (size o).

(** The ids and sizes that are live after an operation, and the high-water mark
    of their total size: the reference for [eval_mm_util]. *)
Definition abs_op (o : traceop_t) (L : list (Z * Z)) : list (Z * Z) :=
  match type o with
  | ALLOC => (index o, size o) :: L
  | REALLOC => (index o, size o) :: filter (fun b => b.1 ≠ index o) L
  | FREE => filter (fun b => b.1 ≠ index o) L
  end.

Fixpoint high_water (L : list (Z * Z)) (mx : Z) (os : list traceop_t) : Z :=
  match os with
  | [] => mx
  | o :: r => high_water (abs_op o L) (Z.max mx (caps (abs_op o L))) r
  end.

(** * The range list *)

Lemma remove_range_perm rs r R :
  rs ≡ₚ r :: R -> (forall x, x ∈ R -> lo x <> lo r) -> remove_range rs (lo r) ≡ₚ R.
Proof.
  revert R. induction rs as [|p next IH]; intros R Hp Hne.
  { by apply Permutation_nil_cons in Hp. }
  cbn. destruct (Z.eqb_spec (lo p) (lo r)) as [E|E].
  - assert (Hin : p ∈ r :: R) by (rewrite <- Hp; apply elem_of_cons; auto).
    apply elem_of_cons in Hin as [->|Hin]; [by apply Permutation_cons_inv in Hp|].
    by destruct (Hne p Hin).
  - assert (Hin : p ∈ r :: R) by (rewrite <- Hp; apply elem_of_cons; auto).
    apply elem_of_cons in Hin as [->|Hin]; [done|].
    destruct (proj1 (elem_of_Permutation R p) Hin) as [R' HR]. rewrite HR. constructor.
    apply IH.
    + apply (Permutation_cons_inv (a := p)). by rewrite Hp, HR, perm_swap.
    + intros x Hx. apply Hne. rewrite HR. by apply elem_of_cons; right.
Qed.

Lemma clear_ranges_nil rs : clear_ranges rs = [].
Proof. by induction rs. Qed.

(** * Live blocks of a run *)

(** One live block of the run: its id, payload, usable bytes and requested size. *)
Record ghost := MkG { g_id : Z; g_ptr : Z; g_cap : Z; g_len : Z }.
Definition g_blk (g : ghost) : Z * Z := (g_ptr g, g_cap g).
Definition g_rng (g : ghost) : range_t := MkRange (g_ptr g) (g_ptr g + g_len g - 1).

Section Runs.
Context {S : Type} `{MallocLaws S}.
Implicit Types (d : drv S) (G : list ghost) (g : ghost).

(** [add_range] accepts a new live block: it is aligned, in the heap, and
    overlaps no recorded payload. *)
Lemma add_range_ok d p c G n :
  inv (pkg d) ((p, c) :: (g_blk <$> G)) -> 0 < n <= c ->
  ranges d ≡ₚ g_rng <$> G -> Forall (fun g => 0 < g_len g <= g_cap g) G ->
  add_range p n d = Ok (1, with_ranges (MkRange p (p + n - 1) :: ranges d) d).
Proof.
  intros Hi Hn Hr HG. destruct (law_block _ _ _ _ Hi) as (_ & Hal & Hlo & Hhi & Hdis).
  unfold add_range, require. destruct (Z.ltb_spec 0 n); [|lia]. cbn [mbind outcome_bind].
  rewrite Hal. cbn [negb]. replace (_ || _ || _ || _) with false by lia.
  destruct (existsb _ _) eqn:E; [|done].
  apply existsb_exists in E as (r & Hin & Hov). apply list_elem_of_In in Hin. rewrite Hr in Hin.
  apply list_elem_of_fmap in Hin as (g & -> & Hg).
  rewrite list.Forall_forall in HG. specialize (HG g Hg).
  specialize (Hdis (g_ptr g) (g_cap g)). unfold overlaps in Hov. cbn in Hov.
  destruct Hdis as [?|?]; [apply list_elem_of_fmap; by exists g|lia..].
Qed.

(** What the array entries of a live block hold. *)
Definition gok_blocks d g : Prop :=
  zget (t_blocks d) (g_id g) = Some (g_ptr g) /\ 0 < g_len g <= g_cap g /\ g_len g < 2 ^ 31.
Definition gok_sizes d g : Prop := zget (t_sizes d) (g_id g) = Some (g_len g).
Definition gok_bytes d g : Prop :=
  forall i, 0 <= i < g_len g -> byte (pkg d) (g_ptr g + i) = Z.land (g_id g) 0xFF.

(** The state of a run with live blocks [G]: [live] are their ids, [budget]
    is what the rest of the trace may still request. *)
Record run_inv (ids : Z) G (live : list Z) (budget : Z) d : Prop := {
  ri_inv : inv (pkg d) (g_blk <$> G);
  ri_ids : NoDup (g_id <$> G);
  ri_live : forall i, i ∈ live <-> i ∈ g_id <$> G;
  ri_room : budget <= room (pkg d);
  ri_blocks : Forall (gok_blocks d) G;
  ri_lens : zlen (t_blocks d) = ids
}.

(** The extra facts of a validity run. *)
Record valid_inv (ids : Z) G d : Prop := {
  vi_ranges : ranges d ≡ₚ g_rng <$> G;
  vi_sizes : Forall (gok_sizes d) G;
  vi_bytes : Forall (gok_bytes d) G;
  vi_lens : zlen (t_sizes d) = ids
}.

(** The live block of an id. *)
Lemma run_find ids G live budget d i :
  run_inv ids G live budget d -> i ∈ live ->
  exists g G', G ≡ₚ g :: G' /\ i = g_id g /\ zget (t_blocks d) i = Some (g_ptr g) /\
    run_inv ids (g :: G') live budget d.
Proof.
  intros [Hi Hnd Hl Hr Hb Hz] Hin. apply Hl in Hin.
  apply list_elem_of_fmap in Hin as (g & -> & Hg).
  destruct (proj1 (elem_of_Permutation G g) Hg) as [G' HG]. exists g, G'. split; [done|]. split; [done|].
  rewrite HG in Hb. split; [by inversion Hb as [|? ? (? & _)]|]. split; [| | | |done|done].
  - by apply (inv_perm _ _ _ (fmap_Permutation g_blk _ _ HG)).
  - by rewrite <- HG.
  - intros j. rewrite Hl. by rewrite HG.
  - done.
Qed.

(** A block made by the package becomes the live block of id [i]. *)
Lemma gok_frame (P : drv S -> ghost -> Prop) d d' i G :
  i ∉ g_id <$> G -> (forall g, g ∈ G -> g_id g <> i -> P d g -> P d' g) ->
  Forall (P d) G -> Forall (P d') G.
Proof.
  rewrite !list.Forall_forall. intros Hi Hp HG g Hg. apply Hp; [done| |by apply HG].
  intros <-. apply Hi. apply list_elem_of_fmap. by exists g.
Qed.

Lemma run_add ids G live budget i p c n d s' b :
  zlen (t_blocks d) = ids -> 0 <= i < ids -> i ∉ g_id <$> G -> NoDup (g_id <$> G) ->
  (forall j, j ∈ live <-> j = i \/ j ∈ g_id <$> G) ->
  inv s' ((p, c) :: (g_blk <$> G)) -> 0 < n <= c -> n < 2 ^ 31 -> budget <= room s' ->
  Forall (gok_blocks d) G -> pkg b = s' -> t_blocks b = zset (t_blocks d) i p ->
  run_inv ids (MkG i p c n :: G) live budget b.
Proof.
  intros Hz Hi Hni Hnd Hl Hinv Hn Hn2 Hr HG Hpb Htb. split.
  - by rewrite Hpb.
  - by apply list.NoDup_cons.
  - intros j. rewrite Hl. cbn. by rewrite elem_of_cons.
  - by rewrite Hpb.
  - constructor.
    + unfold gok_blocks. cbn. rewrite Htb, zget_zset_eq by lia. done.
    + eapply gok_frame; [exact Hni| |exact HG]. unfold gok_blocks. intros g _ Hne.
      by rewrite Htb, zget_zset_ne.
  - by rewrite Htb, zlen_zset.
Qed.

Lemma remember_ok ids i p n d :
  zlen (t_blocks d) = ids -> zlen (t_sizes d) = ids -> 0 <= i < ids -> 0 < n < 2 ^ 31 ->
  remember i p n d =
    Ok (MkDrv (pkg d) (ranges d) (errors d) (zset (t_blocks d) i p) (zset (t_sizes d) i n)).
Proof.
  intros H1 H2 Hi Hn. unfold remember, vset.
  replace ((0 <=? i) && (i <? zlen (t_blocks d))) with true by lia.
  replace ((0 <=? i) && (i <? zlen (t_sizes d))) with true by lia.
  cbn. by rewrite u32_id by (unfold is_u32; lia).
Qed.

Lemma bytes_frame d d' G :
  same (g_blk <$> G) (pkg d) (pkg d') -> Forall (gok_blocks d) G ->
  Forall (gok_bytes d) G -> Forall (gok_bytes d') G.
Proof.
  intros [Hs _]. rewrite !list.Forall_forall. intros Hb HG g Hg j Hj.
  rewrite <- (HG g Hg j Hj). destruct (Hb g Hg) as (_ & ? & _).
  apply (Hs (g_ptr g) (g_cap g)); [|lia]. apply list_elem_of_fmap. by exists g.
Qed.

Lemma blocks_frame d d' G :
  t_blocks d' = t_blocks d -> Forall (gok_blocks d) G -> Forall (gok_blocks d') G.
Proof. intros E. unfold gok_blocks. by rewrite E. Qed.

(** What the driver does once the package returned [p]: check the range, fill
    the payload, remember the block. *)
Lemma finish_ok ids G live budget i p c n d :
  inv (pkg d) ((p, c) :: (g_blk <$> G)) -> 0 < n <= c -> n < 2 ^ 31 ->
  0 <= i < ids -> i ∉ g_id <$> G -> NoDup (g_id <$> G) ->
  (forall j, j ∈ live <-> j = i \/ j ∈ g_id <$> G) -> budget <= room (pkg d) ->
  zlen (t_blocks d) = ids -> Forall (gok_blocks d) G -> valid_inv ids G d ->
  add_range p n d = Ok (1, with_ranges (MkRange p (p + n - 1) :: ranges d) d) /\
  exists s', memset p (Z.land i 0xFF) (u32 n) (pkg d) = Ok s' /\
    remember i p n (with_pkg s' (with_ranges (MkRange p (p + n - 1) :: ranges d) d)) =
      Ok (MkDrv s' (MkRange p (p + n - 1) :: ranges d) (errors d)
            (zset (t_blocks d) i p) (zset (t_sizes d) i n)) /\
    let d' := MkDrv s' (MkRange p (p + n - 1) :: ranges d) (errors d)
                (zset (t_blocks d) i p) (zset (t_sizes d) i n) in
    run_inv ids (MkG i p c n :: G) live budget d' /\ valid_inv ids (MkG i p c n :: G) d'.
Proof.
  intros Hinv Hn Hn2 Hi Hni Hnd Hl Hr Hz HG [Vr Vs Vb Vz]. split.
  { eapply add_range_ok; [done..|]. eapply list.Forall_impl; [exact HG|]. by intros g (_ & ? & _). }
  rewrite u32_id by (unfold is_u32; lia).
  destruct (law_memset _ p c _ (Z.land i 0xFF) n Hinv) as (s' & E & Hinv' & Hs & Hr' & Hby); [lia|].
  exists s'. split; [done|]. split; [by rewrite (remember_ok ids) by (done || lia)|]. cbv zeta. split.
  - eapply (run_add ids G live budget i p c n d); try done. lia.
  - split; cbn.
    + by rewrite Vr.
    + constructor; [unfold gok_sizes; cbn; by rewrite zget_zset_eq by lia|].
      eapply gok_frame, Vs; [exact Hni|]. unfold gok_sizes. cbn. intros g _ Hne.
      by rewrite zget_zset_ne.
    + constructor; [|by eapply bytes_frame].
      unfold gok_bytes. cbn. intros j Hj. rewrite Hby by lia.
      change 0xFF with (2 ^ 8 - 1). rewrite land_mask by lia. by rewrite Zmod_mod.
    + by rewrite zlen_zset.
Qed.

Lemma valid_alloc_ok ids G live budget i n d :
  run_inv ids G live budget d -> valid_inv ids G d ->
  0 <= i < ids -> i ∉ live -> 0 < n < 2 ^ 31 ->
  (exists d' G', valid_alloc i n d = Ok (inl d') /\ errors d' = errors d /\
     run_inv ids G' (i :: live) (budget - cost n) d' /\ valid_inv ids G' d') \/
  (valid_alloc i n d = Fault OutOfBounds /\ full (pkg d) n).
Proof.
  intros [Hi Hnd Hl Hr Hb Hz] [Vr Vs Vb Vz] Hir Hnl Hn.
  destruct (law_malloc _ _ n Hi Hn) as [(p & c & s' & E & Hi' & Hnc & Hs & Hr')|[E Hf]]; [left|right].
  2: { split; [|done]. unfold valid_alloc. rewrite u32_id by (unfold is_u32; lia). by rewrite E. }
  destruct (law_block _ _ _ _ Hi') as (Hp & _).
  destruct (finish_ok ids G (i :: live) (budget - cost n) i p c n (with_pkg s' d))
    as (Ea & s2 & Em & Er & Hrun & Hval); try (done || lia).
  - by rewrite <- Hl.
  - intros j. by rewrite elem_of_cons, Hl.
  - cbn. lia.
  - split; [done..| |done]. by eapply bytes_frame.
  - cbn in *. eexists _, _. split; [|split; [|split; [exact Hrun|exact Hval]]]; [|done].
    unfold valid_alloc. rewrite (u32_id n) in Em |- * by (unfold is_u32; lia). rewrite E.
    cbn [mbind outcome_bind]. destruct (Z.eqb_spec p NULL); [done|].
    rewrite Ea. cbn [mbind outcome_bind Z.eqb]. cbn. rewrite Em. cbn. by rewrite Er.
Qed.

Lemma check_data_ok q z A i n d :
  inv (pkg d) ((q, z) :: A) -> n <= z -> low_byte_is_char i = true ->
  (forall j, 0 <= j < n -> byte (pkg d) (q + j) = Z.land i 0xFF) ->
  check_data q i n d = Ok (inl tt).
Proof.
  intros Hinv Hn Hc Hby. destruct (Z.le_gt_cases n 0) as [Hn0|Hn0].
  { unfold check_data, for_ret. by replace (Z.to_nat (n - 0)) with O by lia. }
  enough (W : wp (check_data q i n d) (fun r => r = inl tt))
    by (destruct W as (r & -> & ->); done).
  apply (wp_for_ret (fun _ _ => True)); [lia|done| |by intros [] _].
  intros j [] Hj _. rewrite (law_read _ _ _ _ _ Hinv) by lia. cbn [mbind outcome_bind].
  rewrite Hby by lia. unfold low_byte_is_char in Hc. apply Z.ltb_lt in Hc.
  assert (0 <= Z.land i 0xFF) by (apply Z.land_nonneg; lia).
  replace (s8 (Z.land i 255)) with (Z.land i 255) by (unfold s8; rewrite Z.mod_small; lia).
  rewrite Z.eqb_refl. by apply wp_ret.
Qed.

(** The record of a live block is the only one that starts at its payload. *)
Lemma remove_live ids g G d :
  inv (pkg d) (g_blk <$> g :: G) -> Forall (gok_blocks d) (g :: G) ->
  valid_inv ids (g :: G) d -> remove_range (ranges d) (g_ptr g) ≡ₚ g_rng <$> G.
Proof.
  intros Hinv Hb [Vr _ _ _]. change (g_ptr g) with (lo (g_rng g)).
  apply remove_range_perm; [done|]. intros r (g' & -> & Hg')%list_elem_of_fmap. cbn.
  destruct (law_block _ _ _ _ Hinv) as (_ & _ & _ & _ & Hdis).
  apply Forall_cons_1 in Hb as [(_ & ? & _) Hb]. rewrite list.Forall_forall in Hb.
  destruct (Hb g' Hg') as (_ & ? & _).
  assert (Hin : (g_ptr g', g_cap g') ∈ g_blk <$> G) by (apply list_elem_of_fmap; by exists g').
  destruct (Hdis _ _ Hin); lia.
Qed.

Lemma valid_perm ids G G' d : G ≡ₚ G' -> valid_inv ids G d -> valid_inv ids G' d.
Proof.
  intros HG [Vr Vs Vb Vz]. split; [by rewrite Vr, HG|by rewrite <- HG|by rewrite <- HG|done].
Qed.

Lemma valid_tail ids g G d r :
  r ≡ₚ g_rng <$> G -> valid_inv ids (g :: G) d -> valid_inv ids G (with_ranges r d).
Proof.
  intros Hr [_ Vs Vb Vz]. split; [done| | |done].
  - by apply Forall_cons_1 in Vs as [_ Vs].
  - by apply Forall_cons_1 in Vb as [_ Vb].
Qed.

Lemma valid_realloc_ok ids G live budget i n d :
  run_inv ids G live budget d -> valid_inv ids G d ->
  i ∈ live -> low_byte_is_char i = true -> 0 < n < 2 ^ 31 ->
  (exists d' G', valid_realloc i n d = Ok (inl d') /\ errors d' = errors d /\
     run_inv ids G' live (budget - cost n) d' /\ valid_inv ids G' d') \/
  (valid_realloc i n d = Fault OutOfBounds /\ full (pkg d) n).
Proof.
  intros Hrun Hval Hil Hc Hn.
  destruct (run_find _ _ _ _ _ _ Hrun Hil) as (g & G' & HG & -> & Hp & Hrun').
  apply (valid_perm _ _ _ _ HG) in Hval. clear Hrun HG G.
  destruct Hrun' as [Hi Hnd Hl Hr Hb Hz]. pose proof (zget_bounds _ _ _ Hp) as Hir.
  destruct (law_realloc _ _ _ _ n Hi Hn) as [(q & z & s' & E & Hi' & Hnz & Hs & Hr' & Hcp)|[E Hf]]; [left|right].
  2: { split; [|done]. unfold valid_realloc, vget. rewrite Hp. cbn [mbind outcome_bind].
       rewrite u32_id by (unfold is_u32; lia). by rewrite E. }
  destruct (law_block _ _ _ _ Hi') as (Hq & _).
  pose proof (remove_live _ _ _ _ Hi Hb Hval) as Hrm.
  pose proof (valid_tail _ _ _ _ _ Hrm Hval) as [Vr Vs Vb Vz].
  apply list.NoDup_cons in Hnd as [Hni Hnd]. apply Forall_cons_1 in Hb as [(_ & Hlen & Hlen2) Hb].
  set (d1 := with_ranges (remove_range (ranges d) (g_ptr g)) (with_pkg s' d)).
  destruct (finish_ok ids G' live (budget - cost n) (g_id g) q z n d1)
    as (Ea & s2 & Em & Er & Hrun2 & Hval2); try (done || lia).
  - intros j. by rewrite Hl, fmap_cons, elem_of_cons.
  - cbn. lia.
  - split; [done..| |done]. by eapply (bytes_frame (with_ranges _ d)).
  - cbn in Hrun2, Hval2. eexists _, _. split; [|split; [|split; [exact Hrun2|exact Hval2]]]; [|done].
    unfold valid_realloc, vget. rewrite Hp. cbn [mbind outcome_bind].
    rewrite (u32_id n) in Em |- * by (unfold is_u32; lia). rewrite E. cbn [mbind outcome_bind].
    destruct (Z.eqb_spec q NULL); [done|]. cbn [ranges with_pkg]. fold d1. rewrite Ea.
    cbn [mbind outcome_bind Z.eqb]. cbn [t_sizes with_ranges with_pkg d1].
    destruct Hval as [_ Vs0 Vb0 _]. apply Forall_cons_1 in Vs0 as [Hsz _].
    apply Forall_cons_1 in Vb0 as [Hby _]. unfold gok_sizes in Hsz. rewrite Hsz.
    cbn [mbind outcome_bind]. rewrite s32_id by (unfold is_s32; lia).
    rewrite (check_data_ok q z (g_blk <$> G') (g_id g)); [|done|zcase; lia|done|].
    + cbn [mbind outcome_bind]. cbn in Em, Er |- *. rewrite Em. cbn. by rewrite Er.
    + intros j Hj. cbn. rewrite Hcp by (destruct (n <? g_len g) eqn:?; lia).
      apply Hby. destruct (n <? g_len g) eqn:?; lia.
Qed.

Lemma valid_free_ok ids G live budget i d :
  run_inv ids G live budget d -> valid_inv ids G d -> i ∈ live ->
  exists d' G', valid_free i d = Ok (inl d') /\ errors d' = errors d /\
    run_inv ids G' (filter (.≠ i) live) budget d' /\ valid_inv ids G' d'.
Proof.
  intros Hrun Hval Hil.
  destruct (run_find _ _ _ _ _ _ Hrun Hil) as (g & G' & HG & -> & Hp & Hrun').
  apply (valid_perm _ _ _ _ HG) in Hval. clear Hrun HG G.
  destruct Hrun' as [Hi Hnd Hl Hr Hb Hz].
  destruct (law_free _ _ _ _ Hi) as (s' & E & Hi' & Hs & Hr').
  pose proof (remove_live _ _ _ _ Hi Hb Hval) as Hrm.
  pose proof (valid_tail _ _ _ _ _ Hrm Hval) as [Vr Vs Vb Vz].
  apply list.NoDup_cons in Hnd as [Hni Hnd]. apply Forall_cons_1 in Hb as [_ Hb].
  eexists _, G'. split; [|split; [|split]].
  - unfold valid_free, vget. rewrite Hp. cbn. by rewrite E.
  - done.
  - split; cbn; try done; [|lia]. intros j.
    rewrite list_elem_of_filter, Hl, fmap_cons, elem_of_cons.
    split; [by intros [? [?|?]]|]. intros Hj. split; [by intros ->|auto].
  - split; cbn; try done. by eapply (bytes_frame (with_ranges _ d)).
Qed.

(** The package is full for the request [o]. *)
Definition starved (o : traceop_t) d : Prop := type o <> FREE /\ 0 < size o < 2 ^ 31 /\ full (pkg d) (size o).

Lemma spent_cons o os : spent (o :: os) = op_cost o + spent os.
Proof. done. Qed.

(** Then the requests cost more than the storage has. *)
Lemma starved_spent o d A budget total os sg ids live :
  starved o d -> inv (pkg d) A -> budget <= room (pkg d) -> budget - spent (o :: os) = capacity - total ->
  ops_ok sg ids live (o :: os) = true -> capacity < total.
Proof.
  intros (Ho & Hn & Hf) Hi Hb E Hok. pose proof (law_full _ _ _ Hi Hn Hf) as Hc.
  assert (Hp : 0 <= spent os).
  { assert (Ht : exists live', ops_ok sg ids live' os = true).
    { cbn in Hok. destruct (type o); rewrite !andb_true_iff in Hok; eexists; apply Hok. }
    clear - Ht. destruct Ht as [live' Ht]. revert live' Ht. induction os as [|o os IH]; intros l Ht; [done|]. cbn in Ht.
    rewrite spent_cons. unfold op_cost. destruct (type o); rewrite !andb_true_iff in Ht;
      destruct Ht as [Ht Hr]; specialize (IH _ Hr); try lia; assert (Hs : 0 < size o) by (apply Z.ltb_lt; apply Ht); pose proof (law_cost _ Hs); lia. }
  rewrite spent_cons in E. unfold op_cost in E. destruct (type o); [|done|]; lia.
Qed.

Lemma valid_op_ok ids G live budget o os d :
  run_inv ids G live budget d -> valid_inv ids G d ->
  ops_ok low_byte_is_char ids live (o :: os) = true ->
  (exists d' G' live', valid_op o d = Ok (inl d') /\ errors d' = errors d /\
     run_inv ids G' live' (budget - op_cost o) d' /\ valid_inv ids G' d' /\
     ops_ok low_byte_is_char ids live' os = true) \/
  (valid_op o d = Fault OutOfBounds /\ starved o d).
Proof.
  intros Hrun Hval. cbn. unfold valid_op, op_cost, starved. destruct (type o).
  - rewrite !andb_true_iff, bool_decide_eq_true. intros (((((? & ?) & ?) & ?) & ?) & Hok).
    destruct (valid_alloc_ok ids G live budget (index o) (size o) d) as [(d' & G' & Hv & He & Hr & Hi)|[]];
      try (done || lia); [left; by eexists d', G', _|right; split; [done|split; [done|split; [lia|done]]]].
  - rewrite !andb_true_iff, bool_decide_eq_true, Z.sub_0_r. intros (? & Hok).
    destruct (valid_free_ok ids G live budget (index o) d) as (d' & G' & Hv & He & Hr & Hi);
      try done. left. by eexists d', G', _.
  - rewrite !andb_true_iff, bool_decide_eq_true. intros ((((? & ?) & ?) & ?) & Hok).
    destruct (valid_realloc_ok ids G live budget (index o) (size o) d)
      as [(d' & G' & Hv & He & Hr & Hi)|[]]; try (done || lia);
      [left; by eexists d', G', _|right; split; [done|split; [done|split; [lia|done]]]].
Qed.

(** The state after [mem_reset_brk] and [mm_init]. *)
Lemma run_start ids d s' :
  inv s' [] -> room s' = capacity -> zlen (t_blocks d) = ids -> pkg d = s' ->
  run_inv ids [] [] capacity d.
Proof. intros Hi Hr Hz Hp. split; rewrite ?Hp; try done; [apply NoDup_nil_2|lia]. Qed.

(** [eval_mm_valid] stops in state [d'] after it returned 1. *)
Definition accepts (x : Z * drv S) d' : Prop := x = (1, d').

Lemma eval_mm_valid_ok t d :
  trace_ok low_byte_is_char t = true -> startable (pkg d) ->
  zlen (t_blocks d) = num_ids t -> zlen (t_sizes d) = num_ids t ->
  (exists d' A, eval_mm_valid t d = Ok (1, d') /\ errors d' = errors d /\ inv (pkg d') A /\
     zlen (t_blocks d') = num_ids t /\ zlen (t_sizes d') = num_ids t) \/
  (stops eval_mm_valid accepts t d /\ capacity < spent (ops t)).
Proof.
  unfold trace_ok. rewrite !andb_true_iff, Z.eqb_eq. intros ((Hno & _) & Hok) Hst Hzb Hzs.
  destruct (law_init _ Hst) as (s0 & E0 & Hi0 & Hr0).
  unfold eval_mm_valid. rewrite clear_ranges_nil. cbn [pkg with_pkg with_ranges].
  rewrite E0. cbn [mbind outcome_bind]. destruct (Z.ltb_spec 0 0); [lia|].
  match goal with |- context [for_ret _ _ ?b ?d0] =>
    destruct (for_ret_or (fun i d' => exists G live budget,
      run_inv (num_ids t) G live budget d' /\ valid_inv (num_ids t) G d' /\ errors d' = errors d /\
      budget - spent (drop (Z.to_nat i) (ops t)) = capacity - spent (ops t) /\
      ops_ok low_byte_is_char (num_ids t) live (drop (Z.to_nat i) (ops t)) = true)
      (fun i d' => exists o, zget (ops t) i = Some o /\ starved o d' /\ capacity < spent (ops t))
      OutOfBounds (num_ops t) b d0)
      as [(r & -> & d' & -> & G & live & budget & Hrun & Hval & He & _)|(E & k & d' & Hk & Ek & o & Ho & (? & ? & ?) & ?)] end.
  - pose proof (zlen_nonneg (ops t)). lia.
  - exists [], [], capacity. split; [by eapply run_start|]. split; [|done].
    split; cbn; try done; constructor.
  - intros i d1 Hi (G & live & budget & Hrun & Hval & He & Hbud & Hops).
    destruct (zget_in_range (ops t) i ltac:(lia)) as [o Ho]. unfold vget at 1 2. rewrite Ho. cbn [mbind outcome_bind].
    rewrite (drop_zget _ _ _ Ho) in Hops, Hbud.
    destruct (valid_op_ok _ _ _ _ _ _ _ Hrun Hval Hops)
      as [(d' & G' & live' & -> & He' & Hrun' & Hval' & Hops')|[-> Hst']]; [left|right].
    + apply wp_ret. exists d'. split; [done|]. exists G', live', (budget - op_cost o). split; [done|]. split; [done|].
      split; [congruence|]. split; [rewrite spent_cons in Hbud; lia|done].
    + split; [done|]. exists o. split; [done|]. split; [done|].
      eapply starved_spent; [exact Hst'|apply Hrun|apply Hrun|exact Hbud|exact Hops].
  - left. exists d', (g_blk <$> G). split; [done|]. split; [done|]. split; [apply Hrun|].
    split; [apply Hrun|apply Hval].
  - right. split; [|done]. split.
    + unfold eval_mm_valid. rewrite clear_ranges_nil. cbn [pkg with_pkg with_ranges]. rewrite E0. cbn [mbind outcome_bind].
      destruct (Z.ltb_spec 0 0); [lia|]. by rewrite E.
    + exists k, (1, d'), d', o. split; [|done]. unfold eval_mm_valid. rewrite clear_ranges_nil.
      cbn [pkg with_pkg with_ranges first num_ops ops]. rewrite E0. cbn [mbind outcome_bind].
      destruct (Z.ltb_spec 0 0); [lia|]. by rewrite Ek.
Qed.

(** ** The package calls of the other two evaluation functions *)

Lemma step_alloc ids G live budget i n d :
  run_inv ids G live budget d -> 0 <= i < ids -> i ∉ live -> 0 < n < 2 ^ 31 ->
  (exists p c s', mm_malloc (u32 n) (pkg d) = Ok (p, s') /\ p <> NULL /\
     mem_heapsize (pkg d) <= mem_heapsize s' /\ (i ∉ g_id <$> G) /\
     forall b, pkg b = s' -> t_blocks b = zset (t_blocks d) i p ->
       run_inv ids (MkG i p c n :: G) (i :: live) (budget - cost n) b) \/
  (mm_malloc (u32 n) (pkg d) = Fault OutOfBounds /\ full (pkg d) n).
Proof.
  intros [Hi Hnd Hl Hr Hb Hz] Hir Hnl Hn. rewrite u32_id by (unfold is_u32; lia).
  destruct (law_malloc _ _ n Hi Hn) as [(p & c & s' & E & Hi' & Hnc & Hs & Hr')|]; [left|by right].
  destruct (law_block _ _ _ _ Hi') as (Hp & _). rewrite Hl in Hnl.
  exists p, c, s'. split; [done|]. split; [done|].
  split; [apply Hs|]. split; [done|]. intros b Eb Et.
  eapply run_add; try done; try lia. intros j. by rewrite elem_of_cons, Hl.
Qed.

Lemma step_realloc ids G live budget i n d :
  run_inv ids G live budget d -> i ∈ live -> 0 < n < 2 ^ 31 ->
  exists g G', G ≡ₚ g :: G' /\ i = g_id g /\ 0 <= i < ids /\
    zget (t_blocks d) i = Some (g_ptr g) /\ (i ∉ g_id <$> G') /\ g_len g < 2 ^ 31 /\
    ((exists q c s', mm_realloc (g_ptr g) (u32 n) (pkg d) = Ok (q, s') /\ q <> NULL /\
        mem_heapsize (pkg d) <= mem_heapsize s' /\
        forall b, pkg b = s' -> t_blocks b = zset (t_blocks d) i q ->
          run_inv ids (MkG i q c n :: G') live (budget - cost n) b) \/
     (mm_realloc (g_ptr g) (u32 n) (pkg d) = Fault OutOfBounds /\ full (pkg d) n)).
Proof.
  intros Hrun Hil Hn.
  destruct (run_find _ _ _ _ _ _ Hrun Hil) as (g & G' & HG & -> & Hp & Hrun').
  destruct Hrun' as [Hi Hnd Hl Hr Hb Hz]. pose proof (zget_bounds _ _ _ Hp) as Hir.
  apply list.NoDup_cons in Hnd as [Hni Hnd]. apply Forall_cons_1 in Hb as [(_ & ? & ?) Hb].
  exists g, G'. rewrite u32_id by (unfold is_u32; lia).
  split; [done|]. split; [done|]. split; [lia|]. split; [done|]. split; [done|]. split; [done|].
  destruct (law_realloc _ _ _ _ n Hi Hn) as [(q & c & s' & E & Hi' & Hnz & Hs & Hr' & _)|]; [left|by right].
  destruct (law_block _ _ _ _ Hi') as (Hq & _). exists q, c, s'. split; [done|]. split; [done|]. split; [apply Hs|]. intros b Eb Et.
  eapply run_add; try done; try lia. intros j. by rewrite Hl, fmap_cons, elem_of_cons.
Qed.

Lemma step_free ids G live budget i d :
  run_inv ids G live budget d -> i ∈ live ->
  exists g G' s', G ≡ₚ g :: G' /\ i = g_id g /\ zget (t_blocks d) i = Some (g_ptr g) /\
    0 < g_len g < 2 ^ 31 /\ mm_free (g_ptr g) (pkg d) = Ok (tt, s') /\ (i ∉ g_id <$> G') /\
    mem_heapsize (pkg d) <= mem_heapsize s' /\
    run_inv ids G' (filter (.≠ i) live) budget (with_pkg s' d).
Proof.
  intros Hrun Hil.
  destruct (run_find _ _ _ _ _ _ Hrun Hil) as (g & G' & HG & -> & Hp & Hrun').
  destruct Hrun' as [Hi Hnd Hl Hr Hb Hz].
  destruct (law_free _ _ _ _ Hi) as (s' & E & Hi' & Hs & Hr').
  apply list.NoDup_cons in Hnd as [Hni Hnd]. apply Forall_cons_1 in Hb as [(_ & ? & ?) Hb].
  exists g, G', s'. split; [done|]. split; [done|]. split; [done|]. split; [lia|].
  split; [done|]. split; [done|]. split; [apply Hs|].
  split; cbn; try done; [|lia]. intros j.
  rewrite list_elem_of_filter, Hl, fmap_cons, elem_of_cons.
  split; [by intros [? [?|?]]|]. intros Hj. split; [by intros ->|auto].
Qed.

Lemma vset_ok {A} (v : list A) i x : 0 <= i < zlen v -> vset v i x = Ok (zset v i x).
Proof. intros Hi. unfold vset. by replace (_ && _) with true by lia. Qed.

(** ** eval_mm_speed *)

Lemma speed_op_ok sg ids G live budget o os d :
  run_inv ids G live budget d -> ops_ok sg ids live (o :: os) = true ->
  (exists d' G' live', speed_op o d = Ok d' /\ errors d' = errors d /\
     t_sizes d' = t_sizes d /\ run_inv ids G' live' (budget - op_cost o) d' /\
     ops_ok sg ids live' os = true) \/
  (speed_op o d = Fault OutOfBounds /\ starved o d).
Proof.
  intros Hrun. cbn. unfold speed_op, op_cost, starved. destruct (type o).
  - rewrite !andb_true_iff, bool_decide_eq_true. intros (((((? & ?) & ?) & ?) & ?) & Hok).
    destruct (step_alloc ids G live budget (index o) (size o) d)
      as [(p & c & s' & -> & Hp & _ & _ & Hb)|[-> ?]]; try (done || lia);
      [left|right; split; [done|split; [done|split; [lia|done]]]].
    cbn [mbind outcome_bind]. destruct (Z.eqb_spec p NULL); [done|].
    rewrite vset_ok by (rewrite (ri_lens _ _ _ _ _ Hrun); lia). cbn.
    eexists _, _, _. split; [reflexivity|]. split; [done|]. split; [done|].
    split; [by apply Hb|done].
  - rewrite !andb_true_iff, bool_decide_eq_true, Z.sub_0_r. intros (? & Hok).
    destruct (step_free ids G live budget (index o) d)
      as (g & G' & s' & _ & _ & Hz & _ & E & _ & _ & Hrun'); try done.
    left. unfold vget. rewrite Hz. cbn. rewrite E. by eexists _, _, _.
  - rewrite !andb_true_iff, bool_decide_eq_true. intros ((((? & ?) & ?) & ?) & Hok).
    destruct (step_realloc ids G live budget (index o) (size o) d)
      as (g & G' & _ & _ & ? & Hz & _ & _ & [(q & c & s' & E & Hq & _ & Hb)|[E ?]]); try (done || lia);
      unfold vget; rewrite Hz; cbn; rewrite E; cbn;
      [left|right; split; [done|split; [done|split; [lia|done]]]].
    destruct (Z.eqb_spec q NULL); [done|].
    rewrite vset_ok by (rewrite (ri_lens _ _ _ _ _ Hrun); lia). cbn.
    eexists _, _, _. split; [reflexivity|]. split; [done|]. split; [done|].
    split; [by apply Hb|done].
Qed.

Lemma eval_mm_speed_ok sg t d :
  trace_ok sg t = true -> startable (pkg d) -> zlen (t_blocks d) = num_ids t ->
  (exists d' A, eval_mm_speed t d = Ok d' /\ errors d' = errors d /\ inv (pkg d') A /\
     zlen (t_blocks d') = num_ids t) \/
  (stops eval_mm_speed eq t d /\ capacity < spent (ops t)).
Proof.
  unfold trace_ok. rewrite !andb_true_iff, Z.eqb_eq. intros ((Hno & _) & Hok) Hst Hzb.
  destruct (law_init _ Hst) as (s0 & E0 & Hi0 & Hr0).
  unfold eval_mm_speed. cbn [pkg with_pkg]. rewrite E0. cbn [mbind outcome_bind].
  destruct (Z.ltb_spec 0 0); [lia|].
  match goal with |- context [for_range _ _ ?b ?d0] =>
    destruct (for_range_or (fun i d' => exists G live budget,
      run_inv (num_ids t) G live budget d' /\ errors d' = errors d /\
      budget - spent (drop (Z.to_nat i) (ops t)) = capacity - spent (ops t) /\
      ops_ok sg (num_ids t) live (drop (Z.to_nat i) (ops t)) = true)
      (fun i d' => exists o, zget (ops t) i = Some o /\ starved o d' /\ capacity < spent (ops t))
      OutOfBounds (num_ops t) b d0)
      as [(d' & -> & G & live & budget & Hrun & He & _)|(E & k & d' & Hk & Ek & o & Ho & (? & ? & ?) & ?)] end.
  - pose proof (zlen_nonneg (ops t)). lia.
  - exists [], [], capacity. split; [by eapply run_start|done].
  - intros i d1 Hi (G & live & budget & Hrun & He & Hbud & Hops).
    destruct (zget_in_range (ops t) i ltac:(lia)) as [o Ho]. unfold vget at 1 2. rewrite Ho. cbn [mbind outcome_bind].
    rewrite (drop_zget _ _ _ Ho) in Hops, Hbud.
    destruct (speed_op_ok _ _ _ _ _ _ _ _ Hrun Hops)
      as [(d' & G' & live' & -> & He' & _ & Hrun' & Hops')|[-> Hst']]; [left|right].
    + apply wp_ret. exists G', live', (budget - op_cost o). split; [done|]. split; [congruence|].
      split; [rewrite spent_cons in Hbud; lia|done].
    + split; [done|]. exists o. split; [done|]. split; [done|].
      eapply starved_spent; [exact Hst'|apply Hrun|apply Hrun|exact Hbud|exact Hops].
  - left. exists d', (g_blk <$> G). split; [done|]. split; [done|]. split; apply Hrun.
  - right. split; [|done]. split.
    + unfold eval_mm_speed. cbn [pkg with_pkg]. rewrite E0. cbn [mbind outcome_bind].
      destruct (Z.ltb_spec 0 0); [lia|]. by rewrite E.
    + exists k, d', d', o. split; [|done]. unfold eval_mm_speed. cbn [pkg with_pkg first num_ops ops].
      rewrite E0. cbn [mbind outcome_bind]. destruct (Z.ltb_spec 0 0); [lia|]. by rewrite Ek.
Qed.

(** ** eval_mm_util *)

Definition g_len_of (g : ghost) : Z * Z := (g_id g, g_len g).

(** [L] are the live ids with their sizes; the two counters follow it. *)
Record util_inv (ids : Z) G (L : list (Z * Z)) d (total mx : Z) : Prop := {
  ui_len : g_len_of <$> G ≡ₚ L;
  ui_total : total = caps L;
  ui_mx : total <= mx <= mem_heapsize (pkg d);
  ui_sizes : Forall (gok_sizes d) G;
  ui_zlen : zlen (t_sizes d) = ids
}.

Lemma caps_perm (A B : list (Z * Z)) : A ≡ₚ B -> caps A = caps B.
Proof. unfold caps. induction 1; cbn in *; lia. Qed.

(** The requested bytes never exceed the heap. *)
Lemma lens_le_heap d G :
  inv (pkg d) (g_blk <$> G) -> Forall (gok_blocks d) G ->
  0 <= caps (g_len_of <$> G) <= mem_heapsize (pkg d) /\ mem_heapsize (pkg d) < 2 ^ 31.
Proof.
  intros Hi Hb. pose proof (law_size _ _ Hi) as Hs.
  enough (0 <= caps (g_len_of <$> G) <= caps (g_blk <$> G)) by lia. clear Hi Hs.
  unfold caps. induction Hb as [|g r (_ & ? & _) _ IH]; cbn in *; lia.
Qed.

Lemma filter_id_tail g G (L : list (Z * Z)) :
  g_len_of <$> (g :: G) ≡ₚ L -> g_id g ∉ g_id <$> G ->
  filter (fun b => b.1 ≠ g_id g) L ≡ₚ g_len_of <$> G.
Proof.
  intros HL Hni. rewrite <- HL. rewrite fmap_cons, filter_cons_False by (cbn; tauto).
  enough (E : filter (fun b => b.1 ≠ g_id g) (g_len_of <$> G) = g_len_of <$> G) by by rewrite E.
  clear HL. induction G as [|g' G IH]; [done|]. rewrite fmap_cons, elem_of_cons in Hni.
  rewrite fmap_cons, filter_cons_True, IH by (cbn; naive_solver). done.
Qed.

(** A new or resized block [(i, n)] in the arrays. *)
Lemma util_add ids G live budget L d b i p c n mx :
  util_inv ids G L d (caps L) mx -> run_inv ids (MkG i p c n :: G) live budget b ->
  mem_heapsize (pkg d) <= mem_heapsize (pkg b) ->
  t_sizes b = zset (t_sizes d) i n -> 0 <= i < ids -> i ∉ g_id <$> G ->
  util_inv ids (MkG i p c n :: G) ((i, n) :: L) b (n + caps L) (Z.max mx (n + caps L)) /\
  0 <= n + caps L < 2 ^ 31.
Proof.
  intros [Ul Ut Um Us Uz] Hrun Hh Et Hi Hni.
  destruct (lens_le_heap _ _ (ri_inv _ _ _ _ _ Hrun) (ri_blocks _ _ _ _ _ Hrun)) as [Hle H31].
  rewrite fmap_cons in Hle. cbn [caps foldr g_len_of g_id g_len snd] in Hle.
  fold (caps (g_len_of <$> G)) in Hle. rewrite (caps_perm _ _ Ul) in Hle.
  split; [|lia]. split.
  - by rewrite fmap_cons, Ul.
  - done.
  - lia.
  - constructor; [unfold gok_sizes; cbn; rewrite Et, zget_zset_eq by lia; done|].
    eapply gok_frame, Us; [exact Hni|]. unfold gok_sizes. intros g _ Hne.
    by rewrite Et, zget_zset_ne.
  - by rewrite Et, zlen_zset.
Qed.

Lemma util_drop ids G g G' L d total mx :
  util_inv ids G L d total mx -> G ≡ₚ g :: G' -> g_id g ∉ g_id <$> G' -> 0 < g_len g ->
  let L' := filter (fun b => b.1 ≠ g_id g) L in
  util_inv ids G' L' d (caps L') mx /\ total = g_len g + caps L' /\
  zget (t_sizes d) (g_id g) = Some (g_len g).
Proof.
  intros [Ul Ut Um Us Uz] HG Hni Hg L'. rewrite HG in Ul, Us.
  pose proof (filter_id_tail _ _ _ Ul Hni) as HL. fold L' in HL.
  apply Forall_cons_1 in Us as [Hsz Us].
  assert (Et : total = g_len g + caps L').
  { rewrite Ut, <- (caps_perm _ _ Ul), (caps_perm _ _ HL). done. }
  split; [|done]. split; try done. lia.
Qed.

Lemma run_total_bound ids G live budget L d total mx :
  run_inv ids G live budget d -> util_inv ids G L d total mx -> 0 <= total < 2 ^ 31.
Proof.
  intros Hrun [Ul Ut _ _ _].
  destruct (lens_le_heap _ _ (ri_inv _ _ _ _ _ Hrun) (ri_blocks _ _ _ _ _ Hrun)).
  rewrite Ut, <- (caps_perm _ _ Ul). lia.
Qed.

Lemma max_if a b : (if a <? b then b else a) = Z.max a b.
Proof. zcase; lia. Qed.

Lemma util_pkg ids G L d s' total mx :
  mem_heapsize (pkg d) <= mem_heapsize s' ->
  util_inv ids G L d total mx -> util_inv ids G L (with_pkg s' d) total mx.
Proof. intros Hh [? ? ? ? ?]. split; cbn; (done || lia). Qed.

Lemma util_free_ok ids G live budget L i d total mx :
  run_inv ids G live budget d -> util_inv ids G L d total mx -> i ∈ live ->
  let L' := filter (fun b => b.1 ≠ i) L in
  exists d' G',
    (z ← vget (t_sizes d) i; p ← vget (t_blocks d) i; '(_, s) ← mm_free p (pkg d);
     Ok (with_pkg s d, s32 (total - s32 z), mx)) = Ok (d', caps L', Z.max mx (caps L')) /\
    errors d' = errors d /\ run_inv ids G' (filter (.≠ i) live) budget d' /\
    util_inv ids G' L' d' (caps L') (Z.max mx (caps L')).
Proof.
  intros Hrun Hu Hil. pose proof (run_total_bound _ _ _ _ _ _ _ _ Hrun Hu) as Htot.
  destruct (step_free ids G live budget i d)
    as (g & G' & s' & HG & -> & Hz & ? & E & Hni & Hh & Hrun'); try done.
  destruct (util_drop _ _ _ _ _ _ _ _ Hu HG Hni) as (Hu' & Et' & Hsz); [lia|].
  apply (util_pkg _ _ _ _ s' _ _ Hh) in Hu'.
  unfold vget. rewrite Hsz, Hz. cbn -[caps]. rewrite E. cbn -[caps].
  pose proof (run_total_bound _ _ _ _ _ _ _ _ Hrun' Hu').
  rewrite (s32_id (g_len g)) by (unfold is_s32; lia). rewrite s32_id by (unfold is_s32; lia).
  pose proof (ui_mx _ _ _ _ _ _ Hu'). rewrite Z.max_l by lia.
  eexists _, _. split; [do 3 f_equal; lia|]. split; [done|]. split; [exact Hrun'|exact Hu'].
Qed.

Lemma util_op_ok sg ids G live budget L o os d total mx :
  run_inv ids G live budget d -> util_inv ids G L d total mx ->
  ops_ok sg ids live (o :: os) = true ->
  (exists d' G' live' total',
     let L' := abs_op o L in
     let mx' := Z.max mx (caps L') in
     util_op o (d, total, mx) = Ok (d', total', mx') /\ errors d' = errors d /\
     run_inv ids G' live' (budget - op_cost o) d' /\ util_inv ids G' L' d' total' mx' /\
     ops_ok sg ids live' os = true) \/
  (util_op o (d, total, mx) = Fault OutOfBounds /\ starved o d).
Proof.
  intros Hrun Hu. pose proof (run_total_bound _ _ _ _ _ _ _ _ Hrun Hu) as Htot.
  pose proof (ui_total _ _ _ _ _ _ Hu) as Et. pose proof (ui_zlen _ _ _ _ _ _ Hu) as Hzs.
  pose proof (ri_lens _ _ _ _ _ Hrun) as Hzb.
  cbn -[caps]. unfold util_op, abs_op, op_cost, starved. destruct (type o).
  - rewrite !andb_true_iff, bool_decide_eq_true. intros (((((? & ?) & ?) & ?) & ?) & Hok).
    destruct (step_alloc ids G live budget (index o) (size o) d)
      as [(p & c & s' & -> & Hp & Hh & Hni & Hb)|[-> ?]]; try (done || lia);
      [left|right; split; [done|split; [done|split; [lia|done]]]].
    cbn [mbind outcome_bind]. destruct (Z.eqb_spec p NULL); [done|].
    rewrite (remember_ok ids) by (done || lia). cbn [mbind outcome_bind]. rewrite max_if.
    match goal with |- context [Ok (?b, _, _)] => specialize (Hb b eq_refl eq_refl) end.
    rewrite Et in Hu. destruct (util_add _ _ _ _ _ _ _ _ _ _ _ _ Hu Hb Hh eq_refl) as [Hu' ?];
      [lia|done|]. rewrite s32_id by (unfold is_s32; lia).
    rewrite Et. replace (caps L + size o) with (size o + caps L) by lia.
    eexists _, _, _, _. split; [reflexivity|]. split; [done|]. split; [done|]. split; [exact Hu'|done].
  - rewrite !andb_true_iff, bool_decide_eq_true, Z.sub_0_r. intros (Hil & Hok). left.
    destruct (util_free_ok _ _ _ _ _ _ _ _ _ Hrun Hu Hil) as (d' & G' & E & ? & ? & ?).
    rewrite E. by eexists _, _, _, _.
  - rewrite !andb_true_iff, bool_decide_eq_true. intros ((((? & ?) & ?) & ?) & Hok).
    destruct (step_realloc ids G live budget (index o) (size o) d)
      as (g & G' & HG & Ei & ? & Hz & Hni & ? & Hres); try (done || lia).
    rewrite Ei in *. destruct (util_drop _ _ _ _ _ _ _ _ Hu HG Hni) as (Hu' & Et' & Hsz).
    { pose proof (ri_blocks _ _ _ _ _ Hrun) as HB. rewrite HG in HB.
      apply Forall_cons_1 in HB as [(_ & ? & _) _]. lia. }
    unfold vget. rewrite Hsz, Hz. cbn -[caps remember].
    destruct Hres as [(q & c & s' & E & Hq & Hh & Hb)|[E ?]]; rewrite E; cbn -[caps remember];
      [left|right; split; [done|split; [done|split; [lia|done]]]].
    destruct (Z.eqb_spec q NULL); [done|].
    rewrite (remember_ok ids) by (done || lia). cbn -[caps]. rewrite max_if.
    match goal with |- context [Ok (?b, _, _)] => specialize (Hb b eq_refl eq_refl) end.
    destruct (util_add _ _ _ _ _ _ _ _ _ _ _ _ Hu' Hb Hh eq_refl) as [Hu2 ?]; [lia|done|].
    rewrite (s32_id (g_len g)) by (unfold is_s32; lia).
    rewrite s32_id by (unfold is_s32; lia).
    set (L' := filter _ L) in *. change (caps ((g_id g, size o) :: L')) with (size o + caps L').
    replace (total + (size o - g_len g)) with (size o + caps L') by lia.
    eexists _, _, _, _. split; [reflexivity|]. split; [done|]. split; [done|]. split; [exact Hu2|done].
Qed.

(** [eval_mm_util] stops in state [d']. *)
Definition measures (x : Z * Z * drv S) d' : Prop := x.2 = d'.

Lemma eval_mm_util_ok sg t d :
  trace_ok sg t = true -> startable (pkg d) ->
  zlen (t_blocks d) = num_ids t -> zlen (t_sizes d) = num_ids t ->
  (exists d' A, eval_mm_util t d = Ok (high_water [] 0 (ops t), mem_heapsize (pkg d'), d') /\
     errors d' = errors d /\ inv (pkg d') A /\
     0 <= high_water [] 0 (ops t) <= mem_heapsize (pkg d') /\
     zlen (t_blocks d') = num_ids t /\ zlen (t_sizes d') = num_ids t) \/
  (stops eval_mm_util measures t d /\ capacity < spent (ops t)).
Proof.
  unfold trace_ok. rewrite !andb_true_iff, Z.eqb_eq. intros ((Hno & _) & Hok) Hst Hzb Hzs.
  destruct (law_init _ Hst) as (s0 & E0 & Hi0 & Hr0).
  unfold eval_mm_util. cbn [pkg with_pkg]. rewrite E0. cbn [mbind outcome_bind].
  destruct (Z.ltb_spec 0 0); [lia|].
  match goal with |- context [for_range _ _ ?b ?d0] =>
    destruct (for_range_or (S := util_state) (fun i st => exists G live budget L,
      run_inv (num_ids t) G live budget st.1.1 /\
      util_inv (num_ids t) G L st.1.1 st.1.2 st.2 /\ errors st.1.1 = errors d /\
      high_water L st.2 (drop (Z.to_nat i) (ops t)) = high_water [] 0 (ops t) /\
      budget - spent (drop (Z.to_nat i) (ops t)) = capacity - spent (ops t) /\
      ops_ok sg (num_ids t) live (drop (Z.to_nat i) (ops t)) = true)
      (fun i st => exists o, zget (ops t) i = Some o /\ starved o st.1.1 /\ capacity < spent (ops t))
      OutOfBounds (num_ops t) b d0)
      as [([[d1 total] mx] & -> & G & live & budget & L & Hrun & Hu & He & Hhw & _)|
          (E & k & [[d1 total] mx] & Hk & Ek & o & Ho & (? & ? & ?) & ?)] end.
  - pose proof (zlen_nonneg (ops t)). lia.
  - exists [], [], capacity, []. split; [by eapply run_start|]. split; [|done].
    pose proof (law_size _ _ Hi0). split; cbn in *; (done || lia || constructor).
  - intros i [[d1 total] mx] Hi (G & live & budget & L & Hrun & Hu & He & Hhw & Hbud & Hops). cbn [fst snd] in *.
    destruct (zget_in_range (ops t) i ltac:(lia)) as [o Ho]. unfold vget at 1 2. rewrite Ho. cbn [mbind outcome_bind].
    rewrite (drop_zget _ _ _ Ho) in Hops, Hhw, Hbud.
    destruct (util_op_ok _ _ _ _ _ _ _ _ _ _ _ Hrun Hu Hops)
      as [(d' & G' & live' & total' & -> & He' & Hrun' & Hu' & Hops')|[-> Hst']]; [left|right].
    + apply wp_ret. exists G', live', (budget - op_cost o), (abs_op o L). cbn [fst snd].
      split; [done|]. split; [done|]. split; [congruence|]. split; [done|].
      split; [rewrite spent_cons in Hbud; lia|done].
    + split; [done|]. exists o. split; [done|]. split; [done|].
      eapply starved_spent; [exact Hst'|apply Hrun|apply Hrun|exact Hbud|exact Hops].
  - left. cbn in *. pose proof (run_total_bound _ _ _ _ _ _ _ _ Hrun Hu).
    destruct Hu as [_ _ Um _ Uz]. rewrite Hno, drop_ge in Hhw by (unfold zlen; lia). cbn in Hhw. subst mx.
    exists d1, (g_blk <$> G). split; [done|]. split; [done|]. split; [apply Hrun|]. split; [lia|].
    split; [apply Hrun|done].
  - right. split; [|done]. split.
    + unfold eval_mm_util. cbn [pkg with_pkg]. rewrite E0. cbn [mbind outcome_bind].
      destruct (Z.ltb_spec 0 0); [lia|]. by rewrite E.
    + exists k, (mx, mem_heapsize (pkg d1), d1), d1, o. split; [|done]. unfold eval_mm_util.
      cbn [pkg with_pkg first num_ops ops]. rewrite E0. cbn [mbind outcome_bind].
      destruct (Z.ltb_spec 0 0); [lia|]. by rewrite Ek.
Qed.

(** ** The three together *)

(** The heap is exhausted in one of the three runs of the driver on a trace. *)
Definition exhausts t d : Prop :=
  stops eval_mm_valid accepts t d \/
  exists d1, eval_mm_valid t d = Ok (1, d1) /\
    (stops eval_mm_util measures t d1 \/
     exists x d2, eval_mm_util t d1 = Ok x /\ measures x d2 /\ stops eval_mm_speed eq t d2).

Lemma driver_ok t d :
  trace_ok low_byte_is_char t = true -> startable (pkg d) ->
  zlen (t_blocks d) = num_ids t -> zlen (t_sizes d) = num_ids t ->
  (exists d1 d2 d3, eval_mm_valid t d = Ok (1, d1) /\
     eval_mm_util t d1 = Ok (high_water [] 0 (ops t), mem_heapsize (pkg d2), d2) /\
     0 <= high_water [] 0 (ops t) <= mem_heapsize (pkg d2) /\
     eval_mm_speed t d2 = Ok d3 /\ errors d3 = errors d) \/
  (exhausts t d /\ capacity < spent (ops t)).
Proof.
  intros Ht Hs Hb Hz.
  destruct (eval_mm_valid_ok t d Ht Hs Hb Hz) as [(d1 & A1 & E1 & He1 & Hi1 & Hb1 & Hz1)|[? ?]]; [|by right; split; [left|]].
  destruct (eval_mm_util_ok _ t d1 Ht (law_start _ _ Hi1) Hb1 Hz1)
    as [(d2 & A2 & E2 & He2 & Hi2 & Hw & Hb2 & _)|[? ?]]; [|by right; split; [right; exists d1; split; [|left]|]].
  destruct (eval_mm_speed_ok _ t d2 Ht (law_start _ _ Hi2) Hb2) as [(d3 & A3 & E3 & He3 & _)|[? ?]].
  - left. exists d1, d2, d3. split; [done|]. split; [done|]. split; [done|]. split; [done|]. congruence.
  - right. split; [|done]. right. exists d1. split; [done|]. right. by eexists _, d2.
Qed.
End Runs.

(** * What [add_range] checks *)

(** A recorded payload that the test of [add_range] does not see: it is apart
    from the new payload [l..h] or strictly inside it. *)
Definition not_detected (l h : Z) (r : range_t) : Prop :=
  hi r < l \/ h < lo r \/ (l < lo r /\ hi r < h).

(** C9: for a positive size add_range records a payload exactly when it is aligned,
    inside the heap, and every recorded payload is disjoint from it or lies strictly
    inside it; a payload that strictly encloses a recorded one is accepted. *)
Theorem add_range_accepts_iff {S : Type} `{MallocPackage S} (d : drv S) (p n : Z) :
  0 < n -> Forall (fun r => lo r <= hi r) (ranges d) ->
  add_range p n d = Ok (1, with_ranges (MkRange p (p + n - 1) :: ranges d) d) <->
  IS_ALIGNED p = true /\
  (mem_heap_lo (pkg d) <= p /\ p + n - 1 <= mem_heap_hi (pkg d)) /\
  Forall (not_detected p (p + n - 1)) (ranges d).
Proof.
  intros Hn Hr. unfold add_range, require. destruct (Z.ltb_spec 0 n); [|lia].
  cbn [mbind outcome_bind]. destruct (IS_ALIGNED p); cbn [negb];
    [|split; [discriminate|by intros [? _]]].
  destruct (_ || _ || _ || _) eqn:Eh; [split; [discriminate|intros (_ & ? & _); lia]|].
  assert (Hov : existsb (overlaps p (p + n - 1)) (ranges d) = false <->
    Forall (not_detected p (p + n - 1)) (ranges d)).
  { clear Eh. induction Hr as [|r rs Hlh Hrs IH]; cbn; [split; [constructor|done]|].
    rewrite orb_false_iff, IH, list.Forall_cons. unfold overlaps, not_detected. split; intros [? ?]; (split; [lia|done]). }
  rewrite <- Hov. destruct (existsb _ _).
  - split; [discriminate|by intros (_ & _ & ?)].
  - split; [|done]. intros _. split; [done|]. split; [lia|done].
Qed.
