(* ===== verification/MDriverMm.v ===== *)
(** The driver linked with mm.c: the allocator of [Mm] is an instance of
    [MallocPackage] and its specifications discharge [MallocLaws], so the
    theorems of [MDriverSpec] hold of the program that the Makefile builds. *)

From S2P Require Import Prelude MemLib Mm MmHeap MmCoalesce MmSpec MmTotal MDriver MDriverSpec.

(** * The link *)

Definition set_ml (f : memlib -> memlib) (s : mm_state) : mm_state :=
  MkMm (f (ml s)) (total_free_size s).

Definition mm_read_byte (s : mm_state) (x : Z) : outcome Z :=
  if in_storage (ml s) x 1 then Ok (mem_bytes (ml s) x) else Fault OutOfBounds.

Definition mm_memset (p c n : Z) (s : mm_state) : outcome mm_state :=
  if in_storage (ml s) p n then Ok (with_mem (fun m => MemLib.memset m p c n) s)
  else Fault OutOfBounds.

#[export] Instance mm_package : MallocPackage mm_state := {
  MDriver.mm_init := Mm.mm_init;
  MDriver.mm_malloc := Mm.mm_malloc;
  MDriver.mm_realloc := Mm.mm_realloc;
  MDriver.mm_free := Mm.mm_free;
  MDriver.mem_reset_brk := set_ml MemLib.mem_reset_brk;
  MDriver.mem_heap_lo s := MemLib.mem_heap_lo (ml s);
  MDriver.mem_heap_hi s := MemLib.mem_heap_hi (ml s);
  MDriver.mem_heapsize s := MemLib.mem_heapsize (ml s);
  MDriver.read_byte := mm_read_byte;
  MDriver.memset := mm_memset
}.

(** * The laws *)

(** The usable part of a block. *)
Definition payload (b : Z * Z) : Z * Z := (b.1, b.2 - 16).

Definition mm_inv (s : mm_state) (A : list (Z * Z)) : Prop :=
  exists B, live s B /\ A ≡ₚ payload <$> B.

Definition mm_startable (s : mm_state) : Prop :=
  fresh (MemLib.mem_reset_brk (ml s)) /\ 0 <= total_free_size s < 2 ^ 32.

Definition mm_room (s : mm_state) : Z := mem_max_addr (ml s) - mem_brk (ml s).
Definition mm_capacity : Z := MAX_HEAP - 8.
Definition mm_cost (n : Z) : Z := Z.max n (block_size n).
Definition mm_byte (s : mm_state) : Z -> Z := mem_bytes (ml s).

Definition mm_same (A : list (Z * Z)) (s s' : mm_state) : Prop :=
  (forall a c x, (a, c) ∈ A -> a <= x < a + c -> mm_byte s' x = mm_byte s x) /\
  MemLib.mem_heapsize (ml s) <= MemLib.mem_heapsize (ml s').

Lemma mm_inv_intro s B : live s B -> mm_inv s (payload <$> B).
Proof. intros Hl. by exists B. Qed.

(** The block behind a payload. *)
Lemma mm_inv_cons s p c A :
  mm_inv s ((p, c) :: A) ->
  exists B, live s ((p, c + 16) :: B) /\ A ≡ₚ payload <$> B.
Proof.
  intros (B & Hl & HA).
  assert (Hin : (p, c) ∈ payload <$> B) by (rewrite <- HA; by apply elem_of_cons; left).
  apply list_elem_of_fmap in Hin as ([p' z] & E & Hin). unfold payload in E. cbn in E.
  inversion E; subst p' c. destruct (proj1 (elem_of_Permutation B _) Hin) as [B' HB].
  exists B'. replace (z - 16 + 16) with z by lia. split; [by rewrite <- HB|].
  rewrite HB, fmap_cons in HA. by apply Permutation_cons_inv in HA.
Qed.

Lemma mm_inv_add s p sz A B :
  live s ((p, sz) :: B) -> A ≡ₚ payload <$> B -> mm_inv s ((p, sz - 16) :: A).
Proof. intros Hl HA. exists ((p, sz) :: B). split; [done|]. by rewrite HA. Qed.

Lemma keeps_same s s' A B : keeps B s s' -> A ≡ₚ payload <$> B -> mm_same A s s'.
Proof.
  intros (E1 & _ & E3 & Hp) HA. split; [|unfold MemLib.mem_heapsize; lia].
  intros a c x Hin Hx. rewrite HA in Hin.
  apply list_elem_of_fmap in Hin as ([a' z] & E & Hin). unfold payload in E. cbn in E.
  inversion E; subst. apply (Hp a' z); [done|lia].
Qed.

Lemma live_geom s B : live s B ->
  geom (mem_start_brk (ml s)) (mem_brk (ml s)) (mem_max_addr (ml s)) /\ 0 <= total_free_size s < 2 ^ 32.
Proof. by intros (bs & (Hg & _ & _ & Ht) & _). Qed.

Lemma mm_cost_block n : 0 < n < 2 ^ 31 -> mm_cost n = block_size n.
Proof. intros Hn. unfold mm_cost. destruct (block_size_int n Hn). lia. Qed.

(** The payloads of the allocated blocks fit in the list. *)
Lemma caps_allocs m p bs q :
  seg m p bs q -> caps (payload <$> allocs p bs) <= bsize bs.
Proof.
  revert p. induction bs as [|[sz al] r IH]; intros p; cbn [seg allocs bsize]; [done|].
  intros [[Hsz _] Hs]. specialize (IH _ Hs). destruct al; cbn [app]; [|lia].
  change (sz - 16 + caps (payload <$> allocs (p + sz) r) <= sz + bsize r). lia.
Qed.

#[export] Program Instance mm_laws : MallocLaws mm_state := {
  inv := mm_inv;
  startable := mm_startable;
  room := mm_room;
  capacity := mm_capacity;
  cost := mm_cost;
  full s n := heap_full s (block_size n);
  byte := mm_byte
}.
Next Obligation. intros s A B HAB (C & Hl & HA). exists C. by rewrite <- HAB. Qed.
Next Obligation.
  intros s A (B & Hl & _). destruct (live_geom _ _ Hl) as [(? & ? & ? & ? & ? & ?) ?].
  split; [|done]. unfold fresh. cbn. done.
Qed.
Next Obligation.
  intros s [Hf Ht]. destruct (mm_init_live (set_ml MemLib.mem_reset_brk s)) as (r & s' & E & -> & Hl & E1 & E2 & E3 & _);
    [done..|].
  exists s'. split; [exact E|]. split; [by exists []|]. unfold mm_room, mm_capacity.
  rewrite E2, E3. cbn. destruct Hf as (_ & _ & _ & HM & _). cbn in HM. lia.
Qed.
Next Obligation.
  intros s p c A (B & Hl & HA)%mm_inv_cons.
  destruct (live_bounds s p (c + 16) _ Hl) as (H8 & Hsz & _ & Hp & Hq); [by apply elem_of_cons; left|].
  destruct (live_geom _ _ Hl) as [(? & ? & ? & ? & ? & ?) _]. unfold heap_base in Hp.
  split; [unfold MDriver.NULL; lia|]. split.
  { unfold IS_ALIGNED. rewrite u32_id by (unfold is_u32; lia). by apply Z.eqb_eq. }
  cbn. unfold MemLib.mem_heap_lo, MemLib.mem_heap_hi. split; [lia|]. split; [lia|].
  intros a z Hin. rewrite HA in Hin. apply list_elem_of_fmap in Hin as ([a' z'] & E & Hin).
  inversion E; subst. pose proof (live_disjoint _ _ _ _ Hl a' z' Hin). cbn. lia.
Qed.
Next Obligation.
  intros s A (B & (bs & Hwf & HB) & HA). rewrite (caps_perm _ _ HA).
  rewrite <- (caps_perm _ _ (fmap_Permutation payload _ _ HB)).
  destruct Hwf as ((? & ? & ? & ? & ? & HM) & Hseg & _). fold (heap_base s) in Hseg.
  pose proof (caps_allocs _ _ _ _ Hseg). pose proof (seg_end _ _ _ _ Hseg).
  unfold MemLib.mem_heapsize, heap_base in *. cbn [MDriver.mem_heapsize mm_package].
  unfold MemLib.mem_heapsize. change MAX_HEAP with 20971520 in HM. lia.
Qed.
Next Obligation.
  intros n Hn. unfold mm_cost. lia.
Qed.
Next Obligation.
  intros s A n _ Hn [Hf _]. rewrite mm_cost_block by done. unfold mm_room. lia.
Qed.
Next Obligation.
  intros s p c A x (B & Hl & HA)%mm_inv_cons Hx.
  destruct (live_bounds s p (c + 16) _ Hl) as (_ & _ & _ & Hp & Hq); [by apply elem_of_cons; left|].
  destruct (live_geom _ _ Hl) as [(? & ? & ? & ? & ? & ?) _]. unfold heap_base in Hp.
  cbn. unfold mm_read_byte, in_storage. by replace (_ && _) with true by lia.
Qed.
Next Obligation.
  intros s A n (B & Hl & HA) Hn. destruct (block_size_int n Hn) as [_ ?].
  destruct (mm_malloc_served s B n Hl Hn) as [(p & s' & E & sz & Hz & Hl' & Hk & Hbrk)|?]; [left|by right].
  exists p, (sz - 16), s'. split; [exact E|]. split; [by eapply mm_inv_add|]. split; [lia|].
  split; [by eapply keeps_same|]. rewrite mm_cost_block by done. unfold mm_room. destruct Hk as (_ & -> & _). lia.
Qed.
Next Obligation.
  intros s p c A n (B & Hl & HA)%mm_inv_cons Hn. destruct (block_size_int n Hn) as [_ ?].
  destruct (mm_realloc_served s B p (c + 16) n Hl Hn)
    as [(q & s' & E & zq & Hz & Hl' & Hk & Hm & Hbrk)|?]; [left|by right].
  exists q, (zq - 16), s'. split; [exact E|]. split; [by eapply mm_inv_add|]. split; [lia|].
  split; [by eapply keeps_same|]. split.
  - rewrite mm_cost_block by done. unfold mm_room. destruct Hk as (_ & -> & _). lia.
  - intros i Hi. apply Hm. lia.
Qed.
Next Obligation.
  intros s p c A (B & Hl & HA)%mm_inv_cons.
  destruct (mm_free_live s B p (c + 16) Hl) as ([] & s' & E & Hl' & _ & Hbrk & Hk).
  apply (keeps_sub B) in Hk; [|intros b ?; by apply elem_of_cons; right].
  exists s'. split; [exact E|]. split; [by exists B|]. split; [by eapply keeps_same|].
  unfold mm_room. destruct Hk as (_ & -> & _). lia.
Qed.
Next Obligation.
  intros s p c A b n (B & Hl & HA)%mm_inv_cons Hn.
  destruct (live_bounds s p (c + 16) _ Hl) as (_ & _ & _ & Hp & Hq); [by apply elem_of_cons; left|].
  destruct (live_geom _ _ Hl) as [(? & ? & ? & ? & ? & ?) _]. unfold heap_base in Hp.
  destruct (write_payload s B p (c + 16) (fun m => MemLib.memset m p b n) Hl) as [Hl' Hk].
  { intros x Hx. unfold MemLib.memset. by replace (_ && _) with false by lia. }
  exists (with_mem (fun m => MemLib.memset m p b n) s). split.
  { cbn. unfold mm_memset, in_storage. by replace (_ && _) with true by lia. }
  split; [replace c with (c + 16 - 16) by lia; by eapply mm_inv_add|].
  split; [by eapply keeps_same|]. split; [done|].
  intros i Hi. cbn. unfold MemLib.memset. by replace (_ && _) with true by lia.
Qed.

(** * The driver on mm.c *)

(** C3: on every trace in which ids are allocated before use and not twice, sizes are
    positive ints and reallocated ids have a low byte below 128 (all traces of the
    handout are such), the driver linked with mm.c accepts: eval_mm_valid returns 1,
    eval_mm_util returns the high-water mark of the live bytes over a heap that is at
    least as large, eval_mm_speed finishes, and the error counter is unchanged; or one
    of the three runs, having finished on the trace up to some request, faults at that
    request because no free block is large enough for it, before or after coalescing,
    and the break cannot move that far. The second case needs requests whose blocks,
    freed or not, add up to more than the heap. *)
Theorem mm_passes_driver (t : trace_t) (d : drv mm_state) :
  trace_ok low_byte_is_char t = true -> mm_startable (pkg d) ->
  zlen (t_blocks d) = num_ids t -> zlen (t_sizes d) = num_ids t ->
  (exists d1 d2 d3,
     eval_mm_valid t d = Ok (1, d1) /\
     eval_mm_util t d1 = Ok (high_water [] 0 (ops t), mem_heapsize (pkg d2), d2) /\
     0 <= high_water [] 0 (ops t) <= mem_heapsize (pkg d2) /\
     eval_mm_speed t d2 = Ok d3 /\ errors d3 = errors d) \/
  (exhausts t d /\ MAX_HEAP - 8 < spent (ops t)).
Proof. exact (driver_ok t d). Qed.

(** A trace of two ids: allocate both, grow the first, free the second. *)
Definition demo_trace : trace_t := MkTrace 0 2 4 1
  [MkOp ALLOC 0 40; MkOp ALLOC 1 24; MkOp REALLOC 0 100; MkOp FREE 1 0] [0; 0] [0; 0].

(** Storage from libc at 4096, nothing allocated. *)
Definition demo_drv (blocks sizes : list Z) : drv mm_state :=
  MkDrv (mk 4096 4096 (4096 + MAX_HEAP) (fun _ => 0) 0) [] 0 blocks sizes.

Lemma mm_passes_driver_witness :
  exists d1, eval_mm_valid demo_trace (demo_drv [0; 0] [0; 0]) = Ok (1, d1).
Proof.
  destruct (mm_passes_driver demo_trace (demo_drv [0; 0] [0; 0])) as [(d1 & d2 & d3 & E & _)|[_ H]];
    [vm_compute; intuition congruence..| |vm_compute in H; discriminate H].
  exists d1. exact E.
Defined.

Lemma add_range_accepts_iff_witness :
  IS_ALIGNED 4104 = true /\
  add_range 4104 40 (MkDrv (mk 4096 8192 (4096 + MAX_HEAP) (fun _ => 0) 0) [MkRange 4112 4119] 0 [] [])
  = Ok (1, MkDrv (mk 4096 8192 (4096 + MAX_HEAP) (fun _ => 0) 0)
             [MkRange 4104 4143; MkRange 4112 4119] 0 [] []).
Proof.
  split; [reflexivity|].
  apply (add_range_accepts_iff
    (MkDrv (mk 4096 8192 (4096 + MAX_HEAP) (fun _ => 0) 0) [MkRange 4112 4119] 0 [] []) 4104 40).
  - lia.
  - constructor; [cbn; lia|constructor].
  - split; [reflexivity|]. split; [vm_compute; split; congruence|].
    constructor; [unfold not_detected; cbn; lia|constructor].
Defined.

(** A block whose id has a low byte of 128 or more, reallocated once. *)
Definition signed_trace : trace_t := MkTrace 0 129 2 1
  [MkOp ALLOC 128 8; MkOp REALLOC 128 16] (zreplicate 129 0) (zreplicate 129 0).

(** What the caller of [eval_mm_valid] sees: the result and the error count. *)
Definition verdict (o : outcome (Z * drv mm_state)) : option (Z * Z) :=
  match o with Ok (r, d) => Some (r, errors d) | Fault _ => None end.

(** Two requests of 15 MB fit one after the other, although they need more than the
    heap together; a third one that is live with the second does not. *)
Definition recycled_trace (last : list traceop_t) : trace_t := MkTrace 0 2 (3 + zlen last) 1
  ([MkOp ALLOC 0 15000000; MkOp FREE 0 0; MkOp ALLOC 0 15000000] ++ last) [0; 0] [0; 0].

Example driver_recycles :
  (MAX_HEAP - 8 <? spent (ops (recycled_trace []))) = true /\
  verdict (eval_mm_valid (recycled_trace []) (demo_drv [0; 0] [0; 0])) = Some (1, 0) /\
  eval_mm_valid (recycled_trace [MkOp ALLOC 1 15000000]) (demo_drv [0; 0] [0; 0]) = Fault OutOfBounds.
Proof. repeat split; vm_compute; reflexivity. Qed.

(** the data check of eval_mm_valid compares a signed char with index & 0xFF, so
    the driver reports an error for a well-formed trace that reallocates id 128,
    although mm.c serves it correctly. *)
Theorem driver_rejects_high_ids :
  trace_ok (fun _ => true) signed_trace = true /\
  verdict (eval_mm_valid signed_trace (demo_drv (zreplicate 129 0) (zreplicate 129 0))) = Some (0, 1).
Proof. split; vm_compute; reflexivity. Qed.
