(* ===== verification/Double.v ===== *)
(** Floating-point arithmetic as the timing code uses it.

    The timers compute with [double].  The class lists the operations they use;
    the only law they rely on is that [<] is a strict weak order (true of every
    IEEE format without NaN).  The instance on canonical rationals is the exact
    arithmetic that rounding approximates; it makes every definition executable. *)

From Stdlib Require Import QArith Qcanon.
From S2P Require Import Prelude.
Local Open Scope Z_scope.

Class Double (D : Type) := {
  d_order :: StrictWeak D;
  d_lit : Z -> positive -> D;          (* the literal num/den *)
  d_add : D -> D -> D;
  d_sub : D -> D -> D;
  d_mul : D -> D -> D;
  d_div : D -> D -> D
}.

(** Conversion of an integer. *)
Definition d_of_Z {D} `{Double D} (z : Z) : D := d_lit z 1.

(** [a >= b] and [a == b] of values without NaN. *)
Definition d_geb {D} `{Double D} (a b : D) : bool := negb (ltb a b).
Definition d_eqb {D} `{Double D} (a b : D) : bool := negb (ltb a b) && negb (ltb b a).

(** * Exact arithmetic *)

Definition qc_ltb (a b : Qc) : bool := negb (Qle_bool b a).

Lemma qc_ltb_spec a b : qc_ltb a b = true <-> (a < b)%Qc.
Proof.
  unfold qc_ltb, Qclt. rewrite negb_true_iff, <- not_true_iff_false, Qle_bool_iff.
  split; [apply Qnot_le_lt|apply Qlt_not_le].
Qed.

Lemma qc_ltb_false a b : qc_ltb a b = false <-> (b <= a)%Qc.
Proof. unfold qc_ltb. rewrite negb_false_iff. apply Qle_bool_iff. Qed.

#[export] Program Instance Qc_strict_weak : StrictWeak Qc := {| ltb := qc_ltb |}.
Next Obligation. intros a b. rewrite qc_ltb_spec, qc_ltb_false. apply Qclt_le_weak. Qed.
Next Obligation. intros a b c. rewrite !qc_ltb_false. apply Qcle_trans. Qed.

#[export] Instance Qc_double : Double Qc := {|
  d_lit n d := Q2Qc (n # d);
  d_add := Qcplus; d_sub := Qcminus; d_mul := Qcmult; d_div := Qcdiv
|}.
