(* ===== verification/Clock.v ===== *)
(** The clocks of the malloc lab: the cycle counter of [clock.c] and the
    averaging timers of [ftimer.c].

    The hardware and the system calls are read through four streams: [tsc n] is
    the 64-bit value of the [n]-th [rdtsc], [utime n] the user time of the [n]-th
    [times()], [tod n] the result of the [n]-th [gettimeofday] and [itimer n]
    that of the [n]-th [getitimer(ITIMER_REAL)].  [clock] holds the static
    variables and the number of readings made of each stream. *)

From Stdlib Require Import QArith Qcanon.
From S2P Require Import Prelude Double.
Local Open Scope Z_scope.

Record clock (D : Type) := MkClock {
  cyc_hi : Z;
  cyc_lo : Z;
  cyc_per_tick : D;
  start_tick : Z;
  first_p : Z * Z;
  n_tsc : nat;
  n_times : nat;
  n_tod : nat;
  n_itimer : nat
}.
Arguments MkClock {D}.
Arguments cyc_hi {D}. Arguments cyc_lo {D}. Arguments cyc_per_tick {D}. Arguments start_tick {D}.
Arguments first_p {D}. Arguments n_tsc {D}. Arguments n_times {D}. Arguments n_tod {D}.
Arguments n_itimer {D}.

Definition NEVENT : Z := 100.
Definition THRESHOLD : Z := 1000.
Definition RECORDTHRESH : Z := 3000.
Definition MAX_ETIME : Z := 86400.

(** The subtraction of two readings split in 32-bit halves. *)
Definition counter_diff (cyc_hi cyc_lo ncyc_hi ncyc_lo : Z) : Z * Z :=
  let lo := u32 (ncyc_lo - cyc_lo) in
  let borrow := if ncyc_lo <? lo then 1 else 0 in
  let hi := u32 (u32 (ncyc_hi - cyc_hi) - borrow) in
  (hi, lo).

Section Clock.
Context {D : Type} `{Double D}.
Context (tsc utime : nat -> Z) (tod itimer : nat -> Z * Z).
Implicit Types c : clock D.

(** The initial values of the static variables. *)
Definition clock0 : clock D := MkClock 0 0 (d_of_Z 0) 0 (0, 0) 0 0 0 0.

Definition access_counter c : Z * Z * clock D :=
  let v := tsc (n_tsc c) in
  (u32 (Z.shiftr v 32), u32 v,
   MkClock (cyc_hi c) (cyc_lo c) (cyc_per_tick c) (start_tick c) (first_p c)
     (S (n_tsc c)) (n_times c) (n_tod c) (n_itimer c)).

Definition start_counter c : clock D :=
  let '(hi, lo, c) := access_counter c in
  MkClock hi lo (cyc_per_tick c) (start_tick c) (first_p c)
    (n_tsc c) (n_times c) (n_tod c) (n_itimer c).

Definition get_counter c : D * clock D :=
  let '(ncyc_hi, ncyc_lo, c) := access_counter c in
  let '(hi, lo) := counter_diff (cyc_hi c) (cyc_lo c) ncyc_hi ncyc_lo in
  (d_add (d_mul (d_mul (d_of_Z hi) (d_of_Z (Z.shiftl 1 30))) (d_of_Z 4)) (d_of_Z lo), c).

Definition ovhd c : D * clock D :=
  let '(_, c) := get_counter (start_counter c) in
  get_counter (start_counter c).

(** [sleep] only lets time pass, which the stream [tsc] shows. *)
Definition mhz_full (sleeptime : Z) c : D * clock D :=
  let '(cycles, c) := get_counter (start_counter c) in
  (d_div cycles (d_mul (d_of_Z 1000000) (d_of_Z sleeptime)), c).

Definition mhz c : D * clock D := mhz_full 2 c.

(** [times(&t); t.tms_utime] *)
Definition read_utime c : Z * clock D :=
  (utime (n_times c),
   MkClock (cyc_hi c) (cyc_lo c) (cyc_per_tick c) (start_tick c) (first_p c)
     (n_tsc c) (S (n_times c)) (n_tod c) (n_itimer c)).

Definition set_cyc_per_tick (cpt : D) c : clock D :=
  MkClock (cyc_hi c) (cyc_lo c) cpt (start_tick c) (first_p c)
    (n_tsc c) (n_times c) (n_tod c) (n_itimer c).

(** One round of the loop of [callibrate], state [(e, oldt, oldc, c)]. *)
Definition callibrate_step (st : Z * D * Z * clock D)
  : outcome (Z * D * Z * clock D + clock D) :=
  let '(e, oldt, oldc, c) := st in
  if e <? NEVENT then
    let '(newt, c) := get_counter c in
    if d_geb (d_sub newt oldt) (d_of_Z THRESHOLD) then
      let '(newc, c) := read_utime c in
      if oldc <? newc then
        let cpt := d_div (d_sub newt oldt) (d_of_Z (newc - oldc)) in
        let c := if (d_eqb (cyc_per_tick c) (d_of_Z 0) || ltb cpt (cyc_per_tick c)) &&
                    ltb (d_of_Z RECORDTHRESH) cpt
                 then set_cyc_per_tick cpt c else c in
        Ok (inl (e + 1, newt, newc, c))
      else Ok (inl (e, newt, oldc, c))
    else Ok (inl (e, oldt, oldc, c))
  else Ok (inr c).

(** The loop waits for events; [fuel] bounds the number of readings. *)
Definition callibrate (fuel : nat) c : outcome (clock D) :=
  let '(oldc, c) := read_utime c in
  let '(oldt, c) := get_counter (start_counter c) in
  while_fuel fuel callibrate_step (0, oldt, oldc, c).

Definition start_comp_counter (fuel : nat) c : outcome (clock D) :=
  c ← (if d_eqb (cyc_per_tick c) (d_of_Z 0) then callibrate fuel c else Ok c);
  let '(t, c) := read_utime c in
  Ok (start_counter
        (MkClock (cyc_hi c) (cyc_lo c) (cyc_per_tick c) t (first_p c)
           (n_tsc c) (n_times c) (n_tod c) (n_itimer c))).

Definition get_comp_counter c : D * clock D :=
  let '(time, c) := get_counter c in
  let '(t, c) := read_utime c in
  let ticks := t - start_tick c in
  (d_sub time (d_mul (d_of_Z ticks) (cyc_per_tick c)), c).

(** * ftimer.c *)

(** The interval timers are armed with MAX_ETIME seconds. *)
Definition init_etime c : clock D :=
  MkClock (cyc_hi c) (cyc_lo c) (cyc_per_tick c) (start_tick c) (MAX_ETIME, 0)
    (n_tsc c) (n_times c) (n_tod c) (n_itimer c).

Definition get_etime c : D * clock D :=
  let '(sec, usec) := itimer (n_itimer c) in
  (d_add (d_of_Z (fst (first_p c) - sec))
     (d_mul (d_of_Z (snd (first_p c) - usec)) (d_lit 1 1000000)),
   MkClock (cyc_hi c) (cyc_lo c) (cyc_per_tick c) (start_tick c) (first_p c)
     (n_tsc c) (n_times c) (n_tod c) (S (n_itimer c))).

(** [gettimeofday(&tv, NULL)] *)
Definition read_tod c : Z * Z * clock D :=
  (tod (n_tod c),
   MkClock (cyc_hi c) (cyc_lo c) (cyc_per_tick c) (start_tick c) (first_p c)
     (n_tsc c) (n_times c) (S (n_tod c)) (n_itimer c)).

Section Timed.
(** The timed function changes a state [W] of its own and can stop the program. *)
Context {W : Type} (f : W -> outcome W).

Definition ftimer_itimer (n : Z) (w : W) c : outcome (D * W * clock D) :=
  let c := init_etime c in
  let '(start, c) := get_etime c in
  w ← for_range 0 n (fun _ w => f w) w;
  let '(now, c) := get_etime c in
  Ok (d_div (d_sub now start) (d_of_Z n), w, c).

Definition ftimer_gettod (n : Z) (w : W) c : outcome (D * W * clock D) :=
  let '(stv_sec, stv_usec, c) := read_tod c in
  w ← for_range 0 n (fun _ w => f w) w;
  let '(etv_sec, etv_usec, c) := read_tod c in
  let diff := d_add (d_mul (d_lit 1000 1) (d_of_Z (etv_sec - stv_sec)))
                (d_mul (d_lit 1 1000) (d_of_Z (etv_usec - stv_usec))) in
  let diff := d_div diff (d_of_Z n) in
  Ok (d_mul (d_lit 1 1000) diff, w, c).
End Timed.
End Clock.

(** * The counter difference is exact *)

Lemma counter_diff_exact start now :
  0 <= start <= now -> now < 2 ^ 64 ->
  let '(hi, lo) := counter_diff (u32 (Z.shiftr start 32)) (u32 start) (u32 (Z.shiftr now 32)) (u32 now) in
  hi * 2 ^ 32 + lo = now - start.
Proof.
  intros Hs Hn. unfold counter_diff. rewrite !Z.shiftr_div_pow2 by lia.
  pose proof (Z.div_mod start (2 ^ 32)). pose proof (Z.mod_pos_bound start (2 ^ 32)).
  pose proof (Z.div_mod now (2 ^ 32)). pose proof (Z.mod_pos_bound now (2 ^ 32)).
  assert (0 <= start / 2 ^ 32 < 2 ^ 32) by (split; [apply Z.div_pos|apply Z.div_lt_upper_bound]; lia).
  assert (0 <= now / 2 ^ 32 < 2 ^ 32) by (split; [apply Z.div_pos|apply Z.div_lt_upper_bound]; lia).
  rewrite (u32_id (start / 2 ^ 32)), (u32_id (now / 2 ^ 32)) by (unfold is_u32; lia). unfold u32.
  set (sh := start / 2 ^ 32) in *. set (sl := start mod 2 ^ 32) in *.
  set (nh := now / 2 ^ 32) in *. set (nl := now mod 2 ^ 32) in *.
  destruct (Z.le_gt_cases sl nl).
  - rewrite (Z.mod_small (nl - sl)) by lia. destruct (Z.ltb_spec nl (nl - sl)); [lia|].
    rewrite Z.sub_0_r, Zmod_mod, Z.mod_small by lia. lia.
  - replace ((nl - sl) mod 2 ^ 32) with (nl - sl + 2 ^ 32)
      by (apply (Z.mod_unique_pos _ _ (-1)); lia).
    destruct (Z.ltb_spec nl (nl - sl + 2 ^ 32)); [|lia].
    rewrite Zminus_mod_idemp_l, Z.mod_small by lia. lia.
Qed.

(** Conversions of the exact instance. *)
Lemma qc_lit_eq n d n' d' : n * Z.pos d' = n' * Z.pos d -> Q2Qc (n # d) = Q2Qc (n' # d').
Proof. intros E. apply Qc_is_canon. cbn. rewrite !Qred_correct. exact E. Qed.

Lemma qc_of_Z_add a b : (Q2Qc (a # 1) + Q2Qc (b # 1) = Q2Qc ((a + b) # 1))%Qc.
Proof. apply Qc_is_canon. cbn. rewrite !Qred_correct. unfold Qeq, Qplus; cbn. lia. Qed.

Lemma qc_of_Z_mul a b : (Q2Qc (a # 1) * Q2Qc (b # 1) = Q2Qc ((a * b) # 1))%Qc.
Proof. apply Qc_is_canon. cbn. rewrite !Qred_correct. unfold Qeq, Qmult; cbn. lia. Qed.

(** the subtraction of two counter readings in 32-bit halves with borrow gives the
    exact 64-bit difference. *)
Theorem get_counter_difference (tsc : nat -> Z) (c : clock Qc) :
  let n := n_tsc c in
  0 <= tsc n <= tsc (S n) -> tsc (S n) < 2 ^ 64 ->
  exists c', get_counter tsc (start_counter tsc c) = (d_of_Z (tsc (S n) - tsc n), c') /\
    n_tsc c' = S (S n).
Proof.
  intros n Hs Hn. pose proof (counter_diff_exact _ _ Hs Hn) as E.
  unfold get_counter, start_counter, access_counter. cbn [n_tsc cyc_hi cyc_lo]. fold n.
  destruct (counter_diff _ _ _ _) as [hi lo]. eexists. split; [apply f_equal2; [|reflexivity]|reflexivity].
  unfold d_of_Z, d_add, d_mul, d_lit; cbn. rewrite !qc_of_Z_mul, qc_of_Z_add.
  change (Z.shiftl 1 30) with (2 ^ 30). f_equal. f_equal. lia.
Qed.

Definition tsc_example (n : nat) : Z := 4294967290 + 7 * Z.of_nat n.

Lemma get_counter_difference_witness :
  exists c', get_counter tsc_example (start_counter tsc_example clock0) = (d_of_Z (4294967297 - 4294967290), c') /\
    n_tsc c' = 2%nat.
Proof. apply (get_counter_difference tsc_example clock0); vm_compute; [split|]; congruence. Defined.

(** The state after [n] runs of [f]. *)
Definition runs {W} (f : W -> outcome W) (n : Z) (w : W) : outcome W := for_range 0 n (fun _ w => f w) w.

(** ftimer_gettod runs the function n times and returns the elapsed time of day
    divided by n, in seconds. *)
Theorem ftimer_gettod_average {W} (f : W -> outcome W) (tod : nat -> Z * Z) (n : Z) (w w' : W) (c : clock Qc) :
  1 <= n -> runs f n w = Ok w' ->
  let '(s1, u1) := tod (n_tod c) in
  let '(s2, u2) := tod (S (n_tod c)) in
  exists secs c', ftimer_gettod tod f n w c = Ok (secs, w', c') /\
    (secs * d_of_Z (1000000 * n))%Qc = d_of_Z (1000000 * (s2 - s1) + (u2 - u1)).
Proof.
  intros Hn Hr. destruct (tod (n_tod c)) as [s1 u1] eqn:E1. destruct (tod (S (n_tod c))) as [s2 u2] eqn:E2.
  unfold ftimer_gettod, read_tod. rewrite E1. cbn [n_tod]. fold (runs f n w). rewrite Hr.
  cbn [mbind outcome_bind]. rewrite E2. do 2 eexists. split; [reflexivity|].
  unfold d_of_Z, d_add, d_mul, d_div, d_lit; cbn -[Z.mul Z.sub Z.add].
  apply Qc_is_canon. cbn -[Z.mul Z.sub Z.add]. rewrite !Qred_correct.
  change (?a # 1)%Q with (inject_Z a). rewrite !inject_Z_plus, !inject_Z_mult.
  assert (~ inject_Z n == 0)%Q by (unfold Qeq; cbn; lia).
  change (inject_Z 1000) with (1000 # 1)%Q. change (inject_Z 1000000) with (1000000 # 1)%Q. field. done.
Qed.

Definition tod_example (n : nat) : Z * Z := (100 + Z.of_nat n, 999000 - 500000 * Z.of_nat n).

Lemma ftimer_gettod_average_witness :
  exists secs c', ftimer_gettod tod_example (fun w => Ok (w + 1)) 10 5 clock0 = Ok (secs, 15, c') /\
    (secs * d_of_Z (1000000 * 10))%Qc = d_of_Z 500000.
Proof. apply (ftimer_gettod_average (fun w => Ok (w + 1)) tod_example 10 5 15 clock0); [lia|reflexivity]. Defined.
