(* ===== verification/Fcyc.v ===== *)
(** The K-best timer of the malloc lab, [fcyc.c], and its wrappers [fsecs.c].

    [fcyc] runs the timed function until the [kbest] smallest cycle counts agree
    within [epsilon] or [maxsamples] runs were made, and returns the smallest. *)

From stdpp Require Import sorting.
From S2P Require Import Prelude Double Clock.
Local Open Scope Z_scope.

(** * The static variables of fcyc.c *)

Record sampler (D : Type) := MkSampler {
  kbest : Z;
  maxsamples : Z;
  epsilon : D;
  compensate : bool;
  clear_cache : bool;
  cache_bytes : Z;
  cache_block : Z;
  cache_buf : bool;         (* cache_buf != NULL *)
  sink : Z;
  values : list D;          (* [] stands for NULL *)
  samplecount : Z
}.
Arguments MkSampler {D}.
Arguments kbest {D}. Arguments maxsamples {D}. Arguments epsilon {D}. Arguments compensate {D}.
Arguments clear_cache {D}. Arguments cache_bytes {D}. Arguments cache_block {D}.
Arguments cache_buf {D}. Arguments sink {D}. Arguments values {D}. Arguments samplecount {D}.

Section Fcyc.
Context {D : Type} `{Double D}.
Implicit Types s : sampler D.

Definition fcyc_defaults : sampler D :=
  MkSampler 3 20 (d_lit 1 100) false false (Z.shiftl 1 19) 32 false 0 [] 0.

Definition with_values (v : list D) (n : Z) s : sampler D :=
  MkSampler (kbest s) (maxsamples s) (epsilon s) (compensate s) (clear_cache s)
    (cache_bytes s) (cache_block s) (cache_buf s) (sink s) v n.

Definition init_sampler s : sampler D := with_values (zreplicate (kbest s) (d_of_Z 0)) 0 s.

(** The insertion loop of [add_sample]: position and array. *)
Definition insert_step (st : Z * list D) : outcome (Z * list D + list D) :=
  let '(pos, v) := st in
  if 0 <? pos then
    a ← vget v (pos - 1); b ← vget v pos;
    if ltb b a then
      v ← vset v (pos - 1) b; v ← vset v pos a; Ok (inl (pos - 1, v))
    else Ok (inr v)
  else Ok (inr v).

Definition add_sample (val : D) s : outcome (sampler D) :=
  '(pos, v) ←
    (if samplecount s <? kbest s then
       v ← vset (values s) (samplecount s) val; Ok (samplecount s, v)
     else
       last ← vget (values s) (kbest s - 1);
       if ltb val last then v ← vset (values s) (kbest s - 1) val; Ok (kbest s - 1, v)
       else Ok (0, values s));
  v ← while_fuel (S (Z.to_nat pos)) insert_step (pos, v);
  Ok (with_values v (samplecount s + 1) s).

Definition has_converged s : outcome bool :=
  if kbest s <=? samplecount s then
    a ← vget (values s) 0; b ← vget (values s) (kbest s - 1);
    Ok (d_geb (d_mul (d_add (d_of_Z 1) (epsilon s)) a) b)
  else Ok false.

(** The setters; a new cache size drops the buffer. *)
Definition set_fcyc_clear_cache (b : bool) s : sampler D :=
  MkSampler (kbest s) (maxsamples s) (epsilon s) (compensate s) b (cache_bytes s)
    (cache_block s) (cache_buf s) (sink s) (values s) (samplecount s).

Definition set_fcyc_cache_size (bytes : Z) s : sampler D :=
  if bytes =? cache_bytes s then s
  else MkSampler (kbest s) (maxsamples s) (epsilon s) (compensate s) (clear_cache s)
         bytes (cache_block s) false (sink s) (values s) (samplecount s).

Definition set_fcyc_cache_block (bytes : Z) s : sampler D :=
  MkSampler (kbest s) (maxsamples s) (epsilon s) (compensate s) (clear_cache s)
    (cache_bytes s) bytes (cache_buf s) (sink s) (values s) (samplecount s).

Definition set_fcyc_compensate (b : bool) s : sampler D :=
  MkSampler (kbest s) (maxsamples s) (epsilon s) b (clear_cache s)
    (cache_bytes s) (cache_block s) (cache_buf s) (sink s) (values s) (samplecount s).

Definition set_fcyc_k (k : Z) s : sampler D :=
  MkSampler k (maxsamples s) (epsilon s) (compensate s) (clear_cache s)
    (cache_bytes s) (cache_block s) (cache_buf s) (sink s) (values s) (samplecount s).

Definition set_fcyc_maxsamples (n : Z) s : sampler D :=
  MkSampler (kbest s) n (epsilon s) (compensate s) (clear_cache s)
    (cache_bytes s) (cache_block s) (cache_buf s) (sink s) (values s) (samplecount s).

Definition set_fcyc_epsilon (e : D) s : sampler D :=
  MkSampler (kbest s) (maxsamples s) e (compensate s) (clear_cache s)
    (cache_bytes s) (cache_block s) (cache_buf s) (sink s) (values s) (samplecount s).

(** * Clearing the cache *)

Section Timer.
(** The clock streams, the words found in the malloced buffer, whether [malloc]
    succeeds, and the bound on the readings of [callibrate]. *)
Context (tsc utime : nat -> Z) (tod itimer : nat -> Z * Z).
Context (bufword : Z -> Z) (malloc_ok : bool) (cal_fuel : nat).

(** The loop of [clear]: the index [cptr - cache_buf] and the sum. *)
Definition clear_step (cend incr : Z) (st : Z * Z) : outcome (Z * Z + Z) :=
  let '(cptr, x) := st in
  if cptr <? cend then Ok (inl (cptr + incr, s32 (x + bufword cptr))) else Ok (inr x).

Definition clear s : outcome (sampler D) :=
  let incr := s32 (u64 (cache_block s) / 4) in
  require (cache_buf s || malloc_ok) (Exit 1);;
  let cend := u64 (cache_bytes s) / 4 in
  x ← while_fuel (S (Z.to_nat cend)) (clear_step cend incr) (0, sink s);
  Ok (MkSampler (kbest s) (maxsamples s) (epsilon s) (compensate s) (clear_cache s)
        (cache_bytes s) (cache_block s) true x (values s) (samplecount s)).

(** * fcyc *)

Context {W : Type} (f : W -> outcome W).

(** The state of a timing run: the sampler, the clock, the state of [f]. *)
Definition tstate : Type := sampler D * clock D * W.

(** The body of both loops up to [add_sample]: one measured run of [f]. *)
Definition measure (st : tstate) : outcome (D * tstate) :=
  let '(s, c, w) := st in
  s ← (if clear_cache s then clear s else Ok s);
  if compensate s then
    c ← start_comp_counter tsc utime cal_fuel c;
    w ← f w;
    let '(cyc, c) := get_comp_counter tsc utime c in
    Ok (cyc, (s, c, w))
  else
    let c := start_counter tsc c in
    w ← f w;
    let '(cyc, c) := get_counter tsc c in
    Ok (cyc, (s, c, w)).

Definition fcyc_step (st : tstate) : outcome (tstate + tstate) :=
  '(cyc, (s, c, w)) ← measure st;
  s ← add_sample cyc s;
  conv ← has_converged s;
  if negb conv && (samplecount s <? maxsamples s) then Ok (inl (s, c, w)) else Ok (inr (s, c, w)).

Definition fcyc (st : tstate) : outcome (D * tstate) :=
  let '(s, c, w) := st in
  '(s, c, w) ← while_fuel (S (Z.to_nat (maxsamples s))) fcyc_step (init_sampler s, c, w);
  result ← vget (values s) 0;
  Ok (result, (with_values [] (samplecount s) s, c, w)).

(** * fsecs.c: the timing method chosen in config.h *)

Inductive timing : Set := USE_FCYC | USE_ITIMER | USE_GETTOD.

Definition config_timing : timing := USE_GETTOD.

(** The variable [Mhz] is the first component. *)
Definition init_fsecs (m : timing) (s : sampler D) (c : clock D) : D * sampler D * clock D :=
  match m with
  | USE_FCYC =>
      let s := set_fcyc_maxsamples 20 s in
      let s := set_fcyc_clear_cache true s in
      let s := set_fcyc_compensate true s in
      let s := set_fcyc_epsilon (d_lit 1 100) s in
      let s := set_fcyc_k 3 s in
      let '(r, c) := mhz tsc c in (r, s, c)
  | _ => (d_of_Z 0, s, c)
  end.

Definition fsecs (m : timing) (Mhz : D) (st : tstate) : outcome (D * tstate) :=
  match m with
  | USE_FCYC =>
      '(cycles, st) ← fcyc st;
      Ok (d_div cycles (d_mul Mhz (d_of_Z 1000000)), st)
  | USE_ITIMER =>
      let '(s, c, w) := st in
      '(t, w, c) ← ftimer_itimer itimer f 10 w c; Ok (t, (s, c, w))
  | USE_GETTOD =>
      let '(s, c, w) := st in
      '(t, w, c) ← ftimer_gettod tod f 10 w c; Ok (t, (s, c, w))
  end.
End Timer.

(** * Reference: insertion sort *)

Fixpoint insert_sorted (x : D) (l : list D) : list D :=
  match l with
  | [] => [x]
  | a :: r => if ltb x a then x :: a :: r else a :: insert_sorted x r
  end.

Definition isort (l : list D) : list D := foldl (fun acc x => insert_sorted x acc) [] l.

Lemma insert_sorted_perm x l : insert_sorted x l ≡ₚ x :: l.
Proof.
  induction l as [|a r IH]; cbn; [done|]. destruct (ltb x a); [done|]. rewrite IH. apply perm_swap.
Qed.

Lemma insert_sorted_le a x l :
  leT a x -> Forall (leT a) l -> Forall (leT a) (insert_sorted x l).
Proof. intros Hx Hl. rewrite insert_sorted_perm. by constructor. Qed.

Lemma insert_sorted_sorted x l : StronglySorted leT l -> StronglySorted leT (insert_sorted x l).
Proof.
  induction 1 as [|a r Hr IH Ha]; cbn; [repeat constructor|]. destruct (ltb x a) eqn:E.
  - apply ltb_true_leT in E. constructor; [by constructor|]. constructor; [done|].
    eapply list.Forall_impl; [exact Ha|]. intros y Hy. by transitivity a.
  - constructor; [done|]. by apply insert_sorted_le.
Qed.

Lemma foldl_insert_perm acc l : foldl (fun acc x => insert_sorted x acc) acc l ≡ₚ acc ++ l.
Proof.
  revert acc. induction l as [|x r IH]; intros acc; cbn; [by rewrite app_nil_r|].
  rewrite IH, insert_sorted_perm. by rewrite <- Permutation_middle.
Qed.

Lemma isort_perm l : isort l ≡ₚ l.
Proof. apply foldl_insert_perm. Qed.

Lemma isort_snoc l x : isort (l ++ [x]) = insert_sorted x (isort l).
Proof. unfold isort. by rewrite foldl_app. Qed.

Lemma isort_sorted l : StronglySorted leT (isort l).
Proof.
  induction l as [|x l IH] using rev_ind; [constructor|].
  rewrite isort_snoc. by apply insert_sorted_sorted.
Qed.

(** ** Insertion from the end *)

Lemma insert_sorted_snoc_lt x p a : ltb x a = true -> insert_sorted x (p ++ [a]) = insert_sorted x p ++ [a].
Proof.
  intros Hx. induction p as [|b r IH]; cbn; [by rewrite Hx|].
  destruct (ltb x b); [done|]. by rewrite IH.
Qed.

Lemma insert_sorted_end x l : Forall (fun a => leT a x) l -> insert_sorted x l = l ++ [x].
Proof.
  intros Hl. induction Hl as [|a r Ha _ IH]; cbn; [done|]. unfold leT in Ha. by rewrite Ha, IH.
Qed.

Lemma sorted_snoc_le (p : list D) (a x : D) : StronglySorted leT (p ++ [a]) -> leT a x -> Forall (fun b => leT b x) (p ++ [a]).
Proof.
  intros Hs Hx. induction p as [|b r IH]; cbn in *; [by repeat constructor|].
  inversion Hs as [|? ? Hs' Hb]; subst. constructor; [|by apply IH].
  apply Forall_app in Hb as [_ Hb]. inversion Hb; subst. by transitivity a.
Qed.

Lemma take_insert k x l : take k (insert_sorted x (take k l)) = take k (insert_sorted x l).
Proof.
  revert k. induction l as [|a r IH]; intros [|k]; cbn; try done.
  destruct (ltb x a); cbn; [|by rewrite IH]. f_equal.
  destruct k as [|k]; [done|]. cbn. f_equal. by rewrite take_take, Nat.min_l by lia.
Qed.

(** * The sampler keeps the K smallest samples *)

Lemma insert_loop p x rest f :
  StronglySorted leT p -> (length p < f)%nat ->
  while_fuel f insert_step (zlen p, p ++ x :: rest) = Ok (insert_sorted x p ++ rest).
Proof.
  revert x rest f. induction p as [|a p IH] using rev_ind; intros x rest f Hs Hf;
    (destruct f as [|f]; [lia|]).
  { reflexivity. }
  rewrite length_app in Hf. cbn in Hf. cbn [while_fuel insert_step]. rewrite zlen_app.
  change (zlen [a]) with 1. pose proof (zlen_nonneg p).
  destruct (Z.ltb_spec 0 (zlen p + 1)); [|lia]. rewrite <- !app_assoc. cbn [app].
  rewrite (vget_mid p a (x :: rest) (zlen p + 1 - 1)) by lia. cbn [mbind outcome_bind].
  replace (p ++ a :: x :: rest) with ((p ++ [a]) ++ x :: rest) by by rewrite <- app_assoc.
  rewrite (vget_mid (p ++ [a]) x rest) by (rewrite zlen_app; done). cbn [mbind outcome_bind].
  destruct (ltb x a) eqn:Exa.
  - rewrite <- app_assoc. cbn [app]. rewrite (vset_mid p a x (x :: rest) (zlen p + 1 - 1)) by lia. cbn [mbind outcome_bind].
    replace (p ++ x :: x :: rest) with ((p ++ [x]) ++ x :: rest) by by rewrite <- app_assoc.
    rewrite vset_mid by (rewrite zlen_app; done). cbn [mbind outcome_bind].
    rewrite <- app_assoc. cbn [app]. replace (zlen p + 1 - 1) with (zlen p) by lia.
    rewrite IH; [|by apply StronglySorted_app_1_l in Hs|lia].
    rewrite insert_sorted_snoc_lt by done. by rewrite <- app_assoc.
  - cbn [mbind outcome_bind]. rewrite insert_sorted_end by by apply sorted_snoc_le.
    by rewrite <- !app_assoc.
Qed.

(** After the samples [l]: the [k] smallest, in order, and zeros behind. *)
Definition best (k : Z) (l : list D) : list D := take (Z.to_nat k) (isort l).

Definition holds (l : list D) (s : sampler D) : Prop :=
  samplecount s = zlen l /\
  values s = best (kbest s) l ++ replicate (Z.to_nat (kbest s) - length l) (d_of_Z 0).

Lemma best_len k l : 0 <= k -> zlen (best k l) = Z.min k (zlen l).
Proof.
  intros Hk. unfold best, zlen. rewrite length_take, (Permutation_length (isort_perm l)). lia.
Qed.

Lemma best_sorted k l : StronglySorted leT (best k l).
Proof.
  unfold best. pose proof (isort_sorted l) as Hs.
  rewrite <- (take_drop (Z.to_nat k) (isort l)) in Hs. by apply StronglySorted_app_1_l in Hs.
Qed.

Lemma best_snoc k l x : best k (l ++ [x]) = take (Z.to_nat k) (insert_sorted x (best k l)).
Proof. unfold best. by rewrite isort_snoc, take_insert. Qed.

Lemma holds_init s : 1 <= kbest s -> holds [] (init_sampler s).
Proof.
  intros Hk. split; [done|]. cbn. unfold zreplicate, best. change (isort []) with (@nil D).
  by rewrite Nat.sub_0_r, take_nil.
Qed.

Lemma insert_sorted_len x l : length (insert_sorted x l) = S (length l).
Proof. by rewrite (Permutation_length (insert_sorted_perm x l)). Qed.

(** ** The three branches of [add_sample] *)

Lemma add_filling l x s :
  holds l s -> 1 <= kbest s -> zlen l < kbest s ->
  exists v, add_sample x s = Ok (with_values v (samplecount s + 1) s) /\
    holds (l ++ [x]) (with_values v (samplecount s + 1) s).
Proof.
  intros [Hc Hv] Hk Hl. pose proof (best_len (kbest s) l ltac:(lia)) as Hb.
  unfold add_sample. rewrite Hv. rewrite Hc in *. destruct (Z.ltb_spec (zlen l) (kbest s)); [|lia].
  replace (Z.to_nat (kbest s) - length l)%nat
    with (S (Z.to_nat (kbest s) - length (l ++ [x])))
    by (rewrite length_app; unfold zlen in *; cbn; lia).
  cbn [replicate]. rewrite vset_mid by lia. cbn [mbind outcome_bind].
  pose proof (insert_loop (best (kbest s) l) x
    (replicate (Z.to_nat (kbest s) - length (l ++ [x])) (d_of_Z 0)) (S (Z.to_nat (zlen l)))) as Hloop.
  replace (zlen (best (kbest s) l)) with (zlen l) in Hloop by lia.
  rewrite Hloop; [|apply best_sorted|unfold zlen in *; lia]. cbn [mbind outcome_bind].
  eexists. split; [reflexivity|]. split; [cbn [samplecount with_values]; by rewrite zlen_app|].
  - cbn [values kbest with_values]. rewrite best_snoc.
    rewrite (take_ge (insert_sorted _ _)); [done|]. rewrite insert_sorted_len. unfold zlen in *. lia.
Qed.

Lemma add_full l x s :
  holds l s -> 1 <= kbest s -> kbest s <= zlen l ->
  exists v, add_sample x s = Ok (with_values v (samplecount s + 1) s) /\
    holds (l ++ [x]) (with_values v (samplecount s + 1) s).
Proof.
  intros [Hc Hv] Hk Hl. pose proof (best_len (kbest s) l ltac:(lia)) as Hb.
  replace (Z.to_nat (kbest s) - length l)%nat with O in Hv by (unfold zlen in *; lia).
  cbn [replicate] in Hv. rewrite app_nil_r in Hv.
  unfold add_sample. rewrite Hv. rewrite Hc in *. destruct (Z.ltb_spec (zlen l) (kbest s)); [lia|].
  pose proof (best_sorted (kbest s) l) as Hs. pose proof (best_snoc (kbest s) l x) as Hn.
  destruct (exists_last (l := best (kbest s) l)) as (q & c & E); [intros E; rewrite E in Hb; change (zlen []) with 0 in Hb; lia|].
  rewrite E in *. rewrite zlen_app in Hb. change (zlen [c]) with 1 in Hb.
  rewrite vget_mid by lia. cbn [mbind outcome_bind].
  assert (Hkq : Z.to_nat (kbest s) = S (length q)) by (unfold zlen in *; lia).
  destruct (ltb x c) eqn:Exc.
  - rewrite vset_mid by lia. cbn [mbind outcome_bind].
    replace (kbest s - 1) with (zlen q) by lia.
    rewrite insert_loop; [|by apply StronglySorted_app_1_l in Hs|unfold zlen; lia].
    cbn [mbind outcome_bind]. eexists. split; [reflexivity|].
    split; cbn [samplecount values kbest with_values]; [by rewrite zlen_app|].
    rewrite Hn, insert_sorted_snoc_lt by done.
    rewrite take_app_length' by by rewrite insert_sorted_len.
    replace (_ - _)%nat with O by (rewrite length_app; unfold zlen in *; cbn; lia). done.
  - cbn [while_fuel mbind outcome_bind insert_step]. eexists. split; [reflexivity|].
    split; cbn [samplecount values kbest with_values]; [by rewrite zlen_app|].
    rewrite Hn, insert_sorted_end by by apply sorted_snoc_le.
    rewrite take_app_length' by (rewrite length_app; cbn; lia).
    replace (_ - _)%nat with O by (rewrite length_app; unfold zlen in *; cbn; lia).
    by rewrite app_nil_r.
Qed.

Lemma add_sample_holds l x s :
  holds l s -> 1 <= kbest s -> exists v, add_sample x s = Ok (with_values v (samplecount s + 1) s) /\
    holds (l ++ [x]) (with_values v (samplecount s + 1) s).
Proof.
  intros Hh Hk. destruct (Z.lt_ge_cases (zlen l) (kbest s)); [by apply add_filling|by apply add_full].
Qed.

Lemma holds_len l s : holds l s -> 0 <= kbest s -> zlen (values s) = kbest s.
Proof.
  intros [_ ->] Hk. pose proof (best_len (kbest s) l Hk) as Hb.
  rewrite zlen_app, Hb. unfold zlen. rewrite length_replicate. lia.
Qed.

(** The first value is the least sample. *)
Lemma holds_min l s v :
  holds l s -> 1 <= kbest s -> l <> [] -> zget (values s) 0 = Some v ->
  v ∈ l /\ Forall (leT v) l.
Proof.
  intros [_ Hv] Hk Hl Hz. rewrite Hv in Hz.
  pose proof (isort_perm l) as Hp. pose proof (isort_sorted l) as Hs.
  unfold best in Hz. destruct (isort l) as [|a r] eqn:E.
  { by apply Permutation_nil_l in Hp. }
  destruct (Z.to_nat (kbest s)) as [|k] eqn:Ek; [lia|]. cbn in Hz. inversion Hz; subst a.
  rewrite <- Hp. inversion Hs; subst. split; [apply elem_of_cons; auto|].
  constructor; [reflexivity|done].
Qed.


Lemma converged_ok l t : holds l t -> 1 <= kbest t -> exists b, has_converged t = Ok b.
Proof.
  intros Hh Hk. pose proof (holds_len _ _ Hh) as Hz. unfold has_converged.
  destruct (kbest t <=? samplecount t); [|by eexists].
  destruct (zget_in_range (values t) 0) as [a Ha]; [lia|].
  destruct (zget_in_range (values t) (kbest t - 1)) as [b Hb]; [lia|].
  rewrite (vget_some _ _ _ Ha), (vget_some _ _ _ Hb). by eexists.
Qed.

(** * A timing run *)

Section TimerProofs.
Context (tsc utime : nat -> Z).
Context (bufword : Z -> Z) (malloc_ok : bool) (cal_fuel : nat).
Context {W : Type} (f : W -> outcome W).

(** [t] is [s] after some calls of [clear] and [add_sample]. *)
Definition same_params s (t : sampler D) : Prop :=
  exists b x v n, t = MkSampler (kbest s) (maxsamples s) (epsilon s) (compensate s) (clear_cache s)
    (cache_bytes s) (cache_block s) b x v n /\ (cache_buf s || malloc_ok = true -> b || malloc_ok = true).

Definition clearable s : Prop :=
  clear_cache s = true ->
  cache_buf s || malloc_ok = true /\ 4 <= cache_block s < 2 ^ 31 /\ 0 <= cache_bytes s < 2 ^ 31.

Lemma clear_ok s :
  clear_cache s = true -> clearable s ->
  wp (clear bufword malloc_ok s) (fun t => exists x, t = MkSampler (kbest s) (maxsamples s) (epsilon s)
    (compensate s) (clear_cache s) (cache_bytes s) (cache_block s) true x (values s) (samplecount s)).
Proof.
  intros Hc (Hm & Hb & Hs); [done|]. unfold clear. rewrite !u64_id by (unfold is_u64; lia).
  assert (1 <= cache_block s / 4) by (apply Z.div_le_lower_bound; lia).
  assert (cache_block s / 4 < 2 ^ 31) by (apply Z.div_lt_upper_bound; lia).
  rewrite s32_id by (unfold is_s32; lia). apply wp_bind, wp_require; [done|]. apply wp_bind.
  apply (wp_while (fun _ => True) (fun st => Z.to_nat (cache_bytes s / 4 - fst st))); [done|cbn; lia|].
  intros [p x] _. unfold clear_step. destruct (Z.ltb_spec p (cache_bytes s / 4)); apply wp_ret.
  - split; [done|]. cbn. lia.
  - apply wp_ret. by eexists.
Qed.

(** The count measured between two readings of the counter. *)
Definition cycles (a b : Z) : D :=
  let '(hi, lo) := counter_diff (u32 (Z.shiftr a 32)) (u32 a) (u32 (Z.shiftr b 32)) (u32 b) in
  d_add (d_mul (d_mul (d_of_Z hi) (d_of_Z (Z.shiftl 1 30))) (d_of_Z 4)) (d_of_Z lo).

Lemma counter_pair (c : clock D) :
  exists c', get_counter tsc (start_counter tsc c) = (cycles (tsc (n_tsc c)) (tsc (S (n_tsc c))), c') /\
    n_tsc c' = S (S (n_tsc c)) /\ n_times c' = n_times c /\
    cyc_per_tick c' = cyc_per_tick c /\ start_tick c' = start_tick c.
Proof.
  unfold get_counter, start_counter, access_counter, cycles. cbn [n_tsc cyc_hi cyc_lo].
  destruct (counter_diff _ _ _ _). by eexists.
Qed.

(** The sample of run [i] when the timing starts with the clock [c]. *)
Definition sample s (c : clock D) (i : Z) : D :=
  let k := (n_tsc c + 2 * Z.to_nat i)%nat in
  let j := (n_times c + 2 * Z.to_nat i)%nat in
  let t := cycles (tsc k) (tsc (S k)) in
  if compensate s then d_sub t (d_mul (d_of_Z (utime (S j) - utime j)) (cyc_per_tick c)) else t.

Definition samples s (c : clock D) (n : Z) : list D := sample s c <$> seqZ 0 n.

Lemma samples_snoc s c n : 0 <= n -> samples s c (n + 1) = samples s c n ++ [sample s c n].
Proof. intros Hn. unfold samples. rewrite seqZ_app by lia. rewrite fmap_app. by rewrite Z.add_0_l. Qed.

Lemma samples_len s c n : 0 <= n -> zlen (samples s c n) = n.
Proof. intros Hn. unfold samples, zlen. rewrite length_fmap, length_seqZ. lia. Qed.

(** The clock after [n] runs. *)
Definition clock_after s (c : clock D) (n : Z) (c' : clock D) : Prop :=
  n_tsc c' = (n_tsc c + 2 * Z.to_nat n)%nat /\
  (compensate s = true -> n_times c' = (n_times c + 2 * Z.to_nat n)%nat) /\
  cyc_per_tick c' = cyc_per_tick c.

Definition calibrated s (c : clock D) : Prop :=
  compensate s = true -> d_eqb (cyc_per_tick c) (d_of_Z 0) = false.

Lemma measure_ok s t c n c' w w' :
  same_params s t -> clearable s -> calibrated s c -> 0 <= n -> clock_after s c n c' -> f w = Ok w' ->
  wp (measure tsc utime bufword malloc_ok cal_fuel f (t, c', w)) (fun r => exists t' c'',
    r = (sample s c n, (t', c'', w')) /\ same_params s t' /\ clock_after s c (n + 1) c'' /\
    values t' = values t /\ samplecount t' = samplecount t).
Proof.
  intros (b & x & v & m & -> & Hb) Hcl Hcal Hn (Hc1 & Hc2 & Hc3) Hf. unfold measure. cbn [clear_cache].
  apply wp_bind.
  apply wp_mono with (fun t' => exists b' x', t' = MkSampler (kbest s) (maxsamples s) (epsilon s)
    (compensate s) (clear_cache s) (cache_bytes s) (cache_block s) b' x' v m /\
    (cache_buf s || malloc_ok = true -> b' || malloc_ok = true)).
  { destruct (clear_cache s) eqn:Ec; [|apply wp_ret; eauto 6].
    eapply wp_mono; [apply clear_ok; [done|]|intros ? (y & ->); eauto 6].
    intros _. cbn. destruct (Hcl Ec) as (? & ? & ?). auto. }
  intros ? (b' & x' & -> & Hb'). cbn [compensate]. unfold sample.
  destruct (compensate s) eqn:Ecomp.
  - unfold start_comp_counter. rewrite Hc3, (Hcal Ecomp). cbn [mbind outcome_bind read_utime]. rewrite Hf.
    cbn [mbind outcome_bind]. unfold get_comp_counter.
    match goal with |- context [start_counter tsc ?k] => destruct (counter_pair k) as (c2 & -> & E1 & E2 & E3 & E4) end.
    cbn [n_tsc n_times cyc_per_tick start_tick] in *. cbn [read_utime].
    cbn [start_tick cyc_per_tick].
    apply wp_ret. do 2 eexists. split; [rewrite E2, E3, E4, Hc1, Hc2, Hc3 by done; reflexivity|].
    split; [exists b', x', v, m; by rewrite Ecomp|]. split; [|done].
    unfold clock_after; cbn. rewrite E1, Hc1. repeat split; try done; lia.
  - rewrite Hf. cbn [mbind outcome_bind].
    destruct (counter_pair c') as (c2 & -> & E1 & E2 & E3 & E4). apply wp_ret. do 2 eexists.
    split; [rewrite Hc1; reflexivity|]. split; [exists b', x', v, m; by rewrite Ecomp|]. split; [|done].
    unfold clock_after. rewrite E1, E3, Hc1, Hc3, Ecomp. repeat split; try done; lia.
Qed.

Lemma runs_succ n w w' : 0 <= n -> runs f n w = Ok w' -> runs f (n + 1) w = f w'.
Proof.
  intros Hn E. unfold runs in *. rewrite (for_range_split 0 n (n + 1)) by lia. rewrite E. cbn [mbind outcome_bind].
  rewrite for_range_step by lia. destruct (f w') as [w2|]; [|done]. cbn [mbind outcome_bind].
  apply for_range_empty. lia.
Qed.

(** The state after [n] rounds of the loop of [fcyc]. *)
Definition ran (I : W -> Prop) s c w (n : Z) (st : sampler D * clock D * W) : Prop :=
  let '(t, c', w') := st in
  0 <= n /\ same_params s t /\ holds (samples s c n) t /\ clock_after s c n c' /\
  runs f n w = Ok w' /\ I w'.

Lemma fcyc_round (I : W -> Prop) s c w n st :
  1 <= kbest s -> clearable s -> calibrated s c -> (forall w, I w -> wp (f w) I) -> ran I s c w n st ->
  wp (fcyc_step tsc utime bufword malloc_ok cal_fuel f st) (fun r =>
    (exists st', r = inl st' /\ ran I s c w (n + 1) st' /\ n + 1 < maxsamples s) \/
    (exists st', r = inr st' /\ ran I s c w (n + 1) st')).
Proof.
  destruct st as [[t c'] w']. intros Hk Hcl Hcal Hf (Hn & Hp & Hh & Hc & Hr & HI). unfold fcyc_step.
  destruct (Hf _ HI) as (w2 & Ew & HI2).
  apply wp_bind. eapply wp_mono; [by eapply measure_ok|].
  intros ? (t' & c2 & -> & Hp' & Hc2 & Hv & Hsc).
  assert (Hk' : kbest t' = kbest s /\ kbest t = kbest s /\ maxsamples t' = maxsamples s).
  { destruct Hp as (? & ? & ? & ? & -> & _), Hp' as (? & ? & ? & ? & -> & _). done. }
  destruct Hk' as (Ek & Ek0 & Em).
  assert (Hh' : holds (samples s c n) t'). { destruct Hh as [H1 H2]. split; [congruence|]. by rewrite Hv, H2, Ek, Ek0. }
  destruct (add_sample_holds _ (sample s c n) _ Hh') as (v' & -> & Hh2); [lia|].
  rewrite <- samples_snoc in Hh2 by done. cbn [mbind outcome_bind].
  destruct (converged_ok _ _ Hh2) as (b & ->); [cbn; lia|]. cbn [mbind outcome_bind].
  assert (Hran : ran I s c w (n + 1) (with_values v' (samplecount t' + 1) t', c2, w2)).
  { split; [lia|]. split; [|split; [done|split; [done|split; [|done]]]].
    - destruct Hp' as (b' & x' & ? & ? & Et & Hb). exists b', x', v', (samplecount t' + 1).
      split; [|done]. by rewrite Et.
    - by rewrite (runs_succ _ _ w'). }
  cbn [samplecount maxsamples with_values]. rewrite Em. destruct Hh2 as [Hc3 _]. cbn [samplecount with_values] in Hc3.
  rewrite samples_len in Hc3 by lia. rewrite Hc3 in *.
  destruct (negb b && (n + 1 <? maxsamples s)) eqn:Eb; apply wp_ret.
  - left. eexists. split; [done|]. split; [done|lia].
  - right. by eexists.
Qed.

Lemma fcyc_ok (I : W -> Prop) s c w :
  1 <= kbest s -> clearable s -> calibrated s c -> (forall w, I w -> wp (f w) I) -> I w ->
  exists result n s' c' w',
    fcyc tsc utime bufword malloc_ok cal_fuel f (s, c, w) = Ok (result, (s', c', w')) /\
    samplecount s' = n /\ values s' = [] /\ 1 <= n <= Z.max 1 (maxsamples s) /\
    runs f n w = Ok w' /\ result ∈ samples s c n /\ Forall (leT result) (samples s c n).
Proof.
  intros Hk Hcl Hcal Hf HI. unfold fcyc.
  assert (Wl : wp (while_fuel (S (Z.to_nat (maxsamples s))) (fcyc_step tsc utime bufword malloc_ok cal_fuel f) (init_sampler s, c, w))
    (fun st => exists n, 1 <= n <= Z.max 1 (maxsamples s) /\ ran I s c w n st)).
  { apply (wp_while (fun st => exists n, ran I s c w n st /\ (n = 0 \/ n < maxsamples s))
      (fun st => Z.to_nat (maxsamples s - samplecount (fst (fst st))))).
    - exists 0. split; [|by left]. split; [done|]. split; [by exists (cache_buf s), (sink s), (zreplicate (kbest s) (d_of_Z 0)), 0|].
      split; [by apply holds_init|]. split; [|done]. unfold clock_after. cbn. repeat split; intros; lia.
    - cbn. lia.
    - intros st (n & Hran & Hlt). pose proof Hran as Hran0. eapply wp_mono; [by apply fcyc_round|].
      assert (Hcount : forall m t, ran I s c w m t -> samplecount (fst (fst t)) = m).
      { intros m [[t ?] ?] (? & _ & [E _] & _). cbn. rewrite E. by apply samples_len. }
      intros ? [(st' & -> & Hr & Hm)|(st' & -> & Hr)].
      + split; [by exists (n + 1); eauto|]. rewrite (Hcount _ _ Hr), (Hcount _ _ Hran0). destruct st as [[? ?] ?], Hran0. lia.
      + exists (n + 1). split; [|done]. destruct st as [[? ?] ?], Hran0. lia. }
  destruct Wl as ([[t c'] w'] & -> & n & Hn & (_ & Hp & Hh & Hc & Hr & HI')). cbn [mbind outcome_bind].
  assert (Ek : kbest t = kbest s) by (by destruct Hp as (? & ? & ? & ? & -> & _)).
  destruct (zget_in_range (values t) 0) as [r Hr0]; [rewrite (holds_len _ _ Hh); lia|].
  rewrite (vget_some _ _ _ Hr0). cbn [mbind outcome_bind].
  eexists r, n, _, c', w'. split; [reflexivity|]. pose proof (samples_len s c n ltac:(lia)) as Hz.
  split; [cbn; destruct Hh as [-> _]; done|]. split; [done|]. split; [done|]. split; [done|].
  eapply holds_min; [exact Hh|lia| |exact Hr0]. intros E. rewrite E in Hz. change (zlen []) with 0 in Hz. lia.
Qed.
End TimerProofs.
End Fcyc.

(** fcyc runs the timed function n times, with 1 <= n <= max(1, maxsamples), and
    returns the smallest of the n measured cycle counts, with or without cache clearing
    and tick compensation. *)
Theorem fcyc_returns_minimum {D W} `{Double D} (tsc utime : nat -> Z) (bufword : Z -> Z) (malloc_ok : bool)
    (cal_fuel : nat) (f : W -> outcome W) (I : W -> Prop) (s : sampler D) (c : clock D) (w : W) :
  1 <= kbest s -> clearable malloc_ok s -> calibrated s c -> (forall w, I w -> wp (f w) I) -> I w ->
  exists result n s' c' w',
    fcyc tsc utime bufword malloc_ok cal_fuel f (s, c, w) = Ok (result, (s', c', w')) /\
    samplecount s' = n /\ values s' = [] /\ 1 <= n <= Z.max 1 (maxsamples s) /\
    runs f n w = Ok w' /\
    result ∈ samples tsc utime s c n /\ Forall (leT result) (samples tsc utime s c n).
Proof. apply fcyc_ok. Qed.

(** The clock of the witness: the [i]-th run takes [100 - i] cycles. *)
Definition tsc_runs (k : nat) : Z := 1000 * Z.of_nat k - (if Nat.even k then 0 else Z.of_nat (Nat.div2 k)).

Lemma fcyc_returns_minimum_witness :
  exists result n s' c' w',
    fcyc tsc_runs (fun _ => 0) (fun _ => 0) true 0 (fun w => Ok (w + 1))
      (set_fcyc_clear_cache true fcyc_defaults, clock0 (D := Qcanon.Qc), 0) = Ok (result, (s', c', w')) /\
    samplecount s' = n /\ 1 <= n <= 20.
Proof.
  destruct (fcyc_returns_minimum tsc_runs (fun _ => 0) (fun _ => 0) true 0 (fun w => Ok (w + 1))
    (fun _ => True) (set_fcyc_clear_cache true fcyc_defaults) (clock0 (D := Qcanon.Qc)) 0)
    as (r & n & s' & c' & w' & E & Hn & _ & Hb & _).
  - cbn. lia.
  - intros _. split; [done|]. by vm_compute.
  - intros H. discriminate H.
  - intros w _. by exists (w + 1).
  - done.
  - exists r, n, s', c', w'. split; [exact E|]. split; [exact Hn|]. cbn in Hb. lia.
Defined.
