(* ===== verification/MDriverMain.v ===== *)
(** [main] of the malloc driver ([mdriver.c]): the command line, the check of
    the team structure, the two evaluation loops over the trace files and the
    performance index.

    The parts it calls are the other files of the lab: the trace reader
    ([MDriverTrace]), the evaluation functions ([MDriver]) and the timer
    ([Fcyc]).  [fs] is the file system, [junk i] the indeterminate value of the
    memory that [read_trace] allocates for trace [i], [mem_init] the function of
    memlib.c, and the streams are those of [Clock].  The text of the messages is
    not modelled; the numbers that are printed are the fields of [report]. *)

From Stdlib Require Import String.
From S2P Require Import Prelude CString Getopt Double Clock Fcyc MDriver MDriverTrace.
Local Open Scope Z_scope.

(** * config.h *)

Definition MAXLINE : Z := 1024.
Definition TRACEDIR : list Z := cstr "/afs/cs/project/ics2/im/labs/malloclab/traces/".
Definition default_tracefiles : list (list Z) := cstr <$>
  ["amptjp-bal.rep"; "cccp-bal.rep"; "cp-decl-bal.rep"; "expr-bal.rep"; "coalescing-bal.rep";
   "random-bal.rep"; "random2-bal.rep"; "binary-bal.rep"; "binary2-bal.rep"; "realloc-bal.rep";
   "realloc2-bal.rep"]%string.

Definition AVG_LIBC_THRUPUT {D} `{Double D} : D := d_lit 600000 1.
Definition UTIL_WEIGHT {D} `{Double D} : D := d_lit 60 100.

(** * The command line *)

Record config := MkConfig {
  verbose : Z;
  tracedir : list Z;
  tracefiles : option (list (list Z));      (* [None] is NULL *)
  num_tracefiles : Z;
  team_check : bool;
  run_libc : bool;
  autograder : bool
}.

Definition initial_config : config := MkConfig 0 TRACEDIR None 0 true false false.

(** [strcpy] and [strcat] into an array of MAXLINE characters. *)
Definition copy_line (s : list Z) : outcome (list Z) :=
  require (zlen s <? MAXLINE) OutOfBounds;; Ok s.

(** The case -t: the directory always ends with a slash. *)
Definition set_tracedir (optarg : list Z) : outcome (list Z) :=
  dir ← copy_line optarg;
  last ← vget dir (zlen dir - 1);
  if negb (last =? chr "/") then copy_line (dir ++ [chr "/"]) else Ok dir.

Definition handle_option (c : config) (o : Z * list Z) : outcome config :=
  let '(opt, optarg) := o in
  if opt =? chr "g" then
    Ok (MkConfig (verbose c) (tracedir c) (tracefiles c) (num_tracefiles c) (team_check c) (run_libc c) true)
  else if opt =? chr "f" then
    Ok (MkConfig (verbose c) (cstr "./") (Some [optarg]) 1 (team_check c) (run_libc c) (autograder c))
  else if opt =? chr "t" then
    if num_tracefiles c =? 1 then Ok c
    else
      dir ← set_tracedir optarg;
      Ok (MkConfig (verbose c) dir (tracefiles c) (num_tracefiles c) (team_check c) (run_libc c) (autograder c))
  else if opt =? chr "a" then
    Ok (MkConfig (verbose c) (tracedir c) (tracefiles c) (num_tracefiles c) false (run_libc c) (autograder c))
  else if opt =? chr "l" then
    Ok (MkConfig (verbose c) (tracedir c) (tracefiles c) (num_tracefiles c) (team_check c) true (autograder c))
  else if opt =? chr "v" then
    Ok (MkConfig 1 (tracedir c) (tracefiles c) (num_tracefiles c) (team_check c) (run_libc c) (autograder c))
  else if opt =? chr "V" then
    Ok (MkConfig 2 (tracedir c) (tracefiles c) (num_tracefiles c) (team_check c) (run_libc c) (autograder c))
  else if opt =? chr "h" then Fault (Exit 0)
  else Fault (Exit 1).

Definition optstring : list Z := cstr "f:t:hvVgal".

Definition parse_args (args : list (list Z)) : outcome config :=
  for_each (getopt_all optstring args) (fun o c => handle_option c o) initial_config.

(** Without -f the default tracefiles are used. *)
Definition choose_files (c : config) : list (list Z) * Z :=
  match tracefiles c with
  | None => (default_tracefiles, zlen default_tracefiles)
  | Some files => (files, num_tracefiles c)
  end.

(** * The team structure *)

Record team_t := MkTeam {
  teamname : list Z; name1 : list Z; id1 : list Z; name2 : list Z; id2 : list Z
}.

(** The structure of mm.c. *)
Definition team : team_t :=
  MkTeam (cstr "dandelion") (cstr "moshouhua") (cstr "740139206@qq.com") [] [].

Definition blank (s : list Z) : bool := match s with [] => true | _ => false end.

Definition check_team (t : team_t) : outcome unit :=
  require (negb (blank (teamname t))) (Exit 1);;
  require (negb (blank (name1 t) || blank (id1 t))) (Exit 1);;
  require (negb ((negb (blank (name2 t)) && blank (id2 t)) || (blank (name2 t) && negb (blank (id2 t)))))
    (Exit 1).

(** * Statistics *)

Record stats_t (D : Type) := MkStats { s_ops : D; s_valid : Z; s_secs : D; s_util : D }.
Arguments MkStats {D}. Arguments s_ops {D}. Arguments s_valid {D}. Arguments s_secs {D}. Arguments s_util {D}.

(** A line of the table of [printresults]: the numbers handed to [printf]. *)
Inductive line (D : Type) :=
| Row (i : Z) (util ops secs kops : D)
| RowInvalid (i : Z)
| Total (util ops secs kops : D)
| TotalInvalid.
Arguments Row {D}. Arguments RowInvalid {D}. Arguments Total {D}. Arguments TotalInvalid {D}.

(** What [main] prints before [exit(0)]. *)
Record report (D : Type) := MkReport {
  libc_table : list (line D);
  mm_table : list (line D);
  mm_stats : list (stats_t D);
  error_count : Z;
  numcorrect : Z;
  parts : option (D * D);                (* [p1] and [p2], only set without errors *)
  perfindex : D;
  summary : option (Z * D)               (* the lines for the autograder *)
}.
Arguments MkReport {D}. Arguments libc_table {D}. Arguments mm_table {D}. Arguments mm_stats {D}.
Arguments error_count {D}. Arguments numcorrect {D}. Arguments parts {D}.
Arguments perfindex {D}. Arguments summary {D}.

Section Score.
Context {D : Type} `{Double D}.

(** [calloc] clears the array. *)
Definition zero_stats : stats_t D := MkStats (d_of_Z 0) 0 (d_of_Z 0) (d_of_Z 0).

Definition print_row (i : Z) (s : stats_t D) : line D :=
  if s_valid s =? 0 then RowInvalid i
  else Row i (d_mul (s_util s) (d_of_Z 100)) (s_ops s) (s_secs s)
         (d_div (d_div (s_ops s) (d_of_Z 1000)) (s_secs s)).

Definition printresults (errors n : Z) (stats : list (stats_t D)) : outcome (list (line D)) :=
  '(rows, secs, ops, util) ← for_range 0 n (fun i st =>
      let '(rows, secs, ops, util) := st in
      s ← vget stats i;
      let rows := rows ++ [print_row i s] in
      Ok (if s_valid s =? 0 then (rows, secs, ops, util)
          else (rows, d_add secs (s_secs s), d_add ops (s_ops s), d_add util (s_util s))))
    ([], d_of_Z 0, d_of_Z 0, d_of_Z 0);
  Ok (rows ++ [if errors =? 0
               then Total (d_mul (d_div util (d_of_Z n)) (d_of_Z 100)) ops secs
                      (d_div (d_div ops (d_of_Z 1000)) secs)
               else TotalInvalid]).

(** The sums [secs], [ops], [util] and [numcorrect]. *)
Definition aggregate (n : Z) (stats : list (stats_t D)) : outcome (D * D * D * Z) :=
  for_range 0 n (fun i st =>
    let '(secs, ops, util, correct) := st in
    s ← vget stats i;
    Ok (d_add secs (s_secs s), d_add ops (s_ops s), d_add util (s_util s),
        if s_valid s =? 0 then correct else correct + 1))
  (d_of_Z 0, d_of_Z 0, d_of_Z 0, 0).

(** The two parts of the performance index and the index. *)
Definition performance (errors : Z) (avg_mm_util secs ops : D) : option (D * D) * D :=
  if errors =? 0 then
    let avg_mm_throughput := d_div ops secs in
    let p1 := d_mul UTIL_WEIGHT avg_mm_util in
    let p2 := if ltb AVG_LIBC_THRUPUT avg_mm_throughput then d_sub (d_of_Z 1) UTIL_WEIGHT
              else d_mul (d_sub (d_of_Z 1) UTIL_WEIGHT) (d_div avg_mm_throughput AVG_LIBC_THRUPUT) in
    (Some (p1, p2), d_mul (d_add p1 p2) (d_of_Z 100))
  else (None, d_of_Z 0).
End Score.

(** * The evaluation loops *)

Section Main.
Context {S L D : Type} `{MallocPackage S} `{MallocPackage L} `{Double D}.
Context (fs : list Z -> option (list Z)) (junk : Z -> Z) (mem_init : S -> outcome S).
Context (tsc utime : nat -> Z) (tod itimer : nat -> Z * Z).
Context (bufword : Z -> Z) (malloc_ok : bool) (cal_fuel : nat).

(** [read_trace(tracedir, tracefiles[i])]: the path is built in an array. *)
Definition open_trace (dir : list Z) (files : list (list Z)) (i : Z) : outcome trace_t :=
  filename ← vget files i;
  path ← copy_line (dir ++ filename);
  read_trace (junk i) (fs path).

(** The arrays of a new trace; the range list and [errors] stay. *)
Definition use_trace {P} (t : trace_t) (d : drv P) : drv P :=
  MkDrv (pkg d) (ranges d) (errors d) (blocks t) (block_sizes t).

(** The state of a loop over the traces: the statistics, the timer, the driver. *)
Definition loop_state (P : Type) : Type := list (stats_t D) * sampler D * clock D * drv P.

(** [fsecs(f, &speed_params)] with the method of config.h *)
Definition time_run {P} (Mhz : D) (f : drv P -> outcome (drv P)) (s : sampler D) (c : clock D) (d : drv P)
  : outcome (D * tstate (W := drv P)) :=
  fsecs tsc utime tod itimer bufword malloc_ok cal_fuel f config_timing Mhz (s, c, d).

Definition libc_trace (Mhz : D) (dir : list Z) (files : list (list Z)) (i : Z) (st : loop_state L)
  : outcome (loop_state L) :=
  let '(stats, s, c, d) := st in
  trace ← open_trace dir files i;
  old ← vget stats i;
  let d := use_trace trace d in
  '(valid, d) ← eval_libc_valid trace d;
  if valid =? 0 then
    stats ← vset stats i (MkStats (d_of_Z (num_ops trace)) valid (s_secs old) (s_util old));
    Ok (stats, s, c, d)
  else
    '(secs, (s, c, d)) ← time_run Mhz (eval_libc_speed trace) s c d;
    stats ← vset stats i (MkStats (d_of_Z (num_ops trace)) valid secs (s_util old));
    Ok (stats, s, c, d).

Definition mm_trace (Mhz : D) (dir : list Z) (files : list (list Z)) (i : Z) (st : loop_state S)
  : outcome (loop_state S) :=
  let '(stats, s, c, d) := st in
  trace ← open_trace dir files i;
  old ← vget stats i;
  let d := use_trace trace d in
  '(valid, d) ← eval_mm_valid trace d;
  if valid =? 0 then
    stats ← vset stats i (MkStats (d_of_Z (num_ops trace)) valid (s_secs old) (s_util old));
    Ok (stats, s, c, d)
  else
    '(max_total_size, heapsize, d) ← eval_mm_util trace d;
    '(secs, (s, c, d)) ← time_run Mhz (eval_mm_speed trace) s c d;
    stats ← vset stats i
      (MkStats (d_of_Z (num_ops trace)) valid secs (d_div (d_of_Z max_total_size) (d_of_Z heapsize)));
    Ok (stats, s, c, d).

(** The optional run of the libc package and its table. *)
Definition run_libc_package (cfg : config) (Mhz : D) (files : list (list Z)) (n : Z)
    (s : sampler D) (c : clock D) (libc : L) : outcome (list (line D) * sampler D * clock D) :=
  if run_libc cfg then
    '(stats, s, c, _) ← for_range 0 n (libc_trace Mhz (tracedir cfg) files)
      (zreplicate n zero_stats, s, c, MkDrv libc [] 0 [] []);
    table ← (if verbose cfg =? 0 then Ok [] else printresults 0 n stats);
    Ok (table, s, c)
  else Ok ([], s, c).

(** [main] without argv[0]; [s0], [c0] are the static variables of the timer,
    [libc] the heap of the C library and [p0] the uninitialised package. *)
Definition main (args : list (list Z)) (s0 : sampler D) (c0 : clock D) (libc : L) (p0 : S)
  : outcome (report D) :=
  cfg ← parse_args args;
  _ ← (if team_check cfg then check_team team else Ok tt);
  let '(files, n) := choose_files cfg in
  let '(Mhz, s, c) := init_fsecs tsc config_timing s0 c0 in
  '(libc_table, s, c) ← run_libc_package cfg Mhz files n s c libc;
  p ← mem_init p0;
  '(stats, s, c, d) ← for_range 0 n (mm_trace Mhz (tracedir cfg) files)
    (zreplicate n zero_stats, s, c, MkDrv p [] 0 [] []);
  table ← (if verbose cfg =? 0 then Ok [] else printresults (errors d) n stats);
  '(secs, ops, util, correct) ← aggregate n stats;
  let '(parts, perfindex) := performance (errors d) (d_div util (d_of_Z n)) secs ops in
  Ok (MkReport libc_table table stats (errors d) correct parts perfindex
        (if autograder cfg then Some (correct, perfindex) else None)).
End Main.
