(* ===== verification/MDriverMainSpec.v ===== *)
(** What the malloc driver reports: for every package the error counter and the
    number of correct traces add up to the number of trace files, and for a
    package that obeys [MallocLaws] (mm.c in particular) on well-formed traces
    every trace is correct and the performance index is the weighted sum of
    utilisation and capped throughput that config.h describes. *)

From Stdlib Require Import String QArith Qcanon Lqa.
From S2P Require Import Prelude CString Getopt Double Clock Fcyc MemLib Mm MmHeap MmCoalesce MmSpec.
From S2P Require Import MDriver MDriverTrace MDriverSpec MDriverMm MDriverMain.
Local Open Scope Z_scope.

(** * The error counter *)

Section Errors.
Context {S : Type} `{MallocPackage S}.
Implicit Types (d : drv S) (t : trace_t).

(** The verdict of a function that returns 1, or 0 after one [malloc_error]. *)
Definition counted d (r : Z * drv S) : Prop :=
  (r.1 = 1 /\ errors r.2 = errors d) \/ (r.1 = 0 /\ errors r.2 = errors d + 1).

Lemma counted_pair d r d' :
  counted d (r, d') -> (r = 1 /\ errors d' = errors d) \/ (r = 0 /\ errors d' = errors d + 1).
Proof. done. Qed.

(** The end of a round of a validity run: go on, or return 0 after an error. *)
Definition counted_op (e : Z) (r : drv S + Z * drv S) : Prop :=
  match r with inl d' => errors d' = e | inr r => r.1 = 0 /\ errors r.2 = e + 1 end.

Lemma add_range_errors p n d : wlp (add_range p n d) (counted d).
Proof.
  unfold add_range. wskip. unfold counted. destruct (negb _); [apply wlp_ret; by right|].
  destruct (_ || _ || _ || _); [apply wlp_ret; by right|].
  destruct (existsb _ _); apply wlp_ret; [by right|by left].
Qed.

Lemma remember_errors i p n d : wlp (remember i p n d) (fun d' => errors d' = errors d).
Proof. unfold remember. wskip. wskip. by apply wlp_ret. Qed.

Lemma store_errors i p n (s : S) d :
  wlp (d ← remember i p n (with_pkg s d); Ok (inl d)) (counted_op (errors d)).
Proof. eapply wlp_bind; [apply remember_errors|]. intros d' E. by apply wlp_ret. Qed.

Lemma valid_alloc_errors i n d : wlp (valid_alloc i n d) (counted_op (errors d)).
Proof.
  unfold valid_alloc. wskip. destruct a as [p s]. destruct (p =? NULL); [by apply wlp_ret|].
  eapply wlp_bind; [apply add_range_errors|].
  intros [ok d'] [[-> E]|[-> E]]%counted_pair; [|by apply wlp_ret]. cbn [errors with_pkg] in E.
  wskip. rewrite <- E. apply store_errors.
Qed.

Lemma check_data_errors p i n d :
  wlp (check_data p i n d) (fun r => match r with inl _ => True | inr r => r.1 = 0 /\ errors r.2 = errors d + 1 end).
Proof.
  unfold check_data. apply wlp_for_ret_inv; [done|]. intros j [] _. wskip.
  by destruct (negb _); apply wlp_ret.
Qed.

Lemma valid_realloc_errors i n d : wlp (valid_realloc i n d) (counted_op (errors d)).
Proof.
  unfold valid_realloc. wskip. wskip. destruct a0 as [q s]. destruct (q =? NULL); [by apply wlp_ret|].
  eapply wlp_bind; [apply add_range_errors|].
  intros [ok d'] [[-> E]|[-> E]]%counted_pair; [|by apply wlp_ret]. cbn [errors with_pkg with_ranges] in E.
  wskip. eapply wlp_bind; [apply check_data_errors|]. intros [[]|r] Hr; [|apply wlp_ret; by rewrite <- E].
  wskip. rewrite <- E. apply store_errors.
Qed.

Lemma valid_op_errors o d : wlp (valid_op o d) (counted_op (errors d)).
Proof.
  unfold valid_op. destruct (type o); [apply valid_alloc_errors| |apply valid_realloc_errors].
  unfold valid_free. wskip. wskip. destruct a0 as [u s]. by apply wlp_ret.
Qed.

Lemma eval_mm_valid_errors t d : wlp (eval_mm_valid t d) (counted d).
Proof.
  unfold eval_mm_valid. wskip. destruct a as [r s]. destruct (r <? 0); [apply wlp_ret; by right|].
  eapply wlp_bind.
  - apply (wlp_for_ret_inv (fun d' => errors d' = errors d) (fun r => r.1 = 0 /\ errors r.2 = errors d + 1)); [done|].
    intros i d' E. wskip. rewrite <- E. apply valid_op_errors.
  - intros [d'|[v d']] Hr; apply wlp_ret; [by left|by right].
Qed.

Lemma eval_mm_util_errors t d : wlp (eval_mm_util t d) (fun r => errors r.2 = errors d).
Proof.
  unfold eval_mm_util. wskip. destruct a as [r s]. destruct (r <? 0); [apply wlp_fault|].
  eapply wlp_bind.
  - apply (wlp_for_range_inv (fun st => errors st.1.1 = errors d)); [done|].
    intros i [[d' total] mx] E. cbn [fst] in E. wskip. rewrite <- E. unfold util_op. destruct (type a).
    + wskip. destruct a0 as [p s']. destruct (p =? NULL); [apply wlp_fault|].
      eapply wlp_bind; [apply remember_errors|]. intros d2 E2. by apply wlp_ret.
    + wskip. wskip. wskip. destruct a2 as [u s']. by apply wlp_ret.
    + wskip. wskip. wskip. destruct a2 as [p s']. destruct (p =? NULL); [apply wlp_fault|].
      eapply wlp_bind; [apply remember_errors|]. intros d2 E2. by apply wlp_ret.
  - intros [[d' total] mx] E. by apply wlp_ret.
Qed.

Lemma eval_mm_speed_errors t d : wlp (eval_mm_speed t d) (fun d' => errors d' = errors d).
Proof.
  unfold eval_mm_speed. wskip. destruct a as [r s]. destruct (r <? 0); [apply wlp_fault|].
  apply (wlp_for_range_inv (fun d' => errors d' = errors d)); [done|].
  intros i d' E. wskip. rewrite <- E. unfold speed_op. destruct (type a).
  - wskip. destruct a0 as [p s']. destruct (p =? NULL); [apply wlp_fault|]. wskip. by apply wlp_ret.
  - wskip. wskip. destruct a1 as [u s']. by apply wlp_ret.
  - wskip. wskip. destruct a1 as [p s']. destruct (p =? NULL); [apply wlp_fault|]. wskip. by apply wlp_ret.
Qed.
End Errors.

(** * The statistics array *)

Section Stats.
Context {D : Type} `{Double D}.
Implicit Types (stats done : list (stats_t D)).

(** Left-to-right sum of a column, starting at 0. *)
Definition column_sum (f : stats_t D -> D) stats : D :=
  foldl (fun acc s => d_add acc (f s)) (d_of_Z 0) stats.

Definition correct_in stats : Z := zlen (filter (fun s => s_valid s ≠ 0) stats).

Lemma column_sum_snoc f stats s : column_sum f (stats ++ [s]) = d_add (column_sum f stats) (f s).
Proof. unfold column_sum. by rewrite foldl_app. Qed.

Lemma correct_snoc stats s :
  correct_in (stats ++ [s]) = if s_valid s =? 0 then correct_in stats else correct_in stats + 1.
Proof.
  unfold correct_in. rewrite list.filter_app, zlen_app. cbn [filter list_filter].
  destruct (Z.eqb_spec (s_valid s) 0), (decide (s_valid s ≠ 0)); try done; change (zlen []) with 0; lia.
Qed.

Lemma correct_all stats : Forall (fun s => s_valid s = 1) stats -> correct_in stats = zlen stats.
Proof.
  induction stats as [|s stats IH] using rev_ind; [done|].
  intros [Hf [Hs _]%list.Forall_cons]%Forall_app. rewrite correct_snoc, Hs, zlen_app. cbn [Z.eqb].
  rewrite IH by done. done.
Qed.

Lemma aggregate_sums stats :
  aggregate (zlen stats) stats =
  Ok (column_sum s_secs stats, column_sum s_ops stats, column_sum s_util stats, correct_in stats).
Proof.
  unfold aggregate.
  match goal with |- for_range _ _ ?b ?s0 = _ =>
    assert (W : wp (for_range 0 (zlen stats) b s0) (fun r => r =
      (column_sum s_secs stats, column_sum s_ops stats, column_sum s_util stats, correct_in stats))) end.
  { apply (wp_for_range (fun i r => r =
      let pre := take (Z.to_nat i) stats in
      (column_sum s_secs pre, column_sum s_ops pre, column_sum s_util pre, correct_in pre))).
    - apply zlen_nonneg.
    - done.
    - intros i ? Hi ->. cbn zeta beta. apply wp_bind, wp_vget; [done|]. intros s Hs. apply wp_ret.
      by rewrite (take_zget _ _ _ Hs), !column_sum_snoc, correct_snoc.
    - intros ? ->. cbn zeta. by rewrite take_ge by (unfold zlen; lia). }
  destruct W as (? & E & ->). exact E.
Qed.

Lemma printresults_total e stats :
  exists total, printresults e (zlen stats) stats =
    Ok (imap (fun i s => print_row (Z.of_nat i) s) stats ++ [total]).
Proof.
  unfold printresults.
  match goal with |- context [for_range _ _ ?b ?s0] =>
    assert (W : wp (for_range 0 (zlen stats) b s0) (fun r =>
      r.1.1.1 = imap (fun i s => print_row (Z.of_nat i) s) stats)) end.
  { apply (wp_for_range (fun i r => r.1.1.1 =
      imap (fun i s => print_row (Z.of_nat i) s) (take (Z.to_nat i) stats))).
    - apply zlen_nonneg.
    - done.
    - intros i [[[rows secs] ops] util] Hi E. cbn [fst] in E. apply wp_bind, wp_vget; [done|]. intros s Hs.
      apply wp_ret. rewrite (take_zget _ _ _ Hs), imap_app. subst rows.
      assert (El : Z.of_nat (length (take (Z.to_nat i) stats) + 0) = i)
        by (rewrite length_take; unfold zlen in Hi; lia).
      destruct (s_valid s =? 0); cbn [fst imap]; unfold compose; by rewrite El.
    - intros r. by rewrite take_ge by (unfold zlen; lia). }
  destruct W as ([[[rows secs] ops] util] & -> & E). cbn [fst] in E. subst rows. by eexists.
Qed.

(** The array after [i] of [n] rounds: the entries of the traces done, then the
    zeros of [calloc]. *)
Definition filled (n i : Z) done stats : Prop :=
  zlen done = i /\ stats = done ++ zreplicate (n - i) zero_stats.

Lemma filled_next n i done stats s :
  0 <= i < n -> filled n i done stats ->
  vget stats i = Ok zero_stats /\
  exists stats', vset stats i s = Ok stats' /\ filled n (i + 1) (done ++ [s]) stats'.
Proof.
  intros Hi [Hl ->]. unfold zreplicate.
  replace (Z.to_nat (n - i)) with (Datatypes.S (Z.to_nat (n - (i + 1)))) by lia. cbn [replicate].
  split; [by apply vget_mid|]. eexists. split; [by apply vset_mid|].
  split; [rewrite zlen_app; change (zlen [s]) with 1; lia|]. by rewrite <- app_assoc.
Qed.

Lemma filled_end n done stats : filled n n done stats -> stats = done.
Proof. intros [_ ->]. rewrite Z.sub_diag. unfold zreplicate. cbn. by rewrite app_nil_r. Qed.
End Stats.

(** * Errors and correct traces add up *)

Section Counting.
Context {S L D : Type} `{MallocPackage S} `{MallocPackage L} `{Double D}.
Context (fs : list Z -> option (list Z)) (junk : Z -> Z) (mem_init : S -> outcome S).
Context (tsc utime : nat -> Z) (tod itimer : nat -> Z * Z).
Context (bufword : Z -> Z) (malloc_ok : bool) (cal_fuel : nat).

(** The timer keeps what the timed function keeps. *)
Lemma time_run_keeps (P : drv S -> Prop) Mhz (f : drv S -> outcome (drv S)) (s : sampler D) c d :
  P d -> (forall d, P d -> wlp (f d) P) ->
  wlp (time_run tsc utime tod itimer bufword malloc_ok cal_fuel Mhz f s c d) (fun r => P r.2.2).
Proof.
  intros Hd Hf. unfold time_run, fsecs, config_timing, ftimer_gettod.
  destruct (read_tod tod c) as [[s1 u1] c1]. eapply wlp_bind with (P := fun r => P r.1.2).
  - eapply wlp_bind; [apply (wlp_for_range_inv P); [done|]; intros _; apply Hf|].
    intros d' Hd'. destruct (read_tod tod c1) as [[s2 u2] c2]. by apply wlp_ret.
  - intros [[t d'] c'] Hd'. by apply wlp_ret.
Qed.

Definition loop_counts (n i : Z) (st : loop_state (D := D) S) : Prop :=
  let '(stats, _, _, d) := st in
  exists done, filled n i done stats /\ errors d + correct_in done = i.

Lemma mm_trace_counts Mhz dir files n i st :
  0 <= i < n -> loop_counts n i st ->
  wlp (mm_trace fs junk tsc utime tod itimer bufword malloc_ok cal_fuel Mhz dir files i st)
    (loop_counts n (i + 1)).
Proof.
  destruct st as [[[stats s] c] d]. intros Hi (done & Hf & Hc). unfold mm_trace. wskip.
  destruct (filled_next n i done stats zero_stats Hi Hf) as [-> _]. cbn [mbind outcome_bind].
  assert (Hput : forall st' (s' : sampler D) c' (d' : drv S), (s_valid st' = 1 /\ errors d' = errors d) \/ (s_valid st' = 0 /\ errors d' = errors d + 1) ->
    wlp (stats ← vset stats i st'; Ok (stats, s', c', d')) (loop_counts n (i + 1))).
  { intros st' s' c' d' Hv. destruct (filled_next n i done stats st' Hi Hf) as [_ (stats' & -> & Hf')].
    cbn [mbind outcome_bind]. apply wlp_ret. exists (done ++ [st']). split; [done|].
    rewrite correct_snoc. destruct Hv as [[-> ->]|[-> ->]]; cbn [Z.eqb]; lia. }
  eapply wlp_bind; [apply eval_mm_valid_errors|].
  intros [v d1] [[-> E]|[-> E]]%counted_pair; cbn [Z.eqb errors use_trace] in *; [|apply Hput; by right].
  eapply wlp_bind; [apply eval_mm_util_errors|]. intros [[mx hs] d2] E2. cbn [snd] in E2.
  eapply wlp_bind; [apply (time_run_keeps (fun d' => errors d' = errors d))|].
  - congruence.
  - intros d' <-. apply eval_mm_speed_errors.
  - intros [secs [[s' c'] d3]] E3. cbn [snd] in E3. apply Hput. by left.
Qed.

(** [tracefiles] is NULL, or one file and [num_tracefiles] is 1. *)
Definition files_ok (c : config) : Prop :=
  match tracefiles c with
  | None => True
  | Some files => zlen files = num_tracefiles c /\ 0 < num_tracefiles c
  end.

Lemma parse_args_files args : wlp (parse_args args) files_ok.
Proof.
  unfold parse_args. apply wlp_for_each; [done|]. intros [opt arg] c Hc. unfold handle_option.
  repeat case_match; try (by apply wlp_ret); try apply wlp_fault. wskip. by apply wlp_ret.
Qed.

Lemma choose_files_count c :
  files_ok c -> (choose_files c).2 = zlen (choose_files c).1 /\ 0 < (choose_files c).2.
Proof. unfold files_ok, choose_files. destruct (tracefiles c); cbn [fst snd]; [lia|done]. Qed.

Lemma main_counts args (s0 : sampler D) c0 (libc : L) (p0 : S) :
  wlp (main fs junk mem_init tsc utime tod itimer bufword malloc_ok cal_fuel args s0 c0 libc p0)
    (fun r => error_count r + numcorrect r = zlen (mm_stats r) /\
       numcorrect r = correct_in (mm_stats r) /\
       (exists cfg, parse_args args = Ok cfg /\ zlen (mm_stats r) = (choose_files cfg).2) /\
       (error_count r <> 0 -> perfindex r = d_of_Z 0)).
Proof.
  unfold main. destruct (parse_args args) as [cfg|] eqn:Ecfg; [|apply wlp_fault].
  pose proof (choose_files_count cfg (parse_args_files args cfg Ecfg)) as [Hn Hn0].
  cbn [mbind outcome_bind]. wskip. destruct (choose_files cfg) as [files n] eqn:Ech. cbn [fst snd] in Hn, Hn0.
  destruct (init_fsecs tsc config_timing s0 c0) as [[Mhz s] c]. wskip. destruct a0 as [[tbl s1] c1]. wskip.
  eapply wlp_bind; [apply (wlp_for_range (loop_counts n)); [lia| |]|].
  - exists []. split; [|done]. split; [done|]. by rewrite Z.sub_0_r.
  - intros i st Hi. by apply mm_trace_counts.
  - intros [[[stats s2] c2] d] (done & Hf & Hc). rewrite (filled_end _ _ _ Hf). destruct Hf as [Hl _].
    wskip. rewrite <- Hl, aggregate_sums. cbn [mbind outcome_bind].
    destruct (performance _ _ _ _) as [parts perf] eqn:Ep. apply wlp_ret. cbn.
    split; [congruence|]. split; [done|]. split; [exists cfg; split; [done|]; rewrite Ech; exact Hl|].
    intros He. unfold performance in Ep. rewrite (proj2 (Z.eqb_neq _ _) He) in Ep. by inversion Ep.
Qed.
End Counting.

(** * The performance index in exact arithmetic *)

(** Comparisons and equations of [Qc] as ones of [Q]. *)
Ltac qc_to_q :=
  unfold Qcle, Qclt, Qcdiv, Qcminus, Qcopp, Qcinv, d_of_Z in *;
  cbn [this Qcplus Qcmult Q2Qc d_lit d_add d_sub d_mul d_div Qc_double] in *;
  unfold Qcle, Qclt, Qcdiv, Qcminus, Qcopp, Qcinv in *;
  cbn [this Qcplus Qcmult Q2Qc] in *;
  rewrite ?Qred_correct in *.

Lemma qc_of_Z_le a b : a <= b -> ((d_of_Z a : Qc) <= d_of_Z b)%Qc.
Proof. intros Hab. qc_to_q. unfold Qle. cbn. lia. Qed.

Lemma qc_of_Z_lt a b : a < b -> ((d_of_Z a : Qc) < d_of_Z b)%Qc.
Proof. intros Hab. qc_to_q. unfold Qlt. cbn. lia. Qed.

Lemma qc_div_nonneg (a b : Qc) : (0 <= a)%Qc -> (0 <= b)%Qc -> (0 <= a / b)%Qc.
Proof.
  intros Ha Hb. qc_to_q. apply Qle_trans with (this a * 0)%Q; [lra|].
  rewrite !(Qmult_comm a). apply Qmult_le_compat_r; [|done]. by apply Qinv_le_0_compat.
Qed.

Lemma qc_div_le_1 (a b : Qc) : (0 < b)%Qc -> (a <= b)%Qc -> (a / b <= 1)%Qc.
Proof. intros Hb Hab. qc_to_q. apply Qle_shift_div_r; [done|]. lra. Qed.

(** The share of the throughput, at most 1. *)
Definition capped (x : Qc) : Qc := if qc_ltb (d_of_Z 1) x then d_of_Z 1 else x.

Lemma capped_bounds x : (0 <= x)%Qc -> (0 <= capped x <= 1)%Qc.
Proof.
  intros Hx. unfold capped. destruct (qc_ltb (d_of_Z 1) x) eqn:E.
  - by vm_compute.
  - apply qc_ltb_false in E. by split.
Qed.

(** config.h: 60% utilisation, 40% throughput relative to 600 Kops/s, in percent. *)
Definition index_spec (avg_util secs ops : Qc) : Qc :=
  ((d_lit 3 5 * avg_util + d_lit 2 5 * capped (ops / secs / d_of_Z 600000)) * d_of_Z 100)%Qc.

Lemma performance_index (avg_util secs ops : Qc) :
  (performance 0 avg_util secs ops).2 = index_spec avg_util secs ops.
Proof.
  unfold performance, index_spec, capped, AVG_LIBC_THRUPUT. cbn [Z.eqb snd].
  set (x := d_div ops secs). change (ops / secs)%Qc with x.
  assert (E : @ltb Qc d_order (d_lit 600000 1) x = qc_ltb (d_of_Z 1) (x / d_of_Z 600000)%Qc).
  { apply eq_true_iff_eq. cbn [ltb Qc_strict_weak d_order Qc_double]. rewrite !qc_ltb_spec. clearbody x. qc_to_q.
    change (/ (600000 # 1))%Q with (1 # 600000)%Q. split; intros; lra. }
  rewrite E. destruct (qc_ltb _ _); [|reflexivity].
  cbn [d_mul d_add d_sub d_of_Z d_lit Qc_double UTIL_WEIGHT]. f_equal.
Qed.

Lemma index_bounds (avg_util secs ops : Qc) :
  (0 <= avg_util <= 1)%Qc -> (0 <= secs)%Qc -> (0 <= ops)%Qc ->
  (0 <= index_spec avg_util secs ops <= d_of_Z 100)%Qc.
Proof.
  intros [Hu1 Hu2] Hs Ho. unfold index_spec.
  destruct (capped_bounds (ops / secs / d_of_Z 600000)) as [Hc1 Hc2].
  { apply qc_div_nonneg; [by apply qc_div_nonneg|by vm_compute]. }
  revert Hc1 Hc2. generalize (capped (ops / secs / d_of_Z 600000)) as y. intros y Hc1 Hc2.
  clear Hs Ho. qc_to_q. cbn in *. split; lra.
Qed.

Lemma column_sum_bounds (f : stats_t Qc -> Qc) stats :
  Forall (fun s => (0 <= f s <= 1)%Qc) stats ->
  (0 <= column_sum f stats <= d_of_Z (zlen stats))%Qc.
Proof.
  induction stats as [|s stats IH] using rev_ind; intros Hf; [by vm_compute|].
  apply Forall_app in Hf as [Hf [[Hs1 Hs2] _]%list.Forall_cons]. destruct (IH Hf) as [H1 H2].
  rewrite column_sum_snoc, zlen_app. change (zlen [s]) with 1.
  assert (E : d_of_Z (zlen stats + 1) = (d_of_Z (zlen stats) + 1)%Qc) by (symmetry; apply qc_of_Z_add).
  rewrite E. cbn [d_add Qc_double]. split.
  - replace 0%Qc with (0 + 0)%Qc by reflexivity. by apply Qcplus_le_compat.
  - by apply Qcplus_le_compat.
Qed.

Lemma column_sum_nonneg (f : stats_t Qc -> Qc) stats :
  Forall (fun s => (0 <= f s)%Qc) stats -> (0 <= column_sum f stats)%Qc.
Proof.
  induction stats as [|s stats IH] using rev_ind; intros Hf; [by vm_compute|].
  apply Forall_app in Hf as [Hf [Hs _]%list.Forall_cons]. specialize (IH Hf).
  rewrite column_sum_snoc. replace 0%Qc with (0 + 0)%Qc by reflexivity. by apply Qcplus_le_compat.
Qed.

(** * A lawful package on well-formed traces *)

(** A reading of [gettimeofday] in microseconds. *)
Definition usecs (tv : Z * Z) : Z := 1000000 * tv.1 + tv.2.

(** The arrays of a trace have [num_ids] elements. *)
Lemma read_trace_arrays j file :
  wlp (read_trace j file) (fun t => zlen (blocks t) = num_ids t /\ zlen (block_sizes t) = num_ids t).
Proof.
  unfold read_trace. destruct file as [inp|]; [|apply wlp_fault].
  destruct (scan_d j inp) as [hs i1]. destruct (scan_d j i1) as [ids i2].
  destruct (scan_d j i2) as [nops i3]. destruct (scan_d j i3) as [w i4].
  destruct ((0 <=? nops) && (0 <=? ids)) eqn:E; [|apply wlp_fault]. cbn [require mbind outcome_bind].
  wskip. wskip. wskip. apply wlp_ret. cbn [blocks block_sizes num_ids]. rewrite zlen_replicate. lia.
Qed.

Section Grading.
Context {S L : Type} `{MallocLaws S} `{MallocPackage L}.
Context (fs : list Z -> option (list Z)) (junk : Z -> Z) (mem_init : S -> outcome S).
Context (tsc utime : nat -> Z) (tod itimer : nat -> Z * Z).
Context (bufword : Z -> Z) (malloc_ok : bool) (cal_fuel : nat).
Hypothesis Hclock : forall k, usecs (tod k) < usecs (tod (Datatypes.S k)).
Hypothesis Hheap : forall (s : S) A, inv s A -> 0 < mem_heapsize s.

(** The entry of a trace that passed. *)
Definition graded (t : trace_t) (e : stats_t Qc) : Prop :=
  s_valid e = 1 /\ s_ops e = d_of_Z (num_ops t) /\ (0 < s_secs e)%Qc /\
  exists heapsize, 0 <= high_water [] 0 (ops t) <= heapsize /\ 0 < heapsize /\
    s_util e = d_div (d_of_Z (high_water [] 0 (ops t))) (d_of_Z heapsize).

Lemma graded_bounds t e :
  graded t e -> trace_ok low_byte_is_char t = true ->
  (0 <= s_util e <= 1)%Qc /\ (0 <= s_ops e)%Qc /\ (0 <= s_secs e)%Qc.
Proof.
  intros (_ & -> & Hs & hs & Hh & Hp & ->) Ht. unfold trace_ok in Ht.
  rewrite !andb_true_iff, Z.eqb_eq in Ht. pose proof (zlen_nonneg (ops t)). split; [split|split].
  - apply qc_div_nonneg; apply (qc_of_Z_le 0); lia.
  - apply qc_div_le_1; [apply (qc_of_Z_lt 0)|apply qc_of_Z_le]; lia.
  - apply (qc_of_Z_le 0). lia.
  - by apply Qclt_le_weak.
Qed.

(** The requests of [t] need more than the storage, and one of the evaluation
    functions, started on an empty heap, stops at a request for which it is full. *)
Definition exhausted (t : trace_t) : Prop :=
  capacity < spent (ops t) /\
  exists d : drv S, startable (pkg d) /\
    (stops eval_mm_valid accepts t d \/ stops eval_mm_util measures t d \/ stops eval_mm_speed eq t d).

Lemma speed_runs t n (d : drv S) :
  trace_ok low_byte_is_char t = true -> startable (pkg d) -> zlen (t_blocks d) = num_ids t -> 0 <= n ->
  (exists d', runs (eval_mm_speed t) n d = Ok d' /\ errors d' = errors d /\ startable (pkg d')) \/
  (runs (eval_mm_speed t) n d = Fault OutOfBounds /\ exhausted t).
Proof.
  intros Ht Hs Hz Hn. unfold runs.
  destruct (for_range_or (fun _ d' => errors d' = errors d /\ startable (pkg d') /\ zlen (t_blocks d') = num_ids t)
    (fun _ _ => exhausted t) OutOfBounds n (fun _ => eval_mm_speed t) d) as [(d' & E & ? & ? & _)|(E & _ & _ & _ & _ & He)].
  - done.
  - done.
  - intros i d1 _ (E & Hs1 & Hz1).
    destruct (eval_mm_speed_ok _ t d1 Ht Hs1 Hz1) as [(d2 & A & E2 & ? & Hi & ?)|[Hst Hsp]]; [left|right].
    + exists d2. split; [done|]. split; [congruence|]. split; [by eapply law_start|done].
    + split; [apply Hst|]. split; [done|]. exists d1. split; [done|]. by right; right.
  - left. by exists d'.
  - by right.
Qed.

(** The timed runs finish and take a positive time. *)
Lemma time_run_ok t Mhz (s : sampler Qc) c (d : drv S) :
  trace_ok low_byte_is_char t = true -> startable (pkg d) -> zlen (t_blocks d) = num_ids t ->
  (exists secs c' d', time_run tsc utime tod itimer bufword malloc_ok cal_fuel Mhz (eval_mm_speed t) s c d =
      Ok (secs, (s, c', d')) /\ (0 < secs)%Qc /\ errors d' = errors d /\ startable (pkg d')) \/
  (time_run tsc utime tod itimer bufword malloc_ok cal_fuel Mhz (eval_mm_speed t) s c d = Fault OutOfBounds /\ exhausted t).
Proof.
  intros Ht Hs Hz. destruct (speed_runs t 10 d Ht Hs Hz) as [(d' & Er & He & Hs')|[Er Hx]]; [lia|left|right].
  2: { split; [|done]. unfold time_run, fsecs, config_timing, ftimer_gettod.
       destruct (read_tod tod c) as [[? ?] c1]. change (for_range 0 10 _ d) with (runs (eval_mm_speed t) 10 d). by rewrite Er. }
  pose proof (ftimer_gettod_average (eval_mm_speed t) tod 10 d d' c ltac:(lia) Er) as Hf.
  pose proof (Hclock (n_tod c)) as Hk. unfold usecs in Hk.
  destruct (tod (n_tod c)) as [s1 u1], (tod (Datatypes.S (n_tod c))) as [s2 u2]. cbn [fst snd] in Hk.
  destruct Hf as (secs & c' & Ef & Hsecs). exists secs, c', d'. split.
  { unfold time_run, fsecs, config_timing. by rewrite Ef. }
  split; [|done]. clear - Hsecs Hk.
  assert (Hp : (0 < secs * d_of_Z (1000000 * 10))%Qc) by (rewrite Hsecs; apply (qc_of_Z_lt 0); lia).
  apply Qcnot_le_lt. intros Hle. apply (Qclt_not_le _ _ Hp).
  replace 0%Qc with (0 * d_of_Z (1000000 * 10))%Qc by reflexivity. apply Qcmult_le_compat_r; [done|by vm_compute].
Qed.

(** Trace [i] can be read, gives [t], and is well-formed. *)
Definition readable (dir : list Z) (files : list (list Z)) (i : Z) (t : trace_t) : Prop :=
  open_trace fs junk dir files i = Ok t /\ trace_ok low_byte_is_char t = true.

Definition loop_graded (traces : list trace_t) (i : Z) (st : loop_state (D := Qc) S) : Prop :=
  let '(stats, _, _, d) := st in
  exists done, filled (zlen traces) i done stats /\ Forall2 graded (take (Z.to_nat i) traces) done /\
    errors d = 0 /\ startable (pkg d).

Lemma mm_trace_graded Mhz dir files traces i t st :
  zget traces i = Some t -> readable dir files i t -> loop_graded traces i st ->
  let m := mm_trace fs junk tsc utime tod itimer bufword malloc_ok cal_fuel Mhz dir files i st in
  wp m (loop_graded traces (i + 1)) \/ (m = Fault OutOfBounds /\ exhausted t).
Proof.
  destruct st as [[[stats s] c] d]. intros Hi [Ho Ht] (done & Hf & Hg & He & Hs) m.
  pose proof (zget_bounds _ _ _ Hi) as Hib. subst m. unfold mm_trace. rewrite Ho. cbn [mbind outcome_bind].
  assert (Ha : zlen (blocks t) = num_ids t /\ zlen (block_sizes t) = num_ids t).
  { clear Hi Ht. revert t Ho. change (wlp (open_trace fs junk dir files i)
      (fun t => zlen (blocks t) = num_ids t /\ zlen (block_sizes t) = num_ids t)).
    unfold open_trace. wskip. wskip. apply read_trace_arrays. }
  destruct (filled_next _ i done stats zero_stats Hib Hf) as [-> _]. cbn [mbind outcome_bind].
  destruct (eval_mm_valid_ok t (use_trace t d) Ht) as [(d1 & A1 & -> & He1 & Hi1 & Hb1 & Hz1)|[Hst Hsp]]; [done|apply Ha..| |].
  2: { right. pose proof Hst as [-> _]. split; [done|]. split; [done|]. exists (use_trace t d). split; [done|]. by left. }
  cbn [mbind outcome_bind Z.eqb].
  destruct (eval_mm_util_ok _ t d1 Ht (law_start _ _ Hi1) Hb1 Hz1)
    as [(d2 & A2 & -> & He2 & Hi2 & Hw & Hb2 & _)|[Hst Hsp]].
  2: { right. pose proof Hst as [-> _]. split; [done|]. split; [done|]. exists d1. split; [by eapply law_start|]. by right; left. }
  cbn [mbind outcome_bind].
  destruct (time_run_ok t Mhz s c d2 Ht (law_start _ _ Hi2) Hb2) as [(secs & c' & d3 & -> & Hsecs & He3 & Hs3)|[-> Hx]]; [left|by right].
  cbn [mbind outcome_bind].
  match goal with |- context [vset stats i ?e] =>
    destruct (filled_next _ i done stats e Hib Hf) as [_ (stats' & -> & Hf')]; set (entry := e) in * end.
  cbn [mbind outcome_bind]. apply wp_ret. exists (done ++ [entry]). split; [done|]. split.
  - rewrite (take_zget _ _ _ Hi). apply Forall2_app; [done|]. constructor; [|constructor].
    split; [done|]. split; [done|]. split; [done|]. exists (mem_heapsize (pkg d2)). split; [done|].
    split; [by eapply Hheap|done].
  - split; [|done]. cbn [errors use_trace] in He1. congruence.
Qed.

Lemma main_grades args cfg traces (s0 : sampler Qc) c0 (libc : L) (p0 p : S) :
  parse_args args = Ok cfg -> run_libc cfg = false -> mem_init p0 = Ok p -> startable p ->
  zlen traces = (choose_files cfg).2 ->
  (forall i t, zget traces i = Some t -> readable (tracedir cfg) (choose_files cfg).1 i t) ->
  let m := main fs junk mem_init tsc utime tod itimer bufword malloc_ok cal_fuel args s0 c0 libc p0 in
  (exists r, m = Ok r /\
     error_count r = 0 /\ numcorrect r = zlen traces /\ Forall2 graded traces (mm_stats r) /\
     perfindex r = index_spec (column_sum s_util (mm_stats r) / d_of_Z (zlen traces))
       (column_sum s_secs (mm_stats r)) (column_sum s_ops (mm_stats r)) /\
     (0 <= perfindex r <= d_of_Z 100)%Qc) \/
  (m = Fault OutOfBounds /\ Exists exhausted traces).
Proof.
  intros Hp Hl Hm Hs Hn Hread m. pose proof (choose_files_count cfg (parse_args_files args cfg Hp)) as [_ Hpos].
  subst m. unfold main. rewrite Hp. cbn [mbind outcome_bind].
  replace (if team_check cfg then check_team team else Ok tt) with (Ok tt) by by destruct (team_check cfg).
  cbn [mbind outcome_bind]. destruct (choose_files cfg) as [files n]. cbn [fst snd] in *. subst n.
  cbn [init_fsecs config_timing]. unfold run_libc_package. rewrite Hl. cbn [mbind outcome_bind]. rewrite Hm.
  cbn [mbind outcome_bind].
  match goal with |- context [for_range 0 _ ?b ?st] =>
    destruct (for_range_or (loop_graded traces) (fun _ _ => Exists exhausted traces) OutOfBounds (zlen traces) b st)
      as [([[[stats s] c] d] & -> & (done & Hf & Hg & He & _))|(-> & _ & _ & _ & _ & Hx)] end.
  - lia.
  - exists []. rewrite take_0. split; [|done]. split; [done|]. by rewrite Z.sub_0_r.
  - intros i st Hi Hst. destruct (zget_in_range traces i Hi) as [t Ht].
    match goal with |- wp ?m _ \/ _ => enough (G : wp m (loop_graded traces (i + 1)) \/ (m = Fault OutOfBounds /\ exhausted t)) end.
    2: { apply mm_trace_graded; [done|by apply Hread|done]. }
    destruct G as [W|[E Hx]]; [by left|right; split; [done|]]. apply list.Exists_exists. exists t. split; [|done]. by eapply zget_elem.
  - left. rewrite (filled_end _ _ _ Hf). destruct Hf as [Hlen _]. rewrite take_ge in Hg by (unfold zlen; lia).
    cbn [mbind outcome_bind]. rewrite He, <- Hlen.
    assert (Ht : exists table, (if verbose cfg =? 0 then Ok [] else printresults 0 (zlen done) done) = Ok table).
    { destruct (verbose cfg =? 0); [by eexists|]. destruct (printresults_total 0 done) as [x ->]. by eexists. }
    destruct Ht as [table ->]. cbn [mbind outcome_bind]. rewrite aggregate_sums. cbn [mbind outcome_bind].
    rewrite (surjective_pairing (performance 0 _ _ _)), performance_index.
    eexists. split; [reflexivity|]. cbn [error_count numcorrect mm_stats perfindex].
    assert (Hb : Forall (fun e => s_valid e = 1 /\ (0 <= s_util e <= 1)%Qc /\ (0 <= s_ops e)%Qc /\ (0 <= s_secs e)%Qc) done).
    { apply list.Forall_forall. intros e (k & Hk)%list_elem_of_lookup.
      destruct (Forall2_lookup_r _ _ _ _ _ Hg Hk) as (t & Htk & Hgt). split; [apply Hgt|].
      apply (graded_bounds t); [done|]. rewrite <- zget_nat in Htk. apply (Hread _ _ Htk). }
    split; [done|]. split; [by apply correct_all; eapply list.Forall_impl; [exact Hb|]; intros ? [? _]|].
    split; [done|]. split; [done|].
    destruct (column_sum_bounds s_util done) as [Hu1 Hu2]; [by eapply list.Forall_impl; [exact Hb|]; intros ? (_ & ? & _)|].
    rewrite <- Hlen in Hpos. apply index_bounds.
    + split; [apply qc_div_nonneg; [done|apply (qc_of_Z_le 0); lia]|apply qc_div_le_1; [by apply (qc_of_Z_lt 0)|done]].
    + apply column_sum_nonneg. eapply list.Forall_impl; [exact Hb|]. by intros ? (_ & _ & _ & ?).
    + apply column_sum_nonneg. eapply list.Forall_impl; [exact Hb|]. by intros ? (_ & _ & ? & _).
  - right. split; [done|exact Hx].
Qed.
End Grading.

(** * The program that the Makefile builds *)

(** [mem_init] of memlib.c: [storage] is what libc [malloc(MAX_HEAP)] returned. *)
Definition link_mem_init (storage : option Z) (bytes : Z -> Z) (s : mm_state) : outcome mm_state :=
  l ← MemLib.mem_init storage bytes; Ok (MkMm l (total_free_size s)).

Lemma mm_heap_positive (s : mm_state) A : mm_inv s A -> 0 < MDriver.mem_heapsize s.
Proof.
  intros (B & Hl & _). destruct (live_geom _ _ Hl) as [(? & ? & ? & ? & ? & HM) _].
  cbn. unfold MemLib.mem_heapsize. change MAX_HEAP with 20971520 in HM. lia.
Qed.

(** C4: the whole program of the malloc lab: when the options parse and do not ask for
    libc, the trace files can be read and are well-formed as in C3 (the default list is)
    and the clock advances, main of mdriver.c linked with mm.c returns without errors
    and with every trace correct; each entry holds the number of requests, a positive
    time and the high-water mark over a heap at least as large, and the performance
    index, in exact arithmetic, is 60% of the mean utilisation plus 40% of the
    throughput capped at 600 Kops/s, between 0 and 100; or main ends in a fault because
    a run of one of the traces, whose requests add up to more than the heap, reaches a
    request for which the heap is full. *)
Theorem driver_grades_mm {L : Type} `{MallocPackage L} (fs : list Z -> option (list Z)) (junk : Z -> Z)
    (a : Z) (bytes : Z -> Z) (tsc utime : nat -> Z) (tod itimer : nat -> Z * Z) (bufword : Z -> Z)
    (malloc_ok : bool) (cal_fuel : nat) (args : list (list Z)) (cfg : config) (traces : list trace_t)
    (s0 : sampler Qc) (c0 : clock Qc) (libc : L) (p0 : mm_state) :
  (forall k, usecs (tod k) < usecs (tod (S k))) ->
  parse_args args = Ok cfg -> run_libc cfg = false ->
  0 <= a -> a mod 8 = 0 -> a + MAX_HEAP < 2 ^ 32 - 1 -> 0 <= total_free_size p0 < 2 ^ 32 ->
  zlen traces = (choose_files cfg).2 ->
  (forall i t, zget traces i = Some t -> readable fs junk (tracedir cfg) (choose_files cfg).1 i t) ->
  let m := main fs junk (link_mem_init (Some a) bytes) tsc utime tod itimer bufword malloc_ok cal_fuel
             args s0 c0 libc p0 in
  (exists r, m = Ok r /\
     error_count r = 0 /\ numcorrect r = zlen traces /\ Forall2 graded traces (mm_stats r) /\
     perfindex r = index_spec (column_sum s_util (mm_stats r) / d_of_Z (zlen traces))
       (column_sum s_secs (mm_stats r)) (column_sum s_ops (mm_stats r)) /\
     (0 <= perfindex r <= d_of_Z 100)%Qc) \/
  (m = Fault OutOfBounds /\ Exists (exhausted (S := mm_state)) traces).
Proof.
  intros Hclock Hp Hl Ha H8 Hmax Ht Hn Hread.
  apply main_grades with (cfg := cfg) (p := MkMm (MkMemlib a a (a + MAX_HEAP) bytes) (total_free_size p0)); try done.
  exact mm_heap_positive.
Qed.

(** The file of the witness: the trace of two ids in the text format. *)
Definition demo_file : list Z :=
  cstr "20000 2 4 1 a 0 40 a 1 24 r 0 100 f 1 ".

(** A file system with the file ./demo.rep only. *)
Definition demo_fs (path : list Z) : option (list Z) :=
  if bool_decide (path = cstr "./demo.rep") then Some demo_file else None.

(** A clock that advances by 1 ms at every reading. *)
Definition ms_clock (k : nat) : Z * Z := (0, 1000 * Z.of_nat k).

Definition demo_read : trace_t := MkTrace 20000 2 4 1
  [MkOp ALLOC 0 40; MkOp ALLOC 1 24; MkOp REALLOC 0 100; MkOp FREE 1 7] [7; 7] [7; 7].

Definition demo_main (flags : list string) : outcome (report Qc) :=
  main (L := mm_state) demo_fs (fun _ => 7) (link_mem_init (Some 4096) (fun _ => 0))
    (fun _ => 0) (fun _ => 0) ms_clock (fun _ => (0, 0)) (fun _ => 0) true 0
    (cstr <$> flags) fcyc_defaults clock0 (mk 4096 4096 (4096 + MAX_HEAP) (fun _ => 0) 0)
    (mk 0 0 0 (fun _ => 0) 0).

Lemma driver_grades_mm_witness :
  exists r, demo_main ["-g"; "-f"; "demo.rep"]%string = Ok r /\ error_count r = 0 /\ numcorrect r = 1.
Proof.
  destruct (driver_grades_mm (L := mm_state) demo_fs (fun _ => 7) 4096 (fun _ => 0)
    (fun _ => 0) (fun _ => 0) ms_clock (fun _ => (0, 0)) (fun _ => 0) true 0
    (cstr <$> ["-g"; "-f"; "demo.rep"]%string)
    (MkConfig 0 (cstr "./") (Some [cstr "demo.rep"]) 1 true false true) [demo_read]
    fcyc_defaults clock0 (mk 4096 4096 (4096 + MAX_HEAP) (fun _ => 0) 0) (mk 0 0 0 (fun _ => 0) 0))
    as [(r & E & He & Hc & _)|[_ Hx]].
  - intros k. unfold usecs, ms_clock. cbn [fst snd]. lia.
  - vm_compute. reflexivity.
  - reflexivity.
  - lia.
  - reflexivity.
  - by vm_compute.
  - by vm_compute.
  - reflexivity.
  - intros i t Hi. pose proof (zget_bounds _ _ _ Hi) as Hb. change (zlen [demo_read]) with 1 in Hb.
    assert (i = 0) as -> by lia. injection Hi as <-. split; vm_compute; reflexivity.
  - exists r. split; [exact E|]. split; [exact He|exact Hc].
  - exfalso. apply Exists_cons in Hx as [[Hx _]|Hx]; [vm_compute in Hx; discriminate Hx|by apply Exists_nil in Hx].
Defined.

(** C10: for every malloc package and every arithmetic, whenever main of mdriver.c
    reports, the error counter and the number of correct traces add up to the number of
    trace files that the options select, and with an error the performance index is 0. *)
Theorem driver_errors_and_correct {S L D : Type} `{MallocPackage S} `{MallocPackage L} `{Double D}
    (fs : list Z -> option (list Z)) (junk : Z -> Z) (mem_init : S -> outcome S)
    (tsc utime : nat -> Z) (tod itimer : nat -> Z * Z) (bufword : Z -> Z) (malloc_ok : bool) (cal_fuel : nat)
    (args : list (list Z)) (s0 : sampler D) (c0 : clock D) (libc : L) (p0 : S) (r : report D) :
  main fs junk mem_init tsc utime tod itimer bufword malloc_ok cal_fuel args s0 c0 libc p0 = Ok r ->
  error_count r + numcorrect r = zlen (mm_stats r) /\
  numcorrect r = correct_in (mm_stats r) /\
  (exists cfg, parse_args args = Ok cfg /\ zlen (mm_stats r) = (choose_files cfg).2) /\
  (error_count r <> 0 -> perfindex r = d_of_Z 0).
Proof. apply main_counts. Qed.

(** The file of a trace that reallocates id 128, which the data check rejects. *)
Definition high_id_fs (path : list Z) : option (list Z) :=
  Some (cstr "0 129 2 1 a 128 8 r 128 16 ").

Definition high_id_main : outcome (report Qc) :=
  main (L := mm_state) high_id_fs (fun _ => 7) (link_mem_init (Some 4096) (fun _ => 0))
    (fun _ => 0) (fun _ => 0) ms_clock (fun _ => (0, 0)) (fun _ => 0) true 0
    (cstr <$> ["-l"; "-v"; "-f"; "x.rep"]%string) fcyc_defaults clock0
    (mk 4096 4104 (4096 + MAX_HEAP) (fun x => if x =? 4096 then 7 else 0) 0) (mk 0 0 0 (fun _ => 0) 0).

Lemma driver_errors_and_correct_witness :
  exists r, high_id_main = Ok r /\ error_count r = 1 /\ error_count r + numcorrect r = 1 /\
    perfindex r = d_of_Z 0.
Proof.
  assert (V : match high_id_main with Ok r => error_count r | Fault _ => 0 end = 1) by (vm_compute; reflexivity).
  assert (N : match high_id_main with Ok r => zlen (mm_stats r) | Fault _ => 0 end = 1) by (vm_compute; reflexivity).
  destruct high_id_main as [r|e] eqn:E; [|discriminate V].
  destruct (driver_errors_and_correct high_id_fs (fun _ => 7) (link_mem_init (Some 4096) (fun _ => 0))
    (fun _ => 0) (fun _ => 0) ms_clock (fun _ => (0, 0)) (fun _ => 0) true 0
    (cstr <$> ["-l"; "-v"; "-f"; "x.rep"]%string) fcyc_defaults clock0
    (mk 4096 4104 (4096 + MAX_HEAP) (fun x => if x =? 4096 then 7 else 0) 0) (mk 0 0 0 (fun _ => 0) 0) r E)
    as (Hs & _ & _ & Hp).
  exists r. split; [reflexivity|]. split; [exact V|]. split; [rewrite Hs; exact N|].
  apply Hp. rewrite V. discriminate.
Defined.

(** * The trace directory *)

Definition dir_ok (c : config) : Prop :=
  list.last (tracedir c) = Some (chr "/") /\ zlen (tracedir c) < MAXLINE.

Lemma copy_line_keeps s : wlp (copy_line s) (fun r => r = s /\ zlen r < MAXLINE).
Proof.
  unfold copy_line, require. destruct (Z.ltb_spec (zlen s) MAXLINE); [by apply wlp_ret|apply wlp_fault].
Qed.

Lemma set_tracedir_ends arg :
  wlp (set_tracedir arg) (fun d => list.last d = Some (chr "/") /\ zlen d < MAXLINE).
Proof.
  unfold set_tracedir. eapply wlp_bind; [apply copy_line_keeps|]. intros dir [-> Hl].
  destruct (vget arg (zlen arg - 1)) as [x|] eqn:E; [|apply wlp_fault]. cbn [mbind outcome_bind].
  unfold vget in E. destruct (zget arg (zlen arg - 1)) as [y|] eqn:Ez; [|done]. injection E as ->.
  destruct (Z.eqb_spec x (chr "/")) as [->|]; cbn [negb].
  - apply wlp_ret. split; [|done]. pose proof (zget_bounds _ _ _ Ez). rewrite last_lookup. unfold zget in Ez.
    destruct (Z.ltb_spec (zlen arg - 1) 0); [lia|]. rewrite <- Ez. f_equal. unfold zlen. lia.
  - eapply wlp_mono; [apply copy_line_keeps|]. intros ? [-> ?]. by rewrite last_snoc.
Qed.

(** Whatever the options, the trace directory ends with a slash and fits its
    array, as the comment at -t says. *)
Theorem parse_args_tracedir (args : list (list Z)) (cfg : config) :
  parse_args args = Ok cfg -> dir_ok cfg.
Proof.
  apply wlp_for_each; [by vm_compute|]. intros [opt arg] c Hc. unfold handle_option.
  repeat case_match; try (by apply wlp_ret); try apply wlp_fault.
  eapply wlp_bind; [apply set_tracedir_ends|]. intros dir Hd. by apply wlp_ret.
Qed.

(** [-t] with an empty argument reads the character before the array. *)
Theorem empty_tracedir_faults : parse_args [cstr "-t"; []] = Fault OutOfBounds.
Proof. vm_compute. reflexivity. Qed.
