(* ===== verification/Sort.v ===== *)
(** The sorting routines of cpp/algorithm/lib/sort/sort.h, as functions on the
    vector.

    The templates compare with [operator<] and [operator>]; [StrictWeak] is what
    they need of the element type.  [rand()] in quick_sort is a parameter.  The size of
    the vector is truncated to [int32_t] where the code stores it in one, and the child
    index of heap_sort wraps. *)

From S2P Require Import Prelude.

Section Templates.
Context {T : Type} `{StrictWeak T}.
Implicit Types v : list T.

(** [a > b] *)
Definition gtb (a b : T) : bool := ltb b a.

(** [if (v[i] > v[j]) std::swap(v[k], v[j])], and whether it swapped. *)
Definition swap_if_gt (v : list T) (i j k : Z) : outcome (bool * list T) :=
  a ← vget v i; b ← vget v j;
  if gtb a b then v ← vswap v k j; Ok (true, v) else Ok (false, v).

Definition bubble_sort (v : list T) : outcome (list T) :=
  let n := s32 (zlen v) in
  for_range 0 n (fun i v =>
    for_range 1 (n - i) (fun j v =>
      '(_, v) ← swap_if_gt v (j - 1) j (j - 1); Ok v) v) v.

(** The inner loop of insert_sort, state [(j, v)]. *)
Definition insert_back (st : Z * list T) : outcome (Z * list T + list T) :=
  let '(j, v) := st in
  if 0 <? j then
    '(sw, v) ← swap_if_gt v (j - 1) j (j - 1);
    if (sw : bool) then Ok (inl (j - 1, v)) else Ok (inr v)
  else Ok (inr v).

Definition insert_sort (v : list T) : outcome (list T) :=
  let n := s32 (zlen v) in
  for_range 1 n (fun i v => while_fuel (S (Z.to_nat i)) insert_back (i, v)) v.

Definition select_sort (v : list T) : outcome (list T) :=
  let n := s32 (zlen v) in
  for_range 0 n (fun i v =>
    value ← vget v i;
    '(_, index) ← for_range (i + 1) n (fun j st =>
        let '(value, index) := st in
        x ← vget v j;
        if ltb x value then Ok (x, j) else Ok (value, index)) (value, i);
    vswap v i index) v.

(** The inner loop of shell_sort with gap [d], state [(j, v)]. *)
Definition shell_back (d : Z) (st : Z * list T) : outcome (Z * list T + list T) :=
  let '(j, v) := st in
  if 0 <? j then
    '(sw, v) ← swap_if_gt v (j - d) j (j - 1);
    if (sw : bool) then Ok (inl (j - d, v)) else Ok (inr v)
  else Ok (inr v).

Definition shell_pass (n : Z) (st : Z * list T) : outcome (Z * list T + list T) :=
  let '(d, v) := st in
  if 1 <=? d then
    v ← for_range d n (fun i v => while_fuel (S (Z.to_nat i)) (shell_back d) (i, v)) v;
    Ok (inl (Z.shiftr d 1, v))
  else Ok (inr v).

Definition shell_sort (v : list T) : outcome (list T) :=
  let n := s32 (zlen v) in
  while_fuel (S (length v)) (shell_pass n) (Z.shiftr n 1, v).

(** The arrays [a], [b] of [_merge]: [len] elements of [v] from [from]. *)
Definition copy_slice (v : list T) (from len : Z) : outcome (list T) :=
  for_range 0 len (fun i a => x ← vget v (from + i); Ok (a ++ [x])) [].

(** The loop of [_merge], state [(i, j, v)]. *)
Definition merge_step (a b : list T) (index : Z) (st : Z * Z * list T) : outcome (Z * Z * list T) :=
  let '(i, j, v) := st in
  if (i <? zlen a) && (j <? zlen b) then
    x ← vget a i; y ← vget b j;
    if ltb x y then v ← vset v index x; Ok (i + 1, j, v)
    else v ← vset v index y; Ok (i, j + 1, v)
  else if i <? zlen a then x ← vget a i; v ← vset v index x; Ok (i + 1, j, v)
  else y ← vget b j; v ← vset v index y; Ok (i, j + 1, v).

Definition merge (v : list T) (left mid right : Z) : outcome (list T) :=
  a ← copy_slice v left (mid - left);
  b ← copy_slice v mid (right - mid);
  '(_, _, v) ← for_range left right (merge_step a b) (0, 0, v);
  Ok v.

(** The recursion depth is at most [end - start]. *)
Fixpoint merge_sort_fuel (fuel : nat) (v : list T) (start end_ : Z) : outcome (list T) :=
  match fuel with
  | O => Fault OutOfFuel
  | S f =>
      if start <? end_ - 1 then
        let mid := start + Z.shiftr (end_ - start) 1 in
        v ← merge_sort_fuel f v start mid;
        v ← merge_sort_fuel f v mid end_;
        merge v start mid end_
      else Ok v
  end.

Definition merge_sort (v : list T) (start end_ : Z) : outcome (list T) :=
  merge_sort_fuel (S (Z.to_nat (end_ - start))) v start end_.

(** The loop of [_heapify], state [(parent, child, arr)]. *)
Definition heapify_step (end_ : Z) (st : Z * Z * list T) : outcome (Z * Z * list T + list T) :=
  let '(parent, child, arr) := st in
  if child <? end_ then
    child ←
      (if child + 1 <? end_ then
         a ← vget arr child; b ← vget arr (child + 1);
         Ok (if ltb a b then child + 1 else child)
       else Ok child);
    p ← vget arr parent; c ← vget arr child;
    arr ← (if ltb p c then vswap arr parent child else Ok arr);
    Ok (inl (child, s32 (2 * child + 1), arr))
  else Ok (inr arr).

Definition heapify (arr : list T) (parent end_ : Z) : outcome (list T) :=
  while_fuel (S (length arr)) (heapify_step end_) (parent, s32 (2 * parent + 1), arr).

Definition heap_sort (arr : list T) : outcome (list T) :=
  let n := s32 (zlen arr) in
  arr ← for_down (Z.quot n 2 - 1) 0 (fun i arr => heapify arr i n) arr;
  for_down (n - 1) 1 (fun i arr => arr ← vswap arr 0 i; heapify arr 0 i) arr.
End Templates.

(** * The routines on integers *)

(** quick_sort for [int32_t]; [rnd] gives the value of [rand()] for a slice. *)
Section Quick.
Context (rnd : Z -> Z -> Z).

(** [while (left_ < right_ && val <= arr[right_]) --right_;] *)
Definition scan_right (arr : list Z) (val left_ : Z) (right_ : Z) : outcome (Z + Z) :=
  if left_ <? right_ then x ← vget arr right_; if val <=? x then Ok (inl (right_ - 1)) else Ok (inr right_)
  else Ok (inr right_).

(** [while (left_ < right_ && arr[left_] <= val) ++left_;] *)
Definition scan_left (arr : list Z) (val right_ : Z) (left_ : Z) : outcome (Z + Z) :=
  if left_ <? right_ then x ← vget arr left_; if x <=? val then Ok (inl (left_ + 1)) else Ok (inr left_)
  else Ok (inr left_).

(** One round of the outer loop of [_partition], state [(left_, right_, arr)]. *)
Definition partition_step (val : Z) (st : Z * Z * list Z) : outcome (Z * Z * list Z + Z * list Z) :=
  let '(left_, right_, arr) := st in
  if left_ <? right_ then
    let fuel := S (length arr) in
    right_ ← while_fuel fuel (scan_right arr val left_) right_;
    arr ← vswap arr left_ right_;
    left_ ← while_fuel fuel (scan_left arr val right_) left_;
    arr ← vswap arr left_ right_;
    Ok (inl (left_, right_, arr))
  else Ok (inr (left_, arr)).

Definition partition (arr : list Z) (left_ right_ : Z) : outcome (Z * list Z) :=
  require (negb (right_ - left_ + 1 =? 0)) DivByZero;;
  let index := left_ + Z.rem (rnd left_ right_) (right_ - left_ + 1) in
  arr ← vswap arr left_ index;
  x ← vget arr left_;
  let val := s32 x in
  '(left_, arr) ← while_fuel (S (length arr)) (partition_step val) (left_, right_, arr);
  arr ← vset arr left_ val;
  Ok (left_, arr).

Fixpoint quick_sort_fuel (fuel : nat) (arr : list Z) (start end_ : Z) : outcome (list Z) :=
  match fuel with
  | O => Fault OutOfFuel
  | S f =>
      if start <? end_ then
        '(mid, arr) ← partition arr start end_;
        arr ← quick_sort_fuel f arr start (mid - 1);
        quick_sort_fuel f arr (mid + 1) end_
      else Ok arr
  end.

Definition quick_sort (arr : list Z) (start end_ : Z) : outcome (list Z) :=
  quick_sort_fuel (S (Z.to_nat (end_ - start + 1))) arr start end_.
End Quick.

(** [bucket[i % bucket_size].push_back(i)] for every element of [v]. *)
Definition fill_buckets (v : list Z) (bucket_size : Z) : outcome (list (list Z)) :=
  for_range 0 (zlen v) (fun k bucket =>
    i ← vget v k;
    require (negb (bucket_size =? 0)) DivByZero;;
    b ← vget bucket (Z.rem i bucket_size);
    vset bucket (Z.rem i bucket_size) (b ++ [i])) (zreplicate bucket_size []).

Definition bucket_sort (v : list Z) (bucket_size : Z) : outcome (list Z) :=
  bucket ← fill_buckets v bucket_size;
  '(v, _) ← for_range 0 (zlen bucket) (fun i st =>
    b ← vget bucket i;
    b ← insert_sort b;
    for_range 0 (zlen b) (fun k st =>
      let '(v, idx) := st in
      value ← vget b k; v ← vset v idx value; Ok (v, idx + 1)) st) (v, 0);
  Ok v.

(** [++count[x]] *)
Definition incr_at (count : list Z) (x d : Z) : outcome (list Z) :=
  c ← vget count x; vset count x (c + d).

(** [count[key(v[i])]++] for every element. *)
Definition tally_keys (key : Z -> Z) (v count : list Z) : outcome (list Z) :=
  for_range 0 (zlen v) (fun i count => x ← vget v i; incr_at count (key x) 1) count.

(** [count[i] += count[i - 1]] *)
Definition prefix_sums (count : list Z) : outcome (list Z) :=
  for_range 1 (zlen count) (fun i count =>
    p ← vget count (i - 1); incr_at count i p) count.

(** [v[count[key(tmp[i])] - 1] = tmp[i]; --count[key(tmp[i])]] from the end. *)
Definition place_back (key : Z -> Z) (tmp : list Z) (count v : list Z) : outcome (list Z) :=
  '(_, v) ← for_down (s32 (zlen tmp - 1)) 0 (fun i st =>
    let '(count, v) := st in
    x ← vget tmp i;
    c ← vget count (key x);
    v ← vset v (c - 1) x;
    count ← incr_at count (key x) (-1);
    Ok (count, v)) (count, v);
  Ok v.

(** The three loops shared by counting_sort and [_stable_sort]. *)
Definition sort_by_key (key : Z -> Z) (size : Z) (v : list Z) : outcome (list Z) :=
  count ← tally_keys key v (zreplicate size 0);
  count ← prefix_sums count;
  place_back key v count v.

Definition counting_sort (v : list Z) (max_value : Z) : outcome (list Z) :=
  sort_by_key (fun x => x) (max_value + 1) v.

(** [_quick_pow] of radix_sort, in [int64_t]. *)
Definition quick_pow_step (st : Z * Z * Z) : outcome (Z * Z * Z + Z) :=
  let '(result, v, p) := st in
  if 0 <? p then
    let result := if Z.odd p then s64 (result * v) else result in
    Ok (inl (result, s64 (v * v), Z.shiftr p 1))
  else Ok (inr result).

Definition quick_pow (v p : Z) : outcome Z :=
  while_fuel (S (Z.to_nat p)) quick_pow_step (1, v, p).

(** [_fn]: the digit of [value] at position [i]. *)
Definition digit_at (pow : Z) (value : Z) : Z := Z.rem (Z.quot value pow) 10.

Definition stable_sort_digit (idx : Z) (v : list Z) : outcome (list Z) :=
  val ← (if idx =? 0 then Ok 1 else p ← quick_pow 10 idx; Ok (s32 p));
  require (negb (val =? 0)) DivByZero;;
  sort_by_key (digit_at val) 11 v.

(** The number of digits of the largest element. *)
Fixpoint count_digits (fuel : nat) (m d : Z) : outcome Z :=
  match fuel with
  | O => Fault OutOfFuel
  | S f => if m =? 0 then Ok d else count_digits f (Z.quot m 10) (d + 1)
  end.

Definition radix_sort (v : list Z) (d : Z) : outcome (list Z) :=
  d ← (if d =? 0 then count_digits 32 (foldl Z.max 0 v) d else Ok d);
  for_range 0 d stable_sort_digit v.
