(* ===== verification/SortSpec.v ===== *)
(** Correctness of the comparison sorts of sort.h: the result is a sorted
    permutation of the input, for every strict weak order. *)

From Stdlib Require Import Sorting.Sorted.
From S2P Require Import Prelude Sort.

(** [w] is a sorted rearrangement of [v]. *)
Definition sorts {T} `{StrictWeak T} (v w : list T) : Prop := w ≡ₚ v /\ sorted w.

(** Case analysis on the positions of a swapped vector. *)
Ltac swapped :=
  repeat match goal with
         | H : zget (zswap _ _ _) _ = Some _ |- _ => rewrite zget_zswap in H by lia
         end;
  repeat case_decide; subst.

Section Comparison.
Context {T : Type} `{StrictWeak T}.
Implicit Types v w : list T.

(** Every element before [m] is at most every element from [m] on. *)
Definition split_at v (m : Z) : Prop :=
  forall i j x y, 0 <= i < m -> m <= j -> zget v i = Some x -> zget v j = Some y -> leT x y.

(** The part from [m] on is final. *)
Definition tail_done v (m : Z) : Prop := sorted_on v m (zlen v) /\ split_at v m.

(** The part before [m] is final. *)
Definition head_done v (m : Z) : Prop := sorted_on v 0 m /\ split_at v m.

Lemma tail_done_swap v m a b :
  0 <= a < m -> 0 <= b < m -> m <= zlen v -> tail_done v m -> tail_done (zswap v a b) m.
Proof.
  intros Ha Hb Hm [Hs Hp]. split.
  - rewrite zlen_zswap. intros i j x y Hi Hij Hj Hx Hy. swapped; try lia.
    by apply (Hs i j).
  - intros i j x y Hi Hj Hx Hy. swapped; try lia; (eapply Hp; [| |exact Hx|exact Hy]; lia).
Qed.

Lemma head_done_swap v m a b :
  m <= a < zlen v -> m <= b < zlen v -> 0 <= m -> head_done v m -> head_done (zswap v a b) m.
Proof.
  intros Ha Hb Hm [Hs Hp]. split.
  - intros i j x y Hi Hij Hj Hx Hy. swapped; try lia. by apply (Hs i j).
  - intros i j x y Hi Hj Hx Hy. swapped; try lia; (eapply Hp; [| |exact Hx|exact Hy]; lia).
Qed.

Lemma wp_swap_if_gt v i j k (Q : bool * list T -> Prop) :
  0 <= i < zlen v -> 0 <= j < zlen v -> 0 <= k < zlen v ->
  (forall a b, zget v i = Some a -> zget v j = Some b -> ltb b a = true -> Q (true, zswap v k j)) ->
  (forall a b, zget v i = Some a -> zget v j = Some b -> leT a b -> Q (false, v)) ->
  wp (swap_if_gt v i j k) Q.
Proof.
  intros Hi Hj Hk H1 H2. unfold swap_if_gt, gtb. wp_step. wp_step. wp_step. wp_step.
  destruct (ltb _ _) eqn:E.
  - wp_step. wp_step. apply wp_ret. eauto.
  - apply wp_ret. eauto.
Qed.

(** ** bubble_sort *)

(** The last element of the first [j] is their maximum. *)
Definition max_last v (j : Z) : Prop :=
  forall i x y, 0 <= i < j -> zget v i = Some x -> zget v (j - 1) = Some y -> leT x y.

Lemma bubble_pass v m :
  0 < m <= zlen v -> tail_done v m ->
  wp (for_range 1 m (fun j v => '(_, v) ← swap_if_gt v (j - 1) j (j - 1); Ok v) v)
     (fun w => w ≡ₚ v /\ zlen w = zlen v /\ tail_done w (m - 1)).
Proof.
  intros Hm Ht.
  apply (wp_for_range (fun j w => w ≡ₚ v /\ zlen w = zlen v /\ tail_done w m /\ max_last w j)); [lia| | |].
  - split; [done|]. split; [done|]. split; [done|]. intros i x y Hi Hx Hy.
    replace i with 0 in Hx by lia. change (1 - 1) with 0 in Hy. assert (x = y) by congruence. subst. reflexivity.
  - intros j w Hj (Hp & Hz & Htw & Hmx). apply wp_bind, wp_swap_if_gt; [lia..| |].
    + intros a b Ha Hb Hlt. apply wp_ret. split; [by rewrite zswap_perm|].
      split; [zlia|]. split; [apply tail_done_swap; (done || lia)|].
      intros i x y Hi Hx Hy. swapped; try lia.
      all: replace (j + 1 - 1) with j in * by lia; simplify_eq; try reflexivity.
      all: try (by apply ltb_true_leT).
      all: try (apply (Hmx i); (done || lia)).
    + intros a b Ha Hb Hle. apply wp_ret. split; [done|]. split; [done|]. split; [done|].
      intros i x y Hi Hx Hy. replace (j + 1 - 1) with j in Hy by lia. simplify_eq.
      destruct (Z.eq_dec i j) as [->|]; [simplify_eq; reflexivity|].
      transitivity a; [|done]. by apply (Hmx i); [lia|..].
  - intros w (Hp & Hz & [Hs Hsp] & Hmx). split; [done|]. split; [done|]. split.
    + intros i j x y Hi Hij Hj Hx Hy. destruct (Z.eq_dec i (m - 1)) as [->|].
      * destruct (Z.eq_dec j (m - 1)) as [->|]; [simplify_eq; reflexivity|].
        by apply (Hsp (m - 1) j); try lia.
      * by apply (Hs i j); try lia.
    + intros i j x y Hi Hj Hx Hy. destruct (Z.eq_dec j (m - 1)) as [->|].
      * by apply (Hmx i); try lia.
      * by apply (Hsp i j); try lia.
Qed.

Lemma bubble_sort_ok v : zlen v < 2 ^ 31 -> wp (bubble_sort v) (sorts v).
Proof.
  intros Hn. unfold bubble_sort. pose proof (zlen_nonneg v). rewrite s32_id by (unfold is_s32; lia).
  apply (wp_for_range (fun i w => w ≡ₚ v /\ zlen w = zlen v /\ tail_done w (zlen v - i))); [lia| | |].
  - split; [done|]. split; [done|]. rewrite Z.sub_0_r. split.
    + intros i j x y Hi Hij Hj. lia.
    + intros i j x y Hi Hj _ Hy. apply zget_bounds in Hy. lia.
  - intros i w Hi (Hp & Hz & Ht). eapply wp_mono; [apply bubble_pass; [lia|done]|].
    intros w' (Hp' & Hz' & Ht'). split; [by rewrite Hp'|]. split; [lia|].
    by replace (zlen v - (i + 1)) with (zlen v - i - 1) by lia.
  - intros w (Hp & Hz & [Hs _]). split; [done|]. apply sorted_on_all.
    by replace (zlen v - zlen v) with 0 in Hs by lia.
Qed.

(** ** insert_sort *)

(** The element at [j] is being inserted into the sorted slice [0, i]. *)
Definition inserting v (i j : Z) : Prop :=
  0 <= j <= i /\ i < zlen v /\ sorted_on v 0 j /\ sorted_on v j (i + 1) /\
  forall a b x y, 0 <= a < j -> j < b <= i -> zget v a = Some x -> zget v b = Some y -> leT x y.

Lemma inserting_swap v i j a b :
  inserting v i j -> 0 < j -> zget v (j - 1) = Some a -> zget v j = Some b -> ltb b a = true ->
  inserting (zswap v (j - 1) j) i (j - 1).
Proof.
  intros (Hj & Hi & Hs1 & Hs2 & Hc) H0 Ha Hb Hlt. split; [lia|]. split; [zlia|]. split; [|split].
  - intros p q x y Hp Hpq Hq Hx Hy. swapped; try lia. by apply (Hs1 p q); try lia.
  - apply sorted_on_adjacent; [lia|zlia|]. intros p x y Hp Hq Hx Hy. swapped; try lia; simplify_eq.
    + by apply ltb_true_leT.
    + by apply (Hc (j - 1) (j + 1)); try lia.
    + by apply (Hs2 p (p + 1)); try lia.
  - intros p q x y Hp Hq Hx Hy. swapped; try lia; simplify_eq.
    + by apply (Hs1 p (j - 1)); try lia.
    + by apply (Hc p q); try lia.
Qed.

Lemma inserting_done v i j :
  inserting v i j ->
  (j = 0 \/ exists a b, zget v (j - 1) = Some a /\ zget v j = Some b /\ leT a b) ->
  sorted_on v 0 (i + 1).
Proof.
  intros (Hj & Hi & Hs1 & Hs2 & Hc) [->|(a & b & Ha & Hb & Hle)]; [done|].
  apply sorted_on_adjacent; [lia|lia|]. intros p x y Hp Hq Hx Hy.
  destruct (Z.lt_trichotomy p (j - 1)) as [?|[->|?]].
  - by apply (Hs1 p (p + 1)); try lia.
  - replace (j - 1 + 1) with j in Hy by lia. by simplify_eq.
  - by apply (Hs2 p (p + 1)); try lia.
Qed.

Lemma insert_one v i :
  1 <= i < zlen v -> sorted_on v 0 i ->
  wp (while_fuel (S (Z.to_nat i)) insert_back (i, v))
     (fun w => w ≡ₚ v /\ zlen w = zlen v /\ sorted_on w 0 (i + 1)).
Proof.
  intros Hi Hs.
  apply (wp_while (fun st => st.2 ≡ₚ v /\ zlen st.2 = zlen v /\ inserting st.2 i st.1)
                  (fun st => Z.to_nat st.1)); [|cbn; lia|].
  - split; [done|]. split; [done|]. cbn. split; [lia|]. split; [lia|]. split; [done|]. split.
    + intros p q x y Hp Hpq Hq Hx Hy. replace p with q in * by lia. simplify_eq. reflexivity.
    + intros. lia.
  - intros [j w] (Hp & Hz & Hin). cbn [fst snd] in *. unfold insert_back.
    pose proof Hin as (Hj & Hiw & _).
    destruct (Z.ltb_spec 0 j) as [H0|H0].
    + apply wp_bind, wp_swap_if_gt; [lia..| |].
      * intros a b Ha Hb Hlt. apply wp_ret. cbn [fst snd]. split; [|lia].
        split; [by rewrite zswap_perm|]. split; [zlia|]. by eapply inserting_swap.
      * intros a b Ha Hb Hle. apply wp_ret. split; [done|]. split; [done|].
        eapply inserting_done; [done|]. right. eauto.
    + apply wp_ret. split; [done|]. split; [done|]. eapply inserting_done; [done|]. left. lia.
Qed.

Lemma insert_sort_ok v : zlen v < 2 ^ 31 -> wp (insert_sort v) (sorts v).
Proof.
  intros Hn. unfold insert_sort. pose proof (zlen_nonneg v). rewrite s32_id by (unfold is_s32; lia).
  destruct (Z.le_gt_cases (zlen v) 1) as [Hz|Hz].
  { rewrite for_range_empty by lia. apply wp_ret. split; [done|].
    intros i j x y Hij Hx Hy. pose proof (zget_bounds _ _ _ Hx). pose proof (zget_bounds _ _ _ Hy).
    replace i with j in * by lia. simplify_eq. reflexivity. }
  apply (wp_for_range (fun i w => w ≡ₚ v /\ zlen w = zlen v /\ sorted_on w 0 i)); [lia| | |].
  - split; [done|]. split; [done|]. intros p q x y Hp Hpq Hq Hx Hy.
    replace p with q in * by lia. simplify_eq. reflexivity.
  - intros i w Hi (Hp & Hzw & Hs). eapply wp_mono; [apply insert_one; [lia|done]|].
    intros w' (Hp' & Hz' & Hs'). split; [by rewrite Hp'|]. split; [lia|done].
  - intros w (Hp & Hzw & Hs). split; [done|]. apply sorted_on_all. by rewrite Hzw.
Qed.

(** ** select_sort *)

Lemma select_min v i value :
  0 <= i < zlen v -> zget v i = Some value ->
  wp (for_range (i + 1) (zlen v) (fun j st =>
        let '(value, index) := st in
        x ← vget v j;
        if ltb x value then Ok (x, j) else Ok (value, index)) (value, i))
     (fun st => i <= st.2 < zlen v /\ zget v st.2 = Some st.1 /\
        forall j y, i <= j -> zget v j = Some y -> leT st.1 y).
Proof.
  intros Hi Hv.
  apply (wp_for_range (fun j st => i <= st.2 < zlen v /\ zget v st.2 = Some st.1 /\
    forall k y, i <= k < j -> zget v k = Some y -> leT st.1 y)); [lia| | |].
  - cbn. split; [lia|]. split; [done|]. intros k y Hk Hy. replace k with i in * by lia.
    simplify_eq. reflexivity.
  - intros j [val idx] Hj (Hx & Hval & Hmin). cbn [fst snd] in *. wp_step. wp_step.
    rename x into w. destruct (ltb w val) eqn:E; apply wp_ret; cbn [fst snd].
    + split; [lia|]. split; [done|]. intros k y Hk Hy.
      destruct (Z.eq_dec k j) as [->|]; [simplify_eq; reflexivity|].
      transitivity val; [by apply ltb_true_leT|]. apply (Hmin k); [lia|done].
    + split; [lia|]. split; [done|]. intros k y Hk Hy.
      destruct (Z.eq_dec k j) as [->|]; [by simplify_eq|]. apply (Hmin k); [lia|done].
  - intros [val idx] (Hx & Hval & Hmin). cbn [fst snd] in *. split; [done|]. split; [done|].
    intros j y Hj Hy. apply (Hmin j); [|done]. apply zget_bounds in Hy. lia.
Qed.

Lemma select_sort_ok v : zlen v < 2 ^ 31 -> wp (select_sort v) (sorts v).
Proof.
  intros Hn. unfold select_sort. pose proof (zlen_nonneg v). rewrite s32_id by (unfold is_s32; lia).
  apply (wp_for_range (fun i w => w ≡ₚ v /\ zlen w = zlen v /\ head_done w i)); [lia| | |].
  - split; [done|]. split; [done|]. split; intros p q x y ? ?; lia.
  - intros i w Hi (Hp & Hz & Hh). wp_step. wp_step. rewrite <- Hz. apply wp_bind.
    eapply wp_mono; [apply select_min; [lia|done]|]. intros [val idx] (Hx & Hval & Hmin).
    cbn [fst snd] in *. wp_step. split; [by rewrite zswap_perm|]. split; [zlia|].
    assert (Hd : head_done (zswap w i idx) i) by (apply head_done_swap; (done || lia)).
    destruct Hd as [Hs Hsp]. split.
    + intros p q y z Hp' Hpq Hq Hy Hz'. destruct (Z.eq_dec q i) as [->|]; [|by apply (Hs p q); try lia].
      destruct (Z.eq_dec p i) as [->|]; [simplify_eq; reflexivity|].
      by apply (Hsp p i); try lia.
    + intros p q y z Hp' Hq Hy Hz'. destruct (Z.eq_dec p i) as [->|]; [|by apply (Hsp p q); try lia].
      swapped; try lia; simplify_eq; (eapply Hmin; [|eassumption]; lia).
  - intros w (Hp & Hz & [Hs _]). split; [done|]. apply sorted_on_all. by rewrite Hz.
Qed.

(** ** merge_sort *)

Fixpoint merge_list (a : list T) : list T -> list T :=
  fix go (b : list T) : list T :=
    match a, b with
    | [], _ => b
    | _, [] => a
    | x :: a', y :: b' => if ltb x y then x :: merge_list a' b else y :: go b'
    end.

Lemma merge_list_nil_l b : merge_list [] b = b.
Proof. by destruct b. Qed.

Lemma merge_list_nil_r a : merge_list a [] = a.
Proof. by destruct a. Qed.

Lemma merge_list_cons x a y b :
  merge_list (x :: a) (y :: b) =
  if ltb x y then x :: merge_list a (y :: b) else y :: merge_list (x :: a) b.
Proof. done. Qed.

Lemma merge_list_perm a b : merge_list a b ≡ₚ a ++ b.
Proof.
  revert b. induction a as [|x a IHa]; intros b; [by rewrite merge_list_nil_l|].
  induction b as [|y b IHb]; [by rewrite merge_list_nil_r, app_nil_r|].
  rewrite merge_list_cons. destruct (ltb x y); [by rewrite IHa|].
  rewrite IHb. by rewrite <- Permutation_middle.
Qed.

Lemma merge_list_sorted a b :
  StronglySorted leT a -> StronglySorted leT b -> StronglySorted leT (merge_list a b).
Proof.
  revert b. induction a as [|x a IHa]; intros b Ha Hb; [by rewrite merge_list_nil_l|].
  induction b as [|y b IHb]; [by rewrite merge_list_nil_r|]. rewrite merge_list_cons.
  inversion Ha as [|? ? Ha' Hx]; subst. inversion Hb as [|? ? Hb' Hy]; subst.
  destruct (ltb x y) eqn:E.
  - constructor; [by apply IHa|]. rewrite merge_list_perm. apply Forall_app_2; [done|].
    apply ltb_true_leT in E. constructor; [done|].
    eapply list.Forall_impl; [exact Hy|]. intros z Hz. by transitivity y.
  - constructor; [by apply IHb|]. rewrite merge_list_perm. constructor; [done|].
    apply Forall_app_2; [|done].
    eapply list.Forall_impl; [exact Hx|]. intros z Hz. by transitivity x.
Qed.

Lemma strongly_sorted v : StronglySorted leT v -> sorted v.
Proof.
  induction 1 as [|x v Hs IH Hx]; intros i j a b Hij Ha Hb; [apply zget_bounds in Ha; change (zlen []) with 0 in Ha; lia|].
  pose proof (zget_bounds _ _ _ Ha) as Hi. pose proof (zget_bounds _ _ _ Hb) as Hj.
  assert (E : forall k, 0 < k -> zget (x :: v) k = zget v (k - 1)).
  { intros k Hk. change (x :: v) with ([x] ++ v). by rewrite zget_app_r by (change (zlen [x]) with 1; lia). }
  destruct (Z.eq_dec i 0) as [->|Hi0].
  - change (Some x = Some a) in Ha. simplify_eq.
    destruct (Z.eq_dec j 0) as [->|Hj0]; [change (Some a = Some b) in Hb; simplify_eq; reflexivity|].
    rewrite E in Hb by lia. apply zget_elem in Hb. rewrite list.Forall_forall in Hx. by apply Hx.
  - rewrite E in Ha, Hb by lia. by apply (IH (i - 1) (j - 1)); try lia.
Qed.

Lemma copy_slice_ok (pre a post : list T) :
  copy_slice (pre ++ a ++ post) (zlen pre) (zlen a) = Ok a.
Proof.
  enough (W : wp (copy_slice (pre ++ a ++ post) (zlen pre) (zlen a)) (fun r => r = a))
    by (destruct W as (r & -> & ->); done).
  pose proof (zlen_nonneg a). pose proof (zlen_nonneg pre). unfold copy_slice.
  apply (wp_for_range (fun i acc => acc = take (Z.to_nat i) a)); [lia|done| |].
  - intros i acc Hi ->. destruct (zget_in_range a i) as [x Hx]; [lia|].
    rewrite (vget_some _ _ x). 2: { rewrite zget_app_r by lia. rewrite zget_app_l by lia.
      rewrite <- Hx. f_equal. lia. }
    apply wp_ret. replace (Z.to_nat (i + 1)) with (S (Z.to_nat i)) by lia.
    symmetry. apply take_S_r. unfold zget in Hx. by destruct (Z.ltb_spec i 0); [lia|].
  - intros acc ->. apply take_ge. unfold zlen. lia.
Qed.

(** The state of the merge loop: [out] is written, [r] is still to be written. *)
Definition merging (pre post a b : list T) (index : Z) (st : Z * Z * list T) : Prop :=
  let '(i, j, v) := st in
  exists out r, v = pre ++ out ++ r ++ post /\
    0 <= i <= zlen a /\ 0 <= j <= zlen b /\ index = zlen pre + zlen out /\
    zlen out = i + j /\ zlen r = zlen a - i + (zlen b - j) /\
    merge_list a b = out ++ merge_list (drop (Z.to_nat i) a) (drop (Z.to_nat j) b).

Lemma vset_merge (pre out : list T) x y r post index :
  index = zlen pre + zlen out ->
  vset (pre ++ out ++ (x :: r) ++ post) index y = Ok (pre ++ (out ++ [y]) ++ r ++ post).
Proof.
  intros ->. replace (pre ++ out ++ (x :: r) ++ post) with ((pre ++ out) ++ x :: r ++ post)
    by by rewrite <- app_assoc.
  rewrite vset_mid by by rewrite zlen_app. by rewrite <- !app_assoc.
Qed.

Lemma merging_step pre post a b index st :
  merging pre post a b index st -> index < zlen pre + zlen a + zlen b ->
  wp (merge_step a b index st) (merging pre post a b (index + 1)).
Proof.
  destruct st as [[i j] v]. intros (out & r & -> & Hi & Hj & Hx & Ho & Hr & Hm) Hlt.
  destruct r as [|r0 r]; [change (zlen []) with 0 in Hr; lia|]. rewrite zlen_cons in Hr.
  assert (Hzo : forall y : T, zlen (out ++ [y]) = zlen out + 1) by (intros; by rewrite zlen_app).
  unfold merge_step.
  destruct (Z.ltb_spec i (zlen a)) as [Hia|Hia], (Z.ltb_spec j (zlen b)) as [Hjb|Hjb]; cbn [andb].
  - destruct (zget_in_range a i) as [x Ex]; [lia|]. destruct (zget_in_range b j) as [y Ey]; [lia|].
    rewrite (vget_some _ _ _ Ex), (vget_some _ _ _ Ey). cbn [mbind outcome_bind].
    rewrite (drop_zget _ _ _ Ex), (drop_zget _ _ _ Ey), merge_list_cons in Hm.
    destruct (ltb x y); rewrite vset_merge by done; apply wp_ret; eexists (out ++ [_]), r;
      (split; [reflexivity|]); rewrite Hzo; repeat (split; [lia|]).
    + by rewrite Hm, <- app_assoc, (drop_zget _ _ _ Ey).
    + by rewrite Hm, <- app_assoc, (drop_zget _ _ _ Ex).
  - destruct (zget_in_range a i) as [x Ex]; [lia|]. rewrite (vget_some _ _ _ Ex).
    cbn [mbind outcome_bind]. rewrite vset_merge by done. apply wp_ret.
    eexists (out ++ [_]), r. split; [reflexivity|]. rewrite Hzo. repeat (split; [lia|]).
    rewrite (drop_zget _ _ _ Ex) in Hm. rewrite (drop_ge b) in * by (unfold zlen in *; lia).
    rewrite merge_list_nil_r in *. by rewrite Hm, <- app_assoc.
  - destruct (zget_in_range b j) as [y Ey]; [lia|]. rewrite (vget_some _ _ _ Ey).
    cbn [mbind outcome_bind]. rewrite vset_merge by done. apply wp_ret.
    eexists (out ++ [_]), r. split; [reflexivity|]. rewrite Hzo. repeat (split; [lia|]).
    rewrite (drop_zget _ _ _ Ey) in Hm. rewrite (drop_ge a) in * by (unfold zlen in *; lia).
    rewrite merge_list_nil_l in *. by rewrite Hm, <- app_assoc.
  - lia.
Qed.

Lemma merge_ok pre a b post :
  merge (pre ++ a ++ b ++ post) (zlen pre) (zlen pre + zlen a) (zlen pre + zlen a + zlen b) =
  Ok (pre ++ merge_list a b ++ post).
Proof.
  unfold merge. replace (zlen pre + zlen a - zlen pre) with (zlen a) by lia.
  replace (zlen pre + zlen a + zlen b - (zlen pre + zlen a)) with (zlen b) by lia.
  rewrite copy_slice_ok. cbn [mbind outcome_bind].
  replace (pre ++ a ++ b ++ post) with ((pre ++ a) ++ b ++ post) by by rewrite <- app_assoc.
  rewrite <- zlen_app, copy_slice_ok. cbn [mbind outcome_bind]. rewrite <- app_assoc.
  pose proof (zlen_nonneg a). pose proof (zlen_nonneg b).
  match goal with |- context [for_range ?lo ?hi ?f ?s] =>
    assert (W : wp (for_range lo hi f s) (fun st => st.2 = pre ++ merge_list a b ++ post)) end.
  { apply (wp_for_range (merging pre post a b)); [rewrite zlen_app; lia| | |].
    - exists [], (a ++ b). split; [by rewrite <- app_assoc|]. rewrite zlen_app.
      change (zlen []) with 0. repeat (split; [lia|]). done.
    - intros i st Hi Hm. rewrite zlen_app in Hi. apply merging_step; [done|lia].
    - intros [[i j] v] (out & r & -> & Hi & Hj & Hx & Ho & Hr & Hm). rewrite zlen_app in Hx. cbn [snd].
      destruct r as [|r0 r]; [|rewrite zlen_cons in Hr; pose proof (zlen_nonneg r); lia].
      rewrite Hm, !drop_ge by (unfold zlen in *; lia). by rewrite merge_list_nil_l, app_nil_r. }
  destruct W as ([[i j] v] & -> & Hv). cbn in *. by rewrite Hv.
Qed.

Lemma merge_sort_fuel_ok f pre s post :
  (length s < f)%nat ->
  exists s', merge_sort_fuel f (pre ++ s ++ post) (zlen pre) (zlen pre + zlen s) =
    Ok (pre ++ s' ++ post) /\ s' ≡ₚ s /\ StronglySorted leT s'.
Proof.
  revert pre s post. induction f as [|f IH]; intros pre s post Hf; [lia|]. cbn [merge_sort_fuel].
  destruct (Z.ltb_spec (zlen pre) (zlen pre + zlen s - 1)) as [Hlt|Hge].
  - replace (zlen pre + zlen s - zlen pre) with (zlen s) by lia.
    rewrite Z.shiftr_div_pow2 by lia. change (2 ^ 1) with 2.
    assert (Hm : 0 < zlen s / 2 < zlen s) by (split; [apply Z.div_str_pos|apply Z.div_lt]; lia).
    remember (zlen s / 2) as h eqn:Eh. clear Eh.
    assert (Es : s = take (Z.to_nat h) s ++ drop (Z.to_nat h) s) by by rewrite take_drop.
    set (a := take (Z.to_nat h) s) in Es. set (b := drop (Z.to_nat h) s) in Es.
    assert (Hza : zlen a = h) by (unfold a, zlen in *; rewrite length_take; lia).
    assert (Hzb : zlen b = zlen s - h) by (unfold b, zlen in *; rewrite length_drop; lia).
    clearbody a b. subst s. rewrite length_app in Hf. rewrite zlen_app in *. rewrite <- Hza, <- app_assoc.
    destruct (IH pre a (b ++ post)) as (a' & -> & Hpa & Hsa); [unfold zlen in *; lia|].
    cbn [mbind outcome_bind].
    destruct (IH (pre ++ a') b post) as (b' & Eb & Hpb & Hsb); [unfold zlen in *; lia|].
    assert (Ea : zlen a' = zlen a) by (unfold zlen; by rewrite Hpa).
    assert (Eb' : zlen b' = zlen b) by (unfold zlen; by rewrite Hpb).
    rewrite zlen_app, Ea, <- !app_assoc in Eb. replace (zlen pre + (zlen a + zlen b))
      with (zlen pre + zlen a + zlen b) by lia.
    rewrite Eb. cbn [mbind outcome_bind]. rewrite <- Ea, <- Eb', merge_ok.
    exists (merge_list a' b'). split; [done|]. split; [by rewrite merge_list_perm, Hpa, Hpb|].
    by apply merge_list_sorted.
  - exists s. split; [done|]. split; [done|].
    destruct s as [|x [|y s]]; [constructor|repeat constructor|].
    rewrite !zlen_cons in Hge. pose proof (zlen_nonneg s). lia.
Qed.

Lemma merge_sort_ok v : wp (merge_sort v 0 (zlen v)) (sorts v).
Proof.
  unfold merge_sort. rewrite Z.sub_0_r.
  destruct (merge_sort_fuel_ok (S (Z.to_nat (zlen v))) [] v []) as (s' & E & Hp & Hs);
    [unfold zlen; lia|].
  cbn [app] in E. rewrite !app_nil_r in E. change (zlen []) with 0 in E. rewrite Z.add_0_l in E.
  rewrite E. apply wp_ret. split; [done|by apply strongly_sorted].
Qed.

(** ** heap_sort *)

Definition child_of (q c : Z) : Prop := c = 2 * q + 1 \/ c = 2 * q + 2.

(** Parents from [s] on are at least their children below [e], except [p]. *)
Definition heap_except v (s e p : Z) : Prop :=
  forall q c x y, s <= q -> q <> p -> child_of q c -> c < e ->
    zget v q = Some y -> zget v c = Some x -> leT x y.

Definition heap v (s e : Z) : Prop :=
  forall q c x y, s <= q -> child_of q c -> c < e ->
    zget v q = Some y -> zget v c = Some x -> leT x y.

(** The children of [p] are at most the parent of [p]. *)
Definition grand v (s e p : Z) : Prop :=
  forall g c x y, s <= g -> child_of g p -> child_of p c -> c < e ->
    zget v g = Some y -> zget v c = Some x -> leT x y.

(** [c] is the largest child of [p]. *)
Definition max_child v (e p c : Z) : Prop :=
  child_of p c /\ c < e /\
  forall o x y, child_of p o -> o < e -> zget v o = Some x -> zget v c = Some y -> leT x y.

Lemma heapify_swap v s e p c x y :
  heap_except v s e p -> grand v s e p -> max_child v e p c -> 0 <= s <= p -> e <= zlen v ->
  zget v p = Some x -> zget v c = Some y -> ltb x y = true ->
  heap_except (zswap v p c) s e c /\ grand (zswap v p c) s e c.
Proof.
  intros Hh Hg (Hc & Hce & Hmx) Hs He Hx Hy Hlt. unfold child_of in *. split.
  - intros q k a b Hq Hne Hk Hke Hb Ha. unfold child_of in *. swapped; try lia; simplify_eq.
    all: first
      [ by apply ltb_true_leT
      | eapply Hg; [| | | |exact Hb|exact Hy]; unfold child_of; lia
      | eapply Hmx; [| |exact Ha|exact Hy]; unfold child_of; lia
      | eapply Hh; [| | | |exact Hb|exact Ha]; unfold child_of; lia ].
  - intros g k a b Hq Hk Hk2 Hke Hb Ha. unfold child_of in *. swapped; try lia; simplify_eq.
    eapply Hh; [| | | |eassumption|exact Ha]; unfold child_of; lia.
Qed.

Lemma heapify_stay v s e p c x y :
  heap_except v s e p -> grand v s e p -> max_child v e p c -> 0 <= s <= p -> e <= zlen v ->
  zget v p = Some x -> zget v c = Some y -> leT y x ->
  heap_except v s e c /\ grand v s e c.
Proof.
  intros Hh Hg (Hc & Hce & Hmx) Hs He Hx Hy Hle. unfold child_of in *.
  assert (Hp : forall k a, child_of p k -> k < e -> zget v k = Some a -> leT a x).
  { intros k a Hk Hke Ha. transitivity y; [by apply (Hmx k)|done]. }
  split.
  - intros q k a b Hq Hne Hk Hke Hb Ha. destruct (Z.eq_dec q p) as [->|].
    + simplify_eq. by apply (Hp k).
    + by apply (Hh q k).
  - intros g k a b Hq Hk Hk2 Hke Hb Ha. unfold child_of in *. assert (g = p) as -> by lia. simplify_eq.
    transitivity y; [|done]. by apply (Hh c k); try lia.
Qed.

Lemma pick_child v e p :
  0 <= p -> 2 * p + 1 < e -> e <= zlen v ->
  wp (if 2 * p + 1 + 1 <? e then
        a ← vget v (2 * p + 1); b ← vget v (2 * p + 1 + 1);
        Ok (if ltb a b then 2 * p + 1 + 1 else 2 * p + 1)
      else Ok (2 * p + 1)) (max_child v e p).
Proof.
  intros Hp Hc He. destruct (Z.ltb_spec (2 * p + 1 + 1) e).
  - wp_step. wp_step. wp_step. wp_step. apply wp_ret. rename x into a, x0 into b.
    destruct (ltb a b) eqn:E; (split; [unfold child_of; lia|split; [lia|]]);
      intros o y z [->| ->] Ho Hy Hz; try replace (2 * p + 2) with (2 * p + 1 + 1) in * by lia;
      simplify_eq; first [reflexivity|by apply ltb_true_leT|unfold leT; assumption].
  - apply wp_ret. split; [unfold child_of; lia|]. split; [lia|].
    intros o y z [->| ->] Ho Hy Hz; [simplify_eq; reflexivity|lia].
Qed.

(** The child index does not wrap. *)
Lemma child_fits p : 0 <= p < 2 ^ 30 -> s32 (2 * p + 1) = 2 * p + 1.
Proof. intros Hp. apply s32_id. unfold is_s32. lia. Qed.

Lemma heapify_ok v s e :
  0 <= s < 2 ^ 30 -> e <= 2 ^ 30 -> e <= zlen v -> heap v (s + 1) e ->
  wp (heapify v s e) (fun w => w ≡ₚ v /\ zlen w = zlen v /\ heap w s e /\
    (forall m, e <= m <= zlen v -> tail_done v m -> tail_done w m)).
Proof.
  intros Hs H30 He Hh. unfold heapify. rewrite child_fits by lia.
  apply (wp_while (fun st => let '(p, c, w) := st in
      s <= p < 2 ^ 30 /\ c = 2 * p + 1 /\ w ≡ₚ v /\ zlen w = zlen v /\
      heap_except w s e p /\ grand w s e p /\
      (forall m, e <= m <= zlen v -> tail_done v m -> tail_done w m))
    (fun st => let '(p, c, w) := st in Z.to_nat (e - c))).
  - split; [lia|]. split; [done|]. split; [done|]. split; [done|]. split; [|split; [|done]].
    + intros q c x y Hq Hne. apply Hh. lia.
    + intros g c x y Hg Hgp. unfold child_of in Hgp. lia.
  - unfold zlen in *. lia.
  - intros [[p c] w] (Hp & -> & Hpm & Hz & Hx & Hg & Ht). unfold heapify_step.
    destruct (Z.ltb_spec (2 * p + 1) e) as [Hlt|Hge].
    + apply wp_bind. eapply wp_mono; [apply pick_child; lia|]. intros c Hmc.
      pose proof Hmc as (Hc & Hce & _). unfold child_of in Hc.
      wp_step. wp_step. wp_step. wp_step. rename x into a, x0 into b.
      destruct (ltb a b) eqn:E.
      * wp_step. wp_step. apply wp_ret. split; [|rewrite child_fits; lia].
        destruct (heapify_swap w s e p c a b) as [Hx' Hg']; try (done || lia).
        split; [lia|]. split; [apply child_fits; lia|]. split; [by rewrite zswap_perm|]. split; [zlia|].
        split; [done|]. split; [done|]. intros m Hm Htm.
        apply tail_done_swap; try lia. by apply Ht.
      * cbn [mbind outcome_bind]. apply wp_ret. split; [|rewrite child_fits; lia].
        destruct (heapify_stay w s e p c a b) as [Hx' Hg']; try (done || lia).
        split; [lia|]. split; [apply child_fits; lia|]. split; [done|]. split; [done|]. done.
    + apply wp_ret. split; [done|]. split; [done|]. split; [|done].
      intros q k x y Hq Hk Hke. apply (Hx q k); try done.
      intros ->. unfold child_of in Hk. lia.
Qed.

Lemma heap_root_max v e k x y :
  heap v 0 e -> e <= zlen v -> 0 <= k < e -> zget v k = Some x -> zget v 0 = Some y -> leT x y.
Proof.
  intros Hh He Hk Hx Hy. revert x Hx Hk.
  induction k as [k IH] using (well_founded_induction (Z.lt_wf 0)). intros x Hx Hk.
  destruct (Z.eq_dec k 0) as [->|]; [simplify_eq; reflexivity|].
  pose proof (Z.div_mod (k - 1) 2). pose proof (Z.mod_pos_bound (k - 1) 2).
  destruct (zget_in_range v ((k - 1) / 2)) as [z Hz]; [lia|].
  transitivity z.
  - apply (Hh ((k - 1) / 2) k); try done; unfold child_of; lia.
  - apply (IH ((k - 1) / 2)); (done || lia).
Qed.

Lemma heap_build v :
  zlen v <= 2 ^ 30 ->
  wp (for_down (zlen v / 2 - 1) 0 (fun i arr => heapify arr i (zlen v)) v)
     (fun w => w ≡ₚ v /\ zlen w = zlen v /\ heap w 0 (zlen v)).
Proof.
  intros H30. pose proof (zlen_nonneg v). pose proof (Z.div_mod (zlen v) 2). pose proof (Z.mod_pos_bound (zlen v) 2).
  apply (wp_for_down (fun i w => w ≡ₚ v /\ zlen w = zlen v /\ heap w (i + 1) (zlen v))); [lia| | |done].
  - split; [done|]. split; [done|]. intros q c x y Hq Hc Hce. unfold child_of in Hc. lia.
  - intros i w Hi (Hp & Hz & Hh). eapply wp_mono; [apply heapify_ok; [lia|lia|lia|done]|].
    intros w' (Hp' & Hz' & Hh' & _). split; [by rewrite Hp'|]. split; [lia|].
    by replace (i - 1 + 1) with i by lia.
Qed.

(** One round of the second loop: the root goes behind the heap. *)
Lemma heap_round v i :
  1 <= i < zlen v -> i <= 2 ^ 30 -> heap v 0 (i + 1) -> tail_done v (i + 1) ->
  wp (arr ← vswap v 0 i; heapify arr 0 i)
     (fun w => w ≡ₚ v /\ zlen w = zlen v /\ heap w 0 i /\ tail_done w i).
Proof.
  intros Hi H30 Hh Ht. wp_step. wp_step. eapply wp_mono.
  - apply heapify_ok; [lia|lia|zlia|]. intros q c x y Hq Hc Hce Hy Hx. unfold child_of in *.
    swapped; try lia. by apply (Hh q c); try lia.
  - intros w (Hp & Hz & Hw & Htw). autorewrite with zlen in *.
    split; [by rewrite Hp, zswap_perm|]. split; [done|]. split; [done|].
    apply Htw; [lia|].
    assert (Ht1 : tail_done (zswap v 0 i) (i + 1)) by (apply tail_done_swap; (done || lia)).
    destruct (zget_in_range v 0) as [r Hr]; [lia|]. destruct Ht1 as [Hs1 Hsp1]. split.
    + intros p q x y Hpi Hpq Hq Hx Hy. destruct (Z.eq_dec p i) as [->|]; [|by apply (Hs1 p q); try lia].
      destruct (Z.eq_dec q i) as [->|]; [simplify_eq; reflexivity|]. by apply (Hsp1 i q); try lia.
    + intros p q x y Hpi Hq Hx Hy. destruct (Z.eq_dec q i) as [->|]; [|by apply (Hsp1 p q); try lia].
      swapped; try lia; eapply (heap_root_max v (i + 1)); try eassumption; lia.
Qed.

Lemma heap_sort_ok v : zlen v <= 2 ^ 30 -> wp (heap_sort v) (sorts v).
Proof.
  intros Hn. pose proof (zlen_nonneg v). unfold heap_sort. rewrite s32_id by (unfold is_s32; lia).
  rewrite Z.quot_div_nonneg by lia. apply wp_bind. eapply wp_mono; [by apply heap_build|].
  intros w (Hp & Hz & Hh).
  destruct (Z.eq_dec (zlen v) 0) as [E|Hne].
  { rewrite E. apply wp_ret. split; [done|]. intros i j x y _ Hx. apply zget_bounds in Hx. lia. }
  apply (wp_for_down (fun i u => u ≡ₚ v /\ zlen u = zlen v /\ heap u 0 (i + 1) /\ tail_done u (i + 1))); [lia| | |].
  - split; [done|]. split; [done|]. replace (zlen v - 1 + 1) with (zlen v) by lia. split; [done|].
    split; [intros i j x y ? ? ?; lia|]. intros i j x y _ Hj _ Hy. apply zget_bounds in Hy. lia.
  - intros i u Hi (Hpu & Hzu & Hhu & Htu). eapply wp_mono; [apply heap_round; [lia|lia|done|done]|].
    intros u' (Hp' & Hz' & Hh' & Ht'). replace (i - 1 + 1) with i by lia.
    split; [by rewrite Hp'|]. split; [lia|done].
  - intros u (Hpu & Hzu & _ & [Hs Hsp]). split; [done|]. apply sorted_on_all.
    change (1 - 1 + 1) with 1 in *. intros i j x y Hi Hij Hj Hx Hy.
    destruct (Z.eq_dec i 0) as [->|]; [|by apply (Hs i j); try lia].
    destruct (Z.eq_dec j 0) as [->|]; [simplify_eq; reflexivity|]. by apply (Hsp 0 j); try lia.
Qed.
End Comparison.

(** ** quick_sort *)

(** [w] rearranges the slice [s, e] of [v] and nothing else. *)
Definition rearranges (s e : Z) (v w : list Z) : Prop :=
  zlen w = zlen v /\ w ≡ₚ v /\
  (forall k, k < s \/ e < k -> zget w k = zget v k) /\
  (forall P : Z -> Prop, (forall k x, s <= k <= e -> zget v k = Some x -> P x) ->
     forall k x, s <= k <= e -> zget w k = Some x -> P x).

Lemma rearranges_refl s e v : rearranges s e v v.
Proof. split; [done|]. split; [done|]. split; [done|]. auto. Qed.

Lemma rearranges_trans s e u v w : rearranges s e u v -> rearranges s e v w -> rearranges s e u w.
Proof.
  intros (Z1 & P1 & O1 & Q1) (Z2 & P2 & O2 & Q2). split; [lia|]. split; [by rewrite P2|].
  split; [intros k Hk; by rewrite O2, O1|]. intros P HP. by apply Q2, Q1.
Qed.

Lemma rearranges_swap s e v i j :
  0 <= s -> e < zlen v -> s <= i <= e -> s <= j <= e -> rearranges s e v (zswap v i j).
Proof.
  intros Hs He Hi Hj. split; [by rewrite zlen_zswap|]. split; [apply zswap_perm|]. split.
  - intros k Hk. rewrite zget_zswap by lia. repeat case_decide; (done || lia).
  - intros P HP k x Hk Hx. rewrite zget_zswap in Hx by lia.
    repeat case_decide; (eapply HP; [|exact Hx]; lia).
Qed.

Lemma rearranges_wider s e s' e' v w :
  s' <= s -> e <= e' -> rearranges s e v w -> rearranges s' e' v w.
Proof.
  intros Hs He (Hz & Hp & Ho & Hq). split; [done|]. split; [done|].
  split; [intros k Hk; apply Ho; lia|]. intros P HP k x Hk Hx.
  destruct (decide (s <= k <= e)) as [Hin|Hout].
  - apply (Hq P) with k; [|done|done]. intros j y Hj. apply HP. lia.
  - rewrite Ho in Hx by lia. by apply (HP k).
Qed.

(** The state of the outer loop of [_partition] with pivot [val]. *)
Definition partitioning (s e val : Z) (v : list Z) (st : Z * Z * list Z) : Prop :=
  let '(l, r, w) := st in
  s <= l <= r /\ r <= e /\ rearranges s e v w /\ zget w l = Some val /\
  (forall k x, s <= k < l -> zget w k = Some x -> x <= val) /\
  (forall k x, r < k <= e -> zget w k = Some x -> val <= x).

Lemma scan_right_ok w val l r :
  0 <= l <= r -> r < zlen w ->
  wp (while_fuel (S (length w)) (scan_right w val l) r)
     (fun r' => l <= r' <= r /\ (forall k x, r' < k <= r -> zget w k = Some x -> val <= x) /\
        (l < r' -> exists x, zget w r' = Some x /\ x < val)).
Proof.
  intros Hl Hr.
  apply (wp_while (fun r' => l <= r' <= r /\ forall k x, r' < k <= r -> zget w k = Some x -> val <= x)
           (fun r' => Z.to_nat (r' - l))); [split; [lia|intros; lia]|unfold zlen in *; lia|].
  intros r' [Hr' Hk]. unfold scan_right. destruct (Z.ltb_spec l r').
  - wp_step. wp_step. destruct (Z.leb_spec val x); apply wp_ret.
    + split; [|lia]. split; [lia|]. intros k y Hk' Hy. destruct (Z.eq_dec k r') as [->|]; [by simplify_eq|].
      apply (Hk k); [lia|done].
    + split; [lia|]. split; [done|]. eauto.
  - apply wp_ret. split; [lia|]. split; [done|]. lia.
Qed.

Lemma scan_left_ok w val l r :
  0 <= l <= r -> r < zlen w ->
  wp (while_fuel (S (length w)) (scan_left w val r) l)
     (fun l' => l <= l' <= r /\ (forall k x, l <= k < l' -> zget w k = Some x -> x <= val) /\
        (l' < r -> exists x, zget w l' = Some x /\ val < x)).
Proof.
  intros Hl Hr.
  apply (wp_while (fun l' => l <= l' <= r /\ forall k x, l <= k < l' -> zget w k = Some x -> x <= val)
           (fun l' => Z.to_nat (r - l'))); [split; [lia|intros; lia]|unfold zlen in *; lia|].
  intros l' [Hl' Hk]. unfold scan_left. destruct (Z.ltb_spec l' r).
  - wp_step. wp_step. destruct (Z.leb_spec x val); apply wp_ret.
    + split; [|lia]. split; [lia|]. intros k y Hk' Hy. destruct (Z.eq_dec k l') as [->|]; [by simplify_eq|].
      apply (Hk k); [lia|done].
    + split; [lia|]. split; [done|]. eauto.
  - apply wp_ret. split; [lia|]. split; [done|]. lia.
Qed.

Lemma partition_round s e val v l r w :
  0 <= s -> e < zlen v -> partitioning s e val v (l, r, w) -> l < r ->
  wp (partition_step val (l, r, w)) (fun res => match res with
    | inl (l', r', w') => partitioning s e val v (l', r', w') /\ r' - l' < r - l
    | inr _ => False end).
Proof.
  intros Hs He (Hl & Hr & Hre & Hv & Hle & Hge) Hlt. pose proof (proj1 Hre) as Hz.
  unfold partition_step. destruct (Z.ltb_spec l r); [|lia].
  apply wp_bind. eapply wp_mono; [apply scan_right_ok; lia|]. intros r' (Hr' & Hge' & Hx).
  wp_step. wp_step. rewrite <- (zlen_zswap w l r') in Hz.
  replace (length w) with (length (zswap w l r')) by (rewrite zlen_zswap in Hz; pose proof (zlen_zswap w l r'); unfold zlen in *; lia).
  apply wp_bind. eapply wp_mono; [apply scan_left_ok; lia|]. intros l' (Hl' & Hle' & Hy).
  wp_step. wp_step. apply wp_ret. rewrite zlen_zswap in Hz.
  destruct (zget_in_range w r') as [x Ex]; [lia|].
  assert (Hgeall : forall k y, r' < k <= e -> zget w k = Some y -> val <= y).
  { intros k y Hk Ek. destruct (Z.le_gt_cases k r); [by apply (Hge' k); [lia|]|by apply (Hge k); [lia|]]. }
  assert (Hprog : l < r' -> l < l').
  { intros Hlr. destruct (Z.eq_dec l' l) as [->|]; [|lia]. exfalso.
    destruct (Hx Hlr) as (a & Ea & Ha). destruct Hy as (b & Eb & Hb); [lia|].
    rewrite zget_zswap in Eb by lia. repeat case_decide; simplify_eq; lia. }
  assert (Hr1 : zget (zswap w l r') r' = Some val).
  { rewrite zget_zswap by lia. repeat case_decide; subst; (done || congruence). }
  split; [|lia]. split; [lia|]. split; [lia|]. split; [|split; [|split]].
  - eapply rearranges_trans; [exact Hre|]. eapply rearranges_trans; apply rearranges_swap; (zlia || lia).
  - rewrite zget_zswap by (rewrite zlen_zswap; lia). repeat case_decide; subst; (done || lia).
  - intros k y Hk Ek. rewrite zget_zswap in Ek by (rewrite zlen_zswap; lia).
    repeat case_decide; subst; try lia.
    destruct (Z.le_gt_cases l k); [by apply (Hle' k); [lia|]|].
    rewrite zget_zswap in Ek by lia. repeat case_decide; subst; try lia. by apply (Hle k); [lia|].
  - intros k y Hk Ek. rewrite !zget_zswap in Ek by (rewrite ?zlen_zswap; lia).
    repeat case_decide; subst; try lia. by apply (Hgeall k); [lia|].
Qed.

Section QuickSort.
Context (rnd : Z -> Z -> Z).
Hypothesis Hrnd : forall a b, 0 <= rnd a b.

Lemma partition_ok v s e :
  0 <= s < e -> e < zlen v -> Forall is_s32 v ->
  wp (partition rnd v s e) (fun res => let '(m, w) := res in
    s <= m <= e /\ rearranges s e v w /\ exists val, zget w m = Some val /\
    (forall k x, s <= k < m -> zget w k = Some x -> x <= val) /\
    (forall k x, m < k <= e -> zget w k = Some x -> val <= x)).
Proof.
  intros Hs He Hv. unfold partition. apply wp_bind, wp_require.
  { destruct (Z.eqb_spec (e - s + 1) 0); [lia|done]. }
  set (i := s + Z.rem (rnd s e) (e - s + 1)).
  assert (Hi : s <= i <= e) by (pose proof (Z.rem_bound_pos (rnd s e) (e - s + 1)); specialize (Hrnd s e); lia).
  wp_step. wp_step. wp_step. wp_step.
  assert (Hx : is_s32 x).
  { rewrite list.Forall_forall in Hv. apply Hv. rewrite <- (zswap_perm v s i). by eapply zget_elem. }
  rewrite s32_id by done. apply wp_bind.
  eapply (wp_while (partitioning s e x v) (fun st => let '(l, r, w) := st in Z.to_nat (r - l))).
  - split; [lia|]. split; [lia|]. split; [apply rearranges_swap; lia|]. split; [done|].
    split; intros; lia.
  - pose proof (zlen_zswap v s i). unfold zlen in *. lia.
  - intros [[l r] w] Hp. destruct (Z.lt_ge_cases l r) as [Hlt|Hge].
    + eapply wp_mono; [apply (partition_round s e x v); [lia|lia|done|done]|].
      intros [[[l' r'] w']|?]; [|done]. intros [? ?]. split; [done|lia].
    + destruct Hp as (Hl & Hr & Hre & Hval & Hle & Hgt). unfold partition_step.
      destruct (Z.ltb_spec l r); [lia|]. apply wp_ret. pose proof (proj1 Hre).
      wp_step. wp_step. apply wp_ret.
      replace (zset w l x) with w. 2: { apply zvec_ext; [by rewrite zlen_zset|].
        intros k Hk. rewrite zget_zset by lia. case_decide; congruence. }
      split; [lia|]. split; [done|]. exists x. split; [done|]. split; [done|].
      intros k y Hk. apply Hgt. lia.
Qed.

Lemma rearranges_s32 s e v w : rearranges s e v w -> Forall is_s32 v -> Forall is_s32 w.
Proof. intros (_ & Hp & _) Hv. by rewrite Hp. Qed.

Lemma leT_Z (a b : Z) : leT a b <-> a <= b.
Proof. apply Z.ltb_ge. Qed.

Lemma sorted_on_join (w : list Z) s m e val :
  zget w m = Some val -> s <= m <= e ->
  (forall k x, s <= k < m -> zget w k = Some x -> x <= val) ->
  (forall k x, m < k <= e -> zget w k = Some x -> val <= x) ->
  sorted_on w s m -> sorted_on w (m + 1) (e + 1) -> sorted_on w s (e + 1).
Proof.
  intros Hm Hme Hle Hge H1 H2 i j x y Hi Hij Hj Hx Hy.
  destruct (Z.lt_ge_cases j m) as [Hjm|Hjm]; [by apply (H1 i j); try lia|].
  destruct (Z.lt_ge_cases m i) as [Him|Him]; [by apply (H2 i j); try lia|].
  apply leT_Z. transitivity val.
  - destruct (Z.eq_dec i m) as [->|]; [simplify_eq; lia|]. by apply (Hle i); [lia|].
  - destruct (Z.eq_dec j m) as [->|]; [simplify_eq; lia|]. by apply (Hge j); [lia|].
Qed.

(** Sorting the two sides of a partitioned slice sorts the slice. *)
Lemma quick_join w w1 w2 s m e val :
  s <= m <= e -> zget w m = Some val ->
  (forall k x, s <= k < m -> zget w k = Some x -> x <= val) ->
  (forall k x, m < k <= e -> zget w k = Some x -> val <= x) ->
  rearranges s (m - 1) w w1 -> sorted_on w1 s (m - 1 + 1) ->
  rearranges (m + 1) e w1 w2 -> sorted_on w2 (m + 1) (e + 1) -> sorted_on w2 s (e + 1).
Proof.
  intros Hm Hval Hle Hge (_ & _ & O1 & Q1) Hs1 (_ & _ & O2 & Q2) Hs2.
  replace (m - 1 + 1) with m in Hs1 by lia.
  apply (sorted_on_join w2 s m e val); [rewrite O2, O1 by lia; done|lia| | | |done].
  - intros k x Hk Hx. rewrite O2 in Hx by lia. apply (Q1 (fun y => y <= val)) with k; [|lia|done].
    intros j y Hj. apply Hle. lia.
  - intros k x Hk Hx. apply (Q2 (fun y => val <= y)) with k; [|lia|done].
    intros j y Hj Hy. rewrite O1 in Hy by lia. apply (Hge j); [lia|done].
  - intros i j x y Hi Hij Hj Hx Hy. rewrite O2 in Hx by lia. rewrite O2 in Hy by lia.
    by apply (Hs1 i j).
Qed.

Lemma quick_sort_fuel_ok f v s e :
  0 <= s -> e < zlen v -> Forall is_s32 v -> Z.max 0 (e - s + 1) < Z.of_nat f ->
  wp (quick_sort_fuel rnd f v s e) (fun w => rearranges s e v w /\ sorted_on w s (e + 1)).
Proof.
  revert v s e. induction f as [|f IH]; intros v s e Hs He Hv Hf; [lia|].
  cbn [quick_sort_fuel]. destruct (Z.ltb_spec s e) as [Hlt|Hge].
  - apply wp_bind. eapply wp_mono; [by apply partition_ok; try lia|].
    intros [m w] (Hm & Hre & val & Hval & Hle & Hgt). pose proof (proj1 Hre) as Hz.
    pose proof (rearranges_s32 _ _ _ _ Hre Hv) as Hw.
    apply wp_bind. eapply wp_mono; [apply IH; [lia|lia|done|lia]|]. intros w1 [Hr1 Hs1].
    pose proof (proj1 Hr1) as Hz1. pose proof (rearranges_s32 _ _ _ _ Hr1 Hw) as Hw1.
    eapply wp_mono; [apply IH; [lia|lia|done|lia]|]. intros w2 [Hr2 Hs2]. split.
    + eapply rearranges_trans; [exact Hre|].
      eapply rearranges_trans; eapply rearranges_wider; try eassumption; lia.
    + by apply (quick_join w w1 w2 s m e val).
  - apply wp_ret. split; [apply rearranges_refl|]. intros i j x y Hi Hij Hj Hx Hy.
    replace i with j in * by lia. simplify_eq. reflexivity.
Qed.

Lemma quick_sort_ok v :
  Forall is_s32 v -> wp (quick_sort rnd v 0 (zlen v - 1)) (sorts v).
Proof.
  intros Hv. pose proof (zlen_nonneg v). eapply wp_mono; [apply quick_sort_fuel_ok; [lia|lia|done|lia]|].
  intros w [(Hz & Hp & _) Hs]. split; [done|]. apply sorted_on_all.
  by replace (zlen w) with (zlen v - 1 + 1) by lia.
Qed.
End QuickSort.

(** * Properties *)

Section ComparisonProperties.
Context {T : Type} `{StrictWeak T}.

(** C15: for every element type with a strict weak order and every vector below 2^31
    elements, bubble_sort, insert_sort, select_sort and merge_sort on [0, size), and
    heap_sort for up to 2^30 elements, terminate without an out-of-range access and
    return a sorted permutation of the vector (the sizes and indices are int32_t). *)
Theorem comparison_sorts_correct (v : list T) :
  zlen v < 2 ^ 31 ->
  wp (bubble_sort v) (sorts v) /\ wp (insert_sort v) (sorts v) /\
  wp (select_sort v) (sorts v) /\ wp (merge_sort v 0 (zlen v)) (sorts v) /\
  (zlen v <= 2 ^ 30 -> wp (heap_sort v) (sorts v)).
Proof.
  intros Hn. split; [by apply bubble_sort_ok|]. split; [by apply insert_sort_ok|]. split; [by apply select_sort_ok|].
  split; [apply merge_sort_ok|apply heap_sort_ok].
Qed.

(** From 2^31 to below 2^32 elements the [int32_t] size is negative and nothing is
    done. *)
Lemma sorts_skip_long (v : list T) :
  2 ^ 31 <= zlen v < 2 ^ 32 -> bubble_sort v = Ok v /\ insert_sort v = Ok v /\ select_sort v = Ok v.
Proof.
  intros Hn. unfold bubble_sort, insert_sort, select_sort. rewrite s32_upper, !for_range_empty by lia. done.
Qed.

End ComparisonProperties.

Lemma comparison_sorts_correct_witness :
  wp (bubble_sort [3; 1; 2]) (sorts [3; 1; 2]) /\ wp (heap_sort [3; 1; 2]) (sorts [3; 1; 2]).
Proof.
  destruct (comparison_sorts_correct [3; 1; 2]) as (Hb & _ & _ & _ & Hh); [reflexivity|].
  split; [exact Hb|]. apply Hh. vm_compute. discriminate.
Defined.

(** for every sequence of non-negative values of rand(), quick_sort on [0, size -
    1] of 32-bit values terminates without an out-of-range access and returns a sorted
    permutation. *)
Theorem quick_sort_correct (rnd : Z -> Z -> Z) (v : list Z) :
  (forall a b, 0 <= rnd a b) -> Forall is_s32 v -> zlen v < 2 ^ 31 ->
  wp (quick_sort rnd v 0 (zlen v - 1)) (sorts v).
Proof. intros Hr Hv _. by apply quick_sort_ok. Qed.

Lemma quick_sort_correct_witness :
  wp (quick_sort (fun a b => 7 * b * b) [3; 1; 2; 3; -5] 0 4) (sorts [3; 1; 2; 3; -5]).
Proof.
  apply (quick_sort_correct (fun a b => 7 * b * b) [3; 1; 2; 3; -5]); [intros; nia| |reflexivity].
  repeat constructor; unfold is_s32; lia.
Defined.

(** [shell_sort] swaps [v[j - 1]] where it compares [v[j - d]], and [j - d] can
    be negative. *)
Lemma shell_sort_out_of_bounds : shell_sort [4; 3; 2; 1] = Fault OutOfBounds.
Proof. by vm_compute. Qed.

(** [bucket_sort] distributes by [i % bucket_size], so the concatenated buckets
    are not in order. *)
Lemma bucket_sort_unsorted : bucket_sort [2; 1; 4] 4 = Ok [4; 1; 2].
Proof. by vm_compute. Qed.
