(* ===== verification/SortKeySpec.v ===== *)
(** counting_sort and radix_sort of cpp/algorithm/lib/sort/sort.h: the three
    counting loops are a stable sort by key, and sorting by the decimal digits
    from the lowest to the highest sorts the vector. *)

From stdpp Require Import sorting.
From S2P Require Import Prelude Sort SortSpec.

(** * The counting loops *)

Section ByKey.
Context (key : Z -> Z) (size : Z).

(** The elements of [v] whose key is [k], in their order. *)
Definition bucket (k : Z) (v : list Z) : list Z := filter (fun x => key x = k) v.

Definition cnt (k : Z) (v : list Z) : Z := zlen (bucket k v).

(** The reference: the buckets one after the other. *)
Definition by_key (v : list Z) : list Z :=
  concat ((fun k => bucket k v) <$> seqZ 0 size).

Definition keyed (v : list Z) : Prop := Forall (fun x => 0 <= key x < size) v.

Lemma bucket_app k v w : bucket k (v ++ w) = bucket k v ++ bucket k w.
Proof. apply list.filter_app. Qed.

Lemma bucket_snoc k v x : bucket k (v ++ [x]) = bucket k v ++ (if decide (key x = k) then [x] else []).
Proof. by rewrite bucket_app. Qed.

Lemma cnt_snoc k v x : cnt k (v ++ [x]) = cnt k v + (if decide (key x = k) then 1 else 0).
Proof. unfold cnt. rewrite bucket_snoc, zlen_app. by case_decide. Qed.

(** [\sum_{j < k} cnt j v], the number of elements with a smaller key. *)
Definition below (k : Z) (v : list Z) : Z :=
  foldr Z.add 0 ((fun j => cnt j v) <$> seqZ 0 k).

Lemma below_succ k v : 0 <= k -> below (k + 1) v = below k v + cnt k v.
Proof.
  intros Hk. unfold below. rewrite (seqZ_app 0 k 1), fmap_app, foldr_app by lia.
  rewrite seqZ_1, Z.add_0_l. cbn.
  generalize ((fun j => cnt j v) <$> seqZ 0 k). intros l. induction l as [|a l IH]; cbn; lia.
Qed.

Lemma tally_keys_ok v count0 :
  keyed v -> count0 = zreplicate size 0 -> 0 <= size ->
  wp (tally_keys key v count0) (fun c => zlen c = size /\ forall k, 0 <= k < size -> zget c k = Some (cnt k v)).
Proof.
  intros Hv -> Hsz. pose proof (zlen_nonneg v). unfold tally_keys.
  apply (wp_for_range (fun i c => zlen c = size /\
    forall k, 0 <= k < size -> zget c k = Some (cnt k (take (Z.to_nat i) v)))); [lia| | |].
  - split; [rewrite zlen_replicate; lia|]. intros k Hk. rewrite zget_replicate by lia. done.
  - intros i c Hi [Hz Hc]. wp_step. wp_step. unfold incr_at. 
    assert (Hx : 0 <= key x < size).
    { unfold keyed in Hv. rewrite list.Forall_forall in Hv. apply Hv. by eapply zget_elem. }
    wp_step. wp_step. wp_step. split; [by rewrite zlen_zset|]. intros k Hk.
    erewrite take_zget by done. rewrite cnt_snoc, zget_zset by lia. rewrite (Hc (key x)) in * by lia.
    simplify_eq. repeat case_decide; subst; try done.
    by rewrite Hc, Z.add_0_r.
  - intros c [Hz Hc]. split; [done|]. intros k Hk. rewrite Hc by done.
    by rewrite take_ge by (unfold zlen; lia).
Qed.

Lemma prefix_sums_ok v c :
  zlen c = size -> (forall k, 0 <= k < size -> zget c k = Some (cnt k v)) ->
  wp (prefix_sums c) (fun c => zlen c = size /\ forall k, 0 <= k < size -> zget c k = Some (below (k + 1) v)).
Proof.
  intros Hz Hc. pose proof (zlen_nonneg c). unfold prefix_sums.
  destruct (Z.le_gt_cases size 1) as [Hs|Hs].
  { rewrite for_range_empty by lia. apply wp_ret. split; [done|]. intros k Hk.
    replace k with 0 by lia. rewrite Hc, below_succ by lia. done. }
  apply (wp_for_range (fun i w => zlen w = size /\ forall k, 0 <= k < size ->
    zget w k = Some (if decide (k < i) then below (k + 1) v else cnt k v))); [lia| | |].
  - split; [done|]. intros k Hk. rewrite Hc by done. case_decide; [|done].
    replace k with 0 by lia. by rewrite below_succ by lia.
  - intros i w Hi [Hw Hk]. wp_step. wp_step. unfold incr_at. wp_step. wp_step. wp_step.
    rewrite Hk in * by lia. rewrite decide_True in * by lia. rewrite decide_False in * by lia.
    simplify_eq. split; [by rewrite zlen_zset|]. intros k Hk'. rewrite zget_zset by lia. rewrite Hk by done.
    replace (i - 1 + 1) with i by lia.
    repeat case_decide; subst; try lia; try done. rewrite below_succ by lia. f_equal. lia.
  - intros w [Hw Hk]. split; [lia|]. intros k Hk'. rewrite Hk by done. rewrite decide_True by lia. done.
Qed.

(** [w] holds, for every key, unspecified elements ([junk]) and then the
    elements of [post] with that key. *)
Definition layout (junk : Z -> list Z) (post : list Z) : list Z :=
  concat ((fun k => junk k ++ bucket k post) <$> seqZ 0 size).

Definition placed (pre post w : list Z) : Prop :=
  exists junk, w = layout junk post /\ forall k, zlen (junk k) = cnt k pre.

Lemma layout_split junk post k :
  0 <= k < size ->
  layout junk post =
    concat ((fun j => junk j ++ bucket j post) <$> seqZ 0 k) ++
    (junk k ++ bucket k post) ++
    concat ((fun j => junk j ++ bucket j post) <$> seqZ (k + 1) (size - (k + 1))).
Proof.
  intros Hk. unfold layout. replace size with (k + (1 + (size - (k + 1)))) at 1 by lia.
  rewrite (seqZ_app 0 k), (seqZ_app _ 1), !fmap_app, !concat_app, seqZ_1, Z.add_0_l by lia.
  cbn [fmap list_fmap concat]. by rewrite app_nil_r.
Qed.

Lemma layout_prefix_length junk pre post k :
  0 <= k -> (forall j, zlen (junk j) = cnt j pre) ->
  zlen (concat ((fun j => junk j ++ bucket j post) <$> seqZ 0 k)) = below k (pre ++ post).
Proof.
  intros Hk Hj. revert k Hk. apply natlike_ind; [done|]. intros k Hk IH. unfold Z.succ.
  rewrite below_succ, <- IH by done. rewrite (seqZ_app 0 k 1), fmap_app, concat_app, seqZ_1, Z.add_0_l by lia.
  cbn [fmap list_fmap concat]. rewrite app_nil_r, !zlen_app, Hj. unfold cnt. rewrite bucket_app, zlen_app. done.
Qed.

(** One store of the placing loop fills the last free place of its key. *)
Lemma placed_store pre x post w :
  0 <= key x < size -> placed (pre ++ [x]) post w ->
  let p := below (key x) ((pre ++ [x]) ++ post) + cnt (key x) pre in
  0 <= p < zlen w /\ placed pre (x :: post) (zset w p x).
Proof.
  intros Hx (junk & -> & Hj). cbn zeta.
  pose proof (Hj (key x)) as Hjx. rewrite cnt_snoc, decide_True in Hjx by done.
  destruct (junk (key x)) as [|y jk _] eqn:Ejk using rev_ind.
  { change (zlen []) with 0 in Hjx. pose proof (zlen_nonneg (bucket (key x) pre)). unfold cnt in Hjx. lia. }
  rewrite zlen_app in Hjx. change (zlen [y]) with 1 in Hjx.
  pose proof (layout_prefix_length junk (pre ++ [x]) post (key x) ltac:(lia) Hj) as Hpl.
  rewrite (layout_split junk post (key x)) by done. rewrite Ejk.
  set (P := concat _) in *. set (S := concat _).
  replace (P ++ ((jk ++ [y]) ++ bucket (key x) post) ++ S) with ((P ++ jk) ++ y :: (bucket (key x) post ++ S)) by (by rewrite <- !app_assoc).
  pose proof (zlen_nonneg P). pose proof (zlen_nonneg jk). pose proof (zlen_nonneg (bucket (key x) post ++ S)).
  split; [rewrite zlen_app, zlen_cons, zlen_app; lia|].
  rewrite zset_mid by (rewrite zlen_app; lia).
  exists (fun k => if decide (k = key x) then jk else junk k). split.
  - rewrite (layout_split _ _ (key x)) by done.
    assert (E : forall a b, (forall k, a <= k < a + b -> k <> key x) ->
      concat ((fun j => (if decide (j = key x) then jk else junk j) ++ bucket j (x :: post)) <$> seqZ a b) =
      concat ((fun j => junk j ++ bucket j post) <$> seqZ a b)).
    { intros a b Hab. f_equal. apply list_fmap_ext. intros i k Hk. apply list_elem_of_lookup_2, elem_of_seqZ in Hk.
      rewrite decide_False by (apply Hab; lia). unfold bucket. rewrite filter_cons_False; [done|].
      intros Ek. specialize (Hab k). lia. }
    rewrite !E by lia. rewrite decide_True by done. unfold bucket at 3. rewrite filter_cons_True by done.
    by rewrite <- !app_assoc.
  - intros k. case_decide; [subst; lia|]. rewrite Hj, cnt_snoc, decide_False by done. lia.
Qed.

Lemma below_length v k :
  0 <= k -> below k v = zlen (filter (fun x => 0 <= key x < k) v).
Proof.
  revert k. apply natlike_ind.
  - induction v as [|x v IH]; [done|]. rewrite filter_cons_False by lia. exact IH.
  - intros k Hk IH. unfold Z.succ. rewrite below_succ, IH by done. unfold cnt, bucket. clear IH.
    induction v as [|x v IH]; [done|]. rewrite !filter_cons.
    repeat case_decide; try lia; rewrite ?zlen_cons; lia.
Qed.

Lemma placed_start v : 0 <= size -> keyed v -> placed v [] v.
Proof.
  intros Hs Hv.
  assert (Hl : zlen v = below size v).
  { rewrite below_length by done. clear -Hv. induction Hv as [|x v Hx _ IH]; [done|].
    by rewrite filter_cons_True, !zlen_cons, IH. }
  assert (Hsplit : forall k, 0 <= k -> forall w : list Z, zlen w = below k v -> exists junk : Z -> list Z,
    w = concat (junk <$> seqZ 0 k) /\ forall j, zlen (junk j) = cnt j v).
  { intros k Hk. pattern k. revert k Hk. apply natlike_ind.
    - intros w Hw. exists (fun j => zreplicate (cnt j v) 0). destruct w; [|done]. split; [done|].
      intros j. rewrite zlen_replicate. pose proof (zlen_nonneg (bucket j v)). unfold cnt. lia.
    - intros k Hk IH w. unfold Z.succ. rewrite below_succ by done. intros Hw.
      assert (Hb : 0 <= below k v) by (rewrite below_length by done; apply zlen_nonneg).
      pose proof (zlen_nonneg (bucket k v)) as Hc. fold (cnt k v) in Hc.
      destruct (IH (take (Z.to_nat (below k v)) w)) as (junk & E & Hj).
      { unfold zlen in *. rewrite length_take. lia. }
      exists (fun j => if decide (j = k) then drop (Z.to_nat (below k v)) w else junk j). split.
      + rewrite (seqZ_app 0 k 1), fmap_app, concat_app, seqZ_1, Z.add_0_l by lia. cbn [fmap list_fmap concat].
        rewrite decide_True, app_nil_r by done. rewrite <- (take_drop (Z.to_nat (below k v)) w) at 1. f_equal.
        rewrite E. f_equal. apply list_fmap_ext. intros i j Hj'. apply list_elem_of_lookup_2, elem_of_seqZ in Hj'.
        by rewrite decide_False by lia.
      + intros j. case_decide; [subst|done]. unfold zlen in *. rewrite length_drop. lia. }
  destruct (Hsplit size Hs v Hl) as (junk & E & Hj). exists junk. split; [|done].
  rewrite E at 1. unfold layout. f_equal. apply list_fmap_ext. intros i j _. by rewrite app_nil_r.
Qed.

Lemma place_back_ok v c :
  0 <= size -> keyed v -> zlen c = size ->
  (forall k, 0 <= k < size -> zget c k = Some (below (k + 1) v)) -> zlen v < 2 ^ 31 ->
  wp (place_back key v c v) (fun w => w = by_key v).
Proof.
  intros Hs Hv Hz Hc Hl. unfold place_back. apply wp_bind. pose proof (zlen_nonneg v).
  rewrite s32_id by (unfold is_s32; lia).
  apply (wp_for_down (fun i st => let '(c, w) := st in zlen c = size /\
    placed (take (Z.to_nat (i + 1)) v) (drop (Z.to_nat (i + 1)) v) w /\
    forall k, 0 <= k < size -> zget c k = Some (below k v + cnt k (take (Z.to_nat (i + 1)) v)))).
  - lia.
  - replace (zlen v - 1 + 1) with (zlen v) by lia. unfold zlen. rewrite Nat2Z.id, firstn_all, drop_all.
    split; [done|]. split; [by apply placed_start|]. intros k Hk. rewrite Hc, below_succ by lia. done.
  - intros i [c' w] Hi (Hz' & Hp & Hc'). replace (i - 1 + 1) with i by lia.
    apply wp_bind, wp_vget; [lia|]. intros x Ex. pose proof (take_zget _ _ _ Ex) as Et.
    assert (Hx : 0 <= key x < size).
    { unfold keyed in Hv. rewrite list.Forall_forall in Hv. apply Hv. by eapply zget_elem. }
    assert (Ed : drop (Z.to_nat i) v = x :: drop (Z.to_nat (i + 1)) v).
    { unfold zget in Ex. destruct (Z.ltb_spec i 0); [lia|]. erewrite drop_S by exact Ex. do 2 f_equal. lia. }
    rewrite Et in Hp, Hc'. destruct (placed_store _ _ _ _ Hx Hp) as [Hr Hp'].
    rewrite <- Et, take_drop in Hr, Hp'. rewrite <- Ed in Hp'.
    pose proof (Hc' _ Hx) as Hcx. rewrite cnt_snoc, decide_True in Hcx by done.
    wp_step. rewrite (vget_some _ _ _ Hcx). apply wp_ret.
    replace (below (key x) v + (cnt (key x) (take (Z.to_nat i) v) + 1) - 1) with
      (below (key x) v + cnt (key x) (take (Z.to_nat i) v)) by lia.
    wp_step. wp_step. unfold incr_at. wp_step. wp_step. rewrite (vget_some _ _ _ Hcx). apply wp_ret.
    wp_step. wp_step. split; [by rewrite zlen_zset|]. split; [done|]. intros k Hk.
    rewrite zget_zset by lia. case_decide; [subst; f_equal; lia|].
    rewrite Hc', cnt_snoc, decide_False by done. f_equal. lia.
  - intros [c' w] (_ & (junk & -> & Hj) & _). apply wp_ret.
    unfold layout, by_key. f_equal. apply list_fmap_ext. intros i k _.
    destruct (junk k) as [|y l] eqn:E; [done|]. specialize (Hj k). rewrite E, zlen_cons in Hj.
    pose proof (zlen_nonneg l). change (zlen l + 1 = 0) in Hj. lia.
Qed.

Lemma sort_by_key_ok v :
  0 <= size -> keyed v -> zlen v < 2 ^ 31 -> sort_by_key key size v = Ok (by_key v).
Proof.
  intros Hs Hv Hl. enough (wp (sort_by_key key size v) (fun w => w = by_key v)) as (w & -> & ->) by done.
  unfold sort_by_key. apply wp_bind. eapply wp_mono; [by apply tally_keys_ok|]. intros c [Hz Hc].
  apply wp_bind. eapply wp_mono; [by apply (prefix_sums_ok v)|]. intros c' [Hz' Hc'].
  by apply place_back_ok.
Qed.

(** * The reference is a stable sort by key *)

Lemma by_key_perm v : keyed v -> by_key v ≡ₚ v.
Proof.
  induction 1 as [|x v Hx Hv IH].
  - unfold by_key. by induction (seqZ 0 size) as [|k l IH].
  - rewrite <- IH at 2. unfold by_key. destruct (list_elem_of_split (seqZ 0 size) (key x)) as (a & b & E).
    { apply elem_of_seqZ. lia. }
    pose proof (NoDup_seqZ 0 size) as Hnd. rewrite E in *.
    apply list.NoDup_app in Hnd as (_ & Ha & Hb). apply list.NoDup_cons in Hb as [Hb _].
    rewrite !fmap_app, !concat_app, !fmap_cons. cbn [concat].
    assert (Eb : bucket (key x) (x :: v) = x :: bucket (key x) v) by by apply filter_cons_True.
    assert (Eo : forall l : list Z, key x ∉ l -> (fun k => bucket k (x :: v)) <$> l = (fun k => bucket k v) <$> l).
    { intros l Hl. apply list_fmap_ext. intros i k Hk. apply filter_cons_False.
      intros <-. apply Hl. by eapply list_elem_of_lookup_2. }
    rewrite !Eo, Eb; [cbn [app]; by rewrite <- Permutation_middle|done|]. intros Hin. apply (Ha _ Hin). by left.
Qed.

(** Order by key, and by [R] where the keys are equal. *)
Definition lex (R : Z -> Z -> Prop) (x y : Z) : Prop := key x < key y \/ key x = key y /\ R x y.

Lemma bucket_sorted R k v : StronglySorted R v -> StronglySorted (lex R) (bucket k v).
Proof.
  induction 1 as [|x v Hv IH Hx]; [constructor|]. unfold bucket. rewrite filter_cons.
  case_decide as Hk; [|done]. constructor; [done|]. rewrite list.Forall_forall in *. intros y.
  rewrite list_elem_of_filter. intros [Hy Hin]. right. split; [congruence|auto].
Qed.

Lemma elem_of_buckets y v l : y ∈ concat ((fun k => bucket k v) <$> l) -> key y ∈ l.
Proof.
  induction l as [|k l IH]; cbn [fmap list_fmap concat]; [by rewrite elem_of_nil|].
  rewrite elem_of_app, elem_of_cons. unfold bucket at 1. rewrite list_elem_of_filter.
  intros [[-> _]|Hy]; auto.
Qed.

Lemma by_key_sorted R v : StronglySorted R v -> StronglySorted (lex R) (by_key v).
Proof.
  intros Hv. unfold by_key.
  assert (H : forall n s, StronglySorted (lex R) (concat ((fun k => bucket k v) <$> seqZ s (Z.of_nat n)))).
  { induction n as [|n IH]; intros s; [constructor|].
    rewrite seqZ_cons by lia. cbn [fmap list_fmap concat]. apply StronglySorted_app_2.
    - intros x y Hx Hy. left. apply list_elem_of_filter in Hx as [Hx _].
      apply elem_of_buckets, elem_of_seqZ in Hy. lia.
    - by apply bucket_sorted.
    - replace (Z.pred (Z.of_nat (S n))) with (Z.of_nat n) by lia. apply IH. }
  destruct (Z.le_gt_cases 0 size); [by rewrite <- (Z2Nat.id size)|].
  rewrite seqZ_nil by lia. constructor.
Qed.
End ByKey.

(** * Correctness of counting_sort and radix_sort *)

Lemma StronglySorted_sorts R v w :
  (forall x y, R x y -> x <= y) -> w ≡ₚ v -> StronglySorted R w -> sorts v w.
Proof.
  intros HR Hp Hw. split; [done|]. clear Hp.
  assert (H : forall i j x y, (i <= j)%nat -> w !! i = Some x -> w !! j = Some y -> x <= y).
  { induction Hw as [|a w Hw IH Ha]; intros i j x y Hij Hx Hy; [done|]. rewrite list.Forall_forall in Ha.
    destruct i as [|i], j as [|j]; cbn in Hx, Hy; simplify_eq; try lia.
    - apply HR, Ha. by eapply list_elem_of_lookup_2.
    - apply (IH i j); [lia|done|done]. }
  intros i j x y Hij Hx Hy. pose proof (zget_bounds _ _ _ Hx). pose proof (zget_bounds _ _ _ Hy).
  unfold zget in Hx, Hy. destruct (Z.ltb_spec i 0), (Z.ltb_spec j 0); try lia.
  apply leT_Z. apply (H (Z.to_nat i) (Z.to_nat j)); [lia|done|done].
Qed.

Lemma StronglySorted_weaken (R S : Z -> Z -> Prop) v :
  (forall x y, x ∈ v -> y ∈ v -> R x y -> S x y) -> StronglySorted R v -> StronglySorted S v.
Proof.
  intros HRS. induction 1 as [|x v Hv IH Hx]; [constructor|]. constructor.
  - apply IH. intros a b Ha Hb. apply HRS; by right.
  - rewrite list.Forall_forall in *. intros y Hy. apply HRS; [by left|by right|auto].
Qed.

Lemma StronglySorted_True (v : list Z) : StronglySorted (fun _ _ => True) v.
Proof. induction v; constructor; [done|]. by apply list.Forall_forall. Qed.

Lemma counting_sort_ok v max :
  0 <= max -> Forall (fun x => 0 <= x <= max) v -> zlen v < 2 ^ 31 -> wp (counting_sort v max) (sorts v).
Proof.
  intros Hm Hv Hl. assert (Hk : keyed (fun x => x) (max + 1) v).
  { eapply list.Forall_impl; [exact Hv|]. cbn. lia. }
  unfold counting_sort. rewrite sort_by_key_ok by (done || lia). apply wp_ret.
  eapply StronglySorted_sorts; [|by apply by_key_perm|apply by_key_sorted, StronglySorted_True].
  unfold lex. intros x y. lia.
Qed.

Lemma quick_pow_10 p : 0 <= p <= 9 -> quick_pow 10 p = Ok (10 ^ p).
Proof.
  intros Hp. assert (p ∈ seqZ 0 10) as Hin by (apply elem_of_seqZ; lia). clear Hp.
  revert p Hin. apply list.Forall_forall. by repeat (constructor; [by vm_compute|]).
Qed.

(** After [i] passes the vector is ordered by its values modulo [10 ^ i]. *)
Definition digits_sorted (i : Z) (v : list Z) : Prop :=
  StronglySorted (fun x y => x mod 10 ^ i <= y mod 10 ^ i) v.

Lemma digit_at_mod i x : 0 <= i -> 0 <= x -> digit_at (10 ^ i) x = x / 10 ^ i mod 10.
Proof.
  intros Hi Hx. unfold digit_at. assert (0 < 10 ^ i) by lia.
  rewrite Z.quot_div_nonneg by lia. apply Z.rem_mod_nonneg; [|lia]. by apply Z.div_pos.
Qed.

Lemma mod_10_succ x i : 0 <= i -> x mod 10 ^ (i + 1) = x mod 10 ^ i + 10 ^ i * (x / 10 ^ i mod 10).
Proof. intros Hi. rewrite Z.pow_add_r by lia. change (10 ^ 1) with 10. apply Z.rem_mul_r; lia. Qed.

Lemma stable_sort_digit_ok i v :
  0 <= i <= 9 -> zlen v < 2 ^ 31 -> Forall (fun x => 0 <= x < 2 ^ 31) v -> digits_sorted i v ->
  wp (stable_sort_digit i v) (fun w => w ≡ₚ v /\ digits_sorted (i + 1) w).
Proof.
  intros Hi Hl Hv Hs.
  assert (E : stable_sort_digit i v = sort_by_key (digit_at (10 ^ i)) 11 v).
  { unfold stable_sort_digit. assert (10 ^ i <= 10 ^ 9) by (apply Z.pow_le_mono_r; lia).
    assert (0 < 10 ^ i) by lia.
    destruct (Z.eqb_spec i 0) as [->|]; [done|]. rewrite quick_pow_10 by lia. cbn [mbind outcome_bind].
    rewrite s32_id by (unfold is_s32; lia). by destruct (Z.eqb_spec (10 ^ i) 0); [lia|]. }
  rewrite list.Forall_forall in Hv.
  assert (Hd : forall x, x ∈ v -> digit_at (10 ^ i) x = x / 10 ^ i mod 10).
  { intros x Hx. apply digit_at_mod; [lia|]. specialize (Hv x Hx). lia. }
  assert (Hk : keyed (digit_at (10 ^ i)) 11 v).
  { apply list.Forall_forall. intros x Hx. rewrite Hd by done. pose proof (Z.mod_pos_bound (x / 10 ^ i) 10). lia. }
  rewrite E, sort_by_key_ok by done. apply wp_ret. pose proof (by_key_perm _ _ _ Hk) as Hp. split; [done|].
  eapply StronglySorted_weaken; [|by apply by_key_sorted]. cbn. intros x y Hx Hy.
  rewrite Hp in Hx, Hy. unfold lex. rewrite !Hd, !mod_10_succ by (done || lia).
  pose proof (Z.mod_pos_bound x (10 ^ i)). pose proof (Z.mod_pos_bound y (10 ^ i)). nia.
Qed.

Lemma count_digits_ok f m d :
  0 <= m < 10 ^ (Z.of_nat f - 1) -> (0 < f)%nat ->
  wp (count_digits f m d) (fun r => d <= r /\ m < 10 ^ (r - d) /\ (forall k, 0 <= k -> m < 10 ^ k -> r <= d + k)).
Proof.
  revert m d. induction f as [|f IH]; intros m d Hm Hf; [lia|]. cbn [count_digits].
  destruct (Z.eqb_spec m 0) as [->|Hne].
  { apply wp_ret. split; [lia|]. split; [rewrite Z.sub_diag; lia|]. lia. }
  destruct f as [|f]. { cbn in Hm. lia. }
  rewrite Z.quot_div_nonneg by lia.
  assert (Hpow : 10 ^ (Z.of_nat (S (S f)) - 1) = 10 * 10 ^ (Z.of_nat (S f) - 1)).
  { rewrite <- Z.pow_succ_r by lia. f_equal. lia. }
  eapply wp_mono; [apply IH; [|lia]|].
  { split; [apply Z.div_pos; lia|]. apply Z.div_lt_upper_bound; lia. }
  cbn. intros r (Hr & Hlt & Hmin). split; [lia|]. split.
  - replace (r - d) with (Z.succ (r - (d + 1))) by lia. rewrite Z.pow_succ_r by lia.
    pose proof (Z.div_mod m 10). pose proof (Z.mod_pos_bound m 10). lia.
  - intros k Hk Hmk. destruct (Z.eq_dec k 0) as [->|]; [cbn in Hmk; lia|].
    enough (r <= d + 1 + (k - 1)) by lia. apply Hmin; [lia|]. apply Z.div_lt_upper_bound; [lia|].
    rewrite <- Z.pow_succ_r by lia. by replace (Z.succ (k - 1)) with k by lia.
Qed.

Lemma foldl_max_ok v a : a <= foldl Z.max a v /\ Forall (fun x => x <= foldl Z.max a v) v.
Proof.
  revert a. induction v as [|x v IH]; intros a; cbn; [split; [lia|done]|].
  destruct (IH (a `max` x)) as [H1 H2]. split; [lia|]. constructor; [lia|done].
Qed.

Lemma foldl_max_lt v a b : a < b -> Forall (fun x => 0 <= x < b) v -> foldl Z.max a v < b.
Proof. intros Ha Hv. revert a Ha. induction Hv as [|x v Hx _ IH]; intros a Ha; cbn; [done|]. apply IH. lia. Qed.

(** The passes of radix_sort on a vector whose values have [d] digits. *)
Lemma radix_passes_ok v d :
  0 <= d <= 10 -> zlen v < 2 ^ 31 -> Forall (fun x => 0 <= x < 2 ^ 31) v -> Forall (fun x => x < 10 ^ d) v ->
  wp (for_range 0 d stable_sort_digit v) (sorts v).
Proof.
  intros Hd Hl Hv Hmax.
  apply (wp_for_range (fun i w => w ≡ₚ v /\ digits_sorted i w)); [lia| | |].
  - split; [done|]. eapply StronglySorted_weaken; [|apply StronglySorted_True].
    intros x y _ _ _. by rewrite !Z.mod_1_r.
  - intros i w Hi [Hp Hs]. eapply wp_mono; [apply stable_sort_digit_ok; [lia|unfold zlen in *; by rewrite Hp|by rewrite Hp|done]|].
    intros w' [Hp' Hs']. split; [by rewrite Hp'|done].
  - intros w [Hp Hs]. apply (StronglySorted_sorts Z.le); [done|done|].
    eapply StronglySorted_weaken; [|exact Hs]. cbn. intros x y Hx Hy. rewrite Hp in Hx, Hy.
    rewrite list.Forall_forall in Hv, Hmax. specialize (Hv x Hx) as Hx0. specialize (Hv y Hy) as Hy0.
    rewrite !Z.mod_small by (split; [lia|auto]). done.
Qed.

(** radix_sort with the default digit count sorts every vector of less than
    2^31 non-negative 32-bit values: each pass is a stable sort by one decimal digit. *)
Theorem radix_sort_correct v :
  zlen v < 2 ^ 31 -> Forall (fun x => 0 <= x < 2 ^ 31) v -> wp (radix_sort v 0) (sorts v).
Proof.
  intros Hl Hv. unfold radix_sort. destruct (foldl_max_ok v 0) as [H0 Hle].
  pose proof (foldl_max_lt v 0 (2 ^ 31) ltac:(lia) Hv) as Hlt.
  rewrite Z.eqb_refl. apply wp_bind. eapply wp_mono; [apply count_digits_ok; [|lia]|].
  { split; [done|]. eapply Z.lt_trans; [exact Hlt|]. by vm_compute. }
  cbn. intros d (Hd & Hdm & Hmin). apply radix_passes_ok; [|done|done|].
  - split; [done|]. change 10 with (0 + 10). apply Hmin; [lia|]. eapply Z.lt_trans; [exact Hlt|]. by vm_compute.
  - eapply list.Forall_impl; [exact Hle|]. cbn. intros x Hx. replace (d - 0) with d in Hdm by lia. lia.
Qed.

Lemma radix_sort_correct_witness :
  wp (radix_sort [170; 45; 75; 2000000000; 90; 802; 0] 0) (sorts [170; 45; 75; 2000000000; 90; 802; 0]).
Proof. apply (radix_sort_correct [170; 45; 75; 2000000000; 90; 802; 0]); [reflexivity|]. repeat constructor; lia. Defined.

(** counting_sort sorts every vector of less than 2^31 values between 0 and max_value. *)
Theorem counting_sort_correct v max_value :
  0 <= max_value -> Forall (fun x => 0 <= x <= max_value) v -> zlen v < 2 ^ 31 ->
  wp (counting_sort v max_value) (sorts v).
Proof. apply counting_sort_ok. Qed.

Lemma counting_sort_correct_witness :
  wp (counting_sort [3; 0; 2; 3] 3) (sorts [3; 0; 2; 3]).
Proof. apply (counting_sort_correct [3; 0; 2; 3] 3); [lia|repeat constructor; lia|reflexivity]. Defined.
