(* ===== verification/Heap.v ===== *)
(** The binary heaps of cpp/datastructure/tree/heap.h: [MaxHeap] and [MinHeap].

    [MinHeap] is [MaxHeap] with every comparison turned round, so it is the same
    code at the converse order.  The heap refines a priority queue: a multiset
    with insertion, a greatest element and its removal. *)

From S2P Require Import Prelude Sort SortSpec.

Section MaxHeap.
Context {T : Type} `{StrictWeak T}.

Record heap_t := MkHeap { size_ : Z; buffer_ : list T }.

Definition new_heap : heap_t := MkHeap 0 [].
Definition empty (h : heap_t) : bool := size_ h =? 0.
Definition top (h : heap_t) : outcome T := vget (buffer_ h) 0.

(** The loop of [_heapify] in [push], state [(child, buffer)]. *)
Definition sift_up_step (st : Z * list T) : outcome (Z * list T + list T) :=
  let '(child, b) := st in
  if child =? 0 then Ok (inr b)
  else
    let parent := (child - 1) / 2 in
    p ← vget b parent; c ← vget b child;
    if ltb p c then b ← vswap b parent child; Ok (inl (parent, b))
    else Ok (inr b).

Definition push (value : T) (h : heap_t) : outcome heap_t :=
  let size := size_ h + 1 in
  b ← (if zlen (buffer_ h) <? size then Ok (buffer_ h ++ [value])
       else vset (buffer_ h) (size - 1) value);
  b ← while_fuel (S (length b)) sift_up_step (size - 1, b);
  Ok (MkHeap size b).

(** The loop of [_heapify] in [pop], state [(parent, child, buffer)]. *)
Definition sift_down_step (size : Z) (st : Z * Z * list T) : outcome (Z * Z * list T + list T) :=
  let '(parent, child, b) := st in
  if child <? size then
    child ←
      (if child + 1 <? size then
         x ← vget b child; y ← vget b (child + 1);
         Ok (if ltb x y then child + 1 else child)
       else Ok child);
    p ← vget b parent; c ← vget b child;
    if ltb p c then b ← vswap b parent child; Ok (inl (child, 2 * child + 1, b))
    else Ok (inr b)
  else Ok (inr b).

(** [size_ - 1] is computed in [size_t]. *)
Definition pop (h : heap_t) : outcome heap_t :=
  let size := u64 (size_ h - 1) in
  b ← vswap (buffer_ h) 0 size;
  b ← while_fuel (S (length b)) (sift_down_step size) (0, 1, b);
  Ok (MkHeap size b).

(** * Sequences of operations and the abstract priority queue *)

Inductive heap_op := Push (v : T) | Pop | Top.

(** The results of the calls of [top], in order. *)
Fixpoint run (ops : list heap_op) (h : heap_t) : outcome (list T * heap_t) :=
  match ops with
  | [] => Ok ([], h)
  | Push v :: r => h ← push v h; run r h
  | Pop :: r => h ← pop h; run r h
  | Top :: r => t ← top h; '(out, h) ← run r h; Ok (t :: out, h)
  end.

(** A priority queue holds a multiset, a list up to permutation. *)
Inductive pq_run : list T -> list heap_op -> list T -> list T -> Prop :=
| pq_nil m : pq_run m [] [] m
| pq_push m m' v r out m'' : m' ≡ₚ v :: m -> pq_run m' r out m'' -> pq_run m (Push v :: r) out m''
| pq_pop m m' t r out m'' :
    m ≡ₚ t :: m' -> Forall (fun x => leT x t) m -> pq_run m' r out m'' -> pq_run m (Pop :: r) out m''
| pq_top m t r out m'' :
    t ∈ m -> Forall (fun x => leT x t) m -> pq_run m r out m'' -> pq_run m (Top :: r) (t :: out) m''.

(** [Pop] and [Top] are called on a non-empty heap only, and the vector stays
    below its maximal size. *)
Fixpoint enabled (n : Z) (ops : list heap_op) : bool :=
  match ops with
  | [] => true
  | Push _ :: r => (n + 1 <? 2 ^ 63) && enabled (n + 1) r
  | Pop :: r => (0 <? n) && enabled (n - 1) r
  | Top :: r => (0 <? n) && enabled n r
  end.

(** * The invariant *)

Definition heap_wf (h : heap_t) : Prop :=
  0 <= size_ h <= zlen (buffer_ h) /\ size_ h < 2 ^ 63 /\ heap (buffer_ h) 0 (size_ h).

Definition content (h : heap_t) : list T := take (Z.to_nat (size_ h)) (buffer_ h).

Lemma zset_app_l (v w : list T) i x : i < zlen v -> zset (v ++ w) i x = zset v i x ++ w.
Proof.
  intros Hi. unfold zset. destruct (Z.ltb_spec i 0); [done|]. apply insert_app_l. unfold zlen in Hi. lia.
Qed.

Lemma zswap_app_l (v w : list T) i j : i < zlen v -> j < zlen v -> zswap (v ++ w) i j = zswap v i j ++ w.
Proof.
  intros Hi Hj. unfold zswap. rewrite !zget_app_l by done.
  destruct (zget v i), (zget v j); try done. rewrite !zset_app_l by (rewrite ?zlen_zset; done). done.
Qed.

(** Swapping inside a prefix permutes the prefix. *)
Lemma take_zswap (v : list T) n i j :
  0 <= i < n -> 0 <= j < n -> n <= zlen v ->
  take (Z.to_nat n) (zswap v i j) ≡ₚ take (Z.to_nat n) v.
Proof.
  intros Hi Hj Hn. assert (Hl : length (take (Z.to_nat n) v) = Z.to_nat n) by (rewrite length_take; unfold zlen in *; lia).
  rewrite <- (take_drop (Z.to_nat n) v) at 1. rewrite zswap_app_l by (unfold zlen; lia).
  rewrite take_app_length'; [apply zswap_perm|].
  pose proof (zlen_zswap (take (Z.to_nat n) v) i j). unfold zlen in *. lia.
Qed.

(** ** Sifting up *)

(** Every parent is at least its children, except on the edge into [c]. *)
Definition heap_above (v : list T) (e c : Z) : Prop :=
  forall q k x y, 0 <= q -> k <> c -> child_of q k -> k < e ->
    zget v q = Some y -> zget v k = Some x -> leT x y.

Lemma sift_up_swap v e p c x y :
  heap_above v e c -> grand v 0 e c -> 0 <= p -> child_of p c -> c < e -> e <= zlen v ->
  zget v p = Some x -> zget v c = Some y -> ltb x y = true ->
  heap_above (zswap v p c) e p /\ grand (zswap v p c) 0 e p.
Proof.
  intros Hh Hg Hp Hc Hce He Hx Hy Hlt. apply ltb_true_leT in Hlt. unfold child_of in *. split.
  - intros q k a b Hq Hne Hk Hke Hb Ha. unfold child_of in *. swapped; try lia; simplify_eq.
    all: first
      [ done
      | eapply Hg; [| | | |exact Hx|exact Ha]; unfold child_of; lia
      | transitivity x; [|done]; eapply Hh; [| | | |exact Hx|exact Ha]; unfold child_of; lia
      | eapply Hh; [| | | |exact Hb|exact Ha]; unfold child_of; lia ].
  - intros g k a b Hq Hk Hk2 Hke Hb Ha. unfold child_of in *.
    assert (Hgx : leT x b).
    { swapped; try lia; (eapply Hh; [| | | |exact Hb|exact Hx]; unfold child_of; lia). }
    swapped; try lia; simplify_eq; [done|].
    transitivity x; [|done]. eapply Hh; [| | | |exact Hx|exact Ha]; unfold child_of; lia.
Qed.

Lemma sift_up_ok v e :
  0 < e <= zlen v -> heap v 0 (e - 1) ->
  wp (while_fuel (S (length v)) sift_up_step (e - 1, v)) (fun w =>
    zlen w = zlen v /\ heap w 0 e /\ take (Z.to_nat e) w ≡ₚ take (Z.to_nat e) v).
Proof.
  intros He Hh.
  apply (wp_while (fun st => let '(c, w) := st in 0 <= c < e /\ zlen w = zlen v /\
      heap_above w e c /\ grand w 0 e c /\ take (Z.to_nat e) w ≡ₚ take (Z.to_nat e) v)
    (fun st => Z.to_nat (fst st))).
  - split; [lia|]. split; [done|]. split; [|split; [|done]].
    + intros q k x y Hq Hne Hk Hke. apply Hh; [done|done|lia].
    + intros g k x y Hg Hgp Hk Hke. unfold child_of in Hk. lia.
  - cbn. unfold zlen in *. lia.
  - intros [c w] (Hc & Hz & Ha & Hg & Hp). unfold sift_up_step.
    destruct (Z.eqb_spec c 0) as [->|Hne].
    { apply wp_ret. split; [done|]. split; [|done].
      intros q k x y Hq Hk Hke. apply Ha; try done. unfold child_of in Hk. lia. }
    pose proof (Z.div_mod (c - 1) 2). pose proof (Z.mod_pos_bound (c - 1) 2).
    assert (Hch : child_of ((c - 1) / 2) c) by (unfold child_of; lia).
    wp_step. wp_step. wp_step. wp_step. destruct (ltb x x0) eqn:E.
    + wp_step. wp_step. apply wp_ret. split; [|cbn; lia]. split; [lia|]. split; [zlia|].
      destruct (sift_up_swap w e ((c - 1) / 2) c x x0) as [Ha' Hg']; try (done || lia).
      split; [done|]. split; [done|]. rewrite <- Hp. apply take_zswap; lia.
    + apply wp_ret. split; [done|]. split; [|done].
      intros q k a b Hq Hk Hke Hb Hka. destruct (Z.eq_dec k c) as [->|]; [|by apply (Ha q k)].
      assert (q = (c - 1) / 2) as -> by (unfold child_of in *; lia). simplify_eq. done.
Qed.

(** ** Sifting down *)

Lemma sift_down_ok v e :
  0 <= e <= zlen v -> heap v 1 e ->
  wp (while_fuel (S (length v)) (sift_down_step e) (0, 1, v)) (fun w =>
    zlen w = zlen v /\ heap w 0 e /\ take (Z.to_nat e) w ≡ₚ take (Z.to_nat e) v).
Proof.
  intros He Hh.
  apply (wp_while (fun st => let '(p, c, w) := st in 0 <= p /\ c = 2 * p + 1 /\ zlen w = zlen v /\
      heap_except w 0 e p /\ grand w 0 e p /\ take (Z.to_nat e) w ≡ₚ take (Z.to_nat e) v)
    (fun st => let '(p, c, w) := st in Z.to_nat (e - c))).
  - split; [lia|]. split; [done|]. split; [done|]. split; [|split; [|done]].
    + intros q c x y Hq Hne. apply Hh. lia.
    + intros g c x y Hg Hgp. unfold child_of in Hgp. lia.
  - unfold zlen in *. lia.
  - intros [[p c] w] (Hp & -> & Hz & Hx & Hg & Hpm). unfold sift_down_step.
    destruct (Z.ltb_spec (2 * p + 1) e) as [Hlt|Hge].
    + apply wp_bind. eapply wp_mono; [apply pick_child; lia|]. intros c Hmc.
      pose proof Hmc as (Hc & Hce & _). unfold child_of in Hc.
      wp_step. wp_step. wp_step. wp_step. rename x into a, x0 into b.
      destruct (ltb a b) eqn:E.
      * wp_step. wp_step. apply wp_ret. split; [|lia].
        destruct (heapify_swap w 0 e p c a b) as [Hx' Hg']; try (done || lia).
        split; [lia|]. split; [done|]. split; [zlia|]. split; [done|]. split; [done|].
        rewrite <- Hpm. apply take_zswap; lia.
      * apply wp_ret. split; [done|]. split; [|done].
        destruct (heapify_stay w 0 e p c a b) as [Hx' Hg']; try (done || lia).
        intros q k x y Hq Hk Hke Hb Ha. destruct (Z.eq_dec q c) as [->|]; [|by apply (Hx' q k)].
        apply (Hx c k); try done. lia.
    + apply wp_ret. split; [done|]. split; [|done].
      intros q k x y Hq Hk Hke. apply (Hx q k); try done.
      intros ->. unfold child_of in Hk. lia.
Qed.

(** * The operations *)

Lemma push_ok v h :
  heap_wf h -> size_ h + 1 < 2 ^ 63 ->
  wp (push v h) (fun h' => heap_wf h' /\ size_ h' = size_ h + 1 /\ content h' ≡ₚ v :: content h).
Proof.
  intros (Hs & Hb & Hh) Hm. unfold push.
  assert (Wb : wp (if zlen (buffer_ h) <? size_ h + 1 then Ok (buffer_ h ++ [v])
    else vset (buffer_ h) (size_ h + 1 - 1) v) (fun b => size_ h + 1 <= zlen b /\ heap b 0 (size_ h) /\
      take (Z.to_nat (size_ h + 1)) b = content h ++ [v])).
  { destruct (Z.ltb_spec (zlen (buffer_ h)) (size_ h + 1)).
    - apply wp_ret. rewrite zlen_app. change (zlen [v]) with 1. split; [lia|]. split.
      + intros q k x y Hq Hk Hke Hy Hx. unfold child_of in Hk. rewrite zget_app_l in Hy, Hx by lia.
        by apply (Hh q k).
      + unfold content. assert (E : Z.to_nat (size_ h) = length (buffer_ h)) by (unfold zlen in *; lia).
        rewrite E, firstn_all, take_ge; [done|]. rewrite length_app. cbn. lia.
    - apply wp_vset; [lia|]. replace (size_ h + 1 - 1) with (size_ h) by lia. rewrite zlen_zset. split; [lia|]. split.
      + intros q k x y Hq Hk Hke Hy Hx. unfold child_of in Hk. rewrite zget_zset_ne in Hy, Hx by lia.
        by apply (Hh q k).
      + erewrite take_zget by (apply zget_zset_eq; lia). f_equal. unfold content, zset.
        destruct (Z.ltb_spec (size_ h) 0); [lia|]. by rewrite take_insert_ge by lia. }
  apply wp_bind. eapply wp_mono; [exact Wb|]. intros b (Hz & Hhb & Et).
  apply wp_bind. eapply wp_mono; [apply sift_up_ok; [lia|]|].
  { by replace (size_ h + 1 - 1) with (size_ h) by lia. }
  intros w (Hzw & Hw & Hp). apply wp_ret. split; [|split; [done|]].
  - split; [cbn; lia|]. done.
  - unfold content at 1. cbn. rewrite Hp, Et. by rewrite <- Permutation_cons_append.
Qed.

Lemma top_ok h :
  heap_wf h -> 0 < size_ h ->
  wp (top h) (fun t => t ∈ content h /\ Forall (fun x => leT x t) (content h) /\ zget (buffer_ h) 0 = Some t).
Proof.
  intros (Hs & Hb & Hh) Hn. unfold top. apply wp_vget; [lia|]. intros t Ht. split; [|split; [|done]].
  - unfold content. apply list_elem_of_lookup. exists O. rewrite lookup_take_lt by lia. by rewrite <- zget_nat.
  - apply list.Forall_forall. intros x [i Hi]%list_elem_of_lookup. unfold content in Hi.
    apply lookup_take_Some in Hi as [Hi Hlt]. rewrite <- zget_nat in Hi.
    eapply (heap_root_max _ _ (Z.of_nat i)); try eassumption; lia.
Qed.

Lemma pop_ok h :
  heap_wf h -> 0 < size_ h ->
  wp (pop h) (fun h' => heap_wf h' /\ size_ h' = size_ h - 1 /\
    exists t, content h ≡ₚ t :: content h' /\ Forall (fun x => leT x t) (content h)).
Proof.
  intros Hw Hn. destruct (top_ok h Hw Hn) as (t & _ & _ & Hmax & Ht). destruct Hw as (Hs & Hb & Hh).
  unfold pop. rewrite u64_id by (unfold is_u64; lia).
  set (e := size_ h - 1). assert (Hz : zlen (zswap (buffer_ h) 0 e) = zlen (buffer_ h)) by apply zlen_zswap.
  assert (Hlast : zget (zswap (buffer_ h) 0 e) e = Some t).
  { rewrite zget_zswap by lia. repeat case_decide; subst; congruence. }
  wp_step. wp_step. apply wp_bind. eapply wp_mono; [apply sift_down_ok; [lia|]|].
  { intros q k x y Hq Hk Hke Hy Hx. unfold child_of in Hk. swapped; try lia. apply (Hh q k); try done; lia. }
  intros w (Hzw & Hhw & Hp). apply wp_ret. split; [split; [cbn; lia|split; [cbn; lia|done]]|].
  split; [done|]. exists t. split; [|done]. unfold content at 2. cbn. rewrite Hp.
  rewrite Permutation_cons_append, <- (take_zget _ _ _ Hlast). replace (e + 1) with (size_ h) by lia.
  symmetry. apply take_zswap; lia.
Qed.

Lemma run_ok ops h :
  heap_wf h -> enabled (size_ h) ops = true ->
  wp (run ops h) (fun '(out, h') => heap_wf h' /\ pq_run (content h) ops out (content h')).
Proof.
  revert h. induction ops as [|[v| |] r IH]; intros h Hw He; cbn [run enabled] in *.
  - apply wp_ret. split; [done|constructor].
  - apply andb_true_iff in He as [Hb He]. apply wp_bind. eapply wp_mono; [apply push_ok; [done|lia]|].
    intros h1 (Hw1 & E1 & Hp1). rewrite <- E1 in He. eapply wp_mono; [by apply IH|].
    intros [out h'] [Hw' Hr]. split; [done|]. by econstructor.
  - apply andb_true_iff in He as [Hb He]. apply wp_bind. eapply wp_mono; [apply pop_ok; [done|lia]|].
    intros h1 (Hw1 & E1 & t & Hp1 & Ht). rewrite <- E1 in He. eapply wp_mono; [by apply IH|].
    intros [out h'] [Hw' Hr]. split; [done|]. by econstructor.
  - apply andb_true_iff in He as [Hb He]. apply wp_bind. eapply wp_mono; [apply top_ok; [done|lia]|].
    intros t (Hin & Ht & _). apply wp_bind. eapply wp_mono; [by apply IH|].
    intros [out h'] [Hw' Hr]. apply wp_ret. split; [done|]. by constructor.
Qed.

Lemma new_heap_wf : heap_wf new_heap.
Proof. split; [done|]. split; [done|]. intros q k x y Hq Hk Hke. unfold child_of in Hk. cbn in Hke. lia. Qed.
End MaxHeap.
Arguments heap_t : clear implicits.
Arguments heap_op : clear implicits.

(** ** MinHeap: the converse order *)

Program Definition flip_order {T} (O : StrictWeak T) : StrictWeak T :=
  {| ltb := fun a b => @ltb T O b a |}.
Next Obligation. intros T O a b. apply ltb_asym. Qed.
Next Obligation. intros T O a b c H1 H2. by apply (ltb_ntrans c b a). Qed.

Module MinHeap.
Section MinHeap.
Context {T : Type} {O : StrictWeak T}.
Definition push (value : T) (h : heap_t T) : outcome (heap_t T) := @Heap.push T (flip_order O) value h.
Definition pop (h : heap_t T) : outcome (heap_t T) := @Heap.pop T (flip_order O) h.
Definition top (h : heap_t T) : outcome T := Heap.top h.
End MinHeap.
End MinHeap.

(** C19: every sequence of push, top and pop that uses top and pop on a non-empty heap
    runs without fault and behaves as a priority queue on multisets, for every strict
    weak order (MinHeap is the converse order). *)
Theorem heap_refines_priority_queue {T} `{StrictWeak T} (ops : list (heap_op T)) :
  enabled 0 ops = true ->
  exists out h, run ops new_heap = Ok (out, h) /\ heap_wf h /\ pq_run [] ops out (content h).
Proof.
  intros He. destruct (run_ok ops new_heap new_heap_wf He) as ([out h] & E & Hw & Hr). by exists out, h.
Qed.

Definition ops_example : list (heap_op Z) :=
  [Push 3; Push 9; Top; Push 4; Push 9; Pop; Top; Pop; Top; Push 1; Pop; Top].

Lemma heap_refines_priority_queue_witness :
  exists out h, run ops_example new_heap = Ok (out, h) /\ heap_wf h /\ pq_run [] ops_example out (content h).
Proof. apply (heap_refines_priority_queue ops_example). reflexivity. Defined.
