(* ===== verification/RingBuffer.v ===== *)
(** The byte ring buffer of cpp/datastructure/queue/ringbuffer.h and .cc.

    Pointers into the mapped region are offsets from [buffer_]; [None] is
    [nullptr].  The mutex makes every operation atomic, so an operation is one
    step on the state.  A node is an 8-byte size and its data padded to 8 bytes;
    [push] drops the oldest nodes until the new one fits.

    [push] copies the size rounded up to 8 from the vector of the node, up to seven
    bytes more than a vector of [size] bytes has.  What can be read behind the vector
    (the rest of its heap block, say) is an argument of [push]; reading further is a
    fault. *)

From S2P Require Import Prelude.

Record Node := MkNode { size : Z; data : list Z }.

Record RingBuffer := MkRing {
  capacity_ : Z;
  buffer_ : Z -> Z;
  write_ : option Z;
  read_ : option Z
}.

(** [(size + 7) & ~7] in [size_t] *)
Definition evaluate_aligned_size (n : Z) : Z := Z.land (u64 (n + 7)) (2 ^ 64 - 8).

(** [init]: [mapped] is the fresh mapping, or [None] when [mmap] failed. *)
Definition init (n : Z) (mapped : option (Z -> Z)) : bool * option RingBuffer :=
  match mapped with
  | None => (false, None)
  | Some m => (true, Some (MkRing (evaluate_aligned_size n) m None None))
  end.

Definition empty (r : RingBuffer) : bool := bool_decide (read_ r = None).

(** ** Bytes *)

(** The 8 bytes of a [size_t], little endian. *)
Definition enc64 (v : Z) : list Z := (fun i => (v / 2 ^ (8 * i)) mod 2 ^ 8) <$> seqZ 0 8.
Definition dec64 (bs : list Z) : Z := foldr (fun b acc => b + 2 ^ 8 * acc) 0 bs.

Definition bytes_at (m : Z -> Z) (off n : Z) : list Z := m <$> seqZ off n.

Definition blit (m : Z -> Z) (off : Z) (bs : list Z) : Z -> Z := fun k =>
  match zget bs (k - off) with Some b => b | None => m k end.

(** [memcpy] from and to the mapped region. *)
Definition read_bytes (cap : Z) (m : Z -> Z) (off n : Z) : outcome (list Z) :=
  require ((0 <=? off) && (off + n <=? cap)) OutOfBounds;; Ok (bytes_at m off n).

Definition write_bytes (cap : Z) (m : Z -> Z) (off : Z) (bs : list Z) : outcome (Z -> Z) :=
  require ((0 <=? off) && (off + zlen bs <=? cap)) OutOfBounds;; Ok (blit m off bs).

(** [memcpy(_, node.data.data() + from, n)] reads the vector and what lies behind it. *)
Definition slice (d : list Z) (from n : Z) : outcome (list Z) :=
  require ((0 <=? from) && (from + n <=? zlen d)) OutOfBounds;;
  Ok (take (Z.to_nat n) (drop (Z.to_nat from) d)).

(** ** push *)

(** One round of the loop that drops the oldest node, state [(read_, write_)]. *)
Definition drop_step (cap : Z) (m : Z -> Z) (need : Z) (st : Z * Z) : outcome (Z * Z + Z * Z) :=
  let '(r, w) := st in
  if cap - ((w - r + cap) mod cap) <? need then
    hd ← read_bytes cap m r 8;
    let offset := u64 (8 + evaluate_aligned_size (dec64 hd)) in
    let left_size := cap - r in
    let r := if left_size <? offset then offset - left_size else r + offset in
    let r := if r =? cap then 0 else r in
    if r =? w then Ok (inl (0, 0)) else Ok (inl (r, w))
  else Ok (inr (r, w)).

(** Size and data of the node written from [w] on, and the next offset. *)
Definition store_node (cap : Z) (m : Z -> Z) (w : Z) (node : Node) : outcome ((Z -> Z) * Z) :=
  let data_size := evaluate_aligned_size (size node) in
  m ← write_bytes cap m w (enc64 (size node));
  let w := w + 8 in
  let free_size := cap - w in
  '(m, w) ←
    (if free_size <? data_size then
       d1 ← slice (data node) 0 free_size;
       m ← write_bytes cap m w d1;
       d2 ← slice (data node) free_size (data_size - free_size);
       m ← write_bytes cap m 0 d2;
       Ok (m, data_size - free_size)
     else
       d ← slice (data node) 0 data_size;
       m ← write_bytes cap m w d;
       Ok (m, w + data_size));
  Ok (m, if w =? cap then 0 else w).

(** The memory of the vector with the bytes behind it. *)
Definition with_behind (node : Node) (behind : list Z) : Node := MkNode (size node) (data node ++ behind).

Definition push (node : Node) (behind : list Z) (b : RingBuffer) : outcome RingBuffer :=
  let cap := capacity_ b in
  let '(r, w) := match read_ b, write_ b with Some r, Some w => (r, w) | _, _ => (0, 0) end in
  let need := u64 (8 + evaluate_aligned_size (size node)) in
  require (need <=? cap) AssertFail;;
  '(r, w) ← while_fuel (S (Z.to_nat cap)) (drop_step cap (buffer_ b) need) (r, w);
  '(m, w) ← store_node cap (buffer_ b) w (with_behind node behind);
  Ok (MkRing cap m (Some w) (Some r)).

(** ** pop *)

Definition pop (b : RingBuffer) : outcome (Node * RingBuffer) :=
  match read_ b with
  | None => Ok (MkNode 0 [], b)
  | Some r =>
      let cap := capacity_ b in
      let m := buffer_ b in
      hd ← read_bytes cap m r 8;
      let sz := dec64 hd in
      let data_size := evaluate_aligned_size sz in
      let r := r + 8 in
      let tail_offset := cap - r in
      '(d, r) ←
        (if tail_offset <? data_size then
           d1 ← read_bytes cap m r tail_offset;
           d2 ← read_bytes cap m 0 (data_size - tail_offset);
           Ok (d1 ++ d2, data_size - tail_offset)
         else
           d ← read_bytes cap m r data_size;
           Ok (d, r + data_size));
      let node := MkNode sz (take (Z.to_nat sz) d) in
      let r := if r =? cap then 0 else r in
      if bool_decide (Some r = write_ b) then Ok (node, MkRing cap m None None)
      else Ok (node, MkRing cap m (write_ b) (Some r))
  end.

(** * Arithmetic *)

Lemma align_eq n : 0 <= n < 2 ^ 63 -> evaluate_aligned_size n = 8 * ((n + 7) / 8).
Proof.
  intros Hn. unfold evaluate_aligned_size. rewrite u64_id by (unfold is_u64; lia).
  apply land_align8. unfold is_u64. lia.
Qed.

Lemma dec_enc64 v : 0 <= v < 2 ^ 64 -> dec64 (enc64 v) = v.
Proof.
  intros Hv. unfold enc64. change (seqZ 0 8) with [0; 1; 2; 3; 4; 5; 6; 7]. cbn [fmap list_fmap dec64 foldr].
  assert (E : forall i j, 0 <= i -> j = i + 1 ->
    (v / 2 ^ (8 * i)) mod 2 ^ 8 = v / 2 ^ (8 * i) - 2 ^ 8 * (v / 2 ^ (8 * j))).
  { intros i j Hi ->. rewrite (Z.mod_eq (v / 2 ^ (8 * i)) (2 ^ 8)) by lia. rewrite Z.div_div by lia.
    rewrite <- Z.pow_add_r by lia. do 4 f_equal. lia. }
  rewrite (E 0 1), (E 1 2), (E 2 3), (E 3 4), (E 4 5), (E 5 6), (E 6 7), (E 7 8) by lia. clear E.
  rewrite (Z.div_small v (2 ^ (8 * 8))) by lia. rewrite Z.mul_0_r, Z.pow_0_r, Z.div_1_r.
  set (a1 := v / 2 ^ (8 * 1)). set (a2 := v / 2 ^ (8 * 2)). set (a3 := v / 2 ^ (8 * 3)).
  set (a4 := v / 2 ^ (8 * 4)). set (a5 := v / 2 ^ (8 * 5)). set (a6 := v / 2 ^ (8 * 6)).
  set (a7 := v / 2 ^ (8 * 7)). clearbody a1 a2 a3 a4 a5 a6 a7. lia.
Qed.

Lemma enc64_len v : zlen (enc64 v) = 8.
Proof. done. Qed.

(** The byte [i] of the ring from [r] on. *)
Definition ring_get (cap : Z) (m : Z -> Z) (r i : Z) : Z := m ((r + i) mod cap).

(** [bs] lies in the ring from [r] on. *)
Definition ring_has (cap : Z) (m : Z -> Z) (r : Z) (bs : list Z) : Prop :=
  forall i x, zget bs i = Some x -> ring_get cap m r i = x.

Lemma mod_ring cap x : 0 < cap -> 0 <= x < 2 * cap -> x mod cap = if x <? cap then x else x - cap.
Proof.
  intros Hc Hx. destruct (Z.ltb_spec x cap); [apply Z.mod_small; lia|].
  symmetry. apply (Z.mod_unique_pos _ _ 1); lia.
Qed.

Lemma bytes_at_len m off n : 0 <= n -> zlen (bytes_at m off n) = n.
Proof. intros Hn. unfold bytes_at, zlen. rewrite length_fmap, length_seqZ. lia. Qed.

(** Reading a piece that does not wrap. *)
Lemma bytes_at_ring cap m r bs :
  0 < cap -> 0 <= r -> r + zlen bs <= cap -> ring_has cap m r bs -> bytes_at m r (zlen bs) = bs.
Proof.
  intros Hc Hr Hl Hh. pose proof (zlen_nonneg bs). apply zvec_ext; [by apply bytes_at_len|].
  rewrite bytes_at_len by done. intros i Hi. unfold bytes_at. rewrite zget_fmap_seqZ by done.
  destruct (zget_in_range bs i Hi) as [x Ex]. rewrite Ex. f_equal. rewrite <- (Hh i x Ex).
  unfold ring_get. by rewrite Z.mod_small by lia.
Qed.

Lemma ring_has_app cap m r a b :
  ring_has cap m r (a ++ b) <-> ring_has cap m r a /\ ring_has cap m (r + zlen a) b.
Proof.
  split.
  - intros Hh. split; intros i x Hx; pose proof (zget_bounds _ _ _ Hx).
    + apply Hh. by rewrite zget_app_l by lia.
    + rewrite <- (Hh (zlen a + i) x).
      * unfold ring_get. do 2 f_equal. lia.
      * rewrite zget_app_r by lia. by replace (zlen a + i - zlen a) with i by lia.
  - intros [Ha Hb] i x Hx. destruct (Z.lt_ge_cases i (zlen a)).
    + rewrite zget_app_l in Hx by done. by apply Ha.
    + rewrite zget_app_r in Hx by done. rewrite <- (Hb _ _ Hx). unfold ring_get. do 2 f_equal. lia.
Qed.

Lemma ring_has_mod cap m r bs : ring_has cap m (r mod cap) bs <-> ring_has cap m r bs.
Proof.
  unfold ring_has, ring_get. split; intros Hh i x Hx; rewrite <- (Hh i x Hx).
  - by rewrite Zplus_mod_idemp_l.
  - by rewrite Zplus_mod_idemp_l.
Qed.

(** ** Writing a run of bytes that may wrap *)

(** [m'] is [m] with [bs] written in the ring from [w] on. *)
Definition ring_written (cap : Z) (m : Z -> Z) (w : Z) (bs : list Z) (m' : Z -> Z) : Prop :=
  forall k, 0 <= k < cap ->
    m' k = match zget bs ((k - w) mod cap) with Some b => b | None => m k end.

Lemma ring_written_has cap m w bs m' :
  0 < cap -> zlen bs <= cap -> ring_written cap m w bs m' -> ring_has cap m' w bs.
Proof.
  intros Hc Hl Hw i x Hx. pose proof (zget_bounds _ _ _ Hx). unfold ring_get.
  rewrite Hw by (apply Z.mod_pos_bound; lia). rewrite Zminus_mod_idemp_l.
  replace (w + i - w) with i by lia. rewrite Z.mod_small by lia. by rewrite Hx.
Qed.

(** A piece that ends before [w] is kept when both fit in the ring. *)
Lemma ring_written_keeps cap m r a bs m' :
  0 < cap -> zlen a + zlen bs <= cap -> ring_written cap m (r + zlen a) bs m' ->
  ring_has cap m r a -> ring_has cap m' r a.
Proof.
  intros Hc Hl Hw Ha i x Hx. pose proof (zget_bounds _ _ _ Hx). pose proof (zlen_nonneg bs). unfold ring_get.
  rewrite Hw by (apply Z.mod_pos_bound; lia). rewrite Zminus_mod_idemp_l.
  replace (zget bs ((r + i - (r + zlen a)) mod cap)) with (@None Z); [by apply (Ha i)|].
  symmetry. apply zget_None. right.
  replace (r + i - (r + zlen a)) with (i - zlen a) by lia.
  destruct (Z.eq_dec (zlen a) 0); [lia|].
  rewrite <- (Z.mod_add _ 1) by lia. rewrite Z.mod_small by lia. lia.
Qed.

Lemma blit_ring cap m w bs :
  0 <= w -> w + zlen bs <= cap -> ring_written cap m w bs (blit m w bs).
Proof.
  intros Hw Hl k Hk. unfold blit. pose proof (zlen_nonneg bs).
  destruct (Z.le_gt_cases w k).
  - by rewrite (Z.mod_small (k - w)) by lia.
  - rewrite <- (Z.mod_add _ 1), (Z.mod_small (k - w + 1 * cap)) by lia.
    assert (E1 : zget bs (k - w) = None) by (apply zget_None; lia).
    assert (E2 : zget bs (k - w + 1 * cap) = None) by (apply zget_None; lia).
    by rewrite E1, E2.
Qed.

Lemma ring_written_mod cap m w bs m' : ring_written cap m (w mod cap) bs m' <-> ring_written cap m w bs m'.
Proof. unfold ring_written. split; intros Hw k Hk; rewrite Hw by done; by rewrite Zminus_mod_idemp_r. Qed.

Lemma ring_written_app cap m w a b m1 m2 :
  0 < cap -> zlen a + zlen b <= cap ->
  ring_written cap m w a m1 -> ring_written cap m1 (w + zlen a) b m2 -> ring_written cap m w (a ++ b) m2.
Proof.
  intros Hc Hl H1 H2 k Hk. rewrite H2, H1 by done. pose proof (zlen_nonneg a). pose proof (zlen_nonneg b).
  pose proof (Z.mod_pos_bound (k - w) cap Hc) as Hm. set (j := (k - w) mod cap) in *.
  assert (Ej : (k - (w + zlen a)) mod cap = (j - zlen a) mod cap).
  { unfold j. rewrite Zminus_mod_idemp_l. f_equal. lia. }
  rewrite Ej. destruct (Z.lt_ge_cases j (zlen a)).
  - rewrite zget_app_l by done. assert (E : zget b ((j - zlen a) mod cap) = None); [|by rewrite E].
    apply zget_None. right. rewrite <- (Z.mod_add _ 1), Z.mod_small by lia. lia.
  - rewrite zget_app_r by done. rewrite Z.mod_small by lia.
    assert (E : zget a j = None) by (apply zget_None; lia). by rewrite E.
Qed.

(** * The queue held by the buffer *)

(** A stored node: its size and its padded data. *)
Definition enc (n : Node) : list Z := enc64 (size n) ++ data n.

Definition node_ok (n : Node) : Prop :=
  0 <= size n < 2 ^ 62 /\ zlen (data n) = evaluate_aligned_size (size n).

Definition bytes (q : list Node) : list Z := concat (enc <$> q).
Definition used (q : list Node) : Z := zlen (bytes q).

Definition ring_ok (cap : Z) : Prop := 0 < cap < 2 ^ 62 /\ cap mod 8 = 0.

(** The buffer [b] holds the queue [q], oldest node first. *)
Definition rep (q : list Node) (b : RingBuffer) : Prop :=
  ring_ok (capacity_ b) /\ Forall node_ok q /\
  ((q = [] /\ read_ b = None /\ write_ b = None) \/
   (q <> [] /\ used q <= capacity_ b /\ exists r,
      0 <= r < capacity_ b /\ r mod 8 = 0 /\ read_ b = Some r /\
      write_ b = Some ((r + used q) mod capacity_ b) /\
      ring_has (capacity_ b) (buffer_ b) r (bytes q))).

(** What [pop] returns for a stored node. *)
Definition unpad (n : Node) : Node := MkNode (size n) (take (Z.to_nat (size n)) (data n)).

(** The stored form of a pushed node. *)
Definition pad (n : Node) : Node :=
  MkNode (size n) (take (Z.to_nat (evaluate_aligned_size (size n))) (data n)).

(** The oldest nodes are dropped until [need] bytes are free. *)
Fixpoint make_room (cap need : Z) (q : list Node) : list Node :=
  match q with
  | [] => []
  | n :: r => if cap - used q <? need then make_room cap need r else q
  end.

Lemma enc_len n : node_ok n -> zlen (enc n) = 8 + 8 * ((size n + 7) / 8).
Proof. intros [Hs Hd]. unfold enc. rewrite zlen_app, enc64_len, Hd, align_eq by lia. done. Qed.

Lemma used_cons n q : used (n :: q) = zlen (enc n) + used q.
Proof. unfold used, bytes. cbn. by rewrite zlen_app. Qed.

Lemma used_mod8 q : Forall node_ok q -> used q mod 8 = 0 /\ 0 <= used q.
Proof.
  induction 1 as [|n q Hn _ [IH1 IH2]]; [done|]. rewrite used_cons, enc_len by done.
  destruct Hn as [Hs _]. pose proof (Z.div_pos (size n + 7) 8). split; [|lia].
  replace (8 + 8 * ((size n + 7) / 8) + used q) with (used q + (1 + (size n + 7) / 8) * 8) by lia.
  by rewrite Z.mod_add by lia.
Qed.

(** The nodes [q] lie between the offsets [r] and [w]. *)
Definition window (cap : Z) (m : Z -> Z) (q : list Node) (r w : Z) : Prop :=
  0 <= r < cap /\ r mod 8 = 0 /\ Forall node_ok q /\ used q <= cap /\
  w = (r + used q) mod cap /\ ring_has cap m r (bytes q).

Lemma mult8_lt a b : a mod 8 = 0 -> b mod 8 = 0 -> a < b -> a + 8 <= b.
Proof. intros Ha Hb. pose proof (Z.div_mod a 8). pose proof (Z.div_mod b 8). lia. Qed.

Lemma window_mod8 cap m q r w : ring_ok cap -> window cap m q r w -> w mod 8 = 0 /\ 0 <= w < cap.
Proof.
  intros [Hc Hc8] (Hr & Hr8 & Hq & Hu & -> & _). destruct (used_mod8 q Hq) as [Hu8 Hu0].
  split; [|apply Z.mod_pos_bound; lia].
  rewrite (mod_ring cap) by lia. pose proof (Z.div_mod r 8). pose proof (Z.div_mod cap 8). pose proof (Z.div_mod (used q) 8).
  destruct (Z.ltb_spec (r + used q) cap).
  - symmetry. apply (Z.mod_unique_pos _ _ (r / 8 + used q / 8)); lia.
  - symmetry. apply (Z.mod_unique_pos _ _ (r / 8 + used q / 8 - cap / 8)); lia.
Qed.

Lemma read_head cap m r n rest :
  ring_ok cap -> 0 <= r < cap -> r mod 8 = 0 -> ring_has cap m r (enc n ++ rest) ->
  read_bytes cap m r 8 = Ok (enc64 (size n)).
Proof.
  intros [Hc Hc8] Hr Hr8 Hh. pose proof (mult8_lt r cap Hr8 Hc8 ltac:(lia)). unfold read_bytes, enc in *.
  destruct (Z.leb_spec 0 r), (Z.leb_spec (r + 8) cap); try lia. cbn. f_equal.
  rewrite <- app_assoc in Hh. apply ring_has_app in Hh as [Hh _].
  rewrite <- (enc64_len (size n)) at 1. apply (bytes_at_ring cap); [lia|lia|rewrite enc64_len; lia|done].
Qed.

Lemma window_tail cap m n q r w :
  ring_ok cap -> window cap m (n :: q) r w ->
  window cap m q ((r + zlen (enc n)) mod cap) w.
Proof.
  intros Hk Hwin. pose proof Hk as [Hc Hc8]. pose proof Hwin as (Hr & Hr8 & Hq & Hu & -> & Hh).
  assert (H1 : window cap m [n] r ((r + used [n]) mod cap)).
  { apply list.Forall_cons in Hq as [Hn Hq]. destruct (used_mod8 q Hq).
    unfold bytes in Hh. cbn in Hh. apply ring_has_app in Hh as [Hh _]. rewrite used_cons in Hu.
    split; [done|]. split; [done|]. split; [by constructor|]. unfold used, bytes. cbn. rewrite app_nil_r.
    split; [lia|]. split; [done|]. done. }
  destruct (window_mod8 _ _ _ _ _ Hk H1) as [Hm Hb]. unfold used, bytes in Hm, Hb. cbn in Hm, Hb.
  rewrite app_nil_r in Hm, Hb.
  apply list.Forall_cons in Hq as [Hn Hq]. rewrite used_cons in *. pose proof (zlen_nonneg (enc n)).
  split; [done|]. split; [done|]. split; [done|]. split; [lia|]. split.
  - rewrite Zplus_mod_idemp_l. f_equal. lia.
  - apply ring_has_mod. unfold bytes in Hh. cbn in Hh. by apply ring_has_app in Hh as [_ Hh].
Qed.

Lemma window_start cap m : 0 < cap -> window cap m [] 0 0.
Proof.
  intros Hc. split; [lia|]. split; [done|]. split; [done|]. change (used []) with 0. split; [lia|].
  split; [by rewrite Z.mod_small by lia|]. intros i x Hx. apply zget_bounds in Hx. change (zlen (bytes [])) with 0 in Hx. lia.
Qed.

Lemma used_pos n q : Forall node_ok (n :: q) -> 8 <= used (n :: q).
Proof.
  intros Hq. apply list.Forall_cons in Hq as [Hn Hq]. destruct (used_mod8 q Hq). rewrite used_cons, enc_len by done.
  destruct Hn. pose proof (Z.div_pos (size n + 7) 8). lia.
Qed.

(** The position behind the first node, as the loop computes it. *)
Lemma next_offset cap r n :
  0 <= r < cap -> zlen (enc n) <= cap ->
  (let left := cap - r in
   let r' := if left <? zlen (enc n) then zlen (enc n) - left else r + zlen (enc n) in
   if r' =? cap then 0 else r') = (r + zlen (enc n)) mod cap.
Proof.
  intros Hr Hl. cbn zeta. pose proof (zlen_nonneg (enc n)). rewrite mod_ring by lia.
  destruct (Z.ltb_spec (cap - r) (zlen (enc n))), (Z.ltb_spec (r + zlen (enc n)) cap); try lia;
    zcase; lia.
Qed.

Lemma head_offset n : node_ok n -> u64 (8 + evaluate_aligned_size (dec64 (enc64 (size n)))) = zlen (enc n).
Proof.
  intros Hn. pose proof Hn as [Hs Hd]. rewrite dec_enc64, enc_len, align_eq by (done || lia).
  pose proof (Z.div_pos (size n + 7) 8). pose proof (Z.mul_div_le (size n + 7) 8).
  apply u64_id. unfold is_u64. lia.
Qed.

Lemma drop_loop cap m need q r w f :
  ring_ok cap -> need <= cap -> window cap m q r w -> used q < cap -> (length q < f)%nat ->
  exists r' w', while_fuel f (drop_step cap m need) (r, w) = Ok (r', w') /\
    window cap m (make_room cap need q) r' w' /\ need <= cap - used (make_room cap need q).
Proof.
  intros Hk Hneed. revert r w f. induction q as [|n q IH]; intros r w f Hwin Hu Hf;
    (destruct f as [|f]; [lia|]); cbn [while_fuel drop_step make_room];
    pose proof Hk as [Hc Hc8]; pose proof Hwin as (Hr & Hr8 & Hq & Hul & Ew & Hh).
  - change (used []) with 0 in *. rewrite Z.add_0_r, Z.mod_small in Ew by lia. subst w.
    replace (r - r + cap) with cap by lia. rewrite Z.mod_same by lia.
    destruct (Z.ltb_spec (cap - 0) need); [lia|]. cbn [mbind outcome_bind]. exists r, r. split; [done|].
    split; [done|]. change (used []) with 0. lia.
  - assert (Ed : (w - r + cap) mod cap = used (n :: q)).
    { subst w. destruct (used_mod8 _ Hq).
      replace ((r + used (n :: q)) mod cap - r + cap) with ((r + used (n :: q)) mod cap + (cap - r)) by lia.
      rewrite Zplus_mod_idemp_l. replace (r + used (n :: q) + (cap - r)) with (used (n :: q) + 1 * cap) by lia.
      rewrite Z.mod_add by lia. apply Z.mod_small. lia. }
    rewrite Ed. destruct (Z.ltb_spec (cap - used (n :: q)) need).
    2: { cbn [mbind outcome_bind]. exists r, w. split; [done|]. split; [done|lia]. }
    rewrite (read_head cap m r n (bytes q)) by done. cbn [mbind outcome_bind].
    pose proof (window_tail _ _ _ _ _ _ Hk Hwin) as Ht. pose proof Hq as Hq'. apply list.Forall_cons in Hq' as [Hn Hq'].
    rewrite head_offset by done. rewrite used_cons in Hu, Hul. destruct (used_mod8 q Hq').
    pose proof (next_offset cap r n Hr ltac:(lia)) as Hnx. cbn zeta in Hnx. rewrite Hnx.
    destruct (Z.eqb_spec ((r + zlen (enc n)) mod cap) w) as [Eq|Ne].
    + assert (q = []) as ->.
      { destruct q as [|n' q']; [done|]. exfalso. pose proof (used_pos _ _ Hq').
        destruct Ht as (Ht1 & _ & _ & Ht2 & Ht3 & _). rewrite <- Eq in Ht3.
        set (x := (r + zlen (enc n)) mod cap) in *. pose proof (zlen_nonneg (enc n)).
        rewrite (mod_ring cap (x + _)) in Ht3 by lia. destruct (Z.ltb_spec (x + used (n' :: q')) cap); lia. }
      apply IH; [apply window_start; lia|change (used []) with 0; lia|cbn in *; lia].
    + apply IH; [done|pose proof (zlen_nonneg (enc n)); lia|cbn in Hf; lia].
Qed.

Lemma wp_slice d from n (Q : list Z -> Prop) :
  0 <= from -> 0 <= n -> from + n <= zlen d -> Q (take (Z.to_nat n) (drop (Z.to_nat from) d)) ->
  wp (slice d from n) Q.
Proof. intros Hf Hn Hl HQ. unfold slice. apply wp_bind, wp_require; [lia|]. by apply wp_ret. Qed.

Lemma wp_write_bytes cap m off bs (Q : (Z -> Z) -> Prop) :
  0 <= off -> off + zlen bs <= cap -> (forall m', ring_written cap m off bs m' -> Q m') ->
  wp (write_bytes cap m off bs) Q.
Proof.
  intros Ho Hl HQ. unfold write_bytes. apply wp_bind, wp_require; [lia|]. apply wp_ret. apply HQ.
  by apply blit_ring.
Qed.

Lemma zlen_take (d : list Z) n : 0 <= n <= zlen d -> zlen (take (Z.to_nat n) d) = n.
Proof. intros Hn. unfold zlen in *. rewrite length_take. lia. Qed.

Lemma store_node_ok cap m w n :
  ring_ok cap -> 0 <= w < cap -> w mod 8 = 0 -> 0 <= size n < 2 ^ 62 ->
  evaluate_aligned_size (size n) <= zlen (data n) -> zlen (enc (pad n)) <= cap ->
  wp (store_node cap m w n) (fun res => let '(m', w') := res in
    ring_written cap m w (enc (pad n)) m' /\ w' = (w + zlen (enc (pad n))) mod cap).
Proof.
  intros [Hc Hc8] Hw Hw8 Hs Hd Hl. pose proof (mult8_lt w cap Hw8 Hc8 ltac:(lia)) as Hw'. unfold store_node.
  set (ds := evaluate_aligned_size (size n)) in *.
  assert (Hds : 0 <= ds) by (unfold ds; rewrite align_eq by lia; pose proof (Z.div_pos (size n + 7) 8); lia).
  assert (Ed : data (pad n) = take (Z.to_nat ds) (data n)) by done.
  unfold enc in *. rewrite zlen_app, enc64_len, Ed, zlen_take in * by lia.
  apply wp_bind, wp_write_bytes; [lia|rewrite enc64_len; lia|]. intros m1 H1. apply wp_bind.
  destruct (Z.ltb_spec (cap - (w + 8)) ds) as [Hlt|Hge].
  - set (fr := cap - (w + 8)) in *.
    apply wp_bind, wp_slice; [lia|lia|lia|]. rewrite drop_0.
    apply wp_bind, wp_write_bytes; [lia|rewrite zlen_take by lia; lia|]. intros m2 H2.
    apply wp_bind, wp_slice; [lia|lia|lia|].
    set (d2 := take (Z.to_nat (ds - fr)) (drop (Z.to_nat fr) (data n))).
    assert (Hd2 : zlen d2 = ds - fr) by (unfold d2, zlen in *; rewrite length_take, length_drop; lia).
    apply wp_bind, wp_write_bytes; [lia|lia|]. intros m3 H3. do 2 apply wp_ret.
    assert (Esplit : take (Z.to_nat ds) (data n) = take (Z.to_nat fr) (data n) ++ d2).
    { unfold d2. rewrite take_take_drop. f_equal. lia. }
    rewrite Esplit. split.
    + apply (ring_written_app cap m w _ _ m1); [lia|rewrite enc64_len, zlen_app, zlen_take by lia; lia|done|].
      apply (ring_written_app cap m1 _ _ _ m2); [lia|rewrite zlen_take by lia; lia|by rewrite enc64_len|].
      rewrite enc64_len, zlen_take by lia. apply ring_written_mod.
      replace (w + 8 + fr) with cap by lia. by rewrite Z.mod_same by lia.
    + rewrite mod_ring by lia. repeat zcase; lia.
  - apply wp_bind, wp_slice; [lia|lia|lia|]. rewrite drop_0.
    apply wp_bind, wp_write_bytes; [lia|rewrite zlen_take by lia; lia|]. intros m2 H2. do 2 apply wp_ret. split.
    + apply (ring_written_app cap m w _ _ m1); [lia|rewrite enc64_len, zlen_take by lia; lia|done|by rewrite enc64_len].
    + rewrite mod_ring by lia. repeat zcase; lia.
Qed.

Lemma used_snoc q n : used (q ++ [n]) = used q + zlen (enc n).
Proof. unfold used, bytes. rewrite fmap_app, concat_app, zlen_app. cbn. by rewrite app_nil_r. Qed.

Lemma rep_window q b :
  rep q b -> exists r w,
    match read_ b, write_ b with Some r, Some w => (r, w) | _, _ => (0, 0) end = (r, w) /\
    window (capacity_ b) (buffer_ b) q r w.
Proof.
  intros ([Hc Hc8] & Hq & [(-> & E1 & E2)|(Hne & Hu & r & Hr & Hr8 & E1 & E2 & Hh)]); rewrite E1.
  - exists 0, 0. split; [done|]. apply window_start. lia.
  - rewrite E2. eexists _, _. split; [done|]. done.
Qed.

Lemma used_length q : Forall node_ok q -> 8 * zlen q <= used q.
Proof.
  induction 1 as [|n q Hn _ IH]; [done|]. rewrite used_cons, zlen_cons, enc_len by done.
  destruct Hn. pose proof (Z.div_pos (size n + 7) 8). lia.
Qed.

Definition fits (n : Node) (cap : Z) : Prop :=
  0 <= size n < 2 ^ 62 /\ evaluate_aligned_size (size n) <= zlen (data n) /\
  8 + evaluate_aligned_size (size n) <= cap.

Lemma pad_ok n cap : fits n cap -> node_ok (pad n) /\ zlen (enc (pad n)) = 8 + evaluate_aligned_size (size n).
Proof.
  intros (Hs & Hd & _).
  assert (0 <= evaluate_aligned_size (size n)) by (rewrite align_eq by lia; pose proof (Z.div_pos (size n + 7) 8); lia).
  assert (E : zlen (data (pad n)) = evaluate_aligned_size (size n)) by (apply zlen_take; lia).
  split; [done|]. unfold enc. by rewrite zlen_app, enc64_len, E.
Qed.

Lemma make_room_Forall P cap need q : Forall P q -> Forall P (make_room cap need q).
Proof. induction 1 as [|n q Hn Hq IH]; cbn; [done|]. zcase; [done|by constructor]. Qed.

Lemma rb_push_ok n0 behind n q b :
  n = with_behind n0 behind -> rep q b -> used q < capacity_ b -> fits n (capacity_ b) ->
  wp (push n0 behind b) (fun b' => capacity_ b' = capacity_ b /\
    rep (make_room (capacity_ b) (8 + evaluate_aligned_size (size n)) q ++ [pad n]) b').
Proof.
  intros En Hrep Hu Hfit. pose proof Hrep as (Hk & Hq & _). pose proof Hk as [Hc Hc8].
  destruct (rep_window q b Hrep) as (r & w & E & Hwin). unfold push.
  rewrite E, <- En. replace (size n0) with (size n) by by rewrite En.
  pose proof (pad_ok _ _ Hfit) as [Hpn Hpl]. destruct Hfit as (Hs & Hd & Hfit).
  assert (0 <= evaluate_aligned_size (size n)) by (rewrite align_eq by lia; pose proof (Z.div_pos (size n + 7) 8); lia).
  rewrite u64_id by (unfold is_u64; lia). apply wp_bind, wp_require; [lia|].
  set (need := 8 + evaluate_aligned_size (size n)) in *.
  destruct (drop_loop (capacity_ b) (buffer_ b) need q r w (S (Z.to_nat (capacity_ b)))) as (r' & w' & -> & Hwin' & Hroom);
    [done|lia|done|done|pose proof (used_length q Hq); unfold zlen in *; lia|].
  cbn [mbind outcome_bind]. set (q1 := make_room (capacity_ b) need q) in *.
  destruct (window_mod8 _ _ _ _ _ Hk Hwin') as [Hw8 Hwb]. destruct Hwin' as (Hr & Hr8 & Hq1 & Hu1 & Ew & Hh).
  apply wp_bind. eapply wp_mono; [apply store_node_ok; (done || lia)|]. intros [m' w2] [Hwr ->]. apply wp_ret.
  split; [done|]. split; [done|]. split; [apply Forall_app; split; [by apply make_room_Forall|by constructor]|].
  right. split; [by destruct q1|]. rewrite used_snoc. cbn [capacity_ read_ write_ buffer_]. split; [lia|].
  exists r'. split; [done|]. split; [done|]. split; [done|]. split.
  - f_equal. rewrite Ew, Zplus_mod_idemp_l. f_equal. lia.
  - unfold bytes. rewrite fmap_app, concat_app. cbn. rewrite app_nil_r. subst w'. apply (proj1 (ring_written_mod _ _ _ _ _)) in Hwr.
    apply ring_has_app. split.
    + apply (ring_written_keeps _ (buffer_ b) _ _ (enc (pad n))); [lia| |exact Hwr|exact Hh].
      fold (bytes q1) (used q1). lia.
    + apply (ring_written_has _ (buffer_ b)); [lia|lia|exact Hwr].
Qed.

Lemma wp_read_bytes cap m r bs (Q : list Z -> Prop) n :
  0 < cap -> 0 <= r -> r + zlen bs <= cap -> n = zlen bs -> ring_has cap m r bs -> Q bs -> wp (read_bytes cap m r n) Q.
Proof.
  intros Hc Hr Hl -> Hh HQ. unfold read_bytes. apply wp_bind, wp_require; [lia|]. apply wp_ret.
  by rewrite (bytes_at_ring cap).
Qed.

(** The data of the first node, read in one or two pieces. *)
Lemma read_data cap m r d :
  0 < cap -> 0 <= r <= cap -> zlen d < cap -> ring_has cap m r d ->
  wp (if cap - r <? zlen d then
        d1 ← read_bytes cap m r (cap - r);
        d2 ← read_bytes cap m 0 (zlen d - (cap - r));
        Ok (d1 ++ d2, zlen d - (cap - r))
      else x ← read_bytes cap m r (zlen d); Ok (x, r + zlen d))
     (fun res => fst res = d /\ (if snd res =? cap then 0 else snd res) = (r + zlen d) mod cap).
Proof.
  intros Hc Hr Hl Hh. pose proof (zlen_nonneg d). destruct (Z.ltb_spec (cap - r) (zlen d)).
  - rewrite <- (take_drop (Z.to_nat (cap - r)) d) in Hh. apply ring_has_app in Hh as [H1 H2].
    rewrite zlen_take in H2 by lia. replace (r + (cap - r)) with cap in H2 by lia.
    apply (proj2 (ring_has_mod _ _ _ _)) in H2. rewrite Z.mod_same in H2 by lia.
    assert (Hd : zlen (drop (Z.to_nat (cap - r)) d) = zlen d - (cap - r)) by (unfold zlen in *; rewrite length_drop; lia).
    eapply wp_bind, wp_read_bytes; [done|lia| | |exact H1|]; [rewrite zlen_take by lia; lia..|].
    eapply wp_bind, wp_read_bytes; [done|lia| | |exact H2|]; [lia..|]. apply wp_ret. cbn.
    split; [apply take_drop|]. rewrite mod_ring by lia. repeat zcase; lia.
  - eapply wp_bind, wp_read_bytes; [done|lia| | |exact Hh|]; [lia..|]. apply wp_ret. cbn.
    split; [done|]. destruct (Z.eqb_spec (r + zlen d) cap) as [->|]; [by rewrite Z.mod_same by lia|].
    by rewrite Z.mod_small by lia.
Qed.

Lemma rb_pop_ok n q b :
  rep (n :: q) b -> wp (pop b) (fun '(x, b') => x = unpad n /\ capacity_ b' = capacity_ b /\ rep q b').
Proof.
  intros (Hk & Hq & [(? & _)|(_ & Hu & r & Hr & Hr8 & Er & Ew & Hh)]); [done|].
  pose proof Hk as [Hc Hc8]. pose proof (mult8_lt r _ Hr8 Hc8 ltac:(lia)) as Hr'.
  assert (Hwin : window (capacity_ b) (buffer_ b) (n :: q) r ((r + used (n :: q)) mod capacity_ b)) by done.
  pose proof (window_tail _ _ _ _ _ _ Hk Hwin) as Ht.
  unfold pop. rewrite Er. rewrite (read_head _ _ _ n (bytes q)) by done. cbn [mbind outcome_bind].
  apply list.Forall_cons in Hq as [Hn Hq]. pose proof Hn as [Hs Hd].
  rewrite dec_enc64, <- Hd by lia. unfold bytes, enc in Hh. cbn in Hh. rewrite <- app_assoc in Hh.
  apply ring_has_app in Hh as [_ Hh]. apply ring_has_app in Hh as [Hh _]. rewrite enc64_len in Hh.
  destruct (used_mod8 q Hq) as [_ Hu0].
  assert (El : zlen (enc n) = 8 + zlen (data n)) by (unfold enc; by rewrite zlen_app, enc64_len).
  rewrite used_cons in Hu. apply wp_bind. eapply wp_mono; [apply (read_data _ _ (r + 8)); (done || lia)|].
  intros [d r'] [Ed E]. cbn [fst snd] in Ed, E. subst d. rewrite E, Ew. replace (r + 8 + zlen (data n)) with (r + zlen (enc n)) by lia.
  destruct Ht as (Ht1 & Ht2 & _ & Ht4 & Ht5 & Ht6). set (x := (r + zlen (enc n)) mod capacity_ b) in *.
  case_bool_decide as Eb; apply wp_ret; (split; [done|]; split; [done|]; split; [done|]; split; [done|]).
  - left. split; [|done]. destruct q as [|n' q']; [done|]. pose proof (used_pos _ _ Hq). exfalso.
    injection Eb as Eb. rewrite <- Eb in Ht5. pose proof (zlen_nonneg (data n)).
    rewrite (mod_ring _ (x + _)) in Ht5 by lia. destruct (Z.ltb_spec (x + used (n' :: q')) (capacity_ b)); lia.
  - right. cbn [capacity_ read_ write_ buffer_]. split; [|split; [done|]].
    + intros ->. apply Eb. f_equal. rewrite Ht5. change (used []) with 0. rewrite Z.add_0_r. symmetry. by apply Z.mod_small.
    + exists x. split; [done|]. split; [done|]. split; [done|]. split; [by rewrite Ht5|done].
Qed.

(** * Refinement of a bounded queue that drops its oldest nodes *)

Inductive ring_op := RPush (n : Node) (behind : list Z) | RPop.

(** The nodes returned by the calls of [pop], in order. *)
Fixpoint run (ops : list ring_op) (b : RingBuffer) : outcome (list Node * RingBuffer) :=
  match ops with
  | [] => Ok ([], b)
  | RPush n behind :: r => b ← push n behind b; run r b
  | RPop :: r => '(n, b) ← pop b; '(out, b) ← run r b; Ok (n :: out, b)
  end.

(** The vector holds [size] bytes, the size rounded up to 8 can be read, and the node
    is not larger than the buffer. *)
Definition fitsb (n : Node) (behind : list Z) (cap : Z) : bool :=
  (0 <=? size n) && (size n <? 2 ^ 62) && (size n <=? zlen (data n)) &&
  (evaluate_aligned_size (size n) <=? zlen (data n ++ behind)) &&
  (8 + evaluate_aligned_size (size n) <=? cap).

(** A node as it lies in the buffer; what [pop] makes of it does not depend on the
    bytes behind the vector. *)
Definition stored (n : Node) (behind : list Z) : Node := pad (with_behind n behind).

Lemma stored_unpad n behind cap :
  fitsb n behind cap = true -> unpad (stored n behind) = MkNode (size n) (take (Z.to_nat (size n)) (data n)).
Proof.
  intros Hf. unfold fitsb in Hf. unfold unpad, stored, pad, with_behind. cbn [size data]. f_equal.
  assert (Hs : size n <= evaluate_aligned_size (size n)).
  { rewrite align_eq by lia. pose proof (Z.div_mod (size n + 7) 8). pose proof (Z.mod_pos_bound (size n + 7) 8). lia. }
  rewrite take_take, Nat.min_l by lia. apply take_app_le. unfold zlen in Hf. lia.
Qed.

(** The abstract queue; a [push] on an exactly full queue is not allowed. *)
Fixpoint spec_run (cap : Z) (ops : list ring_op) (q : list Node) : option (list Node * list Node) :=
  match ops with
  | [] => Some ([], q)
  | RPush n behind :: r =>
      if fitsb n behind cap && (used q <? cap)
      then spec_run cap r (make_room cap (8 + evaluate_aligned_size (size n)) q ++ [stored n behind]) else None
  | RPop :: r =>
      match q with
      | [] => res ← spec_run cap r []; Some (MkNode 0 [] :: res.1, res.2)
      | n :: q => res ← spec_run cap r q; Some (unpad n :: res.1, res.2)
      end
  end.

Lemma rb_run_ok ops cap q b out q' :
  rep q b -> capacity_ b = cap -> spec_run cap ops q = Some (out, q') ->
  wp (run ops b) (fun res => res.1 = out /\ capacity_ res.2 = cap /\ rep q' res.2).
Proof.
  revert q b out. induction ops as [|[n behind|] r IH]; intros q b out Hrep Hcap; cbn [spec_run run].
  - intros [= <- <-]. by apply wp_ret.
  - destruct (fitsb n behind cap && (used q <? cap)) eqn:E; [|done]. apply andb_true_iff in E as [Hf Hu]. intros Hs.
    apply wp_bind. eapply wp_mono; [apply (rb_push_ok n behind (with_behind n behind) q b); [done|done|lia|unfold fits, fitsb in *; cbn [size data with_behind]; lia]|].
    intros b' [Hc' Hrep']. rewrite Hcap in *. by eapply IH.
  - destruct q as [|n q].
    + pose proof Hrep as (_ & _ & [(_ & Er & _)|(? & _)]); [|done]. unfold pop. rewrite Er. cbn [mbind outcome_bind].
      destruct (spec_run cap r []) as [[o q2]|] eqn:E; [|done]. cbn. intros [= <- <-].
      apply wp_bind. eapply wp_mono; [by eapply IH|]. intros [o' b'] (E1 & E2 & E3). apply wp_ret. cbn in *. by subst o'.
    + destruct (spec_run cap r q) as [[o q2]|] eqn:E; [|done]. cbn. intros [= <- <-].
      apply wp_bind. eapply wp_mono; [by apply (rb_pop_ok n q)|]. intros [x b1] (-> & Hc1 & Hrep1). rewrite Hcap in *.
      apply wp_bind. eapply wp_mono; [by eapply IH|]. intros [o' b'] (E1 & E2 & E3). apply wp_ret. cbn in *. by subst o'.
Qed.

(** C16: after init the ring buffer refines a bounded queue that drops its oldest nodes
    to make room: every sequence of pushes and pops returns the nodes of that queue in
    order, across wrap-around. A pushed node holds its size in bytes and is not larger
    than the buffer, the bytes up to the next multiple of 8, which push also copies, can
    be read behind its vector and do not matter, and no push meets an exactly full
    buffer. *)
Theorem ring_buffer_refines_queue (n : Z) (m : Z -> Z) (b : RingBuffer) (ops : list ring_op) out q :
  0 < n < 2 ^ 61 -> init n (Some m) = (true, Some b) ->
  spec_run (capacity_ b) ops [] = Some (out, q) ->
  exists b', run ops b = Ok (out, b') /\ rep q b'.
Proof.
  intros Hn [= <-] Hs. cbn [capacity_] in Hs.
  assert (Hrep : rep [] (MkRing (evaluate_aligned_size n) m None None)).
  { split; [|split; [done|by left]]. cbn. rewrite align_eq by lia.
    pose proof (Z.div_mod (n + 7) 8). pose proof (Z.mod_pos_bound (n + 7) 8).
    split; [lia|]. rewrite Z.mul_comm. by apply Z.mod_mul. }
  destruct (rb_run_ok ops _ [] _ out q Hrep eq_refl Hs) as ([o b'] & E & E1 & _ & Hr). cbn in *. subst o. by exists b'.
Qed.

Definition node8 (x : Z) : Node := MkNode 8 (replicate 8 x).
Definition node5 (x : Z) : Node := MkNode 5 (replicate 5 x).

(** The nodes of the unit test have five bytes. *)
Lemma ring_buffer_refines_queue_witness :
  exists b', run [RPush (node5 1) [7; 7; 7]; RPush (node5 2) [0; 9; 9]; RPush (node5 3) [1; 2; 3; 4]; RPop; RPop;
                  RPush (node8 4) []; RPop; RPop]
      (MkRing 40 (fun _ => 0) None None) = Ok ([node5 2; node5 3; node8 4; MkNode 0 []], b') /\ rep [] b'.
Proof.
  apply (ring_buffer_refines_queue 40 (fun _ => 0)); [lia|reflexivity|].
  vm_compute. reflexivity.
Defined.

(** with a buffer that two nodes fill exactly, a third push does not drop the
    oldest node: it overwrites it, the next pop returns the third node and the second
    one is lost. *)
Theorem ring_buffer_full_loses_node :
  exists b, run [RPush (node8 1) []; RPush (node8 2) []; RPush (node8 3) []; RPop; RPop]
      (MkRing 32 (fun _ => 0) None None) = Ok ([node8 3; MkNode 0 []], b).
Proof. eexists. vm_compute. reflexivity. Qed.
