(* ===== verification/UnionFind.v ===== *)
(** The disjoint-set forest of cpp/datastructure/search/UFS.h: path compression
    and union by size.

    The forest refines the connectivity of the edges given to [FindAndUnit]:
    two elements have the same root exactly when a path of edges joins them. *)

From S2P Require Import Prelude.

Record UF := MkUF {
  count_ : Z;                (* the number of sets *)
  father_ : list Z;
  size_ : list Z             (* the size of each set, at its root *)
}.

(** The constructor; [std::iota] fills [father_] with 0, 1, ... *)
Definition new_uf (n : Z) : UF := MkUF n (seqZ 0 n) (zreplicate n 1).

Definition with_father (u : UF) (f : list Z) : UF := MkUF (count_ u) f (size_ u).

(** The depth of the recursion is at most the number of elements. *)
Fixpoint FindAndSet_fuel (fuel : nat) (v : Z) (u : UF) : outcome (Z * UF) :=
  match fuel with
  | O => Fault OutOfFuel
  | S k =>
      p ← vget (father_ u) v;
      if p =? v then Ok (v, u)
      else
        '(r, u) ← FindAndSet_fuel k p u;
        f ← vset (father_ u) v r;
        Ok (r, with_father u f)
  end.

Definition FindAndSet (v : Z) (u : UF) : outcome (Z * UF) :=
  FindAndSet_fuel (S (length (father_ u))) v u.

Definition Unit (x y : Z) (u : UF) : outcome UF :=
  sx ← vget (size_ u) x; sy ← vget (size_ u) y;
  let '(x, y) := if sx <? sy then (y, x) else (x, y) in
  f ← vset (father_ u) y x;
  sx ← vget (size_ u) x; sy ← vget (size_ u) y;
  s ← vset (size_ u) x (sx + sy);
  Ok (MkUF (count_ u - 1) f s).

Definition FindAndUnit (x y : Z) (u : UF) : outcome (bool * UF) :=
  '(a, u) ← FindAndSet x u;
  '(b, u) ← FindAndSet y u;
  if negb (a =? b) then u ← Unit a b u; Ok (true, u) else Ok (false, u).

(** [FindAndUnit] over a list of edges; the results say which edges joined two
    sets. *)
Fixpoint unite_all (es : list (Z * Z)) (u : UF) : outcome (list bool * UF) :=
  match es with
  | [] => Ok ([], u)
  | (x, y) :: r => '(b, u) ← FindAndUnit x y u; '(bs, u) ← unite_all r u; Ok (b :: bs, u)
  end.

(** * The specification: connectivity *)

Inductive connected (es : list (Z * Z)) : Z -> Z -> Prop :=
| conn_refl a : connected es a a
| conn_edge a b : (a, b) ∈ es -> connected es a b
| conn_sym a b : connected es a b -> connected es b a
| conn_trans a b c : connected es a b -> connected es b c -> connected es a c.

Lemma connected_mono es es' a b : (forall e, e ∈ es -> e ∈ es') -> connected es a b -> connected es' a b.
Proof. intros He. induction 1; [constructor|constructor; auto|by constructor|by eapply conn_trans]. Qed.

(** * The invariant

    [rho] is the list of representatives: [rho] at [v] is the root of [v]. *)

Definition root_of (rho : list Z) (v r : Z) : Prop := zget rho v = Some r.

(** The number of elements below [n] that satisfy [P]. *)
Definition count (n : Z) (P : Z -> Prop) `{forall v, Decision (P v)} : Z := zlen (filter P (seqZ 0 n)).

Definition members (rho : list Z) (r : Z) : Z := count (zlen rho) (fun v => zget rho v = Some r).

Definition roots (rho : list Z) : Z := count (zlen rho) (fun v => zget rho v = Some v).

Record forest (rho : list Z) (u : UF) : Prop := {
  f_len : zlen (father_ u) = zlen rho;
  s_len : zlen (size_ u) = zlen rho;
  f_root : forall v p, zget (father_ u) v = Some p -> zget rho p = zget rho v;
  f_self : forall v, 0 <= v < zlen rho -> zget (father_ u) v = Some v <-> zget rho v = Some v;
  f_up : forall v p s t, zget (father_ u) v = Some p -> p <> v ->
    zget (size_ u) v = Some s -> zget (size_ u) p = Some t -> s < t;
  f_size : forall r s, zget rho r = Some r -> zget (size_ u) r = Some s -> s = members rho r;
  f_bound : forall v s, zget (size_ u) v = Some s -> 1 <= s <= zlen rho;
  f_count : count_ u = roots rho;
  f_rho : forall v r, zget rho v = Some r -> zget rho r = Some r
}.

Section Counting.
Implicit Types P Q R : Z -> Prop.

Lemma count_split n P Q R `{forall v, Decision (P v)} `{forall v, Decision (Q v)} `{forall v, Decision (R v)} :
  (forall v, 0 <= v < n -> P v <-> Q v \/ R v) -> (forall v, 0 <= v < n -> Q v -> R v -> False) ->
  count n P = count n Q + count n R.
Proof.
  intros Hor Hdis. unfold count.
  assert (Hin : Forall (fun v => 0 <= v < n) (seqZ 0 n)) by (apply list.Forall_forall; intros v; rewrite elem_of_seqZ; lia).
  induction Hin as [|v l Hv _ IH]; [done|]. rewrite !filter_cons.
  specialize (Hor v Hv). specialize (Hdis v Hv).
  destruct (decide (P v)), (decide (Q v)), (decide (R v)); rewrite ?zlen_cons; tauto || lia.
Qed.

Lemma count_ext n P Q `{forall v, Decision (P v)} `{forall v, Decision (Q v)} :
  (forall v, 0 <= v < n -> P v <-> Q v) -> count n P = count n Q.
Proof.
  intros Heq. rewrite (count_split n P Q (fun _ => False)) by (intros v Hv; specialize (Heq v Hv); tauto).
  unfold count at 2. replace (filter _ _) with (@nil Z); [change (zlen []) with 0; lia|].
  induction (seqZ 0 n) as [|v l IH]; [done|]. by rewrite filter_cons_False by tauto.
Qed.

Lemma count_one n r : 0 <= r < n -> count n (fun v => v = r) = 1.
Proof.
  intros Hr. unfold count. pose proof (NoDup_seqZ 0 n) as Hnd.
  assert (Hin : r ∈ seqZ 0 n) by (apply elem_of_seqZ; lia).
  induction Hnd as [|v l Hv Hnd IH]; [by apply not_elem_of_nil in Hin|].
  apply elem_of_cons in Hin as [->|Hin].
  - rewrite filter_cons_True by done. rewrite zlen_cons.
    replace (filter _ l) with (@nil Z); [done|]. clear -Hv. induction l as [|a l IH]; [done|].
    apply not_elem_of_cons in Hv as [Ha Hl]. rewrite filter_cons_False by congruence. auto.
  - rewrite filter_cons_False by (intros ->; done). auto.
Qed.

Lemma count_all n P `{forall v, Decision (P v)} : 0 <= n -> (forall v, 0 <= v < n -> P v) -> count n P = n.
Proof.
  intros Hn HP. unfold count. rewrite <- (zlen_seqZ n) at 2 by done.
  assert (Hin : Forall P (seqZ 0 n)) by (apply list.Forall_forall; intros v; rewrite elem_of_seqZ; intros; apply HP; lia).
  induction Hin as [|v l Hv _ IH]; [done|]. rewrite filter_cons_True, !zlen_cons by done. lia.
Qed.

Lemma count_le n P `{forall v, Decision (P v)} : 0 <= n -> 0 <= count n P <= n.
Proof.
  intros Hn. split; [apply zlen_nonneg|]. unfold count. rewrite <- (zlen_seqZ n) at 2 by done.
  pose proof (length_filter P (seqZ 0 n)). unfold zlen. lia.
Qed.
End Counting.

Lemma forest_start n : 0 <= n -> forest (seqZ 0 n) (new_uf n).
Proof.
  intros Hn. pose proof (zlen_seqZ n Hn) as Hz.
  assert (Hid : forall v p, zget (seqZ 0 n) v = Some p -> p = v).
  { intros v p Hp. pose proof (zget_bounds _ _ _ Hp). rewrite zget_seqZ in Hp by lia. congruence. }
  assert (Hone : forall v s, zget (zreplicate n 1) v = Some s -> s = 1).
  { intros v s Hs. pose proof (zget_bounds _ _ _ Hs). rewrite zlen_replicate in *. rewrite zget_replicate in Hs by lia. congruence. }
  constructor; cbn [father_ size_ count_ new_uf].
  - done.
  - rewrite zlen_replicate. lia.
  - intros v p Hp. by rewrite (Hid v p).
  - done.
  - intros v p s t Hp Hne. by rewrite (Hid v p) in Hne.
  - intros r s Hr Hs. apply Hone in Hs as ->. unfold members. pose proof (zget_bounds _ _ _ Hr).
    rewrite Hz in *. rewrite <- (count_one n r) by lia. apply count_ext. intros v Hv.
    rewrite zget_seqZ by done. split; congruence.
  - intros v s Hs. pose proof (zget_bounds _ _ _ Hs). apply Hone in Hs as ->. rewrite zlen_replicate in *. lia.
  - unfold roots. rewrite Hz. symmetry. apply count_all; [done|]. apply zget_seqZ.
  - intros v r Hr. by rewrite (Hid v r) at 1.
Qed.

(** * Finding the root *)

Lemma father_in_range rho u v p : forest rho u -> zget (father_ u) v = Some p -> 0 <= p < zlen rho.
Proof.
  intros F Hp. pose proof (f_root _ _ F _ _ Hp) as Hr. pose proof (zget_bounds _ _ _ Hp) as Hv.
  rewrite (f_len _ _ F) in Hv. destruct (zget_in_range rho v Hv) as [r Er]. rewrite Er in Hr.
  by eapply zget_bounds.
Qed.

(** A non-root has a smaller size than its root. *)
Lemma size_below_root rho u v r s t :
  forest rho u -> zget rho v = Some r -> v <> r ->
  zget (size_ u) v = Some s -> zget (size_ u) r = Some t -> s < t.
Proof.
  intros F. remember (Z.to_nat (zlen rho - s)) as k eqn:Ek. revert v s Ek.
  induction k as [k IH] using lt_wf_ind. intros v s -> Hr Hne Hs Ht.
  pose proof (zget_bounds _ _ _ Hr) as Hv.
  destruct (zget_in_range (father_ u) v) as [p Hp]; [rewrite (f_len _ _ F); lia|].
  assert (Hpv : p <> v). { intros ->. apply (f_self _ _ F) in Hp; [congruence|done]. }
  pose proof (father_in_range _ _ _ _ F Hp) as Hpr.
  destruct (zget_in_range (size_ u) p) as [sp Hsp]; [rewrite (s_len _ _ F); lia|].
  pose proof (f_up _ _ F _ _ _ _ Hp Hpv Hs Hsp) as Hlt.
  destruct (Z.eq_dec p r) as [->|Hpne]; [congruence|].
  pose proof (f_bound _ _ F _ _ Hsp). pose proof (f_bound _ _ F _ _ Hs).
  transitivity sp; [done|]. eapply (IH (Z.to_nat (zlen rho - sp))); [lia|done| |done|done|done].
  by rewrite (f_root _ _ F _ _ Hp).
Qed.

(** Path compression keeps the forest. *)
Lemma forest_compress rho u v r :
  forest rho u -> zget rho v = Some r -> v <> r -> forest rho (with_father u (zset (father_ u) v r)).
Proof.
  intros F Hr Hne. pose proof (zget_bounds _ _ _ Hr) as Hv. pose proof (f_rho _ _ F _ _ Hr) as Hrr.
  constructor; cbn [father_ size_ count_ with_father].
  - rewrite zlen_zset. apply (f_len _ _ F).
  - apply (s_len _ _ F).
  - intros a p. rewrite zget_zset by (rewrite (f_len _ _ F); lia). case_decide; [|apply (f_root _ _ F)].
    intros [= <-]. subst a. congruence.
  - intros a Ha. rewrite zget_zset by (rewrite (f_len _ _ F); lia). case_decide; [|by apply (f_self _ _ F)].
    subst a. split; congruence.
  - intros a p s t. rewrite zget_zset by (rewrite (f_len _ _ F); lia). case_decide; [|apply (f_up _ _ F)].
    intros [= <-] Hra Hs Ht. subst a. exact (size_below_root _ _ _ _ _ _ F Hr Hne Hs Ht).
  - apply (f_size _ _ F).
  - apply (f_bound _ _ F).
  - apply (f_count _ _ F).
  - apply (f_rho _ _ F).
Qed.

Lemma find_ok rho u v r f s :
  forest rho u -> zget rho v = Some r -> zget (size_ u) v = Some s -> zlen rho - s < Z.of_nat f ->
  wp (FindAndSet_fuel f v u) (fun res => res.1 = r /\ forest rho res.2 /\ size_ res.2 = size_ u).
Proof.
  revert v s u. induction f as [|f IH]; intros v s u F Hr Hs Hf.
  { pose proof (f_bound _ _ F _ _ Hs). lia. }
  pose proof (zget_bounds _ _ _ Hr) as Hv.
  destruct (zget_in_range (father_ u) v) as [p Hp]; [rewrite (f_len _ _ F); lia|].
  cbn [FindAndSet_fuel]. rewrite (vget_some _ _ _ Hp). cbn [mbind outcome_bind].
  destruct (Z.eqb_spec p v) as [->|Hpv].
  { apply wp_ret. apply (f_self _ _ F) in Hp; [|done]. split; [cbn; congruence|done]. }
  pose proof (father_in_range _ _ _ _ F Hp) as Hpr.
  destruct (zget_in_range (size_ u) p) as [sp Hsp]; [rewrite (s_len _ _ F); lia|].
  pose proof (f_up _ _ F _ _ _ _ Hp Hpv Hs Hsp) as Hlt.
  assert (Hvr : v <> r). { intros <-. apply (f_self _ _ F) in Hr; [congruence|done]. }
  apply wp_bind. eapply wp_mono; [apply (IH p sp u F); [|done|lia]|].
  { by rewrite (f_root _ _ F _ _ Hp). }
  intros [r' u'] (E & F' & Es). cbn in *. subst r'.
  apply wp_bind, wp_vset; [rewrite (f_len _ _ F'); lia|]. apply wp_ret. cbn.
  split; [done|]. split; [by apply forest_compress|done].
Qed.

Lemma FindAndSet_ok rho u v :
  forest rho u -> 0 <= v < zlen rho ->
  wp (FindAndSet v u) (fun res => zget rho v = Some res.1 /\ forest rho res.2 /\ size_ res.2 = size_ u).
Proof.
  intros F Hv. destruct (zget_in_range rho v Hv) as [r Hr].
  destruct (zget_in_range (size_ u) v) as [s Hs]; [rewrite (s_len _ _ F); lia|].
  eapply wp_mono; [eapply (find_ok rho u v r _ s F Hr Hs)|].
  - pose proof (f_bound _ _ F _ _ Hs). pose proof (f_len _ _ F). unfold zlen in *. lia.
  - intros [r' u'] (E & F' & Es). cbn in *. by subst r'.
Qed.

(** * Joining two roots *)

(** The representatives after [y] is hung below [x]. *)
Definition merged (rho : list Z) (x y : Z) : list Z := (fun r => if decide (r = y) then x else r) <$> rho.

Lemma zget_merged rho x y v :
  zget (merged rho x y) v = (fun r => if decide (r = y) then x else r) <$> zget rho v.
Proof. unfold merged, zget. destruct (v <? 0); [done|]. apply list_lookup_fmap. Qed.

Lemma zlen_merged rho x y : zlen (merged rho x y) = zlen rho.
Proof. unfold merged, zlen. by rewrite length_fmap. Qed.

Section Union.
Context (rho : list Z) (u : UF) (x y sx sy : Z).
Hypothesis (F : forest rho u) (Hx : zget rho x = Some x) (Hy : zget rho y = Some y) (Hxy : x <> y).
Hypothesis (Hsx : zget (size_ u) x = Some sx) (Hsy : zget (size_ u) y = Some sy).

Definition joined : UF := MkUF (count_ u - 1) (zset (father_ u) y x) (zset (size_ u) x (sx + sy)).

Lemma root_range r : zget rho r = Some r -> 0 <= r < zlen rho.
Proof. apply zget_bounds. Qed.

Lemma merged_root v : zget (merged rho x y) v = Some v <-> zget rho v = Some v /\ v <> y.
Proof.
  rewrite zget_merged. destruct (zget rho v) as [r|] eqn:E; cbn; [|split; [done|by intros [? _]]].
  case_decide; split; intros ?; destruct_and?; simplify_eq; try congruence; done.
Qed.

Lemma members_x : members (merged rho x y) x = members rho x + members rho y.
Proof.
  unfold members. rewrite zlen_merged. apply count_split.
  - intros v Hv. rewrite zget_merged. destruct (zget rho v) as [r|]; cbn; [|split; [done|by intros [?|?]]].
    case_decide; split; intros; destruct_or?; simplify_eq; auto.
  - intros v Hv H1 H2. congruence.
Qed.

Lemma members_other r : r <> x -> r <> y -> members (merged rho x y) r = members rho r.
Proof.
  intros Hrx Hry. unfold members. rewrite zlen_merged. apply count_ext. intros v Hv.
  rewrite zget_merged. destruct (zget rho v) as [a|]; cbn; [|done]. case_decide; split; intros; simplify_eq; done.
Qed.

Lemma sizes_sum : sx + sy = members (merged rho x y) x.
Proof. rewrite members_x. by rewrite (f_size _ _ F _ _ Hx Hsx), (f_size _ _ F _ _ Hy Hsy). Qed.

Lemma forest_union : forest (merged rho x y) joined.
Proof.
  pose proof (root_range _ Hx) as Bx. pose proof (root_range _ Hy) as By.
  pose proof (f_bound _ _ F _ _ Hsx). pose proof (f_bound _ _ F _ _ Hsy).
  assert (Hfx : zget (father_ u) x = Some x) by by apply (f_self _ _ F).
  assert (Hzf : forall v, zget (zset (father_ u) y x) v = if decide (v = y) then Some x else zget (father_ u) v).
  { intros v. rewrite zget_zset by (rewrite (f_len _ _ F); lia). repeat case_decide; congruence. }
  assert (Hzs : forall v, zget (zset (size_ u) x (sx + sy)) v = if decide (v = x) then Some (sx + sy) else zget (size_ u) v).
  { intros v. rewrite zget_zset by (rewrite (s_len _ _ F); lia). repeat case_decide; congruence. }
  constructor; cbn [father_ size_ count_ joined].
  - rewrite zlen_zset, zlen_merged. apply (f_len _ _ F).
  - rewrite zlen_zset, zlen_merged. apply (s_len _ _ F).
  - intros v p. rewrite Hzf, !zget_merged. case_decide; [|intros Hp; by rewrite (f_root _ _ F _ _ Hp)].
    intros [= <-]. subst v. rewrite Hx, Hy. cbn. by rewrite decide_False, decide_True.
  - intros v Hv. rewrite zlen_merged in Hv. rewrite Hzf, merged_root. case_decide; [subst v; split; [congruence|by intros [_ ?]]|].
    rewrite (f_self _ _ F) by done. tauto.
  - intros v p s t. rewrite Hzf, !Hzs. destruct (decide (v = y)) as [->|Hvy].
    + intros [= <-] _. rewrite decide_False, decide_True by congruence. intros Hs [= <-]. simplify_eq. lia.
    + intros Hp Hne. destruct (decide (v = x)) as [->|Hvx]; [congruence|]. intros Hs.
      destruct (decide (p = x)) as [->|]; [|by apply (f_up _ _ F v p)].
      intros [= <-]. pose proof (f_up _ _ F _ _ _ _ Hp Hne Hs Hsx). lia.
  - intros r s Hr. apply merged_root in Hr as [Hr Hry]. rewrite Hzs. case_decide.
    + intros [= <-]. subst r. apply sizes_sum.
    + intros Hs. rewrite members_other by done. by apply (f_size _ _ F).
  - intros v s. rewrite Hzs, zlen_merged. case_decide; [|apply (f_bound _ _ F)]. intros [= <-]. split; [lia|].
    rewrite sizes_sum. unfold members. rewrite zlen_merged. apply count_le. lia.
  - rewrite (f_count _ _ F). unfold roots. rewrite zlen_merged.
    rewrite (count_split (zlen rho) (fun v => zget rho v = Some v) (fun v => zget (merged rho x y) v = Some v) (fun v => v = y)).
    + rewrite (count_one _ y) by lia. lia.
    + intros v Hv. rewrite merged_root. destruct (decide (v = y)) as [->|]; tauto.
    + intros v Hv. rewrite merged_root. tauto.
  - intros v r. rewrite merged_root, zget_merged. destruct (zget rho v) as [a|] eqn:E; [|done]. cbn. intros [= <-].
    case_decide; [by split|]. split; [by apply (f_rho _ _ F v)|done].
Qed.
End Union.

Lemma Unit_ok rho u a b :
  forest rho u -> zget rho a = Some a -> zget rho b = Some b -> a <> b ->
  wp (Unit a b u) (fun u' => count_ u' = count_ u - 1 /\
    exists x y, (x = a /\ y = b \/ x = b /\ y = a) /\ forest (merged rho x y) u').
Proof.
  intros F Ha Hb Hab. pose proof (zget_bounds _ _ _ Ha). pose proof (zget_bounds _ _ _ Hb).
  destruct (zget_in_range (size_ u) a) as [sa Hsa]; [rewrite (s_len _ _ F); lia|].
  destruct (zget_in_range (size_ u) b) as [sb Hsb]; [rewrite (s_len _ _ F); lia|].
  unfold Unit. rewrite (vget_some _ _ _ Hsa), (vget_some _ _ _ Hsb). cbn [mbind outcome_bind].
  destruct (sa <? sb); (apply wp_bind, wp_vset; [rewrite (f_len _ _ F); lia|]);
    rewrite (vget_some _ _ _ Hsa), (vget_some _ _ _ Hsb); cbn [mbind outcome_bind];
    (apply wp_bind, wp_vset; [rewrite (s_len _ _ F); lia|]); apply wp_ret.
  - split; [done|]. exists b, a. split; [tauto|]. by apply forest_union.
  - split; [done|]. exists a, b. split; [tauto|]. by apply forest_union.
Qed.

(** * Connectivity *)

Definition represents (es : list (Z * Z)) (rho : list Z) : Prop :=
  forall a b, 0 <= a < zlen rho -> 0 <= b < zlen rho -> zget rho a = zget rho b <-> connected es a b.

Definition in_range (n : Z) (es : list (Z * Z)) : Prop :=
  Forall (fun e => 0 <= e.1 < n /\ 0 <= e.2 < n) es.

Lemma connected_range n es a b : in_range n es -> connected es a b -> 0 <= a < n <-> 0 <= b < n.
Proof.
  intros He. unfold in_range in He. rewrite list.Forall_forall in He.
  induction 1 as [|a b Hab| |]; [done| |tauto|tauto]. specialize (He _ Hab). cbn in He. tauto.
Qed.

(** Joining the sets of [a] and [b] adds the edge between them. *)
Lemma represents_join n es rho a b x y :
  zlen rho = n -> in_range n es -> 0 <= a < n -> 0 <= b < n -> represents es rho ->
  (zget rho a = Some x /\ zget rho b = Some y \/ zget rho b = Some x /\ zget rho a = Some y) ->
  represents (es ++ [(a, b)]) (merged rho x y).
Proof.
  intros Hn He Ha Hb Hrep Hxy c d. rewrite zlen_merged. intros Hc Hd. split.
  - rewrite !zget_merged.
    destruct (zget_in_range rho c Hc) as [rc Ec], (zget_in_range rho d Hd) as [rd Ed]. rewrite Ec, Ed. cbn.
    assert (Hmono : forall p q, 0 <= p < n -> 0 <= q < n -> zget rho p = zget rho q -> connected (es ++ [(a, b)]) p q).
    { intros p q Hp Hq E. apply (connected_mono es); [intros; apply elem_of_app; by left|]. apply Hrep; (done || lia). }
    assert (Hab : connected (es ++ [(a, b)]) a b) by (apply conn_edge, elem_of_app; right; by apply list_elem_of_singleton).
    assert (Hjoin : forall p q, 0 <= p < n -> 0 <= q < n -> zget rho p = Some y -> zget rho q = Some x ->
      connected (es ++ [(a, b)]) p q).
    { intros p q Hp Hq Ep Eq. destruct Hxy as [[E1 E2]|[E1 E2]].
      - eapply conn_trans; [apply (Hmono p b); (done || congruence)|]. eapply conn_trans; [apply conn_sym, Hab|].
        apply Hmono; (done || congruence).
      - eapply conn_trans; [apply (Hmono p a); (done || congruence)|]. eapply conn_trans; [apply Hab|].
        apply Hmono; (done || congruence). }
    rewrite Hn in Hc, Hd. repeat case_decide; intros E; simplify_eq.
    + apply Hmono; (done || congruence).
    + by apply Hjoin.
    + apply conn_sym. by apply Hjoin.
    + apply Hmono; (done || congruence).
  - clear Hc Hd. unfold in_range in He. rewrite list.Forall_forall in He. rewrite !zget_merged.
    induction 1 as [|c d Hcd| |]; [done| |done|congruence].
    apply elem_of_app in Hcd as [Hcd|Hcd%list_elem_of_singleton].
    + specialize (He _ Hcd). cbn in He. assert (E : zget rho c = zget rho d) by (apply Hrep; [lia|lia|by constructor]).
      by rewrite E.
    + injection Hcd as -> ->. destruct Hxy as [[-> ->]|[-> ->]]; cbn; repeat case_decide; congruence.
Qed.

Lemma connected_redundant es a b p q :
  connected es a b -> connected (es ++ [(a, b)]) p q -> connected es p q.
Proof.
  intros Hab. induction 1 as [|p q Hpq| |]; [constructor| |by apply conn_sym|by eapply conn_trans].
  apply elem_of_app in Hpq as [Hpq|Hpq%list_elem_of_singleton]; [by apply conn_edge|]. by injection Hpq as -> ->.
Qed.

Lemma FindAndUnit_ok n es rho u a b :
  zlen rho = n -> in_range n es -> 0 <= a < n -> 0 <= b < n -> forest rho u -> represents es rho ->
  wp (FindAndUnit a b u) (fun res => (res.1 = false <-> connected es a b) /\
    count_ res.2 = count_ u - (if res.1 then 1 else 0) /\
    exists rho', zlen rho' = n /\ forest rho' res.2 /\ represents (es ++ [(a, b)]) rho').
Proof.
  intros Hn He Ha Hb F Hrep. unfold FindAndUnit.
  apply wp_bind. eapply wp_mono; [apply (FindAndSet_ok rho); [done|lia]|]. intros [ra u1] (Ea & F1 & _).
  apply wp_bind. eapply wp_mono; [apply (FindAndSet_ok rho); [done|lia]|]. intros [rb u2] (Eb & F2 & _).
  cbn [fst snd] in *. assert (Ec : count_ u2 = count_ u) by by rewrite (f_count _ _ F2), (f_count _ _ F).
  destruct (Z.eqb_spec ra rb) as [->|Hne]; cbn [negb].
  - apply wp_ret. cbn. assert (Hc : connected es a b) by (apply Hrep; (lia || congruence)).
    split; [done|]. split; [lia|]. exists rho. split; [done|]. split; [done|]. intros c d Hcr Hdr.
    rewrite (Hrep c d) by done.
    split; [apply connected_mono; intros; apply elem_of_app; by left|by apply connected_redundant].
  - apply wp_bind. eapply wp_mono; [apply (Unit_ok rho); [done| | |done]|].
    1, 2: eapply (f_rho _ _ F); eassumption.
    intros u3 (Ec3 & x & y & Hxy & F3). apply wp_ret. cbn. split.
    { split; [done|]. intros Hc. apply Hrep in Hc; [congruence|lia|lia]. }
    split; [lia|]. exists (merged rho x y). split; [by rewrite zlen_merged|]. split; [done|].
    eapply represents_join; try eassumption. destruct Hxy as [[-> ->]|[-> ->]]; [by left|by right].
Qed.

(** [bs] tells which edges joined two sets. *)
Fixpoint joins (seen : list (Z * Z)) (es : list (Z * Z)) (bs : list bool) : Prop :=
  match es, bs with
  | [], [] => True
  | (x, y) :: es, b :: bs => (b = false <-> connected seen x y) /\ joins (seen ++ [(x, y)]) es bs
  | _, _ => False
  end.

Lemma unite_all_ok n es seen rho u :
  zlen rho = n -> in_range n seen -> in_range n es -> forest rho u -> represents seen rho ->
  wp (unite_all es u) (fun res => joins seen es res.1 /\
    count_ res.2 = count_ u - zlen (filter (fun b => b = true) res.1) /\
    exists rho', zlen rho' = n /\ forest rho' res.2 /\ represents (seen ++ es) rho').
Proof.
  revert seen rho u. induction es as [|[x y] es IH]; intros seen rho u Hn Hs He F Hrep; cbn [unite_all].
  { apply wp_ret. cbn [fst snd joins]. split; [done|]. rewrite filter_nil. change (zlen []) with 0. split; [lia|].
    rewrite app_nil_r. by exists rho. }
  unfold in_range in He. apply list.Forall_cons in He as [[Hx Hy] He]. cbn in Hx, Hy.
  apply wp_bind. eapply wp_mono; [by apply (FindAndUnit_ok n seen rho)|].
  intros [b u1] (Hb & Hc & rho1 & Hn1 & F1 & Hrep1). cbn [fst snd] in *.
  apply wp_bind. eapply wp_mono; [apply (IH (seen ++ [(x, y)]) rho1); try done|].
  { apply Forall_app. split; [done|]. by constructor. }
  intros [bs u2] (Hj & Hc2 & rho2 & Hn2 & F2 & Hrep2). cbn [fst snd] in *. apply wp_ret. cbn [fst snd joins].
  split; [done|]. split; [|exists rho2; rewrite <- app_assoc in Hrep2; done].
  destruct b; [rewrite filter_cons_True, zlen_cons by done|rewrite filter_cons_False by done]; cbv beta iota in Hc; lia.
Qed.

Lemma connected_nil a b : connected [] a b -> a = b.
Proof. induction 1 as [|? ? Hab| |]; [done|by apply not_elem_of_nil in Hab|done|congruence]. Qed.

Lemma represents_start n : 0 <= n -> represents [] (seqZ 0 n).
Proof.
  intros Hn a b. rewrite zlen_seqZ by done. intros Ha Hb. rewrite !zget_seqZ by done.
  split; [intros [= ->]; constructor|]. by intros ->%connected_nil.
Qed.

(** C17: FindAndUnit over any list of edges computes connectivity: each result tells
    whether the edge joined two components, two elements have the same root exactly when
    a path of edges joins them, and count() is n minus the number of joins. *)
Theorem union_find_connectivity (n : Z) (es : list (Z * Z)) :
  0 <= n -> in_range n es ->
  exists bs u, unite_all es (new_uf n) = Ok (bs, u) /\ joins [] es bs /\
    count_ u = n - zlen (filter (fun b => b = true) bs) /\
    forall a b, 0 <= a < n -> 0 <= b < n ->
      exists ra u1 rb u2, FindAndSet a u = Ok (ra, u1) /\ FindAndSet b u1 = Ok (rb, u2) /\
        (ra = rb <-> connected es a b).
Proof.
  intros Hn He.
  destruct (unite_all_ok n es [] (seqZ 0 n) (new_uf n)) as ([bs u] & E & Hj & Hc & rho & Hz & F & Hrep);
    [by apply zlen_seqZ|constructor|done|by apply forest_start|by apply represents_start|].
  cbn [fst snd app] in *. exists bs, u. split; [done|]. split; [done|]. split; [exact Hc|]. intros a b Ha Hb.
  destruct (FindAndSet_ok rho u a F) as ([ra u1] & E1 & R1 & F1 & _); [lia|].
  destruct (FindAndSet_ok rho u1 b F1) as ([rb u2] & E2 & R2 & F2 & _); [lia|]. cbn [fst snd] in *.
  exists ra, u1, rb, u2. split; [done|]. split; [done|]. rewrite <- (Hrep a b) by lia. rewrite R1, R2. split; congruence.
Qed.

Lemma union_find_connectivity_witness :
  exists bs u, unite_all [(0, 1); (2, 3); (1, 0); (3, 1)] (new_uf 5) = Ok (bs, u) /\
    count_ u = 5 - zlen (filter (fun b => b = true) bs).
Proof.
  destruct (union_find_connectivity 5 [(0, 1); (2, 3); (1, 0); (3, 1)]) as (bs & u & E & _ & Hc & _).
  - lia.
  - repeat constructor; cbn; lia.
  - exists bs, u. exact (conj E Hc).
Defined.
