(* ===== verification/Crc32.v ===== *)
(** The CRC-32 of cpp/datastructure/hash/crc32.cc.

    The table-driven loop, eight bytes at a time, computes the same value as the
    bitwise division by the reflected polynomial 0xedb88320. *)

From S2P Require Import Prelude.

Definition crc_table : list Z :=
  [0x00000000; 0x77073096; 0xee0e612c; 0x990951ba; 0x076dc419; 0x706af48f; 0xe963a535; 0x9e6495a3;
   0x0edb8832; 0x79dcb8a4; 0xe0d5e91e; 0x97d2d988; 0x09b64c2b; 0x7eb17cbd; 0xe7b82d07; 0x90bf1d91;
   0x1db71064; 0x6ab020f2; 0xf3b97148; 0x84be41de; 0x1adad47d; 0x6ddde4eb; 0xf4d4b551; 0x83d385c7;
   0x136c9856; 0x646ba8c0; 0xfd62f97a; 0x8a65c9ec; 0x14015c4f; 0x63066cd9; 0xfa0f3d63; 0x8d080df5;
   0x3b6e20c8; 0x4c69105e; 0xd56041e4; 0xa2677172; 0x3c03e4d1; 0x4b04d447; 0xd20d85fd; 0xa50ab56b;
   0x35b5a8fa; 0x42b2986c; 0xdbbbc9d6; 0xacbcf940; 0x32d86ce3; 0x45df5c75; 0xdcd60dcf; 0xabd13d59;
   0x26d930ac; 0x51de003a; 0xc8d75180; 0xbfd06116; 0x21b4f4b5; 0x56b3c423; 0xcfba9599; 0xb8bda50f;
   0x2802b89e; 0x5f058808; 0xc60cd9b2; 0xb10be924; 0x2f6f7c87; 0x58684c11; 0xc1611dab; 0xb6662d3d;
   0x76dc4190; 0x01db7106; 0x98d220bc; 0xefd5102a; 0x71b18589; 0x06b6b51f; 0x9fbfe4a5; 0xe8b8d433;
   0x7807c9a2; 0x0f00f934; 0x9609a88e; 0xe10e9818; 0x7f6a0dbb; 0x086d3d2d; 0x91646c97; 0xe6635c01;
   0x6b6b51f4; 0x1c6c6162; 0x856530d8; 0xf262004e; 0x6c0695ed; 0x1b01a57b; 0x8208f4c1; 0xf50fc457;
   0x65b0d9c6; 0x12b7e950; 0x8bbeb8ea; 0xfcb9887c; 0x62dd1ddf; 0x15da2d49; 0x8cd37cf3; 0xfbd44c65;
   0x4db26158; 0x3ab551ce; 0xa3bc0074; 0xd4bb30e2; 0x4adfa541; 0x3dd895d7; 0xa4d1c46d; 0xd3d6f4fb;
   0x4369e96a; 0x346ed9fc; 0xad678846; 0xda60b8d0; 0x44042d73; 0x33031de5; 0xaa0a4c5f; 0xdd0d7cc9;
   0x5005713c; 0x270241aa; 0xbe0b1010; 0xc90c2086; 0x5768b525; 0x206f85b3; 0xb966d409; 0xce61e49f;
   0x5edef90e; 0x29d9c998; 0xb0d09822; 0xc7d7a8b4; 0x59b33d17; 0x2eb40d81; 0xb7bd5c3b; 0xc0ba6cad;
   0xedb88320; 0x9abfb3b6; 0x03b6e20c; 0x74b1d29a; 0xead54739; 0x9dd277af; 0x04db2615; 0x73dc1683;
   0xe3630b12; 0x94643b84; 0x0d6d6a3e; 0x7a6a5aa8; 0xe40ecf0b; 0x9309ff9d; 0x0a00ae27; 0x7d079eb1;
   0xf00f9344; 0x8708a3d2; 0x1e01f268; 0x6906c2fe; 0xf762575d; 0x806567cb; 0x196c3671; 0x6e6b06e7;
   0xfed41b76; 0x89d32be0; 0x10da7a5a; 0x67dd4acc; 0xf9b9df6f; 0x8ebeeff9; 0x17b7be43; 0x60b08ed5;
   0xd6d6a3e8; 0xa1d1937e; 0x38d8c2c4; 0x4fdff252; 0xd1bb67f1; 0xa6bc5767; 0x3fb506dd; 0x48b2364b;
   0xd80d2bda; 0xaf0a1b4c; 0x36034af6; 0x41047a60; 0xdf60efc3; 0xa867df55; 0x316e8eef; 0x4669be79;
   0xcb61b38c; 0xbc66831a; 0x256fd2a0; 0x5268e236; 0xcc0c7795; 0xbb0b4703; 0x220216b9; 0x5505262f;
   0xc5ba3bbe; 0xb2bd0b28; 0x2bb45a92; 0x5cb36a04; 0xc2d7ffa7; 0xb5d0cf31; 0x2cd99e8b; 0x5bdeae1d;
   0x9b64c2b0; 0xec63f226; 0x756aa39c; 0x026d930a; 0x9c0906a9; 0xeb0e363f; 0x72076785; 0x05005713;
   0x95bf4a82; 0xe2b87a14; 0x7bb12bae; 0x0cb61b38; 0x92d28e9b; 0xe5d5be0d; 0x7cdcefb7; 0x0bdbdf21;
   0x86d3d2d4; 0xf1d4e242; 0x68ddb3f8; 0x1fda836e; 0x81be16cd; 0xf6b9265b; 0x6fb077e1; 0x18b74777;
   0x88085ae6; 0xff0f6a70; 0x66063bca; 0x11010b5c; 0x8f659eff; 0xf862ae69; 0x616bffd3; 0x166ccf45;
   0xa00ae278; 0xd70dd2ee; 0x4e048354; 0x3903b3c2; 0xa7672661; 0xd06016f7; 0x4969474d; 0x3e6e77db;
   0xaed16a4a; 0xd9d65adc; 0x40df0b66; 0x37d83bf0; 0xa9bcae53; 0xdebb9ec5; 0x47b2cf7f; 0x30b5ffe9;
   0xbdbdf21c; 0xcabac28a; 0x53b39330; 0x24b4a3a6; 0xbad03605; 0xcdd70693; 0x54de5729; 0x23d967bf;
   0xb3667a2e; 0xc4614ab8; 0x5d681b02; 0x2a6f2b94; 0xb40bbe37; 0xc30c8ea1; 0x5a05df1b; 0x2d02ef8d].

(** The macro [DO1]: [p] is the offset of [buf] in the key. *)
Definition DO1 (key : list Z) (st : Z * Z) : outcome (Z * Z) :=
  let '(crc, p) := st in
  b ← vget key p;
  t ← vget crc_table (Z.land (Z.lxor crc b) 0xff);
  Ok (Z.lxor t (Z.shiftr crc 8), p + 1).

Definition DO2 (key : list Z) (st : Z * Z) : outcome (Z * Z) := st ← DO1 key st; DO1 key st.
Definition DO4 (key : list Z) (st : Z * Z) : outcome (Z * Z) := st ← DO2 key st; DO2 key st.
Definition DO8 (key : list Z) (st : Z * Z) : outcome (Z * Z) := st ← DO4 key st; DO4 key st.

(** [while (len >= 8)] and [while (len--)], state [(crc, buf, len)]. *)
Definition crc_step8 (key : list Z) (st : Z * Z * Z) : outcome (Z * Z * Z + Z * Z * Z) :=
  let '(crc, p, len) := st in
  if 8 <=? len then '(crc, p) ← DO8 key (crc, p); Ok (inl (crc, p, len - 8)) else Ok (inr st).

Definition crc_step1 (key : list Z) (st : Z * Z * Z) : outcome (Z * Z * Z + Z) :=
  let '(crc, p, len) := st in
  if negb (len =? 0) then '(crc, p) ← DO1 key (crc, p); Ok (inl (crc, p, len - 1)) else Ok (inr crc).

(** [Crc32::operator()] with the seed of the object. *)
Definition crc32 (seed_ : Z) (key : list Z) (len : Z) : outcome Z :=
  let crc := Z.lxor seed_ 0xffffffff in
  let fuel := S (Z.to_nat len) in
  st ← while_fuel fuel (crc_step8 key) (crc, 0, len);
  crc ← while_fuel fuel (crc_step1 key) st;
  Ok (Z.lxor crc 0xffffffff).

(** * The reference: division bit by bit *)

Definition poly : Z := 0xedb88320.

Definition bit_step (c : Z) : Z := Z.lxor (Z.shiftr c 1) (if Z.odd c then poly else 0).

Fixpoint bit_steps (n : nat) (c : Z) : Z :=
  match n with O => c | S k => bit_steps k (bit_step c) end.

Definition byte_step (c b : Z) : Z := bit_steps 8 (Z.lxor c b).

Definition crc_ref (seed : Z) (key : list Z) : Z :=
  Z.lxor (foldl byte_step (Z.lxor seed 0xffffffff) key) 0xffffffff.

(** ** The bit step is linear *)

Lemma bit_step_lxor a b : bit_step (Z.lxor a b) = Z.lxor (bit_step a) (bit_step b).
Proof.
  unfold bit_step. rewrite Z.shiftr_lxor.
  assert (Z.odd (Z.lxor a b) = xorb (Z.odd a) (Z.odd b)) as -> by (rewrite <- !Z.bit0_odd; apply Z.lxor_spec).
  apply Z.bits_inj'. intros n _. rewrite !Z.lxor_spec.
  destruct (Z.odd a), (Z.odd b); cbn [xorb]; rewrite ?Z.bits_0;
    destruct (Z.testbit (Z.shiftr a 1) n), (Z.testbit (Z.shiftr b 1) n), (Z.testbit poly n); reflexivity.
Qed.

Lemma bit_steps_lxor n a b : bit_steps n (Z.lxor a b) = Z.lxor (bit_steps n a) (bit_steps n b).
Proof. revert a b. induction n as [|n IH]; intros a b; cbn; [done|]. by rewrite bit_step_lxor, IH. Qed.

Lemma bit_steps_shl n x : bit_steps n (Z.shiftl x (Z.of_nat n)) = x.
Proof.
  induction n as [|n IH]; [apply Z.shiftl_0_r|]. cbn [bit_steps]. rewrite <- IH at 2. f_equal. unfold bit_step.
  assert (Z.odd (Z.shiftl x (Z.of_nat (S n))) = false) as ->.
  { rewrite <- Z.bit0_odd, Z.shiftl_spec by lia. apply Z.testbit_neg_r. lia. }
  rewrite Z.lxor_0_r, Z.shiftr_shiftl_l by lia. f_equal. lia.
Qed.

Lemma crc_table_eq : crc_table = bit_steps 8 <$> seqZ 0 256.
Proof. vm_compute. reflexivity. Qed.

Lemma low_high c : c = Z.lxor (Z.land c 0xff) (Z.shiftl (Z.shiftr c 8) 8).
Proof.
  change 0xff with (Z.ones 8). apply Z.bits_inj'. intros n Hn.
  rewrite Z.lxor_spec, Z.land_spec, Z.testbit_ones_nonneg, Z.shiftl_spec by lia.
  destruct (Z.ltb_spec n 8).
  - rewrite (Z.testbit_neg_r _ (n - 8)) by lia. by rewrite andb_true_r, xorb_false_r.
  - rewrite Z.shiftr_spec by lia. replace (n - 8 + 8) with n by lia. by rewrite andb_false_r, xorb_false_l.
Qed.

(** Eight steps: the table entry of the low byte and the rest shifted down. *)
Lemma bit_steps_8 c : bit_steps 8 c = Z.lxor (bit_steps 8 (Z.land c 0xff)) (Z.shiftr c 8).
Proof. rewrite (low_high c) at 1. rewrite bit_steps_lxor. f_equal. apply (bit_steps_shl 8). Qed.

Lemma low_byte_range c : 0 <= Z.land c 0xff < 256.
Proof. change 0xff with (Z.ones 8). rewrite Z.land_ones by lia. by apply Z.mod_pos_bound. Qed.

Lemma DO1_ok key crc p b :
  zget key p = Some b -> is_u8 b -> DO1 key (crc, p) = Ok (byte_step crc b, p + 1).
Proof.
  intros Hb Hr. unfold DO1. rewrite (vget_some _ _ _ Hb). cbn [mbind outcome_bind].
  assert (E : zget crc_table (Z.land (Z.lxor crc b) 0xff) = Some (bit_steps 8 (Z.land (Z.lxor crc b) 0xff))).
  { rewrite crc_table_eq. rewrite zget_fmap_seqZ by apply low_byte_range. by rewrite Z.add_0_l. }
  rewrite (vget_some _ _ _ E). cbn [mbind outcome_bind]. unfold byte_step. do 2 f_equal.
  rewrite (bit_steps_8 (Z.lxor crc b)). f_equal. rewrite Z.shiftr_lxor.
  replace (Z.shiftr b 8) with 0; [by rewrite Z.lxor_0_r|].
  rewrite Z.shiftr_div_pow2 by lia. symmetry. apply Z.div_small. unfold is_u8 in Hr. lia.
Qed.

(** The state after the first [n] bytes. *)
Definition after (crc0 : Z) (key : list Z) (n : Z) : Z := foldl byte_step crc0 (take (Z.to_nat n) key).

Lemma after_step key crc0 n :
  Forall is_u8 key -> 0 <= n < zlen key ->
  DO1 key (after crc0 key n, n) = Ok (after crc0 key (n + 1), n + 1).
Proof.
  intros Hk Hn. destruct (zget_in_range key n Hn) as [b Hb].
  rewrite (DO1_ok key _ n b Hb) by (rewrite list.Forall_forall in Hk; by apply Hk, (zget_elem _ n)).
  unfold after. rewrite (take_zget _ _ _ Hb), foldl_app. cbn [foldl]. reflexivity.
Qed.

Lemma after_step8 key crc0 n :
  Forall is_u8 key -> 0 <= n -> n + 8 <= zlen key ->
  DO8 key (after crc0 key n, n) = Ok (after crc0 key (n + 8), n + 8).
Proof.
  intros Hk Hn Hl. unfold DO8, DO4, DO2.
  rewrite !after_step by (done || lia); cbn [mbind outcome_bind];
  repeat (rewrite after_step by (done || lia); cbn [mbind outcome_bind]).
  by replace (n + 1 + 1 + 1 + 1 + 1 + 1 + 1 + 1) with (n + 8) by lia.
Qed.

(** the table-driven loop, unrolled eight times, computes the bitwise CRC-32 with
    the reflected polynomial 0xedb88320 for every seed and key. *)
Theorem crc32_is_bitwise_crc (seed_ : Z) (key : list Z) :
  Forall is_u8 key -> crc32 seed_ key (zlen key) = Ok (crc_ref seed_ key).
Proof.
  intros Hk. enough (wp (crc32 seed_ key (zlen key)) (fun r => r = crc_ref seed_ key)) as (r & -> & ->) by done.
  unfold crc32, crc_ref. set (c0 := Z.lxor seed_ 0xffffffff). pose proof (zlen_nonneg key).
  apply wp_bind.
  apply (wp_while (fun st => let '(c, p, l) := st in 0 <= p /\ 0 <= l /\ p + l = zlen key /\ c = after c0 key p)
    (fun st => Z.to_nat (snd st))); [split; [lia|split; [lia|split; [lia|done]]]|cbn; lia|].
  intros [[c p] l] (Hp & Hl & Hpl & ->). unfold crc_step8. destruct (Z.leb_spec 8 l).
  { rewrite after_step8 by (done || lia). cbn [mbind outcome_bind]. apply wp_ret.
    split; [split; [lia|split; [lia|split; [lia|done]]]|cbn; lia]. }
  apply wp_ret. apply wp_bind.
  apply (wp_while (fun st => let '(c, p, l) := st in 0 <= p /\ 0 <= l /\ p + l = zlen key /\ c = after c0 key p)
    (fun st => Z.to_nat (snd st))); [split; [lia|split; [lia|split; [lia|done]]]|cbn; lia|].
  clear -Hk. intros [[c p] l] (Hp & Hl & Hpl & ->). unfold crc_step1. destruct (Z.eqb_spec l 0) as [->|]; cbn [negb].
  - apply wp_ret, wp_ret. unfold after. by rewrite take_ge by (unfold zlen in Hpl; lia).
  - rewrite after_step by (done || lia). cbn [mbind outcome_bind]. apply wp_ret.
    split; [split; [lia|split; [lia|split; [lia|done]]]|cbn; lia].
Qed.

(** The check value of CRC-32: the digits 1 to 9. *)
Lemma crc32_is_bitwise_crc_witness :
  crc32 0 [49; 50; 51; 52; 53; 54; 55; 56; 57] 9 = Ok 0xcbf43926.
Proof.
  change 0xcbf43926 with (crc_ref 0 [49; 50; 51; 52; 53; 54; 55; 56; 57]).
  apply (crc32_is_bitwise_crc 0 [49; 50; 51; 52; 53; 54; 55; 56; 57]). repeat constructor; unfold is_u8; lia.
Defined.
