(* ===== verification/Md5.v ===== *)
(** The MD5 of cpp/datastructure/hash/md5.cc.

    [unsigned long] has 64 bits on the target (x86-64 Linux), so the code adds
    and shifts in 64 bits and only the low halves of the words are meaningful.
    The result is the MD5 of RFC 1321, defined here on 32-bit words and on the
    whole padded message. *)

From S2P Require Import Prelude.

Definition md5_state : Type := Z * Z * Z * Z.

(** The fields of [md5_context] that MD5 uses ([ipad] and [opad] are for HMAC). *)
Record md5_context := MkCtx {
  total0 : Z;
  total1 : Z;
  state : md5_state;
  buffer : list Z
}.

Definition md5_init : md5_state := (0x67452301, 0xEFCDAB89, 0x98BADCFE, 0x10325476).

(** [md5_starts] on a context whose buffer holds [junk]. *)
Definition md5_starts (junk : list Z) : md5_context := MkCtx 0 0 md5_init junk.

(** The macros [GET_ULONG_LE] and [PUT_ULONG_LE]. *)
Definition GET_ULONG_LE (b : list Z) (i : Z) : outcome Z :=
  b0 ← vget b i; b1 ← vget b (i + 1); b2 ← vget b (i + 2); b3 ← vget b (i + 3);
  Ok (Z.lor (Z.lor (Z.lor b0 (Z.shiftl b1 8)) (Z.shiftl b2 16)) (Z.shiftl b3 24)).

Definition PUT_ULONG_LE (n : Z) : list Z :=
  [u8 n; u8 (Z.shiftr n 8); u8 (Z.shiftr n 16); u8 (Z.shiftr n 24)].

(** [S(x, n)] and the four definitions of [F]. *)
Definition S64 (x n : Z) : Z := Z.lor (u64 (Z.shiftl x n)) (Z.shiftr (Z.land x 0xFFFFFFFF) (32 - n)).

Definition F64 (round x y z : Z) : Z :=
  if round =? 0 then Z.lxor z (Z.land x (Z.lxor y z))
  else if round =? 1 then Z.lxor y (Z.land z (Z.lxor x y))
  else if round =? 2 then Z.lxor (Z.lxor x y) z
  else Z.lxor y (Z.lor x (u64 (Z.lnot z))).

(** The calls of the macro [P] in order: round, [k], [s], [t].  The arguments
    [a, b, c, d] of successive calls are rotated by one place. *)
Definition md5_steps : list (Z * Z * Z * Z) :=
  [(0, 0, 7, 0xD76AA478); (0, 1, 12, 0xE8C7B756); (0, 2, 17, 0x242070DB); (0, 3, 22, 0xC1BDCEEE);
   (0, 4, 7, 0xF57C0FAF); (0, 5, 12, 0x4787C62A); (0, 6, 17, 0xA8304613); (0, 7, 22, 0xFD469501);
   (0, 8, 7, 0x698098D8); (0, 9, 12, 0x8B44F7AF); (0, 10, 17, 0xFFFF5BB1); (0, 11, 22, 0x895CD7BE);
   (0, 12, 7, 0x6B901122); (0, 13, 12, 0xFD987193); (0, 14, 17, 0xA679438E); (0, 15, 22, 0x49B40821);
   (1, 1, 5, 0xF61E2562); (1, 6, 9, 0xC040B340); (1, 11, 14, 0x265E5A51); (1, 0, 20, 0xE9B6C7AA);
   (1, 5, 5, 0xD62F105D); (1, 10, 9, 0x02441453); (1, 15, 14, 0xD8A1E681); (1, 4, 20, 0xE7D3FBC8);
   (1, 9, 5, 0x21E1CDE6); (1, 14, 9, 0xC33707D6); (1, 3, 14, 0xF4D50D87); (1, 8, 20, 0x455A14ED);
   (1, 13, 5, 0xA9E3E905); (1, 2, 9, 0xFCEFA3F8); (1, 7, 14, 0x676F02D9); (1, 12, 20, 0x8D2A4C8A);
   (2, 5, 4, 0xFFFA3942); (2, 8, 11, 0x8771F681); (2, 11, 16, 0x6D9D6122); (2, 14, 23, 0xFDE5380C);
   (2, 1, 4, 0xA4BEEA44); (2, 4, 11, 0x4BDECFA9); (2, 7, 16, 0xF6BB4B60); (2, 10, 23, 0xBEBFBC70);
   (2, 13, 4, 0x289B7EC6); (2, 0, 11, 0xEAA127FA); (2, 3, 16, 0xD4EF3085); (2, 6, 23, 0x04881D05);
   (2, 9, 4, 0xD9D4D039); (2, 12, 11, 0xE6DB99E5); (2, 15, 16, 0x1FA27CF8); (2, 2, 23, 0xC4AC5665);
   (3, 0, 6, 0xF4292244); (3, 7, 10, 0x432AFF97); (3, 14, 15, 0xAB9423A7); (3, 5, 21, 0xFC93A039);
   (3, 12, 6, 0x655B59C3); (3, 3, 10, 0x8F0CCC92); (3, 10, 15, 0xFFEFF47D); (3, 1, 21, 0x85845DD1);
   (3, 8, 6, 0x6FA87E4F); (3, 15, 10, 0xFE2CE6E0); (3, 6, 15, 0xA3014314); (3, 13, 21, 0x4E0811A1);
   (3, 4, 6, 0xF7537E82); (3, 11, 10, 0xBD3AF235); (3, 2, 15, 0x2AD7D2BB); (3, 9, 21, 0xEB86D391)].

(** [P(a, b, c, d, k, s, t)], and the rotation for the next call. *)
Definition P64 (X : list Z) (st : md5_state) (e : Z * Z * Z * Z) : outcome md5_state :=
  let '(a, b, c, d) := st in
  let '(round, k, s, t) := e in
  x ← vget X k;
  let a := u64 (a + u64 (u64 (F64 round b c d + x) + t)) in
  let a := u64 (S64 a s + b) in
  Ok (d, a, b, c).

Fixpoint run_steps (X : list Z) (l : list (Z * Z * Z * Z)) (st : md5_state) : outcome md5_state :=
  match l with
  | [] => Ok st
  | e :: r => st ← P64 X st e; run_steps X r st
  end.

Definition md5_process (st : md5_state) (data : list Z) : outcome md5_state :=
  X ← for_range 0 16 (fun i X => w ← GET_ULONG_LE data (4 * i); Ok (X ++ [w])) [];
  '(A, B, C, D) ← run_steps X md5_steps st;
  let '(s0, s1, s2, s3) := st in
  Ok (u64 (s0 + A), u64 (s1 + B), u64 (s2 + C), u64 (s3 + D)).

(** [memcpy(ctx->buffer + left, input, n)] *)
Definition fill_buffer (buf : list Z) (left : Z) (input : list Z) (n : Z) : outcome (list Z) :=
  require ((left + n <=? zlen buf) && (n <=? zlen input)) OutOfBounds;;
  Ok (take (Z.to_nat left) buf ++ take (Z.to_nat n) input ++ drop (Z.to_nat (left + n)) buf).

(** The loop over whole blocks, state [(state, input, ilen)]. *)
Definition block_step (s : md5_state * list Z * Z) : outcome (md5_state * list Z * Z + md5_state * list Z * Z) :=
  let '(st, input, ilen) := s in
  if 64 <=? ilen then
    st ← md5_process st input;
    Ok (inl (st, drop 64 input, ilen - 64))
  else Ok (inr (st, input, ilen)).

Definition md5_update (ctx : md5_context) (input : list Z) (ilen : Z) : outcome md5_context :=
  if ilen <=? 0 then Ok ctx
  else
    let left := Z.land (total0 ctx) 0x3F in
    let fill := 64 - left in
    let t0 := Z.land (u64 (total0 ctx + ilen)) 0xFFFFFFFF in
    let t1 := if t0 <? ilen then u64 (total1 ctx + 1) else total1 ctx in
    '(st, buf, left, input, ilen) ←
      (if negb (left =? 0) && (fill <=? ilen) then
         buf ← fill_buffer (buffer ctx) left input fill;
         st ← md5_process (state ctx) buf;
         Ok (st, buf, 0, drop (Z.to_nat fill) input, ilen - fill)
       else Ok (state ctx, buffer ctx, left, input, ilen));
    '(st, input, ilen) ← while_fuel (S (Z.to_nat ilen)) block_step (st, input, ilen);
    buf ← (if 0 <? ilen then fill_buffer buf left input ilen else Ok buf);
    Ok (MkCtx t0 t1 st buf).

Definition md5_padding : list Z := 0x80 :: replicate 63 0.

Definition md5_finish (ctx : md5_context) : outcome (list Z) :=
  let high := Z.lor (Z.shiftr (total0 ctx) 29) (u64 (Z.shiftl (total1 ctx) 3)) in
  let low := u64 (Z.shiftl (total0 ctx) 3) in
  let msglen := PUT_ULONG_LE low ++ PUT_ULONG_LE high in
  let last := Z.land (total0 ctx) 0x3F in
  let padn := if last <? 56 then 56 - last else 120 - last in
  ctx ← md5_update ctx md5_padding padn;
  ctx ← md5_update ctx msglen 8;
  let '(a, b, c, d) := state ctx in
  Ok (PUT_ULONG_LE a ++ PUT_ULONG_LE b ++ PUT_ULONG_LE c ++ PUT_ULONG_LE d).

Inductive md5_type : Set := md5_32 | md5_128.

(** [Md5::operator()]; [junk] is what the context on the stack holds. *)
Definition md5 (junk : list Z) (input : list Z) (len : Z) (type : md5_type) : outcome (list Z) :=
  ctx ← md5_update (md5_starts junk) input len;
  output ← md5_finish ctx;
  match type with
  | md5_32 => Ok (take 4 output)
  | md5_128 => Ok (take 16 output)
  end.

(** * RFC 1321 *)

Definition rotl32 (x n : Z) : Z := Z.lor (u32 (Z.shiftl x n)) (Z.shiftr x (32 - n)).

(** The complement of a 32-bit word. *)
Definition not32 (x : Z) : Z := 2 ^ 32 - 1 - x.

Definition rfc_fun (round x y z : Z) : Z :=
  if round =? 0 then Z.lor (Z.land x y) (Z.land (not32 x) z)
  else if round =? 1 then Z.lor (Z.land x z) (Z.land y (not32 z))
  else if round =? 2 then Z.lxor x (Z.lxor y z)
  else Z.lxor y (Z.lor x (not32 z)).

(** The word and the rotation of step [i]. *)
Definition rfc_word (i : Z) : Z :=
  let round := i / 16 in
  (if round =? 0 then i else if round =? 1 then 5 * i + 1 else if round =? 2 then 3 * i + 5 else 7 * i) mod 16.

Definition rfc_shift (i : Z) : Z :=
  let l := if i / 16 =? 0 then [7; 12; 17; 22] else if i / 16 =? 1 then [5; 9; 14; 20]
           else if i / 16 =? 2 then [4; 11; 16; 23] else [6; 10; 15; 21] in
  l !!! Z.to_nat (i mod 4).

(** The additive constants are the integer parts of 2^32 |sin (i + 1)|, the sine of
    radians.  It is computed by its power series in fixed point with 256 binary
    places: [n] further terms from the term [x^k / k!] on, with alternating signs.  The
    largest term of the series at 64 is below 2^92 and the first one left out below
    2^-240, so more than 100 places are right. *)
Fixpoint sine_terms (n : nat) (x k term : Z) : Z :=
  match n with
  | O => 0
  | S n => term - sine_terms n x (k + 2) (term * x * x / ((k + 1) * (k + 2)))
  end.

Definition fixed_sine (x : Z) : Z := sine_terms 150 x 1 (x * 2 ^ 256).

Definition rfc_const (i : Z) : Z := 2 ^ 32 * Z.abs (fixed_sine (i + 1)) / 2 ^ 256.

Definition rfc_step (X : Z -> Z) (st : md5_state) (i : Z) : md5_state :=
  let '(a, b, c, d) := st in
  let s := u32 (a + rfc_fun (i / 16) b c d + X (rfc_word i) + rfc_const i) in
  (d, u32 (b + rotl32 s (rfc_shift i)), b, c).

(** The little-endian word [i] of a block. *)
Definition rfc_get (block : list Z) (i : Z) : Z :=
  let at_ j := block !!! Z.to_nat (4 * i + j) in
  at_ 0 + 2 ^ 8 * at_ 1 + 2 ^ 16 * at_ 2 + 2 ^ 24 * at_ 3.

(** The initial state: the bytes 01 to ef and then back, the low-order byte first. *)
Definition rfc_init : md5_state :=
  let b := [0x01; 0x23; 0x45; 0x67; 0x89; 0xab; 0xcd; 0xef; 0xfe; 0xdc; 0xba; 0x98; 0x76; 0x54; 0x32; 0x10] in
  (rfc_get b 0, rfc_get b 1, rfc_get b 2, rfc_get b 3).

Definition rfc_block (st : md5_state) (block : list Z) : md5_state :=
  let '(a, b, c, d) := st in
  let '(a', b', c', d') := foldl (rfc_step (rfc_get block)) st (seqZ 0 64) in
  (u32 (a + a'), u32 (b + b'), u32 (c + c'), u32 (d + d')).

(** The first [n] blocks of [m]. *)
Fixpoint rfc_blocks (n : nat) (st : md5_state) (m : list Z) : md5_state :=
  match n with
  | O => st
  | S k => rfc_blocks k (rfc_block st (take 64 m)) (drop 64 m)
  end.

Definition le_bytes (n : nat) (v : Z) : list Z := (fun i => (v / 2 ^ (8 * i)) mod 2 ^ 8) <$> seqZ 0 (Z.of_nat n).

(** One bit, zeros up to 56 modulo 64 bytes, and the length in bits. *)
Definition rfc_pad (m : list Z) : list Z :=
  m ++ [0x80] ++ zreplicate ((55 - zlen m) mod 64) 0 ++ le_bytes 8 ((8 * zlen m) mod 2 ^ 64).

Definition rfc_md5 (m : list Z) : list Z :=
  let p := rfc_pad m in
  let '(a, b, c, d) := rfc_blocks (Z.to_nat (zlen p / 64)) rfc_init p in
  le_bytes 4 a ++ le_bytes 4 b ++ le_bytes 4 c ++ le_bytes 4 d.

(** * Low halves of 64-bit words *)

Lemma u32_u64 x : u32 (u64 x) = u32 x.
Proof.
  unfold u32, u64. change (2 ^ 64) with (2 ^ 32 * 2 ^ 32). rewrite Z.rem_mul_r by lia.
  rewrite Z.mul_comm, Z.mod_add by lia. by apply Z.mod_mod.
Qed.

Lemma u32_add a b : u32 (a + b) = u32 (u32 a + u32 b).
Proof. unfold u32. apply Z.add_mod. lia. Qed.

Lemma u32_add_l a b : u32 (u32 a + b) = u32 (a + b).
Proof. unfold u32. apply Zplus_mod_idemp_l. Qed.

Lemma u32_add_r a b : u32 (a + u32 b) = u32 (a + b).
Proof. unfold u32. apply Zplus_mod_idemp_r. Qed.

Lemma u32_sum a f x t : u32 (u32 a + u32 f + u32 x + t) = u32 (a + f + x + t).
Proof.
  replace (u32 a + u32 f + u32 x + t) with (u32 a + (u32 f + u32 x + t)) by lia. rewrite u32_add_l.
  replace (a + (u32 f + u32 x + t)) with (u32 f + (a + u32 x + t)) by lia. rewrite u32_add_l.
  replace (f + (a + u32 x + t)) with (u32 x + (a + f + t)) by lia. rewrite u32_add_l. f_equal. lia.
Qed.

Lemma u32_u32 a : u32 (u32 a) = u32 a.
Proof. apply u32_id, u32_range. Qed.

Lemma testbit_u32 x n : 0 <= n -> Z.testbit (u32 x) n = (n <? 32) && Z.testbit x n.
Proof.
  intros Hn. unfold u32. destruct (Z.ltb_spec n 32).
  - by rewrite Z.mod_pow2_bits_low.
  - by rewrite Z.mod_pow2_bits_high by lia.
Qed.

(** Bitwise reasoning: two words are equal when their bits are. *)
Ltac bitwise :=
  apply Z.bits_inj'; intros bit Hbit;
  repeat first [rewrite Z.lor_spec | rewrite Z.land_spec | rewrite Z.lxor_spec | rewrite testbit_u32 by done].

Lemma u32_land a b : u32 (Z.land a b) = Z.land (u32 a) (u32 b).
Proof. bitwise. destruct (bit <? 32), (Z.testbit a bit), (Z.testbit b bit); done. Qed.

Lemma u32_lor a b : u32 (Z.lor a b) = Z.lor (u32 a) (u32 b).
Proof. bitwise. destruct (bit <? 32), (Z.testbit a bit), (Z.testbit b bit); done. Qed.

Lemma u32_lxor a b : u32 (Z.lxor a b) = Z.lxor (u32 a) (u32 b).
Proof. bitwise. destruct (bit <? 32), (Z.testbit a bit), (Z.testbit b bit); done. Qed.

Lemma not32_u32 x : not32 (u32 x) = u32 (Z.lnot x).
Proof.
  unfold not32, u32, Z.lnot. pose proof (Z.mod_pos_bound x (2 ^ 32)). pose proof (Z.div_mod x (2 ^ 32)).
  apply (Z.mod_unique_pos _ _ (- (x / 2 ^ 32) - 1)); lia.
Qed.

Lemma testbit_not32 x n : is_u32 x -> 0 <= n -> Z.testbit (not32 x) n = (n <? 32) && negb (Z.testbit x n).
Proof.
  intros Hx Hn. rewrite <- (u32_id x Hx), not32_u32, !testbit_u32, Z.lnot_spec by done.
  destruct (n <? 32); cbn; by rewrite ?(u32_id x Hx).
Qed.

Lemma F64_low r x y z : 0 <= r <= 3 -> u32 (F64 r x y z) = rfc_fun r (u32 x) (u32 y) (u32 z).
Proof.
  intros Hr. unfold F64, rfc_fun. repeat zcase;
    rewrite ?u32_lxor, ?u32_land, ?u32_lxor, ?u32_lor, ?u32_u64, <- ?not32_u32; try done; [| |bitwise; by rewrite xorb_assoc].
  - bitwise. rewrite !testbit_not32 by (done || apply u32_range). rewrite !testbit_u32 by done.
    destruct (bit <? 32), (Z.testbit x bit), (Z.testbit y bit), (Z.testbit z bit); done.
  - bitwise. rewrite !testbit_not32 by (done || apply u32_range). rewrite !testbit_u32 by done.
    destruct (bit <? 32), (Z.testbit x bit), (Z.testbit y bit), (Z.testbit z bit); done.
Qed.

Lemma u32_shiftl x n : 0 <= n -> u32 (Z.shiftl x n) = u32 (Z.shiftl (u32 x) n).
Proof.
  intros Hn. rewrite !Z.shiftl_mul_pow2 by done. unfold u32. by rewrite Z.mul_mod_idemp_l by lia.
Qed.

Lemma S64_low x n : 0 <= n <= 32 -> u32 (S64 x n) = rotl32 (u32 x) n.
Proof.
  intros Hn. unfold S64, rotl32. rewrite u32_lor, u32_u64, u32_shiftl by lia. f_equal.
  change 0xFFFFFFFF with (Z.ones 32). rewrite Z.land_ones by lia. fold (u32 x).
  apply u32_id. rewrite Z.shiftr_div_pow2 by lia. pose proof (u32_range x). unfold is_u32 in *.
  split; [apply Z.div_pos; lia|]. apply Z.div_lt_upper_bound; [lia|]. nia.
Qed.

Definition low (st : md5_state) : md5_state :=
  let '(a, b, c, d) := st in (u32 a, u32 b, u32 c, u32 d).

(** ** One step, one block *)

Definition step_ok (e : Z * Z * Z * Z) : Prop :=
  let '(r, k, s, t) := e in 0 <= r <= 3 /\ 0 <= k < 16 /\ 0 <= s <= 32.

Lemma P64_low X st r k s t x :
  step_ok (r, k, s, t) -> zget X k = Some x ->
  exists st', P64 X st (r, k, s, t) = Ok st' /\
    low st' = (let '(a, b, c, d) := low st in
      (d, u32 (b + rotl32 (u32 (a + rfc_fun r b c d + u32 x + t)) s), b, c)).
Proof.
  destruct st as [[[a b] c] d]. intros (Hr & Hk & Hs) Hx. unfold P64. rewrite (vget_some _ _ _ Hx).
  cbn [mbind outcome_bind]. eexists. split; [reflexivity|]. cbn [low]. do 3 f_equal.
  rewrite u32_u64, u32_add, S64_low by done. rewrite Z.add_comm, u32_add_l, (u32_add_l b). do 3 f_equal.
  rewrite <- F64_low by done. rewrite u32_u64, <- (u32_add_r a), u32_u64, <- (u32_add_l _ t), u32_u64.
  rewrite u32_add_l, u32_add_r, u32_sum. f_equal. lia.
Qed.

(** The step list is the schedule of the RFC. *)
Definition rfc_entry (i : Z) : Z * Z * Z * Z := (i / 16, rfc_word i, rfc_shift i, rfc_const i).

Lemma md5_steps_schedule : md5_steps = rfc_entry <$> seqZ 0 64.
Proof. vm_compute. reflexivity. Qed.

Lemma rfc_shift_range i : 0 <= rfc_shift i <= 32.
Proof.
  unfold rfc_shift. pose proof (Z.mod_pos_bound i 4).
  assert (Hm : i mod 4 = 0 \/ i mod 4 = 1 \/ i mod 4 = 2 \/ i mod 4 = 3) by lia.
  destruct Hm as [->|[->|[->| ->]]]; repeat zcase; by vm_compute.
Qed.

Lemma rfc_entry_ok i : 0 <= i < 64 -> step_ok (rfc_entry i).
Proof.
  intros Hi. split; [|split; [|apply rfc_shift_range]].
  - split; [apply Z.div_pos; lia|]. apply Z.lt_succ_r, Z.div_lt_upper_bound; lia.
  - by apply Z.mod_pos_bound.
Qed.

Lemma run_steps_low X (f : Z -> Z) l st :
  (forall k, 0 <= k < 16 -> exists x, zget X k = Some x /\ u32 x = f k) ->
  Forall (fun i => 0 <= i < 64) l ->
  exists st', run_steps X (rfc_entry <$> l) st = Ok st' /\ low st' = foldl (rfc_step f) (low st) l.
Proof.
  intros HX Hl. revert st. induction Hl as [|i l Hi _ IH]; intros st; cbn [fmap list_fmap run_steps foldl].
  { by exists st. }
  pose proof (rfc_entry_ok i Hi) as Hok. destruct (HX (rfc_word i)) as (x & Hx & Ex); [apply Hok|].
  destruct (P64_low X st _ _ _ (rfc_const i) x Hok Hx) as (st1 & HP & E1).
  change (P64 X st (rfc_entry i) = Ok st1) in HP. rewrite HP. cbn [mbind outcome_bind].
  destruct (IH st1) as (st2 & -> & E2). exists st2. split; [done|]. rewrite E2, E1, Ex. clear.
  destruct (low st) as [[[a b] c] d]. done.
Qed.

Lemma lor_shiftl a b n : 0 <= n -> 0 <= a < 2 ^ n -> Z.lor a (Z.shiftl b n) = a + 2 ^ n * b.
Proof.
  intros Hn Ha. assert (E : Z.land a (Z.shiftl b n) = 0).
  { apply Z.bits_inj'. intros m Hm. rewrite Z.land_spec, Z.bits_0, Z.shiftl_spec by done.
    destruct (Z.lt_ge_cases m n); [by rewrite (Z.testbit_neg_r b), andb_false_r by lia|].
    destruct (Z.eq_dec a 0) as [->|]; [by rewrite Z.bits_0|].
    rewrite Z.bits_above_log2; [done|lia|]. apply Z.log2_lt_pow2; [lia|].
    eapply Z.lt_le_trans; [apply Ha|]. apply Z.pow_le_mono_r; lia. }
  rewrite <- Z.lxor_lor, <- Z.add_nocarry_lxor by done. rewrite Z.shiftl_mul_pow2 by done. lia.
Qed.

Lemma lookup_total_zget (d : list Z) i x : zget d i = Some x -> d !!! Z.to_nat i = x.
Proof. unfold zget. destruct (i <? 0); [done|]. apply list_lookup_total_correct. Qed.

Lemma GET_ok d i :
  Forall is_u8 d -> 0 <= i -> 4 * i + 4 <= zlen d ->
  GET_ULONG_LE d (4 * i) = Ok (rfc_get d i) /\ is_u32 (rfc_get d i).
Proof.
  intros Hd Hi Hl. unfold GET_ULONG_LE, rfc_get. rewrite list.Forall_forall in Hd.
  destruct (zget_in_range d (4 * i)) as [b0 E0]; [lia|]. destruct (zget_in_range d (4 * i + 1)) as [b1 E1]; [lia|].
  destruct (zget_in_range d (4 * i + 2)) as [b2 E2]; [lia|]. destruct (zget_in_range d (4 * i + 3)) as [b3 E3]; [lia|].
  rewrite (vget_some _ _ _ E0), (vget_some _ _ _ E1), (vget_some _ _ _ E2), (vget_some _ _ _ E3).
  cbn [mbind outcome_bind]. rewrite Z.add_0_r.
  rewrite (lookup_total_zget _ _ _ E0), (lookup_total_zget _ _ _ E1), (lookup_total_zget _ _ _ E2), (lookup_total_zget _ _ _ E3).
  apply zget_elem, Hd in E0, E1, E2, E3. unfold is_u8, is_u32 in *.
  rewrite (lor_shiftl b0), (lor_shiftl _ b2), (lor_shiftl _ b3) by lia. split; [done|lia].
Qed.

Lemma words_ok d :
  Forall is_u8 d -> 64 <= zlen d ->
  for_range 0 16 (fun i X => w ← GET_ULONG_LE d (4 * i); Ok (X ++ [w])) [] = Ok (rfc_get d <$> seqZ 0 16).
Proof.
  intros Hd Hl.
  enough (W : wp (for_range 0 16 (fun i X => w ← GET_ULONG_LE d (4 * i); Ok (X ++ [w])) [])
    (fun X => X = rfc_get d <$> seqZ 0 16)) by (by destruct W as (X & -> & ->)).
  apply (wp_for_range (fun i X => X = rfc_get d <$> seqZ 0 i)); [lia|done| |done].
  intros i X Hi ->. destruct (GET_ok d i Hd) as [-> _]; [lia|lia|]. cbn [mbind outcome_bind]. apply wp_ret.
  rewrite (seqZ_app 0 i 1), seqZ_1, fmap_app by lia. done.
Qed.

Lemma take_rfc_get d i : 0 <= i < 16 -> 64 <= zlen d -> rfc_get (take 64 d) i = rfc_get d i.
Proof.
  intros Hi Hl. unfold rfc_get. unfold zlen in Hl. rewrite !list_lookup_total_alt, !lookup_take_lt by lia. done.
Qed.

Lemma rfc_step_ext f g st i : 0 <= i < 64 -> (forall k, 0 <= k < 16 -> f k = g k) -> rfc_step f st i = rfc_step g st i.
Proof.
  intros Hi Hfg. destruct st as [[[a b] c] d]. unfold rfc_step. rewrite Hfg; [done|].
  apply (rfc_entry_ok i Hi).
Qed.

Lemma md5_process_low st d :
  Forall is_u8 d -> 64 <= zlen d ->
  exists st', md5_process st d = Ok st' /\ low st' = rfc_block (low st) (take 64 d).
Proof.
  intros Hd Hl. unfold md5_process. rewrite words_ok by done. cbn [mbind outcome_bind].
  rewrite md5_steps_schedule.
  destruct (run_steps_low (rfc_get d <$> seqZ 0 16) (rfc_get (take 64 d)) (seqZ 0 64) st) as (st' & -> & E).
  - intros k Hk. eexists. split; [by apply zget_fmap_seqZ|]. rewrite Z.add_0_l, take_rfc_get by done.
    apply u32_id. apply (GET_ok d k); (done || lia).
  - apply list.Forall_forall. intros i. rewrite elem_of_seqZ. lia.
  - cbn [mbind outcome_bind]. destruct st as [[[a b] c] d0], st' as [[[a' b'] c'] d']. eexists. split; [reflexivity|].
    unfold rfc_block. rewrite <- E. cbn [low]. rewrite !u32_u64. by rewrite <- !u32_add.
Qed.

(** * Streaming *)

Lemma rfc_blocks_prefix n st A B : (64 * n <= length A)%nat -> rfc_blocks n st (A ++ B) = rfc_blocks n st A.
Proof.
  revert st A. induction n as [|n IH]; intros st A Hl; [done|]. cbn [rfc_blocks].
  rewrite take_app_le, drop_app_le by lia. apply IH. rewrite length_drop. lia.
Qed.

Lemma rfc_blocks_app n m st A B :
  length A = (64 * n)%nat -> rfc_blocks (n + m) st (A ++ B) = rfc_blocks m (rfc_blocks n st A) B.
Proof.
  revert st A. induction n as [|n IH]; intros st A Hl.
  { destruct A; [done|cbn in Hl; lia]. }
  cbn [rfc_blocks Nat.add]. rewrite take_app_le, drop_app_le by lia. apply IH. rewrite length_drop. lia.
Qed.

Lemma Forall_take_drop {A} (P : A -> Prop) n l : Forall P l -> Forall P (take n l) /\ Forall P (drop n l).
Proof. intros Hl. split; [by apply Forall_take|by apply Forall_drop]. Qed.

(** The block loop consumes the whole blocks of the first [l] bytes. *)
Lemma block_loop f st input (l : nat) :
  (l <= length input)%nat -> Forall is_u8 input -> (l < f)%nat ->
  exists st', while_fuel f block_step (st, input, Z.of_nat l) =
      Ok (st', drop (64 * (l / 64)) input, Z.of_nat (l mod 64)) /\
    low st' = rfc_blocks (l / 64) (low st) input.
Proof.
  revert st input l. induction f as [|f IH]; intros st input l Hl Hb Hf; [lia|]. cbn [while_fuel block_step].
  destruct (Z.leb_spec 64 (Z.of_nat l)).
  - destruct (md5_process_low st input Hb) as (st1 & -> & E1); [unfold zlen; lia|]. cbn [mbind outcome_bind].
    replace (Z.of_nat l - 64) with (Z.of_nat (l - 64)) by lia.
    destruct (IH st1 (drop 64 input) (l - 64)%nat) as (st2 & -> & E2);
      [rewrite length_drop; lia|by apply Forall_drop|lia|].
    assert (El : (l / 64 = S ((l - 64) / 64))%nat).
    { replace l with (1 * 64 + (l - 64))%nat at 1 by lia. rewrite Nat.div_add_l by lia. lia. }
    assert (Em : (l mod 64 = (l - 64) mod 64)%nat).
    { replace l with ((l - 64) + 1 * 64)%nat at 1 by lia. by rewrite Nat.Div0.mod_add. }
    exists st2. rewrite El, Em. split; [|by rewrite E2, E1].
    do 3 f_equal. rewrite drop_drop. f_equal. lia.
  - cbn [mbind outcome_bind]. exists st. rewrite Nat.div_small, Nat.mod_small by lia. by rewrite drop_0.
Qed.

(** The state [st] and the buffer [buf] after the bytes [M]. *)
Definition absorbed (M : list Z) (st : md5_state) (buf : list Z) : Prop :=
  length buf = 64%nat /\ Forall is_u8 buf /\ Forall is_u8 M /\
  low st = rfc_blocks (length M / 64) rfc_init M /\
  take (length M mod 64) buf = drop (64 * (length M / 64)) M.

Lemma wp_fill_buffer buf (left n : nat) input (Q : list Z -> Prop) :
  (left + n <= length buf)%nat -> (n <= length input)%nat ->
  Q (take left buf ++ take n input ++ drop (left + n) buf) -> wp (fill_buffer buf (Z.of_nat left) input (Z.of_nat n)) Q.
Proof.
  intros Hl Hn HQ. unfold fill_buffer. apply wp_bind, wp_require; [unfold zlen; lia|]. apply wp_ret.
  rewrite !Nat2Z.id. by replace (Z.to_nat (Z.of_nat left + Z.of_nat n)) with (left + n)%nat by lia.
Qed.

(** The second half of [md5_update]: whole blocks, then the rest. *)
Lemma absorb_rest M st buf input (l : nat) t0 t1 :
  absorbed M st buf -> (l <= length input)%nat -> Forall is_u8 input ->
  (length M mod 64 = 0 \/ length M mod 64 + l < 64)%nat ->
  wp ('(st, input, ilen) ← while_fuel (S l) block_step (st, input, Z.of_nat l);
      buf ← (if 0 <? ilen then fill_buffer buf (Z.of_nat (length M mod 64)) input ilen else Ok buf);
      Ok (MkCtx t0 t1 st buf))
     (fun ctx => total0 ctx = t0 /\ total1 ctx = t1 /\ absorbed (M ++ take l input) (state ctx) (buffer ctx)).
Proof.
  intros (Hbl & Hbb & HM & Hst & Hrest) Hl Hin Hcase.
  destruct (block_loop (S l) st input l) as (st2 & -> & E2); [done|done|lia|]. cbn [mbind outcome_bind].
  set (r := (length M mod 64)%nat) in *. set (q := (length M / 64)%nat) in *.
  set (T := take l input). assert (HT : length T = l) by (unfold T; rewrite length_take; lia).
  pose proof (Nat.div_mod_eq (length M) 64) as HqM. fold q r in HqM.
  pose proof (Nat.div_mod_eq l 64) as Hql. pose proof (Nat.mod_upper_bound l 64 ltac:(lia)).
  set (l2 := (l mod 64)%nat) in *. set (ql := (l / 64)%nat) in *.
  assert (Hr2 : (r + l2 < 64)%nat) by (destruct Hcase; lia).
  assert (Eq : ((length (M ++ T)) / 64 = q + ql)%nat).
  { rewrite length_app, HT. symmetry. apply (Nat.div_unique _ _ _ (r + l2)); lia. }
  assert (Em : ((length (M ++ T)) mod 64 = r + l2)%nat).
  { rewrite length_app, HT. symmetry. apply (Nat.mod_unique _ _ (q + ql)); lia. }
  assert (Hst2 : low st2 = rfc_blocks (length (M ++ T) / 64) rfc_init (M ++ T)).
  { rewrite Eq, E2, Hst. destruct Hcase as [Hr|Hr].
    - rewrite rfc_blocks_app by lia. unfold T. rewrite <- (take_drop l input) at 1. apply rfc_blocks_prefix. fold T. lia.
    - replace ql with O by lia. rewrite Nat.add_0_r, rfc_blocks_prefix by lia. done. }
  assert (Hrest2 : drop (64 * (length (M ++ T) / 64)) (M ++ T) = take r buf ++ take l2 (drop (64 * ql) input)).
  { rewrite Eq, Hrest. destruct Hcase as [Hr|Hr].
    - rewrite (drop_ge M (64 * q)) by lia. cbn [app]. rewrite drop_app_ge by lia. unfold T.
      rewrite skipn_firstn_comm. f_equal; [lia|]. f_equal. lia.
    - replace (64 * (q + ql))%nat with (64 * q)%nat by lia. rewrite drop_app_le by lia. f_equal. unfold T.
      replace ql with O by lia. rewrite Nat.mul_0_r, drop_0. f_equal. lia. }
  assert (HMT : Forall is_u8 (M ++ T)) by (apply Forall_app; split; [done|by apply Forall_take]).
  destruct (Z.ltb_spec 0 (Z.of_nat l2)).
  - apply wp_bind, wp_fill_buffer; [lia|rewrite length_drop; lia|]. apply wp_ret. cbn [total0 total1 state buffer].
    split; [done|]. split; [done|]. split; [rewrite !length_app, !length_take, !length_drop; lia|].
    split; [repeat (apply Forall_app; split); try (by apply Forall_take || by apply Forall_drop);
            by apply Forall_take, Forall_drop|].
    split; [done|]. split; [done|]. rewrite Em, Hrest2, app_assoc.
    rewrite take_app_length'; [done|]. rewrite length_app, !length_take, length_drop. lia.
  - cbn [mbind outcome_bind]. apply wp_ret. cbn [total0 total1 state buffer]. do 6 (split; [done|]). rewrite Em, Hrest2. replace l2 with O by lia. by rewrite Nat.add_0_r, take_0, app_nil_r.
Qed.

(** The context after the bytes [M]. *)
Definition holds (M : list Z) (ctx : md5_context) : Prop :=
  total0 ctx = zlen M /\ total1 ctx = 0 /\ absorbed M (state ctx) (buffer ctx).

Lemma land_63 n : Z.land n 0x3F = n mod 64.
Proof. change 0x3F with (Z.ones 6). by rewrite Z.land_ones by lia. Qed.

Lemma zlen_mod64 (M : list Z) : zlen M mod 64 = Z.of_nat (length M mod 64).
Proof. unfold zlen. by rewrite Nat2Z.inj_mod. Qed.

(** Filling the buffer completes a block. *)
Lemma absorb_block M st buf input (fill : nat) :
  absorbed M st buf -> Forall is_u8 input ->
  (length M mod 64 + fill = 64)%nat -> (fill <= length input)%nat ->
  wp (buf ← fill_buffer buf (Z.of_nat (length M mod 64)) input (Z.of_nat fill);
      st ← md5_process st buf; Ok (st, buf))
     (fun res => absorbed (M ++ take fill input) res.1 res.2 /\ (length (M ++ take fill input) mod 64 = 0)%nat).
Proof.
  intros (Hbl & Hbb & HM & Hst & Hrest) Hin Hf Hl.
  apply wp_bind, wp_fill_buffer; [lia|done|]. rewrite Hrest, (drop_ge buf) by lia. rewrite app_nil_r.
  set (r := (length M mod 64)%nat) in *. set (q := (length M / 64)%nat) in *.
  pose proof (Nat.div_mod_eq (length M) 64) as HqM. fold q r in HqM.
  set (T := take fill input). assert (HT : length T = fill) by (unfold T; rewrite length_take; lia).
  assert (HTb : Forall is_u8 T) by by apply Forall_take.
  assert (HR : length (drop (64 * q) M) = r) by (rewrite length_drop; lia).
  assert (Hblk : length (drop (64 * q) M ++ T) = 64%nat) by (rewrite length_app; lia).
  assert (Hblkb : Forall is_u8 (drop (64 * q) M ++ T)) by (apply Forall_app; split; [by apply Forall_drop|done]).
  destruct (md5_process_low st _ Hblkb) as (st1 & -> & E1); [unfold zlen; lia|]. cbn [mbind outcome_bind].
  apply wp_ret. cbn [fst snd].
  assert (Eq : (length (M ++ T) / 64 = q + 1)%nat) by (rewrite length_app; symmetry; apply (Nat.div_unique _ _ _ 0); lia).
  assert (Em : (length (M ++ T) mod 64 = 0)%nat) by (rewrite length_app; symmetry; apply (Nat.mod_unique _ _ (q + 1)); lia).
  split; [|done]. split; [done|]. split; [done|]. split; [by apply Forall_app|]. split.
  - assert (EM : M ++ T = take (64 * q) M ++ (drop (64 * q) M ++ T)) by by rewrite app_assoc, take_drop.
    assert (Eb : rfc_blocks q rfc_init M = rfc_blocks q rfc_init (take (64 * q) M)).
    { rewrite <- (take_drop (64 * q) M) at 1. apply rfc_blocks_prefix. rewrite length_take. lia. }
    rewrite E1, Eq, Hst, Eb, EM. rewrite rfc_blocks_app by (rewrite length_take; lia). done.
  - rewrite Em, Eq. rewrite take_0, drop_ge; [done|]. rewrite length_app. lia.
Qed.

Lemma md5_update_ok M ctx input (l : nat) :
  holds M ctx -> (l <= length input)%nat -> Forall is_u8 input -> zlen M + Z.of_nat l < 2 ^ 32 ->
  wp (md5_update ctx input (Z.of_nat l)) (holds (M ++ take l input)).
Proof.
  intros (Ht0 & Ht1 & Habs) Hl Hin Hb. unfold md5_update. pose proof (zlen_nonneg M).
  destruct (Z.leb_spec (Z.of_nat l) 0).
  { apply wp_ret. replace l with O by lia. by rewrite take_0, app_nil_r. }
  rewrite Ht0, Ht1, land_63, zlen_mod64.
  replace (Z.land (u64 (zlen M + Z.of_nat l)) 0xFFFFFFFF) with (zlen M + Z.of_nat l).
  2: { rewrite u64_id by (unfold is_u64; lia). change 0xFFFFFFFF with (Z.ones 32). rewrite Z.land_ones by lia.
       by rewrite Z.mod_small by lia. }
  destruct (Z.ltb_spec (zlen M + Z.of_nat l) (Z.of_nat l)); [lia|].
  assert (Hz : zlen M + Z.of_nat l = zlen (M ++ take l input)) by (rewrite zlen_app; unfold zlen; rewrite length_take; lia).
  set (r := (length M mod 64)%nat) in *. pose proof (Nat.mod_upper_bound (length M) 64 ltac:(lia)) as Hr. fold r in Hr.
  apply wp_bind. destruct (Z.eqb_spec (Z.of_nat r) 0); cbn [negb andb].
  - apply wp_ret. rewrite Nat2Z.id. eapply wp_mono; [apply (absorb_rest M); try done; by left; lia|].
    intros c (E0 & E1 & Ha). split; [by rewrite E0|done].
  - destruct (Z.leb_spec (64 - Z.of_nat r) (Z.of_nat l)).
    + set (fill := (64 - r)%nat). replace (64 - Z.of_nat r) with (Z.of_nat fill) by lia.
      pose proof (absorb_block M (state ctx) (buffer ctx) input fill Habs Hin ltac:(lia) ltac:(lia)) as Hblk.
      fold r in Hblk. destruct Hblk as ([st1 buf1] & E & Ha & Hm0). cbn [fst snd] in Ha.
      destruct (fill_buffer (buffer ctx) (Z.of_nat r) input (Z.of_nat fill)) as [b1|] eqn:Ef; [|discriminate E].
      cbn [mbind outcome_bind] in E |- *. destruct (md5_process (state ctx) b1) as [s1|] eqn:Ep; [|discriminate E].
      cbn [mbind outcome_bind] in E |- *. injection E as -> ->. apply wp_ret. rewrite Nat2Z.id.
      replace (Z.of_nat l - Z.of_nat fill) with (Z.of_nat (l - fill)) by lia. rewrite Nat2Z.id.
      pose proof (absorb_rest _ st1 buf1 (drop fill input) (l - fill) (zlen M + Z.of_nat l) 0 Ha) as Hr2.
      rewrite Hm0 in Hr2. eapply wp_mono; [apply Hr2; [rewrite length_drop; lia|by apply Forall_drop|by left]|].
      intros c (E0 & E1 & Ha2). rewrite <- app_assoc, take_take_drop in Ha2.
      replace (fill + (l - fill))%nat with l in Ha2 by lia. split; [by rewrite E0|done].
    + apply wp_ret. rewrite Nat2Z.id. eapply wp_mono; [apply (absorb_rest M); try done; right; lia|].
      intros c (E0 & E1 & Ha). split; [by rewrite E0|done].
Qed.

(** * Padding and output *)

Lemma u8_shiftr_u32 a k : 0 <= k <= 24 -> u8 (Z.shiftr (u32 a) k) = u8 (Z.shiftr a k).
Proof.
  intros Hk. apply Z.bits_inj'. intros i Hi. unfold u8. destruct (Z.lt_ge_cases i 8).
  - rewrite !Z.mod_pow2_bits_low by done. rewrite !Z.shiftr_spec by done. rewrite testbit_u32 by lia.
    destruct (Z.ltb_spec (i + k) 32); [done|lia].
  - by rewrite !Z.mod_pow2_bits_high by lia.
Qed.

Lemma PUT_le a : PUT_ULONG_LE a = le_bytes 4 (u32 a).
Proof.
  unfold PUT_ULONG_LE, le_bytes. change (seqZ 0 (Z.of_nat 4)) with [0; 1; 2; 3]. cbn [fmap list_fmap].
  rewrite <- !Z.shiftr_div_pow2 by lia.
  change ((Z.shiftr (u32 a) (8 * 0)) mod 2 ^ 8) with (u8 (Z.shiftr (u32 a) 0)).
  change ((Z.shiftr (u32 a) (8 * 1)) mod 2 ^ 8) with (u8 (Z.shiftr (u32 a) 8)).
  change ((Z.shiftr (u32 a) (8 * 2)) mod 2 ^ 8) with (u8 (Z.shiftr (u32 a) 16)).
  change ((Z.shiftr (u32 a) (8 * 3)) mod 2 ^ 8) with (u8 (Z.shiftr (u32 a) 24)).
  rewrite !u8_shiftr_u32 by lia. by rewrite Z.shiftr_0_r.
Qed.

(** The length field of the padding. *)
Lemma msglen_le n :
  0 <= n < 2 ^ 32 ->
  PUT_ULONG_LE (u64 (Z.shiftl n 3)) ++ PUT_ULONG_LE (Z.lor (Z.shiftr n 29) (u64 (Z.shiftl 0 3))) =
  le_bytes 8 ((8 * n) mod 2 ^ 64).
Proof.
  intros Hn. rewrite !Z.shiftl_mul_pow2, Z.shiftr_div_pow2 by lia. change (u64 (0 * 2 ^ 3)) with 0. rewrite Z.lor_0_r.
  rewrite u64_id by (unfold is_u64; lia). rewrite Z.mod_small by lia. replace (n * 2 ^ 3) with (8 * n) by lia.
  replace (n / 2 ^ 29) with ((8 * n) / 2 ^ 32).
  2: { change (2 ^ 32) with (8 * 2 ^ 29). by rewrite Z.div_mul_cancel_l by lia. }
  set (v := 8 * n). unfold PUT_ULONG_LE, le_bytes, u8.
  change (seqZ 0 (Z.of_nat 8)) with [0; 1; 2; 3; 4; 5; 6; 7]. cbn [fmap list_fmap app].
  rewrite !Z.shiftr_div_pow2 by lia. rewrite !Z.div_div by lia. rewrite Z.div_1_r. done.
Qed.

Lemma padding_eq n :
  0 <= n -> let last := n mod 64 in
  let padn := if last <? 56 then 56 - last else 120 - last in
  padn = 1 + (55 - n) mod 64 /\ 1 <= padn <= 64.
Proof.
  intros Hn. cbn zeta. pose proof (Z.div_mod n 64). pose proof (Z.mod_pos_bound n 64).
  assert (E : (if n mod 64 <? 56 then 56 - n mod 64 else 120 - n mod 64) = 1 + (55 - n) mod 64).
  { destruct (Z.ltb_spec (n mod 64) 56).
    - assert (55 - n mod 64 = (55 - n) mod 64) by (apply (Z.mod_unique_pos _ _ (- (n / 64))); lia). lia.
    - assert (119 - n mod 64 = (55 - n) mod 64) by (apply (Z.mod_unique_pos _ _ (- (n / 64) - 1)); lia). lia. }
  rewrite E. pose proof (Z.mod_pos_bound (55 - n) 64). lia.
Qed.

Lemma take_padding k : 0 <= k < 64 -> take (Z.to_nat (1 + k)) md5_padding = [0x80] ++ zreplicate k 0.
Proof.
  intros Hk. unfold md5_padding, zreplicate. replace (Z.to_nat (1 + k)) with (S (Z.to_nat k)) by lia.
  cbn [take app]. f_equal. rewrite take_replicate. f_equal. lia.
Qed.

Lemma holds_start junk : length junk = 64%nat -> Forall is_u8 junk -> holds [] (md5_starts junk).
Proof. intros Hj Hb. split; [done|]. split; [done|]. split; [done|]. split; [done|]. split; [done|]. split; [by vm_compute|done]. Qed.

Lemma md5_padding_bytes : Forall is_u8 md5_padding.
Proof. unfold md5_padding. constructor; [unfold is_u8; lia|]. apply Forall_replicate. unfold is_u8. lia. Qed.

Lemma le_bytes_u8 n v : Forall is_u8 (le_bytes n v).
Proof. unfold le_bytes. apply Forall_fmap, list.Forall_forall. intros i _. cbn. unfold is_u8. apply Z.mod_pos_bound. lia. Qed.

Lemma md5_finish_ok M ctx :
  holds M ctx -> zlen M + 72 < 2 ^ 32 -> md5_finish ctx = Ok (rfc_md5 M).
Proof.
  intros Hh Hl. pose proof (zlen_nonneg M) as H0. pose proof Hh as (Ht0 & Ht1 & _).
  unfold md5_finish. rewrite Ht0, Ht1, land_63, msglen_le by lia.
  destruct (padding_eq (zlen M) H0) as [Ep Hp]. cbn zeta in Ep, Hp. rewrite Ep in *. clear Ep.
  set (k := (55 - zlen M) mod 64) in *.
  pose proof (md5_update_ok M ctx md5_padding (Z.to_nat (1 + k)) Hh ltac:(cbn; lia) md5_padding_bytes ltac:(lia)) as W1.
  rewrite Z2Nat.id in W1 by lia. destruct W1 as (c1 & -> & H1). cbn [mbind outcome_bind].
  rewrite take_padding in H1 by lia.
  set (msglen := le_bytes 8 ((8 * zlen M) mod 2 ^ 64)).
  assert (Hz1 : zlen (M ++ [128] ++ zreplicate k 0) = zlen M + 1 + k).
  { rewrite !zlen_app, zlen_replicate. change (zlen [128]) with 1. lia. }
  pose proof (md5_update_ok _ c1 msglen 8 H1 ltac:(done) (le_bytes_u8 _ _) ltac:(lia)) as W2.
  change (Z.of_nat 8) with 8 in W2. destruct W2 as (c2 & -> & H2). cbn [mbind outcome_bind].
  rewrite (take_ge msglen 8) in H2 by done. destruct H2 as (_ & _ & _ & _ & _ & Hst & _).
  replace ((M ++ [128] ++ zreplicate k 0) ++ msglen) with (rfc_pad M) in Hst
    by (unfold rfc_pad; by rewrite <- !app_assoc).
  unfold rfc_md5. replace (Z.to_nat (zlen (rfc_pad M) / 64)) with (length (rfc_pad M) / 64)%nat.
  2: { unfold zlen. rewrite <- (Nat2Z.inj_div _ 64). by rewrite Nat2Z.id. }
  rewrite <- Hst. destruct (state c2) as [[[a b] c] d]. cbn [low]. by rewrite !PUT_le.
Qed.

(** C18: the streaming MD5 in 64-bit arithmetic returns the RFC 1321 digest of every
    message below 2^31 bytes, in full or its first four bytes; the digest is defined as
    the RFC does, with padding, schedule and 32-bit words, additive constants 2^32 times
    |sin i| computed from the power series of the sine, and the initial words from their
    byte order. *)
Theorem md5_is_rfc1321 (junk msg : list Z) (type : md5_type) :
  length junk = 64%nat -> Forall is_u8 junk -> Forall is_u8 msg -> zlen msg < 2 ^ 31 ->
  md5 junk msg (zlen msg) type =
    Ok (match type with md5_32 => take 4 (rfc_md5 msg) | md5_128 => rfc_md5 msg end).
Proof.
  intros Hj Hjb Hm Hl. unfold md5.
  destruct (md5_update_ok [] (md5_starts junk) msg (length msg)) as (c & E & Hc);
    [by apply holds_start|done|done|change (zlen []) with 0; unfold zlen in Hl; lia|].
  fold (zlen msg) in E. rewrite E. cbn [mbind outcome_bind]. cbn [app] in Hc. rewrite firstn_all in Hc.
  rewrite (md5_finish_ok msg c Hc) by lia. cbn [mbind outcome_bind]. destruct type; [done|].
  f_equal. apply take_ge. unfold rfc_md5. destruct (rfc_blocks _ _ _) as [[[a b] c'] d].
  rewrite !length_app. unfold le_bytes. rewrite !length_fmap, !length_seqZ. cbn. lia.
Qed.

(** The MD5 of the three letters abc. *)
Lemma md5_is_rfc1321_witness :
  md5 (replicate 64 7) [97; 98; 99] 3 md5_32 = Ok [0x90; 0x01; 0x50; 0x98].
Proof.
  replace [0x90; 0x01; 0x50; 0x98] with (take 4 (rfc_md5 [97; 98; 99])) by (vm_compute; reflexivity).
  apply (md5_is_rfc1321 (replicate 64 7) [97; 98; 99] md5_32).
  - reflexivity.
  - apply Forall_replicate. unfold is_u8. lia.
  - repeat constructor; unfold is_u8; lia.
  - vm_compute. reflexivity.
Defined.
