(* ===== verification/Fenwick.v ===== *)
(** The Fenwick tree of cpp/datastructure/tree/binary_index_tree.h.

    Two trees hold the differences [D] of the stored array and the products
    [i * D i]; range updates and range sums follow from prefix sums of both.  The
    element type [T] is [int], as in the repository: every value is narrowed to 32
    bits when it is stored in a tree, and the sums are computed in 64 bits.  Signed
    overflow, undefined in the source, wraps around.  So an entry is exact modulo
    2^32, and the answers are exact when the elements of the array are small enough
    for the entries to fit. *)

From S2P Require Import Prelude.

Record BinaryIndexTree := MkBit {
  size_ : Z;
  diff_ : list Z;
  idiff_ : list Z
}.

(** The constructor for [n] elements. *)
Definition new_bit (n : Z) : BinaryIndexTree := MkBit n (zreplicate (n + 1) 0) (zreplicate (n + 1) 0).

Definition lowbit (i : Z) : Z := Z.land i (- i).

(** [arr[i] += d] on a vector of [int]. *)
Definition add_at (arr : list Z) (i d : Z) : outcome (list Z) := x ← vget arr i; vset arr i (s32 (x + d)).

(** [resize(n, 0)] *)
Definition resize (n : Z) (l : list Z) : list Z :=
  take (Z.to_nat n) l ++ zreplicate (n - zlen l) 0.

Definition init (vec : list Z) (t : BinaryIndexTree) : outcome BinaryIndexTree :=
  let n := zlen vec in
  let t := MkBit n (resize (n + 1) (diff_ t)) (resize (n + 1) (idiff_ t)) in
  for_range 1 (n + 1) (fun i t =>
    x ← vget vec (i - 1);
    d ← (if i =? 1 then Ok x else p ← vget vec (i - 2); Ok (s32 (x - p)));
    df ← add_at (diff_ t) i d;
    idf ← add_at (idiff_ t) i (s64 (i * d));
    let j := i + lowbit i in
    if j <=? n then
      a ← vget df i; df ← add_at df j a;
      b ← vget idf i; idf ← add_at idf j b;
      Ok (MkBit n df idf)
    else Ok (MkBit n df idf)) t.

(** The loop of [__update], state [(i, diff_, idiff_)]; [i] is a 32-bit int. *)
Definition update_step (size val ival : Z) (st : Z * list Z * list Z)
  : outcome (Z * list Z * list Z + list Z * list Z) :=
  let '(i, df, idf) := st in
  if i <=? size then
    df ← add_at df i val; idf ← add_at idf i ival;
    Ok (inl (s32 (i + lowbit i), df, idf))
  else Ok (inr (df, idf)).

Definition update_from (i val : Z) (t : BinaryIndexTree) : outcome BinaryIndexTree :=
  let i := s32 i in
  let i := if i <=? 0 then 1 else i in
  let ival := s32 (i * val) in
  '(df, idf) ← while_fuel (S (Z.to_nat (size_ t))) (update_step (size_ t) val ival) (i, diff_ t, idiff_ t);
  Ok (MkBit (size_ t) df idf).

Definition range_update (left right val : Z) (t : BinaryIndexTree) : outcome BinaryIndexTree :=
  t ← update_from left val t;
  update_from (right + 1) (s32 (- val)) t.

Definition update (i val : Z) (t : BinaryIndexTree) : outcome BinaryIndexTree := range_update i i val t.

(** [while (i) { result += arr[i]; i -= __lowbit(i); }], state [(i, result)]. *)
Definition sum_step (arr : list Z) (st : Z * Z) : outcome (Z * Z + Z) :=
  let '(i, result) := st in
  if i =? 0 then Ok (inr result)
  else x ← vget arr i; Ok (inl (i - lowbit i, s64 (result + x))).

Definition sum_to (arr : list Z) (i : Z) : outcome Z := while_fuel (S (Z.to_nat i)) (sum_step arr) (i, 0).

Definition query (i : Z) (t : BinaryIndexTree) : outcome Z := sum_to (diff_ t) i.

Definition range_sum (l r : Z) (t : BinaryIndexTree) : outcome Z :=
  a ← sum_to (diff_ t) r; b ← sum_to (idiff_ t) r;
  c ← sum_to (diff_ t) (l - 1); d ← sum_to (idiff_ t) (l - 1);
  Ok (s64 ((r + 1) * a - b - l * c + d)).

Definition prefix_sum (i : Z) (t : BinaryIndexTree) : outcome Z := range_sum 1 (s32 i) t.

(** * The lowest bit *)

Lemma lowbit_double i : lowbit (2 * i) = 2 * lowbit i.
Proof.
  unfold lowbit. replace (- (2 * i)) with (2 * - i) by lia.
  rewrite !(Z.mul_comm 2). change 2 with (2 ^ 1). rewrite <- !Z.shiftl_mul_pow2 by lia. by rewrite Z.shiftl_land.
Qed.

Lemma lowbit_odd m : lowbit (2 * m + 1) = 1.
Proof.
  unfold lowbit. replace (- (2 * m + 1)) with (2 * Z.lnot m + 1) by (unfold Z.lnot; lia).
  apply Z.bits_inj'. intros n Hn. rewrite Z.land_spec. destruct (Z.eq_dec n 0) as [->|].
  - by rewrite !Z.testbit_odd_0.
  - replace n with (Z.succ (Z.pred n)) by lia. rewrite !Z.testbit_odd_succ by lia.
    rewrite Z.lnot_spec by lia. change 1 with (2 * 0 + 1). rewrite Z.testbit_odd_succ, Z.bits_0 by lia.
    by destruct (Z.testbit m (Z.pred n)).
Qed.

(** [i = 2 ^ a * (2 m + 1)] and the lowest bit is [2 ^ a]. *)
Lemma lowbit_spec i : 0 < i -> exists a m, 0 <= a /\ 0 <= m /\ i = 2 ^ a * (2 * m + 1) /\ lowbit i = 2 ^ a.
Proof.
  induction i as [i IH] using (well_founded_induction (Z.lt_wf 0)). intros Hi.
  pose proof (Z.div_mod i 2). pose proof (Z.mod_pos_bound i 2).
  destruct (Z.eq_dec (i mod 2) 0).
  - destruct (IH (i / 2)) as (a & m & Ha & Hm & E & El); [lia|lia|].
    exists (Z.succ a), m. rewrite Z.pow_succ_r by lia. split; [lia|]. split; [done|]. split; [lia|].
    replace i with (2 * (i / 2)) by lia. by rewrite lowbit_double, El.
  - exists 0, (i / 2). split; [lia|]. split; [lia|]. rewrite Z.pow_0_r. split; [lia|].
    replace i with (2 * (i / 2) + 1) at 1 by lia. apply lowbit_odd.
Qed.

Lemma lowbit_bounds i : 0 < i -> 0 < lowbit i <= i.
Proof. intros Hi. destruct (lowbit_spec i Hi) as (a & m & Ha & Hm & E & ->). split; [lia|]. rewrite E. nia. Qed.

(** Entry [k] of the tree covers the elements from [k - lowbit k + 1] to [k]. *)
Definition covers (k i : Z) : Prop := k - lowbit k < i <= k.

#[global] Instance covers_dec k i : Decision (covers k i).
Proof. unfold covers. apply _. Defined.

(** The loop of [__update] visits exactly the entries that cover [i]. *)
Lemma covers_next k i : 0 < i -> 0 < k -> covers k i <-> k = i \/ covers k (i + lowbit i).
Proof.
  intros Hi Hk. destruct (lowbit_spec i Hi) as (a & m & Ha & Hm & Ei & Eli).
  destruct (lowbit_spec k Hk) as (b & p & Hb & Hp & Ek & Elk). unfold covers. rewrite Eli, Elk.
  assert (Pa : 0 < 2 ^ a) by lia. assert (Pb : 0 < 2 ^ b) by lia.
  destruct (Z.le_gt_cases b a) as [Hba|Hba].
  - (* 2^b divides i *)
    replace a with (b + (a - b)) in * by lia. rewrite Z.pow_add_r in * by lia. set (c := 2 ^ (a - b)) in *.
    assert (0 < c) by (unfold c; lia). set (B := 2 ^ b) in *. set (t := c * (2 * m + 1)) in *.
    replace i with (B * t) in * by (unfold t; lia). split.
    + intros [H1 H2]. left. assert (2 * p < t) by nia. assert (t <= 2 * p + 1) by nia.
      replace t with (2 * p + 1) by lia. lia.
    + intros [Hki|[H1 H2]]; [nia|]. exfalso. assert (2 * p < t + c) by nia. assert (t + c <= 2 * p + 1) by nia.
      assert (t + c = 2 * (c * (m + 1))) by (unfold t; lia). lia.
  - (* 2^(a+1) divides k *)
    replace b with (a + (1 + (b - a - 1))) in * by lia. rewrite !Z.pow_add_r in * by lia. change (2 ^ 1) with 2 in *.
    set (e := 2 ^ (b - a - 1)) in *. assert (0 < e) by (unfold e; lia). set (A := 2 ^ a) in *.
    set (u := e * p). assert (Hk2 : k = A * (4 * u + 2 * e)) by (unfold u; lia).
    assert (H1 : k - A * (2 * e) < i <-> 2 * u <= m) by nia.
    assert (H2 : i <= k <-> m + 1 <= 2 * u + e) by nia.
    assert (H3 : k - A * (2 * e) < i + A <-> 2 * u < m + 1) by nia.
    assert (H4 : i + A <= k <-> m + 1 <= 2 * u + e) by nia.
    assert (H5 : k <> i) by nia. lia.
Qed.

(** * Sums *)

(** [f 1 + ... + f n] *)
Definition sum_upto (f : Z -> Z) (n : Z) : Z := foldr Z.add 0 (f <$> seqZ 1 n).

Lemma foldr_add_app l1 l2 : foldr Z.add 0 (l1 ++ l2) = foldr Z.add 0 l1 + foldr Z.add 0 l2.
Proof. induction l1 as [|a l1 IH]; cbn; [done|]. rewrite IH. lia. Qed.

Lemma sum_upto_0 f : sum_upto f 0 = 0.
Proof. done. Qed.

Lemma sum_upto_succ f n : 0 <= n -> sum_upto f (n + 1) = sum_upto f n + f (n + 1).
Proof.
  intros Hn. unfold sum_upto. rewrite (seqZ_app 1 n 1), seqZ_1, fmap_app, foldr_add_app by lia. cbn.
  rewrite (Z.add_comm 1 n). lia.
Qed.

Lemma sum_upto_ind (P : Z -> Prop) : P 0 -> (forall n, 0 <= n -> P n -> P (n + 1)) -> forall n, 0 <= n -> P n.
Proof. intros H0 HS. apply natlike_ind; [done|]. intros n Hn. by apply HS. Qed.

Lemma sum_upto_ext f g n : 0 <= n -> (forall i, 1 <= i <= n -> f i = g i) -> sum_upto f n = sum_upto g n.
Proof.
  intros Hn. revert n Hn. apply (sum_upto_ind (fun n => (forall i, 1 <= i <= n -> f i = g i) -> _)); [done|].
  intros n Hn IH E. rewrite !sum_upto_succ by done. rewrite IH, E by (intros; try apply E; lia). done.
Qed.

Lemma sum_upto_zero n : 0 <= n -> sum_upto (fun _ => 0) n = 0.
Proof. revert n. apply sum_upto_ind; [done|]. intros n Hn IH. rewrite sum_upto_succ, IH by done. done. Qed.

Lemma sum_upto_add f g n : 0 <= n -> sum_upto (fun i => f i + g i) n = sum_upto f n + sum_upto g n.
Proof. revert n. apply sum_upto_ind; [done|]. intros n Hn IH. rewrite !sum_upto_succ, IH by done. lia. Qed.

(** A function that is [v] at [k] and zero elsewhere. *)
Lemma sum_upto_point k v n : 0 <= n -> 1 <= k -> sum_upto (fun i => if i =? k then v else 0) n = if k <=? n then v else 0.
Proof.
  intros Hn Hk. revert n Hn. apply sum_upto_ind.
  - zcase; [lia|done].
  - intros n Hn IH. rewrite sum_upto_succ, IH by done. repeat zcase; lia.
Qed.

(** [f (a + 1) + ... + f b] *)
Definition sum_between (f : Z -> Z) (a b : Z) : Z := sum_upto f b - sum_upto f a.

(** * The invariant

    [tree_of n f arr]: entry [k] of [arr] is the sum of [f] over the elements it
    covers, in 32 bits; [fits n f]: these sums need no more. *)
Definition tree_of (n : Z) (f : Z -> Z) (arr : list Z) : Prop :=
  zlen arr = n + 1 /\ forall k, 1 <= k <= n -> zget arr k = Some (s32 (sum_between f (k - lowbit k) k)).

Definition fits (n : Z) (f : Z -> Z) : Prop := forall k, 1 <= k <= n -> is_s32 (sum_between f (k - lowbit k) k).

Lemma sum_between_point a b k v :
  0 <= a -> 0 <= b -> 1 <= k ->
  sum_between (fun i => if i =? k then v else 0) a b = (if k <=? b then v else 0) - (if k <=? a then v else 0).
Proof. intros Ha Hb Hk. unfold sum_between. by rewrite !sum_upto_point. Qed.

Lemma tree_start n : 0 <= n -> tree_of n (fun _ => 0) (zreplicate (n + 1) 0).
Proof.
  intros Hn. split; [rewrite zlen_replicate; lia|]. intros k Hk. rewrite zget_replicate by lia. f_equal.
  pose proof (lowbit_bounds k). unfold sum_between. rewrite !sum_upto_zero by lia. done.
Qed.

(** Prefix sums. *)
Lemma sum_to_ok n f arr i :
  tree_of n f arr -> fits n f -> 0 <= i <= n -> wp (sum_to arr i) (fun r => r = s64 (sum_upto f i)).
Proof.
  intros [Hl Ht] Hf Hi. unfold sum_to.
  apply (wp_while (fun st => 0 <= st.1 <= i /\ st.2 = s64 (sum_upto f i - sum_upto f st.1)) (fun st => Z.to_nat st.1)).
  - cbn [fst snd]. rewrite Z.sub_diag. split; [lia|done].
  - cbn. lia.
  - intros [j r] [Hj Hr]. cbn [fst snd] in *. unfold sum_step. destruct (Z.eqb_spec j 0) as [->|].
    + apply wp_ret. by rewrite sum_upto_0, Z.sub_0_r in Hr.
    + pose proof (lowbit_bounds j ltac:(lia)). apply wp_bind, wp_vget; [lia|]. intros x Hx.
      rewrite Ht in Hx by lia. injection Hx as <-. apply wp_ret. cbn [fst snd]. split; [|lia]. split; [lia|].
      rewrite s32_id by (apply Hf; lia). rewrite Hr, s64_add_l. f_equal. unfold sum_between. lia.
Qed.

(** ** Building the tree *)

(** What entry [k] holds in the finished tree, and what the entries up to [m]
    have passed on to it. *)
Definition entry (f : Z -> Z) (k : Z) : Z := sum_between f (k - lowbit k) k.
Definition received (f : Z -> Z) (k m : Z) : Z := sum_upto (fun c => if c + lowbit c =? k then entry f c else 0) m.

Lemma sum_upto_scale a f n : 0 <= n -> a * sum_upto f n = sum_upto (fun i => a * f i) n.
Proof. revert n. apply sum_upto_ind; [rewrite !sum_upto_0; lia|]. intros n Hn IH. rewrite !sum_upto_succ, <- IH by done. lia. Qed.

Lemma sum_upto_swap F m n :
  0 <= m -> 0 <= n -> sum_upto (fun c => sum_upto (F c) n) m = sum_upto (fun j => sum_upto (fun c => F c j) m) n.
Proof.
  intros Hm Hn. revert m Hm. apply sum_upto_ind.
  - symmetry. by apply sum_upto_zero.
  - intros m Hm IH. rewrite sum_upto_succ, IH, <- sum_upto_add by done. apply sum_upto_ext; [done|].
    intros j Hj. by rewrite sum_upto_succ.
Qed.

Lemma entry_covers f k n :
  1 <= k <= n -> entry f k = sum_upto (fun j => if decide (covers k j) then f j else 0) n.
Proof.
  intros Hk. pose proof (lowbit_bounds k ltac:(lia)). unfold entry.
  enough (H' : forall n, 0 <= n -> sum_upto (fun j => if decide (covers k j) then f j else 0) n =
    if n <=? k - lowbit k then 0 else if n <=? k then sum_between f (k - lowbit k) n else sum_between f (k - lowbit k) k).
  { rewrite H' by lia. repeat zcase; try lia. by replace n with k by lia. }
  unfold covers. apply sum_upto_ind.
  - zcase; [done|lia].
  - intros m Hm IH. rewrite sum_upto_succ, IH by done. unfold sum_between.
    destruct (decide (k - lowbit k < m + 1 <= k)); repeat zcase; try lia; rewrite ?sum_upto_succ by lia; try lia.
    all: first [replace m with (k - lowbit k) by lia; lia | replace k with m by lia; lia].
Qed.

(** Every element below [k] that [k] covers is covered by exactly one entry that
    passes its sum on to [k]. *)
Lemma one_child k j :
  1 <= k -> 1 <= j ->
  sum_upto (fun c => if c + lowbit c =? k then if decide (covers c j) then 1 else 0 else 0) (k - 1) =
  if decide (covers k j /\ j < k) then 1 else 0.
Proof.
  intros Hk. remember (Z.to_nat (k - j)) as d eqn:Ed. revert j Ed.
  induction d as [d IH] using lt_wf_ind. intros j -> Hj. pose proof (lowbit_bounds j ltac:(lia)).
  destruct (Z.le_gt_cases k j) as [Hkj|Hkj].
  { rewrite decide_False by lia. rewrite (sum_upto_ext _ (fun _ => 0)); [apply sum_upto_zero; lia|lia|].
    intros c Hc. rewrite decide_False by (unfold covers; lia). by zcase. }
  rewrite (sum_upto_ext _ (fun c => (if c =? j then if j + lowbit j =? k then 1 else 0 else 0) +
    (if c + lowbit c =? k then if decide (covers c (j + lowbit j)) then 1 else 0 else 0))); [|lia|].
  - rewrite sum_upto_add, sum_upto_point by lia. rewrite (IH (Z.to_nat (k - (j + lowbit j)))) by lia.
    pose proof (covers_next k j ltac:(lia) ltac:(lia)) as Hn. destruct (Z.leb_spec j (k - 1)); [|lia].
    destruct (Z.eqb_spec (j + lowbit j) k) as [E|E].
    + rewrite decide_False by lia. rewrite decide_True; [done|]. split; [|done]. apply Hn. right. rewrite E. unfold covers.
      pose proof (lowbit_bounds k). lia.
    + rewrite Z.add_0_l. assert (covers k (j + lowbit j) -> j + lowbit j < k) by (unfold covers; lia).
      f_equal. apply decide_ext. rewrite Hn. split; [intros [? ?]; split; [by right|lia]|intros [[->|?] ?]; [lia|auto]].
  - intros c Hc. pose proof (covers_next c j ltac:(lia) ltac:(lia)) as Hn.
    destruct (Z.eqb_spec c j) as [->|E].
    + rewrite (decide_True (P := covers j j)) by (unfold covers; lia).
      rewrite decide_False by (unfold covers; lia). repeat zcase; lia.
    + rewrite (decide_ext (covers c j) (covers c (j + lowbit j))) by tauto. lia.
Qed.

Lemma entry_split f k : 1 <= k -> entry f k = f k + received f k (k - 1).
Proof.
  intros Hk. pose proof (lowbit_bounds k ltac:(lia)). unfold received.
  rewrite (sum_upto_ext _ (fun c => sum_upto (fun j =>
    f j * (if c + lowbit c =? k then if decide (covers c j) then 1 else 0 else 0)) k)); [|lia|].
  - rewrite sum_upto_swap by lia. rewrite (entry_covers f k k) by lia.
    transitivity (sum_upto (fun j => (if j =? k then f k else 0) + f j * (if decide (covers k j /\ j < k) then 1 else 0)) k).
    + apply sum_upto_ext; [lia|]. intros j Hj. zcase; [subst; rewrite decide_True by (unfold covers; lia); rewrite decide_False by lia; lia|].
      rewrite (decide_ext (covers k j) (covers k j /\ j < k)) by (split; [intros ?; split; [done|lia]|tauto]). case_decide; lia.
    + rewrite sum_upto_add, sum_upto_point by lia. destruct (Z.leb_spec k k); [|lia]. f_equal. apply sum_upto_ext; [lia|].
      intros j Hj. rewrite <- one_child by lia. rewrite sum_upto_scale by lia. done.
  - intros c Hc. zcase; [rewrite (entry_covers f c k) by lia; apply sum_upto_ext; [lia|]; intros j Hj; case_decide; lia|].
    rewrite (sum_upto_ext _ (fun _ => 0)), sum_upto_zero by lia. done.
Qed.

(** Before iteration [i] of [init] the entries below [i] are finished and the
    others hold what they received. *)
Definition building (n : Z) (f : Z -> Z) (i : Z) (arr : list Z) : Prop :=
  zlen arr = n + 1 /\ forall k, 1 <= k <= n -> zget arr k = Some (s32 (if k <? i then entry f k else received f k (i - 1))).

Lemma building_step n f i arr x arr1 :
  1 <= i <= n -> building n f i arr -> zget arr i = Some x -> arr1 = zset arr i (s32 (x + f i)) ->
  building n f (i + 1)
    (if i + lowbit i <=? n then zset arr1 (i + lowbit i) (s32 (default 0 (zget arr1 (i + lowbit i)) + default 0 (zget arr1 i))) else arr1).
Proof.
  intros Hi [Hl Hb] Hx ->. pose proof (lowbit_bounds i ltac:(lia)).
  assert (Ei : s32 (x + f i) = s32 (entry f i)).
  { rewrite Hb in Hx by done. destruct (Z.ltb_spec i i); [lia|]. injection Hx as <-. rewrite s32_add_l, (entry_split f i) by lia.
    f_equal. lia. }
  rewrite Ei. replace (i + 1 - 1) with (i - 1 + 1) by lia. split; [by zcase; rewrite ?zlen_zset|]. intros k Hk.
  assert (Er : received f k (i + 1 - 1) = received f k (i - 1) + if i + lowbit i =? k then entry f i else 0).
  { unfold received. replace (i + 1 - 1) with (i - 1 + 1) by lia. rewrite sum_upto_succ by lia. by replace (i - 1 + 1) with i by lia. }
  rewrite Er. pose proof (Hb k Hk) as Hk'.
  destruct (Z.leb_spec (i + lowbit i) n).
  - rewrite zget_zset by (rewrite zlen_zset; lia). rewrite (zget_zset_ne arr i (i + lowbit i)), (zget_zset_eq arr i) by lia.
    case_decide; [subst k|rewrite zget_zset by lia; case_decide; [subst k|]]; rewrite ?Hk'; cbn [default id]; repeat zcase; try lia; rewrite ?s32_add_l, ?s32_add_r; do 2 f_equal; lia.
  - rewrite zget_zset by lia. case_decide; [subst k|]; rewrite ?Hk'; repeat zcase; try lia; do 2 f_equal; lia.
Qed.

(** ** One point update *)

Lemma wp_add_at arr i d (Q : list Z -> Prop) :
  0 <= i < zlen arr -> (forall x, zget arr i = Some x -> Q (zset arr i (s32 (x + d)))) -> wp (add_at arr i d) Q.
Proof. intros Hi HQ. unfold add_at. apply wp_bind, wp_vget; [done|]. intros x Hx. apply wp_vset; [done|]. by apply HQ. Qed.

(** [arr'] is [arr] with [v] added to the entries that cover [i0] but not [i]. *)
Definition partly (n i0 i v : Z) (arr arr' : list Z) : Prop :=
  zlen arr' = n + 1 /\ forall k, 1 <= k <= n ->
    zget arr' k = (fun x => if decide (covers k i0 /\ ~ covers k i) then s32 (x + v) else x) <$> zget arr k.

Lemma partly_start n i0 v arr : zlen arr = n + 1 -> partly n i0 i0 v arr arr.
Proof.
  intros Ha. split; [done|]. intros k Hk. destruct (zget arr k); [|done]. cbn. by rewrite decide_False by tauto.
Qed.

Lemma partly_step n i0 i v arr arr' x :
  1 <= i <= n -> covers i i0 -> partly n i0 i v arr arr' -> zget arr' i = Some x ->
  partly n i0 (i + lowbit i) v arr (zset arr' i (s32 (x + v))).
Proof.
  intros Hi Hsub [Hl Hp] Hx. split; [by rewrite zlen_zset|]. intros k Hk.
  pose proof (covers_next k i ltac:(lia) ltac:(lia)) as Hnx. pose proof (lowbit_bounds i ltac:(lia)).
  rewrite zget_zset by lia. case_decide as Ek.
  - subst k. rewrite (Hp i Hk) in Hx. destruct (zget arr i) as [x0|]; [|done]. cbn in Hx |- *. injection Hx as <-.
    rewrite decide_False by (unfold covers; intros [_ Hc]; apply Hc; lia).
    by rewrite decide_True by (split; [done|]; unfold covers; lia).
  - rewrite (Hp k Hk). destruct (zget arr k); [|done]. cbn. f_equal.
    apply decide_ext. split; intros [? Hc]; (split; [done|]); intros Hc'; apply Hc; [apply Hnx; auto|].
    apply Hnx in Hc' as [|]; [lia|done].
Qed.

Lemma update_loop_ok n i0 val ival df idf :
  1 <= i0 -> zlen df = n + 1 -> zlen idf = n + 1 -> 0 <= n < 2 ^ 30 ->
  wp (while_fuel (S (Z.to_nat n)) (update_step n val ival) (i0, df, idf))
     (fun res => exists i, n < i /\ partly n i0 i val df res.1 /\ partly n i0 i ival idf res.2).
Proof.
  intros Hi0 Hd Hid Hn.
  apply (wp_while (fun st => let '(i, a, b) := st in
      i0 <= i /\ (forall k, 0 < k -> covers k i -> covers k i0) /\
      partly n i0 i val df a /\ partly n i0 i ival idf b)
    (fun st => Z.to_nat (n + 1 - st.1.1))).
  - split; [lia|]. split; [done|]. split; by apply partly_start.
  - cbn. lia.
  - intros [[i a] b] (Hi & Hsub & Pa & Pb). unfold update_step. destruct (Z.leb_spec i n).
    + pose proof (lowbit_bounds i ltac:(lia)). pose proof (proj1 Pa). pose proof (proj1 Pb).
      assert (Hc : covers i i0) by (apply Hsub; [lia|unfold covers; lia]).
      apply wp_bind, wp_add_at; [lia|]. intros x Hx. apply wp_bind, wp_add_at; [lia|]. intros y Hy. apply wp_ret.
      rewrite s32_id by (unfold is_s32; lia).
      split; [|cbn; lia]. split; [lia|]. split.
      * intros k Hk Hck. apply Hsub; [done|]. apply covers_next; [lia|done|by right].
      * split; (apply partly_step; [lia|done..]).
    + apply wp_ret. exists i. done.
Qed.

Lemma partly_tree n i0 i v f arr arr' :
  1 <= i0 -> n < i -> tree_of n f arr -> partly n i0 i (s32 v) arr arr' ->
  tree_of n (fun j => f j + (if j =? i0 then v else 0)) arr'.
Proof.
  intros Hi0 Hi [Hl Ht] [Hl' Hp]. split; [done|]. intros k Hk. rewrite (Hp k Hk), (Ht k Hk). cbn. f_equal.
  pose proof (lowbit_bounds k ltac:(lia)). unfold sum_between. rewrite !sum_upto_add, !sum_upto_point by lia.
  rewrite s32_add_l, s32_add_r.
  destruct (decide (covers k i0 /\ ~ covers k i)) as [[Hc _]|Hc]; unfold covers in *; f_equal; repeat zcase; lia.
Qed.

(** [D] is the difference array of the tree. *)
Definition holds (n : Z) (D : Z -> Z) (t : BinaryIndexTree) : Prop :=
  size_ t = n /\ 0 <= n < 2 ^ 30 /\ tree_of n D (diff_ t) /\ tree_of n (fun i => i * D i) (idiff_ t).

Lemma update_from_ok n D t i v v' :
  holds n D t -> 1 <= i <= n + 1 -> v' = s32 v ->
  wp (update_from i v' t) (holds n (fun j => D j + (if j =? i then v else 0))).
Proof.
  intros (Hs & Hn & Hd & Hi) Hi1 ->. unfold update_from. rewrite Hs, (s32_id i) by (unfold is_s32; lia). destruct (Z.leb_spec i 0); [lia|].
  apply wp_bind. eapply wp_mono; [apply update_loop_ok; [lia|apply Hd|apply Hi|done]|].
  intros [a b] (j & Hj & Pa & Pb). cbn [fst snd] in *. apply wp_ret. split; [done|]. split; [done|]. split.
  - eapply partly_tree; [|done..]. lia.
  - rewrite s32_mul_r in Pb. destruct (partly_tree _ _ _ _ _ _ _ (proj1 Hi1) Hj Hi Pb) as [Hl Ht]. split; [done|]. intros k Hk. rewrite Ht by done. do 2 f_equal.
    pose proof (lowbit_bounds k ltac:(lia)). unfold sum_between.
    f_equal; apply sum_upto_ext; try lia; intros m Hm; zcase; subst; lia.
Qed.

(** The differences of [vec]. *)
Definition vec_at (vec : list Z) (i : Z) : Z := default 0 (zget vec (i - 1)).
Definition vec_diff (vec : list Z) (i : Z) : Z := vec_at vec i - (if i =? 1 then 0 else vec_at vec (i - 1)).

Lemma sum_vec_diff vec i : 1 <= i -> sum_upto (vec_diff vec) i = vec_at vec i.
Proof.
  intros Hi. replace i with (i - 1 + 1) by lia. assert (Hi' : 0 <= i - 1) by lia. revert Hi'. generalize (i - 1).
  apply sum_upto_ind; [rewrite sum_upto_succ, sum_upto_0 by lia; unfold vec_diff; change (0 + 1 =? 1) with true; cbn [negb]; lia|]. intros n Hn IH. rewrite sum_upto_succ, IH by lia. unfold vec_diff.
  zcase; [lia|]. replace (n + 1 + 1 - 1) with (n + 1) by lia. lia.
Qed.

Lemma resize_zeros n m : 0 <= n -> 0 <= m -> resize n (zreplicate m 0) = zreplicate n 0.
Proof.
  intros Hn Hm. unfold resize. rewrite zlen_replicate. unfold zreplicate.
  rewrite take_replicate, <- replicate_add. f_equal. lia.
Qed.

Lemma building_start n f : 0 <= n -> building n f 1 (zreplicate (n + 1) 0).
Proof.
  intros Hn. split; [rewrite zlen_replicate; lia|]. intros k Hk. rewrite zget_replicate by lia. by zcase; [lia|].
Qed.

Lemma wp_building_step n f i arr d (Q : list Z -> Prop) :
  1 <= i <= n -> building n f i arr -> s32 d = s32 (f i) ->
  (forall x arr1, zlen arr1 = n + 1 -> arr1 = zset arr i (s32 (x + d)) ->
    building n f (i + 1) (if i + lowbit i <=? n then
      zset arr1 (i + lowbit i) (s32 (default 0 (zget arr1 (i + lowbit i)) + default 0 (zget arr1 i))) else arr1) -> Q arr1) ->
  wp (add_at arr i d) Q.
Proof.
  intros Hi Hb Hd HQ. pose proof (proj1 Hb) as Hl. apply wp_add_at; [lia|]. intros x Hx.
  apply (HQ x); [by rewrite zlen_zset|done|]. eapply building_step; [done|done|done|].
  by rewrite <- s32_add_r, Hd, s32_add_r.
Qed.

Lemma init_ok m vec :
  0 <= m -> zlen vec < 2 ^ 30 -> Forall is_s32 vec -> wp (init vec (new_bit m)) (holds (zlen vec) (vec_diff vec)).
Proof.
  intros Hm Hv Hr. pose proof (zlen_nonneg vec). unfold init. cbn [diff_ idiff_ new_bit]. rewrite resize_zeros by lia.
  apply (wp_for_range (fun i t => size_ t = zlen vec /\
    building (zlen vec) (vec_diff vec) i (diff_ t) /\ building (zlen vec) (fun i => i * vec_diff vec i) i (idiff_ t))).
  - lia.
  - split; [done|]. split; by apply building_start.
  - intros i [n df idf] Hi (Hs & Hd & Hid). cbn [diff_ idiff_ size_] in *. 
    apply wp_bind, wp_vget; [lia|]. intros x Hx.
    apply wp_bind. apply (wp_mono _ (fun d => d = s32 (vec_diff vec i))).
    { unfold vec_diff, vec_at. rewrite Hx. cbn [from_option id]. zcase.
      { apply wp_ret. rewrite Z.sub_0_r, s32_id; [done|]. rewrite list.Forall_forall in Hr. apply Hr. by eapply zget_elem. }
      apply wp_bind, wp_vget; [lia|]. intros p Hp. apply wp_ret. replace (i - 1 - 1) with (i - 2) by lia. by rewrite Hp. }
    intros d ->. apply wp_bind. eapply wp_building_step; [|exact Hd|by rewrite s32_s32|]; [lia|]. intros _ df1 L1 _ B1.
    apply wp_bind. eapply wp_building_step; [|exact Hid|by rewrite s32_s64, s32_mul_r|]; [lia|]. intros _ idf1 L2 _ B2.
    pose proof (lowbit_bounds i ltac:(lia)). destruct (Z.leb_spec (i + lowbit i) (zlen vec)).
    + apply wp_bind, wp_vget; [lia|]. intros a Ha. apply wp_bind, wp_add_at; [lia|]. intros y Hy.
      apply wp_bind, wp_vget; [lia|]. intros b Hb. apply wp_bind, wp_add_at; [lia|]. intros z Hz.
      rewrite Ha, Hy in B1. rewrite Hb, Hz in B2. apply wp_ret. done.
    + apply wp_ret. done.
  - intros t (Hs & [L1 B1] & [L2 B2]). split; [done|]. split; [lia|].
    split; (split; [done|]); intros k Hk; rewrite ?B1, ?B2 by done; (zcase; [done|lia]).
Qed.

(** * The array the tree stands for *)

(** [A i = D 1 + ... + D i] *)
Lemma query_ok n D t i : holds n D t -> fits n D -> 0 <= i <= n -> wp (query i t) (fun r => r = s64 (sum_upto D i)).
Proof. intros (_ & _ & Hd & _) Hf Hi. by apply (sum_to_ok n). Qed.

(** Summation by parts. *)
Lemma sum_by_parts D n :
  0 <= n -> sum_upto (sum_upto D) n = (n + 1) * sum_upto D n - sum_upto (fun i => i * D i) n.
Proof. revert n. apply sum_upto_ind; [done|]. intros n Hn IH. rewrite !sum_upto_succ, IH by done. nia. Qed.

Lemma range_sum_ok n D t l r :
  holds n D t -> fits n D -> fits n (fun i => i * D i) -> 1 <= l <= r + 1 -> r <= n ->
  wp (range_sum l r t) (fun s => s = s64 (sum_between (sum_upto D) (l - 1) r)).
Proof.
  intros (_ & _ & Hd & Hi) Hf1 Hf2 Hl Hr. unfold range_sum.
  apply wp_bind. eapply wp_mono; [apply (sum_to_ok n D); [done|done|lia]|]. intros a ->.
  apply wp_bind. eapply wp_mono; [apply (sum_to_ok n (fun i => i * D i)); [done|done|lia]|]. intros b ->.
  apply wp_bind. eapply wp_mono; [apply (sum_to_ok n D); [done|done|lia]|]. intros c ->.
  apply wp_bind. eapply wp_mono; [apply (sum_to_ok n (fun i => i * D i)); [done|done|lia]|]. intros d ->.
  apply wp_ret. unfold sum_between. rewrite !sum_by_parts by lia. apply s64_congr.
  destruct (s64_multiple (sum_upto D r)) as [q1 ->], (s64_multiple (sum_upto (fun i => i * D i) r)) as [q2 ->].
  destruct (s64_multiple (sum_upto D (l - 1))) as [q3 ->], (s64_multiple (sum_upto (fun i => i * D i) (l - 1))) as [q4 ->].
  match goal with |- ?x mod _ = ?y mod _ =>
    replace x with (y + ((r + 1) * q1 - q2 - l * q3 + q4) * 2 ^ 64) by lia end.
  by apply Z.mod_add.
Qed.

Lemma range_update_ok n D t l r v :
  holds n D t -> 1 <= l <= r + 1 -> r <= n -> is_s32 v ->
  wp (range_update l r v t) (holds n (fun j => D j + (if j =? l then v else 0) + (if j =? r + 1 then - v else 0))).
Proof.
  intros Ht Hl Hr Hv. unfold range_update. apply wp_bind. eapply wp_mono; [apply (update_from_ok n D _ _ v); [done|lia|by rewrite s32_id]|].
  intros t' Ht'. eapply wp_mono; [apply (update_from_ok n _ t' _ (- v) _ Ht'); [lia|]|]; [|done].
  done.
Qed.

(** * The tree refines an array with range updates *)

(** An array is a function on 1 .. n. *)
Definition array_add (l r v : Z) (A : Z -> Z) : Z -> Z := fun i => if (l <=? i) && (i <=? r) then A i + v else A i.

Definition update_op : Type := Z * Z * Z.

Fixpoint run_updates (ops : list update_op) (t : BinaryIndexTree) : outcome BinaryIndexTree :=
  match ops with
  | [] => Ok t
  | (l, r, v) :: ops => t ← range_update l r v t; run_updates ops t
  end.

Definition array_after (A : Z -> Z) (ops : list update_op) : Z -> Z :=
  foldl (fun A op => let '(l, r, v) := op in array_add l r v A) A ops.

Definition ops_ok (n : Z) (ops : list update_op) : Prop :=
  Forall (fun op => let '(l, r, v) := op in 1 <= l <= r /\ r <= n /\ is_s32 v) ops.

(** The array the tree stands for is [A]. *)
Definition represents (n : Z) (A : Z -> Z) (t : BinaryIndexTree) : Prop :=
  exists D, holds n D t /\ forall i, 1 <= i <= n -> sum_upto D i = A i.

Lemma run_updates_ok n ops A t :
  represents n A t -> ops_ok n ops -> wp (run_updates ops t) (represents n (array_after A ops)).
Proof.
  intros Hr Ho. revert A t Hr. induction Ho as [|[[l r] v] ops (Hl & Hrn & Hv) _ IH]; intros A t (D & Ht & HA); cbn [run_updates].
  { apply wp_ret. by exists D. }
  apply wp_bind. eapply wp_mono; [apply (range_update_ok n D); [done|lia|lia|done]|]. intros t' Ht'.
  apply (IH (array_add l r v A)). eexists. split; [exact Ht'|]. intros i Hi. unfold array_add.
  rewrite !sum_upto_add, !sum_upto_point, HA by lia. repeat zcase; cbn; lia.
Qed.

(** The elements of [A] are so small that all entries of both trees fit into 32
    bits. *)
Definition small (n : Z) (A : Z -> Z) : Prop :=
  exists M, (forall i, 1 <= i <= n -> Z.abs (A i) <= M) /\ 2 * n * M < 2 ^ 31.

Lemma sum_between_bound f M n a b :
  (forall i, 1 <= i <= n -> Z.abs (f i) <= M) -> 0 <= a -> a <= b <= n -> Z.abs (sum_between f a b) <= (b - a) * M.
Proof.
  intros Hf Ha Hb. replace b with (a + (b - a)) by lia. assert (H : 0 <= b - a <= n - a) by lia. revert H.
  generalize (b - a) as d. intros d [Hd Hn]. revert Hn. revert d Hd.
  apply (sum_upto_ind (fun d => d <= n - a -> _)); [intros _; unfold sum_between; rewrite Z.add_0_r; lia|].
  intros d Hd IH Hn. specialize (IH ltac:(lia)). specialize (Hf (a + d + 1) ltac:(lia)). unfold sum_between in *.
  replace (a + (d + 1)) with (a + d + 1) by lia. rewrite sum_upto_succ by lia. lia.
Qed.

Lemma small_fits n D : small n (sum_upto D) -> fits n D /\ fits n (fun i => i * D i).
Proof.
  intros (M & HM & Hn).
  enough (H : forall k, 1 <= k <= n -> Z.abs (sum_between D (k - lowbit k) k) <= 2 * k * M /\
    Z.abs (sum_between (fun i => i * D i) (k - lowbit k) k) <= 2 * k * M).
  { assert (0 <= n -> 0 <= n * M) by (intros; destruct (Z.eq_dec n 0) as [->|]; [lia|]; specialize (HM 1 ltac:(lia)); nia).
    split; intros k Hk; destruct (H k Hk) as [H1 H2]; unfold is_s32; nia. }
  intros k Hk. pose proof (lowbit_bounds k ltac:(lia)) as Hl. set (a := k - lowbit k) in *.
  pose proof (HM k Hk) as HAk.
  assert (HAa : Z.abs (sum_upto D a) <= M).
  { destruct (Z.eq_dec a 0) as [->|]; [rewrite sum_upto_0; lia|apply HM; lia]. }
  split; [unfold sum_between; nia|].
  pose proof (sum_between_bound _ M n a (k - 1) HM ltac:(lia) ltac:(lia)) as Hs.
  assert (Ek : sum_upto (sum_upto D) k = sum_upto (sum_upto D) (k - 1) + sum_upto D k).
  { replace k with (k - 1 + 1) at 1 3 by lia. apply sum_upto_succ. lia. }
  pose proof (sum_by_parts D k ltac:(lia)) as E1. pose proof (sum_by_parts D a ltac:(lia)) as E2.
  assert (H1 : Z.abs (k * sum_upto D k) <= k * M) by (rewrite Z.abs_mul; nia).
  assert (H2 : Z.abs ((a + 1) * sum_upto D a) <= (a + 1) * M) by (rewrite Z.abs_mul; nia).
  unfold sum_between in *. lia.
Qed.

(** The updates [ops] run, and when the updated array is small every query of the tree
    [t0] is answered from it. *)
Definition answers (n : Z) (A : Z -> Z) (ops : list update_op) (t0 : BinaryIndexTree) : Prop :=
  exists t, run_updates ops t0 = Ok t /\ (small n (array_after A ops) ->
    (forall i, 1 <= i <= n -> query i t = Ok (array_after A ops i)) /\
    (forall l r, 1 <= l <= r -> r <= n -> range_sum l r t = Ok (sum_between (array_after A ops) (l - 1) r))).

Lemma represents_answers n A ops t0 : represents n A t0 -> ops_ok n ops -> answers n A ops t0.
Proof.
  intros Hr Ho. destruct (run_updates_ok n ops A t0 Hr Ho) as (t & E & D & Ht & HA). exists t. split; [done|].
  intros Hsm. pose proof Hsm as (M & HM & HnM). assert (Hsm' : small n (sum_upto D)).
  { exists M. split; [|done]. intros i Hi. rewrite HA by done. by apply HM. }
  destruct (small_fits n D Hsm') as [Hf1 Hf2]. split.
  - intros i Hi. destruct (query_ok n D t i Ht Hf1) as (r & -> & ->); [lia|]. rewrite HA by done.
    specialize (HM i Hi). rewrite s64_id by nia. done.
  - intros l r Hl Hrn. destruct (range_sum_ok n D t l r Ht Hf1 Hf2) as (s & -> & ->); [lia|done|]. f_equal.
    assert (Es : sum_between (sum_upto D) (l - 1) r = sum_between (array_after A ops) (l - 1) r).
    { unfold sum_between. f_equal; apply sum_upto_ext; try lia; intros i Hi; apply HA; lia. }
    rewrite Es. pose proof (sum_between_bound _ M n (l - 1) r HM ltac:(lia) ltac:(lia)).
    specialize (HM l ltac:(lia)). apply s64_id. nia.
Qed.

Lemma new_bit_represents n : 0 <= n < 2 ^ 30 -> represents n (fun _ => 0) (new_bit n).
Proof.
  intros Hn. exists (fun _ => 0). split.
  - split; [done|]. split; [done|]. split; [apply tree_start; lia|].
    destruct (tree_start n ltac:(lia)) as [Hl H0]. split; [done|]. intros k Hk. rewrite H0 by done. do 2 f_equal.
    pose proof (lowbit_bounds k ltac:(lia)). unfold sum_between. f_equal; apply sum_upto_ext; lia.
  - intros i Hi. apply sum_upto_zero. lia.
Qed.

(** C20: A Fenwick tree of ints, fresh or built by init from a vector, runs any sequence
    of range updates with every loop terminating within bounds (fewer than 2^30
    elements, so that the 32-bit loop index does not overflow), and as long as the
    absolute values of the updated array are at most M with 2nM < 2^31, n the number of
    elements, so that the products stored as int are exact, it behaves as that array:
    point queries return the updated element and range_sum the exact 64-bit sum. *)
Theorem fenwick_refines_array (m : Z) (vec : list Z) (ops : list update_op) :
  0 <= m < 2 ^ 30 -> zlen vec < 2 ^ 30 -> Forall is_s32 vec ->
  (ops_ok m ops -> answers m (fun _ => 0) ops (new_bit m)) /\
  (ops_ok (zlen vec) ops -> exists t0, init vec (new_bit m) = Ok t0 /\ answers (zlen vec) (vec_at vec) ops t0).
Proof.
  intros Hm Hv Hr. split; intros Ho.
  - apply represents_answers; [by apply new_bit_represents|done].
  - destruct (init_ok m vec ltac:(lia) Hv Hr) as (t0 & -> & Ht0). exists t0. split; [done|].
    apply represents_answers; [|done]. exists (vec_diff vec). split; [done|]. intros i Hi. apply sum_vec_diff. lia.
Qed.

Lemma fenwick_refines_array_witness :
  exists t0 t, init [3; 1; 4; 1; 5; 9; 2] (new_bit 4) = Ok t0 /\
    run_updates [(1, 4, 5); (3, 7, -2); (6, 6, 9)] t0 = Ok t /\
    query 6 t = Ok 16 /\ range_sum 2 6 t = Ok 36.
Proof.
  destruct (fenwick_refines_array 4 [3; 1; 4; 1; 5; 9; 2] [(1, 4, 5); (3, 7, -2); (6, 6, 9)]) as [_ H].
  - lia.
  - reflexivity.
  - repeat constructor; unfold is_s32; lia.
  - destruct H as (t0 & E0 & t & E & Hsm); [repeat constructor; unfold zlen, is_s32; cbn [length]; lia|].
    destruct Hsm as [Hq Hs].
    { exists 100. split; [|vm_compute; reflexivity]. intros i Hi. change (zlen _) with 7 in Hi.
      assert (i = 1 \/ i = 2 \/ i = 3 \/ i = 4 \/ i = 5 \/ i = 6 \/ i = 7) as H7 by lia.
      destruct H7 as [-> | [-> | [-> | [-> | [-> | [-> | ->]]]]]]; vm_compute; discriminate. }
    exists t0, t. split; [exact E0|]. split; [exact E|]. split; [apply (Hq 6); unfold zlen; cbn [length]; lia|apply (Hs 2 6); unfold zlen; cbn [length]; lia].
Defined.

(** Products of the index and the value are stored as [int]: a range sum can be wrong
    although the elements and the sum fit. *)
Example range_sum_narrowed :
  (t ← update 3 1000000000 (new_bit 3); range_sum 3 3 t) = Ok 5294967296.
Proof. reflexivity. Qed.
