(* ===== verification/Bytes.v ===== *)
(** Little-endian integers in byte buffers.

    Code that keeps objects in raw memory (an [ObjectBuilder] buffer, a shared
    memory segment) casts addresses to [T*]; a buffer is a list of bytes and a
    typed access reads or writes the bytes of the value, inside the buffer. *)

From S2P Require Import Prelude.

Fixpoint enc (n : nat) (v : Z) : list Z :=
  match n with O => [] | S n => v mod 2 ^ 8 :: enc n (v / 2 ^ 8) end.

Definition dec (bs : list Z) : Z := foldr (fun b acc => b + 2 ^ 8 * acc) 0 bs.

Definition rd (buf : list Z) (off n : Z) : outcome (list Z) :=
  require ((0 <=? off) && (0 <=? n) && (off + n <=? zlen buf)) OutOfBounds;;
  Ok (take (Z.to_nat n) (drop (Z.to_nat off) buf)).

Definition wr (buf : list Z) (off : Z) (bs : list Z) : outcome (list Z) :=
  require ((0 <=? off) && (off + zlen bs <=? zlen buf)) OutOfBounds;;
  Ok (take (Z.to_nat off) buf ++ bs ++ drop (Z.to_nat (off + zlen bs)) buf).

Definition rd_u64 (buf : list Z) (off : Z) : outcome Z := bs ← rd buf off 8; Ok (dec bs).
Definition rd_u32 (buf : list Z) (off : Z) : outcome Z := bs ← rd buf off 4; Ok (dec bs).
Definition rd_s32 (buf : list Z) (off : Z) : outcome Z := bs ← rd buf off 4; Ok (s32 (dec bs)).
Definition wr_u64 (buf : list Z) (off v : Z) : outcome (list Z) := wr buf off (enc 8 v).
Definition wr_u32 (buf : list Z) (off v : Z) : outcome (list Z) := wr buf off (enc 4 v).

Lemma zlen_enc n v : zlen (enc n v) = Z.of_nat n.
Proof. revert v. induction n as [|n IH]; intros v; [done|]. cbn [enc]. rewrite zlen_cons, IH. lia. Qed.

Lemma dec_enc n v : dec (enc n v) = v mod 2 ^ (8 * Z.of_nat n).
Proof.
  revert v. induction n as [|n IH]; intros v; cbn [enc dec foldr].
  - by rewrite Z.mod_1_r.
  - fold (dec (enc n (v / 2 ^ 8))). rewrite IH.
    replace (8 * Z.of_nat (S n)) with (8 + 8 * Z.of_nat n) by lia. rewrite Z.pow_add_r by lia.
    rewrite Z.rem_mul_r by lia. done.
Qed.

Lemma dec_enc8 v : dec (enc 8 v) = u64 v.
Proof. apply (dec_enc 8). Qed.

Lemma dec_enc4 v : dec (enc 4 v) = u32 v.
Proof. apply (dec_enc 4). Qed.

(** Reading back what lies between two parts of the buffer. *)
Lemma rd_mid (a m c : list Z) off n : off = zlen a -> n = zlen m -> rd (a ++ m ++ c) off n = Ok m.
Proof.
  intros -> ->. unfold rd. rewrite !zlen_app. pose proof (zlen_nonneg a). pose proof (zlen_nonneg m). pose proof (zlen_nonneg c).
  replace (_ && _) with true by lia. cbn [require mbind outcome_bind]. unfold zlen. rewrite !Nat2Z.id.
  by rewrite drop_app_length, take_app_length.
Qed.

Lemma wr_mid (a m c bs : list Z) off : off = zlen a -> zlen bs = zlen m -> wr (a ++ m ++ c) off bs = Ok (a ++ bs ++ c).
Proof.
  intros -> Hb. unfold wr. rewrite !zlen_app. pose proof (zlen_nonneg a). pose proof (zlen_nonneg m). pose proof (zlen_nonneg c).
  replace (_ && _) with true by lia. cbn [require mbind outcome_bind]. f_equal. unfold zlen in *.
  rewrite Nat2Z.id, take_app_length. do 2 f_equal.
  rewrite app_assoc, drop_app_ge by (rewrite length_app; lia). rewrite length_app. 
  replace (_ - _)%nat with 0%nat by lia. done.
Qed.

(** A buffer splits at an address inside it. *)
Lemma buf_split (buf : list Z) off n :
  0 <= off -> 0 <= n -> off + n <= zlen buf ->
  exists a m c, buf = a ++ m ++ c /\ zlen a = off /\ zlen m = n.
Proof.
  intros Ho Hn Hb. exists (take (Z.to_nat off) buf), (take (Z.to_nat n) (drop (Z.to_nat off) buf)), (drop (Z.to_nat n) (drop (Z.to_nat off) buf)).
  rewrite !take_drop. split; [done|]. unfold zlen in *. rewrite !length_take, length_drop. lia.
Qed.

Lemma rd_ok (buf : list Z) off n :
  0 <= off -> 0 <= n -> off + n <= zlen buf -> rd buf off n = Ok (take (Z.to_nat n) (drop (Z.to_nat off) buf)).
Proof. intros Ho Hn Hb. unfold rd. by replace (_ && _) with true by lia. Qed.

(** ** Arrays of 64-bit words *)

Definition enc_words (ws : list Z) : list Z := ws ≫= enc 8.

Lemma zlen_enc_words ws : zlen (enc_words ws) = 8 * zlen ws.
Proof.
  induction ws as [|w ws IH]; [done|]. unfold enc_words in *. cbn [mbind list_bind]. rewrite zlen_app, zlen_cons, IH, zlen_enc. lia.
Qed.

Lemma enc_words_app u v : enc_words (u ++ v) = enc_words u ++ enc_words v.
Proof. unfold enc_words. apply bind_app. Qed.

Lemma words_split (ws : list Z) i x :
  zget ws i = Some x -> ws = take (Z.to_nat i) ws ++ x :: drop (Z.to_nat (i + 1)) ws /\ zlen (take (Z.to_nat i) ws) = i.
Proof.
  intros Hx. pose proof (zget_bounds _ _ _ Hx). split.
  - rewrite <- (drop_zget _ _ _ Hx). by rewrite take_drop.
  - unfold zlen in *. rewrite length_take. lia.
Qed.

Lemma rd_word pre ws post i x :
  zget ws i = Some x -> is_u64 x -> rd_u64 (pre ++ enc_words ws ++ post) (zlen pre + 8 * i) = Ok x.
Proof.
  intros Hx Hu. destruct (words_split ws i x Hx) as [E Hl]. rewrite E, enc_words_app. unfold rd_u64.
  change (enc_words (x :: ?r)) with (enc 8 x ++ enc_words r).
  rewrite <- !app_assoc. rewrite (app_assoc pre).
  rewrite (rd_mid _ (enc 8 x)); [|rewrite zlen_app, zlen_enc_words; lia|by rewrite zlen_enc].
  cbn [mbind outcome_bind]. by rewrite dec_enc8, u64_id.
Qed.

Lemma wr_word pre ws post i x y :
  zget ws i = Some x -> wr_u64 (pre ++ enc_words ws ++ post) (zlen pre + 8 * i) y = Ok (pre ++ enc_words (zset ws i y) ++ post).
Proof.
  intros Hx. destruct (words_split ws i x Hx) as [E Hl].
  rewrite E at 1 2. rewrite zset_mid by lia. rewrite !enc_words_app. unfold wr_u64.
  change (enc_words (x :: ?r)) with (enc 8 x ++ enc_words r). change (enc_words (y :: ?r)) with (enc 8 y ++ enc_words r).
  rewrite <- !app_assoc. rewrite !(app_assoc pre).
  rewrite (wr_mid _ (enc 8 x)); [done|rewrite zlen_app, zlen_enc_words; lia|by rewrite !zlen_enc].
Qed.

(** ** Buffers as concatenations of fields *)

Lemma rd_concat (cs : list (list Z)) (i : nat) m off n :
  cs !! i = Some m -> off = zlen (concat (take i cs)) -> n = zlen m -> rd (concat cs) off n = Ok m.
Proof.
  intros Hi Ho Hn. rewrite <- (take_drop_middle cs i m Hi), concat_app. cbn [concat]. by apply rd_mid.
Qed.

Lemma wr_concat (cs : list (list Z)) (i : nat) m off bs :
  cs !! i = Some m -> off = zlen (concat (take i cs)) -> zlen bs = zlen m ->
  wr (concat cs) off bs = Ok (concat (<[i := bs]> cs)).
Proof.
  intros Hi Ho Hb. pose proof (lookup_lt_Some _ _ _ Hi). rewrite <- (take_drop_middle cs i m Hi) at 1.
  rewrite insert_take_drop by done. rewrite !concat_app. cbn [concat]. by apply wr_mid.
Qed.

(** An access below the end of a prefix does not see the rest. *)
Lemma rd_app_l (a c : list Z) off n : 0 <= off -> 0 <= n -> off + n <= zlen a -> rd (a ++ c) off n = rd a off n.
Proof.
  intros Ho Hn Hl. pose proof (zlen_nonneg c). rewrite !rd_ok by (rewrite ?zlen_app; lia). f_equal. unfold zlen in *.
  rewrite drop_app_le by lia. rewrite take_app_le; [done|]. rewrite length_drop. lia.
Qed.
