(* ===== verification/Buddy.v ===== *)
(** The buddy allocator of cpp/examples/buddy_memory_allocator.h and .cc.

    The pool of [pool_size_] bytes is halved [num_order_ - 1] times; the vector
    [pool_] holds the full binary tree of the blocks, breadth first, and an entry
    is the size of the largest free block below its node.  The spin lock makes
    [allocate] and [deallocate] atomic, so each is one step on the state.

    The same functions, written again in
    buddy_memory_allocator_base_object_builder.cc, work on an array inside an
    [ObjectBuilder] buffer; the class [PoolStore] is what the code needs of the
    array, and BuddyBuilder.v gives the other instance. *)

From S2P Require Import Prelude.

(** * The array of tree entries *)

Class PoolStore (P : Type) := {
  pool_load : P -> Z -> outcome Z;
  pool_store : P -> Z -> Z -> outcome P;
  pool_view : P -> list Z;
  pool_wf : P -> Prop;
  pool_load_ok p i : pool_wf p -> 0 <= i < zlen (pool_view p) -> pool_load p i = vget (pool_view p) i;
  pool_store_ok p i x :
    pool_wf p -> 0 <= i < zlen (pool_view p) -> is_u64 x ->
    exists p', pool_store p i x = Ok p' /\ pool_view p' = zset (pool_view p) i x /\ pool_wf p'
}.

(** A [std::vector<size_t>]. *)
#[export] Program Instance vector_store : PoolStore (list Z) :=
  {| pool_load := vget; pool_store := vset; pool_view := id; pool_wf := fun _ => True |}.
Next Obligation. done. Qed.
Next Obligation.
  intros v i x _ Hi _. exists (zset v i x). split; [|done]. unfold vset, id in *.
  by replace ((0 <=? i) && (i <? zlen v)) with true by lia.
Qed.

Record buddy (P : Type) := MkBuddy {
  pool_addr_ : Z;
  pool_size_ : Z;
  num_order_ : Z;
  min_block_size_ : Z;
  pool_ : P
}.
Arguments MkBuddy {P} _ _ _ _ _.
Arguments pool_addr_ {P} _.
Arguments pool_size_ {P} _.
Arguments num_order_ {P} _.
Arguments min_block_size_ {P} _.
Arguments pool_ {P} _.

(** * Sizes and levels

    The loops halve or double a 64-bit value, so 65 rounds are enough whenever
    they end. *)

(** [while ((tmp = (tmp + order_block_count)) <= block_idx)], state
    [(block_size, tmp, order_block_count)]. *)
Definition block_size_step (block_idx : Z) (st : Z * Z * Z) : outcome (Z * Z * Z + Z) :=
  let '(block_size, tmp, order_block_count) := st in
  let tmp := u64 (tmp + order_block_count) in
  if tmp <=? block_idx then Ok (inl (block_size / 2, tmp, u64 (order_block_count * 2)))
  else Ok (inr block_size).

Definition compute_block_size (pool_size block_idx : Z) : outcome Z :=
  while_fuel 65 (block_size_step block_idx) (pool_size, 0, 1).

Definition rounded_up_step (size value : Z) : outcome (Z + Z) :=
  if value <? size then Ok (inl (u64 (Z.shiftl value 1))) else Ok (inr value).

Definition rounded_up (size : Z) : outcome Z := while_fuel 65 (rounded_up_step size) 1.

Definition rounded_up_to_min_block_size (size min_block_size : Z) : outcome Z :=
  v ← rounded_up size; Ok (Z.max v min_block_size).

(** State [(level, pool_size)]. *)
Definition level_step (block_size : Z) (st : Z * Z) : outcome (Z * Z + Z) :=
  let '(level, pool_size) := st in
  if block_size <=? pool_size / 2 then Ok (inl (u32 (level + 1), pool_size / 2)) else Ok (inr level).

Definition compute_level (pool_size block_size : Z) : outcome Z :=
  while_fuel 65 (level_step block_size) (0, pool_size).

Section Pool.
Context {P : Type} `{PoolStore P}.

(** * Operations *)

(** [while (order_block_count--) *pool++ = order_block_size;] *)
Definition fill_order (count order_block_size : Z) (st : P * Z) : outcome (P * Z) :=
  for_range 0 count (fun _ st =>
    let '(pool, pos) := st in pool ← pool_store pool pos order_block_size; Ok (pool, pos + 1)) st.

(** The loop of [init_pool], on an array of [1 << num_order_] entries; the
    result is the array and [min_block_size_]. *)
Definition init_pool (pool_size num_order : Z) (pool : P) : outcome (P * Z) :=
  '(pool, _, order_block_size) ←
    for_range 0 num_order (fun order st =>
      let '(pool, pos, order_block_size) := st in
      '(pool, pos) ← fill_order (u32 (Z.shiftl 1 order)) order_block_size (pool, pos);
      Ok (pool, pos, order_block_size / 2)) (pool, 0, pool_size);
  Ok (pool, u64 (order_block_size * 2)).

(** One round of [update_pool], state [(block_idx, block_size, pool)]. *)
Definition update_step (st : Z * Z * P) : outcome (Z * Z * P + P) :=
  let '(block_idx, block_size, pool) := st in
  if block_idx =? 0 then Ok (inr pool)
  else
    let parent_idx := (block_idx - 1) / 2 in
    let parent_block_size := u64 (block_size * 2) in
    left_block_size ← pool_load pool (u64 (parent_idx * 2 + 1));
    right_block_size ← pool_load pool (u64 (parent_idx * 2 + 2));
    pool ← (if u64 (left_block_size + right_block_size) =? parent_block_size
            then pool_store pool parent_idx parent_block_size
            else pool_store pool parent_idx (Z.max left_block_size right_block_size));
    Ok (inl (parent_idx, parent_block_size, pool)).

Definition update_pool (pool_size block_idx : Z) (pool : P) : outcome P :=
  block_size ← compute_block_size pool_size block_idx;
  while_fuel 65 update_step (block_idx, block_size, pool).

(** [search_suitable_block]: the index and the address of the block. *)
Definition search_suitable_block (b : buddy P) (target_level size : Z) : outcome (Z * Z) :=
  '(block_idx, addr, _) ←
    for_range 0 target_level (fun _ st =>
      let '(block_idx, addr, block_size) := st in
      let child_block_size := block_size / 2 in
      let left_child_block_idx := u64 (block_idx * 2 + 1) in
      l ← pool_load (pool_ b) left_child_block_idx;
      if size <=? l then Ok (left_child_block_idx, addr, child_block_size)
      else
        let right_child_block_idx := u64 (left_child_block_idx + 1) in
        r ← pool_load (pool_ b) right_child_block_idx;
        require (size <=? r) AssertFail;;
        Ok (right_child_block_idx, u64 (addr + child_block_size), child_block_size))
      (0, pool_addr_ b, pool_size_ b);
  Ok (block_idx, addr).

Definition set_pool (b : buddy P) (pool : P) : buddy P :=
  MkBuddy (pool_addr_ b) (pool_size_ b) (num_order_ b) (min_block_size_ b) pool.

(** [allocate]: the address is 0 for [nullptr]. *)
Definition allocate (size : Z) (b : buddy P) : outcome (Z * buddy P) :=
  allocate_block_size ← rounded_up_to_min_block_size size (min_block_size_ b);
  level ← compute_level (pool_size_ b) allocate_block_size;
  root ← pool_load (pool_ b) 0;
  if root <? allocate_block_size then Ok (0, b)
  else
    '(first, second) ← search_suitable_block b level allocate_block_size;
    let first := u32 first in
    require (negb (second =? 0)) AssertFail;;
    pool ← pool_store (pool_ b) first 0;
    pool ← update_pool (pool_size_ b) first pool;
    Ok (second, set_pool b pool).

Definition deallocate (addr size : Z) (b : buddy P) : outcome (buddy P) :=
  allocate_block_size ← rounded_up_to_min_block_size size (min_block_size_ b);
  level ← compute_level (pool_size_ b) allocate_block_size;
  let offset := u64 (addr - pool_addr_ b) in
  '(block_idx, block_size, _) ←
    for_range 0 level (fun _ st =>
      let '(block_idx, block_size, cur_offset) := st in
      let child_block_size := block_size / 2 in
      if offset <? u64 (cur_offset + child_block_size) then
        Ok (u64 (block_idx * 2 + 1), child_block_size, cur_offset)
      else Ok (u64 (block_idx * 2 + 2), child_block_size, u64 (cur_offset + child_block_size)))
      (0, pool_size_ b, 0);
  pool ← pool_store (pool_ b) block_idx block_size;
  pool ← update_pool (pool_size_ b) block_idx pool;
  Ok (set_pool b pool).

End Pool.

(** The constructor: [pool_.resize(1 << num_order_, 0)] and [init_pool]. *)
Definition new_buddy (pool_addr pool_size num_order : Z) : outcome (buddy (list Z)) :=
  '(pool, min_block_size) ← init_pool pool_size num_order (zreplicate (u64 (s32 (Z.shiftl 1 num_order))) 0);
  Ok (MkBuddy pool_addr pool_size num_order min_block_size pool).

Example buddy_run :
  (b ← new_buddy 4096 1024 4;
   '(p, b) ← allocate 100 b; '(q, b) ← allocate 200 b; '(r, b) ← allocate 600 b;
   b ← deallocate p 100 b; '(t, b) ← allocate 512 b;
   b ← deallocate q 200 b; b ← deallocate t 512 b; Ok (p, q, r, t, pool_ b))
  = (b ← new_buddy 4096 1024 4; Ok (4096, 4096 + 256, 0, 4096 + 512, pool_ b)).
Proof. vm_compute. reflexivity. Qed.
