(* ===== verification/BuddySpec.v ===== *)
(** Correctness of the buddy allocator.

    A block is named by its path from the root of the tree ([false] is the left
    half).  The invariant says that every entry of the array is the size of the
    largest free block below its node, for a set of allocated paths none of which
    is a prefix of another. *)

From S2P Require Import Prelude Buddy.

(** * Powers of two and levels *)

Definition is_pow2_up (size v : Z) : Prop :=
  exists k, 0 <= k < 64 /\ v = 2 ^ k /\ size <= v /\ (forall j, 0 <= j < k -> 2 ^ j < size).

Lemma shl_pow2 k : 0 <= k < 63 -> u64 (Z.shiftl (2 ^ k) 1) = 2 ^ (k + 1).
Proof.
  intros Hk. rewrite Z.shiftl_mul_pow2, <- Z.pow_add_r by lia. apply u64_id. unfold is_u64.
  pose proof (Z.pow_lt_mono_r 2 (k + 1) 64). lia.
Qed.

Lemma rounded_up_ok size : size <= 2 ^ 63 -> wp (rounded_up size) (is_pow2_up size).
Proof.
  intros Hs.
  apply (wp_while (fun v => exists k, 0 <= k < 64 /\ v = 2 ^ k /\ forall j, 0 <= j < k -> 2 ^ j < size)
    (fun v => Z.to_nat (64 - Z.log2 v))).
  - exists 0. split; [lia|]. split; [done|]. intros j Hj. lia.
  - cbn. lia.
  - intros v (k & Hk & -> & Hmin). unfold rounded_up_step. destruct (Z.ltb_spec (2 ^ k) size).
    + assert (k < 63) by (apply (Z.pow_lt_mono_r_iff 2); lia).
      rewrite shl_pow2 by lia. apply wp_ret. rewrite !Z.log2_pow2 by lia. split; [|lia].
      exists (k + 1). split; [lia|]. split; [done|]. intros j Hj.
      destruct (Z.eq_dec j k) as [->|]; [done|apply Hmin; lia].
    + apply wp_ret. exists k. done.
Qed.

(** Beyond [2 ^ 63] the value is shifted out and the loop never ends. *)
Lemma rounded_up_loops size fuel :
  2 ^ 63 < size -> while_fuel fuel (rounded_up_step size) 1 = Fault OutOfFuel.
Proof.
  intros Hs. apply (while_fuel_diverges (fun v => v = 0 \/ exists k, 0 <= k < 64 /\ v = 2 ^ k)).
  - right. exists 0. lia.
  - intros v Hv. assert (v <= 2 ^ 63).
    { destruct Hv as [->|(k & Hk & ->)]; [lia|]. apply Z.pow_le_mono_r; lia. }
    unfold rounded_up_step. destruct (Z.ltb_spec v size); [|lia]. eexists. split; [done|].
    destruct Hv as [->|(k & Hk & ->)]; [by left|].
    destruct (Z.eq_dec k 63) as [->|]; [by left|].
    right. exists (k + 1). split; [lia|]. apply shl_pow2. lia.
Qed.

Section Geometry.
Context (S0 : Z) (n : nat) (m : Z).
Hypothesis S0_eq : S0 = m * 2 ^ (Z.of_nat n - 1).
Hypothesis m_pos : 0 < m.
Hypothesis n_range : (1 <= n <= 30)%nat.
Hypothesis S0_u64 : S0 < 2 ^ 63.

(** The size of the blocks of level [k]. *)
Definition bsz (k : nat) : Z := S0 / 2 ^ Z.of_nat k.

Lemma bsz_eq k : (k < n)%nat -> bsz k = m * 2 ^ (Z.of_nat n - 1 - Z.of_nat k).
Proof.
  intros Hk. unfold bsz. rewrite S0_eq.
  replace (Z.of_nat n - 1) with ((Z.of_nat n - 1 - Z.of_nat k) + Z.of_nat k) at 1 by lia.
  rewrite Z.pow_add_r, Z.mul_assoc by lia. apply Z.div_mul. lia.
Qed.

Lemma bsz_half k : bsz (S k) = bsz k / 2.
Proof.
  unfold bsz. rewrite Z.div_div by lia. f_equal. rewrite Nat2Z.inj_succ, Z.pow_succ_r by lia. lia.
Qed.

Lemma bsz_double k : (S k < n)%nat -> bsz k = 2 * bsz (S k).
Proof.
  intros Hk. rewrite !bsz_eq by lia.
  replace (Z.of_nat n - 1 - Z.of_nat k) with (Z.succ (Z.of_nat n - 1 - Z.of_nat (S k))) by lia.
  rewrite Z.pow_succ_r by lia. lia.
Qed.

Lemma bsz_pos k : (k < n)%nat -> 0 < bsz k.
Proof. intros Hk. rewrite bsz_eq by done. lia. Qed.

Lemma bsz_0 : bsz 0 = S0.
Proof. unfold bsz. apply Z.div_1_r. Qed.

Lemma bsz_le k : 0 <= bsz k <= S0.
Proof.
  pose proof (bsz_pos 0 ltac:(lia)) as H0. rewrite bsz_0 in H0. unfold bsz. split.
  - apply Z.div_pos; lia.
  - apply Z.div_le_upper_bound; [lia|]. nia.
Qed.

Lemma bsz_u64 k : is_u64 (bsz k).
Proof. pose proof (bsz_le k). unfold is_u64. lia. Qed.

(** ** Paths *)

Definition path := list bool.

(** The index of a block in the array, and its offset in the pool. *)
Definition idx (p : path) : Z := foldl (fun i b => 2 * i + 1 + Z.b2z b) 0 p.
Fixpoint off (k : nat) (p : path) : Z :=
  match p with
  | [] => 0
  | b :: p => (if b : bool then bsz (S k) else 0) + off (S k) p
  end.

Lemma idx_snoc p b : idx (p ++ [b]) = 2 * idx p + 1 + Z.b2z b.
Proof. unfold idx. by rewrite foldl_app. Qed.

Lemma off_snoc k p b : off k (p ++ [b]) = off k p + if b : bool then bsz (S (k + length p)) else 0.
Proof.
  revert k. induction p as [|c p IH]; intros k; cbn [off app length].
  - rewrite Nat.add_0_r. lia.
  - rewrite IH. replace (S k + length p)%nat with (k + S (length p))%nat by lia. lia.
Qed.

Lemma idx_bounds p : 2 ^ Z.of_nat (length p) - 1 <= idx p < 2 ^ Z.of_nat (S (length p)) - 1.
Proof.
  induction p as [|b p IH] using rev_ind; [done|].
  rewrite idx_snoc, length_app, Nat.add_1_r.
  rewrite (Nat2Z.inj_succ (S (length p))), (Nat2Z.inj_succ (length p)) in *.
  rewrite !Z.pow_succ_r in * by lia. destruct b; cbn [Z.b2z]; lia.
Qed.

Lemma idx_range p : (length p < n)%nat -> 0 <= idx p < 2 ^ Z.of_nat n - 1.
Proof.
  intros Hp. pose proof (idx_bounds p). pose proof (Z.pow_le_mono_r 2 (Z.of_nat (S (length p))) (Z.of_nat n)). lia.
Qed.

Lemma order_bound : 2 <= 2 ^ Z.of_nat n <= 2 ^ 30.
Proof. split; [change 2 with (2 ^ 1) at 1|]; apply Z.pow_le_mono_r; lia. Qed.

Lemma idx_u64 p x : (length p < n)%nat -> 0 <= x <= 2 -> is_u64 (idx p * 2 + x).
Proof. intros Hp Hx. pose proof (idx_range p Hp). pose proof order_bound. unfold is_u64. lia. Qed.

Lemma idx_inj p q : idx p = idx q -> p = q.
Proof.
  revert q. induction p as [|b p IH] using rev_ind; intros q.
  - destruct q as [|c q _] using rev_ind; [done|]. rewrite idx_snoc. pose proof (idx_bounds q).
    assert (0 < 2 ^ Z.of_nat (length q)) by lia. cbn. destruct c; cbn; lia.
  - destruct q as [|c q _] using rev_ind; rewrite ?idx_snoc.
    + pose proof (idx_bounds p). assert (0 < 2 ^ Z.of_nat (length p)) by lia. cbn. destruct b; cbn; lia.
    + intros E. assert (b = c) as <- by (destruct b, c; cbn in E; first [done|lia]). f_equal. apply IH. lia.
Qed.

Lemma idx_surj i : 0 <= i -> exists p, idx p = i.
Proof.
  induction i as [i IH] using (well_founded_induction (Z.lt_wf 0)). intros Hi.
  destruct (Z.eq_dec i 0) as [->|]; [by exists []|].
  pose proof (Z.div_mod (i - 1) 2). pose proof (Z.mod_pos_bound (i - 1) 2).
  destruct (IH ((i - 1) / 2)) as [p Hp]; [lia|lia|].
  exists (p ++ [negb ((i - 1) mod 2 =? 0)]). rewrite idx_snoc, Hp. zcase; cbn; lia.
Qed.

Lemma off_bounds k p : (k + length p < n)%nat -> 0 <= off k p /\ off k p + bsz (k + length p) <= bsz k.
Proof.
  revert k. induction p as [|b p IH]; intros k Hk; cbn [off length] in *.
  - rewrite Nat.add_0_r. lia.
  - destruct (IH (S k)) as [H1 H2]; [lia|]. replace (k + S (length p))%nat with (S k + length p)%nat by lia.
    pose proof (bsz_double k ltac:(lia)). pose proof (bsz_le (S k)). destruct b; lia.
Qed.

Lemma off_app k p q : off k (p ++ q) = off k p + off (k + length p) q.
Proof.
  revert k. induction p as [|b p IH]; intros k; cbn [off app length].
  - by rewrite Nat.add_0_r.
  - rewrite IH. replace (S k + length p)%nat with (k + S (length p))%nat by lia. lia.
Qed.

(** Incomparable blocks are disjoint. *)
Lemma off_disjoint k p q :
  (k + length p < n)%nat -> (k + length q < n)%nat -> ~ p `prefix_of` q -> ~ q `prefix_of` p ->
  off k p + bsz (k + length p) <= off k q \/ off k q + bsz (k + length q) <= off k p.
Proof.
  revert k q. induction p as [|b p IH]; intros k q Hp Hq Hpq Hqp; [destruct Hpq; apply prefix_nil|].
  destruct q as [|c q]; [destruct Hqp; apply prefix_nil|]. cbn [off length] in *.
  pose proof (off_bounds (S k) p ltac:(lia)) as [P1 P2]. pose proof (off_bounds (S k) q ltac:(lia)) as [Q1 Q2].
  replace (k + S (length p))%nat with (S k + length p)%nat by lia.
  replace (k + S (length q))%nat with (S k + length q)%nat by lia.
  destruct b, c; [|lia|lia|].
  - destruct (IH (S k) q); [lia|lia| | |lia|lia]; intros [z ->]; [apply Hpq|apply Hqp]; by exists z.
  - destruct (IH (S k) q); [lia|lia| | |lia|lia]; intros [z ->]; [apply Hpq|apply Hqp]; by exists z.
Qed.

(** ** The block sizes computed by the code *)

Lemma compute_block_size_ok p : (length p < n)%nat -> compute_block_size S0 (idx p) = Ok (bsz (length p)).
Proof.
  intros Hp. pose proof (idx_bounds p) as Hb. pose proof (idx_range p Hp). pose proof order_bound.
  enough (wp (compute_block_size S0 (idx p)) (fun r => r = bsz (length p))) as (r & -> & ->) by done.
  apply (wp_while (fun st => exists k : nat, (k <= length p)%nat /\
      st = (bsz k, 2 ^ Z.of_nat k - 1, 2 ^ Z.of_nat k))
    (fun st => Z.to_nat (64 - Z.log2 st.2))).
  - exists 0%nat. split; [lia|]. by rewrite bsz_0.
  - cbn. lia.
  - intros st (k & Hk & ->). unfold block_size_step.
    pose proof (Z.pow_le_mono_r 2 (Z.of_nat k) (Z.of_nat (length p)) ltac:(lia) ltac:(lia)).
    pose proof (Z.pow_lt_mono_r 2 (Z.of_nat (length p)) (Z.of_nat n) ltac:(lia) ltac:(lia) ltac:(lia)).
    rewrite (u64_id (_ + _)), (u64_id (_ * _)) by (unfold is_u64; lia).
    replace (2 ^ Z.of_nat k * 2) with (2 ^ Z.of_nat (S k)) by (rewrite Nat2Z.inj_succ, Z.pow_succ_r by lia; lia).
    destruct (Z.leb_spec (2 ^ Z.of_nat k - 1 + 2 ^ Z.of_nat k) (idx p)) as [Hc|Hc]; apply wp_ret.
    + assert (k < length p)%nat.
      { destruct (decide (k = length p)) as [->|]; [|lia]. rewrite Nat2Z.inj_succ, Z.pow_succ_r in Hb by lia. lia. }
      cbn [snd]. rewrite !Z.log2_pow2 by lia. split; [|lia]. exists (S k). split; [lia|]. rewrite bsz_half.
      do 2 f_equal. rewrite Nat2Z.inj_succ, Z.pow_succ_r by lia. lia.
    + destruct (decide (k = length p)) as [->|]; [done|]. exfalso.
      pose proof (Z.pow_le_mono_r 2 (Z.of_nat (S k)) (Z.of_nat (length p)) ltac:(lia) ltac:(lia)) as Hle.
      rewrite Nat2Z.inj_succ, Z.pow_succ_r in Hle by lia. lia.
Qed.

(** The level of a request: its blocks are large enough and the next ones are not. *)
Definition level_for (r : Z) (k : nat) : Prop :=
  (k < n)%nat /\ (r <= S0 -> r <= bsz k) /\ bsz (S k) < r /\ (S0 < r -> k = 0%nat).

Lemma compute_level_ok r :
  bsz n < r -> wp (compute_level S0 r) (fun l => exists k, l = Z.of_nat k /\ level_for r k).
Proof.
  intros Hr.
  apply (wp_while (fun st => exists k : nat, (k < n)%nat /\ (r <= S0 -> r <= bsz k) /\ (S0 < r -> k = 0%nat) /\
      st = (Z.of_nat k, bsz k)) (fun st => Z.to_nat (64 - st.1))).
  - exists 0%nat. rewrite bsz_0. split; [lia|]. done.
  - cbn. lia.
  - intros st (k & Hk & Hle & H0 & ->). unfold level_step. rewrite <- bsz_half.
    destruct (Z.leb_spec r (bsz (S k))) as [Hc|Hc]; apply wp_ret.
    + assert (S k < n)%nat by (destruct (decide (S k = n)) as [<-|]; lia).
      rewrite u32_id by (unfold is_u32; lia). cbn [fst]. split; [|lia]. exists (S k). split; [lia|]. split; [lia|].
      split; [|by rewrite Nat2Z.inj_succ]. intros. pose proof (bsz_le (S k)). lia.
    + exists k. done.
Qed.

(** ** The largest free block below a node *)

(** Some allocated block is [p] or lies below it. *)
Definition below (A : list path) (p : path) : Prop := Exists (fun a => p `prefix_of` a) A.

#[local] Instance below_dec A p : Decision (below A p).
Proof. unfold below. apply _. Defined.

Fixpoint maxfree (A : list path) (d : nat) (p : path) : Z :=
  if decide (p ∈ A) then 0
  else match d with
       | O => bsz (length p)
       | S d =>
           if decide (below A p) then Z.max (maxfree A d (p ++ [false])) (maxfree A d (p ++ [true]))
           else bsz (length p)
       end.

Lemma below_elem A p : p ∈ A -> below A p.
Proof. intros Hp. apply list.Exists_exists. exists p. split; [done|reflexivity]. Qed.

Lemma maxfree_free A d p : ~ below A p -> maxfree A d p = bsz (length p).
Proof.
  intros Hb. destruct d; cbn [maxfree]; rewrite decide_False by (intros ?%below_elem; done); [done|].
  by rewrite decide_False.
Qed.

Lemma maxfree_range A d p : (d + length p < n)%nat -> 0 <= maxfree A d p <= bsz (length p).
Proof.
  revert p. induction d as [|d IH]; intros p Hd; cbn [maxfree]; pose proof (bsz_le (length p)); case_decide; try lia.
  case_decide; [|lia]. pose proof (IH (p ++ [false])) as Hl. pose proof (IH (p ++ [true])) as Hr.
  rewrite length_app, Nat.add_1_r in Hl, Hr. pose proof (bsz_double (length p)). pose proof (bsz_le (S (length p))). lia.
Qed.

Lemma maxfree_used A d p :
  (d + length p < n)%nat -> (forall a, a ∈ A -> length a <= d + length p)%nat ->
  below A p -> maxfree A d p <= bsz (S (length p)).
Proof.
  intros Hd Hlen Hb. pose proof (bsz_le (S (length p))). destruct d as [|d]; cbn [maxfree].
  - rewrite decide_True; [lia|]. apply list.Exists_exists in Hb as (a & Ha & z & ->). specialize (Hlen _ Ha).
    rewrite length_app in Hlen. destruct z; [|cbn in Hlen; lia]. by rewrite app_nil_r in Ha.
  - case_decide; [lia|]. rewrite decide_True by done.
    pose proof (maxfree_range A d (p ++ [false])) as Hl. pose proof (maxfree_range A d (p ++ [true])) as Hr.
    rewrite length_app, Nat.add_1_r in Hl, Hr. lia.
Qed.

Lemma maxfree_ext A A' d p :
  (forall a, p `prefix_of` a -> a ∈ A <-> a ∈ A') -> maxfree A d p = maxfree A' d p.
Proof.
  revert p. induction d as [|d IH]; intros p E; cbn [maxfree]; rewrite (decide_ext (p ∈ A) (p ∈ A')) by (by apply E).
  - done.
  - rewrite (decide_ext (below A p) (below A' p)).
    2: { unfold below. rewrite !list.Exists_exists. split; intros (a & Ha & Hp); exists a; (split; [|done]); by apply (E a Hp). }
    assert (H' : forall b, maxfree A d (p ++ [b]) = maxfree A' d (p ++ [b])).
    { intros b. apply IH. intros a [z ->]. apply E. rewrite <- app_assoc. by exists (b :: z). }
    by rewrite !H'.
Qed.

(** What [update_pool] stores in a node is its largest free block. *)
Lemma maxfree_parent A d p :
  (S d + length p < n)%nat -> (forall a, a ∈ A -> length a <= S d + length p)%nat -> p ∉ A ->
  maxfree A (S d) p =
    (let l := maxfree A d (p ++ [false]) in let r := maxfree A d (p ++ [true]) in
     if u64 (l + r) =? u64 (bsz (S (length p)) * 2) then u64 (bsz (S (length p)) * 2) else Z.max l r).
Proof.
  intros Hd Hlen Hp. cbv zeta. pose proof (bsz_double (length p) ltac:(lia)) as E2. pose proof (bsz_le (length p)).
  pose proof (bsz_pos (S (length p)) ltac:(lia)).
  pose proof (maxfree_range A d (p ++ [false])) as Hl. pose proof (maxfree_range A d (p ++ [true])) as Hr.
  rewrite length_app, Nat.add_1_r in Hl, Hr. specialize (Hl ltac:(lia)). specialize (Hr ltac:(lia)).
  rewrite !u64_id by (unfold is_u64; lia). cbn [maxfree]. rewrite decide_False by done. case_decide as Hb.
  - destruct (Z.eqb_spec (maxfree A d (p ++ [false]) + maxfree A d (p ++ [true])) (bsz (S (length p)) * 2)); [|done].
    exfalso. apply list.Exists_exists in Hb as (a & Ha & z & ->). destruct z as [|b z]; [rewrite app_nil_r in Ha; done|].
    assert (Hb : below A (p ++ [b])).
    { apply list.Exists_exists. exists (p ++ b :: z). split; [done|]. exists z. by rewrite <- app_assoc. }
    pose proof (maxfree_used A d (p ++ [b])) as Hu. rewrite length_app, Nat.add_1_r in Hu.
    specialize (Hu ltac:(lia) ltac:(intros c Hc; specialize (Hlen c Hc); lia) Hb).
    pose proof (bsz_half (S (length p))). pose proof (Z.div_lt (bsz (S (length p))) 2). destruct b; lia.
  - rewrite !maxfree_free.
    + rewrite !length_app, !Nat.add_1_r. cbn [length]. destruct (Z.eqb_spec (bsz (S (length p)) + bsz (S (length p))) (bsz (S (length p)) * 2)); lia.
    + intros (a & Ha & z & ->)%list.Exists_exists. apply Hb, list.Exists_exists. eexists. split; [exact Ha|]. rewrite <- app_assoc. by eexists.
    + intros (a & Ha & z & ->)%list.Exists_exists. apply Hb, list.Exists_exists. eexists. split; [exact Ha|]. rewrite <- app_assoc. by eexists.
Qed.

(** A free block of the level makes every node above it offer the size. *)
Lemma maxfree_offers A p q r :
  (length (p ++ q) < n)%nat -> (forall a, a ∈ A -> length a < n)%nat ->
  Forall (fun a => ~ a `prefix_of` p ++ q /\ ~ p ++ q `prefix_of` a) A -> r <= bsz (length (p ++ q)) ->
  r <= maxfree A (n - 1 - length p) p.
Proof.
  revert p. induction q as [|b q IH]; intros p Hl HA Hfree Hr; rewrite list.Forall_forall in Hfree.
  - rewrite app_nil_r in *. rewrite maxfree_free; [done|]. intros (a & Ha & Hp)%list.Exists_exists. by destruct (Hfree a Ha) as [_ []].
  - rewrite length_app in Hl. cbn [length] in Hl.
    assert (Hp : p ∉ A) by (intros Ha; destruct (Hfree p Ha) as [[] _]; by exists (b :: q)).
    replace (n - 1 - length p)%nat with (S (n - 1 - S (length p))) by lia. cbn [maxfree]. rewrite decide_False by done.
    specialize (IH (p ++ [b])). rewrite <- app_assoc in IH. cbn [app] in IH.
    specialize (IH ltac:(rewrite length_app; cbn; lia) HA ltac:(by rewrite list.Forall_forall) Hr).
    rewrite length_app, Nat.add_1_r in IH. case_decide; [destruct b; lia|].
    pose proof (maxfree_range A (n - 1 - S (length p)) (p ++ [b])) as Hm. rewrite length_app, Nat.add_1_r in Hm.
    pose proof (bsz_double (length p)). lia.
Qed.

(** * The operations on the array *)

Context {P : Type} `{PoolStore P}.
Implicit Types (A : list path) (pool : P).

Definition tree_size : Z := 2 ^ Z.of_nat n.

(** Entry of the node [p] in a tree with the allocated blocks [A]. *)
Definition entry A (p : path) : Z := maxfree A (n - 1 - length p) p.

(** All entries but those of the proper prefixes of [c] are right. *)
Definition tree_but A (c : path) (v : list Z) : Prop :=
  zlen v = tree_size /\ zget v (tree_size - 1) = Some 0 /\
  forall p, (length p < n)%nat -> (forall z, c = p ++ z -> z = []) -> zget v (idx p) = Some (entry A p).

Definition tree_ok A v : Prop := tree_but A [] v.

Lemma tree_ok_get A v p : tree_ok A v -> (length p < n)%nat -> zget v (idx p) = Some (entry A p).
Proof. intros (_ & _ & Ht) Hp. apply Ht; [done|]. intros z E. symmetry in E. by apply app_eq_nil in E as [_ ->]. Qed.

Lemma wp_pool_load pool p i (Q : Z -> Prop) x :
  pool_wf pool -> (length p < n)%nat -> i = idx p -> zlen (pool_view pool) = tree_size ->
  zget (pool_view pool) i = Some x -> Q x -> wp (pool_load pool i) Q.
Proof.
  intros Hw Hp -> Hl Hx HQ. pose proof (idx_range p Hp). unfold tree_size in *.
  rewrite pool_load_ok by first [done|lia]. exists x. split; [by apply vget_some|done].
Qed.

Lemma wp_pool_store pool p i x (Q : P -> Prop) :
  pool_wf pool -> (length p < n)%nat -> i = idx p -> zlen (pool_view pool) = tree_size -> is_u64 x ->
  (forall pool', pool_wf pool' -> pool_view pool' = zset (pool_view pool) i x -> Q pool') ->
  wp (pool_store pool i x) Q.
Proof.
  intros Hw Hp -> Hl Hx HQ. pose proof (idx_range p Hp). unfold tree_size in *.
  destruct (pool_store_ok pool (idx p) x) as (pool' & E & Hv & Hw'); [done|lia|done|].
  exists pool'. split; [done|by apply HQ].
Qed.

Lemma entry_u64 A p : (length p < n)%nat -> is_u64 (entry A p).
Proof.
  intros Hp. pose proof (maxfree_range A (n - 1 - length p) p ltac:(lia)). pose proof (bsz_le (length p)).
  unfold entry, is_u64. lia.
Qed.

(** Storing the right entry of [c] makes [tree_but] hold for a node closer to
    the root. *)
Lemma tree_but_store A c v x :
  (length c < n)%nat -> x = entry A c -> zlen v = tree_size -> zget v (tree_size - 1) = Some 0 ->
  (forall p, (length p < n)%nat -> p <> c -> (forall z, c = p ++ z -> z = []) -> zget v (idx p) = Some (entry A p)) ->
  tree_but A c (zset v (idx c) x).
Proof.
  intros Hc -> Hl H0 Ht. pose proof (idx_range c Hc). unfold tree_size in *. split; [by rewrite zlen_zset|].
  split; [rewrite zget_zset_ne by (unfold tree_size; lia); done|]. intros p Hp Hz.
  destruct (decide (p = c)) as [->|Hpc]; [rewrite zget_zset_eq; [done|lia]|].
  rewrite zget_zset_ne by (intros E%idx_inj; congruence). by apply Ht.
Qed.

Lemma tree_but_child A c x y v :
  (S (length c) < n)%nat -> tree_but A (c ++ [x]) v ->
  zget v (idx (c ++ [y])) = Some (maxfree A (n - 2 - length c) (c ++ [y])).
Proof.
  intros Hc (_ & _ & Ht). rewrite Ht; [|rewrite length_app, Nat.add_1_r; lia|].
  - unfold entry. rewrite length_app, Nat.add_1_r. do 2 f_equal. lia.
  - intros w E. apply (f_equal length) in E. rewrite !length_app in E. cbn in E. destruct w; [done|cbn in E; lia].
Qed.

Lemma entry_parent A c :
  (S (length c) < n)%nat -> (forall a, a ∈ A -> length a < n)%nat -> c ∉ A ->
  entry A c =
    (let l := maxfree A (n - 2 - length c) (c ++ [false]) in
     let r := maxfree A (n - 2 - length c) (c ++ [true]) in
     if u64 (l + r) =? u64 (bsz (S (length c)) * 2) then u64 (bsz (S (length c)) * 2) else Z.max l r).
Proof.
  intros Hc HA Hn. unfold entry. replace (n - 1 - length c)%nat with (S (n - 2 - length c)) by lia.
  apply maxfree_parent; [lia| |done]. intros a Ha. specialize (HA a Ha). lia.
Qed.

(** One round stores the entry of the parent. *)
Lemma update_step_ok A c x pool :
  pool_wf pool -> (S (length c) < n)%nat -> (forall a, a ∈ A -> length a < n)%nat -> c ∉ A ->
  tree_but A (c ++ [x]) (pool_view pool) ->
  wp (update_step (idx (c ++ [x]), bsz (S (length c)), pool))
     (fun r => exists pool', r = inl (idx c, bsz (length c), pool') /\ pool_wf pool' /\ tree_but A c (pool_view pool')).
Proof.
  intros Hw Hc HA Hn Ht. destruct (Ht) as (Hl & Hz0 & Ht1). unfold update_step.
  assert (Hidx : (idx (c ++ [x]) - 1) / 2 = idx c).
  { rewrite idx_snoc. symmetry. apply (Z.div_unique _ 2 _ (Z.b2z x)); destruct x; cbn [Z.b2z]; lia. }
  pose proof (idx_u64 c 1 ltac:(lia) ltac:(lia)) as U1. pose proof (idx_u64 c 2 ltac:(lia) ltac:(lia)) as U2.
  pose proof (idx_range c ltac:(lia)) as Hi.
  destruct (Z.eqb_spec (idx (c ++ [x])) 0) as [E|_]; [rewrite idx_snoc in E; destruct x; cbn in E; lia|].
  rewrite Hidx, !(u64_id (idx c * 2 + _)) by done.
  apply wp_bind, (wp_pool_load pool (c ++ [false]) _ _ (maxfree A (n - 2 - length c) (c ++ [false])) Hw).
  { rewrite length_app, Nat.add_1_r. lia. } { rewrite idx_snoc. cbn. lia. } { done. }
  { rewrite <- (tree_but_child A c x) with (v := pool_view pool) by done. f_equal. rewrite idx_snoc. cbn. lia. }
  apply wp_bind, (wp_pool_load pool (c ++ [true]) _ _ (maxfree A (n - 2 - length c) (c ++ [true])) Hw).
  { rewrite length_app, Nat.add_1_r. lia. } { rewrite idx_snoc. cbn. lia. } { done. }
  { rewrite <- (tree_but_child A c x) with (v := pool_view pool) by done. f_equal. rewrite idx_snoc. cbn. lia. }
  apply wp_bind, (wp_mono _ (fun pool' => pool_wf pool' /\ pool_view pool' = zset (pool_view pool) (idx c) (entry A c))).
  { pose proof (entry_u64 A c ltac:(lia)) as Hu. rewrite entry_parent in * by done. cbv zeta in *.
    case_match; (apply (wp_pool_store pool c); [done|lia|done|done|done|auto]). }
  intros pool' [Hw' Hv']. apply wp_ret. exists pool'.
  split; [|split; [done|]].
  - do 2 f_equal. pose proof (bsz_double (length c) ltac:(lia)). pose proof (bsz_le (length c)).
    rewrite u64_id by (unfold is_u64; lia). f_equal. lia.
  - rewrite Hv'. apply tree_but_store; [lia|done..|]. intros p Hp Hpc Hz. apply Ht1; [done|]. intros w E.
    destruct w as [|y w _] using rev_ind; [done|]. exfalso. rewrite app_assoc in E. apply app_inj_tail in E as [E _].
    apply Hpc. rewrite E, (Hz _ E). by rewrite app_nil_r.
Qed.

Lemma idx_log2 p : Z.log2 (idx p + 1) = Z.of_nat (length p).
Proof.
  pose proof (idx_bounds p) as Hb. rewrite Nat2Z.inj_succ in Hb. apply Z.log2_unique; [lia|]. lia.
Qed.

Lemma update_pool_ok A q pool :
  pool_wf pool -> (length q < n)%nat -> (forall a, a ∈ A -> length a < n)%nat ->
  (forall p z, q = p ++ z -> z <> [] -> p ∉ A) -> tree_but A q (pool_view pool) ->
  wp (update_pool S0 (idx q) pool) (fun pool' => pool_wf pool' /\ tree_ok A (pool_view pool')).
Proof.
  intros Hw Hq HA Hpre Ht. unfold update_pool. rewrite compute_block_size_ok by done. cbn [mbind outcome_bind].
  apply (wp_while (fun st => exists c z, q = c ++ z /\ st.1 = (idx c, bsz (length c)) /\
      pool_wf st.2 /\ tree_but A c (pool_view st.2)) (fun st => Z.to_nat (Z.log2 (st.1.1 + 1)))).
  - exists q, []. by rewrite app_nil_r.
  - cbn [fst]. rewrite idx_log2. lia.
  - intros [[i b] pl] (c & z & -> & Est & Hwp & Htb). cbn [fst snd] in *. injection Est as -> ->.
    destruct c as [|x c _] using rev_ind; [by apply wp_ret|]. rewrite !length_app in *. cbn [length] in *.
    rewrite Nat.add_1_r in *. eapply wp_mono; [apply (update_step_ok A); [done|lia|done| |done]|].
    + apply (Hpre c (x :: z)); [by rewrite <- app_assoc|done].
    + intros r (pl' & -> & Hw' & Ht'). cbn [fst]. rewrite !idx_log2, length_app, Nat.add_1_r. split; [|lia].
      exists c, (x :: z). split; [by rewrite <- app_assoc|done].
Qed.

(** * Searching *)

(** [p] is neither above nor below an allocated block. *)
Definition unrelated A (p : path) : Prop := Forall (fun a => ~ a `prefix_of` p /\ ~ p `prefix_of` a) A.

Definition bounded A : Prop := forall a, a ∈ A -> (length a < n)%nat.

Lemma prefix_snoc_cases (a p : path) b : a `prefix_of` p ++ [b] -> a `prefix_of` p \/ a = p ++ [b].
Proof.
  intros [z E]. destruct z as [|y z _] using rev_ind; [right; by rewrite app_nil_r in E|].
  rewrite app_assoc in E. apply app_inj_tail in E as [-> _]. left. by exists z.
Qed.

Lemma entry_elem A p : p ∈ A -> entry A p = 0.
Proof. intros Hp. unfold entry. destruct (n - 1 - length p)%nat; cbn [maxfree]; by rewrite decide_True. Qed.

(** A child of a node that offers [r] bytes offers them too. *)
Lemma entry_children A p r :
  bounded A -> (S (length p) < n)%nat -> 0 < r <= bsz (S (length p)) -> r <= entry A p ->
  r <= entry A (p ++ [false]) \/ r <= entry A (p ++ [true]).
Proof.
  intros HA Hp Hr He. assert (p ∉ A) by (intros Hx%entry_elem; lia).
  unfold entry in *. rewrite !length_app, !Nat.add_1_r. cbn [length].
  replace (n - 1 - length p)%nat with (S (n - 1 - S (length p))) in He by lia. cbn [maxfree] in He.
  rewrite decide_False in He by done. case_decide as Hb; [lia|]. left. rewrite maxfree_free.
  - rewrite length_app, Nat.add_1_r. lia.
  - intros (a & Ha & z & ->)%list.Exists_exists. apply Hb, list.Exists_exists. eexists. split; [exact Ha|].
    rewrite <- app_assoc. by eexists.
Qed.

Lemma entry_found A p r k :
  bounded A -> length p = k -> (k < n)%nat -> bsz (S k) < r -> r <= entry A p ->
  (forall a, a ∈ A -> ~ a `prefix_of` p) -> unrelated A p.
Proof.
  intros HA <- Hk Hr He Hpre. apply list.Forall_forall. intros a Ha. split; [by apply Hpre|]. intros Hp.
  pose proof (maxfree_used A (n - 1 - length p) p ltac:(lia)) as Hu. unfold entry in He.
  enough (maxfree A (n - 1 - length p) p <= bsz (S (length p))) by lia. apply Hu.
  - intros c Hc. specialize (HA c Hc). lia.
  - apply list.Exists_exists. by exists a.
Qed.

(** The fixed members of the allocator. *)
Definition geometry (b : buddy P) : Prop :=
  pool_size_ b = S0 /\ num_order_ b = Z.of_nat n /\ min_block_size_ b = bsz n * 2 /\
  0 < pool_addr_ b /\ pool_addr_ b + S0 <= 2 ^ 64.

Definition holds (b : buddy P) A : Prop := geometry b /\ pool_wf (pool_ b) /\ tree_ok A (pool_view (pool_ b)).

Lemma holds_load b A p i (Q : Z -> Prop) :
  holds b A -> (length p < n)%nat -> i = idx p -> Q (entry A p) -> wp (pool_load (pool_ b) i) Q.
Proof.
  intros (_ & Hw & Ht) Hp -> HQ. eapply (wp_pool_load _ p); [done|done|done|apply Ht| |exact HQ].
  by apply tree_ok_get.
Qed.

Lemma search_ok b A r k :
  holds b A -> bounded A -> 0 < r <= bsz k -> bsz (S k) < r -> (k < n)%nat -> r <= entry A [] ->
  wp (search_suitable_block b (Z.of_nat k) r)
     (fun res => exists q, length q = k /\ unrelated A q /\ res = (idx q, pool_addr_ b + off 0 q)).
Proof.
  intros Hh HA Hr Hk1 Hk He. destruct (Hh) as ((Hps & _ & _ & Ha0 & Ha1) & _). unfold search_suitable_block.
  apply wp_bind, (wp_for_range (fun i st => exists p, i = Z.of_nat (length p) /\
      st = (idx p, pool_addr_ b + off 0 p, bsz (length p)) /\ r <= entry A p /\
      (forall a, a ∈ A -> ~ a `prefix_of` p))); [lia| | |].
  - exists []. cbn [length idx foldl off]. rewrite bsz_0, Hps, Z.add_0_r. split; [done|]. split; [done|]. split; [done|].
    intros a Ha ->%prefix_nil_inv. rewrite (entry_elem A []) in He by done. lia.
  - intros i st Hi (p & -> & -> & Hp & Hpre).
    assert (Hnext : forall c, r <= entry A (p ++ [c]) -> forall a, a ∈ A -> ~ a `prefix_of` p ++ [c]).
    { intros c Hc a Ha [Hx| ->]%prefix_snoc_cases; [by apply (Hpre a)|]. rewrite entry_elem in Hc by done. lia. }
    assert (Hle : bsz k <= bsz (S (length p))).
    { rewrite !bsz_eq by lia. apply Z.mul_le_mono_nonneg_l; [lia|]. apply Z.pow_le_mono_r; lia. }
    pose proof (off_bounds 0 p ltac:(cbn; lia)) as [Ho1 Ho2]. cbn [Nat.add] in Ho2. rewrite bsz_0 in Ho2.
    pose proof (bsz_double (length p) ltac:(lia)) as Hd. pose proof (bsz_pos (S (length p)) ltac:(lia)).
    rewrite (u64_id (idx p * 2 + 1)) by (apply idx_u64; lia).
    rewrite (u64_id (_ + 1)) by (replace (idx p * 2 + 1 + 1) with (idx p * 2 + 2) by lia; apply idx_u64; lia).
    rewrite <- bsz_half.
    apply wp_bind, (holds_load b A (p ++ [false])); [done|rewrite length_app, Nat.add_1_r; lia|rewrite idx_snoc; cbn; lia|].
    destruct (Z.leb_spec r (entry A (p ++ [false]))) as [Hf|Hf].
    + apply wp_ret. exists (p ++ [false]). rewrite length_app, Nat.add_1_r, off_snoc, idx_snoc. cbn [Z.b2z length Nat.add].
      split; [lia|]. split; [by rewrite Z.add_0_r, Z.add_0_r, (Z.mul_comm 2)|]. split; [done|by apply Hnext].
    + apply wp_bind, (holds_load b A (p ++ [true])); [done|rewrite length_app, Nat.add_1_r; lia|rewrite idx_snoc; cbn; lia|].
      assert (Ht : r <= entry A (p ++ [true])) by (destruct (entry_children A p r); first [done|lia]).
      apply wp_bind, wp_require; [lia|]. apply wp_ret. exists (p ++ [true]).
      rewrite length_app, Nat.add_1_r, off_snoc, idx_snoc. cbn [Z.b2z length Nat.add].
      split; [lia|]. split; [|split; [done|by apply Hnext]].
      rewrite u64_id by (unfold is_u64; lia). do 2 f_equal; lia.
  - intros st (p & Hl & -> & Hp & Hpre). apply wp_ret. exists p. assert (length p = k) by lia.
    split; [done|]. split; [|done]. by apply entry_found with r k.
Qed.

(** The walk of [deallocate] finds the block of an offset. *)
Lemma walk_ok q :
  (length q < n)%nat ->
  wp (for_range 0 (Z.of_nat (length q)) (fun _ st =>
        let '(block_idx, block_size, cur_offset) := st in
        let child_block_size := block_size / 2 in
        if off 0 q <? u64 (cur_offset + child_block_size) then
          Ok (u64 (block_idx * 2 + 1), child_block_size, cur_offset)
        else Ok (u64 (block_idx * 2 + 2), child_block_size, u64 (cur_offset + child_block_size)))
        (0, S0, 0))
     (fun st => st.1 = (idx q, bsz (length q))).
Proof.
  intros Hq.
  apply (wp_for_range (fun i st => exists p z, q = p ++ z /\ i = Z.of_nat (length p) /\
      st = (idx p, bsz (length p), off 0 p))); [lia| | |].
  - exists [], q. cbn [length idx foldl off]. by rewrite bsz_0.
  - intros i st Hi (p & z & Eq & -> & ->). destruct z as [|b z]; [rewrite Eq, app_nil_r in Hi; lia|].
    rewrite Eq in Hq |- *. rewrite length_app in Hq. cbn [length] in Hq.
    rewrite off_app. cbn [Nat.add off]. rewrite <- bsz_half.
    pose proof (off_bounds 0 p ltac:(cbn; lia)) as [Ho1 Ho2]. cbn [Nat.add] in Ho2. rewrite bsz_0 in Ho2.
    pose proof (off_bounds (S (length p)) z ltac:(lia)) as [Hz1 Hz2].
    pose proof (bsz_pos (S (length p) + length z) ltac:(lia)). pose proof (bsz_double (length p) ltac:(lia)).
    rewrite !(u64_id (off 0 p + _)) by (unfold is_u64; lia). rewrite !(u64_id (idx p * 2 + _)) by (apply idx_u64; lia).
    zcase; apply wp_ret; (exists (p ++ [b]), z); rewrite <- app_assoc; (split; [done|]);
      rewrite length_app, Nat.add_1_r, idx_snoc, off_snoc; cbn [Nat.add]; (split; [lia|]);
      destruct b; try lia; cbn [Z.b2z]; do 2 f_equal; lia.
  - intros st (p & z & Eq & Hl & ->). assert (z = []) as ->.
    { apply nil_length_inv. rewrite Eq, length_app in Hl. lia. }
    rewrite app_nil_r in Eq. by subst.
Qed.

(** * Requests *)

(** A request of [size] bytes is rounded to [r] and served from the blocks of
    level [k]. *)
Definition block_for (size r : Z) (k : nat) : Prop :=
  rounded_up_to_min_block_size size (bsz n * 2) = Ok r /\ compute_level S0 r = Ok (Z.of_nat k) /\
    0 < r /\ size <= r /\ level_for r k.

Lemma request_ok size : size <= 2 ^ 63 -> exists r k, block_for size r k.
Proof.
  intros Hs. destruct (rounded_up_ok size Hs) as (v & Ev & j & Hj & -> & Hle & _).
  assert (0 < 2 ^ j) by lia. pose proof (bsz_le n).
  destruct (compute_level_ok (Z.max (2 ^ j) (bsz n * 2))) as (l & El & k & -> & Hk); [lia|].
  exists (Z.max (2 ^ j) (bsz n * 2)), k. unfold block_for, rounded_up_to_min_block_size. rewrite Ev. cbn [mbind outcome_bind].
  split; [done|]. split; [done|]. split; [lia|]. split; [lia|done].
Qed.

Lemma block_for_fun size r k r' k' : block_for size r k -> block_for size r' k' -> k = k'.
Proof. intros (E1 & E2 & _) (E1' & E2' & _). rewrite E1 in E1'. injection E1' as <-. rewrite E2 in E2'. injection E2'. lia. Qed.

(** * Allocating and freeing a block *)

Definition antichain A : Prop := NoDup A /\ forall a c, a ∈ A -> c ∈ A -> a `prefix_of` c -> a = c.

Lemma tree_but_swap A A' q v x :
  tree_ok A v -> (length q < n)%nat -> (forall a, a <> q -> a ∈ A <-> a ∈ A') -> x = entry A' q ->
  tree_but A' q (zset v (idx q) x).
Proof.
  intros Ht Hq HAA ->. destruct (Ht) as (Hl & H0 & _). apply tree_but_store; [done|done|done|done|].
  intros p Hp Hpq Hz. rewrite (tree_ok_get A) by done. f_equal. apply maxfree_ext. intros a Hpa. apply HAA. intros ->.
  destruct Hpa as [z Ez]. apply Hpq. rewrite Ez, (Hz z Ez). by rewrite app_nil_r.
Qed.

Lemma store_update_ok b A A' q x :
  holds b A -> bounded A' -> (length q < n)%nat -> (forall a, a <> q -> a ∈ A <-> a ∈ A') -> x = entry A' q ->
  (forall p z, q = p ++ z -> z <> [] -> p ∉ A') ->
  wp (pool ← pool_store (pool_ b) (idx q) x; update_pool S0 (idx q) pool) (fun pool => holds (set_pool b pool) A').
Proof.
  intros (Hg & Hw & Ht) HA Hq HAA Hx Hpre. pose proof (entry_u64 A' q Hq).
  apply wp_bind, (wp_pool_store _ q); [done|done|done|apply Ht|by rewrite Hx|]. intros pool' Hw' Hv'.
  eapply wp_mono; [apply (update_pool_ok A'); [done|done|done|done|]|].
  - rewrite Hv'. by apply (tree_but_swap A).
  - intros pool'' [Hw'' Ht'']. done.
Qed.

Lemma no_proper_prefix A q p z : (forall a, a ∈ A -> a `prefix_of` q -> a = q) -> q = p ++ z -> z <> [] -> p ∉ A.
Proof.
  intros HA E Hz Hp. assert (p = q) as -> by (apply HA; [done|by exists z]).
  apply Hz. apply (f_equal length) in E. rewrite length_app in E. apply nil_length_inv. lia.
Qed.

Lemma wp_alloc_tail b A q :
  holds b A -> bounded A -> (length q < n)%nat -> unrelated A q ->
  wp (let first := u32 (idx q) in
      require (negb (pool_addr_ b + off 0 q =? 0)) AssertFail;;
      pool ← pool_store (pool_ b) first 0; pool ← update_pool S0 first pool;
      Ok (pool_addr_ b + off 0 q, set_pool b pool))
     (fun res => res.1 = pool_addr_ b + off 0 q /\ holds res.2 (q :: A) /\ pool_addr_ res.2 = pool_addr_ b).
Proof.
  intros Hh HA Hq Hu. destruct (Hh) as ((_ & _ & _ & Ha0 & Ha1) & _). cbv zeta.
  pose proof (idx_range q Hq). pose proof order_bound. pose proof (off_bounds 0 q Hq) as [Ho _].
  rewrite u32_id by (unfold is_u32; lia). apply wp_bind, wp_require; [lia|].
  destruct (store_update_ok b A (q :: A) q 0) as (pool & E & Hp); [done| |done| | | |].
  - intros a [->|Ha]%elem_of_cons; [done|by apply HA].
  - intros a Ha. rewrite elem_of_cons. split; [by right|]. by intros [|].
  - symmetry. apply entry_elem. by left.
  - intros p z. apply no_proper_prefix. intros a [->|Ha]%elem_of_cons Hp; [done|].
    unfold unrelated in Hu. rewrite list.Forall_forall in Hu. by destruct (Hu a Ha) as [[] _].
  - unfold mbind, outcome_bind in E |- *. destruct (pool_store (pool_ b) (idx q) 0); [|done]. rewrite E. by apply wp_ret.
Qed.

Lemma allocate_ok size b A :
  holds b A -> bounded A -> size <= 2 ^ 63 ->
  exists r k, block_for size r k /\
    ((exists q b', length q = k /\ unrelated A q /\ allocate size b = Ok (pool_addr_ b + off 0 q, b') /\ holds b' (q :: A) /\
       size <= bsz k /\ pool_addr_ b' = pool_addr_ b) \/
     (allocate size b = Ok (0, b) /\ (S0 < r \/ forall q, length q = k -> ~ unrelated A q))).
Proof.
  intros Hh HA Hs. destruct (request_ok size Hs) as (r & k & Hk). exists r, k. split; [done|].
  destruct (Hk) as (Er & El & Hr0 & Hsr & Hkn & Hfit & Hnext & _).
  destruct (Hh) as ((Hps & _ & Hmin & _) & _). pose proof n_range.
  destruct (holds_load b A [] 0 (fun x => x = entry A []) Hh) as (root & Eroot & ->); [cbn; lia|done|done|].
  unfold allocate. rewrite Hmin, Er, Hps. cbn [mbind outcome_bind]. rewrite El. cbn [mbind outcome_bind].
  rewrite Eroot. cbn [mbind outcome_bind].
  assert (He : entry A [] = maxfree A (n - 1) []) by (unfold entry; cbn [length]; by rewrite Nat.sub_0_r).
  pose proof (maxfree_range A (n - 1) [] ltac:(cbn; lia)) as Hroot. cbn [length] in Hroot. rewrite <- He, bsz_0 in Hroot.
  destruct (Z.ltb_spec (entry A []) r) as [Hlt|Hge].
  - right. split; [done|]. destruct (Z.lt_ge_cases S0 r) as [Hbig|Hsmall]; [by left|]. right. intros q Hq Hu.
    pose proof (maxfree_offers A [] q r) as Ho. cbn [app length] in Ho.
    rewrite Hq, Nat.sub_0_r, <- He in Ho. specialize (Ho Hkn HA Hu (Hfit Hsmall)). lia.
  - left. destruct (search_ok b A r k Hh HA) as (res & -> & q & Hq & Hu & ->); [lia|done|done|done|].
    destruct (wp_alloc_tail b A q Hh HA ltac:(lia) Hu) as ([a b'] & E & Ea & Hh' & Hb'). cbn [fst snd] in *. subst a. exists q, b'.
    split; [done|]. split; [done|]. split; [exact E|]. split; [done|]. split; [lia|done].
Qed.

Lemma deallocate_ok size r k b A q :
  holds b (q :: A) -> bounded (q :: A) -> antichain (q :: A) -> block_for size r k -> length q = k ->
  wp (deallocate (pool_addr_ b + off 0 q) size b) (fun b' => holds b' A /\ pool_addr_ b' = pool_addr_ b).
Proof.
  intros Hh HA [[Hnq Hnd]%list.NoDup_cons Hac] (Er & El & _) Hk. assert (Hq : (length q < n)%nat) by (apply HA; by left).
  destruct (Hh) as ((Hps & _ & Hmin & Ha0 & Ha1) & _).
  pose proof (off_bounds 0 q Hq) as [Ho1 Ho2]. pose proof (bsz_le (0 + length q)). rewrite bsz_0 in Ho2.
  unfold deallocate. rewrite Hmin, Er, Hps. cbn [mbind outcome_bind]. rewrite El, <- Hk. cbn [mbind outcome_bind].
  replace (pool_addr_ b + off 0 q - pool_addr_ b) with (off 0 q) by lia. rewrite u64_id by (unfold is_u64; lia).
  destruct (walk_ok q Hq) as ([[i bs] cur] & Ew & Est). cbn [fst] in Est. injection Est as -> ->.
  match goal with |- wp (mbind _ ?m) _ => replace m with (Ok (idx q, bsz (length q), cur)) by (symmetry; exact Ew) end.
  cbn [mbind outcome_bind].
  destruct (store_update_ok b (q :: A) A q (bsz (length q))) as (pool & E & Hp); [done| |done| | | |].
  - intros a Ha. apply HA. by right.
  - intros a Ha. rewrite elem_of_cons. split; [by intros [|]|by right].
  - symmetry. apply maxfree_free. intros (a & Ha & Hp)%list.Exists_exists.
    assert (q = a) as <- by (apply Hac; [by left|by right|done]). done.
  - intros p z. apply no_proper_prefix. intros a Ha Hp. apply Hac; [by right|by left|done].
  - unfold mbind, outcome_bind in E |- *. destruct (pool_store (pool_ b) (idx q) _); [|done]. rewrite E. by apply wp_ret.
Qed.

(** * The initial pool *)

Definition level_size (j : Z) : Z := bsz (Z.to_nat (Z.log2 (j + 1))).

Definition filled (pos : Z) pool : Prop :=
  pool_wf pool /\ zlen (pool_view pool) = tree_size /\ zget (pool_view pool) (tree_size - 1) = Some 0 /\
  forall j, 0 <= j < pos -> zget (pool_view pool) j = Some (level_size j).

Lemma fill_order_ok k pool :
  (k < n)%nat -> filled (2 ^ Z.of_nat k - 1) pool ->
  wp (fill_order (2 ^ Z.of_nat k) (bsz k) (pool, 2 ^ Z.of_nat k - 1))
     (fun st => st.2 = 2 ^ Z.of_nat (S k) - 1 /\ filled (2 ^ Z.of_nat (S k) - 1) st.1).
Proof.
  intros Hk Hf. rewrite Nat2Z.inj_succ, Z.pow_succ_r by lia. set (c := 2 ^ Z.of_nat k) in *. assert (0 < c) by (unfold c; lia).
  assert (2 * c <= tree_size).
  { unfold c, tree_size. rewrite <- Z.pow_succ_r by lia. apply Z.pow_le_mono_r; lia. }
  apply (wp_for_range (fun i st => st.2 = c - 1 + i /\ filled (c - 1 + i) st.1)); [lia| | |].
  - cbn [fst snd]. by rewrite Z.add_0_r.
  - intros i [pl pos] Hi [Hpos (Hw & Hl & Hlast & Hj)]. cbn [fst snd] in *. subst pos.
    destruct (pool_store_ok pl (c - 1 + i) (bsz k)) as (pl' & -> & Hv & Hw'); [done|lia|apply bsz_u64|].
    cbn [mbind outcome_bind]. apply wp_ret. cbn [fst snd]. split; [lia|]. unfold filled. rewrite Hv, zlen_zset.
    split; [done|]. split; [done|]. split; [rewrite zget_zset_ne by lia; done|].
    intros j Hj'. destruct (Z.eq_dec j (c - 1 + i)) as [->|].
    + rewrite zget_zset_eq by lia. f_equal. unfold level_size. f_equal.
      replace (c - 1 + i + 1) with (c + i) by lia. rewrite (Z.log2_unique (c + i) (Z.of_nat k)); [lia|lia|].
      rewrite Z.pow_succ_r by lia. fold c. lia.
    + rewrite zget_zset_ne by lia. apply Hj. lia.
  - intros [pl pos] [Hpos Hf']. cbn [fst snd] in *. replace (2 * c - 1) with (c - 1 + c) by lia. done.
Qed.

Lemma init_pool_ok pool :
  filled 0 pool -> wp (init_pool S0 (Z.of_nat n) pool) (fun res => pool_wf res.1 /\ tree_ok [] (pool_view res.1) /\ res.2 = bsz n * 2).
Proof.
  intros Hf. unfold init_pool.
  apply wp_bind, (wp_for_range (fun i st => exists k : nat, i = Z.of_nat k /\ st.1.2 = 2 ^ Z.of_nat k - 1 /\ st.2 = bsz k /\
     filled (2 ^ Z.of_nat k - 1) st.1.1)); [lia| | |].
  - exists 0%nat. cbn [fst snd]. by rewrite bsz_0.
  - intros i [[pl pos] bs] Hi (k & -> & Hpos & Hbs & Hf'). cbn [fst snd] in *. subst pos bs.
    assert (Hu : u32 (Z.shiftl 1 (Z.of_nat k)) = 2 ^ Z.of_nat k).
    { rewrite Z.shiftl_1_l. apply u32_id. unfold is_u32. pose proof (Z.pow_lt_mono_r 2 (Z.of_nat k) 32). lia. }
    rewrite Hu. apply wp_bind. eapply wp_mono; [apply fill_order_ok; [lia|done]|]. intros [pl' pos'] [Hp' Hf'']. cbn [fst snd] in *.
    apply wp_ret. exists (S k). cbn [fst snd]. split; [lia|]. split; [done|]. split; [by rewrite bsz_half|done].
  - intros [[pl pos] bs] (k & Hk & Hpos & Hbs & (Hw & Hl & Hlast & Hj)). cbn [fst snd] in *. apply Nat2Z.inj in Hk as <-.
    apply wp_ret. cbn [fst snd]. split; [done|]. split.
    + split; [done|]. split; [done|]. intros p Hp _. rewrite Hj by (by apply idx_range). f_equal.
      unfold level_size. rewrite idx_log2, Nat2Z.id. symmetry. apply maxfree_free. by intros ?%Exists_nil.
    + rewrite Hbs. apply u64_id. pose proof (bsz_le n). unfold is_u64. lia.
Qed.

End Geometry.

(** * The allocator as a set of disjoint blocks *)

Section Allocator.
Context {P : Type} `{PoolStore P}.
Implicit Types (b : buddy P) (L : list (Z * Z)).

(** The sizes of the tree halve exactly and fit the machine types. *)
Definition pool_shape (size order : Z) : Prop :=
  1 <= order <= 30 /\ (exists m, 0 < m /\ size = m * 2 ^ (order - 1)) /\ size < 2 ^ 63.

(** The request [(a, sz)] was served with the block [q]. *)
Definition served b (x : Z * Z) (q : path) : Prop :=
  x.1 = pool_addr_ b + off (pool_size_ b) 0 q /\ x.2 <= bsz (pool_size_ b) (length q) /\
  exists r, block_for (pool_size_ b) (Z.to_nat (num_order_ b)) x.2 r (length q).

(** [live b L]: [L] are the addresses and sizes handed out and not freed. *)
Definition live b L : Prop :=
  pool_shape (pool_size_ b) (num_order_ b) /\
  exists T : list (Z * Z * path),
    L = T.*1 /\ Forall (fun t => served b t.1 t.2) T /\
    bounded (Z.to_nat (num_order_ b)) T.*2 /\ antichain T.*2 /\
    holds (pool_size_ b) (Z.to_nat (num_order_ b)) b T.*2.

(** Blocks, as intervals of addresses. *)
Definition overlaps (a la c lc : Z) : Prop := a < c + lc /\ c < a + la.

(** The block [q] of the pool overlaps a live block. *)
Definition occupied (addr size order : Z) L (q : path) : Prop :=
  exists a sz r k, (a, sz) ∈ L /\ block_for size (Z.to_nat order) sz r k /\
    overlaps (addr + off size 0 q) (bsz size (length q)) a (bsz size k).

(** There is no room for [size] bytes: they round to more than the pool, or
    every block of the level that serves them is occupied. *)
Definition no_room b L (size : Z) : Prop :=
  exists r k, block_for (pool_size_ b) (Z.to_nat (num_order_ b)) size r k /\
    (pool_size_ b < r \/ forall q, length q = k -> occupied (pool_addr_ b) (pool_size_ b) (num_order_ b) L q).

Lemma live_perm b L L' : L ≡ₚ L' -> live b L -> live b L'.
Proof.
  intros HL (Hs & T & -> & HT & HB & [HN HA] & (Hg & Hw & Ht)). split; [done|].
  destruct (Permutation_map_inv fst T (Permutation_sym HL)) as (T' & -> & HP).
  exists T'. assert (HP2 : T.*2 ≡ₚ T'.*2) by by rewrite HP.
  split; [done|]. split; [by rewrite <- HP|]. split; [intros a Ha; apply HB; by rewrite HP2|].
  split; [split; [by rewrite <- HP2|intros a c; rewrite <- HP2; apply HA]|]. split; [done|]. split; [done|].
  destruct Ht as (Hl & H0 & Ht). split; [done|]. split; [done|]. intros p Hp Hz. rewrite Ht by done. f_equal.
  apply maxfree_ext. intros a _. by rewrite HP2.
Qed.

Lemma live_in_pool b L a sz :
  live b L -> (a, sz) ∈ L -> pool_addr_ b <= a /\ a + sz <= pool_addr_ b + pool_size_ b.
Proof.
  intros ((Ho & (m & Hm & Em) & Hu) & T & -> & HT & HB & _ & ((_ & _ & _ & Ha0 & _) & _)) Ha.
  apply list_elem_of_fmap in Ha as ([x q] & Ex & Hx). cbn in Ex. subst x.
  rewrite list.Forall_forall in HT. destruct (HT _ Hx) as (Ea & Hsz & _). cbn [fst snd] in *.
  assert (Hq : q ∈ T.*2) by (apply list_elem_of_fmap; by exists (a, sz, q)). specialize (HB q Hq).
  destruct (off_bounds (pool_size_ b) (Z.to_nat (num_order_ b)) m) with (k := 0%nat) (p := q) as [H1 H2]; try lia.
  { rewrite Em. do 2 f_equal. lia. }
  rewrite bsz_0 in H2. cbn [Nat.add] in H2. lia.
Qed.

(** The hypotheses of the section above, from the shape of the pool. *)
Lemma shape_facts size order :
  pool_shape size order -> exists m, size = m * 2 ^ (Z.of_nat (Z.to_nat order) - 1) /\ 0 < m /\
    (1 <= Z.to_nat order <= 30)%nat /\ size < 2 ^ 63.
Proof. intros (Ho & (m & Hm & Em) & Hu). exists m. rewrite Z2Nat.id by lia. split; [done|]. split; [done|]. lia. Qed.

Lemma comparable_overlap size order m a q :
  size = m * 2 ^ (Z.of_nat order - 1) -> 0 < m -> (1 <= order <= 30)%nat -> size < 2 ^ 63 ->
  (length a < order)%nat -> (length q < order)%nat -> a `prefix_of` q \/ q `prefix_of` a ->
  overlaps (off size 0 q) (bsz size (length q)) (off size 0 a) (bsz size (length a)).
Proof.
  intros E Hm Ho Hs Ha Hq Hc. unfold overlaps.
  pose proof (bsz_pos size order m E Hm Ho (length q) Hq). pose proof (bsz_pos size order m E Hm Ho (length a) Ha).
  destruct Hc as [[z ->]|[z ->]]; rewrite (off_app size order Ho), length_app in *; cbn [Nat.add].
  - destruct (off_bounds size order m E Hm Ho Hs (length a) z); lia.
  - destruct (off_bounds size order m E Hm Ho Hs (length q) z); lia.
Qed.

Lemma not_unrelated A q : ~ unrelated A q -> exists a, a ∈ A /\ (a `prefix_of` q \/ q `prefix_of` a).
Proof.
  intros Hn. apply list.Exists_exists. destruct (decide (Exists (fun a => a `prefix_of` q \/ q `prefix_of` a) A)) as [|Hx]; [done|].
  destruct Hn. apply list.Forall_forall. intros a Ha. split; intros Hp; apply Hx, list.Exists_exists; exists a; auto.
Qed.

Lemma allocate_live b L size :
  live b L -> 0 <= size <= 2 ^ 63 ->
  exists a b', allocate size b = Ok (a, b') /\
    ((a = 0 /\ b' = b /\ no_room b L size) \/
     (live b' ((a, size) :: L) /\ pool_addr_ b' = pool_addr_ b /\ pool_size_ b' = pool_size_ b /\ num_order_ b' = num_order_ b /\
        forall c sz, (c, sz) ∈ L -> a + size <= c \/ c + sz <= a)).
Proof.
  intros (Hs & T & -> & HT & HB & [HN HA] & Hh) Hsz. destruct (shape_facts _ _ Hs) as (m & Em & Hm & Hn & Hu).
  destruct (allocate_ok _ _ m Em Hm Hn Hu size b _ Hh HB) as (r & k & Hk & [(q & b' & Hq & Hun & E & Hh' & Hfit & Hb')|[E Hfull]]);
    [lia| |].
  - exists (pool_addr_ b + off (pool_size_ b) 0 q), b'. split; [done|]. right.
    pose proof (proj1 Hh') as (Hps & Hno & _). destruct Hh as ((_ & Hno0 & _) & _). rewrite <- Hno0 in Hno.
    unfold live. rewrite Hps, Hno, Hb'.
    destruct (Hk) as (_ & _ & _ & _ & (Hkn & _)). unfold unrelated in Hun. rewrite list.Forall_forall in Hun.
    split; [split; [done|]|split; [done|split; [done|split; [done|]]]].
    + exists ((pool_addr_ b + off (pool_size_ b) 0 q, size, q) :: T). split; [done|]. rewrite !fmap_cons. cbn [fst snd]. split.
      { constructor.
        - split; [cbn; by rewrite Hps, Hb'|]. cbn [fst snd]. rewrite Hps, Hno, Hq. split; [done|]. by exists r.
        - eapply list.Forall_impl; [exact HT|]. intros [[a sz] p]. unfold served. cbn [fst snd]. by rewrite Hps, Hno, Hb'. }
      split; [intros a [->|Ha]%elem_of_cons; [lia|by apply HB]|]. split; [|done]. split.
      { apply list.NoDup_cons. split; [|done]. intros Hx. by destruct (Hun q Hx) as [[] _]. }
      intros a c [->|Ha]%elem_of_cons [->|Hc]%elem_of_cons Hp; [done| | |by apply HA].
      * by destruct (Hun c Hc) as [_ []].
      * by destruct (Hun a Ha) as [[] _].
    + intros c sz Hc. apply list_elem_of_fmap in Hc as ([x p] & Ex & Hx). cbn in Ex. subst x.
      rewrite list.Forall_forall in HT. destruct (HT _ Hx) as (Ea & Hsz' & _). cbn [fst snd] in *.
      assert (Hp : p ∈ T.*2) by (apply list_elem_of_fmap; by exists (c, sz, p)). pose proof (HB p Hp).
      destruct (Hun p Hp) as [H1 H2].
      destruct (off_disjoint _ _ m Em Hm Hn Hu 0 q p) as [Hd|Hd]; [cbn; lia|cbn; lia|done|done| |]; cbn [Nat.add] in Hd; subst k; lia.
  - exists 0, b. split; [done|]. left. split; [done|]. split; [done|]. exists r, k. split; [done|].
    destruct Hfull as [|Hfull]; [by left|]. right. intros q Hq. destruct (not_unrelated _ _ (Hfull q Hq)) as (p & Hp & Hc).
    pose proof (HB p Hp). destruct (Hk) as (_ & _ & _ & _ & (Hkn & _)).
    apply list_elem_of_fmap in Hp as ([[a sz] p'] & -> & Hx). cbn [snd] in *.
    rewrite list.Forall_forall in HT. destruct (HT _ Hx) as (Ea & Hsz' & r' & Hk'). cbn [fst snd] in *.
    exists a, sz, r', (length p'). split; [apply list_elem_of_fmap; by exists (a, sz, p')|]. split; [done|].
    pose proof (comparable_overlap _ _ m p' q Em Hm Hn Hu ltac:(lia) ltac:(lia) Hc) as Ho. unfold overlaps in *. lia.
Qed.

Lemma deallocate_live b L a sz L' :
  live b L -> L ≡ₚ (a, sz) :: L' ->
  wp (deallocate a sz b) (fun b' => live b' L' /\
    pool_addr_ b' = pool_addr_ b /\ pool_size_ b' = pool_size_ b /\ num_order_ b' = num_order_ b).
Proof.
  intros Hl HL. apply (live_perm _ _ _ HL) in Hl. destruct Hl as (Hs & T & ET & HT & HB & HA & Hh).
  destruct T as [|[[a' sz'] q] T]; [done|]. rewrite fmap_cons in ET. cbn [fst] in ET. injection ET as <- <- ->.
  apply list.Forall_cons in HT as [(Ea & Hsz & r & Hk) HT]. rewrite fmap_cons in *. cbn [fst snd] in *.
  destruct (shape_facts _ _ Hs) as (m & Em & Hm & Hn & Hu). rewrite Ea.
  eapply wp_mono; [by eapply (deallocate_ok _ _ m Em Hm Hn Hu sz r (length q))|]. intros b' [Hh' Hb'].
  pose proof (proj1 Hh') as (Hps & Hno & _). destruct Hh as ((_ & Hno0 & _) & _).
  rewrite <- Hno0 in Hno.
  split; [|done]. unfold live. rewrite Hps, Hno. split; [done|]. exists T. split; [done|]. split.
  { eapply list.Forall_impl; [exact HT|]. intros [[c sc] p]. unfold served. cbn [fst snd]. by rewrite Hps, Hno, Hb'. }
  split; [intros x Hx; apply HB; by right|]. destruct HA as [HN HA]. split; [|done]. apply list.NoDup_cons in HN as [_ HN].
  split; [done|]. intros x y Hx Hy. apply HA; by right.
Qed.

(** The array of a pool is determined by the live blocks. *)
Lemma live_nil_view b1 b2 :
  live b1 [] -> live b2 [] -> pool_size_ b1 = pool_size_ b2 -> num_order_ b1 = num_order_ b2 ->
  pool_view (pool_ b1) = pool_view (pool_ b2).
Proof.
  intros (Hs & T1 & E1 & _ & _ & _ & (_ & _ & Ht1)) (_ & T2 & E2 & _ & _ & _ & (_ & _ & Ht2)) Eps Eno.
  symmetry in E1, E2. apply fmap_nil_inv in E1 as ->, E2 as ->. rewrite <- Eps, <- Eno in Ht2. cbn [fmap list_fmap] in *.
  destruct (shape_facts _ _ Hs) as (m & Em & Hm & Hn & Hu).
  pose proof (proj1 Ht1) as L1. pose proof (proj1 Ht2) as L2. apply zvec_ext; [congruence|]. intros i Hi. rewrite L1 in Hi.
  destruct (Z.eq_dec i (tree_size (Z.to_nat (num_order_ b1)) - 1)) as [->|].
  { by rewrite (proj1 (proj2 Ht1)), (proj1 (proj2 Ht2)). }
  destruct (idx_surj _ Hn i) as [p <-]; [lia|].
  assert (length p < Z.to_nat (num_order_ b1))%nat.
  { pose proof (idx_bounds _ Hn p) as Hb. unfold tree_size in *. apply Nat2Z.inj_lt. apply (Z.pow_lt_mono_r_iff 2); lia. }
  by rewrite (tree_ok_get _ _ _ _ p Ht1), (tree_ok_get _ _ _ _ p Ht2).
Qed.

Lemma init_pool_live pool addr size order :
  pool_shape size order -> 0 < addr -> addr + size <= 2 ^ 64 ->
  pool_wf pool -> pool_view pool = zreplicate (2 ^ order) 0 ->
  wp (init_pool size order pool) (fun res => live (MkBuddy addr size order res.2 res.1) []).
Proof.
  intros Hs Ha0 Ha1 Hw Hv. destruct (shape_facts _ _ Hs) as (m & Em & Hm & Hn & Hu). destruct (Hs) as (Ho & _).
  replace order with (Z.of_nat (Z.to_nat order)) at 1 by lia. eapply wp_mono; [apply (init_pool_ok _ _ m Em Hm Hn Hu)|].
  - unfold filled, tree_size. rewrite Hv, Z2Nat.id, zlen_replicate by lia. split; [done|]. split; [lia|].
    assert (0 < 2 ^ order) by lia. split; [apply zget_replicate; lia|]. lia.
  - intros [pl mn] (Hw' & Ht & Hmin). cbn [fst snd] in *. split; [done|]. exists []. split; [done|].
    split; [by constructor|]. split; [by intros a ?%elem_of_nil|]. split; [split; [constructor|by intros a c ?%elem_of_nil]|].
    split; [|done]. split; [done|]. cbn. split; [lia|]. done.
Qed.

End Allocator.

(** * The allocator over a vector *)

Lemma new_buddy_live addr size order :
  pool_shape size order -> 0 < addr -> addr + size <= 2 ^ 64 ->
  exists b, new_buddy addr size order = Ok b /\ live b [] /\
    pool_addr_ b = addr /\ pool_size_ b = size /\ num_order_ b = order.
Proof.
  intros Hs Ha0 Ha1. destruct (Hs) as (Ho & _). unfold new_buddy.
  assert (Hu : u64 (s32 (Z.shiftl 1 order)) = 2 ^ order).
  { rewrite Z.shiftl_1_l. assert (0 < 2 ^ order <= 2 ^ 30) by (split; [lia|apply Z.pow_le_mono_r; lia]).
    rewrite s32_id, u64_id by (unfold is_s32, is_u64; lia). done. }
  rewrite Hu.
  destruct (init_pool_live (zreplicate (2 ^ order) 0) addr size order Hs Ha0 Ha1) as ([pl mn] & -> & Hl); [exact I|done|].
  by eexists.
Qed.

(** C21: On a buddy pool with at most 30 orders whose size is a multiple of
    2^(num_order-1), allocate of up to 2^63 bytes returns either a block inside the pool
    that is disjoint from every live block, or nullptr with the state unchanged, and
    nullptr only when the rounded request exceeds the pool or every block of the serving
    level overlaps a live block; the CHECKs never fail and no access leaves the array. *)
Theorem buddy_allocate_spec (b : buddy (list Z)) (L : list (Z * Z)) (size : Z) :
  live b L -> 0 <= size <= 2 ^ 63 ->
  exists a b', allocate size b = Ok (a, b') /\
    ((a = 0 /\ b' = b /\ no_room b L size) \/
     (live b' ((a, size) :: L) /\ pool_addr_ b <= a /\ a + size <= pool_addr_ b + pool_size_ b /\
        forall c sz, (c, sz) ∈ L -> a + size <= c \/ c + sz <= a)).
Proof.
  intros Hl Hs. destruct (allocate_live b L size Hl Hs) as (a & b' & E & [H|(Hl' & Ea & Es & _ & Hd)]); exists a, b'.
  - auto.
  - split; [done|]. right. destruct (live_in_pool b' _ a size Hl'); [by left|]. rewrite Ea, Es in *. auto.
Qed.

(** C22: deallocate of a live block, in any order, removes exactly that block from the
    live set and keeps the tree invariant (every entry is the largest free block below
    its node); when the last block is freed all buddies have merged and the allocator is
    equal to a new one. *)
Theorem buddy_deallocate_spec (b : buddy (list Z)) (L L' : list (Z * Z)) (a sz : Z) :
  live b L -> L ≡ₚ (a, sz) :: L' ->
  exists b', deallocate a sz b = Ok b' /\ live b' L' /\
    (L' = [] -> new_buddy (pool_addr_ b) (pool_size_ b) (num_order_ b) = Ok b').
Proof.
  intros Hl HL. destruct (deallocate_live b L a sz L' Hl HL) as (b' & E & Hl' & Ea & Es & En).
  exists b'. split; [done|]. split; [done|]. intros ->.
  destruct (Hl') as (Hsh & T & _ & _ & _ & _ & ((_ & _ & Hmin & Ha0 & Ha1) & _)).
  destruct (new_buddy_live (pool_addr_ b') (pool_size_ b') (num_order_ b')) as (b0 & E0 & Hl0 & A0 & S0 & N0); [done..|].
  rewrite <- Ea, <- Es, <- En, E0. f_equal. pose proof (live_nil_view b0 b' Hl0 Hl' S0 N0) as Hv. unfold id in Hv; cbn in Hv.
  destruct Hl0 as (_ & T0 & _ & _ & _ & _ & ((_ & _ & Hmin0 & _) & _)).
  destruct b0, b'. cbn in *. by subst.
Qed.

Lemma demo_live :
  exists b1 b2 b3, new_buddy 4096 1024 5 = Ok b1 /\ allocate 100 b1 = Ok (4096, b2) /\
    allocate 30 b2 = Ok (4096 + 128, b3) /\ live b1 [] /\ live b2 [(4096, 100)] /\ live b3 [(4224, 30); (4096, 100)].
Proof.
  destruct (new_buddy_live 4096 1024 5) as (b1 & E1 & L1 & _); [|lia|lia|].
  { split; [lia|]. split; [exists 64; split; [lia|reflexivity]|lia]. }
  destruct (allocate_live b1 [] 100 L1 ltac:(lia)) as (a2 & b2 & E2 & H2).
  pose proof E2 as E2'. vm_compute in E1. injection E1 as <-. vm_compute in E2'. injection E2' as <- <-.
  destruct H2 as [[? _]|[L2 _]]; [discriminate|].
  destruct (allocate_live _ _ 30 L2 ltac:(lia)) as (a3 & b3 & E3 & H3).
  pose proof E3 as E3'. vm_compute in E3'. injection E3' as <- <-. destruct H3 as [[? _]|[L3 _]]; [discriminate|].
  eexists _, _, _. split; [reflexivity|]. split; [exact E2|]. split; [exact E3|]. split; [exact L1|]. split; [exact L2|exact L3].
Qed.

(** Allocating with two blocks live. *)
Lemma buddy_allocate_spec_witness :
  exists b L a b', live b L /\ L = [(4224, 30); (4096, 100)] /\ allocate 200 b = Ok (a, b').
Proof.
  destruct demo_live as (b1 & b2 & b3 & _ & _ & _ & _ & _ & L3).
  destruct (buddy_allocate_spec b3 [(4224, 30); (4096, 100)] 200 L3) as (a & b' & E & _); [lia|].
  exists b3, [(4224, 30); (4096, 100)], a, b'. split; [exact L3|]. split; [reflexivity|exact E].
Defined.

(** Freeing the blocks out of order restores the initial pool. *)
Lemma buddy_deallocate_spec_witness :
  exists b b1 b2, live b [(4224, 30); (4096, 100)] /\ deallocate 4096 100 b = Ok b1 /\ deallocate 4224 30 b1 = Ok b2 /\
    new_buddy (pool_addr_ b1) (pool_size_ b1) (num_order_ b1) = Ok b2.
Proof.
  destruct demo_live as (_ & _ & b3 & _ & _ & _ & _ & _ & L3).
  destruct (buddy_deallocate_spec b3 [(4224, 30); (4096, 100)] [(4224, 30)] 4096 100 L3) as (b1 & E1 & L1 & _);
    [apply perm_swap|].
  destruct (buddy_deallocate_spec b1 [(4224, 30)] [] 4224 30 L1) as (b2 & E2 & _ & R2); [reflexivity|].
  exists b3, b1, b2. split; [exact L3|]. split; [exact E1|]. split; [exact E2|]. apply R2. reflexivity.
Defined.

(** rounded_up returns the least power of two not below its argument for sizes up
    to 2^63, and for larger sizes its loop never ends: the value is shifted out to zero. *)
Theorem rounded_up_terminates (size : Z) :
  (size <= 2 ^ 63 -> exists v, rounded_up size = Ok v /\ is_pow2_up size v) /\
  (2 ^ 63 < size -> forall fuel, while_fuel fuel (rounded_up_step size) 1 = Fault OutOfFuel).
Proof. split; [apply rounded_up_ok|]. intros Hs fuel. by apply rounded_up_loops. Qed.

Lemma rounded_up_terminates_witness :
  (exists v, rounded_up 1000 = Ok v /\ is_pow2_up 1000 v) /\
  while_fuel 1000 (rounded_up_step (2 ^ 63 + 1)) 1 = Fault OutOfFuel.
Proof.
  split; [apply (proj1 (rounded_up_terminates 1000)); lia|apply (proj2 (rounded_up_terminates (2 ^ 63 + 1))); lia].
Defined.

(** A pool of 6 bytes with 3 levels: after one block was allocated and freed, the
    pool no longer serves 4 bytes, which it did at first. *)
Example buddy_uneven_pool :
  (b ← new_buddy 4096 6 3; '(a, _) ← allocate 4 b; Ok a) = Ok 4096 /\
  (b ← new_buddy 4096 6 3; '(p, b) ← allocate 1 b; b ← deallocate p 1 b; '(a, _) ← allocate 4 b; Ok a) = Ok 0.
Proof. vm_compute. split; reflexivity. Qed.
