(* ===== verification/BuddyBuilder.v ===== *)
(** Objects in a relocatable buffer (cpp/examples/object_builder.h, pointer.h)
    and the buddy allocator kept in one
    (buddy_memory_allocator_base_object_builder.h and .cc).

    An object is an offset in the buffer; a [Pointer<T>] member holds the
    distance from the member to its target.  The functions of the allocator are
    those of buddy_memory_allocator.cc with [pool_] replaced by the array the
    [Pointer] leads to, so they are the definitions of Buddy.v on that array.
    Field offsets are those of the x86-64 ABI. *)

From S2P Require Import Prelude Bytes Buddy BuddySpec.

(** * ObjectBuilder *)

Record ObjectBuilder := MkBuilder { buffer_ : list Z }.

(** [(size + align_mask) & (~align_mask)] in [size_t] *)
Definition compute_aligned_size (size align_size : Z) : Z :=
  let align_mask := align_size - 1 in
  Z.land (u64 (size + align_mask)) (2 ^ 64 - 1 - align_mask).

(** [buffer_.resize(n)]: new bytes are zero. *)
Definition resize_buffer (n : Z) (buf : list Z) : list Z := take (Z.to_nat n) buf ++ zreplicate (n - zlen buf) 0.

(** [allocate<T>(num_elements)]; [allocate<T>()] is the case of one element. *)
Definition builder_allocate (sizeof alignof num_elements : Z) (b : ObjectBuilder) : Z * ObjectBuilder :=
  let offset := s32 (compute_aligned_size (zlen (buffer_ b)) alignof) in
  (offset, MkBuilder (resize_buffer (u64 (offset + sizeof * num_elements)) (buffer_ b))).

(** [offset_inner_object] is the offset of the member in its class. *)
Definition update_object_pointer_member (object offset_inner_object offset : Z) (b : ObjectBuilder) : outcome ObjectBuilder :=
  let pointer_address := s32 (object + offset_inner_object) in
  buf ← wr_u32 (buffer_ b) pointer_address (offset - pointer_address);
  Ok (MkBuilder buf).

(** [update_object_normal_member] for a 64-bit member. *)
Definition update_object_normal_member (object pos val : Z) (b : ObjectBuilder) : outcome ObjectBuilder :=
  buf ← wr_u64 (buffer_ b) (object + pos) val; Ok (MkBuilder buf).

(** [Pointer<T>::address()] of the pointer at offset [p]. *)
Definition address (buf : list Z) (p : Z) : outcome Z := offset_ ← rd_s32 buf p; Ok (p + offset_).

(** * The array behind [pool_]

    [arr base len pre post]: a buffer in which the array of [len] words at
    [base] lies between the bytes [pre] and [post]; only the array is accessed. *)

Record arr (base len : Z) (pre post : list Z) := MkArr { arr_buf : list Z }.
Arguments MkArr {base len pre post} _.
Arguments arr_buf {base len pre post} _.

Definition arr_words (base len : Z) (buf : list Z) : list Z :=
  (fun i => default 0 (match rd_u64 buf (base + 8 * i) with Ok x => Some x | Fault _ => None end)) <$> seqZ 0 len.

Definition arr_wf (base len : Z) (pre post buf : list Z) : Prop :=
  zlen pre = base /\ exists ws, zlen ws = len /\ Forall is_u64 ws /\ buf = pre ++ enc_words ws ++ post.

Lemma arr_words_eq base len pre post ws :
  zlen pre = base -> zlen ws = len -> Forall is_u64 ws -> arr_words base len (pre ++ enc_words ws ++ post) = ws.
Proof.
  intros <- <- Hu. pose proof (zlen_nonneg ws). apply zvec_ext.
  - unfold arr_words. by rewrite zlen_fmap_seqZ.
  - unfold arr_words. intros i Hi. rewrite zlen_fmap_seqZ in Hi by done. rewrite zget_fmap_seqZ by done. cbn [Z.add].
    destruct (zget_in_range ws i Hi) as [x Hx]. rewrite list.Forall_forall in Hu.
    by rewrite (rd_word _ _ _ i x Hx (Hu x (zget_elem _ _ _ Hx))), Hx.
Qed.

#[export] Program Instance builder_store base len pre post : PoolStore (arr base len pre post) := {|
  pool_load p i := rd_u64 (arr_buf p) (base + 8 * i);
  pool_store p i x := buf ← wr_u64 (arr_buf p) (base + 8 * i) x; Ok (MkArr buf);
  pool_view p := arr_words base len (arr_buf p);
  pool_wf p := arr_wf base len pre post (arr_buf p)
|}.
Next Obligation.
  intros base len pre post [buf] i (<- & ws & Hl & Hu & E) Hi. cbn [arr_buf] in *. subst buf. rewrite (arr_words_eq _ len) in * by done.
  destruct (zget_in_range ws i Hi) as [x Hx]. rewrite (vget_some _ _ _ Hx).
  rewrite list.Forall_forall in Hu. apply rd_word; [done|]. apply Hu. by eapply zget_elem.
Qed.
Next Obligation.
  intros base len pre post [buf] i x (<- & ws & Hl & Hu & E) Hi Hx. cbn [arr_buf] in *. subst buf. rewrite (arr_words_eq _ len) in * by done.
  destruct (zget_in_range ws i Hi) as [y Hy]. exists (MkArr (pre ++ enc_words (zset ws i x) ++ post)). rewrite (wr_word pre ws post i y x) by done. split; [done|].
  cbn [arr_buf].
  assert (Forall is_u64 (zset ws i x)).
  { unfold zset. destruct (i <? 0); [done|]. by apply Forall_insert. }
  split; [apply arr_words_eq; [done|by rewrite zlen_zset|done]|].
  split; [done|]. exists (zset ws i x). by rewrite zlen_zset.
Qed.

(** * The allocator object

    [mutex_] at 0, [pool_addr_] at 8, [pool_size_] at 16, [num_order_] at 24,
    [min_block_size_] at 32, [pool_] at 40; 48 bytes, aligned to 8. *)

Definition sizeof_buddy : Z := 48.
Definition pool_member : Z := 40.

(** The members of the object at [o], with the array behind [pool_]. *)
Definition load_object (buf : list Z) (o : Z) : outcome (Z * Z * Z * Z * Z) :=
  pool_addr ← rd_u64 buf (o + 8); pool_size ← rd_u64 buf (o + 16);
  num_order ← rd_u32 buf (o + 24); min_block_size ← rd_u64 buf (o + 32);
  pool ← address buf (o + pool_member);
  Ok (pool_addr, pool_size, num_order, min_block_size, pool).

(** The constructor, by placement new. *)
Definition construct (buf : list Z) (o pool_addr pool_size num_order : Z) : outcome (list Z) :=
  buf ← wr buf o (enc 1 0); buf ← wr_u64 buf (o + 8) pool_addr; buf ← wr_u64 buf (o + 16) pool_size;
  buf ← wr_u32 buf (o + 24) num_order; wr_u64 buf (o + 32) 0.

(** Parts of the buffer before and after the array of [len] words at [base]. *)
Definition arr_pre (buf : list Z) (base : Z) : list Z := take (Z.to_nat base) buf.
Definition arr_post (buf : list Z) (base len : Z) : list Z := drop (Z.to_nat (base + 8 * len)) buf.
Definition as_arr (buf : list Z) (base len : Z) : arr base len (arr_pre buf base) (arr_post buf base len) := MkArr buf.

Definition builder_init_pool (buf : list Z) (o : Z) : outcome (list Z) :=
  '(_, pool_size, num_order, _, base) ← load_object buf o;
  '(pool, min_block_size) ← init_pool pool_size num_order (as_arr buf base (2 ^ num_order));
  wr_u64 (arr_buf pool) (o + 32) min_block_size.

Definition create (pool_addr pool_size num_order : Z) (builder : ObjectBuilder) : outcome (Z * ObjectBuilder) :=
  let '(offset, builder) := builder_allocate sizeof_buddy 8 1 builder in
  buf ← construct (buffer_ builder) offset pool_addr pool_size num_order;
  let '(pool_offset, builder) := builder_allocate 8 8 (u32 (s32 (Z.shiftl 1 num_order))) (MkBuilder buf) in
  builder ← update_object_pointer_member offset pool_member pool_offset builder;
  buf ← builder_init_pool (buffer_ builder) offset;
  Ok (offset, MkBuilder buf).

(** [BuddyMemoryAllocatorBaseObjectBuilder::allocate] on the object at [o]. *)
Definition builder_alloc (size o : Z) (b : ObjectBuilder) : outcome (Z * ObjectBuilder) :=
  '(pool_addr, pool_size, num_order, min_block_size, base) ← load_object (buffer_ b) o;
  '(a, obj) ← allocate size (MkBuddy pool_addr pool_size num_order min_block_size
                               (as_arr (buffer_ b) base (2 ^ num_order)));
  Ok (a, MkBuilder (arr_buf (pool_ obj))).

Definition builder_dealloc (addr size o : Z) (b : ObjectBuilder) : outcome ObjectBuilder :=
  '(pool_addr, pool_size, num_order, min_block_size, base) ← load_object (buffer_ b) o;
  obj ← deallocate addr size (MkBuddy pool_addr pool_size num_order min_block_size
                                (as_arr (buffer_ b) base (2 ^ num_order)));
  Ok (MkBuilder (arr_buf (pool_ obj))).

Example builder_run :
  ('(o, b) ← create 4096 1024 4 (MkBuilder [7; 7; 7]);
   '(p, b) ← builder_alloc 100 o b; '(q, b) ← builder_alloc 200 o b; '(r, b) ← builder_alloc 600 o b;
   b ← builder_dealloc p 100 o b; '(t, b) ← builder_alloc 512 o b;
   b ← builder_dealloc q 200 o b; b ← builder_dealloc t 512 o b; Ok (o, p, q, r, t, buffer_ b))
  = ('(o, b) ← create 4096 1024 4 (MkBuilder [7; 7; 7]); Ok (8, 4096, 4096 + 256, 0, 4096 + 512, buffer_ b)).
Proof. vm_compute. reflexivity. Qed.

(** * The object in the buffer *)

Definition live_arr (base len : Z) (pre post : list Z) (pa ps no mn : Z) (buf : list Z) (L : list (Z * Z)) : Prop :=
  live (P := arr base len pre post) (MkBuddy pa ps no mn (MkArr buf)) L.

(** The allocator object at [o] of the buffer, with its array at [base] behind
    it, serves the live blocks [L]. *)
Definition builder_live (b : ObjectBuilder) (o base pa ps no : Z) (L : list (Z * Z)) : Prop :=
  exists mn, load_object (buffer_ b) o = Ok (pa, ps, no, mn, base) /\ 0 <= o /\ o + sizeof_buddy <= base /\
    live_arr base (2 ^ no) (arr_pre (buffer_ b) base) (arr_post (buffer_ b) base (2 ^ no)) pa ps no mn (buffer_ b) L.

(** Everything outside the array is the same. *)
Definition same_outside (b b' : ObjectBuilder) (base len : Z) : Prop :=
  arr_pre (buffer_ b') base = arr_pre (buffer_ b) base /\ arr_post (buffer_ b') base len = arr_post (buffer_ b) base len.

Lemma load_object_app a c o : 0 <= o -> o + sizeof_buddy <= zlen a -> load_object (a ++ c) o = load_object a o.
Proof.
  unfold sizeof_buddy. intros Ho Ha. unfold load_object, address, rd_u64, rd_u32, rd_s32, pool_member.
  by rewrite !rd_app_l by lia.
Qed.

Lemma live_arr_wf base len pre post pa ps no mn buf L :
  live_arr base len pre post pa ps no mn buf L -> arr_wf base len pre post buf.
Proof. intros (_ & T & _ & _ & _ & _ & (_ & Hw & _)). exact Hw. Qed.

Lemma wf_parts base len pre post buf :
  arr_wf base len pre post buf -> arr_pre buf base = pre /\ arr_post buf base len = post.
Proof.
  intros (<- & ws & <- & Hu & ->). unfold arr_pre, arr_post. pose proof (zlen_enc_words ws) as Hl. unfold zlen in *. split.
  - rewrite Nat2Z.id. apply take_app_length.
  - rewrite app_assoc, drop_app_ge; rewrite length_app; [|lia]. replace (_ - _)%nat with 0%nat by lia. done.
Qed.

Lemma load_object_wf base len pre post buf buf' o :
  arr_wf base len pre post buf -> arr_wf base len pre post buf' -> 0 <= o -> o + sizeof_buddy <= base ->
  load_object buf' o = load_object buf o.
Proof.
  intros (Hp & ws & _ & _ & ->) (_ & ws' & _ & _ & ->) Ho Hb. by rewrite !load_object_app by lia.
Qed.

(** After an operation on the array the object is as before. *)
Lemma builder_live_after pa ps no mn b o base buf' L' :
  load_object (buffer_ b) o = Ok (pa, ps, no, mn, base) -> 0 <= o -> o + sizeof_buddy <= base ->
  arr_wf base (2 ^ no) (arr_pre (buffer_ b) base) (arr_post (buffer_ b) base (2 ^ no)) (buffer_ b) ->
  live_arr base (2 ^ no) (arr_pre (buffer_ b) base) (arr_post (buffer_ b) base (2 ^ no)) pa ps no mn buf' L' ->
  builder_live (MkBuilder buf') o base pa ps no L' /\ same_outside b (MkBuilder buf') base (2 ^ no).
Proof.
  intros E Ho Hb Hw Hl. pose proof (live_arr_wf _ _ _ _ _ _ _ _ _ _ Hl) as Hw'. destruct (wf_parts _ _ _ _ _ Hw') as [E1 E2].
  split; [|done]. exists mn. cbn [buffer_]. rewrite E1, E2. split; [|done].
  rewrite <- E. by eapply load_object_wf.
Qed.

Lemma live_record base len pre post pa ps no mn (b : buddy (arr base len pre post)) buf L L' :
  live_arr base len pre post pa ps no mn buf L -> live b L' ->
  pool_addr_ b = pa -> pool_size_ b = ps -> num_order_ b = no -> live_arr base len pre post pa ps no mn (arr_buf (pool_ b)) L'.
Proof.
  intros (_ & T & _ & _ & _ & _ & ((_ & _ & Hm & _) & _)) Hl <- <- <-. cbn in Hm.
  destruct (Hl) as (_ & T' & _ & _ & _ & _ & ((_ & _ & Hm' & _) & _)). unfold live_arr.
  replace mn with (min_block_size_ b) by (rewrite Hm', Hm; done). by destruct b as [? ? ? ? []].
Qed.

Lemma builder_alloc_ok b o base pa ps no L size :
  builder_live b o base pa ps no L -> 0 <= size <= 2 ^ 63 ->
  exists a b', builder_alloc size o b = Ok (a, b') /\ same_outside b b' base (2 ^ no) /\
    ((a = 0 /\ b' = b /\ no_room (MkBuddy pa ps no 0 tt) L size) \/
     (builder_live b' o base pa ps no ((a, size) :: L) /\ pa <= a /\ a + size <= pa + ps /\
        forall c sz, (c, sz) ∈ L -> a + size <= c \/ c + sz <= a)).
Proof.
  intros (mn & E & Ho & Hb & Hl) Hs. unfold builder_alloc, as_arr. rewrite E. cbn [mbind outcome_bind].
  destruct (allocate_live (P := arr base (2 ^ no) (arr_pre (buffer_ b) base) (arr_post (buffer_ b) base (2 ^ no))) _ L size Hl Hs) as (a & b' & -> & [(-> & -> & Hn)|(Hl' & Ea & Es & En & Hd)]); cbn [mbind outcome_bind].
  - exists 0, b. split; [by destruct b|]. split; [done|]. by left.
  - exists a, (MkBuilder (arr_buf (pool_ b'))). split; [done|]. cbn in Ea, Es, En.
    destruct (builder_live_after pa ps no mn b o base (arr_buf (pool_ b')) ((a, size) :: L)) as [H1 H2]; [done|done|done| | |].
    + by eapply live_arr_wf.
    + by eapply live_record.
    + split; [done|]. right. split; [done|]. destruct (live_in_pool b' _ a size Hl'); [by left|]. rewrite Ea, Es in *. auto.
Qed.

Lemma builder_dealloc_ok b o base pa ps no L a sz L' :
  builder_live b o base pa ps no L -> L ≡ₚ (a, sz) :: L' ->
  exists b', builder_dealloc a sz o b = Ok b' /\ same_outside b b' base (2 ^ no) /\ builder_live b' o base pa ps no L'.
Proof.
  intros (mn & E & Ho & Hb & Hl) HL. unfold builder_dealloc, as_arr. rewrite E. cbn [mbind outcome_bind].
  destruct (deallocate_live (P := arr base (2 ^ no) (arr_pre (buffer_ b) base) (arr_post (buffer_ b) base (2 ^ no))) _ L a sz L' Hl HL) as (b' & -> & Hl' & Ea & Es & En). cbn [mbind outcome_bind]. cbn in Ea, Es, En.
  exists (MkBuilder (arr_buf (pool_ b'))). split; [done|].
  destruct (builder_live_after pa ps no mn b o base (arr_buf (pool_ b')) L') as [H1 H2]; [done|done|done| | |done].
  - by eapply live_arr_wf.
  - by eapply live_record.
Qed.

(** * Creating the object *)

Lemma aligned8 n : 0 <= n < 2 ^ 63 -> compute_aligned_size n 8 = 8 * ((n + 7) / 8).
Proof.
  intros Hn. unfold compute_aligned_size. change (2 ^ 64 - 1 - (8 - 1)) with (2 ^ 64 - 8). change (8 - 1) with 7.
  rewrite u64_id by (unfold is_u64; lia). apply land_align8. unfold is_u64. lia.
Qed.

(** The buffer around the object: what precedes it, its members and padding,
    and what follows. *)
Definition fields (a : list Z) (pa ps no mn ptr : Z) (w : list Z) : list (list Z) :=
  [a; enc 1 0; zreplicate 7 0; enc 8 pa; enc 8 ps; enc 4 no; zreplicate 4 0; enc 8 mn; enc 4 ptr; zreplicate 4 0; w].

(** Position of a member. *)
Ltac field_pos := cbn [fields take concat insert list_insert]; rewrite ?app_nil_r, ?zlen_app, ?zlen_enc, ?zlen_replicate; cbn [Z.of_nat]; lia.
Ltac field_wr i off := erewrite (wr_concat _ i _ off); [|reflexivity|field_pos|field_pos]; cbn [mbind outcome_bind].
Ltac field_rd i off := erewrite (rd_concat _ i _ off); [|reflexivity|field_pos|field_pos]; cbn [mbind outcome_bind].

Lemma load_fields a pa ps no mn ptr w :
  is_u64 pa -> is_u64 ps -> is_u32 no -> is_u64 mn -> is_s32 ptr ->
  load_object (concat (fields a pa ps no mn ptr w)) (zlen a) = Ok (pa, ps, no, mn, zlen a + 40 + ptr).
Proof.
  intros H1 H2 H3 H4 H5. unfold load_object, address, rd_u64, rd_u32, rd_s32, pool_member.
  field_rd 3%nat (zlen a + 8). field_rd 4%nat (zlen a + 16). field_rd 5%nat (zlen a + 24). field_rd 7%nat (zlen a + 32).
  field_rd 8%nat (zlen a + 40).
  rewrite !dec_enc8, !dec_enc4, !u64_id, u32_id by done. do 2 f_equal. 
  rewrite <- (s32_id ptr) at 2 by done. f_equal. apply s32_congr. unfold u32. apply Z.mod_mod. lia.
Qed.

Lemma construct_fields a pa ps no w :
  construct (concat (fields a 0 0 0 0 0 w)) (zlen a) pa ps no = Ok (concat (fields a pa ps no 0 0 w)).
Proof.
  unfold construct, wr_u64, wr_u32. field_wr 1%nat (zlen a). field_wr 3%nat (zlen a + 8). field_wr 4%nat (zlen a + 16).
  field_wr 5%nat (zlen a + 24). field_wr 7%nat (zlen a + 32). done.
Qed.

(** What [live] says does not depend on the bytes around the array. *)
Lemma live_reframe base len pre post pre' post' pa ps no mn ws L :
  live_arr base len pre post pa ps no mn (pre ++ enc_words ws ++ post) L ->
  zlen pre = base -> zlen pre' = base -> zlen ws = len -> Forall is_u64 ws ->
  live_arr base len pre' post' pa ps no mn (pre' ++ enc_words ws ++ post') L.
Proof.
  intros (Hs & T & HL & HT & HB & HA & (Hg & _ & Ht)) H1 H2 H3 H4. split; [done|]. exists T.
  split; [done|]. split; [done|]. split; [done|]. split; [done|]. split; [done|]. split; [by split; [|exists ws]|].
  cbn in Ht |- *. by rewrite arr_words_eq in Ht |- * by done.
Qed.

Lemma zeros_words n : zreplicate (8 * n) 0 = enc_words (zreplicate n 0).
Proof.
  unfold zreplicate. replace (Z.to_nat (8 * n)) with (8 * Z.to_nat n)%nat by lia. induction (Z.to_nat n) as [|k IH]; [done|].
  rewrite Nat.mul_succ_r, Nat.add_comm, replicate_add, IH. done.
Qed.

Lemma resize_grow n buf : zlen buf <= n -> resize_buffer n buf = buf ++ zreplicate (n - zlen buf) 0.
Proof. intros Hn. unfold resize_buffer. rewrite take_ge; [done|]. unfold zlen in *. lia. Qed.

(** The first allocation: aligned, behind everything that is there. *)
Lemma allocate_object buf :
  zlen buf < 2 ^ 30 ->
  exists a, builder_allocate sizeof_buddy 8 1 (MkBuilder buf) = (zlen a, MkBuilder (concat (fields a 0 0 0 0 0 []))) /\
    zlen a mod 8 = 0 /\ zlen buf <= zlen a <= zlen buf + 7 /\ buf `prefix_of` a.
Proof.
  intros Hb. pose proof (zlen_nonneg buf). unfold builder_allocate, sizeof_buddy. cbn [buffer_]. rewrite aligned8 by lia.
  set (o := 8 * ((zlen buf + 7) / 8)). assert (Ho : zlen buf <= o <= zlen buf + 7)
    by (unfold o; pose proof (Z.div_mod (zlen buf + 7) 8); pose proof (Z.mod_pos_bound (zlen buf + 7) 8); lia).
  rewrite s32_id, u64_id by (unfold is_s32, is_u64; lia). exists (buf ++ zreplicate (o - zlen buf) 0).
  rewrite zlen_app, zlen_replicate. replace (zlen buf + 0 `max` (o - zlen buf)) with o by lia. split.
  - do 2 f_equal. rewrite resize_grow by lia. cbn [fields concat]. rewrite <- app_assoc, !app_nil_r. f_equal.
    replace (o + 48 * 1 - zlen buf) with ((o - zlen buf) + 48) by lia. unfold zreplicate. rewrite Z2Nat.inj_add by lia.
    rewrite replicate_add. done.
  - split; [unfold o; rewrite Z.mul_comm; apply Z_mod_mult|]. split; [lia|]. by eexists.
Qed.

Lemma allocate_array a pa ps no k :
  zlen a mod 8 = 0 -> 0 <= k -> zlen a + 48 + 8 * k < 2 ^ 31 ->
  builder_allocate 8 8 k (MkBuilder (concat (fields a pa ps no 0 0 []))) =
    (zlen a + 48, MkBuilder (concat (fields a pa ps no 0 0 (enc_words (zreplicate k 0))))).
Proof.
  intros Ha Hk Hl. pose proof (zlen_nonneg a). unfold builder_allocate. cbn [buffer_].
  assert (Hz : zlen (concat (fields a pa ps no 0 0 [])) = zlen a + 48) by field_pos.
  rewrite Hz, aligned8 by lia. replace (8 * ((zlen a + 48 + 7) / 8)) with (zlen a + 48).
  2: { pose proof (Z.div_mod (zlen a) 8). replace (zlen a + 48 + 7) with (7 + (zlen a / 8 + 6) * 8) by lia.
       rewrite Z.div_add by lia. change (7 / 8) with 0. lia. }
  rewrite s32_id, u64_id by (unfold is_s32, is_u64; lia). f_equal. f_equal. rewrite resize_grow, Hz by lia.
  replace (zlen a + 48 + 8 * k - (zlen a + 48)) with (8 * k) by lia. rewrite zeros_words. cbn [fields concat].
  by rewrite !app_nil_r, <- !app_assoc.
Qed.

Lemma fields_split a pa ps no mn ptr w :
  concat (fields a pa ps no mn ptr w) = concat (fields a pa ps no mn ptr []) ++ w ++ [].
Proof. cbn [fields concat]. by rewrite !app_nil_r, <- !app_assoc. Qed.

Lemma fields_len a pa ps no mn ptr : zlen (concat (fields a pa ps no mn ptr [])) = zlen a + 48.
Proof. field_pos. Qed.

(** [init_pool] fills the array and stores the smallest block size. *)
Lemma builder_init_ok a pa ps no :
  pool_shape ps no -> 0 < pa -> pa + ps <= 2 ^ 64 ->
  exists mn ws, is_u64 mn /\ zlen ws = 2 ^ no /\ Forall is_u64 ws /\
    builder_init_pool (concat (fields a pa ps no 0 8 (enc_words (zreplicate (2 ^ no) 0)))) (zlen a) =
      Ok (concat (fields a pa ps no mn 8 (enc_words ws))) /\
    live_arr (zlen a + 48) (2 ^ no) (concat (fields a pa ps no mn 8 [])) [] pa ps no mn
      (concat (fields a pa ps no mn 8 (enc_words ws))) [].
Proof.
  intros Hs Hpa Hpe. destruct (Hs) as (Ho & (m & Hm & Em) & Hu). pose proof (zlen_nonneg a).
  assert (0 < 2 ^ no <= 2 ^ 30) by (split; [lia|apply Z.pow_le_mono_r; lia]).
  assert (0 < ps) by (subst ps; assert (0 < 2 ^ (no - 1)) by lia; lia).
  unfold builder_init_pool. rewrite load_fields by (unfold is_u64, is_u32, is_s32; lia). cbn [mbind outcome_bind].
  replace (zlen a + 40 + 8) with (zlen a + 48) by lia.
  set (pre := concat (fields a pa ps no 0 8 [])). rewrite fields_split. fold pre.
  assert (Hw : arr_wf (zlen a + 48) (2 ^ no) pre [] (pre ++ enc_words (zreplicate (2 ^ no) 0) ++ [])).
  { split; [apply fields_len|]. exists (zreplicate (2 ^ no) 0). rewrite zlen_replicate. split; [lia|]. split; [|done].
    apply Forall_replicate. unfold is_u64. lia. }
  unfold as_arr. destruct (wf_parts _ _ _ _ _ Hw) as [-> ->].
  destruct (init_pool_live (P := arr (zlen a + 48) (2 ^ no) pre []) (MkArr (pre ++ enc_words (zreplicate (2 ^ no) 0) ++ [])) pa ps no)
    as ([[buf] mn] & -> & Hl); [done|done|done|done| |].
  { destruct Hw as (Hp & _). apply arr_words_eq; [done|rewrite zlen_replicate; lia|apply Forall_replicate; unfold is_u64; lia]. }
  cbn [mbind outcome_bind fst snd arr_buf] in *. destruct (live_arr_wf _ _ _ _ _ _ _ _ _ _ Hl) as (Hp & ws & Hlen & Hws & ->).
  assert (Hmn : is_u64 mn).
  { destruct Hl as (_ & T & _ & _ & _ & _ & ((_ & _ & Hmin & _) & _)). cbn in Hmin. rewrite Hmin.
    assert (0 <= bsz ps (Z.to_nat no) <= ps); [|unfold is_u64; lia].
    unfold bsz. split; [apply Z.div_pos; lia|apply Z.div_le_upper_bound; [lia|nia]]. }
  exists mn, ws. split; [done|]. split; [done|]. split; [done|]. split.
  - unfold pre. rewrite <- fields_split. unfold wr_u64. field_wr 7%nat (zlen a + 32). done.
  - rewrite (fields_split _ _ _ _ _ _ (enc_words ws)). apply (live_reframe _ _ pre []); [done|done|apply fields_len|done|done].
Qed.

(** [create] on a builder whose buffer is [buf]. *)
Lemma create_ok buf pa ps no :
  pool_shape ps no -> 0 < pa -> pa + ps <= 2 ^ 64 -> zlen buf + 64 + 8 * 2 ^ no < 2 ^ 31 -> zlen buf < 2 ^ 30 ->
  exists o b, create pa ps no (MkBuilder buf) = Ok (o, b) /\ o mod 8 = 0 /\ zlen buf <= o <= zlen buf + 7 /\ buf `prefix_of` buffer_ b /\
    zlen (buffer_ b) = o + sizeof_buddy + 8 * 2 ^ no /\ builder_live b o (o + sizeof_buddy) pa ps no [].
Proof.
  intros Hs Hpa Hpe Hl Hb. destruct (Hs) as (Ho & (m & Hm & Em) & Hu). unfold create.
  assert (0 < 2 ^ no <= 2 ^ 30) by (split; [lia|apply Z.pow_le_mono_r; lia]).
  destruct (allocate_object buf Hb) as (a & -> & Ha8 & Hal & Hpre). cbn [buffer_]. pose proof (zlen_nonneg buf).
  rewrite construct_fields. cbn [mbind outcome_bind]. rewrite Z.shiftl_1_l, s32_id, u32_id by (unfold is_s32, is_u32; lia).
  rewrite allocate_array by lia. unfold update_object_pointer_member, pool_member, wr_u32. cbn [buffer_].
  rewrite s32_id by (unfold is_s32; lia). replace (zlen a + 48 - (zlen a + 40)) with 8 by lia.
  field_wr 8%nat (zlen a + 40). change (<[8%nat := enc 4 8]> (fields a pa ps no 0 0 ?w)) with (fields a pa ps no 0 8 w). cbn [buffer_].
  destruct (builder_init_ok a pa ps no Hs Hpa Hpe) as (mn & ws & Hmn & Hlen & Hws & E & Hlive).
  rewrite E. cbn [mbind outcome_bind].
  exists (zlen a), (MkBuilder (concat (fields a pa ps no mn 8 (enc_words ws)))).
  split; [done|]. split; [done|]. split; [lia|]. split.
  { cbn [buffer_ fields concat]. destruct Hpre as [z ->]. rewrite <- app_assoc. by eexists. }
  split.
  { cbn [buffer_]. rewrite fields_split, !zlen_app, fields_len, zlen_enc_words, Hlen. unfold sizeof_buddy, zlen. cbn. lia. }
  exists mn. cbn [buffer_]. assert (0 < ps) by (subst ps; assert (0 < 2 ^ (no - 1)) by lia; lia).
  rewrite load_fields by (unfold is_u64, is_u32, is_s32 in *; lia).
  split; [do 2 f_equal; unfold sizeof_buddy; lia|]. split; [lia|]. split; [done|].
  unfold sizeof_buddy. destruct (wf_parts _ _ _ _ _ (live_arr_wf _ _ _ _ _ _ _ _ _ _ Hlive)) as [-> ->]. done.
Qed.

(** C23: The allocator kept in an ObjectBuilder buffer: create places it aligned behind
    the earlier objects, which are kept, and links its array through the relative
    pointer; allocate and deallocate on the bytes of the buffer serve the same
    live-block specification and change no byte outside the array. *)
Theorem builder_allocator_spec (buf : list Z) (pa ps no : Z) :
  pool_shape ps no -> 0 < pa -> pa + ps <= 2 ^ 64 -> zlen buf + 64 + 8 * 2 ^ no < 2 ^ 31 -> zlen buf < 2 ^ 30 ->
  (exists o b, create pa ps no (MkBuilder buf) = Ok (o, b) /\ o mod 8 = 0 /\ zlen buf <= o <= zlen buf + 7 /\ buf `prefix_of` buffer_ b /\
     zlen (buffer_ b) = o + sizeof_buddy + 8 * 2 ^ no /\ builder_live b o (o + sizeof_buddy) pa ps no []) /\
  (forall b o base L size, builder_live b o base pa ps no L -> 0 <= size <= 2 ^ 63 ->
     exists a b', builder_alloc size o b = Ok (a, b') /\ same_outside b b' base (2 ^ no) /\
       ((a = 0 /\ b' = b /\ no_room (MkBuddy pa ps no 0 tt) L size) \/
        (builder_live b' o base pa ps no ((a, size) :: L) /\ pa <= a /\ a + size <= pa + ps /\
           forall c sz, (c, sz) ∈ L -> a + size <= c \/ c + sz <= a))) /\
  (forall b o base L a sz L', builder_live b o base pa ps no L -> L ≡ₚ (a, sz) :: L' ->
     exists b', builder_dealloc a sz o b = Ok b' /\ same_outside b b' base (2 ^ no) /\ builder_live b' o base pa ps no L').
Proof.
  intros Hs Hpa Hpe Hl Hb. split; [by apply create_ok|]. split.
  - intros b o base L size. apply builder_alloc_ok.
  - intros b o base L a sz L'. apply builder_dealloc_ok.
Qed.

(** An allocator created behind three bytes, one block allocated and freed. *)
Lemma builder_allocator_spec_witness :
  exists o b a b1 b2, create 4096 1024 4 (MkBuilder [7; 7; 7]) = Ok (o, b) /\ builder_alloc 100 o b = Ok (a, b1) /\
    (a = 0 \/ builder_dealloc a 100 o b1 = Ok b2).
Proof.
  destruct (builder_allocator_spec [7; 7; 7] 4096 1024 4) as [(o & b & E & _ & _ & _ & _ & Hl) [Ha Hd]].
  - split; [lia|]. split; [exists 128; split; [lia|reflexivity]|lia].
  - lia.
  - lia.
  - reflexivity.
  - reflexivity.
  - destruct (Ha b o _ [] 100 Hl) as (a & b1 & E1 & _ & [(E0 & _)|(Hl1 & _)]); [lia| |].
    + exists o, b, a, b1, b. split; [exact E|]. split; [exact E1|]. left. exact E0.
    + destruct (Hd b1 o _ [(a, 100)] a 100 [] Hl1) as (b2 & E2 & _); [reflexivity|].
      exists o, b, a, b1, b2. split; [exact E|]. split; [exact E1|]. right. exact E2.
Defined.
