(* ===== verification/RbTree.v ===== *)
(** The red-black tree of cpp/datastructure/tree/red_black_tree.h.

    The tree is a heap of nodes with parent pointers and one sentinel
    [null_node_], a node of the heap that stands for every leaf and whose parent
    field [erase] uses.  Every [->] is a load from the heap; reading or writing a
    freed node is a fault.  The code for the two sides of a node is written twice
    in the source, with left and right exchanged; here it is written once with
    the side as an argument. *)

From stdpp Require Export gmap.
From S2P Require Import Prelude.

Inductive COLOR := RED | BLACK.

#[export] Instance COLOR_eq_dec : EqDecision COLOR.
Proof. solve_decision. Defined.

(** The side of a child. *)
Inductive side := SL | SR.

#[export] Instance side_eq_dec : EqDecision side.
Proof. solve_decision. Defined.

Definition opp (d : side) : side := match d with SL => SR | SR => SL end.

(** [nullptr], and the address of the sentinel, the first node allocated. *)
Definition nullptr : Z := 0.
Definition null_node_ : Z := 1.

Record Node (V : Type) := MkNode {
  key : Z;
  value : V;
  color : COLOR;
  left : Z;
  right : Z;
  parent : Z
}.
Arguments MkNode {V} _ _ _ _ _ _.
Arguments key {V} _.
Arguments value {V} _.
Arguments color {V} _.
Arguments left {V} _.
Arguments right {V} _.
Arguments parent {V} _.

Definition child {V} (d : side) (n : Node V) : Z := match d with SL => left n | SR => right n end.

Definition with_color {V} (c : COLOR) (n : Node V) : Node V := MkNode (key n) (value n) c (left n) (right n) (parent n).
Definition with_parent {V} (p : Z) (n : Node V) : Node V := MkNode (key n) (value n) (color n) (left n) (right n) p.
Definition with_child {V} (d : side) (p : Z) (n : Node V) : Node V :=
  match d with
  | SL => MkNode (key n) (value n) (color n) p (right n) (parent n)
  | SR => MkNode (key n) (value n) (color n) (left n) p (parent n)
  end.

(** [heap]: the nodes allocated and not deleted; [next]: the next address [new]
    returns. *)
Record RBTree (V : Type) := MkRB { heap : gmap Z (Node V); root_ : Z; next : Z }.
Arguments MkRB {V} _ _ _.
Arguments heap {V} _.
Arguments root_ {V} _.
Arguments next {V} _.

(** Computations on a tree. *)
Definition RB (V A : Type) : Type := RBTree V -> outcome (A * RBTree V).
#[export] Instance RB_ret V : MRet (RB V) := fun _ a t => Ok (a, t).
#[export] Instance RB_bind V : MBind (RB V) := fun _ _ k m t =>
  match m t with Ok (a, t') => k a t' | Fault e => Fault e end.

Fixpoint while_rb {V S R} (fuel : nat) (step : S -> RB V (S + R)) (s : S) : RB V R :=
  match fuel with
  | O => fun _ => Fault OutOfFuel
  | Datatypes.S f => r ← step s; match r with inl s' => while_rb f step s' | inr r => mret r end
  end.

Section Operations.
Context {V : Type} (no_value : V).
Implicit Types (a b p : Z).

Definition load a : RB V (Node V) := fun t =>
  match heap t !! a with Some n => Ok (n, t) | None => Fault NullDeref end.

Definition update a (f : Node V -> Node V) : RB V unit := fun t =>
  match heap t !! a with
  | Some n => Ok (tt, MkRB (<[a := f n]> (heap t)) (root_ t) (next t))
  | None => Fault NullDeref
  end.

Definition get_root : RB V Z := fun t => Ok (root_ t, t).
Definition set_root p : RB V unit := fun t => Ok (tt, MkRB (heap t) p (next t)).

Definition new_node (n : Node V) : RB V Z := fun t =>
  Ok (next t, MkRB (<[next t := n]> (heap t)) (root_ t) (next t + 1)).
Definition delete_node a : RB V unit := fun t => Ok (tt, MkRB (base.delete a (heap t)) (root_ t) (next t)).

(** A loop visits every node at most once per phase, so a small multiple of the
    number of nodes is enough fuel. *)
Definition fuel_of (t : RBTree V) : nat := 4 * size (heap t).
Definition while_tree {S R} (step : S -> RB V (S + R)) (s : S) : RB V R := fun t => while_rb (fuel_of t) step s t.

Definition get_key a : RB V Z := n ← load a; mret (key n).
Definition get_color a : RB V COLOR := n ← load a; mret (color n).
Definition get_child (d : side) a : RB V Z := n ← load a; mret (child d n).
Definition get_parent a : RB V Z := n ← load a; mret (parent n).
Definition set_color a (c : COLOR) : RB V unit := update a (with_color c).
Definition set_child (d : side) a p : RB V unit := update a (with_child d p).
Definition set_parent a p : RB V unit := update a (with_parent p).

(** * Rotations: [_rotate_left] is [rotate SL], [_rotate_right] is [rotate SR]. *)

(** [parent->left = new] or [parent->right = new], or the root, where [parent]
    is the parent of [old]. *)
Definition replace_child (old new : Z) : RB V unit :=
  p ← get_parent old;
  if p =? null_node_ then set_root new
  else
    l ← get_child SL p;
    if old =? l then set_child SL p new else set_child SR p new.

Definition rotate (d : side) (rotate_node : Z) : RB V unit :=
  replace_node ← get_child (opp d) rotate_node;
  (* step 1 *)
  inner ← get_child d replace_node;
  set_child (opp d) rotate_node inner;;
  inner ← get_child d replace_node;
  (if inner =? null_node_ then mret tt else set_parent inner rotate_node);;
  (* step 2 *)
  p ← get_parent rotate_node;
  set_parent replace_node p;;
  replace_child rotate_node replace_node;;
  (* step 3 *)
  set_child d replace_node rotate_node;;
  set_parent rotate_node replace_node.

Definition _rotate_left : Z -> RB V unit := rotate SL.
Definition _rotate_right : Z -> RB V unit := rotate SR.

(** * Search *)

Definition find_step (k : Z) (node : Z) : RB V (Z + Z) :=
  if node =? null_node_ then mret (inr nullptr)
  else
    nk ← get_key node;
    if nk =? k then mret (inr node)
    else if nk <? k then r ← get_child SR node; mret (inl r)
    else l ← get_child SL node; mret (inl l).

Definition find (k : Z) : RB V Z := r ← get_root; while_tree (find_step k) r.

Definition empty : RB V bool := r ← get_root; mret (null_node_ =? r).

(** * Insertion *)

(** One round of [_insert_fixup] with the parent a child on side [d] of the
    grandparent. *)
Definition insert_fixup_side (d : side) (iter_node : Z) : RB V Z :=
  p ← get_parent iter_node; g ← get_parent p;
  uncle_node ← get_child (opp d) g;
  uc ← get_color uncle_node;
  if decide (uc = RED) then
    p ← get_parent iter_node; set_color p BLACK;;
    set_color uncle_node BLACK;;
    p ← get_parent iter_node; g ← get_parent p; set_color g RED;;
    p ← get_parent iter_node; get_parent p
  else
    p ← get_parent iter_node;
    c ← get_child (opp d) p;
    if iter_node =? c then
      iter_node ← get_parent iter_node;
      rotate d iter_node;;
      mret iter_node
    else
      p ← get_parent iter_node; set_color p BLACK;;
      p ← get_parent iter_node; g ← get_parent p; set_color g RED;;
      p ← get_parent iter_node; g ← get_parent p; rotate (opp d) g;;
      mret iter_node.

Definition insert_fixup_step (iter_node : Z) : RB V (Z + unit) :=
  p ← get_parent iter_node;
  pc ← get_color p;
  if decide (pc = RED) then
    g ← get_parent p;
    l ← get_child SL g;
    iter_node ← insert_fixup_side (if p =? l then SL else SR) iter_node;
    mret (inl iter_node)
  else mret (inr tt).

Definition _insert_fixup (insert_node : Z) : RB V unit :=
  while_tree insert_fixup_step insert_node;;
  r ← get_root;
  set_color r BLACK.

(** The search for the parent of the new node, state [(iter_node,
    insert_parent_node)]; [inr None] when the key is there. *)
Definition insert_search_step (k : Z) (st : Z * Z) : RB V (Z * Z + option Z) :=
  let '(iter_node, insert_parent_node) := st in
  if iter_node =? null_node_ then mret (inr (Some insert_parent_node))
  else
    ik ← get_key iter_node;
    if k <? ik then l ← get_child SL iter_node; mret (inl (l, iter_node))
    else if ik <? k then r ← get_child SR iter_node; mret (inl (r, iter_node))
    else mret (inr None).

Definition link_new (k : Z) (v : V) (insert_parent_node : Z) : RB V unit :=
  insert_node ← new_node (MkNode k v RED null_node_ null_node_ insert_parent_node);
  (if insert_parent_node =? null_node_ then set_root insert_node
   else
     pk ← get_key insert_parent_node;
     if k <? pk then set_child SL insert_parent_node insert_node
     else set_child SR insert_parent_node insert_node);;
  _insert_fixup insert_node.

(** * Deletion *)

(** Cases 2 to 4 of [_erase_fixup], where [brother] is black. *)
Definition erase_fixup_black (d : side) (fixup_node brother : Z) : RB V Z :=
  bl ← get_child SL brother; blc ← get_color bl;
  brc ← (if decide (blc = BLACK) then br ← get_child SR brother; get_color br else mret RED);
  if decide (blc = BLACK /\ brc = BLACK) then
    set_color brother RED;;
    get_parent fixup_node
  else
    far ← get_child (opp d) brother; fc ← get_color far;
    if decide (fc = BLACK) then
      near ← get_child d brother; set_color near BLACK;;
      set_color brother RED;;
      rotate (opp d) brother;;
      mret fixup_node
    else
      p ← get_parent fixup_node; pc ← get_color p; set_color brother pc;;
      p ← get_parent fixup_node; set_color p BLACK;;
      far ← get_child (opp d) brother; set_color far BLACK;;
      p ← get_parent fixup_node; rotate d p;;
      get_root.

(** One round of [_erase_fixup] with [fixup_node] on side [d] of its parent. *)
Definition erase_fixup_side (d : side) (fixup_node : Z) : RB V Z :=
  p ← get_parent fixup_node;
  brother ← get_child (opp d) p;
  bc ← get_color brother;
  if decide (bc = RED) then
    set_color brother BLACK;;
    p ← get_parent fixup_node; set_color p RED;;
    p ← get_parent fixup_node; rotate d p;;
    p ← get_parent fixup_node; brother ← get_child (opp d) p;
    erase_fixup_black d fixup_node brother
  else erase_fixup_black d fixup_node brother.

Definition erase_fixup_step (fixup_node : Z) : RB V (Z + Z) :=
  r ← get_root;
  c ← (if fixup_node =? r then mret RED else get_color fixup_node);
  if decide (c = BLACK) then
    p ← get_parent fixup_node;
    l ← get_child SL p;
    n ← erase_fixup_side (if fixup_node =? l then SL else SR) fixup_node;
    mret (inl n)
  else mret (inr fixup_node).

Definition _erase_fixup (fixup_node : Z) : RB V unit :=
  n ← while_tree erase_fixup_step fixup_node;
  set_color n BLACK.

Definition _rb_transplant (origin_subtree new_subtree : Z) : RB V unit :=
  replace_child origin_subtree new_subtree;;
  p ← get_parent origin_subtree;
  set_parent new_subtree p.

Definition minimum_step (node : Z) : RB V (Z + Z) :=
  l ← get_child SL node;
  if l =? null_node_ then mret (inr node) else mret (inl l).

Definition _tree_minimum (index_node : Z) : RB V Z := while_tree minimum_step index_node.

(** Unlinking [erase_node]: the colour that was removed and the node that took
    its place. *)
Definition unlink (erase_node : Z) : RB V (COLOR * Z) :=
  origin_color ← get_color erase_node;
  l ← get_child SL erase_node;
  r ← get_child SR erase_node;
  if l =? null_node_ then
    start_fixup_node ← get_child SR erase_node;
    _rb_transplant erase_node start_fixup_node;;
    mret (origin_color, start_fixup_node)
  else if r =? null_node_ then
    start_fixup_node ← get_child SL erase_node;
    _rb_transplant erase_node start_fixup_node;;
    mret (origin_color, start_fixup_node)
  else
    r ← get_child SR erase_node;
    replace_node ← _tree_minimum r;
    origin_color ← get_color replace_node;
    start_fixup_node ← get_child SR replace_node;
    rp ← get_parent replace_node;
    (if rp =? erase_node then set_parent start_fixup_node replace_node
     else
       rr ← get_child SR replace_node;
       _rb_transplant replace_node rr;;
       er ← get_child SR erase_node;
       set_child SR replace_node er;;
       rr ← get_child SR replace_node;
       set_parent rr replace_node);;
    _rb_transplant erase_node replace_node;;
    el ← get_child SL erase_node;
    set_child SL replace_node el;;
    rl ← get_child SL replace_node;
    set_parent rl replace_node;;
    ec ← get_color erase_node;
    set_color replace_node ec;;
    mret (origin_color, start_fixup_node).

Definition erase (k : Z) : RB V bool :=
  erase_node ← find k;
  if erase_node =? nullptr then mret false
  else
    '(origin_color, start_fixup_node) ← unlink erase_node;
    (if decide (origin_color = BLACK) then _erase_fixup start_fixup_node else mret tt);;
    delete_node erase_node;;
    mret true.

(** [insert] erases an existing key and starts again; the second call finds no
    key. *)
Fixpoint insert_calls (calls : nat) (k : Z) (v : V) : RB V unit :=
  match calls with
  | O => fun _ => Fault OutOfFuel
  | S calls =>
      r ← get_root;
      found ← while_tree (insert_search_step k) (r, null_node_);
      match found with
      | Some insert_parent_node => link_new k v insert_parent_node
      | None => erase k;; insert_calls calls k v
      end
  end.

Definition insert (k : Z) (v : V) : RB V unit := insert_calls 2 k v.

(** The constructor. *)
Definition new_tree : RBTree V :=
  MkRB {[null_node_ := MkNode 0 no_value BLACK null_node_ null_node_ null_node_]} null_node_ (null_node_ + 1).

(** The destructor: the nodes in the order they are deleted; the sentinel is last. *)
Fixpoint destroy (fuel : nat) (node : Z) : RB V unit :=
  match fuel with
  | O => fun _ => Fault OutOfFuel
  | S fuel =>
      if node =? null_node_ then mret tt
      else
        l ← get_child SL node; destroy fuel l;;
        r ← get_child SR node; destroy fuel r;;
        delete_node node
  end.

Definition destroy_tree : RB V unit :=
  r ← get_root; (fun t => destroy (S (size (heap t))) r t);; delete_node null_node_.

End Operations.

Definition run {V A} (m : RB V A) (t : RBTree V) : outcome A := '(a, _) ← m t; Ok a.

Example rb_run :
  run (insert 5 50;; insert 3 30;; insert 8 80;; insert 1 10;; insert 4 40;; insert 7 70;; insert 9 90;; insert 3 33;;
       b1 ← erase 8; b2 ← erase 8; b3 ← erase 1; p ← find 3; n ← load p; q ← find 8; destroy_tree;;
       mret (b1, b2, b3, value n, q)) (new_tree 0) = Ok (true, false, true, 33, nullptr).
Proof. vm_compute. reflexivity. Qed.
