(* ===== verification/RbShape.v ===== *)
(** Trees in the heap of RbTree.v, with a focus.

    A tree is an inductive tree whose nodes carry their addresses; a context is
    the path from a subtree up to the root.  [rep st c t]: the heap of [st] holds
    the tree [t] in the context [c] and nothing else, with every parent pointer
    right.  The lemmas below are the effect of each access of the code on [rep];
    the shape of the tree is then followed by moving the focus. *)

From S2P Require Import Prelude RbTree.

#[local] Open Scope Z_scope.

Section Shape.
Context {V : Type}.

(** Nodes that were unlinked and not yet deleted. *)
Context {ext : list Z}.

Inductive tree := E | T (a : Z) (c : COLOR) (l : tree) (k : Z) (v : V) (r : tree).

(** A node seen from side [d]: [x] is the child on that side. *)
Definition Nd (d : side) a c (x : tree) k v (y : tree) : tree :=
  match d with SL => T a c x k v y | SR => T a c y k v x end.

Definition ptr (t : tree) : Z := match t with E => null_node_ | T a _ _ _ _ _ => a end.
Definition col (t : tree) : COLOR := match t with E => BLACK | T _ c _ _ _ _ => c end.

Fixpoint addrs (t : tree) : list Z :=
  match t with E => [] | T a _ l _ _ r => a :: addrs l ++ addrs r end.

(** The hole is the child on side [fd]. *)
Record frame := MkFrame { fd : side; fa : Z; fc : COLOR; fk : Z; fv : V; fsib : tree }.
Definition ctx := list frame.

Definition plug1 (f : frame) (t : tree) : tree := Nd (fd f) (fa f) (fc f) t (fk f) (fv f) (fsib f).
Definition plug (c : ctx) (t : tree) : tree := foldl (fun t f => plug1 f t) t c.

(** The parent of the hole. *)
Definition cptr (c : ctx) : Z := match c with [] => null_node_ | f :: _ => fa f end.
Definition pcol (c : ctx) : COLOR := match c with [] => BLACK | f :: _ => fc f end.

Definition caddrs (c : ctx) : list Z := c ≫= (fun f => fa f :: addrs (fsib f)).

(** ** The heap *)

Definition mk (d : side) k v c x y p : Node V :=
  match d with SL => MkNode k v c x y p | SR => MkNode k v c y x p end.

Fixpoint rept (h : gmap Z (Node V)) (p : Z) (t : tree) : Prop :=
  match t with
  | E => True
  | T a c l k v r => h !! a = Some (MkNode k v c (ptr l) (ptr r) p) /\ rept h a l /\ rept h a r
  end.

Fixpoint repc (h : gmap Z (Node V)) (root x : Z) (c : ctx) : Prop :=
  match c with
  | [] => root = x
  | f :: c =>
      h !! fa f = Some (mk (fd f) (fk f) (fv f) (fc f) x (ptr (fsib f)) (cptr c)) /\
      rept h (fa f) (fsib f) /\ repc h root (fa f) c
  end.

Definition node_addrs (c : ctx) (t : tree) : list Z := addrs t ++ caddrs c.

Record rep (st : RBTree V) (c : ctx) (t : tree) : Prop := {
  rep_t : rept (heap st) (cptr c) t;
  rep_c : repc (heap st) (root_ st) (ptr t) c;
  rep_nodup : NoDup (node_addrs c t);
  rep_null : exists n, heap st !! null_node_ = Some n /\ color n = BLACK;
  rep_dom : forall a, is_Some (heap st !! a) <-> a = null_node_ \/ a ∈ ext \/ a ∈ node_addrs c t;
  rep_fresh : forall a, a ∈ node_addrs c t -> null_node_ < a < next st;
  rep_ext : NoDup ext /\ forall a, a ∈ ext -> null_node_ < a < next st /\ ~ (a ∈ node_addrs c t);
  rep_next : null_node_ < next st
}.

Implicit Types (t x y z : tree) (f : frame) (st : RBTree V).

Lemma rept_Nd h p d a c x k v y :
  rept h p (Nd d a c x k v y) <-> h !! a = Some (mk d k v c (ptr x) (ptr y) p) /\ rept h a x /\ rept h a y.
Proof. destruct d; cbn; tauto. Qed.

Lemma ptr_Nd d a c x k v y : ptr (Nd d a c x k v y) = a.
Proof. by destruct d. Qed.

Lemma addrs_Nd d a c x k v y : addrs (Nd d a c x k v y) ≡ₚ a :: addrs x ++ addrs y.
Proof. destruct d; cbn; [done|]. by rewrite (Permutation_app_comm (addrs x)). Qed.

Lemma col_Nd d a c x k v y : col (Nd d a c x k v y) = c.
Proof. by destruct d. Qed.

Lemma T_Nd a c l k v r : T a c l k v r = Nd SL a c l k v r.
Proof. done. Qed.

(** Every nonempty tree is a node seen from either side. *)
Lemma tree_Nd d t : t = E \/ exists a x k v y, t = Nd d a (col t) x k v y.
Proof. destruct t as [|a c l k v r]; [by left|]. right. destruct d; [by exists a, l, k, v, r|by exists a, r, k, v, l]. Qed.

Lemma opp_Nd d a c x k v y : Nd (opp d) a c x k v y = Nd d a c y k v x.
Proof. by destruct d. Qed.

Lemma node_addrs_up f c t : node_addrs c (plug1 f t) ≡ₚ node_addrs (f :: c) t.
Proof.
  unfold node_addrs, plug1, caddrs. cbn [mbind list_bind]. rewrite addrs_Nd. cbn [app].
  rewrite <- !app_assoc. by rewrite Permutation_middle.
Qed.

(** Moving the focus. *)
Lemma rep_move st f c t : rep st (f :: c) t <-> rep st c (plug1 f t).
Proof.
  split; intros [Ht Hc Hnd Hnull Hdom Hfr [Hex He] Hnx].
  - destruct Hc as (Hf & Hs & Hc). split; rewrite ?node_addrs_up; try done.
    + unfold plug1. rewrite rept_Nd. done.
    + unfold plug1. by rewrite ptr_Nd.
    + intros a. rewrite node_addrs_up. apply Hdom.
    + intros a. rewrite node_addrs_up. apply Hfr.
    + split; [done|]. intros a. rewrite node_addrs_up. apply He.
  - unfold plug1 in Ht, Hc. rewrite rept_Nd in Ht. rewrite ptr_Nd in Hc. destruct Ht as (Hf & Ht & Hs).
    split; rewrite <- ?node_addrs_up; try done.
    + intros a. rewrite <- node_addrs_up. apply Hdom.
    + intros a. rewrite <- node_addrs_up. apply Hfr.
    + split; [done|]. intros a. rewrite <- node_addrs_up. apply He.
Qed.

Lemma rep_up st f c t : rep st (f :: c) t -> rep st c (plug1 f t).
Proof. apply rep_move. Qed.

Lemma rep_down st f c t : rep st c (plug1 f t) -> rep st (f :: c) t.
Proof. apply rep_move. Qed.

Lemma rep_plug st c t : rep st c t <-> rep st [] (plug c t).
Proof. revert t. induction c as [|f c IH]; intros t; [done|]. rewrite rep_move. apply IH. Qed.

Lemma rep_whole st c t : rep st c t -> rep st [] (plug c t).
Proof. apply rep_plug. Qed.

(** ** Frames *)

Lemma rept_insert h p t a n : a ∉ addrs t -> rept h p t -> rept (<[a := n]> h) p t.
Proof.
  revert p. induction t as [|b c l IHl k v r IHr]; intros p Ha; [done|]. cbn in *.
  rewrite elem_of_cons, elem_of_app in Ha. intros (Hb & Hl & Hr). rewrite lookup_insert_ne by tauto.
  split; [done|]. split; [apply IHl|apply IHr]; tauto.
Qed.

Lemma repc_insert h root (x : Z) c a n : a ∉ caddrs c -> repc h root x c -> repc (<[a := n]> h) root x c.
Proof.
  revert x. induction c as [|f c IH]; intros x Ha; [done|]. unfold caddrs in *. cbn [mbind list_bind] in Ha. cbn [repc].
  rewrite elem_of_app, elem_of_cons in Ha. intros (Hf & Hs & Hc). rewrite lookup_insert_ne by tauto.
  split; [done|]. split; [apply rept_insert; tauto|apply IH; tauto].
Qed.

(** ** Reasoning about computations *)

Definition wps {A} (m : RB V A) (st : RBTree V) (Q : A -> RBTree V -> Prop) : Prop :=
  exists a st', m st = Ok (a, st') /\ Q a st'.

Lemma wps_ret {A} (a : A) st (Q : A -> RBTree V -> Prop) : Q a st -> wps (mret a) st Q.
Proof. intros H. by exists a, st. Qed.

Lemma wps_bind {A B} (m : RB V A) (k : A -> RB V B) st (Q : B -> RBTree V -> Prop) :
  wps m st (fun a st' => wps (k a) st' Q) -> wps (m ≫= k) st Q.
Proof. intros (a & st' & E1 & b & st'' & E2 & H). exists b, st''. unfold mbind, RB_bind. by rewrite E1. Qed.

Lemma wps_mono {A} (m : RB V A) st (P Q : A -> RBTree V -> Prop) :
  wps m st P -> (forall a st', P a st' -> Q a st') -> wps m st Q.
Proof. intros (a & st' & E1 & H) HPQ. exists a, st'. auto. Qed.

Lemma wps_load a st n (Q : Node V -> RBTree V -> Prop) : heap st !! a = Some n -> Q n st -> wps (load a) st Q.
Proof. intros Ha HQ. exists n, st. unfold load. by rewrite Ha. Qed.

Lemma wps_get_key a st n (Q : Z -> RBTree V -> Prop) : heap st !! a = Some n -> Q (key n) st -> wps (get_key a) st Q.
Proof. intros Ha HQ. apply wps_bind. eapply wps_load; [done|]. by apply wps_ret. Qed.

Lemma wps_get_color a st n (Q : COLOR -> RBTree V -> Prop) : heap st !! a = Some n -> Q (color n) st -> wps (get_color a) st Q.
Proof. intros Ha HQ. apply wps_bind. eapply wps_load; [done|]. by apply wps_ret. Qed.

Lemma wps_get_child d a st n (Q : Z -> RBTree V -> Prop) : heap st !! a = Some n -> Q (child d n) st -> wps (get_child d a) st Q.
Proof. intros Ha HQ. apply wps_bind. eapply wps_load; [done|]. by apply wps_ret. Qed.

Lemma wps_get_parent a st n (Q : Z -> RBTree V -> Prop) : heap st !! a = Some n -> Q (parent n) st -> wps (get_parent a) st Q.
Proof. intros Ha HQ. apply wps_bind. eapply wps_load; [done|]. by apply wps_ret. Qed.

Definition set_heap (st : RBTree V) (h : gmap Z (Node V)) : RBTree V := MkRB h (root_ st) (next st).

Lemma wps_update a g st n (Q : unit -> RBTree V -> Prop) :
  heap st !! a = Some n -> Q tt (set_heap st (<[a := g n]> (heap st))) -> wps (update a g) st Q.
Proof. intros Ha HQ. exists tt, (set_heap st (<[a := g n]> (heap st))). unfold update. by rewrite Ha. Qed.

Lemma wps_root st (Q : Z -> RBTree V -> Prop) : Q (root_ st) st -> wps get_root st Q.
Proof. intros HQ. by exists (root_ st), st. Qed.

(** The loop rule: [g] is a ghost state, here the shape of the tree. *)
Lemma wps_while {S R G} (I : G -> S -> RBTree V -> Prop) (m : G -> nat) (Q : R -> RBTree V -> Prop)
    (step : S -> RB V (S + R)) g s st :
  I g s st -> (m g < fuel_of st)%nat ->
  (forall g s st, I g s st -> wps (step s) st (fun r st' =>
     match r with inl s' => exists g', I g' s' st' /\ (m g' < m g)%nat | inr r => Q r st' end)) ->
  wps (while_tree step s) st Q.
Proof.
  intros H0 Hm Hstep. unfold while_tree. change (wps (while_rb (fuel_of st) step s) st Q).
  enough (H : forall fuel g s st, I g s st -> (m g < fuel)%nat -> wps (while_rb fuel step s) st Q) by by apply (H _ g).
  clear g s st H0 Hm. induction fuel as [|fuel IH]; intros g s st H0 Hm; [lia|]. cbn [while_rb]. apply wps_bind.
  eapply wps_mono; [apply (Hstep g s st H0)|]. intros [s'|r] st' Hr; [|by apply wps_ret].
  destruct Hr as (g' & Hi & Hlt). apply (IH g'); [done|lia].
Qed.

(** ** Lookups *)

Lemma child_mk d k v (co : COLOR) p q r : child d (mk d k v co p q r) = p.
Proof. by destruct d. Qed.
Lemma child_opp_mk d k v (co : COLOR) p q r : child (opp d) (mk d k v co p q r) = q.
Proof. by destruct d. Qed.
Lemma parent_mk d k v (co : COLOR) p q r : parent (mk d k v co p q r) = r.
Proof. by destruct d. Qed.
Lemma color_mk d k v (co : COLOR) p q r : color (mk d k v co p q r) = co.
Proof. by destruct d. Qed.
Lemma key_mk d k v (co : COLOR) p q r : key (mk d k v co p q r) = k.
Proof. by destruct d. Qed.
Lemma with_color_mk d k v (co co' : COLOR) p q r : with_color co' (mk d k v co p q r) = mk d k v co' p q r.
Proof. by destruct d. Qed.
Lemma with_parent_mk d k v (co : COLOR) p q r r' : with_parent r' (mk d k v co p q r) = mk d k v co p q r'.
Proof. by destruct d. Qed.
Lemma with_child_mk d k v (co : COLOR) p q r p' : with_child d p' (mk d k v co p q r) = mk d k v co p' q r.
Proof. by destruct d. Qed.
Lemma with_child_opp_mk d k v (co : COLOR) p q r q' : with_child (opp d) q' (mk d k v co p q r) = mk d k v co p q' r.
Proof. by destruct d. Qed.
Lemma mk_opp d k v (co : COLOR) p q r : mk (opp d) k v co p q r = mk d k v co q p r.
Proof. by destruct d. Qed.

Lemma rep_focus st c d a co x k v y :
  rep st c (Nd d a co x k v y) -> heap st !! a = Some (mk d k v co (ptr x) (ptr y) (cptr c)).
Proof. intros [Ht _ _ _ _ _ _ _]. by apply rept_Nd in Ht as [? _]. Qed.

Lemma rep_parent st f c t :
  rep st (f :: c) t -> heap st !! fa f = Some (mk (fd f) (fk f) (fv f) (fc f) (ptr t) (ptr (fsib f)) (cptr c)).
Proof. intros [_ Hc _ _ _ _ _ _]. by destruct Hc as [? _]. Qed.

(** The colour of a subtree is stored at its address, also for a leaf. *)
Lemma rep_color st c t : rep st c t -> exists n, heap st !! ptr t = Some n /\ color n = col t.
Proof.
  intros H. destruct t as [|a co l k v r]; [by apply (rep_null _ _ _ H)|].
  pose proof (rep_focus st c SL a co l k v r H) as Ha. eauto.
Qed.

Lemma rep_sib st f c t : rep st (f :: c) t -> rep st (MkFrame (opp (fd f)) (fa f) (fc f) (fk f) (fv f) t :: c) (fsib f).
Proof. rewrite !rep_move. unfold plug1. cbn [fd fa fc fk fv fsib]. by rewrite opp_Nd. Qed.

Lemma wps_color st c t (Q : COLOR -> RBTree V -> Prop) : rep st c t -> Q (col t) st -> wps (get_color (ptr t)) st Q.
Proof. intros H HQ. destruct (rep_color st c t H) as (n & Hn & Hco). rewrite <- Hco in HQ. by eapply wps_get_color. Qed.

Lemma rep_distinct st c t a : rep st c t -> a ∈ node_addrs c t -> a <> null_node_ /\ a <> nullptr.
Proof. intros H Ha. pose proof (rep_fresh _ _ _ H a Ha). unfold null_node_, nullptr in *. lia. Qed.

(** A change of the heap that keeps the set of addresses. *)
Lemma rep_rebuild st st' c t c' t' :
  rep st c t -> node_addrs c' t' ≡ₚ node_addrs c t -> next st' = next st ->
  (forall a, is_Some (heap st' !! a) <-> is_Some (heap st !! a)) ->
  (exists n, heap st' !! null_node_ = Some n /\ color n = BLACK) ->
  rept (heap st') (cptr c') t' -> repc (heap st') (root_ st') (ptr t') c' -> rep st' c' t'.
Proof.
  intros [_ _ Hnd Hnull Hdom Hfr [Hex He] Hnx] HP Hn Hd Hnl Ht Hc. split; try done; rewrite ?Hn; try done.
  - by rewrite HP.
  - intros a. rewrite Hd, HP. apply Hdom.
  - intros a. rewrite HP. apply Hfr.
  - split; [done|]. intros a. rewrite HP. apply He.
Qed.

(** Recolouring the focus. *)
Lemma wps_recolor st c d a co co' x k v y (Q : unit -> RBTree V -> Prop) :
  rep st c (Nd d a co x k v y) ->
  (forall st', rep st' c (Nd d a co' x k v y) -> heap st' !! null_node_ = heap st !! null_node_ -> root_ st' = root_ st ->
     size (heap st') = size (heap st) -> Q tt st') ->
  wps (set_color a co') st Q.
Proof.
  intros H HQ. pose proof (rep_focus _ _ _ _ _ _ _ _ _ H) as Ha. eapply wps_update; [done|]. rewrite with_color_mk.
  assert (Hin : a ∈ node_addrs c (Nd d a co x k v y)) by (unfold node_addrs; rewrite addrs_Nd; by left).
  destruct (rep_distinct _ _ _ _ H Hin) as [Hnn _].
  pose proof (rep_nodup _ _ _ H) as Hnd. unfold node_addrs in Hnd. rewrite addrs_Nd in Hnd. cbn [app] in Hnd.
  apply list.NoDup_cons in Hnd as [Hna _]. rewrite !elem_of_app in Hna.
  apply HQ; cbn [set_heap heap root_]; [|by rewrite lookup_insert_ne|done|].
  - eapply (rep_rebuild st); [done|unfold node_addrs; by rewrite !addrs_Nd|done| | | |]; cbn [set_heap heap root_].
    + intros b. destruct (decide (a = b)) as [<-|]; [rewrite lookup_insert_eq, Ha; by split; eauto|by rewrite lookup_insert_ne].
    + rewrite lookup_insert_ne by done. apply H.
    + pose proof (rep_t _ _ _ H) as Ht. apply rept_Nd in Ht as (_ & Hx & Hy). apply rept_Nd.
      rewrite lookup_insert_eq. split; [done|]. split; apply rept_insert; tauto.
    + rewrite ptr_Nd. pose proof (rep_c _ _ _ H) as Hc. rewrite ptr_Nd in Hc. apply repc_insert; tauto.
  - apply map_size_insert_Some. eauto.
Qed.

(** ** Relinking *)

(** The heaps have nodes at the same addresses. *)
Definition same_dom (h h' : gmap Z (Node V)) : Prop := dom h' = dom h.

Lemma same_dom_insert (h h' : gmap Z (Node V)) a n : same_dom h h' -> is_Some (h' !! a) -> same_dom h (<[a := n]> h').
Proof.
  unfold same_dom. intros <- Ha%elem_of_dom. rewrite dom_insert_L. by apply subseteq_union_1_L, singleton_subseteq_l.
Qed.

Lemma same_dom_look (h h' : gmap Z (Node V)) a : same_dom h h' -> is_Some (h' !! a) <-> is_Some (h !! a).
Proof. unfold same_dom. intros E. by rewrite <- !elem_of_dom, E. Qed.

Lemma same_dom_size (h h' : gmap Z (Node V)) : same_dom h h' -> size h' = size h.
Proof. unfold same_dom. intros E. by rewrite <- !size_dom, E. Qed.

Lemma caddrs_cons f c : caddrs (f :: c) = fa f :: addrs (fsib f) ++ caddrs c.
Proof. done. Qed.

Lemma ptr_in_addrs t : ptr t = null_node_ \/ ptr t ∈ addrs t.
Proof. destruct t; [by left|]. right. by left. Qed.

(** Filling the hole of a context with another address. *)
Lemma repc_hole h root (x x' : Z) f c :
  repc h root x (f :: c) -> NoDup (caddrs (f :: c)) ->
  repc (<[fa f := mk (fd f) (fk f) (fv f) (fc f) x' (ptr (fsib f)) (cptr c)]> h) root x' (f :: c).
Proof.
  rewrite caddrs_cons. intros (Hf & Hs & Hc) [Hfa _]%list.NoDup_cons. cbn [repc]. rewrite lookup_insert_eq. rewrite elem_of_app in Hfa.
  split; [done|]. split; [apply rept_insert; tauto|apply repc_insert; tauto].
Qed.

(** [replace_child old new] makes [new] the child of the parent of [old]. *)
Lemma wps_replace_child st (old new : Z) n c (Q : unit -> RBTree V -> Prop) :
  heap st !! old = Some n -> parent n = cptr c -> repc (heap st) (root_ st) old c ->
  NoDup (caddrs c) -> old ∉ caddrs c -> old <> null_node_ -> null_node_ ∉ caddrs c ->
  (forall st', repc (heap st') (root_ st') new c -> next st' = next st -> same_dom (heap st) (heap st') ->
     (forall a, a ∉ caddrs c -> heap st' !! a = heap st !! a) -> (c = [] \/ root_ st' = root_ st) -> Q tt st') ->
  wps (replace_child old new) st Q.
Proof.
  intros Hold Hp Hc Hnd Hnot Hnn Hnull HQ. unfold replace_child. apply wps_bind. eapply wps_get_parent; [done|]. rewrite Hp.
  destruct c as [|f c]; cbn [cptr].
  { rewrite Z.eqb_refl. exists tt, (MkRB (heap st) new (next st)). split; [done|]. by apply HQ; [|..|left]. }
  destruct (Hc) as (Hf & _). rewrite caddrs_cons in Hnot, Hnull.
  destruct (Z.eqb_spec (fa f) null_node_) as [E1|_]; [rewrite E1 in Hnull; destruct Hnull; by left|].
  apply wps_bind. eapply wps_get_child; [done|].
  assert (Hw : forall Q', Q' tt (set_heap st (<[fa f := mk (fd f) (fk f) (fv f) (fc f) new (ptr (fsib f)) (cptr c)]> (heap st))) ->
     wps (if old =? child SL (mk (fd f) (fk f) (fv f) (fc f) old (ptr (fsib f)) (cptr c))
          then set_child SL (fa f) new else set_child SR (fa f) new) st Q').
  { intros Q' HQ'. destruct (fd f) eqn:Ed; cbn [mk child left].
    - rewrite Z.eqb_refl. by eapply wps_update.
    - destruct (Z.eqb_spec old (ptr (fsib f))) as [E2|_]; [|by eapply wps_update].
      destruct (ptr_in_addrs (fsib f)) as [E3|E3]; [congruence|]. destruct Hnot. right. apply elem_of_app. left. by rewrite E2. }
  apply Hw. apply HQ; cbn [set_heap heap root_ next]; [|done| | |by right].
  - by eapply repc_hole.
  - apply same_dom_insert; [done|eauto].
  - intros a Ha. apply lookup_insert_ne. intros Ea. apply Ha. rewrite caddrs_cons, Ea. by left.
Qed.

(** The parent of a subtree's root. *)
Lemma rept_set_parent h p p' t n :
  rept h p t -> NoDup (addrs t) -> h !! ptr t = Some n -> t <> E -> rept (<[ptr t := with_parent p' n]> h) p' t.
Proof.
  destruct t as [|a co l k v r]; [done|]. cbn [rept addrs ptr]. intros (Ha & Hl & Hr) [Hna _]%list.NoDup_cons Hn _.
  rewrite elem_of_app in Hna. rewrite Ha in Hn. injection Hn as <-. rewrite lookup_insert_eq. cbn [with_parent key value color left right].
  split; [done|]. split; apply rept_insert; tauto.
Qed.

(** Distinctness of the addresses of a node with a child on side [opp d]. *)
Lemma rotate_distinct st c d a ca x ka va b cb y kb vb z :
  rep st c (Nd d a ca x ka va (Nd d b cb y kb vb z)) ->
  a <> b /\ a <> null_node_ /\ b <> null_node_ /\
  (~ (a ∈ addrs x) /\ ~ (a ∈ addrs y) /\ ~ (a ∈ addrs z) /\ ~ (a ∈ caddrs c)) /\ (~ (b ∈ addrs x) /\ ~ (b ∈ addrs y) /\ ~ (b ∈ addrs z) /\ ~ (b ∈ caddrs c)) /\
  (forall e, e ∈ addrs y -> ~ (e ∈ addrs x) /\ ~ (e ∈ addrs z) /\ ~ (e ∈ caddrs c) /\ e <> null_node_) /\
  (forall e, e ∈ addrs x \/ e ∈ addrs z -> ~ (e ∈ addrs y) /\ ~ (e ∈ caddrs c)) /\
  NoDup (addrs y) /\ NoDup (caddrs c) /\ ~ (null_node_ ∈ caddrs c).
Proof.
  intros H. pose proof (rep_nodup _ _ _ H) as Hnd.
  assert (HP : node_addrs c (Nd d a ca x ka va (Nd d b cb y kb vb z)) ≡ₚ a :: b :: addrs y ++ addrs x ++ addrs z ++ caddrs c).
  { unfold node_addrs. rewrite !addrs_Nd. cbn [app]. apply perm_skip. rewrite <- Permutation_middle. cbn [app].
    apply perm_skip. rewrite (Permutation_app_comm (addrs x)). rewrite <- !app_assoc. apply Permutation_app_head.
    rewrite (app_assoc _ (addrs x)), (Permutation_app_comm (addrs z)). by rewrite <- app_assoc. }
  assert (Hfr : forall e, e ∈ a :: b :: addrs y ++ addrs x ++ addrs z ++ caddrs c -> e <> null_node_).
  { intros e. rewrite <- HP. intros He. by apply (rep_distinct _ _ _ _ H He). }
  rewrite HP in Hnd. apply list.NoDup_cons in Hnd as [Ha Hnd]. apply list.NoDup_cons in Hnd as [Hb Hnd].
  rewrite elem_of_cons, !elem_of_app in Ha. rewrite !elem_of_app in Hb.
  apply list.NoDup_app in Hnd as (Hy & Hyo & Hnd). setoid_rewrite elem_of_app in Hyo. setoid_rewrite elem_of_app in Hyo.
  apply list.NoDup_app in Hnd as (_ & Hxo & Hnd). setoid_rewrite elem_of_app in Hxo.
  apply list.NoDup_app in Hnd as (_ & Hzo & Hnd).
  split; [tauto|]. split; [apply Hfr; by left|]. split; [apply Hfr; right; by left|]. split; [tauto|]. split; [tauto|].
  split; [|split; [|split; [done|split; [done|]]]].
  - intros e He. specialize (Hyo e He). split; [tauto|]. split; [tauto|]. split; [tauto|].
    apply Hfr. do 2 right. apply elem_of_app. by left.
  - intros e He. split; [intros Hey; specialize (Hyo e Hey); tauto|]. intros Hec.
    destruct He as [He|He]; [specialize (Hxo e He); tauto|by apply (Hzo e He)].
  - intros Hn. apply (Hfr null_node_); [|done]. do 2 right. rewrite !elem_of_app. tauto.
Qed.

(** Steps 1 and 2 up to the parent of [replace_node]; the parent of the inner
    subtree [y]. *)
Lemma wps_move_inner st a y b (Q : unit -> RBTree V -> Prop) :
  rept (heap st) b y -> NoDup (addrs y) -> null_node_ ∉ addrs y ->
  (forall st', rept (heap st') a y -> root_ st' = root_ st -> next st' = next st -> same_dom (heap st) (heap st') ->
     (forall e, e ∉ addrs y -> heap st' !! e = heap st !! e) -> Q tt st') ->
  wps (if ptr y =? null_node_ then mret tt else set_parent (ptr y) a) st Q.
Proof.
  intros Hy Hnd Hnn HQ. destruct y as [|e co l k v r].
  - cbn [ptr]. rewrite Z.eqb_refl. apply wps_ret. by apply HQ.
  - destruct (Z.eqb_spec (ptr (T e co l k v r)) null_node_) as [E1|_].
    { cbn [ptr addrs] in *. subst. destruct Hnn. by left. }
    pose proof Hy as [He _]. eapply wps_update; [exact He|]. apply HQ; cbn [set_heap heap root_ next].
    + by apply rept_set_parent with b.
    + done.
    + done.
    + apply same_dom_insert; [done|cbn [ptr]; eauto].
    + intros e' He'. apply lookup_insert_ne. intros <-. apply He'. by left.
Qed.

Lemma rept_agree h h' p t : (forall e, e ∈ addrs t -> h' !! e = h !! e) -> rept h p t -> rept h' p t.
Proof.
  revert p. induction t as [|a c l IHl k v r IHr]; intros p Hag; [done|]. cbn [rept addrs] in *. intros (Ha & Hl & Hr).
  split; [rewrite Hag; [done|by left]|].
  split; [apply IHl|apply IHr]; (try done); intros e He; apply Hag; right; apply elem_of_app; auto.
Qed.

Lemma repc_agree h h' root (x : Z) c : (forall e, e ∈ caddrs c -> h' !! e = h !! e) -> repc h root x c -> repc h' root x c.
Proof.
  revert x. induction c as [|f c IH]; intros x Hag; [done|]. rewrite caddrs_cons in Hag. cbn [repc]. intros (Hf & Hs & Hc).
  split; [rewrite Hag; [done|by left]|].
  split; [eapply rept_agree; [|done]|apply IH; [|done]]; intros e He; apply Hag; right; apply elem_of_app; auto.
Qed.

Lemma wps_rotate st c d a ca x ka va b cb y kb vb z (Q : unit -> RBTree V -> Prop) :
  rep st c (Nd d a ca x ka va (Nd d b cb y kb vb z)) ->
  (forall st', rep st' c (Nd d b cb (Nd d a ca x ka va y) kb vb z) -> heap st' !! null_node_ = heap st !! null_node_ ->
     size (heap st') = size (heap st) -> (c = [] \/ root_ st' = root_ st) -> Q tt st') ->
  wps (rotate d a) st Q.
Proof.
  intros H HQ. destruct (rotate_distinct _ _ _ _ _ _ _ _ _ _ _ _ _ _ H)
    as (Hab & Han & Hbn & (Hax & Hay & Haz & Hac) & (Hbx & Hby & Hbz & Hbc) & Hyo & Hxz & Hndy & Hndc & Hnc).
  pose proof (rep_focus _ _ _ _ _ _ _ _ _ H) as Ha. rewrite ptr_Nd in Ha.
  pose proof (rep_t _ _ _ H) as Ht. apply rept_Nd in Ht as (_ & Hx & Hb). apply rept_Nd in Hb as (Hb & Hy & Hz).
  pose proof (rep_c _ _ _ H) as Hc. rewrite ptr_Nd in Hc.
  unfold rotate. apply wps_bind. eapply wps_get_child; [done|]. rewrite child_opp_mk.
  apply wps_bind. eapply wps_get_child; [done|]. rewrite child_mk.
  apply wps_bind. eapply wps_update; [done|]. rewrite with_child_opp_mk.
  set (st1 := set_heap st _). set (na := mk d ka va ca (ptr x) (ptr y) (cptr c)) in *.
  assert (Hb1 : heap st1 !! b = Some (mk d kb vb cb (ptr y) (ptr z) a)) by (cbn; by rewrite lookup_insert_ne).
  apply wps_bind. eapply wps_get_child; [done|]. rewrite child_mk.
  apply wps_bind. apply wps_move_inner with b; [by apply rept_insert|done|by intros Hn; destruct (Hyo _ Hn) as (_ & _ & _ & [])|].
  intros st2 Hy2 Hr2 Hn2 Hd2 Hag2. cbn [st1 set_heap heap root_ next] in Hr2, Hn2, Hd2, Hag2.
  assert (Ha2 : heap st2 !! a = Some na) by (rewrite Hag2, lookup_insert_eq; done).
  assert (Hb2 : heap st2 !! b = Some (mk d kb vb cb (ptr y) (ptr z) a)) by (rewrite Hag2, lookup_insert_ne; done).
  apply wps_bind. eapply wps_get_parent; [done|]. unfold na at 1. rewrite parent_mk.
  apply wps_bind. eapply wps_update; [done|]. rewrite with_parent_mk. set (st3 := set_heap st2 _).
  assert (Ha3 : heap st3 !! a = Some na) by (cbn; by rewrite lookup_insert_ne).
  apply wps_bind. eapply (wps_replace_child st3 a b na c); [done|apply parent_mk| |done|done|done|done|].
  { cbn. rewrite Hr2. apply repc_insert; [done|]. eapply repc_agree; [|exact Hc]. intros e He.
    rewrite Hag2, lookup_insert_ne; [done|by intros ->|intros Hy'; by destruct (Hyo e Hy') as (_ & _ & [] & _)]. }
  intros st4 Hc4 Hn4 Hd4 Hag4 Hroot4. cbn [st3 set_heap heap root_ next] in Hn4, Hd4, Hag4, Hroot4.
  assert (Hb4 : heap st4 !! b = Some (mk d kb vb cb (ptr y) (ptr z) (cptr c))) by (rewrite Hag4, lookup_insert_eq; done).
  apply wps_bind. eapply wps_update; [exact Hb4|]. rewrite with_child_mk. set (st5 := set_heap st4 _).
  assert (Ha5 : heap st5 !! a = Some na).
  { cbn. rewrite lookup_insert_ne, Hag4, lookup_insert_ne by done. done. }
  eapply wps_update; [exact Ha5|]. unfold na. rewrite with_parent_mk. set (st6 := set_heap st5 _).
  assert (Hag6 : forall e, e <> a -> e <> b -> ~ (e ∈ addrs y) -> ~ (e ∈ caddrs c) -> heap st6 !! e = heap st !! e).
  { intros e E1 E2 E3 E4. cbn. rewrite !lookup_insert_ne, Hag4, !lookup_insert_ne, Hag2, lookup_insert_ne by done. done. }
  assert (Hdom : same_dom (heap st) (heap st6)).
  { cbn. apply same_dom_insert; [apply same_dom_insert|]; [|eauto|].
    - unfold same_dom in *. rewrite Hd4. rewrite dom_insert_lookup_L by eauto. rewrite Hd2. by rewrite dom_insert_lookup_L by eauto.
    - rewrite lookup_insert_ne by done. rewrite Hag4, lookup_insert_ne by done. eauto. }
  assert (Hag4' : forall e, e ∈ addrs x \/ e ∈ addrs z -> heap st4 !! e = heap st !! e).
  { intros e He. destruct (Hxz e He) as [He1 He2]. assert (e <> a /\ e <> b) as [Ea Eb] by (split; intros ->; tauto).
    rewrite Hag4, lookup_insert_ne, Hag2, lookup_insert_ne by done. done. }
  assert (Hnull6 : heap st6 !! null_node_ = heap st !! null_node_).
  { apply Hag6; try done. intros Hn. by destruct (Hyo _ Hn) as (_ & _ & _ & []). }
  apply HQ; [|done|by apply same_dom_size|].
  - eapply (rep_rebuild st); [exact H| |cbn; congruence|intros e; by apply same_dom_look|rewrite Hnull6; apply H| |].
    + unfold node_addrs. rewrite !addrs_Nd. cbn [app]. rewrite <- !app_assoc. cbn [app]. rewrite <- !app_assoc.
      rewrite <- (Permutation_middle (addrs x)). apply perm_swap.
    + apply rept_Nd. rewrite ptr_Nd. cbn [st6 st5 set_heap heap].
      rewrite lookup_insert_ne, lookup_insert_eq by done. split; [done|]. split.
      * apply rept_Nd. rewrite lookup_insert_eq. split; [done|]. split; do 2 (apply rept_insert; [done|]).
        -- eapply rept_agree; [|exact Hx]. intros e He. apply Hag4'. by left.
        -- eapply rept_agree; [|exact Hy2]. intros e He. rewrite Hag4 by (by apply Hyo). apply lookup_insert_ne. by intros <-.
      * do 2 (apply rept_insert; [done|]). eapply rept_agree; [|exact Hz]. intros e He. apply Hag4'. by right.
    + rewrite ptr_Nd. cbn [st6 st5 set_heap heap root_]. do 2 (apply repc_insert; [done|]). exact Hc4.
  - destruct Hroot4 as [|Hroot4]; [by left|]. right. cbn. congruence.
Qed.

(** ** Sizes *)

Lemma rep_size st c t : rep st c t -> size (heap st) = S (length ext + length (node_addrs c t)).
Proof.
  intros H. rewrite <- size_dom. destruct (rep_ext _ _ _ H) as [Hex He].
  assert (Hn : null_node_ ∉ ext ++ node_addrs c t).
  { rewrite elem_of_app. intros [Hn|Hn]; [specialize (He _ Hn); lia|by destruct (rep_distinct _ _ _ _ H Hn)]. }
  assert (HL : dom (heap st) = list_to_set (null_node_ :: ext ++ node_addrs c t)).
  { apply set_eq. intros a. rewrite elem_of_list_to_set, elem_of_dom, elem_of_cons, elem_of_app. apply H. }
  rewrite HL, size_list_to_set; [cbn [length]; by rewrite length_app|]. apply list.NoDup_cons. split; [done|].
  apply list.NoDup_app. split; [done|]. split; [|apply H]. intros a Ha. by apply He.
Qed.

Lemma length_caddrs c : (length c <= length (caddrs c))%nat.
Proof. induction c as [|f c IH]; [done|]. rewrite caddrs_cons. cbn [length]. rewrite length_app. lia. Qed.

Fixpoint height (t : tree) : nat := match t with E => 0 | T _ _ l _ _ r => S (Nat.max (height l) (height r)) end.

Lemma height_addrs t : (height t <= length (addrs t))%nat.
Proof. induction t as [|a co l IHl k v r IHr]; [done|]. cbn [height addrs length]. rewrite length_app. lia. Qed.

(** Enough fuel for a walk over the context and the focus. *)
Lemma rep_fuel st c t : rep st c t -> (4 * (length c + height t) < fuel_of st)%nat.
Proof.
  intros H. unfold fuel_of. rewrite (rep_size _ _ _ H). unfold node_addrs. rewrite length_app.
  pose proof (length_caddrs c). pose proof (height_addrs t). lia.
Qed.

End Shape.
Arguments tree V : clear implicits.
Arguments frame V : clear implicits.
Arguments ctx V : clear implicits.

(** Running one access whose node is known. *)
Ltac rb_norm := rewrite ?parent_mk, ?child_mk, ?child_opp_mk, ?color_mk, ?key_mk, ?ptr_Nd.
Ltac rb_read :=
  lazymatch goal with
  | |- wps (_ ≫= _) _ _ => apply wps_bind
  | _ => idtac
  end;
  lazymatch goal with
  | |- wps (get_parent _) _ _ => eapply wps_get_parent; [eassumption|]
  | |- wps (get_child _ _) _ _ => eapply wps_get_child; [eassumption|]
  | |- wps (get_color _) _ _ => eapply wps_get_color; [eassumption|]
  | |- wps (get_key _) _ _ => eapply wps_get_key; [eassumption|]
  | |- wps get_root _ _ => apply wps_root
  end; rb_norm.
