(* ===== verification/RbInv.v ===== *)
(** The red-black and search-tree invariants, on trees and on contexts. *)

From S2P Require Import Prelude RbTree RbShape.

#[local] Open Scope Z_scope.

(** Equality of concatenations. *)
Ltac app_norm := cbn; repeat (rewrite <- app_assoc; cbn [app]); reflexivity.

Section Inv.
Context {V : Type}.
Implicit Types (t x y z : tree V) (c : ctx V) (f : frame V) (co : COLOR) (n : nat).

(** [rb t n]: no red node has a red child and every path to a leaf has [n]
    black nodes. *)
Fixpoint rb (t : tree V) (n : nat) : Prop :=
  match t with
  | E => n = 0%nat
  | T _ RED l _ _ r => col l = BLACK /\ col r = BLACK /\ rb l n /\ rb r n
  | T _ BLACK l _ _ r => match n with O => False | S n => rb l n /\ rb r n end
  end.

Lemma rb_red d a x k v y n : rb (Nd d a RED x k v y) n <-> col x = BLACK /\ col y = BLACK /\ rb x n /\ rb y n.
Proof. destruct d; cbn; tauto. Qed.

Lemma rb_black d a x k v y n : rb (Nd d a BLACK x k v y) (S n) <-> rb x n /\ rb y n.
Proof. destruct d; cbn; tauto. Qed.

Lemma rb_nonempty d t n : rb t (S n) -> exists a x k v y, t = Nd d a (col t) x k v y.
Proof. intros H. destruct (tree_Nd d t) as [->|Ht]; [discriminate|done]. Qed.

(** A black tree of positive height has children one level below. *)
Lemma rb_black_inv d t n :
  rb t (S n) -> col t = BLACK -> exists a x k v y, t = Nd d a BLACK x k v y /\ rb x n /\ rb y n.
Proof.
  intros H Hc. destruct (rb_nonempty d t n H) as (a & x & k & v & y & E1). rewrite Hc in E1. subst t.
  apply rb_black in H as [Hx Hy]. by exists a, x, k, v, y.
Qed.

Lemma rb_red_inv d t n :
  rb t n -> col t = RED ->
  exists a x k v y, t = Nd d a RED x k v y /\ col x = BLACK /\ col y = BLACK /\ rb x n /\ rb y n.
Proof.
  intros H Hc. destruct (tree_Nd d t) as [->|(a & x & k & v & y & E1)]; [done|]. rewrite Hc in E1. subst t.
  apply rb_red in H. exists a, x, k, v, y. tauto.
Qed.

(** A context in which a tree with [n] black levels completes a red-black tree. *)
Fixpoint cok (c : ctx V) (n : nat) : Prop :=
  match c with
  | [] => True
  | f :: c =>
      match fc f with
      | RED => rb (fsib f) n /\ col (fsib f) = BLACK /\ pcol c = BLACK /\ c <> [] /\ cok c n
      | BLACK => rb (fsib f) n /\ cok c (S n)
      end
  end.

(** The root is black, and so on. *)
Definition rbtree_ok t : Prop := col t = BLACK /\ exists n, rb t n.

Lemma plug_ok c t n :
  cok c n -> rb t n -> (col t = RED -> pcol c = BLACK /\ c <> []) -> rbtree_ok (plug c t).
Proof.
  revert t n. induction c as [|f c IH]; intros t n Hc Ht Hr; cbn [plug foldl].
  { split; [|by exists n]. destruct (col t) eqn:Ec; [|done]. by destruct (Hr eq_refl). }
  destruct f as [d a co k v s]. cbn [cok fc fsib] in Hc. destruct co; cbn [pcol fc] in *.
  - destruct Hc as (Hs & Hsc & Hp & Hne & Hc). apply (IH _ n); [done| |].
    + unfold plug1. cbn. apply rb_red. split; [|done]. destruct (col t); [|done]. by destruct (Hr eq_refl).
    + unfold plug1. cbn. by rewrite col_Nd.
  - destruct Hc as (Hs & Hc). apply (IH _ (S n)); [done| |].
    + unfold plug1. cbn. by apply rb_black.
    + unfold plug1. cbn. by rewrite col_Nd.
Qed.

(** The invariants of the parts of a red-black tree. *)
Lemma plug_inv c t : rbtree_ok (plug c t) -> exists n, rb t n /\ cok c n /\ (col t = RED -> pcol c = BLACK /\ c <> []).
Proof.
  revert t. induction c as [|f c IH]; intros t H; cbn [plug foldl] in H.
  { destruct H as [Hc (n & Hn)]. exists n. split; [done|]. split; [done|]. by rewrite Hc. }
  destruct (IH _ H) as (n & Hn & Hc & Hr). destruct f as [d a co k v s]. unfold plug1 in *. cbn [fd fa fc fk fv fsib] in *.
  rewrite col_Nd in Hr. destruct co.
  - apply rb_red in Hn as (Ht & Hs & Rt & Rs). destruct (Hr eq_refl) as [Hp Hne]. exists n. split; [done|].
    split; [by cbn [cok fc fsib]|]. by rewrite Ht.
  - destruct n as [|n]; [by destruct d|]. apply rb_black in Hn as [Rt Rs]. exists n. split; [done|].
    split; [by cbn [cok fc fsib]|]. done.
Qed.

(** ** Contents *)

Fixpoint elems (t : tree V) : list (Z * V) :=
  match t with E => [] | T _ _ l k v r => elems l ++ (k, v) :: elems r end.

Lemma elems_Nd_l a co x k v y : elems (Nd SL a co x k v y) = elems x ++ (k, v) :: elems y.
Proof. done. Qed.

Lemma elems_plug1 f t t' : elems t = elems t' -> elems (plug1 f t) = elems (plug1 f t').
Proof. intros Ht. unfold plug1. destruct (fd f); cbn; by rewrite Ht. Qed.

Lemma elems_plug c t t' : elems t = elems t' -> elems (plug c t) = elems (plug c t').
Proof. revert t t'. induction c as [|f c IH]; intros t t' Ht; [done|]. cbn. by apply IH, elems_plug1. Qed.

Lemma elems_recolor d a co co' x k v y : elems (Nd d a co x k v y) = elems (Nd d a co' x k v y).
Proof. by destruct d. Qed.

Lemma elems_rotate d a ca x ka va b cb y kb vb z :
  elems (Nd d a ca x ka va (Nd d b cb y kb vb z)) = elems (Nd d b cb (Nd d a ca x ka va y) kb vb z).
Proof. destruct d; cbn; by rewrite <- ?app_assoc. Qed.

(** The elements of the focus with what the context puts before and after. *)
Fixpoint before (c : ctx V) : list (Z * V) :=
  match c with
  | [] => []
  | f :: c => match fd f with SL => before c | SR => before c ++ elems (fsib f) ++ [(fk f, fv f)] end
  end.
Fixpoint after (c : ctx V) : list (Z * V) :=
  match c with
  | [] => []
  | f :: c => match fd f with SL => (fk f, fv f) :: elems (fsib f) ++ after c | SR => after c end
  end.

Lemma elems_around c t : elems (plug c t) = before c ++ elems t ++ after c.
Proof.
  revert t. induction c as [|f c IH]; intros t; cbn [plug foldl before after]; [by rewrite app_nil_r|].
  fold (plug c (plug1 f t)). rewrite IH. unfold plug1. destruct (fd f); cbn; rewrite <- ?app_assoc; cbn; rewrite <- ?app_assoc; done.
Qed.

End Inv.
