(* ===== verification/RbInsert.v ===== *)
(** [_insert_fixup]: the tree is red-black again and holds the same elements. *)

From S2P Require Import Prelude RbTree RbShape RbInv.

#[local] Open Scope Z_scope.

Section Insert.
Context {V : Type} {ext : list Z}.
#[local] Abbreviation rep := (@rep V ext).
Implicit Types (t x y z : tree V) (c : ctx V) (f : frame V) (st : RBTree V).

(** What the operations keep: the sentinel and the number of nodes. *)
Definition kept (st st' : RBTree V) : Prop :=
  heap st' !! null_node_ = heap st !! null_node_ /\ size (heap st') = size (heap st).

Lemma kept_refl st : kept st st.
Proof. done. Qed.

Lemma kept_trans st1 st2 st3 : kept st1 st2 -> kept st2 st3 -> kept st1 st3.
Proof. intros [H1 H2] [H3 H4]. split; congruence. Qed.

(** Recolouring, at the focus, its parent or the other child of its parent. *)
Lemma recolor_here st c d a co co' x k v y (Q : unit -> RBTree V -> Prop) :
  rep st c (Nd d a co x k v y) ->
  (forall st', rep st' c (Nd d a co' x k v y) -> kept st st' -> Q tt st') -> wps (set_color a co') st Q.
Proof. intros H HQ. eapply wps_recolor; [done|]. intros st' H1 H2 _ H3. by apply HQ. Qed.

Lemma recolor_child st c d a co x k v y d' b cb cb' x' k' v' y' (Q : unit -> RBTree V -> Prop) :
  rep st c (Nd d a co x k v y) -> x = Nd d' b cb x' k' v' y' ->
  (forall st', rep st' c (Nd d a co (Nd d' b cb' x' k' v' y') k v y) -> kept st st' -> Q tt st') ->
  wps (set_color b cb') st Q.
Proof.
  intros H -> HQ. change (Nd d a co ?u k v y) with (plug1 (MkFrame d a co k v y) u) in *. apply rep_move in H.
  eapply recolor_here; [done|]. intros st' H1 H2. apply HQ; [|done]. by apply rep_move in H1.
Qed.

Lemma recolor_other st c d a co x k v y d' b cb cb' x' k' v' y' (Q : unit -> RBTree V -> Prop) :
  rep st c (Nd d a co x k v y) -> y = Nd d' b cb x' k' v' y' ->
  (forall st', rep st' c (Nd d a co x k v (Nd d' b cb' x' k' v' y')) -> kept st st' -> Q tt st') ->
  wps (set_color b cb') st Q.
Proof.
  intros H Hy HQ. rewrite <- opp_Nd in H. eapply (recolor_child _ _ _ _ _ _ _ _ _ _ _ _ _ _ _ _ _ _ H Hy).
  intros st' H1. rewrite opp_Nd in H1. by apply HQ.
Qed.

Lemma rotate_here st c d a ca x ka va b cb y kb vb z (Q : unit -> RBTree V -> Prop) :
  rep st c (Nd d a ca x ka va (Nd d b cb y kb vb z)) ->
  (forall st', rep st' c (Nd d b cb (Nd d a ca x ka va y) kb vb z) -> kept st st' -> (c = [] \/ root_ st' = root_ st) -> Q tt st') ->
  wps (rotate d a) st Q.
Proof. intros H HQ. eapply wps_rotate; [done|]. intros st' H1 H2 H3 H4. by apply HQ. Qed.

(** Rotating the child [x] on side [d] of the focus. *)
Lemma rotate_child st c d a co x k v y e b cb x' kb vb b' cb' y' kb' vb' z' (Q : unit -> RBTree V -> Prop) :
  rep st c (Nd d a co x k v y) -> x = Nd e b cb x' kb vb (Nd e b' cb' y' kb' vb' z') ->
  (forall st', rep st' c (Nd d a co (Nd e b' cb' (Nd e b cb x' kb vb y') kb' vb' z') k v y) -> kept st st' -> root_ st' = root_ st ->
     Q tt st') ->
  wps (rotate e b) st Q.
Proof.
  intros H -> HQ. change (Nd d a co ?u k v y) with (plug1 (MkFrame d a co k v y) u) in *. apply rep_move in H.
  eapply rotate_here; [done|]. intros st' H1 H2 [H3|H3]; [done|]. apply HQ; [|done|done]. by apply rep_move in H1.
Qed.

(** The three nodes a round looks at. *)
Lemma rep_three st c dg g cg dp p cp di a ca x k v y pk pv ps gk gv gs :
  rep st c (Nd dg g cg (Nd dp p cp (Nd di a ca x k v y) pk pv ps) gk gv gs) ->
  heap st !! a = Some (mk di k v ca (ptr x) (ptr y) p) /\
  heap st !! p = Some (mk dp pk pv cp a (ptr ps) g) /\
  heap st !! g = Some (mk dg gk gv cg p (ptr gs) (cptr c)).
Proof.
  intros [Ht _ _ _ _ _ _ _]. apply rept_Nd in Ht as (Hg & Hp & _). apply rept_Nd in Hp as (Hp & Ha & _).
  apply rept_Nd in Ha as (Ha & _). rewrite !ptr_Nd in *. done.
Qed.

Lemma rep_other_color st c d a co x k v y : rep st c (Nd d a co x k v y) -> exists n, heap st !! ptr y = Some n /\ color n = col y.
Proof.
  intros H. rewrite <- opp_Nd in H. change (Nd (opp d) a co y k v x) with (plug1 (MkFrame (opp d) a co k v x) y) in H.
  apply rep_move in H. by eapply rep_color.
Qed.

Lemma sib_ne st c d a co x k v y : rep st c (Nd d a co x k v y) -> ptr x <> ptr y \/ ptr x = null_node_.
Proof.
  intros H. destruct (ptr_in_addrs x) as [|Hx]; [by right|]. left. intros E1.
  pose proof (rep_nodup _ _ _ H) as Hnd. unfold node_addrs in Hnd. rewrite addrs_Nd in Hnd. cbn [app] in Hnd.
  apply list.NoDup_cons in Hnd as [_ Hnd]. apply list.NoDup_app in Hnd as (Hnd & _ & _). apply list.NoDup_app in Hnd as (_ & Hnd & _).
  destruct (ptr_in_addrs y) as [Hy|Hy].
  - assert (Hin : ptr x ∈ node_addrs c (Nd d a co x k v y)).
    { unfold node_addrs. rewrite addrs_Nd. right. rewrite !elem_of_app. by left; left. }
    destruct (rep_distinct _ _ _ _ H Hin). congruence.
  - apply (Hnd _ Hx). by rewrite E1.
Qed.

(** The side the code computes for a child is its side. *)
Lemma side_of_child st c d a co x k v y :
  rep st c (Nd d a co x k v y) -> ptr x <> null_node_ ->
  (if ptr x =? child SL (mk d k v co (ptr x) (ptr y) (cptr c)) then SL else SR) = d.
Proof.
  intros H Hx. destruct d; cbn [mk child left]; [by rewrite Z.eqb_refl|].
  destruct (Z.eqb_spec (ptr x) (ptr y)) as [E1|]; [|done]. by destruct (sib_ne _ _ _ _ _ _ _ _ _ H).
Qed.

Definition red_uncle_shape d g p a dp u (x y ps ux uy : tree V) k v pk pv gk gv uk uv (c1 c2 : COLOR) : tree V :=
  Nd d g c1 (Nd dp p c2 (Nd d a RED x k v y) pk pv ps) gk gv (Nd d u c2 ux uk uv uy).

Lemma insert_red_uncle st c d g p a dp u x y ps ux uy k v pk pv gk gv uk uv (Q : Z -> RBTree V -> Prop) :
  rep st c (red_uncle_shape d g p a dp u x y ps ux uy k v pk pv gk gv uk uv BLACK RED) ->
  (forall st', rep st' c (red_uncle_shape d g p a dp u x y ps ux uy k v pk pv gk gv uk uv RED BLACK) -> kept st st' -> Q g st') ->
  wps (insert_fixup_side d a) st Q.
Proof.
  unfold red_uncle_shape. intros H HQ. destruct (rep_three _ _ _ _ _ _ _ _ _ _ _ _ _ _ _ _ _ _ _ _ _ H) as (Ha & Hp & Hg).
  destruct (rep_other_color _ _ _ _ _ _ _ _ _ H) as (n & Hn & Hcol). rewrite ptr_Nd in Hn, Hg. rewrite col_Nd in Hcol.
  unfold insert_fixup_side. do 4 rb_read. rewrite Hcol, decide_True by done.
  rb_read. apply wps_bind. eapply recolor_child; [exact H|done|]. intros st1 H1 K1.
  destruct (rep_three _ _ _ _ _ _ _ _ _ _ _ _ _ _ _ _ _ _ _ _ _ H1) as (Ha1 & Hp1 & Hg1).
  apply wps_bind. eapply recolor_other; [exact H1|done|]. intros st2 H2 K2.
  destruct (rep_three _ _ _ _ _ _ _ _ _ _ _ _ _ _ _ _ _ _ _ _ _ H2) as (Ha2 & Hp2 & Hg2).
  do 2 rb_read. apply wps_bind. eapply recolor_here; [exact H2|]. intros st3 H3 K3.
  destruct (rep_three _ _ _ _ _ _ _ _ _ _ _ _ _ _ _ _ _ _ _ _ _ H3) as (Ha3 & Hp3 & Hg3).
  do 2 rb_read. apply HQ; [done|]. eauto using kept_trans.
Qed.

Lemma insert_inner st c d g p a x y ps k v pk pv gk gv gs (Q : Z -> RBTree V -> Prop) :
  rep st c (Nd d g BLACK (Nd d p RED ps pk pv (Nd d a RED x k v y)) gk gv gs) -> col gs = BLACK ->
  (forall st', rep st' c (Nd d g BLACK (Nd d a RED (Nd d p RED ps pk pv x) k v y) gk gv gs) -> kept st st' -> Q p st') ->
  wps (insert_fixup_side d a) st Q.
Proof.
  intros H Hgs HQ. pose proof H as H'. rewrite <- (opp_Nd d p) in H'.
  destruct (rep_three _ _ _ _ _ _ _ _ _ _ _ _ _ _ _ _ _ _ _ _ _ H') as (Ha & Hp & Hg). rewrite mk_opp in Hp.
  destruct (rep_other_color _ _ _ _ _ _ _ _ _ H) as (n & Hn & Hcol).
  unfold insert_fixup_side. do 4 rb_read. rewrite Hcol, Hgs, decide_False by done.
  do 2 rb_read. rewrite Z.eqb_refl. rb_read. apply wps_bind. eapply rotate_child; [exact H|done|].
  intros st1 H1 K1 _. apply wps_ret. by apply HQ.
Qed.

Lemma insert_outer st c d g p a x y ps k v pk pv gk gv gs (Q : Z -> RBTree V -> Prop) :
  rep st c (Nd d g BLACK (Nd d p RED (Nd d a RED x k v y) pk pv ps) gk gv gs) -> col gs = BLACK ->
  (forall st', rep st' c (Nd d p BLACK (Nd d a RED x k v y) pk pv (Nd d g RED ps gk gv gs)) -> kept st st' -> Q a st') ->
  wps (insert_fixup_side d a) st Q.
Proof.
  intros H Hgs HQ. destruct (rep_three _ _ _ _ _ _ _ _ _ _ _ _ _ _ _ _ _ _ _ _ _ H) as (Ha & Hp & Hg).
  destruct (rep_other_color _ _ _ _ _ _ _ _ _ H) as (n & Hn & Hcol).
  unfold insert_fixup_side. do 4 rb_read. rewrite Hcol, Hgs, decide_False by done. do 2 rb_read.
  destruct (Z.eqb_spec a (ptr ps)) as [E1|_].
  { pose proof H as H'. change (Nd d g BLACK ?u gk gv gs) with (plug1 (MkFrame d g BLACK gk gv gs) u) in H'.
    apply rep_move in H'. destruct (sib_ne _ _ _ _ _ _ _ _ _ H') as [E2|E2]; rewrite ptr_Nd in E2; [done|].
    assert (Hin : a ∈ node_addrs c (Nd d g BLACK (Nd d p RED (Nd d a RED x k v y) pk pv ps) gk gv gs)).
    { unfold node_addrs. rewrite !addrs_Nd. cbn [app]. right. right. by left. }
    by destruct (rep_distinct _ _ _ _ H Hin). }
  rb_read. apply wps_bind. eapply recolor_child; [exact H|done|]. intros st1 H1 K1.
  destruct (rep_three _ _ _ _ _ _ _ _ _ _ _ _ _ _ _ _ _ _ _ _ _ H1) as (Ha1 & Hp1 & Hg1).
  do 2 rb_read. apply wps_bind. eapply recolor_here; [exact H1|]. intros st2 H2 K2.
  destruct (rep_three _ _ _ _ _ _ _ _ _ _ _ _ _ _ _ _ _ _ _ _ _ H2) as (Ha2 & Hp2 & Hg2).
  do 2 rb_read. apply wps_bind. eapply (rotate_here st2 c (opp d) g RED gs gk gv p BLACK ps pk pv).
  { rewrite !opp_Nd. exact H2. }
  intros st3 H3 K3 _. rewrite !opp_Nd in H3. apply wps_ret. apply HQ; [done|]. eauto using kept_trans.
Qed.

(** * The loop *)

(** Rounds left: an inner case is followed by an outer one. *)
Definition inner_bit (c : ctx V) : nat :=
  match c with f :: g :: _ => match fd f, fd g with SL, SL | SR, SR => 0 | _, _ => 1 end | _ => 0 end%nat.
Definition insert_measure (g : ctx V * tree V) : nat := 2 * length g.1 + inner_bit g.1.

Definition insert_inv (L : list (Z * V)) (st0 : RBTree V) (g : ctx V * tree V) (iter_node : Z) (st : RBTree V) : Prop :=
  ptr g.2 = iter_node /\ rep st g.1 g.2 /\ col g.2 = RED /\ (exists n, rb g.2 n /\ cok g.1 n) /\
  elems (plug g.1 g.2) = L /\ kept st0 st.

Lemma inner_bit_le (c : ctx V) : (inner_bit c <= 1)%nat.
Proof. destruct c as [|f [|g c]]; cbn; repeat case_match; lia. Qed.

Lemma inv_intro L st0 c t st n p :
  rep st c t -> col t = RED -> rb t n -> cok c n -> elems (plug c t) = L -> kept st0 st -> p = ptr t ->
  insert_inv L st0 (c, t) p st.
Proof. intros H1 H2 H3 H4 H5 H6 ->. unfold insert_inv. cbn [fst snd]. eauto 10. Qed.

Lemma insert_step_ok L st0 g iter_node st :
  insert_inv L st0 g iter_node st ->
  wps (insert_fixup_step iter_node) st (fun r st' =>
    match r with
    | inl s' => exists g', insert_inv L st0 g' s' st' /\ (insert_measure g' < insert_measure g)%nat
    | inr _ => exists g', insert_inv L st0 g' (ptr g'.2) st' /\ pcol g'.1 = BLACK
    end).
Proof.
  destruct g as [c t]. intros (Hptr & H & Hred & (n & Ht & Hc) & HL & HK). cbn [fst snd] in *.
  unfold insert_fixup_step.
  destruct c as [|[dp p cp pk pv ps] c].
  { (* the focus is the root *)
    destruct (rb_red_inv SL t n Ht Hred) as (a & x & k & v & y & -> & _). rewrite ptr_Nd in Hptr. subst iter_node.
    pose proof (rep_focus _ _ _ _ _ _ _ _ _ H) as Ha. rb_read. cbn [cptr].
    destruct (rep_null _ _ _ H) as (nn & Hnn & Hb). rb_read. rewrite Hb, decide_False by done.
    apply wps_ret. exists ([], Nd SL a RED x k v y). split; [|done]. by eapply inv_intro. }
  pose proof (rep_parent _ _ _ _ H) as Hp. cbn [fd fa fc fk fv fsib] in Hp.
  destruct (rb_red_inv dp t n Ht Hred) as (a & x & k & v & y & -> & Hx & Hy & Rx & Ry). rewrite ptr_Nd in Hptr, Hp. subst iter_node.
  pose proof (rep_focus _ _ _ _ _ _ _ _ _ H) as Ha. cbn [cptr fa] in Ha.
  cbn [cok fc fsib] in Hc. destruct cp; cbn [pcol fc] in *.
  2: { (* the parent is black *)
    do 2 rb_read. rewrite decide_False by done. apply wps_ret. exists (MkFrame dp p BLACK pk pv ps :: c, Nd dp a RED x k v y). 
    split; [|done]. eapply inv_intro; [done|done|done| |done..]. done. }
  destruct Hc as (Rps & Hps & Hpc & Hne & Hc). destruct c as [|[dg ga cg gk gv gs] c]; [done|]. cbn [pcol fc] in Hpc. subst cg.
  cbn [cok fc fsib] in Hc. destruct Hc as (Rgs & Hc).
  pose proof H as H2. apply rep_up in H2. pose proof (rep_parent _ _ _ _ H2) as Hg. cbn [fd fa fc fk fv fsib] in Hg.
  apply rep_up in H2. unfold plug1 in H2, Hg. cbn [fd fa fc fk fv fsib cptr] in H2, Hg. rewrite ptr_Nd in Hg.
  do 2 rb_read. rewrite decide_True by done. do 2 rb_read. cbn [cptr fa].
  replace (if p =? _ then SL else SR) with dg.
  2: { symmetry. pose proof (side_of_child _ _ _ _ _ _ _ _ _ H2) as Hs. rewrite ptr_Nd in Hs. apply Hs.
       assert (Hin : p ∈ node_addrs (MkFrame dp p RED pk pv ps :: MkFrame dg ga BLACK gk gv gs :: c) (Nd dp a RED x k v y)).
       { unfold node_addrs. rewrite elem_of_app. right. by left. }
       by destruct (rep_distinct _ _ _ _ H Hin). }
  apply wps_bind. destruct (col gs) eqn:Egs.
  - (* red uncle *)
    destruct (rb_red_inv dg gs n Rgs Egs) as (u & ux & uk & uv & uy & -> & Hux & Huy & Rux & Ruy).
    assert (exists x' y', Nd dp a RED x k v y = Nd dg a RED x' k v y' /\ col x' = BLACK /\ col y' = BLACK /\ rb x' n /\ rb y' n)
      as (x' & y' & Ea & Hx' & Hy' & Rx' & Ry').
    { destruct dp, dg; [by exists x, y|by exists y, x|by exists y, x|by exists x, y]. }
    rewrite Ea in *.
    apply (insert_red_uncle st c dg ga p a dp u x' y' ps ux uy k v pk pv gk gv uk uv); [exact H2|].
    unfold red_uncle_shape. intros st' H3 K3. apply wps_ret.
    eexists (c, _). split.
    + eapply (inv_intro _ _ _ _ _ (S n)); [exact H3|apply col_Nd| |done| | |by rewrite ptr_Nd].
      * apply rb_red. rewrite !col_Nd. split; [done|]. split; [done|]. rewrite !rb_black. split; [|done]. split; [|done].
        by apply rb_red.
      * rewrite <- HL. cbn [plug foldl]. apply elems_plug. unfold plug1. cbn [fd fa fc fk fv fsib]. 
        destruct dg, dp; cbn; done.
      * eauto using kept_trans.
    + unfold insert_measure. cbn [fst length]. pose proof (inner_bit_le c). lia.
  - destruct (decide (dp = dg)) as [<-|Hd].
    + (* outer *)
      eapply insert_outer; [exact H2|done|]. intros st' H3 K3. apply wps_ret.
      exists (MkFrame dp p BLACK pk pv (Nd dp ga RED ps gk gv gs) :: c, Nd dp a RED x k v y). split.
      * eapply (inv_intro _ _ _ _ _ n); [by apply rep_down|done|by apply rb_red| | | |by rewrite ptr_Nd].
        -- cbn [cok fc fsib]. split; [|done]. by apply rb_red.
        -- rewrite <- HL. cbn [plug foldl]. apply elems_plug. unfold plug1. cbn [fd fa fc fk fv fsib].
           destruct dp; app_norm.
        -- eauto using kept_trans.
      * unfold insert_measure. cbn [fst length]. pose proof (inner_bit_le (MkFrame dp p BLACK pk pv (Nd dp ga RED ps gk gv gs) :: c)). lia.
    + (* inner *)
      assert (dp = opp dg) as -> by (destruct dp, dg; done). rewrite !opp_Nd in *.
      eapply insert_inner; [exact H2|done|]. intros st' H3 K3. apply wps_ret.
      exists (MkFrame dg a RED k v x :: MkFrame dg ga BLACK gk gv gs :: c, Nd dg p RED ps pk pv y). split.
      * eapply (inv_intro _ _ _ _ _ n); [do 2 apply rep_down; exact H3|apply col_Nd|by apply rb_red| | | |by rewrite ptr_Nd].
        -- cbn [cok fc fsib pcol]. done.
        -- rewrite <- HL. cbn [plug foldl]. apply elems_plug. unfold plug1. cbn [fd fa fc fk fv fsib].
           destruct dg; app_norm.
        -- eauto using kept_trans.
      * unfold insert_measure. cbn [fst length inner_bit fd]. destruct dg; cbn; lia.
Qed.

Lemma plug_nonempty c t : t <> E -> plug c t <> E.
Proof.
  revert t. induction c as [|f c IH]; intros t Ht; [done|]. cbn [plug foldl]. apply IH. unfold plug1. by destruct (fd f).
Qed.

(** Painting the root black. *)
Lemma blacken_root st c t n :
  rep st c t -> t <> E -> rb t n -> cok c n -> (col t = RED -> pcol c = BLACK) ->
  wps (r ← get_root; set_color r BLACK) st (fun _ st' =>
    exists t', rep st' [] t' /\ rbtree_ok t' /\ elems t' = elems (plug c t) /\ kept st st').
Proof.
  intros H Hne Ht Hc Hp. apply rep_plug in H. pose proof (plug_nonempty c t Hne) as Hpn.
  assert (Hok : rbtree_ok (plug c t) \/ exists m, col (plug c t) = RED /\ rb (plug c t) m).
  { destruct c as [|f c]; [|left; by apply (plug_ok _ _ n); [..|intros Hr; split; [by apply Hp|]]].
    cbn [plug foldl]. destruct (col t) eqn:E1; [right; eauto|left; split; eauto]. }
  destruct (tree_Nd SL (plug c t)) as [|(a & x & k & v & y & E1)]; [done|].
  pose proof (rep_c _ _ _ H) as Hroot. cbn [repc] in Hroot. rewrite E1, ptr_Nd in Hroot.
  apply wps_bind, wps_root. rewrite Hroot. rewrite E1 in H. eapply recolor_here; [exact H|]. intros st' H' HK.
  exists (Nd SL a BLACK x k v y). split; [done|]. split; [|split; [|done]].
  - split; [done|]. destruct Hok as [[Hb (m & Hm)]|(m & Hr & Hm)].
    + exists m. rewrite E1, Hb in Hm. done.
    + exists (S m). rewrite E1, Hr in Hm. apply rb_red in Hm as (_ & _ & Hx & Hy). by apply rb_black.
  - rewrite E1. apply elems_recolor.
Qed.

Lemma insert_fixup_ok st c t n :
  rep st c t -> col t = RED -> rb t n -> cok c n ->
  wps (_insert_fixup (ptr t)) st (fun _ st' =>
    exists t', rep st' [] t' /\ rbtree_ok t' /\ elems t' = elems (plug c t) /\ kept st st').
Proof.
  intros H Hr Ht Hc. unfold _insert_fixup. apply wps_bind.
  apply (wps_while (insert_inv (elems (plug c t)) st) insert_measure _ _ (c, t)).
  - by eapply inv_intro.
  - pose proof (rep_fuel _ _ _ H). unfold insert_measure. cbn [fst]. pose proof (inner_bit_le c).
    assert (1 <= height t)%nat by (destruct t; [done|cbn; lia]). lia.
  - intros g s1 st1 Hi. eapply wps_mono; [by apply insert_step_ok|]. intros [s'|[]] st2 Hg; [done|].
    destruct Hg as ([c2 t2] & (_ & H2 & Hr2 & (n2 & Ht2 & Hc2) & HL & HK) & Hp). cbn [fst snd] in *.
    eapply wps_mono; [by apply (blacken_root _ c2 t2 n2); [|intros ->| | |]|].
    intros [] st3 (t3 & H3 & Hok & Hel & HK3). exists t3. split; [done|]. split; [done|]. split; [congruence|].
    eauto using kept_trans.
Qed.

End Insert.
