(* ===== verification/RbFind.v ===== *)
(** Search, and linking a new node. *)

From stdpp Require Import sorting.
From S2P Require Import Prelude RbTree RbShape RbInv RbInsert.

#[local] Open Scope Z_scope.

Section Find.
Context {V : Type} {ext : list Z}.
#[local] Abbreviation rep := (@rep V ext).
Implicit Types (t x y z : tree V) (c : ctx V) (f : frame V) (st : RBTree V) (k : Z) (v : V).

(** The keys increase from left to right. *)
Definition key_lt (p q : Z * V) : Prop := p.1 < q.1.
Definition bst t : Prop := StronglySorted key_lt (elems t).

(** Only the focus can hold the key [k]. *)
Definition located k c : Prop := Forall (fun p => p.1 < k) (before c) /\ Forall (fun p => k < p.1) (after c).

Lemma located_left k c a co l kk vv r :
  bst (plug c (T a co l kk vv r)) -> located k c -> k < kk -> located k (MkFrame SL a co kk vv r :: c).
Proof.
  unfold bst. rewrite elems_around. cbn [elems]. rewrite <- app_assoc. cbn [app]. intros Hs [Hb Ha] Hk.
  split; [done|]. cbn [after fd fk fv fsib]. constructor; [done|]. apply list.Forall_app. split; [|done].
  apply StronglySorted_app in Hs as (_ & _ & Hs). apply StronglySorted_app in Hs as (_ & _ & Hs).
  apply StronglySorted_inv in Hs as [_ Hs]. rewrite list.Forall_app in Hs. destruct Hs as [Hs _].
  eapply list.Forall_impl; [exact Hs|]. unfold key_lt. cbn. intros. lia.
Qed.

Lemma located_right k c a co l kk vv r :
  bst (plug c (T a co l kk vv r)) -> located k c -> kk < k -> located k (MkFrame SR a co kk vv l :: c).
Proof.
  unfold bst. rewrite elems_around. cbn [elems]. rewrite <- app_assoc. cbn [app]. intros Hs [Hb Ha] Hk.
  split; [|done]. cbn [before fd fk fv fsib]. rewrite !list.Forall_app. split; [done|]. split; [|by constructor].
  apply StronglySorted_app in Hs as (_ & _ & Hs). apply StronglySorted_app in Hs as (Hs & _ & _).
  apply list.Forall_forall. intros p Hp. specialize (Hs p (kk, vv) Hp ltac:(by left)). unfold key_lt in Hs. cbn in Hs. lia.
Qed.

(** ** find *)

Lemma rb_find_ok st t k :
  rep st [] t -> bst t ->
  wps (find k) st (fun p st' => st' = st /\
    ((p = nullptr /\ k ∉ (elems t).*1) \/
     (exists c co l v r, p <> nullptr /\ rep st c (T p co l k v r) /\ plug c (T p co l k v r) = t))).
Proof.
  intros H Hb. unfold find. apply wps_bind, wps_root. pose proof (rep_c _ _ _ H) as Hroot. cbn [repc] in Hroot. rewrite Hroot.
  apply (wps_while (fun (g : ctx V * tree V) node st' => node = ptr g.2 /\ st' = st /\ rep st g.1 g.2 /\ plug g.1 g.2 = t /\ located k g.1)
    (fun g => height g.2) _ _ ([], t)).
  - split; [done|]. split; [done|]. split; [done|]. split; [done|]. by split.
  - pose proof (rep_fuel _ _ _ H). cbn [fst snd]. lia.
  - clear H Hroot. intros [c x] node st' (-> & -> & H & Hx & Hl). cbn [fst snd] in *. unfold find_step.
    destruct x as [|a co l kk vv r]; cbn [ptr].
    { rewrite Z.eqb_refl. apply wps_ret. split; [done|]. left. split; [done|]. rewrite <- Hx, elems_around. cbn [elems app].
      destruct Hl as [Hl1 Hl2]. rewrite fmap_app, elem_of_app, !list_elem_of_fmap. rewrite list.Forall_forall in Hl1, Hl2.
      intros [(p & -> & Hp)|(p & -> & Hp)]; [specialize (Hl1 p Hp)|specialize (Hl2 p Hp)]; lia. }
    pose proof (rep_focus st c SL a co l kk vv r H) as Ha. cbn [mk] in Ha.
    assert (Hin : a ∈ node_addrs c (T a co l kk vv r)) by by left.
    destruct (rep_distinct _ _ _ _ H Hin) as [Hnn Hn0]. destruct (Z.eqb_spec a null_node_); [done|].
    rb_read. cbn [key]. destruct (Z.eqb_spec kk k) as [->|Hkk].
    { apply wps_ret. split; [done|]. right. by exists c, co, l, vv, r. }
    subst t. destruct (Z.ltb_spec kk k); rb_read; cbn [child left right]; apply wps_ret.
    + exists (MkFrame SR a co kk vv l :: c, r). split; [|cbn [height snd]; lia]. cbn [fst snd].
      split; [done|]. split; [done|]. split; [by apply rep_down|]. split; [done|]. by eapply located_right.
    + exists (MkFrame SL a co kk vv r :: c, l). split; [|cbn [height snd]; lia]. cbn [fst snd].
      split; [done|]. split; [done|]. split; [by apply rep_down|]. split; [done|]. eapply located_left; [done|done|lia].
Qed.

(** ** The search of [insert] *)

Lemma insert_search_ok st t k :
  rep st [] t -> bst t ->
  wps (r ← get_root; while_tree (insert_search_step k) (r, null_node_)) st (fun res st' => st' = st /\
    match res with
    | Some p => exists c, p = cptr c /\ rep st c E /\ plug c E = t /\ located k c
    | None => k ∈ (elems t).*1
    end).
Proof.
  intros H Hb. apply wps_bind, wps_root. pose proof (rep_c _ _ _ H) as Hroot. cbn [repc] in Hroot. rewrite Hroot.
  apply (wps_while (fun (g : ctx V * tree V) s st' => s = (ptr g.2, cptr g.1) /\ st' = st /\ rep st g.1 g.2 /\ plug g.1 g.2 = t /\ located k g.1)
    (fun g => height g.2) _ _ ([], t)).
  - split; [done|]. split; [done|]. split; [done|]. split; [done|]. by split.
  - pose proof (rep_fuel _ _ _ H). cbn [fst snd]. lia.
  - clear H Hroot. intros [c x] s st' (-> & -> & H & Hx & Hl). cbn [fst snd] in *. unfold insert_search_step.
    destruct x as [|a co l kk vv r]; cbn [ptr].
    { rewrite Z.eqb_refl. apply wps_ret. split; [done|]. by exists c. }
    pose proof (rep_focus st c SL a co l kk vv r H) as Ha. cbn [mk] in Ha.
    assert (Hin : a ∈ node_addrs c (T a co l kk vv r)) by by left.
    destruct (rep_distinct _ _ _ _ H Hin) as [Hnn Hn0]. destruct (Z.eqb_spec a null_node_); [done|].
    rb_read. cbn [key]. subst t. destruct (Z.ltb_spec k kk); [|destruct (Z.ltb_spec kk k)].
    + rb_read. cbn [child left]. apply wps_ret. exists (MkFrame SL a co kk vv r :: c, l). split; [|cbn [height snd]; lia]. cbn [fst snd].
      split; [done|]. split; [done|]. split; [by apply rep_down|]. split; [done|]. by eapply located_left.
    + rb_read. cbn [child right]. apply wps_ret. exists (MkFrame SR a co kk vv l :: c, r). split; [|cbn [height snd]; lia]. cbn [fst snd].
      split; [done|]. split; [done|]. split; [by apply rep_down|]. split; [done|]. by eapply located_right.
    + apply wps_ret. split; [done|]. rewrite elems_around. cbn [elems]. rewrite !fmap_app, fmap_cons, !elem_of_app, elem_of_cons.
      cbn [fst]. right. left. right. left. lia.
Qed.

(** ** Linking a new node *)

Lemma located_side k f c : located k (f :: c) -> k <> fk f /\ (if k <? fk f then SL else SR) = fd f.
Proof.
  intros [Hb Ha]. cbn [before after] in *. destruct (fd f).
  - apply list.Forall_cons in Ha as [Ha _]. cbn in Ha. destruct (Z.ltb_spec k (fk f)); [|lia]. split; [lia|done].
  - apply list.Forall_app in Hb as [_ Hb]. apply list.Forall_app in Hb as [_ Hb]. apply list.Forall_cons in Hb as [Hb _]. cbn in Hb.
    destruct (Z.ltb_spec k (fk f)); [lia|]. split; [lia|done].
Qed.

(** A tree with one more node in the hole. *)
Lemma rep_grow st c k v h root :
  rep st c E -> let a := next st in
  h !! a = Some (MkNode k v RED null_node_ null_node_ (cptr c)) -> repc h root a c ->
  dom h = {[a]} ∪ dom (heap st) -> h !! null_node_ = heap st !! null_node_ ->
  rep (MkRB h root (next st + 1)) c (T a RED E k v E).
Proof.
  intros H a Ha Hc Hd Hnull. pose proof (rep_next _ _ _ H). pose proof (rep_fresh _ _ _ H) as Hfr. unfold node_addrs in Hfr. cbn in Hfr.
  split; unfold node_addrs; cbn [addrs app heap root_ next ptr].
  - done.
  - done.
  - apply list.NoDup_cons. split; [|apply (rep_nodup _ _ _ H)]. intros Hin. specialize (Hfr a Hin). unfold a in Hfr. lia.
  - rewrite Hnull. apply H.
  - intros b. rewrite <- elem_of_dom, Hd, elem_of_union, elem_of_singleton, elem_of_dom, (rep_dom _ _ _ H), elem_of_cons.
    unfold node_addrs. cbn [addrs app]. tauto.
  - intros b [->|Hb]%elem_of_cons; [unfold a; lia|]. specialize (Hfr b Hb). lia.
  - destruct (rep_ext _ _ _ H) as [Hex He]. split; [done|]. intros b Hb. destruct (He b Hb) as [Hb1 Hb2]. split; [lia|].
    rewrite elem_of_cons. intros [->|Hb']; [unfold a in Hb1; lia|by apply Hb2].
  - lia.
Qed.

Lemma link_new_ok st c k v :
  rep st c E -> rbtree_ok (plug c E) -> located k c ->
  wps (link_new k v (cptr c)) st (fun _ st' =>
    exists t', rep st' [] t' /\ rbtree_ok t' /\ elems t' = before c ++ (k, v) :: after c /\
      size (heap st') = S (size (heap st)) /\ heap st' !! null_node_ = heap st !! null_node_).
Proof.
  intros H Hok Hl. destruct (plug_inv _ _ Hok) as (n & Hn & Hc & _). cbn in Hn. subst n.
  pose proof (rep_next _ _ _ H) as Hnx. pose proof (rep_fresh _ _ _ H) as Hfr. unfold node_addrs in Hfr. cbn [addrs app] in Hfr.
  set (a := next st). set (nn := MkNode k v RED null_node_ null_node_ (cptr c)).
  assert (Hna : a ∉ caddrs c) by (intros Hin; specialize (Hfr a Hin); unfold a in Hfr; lia).
  assert (Hfree : heap st !! a = None).
  { apply eq_None_not_Some. intros Hs%(rep_dom _ _ _ H). unfold node_addrs in Hs. cbn in Hs. destruct (rep_ext _ _ _ H) as [_ He].
    unfold a in *. destruct Hs as [|[Hs|]]; [lia|specialize (He _ Hs); lia|done]. }
  unfold link_new. apply wps_bind. exists a, (MkRB (<[a := nn]> (heap st)) (root_ st) (next st + 1)). split; [done|].
  apply wps_bind.
  assert (Hlink : wps (if cptr c =? null_node_ then set_root a
     else pk ← get_key (cptr c); if k <? pk then set_child SL (cptr c) a else set_child SR (cptr c) a)
     (MkRB (<[a := nn]> (heap st)) (root_ st) (next st + 1))
     (fun _ st' => rep st' c (T a RED E k v E) /\ size (heap st') = S (size (heap st)) /\ heap st' !! null_node_ = heap st !! null_node_)).
  { assert (Hann : a <> null_node_) by (unfold a; lia).
    pose proof (repc_insert _ _ _ _ a nn Hna (rep_c _ _ _ H)) as Hrc.
    destruct c as [|f c]; cbn [cptr].
    - rewrite Z.eqb_refl. eexists tt, _. split; [done|]. cbn [heap root_ next]. split.
      + apply rep_grow; cbn [heap]; [done|by rewrite lookup_insert_eq|done|by rewrite dom_insert_L|by rewrite lookup_insert_ne].
      + split; [by apply map_size_insert_None|by rewrite lookup_insert_ne].
    - assert (Hfa : fa f ∈ caddrs (f :: c)) by by left.
      assert (fa f <> null_node_) by (specialize (Hfr _ Hfa); lia). assert (fa f <> a) by (intros E1; rewrite E1 in Hfa; done).
      destruct (Z.eqb_spec (fa f) null_node_); [done|]. pose proof (rep_parent _ _ _ _ H) as Hp.
      assert (Hp1 : <[a := nn]> (heap st) !! fa f = Some (mk (fd f) (fk f) (fv f) (fc f) null_node_ (ptr (fsib f)) (cptr c))) by by rewrite lookup_insert_ne.
      apply wps_bind. eapply wps_get_key; [exact Hp1|]. rewrite key_mk.
      replace (if k <? fk f then set_child SL (fa f) a else set_child SR (fa f) a) with (set_child (V := V) (fd f) (fa f) a)
        by (destruct (located_side _ _ _ Hl) as [_ <-]; by destruct (k <? fk f)).
      eapply wps_update; [exact Hp1|]. rewrite with_child_mk. cbn [set_heap heap root_ next]. split; [|split].
      + apply rep_grow; [done| | | |].
        * rewrite lookup_insert_ne, lookup_insert_eq by done. done.
        * eapply repc_hole; [exact Hrc|]. pose proof (rep_nodup _ _ _ H) as Hnd. done.
        * rewrite dom_insert_lookup_L by eauto. by rewrite dom_insert_L.
        * by rewrite !lookup_insert_ne.
      + rewrite map_size_insert_Some by eauto. by apply map_size_insert_None.
      + by rewrite !lookup_insert_ne. }
  eapply wps_mono; [exact Hlink|]. intros [] st1 (H1 & Hsz & Hnl).
  change a with (ptr (T a RED E k v E)). eapply wps_mono; [apply (insert_fixup_ok (ext := ext) st1 c _ 0); [done|done|done|done]|].
  intros [] st2 (t2 & H2 & Hok2 & Hel & [HK1 HK2]). exists t2. split; [done|]. split; [done|]. split; [|split; congruence].
  rewrite Hel, elems_around. done.
Qed.

End Find.
