(* ===== verification/RbErase.v ===== *)
(** [_erase_fixup]: one black node too few on the way to the focus is repaired. *)

From S2P Require Import Prelude RbTree RbShape RbInv RbInsert.

#[local] Open Scope Z_scope.

Section Erase.
Context {V : Type} {ext : list Z}.
#[local] Abbreviation rep := (@rep V ext).
Implicit Types (t x y z : tree V) (c : ctx V) (f : frame V) (st : RBTree V).

(** The parent field of the focus; for a leaf it is the field of the sentinel. *)
Definition par_is st x (p : Z) : Prop := exists n, heap st !! ptr x = Some n /\ parent n = p /\ color n = col x.

Lemma par_is_node st c d p cp x pk pv s :
  rep st c (Nd d p cp x pk pv s) -> (x = E -> exists n, heap st !! null_node_ = Some n /\ parent n = p) -> par_is st x p.
Proof.
  intros H Hx. pose proof (rep_t _ _ _ H) as Ht. apply rept_Nd in Ht as (_ & Ht & _). destruct x as [|a co l k v r].
  - destruct (Hx eq_refl) as (n & Hn & Hp). destruct (rep_null _ _ _ H) as (n' & Hn' & Hc). exists n. cbn. rewrite Hn in Hn'.
    injection Hn' as <-. done.
  - destruct Ht as [Ha _]. eexists. split; [exact Ha|]. done.
Qed.

Lemma par_is_kept st st' c d p cp x pk pv s :
  par_is st x p -> kept st st' -> rep st' c (Nd d p cp x pk pv s) -> par_is st' x p.
Proof.
  intros (n & Hn & Hp & Hc) [HK _] H. eapply par_is_node; [exact H|]. intros ->. exists n. cbn in Hn. by rewrite HK.
Qed.

Lemma wps_par st x p (Q : Z -> RBTree V -> Prop) : par_is st x p -> Q p st -> wps (get_parent (ptr x)) st Q.
Proof. intros (n & Hn & <- & _) HQ. by eapply wps_get_parent. Qed.

(** The parent and the sibling of the focus. *)
Lemma rep_two st c d p cp x pk pv b cb near kb vb far :
  rep st c (Nd d p cp x pk pv (Nd d b cb near kb vb far)) ->
  heap st !! p = Some (mk d pk pv cp (ptr x) b (cptr c)) /\ heap st !! b = Some (mk d kb vb cb (ptr near) (ptr far) p) /\
  (exists n, heap st !! ptr near = Some n /\ color n = col near) /\ (exists n, heap st !! ptr far = Some n /\ color n = col far).
Proof.
  intros H. pose proof (rep_focus _ _ _ _ _ _ _ _ _ H) as Hp. rewrite ptr_Nd in Hp. split; [done|].
  assert (H' : rep st (MkFrame (opp d) p cp pk pv x :: c) (Nd d b cb near kb vb far)).
  { apply rep_down. unfold plug1. cbn. by rewrite opp_Nd. }
  split; [by apply (rep_focus _ _ _ _ _ _ _ _ _ H')|].
  split; [|by eapply rep_other_color]. eapply (rep_other_color st _ (opp d)). rewrite opp_Nd. exact H'.
Qed.

(** Colours of the two children of [b], in the order the code reads them. *)
Lemma wps_both_black st d b kb vb cb p (near far : tree V) (k : COLOR -> COLOR -> RB V Z) Q' :
  heap st !! b = Some (mk d kb vb cb (ptr near) (ptr far) p) ->
  (exists n, heap st !! ptr near = Some n /\ color n = col near) -> (exists n, heap st !! ptr far = Some n /\ color n = col far) ->
  (forall blc brc, (blc = BLACK /\ brc = BLACK <-> col near = BLACK /\ col far = BLACK) -> wps (k blc brc) st Q') ->
  wps (bl ← get_child SL b; blc ← get_color bl;
       brc ← (if decide (blc = BLACK) then br ← get_child SR b; get_color br else mret RED); k blc brc) st Q'.
Proof.
  intros Hb (n1 & Hn1 & Hc1) (n2 & Hn2 & Hc2) HQ.
  assert (H' : exists x y nx ny, mk d kb vb cb (ptr near) (ptr far) p = MkNode kb vb cb (ptr x) (ptr y) p /\
    heap st !! ptr x = Some nx /\ heap st !! ptr y = Some ny /\
    (color nx = BLACK /\ color ny = BLACK <-> col near = BLACK /\ col far = BLACK)).
  { destruct d; [exists near, far, n1, n2|exists far, near, n2, n1]; (split; [done|]); (split; [done|]); (split; [done|]); rewrite Hc1, Hc2; tauto. }
  destruct H' as (x & y & nx & ny & E1 & Hx & Hy & Hiff). rewrite E1 in Hb.
  apply wps_bind. eapply wps_get_child; [exact Hb|]. apply wps_bind. cbn [child left]. eapply wps_get_color; [exact Hx|].
  apply wps_bind. case_decide as Hd.
  - apply wps_bind. eapply wps_get_child; [exact Hb|]. cbn [child right]. eapply wps_get_color; [exact Hy|]. by apply HQ.
  - apply wps_ret. apply HQ. split; [by intros [? ?]|]. intros Hbb. apply Hiff in Hbb as [? _]. done.
Qed.

(** ** The cases *)

Lemma erase_case2 st c d p cp x pk pv b near kb vb far (Q : Z -> RBTree V -> Prop) :
  rep st c (Nd d p cp x pk pv (Nd d b BLACK near kb vb far)) -> par_is st x p -> col near = BLACK -> col far = BLACK ->
  (forall st', rep st' c (Nd d p cp x pk pv (Nd d b RED near kb vb far)) -> kept st st' -> Q p st') ->
  wps (erase_fixup_black d (ptr x) b) st Q.
Proof.
  intros H Hpar Hn Hf HQ. destruct (rep_two _ _ _ _ _ _ _ _ _ _ _ _ _ _ H) as (Hp & Hb & Hcn & Hcf).
  eapply wps_both_black; [exact Hb|exact Hcn|exact Hcf|]. intros blc brc Hiff.
  rewrite decide_True by by apply Hiff. apply wps_bind. eapply recolor_other; [exact H|done|]. intros st1 H1 K1.
  apply (wps_par _ _ p); [by eapply par_is_kept|]. by apply HQ.
Qed.

Lemma erase_case3 st c d p cp x pk pv b kb vb far e z ke ve y (Q : Z -> RBTree V -> Prop) :
  rep st c (Nd d p cp x pk pv (Nd d b BLACK (Nd d e RED z ke ve y) kb vb far)) -> col far = BLACK ->
  (forall st', rep st' c (Nd d p cp x pk pv (Nd d e BLACK z ke ve (Nd d b RED y kb vb far))) -> kept st st' -> Q (ptr x) st') ->
  wps (erase_fixup_black d (ptr x) b) st Q.
Proof.
  intros H Hf HQ. destruct (rep_two _ _ _ _ _ _ _ _ _ _ _ _ _ _ H) as (Hp & Hb & Hcn & Hcf).
  eapply wps_both_black; [exact Hb|exact Hcn|exact Hcf|]. intros blc brc Hiff.
  rewrite col_Nd in Hiff. rewrite decide_False by (rewrite Hiff; by intros [? _]).
  destruct Hcf as (nf & Hnf & Hcf). rb_read. rb_read. rewrite Hcf, Hf, decide_True by done. rb_read.
  set (F := MkFrame (opp d) p cp pk pv x).
  assert (HF : forall s, Nd d p cp x pk pv s = plug1 F s) by (intros s; unfold plug1; cbn; by rewrite opp_Nd).
  rewrite HF in H. apply rep_down in H.
  apply wps_bind. eapply recolor_child; [exact H|done|]. intros st1 H1 K1.
  apply wps_bind. eapply recolor_here; [exact H1|]. intros st2 H2 K2.
  apply wps_bind. eapply (rotate_here st2 _ (opp d) b RED far kb vb e BLACK y ke ve z).
  { rewrite !opp_Nd. exact H2. }
  intros st3 H3 K3 _. rewrite !opp_Nd in H3. apply wps_ret. apply HQ; [rewrite HF; by apply rep_up|]. eauto using kept_trans.
Qed.

Lemma erase_case4 st c d p cp x pk pv b near kb vb g gz gk gv gy (Q : Z -> RBTree V -> Prop) :
  rep st c (Nd d p cp x pk pv (Nd d b BLACK near kb vb (Nd d g RED gz gk gv gy))) -> par_is st x p ->
  (forall st', rep st' c (Nd d b cp (Nd d p BLACK x pk pv near) kb vb (Nd d g BLACK gz gk gv gy)) -> kept st st' -> Q (root_ st') st') ->
  wps (erase_fixup_black d (ptr x) b) st Q.
Proof.
  intros H Hpar HQ. destruct (rep_two _ _ _ _ _ _ _ _ _ _ _ _ _ _ H) as (Hp & Hb & Hcn & Hcf).
  eapply wps_both_black; [exact Hb|exact Hcn|exact Hcf|]. intros blc brc Hiff.
  rewrite col_Nd in Hiff. rewrite decide_False by (rewrite Hiff; by intros [_ ?]).
  destruct Hcf as (nf & Hnf & Hcf). rewrite ptr_Nd in Hnf. rb_read. rb_read. rewrite Hcf, col_Nd, decide_False by done.
  apply wps_bind, (wps_par _ _ p); [done|]. rb_read.
  apply wps_bind. eapply recolor_other; [exact H|done|]. intros st1 H1 K1.
  assert (P1 : par_is st1 x p) by by eapply par_is_kept.
  apply wps_bind, (wps_par _ _ p); [done|]. apply wps_bind. eapply recolor_here; [exact H1|]. intros st2 H2 K2.
  assert (P2 : par_is st2 x p) by by eapply par_is_kept.
  destruct (rep_two _ _ _ _ _ _ _ _ _ _ _ _ _ _ H2) as (Hp2 & Hb2 & _ & _). rb_read.
  set (F := MkFrame (opp d) p BLACK pk pv x).
  assert (HF : forall s, Nd d p BLACK x pk pv s = plug1 F s) by (intros s; unfold plug1; cbn; by rewrite opp_Nd).
  rewrite HF in H2. apply rep_down in H2. apply wps_bind. eapply recolor_other; [exact H2|done|]. intros st3 H3 K3.
  apply rep_up in H3. rewrite <- HF in H3. assert (P3 : par_is st3 x p) by by eapply par_is_kept.
  apply wps_bind, (wps_par _ _ p); [done|]. apply wps_bind. eapply rotate_here; [exact H3|]. intros st4 H4 K4 _.
  apply wps_root. apply HQ; [done|]. eauto using kept_trans.
Qed.

Lemma erase_case1 st c d p x pk pv b near kb vb far (Q : Z -> RBTree V -> Prop) :
  rep st c (Nd d p BLACK x pk pv (Nd d b RED near kb vb far)) -> par_is st x p ->
  (forall st', rep st' c (Nd d b BLACK (Nd d p RED x pk pv near) kb vb far) -> kept st st' -> par_is st' x p ->
     wps (erase_fixup_black d (ptr x) (ptr near)) st' Q) ->
  wps (erase_fixup_side d (ptr x)) st Q.
Proof.
  intros H Hpar HQ. destruct (rep_two _ _ _ _ _ _ _ _ _ _ _ _ _ _ H) as (Hp & Hb & Hcn & Hcf).
  unfold erase_fixup_side. apply wps_bind, (wps_par _ _ p); [done|]. do 2 rb_read. rewrite decide_True by done.
  apply wps_bind. eapply recolor_other; [exact H|done|]. intros st1 H1 K1.
  assert (P1 : par_is st1 x p) by by eapply par_is_kept.
  apply wps_bind, (wps_par _ _ p); [done|]. apply wps_bind. eapply recolor_here; [exact H1|]. intros st2 H2 K2.
  assert (P2 : par_is st2 x p) by by eapply par_is_kept.
  apply wps_bind, (wps_par _ _ p); [done|]. apply wps_bind. eapply rotate_here; [exact H2|]. intros st3 H3 K3 _.
  pose proof H3 as H3'. change (Nd d b BLACK ?u kb vb far) with (plug1 (MkFrame d b BLACK kb vb far) u) in H3'. apply rep_down in H3'.
  assert (P3 : par_is st3 x p) by by eapply par_is_kept.
  apply wps_bind, (wps_par _ _ p); [done|]. pose proof (rep_focus _ _ _ _ _ _ _ _ _ H3') as Hp3. rb_read.
  apply HQ; [done| |done]. eauto using kept_trans.
Qed.

(** * The loop *)

Definition blacken t : tree V := match t with E => E | T a _ l k v r => T a BLACK l k v r end.

Lemma blacken_Nd d a co x k v y : blacken (Nd d a co x k v y) = Nd d a BLACK x k v y.
Proof. by destruct d. Qed.

Lemma blacken_id t : col t = BLACK -> blacken t = t.
Proof. destruct t as [|a co l k v r]; cbn; [done|]. by intros ->. Qed.

Lemma elems_blacken t : elems (blacken t) = elems t.
Proof. by destruct t. Qed.

Lemma col_blacken t : col (blacken t) = BLACK.
Proof. by destruct t. Qed.

(** The focus has one black level too few, or painting it black is all that is
    left to do. *)
Definition deficient c t : Prop := exists n, col t = BLACK /\ rb t n /\ cok c (S n).
Definition settled c t : Prop := exists n, rb (blacken t) n /\ cok c n.

Definition erase_inv (L : list (Z * V)) st0 (g : ctx V * tree V) (p : Z) st : Prop :=
  p = ptr g.2 /\ rep st g.1 g.2 /\ par_is st g.2 (cptr g.1) /\
  (deficient g.1 g.2 \/ settled g.1 g.2 /\ (col g.2 = RED \/ g.1 = [])) /\
  elems (plug g.1 g.2) = L /\ kept st0 st.

Definition far_child (d : side) t : tree V :=
  match t with E => E | T _ _ l _ _ r => match d with SL => r | SR => l end end.

Definition erase_measure (g : ctx V * tree V) : nat :=
  match g.1 with
  | [] => 0
  | f :: _ =>
      if decide (col g.2 = RED) then 0
      else (match fc f with RED => 1 | BLACK => 3 * length g.1 end +
            if decide (col (far_child (fd f) (fsib f)) = BLACK) then 1 else 0)
  end%nat.

Lemma far_Nd d a co x k v y : far_child d (Nd d a co x k v y) = y.
Proof. by destruct d. Qed.

Lemma par_is_here st c t : rep st c t -> t <> E -> par_is st t (cptr c).
Proof.
  intros H Ht. destruct (tree_Nd SL t) as [|(a & x & k & v & y & E1)]; [done|]. rewrite E1 in H |- *.
  pose proof (rep_focus _ _ _ _ _ _ _ _ _ H) as Ha. eexists. rewrite ptr_Nd. split; [exact Ha|]. done.
Qed.

Lemma einv_intro L st0 c t st p :
  rep st c t -> par_is st t (cptr c) -> (deficient c t \/ settled c t /\ (col t = RED \/ c = [])) ->
  elems (plug c t) = L -> kept st0 st -> p = ptr t -> erase_inv L st0 (c, t) p st.
Proof. intros. by split. Qed.

(** After case 4 the tree is red-black. *)
Lemma case4_ok c d p cp x pk pv b near kb vb g gz gk gv gy n :
  rb x n -> col x = BLACK -> rb near n -> rb gz n -> rb gy n -> col gz = BLACK -> col gy = BLACK ->
  cok (MkFrame d p cp pk pv (Nd d b BLACK near kb vb (Nd d g RED gz gk gv gy)) :: c) (S n) ->
  rbtree_ok (plug c (Nd d b cp (Nd d p BLACK x pk pv near) kb vb (Nd d g BLACK gz gk gv gy))).
Proof.
  intros Rx Hx Rn Rgz Rgy Hgz Hgy Hc. cbn [cok fc fsib] in Hc. destruct cp.
  - destruct Hc as (_ & _ & Hp & Hne & Hc). eapply plug_ok; [exact Hc| |done].
    apply rb_red. rewrite !col_Nd, !rb_black. done.
  - destruct Hc as (_ & Hc). eapply plug_ok; [exact Hc| |by rewrite col_Nd]. by rewrite !rb_black.
Qed.

Lemma erase_black_ok L st0 st c d p cp x pk pv s n :
  rep st c (Nd d p cp x pk pv s) -> par_is st x p -> col x = BLACK -> rb x n -> col s = BLACK ->
  cok (MkFrame d p cp pk pv s :: c) (S n) -> elems (plug c (Nd d p cp x pk pv s)) = L -> kept st0 st ->
  wps (erase_fixup_black d (ptr x) (ptr s)) st (fun r st' => exists g',
    erase_inv L st0 g' r st' /\ (erase_measure g' < erase_measure (MkFrame d p cp pk pv s :: c, x))%nat).
Proof.
  intros H Hpar Hx Rx Hs Hc HL HK.
  assert (Rs : rb s (S n)) by (cbn [cok fc fsib] in Hc; destruct cp; tauto).
  assert (M0 : erase_measure (MkFrame d p cp pk pv s :: c, x) = (match cp with RED => 1 | BLACK => 3 * S (length c) end +
            if decide (col (far_child d s) = BLACK) then 1 else 0)%nat).
  { unfold erase_measure. cbn [fst snd fc fd fsib length]. by rewrite decide_False by (by rewrite Hx). }
  destruct (rb_black_inv d s n Rs Hs) as (b & near & kb & vb & far & -> & Rn & Rf). rewrite far_Nd in M0.
  rewrite ptr_Nd. destruct (col far) eqn:Ef.
  { (* case 4 *)
    destruct (rb_red_inv d far n Rf Ef) as (g & gz & gk & gv & gy & -> & Hgz & Hgy & Rgz & Rgy).
    eapply erase_case4; [exact H|done|]. intros st' H' K'.
    pose proof (case4_ok _ _ _ _ _ _ _ _ _ _ _ _ _ _ _ _ _ Rx Hx Rn Rgz Rgy Hgz Hgy Hc) as [Hcol (m & Hm)].
    apply rep_plug in H'. set (W := plug c (Nd d b cp (Nd d p BLACK x pk pv near) kb vb (Nd d g BLACK gz gk gv gy))) in *.
    exists ([], W). split.
    - apply einv_intro; [done| | | |eauto using kept_trans|apply (rep_c _ _ _ H')].
      + apply par_is_here; [done|]. apply plug_nonempty. by destruct d.
      + right. split; [|by right]. exists m. by rewrite blacken_id.
      + rewrite <- HL. unfold W. cbn [plug foldl]. apply elems_plug. destruct d; app_norm.
    - rewrite M0. change (erase_measure ([], W)) with 0%nat. destruct cp; lia. }
  destruct (col near) eqn:En.
  { (* case 3 *)
    destruct (rb_red_inv d near n Rn En) as (e & z & ke & ve & y & -> & Hz & Hy & Rz & Ry).
    eapply erase_case3; [exact H|done|]. intros st' H' K'.
    exists (MkFrame d p cp pk pv (Nd d e BLACK z ke ve (Nd d b RED y kb vb far)) :: c, x). split.
    - apply einv_intro; [by apply rep_down| | | |eauto using kept_trans|done].
      + by eapply par_is_kept.
      + left. exists n. split; [done|]. split; [done|]. cbn [cok fc fsib] in Hc |- *.
        assert (rb (Nd d e BLACK z ke ve (Nd d b RED y kb vb far)) (S n)) by (rewrite rb_black, rb_red; done).
        destruct cp; [rewrite !col_Nd in *|]; tauto.
      + rewrite <- HL. cbn [plug foldl]. apply elems_plug. unfold plug1. cbn. destruct d; app_norm.
    - rewrite M0. unfold erase_measure. cbn [fst snd fc fd fsib length]. rewrite decide_False by (by rewrite Hx).
      rewrite far_Nd, col_Nd. rewrite (decide_False (P := RED = BLACK)) by done. rewrite decide_True by done. destruct cp; lia. }
  (* case 2 *)
  eapply erase_case2; [exact H|done|done|done|]. intros st' H' K'.
  assert (Rs' : rb (Nd d b RED near kb vb far) n) by (by apply rb_red).
  exists (c, Nd d p cp x pk pv (Nd d b RED near kb vb far)). split.
  - apply einv_intro; [done| | | |eauto using kept_trans|by rewrite ptr_Nd].
    + apply par_is_here; [done|by destruct d].
    + cbn [cok fc fsib] in Hc. destruct cp.
      * right. rewrite col_Nd. split; [|by left]. exists (S n). rewrite blacken_Nd. split; [by rewrite rb_black|tauto].
      * left. exists (S n). rewrite col_Nd. split; [done|]. split; [by rewrite rb_black|tauto].
    + rewrite <- HL. apply elems_plug. destruct d; app_norm.
  - rewrite M0, decide_True by done. unfold erase_measure. cbn [fst snd]. rewrite col_Nd. destruct c as [|f c]; [destruct cp; lia|].
    destruct cp; [rewrite decide_True by done; lia|]. rewrite decide_False by done. cbn [length].
    destruct (fc f), (decide (col (far_child (fd f) (fsib f)) = BLACK)); lia.
Qed.

(** The root is not in the focus of a longer context. *)
Lemma root_last st c t : rep st c t -> c <> [] -> root_ st ∈ caddrs c.
Proof.
  intros H Hne. pose proof (rep_c _ _ _ H) as Hc. clear H. revert Hc. generalize (ptr t) as q. induction c as [|f c IH]; [done|].
  intros q (_ & _ & Hc). rewrite caddrs_cons. destruct c as [|f' c]; [cbn in Hc; rewrite Hc; by left|].
  right. apply elem_of_app. right. by apply (IH ltac:(done) (fa f)).
Qed.

Lemma root_ne st f c t : rep st (f :: c) t -> ptr t <> root_ st.
Proof.
  intros H E1. pose proof (root_last _ _ _ H ltac:(done)) as Hin. rewrite <- E1 in Hin.
  assert (Hin' : ptr t ∈ node_addrs (f :: c) t) by (unfold node_addrs; apply elem_of_app; by right).
  destruct (ptr_in_addrs t) as [Hn|Ht]; [by destruct (rep_distinct _ _ _ _ H Hin')|].
  pose proof (rep_nodup _ _ _ H) as Hnd. unfold node_addrs in Hnd. apply list.NoDup_app in Hnd as (_ & Hnd & _).
  by apply (Hnd _ Ht).
Qed.

Lemma erase_step_ok L st0 g p st :
  erase_inv L st0 g p st ->
  wps (erase_fixup_step p) st (fun r st' =>
    match r with
    | inl s' => exists g', erase_inv L st0 g' s' st' /\ (erase_measure g' < erase_measure g)%nat
    | inr q => exists g', erase_inv L st0 g' q st' /\ settled g'.1 g'.2
    end).
Proof.
  destruct g as [c t]. intros Hinv. destruct (Hinv) as (-> & H & Hpar & Hstate & HL & HK). cbn [fst snd] in *.
  unfold erase_fixup_step. rb_read. destruct c as [|f c].
  { pose proof (rep_c _ _ _ H) as Hroot. cbn [repc] in Hroot. rewrite Hroot, Z.eqb_refl. apply wps_bind, wps_ret.
    rewrite decide_False by done. apply wps_ret. exists ([], t). split; [done|]. cbn [fst snd].
    destruct Hstate as [(n & Hc & Ht & _)|[Hs _]]; [|done]. exists n. by rewrite blacken_id. }
  destruct (Z.eqb_spec (ptr t) (root_ st)) as [E1|_]; [by destruct (root_ne _ _ _ _ H)|].
  apply wps_bind. eapply wps_color; [exact H|]. destruct (col t) eqn:Ec.
  { rewrite decide_False by done. apply wps_ret. exists (f :: c, t). split; [done|]. cbn [fst snd].
    destruct Hstate as [(n & Hc & _)|[Hs _]]; [congruence|done]. }
  rewrite decide_True by done. destruct Hstate as [(n & _ & Rt & Hc)|[_ [|]]]; [|congruence|done].
  destruct f as [d q cp pk pv s]. apply wps_bind. apply (wps_par _ _ q); [exact Hpar|].
  pose proof (rep_parent _ _ _ _ H) as Hq. cbn [fd fa fc fk fv fsib] in Hq. rb_read.
  assert (Rs : rb s (S n)) by (cbn [cok fc fsib] in Hc; destruct cp; tauto).
  pose proof H as H2. apply rep_up in H2. unfold plug1 in H2. cbn [fd fa fc fk fv fsib] in H2.
  destruct (rb_nonempty d s n Rs) as (b & near & kb & vb & far & Es).
  assert (Hsne : ptr s <> null_node_).
  { assert (Hin : b ∈ node_addrs c (Nd d q cp t pk pv s)).
    { unfold node_addrs. rewrite Es, !addrs_Nd. cbn [app]. right. rewrite !elem_of_app. left. right. by left. }
    rewrite Es, ptr_Nd. by destruct (rep_distinct _ _ _ _ H2 Hin). }
  replace (if ptr t =? _ then SL else SR) with d.
  2: { destruct d; cbn [mk child left]; [by rewrite Z.eqb_refl|].
       destruct (Z.eqb_spec (ptr t) (ptr s)) as [E1|]; [|done]. destruct (sib_ne _ _ _ _ _ _ _ _ _ H2); congruence. }
  apply wps_bind. destruct (col s) eqn:Esc.
  - (* red brother *)
    rewrite Es in H2, Hc. assert (cp = BLACK) as -> by (cbn [cok fc fsib] in Hc; rewrite col_Nd in Hc; destruct cp; [|done]; tauto).
    cbn [cok fc fsib] in Hc. destruct Hc as [Rb Hc]. apply rb_red in Rb as (Hn & Hf & Rn & Rf).
    eapply erase_case1; [exact H2|done|]. intros st' H3 K3 P3.
    change (Nd d b BLACK ?u kb vb far) with (plug1 (MkFrame d b BLACK kb vb far) u) in H3. apply rep_down in H3.
    eapply wps_mono; [apply (erase_black_ok L st0 _ _ _ _ _ _ _ _ _ n H3 P3)|]; [done|done|done| | | |].
    + cbn [cok fc fsib pcol]. done.
    + rewrite <- HL, Es. cbn [plug foldl]. apply elems_plug. unfold plug1. cbn. destruct d; app_norm.
    + eauto using kept_trans.
    + intros r st2 (g' & Hi & Hm). apply wps_ret. exists g'. split; [done|]. eapply Nat.lt_le_trans; [exact Hm|].
      unfold erase_measure. cbn [fst snd fc fd fsib length]. rewrite !(decide_False (P := col t = RED)) by (by rewrite Ec).
      destruct (decide (col (far_child d near) = BLACK)); lia.
  - (* black brother *)
    unfold erase_fixup_side. apply wps_bind. apply (wps_par _ _ q); [exact Hpar|]. rb_read.
    apply wps_bind. change (ptr s) with (ptr (fsib (MkFrame d q cp pk pv s))) at 1.
    eapply wps_color; [exact (rep_sib _ _ _ _ H)|]. cbn [fsib]. rewrite Esc, decide_False by done.
    eapply wps_mono; [apply (erase_black_ok L st0 _ _ _ _ _ _ _ _ _ n H2 Hpar)|]; [done|done|done|done|done|done|].
    intros r st2 (g' & Hi & Hm). apply wps_ret. exists g'. done.
Qed.

Lemma erase_fixup_ok st c t :
  rep st c t -> par_is st t (cptr c) -> (deficient c t \/ settled c t /\ (col t = RED \/ c = [])) ->
  wps (_erase_fixup (ptr t)) st (fun _ st' =>
    exists t', rep st' [] t' /\ rbtree_ok t' /\ elems t' = elems (plug c t) /\ kept st st').
Proof.
  intros H Hpar Hst. unfold _erase_fixup. apply wps_bind.
  apply (wps_while (erase_inv (elems (plug c t)) st) erase_measure _ _ (c, t)).
  - by apply einv_intro.
  - pose proof (rep_fuel _ _ _ H). unfold erase_measure. cbn [fst snd]. destruct c as [|f c]; [lia|]. cbn [length] in *.
    destruct (decide (col t = RED)), (fc f), (decide (col (far_child (fd f) (fsib f)) = BLACK)); lia.
  - intros g q st1 Hi. eapply wps_mono; [by apply erase_step_ok|]. intros [s'|r] st2 Hg; [done|].
    destruct Hg as ([c2 t2] & (-> & H2 & _ & _ & HL & HK) & (n & Hn & Hc)). cbn [fst snd] in *.
    assert (Hok : rbtree_ok (plug c2 (blacken t2))) by (eapply plug_ok; [exact Hc|exact Hn|by rewrite col_blacken]).
    assert (Hel : elems (plug c2 (blacken t2)) = elems (plug c t)).
    { rewrite <- HL. apply elems_plug, elems_blacken. }
    destruct (tree_Nd SL t2) as [->|(a & x & k & v & y & E1)].
    + destruct (rep_null _ _ _ H2) as (nn & Hnn & Hb). eapply wps_update; [exact Hnn|].
      assert (Ewith : with_color BLACK nn = nn) by (destruct nn; cbn in *; by subst). rewrite Ewith, insert_id by done.
      replace (set_heap st2 (heap st2)) with st2 by (by destruct st2).
      exists (plug c2 E). split; [by apply rep_whole|]. done.
    + rewrite E1 in H2, Hok, Hel |- *. rewrite ptr_Nd. eapply recolor_here; [exact H2|]. intros st3 H3 K3.
      rewrite blacken_Nd in Hok, Hel. eexists. split; [apply rep_whole; exact H3|]. split; [done|]. split; [done|].
      eauto using kept_trans.
Qed.

End Erase.
