(* ===== verification/RbUnlink.v ===== *)
(** Taking a node out of the tree: [_rb_transplant], [_tree_minimum] and the
    three cases of [erase]. *)

From S2P Require Import Prelude RbTree RbShape RbInv RbInsert RbFind RbErase.

#[local] Open Scope Z_scope.

Section Unlink.
Context {V : Type}.
Implicit Types (t x y z l r : tree V) (c : ctx V) (f : frame V) (st : RBTree V) (ext X : list Z).

(** The nodes of the heap are the sentinel and those at [X]. *)
Record owns st X : Prop := {
  owns_nodup : NoDup X;
  owns_null : exists n, heap st !! null_node_ = Some n /\ color n = BLACK;
  owns_dom : forall a, is_Some (heap st !! a) <-> a = null_node_ \/ a ∈ X;
  owns_fresh : forall a, a ∈ X -> null_node_ < a < next st;
  owns_next : null_node_ < next st
}.

Lemma rep_owns ext st c t :
  @rep V ext st c t <-> rept (heap st) (cptr c) t /\ repc (heap st) (root_ st) (ptr t) c /\ owns st (ext ++ node_addrs c t).
Proof.
  split.
  - intros [Ht Hc Hnd Hnull Hdom Hfr [Hex He] Hnx]. split; [done|]. split; [done|]. split; try done.
    + apply list.NoDup_app. split; [done|]. split; [|done]. intros a Ha. by apply He.
    + intros a. rewrite elem_of_app. apply Hdom.
    + intros a. rewrite elem_of_app. intros [Ha|Ha]; [by apply He|by apply Hfr].
  - intros (Ht & Hc & [Hnd Hnull Hdom Hfr Hnx]). apply list.NoDup_app in Hnd as (Hex & He & Hnd). split; try done.
    + intros a. rewrite (Hdom a), elem_of_app. tauto.
    + intros a Ha. apply Hfr, elem_of_app. by right.
    + split; [done|]. intros a Ha. split; [apply Hfr, elem_of_app; by left|by apply He].
Qed.

Lemma owns_perm st X Y : X ≡ₚ Y -> owns st X -> owns st Y.
Proof.
  intros HP [H1 H2 H3 H4 H5]. split; try done.
  - by rewrite <- HP.
  - intros a. by rewrite <- HP.
  - intros a. rewrite <- HP. apply H4.
Qed.

Lemma owns_same st st' X :
  owns st X -> same_dom (heap st) (heap st') -> next st' = next st ->
  (exists n, heap st' !! null_node_ = Some n /\ color n = BLACK) -> owns st' X.
Proof.
  intros [H1 H2 H3 H4 H5] Hd Hn Hnull. split; rewrite ?Hn; try done.
  intros a. rewrite (same_dom_look (heap st)) by done. apply H3.
Qed.

Lemma owns_no_null st X : owns st X -> null_node_ ∉ X.
Proof. intros H Hn. pose proof (owns_fresh _ _ H _ Hn). lia. Qed.

(** ** Deleting *)

Lemma delete_ok ext st c t e :
  @rep V (e :: ext) st c t -> @rep V ext (MkRB (base.delete e (heap st)) (root_ st) (next st)) c t.
Proof.
  rewrite !rep_owns. intros (Ht & Hc & [Hnd Hnull Hdom Hfr Hnx]). cbn [heap root_ next].
  cbn [app] in *. apply list.NoDup_cons in Hnd as [He Hnd]. assert (Hen : e <> null_node_) by (specialize (Hfr e ltac:(by left)); lia).
  assert (Hoth : forall a, a <> e -> base.delete e (heap st) !! a = heap st !! a) by (intros a Ha; by rewrite lookup_delete_ne).
  unfold node_addrs in He. rewrite !elem_of_app in He.
  split; [eapply rept_agree; [|exact Ht]; intros a Ha; apply Hoth; intros ->; tauto|].
  split; [eapply repc_agree; [|exact Hc]; intros a Ha; apply Hoth; intros ->; tauto|].
  split; cbn [heap next]; try done.
  - rewrite Hoth by done. done.
  - intros a. destruct (decide (a = e)) as [->|Ha].
    + rewrite lookup_delete_eq. split; [by intros [? ?]|]. intros [?|Hin]; [done|]. exfalso. apply He.
      unfold node_addrs in Hin. rewrite !elem_of_app in Hin. tauto.
    + rewrite Hoth, Hdom, elem_of_cons by done. tauto.
  - intros a Ha. apply Hfr. by right.
Qed.

(** ** Transplanting a node with a leaf on one side *)

Lemma wps_transplant st (old new : Z) n nn c (Q : unit -> RBTree V -> Prop) :
  heap st !! old = Some n -> parent n = cptr c -> repc (heap st) (root_ st) old c ->
  NoDup (caddrs c) -> old ∉ caddrs c -> old <> null_node_ -> null_node_ ∉ caddrs c ->
  heap st !! new = Some nn -> new ∉ caddrs c ->
  (forall st', repc (heap st') (root_ st') new c -> next st' = next st -> same_dom (heap st) (heap st') ->
     (forall a, a ∉ caddrs c -> a <> new -> heap st' !! a = heap st !! a) -> heap st' !! new = Some (with_parent (cptr c) nn) -> Q tt st') ->
  wps (_rb_transplant old new) st Q.
Proof.
  intros Ho Hp Hc Hnd Hoc Hon Hnc Hnew Hnewc HQ. unfold _rb_transplant. apply wps_bind.
  eapply wps_replace_child; [exact Ho|exact Hp|exact Hc|done|done|done|done|]. intros st1 Hc1 Hn1 Hd1 Hag1 _.
  apply wps_bind. eapply wps_get_parent; [rewrite Hag1 by done; exact Ho|]. rewrite Hp.
  eapply wps_update; [rewrite Hag1 by done; exact Hnew|]. apply HQ; cbn [set_heap heap root_ next].
  - by apply repc_insert.
  - done.
  - apply same_dom_insert; [done|]. rewrite Hag1 by done. eauto.
  - intros a Ha Hne. rewrite lookup_insert_ne by done. by apply Hag1.
  - by rewrite lookup_insert_eq.
Qed.

Lemma transplant_leaf ext st c d e co k v y (Q : unit -> RBTree V -> Prop) :
  @rep V ext st c (Nd d e co E k v y) ->
  (forall st', @rep V (e :: ext) st' c y -> par_is st' y (cptr c) -> heap st' !! e = heap st !! e ->
     size (heap st') = size (heap st) -> Q tt st') ->
  wps (_rb_transplant e (ptr y)) st Q.
Proof.
  intros H HQ. pose proof (rep_focus _ _ _ _ _ _ _ _ _ H) as He. pose proof H as H'. rewrite rep_owns in H'.
  destruct H' as (Ht & Hc & Hown). apply rept_Nd in Ht as (_ & _ & Hy). rewrite ptr_Nd in Hc.
  assert (HP : ext ++ node_addrs c (Nd d e co E k v y) ≡ₚ e :: ext ++ addrs y ++ caddrs c).
  { unfold node_addrs. rewrite addrs_Nd. cbn [addrs app]. by rewrite <- Permutation_middle. }
  apply (owns_perm _ _ _ HP) in Hown. pose proof (owns_nodup _ _ Hown) as Hnd. pose proof (owns_no_null _ _ Hown) as Hnn.
  rewrite elem_of_cons, !elem_of_app in Hnn. assert (Hen0 : e <> null_node_) by (intros E1; apply Hnn; by left).
  apply list.NoDup_cons in Hnd as [Hen Hnd]. rewrite !elem_of_app in Hen.
  apply list.NoDup_app in Hnd as (_ & _ & Hnd). apply list.NoDup_app in Hnd as (Hndy & Hyc & Hndc).
  destruct (rep_other_color _ _ _ _ _ _ _ _ _ H) as (ny & Hny & Hcy).
  assert (Hyc' : ptr y ∉ caddrs c) by (destruct (ptr_in_addrs y) as [->|Hin]; [tauto|by apply Hyc]).
  assert (Hey : e <> ptr y) by (intros E1; destruct (ptr_in_addrs y) as [E2|E2]; rewrite <- E1 in E2; tauto).
  eapply wps_transplant; [exact He|by rewrite parent_mk|exact Hc|done|tauto|tauto|tauto|exact Hny|done|].
  intros st' Hc' Hn' Hd' Hag' Hnew'. apply HQ.
  - apply rep_owns. split; [|split; [done|]].
    + destruct y as [|a cy yl yk yv yr]; [done|]. destruct Hy as (Ha & Hyl & Hyr). cbn [ptr] in *. rewrite Ha in Hny. injection Hny as <-.
      split; [exact Hnew'|]. cbn [addrs] in Hndy. apply list.NoDup_cons in Hndy as [Hna _]. rewrite elem_of_app in Hna.
      split; (eapply rept_agree; [|done]); intros b Hb; apply Hag'; try (intros ->; tauto); apply Hyc; right; apply elem_of_app; auto.
    + eapply owns_same; [exact Hown|done|done|]. destruct (owns_null _ _ Hown) as (n0 & Hn0 & Hb0).
      destruct (decide (ptr y = null_node_)) as [E1|E1].
      * rewrite E1 in *. rewrite Hnew'. eexists. split; [done|]. rewrite Hn0 in Hny. injection Hny as <-. done.
      * rewrite Hag'; [eauto|tauto|done].
  - eexists. split; [exact Hnew'|]. split; [done|]. exact Hcy.
  - apply Hag'; tauto.
  - by apply same_dom_size.
Qed.

(** ** The smallest node of a subtree *)

Lemma minimum_ok ext st c t :
  @rep V ext st c t -> t <> E ->
  wps (_tree_minimum (ptr t)) st (fun m st' => st' = st /\
    exists cm mc km vm r, t = plug cm (T m mc E km vm r) /\ @rep V ext st (cm ++ c) (T m mc E km vm r) /\ Forall (fun f => fd f = SL) cm).
Proof.
  intros H Hne.
  apply (wps_while (fun (g : ctx V * tree V) p st' => p = ptr g.2 /\ st' = st /\ g.2 <> E /\ t = plug g.1 g.2 /\
      @rep V ext st (g.1 ++ c) g.2 /\ Forall (fun f => fd f = SL) g.1) (fun g => height g.2) _ _ ([], t)).
  - done.
  - pose proof (rep_fuel _ _ _ H). cbn [snd]. lia.
  - intros [cm x] p st' (-> & -> & Hx & Ht & Hr & HS). cbn [fst snd] in *. destruct x as [|a co l k v r]; [done|].
    unfold minimum_step. pose proof (rep_focus st (cm ++ c) SL a co l k v r Hr) as Ha. cbn [mk] in Ha. cbn [ptr].
    apply wps_bind. eapply wps_get_child; [exact Ha|]. cbn [child left]. destruct l as [|b cl ll lk lv lr].
    + cbn [ptr]. rewrite Z.eqb_refl. apply wps_ret. split; [done|]. by exists cm, co, k, v, r.
    + destruct (Z.eqb_spec (ptr (T b cl ll lk lv lr)) null_node_) as [E1|_].
      { assert (Hin : b ∈ node_addrs (cm ++ c) (T a co (T b cl ll lk lv lr) k v r)) by (cbn; right; by left).
        by destruct (rep_distinct _ _ _ _ Hr Hin). }
      apply wps_ret. exists (MkFrame SL a co k v r :: cm, T b cl ll lk lv lr). split; [|cbn [height snd]; lia].
      cbn [fst snd]. split; [done|]. split; [done|]. split; [done|]. split; [done|]. split; [by apply rep_down|by constructor].
Qed.

(** ** Putting a node in the place of another *)

Lemma replace_ok ext st c e co l k v m mc km vm r (X0 Y0 W0 : Z) (K : RB V (COLOR * Z)) (Q : COLOR * Z -> RBTree V -> Prop) :
  heap st !! e = Some (MkNode k v co (ptr l) X0 (cptr c)) ->
  heap st !! m = Some (MkNode km vm mc Y0 (ptr r) W0) ->
  rept (heap st) e l -> rept (heap st) m r -> repc (heap st) (root_ st) e c -> l <> E ->
  owns st (e :: m :: ext ++ addrs l ++ addrs r ++ caddrs c) ->
  (forall st', @rep V (e :: ext) st' c (T m co l km vm r) -> heap st' !! null_node_ = heap st !! null_node_ ->
     size (heap st') = size (heap st) -> wps K st' Q) ->
  wps (_rb_transplant e m;; el ← get_child SL e; set_child SL m el;; rl ← get_child SL m; set_parent rl m;;
       ec ← get_color e; set_color m ec;; K) st Q.
Proof.
  intros He Hm Hl Hr Hc Hlne Hown HK.
  pose proof (owns_nodup _ _ Hown) as Hnd. pose proof (owns_no_null _ _ Hown) as Hnn. rewrite !elem_of_cons, !elem_of_app in Hnn.
  assert (He0 : e <> null_node_) by (intros E1; apply Hnn; by left). assert (Hm0 : m <> null_node_) by (intros E1; apply Hnn; right; by left).
  apply list.NoDup_cons in Hnd as [Hen Hnd]. apply list.NoDup_cons in Hnd as [Hmn Hnd]. rewrite elem_of_cons, !elem_of_app in Hen.
  rewrite !elem_of_app in Hmn. apply list.NoDup_app in Hnd as (_ & _ & Hnd). apply list.NoDup_app in Hnd as (Hndl & Hlo & Hnd).
  apply list.NoDup_app in Hnd as (Hndr & Hro & Hndc). setoid_rewrite elem_of_app in Hlo.
  apply wps_bind. eapply wps_transplant; [exact He|done|exact Hc|done|tauto|done|tauto|exact Hm|tauto|].
  intros st1 Hc1 Hn1 Hd1 Hag1 Hm1. cbn [with_parent key value color left right] in Hm1.
  assert (He1 : heap st1 !! e = Some (MkNode k v co (ptr l) X0 (cptr c))) by (rewrite Hag1; [done|tauto|tauto]).
  apply wps_bind. eapply wps_get_child; [exact He1|]. cbn [child left].
  apply wps_bind. eapply wps_update; [exact Hm1|]. cbn [with_child key value color left right parent].
  set (st2 := set_heap st1 _). assert (Hm2 : heap st2 !! m = Some (MkNode km vm mc (ptr l) (ptr r) (cptr c))) by (cbn; by rewrite lookup_insert_eq).
  apply wps_bind. eapply wps_get_child; [exact Hm2|]. cbn [child left].
  destruct l as [|b cl ll lk lv lr]; [done|]. set (l := T b cl ll lk lv lr) in *.
  assert (Hbl : b ∈ addrs l) by by left. assert (Hbm : b <> m) by (intros ->; tauto).
  assert (Hl2 : rept (heap st2) e l).
  { cbn [st2 set_heap heap]. apply rept_insert; [tauto|]. eapply rept_agree; [|exact Hl]. intros a Ha. specialize (Hlo a Ha). apply Hag1; [tauto|intros ->; tauto]. }
  pose proof Hl2 as [Hb2 _]. apply wps_bind. eapply wps_update; [exact Hb2|]. set (st3 := set_heap st2 _).
  assert (Hl3 : rept (heap st3) m l) by (cbn [st3 set_heap heap]; apply (rept_set_parent _ e m l); [done|done|done|done]).
  assert (Heb : e <> b) by (intros ->; tauto).
  assert (He3 : heap st3 !! e = Some (MkNode k v co (ptr l) X0 (cptr c))).
  { assert (Hem : m <> e) by (intros ->; tauto). cbn [st3 st2 set_heap heap]. by rewrite !lookup_insert_ne by done. }
  apply wps_bind. eapply wps_get_color; [exact He3|]. cbn [color].
  assert (Hm3 : heap st3 !! m = Some (MkNode km vm mc (ptr l) (ptr r) (cptr c))) by (cbn [st3 set_heap heap]; rewrite lookup_insert_ne; done).
  apply wps_bind. eapply wps_update; [exact Hm3|]. cbn [with_color key value left right parent]. set (st4 := set_heap st3 _).
  assert (Hoth : forall a, a ∉ caddrs c -> a <> m -> a <> b -> heap st4 !! a = heap st !! a).
  { intros a Ha Ham Hab. cbn [st4 st3 st2 set_heap heap]. rewrite !lookup_insert_ne by done. by apply Hag1. }
  assert (Hd4 : same_dom (heap st) (heap st4)).
  { cbn [st4 st3 st2 set_heap heap]. repeat apply same_dom_insert; try done; eauto. }
  assert (Hnull : heap st4 !! null_node_ = heap st !! null_node_).
  { apply Hoth; [tauto|done|]. intros E1. rewrite <- E1 in Hbl. tauto. }
  apply HK; [|exact Hnull|by apply same_dom_size]. apply rep_owns. cbn [rept ptr]. split; [split; [|split]|split].
  - cbn [st4 set_heap heap]. by rewrite lookup_insert_eq.
  - cbn [st4 set_heap heap]. apply rept_insert; [tauto|done].
  - eapply rept_agree; [|exact Hr]. intros a Ha. apply Hoth; [by apply Hro|intros ->; tauto|intros ->; specialize (Hlo _ Hbl); tauto].
  - cbn [st4 st3 st2 set_heap heap root_]. apply repc_insert; [tauto|]. apply repc_insert; [specialize (Hlo _ Hbl); tauto|].
    apply repc_insert; [tauto|]. exact Hc1.
  - eapply owns_same; [|exact Hd4|exact Hn1|rewrite Hnull; apply (owns_null _ _ Hown)].
    eapply owns_perm; [|exact Hown]. unfold node_addrs. cbn [addrs app]. apply perm_skip.
    rewrite <- (Permutation_middle ext). apply perm_skip. by rewrite <- !app_assoc.
Qed.

(** ** The invariants after unlinking *)

Lemma plug_app (cm : ctx V) c t : plug (cm ++ c) t = plug c (plug cm t).
Proof. unfold plug. by rewrite foldl_app. Qed.

Lemma rep_plug_app ext st cm c t : @rep V ext st (cm ++ c) t <-> @rep V ext st c (plug cm t).
Proof. revert t. induction cm as [|f cm IH]; intros t; [done|]. cbn [app plug foldl]. rewrite rep_move. apply IH. Qed.

(** What is left to repair when a node with a leaf on one side is taken out. *)
Definition to_repair (oc : COLOR) c t : Prop :=
  match oc with
  | BLACK => deficient c t \/ settled c t /\ (col t = RED \/ c = [])
  | RED => rbtree_ok (plug c t)
  end.

Lemma unlink_state c d e co k v y : rbtree_ok (plug c (Nd d e co E k v y)) -> to_repair co c y.
Proof.
  intros H. destruct (plug_inv _ _ H) as (n & Hn & Hc & Hr). destruct co; cbn [to_repair].
  - apply rb_red in Hn as (_ & Hy & _ & Ry). eapply plug_ok; [exact Hc|done|by rewrite Hy].
  - destruct n as [|n]; [by destruct d|]. apply rb_black in Hn as [_ Ry]. destruct (col y) eqn:Ey.
    + right. split; [|by left]. exists (S n). split; [|done].
      destruct (rb_red_inv SL y n Ry Ey) as (a & x & k' & v' & z & -> & _ & _ & Rx & Rz). rewrite blacken_Nd. by apply rb_black.
    + left. by exists n.
Qed.

Lemma cok_swap (cm : ctx V) f f' c n :
  fc f = fc f' -> fsib f = fsib f' -> cok (cm ++ f :: c) n <-> cok (cm ++ f' :: c) n.
Proof.
  intros E1 E2. revert n. induction cm as [|g cm IH]; intros n; cbn [app cok]; [by rewrite E1, E2|].
  assert (pcol (cm ++ f :: c) = pcol (cm ++ f' :: c)) as -> by (destruct cm; done).
  assert (Hne : cm ++ f :: c <> [] <-> cm ++ f' :: c <> []) by (by destruct cm). destruct (fc g); rewrite IH; tauto.
Qed.

Lemma to_repair_swap oc (cm : ctx V) f f' c t :
  fc f = fc f' -> fsib f = fsib f' -> to_repair oc (cm ++ f :: c) t -> to_repair oc (cm ++ f' :: c) t.
Proof.
  intros E1 E2. destruct oc; cbn [to_repair].
  - intros H. destruct (plug_inv _ _ H) as (n & Hn & Hc & Hr). eapply plug_ok; [by apply (cok_swap cm f f')|exact Hn|].
    intros Hred. destruct (Hr Hred) as [Hp Hne]. split; [|by destruct cm]. destruct cm; cbn in *; congruence.
  - intros [(n & Hcol & Ht & Hc)|[(n & Ht & Hc) Hs]].
    + left. exists n. split; [done|]. split; [done|]. by apply (cok_swap cm f f').
    + right. split; [exists n; split; [done|]; by apply (cok_swap cm f f')|]. destruct Hs as [|Hs]; [by left|by destruct cm].
Qed.

Lemma before_left (cm : ctx V) : Forall (fun f => fd f = SL) cm -> before cm = [].
Proof. induction 1 as [|f cm Hf _ IH]; [done|]. cbn [before]. by rewrite Hf. Qed.

Lemma elems_min cm m mc km vm r : Forall (fun f => fd f = SL) cm -> elems (plug cm (T m mc E km vm r)) = (km, vm) :: elems (plug cm r).
Proof. intros H. rewrite !elems_around, (before_left cm H). done. Qed.

(** ** [unlink] *)

(** What [unlink] leaves behind: the node [e] is out of the tree. *)
Definition unlinked st0 (L : list (Z * V)) (e : Z) (res : COLOR * Z) st : Prop :=
  exists c t, res.2 = ptr t /\ @rep V [e] st c t /\ par_is st t (cptr c) /\ size (heap st) = size (heap st0) /\
    elems (plug c t) = L /\ to_repair res.1 c t.

Lemma unlink_leaf st c d e co k v y (Q : COLOR * Z -> RBTree V -> Prop) :
  @rep V [] st c (Nd d e co E k v y) -> rbtree_ok (plug c (Nd d e co E k v y)) ->
  (forall st', unlinked st (before c ++ elems y ++ after c) e (co, ptr y) st' -> Q (co, ptr y) st') ->
  wps (_rb_transplant e (ptr y);; mret (co, ptr y)) st Q.
Proof.
  intros H Hok HQ. apply wps_bind. eapply transplant_leaf; [exact H|]. intros st' H' Hpar _ Hsz. apply wps_ret, HQ.
  exists c, y. split; [done|]. split; [done|]. split; [done|]. split; [done|]. split; [apply elems_around|]. by eapply unlink_state.
Qed.

(** The end of the case with two children, common to its two variants: [r'] is
    the right subtree without its smallest node [m]. *)
Lemma unlink_finish st0 st c e co l k v m mc km vm cm r0 oc (X0 Y0 W0 : Z) (Q : COLOR * Z -> RBTree V -> Prop) :
  heap st !! e = Some (MkNode k v co (ptr l) X0 (cptr c)) ->
  heap st !! m = Some (MkNode km vm mc Y0 (ptr (plug cm r0)) W0) ->
  rept (heap st) e l -> rept (heap st) m (plug cm r0) -> repc (heap st) (root_ st) e c -> l <> E ->
  owns st (e :: m :: [] ++ addrs l ++ addrs (plug cm r0) ++ caddrs c) ->
  (r0 = E -> exists n, heap st !! null_node_ = Some n /\ parent n = cptr (cm ++ [MkFrame SR m co km vm l])) ->
  to_repair oc (cm ++ MkFrame SR m co km vm l :: c) r0 -> size (heap st) = size (heap st0) ->
  (forall st', unlinked st0 (before c ++ elems l ++ (km, vm) :: elems (plug cm r0) ++ after c) e (oc, ptr r0) st' -> Q (oc, ptr r0) st') ->
  wps (_rb_transplant e m;; el ← get_child SL e; set_child SL m el;; rl ← get_child SL m; set_parent rl m;;
       ec ← get_color e; set_color m ec;; mret (oc, ptr r0)) st Q.
Proof.
  intros He Hm Hl Hr Hc Hne Hown Hnull Hrep Hsz HQ.
  eapply (replace_ok []); [exact He|exact Hm|exact Hl|exact Hr|exact Hc|exact Hne|exact Hown|].
  intros st' H' Hn' Hsz'. apply wps_ret, HQ. exists (cm ++ MkFrame SR m co km vm l :: c), r0.
  assert (H2 : @rep V [e] st' (cm ++ MkFrame SR m co km vm l :: c) r0) by (apply rep_plug_app, rep_down; exact H').
  split; [done|]. split; [done|]. split; [|split; [cbn; congruence|split; [|done]]].
  - assert (Ecp : cptr (cm ++ MkFrame SR m co km vm l :: c) = cptr (cm ++ [MkFrame SR m co km vm l])) by (by destruct cm).
    destruct r0 as [|a0 c0 l0 k0 v0 r0]; [|by eapply par_is_here]. destruct (Hnull eq_refl) as (n & Hn & Hp).
    exists n. cbn [ptr col]. rewrite Hn', Ecp. split; [done|]. split; [done|]. destruct (owns_null _ _ Hown) as (n2 & Hn2 & Hb). congruence.
  - rewrite plug_app. change (plug (_ :: c) ?t) with (plug c (T m co l km vm t)). rewrite (elems_around c).
    cbn [elems]. rewrite <- ?app_assoc. cbn [app]. by rewrite <- ?app_assoc.
Qed.

(** The smallest node is the right child itself. *)
Lemma unlink_near st c e co l k v m mc km vm r0 (Q : COLOR * Z -> RBTree V -> Prop) :
  @rep V [] st c (T e co l k v (T m mc E km vm r0)) -> l <> E ->
  rbtree_ok (plug c (T e co l k v (T m mc E km vm r0))) ->
  (forall st', unlinked st (before c ++ elems l ++ (km, vm) :: elems r0 ++ after c) e (mc, ptr r0) st' -> Q (mc, ptr r0) st') ->
  wps (set_parent (ptr r0) m;; _rb_transplant e m;; el ← get_child SL e; set_child SL m el;; rl ← get_child SL m; set_parent rl m;;
       ec ← get_color e; set_color m ec;; mret (mc, ptr r0)) st Q.
Proof.
  intros H Hl Hok HQ. pose proof H as H'. rewrite rep_owns in H'. destruct H' as ((He & Hrl & Hm & _ & Hr0) & Hc & Hown).
  cbn [ptr] in *. cbn [app] in Hown.
  assert (Hown' : owns st (e :: m :: [] ++ addrs l ++ addrs r0 ++ caddrs c)).
  { eapply owns_perm; [|exact Hown]. unfold node_addrs. cbn [addrs app]. rewrite <- app_assoc. cbn [app]. apply perm_skip.
    by rewrite <- Permutation_middle. }
  pose proof (owns_nodup _ _ Hown') as Hnd. cbn [app] in Hnd. apply list.NoDup_cons in Hnd as [Hen Hnd]. apply list.NoDup_cons in Hnd as [Hmn Hnd].
  rewrite elem_of_cons, !elem_of_app in Hen. rewrite !elem_of_app in Hmn. pose proof (owns_no_null _ _ Hown') as Hnn.
  cbn [app] in Hnn. rewrite !elem_of_cons, !elem_of_app in Hnn.
  apply list.NoDup_app in Hnd as (_ & Hlo & Hnd). setoid_rewrite elem_of_app in Hlo. apply list.NoDup_app in Hnd as (Hnr & Hro & _).
  assert (Hpn : exists n, heap st !! ptr r0 = Some n /\ color n = col r0).
  { destruct r0 as [|a0 c0 l0 k0 v0 rr]; [apply (owns_null _ _ Hown)|]. destruct Hr0 as [Ha0 _]. eauto. }
  destruct Hpn as (n & Hn & Hcol). apply wps_bind. eapply wps_update; [exact Hn|].
  assert (Hpr : ptr r0 = null_node_ \/ ptr r0 ∈ addrs r0) by apply ptr_in_addrs.
  assert (Hpe : ptr r0 <> e) by (intros E1; rewrite E1 in Hpr; destruct Hpr as [E2|]; [apply Hnn; left; done|tauto]).
  assert (Hpm : ptr r0 <> m) by (intros E1; rewrite E1 in Hpr; destruct Hpr as [E2|]; [apply Hnn; right; left; done|tauto]).
  eapply (unlink_finish st _ c e co l k v m mc km vm [] r0 mc); cbn [set_heap heap root_ plug foldl].
  - rewrite lookup_insert_ne by done. exact He.
  - rewrite lookup_insert_ne by done. exact Hm.
  - apply rept_insert; [|done]. intros Hin. destruct Hpr as [E1|E1]; [rewrite E1 in Hin; tauto|]. specialize (Hlo _ Hin). tauto.
  - destruct r0 as [|a0 c0 l0 k0 v0 rr]; [done|]. eapply rept_set_parent; [exact Hr0|done|exact Hn|done].
  - apply repc_insert; [|done]. intros Hin. destruct Hpr as [E1|E1]; [rewrite E1 in Hin; tauto|]. by apply (Hro _ E1).
  - done.
  - eapply owns_same; [exact Hown'|apply same_dom_insert; [done|eauto]|done|]. cbn [set_heap heap].
    destruct (decide (ptr r0 = null_node_)) as [E1|E1]; [|rewrite lookup_insert_ne by done; apply (owns_null _ _ Hown)].
    rewrite E1 in *. rewrite lookup_insert_eq. eexists. split; [done|]. destruct (owns_null _ _ Hown) as (n2 & Hn2 & Hb). cbn. congruence.
  - intros ->. cbn [ptr]. rewrite lookup_insert_eq. eexists. split; [done|]. done.
  - apply (to_repair_swap mc [] (MkFrame SR e co k v l)); [done|done|]. eapply (unlink_state _ SL). exact Hok.
  - rewrite map_size_insert_Some; eauto.
  - exact HQ.
Qed.

(** The smallest node lies deeper; it is transplanted first. *)
Lemma unlink_far st c e co l k v m mc km vm f1 cm r0 (Q : COLOR * Z -> RBTree V -> Prop) :
  let C := (f1 :: cm) ++ MkFrame SR e co k v l :: c in
  @rep V [] st C (T m mc E km vm r0) -> l <> E -> rbtree_ok (plug C (T m mc E km vm r0)) ->
  (forall st', unlinked st (before c ++ elems l ++ (km, vm) :: elems (plug (f1 :: cm) r0) ++ after c) e (mc, ptr r0) st' -> Q (mc, ptr r0) st') ->
  wps (_rb_transplant m (ptr r0);; er ← get_child SR e; set_child SR m er;; rr ← get_child SR m; set_parent rr m;;
       _rb_transplant e m;; el ← get_child SL e; set_child SL m el;; rl ← get_child SL m; set_parent rl m;;
       ec ← get_color e; set_color m ec;; mret (mc, ptr r0)) st Q.
Proof.
  intros C H Hl Hok HQ. pose proof (rep_focus st C SL m mc E km vm r0 H) as Hm. cbn [mk ptr] in Hm.
  apply wps_bind. eapply (transplant_leaf [] st C SL); [exact H|]. intros st1 H1 Hpar Hm1 Hsz1. rewrite Hm in Hm1.
  unfold C in H1. apply rep_plug_app, rep_up in H1. unfold plug1 in H1. cbn [fd fa fc fk fv fsib Nd] in H1.
  set (r := plug (f1 :: cm) r0) in *. pose proof H1 as H'. rewrite rep_owns in H'. destruct H' as ((He & Hrl & Hr) & Hc & Hown).
  cbn [ptr] in Hc.
  assert (Hown' : owns st1 (e :: m :: [] ++ addrs l ++ addrs r ++ caddrs c)).
  { eapply owns_perm; [|exact Hown]. unfold node_addrs. cbn [addrs app]. rewrite <- app_assoc. apply perm_swap. }
  pose proof (owns_nodup _ _ Hown') as Hnd. cbn [app] in Hnd. apply list.NoDup_cons in Hnd as [Hen Hnd]. apply list.NoDup_cons in Hnd as [Hmn Hnd].
  rewrite elem_of_cons, !elem_of_app in Hen. rewrite !elem_of_app in Hmn. pose proof (owns_no_null _ _ Hown') as Hnn.
  cbn [app] in Hnn. rewrite !elem_of_cons, !elem_of_app in Hnn.
  apply list.NoDup_app in Hnd as (_ & Hlo & Hnd). setoid_rewrite elem_of_app in Hlo. apply list.NoDup_app in Hnd as (Hnr & Hro & _).
  assert (Hrne : r <> E) by (unfold r; cbn [plug foldl]; apply plug_nonempty; unfold plug1; by destruct (fd f1)).
  destruct r as [|b cb bl bk bv br] eqn:Er; [done|]. rewrite <- Er in *.
  assert (Hptr : ptr r = b) by by rewrite Er. assert (Hbr : b ∈ addrs r) by (rewrite Er; by left).
  apply wps_bind. eapply wps_get_child; [exact He|]. cbn [child right].
  apply wps_bind. eapply wps_update; [exact Hm1|]. cbn [with_child key value color left right parent].
  assert (Hme : m <> e) by (intros ->; tauto). assert (Hmb : m <> b) by (intros ->; tauto). assert (Heb : b <> e) by (intros ->; tauto).
  apply wps_bind. eapply wps_get_child; [cbn [set_heap heap]; by rewrite lookup_insert_eq|]. cbn [child right].
  assert (Hb : exists nb, heap st1 !! ptr r = Some nb) by (rewrite Er in Hr |- *; destruct Hr as [Hb _]; eauto). destruct Hb as (nb & Hb).
  apply wps_bind. eapply wps_update; [cbn [set_heap heap]; rewrite lookup_insert_ne by (by rewrite Hptr); exact Hb|].
  eapply (unlink_finish st _ c e co l k v m mc km vm (f1 :: cm) r0 mc); fold r; cbn [set_heap heap root_].
  - rewrite !lookup_insert_ne by (by rewrite ?Hptr). exact He.
  - rewrite lookup_insert_ne by (by rewrite Hptr). by rewrite lookup_insert_eq.
  - apply rept_insert; [rewrite Hptr; intros Hin; specialize (Hlo _ Hin); tauto|]. apply rept_insert; [tauto|done].
  - eapply rept_set_parent; [apply rept_insert; [tauto|exact Hr]|done|rewrite lookup_insert_ne by (by rewrite Hptr); exact Hb|by rewrite Er].
  - apply repc_insert; [rewrite Hptr; by apply Hro|]. apply repc_insert; [tauto|done].
  - done.
  - eapply owns_same; [exact Hown'| |done|]; cbn [set_heap heap].
    + apply same_dom_insert; [apply same_dom_insert; [done|eauto]|]. rewrite lookup_insert_ne by (by rewrite Hptr). eauto.
    + rewrite !lookup_insert_ne; [apply (owns_null _ _ Hown)|intros E1; apply Hnn; right; by left|].
      rewrite Hptr. intros E1. rewrite E1 in Hbr. tauto.
  - intros ->. destruct Hpar as (n & Hn & Hp & _). exists n. cbn [ptr] in Hn. split; [|exact Hp].
    rewrite !lookup_insert_ne; [done|intros E1; apply Hnn; right; by left|]. rewrite Hptr. intros E1. rewrite E1 in Hbr. tauto.
  - apply (to_repair_swap mc (f1 :: cm) (MkFrame SR e co k v l)); [done|done|]. eapply (unlink_state _ SL). exact Hok.
  - rewrite map_size_insert_Some by (rewrite lookup_insert_ne by (by rewrite Hptr); eauto). rewrite map_size_insert_Some; eauto.
  - exact HQ.
Qed.

Lemma bind_flat {A B C} (m : RB V A) (k : A -> RB V B) (k' : B -> RB V C) s : ((m ≫= k) ≫= k') s = (m ≫= (fun a => k a ≫= k')) s.
Proof. unfold mbind, RB_bind. by destruct (m s) as [[a s']|e]. Qed.

Lemma bind_cong {A B} (m : RB V A) (k k' : A -> RB V B) s : (forall a s', k a s' = k' a s') -> (m ≫= k) s = (m ≫= k') s.
Proof. intros H. unfold mbind, RB_bind. by destruct (m s) as [[a s']|e]. Qed.

Lemma wps_eq {A} (m m' : RB V A) st (Q : A -> RBTree V -> Prop) : m' st = m st -> wps m st Q -> wps m' st Q.
Proof. intros E1 (a & st' & E2 & H). exists a, st'. by rewrite E1. Qed.

Lemma tree_case t : t = E \/ t <> E.
Proof. destruct t; auto. Qed.

Lemma unlink_ok st c e co l k v r :
  @rep V [] st c (T e co l k v r) -> rbtree_ok (plug c (T e co l k v r)) ->
  wps (unlink e) st (unlinked st (before c ++ elems l ++ elems r ++ after c) e).
Proof.
  intros H Hok. pose proof (rep_focus st c SL e co l k v r H) as He. cbn [mk] in He. unfold unlink.
  rb_read. cbn [color]. do 2 (rb_read; cbn [child left right]).
  assert (Hnull : forall x b, x <> E -> (forall a, a ∈ addrs x -> a ∈ node_addrs c (T e co l k v r)) -> ptr x = b -> b <> null_node_).
  { intros x b Hx Hin <-. destruct x as [|b cx xl xk xv xr]; [done|]. assert (E1 : b ∈ addrs (T b cx xl xk xv xr)) by by left.
    by destruct (rep_distinct _ _ _ _ H (Hin _ E1)). }
  destruct (tree_case l) as [->|Hl].
  { cbn [ptr]. rewrite Z.eqb_refl. rb_read. cbn [child right]. eapply (unlink_leaf _ _ SL); [exact H|exact Hok|done]. }
  assert (Hpl : ptr l <> null_node_).
  { apply (Hnull l); [done| |done]. intros a Ha. right. rewrite !elem_of_app. auto. }
  destruct (Z.eqb_spec (ptr l) null_node_); [done|]. destruct (tree_case r) as [->|Hr].
  { cbn [ptr]. rewrite Z.eqb_refl. rb_read. cbn [child left]. eapply (unlink_leaf _ _ SR); [exact H|exact Hok|done]. }
  assert (Hpr : ptr r <> null_node_).
  { apply (Hnull r); [done| |done]. intros a Ha. right. rewrite !elem_of_app. auto. }
  destruct (Z.eqb_spec (ptr r) null_node_); [done|]. rb_read. cbn [child right].
  assert (H1 : @rep V [] st (MkFrame SR e co k v l :: c) r) by by apply rep_down.
  apply wps_bind. eapply wps_mono; [by apply (minimum_ok _ _ _ _ H1)|]. cbv beta.
  intros m st' (-> & cm & mc & km & vm & r0 & -> & Hm & HS).
  pose proof (rep_focus st _ SL m mc E km vm r0 Hm) as Hmm. cbn [mk ptr] in Hmm.
  do 3 (rb_read; cbn [color child right parent]). rewrite (elems_min cm) by done.
  destruct cm as [|f1 cm].
  - cbn [app cptr fa]. rewrite Z.eqb_refl. eapply unlink_near; [exact H|done|exact Hok|done].
  - cbn [app cptr]. destruct (Z.eqb_spec (fa f1) e) as [E1|_].
    { pose proof (rep_nodup _ _ _ Hm) as Hnd. unfold node_addrs in Hnd. apply list.NoDup_app in Hnd as (_ & _ & Hnd).
      cbn [app caddrs] in Hnd. exfalso. apply list.NoDup_cons in Hnd as [Hn _]. apply Hn. rewrite E1.
      rewrite elem_of_app. right. clear. induction cm as [|g cm IH]; [by left|]. right. rewrite elem_of_app. by right. }
    eapply wps_eq; [apply bind_flat|]. rb_read. cbn [child right].
    eapply wps_eq; [|eapply (unlink_far st c e co l k v m mc km vm f1 cm r0); [exact Hm|done| |done]].
    + repeat (rewrite bind_flat; apply bind_cong; intros). done.
    + rewrite plug_app. exact Hok.
Qed.

Lemma erase_ok st t k :
  @rep V [] st [] t -> rbtree_ok t -> bst t ->
  wps (erase k) st (fun b st' => exists t', @rep V [] st' [] t' /\ rbtree_ok t' /\
    match b with
    | true => exists c a co l v r, plug c (T a co l k v r) = t /\ elems t' = before c ++ elems l ++ elems r ++ after c /\
        size (heap st) = S (size (heap st'))
    | false => (k ∉ (elems t).*1) /\ st' = st
    end).
Proof.
  intros H Hok Hb. unfold erase. apply wps_bind. eapply wps_mono; [by apply (rb_find_ok (ext := []) st t k)|]. cbv beta.
  intros p st1 (-> & [(-> & Hk)|(c & co & l & v & r & Hp & Hr & Ht)]).
  { cbn. apply wps_ret. eauto. }
  destruct (Z.eqb_spec p nullptr); [done|]. apply wps_bind. eapply wps_mono; [eapply unlink_ok; [exact Hr|by rewrite Ht]|].
  intros [oc s] st1 (c1 & t1 & Hs & H1 & Hpar & Hsz & Hel & Hrp). cbn [fst snd] in *. subst s. apply wps_bind.
  apply (wps_mono _ _ (fun _ st2 => exists t2, @rep V [p] st2 [] t2 /\ rbtree_ok t2 /\ elems t2 = elems (plug c1 t1) /\ size (heap st2) = size (heap st1))).
  - destruct oc; cbn [to_repair] in Hrp.
    + destruct (decide (RED = BLACK)); [done|]. apply wps_ret. exists (plug c1 t1). split; [by apply rep_whole|]. done.
    + destruct (decide (BLACK = BLACK)); [|done]. eapply wps_mono; [by apply (erase_fixup_ok (ext := [p]) _ _ _ H1)|]. cbv beta.
      intros _ st2 (t2 & H2 & Hok2 & He2 & _ & Hs2). eauto 6.
  - intros _ st2 (t2 & H2 & Hok2 & He2 & Hs2). apply wps_bind. exists tt. eexists. split; [reflexivity|]. apply wps_ret.
    exists t2. split; [by apply delete_ok|]. split; [done|]. exists c, p, co, l, v, r. split; [done|]. split; [congruence|].
    cbn [heap]. rewrite <- Hsz, <- Hs2.
    assert (Hin : is_Some (heap st2 !! p)) by (apply (rep_dom _ _ _ H2); right; left; by left). destruct Hin as [n2 Hn2].
    rewrite map_size_delete, Hn2. pose proof (map_size_ne_0_lookup (heap st2)) as Hz.
    assert (size (heap st2) <> 0%nat) by (apply map_size_ne_0_lookup; eauto). lia.
Qed.

End Unlink.
