(* ===== verification/RbSpec.v ===== *)
(** The red-black tree refines a finite map: whatever sequence of operations is
    run on a new tree, nothing faults, the results are those of a map, the
    red-black invariants hold in every state, and the destructor frees every
    node.  The invariants bound the height. *)

From stdpp Require Import sorting.
From S2P Require Import Prelude RbTree RbShape RbInv RbInsert RbFind RbErase RbUnlink.

#[local] Open Scope Z_scope.

Section Spec.
Context {V : Type}.
Implicit Types (t l r : tree V) (c : ctx V) (st : RBTree V) (k : Z) (v : V) (M : gmap Z V).

(** The tree in the heap of [st] is a red-black search tree with the elements of
    [M]; the heap holds its nodes and the sentinel and nothing else. *)
Definition represents st M : Prop :=
  exists t, @rep V [] st [] t /\ rbtree_ok t /\ bst t /\ M = list_to_map (elems t).

(** ** Sorted lists as maps *)

Lemma sorted_keys (L : list (Z * V)) : StronglySorted key_lt L -> NoDup L.*1.
Proof.
  induction 1 as [|p L _ IH Hp]; cbn; constructor; [|done]. rewrite list_elem_of_fmap. intros (q & E1 & Hq).
  rewrite list.Forall_forall in Hp. specialize (Hp q Hq). unfold key_lt in Hp. lia.
Qed.

(** A list of pairs with one pair put in the middle. *)
Lemma map_middle (A B : list (Z * V)) k v :
  NoDup (A ++ (k, v) :: B).*1 ->
  (list_to_map (A ++ (k, v) :: B) : gmap Z V) = <[k := v]> (list_to_map (A ++ B)) /\
  (list_to_map (A ++ B) : gmap Z V) !! k = None.
Proof.
  intros Hnd. assert (HP : A ++ (k, v) :: B ≡ₚ (k, v) :: A ++ B) by (symmetry; apply Permutation_middle).
  split; [by rewrite (list_to_map_proper _ _ Hnd HP)|]. apply not_elem_of_list_to_map_1. rewrite HP in Hnd. by apply list.NoDup_cons in Hnd as [? _].
Qed.

Lemma sorted_middle (A B : list (Z * V)) k v :
  StronglySorted key_lt (A ++ B) -> Forall (fun p => p.1 < k) A -> Forall (fun p => k < p.1) B -> StronglySorted key_lt (A ++ (k, v) :: B).
Proof.
  rewrite !StronglySorted_app. intros (HAB & HA & HB) H1 H2. split; [|split; [done|]].
  - intros p q Hp. rewrite elem_of_cons. intros [->|Hq]; [|by apply HAB]. rewrite list.Forall_forall in H1. by apply H1.
  - constructor; [done|]. exact H2.
Qed.

Lemma sorted_without (A B : list (Z * V)) p : StronglySorted key_lt (A ++ p :: B) -> StronglySorted key_lt (A ++ B).
Proof.
  rewrite !StronglySorted_app. intros (HAB & HA & HB). apply StronglySorted_inv in HB as [HB _]. split; [|done].
  intros a b Ha Hb. apply HAB; [done|by right].
Qed.

(** ** The operations *)

Lemma represents_find st M k :
  represents st M ->
  wps (find k) st (fun p st' => st' = st /\
    match M !! k with
    | Some v => p <> nullptr /\ exists n, heap st !! p = Some n /\ key n = k /\ value n = v
    | None => p = nullptr
    end).
Proof.
  intros (t & H & Hok & Hb & ->). eapply wps_mono; [by apply (rb_find_ok (ext := []) st t k)|]. cbv beta.
  intros p st' (-> & Hp). split; [done|]. destruct Hp as [[-> Hk]|(c & co & l & v & r & Hp & Hr & <-)].
  - by rewrite (not_elem_of_list_to_map_1 _ _ Hk).
  - rewrite (elem_of_list_to_map_1 _ k v); [|by apply sorted_keys|rewrite elems_around; cbn [elems]; rewrite !elem_of_app, elem_of_cons; auto].
    split; [done|]. pose proof (rep_focus st c SL p co l k v r Hr) as Hn. eauto.
Qed.

Lemma represents_erase st M k :
  represents st M ->
  wps (erase k) st (fun b st' => b = bool_decide (is_Some (M !! k)) /\ represents st' (base.delete k M)).
Proof.
  intros (t & H & Hok & Hb & ->). eapply wps_mono; [by apply (erase_ok st t k)|]. cbv beta.
  intros [|] st' (t' & H' & Hok' & Hr).
  - destruct Hr as (c & a & co & l & v & r & <- & Hel & _). unfold bst in Hb. rewrite elems_around in Hb |- *. cbn [elems] in Hb |- *.
    assert (E1 : forall X, before c ++ (elems l ++ X :: elems r) ++ after c = (before c ++ elems l) ++ X :: elems r ++ after c).
    { intros X. rewrite <- !app_assoc. done. }
    rewrite E1 in Hb |- *. destruct (map_middle _ _ k v (sorted_keys _ Hb)) as [-> Hn].
    rewrite lookup_insert_eq, bool_decide_true by eauto. split; [done|]. rewrite delete_insert_id by done.
    apply sorted_without in Hb. rewrite app_assoc in Hel. rewrite <- Hel in Hb |- *. by exists t'.
  - destruct Hr as [Hk ->]. apply (not_elem_of_list_to_map_1 (M := gmap Z)) in Hk. rewrite Hk, bool_decide_false by (by intros [? ?]).
    split; [done|]. rewrite delete_id by done. by exists t.
Qed.

(** The search of [insert] and what follows when the key is new. *)
Lemma represents_link st t k v (K : RB V unit) (Q : unit -> RBTree V -> Prop) :
  @rep V [] st [] t -> rbtree_ok t -> bst t ->
  (forall st', (list_to_map (elems t) : gmap Z V) !! k = None -> represents st' (<[k := v]> (list_to_map (elems t))) -> Q tt st') ->
  (is_Some ((list_to_map (elems t) : gmap Z V) !! k) -> wps K st Q) ->
  wps (r ← get_root; found ← while_tree (insert_search_step k) (r, null_node_);
       match found with Some p => link_new k v p | None => K end) st Q.
Proof.
  intros H Hok Hb HQ HK. eapply wps_eq; [symmetry; apply bind_flat|]. apply wps_bind.
  eapply wps_mono; [by apply (insert_search_ok (ext := []) st t k)|]. cbv beta. intros [p|] st' (-> & Hs).
  - destruct Hs as (c & -> & Hc & <- & Hl). eapply wps_mono; [by apply (link_new_ok (ext := []))|]. cbv beta.
    intros [] st' (t' & H' & Hok' & Hel & _). unfold bst in Hb. rewrite elems_around in Hb, HQ. cbn [elems app] in Hb, HQ.
    destruct Hl as [Hl1 Hl2]. pose proof (sorted_middle _ _ k v Hb Hl1 Hl2) as Hb'.
    destruct (map_middle _ _ k v (sorted_keys _ Hb')) as [E1 Hn]. apply HQ; [done|]. exists t'. unfold bst. rewrite Hel. by split.
  - apply HK. apply list_elem_of_fmap in Hs as ([j w] & -> & Hs). exists w. apply elem_of_list_to_map_1; [by apply sorted_keys|done].
Qed.

Lemma represents_insert st M k v :
  represents st M -> wps (insert k v) st (fun _ st' => represents st' (<[k := v]> M)).
Proof.
  intros (t & H & Hok & Hb & ->). unfold insert. cbn [insert_calls]. eapply represents_link; [done|done|done|by auto|].
  intros Hk. apply wps_bind. eapply wps_mono; [apply (represents_erase st (list_to_map (elems t)) k); by exists t|]. cbv beta.
  intros b st1 (_ & t1 & H1 & Hok1 & Hb1 & E1). rewrite <- (insert_delete_eq _ k v), E1.
  eapply represents_link; [done|done|done|by auto|]. rewrite <- E1, lookup_delete_eq. by intros [? ?].
Qed.

Lemma represents_empty st M : represents st M -> wps empty st (fun b st' => st' = st /\ b = bool_decide (M = ∅)).
Proof.
  intros (t & H & _ & _ & ->). unfold empty. apply wps_bind, wps_root, wps_ret. split; [done|].
  pose proof (rep_c _ _ _ H) as Hroot. cbn [repc] in Hroot. rewrite Hroot. destruct t as [|a co l k v r].
  - by rewrite bool_decide_true.
  - destruct (rep_distinct _ _ _ a H ltac:(by left)) as [Ha _]. cbn [ptr]. destruct (Z.eqb_spec null_node_ a); [congruence|].
    symmetry. apply bool_decide_false. intros E1. assert (Hk : (list_to_map (elems (T a co l k v r)) : gmap Z V) !! k = None) by by rewrite E1.
    apply not_elem_of_list_to_map_2 in Hk. apply Hk. cbn. rewrite fmap_app, elem_of_app. right. by left.
Qed.

Lemma represents_new (nv : V) : represents (new_tree nv) ∅.
Proof.
  exists E. split; [|split; [split; [done|by exists 0%nat]|split; [constructor|done]]].
  split; cbn [rept repc ptr new_tree heap root_ next node_addrs addrs caddrs]; try done.
  - constructor.
  - rewrite lookup_singleton_eq. eauto.
  - intros a. rewrite lookup_singleton_is_Some. cbn. split; [intros <-; by left|]. intros [->|[Ha|Ha]]; [done|by apply elem_of_nil in Ha|by apply elem_of_nil in Ha].
  - intros a Ha. by apply elem_of_nil in Ha.
  - split; [constructor|]. intros a Ha. by apply elem_of_nil in Ha.
Qed.

(** ** The destructor *)

Lemma destroy_ok fuel st p t :
  rept (heap st) p t -> NoDup (addrs t) -> null_node_ ∉ addrs t -> (height t < fuel)%nat ->
  wps (destroy fuel (ptr t)) st (fun _ st' => forall a, heap st' !! a = if decide (a ∈ addrs t) then None else heap st !! a).
Proof.
  revert st p t. induction fuel as [|fuel IH]; intros st p t Ht Hnd Hnn Hf; [lia|]. cbn [destroy].
  destruct t as [|b co l k v r]; cbn [ptr addrs height] in *.
  { apply wps_ret. intros a. by rewrite decide_False by (intros Ha; by apply elem_of_nil in Ha). }
  rewrite elem_of_cons, elem_of_app in Hnn. destruct Ht as (Hb & Hl & Hr). apply list.NoDup_cons in Hnd as [Hbn Hnd].
  rewrite elem_of_app in Hbn. apply list.NoDup_app in Hnd as (Hndl & Hlr & Hndr).
  destruct (Z.eqb_spec b null_node_); [subst; tauto|]. rb_read. cbn [child left].
  apply wps_bind. eapply wps_mono; [apply (IH st b l); [done|done|tauto|lia]|]. cbv beta. intros _ st1 H1.
  assert (Hb1 : heap st1 !! b = Some (MkNode k v co (ptr l) (ptr r) p)) by (rewrite H1, decide_False; tauto).
  rb_read. cbn [child right]. apply wps_bind. eapply wps_mono; [apply (IH st1 b r); [|done|tauto|lia]|].
  { eapply rept_agree; [|exact Hr]. intros a Ha. rewrite H1, decide_False; [done|]. intros Hal. by apply (Hlr a). }
  cbv beta. intros _ st2 H2. exists tt. eexists. split; [reflexivity|]. intros a. cbn [heap].
  destruct (decide (a = b)) as [->|Hab]; [rewrite lookup_delete_eq; by rewrite decide_True by by left|].
  rewrite lookup_delete_ne, H2, H1 by done. repeat case_decide; try done; rewrite elem_of_cons, elem_of_app in *; tauto.
Qed.

Lemma represents_destroy st M : represents st M -> wps destroy_tree st (fun _ st' => heap st' = ∅).
Proof.
  intros (t & H & _). pose proof (rep_c _ _ _ H) as Hroot. cbn [repc] in Hroot. unfold destroy_tree. apply wps_bind, wps_root. rewrite Hroot.
  assert (Hf : (height t < S (size (heap st)))%nat).
  { rewrite (rep_size _ _ _ H). unfold node_addrs. rewrite length_app. pose proof (height_addrs t). lia. }
  pose proof (rep_nodup _ _ _ H) as Hnd. pose proof (rep_dom _ _ _ H) as Hdom. pose proof (rep_fresh _ _ _ H) as Hfr.
  unfold node_addrs in *. cbn [caddrs mbind list_bind] in *. rewrite app_nil_r in *.
  apply wps_bind. eapply wps_mono; [eapply (destroy_ok _ st _ t (rep_t _ _ _ H)); [done| |exact Hf]|].
  { intros Hn. specialize (Hfr _ Hn). lia. }
  cbv beta. intros _ st' H'. exists tt. eexists. split; [reflexivity|]. cbn [heap]. apply map_eq. intros a. rewrite lookup_empty.
  destruct (decide (a = null_node_)) as [->|Ha]; [by rewrite lookup_delete_eq|]. rewrite lookup_delete_ne, H' by done.
  case_decide as Hin; [done|]. apply eq_None_not_Some. rewrite Hdom. intros [?|[Hn|?]]; [done|by apply elem_of_nil in Hn|done].
Qed.

(** ** Height *)

Lemma length_elems t n : rb t n -> (2 ^ n <= length (elems t) + 1)%nat.
Proof.
  revert n. induction t as [|a [] l IHl k v r IHr]; intros n H; cbn [rb elems] in *.
  - subst n. cbn. lia.
  - destruct H as (_ & _ & Hl & Hr). rewrite length_app. cbn [length]. specialize (IHl n Hl). lia.
  - destruct n as [|n]; [done|]. destruct H as [Hl Hr]. rewrite length_app. cbn [length]. specialize (IHl n Hl). specialize (IHr n Hr).
    rewrite Nat.pow_succ_r'. lia.
Qed.

Lemma height_rb t n : rb t n -> (height t <= 2 * n + match col t with RED => 1 | BLACK => 0 end)%nat.
Proof.
  revert n. induction t as [|a [] l IHl k v r IHr]; intros n H; cbn [rb height col] in *; [lia| |].
  - destruct H as (Hl1 & Hr1 & Hl & Hr). specialize (IHl n Hl). specialize (IHr n Hr). rewrite Hl1 in IHl. rewrite Hr1 in IHr. lia.
  - destruct n as [|n]; [done|]. destruct H as [Hl Hr]. specialize (IHl n Hl). specialize (IHr n Hr). destruct (col l), (col r); lia.
Qed.

Lemma rb_height_size t : rbtree_ok t -> bst t ->
  (2 ^ height t <= (size (list_to_map (elems t) : gmap Z V) + 1) ^ 2)%nat.
Proof.
  intros (Hc & n & Hn) Hb. rewrite map_size_list_to_map by by apply sorted_keys. pose proof (length_elems t n Hn) as H1.
  pose proof (height_rb t n Hn) as H2. rewrite Hc in H2.
  transitivity (2 ^ (2 * n))%nat; [apply Nat.pow_le_mono_r; lia|].
  rewrite (Nat.mul_comm 2 n), Nat.pow_mul_r. by apply Nat.pow_le_mono_l.
Qed.

End Spec.

(** ** Sequences of operations *)

Section Sequences.
Context {V : Type}.

Inductive op := OInsert (k : Z) (v : V) | OErase (k : Z) | OFind (k : Z) | OEmpty.

(** What a caller sees: [find] gives the value of the node, if any. *)
Inductive answer := AUnit | ABool (b : bool) | AValue (v : option V).

Definition run_op (o : op) : RB V answer :=
  match o with
  | OInsert k v => insert k v;; mret AUnit
  | OErase k => b ← erase k; mret (ABool b)
  | OFind k => p ← find k; if p =? nullptr then mret (AValue None) else n ← load p; mret (AValue (Some (value n)))
  | OEmpty => b ← empty; mret (ABool b)
  end.

Fixpoint run_ops (os : list op) : RB V (list answer) :=
  match os with
  | [] => mret []
  | o :: os => a ← run_op o; l ← run_ops os; mret (a :: l)
  end.

(** The same on a finite map. *)
Definition map_op (o : op) (M : gmap Z V) : answer * gmap Z V :=
  match o with
  | OInsert k v => (AUnit, <[k := v]> M)
  | OErase k => (ABool (bool_decide (is_Some (M !! k))), base.delete k M)
  | OFind k => (AValue (M !! k), M)
  | OEmpty => (ABool (bool_decide (M = ∅)), M)
  end.

Fixpoint map_ops (os : list op) (M : gmap Z V) : list answer * gmap Z V :=
  match os with
  | [] => ([], M)
  | o :: os => let '(a, M1) := map_op o M in let '(l, M2) := map_ops os M1 in (a :: l, M2)
  end.

Lemma run_op_refines o st M :
  represents st M -> wps (run_op o) st (fun a st' => a = (map_op o M).1 /\ represents st' (map_op o M).2).
Proof.
  intros H. destruct o as [k v|k|k|]; cbn [run_op map_op fst snd]; apply wps_bind.
  - eapply wps_mono; [by apply represents_insert|]. cbv beta. intros _ st' H'. by apply wps_ret.
  - eapply wps_mono; [by apply represents_erase|]. intros b st' [-> H']. by apply wps_ret.
  - eapply wps_mono; [by apply (represents_find st M k)|]. cbv beta. intros p st' [-> Hp]. destruct (M !! k) as [v|].
    + destruct Hp as (Hp & n & Hn & _ & <-). destruct (Z.eqb_spec p nullptr); [done|]. apply wps_bind. eapply wps_load; [done|]. by apply wps_ret.
    + subst p. by apply wps_ret.
  - eapply wps_mono; [by apply (represents_empty st M)|]. cbv beta. intros b st' [-> ->]. by apply wps_ret.
Qed.

Lemma run_ops_refines os st M :
  represents st M -> wps (run_ops os) st (fun l st' => l = (map_ops os M).1 /\ represents st' (map_ops os M).2).
Proof.
  revert st M. induction os as [|o os IH]; intros st M H; cbn [run_ops map_ops]; [by apply wps_ret|]. apply wps_bind.
  eapply wps_mono; [by apply (run_op_refines o st M)|]. cbv beta. intros a st1 [-> H1]. destruct (map_op o M) as [a M1]. cbn [fst snd] in *.
  apply wps_bind. eapply wps_mono; [by apply (IH st1 M1)|]. cbv beta. intros l st2 [-> H2]. destruct (map_ops os M1) as [l M2].
  cbn [fst snd] in *. by apply wps_ret.
Qed.

(** C5: Any sequence of insert, erase, find and empty run on a new red-black tree
    returns without reading a freed or null node, with the answers a finite map gives;
    the final heap holds a red-black search tree of exactly the map elements and the
    sentinel, and the destructor frees every node. *)
Theorem rbtree_refines_map (nv : V) (os : list op) :
  exists st' st'',
    run_ops os (new_tree nv) = Ok ((map_ops os ∅).1, st') /\ represents st' (map_ops os ∅).2 /\
    destroy_tree st' = Ok (tt, st'') /\ heap st'' = ∅.
Proof.
  destruct (run_ops_refines os _ _ (represents_new nv)) as (l & st' & E1 & -> & H).
  destruct (represents_destroy _ _ H) as ([] & st'' & E2 & H2). by exists st', st''.
Qed.

(** C11: After any sequence of operations on a new tree the height h of the tree in the
    heap satisfies 2^h <= (n + 1)^2, n the number of keys, so searches are logarithmic. *)
Theorem rbtree_height (nv : V) (os : list op) l st' :
  run_ops os (new_tree nv) = Ok (l, st') ->
  exists t, @rep V [] st' [] t /\ (2 ^ height t <= (size (map_ops os ∅).2 + 1) ^ 2)%nat.
Proof.
  intros E1. destruct (run_ops_refines os _ _ (represents_new nv)) as (l' & st1 & E2 & _ & t & H & Hok & Hb & ->).
  rewrite E1 in E2. injection E2 as _ ->. exists t. split; [done|]. by apply rb_height_size.
Qed.

End Sequences.

Arguments op V : clear implicits.
Arguments answer V : clear implicits.

#[local] Abbreviation sample_ops := [OInsert 3 30; OInsert 1 10; OInsert 2 20; OErase 1; OInsert 3 31; OFind 3].

Lemma rbtree_height_witness :
  exists l st', run_ops sample_ops (new_tree 0) = Ok (l, st') /\ l = [AUnit; AUnit; AUnit; ABool true; AUnit; AValue (Some 31)] /\
  exists t, @rep Z [] st' [] t /\ (2 ^ height t <= (size (map_ops sample_ops ∅).2 + 1) ^ 2)%nat.
Proof.
  eexists _, _. split; [vm_compute; reflexivity|]. split; [reflexivity|]. eapply (rbtree_height 0 sample_ops). vm_compute. reflexivity.
Defined.
