(* ===== verification/SegTree.v ===== *)
(** The segment tree of cpp/datastructure/tree/segment_tree.h.

    Node [root] covers an interval of the array, its children are [2 root + 1]
    and [2 root + 2]; [lazy_[root]] is an addition that the node has received
    and its children have not.  The tree refines an array with range additions
    and range sums.  Indices are 32-bit ints; elements are computed in [Z], as
    signed overflow is undefined. *)

From S2P Require Import Prelude.

Record SegmentTree := MkSeg { tree_ : list Z; lazy_ : list Z }.

(** The default constructor: empty vectors. *)
Definition new_seg : SegmentTree := MkSeg [] [].

Definition lchild (root : Z) : Z := s32 (root * 2 + 1).
Definition rchild (root : Z) : Z := s32 (root * 2 + 2).
Definition mid (cl cr : Z) : Z := cl + Z.quot (cr - cl) 2.

(** [v[i] += d] *)
Definition vadd (v : list Z) (i d : Z) : outcome (list Z) := x ← vget v i; vset v i (x + d).

(** [resize(n, 0)] *)
Definition resize0 (n : Z) (l : list Z) : list Z := take (Z.to_nat n) l ++ zreplicate (n - zlen l) 0.

(** [tree_[root] = tree_[root * 2 + 1] + tree_[root * 2 + 2]] *)
Definition pull (root : Z) (tr : list Z) : outcome (list Z) :=
  a ← vget tr (lchild root); b ← vget tr (rchild root); vset tr root (a + b).

(** The recursive lambdas take fuel, which bounds the depth. *)
Fixpoint build (fuel : nat) (v : list Z) (root cl cr : Z) (tr : list Z) : outcome (list Z) :=
  match fuel with
  | O => Fault OutOfFuel
  | S fuel =>
      if cl =? cr then x ← vget v cl; vset tr root x
      else
        let cm := mid cl cr in
        tr ← build fuel v (lchild root) cl cm tr;
        tr ← build fuel v (rchild root) (cm + 1) cr tr;
        pull root tr
  end.

Definition init (v : list Z) (init_value : bool) (t : SegmentTree) : outcome SegmentTree :=
  let n := u64 (zlen v * 4) in
  let t := MkSeg (resize0 n (tree_ t)) (resize0 n (lazy_ t)) in
  if init_value then
    tr ← build (2 + length v) v 0 0 (s32 (u64 (zlen v - 1))) (tree_ t);
    Ok (MkSeg tr (lazy_ t))
  else Ok t.

Definition maintain (cl cr root : Z) (t : SegmentTree) : outcome SegmentTree :=
  let cm := mid cl cr in
  if cl =? cr then Ok t
  else
    z ← vget (lazy_ t) root;
    if z =? 0 then Ok t
    else
      lz ← vadd (lazy_ t) (lchild root) z;
      lz ← vadd lz (rchild root) z;
      tr ← vadd (tree_ t) (lchild root) (z * (cm - cl + 1));
      tr ← vadd tr (rchild root) (z * (cr - cm));
      lz ← vset lz root 0;
      Ok (MkSeg tr lz).

Fixpoint query_node (fuel : nat) (l r cl cr root : Z) (t : SegmentTree) : outcome (Z * SegmentTree) :=
  match fuel with
  | O => Fault OutOfFuel
  | S fuel =>
      if (l <=? cl) && (cr <=? r) then s ← vget (tree_ t) root; Ok (s, t)
      else
        t ← maintain cl cr root t;
        let cm := mid cl cr in
        '(s1, t) ← (if l <=? cm then query_node fuel l r cl cm (lchild root) t else Ok (0, t));
        '(s2, t) ← (if cm <? r then query_node fuel l r (cm + 1) cr (rchild root) t else Ok (0, t));
        Ok (s1 + s2, t)
  end.

(** [tree_.size() / 4 - 1] as an int. *)
Definition last_index (t : SegmentTree) : Z := s32 (u64 (zlen (tree_ t) / 4 - 1)).
Definition depth_fuel (t : SegmentTree) : nat := S (length (tree_ t)).

Definition range_sum (l r : Z) (t : SegmentTree) : outcome (Z * SegmentTree) :=
  query_node (depth_fuel t) l r 0 (last_index t) 0 t.

Fixpoint add_node (fuel : nat) (l r value cl cr root : Z) (t : SegmentTree) : outcome SegmentTree :=
  match fuel with
  | O => Fault OutOfFuel
  | S fuel =>
      if (l <=? cl) && (cr <=? r) then
        lz ← vadd (lazy_ t) root value;
        tr ← vadd (tree_ t) root ((cr - cl + 1) * value);
        Ok (MkSeg tr lz)
      else
        t ← maintain cl cr root t;
        let cm := mid cl cr in
        t ← (if l <=? cm then add_node fuel l r value cl cm (lchild root) t else Ok t);
        t ← (if cm <? r then add_node fuel l r value (cm + 1) cr (rchild root) t else Ok t);
        tr ← pull root (tree_ t);
        Ok (MkSeg tr (lazy_ t))
  end.

Definition range_add (l r value : Z) (t : SegmentTree) : outcome SegmentTree :=
  add_node (depth_fuel t) l r value 0 (last_index t) 0 t.

Definition set_maintain (cl cr root : Z) (t : SegmentTree) : outcome SegmentTree :=
  let cm := mid cl cr in
  if cl =? cr then Ok t
  else
    z ← vget (lazy_ t) root;
    if z =? 0 then Ok t
    else
      lz ← vset (lazy_ t) (lchild root) z;
      lz ← vset lz (rchild root) z;
      tr ← vset (tree_ t) (lchild root) ((cm - cl + 1) * z);
      tr ← vset tr (rchild root) ((cr - cm) * z);
      lz ← vset lz root 0;
      Ok (MkSeg tr lz).

(** The recursion of [range_set] looks at the node's interval and not at
    [l] and [r]. *)
Fixpoint set_node (fuel : nat) (l r value cl cr root : Z) (t : SegmentTree) : outcome SegmentTree :=
  match fuel with
  | O => Fault OutOfFuel
  | S fuel =>
      if (l <=? cl) && (cr <=? r) then
        lz ← vset (lazy_ t) root value;
        tr ← vset (tree_ t) root ((cr - cl + 1) * value);
        Ok (MkSeg tr lz)
      else
        t ← set_maintain cl cr root t;
        let cm := mid cl cr in
        t ← (if cl <=? cm then set_node fuel l r value cl cm (lchild root) t else Ok t);
        t ← (if cm <? cr then set_node fuel l r value (cm + 1) cr (rchild root) t else Ok t);
        tr ← pull root (tree_ t);
        Ok (MkSeg tr (lazy_ t))
  end.

Definition range_set (fuel : nat) (l r value : Z) (t : SegmentTree) : outcome SegmentTree :=
  set_node fuel l r value 0 (last_index t) 0 t.

Example seg_run :
  (t ← init [1; 2; 3; 4; 5] true new_seg; t ← range_add 1 3 10 t; '(a, t) ← range_sum 2 4 t; '(b, t) ← range_sum 0 0 t; Ok (a, b))
  = Ok (32, 1).
Proof. vm_compute. reflexivity. Qed.

(** * Sums over an interval *)

Definition isum (g : Z -> Z) (a b : Z) : Z := foldr Z.add 0 (g <$> seqZ a (b - a + 1)).

Lemma foldr_sum_app l1 l2 : foldr Z.add 0 (l1 ++ l2) = foldr Z.add 0 l1 + foldr Z.add 0 l2.
Proof. induction l1 as [|a l1 IH]; cbn; [done|]. rewrite IH. lia. Qed.

Lemma isum_empty g a b : b < a -> isum g a b = 0.
Proof. intros H. unfold isum. by rewrite seqZ_nil by lia. Qed.

Lemma isum_one g a : isum g a a = g a.
Proof. unfold isum. replace (a - a + 1) with 1 by lia. rewrite seqZ_1. cbn. lia. Qed.

Lemma isum_split g a m b : a <= m + 1 -> m <= b -> isum g a b = isum g a m + isum g (m + 1) b.
Proof.
  intros H1 H2. unfold isum. replace (b - a + 1) with ((m - a + 1) + (b - (m + 1) + 1)) by lia.
  rewrite seqZ_app, fmap_app, foldr_sum_app by lia. by replace (a + (m - a + 1)) with (m + 1) by lia.
Qed.

Lemma isum_shift g z a b : a <= b + 1 -> isum (fun i => g i + z) a b = isum g a b + z * (b - a + 1).
Proof.
  intros H. unfold isum. assert (Hn : 0 <= b - a + 1) by lia. revert Hn. generalize (b - a + 1) as n. clear H b. intros n Hn. revert n Hn a.
  apply (natlike_ind (fun n => forall a, foldr Z.add 0 ((fun i => g i + z) <$> seqZ a n) = foldr Z.add 0 (g <$> seqZ a n) + z * n)).
  - intros a. rewrite seqZ_nil by lia. cbn. lia.
  - intros n Hn IH a. rewrite seqZ_cons by lia. cbn [fmap list_fmap foldr]. rewrite Z.pred_succ, IH. lia.
Qed.

Lemma isum_ext g h a b : (forall i, a <= i <= b -> g i = h i) -> isum g a b = isum h a b.
Proof. intros H. unfold isum. f_equal. apply list_fmap_ext. intros k i Hi. apply lookup_seqZ in Hi. apply H. lia. Qed.

(** * Indices of a subtree *)

(** The node at [k] lies below [r], or is [r]. *)
Definition below (r k : Z) : Prop := 0 <= k /\ exists d, 0 <= d /\ (k + 1) / 2 ^ d = r + 1.

Lemma below_refl r : 0 <= r -> below r r.
Proof. intros H. split; [done|]. exists 0. split; [lia|]. by rewrite Z.div_1_r. Qed.

Lemma below_child r k b : (b = 1 \/ b = 2) -> below (2 * r + b) k -> below r k.
Proof.
  intros Hb [Hk (d & Hd & E1)]. split; [done|]. exists (d + 1). split; [lia|].
  rewrite Z.pow_add_r, <- Z.div_div, E1 by lia. change (2 ^ 1) with 2. symmetry. apply (Z.div_unique_pos _ _ _ (b - 1)); lia.
Qed.

Lemma below_ge r k : 0 <= r -> below r k -> r <= k.
Proof.
  intros Hr [Hk (d & Hd & E1)]. pose proof (Z.pow_pos_nonneg 2 d).
  pose proof (Z.mul_div_le (k + 1) (2 ^ d)). nia.
Qed.

(** Two numbers with the prefixes [2 q] and [2 q + 1] differ. *)
Lemma prefix_differ x q d1 d2 : 0 < q -> 0 <= d1 -> 0 <= d2 -> x / 2 ^ d1 = 2 * q -> x / 2 ^ d2 = 2 * q + 1 -> False.
Proof.
  intros Hq H1 H2 E1 E2. destruct (Z.lt_trichotomy d1 d2) as [Hd|[->|Hd]]; [|lia|].
  - replace d2 with (d1 + (d2 - d1)) in E2 by lia. rewrite Z.pow_add_r, <- Z.div_div, E1 in E2 by lia.
    assert (2 ^ 1 <= 2 ^ (d2 - d1)) by (apply Z.pow_le_mono_r; lia). change (2 ^ 1) with 2 in *.
    pose proof (Z.mul_div_le (2 * q) (2 ^ (d2 - d1))). nia.
  - replace d1 with (d2 + (d1 - d2)) in E1 by lia. rewrite Z.pow_add_r, <- Z.div_div, E2 in E1 by lia.
    assert (2 ^ 1 <= 2 ^ (d1 - d2)) by (apply Z.pow_le_mono_r; lia). change (2 ^ 1) with 2 in *.
    pose proof (Z.mul_div_le (2 * q + 1) (2 ^ (d1 - d2))). nia.
Qed.

Lemma below_disjoint r k : 0 <= r -> below (2 * r + 1) k -> below (2 * r + 2) k -> False.
Proof.
  intros Hr [_ (d1 & H1 & E1)] [_ (d2 & H2 & E2)].
  apply (prefix_differ (k + 1) (r + 1) d1 d2); lia.
Qed.

Lemma below_not_parent r k b : 0 <= r -> (b = 1 \/ b = 2) -> below (2 * r + b) k -> k <> r.
Proof. intros Hr Hb Hk ->. apply below_ge in Hk; lia. Qed.

(** * The invariant

    [node t root cl cr g]: the subtree at [root] covers [cl, cr] and stands for
    the values [g], the additions still held by its ancestors left out. *)

Inductive node (t : SegmentTree) : Z -> Z -> Z -> (Z -> Z) -> Prop :=
| node_intro root cl cr g z :
    0 <= root -> cl <= cr ->
    zget (tree_ t) root = Some (isum g cl cr) -> zget (lazy_ t) root = Some z ->
    (cl < cr -> node t (2 * root + 1) cl (mid cl cr) (fun i => g i - z)) ->
    (cl < cr -> node t (2 * root + 2) (mid cl cr + 1) cr (fun i => g i - z)) ->
    node t root cl cr g.

Lemma mid_bounds cl cr : cl < cr -> cl <= mid cl cr < cr.
Proof.
  intros H. unfold mid. rewrite Z.quot_div_nonneg by lia.
  pose proof (Z.div_mod (cr - cl) 2). pose proof (Z.mod_pos_bound (cr - cl) 2). lia.
Qed.

(** Subtrees are followed by the size of the interval. *)
Lemma interval_ind (P : Z -> Z -> Prop) :
  (forall cl cr, cl <= cr -> (cl < cr -> P cl (mid cl cr)) -> (cl < cr -> P (mid cl cr + 1) cr) -> P cl cr) ->
  forall cl cr, cl <= cr -> P cl cr.
Proof.
  intros H cl cr Hle. remember (Z.to_nat (cr - cl)) as n eqn:En. revert cl cr Hle En.
  induction n as [n IH] using (well_founded_induction lt_wf). intros cl cr Hle ->.
  apply H; [done| |]; intros Hlt; pose proof (mid_bounds cl cr Hlt); (eapply IH; [|lia|reflexivity]); lia.
Qed.

Lemma node_agree t t' root cl cr g h :
  node t root cl cr g -> (forall i, cl <= i <= cr -> g i = h i) ->
  (forall k, below root k -> zget (tree_ t') k = zget (tree_ t) k /\ zget (lazy_ t') k = zget (lazy_ t) k) ->
  node t' root cl cr h.
Proof.
  intros Hn Hgh. destruct Hn as [root cl cr g z Hr Hle Ht Hl Hn1 Hn2]. revert root g h z Hr Ht Hl Hn1 Hn2 Hgh.
  revert cl cr Hle. apply (interval_ind (fun cl cr => forall root g h z, 0 <= root -> _ -> _ -> _ -> _ -> _ -> _ -> node t' root cl cr h)).
  intros cl cr Hle IH1 IH2 root g h z Hr Ht Hl Hn1 Hn2 Hgh Hag.
  destruct (Hag root (below_refl _ Hr)) as [E1 E2]. apply (node_intro _ _ _ _ _ z); [done|done|rewrite E1, Ht; f_equal; by apply isum_ext|congruence| |].
  - intros Hlt. pose proof (mid_bounds cl cr Hlt). specialize (Hn1 Hlt). inversion_clear Hn1 as [? ? ? ? z1 Hr1 Hle1 Ht1 Hl1 Ha1 Hb1].
    eapply (IH1 Hlt _ _ _ z1); [done|exact Ht1|exact Hl1|exact Ha1|exact Hb1| |].
    + intros i Hi. cbn. rewrite Hgh; lia.
    + intros k Hk. apply Hag. eapply below_child; [|exact Hk]. by left.
  - intros Hlt. pose proof (mid_bounds cl cr Hlt). specialize (Hn2 Hlt). inversion_clear Hn2 as [? ? ? ? z1 Hr1 Hle1 Ht1 Hl1 Ha1 Hb1].
    eapply (IH2 Hlt _ _ _ z1); [done|exact Ht1|exact Hl1|exact Ha1|exact Hb1| |].
    + intros i Hi. cbn. rewrite Hgh; lia.
    + intros k Hk. apply Hag. eapply below_child; [|exact Hk]. by right.
Qed.

Lemma node_ext t root cl cr g h : node t root cl cr g -> (forall i, cl <= i <= cr -> g i = h i) -> node t root cl cr h.
Proof. intros Hn Hgh. eapply node_agree; [exact Hn|exact Hgh|done]. Qed.

(** The vectors have the length of an int at most. *)
Definition sized (t : SegmentTree) : Prop := zlen (tree_ t) <= 2 ^ 31 /\ zlen (lazy_ t) = zlen (tree_ t).

(** Nothing changes outside the subtree. *)
Definition local (t t' : SegmentTree) (root : Z) : Prop :=
  zlen (tree_ t') = zlen (tree_ t) /\ zlen (lazy_ t') = zlen (lazy_ t) /\
  forall k, ~ below root k -> zget (tree_ t') k = zget (tree_ t) k /\ zget (lazy_ t') k = zget (lazy_ t) k.

Lemma local_refl t root : local t t root.
Proof. done. Qed.

Lemma local_trans t1 t2 t3 root : local t1 t2 root -> local t2 t3 root -> local t1 t3 root.
Proof.
  intros (H1 & H2 & H3) (H4 & H5 & H6). split; [congruence|]. split; [congruence|]. intros k Hk.
  destruct (H3 k Hk), (H6 k Hk). split; congruence.
Qed.

Lemma local_sized t t' root : local t t' root -> sized t -> sized t'.
Proof. intros (H1 & H2 & _) [H3 H4]. split; congruence. Qed.

Lemma local_child t t' root b : (b = 1 \/ b = 2) -> local t t' (2 * root + b) -> local t t' root.
Proof. intros Hb (H1 & H2 & H3). split; [done|]. split; [done|]. intros k Hk. apply H3. intros Hc. apply Hk. by eapply below_child. Qed.

Lemma local_set t root k a b :
  below root k -> local t (MkSeg (zset (tree_ t) k a) (zset (lazy_ t) k b)) root.
Proof.
  intros Hk. split; [apply zlen_zset|]. split; [apply zlen_zset|]. intros j Hj. cbn [tree_ lazy_].
  split; apply zget_zset_ne; congruence.
Qed.

(** A change in one child leaves the other alone. *)
Lemma node_other t t' root b b' cl cr g :
  0 <= root -> (b = 1 /\ b' = 2 \/ b = 2 /\ b' = 1) -> local t t' (2 * root + b) ->
  node t (2 * root + b') cl cr g -> node t' (2 * root + b') cl cr g.
Proof.
  intros Hr Hb (_ & _ & Hl) Hn. eapply node_agree; [exact Hn|done|]. intros k Hk. apply Hl. intros Hc.
  destruct Hb as [[-> ->]|[-> ->]]; by eapply below_disjoint.
Qed.

Lemma node_index t root cl cr g : sized t -> node t root cl cr g -> 0 <= root < zlen (tree_ t) /\ zlen (tree_ t) <= 2 ^ 31.
Proof. intros [Hs _] Hn. destruct Hn as [root cl cr g z Hr _ Ht _ _ _]. apply zget_bounds in Ht. lia. Qed.

Lemma child_index t root b cl cr g :
  sized t -> 0 <= root -> (b = 1 \/ b = 2) -> node t (2 * root + b) cl cr g -> s32 (root * 2 + b) = 2 * root + b.
Proof.
  intros Hs Hr Hb Hn. pose proof (node_index _ _ _ _ _ Hs Hn). rewrite s32_id by (unfold is_s32; lia). lia.
Qed.

Lemma wp_vadd v i d x (Q : list Z -> Prop) : zget v i = Some x -> Q (zset v i (x + d)) -> wp (vadd v i d) Q.
Proof.
  intros Hx HQ. pose proof (zget_bounds _ _ _ Hx). unfold vadd. apply wp_bind. exists x. split; [by apply vget_some|].
  by apply wp_vset.
Qed.

(** Adding [z] to every value of a subtree at its root. *)
Lemma node_add t root cl cr g z s lz :
  node t root cl cr g -> zget (tree_ t) root = Some s -> zget (lazy_ t) root = Some lz ->
  node (MkSeg (zset (tree_ t) root (s + z * (cr - cl + 1))) (zset (lazy_ t) root (lz + z))) root cl cr (fun i => g i + z).
Proof.
  intros Hn Hs Hz. destruct Hn as [root cl cr g z0 Hr Hle Ht Hl Hn1 Hn2]. rewrite Hs in Ht. injection Ht as ->.
  rewrite Hz in Hl. injection Hl as <-. pose proof (zget_bounds _ _ _ Hs). pose proof (zget_bounds _ _ _ Hz).
  apply (node_intro _ _ _ _ _ (lz + z)); cbn [tree_ lazy_]; [done|done|rewrite zget_zset_eq by done; f_equal; rewrite isum_shift; lia|by apply zget_zset_eq| |].
  - intros Hlt. eapply node_agree; [apply (Hn1 Hlt)|intros i Hi; cbn; lia|]. intros k Hk. apply below_not_parent in Hk; [|done|by left].
    cbn [tree_ lazy_]. rewrite !zget_zset_ne by done. done.
  - intros Hlt. eapply node_agree; [apply (Hn2 Hlt)|intros i Hi; cbn; lia|]. intros k Hk. apply below_not_parent in Hk; [|done|by right].
    cbn [tree_ lazy_]. rewrite !zget_zset_ne by done. done.
Qed.

Lemma node_data t root cl cr g : node t root cl cr g ->
  0 <= root /\ cl <= cr /\ zget (tree_ t) root = Some (isum g cl cr) /\ exists z, zget (lazy_ t) root = Some z.
Proof. intros Hn. destruct Hn as [root cl cr g z Hr Hle Ht Hl _ _]. eauto. Qed.

(** After [_maintain] the node holds nothing back from its children. *)
Definition opened t root cl cr (g : Z -> Z) : Prop :=
  zget (tree_ t) root = Some (isum g cl cr) /\ zget (lazy_ t) root = Some 0 /\
  node t (2 * root + 1) cl (mid cl cr) g /\ node t (2 * root + 2) (mid cl cr + 1) cr g.

Lemma maintain_ok t root cl cr g :
  sized t -> node t root cl cr g -> cl < cr ->
  wp (maintain cl cr root t) (fun t' => local t t' root /\ opened t' root cl cr g).
Proof.
  intros Hs Hn Hlt. destruct Hn as [root cl cr g z Hr Hle Ht Hl Hn1 Hn2]. specialize (Hn1 Hlt). specialize (Hn2 Hlt).
  pose proof (mid_bounds cl cr Hlt) as Hm. unfold maintain. destruct (Z.eqb_spec cl cr); [lia|]. apply wp_bind. exists z.
  split; [by apply vget_some|]. destruct (Z.eqb_spec z 0) as [->|Hz].
  { apply wp_ret. split; [apply local_refl|]. split; [done|]. split; [done|]. split; (eapply node_ext; [eassumption|intros; cbn; lia]). }
  unfold lchild, rchild. erewrite !(child_index t root 1), !(child_index t root 2) by (done || eauto).
  destruct (node_data _ _ _ _ _ Hn1) as (_ & _ & Ht1 & z1 & Hl1). destruct (node_data _ _ _ _ _ Hn2) as (_ & _ & Ht2 & z2 & Hl2).
  set (t1 := MkSeg (zset (tree_ t) (2 * root + 1) (isum (fun i => g i - z) cl (mid cl cr) + z * (mid cl cr - cl + 1)))
                   (zset (lazy_ t) (2 * root + 1) (z1 + z))).
  assert (L1 : local t t1 (2 * root + 1)) by (apply local_set, below_refl; lia).
  assert (N1 : node t1 (2 * root + 1) cl (mid cl cr) (fun i => g i - z + z)) by by apply node_add.
  assert (N2 : node t1 (2 * root + 2) (mid cl cr + 1) cr (fun i => g i - z)) by (eapply (node_other t t1 root 1 2); [done|by left|done|done]).
  destruct (node_data _ _ _ _ _ N2) as (_ & _ & Ht2' & z2' & Hl2').
  set (t2 := MkSeg (zset (tree_ t1) (2 * root + 2) (isum (fun i => g i - z) (mid cl cr + 1) cr + z * (cr - (mid cl cr + 1) + 1)))
                   (zset (lazy_ t1) (2 * root + 2) (z2' + z))).
  assert (L2 : local t1 t2 (2 * root + 2)) by (apply local_set, below_refl; lia).
  assert (N2' : node t2 (2 * root + 2) (mid cl cr + 1) cr (fun i => g i - z + z)) by by apply node_add.
  assert (N1' : node t2 (2 * root + 1) cl (mid cl cr) (fun i => g i - z + z)) by (eapply (node_other t1 t2 root 2 1); [done|by right|done|done]).
  apply wp_bind, (wp_vadd _ _ _ z1); [done|]. apply wp_bind, (wp_vadd _ _ _ z2'); [done|].
  apply wp_bind; eapply wp_vadd; [exact Ht1|]. apply wp_bind; eapply wp_vadd; [exact Ht2'|].
  pose proof (zget_bounds _ _ _ Hl) as Hb. pose proof (zget_bounds _ _ _ Ht) as Hbt. apply wp_bind, wp_vset; [zlia|]. apply wp_ret.
  replace (cr - mid cl cr) with (cr - (mid cl cr + 1) + 1) by lia. change (MkSeg _ _) with (MkSeg (tree_ t2) (zset (lazy_ t2) root 0)).
  assert (Hoth : forall k, k <> root -> zget (tree_ t2) k = zget (tree_ t2) k /\ zget (zset (lazy_ t2) root 0) k = zget (lazy_ t2) k).
  { intros k Hk. split; [done|]. by apply zget_zset_ne. }
  assert (L12 : local t t2 root) by (eapply local_trans; [eapply local_child; [|exact L1]; by left|eapply local_child; [|exact L2]; by right]).
  split; [|split; [|split]].
  - destruct L12 as (A & B & C). split; [done|]. split; [cbn [lazy_]; by rewrite zlen_zset|]. intros k Hk. cbn [tree_ lazy_].
    rewrite zget_zset_ne by (intros <-; by apply Hk, below_refl). by apply C.
  - cbn [tree_]. destruct L1 as (_ & _ & C1). destruct L2 as (_ & _ & C2).
    rewrite (proj1 (C2 root ltac:(intros Hk; apply below_ge in Hk; lia))), (proj1 (C1 root ltac:(intros Hk; apply below_ge in Hk; lia))). done.
  - cbn [lazy_]. apply zget_zset_eq. cbn. zlia.
  - split; (eapply node_agree; [eassumption|intros; cbn; lia|]); intros k Hk; apply Hoth.
    + eapply below_not_parent; [done| |exact Hk]. by left.
    + eapply below_not_parent; [done| |exact Hk]. by right.
Qed.

Lemma opened_node t root cl cr g : 0 <= root -> cl < cr -> opened t root cl cr g -> node t root cl cr g.
Proof.
  intros Hr Hlt (Ht & Hl & N1 & N2). apply (node_intro _ _ _ _ _ 0); [done|lia|done|done| |]; intros _; (eapply node_ext; [eassumption|intros; cbn; lia]).
Qed.

(** An opened node after a change in a child that keeps its values. *)
Lemma opened_child t t' root b cl cr g :
  0 <= root -> (b = 1 \/ b = 2) -> local t t' (2 * root + b) -> opened t root cl cr g ->
  (b = 1 -> node t' (2 * root + 1) cl (mid cl cr) g) -> (b = 2 -> node t' (2 * root + 2) (mid cl cr + 1) cr g) ->
  opened t' root cl cr g.
Proof.
  intros Hr Hb Hl (Ht & Hz & N1 & N2) H1 H2. pose proof Hl as (_ & _ & Hag).
  destruct (Hag root) as [E1 E2]; [intros Hk; apply below_ge in Hk; lia|].
  split; [congruence|]. split; [congruence|]. destruct Hb as [-> | ->].
  - split; [by apply H1|]. eapply (node_other t t' root 1 2); [done|by left|done|done].
  - split; [|by apply H2]. eapply (node_other t t' root 2 1); [done|by right|done|done].
Qed.

(** A partial overlap splits at the middle. *)
Lemma isum_parts g l r cl cr m :
  cl <= m < cr -> l <= cr -> cl <= r -> l <= r ->
  isum g (Z.max l cl) (Z.min r cr) = isum g (Z.max l cl) (Z.min r m) + isum g (Z.max l (m + 1)) (Z.min r cr).
Proof.
  intros Hm H1 H2 Hlr. destruct (Z.le_gt_cases l m), (Z.le_gt_cases r m).
  - rewrite (isum_empty g (Z.max l (m + 1))) by lia. rewrite Z.add_0_r. f_equal; lia.
  - rewrite (isum_split g (Z.max l cl) m) by lia. f_equal; f_equal; lia.
  - lia.
  - rewrite (isum_empty g (Z.max l cl) (Z.min r m)) by lia. rewrite Z.add_0_l. f_equal; lia.
Qed.

(** The part of the query inside [cl, cr]. *)
Lemma seg_query_ok fuel l r cl cr root g t :
  sized t -> node t root cl cr g -> l <= cr -> cl <= r -> l <= r -> (Z.to_nat (cr - cl) < fuel)%nat ->
  wp (query_node fuel l r cl cr root t) (fun res =>
    res.1 = isum g (Z.max l cl) (Z.min r cr) /\ local t res.2 root /\ node res.2 root cl cr g).
Proof.
  revert cl cr root g t. induction fuel as [|fuel IH]; intros cl cr root g t Hs Hn H1 H2 Hlr Hf; [lia|]. cbn [query_node].
  destruct (node_data _ _ _ _ _ Hn) as (Hr & Hle & Ht & _). destruct ((l <=? cl) && (cr <=? r)) eqn:Hc.
  { apply wp_bind. exists (isum g cl cr). split; [by apply vget_some|]. apply wp_ret. split; [cbn; f_equal; lia|]. split; [apply local_refl|done]. }
  assert (Hlt : cl < cr) by lia. pose proof (mid_bounds cl cr Hlt) as Hm. apply wp_bind.
  eapply wp_mono; [by apply (maintain_ok t root cl cr g)|]. cbv beta. intros t1 [L1 O1].
  assert (Hs1 : sized t1) by by eapply local_sized. pose proof O1 as (_ & _ & N1 & N2).
  unfold lchild, rchild. erewrite (child_index t1 root 1), (child_index t1 root 2) by (done || eauto).
  apply wp_bind, (wp_mono _ (fun res => res.1 = isum g (Z.max l cl) (Z.min r (mid cl cr)) /\ local t1 res.2 root /\ opened res.2 root cl cr g)).
  { destruct (Z.leb_spec l (mid cl cr)).
    - eapply wp_mono; [apply (IH _ _ _ g); [done|done|lia|lia|done|lia]|].
      intros [s t2] (-> & L2 & N1'). split; [done|]. split; [eapply local_child; [|exact L2]; by left|].
      eapply (opened_child t1 _ root 1); [done|by left|done|done|done|done].
    - apply wp_ret. split; [by rewrite isum_empty by lia|]. split; [apply local_refl|done]. }
  intros [s1 t2] (E1 & L2 & O2). cbn [fst snd] in *. assert (Hs2 : sized t2) by by eapply local_sized.
  pose proof O2 as (_ & _ & N1' & N2').
  apply wp_bind, (wp_mono _ (fun res => res.1 = isum g (Z.max l (mid cl cr + 1)) (Z.min r cr) /\ local t2 res.2 root /\ opened res.2 root cl cr g)).
  { destruct (Z.ltb_spec (mid cl cr) r).
    - eapply wp_mono; [apply (IH _ _ _ g); [done|done|lia|lia|done|lia]|].
      intros [s t3] (-> & L3 & N2''). split; [done|]. split; [eapply local_child; [|exact L3]; by right|].
      eapply (opened_child t2 _ root 2); [done|by right|done|done|done|done].
    - apply wp_ret. split; [by rewrite isum_empty by lia|]. split; [apply local_refl|done]. }
  intros [s2 t3] (E2 & L3 & O3). cbn [fst snd] in *. apply wp_ret. cbn [fst snd].
  split; [rewrite E1, E2; symmetry; by apply isum_parts|]. split; [|by apply opened_node].
  by eapply local_trans; [|eapply local_trans].
Qed.

(** The values after [range_add]. *)
Definition array_add (l r v : Z) (g : Z -> Z) : Z -> Z := fun i => if (l <=? i) && (i <=? r) then g i + v else g i.

Lemma pull_ok t root cl cr g z :
  sized t -> 0 <= root -> cl < cr -> zget (lazy_ t) root = Some 0 -> zget (tree_ t) root = Some z ->
  node t (2 * root + 1) cl (mid cl cr) g -> node t (2 * root + 2) (mid cl cr + 1) cr g ->
  wp (pull root (tree_ t)) (fun tr => local t (MkSeg tr (lazy_ t)) root /\ node (MkSeg tr (lazy_ t)) root cl cr g).
Proof.
  intros Hs Hr Hlt Hz Ht N1 N2. pose proof (mid_bounds cl cr Hlt) as Hm. pose proof (zget_bounds _ _ _ Ht).
  destruct (node_data _ _ _ _ _ N1) as (_ & _ & Ht1 & _). destruct (node_data _ _ _ _ _ N2) as (_ & _ & Ht2 & _).
  unfold pull, lchild, rchild. erewrite (child_index t root 1), (child_index t root 2) by (done || eauto).
  rewrite (vget_some _ _ _ Ht1), (vget_some _ _ _ Ht2). cbn [mbind outcome_bind]. apply wp_vset; [done|].
  rewrite <- isum_split by lia. set (t' := MkSeg _ _).
  assert (L : local t t' root).
  { split; [apply zlen_zset|]. split; [done|]. intros k Hk. cbn [t' tree_ lazy_]. split; [|done]. apply zget_zset_ne. intros <-.
    by apply Hk, below_refl. }
  assert (Hoth : forall k, k <> root -> zget (tree_ t') k = zget (tree_ t) k /\ zget (lazy_ t') k = zget (lazy_ t) k).
  { intros k Hk. split; [|done]. by apply zget_zset_ne. }
  split; [done|]. apply opened_node; [done|done|]. split; [by apply zget_zset_eq|]. split; [done|].
  split; (eapply node_agree; [eassumption|done|]); intros k Hk; apply Hoth; (eapply below_not_parent; [done| |exact Hk]); auto.
Qed.

Lemma add_ok fuel l r v cl cr root g t :
  sized t -> node t root cl cr g -> l <= cr -> cl <= r -> l <= r -> (Z.to_nat (cr - cl) < fuel)%nat ->
  wp (add_node fuel l r v cl cr root t) (fun t' => local t t' root /\ node t' root cl cr (array_add l r v g)).
Proof.
  revert cl cr root g t. induction fuel as [|fuel IH]; intros cl cr root g t Hs Hn H1 H2 Hlr Hf; [lia|]. cbn [add_node].
  destruct (node_data _ _ _ _ _ Hn) as (Hr & Hle & Ht & z & Hz). destruct ((l <=? cl) && (cr <=? r)) eqn:Hc.
  { apply wp_bind. eapply wp_vadd; [exact Hz|]. apply wp_bind. eapply wp_vadd; [exact Ht|]. apply wp_ret.
    rewrite (Z.mul_comm _ v). split; [apply local_set, below_refl; lia|].
    eapply node_ext; [by apply node_add|]. intros i Hi. unfold array_add. replace (_ && _) with true by lia. done. }
  assert (Hlt : cl < cr) by lia. pose proof (mid_bounds cl cr Hlt) as Hm. apply wp_bind.
  eapply wp_mono; [by apply (maintain_ok t root cl cr g)|]. cbv beta. intros t1 [L1 (Ht1 & Hz1 & N1 & N2)].
  assert (Hs1 : sized t1) by by eapply local_sized.
  unfold lchild, rchild. erewrite (child_index t1 root 1), (child_index t1 root 2) by (done || eauto).
  apply wp_bind, (wp_mono _ (fun t2 => local t1 t2 (2 * root + 1) /\ node t2 (2 * root + 1) cl (mid cl cr) (array_add l r v g))).
  { destruct (Z.leb_spec l (mid cl cr)); [apply IH; [done|done|lia|lia|done|lia]|]. apply wp_ret. split; [apply local_refl|].
    eapply node_ext; [exact N1|]. intros i Hi. unfold array_add. by replace (_ && _) with false by lia. }
  intros t2 [L2 N1']. assert (Hs2 : sized t2) by by eapply local_sized.
  assert (N2' : node t2 (2 * root + 2) (mid cl cr + 1) cr g) by (eapply (node_other t1 t2 root 1 2); [done|by left|done|done]).
  apply wp_bind, (wp_mono _ (fun t3 => local t2 t3 (2 * root + 2) /\ node t3 (2 * root + 2) (mid cl cr + 1) cr (array_add l r v g))).
  { destruct (Z.ltb_spec (mid cl cr) r); [apply IH; [done|done|lia|lia|done|lia]|]. apply wp_ret. split; [apply local_refl|].
    eapply node_ext; [exact N2'|]. intros i Hi. unfold array_add. by replace (_ && _) with false by lia. }
  intros t3 [L3 N2'']. assert (Hs3 : sized t3) by by eapply local_sized.
  assert (N1'' : node t3 (2 * root + 1) cl (mid cl cr) (array_add l r v g)) by (eapply (node_other t2 t3 root 2 1); [done|by right|done|done]).
  pose proof L2 as (_ & _ & A2). pose proof L3 as (_ & _ & A3).
  destruct (A2 root) as [E1 E2]; [intros Hk; apply below_ge in Hk; lia|]. destruct (A3 root) as [E3 E4]; [intros Hk; apply below_ge in Hk; lia|].
  apply wp_bind. eapply wp_mono; [eapply (pull_ok t3 root cl cr); [done|done|done|congruence|rewrite E3, E1; exact Ht1|done|done]|].
  intros tr [L4 N4]. apply wp_ret. split; [|done]. eapply local_trans; [exact L1|]. eapply local_trans; [eapply local_child; [|exact L2]; by left|].
  eapply local_trans; [eapply local_child; [|exact L3]; by right|exact L4].
Qed.

(** * Building *)

(** A subtree over [w] elements with root [root] has its indices below [n]. *)
Definition fits (n root w : Z) : Prop := exists h : nat, w <= 2 ^ Z.of_nat h /\ (root + 2) * 2 ^ Z.of_nat h <= n + 1.

Lemma fits_root n root w : 0 <= root -> fits n root w -> root < n.
Proof. intros Hr (h & _ & H). pose proof (Z.pow_pos_nonneg 2 (Z.of_nat h)). nia. Qed.

Lemma fits_child n root cl cr b :
  0 <= root -> cl < cr -> (b = 1 \/ b = 2) -> fits n root (cr - cl + 1) ->
  fits n (2 * root + b) (mid cl cr - cl + 1) /\ fits n (2 * root + b) (cr - (mid cl cr + 1) + 1).
Proof.
  intros Hr Hlt Hb (h & Hw & H). destruct h as [|h]; [cbn in Hw; lia|]. rewrite Nat2Z.inj_succ, Z.pow_succ_r in * by lia.
  pose proof (Z.pow_pos_nonneg 2 (Z.of_nat h)). assert (Hm : mid cl cr = cl + (cr - cl) / 2) by (unfold mid; by rewrite Z.quot_div_nonneg by lia).
  pose proof (Z.div_mod (cr - cl) 2). pose proof (Z.mod_pos_bound (cr - cl) 2). split; exists h; (split; [lia|nia]).
Qed.

Lemma fits_whole n : 1 <= n -> fits (4 * n) 0 n.
Proof.
  intros Hn. exists (Z.to_nat (Z.log2_up n)). rewrite Z2Nat.id by apply Z.log2_up_nonneg.
  destruct (Z.eq_dec n 1) as [->|]; [cbn; lia|]. pose proof (Z.log2_up_spec n ltac:(lia)) as [H1 H2]. split; [done|].
  pose proof (Z.log2_up_pos n ltac:(lia)). replace (Z.log2_up n) with (Z.succ (Z.pred (Z.log2_up n))) by lia.
  rewrite Z.pow_succ_r by lia. lia.
Qed.

Lemma zeros_ok n root cl cr :
  cl <= cr -> 0 <= root -> fits n root (cr - cl + 1) -> node (MkSeg (zreplicate n 0) (zreplicate n 0)) root cl cr (fun _ => 0).
Proof.
  intros Hle. revert root. revert cl cr Hle. apply (interval_ind (fun cl cr => forall root, 0 <= root -> fits n root (cr - cl + 1) -> _)).
  intros cl cr Hle IH1 IH2 root Hr Hf. pose proof (fits_root _ _ _ Hr Hf).
  assert (E : isum (fun _ => 0) cl cr = 0) by (unfold isum; generalize (seqZ cl (cr - cl + 1)) as L; induction L; cbn; lia).
  apply (node_intro _ _ _ _ _ 0); cbn [tree_ lazy_]; [done|done|rewrite zget_replicate, E by lia; done|by rewrite zget_replicate by lia| |].
  - intros Hlt. apply IH1; [done|lia|]. by apply (fits_child n root cl cr 1); [| |left|].
  - intros Hlt. apply IH2; [done|lia|]. by apply (fits_child n root cl cr 2); [| |right|].
Qed.

(** The element at [i] of the vector. *)
Definition vec (v : list Z) (i : Z) : Z := default 0 (zget v i).

Lemma seg_build_ok v fuel n root cl cr tr :
  n <= 2 ^ 31 -> zlen tr = n -> 0 <= cl <= cr -> cr < zlen v -> 0 <= root -> fits n root (cr - cl + 1) -> (Z.to_nat (cr - cl) < fuel)%nat ->
  wp (build fuel v root cl cr tr) (fun tr' =>
    local (MkSeg tr (zreplicate n 0)) (MkSeg tr' (zreplicate n 0)) root /\ node (MkSeg tr' (zreplicate n 0)) root cl cr (vec v)).
Proof.
  intros Hn Htr Hcl Hcr Hr Hf Hfu. revert cl cr root tr Htr Hcl Hcr Hr Hf Hfu.
  induction fuel as [|fuel IH]; intros cl cr root tr Htr Hcl Hcr Hr Hf Hfu; [lia|]. cbn [build].
  pose proof (fits_root _ _ _ Hr Hf) as Hroot. destruct (Z.eqb_spec cl cr) as [->|Hne].
  { apply wp_bind, wp_vget; [lia|]. intros x Hx. apply wp_vset; [lia|]. split.
    - split; [apply zlen_zset|]. split; [done|]. intros k Hk. cbn [tree_ lazy_]. split; [|done]. apply zget_zset_ne. intros <-. by apply Hk, below_refl.
    - apply (node_intro _ _ _ _ _ 0); cbn [tree_ lazy_]; [done|lia|rewrite zget_zset_eq, isum_one by lia; unfold vec; by rewrite Hx|by rewrite zget_replicate by lia|lia|lia]. }
  assert (Hlt : cl < cr) by lia. pose proof (mid_bounds cl cr Hlt) as Hm.
  destruct (fits_child n root cl cr 1 Hr Hlt ltac:(by left) Hf) as [F1 _]. destruct (fits_child n root cl cr 2 Hr Hlt ltac:(by right) Hf) as [_ F2].
  assert (2 * root + 1 < n) by (eapply fits_root; [|exact F1]; lia). assert (2 * root + 2 < n) by (eapply fits_root; [|exact F2]; lia).
  unfold lchild, rchild. rewrite !s32_id by (unfold is_s32; lia).
  replace (root * 2 + 1) with (2 * root + 1) by lia. replace (root * 2 + 2) with (2 * root + 2) by lia.
  apply wp_bind. eapply wp_mono; [apply IH; [done|lia|lia|lia|done|lia]|]. cbv beta. intros tr1 [L1 N1].
  assert (Hl1 : zlen tr1 = n) by (destruct L1 as [L1 _]; cbn in L1; lia).
  apply wp_bind. eapply wp_mono; [apply IH; [done|lia|lia|lia|done|lia]|]. cbv beta. intros tr2 [L2 N2].
  assert (Hl2 : zlen tr2 = n) by (destruct L2 as [L2 _]; cbn in L2; lia).
  assert (Hs2 : sized (MkSeg tr2 (zreplicate n 0))) by (split; cbn [tree_ lazy_]; rewrite ?zlen_replicate; lia).
  assert (N1' : node (MkSeg tr2 (zreplicate n 0)) (2 * root + 1) cl (mid cl cr) (vec v)) by (eapply (node_other _ _ root 2 1); [done|by right|exact L2|done]).
  destruct (zget_in_range tr2 root) as [x Hx]; [lia|].
  eapply wp_mono; [apply (pull_ok (MkSeg tr2 (zreplicate n 0)) root cl cr (vec v) x); [done|done|done| |done|done|done]|].
  { cbn. by rewrite zget_replicate by lia. }
  cbn [lazy_]. intros tr3 [L3 N3]. split; [|done]. eapply local_trans; [eapply local_child; [|exact L1]; by left|].
  eapply local_trans; [eapply local_child; [|exact L2]; by right|exact L3].
Qed.

(** The tree as a whole stands for the array [g]. *)
Definition holds (n : Z) (g : Z -> Z) (t : SegmentTree) : Prop :=
  sized t /\ zlen (tree_ t) = 4 * n /\ node t 0 0 (n - 1) g.

Lemma seg_init_ok v (b : bool) : 1 <= zlen v -> 4 * zlen v <= 2 ^ 31 ->
  wp (init v b new_seg) (holds (zlen v) (if b then vec v else fun _ => 0)).
Proof.
  intros H1 H2. unfold init, new_seg. cbn [tree_ lazy_]. rewrite (Z.mul_comm _ 4), u64_id by (unfold is_u64; lia).
  assert (E : resize0 (4 * zlen v) [] = zreplicate (4 * zlen v) 0) by (unfold resize0; rewrite take_nil; cbn [app]; f_equal; unfold zlen; cbn; lia).
  rewrite E. rewrite u64_id, s32_id by (unfold is_u64, is_s32; lia). pose proof (fits_whole _ H1) as Hf.
  assert (Hz : zlen (zreplicate (4 * zlen v) 0) = 4 * zlen v) by (rewrite zlen_replicate; lia). destruct b.
  - apply wp_bind. eapply wp_mono; [apply (seg_build_ok v _ (4 * zlen v)); [lia|done|lia|lia|lia|by replace (zlen v - 1 - 0 + 1) with (zlen v) by lia|unfold zlen; lia]|].
    intros tr [(L1 & _ & _) N]. cbn [tree_] in L1. apply wp_ret. split; [split; cbn [tree_ lazy_]; lia|]. split; [cbn [tree_]; lia|done].
  - apply wp_ret. split; [split; cbn [tree_ lazy_]; lia|]. split; [done|]. apply zeros_ok; [lia|lia|].
    by replace (zlen v - 1 - 0 + 1) with (zlen v) by lia.
Qed.

Lemma last_index_ok n g t : 1 <= n -> holds n g t -> last_index t = n - 1.
Proof.
  intros Hn (Hs & Hl & _). unfold last_index. rewrite Hl, (Z.mul_comm 4), Z.div_mul by lia. destruct Hs as [Hs _].
  rewrite u64_id, s32_id by (unfold is_u64, is_s32; lia). done.
Qed.

(** * Sequences of operations *)

Inductive seg_op := SAdd (l r v : Z) | SSum (l r : Z).

Fixpoint run_seg (os : list seg_op) (t : SegmentTree) : outcome (list Z) :=
  match os with
  | [] => Ok []
  | SAdd l r v :: os => t ← range_add l r v t; run_seg os t
  | SSum l r :: os => '(s, t) ← range_sum l r t; a ← run_seg os t; Ok (s :: a)
  end.

(** The same on an array. *)
Fixpoint array_seg (os : list seg_op) (g : Z -> Z) : list Z :=
  match os with
  | [] => []
  | SAdd l r v :: os => array_seg os (array_add l r v g)
  | SSum l r :: os => isum g l r :: array_seg os g
  end.

(** Every interval is not empty and inside the array. *)
Definition seg_in (n : Z) (o : seg_op) : Prop :=
  match o with SAdd l r _ | SSum l r => 0 <= l <= r /\ r < n end.

Lemma run_seg_ok n os g t : 1 <= n -> holds n g t -> Forall (seg_in n) os -> run_seg os t = Ok (array_seg os g).
Proof.
  intros Hn Ht Hos. revert g t Ht. induction Hos as [|o os Ho _ IH]; intros g t Ht; [done|].
  pose proof (last_index_ok n g t Hn Ht) as El. destruct Ht as (Hs & Hl & Hnode).
  assert (Hfu : (Z.to_nat (n - 1 - 0) < depth_fuel t)%nat) by (unfold depth_fuel; unfold zlen in Hl; lia).
  assert (Hnext : forall g' t', local t t' 0 -> node t' 0 0 (n - 1) g' -> holds n g' t').
  { intros g' t' L N. split; [by eapply local_sized|]. split; [destruct L; lia|done]. }
  destruct o as [l r v|l r]; cbn [run_seg array_seg seg_in] in *.
  - unfold range_add. rewrite El. destruct (add_ok (depth_fuel t) l r v 0 (n - 1) 0 g t) as (t' & -> & L & N); [done|done|lia|lia|lia|done|].
    cbn [mbind outcome_bind]. apply IH. by apply Hnext.
  - unfold range_sum. rewrite El. destruct (seg_query_ok (depth_fuel t) l r 0 (n - 1) 0 g t) as ([s t'] & -> & E & L & N); [done|done|lia|lia|lia|done|].
    cbn [mbind outcome_bind fst snd] in *. rewrite (IH g t') by by apply Hnext. cbn. rewrite E. do 2 f_equal. f_equal; lia.
Qed.

(** C25: A segment tree initialised from a non-empty vector behaves as the array: any
    sequence of range_add and range_sum on ranges inside the vector returns without an
    out-of-range access, and each range_sum is the sum of the updated array over the
    range, lazy marks included. *)
Theorem segment_tree_refines_array (v : list Z) (b : bool) (os : list seg_op) :
  1 <= zlen v -> 4 * zlen v <= 2 ^ 31 -> Forall (seg_in (zlen v)) os ->
  (t ← init v b new_seg; run_seg os t) = Ok (array_seg os (if b then vec v else fun _ => 0)).
Proof.
  intros H1 H2 Hos. destruct (seg_init_ok v b H1 H2) as (t & -> & Ht). cbn [mbind outcome_bind]. by eapply run_seg_ok.
Qed.

Lemma segment_tree_refines_array_witness :
  (t ← init [1; 2; 3; 4; 5] true new_seg; run_seg [SAdd 1 3 10; SSum 2 4; SAdd 0 4 1; SSum 0 2] t) = Ok [32; 29].
Proof.
  rewrite (segment_tree_refines_array [1; 2; 3; 4; 5] true [SAdd 1 3 10; SSum 2 4; SAdd 0 4 1; SSum 0 2]); [reflexivity|unfold zlen; cbn; lia|unfold zlen; cbn; lia|].
  repeat constructor; unfold zlen; cbn; lia.
Defined.

(** * range_set *)

(** The search for [range_set] goes below a leaf that is not in the interval. *)
Lemma set_node_stuck fuel l r v cr root t t' : 0 < l -> 0 <= cr -> set_node fuel l r v 0 cr root t <> Ok t'.
Proof.
  intros Hl. revert cr root t t'. induction fuel as [|fuel IH]; intros cr root t t' Hcr; [done|]. cbn [set_node].
  destruct (Z.leb_spec l 0); [lia|]. cbn [andb]. destruct (set_maintain 0 cr root t) as [t1|e]; [|done]. cbn [mbind outcome_bind].
  assert (Hm : 0 <= mid 0 cr) by (unfold mid; rewrite Z.quot_div_nonneg by lia; pose proof (Z.div_pos (cr - 0) 2); lia).
  destruct (Z.leb_spec 0 (mid 0 cr)); [|lia].
  destruct (set_node fuel l r v 0 (mid 0 cr) (lchild root) t1) as [t2|e] eqn:E; [by destruct (IH _ _ _ t2 Hm E)|done].
Qed.

(** range_set on a range that does not begin at the first element never returns,
    whatever the fuel: its recursion tests the interval of the node against itself and
    descends below the leaves. *)
Theorem range_set_does_not_return (v : list Z) (b : bool) (t : SegmentTree) (fuel : nat) (l r value : Z) :
  1 <= zlen v -> 4 * zlen v <= 2 ^ 31 -> init v b new_seg = Ok t -> 0 < l ->
  forall t', range_set fuel l r value t <> Ok t'.
Proof.
  intros H1 H2 E Hl t'. destruct (seg_init_ok v b H1 H2) as (t0 & E0 & Ht). rewrite E in E0. injection E0 as <-.
  unfold range_set. rewrite (last_index_ok _ _ _ H1 Ht). apply set_node_stuck; lia.
Qed.

Lemma range_set_does_not_return_witness :
  exists t, init [1; 2; 3] true new_seg = Ok t /\ forall t', range_set 1000 1 2 7 t <> Ok t'.
Proof.
  eexists. split; [vm_compute; reflexivity|]. apply (range_set_does_not_return [1; 2; 3] true); [unfold zlen; cbn; lia|unfold zlen; cbn; lia|vm_compute; reflexivity|lia].
Defined.

(** The marks of [range_set] are taken for additions by the other operations. *)
Example range_set_then_sum :
  (t ← init [1; 2; 3] true new_seg; t ← range_set 9 0 2 7 t; '(a, _) ← range_sum 1 1 t; Ok a) = Ok 9.
Proof. vm_compute. reflexivity. Qed.
