(* ===== verification/ShmList.v ===== *)
(** The chunk list of the shared-memory message queue: [ShmMsgChunkList] of
    cpp/examples/shm_msg_queue.h and .cc.

    The nodes live in one array in shared memory; a [Node*] is an index into the
    array and [None] is [nullptr].  The free nodes form a linked stack and the
    queued ones a linked list with a tail pointer. *)

From S2P Require Import Prelude.

Record Node := MkNode { size : Z; data : Z; next : option Z }.

Record ChunkRegionList := MkRegion {
  head : option Z;
  tail : option Z;
  free_list_head : option Z;
  nodes : list Node
}.

Definition set_size_data (s d : Z) (n : Node) : Node := MkNode s d (next n).
Definition set_next (p : option Z) (n : Node) : Node := MkNode (size n) (data n) p.

(** [node->f = ...] for the node at [i]. *)
Definition modify (i : Z) (f : Node -> Node) (l : ChunkRegionList) : outcome ChunkRegionList :=
  n ← vget (nodes l) i; v ← vset (nodes l) i (f n); Ok (MkRegion (head l) (tail l) (free_list_head l) v).

(** [init]: the mapping is zero; [mmap_ok] is whether [mmap] succeeded. *)
Definition init (mmap_ok : bool) (capacity : Z) : outcome ChunkRegionList :=
  require mmap_ok AssertFail;;
  let zero := zreplicate capacity (MkNode 0 0 None) in
  v ← for_range 0 (capacity - 1) (fun i v => vset v i (MkNode 0 0 (Some (i + 1)))) zero;
  v ← vset v (capacity - 1) (MkNode 0 0 None);
  Ok (MkRegion None None (Some 0) v).

Definition allocate_node (l : ChunkRegionList) : outcome (option Z * ChunkRegionList) :=
  match free_list_head l with
  | Some node => n ← vget (nodes l) node; Ok (Some node, MkRegion (head l) (tail l) (next n) (nodes l))
  | None => Ok (None, l)
  end.

Definition deallocate_node (node : Z) (l : ChunkRegionList) : outcome ChunkRegionList :=
  l ← modify node (set_next (free_list_head l)) l;
  Ok (MkRegion (head l) (tail l) (Some node) (nodes l)).

Definition put (node : Z) (l : ChunkRegionList) : outcome ChunkRegionList :=
  l ← modify node (set_next None) l;
  l ← match tail l with Some t => modify t (set_next (Some node)) l | None => Ok l end;
  Ok (MkRegion (match head l with Some h => Some h | None => Some node end) (Some node) (free_list_head l) (nodes l)).

Definition pop (l : ChunkRegionList) : outcome (option Z * ChunkRegionList) :=
  match head l with
  | None => Ok (None, l)
  | Some node =>
      n ← vget (nodes l) node;
      Ok (Some node, MkRegion (next n) (match next n with None => None | Some _ => tail l end) (free_list_head l) (nodes l))
  end.

Example chunk_list_run :
  (l ← init true 3; '(a, l) ← allocate_node l; '(b, l) ← allocate_node l;
   l ← put 1 l; l ← put 0 l; '(c, l) ← pop l; l ← deallocate_node 1 l; '(d, l) ← allocate_node l; '(e, l) ← pop l; '(f, l) ← pop l;
   Ok (a, b, c, d, e, f)) = Ok (Some 0, Some 1, Some 1, Some 1, Some 0, None).
Proof. vm_compute. reflexivity. Qed.

(** * Linked lists in the array *)

(** Following [next] from [p] visits [ids] and ends in [nullptr]. *)
Fixpoint chain (v : list Node) (p : option Z) (ids : list Z) : Prop :=
  match ids with
  | [] => p = None
  | i :: ids => p = Some i /\ exists n, zget v i = Some n /\ chain v (next n) ids
  end.

(** Only the [next] fields of the nodes of the chain matter. *)
Lemma chain_agree v v' p ids :
  chain v p ids -> (forall i n, i ∈ ids -> zget v i = Some n -> exists n', zget v' i = Some n' /\ next n' = next n) -> chain v' p ids.
Proof.
  revert p. induction ids as [|i ids IH]; intros p; [done|]. intros (-> & n & Hn & Hc) Hag. split; [done|].
  destruct (Hag i n ltac:(by left) Hn) as (n' & Hn' & E). exists n'. split; [done|]. rewrite E. apply IH; [done|].
  intros j m Hj. apply Hag. by right.
Qed.

Lemma chain_set_other v p ids i n : chain v p ids -> i ∉ ids -> chain (zset v i n) p ids.
Proof.
  intros Hc Hi. eapply chain_agree; [exact Hc|]. intros j m Hj Hm. exists m. split; [|done]. rewrite zget_zset_ne; [done|]. by intros ->.
Qed.

(** A node is put behind the last one. *)
Lemma chain_snoc v p ids t nt i n :
  chain v p (ids ++ [t]) -> i ∉ ids ++ [t] -> NoDup (ids ++ [t]) -> zget v i = Some n -> next n = None -> zget v t = Some nt ->
  chain (zset v t (set_next (Some i) nt)) p (ids ++ [t; i]).
Proof.
  intros Hc Hi Hnd Hn Hnn Ht. pose proof (zget_bounds _ _ _ Ht). revert p Hc Hi Hnd. induction ids as [|j ids IH]; intros p Hc Hi Hnd; cbn [app chain] in *.
  - destruct Hc as (-> & nt' & Hnt & _). split; [done|]. exists (set_next (Some i) nt). rewrite zget_zset_eq by done. split; [done|].
    split; [done|]. exists n. rewrite zget_zset_ne; [done|]. intros ->. apply Hi. by left.
  - destruct Hc as (-> & nj & Hj & Hc). apply list.NoDup_cons in Hnd as [Hjn Hnd]. split; [done|]. exists nj.
    rewrite zget_zset_ne; [|intros ->; apply Hjn, elem_of_app; right; by left]. split; [done|]. apply IH; [done| |done].
    intros Hin. apply Hi. by right.
Qed.

(** * The list as a free stack, a queue and the nodes in use *)

Record holds (l : ChunkRegionList) (free queued used : list Z) : Prop := {
  h_free : chain (nodes l) (free_list_head l) free;
  h_queue : chain (nodes l) (head l) queued;
  h_tail : tail l = list.last queued;
  h_all : free ++ queued ++ used ≡ₚ seqZ 0 (zlen (nodes l))
}.

Lemma holds_nodup l free queued used : holds l free queued used -> NoDup (free ++ queued ++ used).
Proof. intros [_ _ _ Ha]. rewrite Ha. apply NoDup_seqZ. Qed.

Lemma holds_in l free queued used i : holds l free queued used -> i ∈ free ++ queued ++ used -> 0 <= i < zlen (nodes l).
Proof. intros [_ _ _ Ha]. rewrite Ha, elem_of_seqZ. lia. Qed.

(** The nodes not in [queued] and [free] do not matter. *)
Lemma holds_set_used l free queued used i f :
  holds l free queued used -> i ∈ used ->
  wp (modify i f l) (fun l' => holds l' free queued used /\ exists n, zget (nodes l) i = Some n /\ nodes l' = zset (nodes l) i (f n)).
Proof.
  intros H Hi. pose proof (holds_nodup _ _ _ _ H) as Hnd. pose proof (holds_in _ _ _ _ i H ltac:(rewrite !elem_of_app; auto)) as Hr.
  apply list.NoDup_app in Hnd as (_ & H1 & Hnd). apply list.NoDup_app in Hnd as (_ & H2 & _).
  unfold modify. apply wp_bind, wp_vget; [done|]. intros n Hn. apply wp_bind, wp_vset; [done|]. apply wp_ret. split; [|by exists n].
  destruct H as [Hf Hq Ht Ha]. split; cbn [nodes free_list_head head tail]; [| |done|by rewrite zlen_zset].
  - apply chain_set_other; [done|]. intros Hin. apply (H1 i Hin). rewrite elem_of_app. by right.
  - apply chain_set_other; [done|]. intros Hin. by apply (H2 i Hin).
Qed.

(** The sizes and addresses of the chunks are the same. *)
Definition same_data (l l' : ChunkRegionList) : Prop :=
  zlen (nodes l') = zlen (nodes l) /\
  forall i n, zget (nodes l) i = Some n -> exists n', zget (nodes l') i = Some n' /\ size n' = size n /\ data n' = data n.

Lemma same_data_refl l l' : nodes l' = nodes l -> same_data l l'.
Proof. intros E. unfold same_data. rewrite E. split; [done|]. eauto. Qed.

Lemma same_data_next l l' i p n :
  zget (nodes l) i = Some n -> nodes l' = zset (nodes l) i (set_next p n) -> same_data l l'.
Proof.
  intros Hn E. unfold same_data. rewrite E, zlen_zset. split; [done|]. intros j m Hj. pose proof (zget_bounds _ _ _ Hn).
  destruct (decide (i = j)) as [<-|Hij].
  - rewrite zget_zset_eq by done. rewrite Hn in Hj. injection Hj as <-. by eexists.
  - rewrite zget_zset_ne by done. eauto.
Qed.

Lemma same_data_trans l1 l2 l3 : same_data l1 l2 -> same_data l2 l3 -> same_data l1 l3.
Proof.
  intros [E1 H1] [E2 H2]. split; [congruence|]. intros i n Hn. destruct (H1 i n Hn) as (n2 & Hn2 & A & B).
  destruct (H2 i n2 Hn2) as (n3 & Hn3 & C & D). exists n3. split; [done|]. split; congruence.
Qed.

Lemma holds_used_perm l free queued used used' : used ≡ₚ used' -> holds l free queued used -> holds l free queued used'.
Proof. intros HP [H1 H2 H3 H4]. split; try done. by rewrite <- HP. Qed.

Lemma allocate_node_ok l free queued used :
  holds l free queued used ->
  match free with
  | [] => allocate_node l = Ok (None, l)
  | i :: free' => exists l', allocate_node l = Ok (Some i, l') /\ holds l' free' queued (i :: used) /\ same_data l l'
  end.
Proof.
  intros [Hf Hq Ht Ha]. unfold allocate_node. destruct free as [|i free]; cbn [chain] in Hf; [by rewrite Hf|].
  destruct Hf as (-> & n & Hn & Hf). rewrite (vget_some _ _ _ Hn). cbn [mbind outcome_bind]. eexists. split; [reflexivity|].
  split; [|by apply same_data_refl]. split; try done. cbn [nodes]. rewrite <- Ha. cbn [app]. by rewrite <- !Permutation_middle.
Qed.

Lemma deallocate_node_ok l free queued used i :
  holds l free queued (i :: used) ->
  wp (deallocate_node i l) (fun l' => holds l' (i :: free) queued used /\ same_data l l').
Proof.
  intros H. pose proof (holds_nodup _ _ _ _ H) as Hnd. unfold deallocate_node. apply wp_bind.
  eapply wp_mono; [apply (holds_set_used _ _ _ _ i _ H); by left|]. cbv beta. intros l1 [H1 (n & Hn & E)]. apply wp_ret.
  pose proof (zget_bounds _ _ _ Hn). split; [|by eapply same_data_next; cbn]. destruct H1 as [Hf Hq Ht Ha]. split; cbn [nodes head tail free_list_head]; try done.
  - split; [done|]. exists (set_next (free_list_head l) n). rewrite E, zget_zset_eq by done. split; [done|]. cbn [set_next next].
    rewrite <- E. destruct H as [Hf0 _ _ _]. apply list.NoDup_app in Hnd as (_ & Hd & _).
    rewrite E. apply chain_set_other; [done|]. intros Hin. apply (Hd i Hin). rewrite elem_of_app, elem_of_cons. auto.
  - rewrite <- Ha. cbn [app]. by rewrite <- !Permutation_middle.
Qed.

Lemma last_none {A} (l : list A) : list.last l = None -> l = [].
Proof. by rewrite last_None. Qed.

Lemma put_ok l free queued used i :
  holds l free queued (i :: used) ->
  wp (put i l) (fun l' => holds l' free (queued ++ [i]) used /\ same_data l l').
Proof.
  intros H. pose proof (holds_nodup _ _ _ _ H) as Hnd. unfold put. apply wp_bind.
  eapply wp_mono; [apply (holds_set_used _ _ _ _ i _ H); by left|]. cbv beta. intros l1 [H1 (n & Hn & E)].
  pose proof (zget_bounds _ _ _ Hn) as Hb. assert (S1 : same_data l l1) by by eapply same_data_next.
  assert (Hn1 : zget (nodes l1) i = Some (set_next None n)) by by rewrite E, zget_zset_eq.
  apply list.NoDup_app in Hnd as (Hnf & Hfd & Hnd). apply list.NoDup_app in Hnd as (Hnq & Hqd & _).
  assert (Hif : i ∉ free) by (intros Hin; apply (Hfd i Hin); rewrite elem_of_app, elem_of_cons; auto).
  assert (Hiq : i ∉ queued) by (intros Hin; apply (Hqd i Hin); by left).
  destruct H1 as [Hf Hq Ht Ha]. assert (Hall : free ++ (queued ++ [i]) ++ used ≡ₚ seqZ 0 (zlen (nodes l1))) by by rewrite <- Ha, <- !app_assoc.
  destruct (tail l1) as [t|] eqn:Et.
  - symmetry in Ht. apply last_Some in Ht as [qs ->]. assert (Htq : t ∈ qs ++ [t]) by (apply elem_of_app; right; by left).
    assert (Htf : t ∉ free) by (intros Hin; apply (Hfd t Hin); rewrite elem_of_app; auto).
    assert (Hbt : 0 <= t < zlen (nodes l1)).
    { assert (Hin : t ∈ seqZ 0 (zlen (nodes l1))) by (rewrite <- Ha, !elem_of_app; right; left; by apply elem_of_app). apply elem_of_seqZ in Hin. lia. }
    apply wp_bind. unfold modify. apply wp_bind, wp_vget; [done|]. intros nt Hnt. apply wp_bind, wp_vset; [done|]. apply wp_ret. apply wp_ret.
    split; [|eapply same_data_trans; [exact S1|]; by eapply same_data_next].
    split; cbn [nodes head tail free_list_head].
    + by apply chain_set_other.
    + destruct (head l1) as [h|] eqn:Eh; [|by destruct qs as [|? ?]; destruct Hq]. rewrite <- app_assoc. cbn [app].
      eapply chain_snoc; [exact Hq|done|done|exact Hn1|done|exact Hnt].
    + by rewrite last_snoc.
    + by rewrite zlen_zset.
  - symmetry in Ht. apply last_none in Ht. subst queued. cbn [chain] in Hq. apply wp_bind, wp_ret, wp_ret. rewrite Hq.
    split; [|eapply same_data_trans; [exact S1|]; by apply same_data_refl].
    split; cbn [nodes head tail free_list_head app]; [done| |done|done]. split; [done|]. eexists. split; [exact Hn1|]. done.
Qed.

Lemma list_pop_ok l free queued used :
  holds l free queued used ->
  match queued with
  | [] => pop l = Ok (None, l)
  | i :: queued' => exists l', pop l = Ok (Some i, l') /\ holds l' free queued' (i :: used) /\ same_data l l'
  end.
Proof.
  intros [Hf Hq Ht Ha]. unfold pop. destruct queued as [|i queued]; cbn [chain] in Hq; [by rewrite Hq|].
  destruct Hq as (-> & n & Hn & Hq). rewrite (vget_some _ _ _ Hn). cbn [mbind outcome_bind]. eexists. split; [reflexivity|].
  split; [|by apply same_data_refl]. split; cbn [nodes head tail free_list_head]; try done.
  - destruct queued as [|j queued]; cbn [chain] in Hq; [by rewrite Hq|]. destruct Hq as (-> & _). done.
  - rewrite <- Ha. cbn [app]. by rewrite <- Permutation_middle.
Qed.

(** The free list that [init] builds. *)
Lemma chain_ramp v lo n c :
  lo + Z.of_nat n = c -> 0 <= lo -> (forall i, lo <= i < c - 1 -> zget v i = Some (MkNode 0 0 (Some (i + 1)))) ->
  (lo < c -> zget v (c - 1) = Some (MkNode 0 0 None)) -> chain v (if decide (lo < c) then Some lo else None) (seqZ lo (Z.of_nat n)).
Proof.
  intros Hc H0 Hv Hlast. revert lo Hc H0 Hv Hlast. induction n as [|n IH]; intros lo Hc H0 Hv Hlast.
  { rewrite seqZ_nil by lia. cbn. by rewrite decide_False by lia. }
  rewrite seqZ_cons by lia. cbn [chain]. rewrite decide_True by lia. split; [done|].
  assert (IH' : chain v (if decide (lo + 1 < c) then Some (lo + 1) else None) (seqZ (Z.succ lo) (Z.pred (Z.of_nat (S n))))).
  { replace (Z.succ lo) with (lo + 1) by lia. replace (Z.pred (Z.of_nat (S n))) with (Z.of_nat n) by lia. apply IH; [lia|lia| |]; intros; [apply Hv; lia|apply Hlast; lia]. }
  destruct (decide (lo + 1 < c)).
  - exists (MkNode 0 0 (Some (lo + 1))). split; [apply Hv; lia|done].
  - exists (MkNode 0 0 None). split; [|done]. replace lo with (c - 1) by lia. apply Hlast. lia.
Qed.

Lemma init_holds capacity :
  1 <= capacity -> wp (init true capacity) (fun l => holds l (seqZ 0 capacity) [] [] /\ zlen (nodes l) = capacity).
Proof.
  intros Hc. unfold init. cbn [require mbind outcome_bind]. change (wp (?m ≫= ?k) ?Q) with (wp (mbind k m) Q).
  apply wp_bind. apply (wp_for_range (fun k v => zlen v = capacity /\ forall i, 0 <= i < k -> zget v i = Some (MkNode 0 0 (Some (i + 1))))); [lia| | |].
  - rewrite zlen_replicate. split; [lia|]. lia.
  - intros k v Hk [Hl Hv]. apply wp_vset; [lia|]. rewrite zlen_zset. split; [done|]. intros i Hi. destruct (decide (i = k)) as [->|].
    + apply zget_zset_eq. lia.
    + rewrite zget_zset_ne by lia. apply Hv. lia.
  - intros v [Hl Hv]. apply wp_bind, wp_vset; [lia|]. apply wp_ret. cbn [nodes]. rewrite zlen_zset. split; [|done].
    split; cbn [nodes head tail free_list_head]; [|done|done|by rewrite zlen_zset, Hl, !app_nil_r].
    pose proof (chain_ramp (zset v (capacity - 1) (MkNode 0 0 None)) 0 (Z.to_nat capacity) capacity) as H.
    rewrite Z2Nat.id, decide_True in H by lia. apply H; [lia|lia| |].
    + intros i Hi. rewrite zget_zset_ne by lia. by apply Hv.
    + intros _. apply zget_zset_eq. lia.
Qed.
