(* ===== verification/ShmQueue.v ===== *)
(** The shared-memory message queue: [SharedMemoryMessageQueue] of
    cpp/examples/shm_msg_queue.h and .cc.

    Three mappings are shared by the processes: the chunk list (ShmList.v), the
    control block, a byte buffer that [build_control_block] fills with an
    [ObjectBuilder] and that holds the buddy allocator (BuddyBuilder.v), and the
    message bytes.  The process-shared mutex makes every critical section one
    step on this state, so a run of several processes is a sequence of the
    steps below.  The mutex itself and the [pthread] calls are left out. *)

From S2P Require Import Prelude Bytes Buddy BuddySpec BuddyBuilder ShmList.

Record shm_queue := MkShm {
  chunk_list_ : ChunkRegionList;
  control_block_ : list Z;
  buffer_addr_ : Z;
  buffer_mmap_size_ : Z;
  shm_bytes : list Z
}.

(** [MmapedControlBlock]: [active_preducer_count] at 0, [memory_allocator] at 4,
    [mutex_] at 8; 48 bytes, aligned to 8. *)
Definition sizeof_control_block : Z := 48.
Definition memory_allocator : Z := 4.

Definition kMinBlockSize : Z := 512.

Definition num_order_step (min_block_size : Z) (st : Z * Z) : outcome (Z * Z + Z) :=
  let '(pool_size, num_order) := st in
  if min_block_size <=? pool_size then Ok (inl (pool_size / 2, u32 (num_order + 1))) else Ok (inr num_order).

Definition compute_num_order (pool_size min_block_size : Z) : outcome Z :=
  while_fuel 65 (num_order_step min_block_size) (pool_size, 0).

Definition build_control_block (pool_size pool_addr : Z) : outcome (list Z) :=
  let '(object, builder) := builder_allocate sizeof_control_block 8 1 (MkBuilder []) in
  num_order ← compute_num_order pool_size kMinBlockSize;
  '(allocator_offset, builder) ← create pool_addr pool_size num_order builder;
  builder ← update_object_pointer_member object memory_allocator (u32 allocator_offset) builder;
  Ok (buffer_ builder).

(** [control_block_->active_preducer_count] *)
Definition set_count (cb : list Z) (count : Z) : outcome (list Z) := wr_u32 cb 0 count.
Definition get_count (cb : list Z) : outcome Z := rd_s32 cb 0.

(** [init]: [list_mapped], [buffer_mapped] and [control_mapped] are the results
    of the three [mmap] calls; [None] is the return value [false]. *)
Definition init (list_mapped : bool) (buffer_mapped : option Z) (control_mapped : bool) (capacity buffer_size : Z)
  : outcome (option shm_queue) :=
  cl ← ShmList.init list_mapped (s32 capacity);
  let mmap_size := u64 (buffer_size * (1024 * 1024)) in
  match buffer_mapped with
  | None => Ok None
  | Some addr =>
      control_block_buffer ← build_control_block mmap_size addr;
      let control_size := compute_aligned_size (zlen control_block_buffer) 4096 in
      if control_mapped then
        cb ← wr (zreplicate control_size 0) 0 control_block_buffer;
        cb ← set_count cb (-1);
        Ok (Some (MkShm cl cb addr mmap_size (zreplicate mmap_size 0)))
      else Ok None
  end.

Definition set_list (cl : ChunkRegionList) (q : shm_queue) : shm_queue :=
  MkShm cl (control_block_ q) (buffer_addr_ q) (buffer_mmap_size_ q) (shm_bytes q).
Definition set_control (cb : list Z) (q : shm_queue) : shm_queue :=
  MkShm (chunk_list_ q) cb (buffer_addr_ q) (buffer_mmap_size_ q) (shm_bytes q).
Definition set_bytes (bs : list Z) (q : shm_queue) : shm_queue :=
  MkShm (chunk_list_ q) (control_block_ q) (buffer_addr_ q) (buffer_mmap_size_ q) bs.

(** The lambda [try_allocate]: the chunk id and its address. *)
Definition try_allocate (size : Z) (q : shm_queue) : outcome (option (Z * Z) * shm_queue) :=
  '(node, cl) ← allocate_node (chunk_list_ q);
  match node with
  | None => Ok (None, q)
  | Some node =>
      o ← address (control_block_ q) memory_allocator;
      '(addr, b) ← builder_alloc size o (MkBuilder (control_block_ q));
      if addr =? 0 then
        cl ← deallocate_node node cl;
        Ok (None, set_list cl (set_control (buffer_ b) q))
      else
        cl ← modify node (set_size_data size addr) cl;
        Ok (Some (u32 node, addr), set_list cl (set_control (buffer_ b) q))
  end.

(** The loop of [allocate]; [fuel] bounds the rounds of a blocking call. *)
Definition allocate_step (size : Z) (block : bool) (q : shm_queue) : outcome (shm_queue + option (Z * Z) * shm_queue) :=
  '(r, q) ← try_allocate size q;
  match r with
  | Some x => Ok (inr (Some x, q))
  | None => if block then Ok (inl q) else Ok (inr (None, q))
  end.

Definition allocate (fuel : nat) (size : Z) (block : bool) (q : shm_queue) : outcome (option (Z * Z) * shm_queue) :=
  require (size <=? buffer_mmap_size_ q) AssertFail;;
  while_fuel fuel (allocate_step size block) q.

(** [enqueue(chunk_id)] *)
Definition enqueue_chunk (chunk_id : Z) (q : shm_queue) : outcome shm_queue :=
  cl ← put chunk_id (chunk_list_ q); Ok (set_list cl q).

(** [memcpy(addr, msg, msg_size)] into the message bytes. *)
Definition copy_in (addr : Z) (msg : list Z) (q : shm_queue) : outcome shm_queue :=
  bs ← wr (shm_bytes q) (addr - buffer_addr_ q) msg; Ok (set_bytes bs q).

(** [enqueue(msg, msg_size)] *)
Definition enqueue (fuel : nat) (msg : list Z) (q : shm_queue) : outcome (bool * shm_queue) :=
  '(r, q) ← allocate fuel (zlen msg) true q;
  match r with
  | None => Ok (false, q)
  | Some (chunk_id, chunk_addr) =>
      q ← copy_in chunk_addr msg q;
      q ← enqueue_chunk chunk_id q;
      Ok (true, q)
  end.

Inductive Status := SOk (chunk_id addr chunk_size : Z) | STimeout | SClosed.

(** One round of [dequeue], under the lock; [None]: sleep and try again. *)
Definition dequeue_round (q : shm_queue) : outcome (option Status * shm_queue) :=
  '(node, cl) ← pop (chunk_list_ q);
  match node with
  | Some i => n ← vget (nodes cl) i; Ok (Some (SOk (u32 i) (data n) (size n)), set_list cl q)
  | None =>
      count ← get_count (control_block_ q);
      if count =? 0 then Ok (Some SClosed, set_list cl q) else Ok (None, set_list cl q)
  end.

Definition int64_max : Z := 2 ^ 63 - 1.

(** [elapsed i]: the time since the start when the loop test is made for the
    [i]-th time. *)
Definition dequeue_step (elapsed : nat -> Z) (timeout_us : Z) (st : nat * shm_queue)
  : outcome (nat * shm_queue + Status * shm_queue) :=
  let '(i, q) := st in
  if (timeout_us =? int64_max) || (elapsed i <? timeout_us) then
    '(r, q) ← dequeue_round q;
    match r with Some s => Ok (inr (s, q)) | None => Ok (inl (S i, q)) end
  else Ok (inr (STimeout, q)).

Definition dequeue (fuel : nat) (elapsed : nat -> Z) (timeout_us : Z) (q : shm_queue) : outcome (Status * shm_queue) :=
  while_fuel fuel (dequeue_step elapsed timeout_us) (0%nat, q).

Definition release_chunk (chunk_id : Z) (q : shm_queue) : outcome shm_queue :=
  n ← vget (nodes (chunk_list_ q)) chunk_id;
  o ← address (control_block_ q) memory_allocator;
  b ← builder_dealloc (data n) (size n) o (MkBuilder (control_block_ q));
  cl ← deallocate_node chunk_id (chunk_list_ q);
  Ok (set_list cl (set_control (buffer_ b) q)).

Definition set_preducer_count (count : Z) (q : shm_queue) : outcome shm_queue :=
  cb ← set_count (control_block_ q) count; Ok (set_control cb q).

Definition signal_preducing_complete (q : shm_queue) : outcome shm_queue :=
  count ← get_count (control_block_ q);
  cb ← set_count (control_block_ q) (s32 (count - 1));
  Ok (set_control cb q).

Definition close (q : shm_queue) : outcome shm_queue := signal_preducing_complete q.

(** A queue over a pool of 4096 bytes. *)
Example shm_queue_run :
  (cl ← ShmList.init true 3;
   cb ← build_control_block 4096 65536; cb ← set_count cb 1;
   let q := MkShm cl cb 65536 4096 (zreplicate 4096 0) in
   '(a, q) ← enqueue 1 [1; 2; 3] q; '(b, q) ← enqueue 1 [4; 5] q;
   '(s, q) ← dequeue 1 (fun _ => 0) 100 q; q ← release_chunk 0 q; q ← close q;
   '(t, q) ← dequeue 1 (fun _ => 0) 100 q; q ← release_chunk 1 q; '(u, q) ← dequeue 1 (fun _ => 0) 100 q;
   Ok (a, b, s, t, u)) = Ok (true, true, SOk 0 65536 3, SOk 1 66048 2, SClosed).
Proof. vm_compute. reflexivity. Qed.
