(* ===== verification/ShmSpec.v ===== *)
(** The shared-memory message queue delivers messages in order.

    Abstractly the queue is three lists of chunks: those a producer has
    allocated and is filling, those in the queue, and those a consumer has taken
    and not released.  A chunk has an id, an address and its bytes.  Every
    critical section of the code, in any interleaving of the processes, is a step
    of this specification. *)

From S2P Require Import Prelude Bytes Buddy BuddySpec BuddyBuilder ShmList ShmQueue.

(** * Accesses outside a range of bytes *)

Lemma rd_replace (a m m' c : list Z) off n :
  zlen m = zlen m' -> 0 <= off -> 0 <= n -> off + n <= zlen a \/ zlen a + zlen m <= off ->
  rd (a ++ m' ++ c) off n = rd (a ++ m ++ c) off n.
Proof.
  intros Hm Ho Hn Hoff. unfold rd. rewrite !zlen_app, Hm. destruct (_ && _) eqn:Hc; [|done]. cbn [require mbind outcome_bind]. f_equal.
  unfold zlen in *. destruct Hoff as [Hoff|Hoff].
  - rewrite !drop_app_le by lia. rewrite !take_app_le; [done| |]; rewrite length_drop; lia.
  - rewrite !(app_assoc a). rewrite !drop_app_ge by (rewrite length_app; lia). do 2 f_equal. rewrite !length_app. lia.
Qed.

Lemma wr_split (buf : list Z) off bs :
  0 <= off -> off + zlen bs <= zlen buf ->
  exists a m c, buf = a ++ m ++ c /\ zlen a = off /\ zlen m = zlen bs /\ wr buf off bs = Ok (a ++ bs ++ c).
Proof.
  intros Ho Hb. destruct (buf_split buf off (zlen bs)) as (a & m & c & -> & Ha & Hm); [done|apply zlen_nonneg|done|].
  exists a, m, c. split; [done|]. split; [done|]. split; [done|]. by apply wr_mid.
Qed.

Lemma rd_len buf off n bs : rd buf off n = Ok bs -> zlen bs = n /\ 0 <= off /\ off + n <= zlen buf.
Proof.
  unfold rd. destruct (_ && _) eqn:Hc; [|done]. cbn [require mbind outcome_bind]. intros [= <-]. unfold zlen in *.
  rewrite length_take, length_drop. lia.
Qed.

(** * The allocator does not see the bytes before it *)

Lemma load_object_replace a m m' c o :
  zlen m = zlen m' -> zlen a + zlen m <= o -> load_object (a ++ m' ++ c) o = load_object (a ++ m ++ c) o.
Proof.
  intros Hm Ho. pose proof (zlen_nonneg a). pose proof (zlen_nonneg m).
  unfold load_object, address, rd_u64, rd_u32, rd_s32, pool_member. rewrite !(rd_replace a m m') by lia. done.
Qed.

Lemma builder_live_parts b o base pa ps no L :
  builder_live b o base pa ps no L ->
  exists mn pre ws post, buffer_ b = pre ++ enc_words ws ++ post /\ zlen pre = base /\ zlen ws = 2 ^ no /\ Forall is_u64 ws /\
    load_object (buffer_ b) o = Ok (pa, ps, no, mn, base) /\ 0 <= o /\ o + sizeof_buddy <= base /\
    live_arr base (2 ^ no) pre post pa ps no mn (buffer_ b) L.
Proof.
  intros (mn & E & Ho & Hb & Hl). pose proof (live_arr_wf _ _ _ _ _ _ _ _ _ _ Hl) as Hw. pose proof Hw as (Hp & ws & Hlen & Hu & Eb).
  exists mn, (arr_pre (buffer_ b) base), ws, (arr_post (buffer_ b) base (2 ^ no)). by rewrite <- Eb.
Qed.

Lemma builder_live_frame pre ws post pre' post' o base pa ps no mn L :
  live_arr base (2 ^ no) pre post pa ps no mn (pre ++ enc_words ws ++ post) L ->
  zlen pre = base -> zlen pre' = base -> zlen ws = 2 ^ no -> Forall is_u64 ws -> 0 <= o -> o + sizeof_buddy <= base ->
  load_object (pre' ++ enc_words ws ++ post') o = Ok (pa, ps, no, mn, base) ->
  builder_live (MkBuilder (pre' ++ enc_words ws ++ post')) o base pa ps no L.
Proof.
  intros Hl H1 H2 H3 H4 Ho Hb E. exists mn. cbn [buffer_]. split; [done|]. split; [done|]. split; [done|].
  pose proof (live_reframe _ _ _ _ pre' post' _ _ _ _ _ _ Hl H1 H2 H3 H4) as Hl'.
  destruct (wf_parts _ _ _ _ _ (live_arr_wf _ _ _ _ _ _ _ _ _ _ Hl')) as [-> ->]. done.
Qed.

(** Bytes before the allocator object are replaced. *)
Lemma builder_live_before a m m' c o base pa ps no L :
  builder_live (MkBuilder (a ++ m ++ c)) o base pa ps no L -> zlen m = zlen m' -> zlen a + zlen m <= o ->
  builder_live (MkBuilder (a ++ m' ++ c)) o base pa ps no L.
Proof.
  intros Hl Hm Ho. destruct (builder_live_parts _ _ _ _ _ _ _ Hl) as (mn & pre & ws & post & E & Hp & Hws & Hu & El & Ho0 & Hb & Ha).
  cbn [buffer_] in *. unfold sizeof_buddy in *. pose proof (zlen_nonneg a). pose proof (zlen_nonneg m).
  assert (Hpre : exists z, pre = a ++ m ++ z).
  { rewrite app_assoc in E. assert (Hlen : (length (a ++ m) <= length pre)%nat) by (rewrite length_app; unfold zlen in *; lia).
    exists (drop (length (a ++ m)) pre). rewrite app_assoc. apply (f_equal (take (length (a ++ m)))) in E. rewrite take_app_length, take_app_le in E by done.
    rewrite E at 1. by rewrite take_drop. }
  destruct Hpre as [z ->]. rewrite <- !app_assoc in E. do 2 apply app_inv_head in E. subst c.
  assert (EE : forall m0, a ++ m0 ++ z ++ enc_words ws ++ post = (a ++ m0 ++ z) ++ enc_words ws ++ post) by (intros; by rewrite <- !app_assoc).
  rewrite EE in *. eapply (builder_live_frame _ _ _ _ _ o); [exact Ha|done| |done|done|done|unfold sizeof_buddy; lia|].
  - rewrite <- Hp, !zlen_app. lia.
  - rewrite <- EE. rewrite (load_object_replace a m m') by lia. by rewrite EE.
Qed.

(** Bytes behind the array are added. *)
Lemma builder_live_behind buf z o base pa ps no L :
  builder_live (MkBuilder buf) o base pa ps no L -> builder_live (MkBuilder (buf ++ z)) o base pa ps no L.
Proof.
  intros Hl. destruct (builder_live_parts _ _ _ _ _ _ _ Hl) as (mn & pre & ws & post & E & Hp & Hws & Hu & El & Ho & Hb & Ha).
  cbn [buffer_] in *. subst buf. rewrite <- !app_assoc. eapply (builder_live_frame _ _ _ _ _ o); [exact Ha|done|done|done|done|done|done|].
  rewrite <- El. unfold sizeof_buddy in *. rewrite !(load_object_app pre) by (unfold sizeof_buddy; lia). done.
Qed.

(** * The specification *)

(** A chunk in use: id, address and bytes. *)
Record chunk := MkChunk { cid : Z; caddr : Z; cbytes : list Z }.

Record view := MkView { v_owned : list chunk; v_queue : list chunk; v_taken : list chunk; v_count : Z }.

Definition v_all (v : view) : list chunk := v_queue v ++ v_owned v ++ v_taken v.

(** The request that a chunk answers. *)
Definition request (c : chunk) : Z * Z := (caddr c, zlen (cbytes c)).

(** The critical sections of the code, and the writing of a message. *)
Inductive op :=
| OpAllocate (size : Z)
| OpWrite (id : Z) (msg : list Z)
| OpEnqueue (id : Z)
| OpDequeue
| OpRelease (id : Z)
| OpSetCount (n : Z)
| OpSignal.

Inductive ans := AChunk (r : option (Z * Z)) | ADequeue (r : option Status) | ADone.

Definition exec (o : op) (q : shm_queue) : outcome (ans * shm_queue) :=
  match o with
  | OpAllocate size => '(r, q) ← ShmQueue.allocate 1 size false q; Ok (AChunk r, q)
  | OpWrite id msg => n ← vget (nodes (chunk_list_ q)) id; q ← copy_in (data n) msg q; Ok (ADone, q)
  | OpEnqueue id => q ← enqueue_chunk id q; Ok (ADone, q)
  | OpDequeue => '(r, q) ← dequeue_round q; Ok (ADequeue r, q)
  | OpRelease id => q ← release_chunk id q; Ok (ADone, q)
  | OpSetCount n => q ← set_preducer_count n q; Ok (ADone, q)
  | OpSignal => q ← signal_preducing_complete q; Ok (ADone, q)
  end.

Section Spec.

(** The addresses and sizes that [init] fixes: the pool, the allocator object
    and the number of chunks. *)
Context (pa ps no obj base cap : Z).

Definition apart (a la c lc : Z) : Prop := a + la <= c \/ c + lc <= a.

Inductive spec : view -> op -> ans -> view -> Prop :=
| spec_allocate v size id addr bytes :
    zlen bytes = size -> 0 <= id < cap -> id ∉ cid <$> v_all v -> pa <= addr -> addr + size <= pa + ps ->
    (forall c, c ∈ v_all v -> apart addr size (caddr c) (zlen (cbytes c))) ->
    spec v (OpAllocate size) (AChunk (Some (id, addr)))
      (MkView (MkChunk id addr bytes :: v_owned v) (v_queue v) (v_taken v) (v_count v))
| spec_full v size :
    zlen (v_all v) = cap \/ no_room (MkBuddy pa ps no 0 tt) (request <$> v_all v) size ->
    spec v (OpAllocate size) (AChunk None) v
| spec_write v l1 id addr old l2 msg :
    v_owned v = l1 ++ MkChunk id addr old :: l2 -> zlen msg = zlen old ->
    spec v (OpWrite id msg) ADone (MkView (l1 ++ MkChunk id addr msg :: l2) (v_queue v) (v_taken v) (v_count v))
| spec_enqueue v l1 c l2 :
    v_owned v = l1 ++ c :: l2 ->
    spec v (OpEnqueue (cid c)) ADone (MkView (l1 ++ l2) (v_queue v ++ [c]) (v_taken v) (v_count v))
| spec_dequeue v c rest :
    v_queue v = c :: rest ->
    spec v OpDequeue (ADequeue (Some (SOk (cid c) (caddr c) (zlen (cbytes c)))))
      (MkView (v_owned v) rest (c :: v_taken v) (v_count v))
| spec_closed v : v_queue v = [] -> v_count v = 0 -> spec v OpDequeue (ADequeue (Some SClosed)) v
| spec_wait v : v_queue v = [] -> v_count v <> 0 -> spec v OpDequeue (ADequeue None) v
| spec_release v l1 c l2 :
    v_taken v = l1 ++ c :: l2 ->
    spec v (OpRelease (cid c)) ADone (MkView (v_owned v) (v_queue v) (l1 ++ l2) (v_count v))
| spec_set v n : spec v (OpSetCount n) ADone (MkView (v_owned v) (v_queue v) (v_taken v) n)
| spec_signal v : spec v OpSignal ADone (MkView (v_owned v) (v_queue v) (v_taken v) (s32 (v_count v - 1))).

(** What a client may do: a producer writes and enqueues its own chunks, a
    consumer releases what it took. *)
Definition legal (v : view) (o : op) : Prop :=
  match o with
  | OpAllocate size => 0 <= size <= ps
  | OpWrite id msg => exists l1 addr old l2, v_owned v = l1 ++ MkChunk id addr old :: l2 /\ zlen msg = zlen old
  | OpEnqueue id => exists l1 c l2, v_owned v = l1 ++ c :: l2 /\ cid c = id
  | OpRelease id => exists l1 c l2, v_taken v = l1 ++ c :: l2 /\ cid c = id
  | OpSetCount n => is_s32 n
  | OpDequeue | OpSignal => True
  end.

(** * The representation *)

(** The chunks [C] in the mappings, in no particular order. *)
Record store (q : shm_queue) (C : list chunk) : Prop := {
  st_addr : buffer_addr_ q = pa;
  st_size : buffer_mmap_size_ q = ps;
  st_len : zlen (shm_bytes q) = ps;
  st_ptr : address (control_block_ q) memory_allocator = Ok obj;
  st_obj : 8 <= obj;
  st_live : exists L, L ≡ₚ request <$> C /\ builder_live (MkBuilder (control_block_ q)) obj base pa ps no L;
  st_node : forall c, c ∈ C -> exists n, zget (nodes (chunk_list_ q)) (cid c) = Some n /\ data n = caddr c /\ size n = zlen (cbytes c);
  st_in : forall c, c ∈ C -> pa <= caddr c /\ caddr c + zlen (cbytes c) <= pa + ps;
  st_bytes : forall c, c ∈ C -> rd (shm_bytes q) (caddr c - pa) (zlen (cbytes c)) = Ok (cbytes c);
  st_apart : forall c d, c ∈ C -> d ∈ C -> cid c <> cid d -> apart (caddr c) (zlen (cbytes c)) (caddr d) (zlen (cbytes d))
}.

Lemma store_perm q C C' : C ≡ₚ C' -> store q C -> store q C'.
Proof.
  intros HP [H1 H2 H3 H4 H5 (L & HL & Hl) H7 H8 H9 H10]. split; try done.
  - exists L. split; [|done]. by rewrite <- HP.
  - intros c. rewrite <- HP. apply H7.
  - intros c. rewrite <- HP. apply H8.
  - intros c. rewrite <- HP. apply H9.
  - intros c d. rewrite <- HP. apply H10.
Qed.

Lemma store_list q C cl : store q C -> same_data (chunk_list_ q) cl -> store (set_list cl q) C.
Proof.
  intros [H1 H2 H3 H4 H5 H6 H7 H8 H9 H10] [_ Hd]. split; try done. cbn [set_list chunk_list_].
  intros c Hc. destruct (H7 c Hc) as (n & Hn & Ed & Es). destruct (Hd _ _ Hn) as (n' & Hn' & Es' & Ed'). exists n'. split; [done|]. split; congruence.
Qed.

Definition shows (q : shm_queue) (v : view) : Prop :=
  store q (v_all v) /\ is_s32 (v_count v) /\ get_count (control_block_ q) = Ok (v_count v) /\
  zlen (nodes (chunk_list_ q)) = cap /\ cap <= 2 ^ 31 /\
  exists free, holds (chunk_list_ q) free (cid <$> v_queue v) (cid <$> v_owned v ++ v_taken v).

Lemma shows_ids q v free :
  holds (chunk_list_ q) free (cid <$> v_queue v) (cid <$> v_owned v ++ v_taken v) -> NoDup (cid <$> v_all v) /\
  forall i, i ∈ free -> i ∉ cid <$> v_all v.
Proof.
  intros H. pose proof (holds_nodup _ _ _ _ H) as Hnd. unfold v_all. rewrite (fmap_app cid (v_queue v)). apply list.NoDup_app in Hnd as (_ & H1 & H2).
  split; [done|]. intros i Hi. by apply H1.
Qed.

(** The allocator and the pointer to it do not see the count. *)
Lemma count_write q C n :
  store q C -> is_s32 n ->
  exists cb, set_count (control_block_ q) n = Ok cb /\ get_count cb = Ok n /\ store (set_control cb q) C.
Proof.
  intros [H1 H2 H3 H4 H5 (L & HL & Hl) H7 H8 H9 H10] Hn.
  assert (Hlen : 8 <= zlen (control_block_ q)).
  { unfold address, rd_s32, memory_allocator in H4. destruct (rd (control_block_ q) 4 4) as [bs|e] eqn:E; [|done]. apply rd_len in E. lia. }
  destruct (wr_split (control_block_ q) 0 (enc 4 n)) as (a & m & c & E & Ha & Hm & Ew); [lia|rewrite zlen_enc; lia|].
  rewrite zlen_enc in Hm. exists (a ++ enc 4 n ++ c). split; [done|]. split.
  { unfold get_count, rd_s32. rewrite (rd_mid a (enc 4 n) c) by (rewrite ?zlen_enc; lia). cbn [mbind outcome_bind].
    rewrite dec_enc4. f_equal. rewrite <- (s32_id n) at 2 by done. apply s32_congr. unfold u32. apply Z.mod_mod. lia. }
  split; try done; cbn [set_control control_block_].
  - rewrite <- H4, E. unfold address, rd_s32, memory_allocator. rewrite (rd_replace a m (enc 4 n)) by (rewrite ?zlen_enc; lia). done.
  - exists L. split; [done|]. rewrite E in Hl. eapply builder_live_before; [exact Hl|rewrite zlen_enc; lia|lia].
Qed.

(** ** The allocator in the control block *)

Lemma live_facts b o L : builder_live b o base pa ps no L ->
  0 < pa /\ ps < 2 ^ 63 /\ o + sizeof_buddy <= base /\ base <= zlen (buffer_ b).
Proof.
  intros Hl. destruct (builder_live_parts _ _ _ _ _ _ _ Hl) as (mn & pre & ws & post & E & Hp & _ & _ & _ & _ & Hb & Ha).
  destruct Ha as ((_ & _ & Hs) & T & _ & _ & _ & _ & ((_ & _ & _ & Ha & _) & _)). cbn in Ha, Hs. rewrite E, zlen_app, zlen_app.
  pose proof (zlen_nonneg (enc_words ws)). pose proof (zlen_nonneg post). split; [done|]. split; [done|]. split; [done|]. lia.
Qed.

Lemma rd_pre buf off n : 0 <= off -> 0 <= n -> off + n <= base -> base <= zlen buf -> rd buf off n = rd (arr_pre buf base) off n.
Proof.
  intros Ho Hn Hb Hl. rewrite <- (take_drop (Z.to_nat base) buf) at 1. unfold arr_pre. apply rd_app_l; [done|done|].
  unfold zlen in *. rewrite length_take. lia.
Qed.

(** An operation of the allocator keeps the rest of the control block. *)
Lemma control_kept cb b' off n :
  same_outside (MkBuilder cb) b' base (2 ^ no) -> 0 <= off -> 0 <= n -> off + n <= base ->
  base <= zlen cb -> base <= zlen (buffer_ b') -> rd (buffer_ b') off n = rd cb off n.
Proof.
  intros [Hp _] Ho Hn Hb H1 H2. cbn [buffer_] in Hp. by rewrite (rd_pre (buffer_ b')), (rd_pre cb), Hp by done.
Qed.

(** The chunks after an operation of the allocator. *)
Lemma store_control q C C' b' L' :
  store q C -> same_outside (MkBuilder (control_block_ q)) b' base (2 ^ no) ->
  builder_live b' obj base pa ps no L' -> L' ≡ₚ request <$> C' ->
  (forall c, c ∈ C' -> exists n, zget (nodes (chunk_list_ q)) (cid c) = Some n /\ data n = caddr c /\ size n = zlen (cbytes c)) ->
  (forall c, c ∈ C' -> pa <= caddr c /\ caddr c + zlen (cbytes c) <= pa + ps) ->
  (forall c, c ∈ C' -> rd (shm_bytes q) (caddr c - pa) (zlen (cbytes c)) = Ok (cbytes c)) ->
  (forall c d, c ∈ C' -> d ∈ C' -> cid c <> cid d -> apart (caddr c) (zlen (cbytes c)) (caddr d) (zlen (cbytes d))) ->
  store (set_control (buffer_ b') q) C' /\ get_count (buffer_ b') = get_count (control_block_ q).
Proof.
  intros [H1 H2 H3 H4 H5 (L & HL & Hl) _ _ _ _] Hso Hl' HL' H7 H8 H9 H10.
  destruct (live_facts _ _ _ Hl) as (_ & _ & Hb & Hz). destruct (live_facts _ _ _ Hl') as (_ & _ & _ & Hz'). unfold sizeof_buddy in Hb. cbn [buffer_] in Hz.
  split.
  - split; try done; cbn [set_control control_block_].
    + rewrite <- H4. unfold address, rd_s32, memory_allocator. by rewrite (control_kept (control_block_ q)) by (done || lia).
    + exists L'. split; [done|]. by destruct b'.
  - unfold get_count, rd_s32. by rewrite (control_kept (control_block_ q)) by (done || lia).
Qed.

Lemma no_room_perm (b : buddy unit) L L' sz : L ≡ₚ L' -> no_room b L sz -> no_room b L' sz.
Proof.
  intros HP (r & k & Hk & [H|H]); exists r, k; (split; [done|]); [by left|]. right. intros p Hp.
  destruct (H p Hp) as (a & s & r' & k' & Hin & Hrest). exists a, s, r', k'. by rewrite <- HP.
Qed.

Lemma shows_nodes q v c free :
  holds (chunk_list_ q) free (cid <$> v_queue v) (cid <$> v_owned v ++ v_taken v) -> zlen (nodes (chunk_list_ q)) = cap ->
  cap <= 2 ^ 31 -> c ∈ v_all v -> 0 <= cid c < cap /\ u32 (cid c) = cid c.
Proof.
  intros Hh Hc H31 Hin. assert (Hr : 0 <= cid c < cap).
  { rewrite <- Hc. eapply holds_in; [exact Hh|]. rewrite elem_of_app, <- (fmap_app cid). right. apply list_elem_of_fmap. by exists c. }
  split; [done|]. apply u32_id. unfold is_u32. lia.
Qed.

(** ** Allocation *)

Lemma try_allocate_ok q v sz :
  shows q v -> 0 <= sz <= ps ->
  exists r q' v', try_allocate sz q = Ok (r, q') /\ spec v (OpAllocate sz) (AChunk r) v' /\ shows q' v'.
Proof.
  intros (Hst & Hcs & Hcount & Hcap & H31 & free & Hh) Hsz. unfold try_allocate. destruct (shows_ids _ _ _ Hh) as [Hnd Hfresh].
  pose proof (allocate_node_ok _ _ _ _ Hh) as Ha. destruct free as [|i free].
  { rewrite Ha. cbn [mbind outcome_bind]. exists None, q, v. split; [done|]. split; [|by split_and!; eauto]. apply spec_full. left.
    pose proof (h_all _ _ _ _ Hh) as HP. cbn [app] in HP. rewrite <- fmap_app in HP. apply Permutation_length in HP. rewrite length_fmap, length_seqZ in HP.
    unfold zlen, v_all in *. lia. }
  destruct Ha as (cl & -> & Hh1 & Hd1). cbn [mbind outcome_bind]. pose proof (store_list _ _ _ Hst Hd1) as Hst1.
  pose proof Hst as [H1 H2 H3 H4 H5 (L & HL & Hl) H7 H8 H9 H10]. rewrite H4. cbn [mbind outcome_bind].
  destruct (live_facts _ _ _ Hl) as (Hpa & Hps & _).
  destruct (builder_alloc_ok _ _ _ _ _ _ L sz Hl) as (a & b' & -> & Hso & [(-> & -> & Hno)|(Hl' & Ha1 & Ha2 & Hdis)]); [lia| |]; cbn [mbind outcome_bind].
  - cbn [Z.eqb]. destruct (deallocate_node_ok _ _ _ _ _ Hh1) as (cl2 & -> & Hh2 & Hd2). cbn [mbind outcome_bind].
    exists None, (set_list cl2 (set_control (control_block_ q) q)), v. split; [done|]. split; [apply spec_full; right; by eapply no_room_perm|].
    assert (E : set_list cl2 (set_control (control_block_ q) q) = set_list cl2 q) by done. rewrite E. split; [apply store_list; [done|by eapply same_data_trans]|].
    split; [done|]. split; [done|]. split; [destruct (same_data_trans _ _ _ Hd1 Hd2); cbn; lia|]. split; [done|]. by exists (i :: free).
  - destruct (Z.eqb_spec a 0) as [|Hane]; [lia|]. destruct (holds_set_used cl free _ (i :: (cid <$> v_owned v ++ v_taken v)) i (set_size_data sz a) Hh1 ltac:(by left))
      as (cl2 & -> & Hh2 & n & Hn & En). cbn [mbind outcome_bind].
    assert (Hi : 0 <= i < cap) by (rewrite <- Hcap; eapply holds_in; [exact Hh|by left]).
    set (bytes := take (Z.to_nat sz) (drop (Z.to_nat (a - pa)) (shm_bytes q))).
    assert (Hrd : rd (shm_bytes q) (a - pa) sz = Ok bytes) by (apply rd_ok; lia).
    pose proof (rd_len _ _ _ _ Hrd) as (Hbl & _ & _).
    exists (Some (u32 i, a)), (set_list cl2 (set_control (buffer_ b') q)), (MkView (MkChunk i a bytes :: v_owned v) (v_queue v) (v_taken v) (v_count v)).
    rewrite u32_id by (unfold is_u32; lia). split; [done|].
    assert (Hap : forall c, c ∈ v_all v -> apart a sz (caddr c) (zlen (cbytes c))).
    { intros c Hc. apply Hdis. rewrite HL. apply list_elem_of_fmap. by exists c. }
    assert (Hnew : i ∉ cid <$> v_all v) by (apply Hfresh; by left).
    split; [by apply spec_allocate|]. destruct Hd1 as [Hdl Hd1].
    assert (Hb : 0 <= i < zlen (nodes cl)) by lia.
    set (new := MkChunk i a bytes). set (C' := new :: v_all v).
    assert (Hnode : forall c, c ∈ C' -> exists n, zget (nodes cl2) (cid c) = Some n /\ data n = caddr c /\ size n = zlen (cbytes c)).
    { intros c [->|Hc]%elem_of_cons.
      - exists (set_size_data sz a n). rewrite En. cbn [cid new]. rewrite zget_zset_eq by done. split; [done|]. cbn. by rewrite Hbl.
      - destruct (st_node _ _ Hst1 c Hc) as (m & Hm & E1 & E2). exists m. split; [|done]. rewrite En, zget_zset_ne; [done|].
        intros ->. apply Hnew, list_elem_of_fmap. by exists c. }
    destruct (store_control (set_list cl2 q) (v_all v) C' b' ((a, sz) :: L)) as [Hst2 Hc2].
    { destruct Hst. split; try done. intros c Hc. apply Hnode. by right. }
    { done. }
    { done. }
    { cbn [C' fmap list_fmap]. unfold request at 1. cbn [new caddr cbytes]. rewrite Hbl. by constructor. }
    { exact Hnode. }
    { intros c [->|Hc]%elem_of_cons; [cbn [new caddr cbytes]; rewrite Hbl; lia|by apply H8]. }
    { intros c [->|Hc]%elem_of_cons; [cbn [new caddr cbytes]; by rewrite Hbl|by apply H9]. }
    { intros c d [->|Hc]%elem_of_cons [->|Hdd]%elem_of_cons; [done| | |by apply H10]; intros _; cbn [new caddr cbytes]; rewrite Hbl; [by apply Hap|].
      specialize (Hap c Hc). unfold apart in *. lia. }
    split; [eapply store_perm; [|exact Hst2]; unfold C', v_all; cbn [v_queue v_owned v_taken app]; apply Permutation_middle|].
    split; [done|]. split; [cbn [v_count set_list set_control control_block_] in *; by rewrite Hc2|]. split; [cbn [set_list chunk_list_]; rewrite En, zlen_zset; lia|]. split; [done|]. exists free. done.
Qed.

(** ** The other steps *)

Lemma write_ok q v id msg :
  shows q v -> legal v (OpWrite id msg) ->
  exists q' v', exec (OpWrite id msg) q = Ok (ADone, q') /\ spec v (OpWrite id msg) ADone v' /\ shows q' v'.
Proof.
  intros (Hst & Hcs & Hcount & Hcap & H31 & free & Hh) (l1 & addr & old & l2 & Eo & Hm). destruct (shows_ids _ _ _ Hh) as [Hnd _].
  set (c := MkChunk id addr old) in *. set (c' := MkChunk id addr msg). set (rest := v_queue v ++ (l1 ++ l2) ++ v_taken v).
  assert (HP : v_all v ≡ₚ c :: rest) by (unfold v_all, rest; rewrite Eo, <- !app_assoc; cbn [app]; by rewrite <- !Permutation_middle).
  exists (set_bytes (take (Z.to_nat (addr - pa)) (shm_bytes q) ++ msg ++ drop (Z.to_nat (addr - pa + zlen msg)) (shm_bytes q)) q).
  exists (MkView (l1 ++ c' :: l2) (v_queue v) (v_taken v) (v_count v)).
  assert (HP' : v_all (MkView (l1 ++ c' :: l2) (v_queue v) (v_taken v) (v_count v)) ≡ₚ c' :: rest)
    by (unfold v_all, rest; cbn [v_queue v_owned v_taken]; rewrite <- !app_assoc; cbn [app]; by rewrite <- !Permutation_middle).
  pose proof (store_perm _ _ _ HP Hst) as [H1 H2 H3 H4 H5 (L & HL & Hl) H7 H8 H9 H10].
  assert (Hid : id ∉ cid <$> rest).
  { rewrite HP in Hnd. rewrite fmap_cons in Hnd. by apply list.NoDup_cons in Hnd as [? _]. }
  destruct (H7 c ltac:(by left)) as (n & Hn & En & _). destruct (H8 c ltac:(by left)) as [Hi1 Hi2]. cbn [c caddr cid cbytes] in *.
  pose proof (zlen_nonneg msg). destruct (wr_split (shm_bytes q) (addr - pa) msg) as (a & m & z & Eb & Ha & Hml & Ew); [lia|lia|].
  assert (Ew' : wr (shm_bytes q) (addr - pa) msg = Ok (take (Z.to_nat (addr - pa)) (shm_bytes q) ++ msg ++ drop (Z.to_nat (addr - pa + zlen msg)) (shm_bytes q))).
  { unfold wr. by replace (_ && _) with true by lia. }
  rewrite Ew' in Ew. injection Ew as Ew. rewrite Ew in *. clear Ew. split.
  { cbn [exec]. rewrite (vget_some _ _ _ Hn). cbn [mbind outcome_bind]. unfold copy_in. rewrite En, H1, Ew'. done. }
  split; [by apply (spec_write v l1 id addr old l2 msg)|].
  split; [|split; [done|split; [done|split; [done|split; [done|exists free]]]]].
  2: { cbn [v_queue v_owned v_taken set_bytes chunk_list_]. rewrite Eo in Hh. rewrite <- app_assoc, fmap_app in *. cbn [app fmap list_fmap] in *. exact Hh. }
  eapply store_perm; [symmetry; exact HP'|].
  split; try done; cbn [set_bytes shm_bytes chunk_list_ buffer_addr_ control_block_].
  - rewrite <- H3, Eb, !zlen_app. lia.
  - exists L. split; [|done]. rewrite HL. unfold request. cbn [fmap list_fmap c c' caddr cbytes]. by rewrite Hm.
  - intros d [->|Hd]%elem_of_cons; [|apply H7; by right]. exists n. cbn [c' cid caddr cbytes]. rewrite Hm. destruct (H7 c ltac:(by left)) as (n' & Hn' & _ & Es).
    cbn [c cid cbytes] in *. rewrite Hn in Hn'. injection Hn' as <-. done.
  - intros d [->|Hd]%elem_of_cons; [cbn [c' caddr cbytes]; lia|apply H8; by right].
  - intros d [->|Hd]%elem_of_cons.
    + cbn [c' caddr cbytes]. apply rd_mid; [lia|done].
    + destruct (H8 d ltac:(by right)). assert (Hne : cid c <> cid d) by (intros E1; apply Hid, list_elem_of_fmap; by exists d).
      pose proof (H10 c d ltac:(by left) ltac:(by right) Hne) as Hap. unfold apart in Hap. cbn [c caddr cbytes] in Hap.
      pose proof (zlen_nonneg (cbytes d)). rewrite (rd_replace a m msg), <- Eb by lia. apply H9. by right.
  - intros d e [->|Hd]%elem_of_cons [->|He]%elem_of_cons; [done| | |apply H10; by right]; cbn [c' cid caddr cbytes]; rewrite Hm.
    + apply (H10 c e); [by left|by right].
    + apply (H10 d c); [by right|by left].
Qed.

Lemma enqueue_ok q v id :
  shows q v -> legal v (OpEnqueue id) ->
  exists q' v', exec (OpEnqueue id) q = Ok (ADone, q') /\ spec v (OpEnqueue id) ADone v' /\ shows q' v'.
Proof.
  intros (Hst & Hcs & Hcount & Hcap & H31 & free & Hh) (l1 & c & l2 & Eo & <-).
  assert (Hh1 : holds (chunk_list_ q) free (cid <$> v_queue v) (cid c :: (cid <$> (l1 ++ l2) ++ v_taken v))).
  { eapply holds_used_perm; [|exact Hh]. rewrite Eo, <- !app_assoc. cbn [app]. rewrite (fmap_app cid l1 (c :: _)), fmap_cons, <- Permutation_middle, <- fmap_app. done. }
  destruct (put_ok _ _ _ _ _ Hh1) as (cl & E & Hh2 & Hd). exists (set_list cl q), (MkView (l1 ++ l2) (v_queue v ++ [c]) (v_taken v) (v_count v)).
  split; [cbn [exec]; unfold enqueue_chunk; by rewrite E|]. split; [by apply spec_enqueue|].
  split; [|split; [done|split; [done|split; [destruct Hd; cbn; lia|split; [done|exists free]]]]].
  - apply store_list; [|done]. eapply store_perm; [|exact Hst]. unfold v_all. cbn [v_queue v_owned v_taken]. rewrite Eo, <- !app_assoc. cbn [app].
    by rewrite <- (Permutation_middle l1).
  - cbn [v_queue v_owned v_taken set_list chunk_list_]. by rewrite fmap_app.
Qed.

Lemma dequeue_round_ok q v :
  shows q v -> exists r q' v', dequeue_round q = Ok (r, q') /\ spec v OpDequeue (ADequeue r) v' /\ shows q' v'.
Proof.
  intros (Hst & Hcs & Hcount & Hcap & H31 & free & Hh). unfold dequeue_round. pose proof (list_pop_ok _ _ _ _ Hh) as Hp.
  destruct (v_queue v) as [|c rest] eqn:Eq; cbn [fmap list_fmap] in Hp.
  - rewrite Hp. cbn [mbind outcome_bind]. rewrite Hcount. cbn [mbind outcome_bind]. assert (Hs : shows (set_list (chunk_list_ q) q) v).
    { replace (set_list (chunk_list_ q) q) with q by by destruct q. split_and!; try done. exists free. by rewrite Eq. }
    destruct (Z.eqb_spec (v_count v) 0).
    + exists (Some SClosed), (set_list (chunk_list_ q) q), v. split; [done|]. split; [by apply spec_closed|done].
    + exists None, (set_list (chunk_list_ q) q), v. split; [done|]. split; [by apply spec_wait|done].
  - destruct Hp as (cl & -> & Hh1 & Hd). cbn [mbind outcome_bind]. pose proof (store_list _ _ _ Hst Hd) as Hst1.
    assert (Hin : c ∈ v_all v) by (unfold v_all; rewrite Eq; by left).
    destruct (st_node _ _ Hst1 c Hin) as (n & Hn & Ed & Es). cbn [set_list chunk_list_] in Hn. rewrite (vget_some _ _ _ Hn). cbn [mbind outcome_bind].
    assert (Hu : u32 (cid c) = cid c) by (eapply shows_nodes; [rewrite Eq; exact Hh|done|done|done]).
    rewrite Hu, Ed, Es. exists (Some (SOk (cid c) (caddr c) (zlen (cbytes c)))), (set_list cl q), (MkView (v_owned v) rest (c :: v_taken v) (v_count v)).
    split; [done|]. split; [by apply spec_dequeue|]. split; [|split; [done|split; [done|split; [destruct Hd; cbn; lia|split; [done|exists free]]]]].
    + eapply store_perm; [|exact Hst1]. unfold v_all. cbn [v_queue v_owned v_taken]. rewrite Eq. cbn [app].
      rewrite <- (Permutation_middle (v_owned v)). by rewrite <- (Permutation_middle rest).
    + cbn [v_queue v_owned v_taken set_list chunk_list_]. eapply holds_used_perm; [|exact Hh1]. rewrite !fmap_app, fmap_cons. by rewrite Permutation_middle.
Qed.

Lemma release_ok q v id :
  shows q v -> legal v (OpRelease id) ->
  exists q' v', exec (OpRelease id) q = Ok (ADone, q') /\ spec v (OpRelease id) ADone v' /\ shows q' v'.
Proof.
  intros (Hst & Hcs & Hcount & Hcap & H31 & free & Hh) (l1 & c & l2 & Et & <-).
  set (rest := v_queue v ++ v_owned v ++ l1 ++ l2).
  assert (HP : v_all v ≡ₚ c :: rest) by (unfold v_all, rest; rewrite Et, !app_assoc; by rewrite <- Permutation_middle).
  pose proof (store_perm _ _ _ HP Hst) as Hst1. pose proof Hst1 as [H1 H2 H3 H4 H5 (L & HL & Hl) H7 H8 H9 H10].
  assert (Hh1 : holds (chunk_list_ q) free (cid <$> v_queue v) (cid c :: (cid <$> v_owned v ++ l1 ++ l2))).
  { eapply holds_used_perm; [|exact Hh]. rewrite Et, app_assoc, fmap_app, fmap_cons, <- Permutation_middle, <- fmap_app, <- app_assoc. done. }
  destruct (H7 c ltac:(by left)) as (n & Hn & Ed & Es). cbn [exec]. unfold release_chunk. rewrite (vget_some _ _ _ Hn). cbn [mbind outcome_bind].
  rewrite H4. cbn [mbind outcome_bind]. rewrite Ed, Es.
  destruct (builder_dealloc_ok _ _ _ _ _ _ L (caddr c) (zlen (cbytes c)) (fmap (M := list) request rest) Hl HL) as (b' & -> & Hso & Hl').
  cbn [mbind outcome_bind]. destruct (deallocate_node_ok _ _ _ _ _ Hh1) as (cl & -> & Hh2 & Hd). cbn [mbind outcome_bind].
  exists (set_list cl (set_control (buffer_ b') q)), (MkView (v_owned v) (v_queue v) (l1 ++ l2) (v_count v)).
  split; [done|]. split; [by apply spec_release|].
  destruct (store_control q (c :: rest) rest b' (fmap (M := list) request rest)) as [Hst2 Hc2]; [done|done|done|done| | | | |].
  { intros d Hd'. apply H7. by right. }
  { intros d Hd'. apply H8. by right. }
  { intros d Hd'. apply H9. by right. }
  { intros d e Hd' He. apply H10; by right. }
  split; [by apply store_list|]. split; [done|]. split; [cbn [v_count set_list set_control control_block_] in *; by rewrite Hc2|].
  split; [destruct Hd; cbn; lia|]. split; [done|]. exists (cid c :: free). done.
Qed.

Lemma count_ok q v n :
  shows q v -> is_s32 n ->
  exists cb, set_count (control_block_ q) n = Ok cb /\ shows (set_control cb q) (MkView (v_owned v) (v_queue v) (v_taken v) n).
Proof.
  intros (Hst & Hcs & Hcount & Hcap & H31 & free & Hh) Hn. destruct (count_write q _ n Hst Hn) as (cb & E & Hg & Hst'). exists cb. split; [done|].
  split_and!; try done. by exists free.
Qed.

Lemma exec_refines q v o :
  shows q v -> legal v o -> exists a q' v', exec o q = Ok (a, q') /\ spec v o a v' /\ shows q' v'.
Proof.
  intros Hs Hl. destruct o as [sz|id msg|id| |id|n|]; cbn [legal] in Hl.
  - destruct (try_allocate_ok q v sz Hs Hl) as (r & q' & v' & E & Hsp & Hs'). exists (AChunk r), q', v'. split; [|done].
    cbn [exec]. unfold ShmQueue.allocate. destruct Hs as (Hst & _). rewrite (st_size _ _ Hst). replace (sz <=? ps) with true by lia.
    cbn [require mbind outcome_bind while_fuel]. unfold allocate_step. rewrite E. cbn [mbind outcome_bind]. by destruct r.
  - destruct (write_ok q v id msg Hs Hl) as (q' & v' & H). by exists ADone, q', v'.
  - destruct (enqueue_ok q v id Hs Hl) as (q' & v' & H). by exists ADone, q', v'.
  - destruct (dequeue_round_ok q v Hs) as (r & q' & v' & E & H). exists (ADequeue r), q', v'. split; [|done]. cbn [exec]. by rewrite E.
  - destruct (release_ok q v id Hs Hl) as (q' & v' & H). by exists ADone, q', v'.
  - destruct (count_ok q v n Hs Hl) as (cb & E & H). exists ADone, (set_control cb q), (MkView (v_owned v) (v_queue v) (v_taken v) n). split; [|split; [constructor|done]].
    cbn [exec]. unfold set_preducer_count. by rewrite E.
  - destruct (count_ok q v (s32 (v_count v - 1)) Hs ltac:(apply s32_range)) as (cb & E & H).
    exists ADone, (set_control cb q), (MkView (v_owned v) (v_queue v) (v_taken v) (s32 (v_count v - 1))). split; [|split; [constructor|done]].
    cbn [exec]. unfold signal_preducing_complete. destruct Hs as (_ & _ & Hc & _). rewrite Hc. cbn [mbind outcome_bind]. by rewrite E.
Qed.

End Spec.

(** * Initialisation *)

(** The sizes in megabytes that the buddy tree divides evenly: at most the ten highest
    binary digits are not zero (every size below 1024 is such a size). *)
Definition even_size (B : Z) : Prop := 1 <= B < 2 ^ 16 /\ B mod 2 ^ Z.max 0 (Z.log2 B - 9) = 0.

Lemma even_size_log B : even_size B -> 0 <= Z.log2 B <= 15.
Proof.
  intros [HB _]. split; [apply Z.log2_nonneg|]. apply Z.lt_succ_r, Z.log2_lt_pow2; [lia|]. change (Z.succ 15) with 16. lia.
Qed.

Lemma even_size_small B : 1 <= B < 1024 -> even_size B.
Proof.
  intros HB. split; [lia|]. assert (Z.log2 B < 10) by (apply Z.log2_lt_pow2; lia).
  rewrite Z.max_l by lia. apply Z.mod_1_r.
Qed.

Lemma num_order_ok B :
  even_size B -> compute_num_order (B * 2 ^ 20) kMinBlockSize = Ok (12 + Z.log2 B).
Proof.
  intros Hev. pose proof (even_size_log B Hev) as [H0 Hk]. destruct Hev as [HB _].
  pose proof (Z.log2_spec B ltac:(lia)) as [H1 H2]. set (k := Z.log2 B) in *.
  assert (Htest : forall j, 0 <= j -> (kMinBlockSize <=? B * 2 ^ 20 / 2 ^ j) = (j <=? 11 + k)).
  { intros j Hj. unfold kMinBlockSize. change 512 with (2 ^ 9). pose proof (Z.pow_pos_nonneg 2 j). apply eq_true_iff_eq. rewrite !Z.leb_le. split.
    - intros H3. apply Z.lt_succ_r. apply (Z.pow_lt_mono_r_iff 2); [lia|lia|].
      assert (2 ^ 9 * 2 ^ j <= B * 2 ^ 20) by (pose proof (Z.mul_div_le (B * 2 ^ 20) (2 ^ j)); nia).
      replace (Z.succ (11 + k)) with (Z.succ k + 11) by lia. rewrite Z.pow_add_r by lia. change (2 ^ 20) with (2 ^ 9 * 2 ^ 11) in *. nia.
    - intros H3. apply Z.div_le_lower_bound; [lia|]. assert (2 ^ j <= 2 ^ (11 + k)) by (apply Z.pow_le_mono_r; lia).
      rewrite Z.pow_add_r in * by lia. change (2 ^ 20) with (2 ^ 9 * 2 ^ 11). nia. }
  unfold compute_num_order.
  destruct (wp_while (fun st => 0 <= st.2 <= 12 + k /\ st.1 = B * 2 ^ 20 / 2 ^ st.2) (fun st => Z.to_nat (12 + k - st.2)) (fun r => r = 12 + k) 65
    (num_order_step kMinBlockSize) (B * 2 ^ 20, 0)) as (r & E & ->); [cbn; rewrite Z.div_1_r; lia|cbn; lia| |exact E].
  intros [x n] [Hn Hx]. cbn [fst snd] in *. subst x. unfold num_order_step. rewrite Htest by lia. destruct (Z.leb_spec n (11 + k)).
  - apply wp_ret. cbn [fst snd]. rewrite u32_id by (unfold is_u32; lia). split; [split; [lia|]|lia].
    rewrite Z.pow_add_r, <- Z.div_div by lia. done.
  - apply wp_ret. lia.
Qed.

Lemma pool_shape_ok B : even_size B -> pool_shape (B * 2 ^ 20) (12 + Z.log2 B).
Proof.
  intros Hev. pose proof (even_size_log B Hev) as [H0 Hk]. destruct Hev as [HB Hm].
  split; [lia|]. split; [|lia]. destruct (Z.le_gt_cases (Z.log2 B) 9).
  - exists (B * 2 ^ (9 - Z.log2 B)). split; [assert (0 < 2 ^ (9 - Z.log2 B)) by lia; lia|].
    rewrite <- Z.mul_assoc, <- Z.pow_add_r by lia. do 2 f_equal. lia.
  - rewrite Z.max_r in Hm by lia. set (e := Z.log2 B - 9) in *. assert (0 < 2 ^ e) by (apply Z.pow_pos_nonneg; lia).
    pose proof (Z.div_mod B (2 ^ e)) as E. rewrite Hm in E. exists (B / 2 ^ e). split; [nia|].
    replace (12 + Z.log2 B - 1) with (e + 20) by lia. rewrite Z.pow_add_r by lia. rewrite E at 1 by lia. lia.
Qed.

Definition order_of (B : Z) : Z := 12 + Z.log2 B.

(** The control block: the allocator, and the pointer to it. *)
Lemma build_ok pa B :
  even_size B -> 0 < pa -> pa + B * 2 ^ 20 <= 2 ^ 64 ->
  exists obj cb, build_control_block (B * 2 ^ 20) pa = Ok cb /\ 48 <= obj <= 55 /\ zlen cb < 2 ^ 31 /\
    address cb memory_allocator = Ok obj /\ builder_live (MkBuilder cb) obj (obj + sizeof_buddy) pa (B * 2 ^ 20) (order_of B) [].
Proof.
  intros HB Hpa Hpe. unfold build_control_block.
  change (builder_allocate sizeof_control_block 8 1 (MkBuilder [])) with (0, MkBuilder (zreplicate 48 0)).
  rewrite num_order_ok by done. cbn [mbind outcome_bind]. fold (order_of B).
  assert (Hno : 2 ^ order_of B <= 2 ^ 27).
  { apply Z.pow_le_mono_r; [lia|]. unfold order_of. pose proof (even_size_log B HB). lia. }
  assert (Hz : zlen (zreplicate 48 0) = 48) by done.
  destruct (create_ok (zreplicate 48 0) pa (B * 2 ^ 20) (order_of B)) as (o & b & -> & _ & Ho & _ & Hlen & Hl); [by apply pool_shape_ok|done|done|lia|lia|].
  cbn [mbind outcome_bind]. rewrite Hz in Ho. unfold update_object_pointer_member, memory_allocator, wr_u32. change (s32 (0 + 4)) with 4.
  rewrite u32_id by (unfold is_u32; lia). unfold sizeof_buddy in *.
  destruct (wr_split (buffer_ b) 4 (enc 4 (o - 4))) as (a & m & c & E & Ha & Hm & ->); [lia|rewrite zlen_enc; lia|]. rewrite zlen_enc in Hm.
  cbn [mbind outcome_bind buffer_]. exists o, (a ++ enc 4 (o - 4) ++ c). split; [done|]. split; [lia|]. split.
  { rewrite E, !zlen_app in Hlen. rewrite !zlen_app, zlen_enc. lia. }
  split.
  { unfold address, rd_s32. rewrite (rd_mid a (enc 4 (o - 4)) c) by (rewrite ?zlen_enc; lia). cbn [mbind outcome_bind].
    rewrite dec_enc4, u32_id, s32_id by (unfold is_u32, is_s32; lia). f_equal. lia. }
  eapply (builder_live_before a m); [|rewrite zlen_enc; lia|lia]. rewrite <- E. by destruct b.
Qed.

Lemma init_shows pa B cap :
  even_size B -> 0 < pa -> pa + B * 2 ^ 20 <= 2 ^ 64 -> 1 <= cap < 2 ^ 31 ->
  exists q obj, ShmQueue.init true (Some pa) true cap B = Ok (Some q) /\
    shows pa (B * 2 ^ 20) (order_of B) obj (obj + sizeof_buddy) cap q (MkView [] [] [] (-1)).
Proof.
  intros HB Hpa Hpe Hc. pose proof HB as [HB1 _]. unfold ShmQueue.init. rewrite s32_id by (unfold is_s32; lia).
  destruct (init_holds cap ltac:(lia)) as (cl & -> & Hh & Hcap). cbn [mbind outcome_bind]. change (1024 * 1024) with (2 ^ 20).
  rewrite u64_id by (unfold is_u64; lia). destruct (build_ok pa B HB Hpa Hpe) as (obj & cb & -> & Ho & Hlen & Hp & Hl). cbn [mbind outcome_bind].
  pose proof (zlen_nonneg cb). assert (Hcs : zlen cb <= compute_aligned_size (zlen cb) 4096).
  { unfold compute_aligned_size. rewrite u64_id by (unfold is_u64; lia). change (2 ^ 64 - 1 - (4096 - 1)) with (2 ^ 64 - 2 ^ 12).
    rewrite land_align by (unfold is_u64; lia). pose proof (Z.div_mod (zlen cb + (4096 - 1)) (2 ^ 12)).
    pose proof (Z.mod_pos_bound (zlen cb + (4096 - 1)) (2 ^ 12)). lia. }
  set (cs := compute_aligned_size (zlen cb) 4096) in *.
  assert (Ew : wr (zreplicate cs 0) 0 cb = Ok (cb ++ drop (Z.to_nat (0 + zlen cb)) (zreplicate cs 0))).
  { unfold wr. rewrite zlen_replicate. by replace (_ && _) with true by lia. }
  rewrite Ew. cbn [mbind outcome_bind]. set (pad := drop _ _). set (ps := B * 2 ^ 20) in *.
  set (q0 := MkShm cl (cb ++ pad) pa ps (zreplicate ps 0)).
  assert (Hst : store pa ps (order_of B) obj (obj + sizeof_buddy) q0 []).
  { assert (He : forall c : chunk, c ∈ [] -> False) by (intros c; apply elem_of_nil).
    split; cbn [q0 buffer_addr_ buffer_mmap_size_ shm_bytes control_block_]; try done.
    - rewrite zlen_replicate. unfold ps. lia.
    - rewrite <- Hp. unfold address, rd_s32, memory_allocator. destruct (live_facts _ _ _ _ _ _ _ Hl) as (_ & _ & _ & Hb). cbn [buffer_] in Hb.
      unfold sizeof_buddy in Hb. by rewrite rd_app_l by lia.
    - lia.
    - exists []. split; [done|]. by apply builder_live_behind.
    - intros c Hx. by destruct (He c).
    - intros c Hx. by destruct (He c).
    - intros c Hx. by destruct (He c).
    - intros c d Hx. by destruct (He c). }
  destruct (count_write _ _ _ _ _ q0 [] (-1) Hst) as (cb' & E & Hg & Hst'); [unfold is_s32; lia|]. cbn [q0 control_block_] in E. rewrite E.
  cbn [mbind outcome_bind]. exists (set_control cb' q0), obj. split; [done|]. split; [exact Hst'|]. split; [unfold is_s32; cbn; lia|].
  split; [done|]. split; [done|]. split; [lia|]. exists (seqZ 0 cap). exact Hh.
Qed.

(** * Messages *)

(** Ids are unique. *)
Lemma owned_head pa ps no obj base cap q c o Q T n l1 d l2 :
  shows pa ps no obj base cap q (MkView (c :: o) Q T n) -> c :: o = l1 ++ d :: l2 -> cid d = cid c -> l1 = [] /\ d = c /\ l2 = o.
Proof.
  intros (_ & _ & _ & _ & _ & free & Hh) Eo Ed. destruct (shows_ids _ _ _ Hh) as [Hnd _]. unfold v_all in Hnd. cbn [v_queue v_owned v_taken] in *.
  destruct l1 as [|c1 l1]; cbn [app] in Eo; [by injection Eo as -> ->|]. injection Eo as <- Eo. exfalso.
  rewrite !fmap_app, fmap_cons in Hnd. apply list.NoDup_app in Hnd as (_ & _ & Hnd). apply list.NoDup_app in Hnd as (Hnd & _ & _).
  apply list.NoDup_cons in Hnd as [Hnd _]. apply Hnd. rewrite Eo, fmap_app, fmap_cons, Ed. apply elem_of_app. right. by left.
Qed.

Lemma spec_write_inv pa ps no cap v id msg a v' :
  spec pa ps no cap v (OpWrite id msg) a v' ->
  exists l1 addr old l2, v_owned v = l1 ++ MkChunk id addr old :: l2 /\
    v' = MkView (l1 ++ MkChunk id addr msg :: l2) (v_queue v) (v_taken v) (v_count v).
Proof. intros Hsp. inversion Hsp; subst. by eexists _, _, _, _. Qed.

Lemma spec_enqueue_inv pa ps no cap v id a v' :
  spec pa ps no cap v (OpEnqueue id) a v' ->
  exists l1 c l2, v_owned v = l1 ++ c :: l2 /\ cid c = id /\ v' = MkView (l1 ++ l2) (v_queue v ++ [c]) (v_taken v) (v_count v).
Proof. intros Hsp. inversion Hsp; subst. by eexists _, _, _. Qed.

(** The second half of [enqueue]. *)
Lemma send_ok pa ps no obj base cap q o Q T n id addr bytes msg :
  shows pa ps no obj base cap q (MkView (MkChunk id addr bytes :: o) Q T n) -> zlen msg = zlen bytes ->
  exists q1 q2, copy_in addr msg q = Ok q1 /\ enqueue_chunk id q1 = Ok q2 /\
    shows pa ps no obj base cap q2 (MkView o (Q ++ [MkChunk id addr msg]) T n).
Proof.
  intros Hs Hm. destruct (write_ok _ _ _ _ _ _ q _ id msg Hs) as (q1 & v1 & E1 & Hsp1 & Hs1); [by exists [], addr, bytes, o|].
  destruct (spec_write_inv _ _ _ _ _ _ _ _ _ Hsp1) as (l1 & addr1 & old & l2 & Eo & ->). cbn [v_owned v_queue v_taken v_count] in *.
  destruct (owned_head _ _ _ _ _ _ _ _ _ _ _ _ l1 _ l2 Hs Eo) as (-> & [= -> _] & ->); [done|]. cbn [app] in *.
  assert (Hn : exists nd, zget (nodes (chunk_list_ q)) id = Some nd /\ data nd = addr).
  { destruct Hs as (Hst & _). destruct (st_node _ _ _ _ _ _ _ Hst (MkChunk id addr bytes)) as (nd & Hn & Ed & _); [|by exists nd].
    unfold v_all. cbn [v_queue v_owned v_taken]. rewrite !elem_of_app. right. left. by left. }
  destruct Hn as (nd & Hn & Ed). cbn [exec] in E1. rewrite (vget_some _ _ _ Hn) in E1. cbn [mbind outcome_bind] in E1. rewrite Ed in E1.
  destruct (copy_in addr msg q) as [q1'|e]; [|done]. cbn [mbind outcome_bind] in E1. injection E1 as ->.
  destruct (enqueue_ok _ _ _ _ _ _ q1 _ id Hs1) as (q2 & v2 & E2 & Hsp2 & Hs2); [by exists [], (MkChunk id addr msg), o|].
  destruct (spec_enqueue_inv _ _ _ _ _ _ _ _ Hsp2) as (l1 & c & l2 & Eo2 & Ec & ->). cbn [v_owned v_queue v_taken v_count] in *.
  destruct (owned_head _ _ _ _ _ _ _ _ _ _ _ _ l1 c l2 Hs1 Eo2) as (-> & -> & ->); [done|]. cbn [exec] in E2.
  destruct (enqueue_chunk id q1) as [q2'|e] eqn:E3; [|done]. cbn [mbind outcome_bind] in E2. injection E2 as ->. by exists q1, q2.
Qed.

Lemma spec_dequeue_inv pa ps no cap v r v' c rest :
  spec pa ps no cap v OpDequeue (ADequeue r) v' -> v_queue v = c :: rest ->
  r = Some (SOk (cid c) (caddr c) (zlen (cbytes c))) /\ v' = MkView (v_owned v) rest (c :: v_taken v) (v_count v).
Proof. intros Hsp Eq. inversion Hsp as [| | | |? ? ? E| | | | |]; subst; [|congruence|congruence]. rewrite Eq in E. by injection E as <- <-. Qed.

Lemma spec_allocate_inv pa ps no cap v sz r v' :
  spec pa ps no cap v (OpAllocate sz) (AChunk r) v' ->
  match r with
  | Some (id, addr) => exists bytes, zlen bytes = sz /\ v' = MkView (MkChunk id addr bytes :: v_owned v) (v_queue v) (v_taken v) (v_count v)
  | None => v' = v /\ (zlen (v_all v) = cap \/ no_room (MkBuddy pa ps no 0 tt) (request <$> v_all v) sz)
  end.
Proof. intros Hsp. inversion Hsp; subst; [by eexists|done]. Qed.

Lemma allocate_try fuel sz q r q1 ps :
  buffer_mmap_size_ q = ps -> sz <= ps -> try_allocate sz q = Ok (Some r, q1) -> ShmQueue.allocate (S fuel) sz true q = Ok (Some r, q1).
Proof.
  intros <- Hsz E. unfold ShmQueue.allocate. replace (sz <=? _) with true by lia. cbn [require mbind outcome_bind while_fuel].
  assert (Es : allocate_step sz true q = Ok (inr (Some r, q1))) by (unfold allocate_step; by rewrite E). by rewrite Es.
Qed.

Lemma dequeue_head pa ps no obj base cap q v c rest elapsed timeout_us :
  shows pa ps no obj base cap q v -> v_queue v = c :: rest -> timeout_us = int64_max \/ elapsed 0%nat < timeout_us ->
  exists q', dequeue 1 elapsed timeout_us q = Ok (SOk (cid c) (caddr c) (zlen (cbytes c)), q') /\
    buffer_addr_ q' = pa /\ rd (shm_bytes q') (caddr c - pa) (zlen (cbytes c)) = Ok (cbytes c).
Proof.
  intros Hs Eq Ht. destruct (dequeue_round_ok _ _ _ _ _ _ q v Hs) as (r & q' & v' & E & Hsp & (Hst & _)). exists q'.
  destruct (spec_dequeue_inv _ _ _ _ _ _ _ _ _ Hsp Eq) as [-> ->].
  assert (Hin : c ∈ v_all (MkView (v_owned v) rest (c :: v_taken v) (v_count v))).
  { unfold v_all. cbn [v_queue v_owned v_taken]. rewrite !elem_of_app. right. right. by left. }
  split; [|split; [apply (st_addr _ _ _ _ _ _ _ Hst)|by apply (st_bytes _ _ _ _ _ _ _ Hst)]].
  unfold dequeue. cbn [while_fuel]. unfold dequeue_step.
  replace ((timeout_us =? int64_max) || (elapsed 0%nat <? timeout_us)) with true by (destruct Ht; lia).
  by rewrite E.
Qed.

(** C24: The shared-memory message queue over a mapped buffer of B megabytes, where at
    most the ten highest binary digits of B < 2^16 are not zero so that the buddy tree
    divides it evenly (every B below 1024, and the 3296 of the test): init succeeds, and
    every legal call (allocate, writing a chunk, enqueue, dequeue rounds, release,
    producer counting) returns and steps an abstract queue of chunks; messages leave in
    the order they were enqueued with the bytes written to them, chunks handed out are
    disjoint, in the buffer and different from every chunk still in use, and allocation
    fails only for lack of nodes or blocks. *)
Theorem shm_queue_refines_spec (pa B cap : Z) :
  even_size B -> 0 < pa -> pa + B * 2 ^ 20 <= 2 ^ 64 -> 1 <= cap < 2 ^ 31 ->
  (exists q obj, ShmQueue.init true (Some pa) true cap B = Ok (Some q) /\
     shows pa (B * 2 ^ 20) (order_of B) obj (obj + sizeof_buddy) cap q (MkView [] [] [] (-1))) /\
  (forall obj base q v o, shows pa (B * 2 ^ 20) (order_of B) obj base cap q v -> legal (B * 2 ^ 20) v o ->
     exists a q' v', exec o q = Ok (a, q') /\ spec pa (B * 2 ^ 20) (order_of B) cap v o a v' /\
       shows pa (B * 2 ^ 20) (order_of B) obj base cap q' v').
Proof. intros HB Hpa Hpe Hc. split; [by apply init_shows|]. intros obj base q v o. apply exec_refines. Qed.

(** The unit test of the queue uses 3296 megabytes. *)
Lemma even_size_test : even_size 3296.
Proof. split; [lia|reflexivity]. Qed.

(** A queue of one megabyte and four chunks is set up and serves a request. *)
Lemma shm_queue_refines_spec_witness :
  exists q a q', ShmQueue.init true (Some 65536) true 4 1 = Ok (Some q) /\ exec (OpAllocate 100) q = Ok (a, q').
Proof.
  destruct (shm_queue_refines_spec 65536 1 4) as [(q & obj & E & Hs) Hx]; [by apply even_size_small|lia|lia|lia|].
  destruct (Hx _ _ _ _ (OpAllocate 100) Hs) as (a & q' & v' & E' & _); [cbn; lia|]. exists q, a, q'. split; [exact E|exact E'].
Defined.

(** A message enqueued into a fresh queue is dequeued with its bytes and its size,
    and the queue can be used again after the chunk is released. *)
Theorem shm_message_roundtrip pa ps no obj base cap q v msg elapsed timeout_us :
  shows pa ps no obj base cap q v -> v_queue v = [] -> zlen msg <= ps ->
  zlen (v_all v) < cap -> ~ no_room (MkBuddy pa ps no 0 tt) (request <$> v_all v) (zlen msg) ->
  timeout_us = int64_max \/ elapsed 0%nat < timeout_us ->
  exists q1 id addr q2, enqueue 1 msg q = Ok (true, q1) /\ dequeue 1 elapsed timeout_us q1 = Ok (SOk id addr (zlen msg), q2) /\
    rd (shm_bytes q2) (addr - buffer_addr_ q2) (zlen msg) = Ok msg.
Proof.
  intros Hs Eq Hm Hcap Hroom Ht. pose proof (zlen_nonneg msg).
  destruct (try_allocate_ok _ _ _ _ _ _ q v (zlen msg) Hs ltac:(lia)) as (r & q0 & v0 & E0 & Hsp & Hs0). apply spec_allocate_inv in Hsp.
  destruct r as [[id addr]|]; [|by destruct Hsp as [_ [?|?]]; [lia|]]. destruct Hsp as (bytes & Hb & ->).
  destruct (send_ok _ _ _ _ _ _ _ _ _ _ _ _ _ _ msg Hs0 ltac:(lia)) as (q1 & q2 & E1 & E2 & Hs2).
  destruct (dequeue_head _ _ _ _ _ _ q2 _ (MkChunk id addr msg) [] elapsed timeout_us Hs2) as (q3 & E3 & Ea & Hrd); [by rewrite Eq|done|].
  exists q2, id, addr, q3. split; [|split; [exact E3|by rewrite Ea]]. unfold enqueue.
  rewrite (allocate_try 0 (zlen msg) q (id, addr) q0 ps); [|by destruct Hs as (Hst & _); apply (st_size _ _ _ _ _ _ _ Hst)|done|done].
  cbn [mbind outcome_bind]. rewrite E1. cbn [mbind outcome_bind]. by rewrite E2.
Qed.

(** Three bytes through a new queue. *)
Lemma shm_message_roundtrip_witness :
  exists q q1 id addr q2, ShmQueue.init true (Some 65536) true 4 1 = Ok (Some q) /\ enqueue 1 [1; 2; 3] q = Ok (true, q1) /\
    dequeue 1 (fun _ => 0) 100 q1 = Ok (SOk id addr 3, q2) /\ rd (shm_bytes q2) (addr - buffer_addr_ q2) 3 = Ok [1; 2; 3].
Proof.
  destruct (init_shows 65536 1 4) as (q & obj & E & Hs); [by apply even_size_small|lia|lia|lia|]. exists q.
  destruct (shm_message_roundtrip _ _ _ _ _ _ q _ [1; 2; 3] (fun _ => 0) 100 Hs) as (q1 & id & addr & q2 & H); [reflexivity|unfold zlen; cbn; lia|unfold zlen; cbn; lia| |right; lia|].
  - intros (r & k & Hk & Hr). destruct Hk as (E1 & _). vm_compute in E1. injection E1 as <-. destruct Hr as [Hr|Hr].
    + cbn in Hr. lia.
    + destruct (Hr (replicate k false)) as (a & sz & r & k' & Hin & _); [apply length_replicate|]. by apply elem_of_nil in Hin.
  - exists q1, id, addr, q2. split; [exact E|exact H].
Defined.

(** [close] only counts down: with the initial count of -1 a closed queue never
    reports [closed]. *)
Example close_does_not_close :
  (cl ← ShmList.init true 1; cb ← build_control_block 4096 65536; cb ← set_count cb (-1);
   q ← close (MkShm cl cb 65536 4096 (zreplicate 4096 0)); '(r, _) ← dequeue_round q; Ok r) = Ok None.
Proof. vm_compute. reflexivity. Qed.
