(* ===== verification/Murmur.v ===== *)
(** The 128-bit MurmurHash3 of cpp/datastructure/hash/murmurhash.h and .cc.

    The key is read as little-endian 64-bit words; the bytes after the last full
    block of 16 go through a [switch] whose cases fall through.  The result is
    MurmurHash3_x64_128 of the smhasher project, stated here with its constants on
    its own: on the words of the key, the last incomplete block filled with zeros and
    mixed in without the block step. *)

From S2P Require Import Prelude Bytes.

(** * The code *)

Definition rotl64 (x r : Z) : Z := Z.lor (u64 (Z.shiftl x r)) (Z.shiftr x (64 - r)).

Definition fmix64 (k : Z) : Z :=
  let k := Z.lxor k (Z.shiftr k 33) in
  let k := u64 (k * 0xff51afd7ed558ccd) in
  let k := Z.lxor k (Z.shiftr k 33) in
  let k := u64 (k * 0xc4ceb9fe1a85ec53) in
  Z.lxor k (Z.shiftr k 33).

Definition c1 : Z := 0x87c37b91114253d5.
Definition c2 : Z := 0x4cf5ad432745937f.

(** [k1 *= c1; k1 = rotl64(k1, 31); k1 *= c2] *)
Definition mix_k1 (k1 : Z) : Z := u64 (rotl64 (u64 (k1 * c1)) 31 * c2).
Definition mix_k2 (k2 : Z) : Z := u64 (rotl64 (u64 (k2 * c2)) 33 * c1).

(** One block, after [k1] and [k2] were mixed. *)
Definition block_step (k1 k2 : Z) (h : Z * Z) : Z * Z :=
  let '(h1, h2) := h in
  let h1 := Z.lxor h1 (mix_k1 k1) in
  let h1 := rotl64 h1 27 in
  let h1 := u64 (h1 + h2) in
  let h1 := u64 (h1 * 5 + 0x52dce729) in
  let h2 := Z.lxor h2 (mix_k2 k2) in
  let h2 := rotl64 h2 31 in
  let h2 := u64 (h2 + h1) in
  let h2 := u64 (h2 * 5 + 0x38495ab5) in
  (h1, h2).

(** [case k: acc ^= uint64_t(tail[i]) << sh], reached when [len & 15] is [k] or
    more. *)
Definition fall (n k : Z) (data : list Z) (tail i sh acc : Z) : outcome Z :=
  if k <=? n then b ← vget data (tail + i); Ok (Z.lxor acc (Z.shiftl b sh)) else Ok acc.

Definition tail_k2 (n : Z) (data : list Z) (tail : Z) : outcome Z :=
  k2 ← fall n 15 data tail 14 48 0;
  k2 ← fall n 14 data tail 13 40 k2;
  k2 ← fall n 13 data tail 12 32 k2;
  k2 ← fall n 12 data tail 11 24 k2;
  k2 ← fall n 11 data tail 10 16 k2;
  k2 ← fall n 10 data tail 9 8 k2;
  fall n 9 data tail 8 0 k2.

Definition tail_k1 (n : Z) (data : list Z) (tail : Z) : outcome Z :=
  k1 ← fall n 8 data tail 7 56 0;
  k1 ← fall n 7 data tail 6 48 k1;
  k1 ← fall n 6 data tail 5 40 k1;
  k1 ← fall n 5 data tail 4 32 k1;
  k1 ← fall n 4 data tail 3 24 k1;
  k1 ← fall n 3 data tail 2 16 k1;
  k1 ← fall n 2 data tail 1 8 k1;
  fall n 1 data tail 0 0 k1.

Definition finish (len : Z) (h : Z * Z) : Z * Z :=
  let '(h1, h2) := h in
  let h1 := Z.lxor h1 (u64 len) in let h2 := Z.lxor h2 (u64 len) in
  let h1 := u64 (h1 + h2) in let h2 := u64 (h2 + h1) in
  let h1 := fmix64 h1 in let h2 := fmix64 h2 in
  let h1 := u64 (h1 + h2) in let h2 := u64 (h2 + h1) in
  (h1, h2).

(** [MurmurHash(seed)(key, len, out)]; the two words of [out]. *)
Definition murmurhash (seed : Z) (data : list Z) (len : Z) : outcome (Z * Z) :=
  let nblocks := Z.quot len 16 in
  h ← for_range 0 nblocks (fun i h =>
    k1 ← rd_u64 data (8 * (i * 2)); k2 ← rd_u64 data (8 * (i * 2 + 1));
    Ok (block_step k1 k2 h)) (seed, seed);
  let tail := nblocks * 16 in
  let n := Z.land len 15 in
  h ← (if 9 <=? n then k2 ← tail_k2 n data tail; Ok (h.1, Z.lxor h.2 (mix_k2 k2)) else Ok h);
  h ← (if 1 <=? n then k1 ← tail_k1 n data tail; Ok (Z.lxor h.1 (mix_k1 k1), h.2) else Ok h);
  Ok (finish len h).

(** "this is a test line" *)
Definition test_line : list Z := [116; 104; 105; 115; 32; 105; 115; 32; 97; 32; 116; 101; 115; 116; 32; 108; 105; 110; 101].

Example murmur_test_vectors :
  murmurhash 0 [] 0 = Ok (0, 0) /\
  murmurhash 0 test_line 19 = Ok (0x097eec3aaefa7332, 0xe0d14cf2d59d26c3) /\
  murmurhash 7621 [] 0 = Ok (0x2087cc3f33e14ed7, 0x8d8fdd6d054f1c2c) /\
  murmurhash 7621 test_line 19 = Ok (0xb3c8e4d2b3806183, 0xbc117d2cd9cf9a3e).
Proof. vm_compute. repeat split. Qed.

(** * The code on lists of blocks *)

(** The first [n] blocks of 16 bytes. *)
Fixpoint blocks (n : nat) (l : list Z) : list (list Z) :=
  match n with O => [] | S n => take 16 l :: blocks n (drop 16 l) end.

Definition murmur3 (seed : Z) (key : list Z) : Z * Z :=
  let nb := (length key / 16)%nat in
  let h := foldl (fun h b => block_step (dec (take 8 b)) (dec (drop 8 b)) h) (seed, seed) (blocks nb key) in
  let t := drop (16 * nb) key in
  finish (zlen key) (Z.lxor h.1 (mix_k1 (dec (take 8 t))), Z.lxor h.2 (mix_k2 (dec (drop 8 t)))).

Lemma blocks_snoc n l : blocks (S n) l = blocks n l ++ [take 16 (drop (16 * n) l)].
Proof.
  revert l. induction n as [|n IH]; intros l; [done|]. change (blocks (S (S n)) l) with (take 16 l :: blocks (S n) (drop 16 l)).
  rewrite IH, drop_drop. cbn [blocks app]. by replace (16 + 16 * n)%nat with (16 * S n)%nat by lia.
Qed.

(** A word with zeros below and a small number have no bit in common. *)
Lemma low_bits_apart x y r : 0 <= r -> 0 <= y < 2 ^ r -> Z.land (x * 2 ^ r) y = 0.
Proof.
  intros Hr Hy. apply Z.bits_inj'. intros i Hi. rewrite Z.land_spec, Z.bits_0. destruct (Z.lt_ge_cases i r).
  - by rewrite Z.mul_pow2_bits_low.
  - rewrite <- (Z.mod_small y (2 ^ r)) by done. rewrite Z.mod_pow2_bits_high by lia. apply andb_false_r.
Qed.

(** Bytes that do not overlap are added by [^]. *)
Lemma lxor_byte s d b : 0 <= s -> is_u8 b -> Z.lxor (2 ^ (s + 8) * d) (Z.shiftl b s) = 2 ^ s * (b + 2 ^ 8 * d).
Proof.
  intros Hs Hb. assert (E : Z.land (d * 2 ^ 8) b = 0) by (by apply low_bits_apart).
  replace (2 ^ (s + 8) * d) with (Z.shiftl (d * 2 ^ 8) s) by (rewrite Z.shiftl_mul_pow2, Z.pow_add_r by lia; lia).
  rewrite <- Z.shiftl_lxor, <- Z.add_nocarry_lxor by done. rewrite Z.shiftl_mul_pow2 by lia. lia.
Qed.

(** One case of the switch: [u] are the bytes of the word that are in the key. *)
Lemma fall_ok base u data tail n j acc :
  0 <= j -> (forall i b, zget u i = Some b -> zget data (tail + (base + i)) = Some b /\ is_u8 b) ->
  ((base + j + 1 <=? n) = (j <? zlen u)) -> acc = 2 ^ (8 * (j + 1)) * dec (drop (Z.to_nat (j + 1)) u) ->
  wp (fall n (base + j + 1) data tail (base + j) (8 * j) acc) (fun acc' => acc' = 2 ^ (8 * j) * dec (drop (Z.to_nat j) u)).
Proof.
  intros Hj Hu Hn ->. unfold fall. rewrite Hn. destruct (Z.ltb_spec j (zlen u)).
  - destruct (zget_in_range u j) as [b Hb]; [lia|]. destruct (Hu j b Hb) as [Hd Hb8]. apply wp_bind. exists b. split; [by apply vget_some|].
    apply wp_ret. rewrite (drop_zget _ _ _ Hb). cbn [dec foldr]. replace (8 * (j + 1)) with (8 * j + 8) by lia. by apply lxor_byte; [lia|].
  - apply wp_ret. rewrite !drop_ge by (unfold zlen in *; lia). cbn. lia.
Qed.

Lemma dec_nil : dec [] = 0.
Proof. done. Qed.

(** The case for byte [j] of the word, by [F]. *)
Ltac fall_step F j := apply wp_bind; eapply wp_mono; [apply (F j); [lia|first [eassumption|reflexivity]]|]; cbv beta; intros ? ->.

Lemma tail_k1_ok data tail n u :
  zlen u = Z.min n 8 -> 0 <= n -> (forall i b, zget u i = Some b -> zget data (tail + i) = Some b /\ is_u8 b) ->
  wp (tail_k1 n data tail) (fun k => k = dec u).
Proof.
  intros Hu Hn Hd.
  assert (F : forall j acc, 0 <= j < 8 -> acc = 2 ^ (8 * (j + 1)) * dec (drop (Z.to_nat (j + 1)) u) ->
    wp (fall n (j + 1) data tail j (8 * j) acc) (fun acc' => acc' = 2 ^ (8 * j) * dec (drop (Z.to_nat j) u))).
  { intros j acc Hj Hacc. apply (fall_ok 0 u); [lia|exact Hd|lia|exact Hacc]. }
  assert (H8 : 0 = 2 ^ (8 * (7 + 1)) * dec (drop (Z.to_nat (7 + 1)) u)) by (rewrite drop_ge by (unfold zlen in *; lia); done).
  unfold tail_k1. fall_step F 7. fall_step F 6. fall_step F 5. fall_step F 4. fall_step F 3. fall_step F 2. fall_step F 1.
  eapply wp_mono; [apply (F 0); [lia|reflexivity]|]. cbv beta. intros ? ->. rewrite drop_0. cbn. lia.
Qed.

Lemma tail_k2_ok data tail n u :
  zlen u = Z.max 0 (n - 8) -> n < 16 -> (forall i b, zget u i = Some b -> zget data (tail + (8 + i)) = Some b /\ is_u8 b) ->
  wp (tail_k2 n data tail) (fun k => k = dec u).
Proof.
  intros Hu Hn Hd.
  assert (F : forall j acc, 0 <= j < 8 -> acc = 2 ^ (8 * (j + 1)) * dec (drop (Z.to_nat (j + 1)) u) ->
    wp (fall n (8 + j + 1) data tail (8 + j) (8 * j) acc) (fun acc' => acc' = 2 ^ (8 * j) * dec (drop (Z.to_nat j) u))).
  { intros j acc Hj Hacc. apply (fall_ok 8 u); [lia|exact Hd|lia|exact Hacc]. }
  assert (H8 : 0 = 2 ^ (8 * (6 + 1)) * dec (drop (Z.to_nat (6 + 1)) u)) by (rewrite drop_ge by (unfold zlen in *; lia); done).
  unfold tail_k2. fall_step F 6. fall_step F 5. fall_step F 4. fall_step F 3. fall_step F 2. fall_step F 1.
  eapply wp_mono; [apply (F 0); [lia|reflexivity]|]. cbv beta. intros ? ->. rewrite drop_0. cbn. lia.
Qed.

Definition body (seed : Z) (bs : list (list Z)) : Z * Z :=
  foldl (fun h b => block_step (dec (take 8 b)) (dec (drop 8 b)) h) (seed, seed) bs.

Lemma body_ok seed data nb :
  0 <= nb -> 16 * nb <= zlen data ->
  for_range 0 nb (fun i h =>
    k1 ← rd_u64 data (8 * (i * 2)); k2 ← rd_u64 data (8 * (i * 2 + 1)); Ok (block_step k1 k2 h)) (seed, seed)
  = Ok (body seed (blocks (Z.to_nat nb) data)).
Proof.
  intros Hnb Hlen.
  edestruct (wp_for_range (fun i h => h = body seed (blocks (Z.to_nat i) data)) (fun h => h = body seed (blocks (Z.to_nat nb) data)) 0 nb)
    as (h & E & Hh); [lia|reflexivity| |intros t Ht; exact Ht|rewrite <- Hh; exact E].
  intros i h Hi ->. cbv beta. unfold rd_u64. rewrite !rd_ok by lia. cbn [mbind outcome_bind]. apply wp_ret.
  replace (Z.to_nat (i + 1)) with (S (Z.to_nat i)) by lia. rewrite blocks_snoc. unfold body at 2. rewrite foldl_app. cbn [foldl].
  fold (body seed (blocks (Z.to_nat i) data)). f_equal; f_equal.
  - replace (Z.to_nat (8 * (i * 2))) with (16 * Z.to_nat i)%nat by lia. change (Z.to_nat 8) with 8%nat. by rewrite take_take.
  - replace (Z.to_nat (8 * (i * 2 + 1))) with (16 * Z.to_nat i + 8)%nat by lia. change (Z.to_nat 8) with 8%nat.
    rewrite <- drop_drop. rewrite (skipn_firstn_comm 8 16). done.
Qed.

Lemma murmurhash_eq (seed : Z) (key : list Z) :
  Forall is_u8 key -> zlen key < 2 ^ 31 -> murmurhash seed key (zlen key) = Ok (murmur3 seed key).
Proof.
  intros Hk Hl. pose proof (zlen_nonneg key) as H0. unfold murmurhash. rewrite Z.quot_div_nonneg by lia.
  pose proof (Z.div_mod (zlen key) 16) as Hdm. pose proof (Z.mod_pos_bound (zlen key) 16) as Hm. set (nb := zlen key / 16) in *.
  rewrite body_ok by lia. cbn [mbind outcome_bind]. change 15 with (2 ^ 4 - 1). rewrite land_mask by lia. change (2 ^ 4) with 16. set (n := zlen key mod 16) in *.
  assert (Enb : Z.to_nat nb = (length key / 16)%nat) by (unfold nb, zlen; rewrite <- (Nat2Z.id (length key / 16)), Nat2Z.inj_div; done).
  set (t := drop (16 * (length key / 16)) key).
  assert (Ht : zlen t = n) by (unfold t, zlen in *; rewrite length_drop, <- Enb; lia).
  assert (Hget : forall i b, zget t i = Some b -> zget key (nb * 16 + i) = Some b /\ is_u8 b).
  { intros i b Hb. pose proof (zget_bounds _ _ _ Hb). assert (E : zget key (nb * 16 + i) = Some b).
    { rewrite <- (take_drop (16 * (length key / 16)) key). fold t. rewrite zget_app_r by (unfold zlen in *; rewrite length_take; lia).
      rewrite <- Hb. f_equal. unfold zlen in *. rewrite length_take. lia. }
    split; [done|]. rewrite list.Forall_forall in Hk. apply Hk. by eapply zget_elem. }
  assert (T1 : exists k1, tail_k1 n key (nb * 16) = Ok k1 /\ k1 = dec (take 8 t)).
  { apply tail_k1_ok; [unfold zlen in *; rewrite length_take; lia|lia|]. intros i b Hb. apply Hget.
    rewrite <- (take_drop 8 t). pose proof (zget_bounds _ _ _ Hb). rewrite zget_app_l by lia. done. }
  assert (T2 : exists k2, tail_k2 n key (nb * 16) = Ok k2 /\ k2 = dec (drop 8 t)).
  { apply tail_k2_ok; [unfold zlen in *; rewrite length_drop; lia|lia|]. intros i b Hb. pose proof (zget_bounds _ _ _ Hb). apply Hget.
    rewrite <- (take_drop 8 t). unfold zlen in *. rewrite length_drop in *. rewrite zget_app_r by (unfold zlen; rewrite length_take; lia). rewrite <- Hb. f_equal. unfold zlen. rewrite length_take. lia. }
  destruct T1 as (k1 & E1 & ->), T2 as (k2 & E2 & ->).
  assert (Hz1 : mix_k1 0 = 0) by done. assert (Hz2 : mix_k2 0 = 0) by done.
  unfold murmur3. fold t. rewrite <- Enb. fold (body seed (blocks (Z.to_nat nb) key)). set (h := body seed _).
  destruct (Z.leb_spec 9 n) as [H9|H9].
  - rewrite E2. cbn [mbind outcome_bind fst snd]. destruct (Z.leb_spec 1 n); [|lia]. rewrite E1. cbn [mbind outcome_bind fst snd].
    done.
  - cbn [mbind outcome_bind]. assert (Ed : drop 8 t = []) by (apply drop_ge; unfold zlen in *; lia). rewrite Ed, dec_nil, Hz2, Z.lxor_0_r.
    destruct (Z.leb_spec 1 n).
    + rewrite E1. cbn [mbind outcome_bind fst snd]. done.
    + assert (Et : take 8 t = []) by (destruct t; [done|unfold zlen in Ht; cbn in Ht; lia]). rewrite Et, dec_nil, Hz1, Z.lxor_0_r.
      cbn [mbind outcome_bind]. by destruct h.
Qed.

(** * MurmurHash3_x64_128 *)

Module Reference.

(** Arithmetic of 64-bit words. *)
Definition W : Z := 2 ^ 64.
Definition times (x y : Z) : Z := (x * y) mod W.
Definition plus (x y : Z) : Z := (x + y) mod W.
Definition rotate (x r : Z) : Z := (x * 2 ^ r) mod W + x / 2 ^ (64 - r).

Definition k_one : Z := 9782798678568883157.
Definition k_two : Z := 5545529020109919103.

(** A word of the key on its way into a lane. *)
Definition scramble1 (k : Z) : Z := times (rotate (times k k_one) 31) k_two.
Definition scramble2 (k : Z) : Z := times (rotate (times k k_two) 33) k_one.

(** A block of two words; the second lane takes the new value of the first. *)
Definition mix (h k : Z * Z) : Z * Z :=
  let h1 := plus (times 5 (plus (rotate (Z.lxor h.1 (scramble1 k.1)) 27) h.2)) 1390208809 in
  (h1, plus (times 5 (plus (rotate (Z.lxor h.2 (scramble2 k.2)) 31) h1)) 944331445).

(** The finalizer: every bit of the word depends on every other. *)
Definition fold33 (x : Z) : Z := Z.lxor x (x / 2 ^ 33).
Definition avalanche (x : Z) : Z :=
  fold33 (times (fold33 (times (fold33 x) 18397679294719823053)) 14181476777654086739).

Definition cross (h : Z * Z) : Z * Z := (plus h.1 h.2, plus h.1 (times 2 h.2)).

(** Word [j] of the key, as if it were followed by zeros. *)
Definition word (key : list Z) (j : Z) : Z :=
  let at_ t := 2 ^ (8 * t) * default 0 (zget key (8 * j + t)) in
  at_ 0 + at_ 1 + at_ 2 + at_ 3 + at_ 4 + at_ 5 + at_ 6 + at_ 7.

Definition x64_128 (seed : Z) (key : list Z) : Z * Z :=
  let nb := zlen key / 16 in
  let h := foldl mix (seed, seed) ((fun i => (word key (2 * i), word key (2 * i + 1))) <$> seqZ 0 nb) in
  let h := (Z.lxor h.1 (scramble1 (word key (2 * nb))), Z.lxor h.2 (scramble2 (word key (2 * nb + 1)))) in
  let h := cross (Z.lxor h.1 (zlen key), Z.lxor h.2 (zlen key)) in
  cross (avalanche h.1, avalanche h.2).
End Reference.
Import Reference.

Lemma u64_lxor x y : is_u64 x -> is_u64 y -> is_u64 (Z.lxor x y).
Proof.
  unfold is_u64. intros Hx Hy. rewrite <- (Z.mod_small x (2 ^ 64)), <- (Z.mod_small y (2 ^ 64)) by done.
  rewrite <- !Z.land_ones by lia.
  replace (Z.lxor (Z.land x (Z.ones 64)) (Z.land y (Z.ones 64))) with (Z.land (Z.lxor x y) (Z.ones 64)).
  - rewrite Z.land_ones by lia. apply Z.mod_pos_bound. lia.
  - apply Z.bits_inj'. intros i Hi. rewrite Z.land_spec, !Z.lxor_spec, !Z.land_spec.
    by destruct (Z.testbit x i), (Z.testbit y i), (Z.testbit (Z.ones 64) i).
Qed.

(** The two halves of a rotation do not overlap. *)
Lemma rotl64_rotate x r : is_u64 x -> 0 < r < 64 -> rotl64 x r = rotate x r /\ is_u64 (rotate x r).
Proof.
  intros Hx Hr. unfold is_u64 in *. unfold rotl64, rotate, W, u64. rewrite Z.shiftl_mul_pow2, Z.shiftr_div_pow2 by lia.
  assert (E64 : 2 ^ 64 = 2 ^ (64 - r) * 2 ^ r) by (rewrite <- Z.pow_add_r by lia; f_equal; lia).
  assert (Ea : (x * 2 ^ r) mod 2 ^ 64 = 2 ^ r * (x mod 2 ^ (64 - r))).
  { rewrite E64, Z.mul_mod_distr_r by lia. lia. }
  assert (Hb : 0 <= x / 2 ^ (64 - r) < 2 ^ r).
  { split; [apply Z.div_pos; lia|]. apply Z.div_lt_upper_bound; lia. }
  pose proof (Z.mod_pos_bound x (2 ^ (64 - r))) as Hm. rewrite Ea. split; [|nia].
  symmetry. apply Z.add_nocarry_lor. rewrite Z.mul_comm. apply low_bits_apart; lia.
Qed.

Lemma mix_k1_scramble k : mix_k1 k = scramble1 k /\ is_u64 (scramble1 k).
Proof.
  destruct (rotl64_rotate (u64 (k * c1)) 31 (u64_range _)) as [E _]; [lia|]. unfold mix_k1. rewrite E.
  split; [done|apply u64_range].
Qed.

Lemma mix_k2_scramble k : mix_k2 k = scramble2 k /\ is_u64 (scramble2 k).
Proof.
  destruct (rotl64_rotate (u64 (k * c2)) 33 (u64_range _)) as [E _]; [lia|]. unfold mix_k2. rewrite E.
  split; [done|apply u64_range].
Qed.

Lemma times5 x c : plus (times 5 x) c = u64 (x * 5 + c).
Proof. unfold plus, times, u64, W. rewrite Zplus_mod_idemp_l. f_equal. lia. Qed.

Lemma block_step_mix h k :
  is_u64 h.1 -> is_u64 h.2 -> block_step k.1 k.2 h = mix h k /\ is_u64 (mix h k).1 /\ is_u64 (mix h k).2.
Proof.
  destruct h as [h1 h2], k as [k1 k2]. cbn [fst snd]. intros H1 H2. unfold block_step, mix. cbn [fst snd].
  destruct (mix_k1_scramble k1) as [-> S1], (mix_k2_scramble k2) as [-> S2].
  destruct (rotl64_rotate (Z.lxor h1 (scramble1 k1)) 27 (u64_lxor _ _ H1 S1)) as [-> _]; [lia|].
  destruct (rotl64_rotate (Z.lxor h2 (scramble2 k2)) 31 (u64_lxor _ _ H2 S2)) as [-> _]; [lia|].
  rewrite !times5. split; [done|]. split; apply u64_range.
Qed.

Lemma fmix64_avalanche k : fmix64 k = avalanche k.
Proof. unfold fmix64, avalanche, fold33. by rewrite !Z.shiftr_div_pow2 by lia. Qed.

Lemma cross_eq a b : cross (a, b) = (u64 (a + b), u64 (b + u64 (a + b))).
Proof.
  unfold cross, plus, times, u64, W. cbn [fst snd]. rewrite !Zplus_mod_idemp_r. do 2 f_equal. lia.
Qed.

Lemma finish_final len h :
  is_u64 len -> finish len h = (let h := cross (Z.lxor h.1 len, Z.lxor h.2 len) in cross (avalanche h.1, avalanche h.2)).
Proof.
  intros Hl. destruct h as [h1 h2]. unfold finish. cbv zeta. cbn [fst snd]. rewrite (u64_id len Hl), !fmix64_avalanche.
  rewrite cross_eq. cbn [fst snd]. by rewrite cross_eq.
Qed.

(** The words of the key. *)
Lemma word_dec key j : 0 <= j -> word key j = dec (take 8 (drop (Z.to_nat (8 * j)) key)).
Proof.
  intros Hj. unfold word.
  assert (E : forall t, 0 <= t -> zget key (8 * j + t) = drop (Z.to_nat (8 * j)) key !! Z.to_nat t).
  { intros t Ht. rewrite lookup_drop. replace (8 * j + t) with (Z.of_nat (Z.to_nat (8 * j) + Z.to_nat t)) by lia.
    apply zget_nat. }
  cbv zeta. rewrite !E by lia. generalize (drop (Z.to_nat (8 * j)) key) as l. intros l.
  change (Z.to_nat 0) with 0%nat. change (Z.to_nat 1) with 1%nat. change (Z.to_nat 2) with 2%nat. change (Z.to_nat 3) with 3%nat.
  change (Z.to_nat 4) with 4%nat. change (Z.to_nat 5) with 5%nat. change (Z.to_nat 6) with 6%nat. change (Z.to_nat 7) with 7%nat.
  change (2 ^ (8 * 0)) with 1. change (2 ^ (8 * 1)) with (2 ^ 8). change (2 ^ (8 * 2)) with (2 ^ 8 * 2 ^ 8).
  change (2 ^ (8 * 3)) with (2 ^ 8 * (2 ^ 8 * 2 ^ 8)). change (2 ^ (8 * 4)) with (2 ^ 32). change (2 ^ (8 * 5)) with (2 ^ 40).
  change (2 ^ (8 * 6)) with (2 ^ 48). change (2 ^ (8 * 7)) with (2 ^ 56).
  do 8 (destruct l as [|? l]; [cbn -[Z.mul Z.add Z.pow]; lia|]). cbn -[Z.mul Z.add Z.pow]. rewrite take_0. cbn [foldr]. lia.
Qed.

Lemma blocks_words n key :
  (fun b => (dec (take 8 b), dec (drop 8 b))) <$> blocks n key =
  (fun i => (word key (2 * i), word key (2 * i + 1))) <$> seqZ 0 (Z.of_nat n).
Proof.
  induction n as [|n IH]; [done|]. rewrite blocks_snoc, fmap_app, IH.
  replace (Z.of_nat (S n)) with (Z.of_nat n + 1) by lia. rewrite seqZ_app, fmap_app, seqZ_1 by lia. f_equal.
  cbn [fmap list_fmap]. rewrite !word_dec by lia. do 2 f_equal.
  - rewrite take_take. do 3 f_equal. lia.
  - replace (Z.to_nat (8 * (2 * (0 + Z.of_nat n) + 1))) with (16 * n + 8)%nat by lia.
    rewrite <- drop_drop. by rewrite (skipn_firstn_comm 8 16).
Qed.

Lemma body_mix seed bs :
  is_u64 seed ->
  let h := foldl mix (seed, seed) ((fun b => (dec (take 8 b), dec (drop 8 b))) <$> bs) in
  body seed bs = h /\ is_u64 h.1 /\ is_u64 h.2.
Proof.
  intros Hs. induction bs as [|b bs IH] using rev_ind; [done|]. cbv zeta in IH |- *.
  unfold body in *. rewrite fmap_app, !foldl_app. cbn [fmap list_fmap foldl]. destruct IH as (-> & I1 & I2).
  exact (block_step_mix _ (dec (take 8 b), dec (drop 8 b)) I1 I2).
Qed.

Lemma murmur3_reference seed key : is_u64 seed -> zlen key < 2 ^ 31 -> murmur3 seed key = x64_128 seed key.
Proof.
  intros Hs Hl. unfold murmur3, x64_128. pose proof (zlen_nonneg key).
  replace (zlen key / 16) with (Z.of_nat (length key / 16)) by (unfold zlen; by rewrite Nat2Z.inj_div).
  set (nb := (length key / 16)%nat). destruct (body_mix seed (blocks nb key) Hs) as (E & _ & _). unfold body in E. rewrite E.
  rewrite blocks_words. set (h := foldl mix _ _). rewrite finish_final by (unfold is_u64; lia). cbv zeta. cbn [fst snd].
  rewrite !(proj1 (mix_k1_scramble _)), !(proj1 (mix_k2_scramble _)), !word_dec by lia.
  replace (Z.to_nat (8 * (2 * Z.of_nat nb))) with (16 * nb)%nat by lia.
  replace (Z.to_nat (8 * (2 * Z.of_nat nb + 1))) with (16 * nb + 8)%nat by lia. rewrite <- drop_drop.
  rewrite (take_ge (drop 8 _) 8); [done|]. rewrite !length_drop. pose proof (Nat.div_mod_eq (length key) 16).
  pose proof (Nat.mod_upper_bound (length key) 16). unfold nb. lia.
Qed.

(** C26: For every key shorter than 2^31 bytes and every 32-bit seed the hash reads only
    bytes of the key and equals MurmurHash3 x64 128 of the key, written out
    independently of the code: constants, rotations, block, tail, avalanche and final
    mixing over 16-byte blocks. *)
Theorem murmurhash_is_murmur3 (seed : Z) (key : list Z) :
  is_u32 seed -> Forall is_u8 key -> zlen key < 2 ^ 31 -> murmurhash seed key (zlen key) = Ok (x64_128 seed key).
Proof.
  intros Hs Hk Hl. rewrite murmurhash_eq by done. f_equal. apply murmur3_reference; [|done].
  unfold is_u64, is_u32 in *. lia.
Qed.

Lemma murmurhash_is_murmur3_witness : murmurhash 7621 test_line 19 = Ok (x64_128 7621 test_line).
Proof.
  apply (murmurhash_is_murmur3 7621 test_line);
    [unfold is_u32; lia|repeat constructor; unfold is_u8; lia|reflexivity].
Defined.

(** The second word of the result is a 64-bit value. *)
Lemma murmur3_range seed key : is_u64 (murmur3 seed key).2.
Proof. unfold murmur3, finish. cbv zeta. destruct (foldl _ _ _) as [a b]. cbn [fst snd]. apply u64_range. Qed.
