(* ===== verification/Bloom.v ===== *)
(** The bloom filters of cpp/examples/bloom_filter.h and .cc, over the hash of
    Murmur.v.

    The constructors size the filter with [log] and [ceil] on doubles, which are
    parameters here, and draw distinct seeds from a random generator, a stream.
    A key is [None] for [nullptr] or its bytes.  What [Exists] answers is
    characterised exactly; in particular an inserted key is always found. *)

From S2P Require Import Prelude Bytes Murmur.

(** [std::set<uint32_t>] as an ordered list. *)
Fixpoint set_insert (x : Z) (l : list Z) : list Z :=
  match l with
  | [] => [x]
  | y :: r => if x <? y then x :: l else if x =? y then l else y :: set_insert x r
  end.

(** [while (seeds.size() != hash_function_number_) seeds.insert(dist(gen))] *)
Definition seed_step (rnd : nat -> Z) (k : Z) (st : nat * list Z) : outcome (nat * list Z + list Z) :=
  let '(i, seeds) := st in
  if zlen seeds =? k then Ok (inr seeds) else Ok (inl (S i, set_insert (rnd i) seeds)).

Definition gen_seeds (fuel : nat) (rnd : nat -> Z) (k : Z) : outcome (list Z) := while_fuel fuel (seed_step rnd k) (0%nat, []).

(** [murmurhash_res[1] % bucket_size_] *)
Definition index_of (bucket_size seed : Z) (key : list Z) (len : Z) : outcome Z :=
  h ← murmurhash seed key len;
  if bucket_size =? 0 then Fault DivByZero else Ok (h.2 mod bucket_size).

Section Sizing.
(** [ceil(abs(log(fpp) * element_size / pow(log(2), 2)))] and
    [ceil(abs(log2(fpp)))], converted to integers. *)
Context {D : Type} (bucket_bits : D -> Z -> Z) (hash_number : D -> Z).

(** * BloomFilter *)

Record BloomFilter := MkBloom { b_fpp : D; b_elements : Z; b_bucket_size : Z; b_seeds : list Z; b_buf : list bool }.

Definition new_bloom (fuel : nat) (rnd : nat -> Z) (fpp : D) (element_size : Z) : outcome BloomFilter :=
  let bucket_size := u64 (bucket_bits fpp element_size) in
  seeds ← gen_seeds fuel rnd (u32 (hash_number fpp));
  Ok (MkBloom fpp element_size bucket_size seeds (zreplicate bucket_size false)).

Fixpoint insert_all (bucket_size : Z) (seeds key : list Z) (len : Z) (buf : list bool) : outcome (list bool) :=
  match seeds with
  | [] => Ok buf
  | s :: seeds => i ← index_of bucket_size s key len; buf ← vset buf i true; insert_all bucket_size seeds key len buf
  end.

Definition Insert (key : option (list Z)) (len : Z) (f : BloomFilter) : outcome BloomFilter :=
  match key with
  | None => Ok f
  | Some key =>
      buf ← insert_all (b_bucket_size f) (b_seeds f) key len (b_buf f);
      Ok (MkBloom (b_fpp f) (b_elements f) (b_bucket_size f) (b_seeds f) buf)
  end.

Fixpoint exists_all (bucket_size : Z) (seeds key : list Z) (len : Z) (buf : list bool) : outcome bool :=
  match seeds with
  | [] => Ok true
  | s :: seeds =>
      i ← index_of bucket_size s key len;
      b ← vget buf i;
      if (b : bool) then exists_all bucket_size seeds key len buf else Ok false
  end.

Definition Exists (key : option (list Z)) (len : Z) (f : BloomFilter) : outcome bool :=
  match key with None => Ok false | Some key => exists_all (b_bucket_size f) (b_seeds f) key len (b_buf f) end.

Definition InsertedLookup (key : option (list Z)) (len : Z) (f : BloomFilter) : outcome (bool * BloomFilter) :=
  f ← Insert key len f; b ← Exists key len f; Ok (b, f).

(** * CountingBloomFilter<T>, [tmax] the largest value of [T] *)

Record CountingBloomFilter := MkCounting { c_fpp : D; c_elements : Z; c_bucket_size : Z; c_seeds : list Z; c_buf : list Z }.

Definition new_counting (fuel : nat) (rnd : nat -> Z) (fpp : D) (element_size : Z) : outcome CountingBloomFilter :=
  let bucket_size := u64 (bucket_bits fpp element_size) in
  seeds ← gen_seeds fuel rnd (u32 (hash_number fpp));
  Ok (MkCounting fpp element_size bucket_size seeds (zreplicate bucket_size 0)).

Fixpoint count_all (tmax bucket_size : Z) (seeds key : list Z) (len : Z) (buf : list Z) : outcome (list Z) :=
  match seeds with
  | [] => Ok buf
  | s :: seeds =>
      i ← index_of bucket_size s key len;
      x ← vget buf i;
      buf ← (if x =? tmax then Ok buf else vset buf i (x + 1));
      count_all tmax bucket_size seeds key len buf
  end.

Definition CInsert (tmax : Z) (key : option (list Z)) (len : Z) (f : CountingBloomFilter) : outcome CountingBloomFilter :=
  match key with
  | None => Ok f
  | Some key =>
      buf ← count_all tmax (c_bucket_size f) (c_seeds f) key len (c_buf f);
      Ok (MkCounting (c_fpp f) (c_elements f) (c_bucket_size f) (c_seeds f) buf)
  end.

Fixpoint reaches_all (bucket_size : Z) (seeds key : list Z) (len max_count : Z) (buf : list Z) : outcome bool :=
  match seeds with
  | [] => Ok true
  | s :: seeds =>
      i ← index_of bucket_size s key len;
      x ← vget buf i;
      if x <? max_count then Ok false else reaches_all bucket_size seeds key len max_count buf
  end.

Definition CExists (key : option (list Z)) (len max_count : Z) (f : CountingBloomFilter) : outcome bool :=
  if max_count =? 0 then Ok true
  else match key with None => Ok false | Some key => reaches_all (c_bucket_size f) (c_seeds f) key len max_count (c_buf f) end.

Definition CInsertedLookup (tmax : Z) (key : option (list Z)) (len max_count : Z) (f : CountingBloomFilter)
  : outcome (bool * CountingBloomFilter) :=
  f ← CInsert tmax key len f; b ← CExists key len max_count f; Ok (b, f).

(** * The seeds *)

Fixpoint increasing (l : list Z) : Prop :=
  match l with [] => True | x :: r => Forall (fun y => x < y) r /\ increasing r end.

Lemma set_insert_elem x l y : y ∈ set_insert x l <-> y = x \/ y ∈ l.
Proof.
  induction l as [|z r IH]; cbn [set_insert]; [by rewrite list_elem_of_singleton, elem_of_nil; tauto|].
  repeat zcase; subst; rewrite ?elem_of_cons, ?IH, ?elem_of_cons; tauto.
Qed.

Lemma set_insert_length x l :
  length (set_insert x l) = length l \/ length (set_insert x l) = S (length l).
Proof. induction l as [|z r IH]; cbn [set_insert length]; [by right|]. repeat zcase; cbn [length]; lia. Qed.

Lemma set_insert_increasing x l : increasing l -> increasing (set_insert x l).
Proof.
  induction l as [|z r IH]; cbn [set_insert increasing]; [by repeat constructor|]. intros [Hz Hr]. repeat zcase; cbn [increasing]; [|by split|].
  - split; [|by split]. constructor; [done|]. eapply list.Forall_impl; [exact Hz|]. cbn. intros. lia.
  - split; [|by apply IH]. apply list.Forall_forall. intros y [->|Hy]%set_insert_elem; [lia|]. rewrite list.Forall_forall in Hz. by apply Hz.
Qed.

Lemma gen_seeds_ok fuel rnd k seeds :
  gen_seeds fuel rnd k = Ok seeds -> zlen seeds = k /\ increasing seeds /\ forall s, s ∈ seeds -> exists i, s = rnd i.
Proof.
  unfold gen_seeds. intros H.
  enough (G : forall fuel i l, increasing l -> (forall s, s ∈ l -> exists i, s = rnd i) -> while_fuel fuel (seed_step rnd k) (i, l) = Ok seeds ->
    zlen seeds = k /\ increasing seeds /\ forall s, s ∈ seeds -> exists i, s = rnd i).
  { apply (G fuel 0%nat []); [done| |done]. intros s Hs. by apply elem_of_nil in Hs. }
  clear fuel H. induction fuel as [|fuel IH]; intros i l Hi Hr; [done|]. cbn [while_fuel seed_step]. destruct (Z.eqb_spec (zlen l) k).
  - cbn [mbind outcome_bind]. intros [= <-]. done.
  - cbn [mbind outcome_bind]. apply IH; [by apply set_insert_increasing|]. intros s [->|Hs]%set_insert_elem; eauto.
Qed.

Lemma increasing_NoDup l : increasing l -> NoDup l.
Proof.
  induction l as [|x r IH]; [constructor|]. intros [Hx Hr]. constructor; [|by apply IH].
  intros Hin. rewrite list.Forall_forall in Hx. specialize (Hx x Hin). lia.
Qed.

(** The first [n] draws hold [k] distinct seeds. *)
Definition enough_draws (rnd : nat -> Z) (n : nat) (k : Z) : Prop :=
  exists l, NoDup l /\ zlen l = k /\ forall s, s ∈ l -> exists i, (i < n)%nat /\ s = rnd i.

Lemma gen_seeds_total fuel rnd n k :
  enough_draws rnd n k -> (n < fuel)%nat -> exists seeds, gen_seeds fuel rnd k = Ok seeds.
Proof.
  intros (w & Hnd & Hlen & Hw) Hf. unfold gen_seeds.
  enough (G : forall d i l fuel, (i + d = n)%nat -> (d < fuel)%nat -> zlen l <= k -> increasing l -> (forall j, (j < i)%nat -> rnd j ∈ l) ->
    exists seeds, while_fuel fuel (seed_step rnd k) (i, l) = Ok seeds).
  { apply (G n 0%nat []); try lia; [rewrite <- Hlen; apply zlen_nonneg|done]. }
  induction d as [|d IH]; intros i l fu Hi Hfu Hl Hinc Hel; (destruct fu as [|fu]; [lia|]); cbn [while_fuel seed_step]; destruct (Z.eqb_spec (zlen l) k) as [E|E];
    try (eexists; reflexivity).
  - exfalso. assert (Hsub : w ⊆+ l).
    { apply NoDup_submseteq; [done|]. intros s (j & Hj & ->)%Hw. apply Hel. lia. }
    apply submseteq_length in Hsub. unfold zlen in *. lia.
  - cbn [mbind outcome_bind]. apply IH; [lia|lia| |by apply set_insert_increasing|].
    + unfold zlen in *. destruct (set_insert_length (rnd i) l) as [->| ->]; lia.
    + intros j Hj. apply set_insert_elem. destruct (decide (j = i)) as [->|]; [by left|]. right. apply Hel. lia.
Qed.

(** * Positions *)

Definition pos (m seed : Z) (key : list Z) : Z := (murmur3 seed key).2 mod m.

Definition key_ok (key : list Z) : Prop := Forall is_u8 key /\ zlen key < 2 ^ 31.

Lemma index_of_ok m s key : 0 < m -> key_ok key -> index_of m s key (zlen key) = Ok (pos m s key) /\ 0 <= pos m s key < m.
Proof.
  intros Hm [Hk Hl]. split; [|unfold pos; exact (Z.mod_pos_bound _ _ Hm)]. unfold index_of. rewrite (murmurhash_eq s key Hk Hl).
  cbn [mbind outcome_bind]. rewrite (proj2 (Z.eqb_neq m 0)) by (intros ->; inversion Hm). unfold pos. reflexivity.
Qed.

#[local] Opaque pos index_of murmurhash murmur3.

(** The table as a function of the position. *)
Definition table {A} (m : Z) (F : Z -> A) (buf : list A) : Prop := zlen buf = m /\ forall i, 0 <= i < m -> zget buf i = Some (F i).

Lemma table_set {A} m (F : Z -> A) buf i x :
  table m F buf -> 0 <= i < m -> vset buf i x = Ok (zset buf i x) /\ table m (fun j => if j =? i then x else F j) (zset buf i x).
Proof.
  intros [Hl HF] Hi. split.
  - unfold vset. by replace (_ && _) with true by lia.
  - split; [by rewrite zlen_zset|]. intros j Hj. destruct (Z.eqb_spec j i) as [->|]; [apply zget_zset_eq; lia|]. rewrite zget_zset_ne by done. by apply HF.
Qed.

Lemma table_ext {A} m (F G : Z -> A) buf : (forall i, 0 <= i < m -> F i = G i) -> table m F buf -> table m G buf.
Proof. intros E [Hl HF]. split; [done|]. intros i Hi. by rewrite <- E, HF. Qed.

Lemma table_zero {A} m (x : A) : 0 <= m -> table m (fun _ => x) (zreplicate m x).
Proof. intros Hm. split; [rewrite zlen_replicate; lia|]. intros i Hi. by apply zget_replicate. Qed.

(** [i] is one of the positions of the key. *)
Definition hit (m : Z) (seeds key : list Z) (i : Z) : bool := existsb (fun s => pos m s key =? i) seeds.

Lemma hit_cons m s seeds key (F : Z -> bool) i :
  ((if i =? pos m s key then true else F i) || hit m seeds key i) = F i || hit m (s :: seeds) key i.
Proof.
  cbn [hit existsb]. destruct (Z.eqb_spec i (pos m s key)) as [->|Hne]; [rewrite Z.eqb_refl; by destruct (F _)|].
  destruct (Z.eqb_spec (pos m s key) i); [congruence|]. reflexivity.
Qed.

(** Unfolding a step, with the index already computed: the proofs below never
    look into the hash. *)
Lemma insert_all_cons m s seeds key len buf i :
  index_of m s key len = Ok i -> insert_all m (s :: seeds) key len buf = (buf ← vset buf i true; insert_all m seeds key len buf).
Proof. intros E. cbn [insert_all]. rewrite E. reflexivity. Qed.

Lemma insert_all_ok m seeds key F buf :
  0 < m -> key_ok key -> table m F buf ->
  exists buf', insert_all m seeds key (zlen key) buf = Ok buf' /\ table m (fun i => F i || hit m seeds key i) buf'.
Proof.
  intros Hm Hk. revert F buf. induction seeds as [|s seeds IH]; intros F buf HT.
  { exists buf. split; [reflexivity|]. eapply table_ext; [|exact HT]. intros i _. symmetry. apply orb_false_r. }
  destruct (index_of_ok m s key Hm Hk) as [E Hp]. rewrite (insert_all_cons _ _ _ _ _ _ _ E).
  destruct (table_set m F buf _ true HT Hp) as [E' HT']. rewrite E'. cbn [mbind outcome_bind].
  destruct (IH _ _ HT') as (buf' & E'' & HT''). exists buf'. split; [exact E''|]. eapply table_ext; [|exact HT'']. intros i _. apply hit_cons.
Qed.

Lemma exists_all_cons m s seeds key len buf i :
  index_of m s key len = Ok i ->
  exists_all m (s :: seeds) key len buf = (b ← vget buf i; if (b : bool) then exists_all m seeds key len buf else Ok false).
Proof. intros E. cbn [exists_all]. rewrite E. reflexivity. Qed.

Lemma count_all_cons tmax m s seeds key len buf i :
  index_of m s key len = Ok i ->
  count_all tmax m (s :: seeds) key len buf =
    (x ← vget buf i; buf ← (if x =? tmax then Ok buf else vset buf i (x + 1)); count_all tmax m seeds key len buf).
Proof. intros E. cbn [count_all]. rewrite E. reflexivity. Qed.

Lemma reaches_all_cons m s seeds key len mc buf i :
  index_of m s key len = Ok i ->
  reaches_all m (s :: seeds) key len mc buf = (x ← vget buf i; if x <? mc then Ok false else reaches_all m seeds key len mc buf).
Proof. intros E. cbn [reaches_all]. rewrite E. reflexivity. Qed.

Lemma exists_all_ok m seeds key F buf :
  0 < m -> key_ok key -> table m F buf -> exists_all m seeds key (zlen key) buf = Ok (forallb (fun s => F (pos m s key)) seeds).
Proof.
  intros Hm Hk [Hl HF]. induction seeds as [|s seeds IH]; [reflexivity|].
  destruct (index_of_ok m s key Hm Hk) as [E Hp]. rewrite (exists_all_cons _ _ _ _ _ _ _ E). cbn [forallb]. rewrite (vget_some _ _ _ (HF _ Hp)). cbn [mbind outcome_bind].
  by destruct (F _).
Qed.

Fixpoint insert_keys (keys : list (list Z)) (f : BloomFilter) : outcome BloomFilter :=
  match keys with [] => Ok f | k :: keys => f ← Insert (Some k) (zlen k) f; insert_keys keys f end.

Lemma insert_keys_ok keys f F :
  0 < b_bucket_size f -> Forall key_ok keys -> table (b_bucket_size f) F (b_buf f) ->
  exists f', insert_keys keys f = Ok f' /\ b_bucket_size f' = b_bucket_size f /\ b_seeds f' = b_seeds f /\
    table (b_bucket_size f) (fun i => F i || existsb (fun k => hit (b_bucket_size f) (b_seeds f) k i) keys) (b_buf f').
Proof.
  intros Hm Hk. revert f F Hm. induction Hk as [|k keys Hk _ IH]; intros f F Hm HT; cbn [insert_keys existsb].
  { exists f. split; [done|]. split; [done|]. split; [done|]. eapply table_ext; [|exact HT]. intros i _. by rewrite orb_false_r. }
  cbn [Insert]. destruct (insert_all_ok _ (b_seeds f) k F (b_buf f) Hm Hk HT) as (buf' & -> & HT'). cbn [mbind outcome_bind].
  
  destruct (IH (MkBloom (b_fpp f) (b_elements f) (b_bucket_size f) (b_seeds f) buf') _ Hm HT') as (f' & E & Em & Es & HT''). cbn [b_bucket_size b_seeds] in *. exists f'. split; [done|]. split; [done|]. split; [done|].
  eapply table_ext; [|exact HT'']. intros i _. cbn. by rewrite orb_assoc.
Qed.

(** ** Counting *)

Definition hits (m : Z) (seeds key : list Z) (i : Z) : Z := zlen (filter (fun s => pos m s key = i) seeds).

Lemma hits_cons m s seeds key i : hits m (s :: seeds) key i = (if pos m s key =? i then 1 else 0) + hits m seeds key i.
Proof. unfold hits. rewrite filter_cons. destruct (Z.eqb_spec (pos m s key) i); case_decide; try done. rewrite zlen_cons. lia. Qed.

Lemma hits_nonneg m seeds key i : 0 <= hits m seeds key i.
Proof. apply zlen_nonneg. Qed.

Lemma count_all_ok tmax m seeds key F buf :
  0 < m -> 0 <= tmax -> key_ok key -> table m F buf -> (forall i, F i <= tmax) ->
  exists buf', count_all tmax m seeds key (zlen key) buf = Ok buf' /\ table m (fun i => Z.min tmax (F i + hits m seeds key i)) buf'.
Proof.
  intros Hm Ht Hk. revert F buf. induction seeds as [|s seeds IH]; intros F buf HT HF.
  { exists buf. split; [done|]. eapply table_ext; [|exact HT]. intros i _. cbn. specialize (HF i). unfold hits. cbn. unfold zlen. cbn. lia. }
  destruct (index_of_ok m s key Hm Hk) as [Ei Hp]. rewrite (count_all_cons _ _ _ _ _ _ _ _ Ei), (vget_some _ _ _ (proj2 HT _ Hp)). cbn [mbind outcome_bind].
  pose proof (HF (pos m s key)). destruct (Z.eqb_spec (F (pos m s key)) tmax) as [Heq|Hne].
  - cbn [mbind outcome_bind]. destruct (IH F buf HT HF) as (buf' & E & HT'). exists buf'. split; [done|]. eapply table_ext; [|exact HT'].
    intros i _. cbn. rewrite hits_cons. pose proof (hits_nonneg m seeds key i). destruct (Z.eqb_spec (pos m s key) i) as [<-|]; lia.
  - destruct (table_set m F buf _ (F (pos m s key) + 1) HT Hp) as [-> HT1]. cbn [mbind outcome_bind].
    destruct (IH _ _ HT1) as (buf' & E & HT').
    { intros i. destruct (Z.eqb_spec i (pos m s key)); [lia|apply HF]. }
    exists buf'. split; [done|]. eapply table_ext; [|exact HT']. intros i _. cbn. rewrite hits_cons.
    destruct (Z.eqb_spec i (pos m s key)) as [->|Hi]; [rewrite Z.eqb_refl; lia|]. destruct (Z.eqb_spec (pos m s key) i); [congruence|]. done.
Qed.

Lemma reaches_all_ok m seeds key mc F buf :
  0 < m -> key_ok key -> table m F buf -> reaches_all m seeds key (zlen key) mc buf = Ok (forallb (fun s => mc <=? F (pos m s key)) seeds).
Proof.
  intros Hm Hk [Hl HF]. induction seeds as [|s seeds IH]; [reflexivity|].
  destruct (index_of_ok m s key Hm Hk) as [E Hp]. rewrite (reaches_all_cons _ _ _ _ _ _ _ _ E). cbn [forallb]. rewrite (vget_some _ _ _ (HF _ Hp)). cbn [mbind outcome_bind].
  destruct (Z.ltb_spec (F (pos m s key)) mc), (Z.leb_spec mc (F (pos m s key))); try lia; done.
Qed.

Fixpoint count_keys (tmax : Z) (keys : list (list Z)) (f : CountingBloomFilter) : outcome CountingBloomFilter :=
  match keys with [] => Ok f | k :: keys => f ← CInsert tmax (Some k) (zlen k) f; count_keys tmax keys f end.

(** How often a position was hit. *)
Definition total (m : Z) (seeds : list Z) (keys : list (list Z)) (i : Z) : Z := foldr (fun k n => hits m seeds k i + n) 0 keys.

Lemma total_cons m seeds k keys i : total m seeds (k :: keys) i = hits m seeds k i + total m seeds keys i.
Proof. reflexivity. Qed.

Lemma total_nonneg m seeds keys i : 0 <= total m seeds keys i.
Proof. induction keys as [|k keys IH]; [done|]. rewrite total_cons. pose proof (hits_nonneg m seeds k i). lia. Qed.

Lemma count_keys_ok tmax keys f F :
  0 < c_bucket_size f -> 0 <= tmax -> Forall key_ok keys -> table (c_bucket_size f) F (c_buf f) -> (forall i, F i <= tmax) ->
  exists f', count_keys tmax keys f = Ok f' /\ c_bucket_size f' = c_bucket_size f /\ c_seeds f' = c_seeds f /\
    table (c_bucket_size f) (fun i => Z.min tmax (F i + total (c_bucket_size f) (c_seeds f) keys i)) (c_buf f').
Proof.
  intros Hm Ht Hk. revert f F Hm. induction Hk as [|k keys Hk _ IH]; intros f F Hm HT HF; cbn [count_keys].
  { exists f. split; [done|]. split; [done|]. split; [done|]. eapply table_ext; [|exact HT]. intros i _. cbn. specialize (HF i). lia. }
  cbn [CInsert]. destruct (count_all_ok tmax _ (c_seeds f) k F (c_buf f) Hm Ht Hk HT HF) as (buf' & -> & HT'). cbn [mbind outcome_bind].
  
  destruct (IH (MkCounting (c_fpp f) (c_elements f) (c_bucket_size f) (c_seeds f) buf') _ Hm HT') as (f' & E & Em & Es & HT''); [intros i; cbn; lia|]. cbn [c_bucket_size c_seeds] in *. exists f'. split; [done|]. split; [done|]. split; [done|].
  eapply table_ext; [|exact HT'']. intros i _. cbv beta. rewrite total_cons. pose proof (total_nonneg (c_bucket_size f) (c_seeds f) keys i). lia.
Qed.

(** * The filters *)

(** C27: When the random generator yields enough distinct values the constructor returns
    a filter with distinct seeds; after inserting keys, Exists answers true exactly when
    every position of the key was hit by an inserted key, in particular for every
    inserted key, and InsertedLookup always answers true. *)
Theorem bloom_filter_spec fuel n rnd fpp elements (keys : list (list Z)) (key : list Z) :
  enough_draws rnd n (u32 (hash_number fpp)) -> (n < fuel)%nat -> 0 < u64 (bucket_bits fpp elements) -> Forall key_ok keys -> key_ok key ->
  exists f f', new_bloom fuel rnd fpp elements = Ok f /\ insert_keys keys f = Ok f' /\
    zlen (b_seeds f) = u32 (hash_number fpp) /\ NoDup (b_seeds f) /\
    Exists (Some key) (zlen key) f' =
      Ok (forallb (fun s => existsb (fun k => hit (b_bucket_size f) (b_seeds f) k (pos (b_bucket_size f) s key)) keys) (b_seeds f)) /\
    (key ∈ keys -> Exists (Some key) (zlen key) f' = Ok true) /\
    (exists f'', InsertedLookup (Some key) (zlen key) f' = Ok (true, f'')).
Proof.
  intros Hd Hf Hm Hks Hk. destruct (gen_seeds_total fuel rnd n _ Hd Hf) as [seeds Eg]. destruct (gen_seeds_ok _ _ _ _ Eg) as (Hlen & Hinc & _).
  unfold new_bloom. rewrite Eg. cbn [mbind outcome_bind]. set (m := u64 (bucket_bits fpp elements)) in *.
  destruct (insert_keys_ok keys (MkBloom fpp elements m seeds (zreplicate m false)) (fun _ => false)) as (f' & E & Em & Es & HT); [done|done|apply table_zero; lia|].
  cbn [b_bucket_size b_seeds orb] in *. eexists _, f'. split; [reflexivity|]. split; [exact E|]. cbn [b_seeds b_bucket_size].
  split; [exact Hlen|]. split; [by apply increasing_NoDup|].
  assert (EX : Exists (Some key) (zlen key) f' = Ok (forallb (fun s => existsb (fun k => hit m seeds k (pos m s key)) keys) seeds)).
  { cbn [Exists]. rewrite Em, Es. by apply (exists_all_ok m seeds key (fun i => existsb (fun k => hit m seeds k i) keys)). }
  assert (Hself : forall s, In s seeds -> hit m seeds key (pos m s key) = true).
  { intros s Hs. unfold hit. apply existsb_exists. exists s. split; [done|]. by apply Z.eqb_eq. }
  split; [done|]. split.
  - intros Hin. rewrite EX. f_equal. apply forallb_forall. intros s Hs. apply existsb_exists. exists key. split; [by apply list_elem_of_In|]. by apply Hself.
  - unfold InsertedLookup. cbn [Insert]. rewrite Em, Es. destruct (insert_all_ok m seeds key _ (b_buf f') Hm Hk HT) as (buf' & -> & HT'). cbn [mbind outcome_bind Exists b_bucket_size b_seeds b_buf].
    rewrite (exists_all_ok m seeds key _ buf' Hm Hk HT'). cbn [mbind outcome_bind]. eexists. do 2 f_equal. f_equal. apply forallb_forall. intros s Hs.
    cbn. rewrite (Hself s Hs). apply orb_true_r.
Qed.

(** The counting filter counts the hits of each position and stops at the largest
    value of its type: Exists with max_count answers whether every position of the key
    reached max_count, so a key inserted that often is found as long as max_count fits
    the type. *)
Theorem counting_bloom_spec fuel n rnd fpp elements tmax (keys : list (list Z)) (key : list Z) (mc : Z) :
  enough_draws rnd n (u32 (hash_number fpp)) -> (n < fuel)%nat -> 0 < u64 (bucket_bits fpp elements) ->
  0 <= tmax -> 0 < mc -> Forall key_ok keys -> key_ok key ->
  exists f f', new_counting fuel rnd fpp elements = Ok f /\ count_keys tmax keys f = Ok f' /\
    CExists (Some key) (zlen key) mc f' =
      Ok (forallb (fun s => mc <=? Z.min tmax (total (c_bucket_size f) (c_seeds f) keys (pos (c_bucket_size f) s key))) (c_seeds f)) /\
    (mc <= tmax -> mc <= zlen (filter (fun k => k = key) keys) -> CExists (Some key) (zlen key) mc f' = Ok true).
Proof.
  intros Hd Hf Hm Ht Hmc Hks Hk. destruct (gen_seeds_total fuel rnd n _ Hd Hf) as [seeds Eg].
  unfold new_counting. rewrite Eg. cbn [mbind outcome_bind]. set (m := u64 (bucket_bits fpp elements)) in *.
  destruct (count_keys_ok tmax keys (MkCounting fpp elements m seeds (zreplicate m 0)) (fun _ => 0)) as (f' & E & Em & Es & HT); [done|done|done|apply table_zero; lia|done|].
  cbn [c_bucket_size c_seeds] in *. eexists _, f'. split; [reflexivity|]. split; [exact E|]. cbn [c_seeds c_bucket_size].
  assert (EX : CExists (Some key) (zlen key) mc f' = Ok (forallb (fun s => mc <=? Z.min tmax (total m seeds keys (pos m s key))) seeds)).
  { unfold CExists. destruct (Z.eqb_spec mc 0); [lia|]. rewrite Em, Es. by apply (reaches_all_ok m seeds key mc (fun i => Z.min tmax (0 + total m seeds keys i))). }
  split; [done|]. intros H1 H2. rewrite EX. f_equal. apply forallb_forall. intros s Hs. apply Z.leb_le.
  enough (zlen (filter (fun k => k = key) keys) <= total m seeds keys (pos m s key)) by lia.
  clear -Hs. induction keys as [|k keys IH]; [done|]. rewrite filter_cons, total_cons.
  pose proof (hits_nonneg m seeds k (pos m s key)). case_decide; [|lia]. subst k. rewrite zlen_cons.
  enough (1 <= hits m seeds key (pos m s key)) by lia. unfold hits. assert (Hin : s ∈ filter (fun s0 => pos m s0 key = pos m s key) seeds).
  { apply list_elem_of_filter. split; [done|]. by apply list_elem_of_In. }
  destruct (filter (fun s0 => pos m s0 key = pos m s key) seeds) as [|z l]; [by apply elem_of_nil in Hin|]. rewrite zlen_cons. pose proof (zlen_nonneg l). lia.
Qed.

End Sizing.

(** The draws 0, 1, 2, ... *)
Lemma draws_01 : enough_draws (fun i => Z.of_nat i) 2 2.
Proof.
  exists [0; 1]. split; [apply (bool_decide_unpack _); vm_compute; exact I|]. split; [reflexivity|].
  intros s Hs. apply elem_of_cons in Hs as [->|Hs]; [exists 0%nat; lia|]. apply list_elem_of_singleton in Hs as ->. exists 1%nat. lia.
Qed.

(** A filter of 64 bits and two hash functions. *)
Lemma bloom_filter_spec_witness :
  exists f f', new_bloom (fun _ : unit => fun _ => 64) (fun _ => 2) 3 (fun i => Z.of_nat i) tt 10 = Ok f /\
    insert_keys [[1; 2]; [3]] f = Ok f' /\ Exists (Some [3]) 1 f' = Ok true.
Proof.
  destruct (bloom_filter_spec (fun _ : unit => fun _ => 64) (fun _ => 2) 3 2 (fun i => Z.of_nat i) tt 10 [[1; 2]; [3]] [3])
    as (f & f' & E & E' & _ & _ & _ & H & _).
  - exact draws_01.
  - lia.
  - reflexivity.
  - repeat constructor; unfold is_u8, zlen; cbn; lia.
  - repeat constructor; unfold is_u8, zlen; cbn; lia.
  - exists f, f'. split; [exact E|]. split; [exact E'|]. apply H. right. left.
Defined.

(** A byte counter: a key inserted twice reaches the count 2. *)
Lemma counting_bloom_spec_witness :
  exists f f', new_counting (fun _ : unit => fun _ => 64) (fun _ => 2) 3 (fun i => Z.of_nat i) tt 10 = Ok f /\
    count_keys 255 [[3]; [1]; [3]] f = Ok f' /\ CExists (Some [3]) 1 2 f' = Ok true.
Proof.
  destruct (counting_bloom_spec (fun _ : unit => fun _ => 64) (fun _ => 2) 3 2 (fun i => Z.of_nat i) tt 10 255 [[3]; [1]; [3]] [3] 2)
    as (f & f' & E & E' & _ & H).
  - exact draws_01.
  - lia.
  - reflexivity.
  - lia.
  - lia.
  - repeat constructor; unfold is_u8, zlen; cbn; lia.
  - repeat constructor; unfold is_u8, zlen; cbn; lia.
  - exists f, f'. split; [exact E|]. split; [exact E'|]. apply H; [lia|]. vm_compute. discriminate.
Defined.
