(* ===== verification/SpinLock.v ===== *)
(** The spin lock of cpp/examples/spin_lock.h, which guards the buddy allocators.

    Threads call [lock], stay in their critical section and call [unlock], again
    and again.  The compare-and-exchange and the store are single steps, in a
    sequentially consistent order. *)

From S2P Require Import Prelude.

(** A thread: outside, before the [compare_exchange_strong] with the value of
    [expected], before [expected = false], in its critical section. *)
Inductive pc := Outside | Exchange (expected : bool) | Failed (expected : bool) | Inside.

#[export] Instance pc_eq_dec : EqDecision pc.
Proof. solve_decision. Defined.

Record spin := MkSpin { lock_ : bool; pcs : list pc }.

Definition new_spin (threads : nat) : spin := MkSpin false (replicate threads Outside).

(** [lock_.compare_exchange_strong(expected, true)]: success, [lock_], [expected]. *)
Definition compare_exchange_strong (lk expected : bool) : bool * bool * bool :=
  if Bool.eqb lk expected then (true, true, expected) else (false, lk, lk).

(** The next step of thread [i]. *)
Definition spin_step (i : nat) (s : spin) : option spin :=
  match pcs s !! i with
  | Some Outside => Some (MkSpin (lock_ s) (<[i := Exchange false]> (pcs s)))
  | Some (Exchange expected) =>
      let '(ok, lk, expected) := compare_exchange_strong (lock_ s) expected in
      Some (MkSpin lk (<[i := if ok then Inside else Failed expected]> (pcs s)))
  | Some (Failed _) => Some (MkSpin (lock_ s) (<[i := Exchange false]> (pcs s)))
  | Some Inside => Some (MkSpin false (<[i := Outside]> (pcs s)))
  | None => None
  end.

Fixpoint spin_run (sched : list nat) (s : spin) : option spin :=
  match sched with [] => Some s | i :: sched => match spin_step i s with Some s' => spin_run sched s' | None => None end end.

Definition inside (w : pc) : nat := match w with Inside => 1 | _ => 0 end.

(** The flag says whether a thread is inside, and [expected] is false at every
    exchange. *)
Definition spin_inv (s : spin) : Prop :=
  sum_list_with inside (pcs s) = (if lock_ s then 1 else 0)%nat /\ Exchange true ∉ pcs s.

Lemma spin_inv_new n : spin_inv (new_spin n).
Proof.
  split; cbn.
  - induction n; cbn in *; lia.
  - intros [k Hk]%list_elem_of_lookup. by apply lookup_replicate in Hk as [? _].
Qed.

Lemma spin_inv_step i s s' : spin_inv s -> spin_step i s = Some s' -> spin_inv s'.
Proof.
  intros [Hn He] Hs. unfold spin_step in Hs. destruct (pcs s !! i) as [w|] eqn:Ei; [|done].
  pose proof (fun x => sum_insert inside i x _ _ Ei) as Hsum. unfold spin_inv.
  assert (Hex : forall x, x <> Exchange true -> Exchange true ∉ <[i := x]> (pcs s)) by (intros x Hx [?|?]%insert_elem; congruence).
  destruct w as [|e|e|]; simplify_eq.
  - cbn. specialize (Hsum (Exchange false)). cbn in Hsum. split; [lia|by apply Hex].
  - destruct e; [by destruct He; eapply list_elem_of_lookup_2|]. unfold compare_exchange_strong in Hs. destruct (lock_ s) eqn:El; cbn in Hs; simplify_eq; cbn.
    + specialize (Hsum (Failed true)). cbn in Hsum. split; [lia|by apply Hex].
    + specialize (Hsum Inside). cbn in Hsum. split; [lia|by apply Hex].
  - cbn. specialize (Hsum (Exchange false)). cbn in Hsum. split; [lia|by apply Hex].
  - cbn. specialize (Hsum Outside). cbn in Hsum. split; [destruct (lock_ s); lia|by apply Hex].
Qed.

Lemma spin_inv_run sched s s' : spin_inv s -> spin_run sched s = Some s' -> spin_inv s'.
Proof.
  revert s. induction sched as [|i sched IH]; intros s H E; cbn in E; [by injection E as <-|].
  destruct (spin_step i s) as [s1|] eqn:E1; [|done]. eapply IH; [|exact E]. by eapply spin_inv_step.
Qed.

Lemma two_inside (l : list pc) i j : l !! i = Some Inside -> l !! j = Some Inside -> i <> j -> (2 <= sum_list_with inside l)%nat.
Proof.
  intros Hi Hj Hne. pose proof (sum_insert inside i Outside _ _ Hi) as E1.
  assert (Hj' : <[i := Outside]> l !! j = Some Inside) by (by rewrite list_lookup_insert_ne).
  pose proof (sum_insert inside j Outside _ _ Hj') as E2. cbn in *. lia.
Qed.

(** in every interleaving of threads that lock and unlock a SpinLock at most one
    thread is in its critical section, the flag is set exactly when one is, and a thread
    that spins while the flag is clear enters with its next exchange. *)
Theorem spin_lock_exclusive n sched s :
  spin_run sched (new_spin n) = Some s ->
  (forall i j, pcs s !! i = Some Inside -> pcs s !! j = Some Inside -> i = j) /\
  (lock_ s = true <-> exists i, pcs s !! i = Some Inside) /\
  (forall i e, lock_ s = false -> pcs s !! i = Some (Exchange e) -> exists s', spin_step i s = Some s' /\ pcs s' !! i = Some Inside) /\
  (forall i e, lock_ s = false -> pcs s !! i = Some (Failed e) -> exists s', spin_run [i; i] s = Some s' /\ pcs s' !! i = Some Inside).
Proof.
  intros Hr. destruct (spin_inv_run _ _ _ (spin_inv_new n) Hr) as [Hn He].
  assert (Hacq : forall i e lk, pcs s !! i = Some e -> spin_step i (MkSpin false (<[i := Exchange false]> lk)) =
    if decide (i < length lk)%nat then Some (MkSpin true (<[i := Inside]> (<[i := Exchange false]> lk))) else None).
  { intros i e lk _. unfold spin_step. cbn. case_decide as Hlt; [by rewrite list_lookup_insert_eq|].
    rewrite list_insert_ge by lia. rewrite lookup_ge_None_2 by lia. done. }
  split; [|split; [|split]].
  - intros i j Hi Hj. destruct (decide (i = j)) as [|Hne]; [done|]. pose proof (two_inside _ _ _ Hi Hj Hne). destruct (lock_ s); lia.
  - split.
    + intros El. rewrite El in Hn. destruct (decide (Inside ∈ pcs s)) as [[i Hi]%list_elem_of_lookup|Hno]; [eauto|]. exfalso.
      assert (sum_list_with inside (pcs s) = 0)%nat; [|lia]. clear -Hno. induction (pcs s) as [|w l IH]; [done|].
      apply not_elem_of_cons in Hno as [Hw Hl]. cbn. rewrite IH by done. by destruct w.
    + intros [i Hi]. pose proof (sum_insert inside i Outside _ _ Hi). cbn in *. destruct (lock_ s); [done|lia].
  - intros i e El Hi. destruct e; [by destruct He; eapply list_elem_of_lookup_2|]. eexists. split; [unfold spin_step; by rewrite Hi, El|].
    cbn. apply list_lookup_insert_eq. by eapply lookup_lt_Some.
  - intros i e El Hi. cbn [spin_run]. unfold spin_step at 1. rewrite Hi, El. rewrite (Hacq i _ _ Hi). apply lookup_lt_Some in Hi as Hlt.
    rewrite decide_True by done. eexists. split; [done|]. cbn. rewrite list_lookup_insert_eq; [done|]. by rewrite length_insert.
Qed.

(** Thread 0 is inside, thread 1 has failed once. *)
Lemma spin_lock_exclusive_witness : exists i, [Inside; Failed true] !! i = Some Inside.
Proof.
  destruct (spin_lock_exclusive 2 [0; 1; 0; 1]%nat (MkSpin true [Inside; Failed true]) eq_refl) as (_ & [Hf _] & _).
  by apply Hf.
Defined.
