(* ===== verification/ThreadPool.v ===== *)
(** The thread pool of cpp/examples/thread_pool.h and .cc (reactor/thread_pool.cc
    is the same code), as an interleaving of its threads.

    A critical section under [queue_mutex_] is one step, because the shared
    members are only touched inside them and no section takes a second lock.
    [condition_.wait] leaves the mutex in the same step in which the predicate
    is found false; a waiting thread goes on when it is notified, or without
    reason (a spurious wake-up).  The calls of [Run] made by the program are a
    list of callers that run concurrently; the destructor starts when they have
    returned, as the lifetime of an object demands.

    The theorems hold for every interleaving: tasks start in the order of their
    submission, each runs once, no wake-up is lost, and every execution ends with
    all tasks done, all workers joined and the pool destroyed. *)

From S2P Require Import Prelude.

Section Pool.
Context {T : Type}.

(** Where a worker stands in [Loop]: before the lock (at the head of the loop or
    woken), inside [condition_.wait], in [task()], returned. *)
Inductive worker := Ready | Waiting | Running (t : T) | Returned.

(** A call of [Run]: before the push, before [notify_one], returned. *)
Inductive caller := Submit (f : T) | Signal | Finished.

(** [~ThreadPool]: not called, before [notify_all], before the join of worker
    [i], returned. *)
Inductive dtor := Alive | Stopping | Joining (i : nat) | Destroyed.

(** [started] and [finished] record the tasks in the order in which they were
    taken from the queue and in which they returned. *)
Record pool := MkPool {
  workers_ : list worker; tasks_ : list T; stop_ : bool;
  callers : list caller; destructor : dtor;
  started : list T; finished : list T }.

Definition new_pool (threads : nat) (fs : list T) : pool :=
  MkPool (replicate threads Ready) [] false (Submit <$> fs) Alive [] [].

Definition set_worker (i : nat) (w : worker) (p : pool) : pool :=
  MkPool (<[i := w]> (workers_ p)) (tasks_ p) (stop_ p) (callers p) (destructor p) (started p) (finished p).
Definition set_workers (ws : list worker) (p : pool) : pool :=
  MkPool ws (tasks_ p) (stop_ p) (callers p) (destructor p) (started p) (finished p).
Definition set_caller (j : nat) (c : caller) (p : pool) : pool :=
  MkPool (workers_ p) (tasks_ p) (stop_ p) (<[j := c]> (callers p)) (destructor p) (started p) (finished p).
Definition set_dtor (d : dtor) (p : pool) : pool :=
  MkPool (workers_ p) (tasks_ p) (stop_ p) (callers p) d (started p) (finished p).

(** One step of worker [i] in [Loop]. *)
Definition loop (i : nat) (p : pool) : option pool :=
  match workers_ p !! i with
  | Some Ready =>
      if negb (stop_ p || negb (is_nil (tasks_ p))) then Some (set_worker i Waiting p)
      else if stop_ p && is_nil (tasks_ p) then Some (set_worker i Returned p)
      else match tasks_ p with
           | [] => None
           | task :: rest =>
               Some (MkPool (<[i := Running task]> (workers_ p)) rest (stop_ p) (callers p) (destructor p)
                            (started p ++ [task]) (finished p))
           end
  | Some (Running task) =>
      Some (MkPool (<[i := Ready]> (workers_ p)) (tasks_ p) (stop_ p) (callers p) (destructor p)
                   (started p) (finished p ++ [task]))
  | _ => None
  end.

Definition waiting (w : worker) : bool := match w with Waiting => true | _ => false end.
Definition wake (w : worker) : worker := match w with Waiting => Ready | _ => w end.

(** [notify_one] wakes one waiting thread, chosen by the system, if there is one. *)
Definition notify_one (chosen : option nat) (p : pool) : option pool :=
  match chosen with
  | None => if existsb waiting (workers_ p) then None else Some p
  | Some i => match workers_ p !! i with Some Waiting => Some (set_worker i Ready p) | _ => None end
  end.

Definition notify_all (p : pool) : pool := set_workers (wake <$> workers_ p) p.

(** One step of call [j] of [Run]. *)
Definition run (j : nat) (chosen : option nat) (p : pool) : option pool :=
  match callers p !! j with
  | Some (Submit f) =>
      Some (MkPool (workers_ p) (tasks_ p ++ [f]) (stop_ p) (<[j := Signal]> (callers p)) (destructor p)
                   (started p) (finished p))
  | Some Signal => set_caller j Finished <$> notify_one chosen p
  | _ => None
  end.

Definition is_finished (c : caller) : bool := match c with Finished => true | _ => false end.

(** One step of the destructor. *)
Definition destroy_pool (p : pool) : option pool :=
  match destructor p with
  | Alive =>
      if forallb is_finished (callers p)
      then Some (MkPool (workers_ p) (tasks_ p) true (callers p) Stopping (started p) (finished p))
      else None
  | Stopping => Some (set_dtor (Joining 0) (notify_all p))
  | Joining i =>
      match workers_ p !! i with
      | Some Returned => Some (set_dtor (Joining (S i)) p)
      | Some _ => None
      | None => Some (set_dtor Destroyed p)
      end
  | Destroyed => None
  end.

(** The scheduler's choices. *)
Inductive label := LWorker (i : nat) | LRun (j : nat) (chosen : option nat) | LDestroy | LSpurious (i : nat).

Definition exec (l : label) (p : pool) : option pool :=
  match l with
  | LWorker i => loop i p
  | LRun j chosen => run j chosen p
  | LDestroy => destroy_pool p
  | LSpurious i => match workers_ p !! i with Some Waiting => Some (set_worker i Ready p) | _ => None end
  end.

Inductive runs : pool -> list label -> pool -> Prop :=
| runs_nil p : runs p [] p
| runs_snoc p ls q l r : runs p ls q -> exec l q = Some r -> runs p (ls ++ [l]) r.

Fixpoint run_labels (ls : list label) (p : pool) : option pool :=
  match ls with [] => Some p | l :: ls => match exec l p with Some q => run_labels ls q | None => None end end.

End Pool.
Arguments worker : clear implicits.
Arguments caller : clear implicits.
Arguments pool : clear implicits.

(** Two workers, two tasks, a spurious wake-up, and the end of the pool. *)
Example pool_run :
  (finished <$> run_labels [LWorker 0; LWorker 1; LRun 1 None; LSpurious 0; LRun 0 None; LWorker 0; LRun 1 (Some 1%nat);
      LWorker 1; LWorker 1; LRun 0 None; LWorker 0; LWorker 0; LDestroy; LDestroy; LWorker 1; LWorker 0; LDestroy; LDestroy; LDestroy]
    (new_pool 2 [10; 20])) = Some [10; 20].
Proof. reflexivity. Qed.

Section Spec.
Context {T : Type}.
Implicit Types (p q : pool T).

(** The transitions as rules. *)
Inductive step p : label -> pool T -> Prop :=
| StepWait i : workers_ p !! i = Some Ready -> tasks_ p = [] -> stop_ p = false -> step p (LWorker i) (set_worker i Waiting p)
| StepReturn i : workers_ p !! i = Some Ready -> tasks_ p = [] -> stop_ p = true -> step p (LWorker i) (set_worker i Returned p)
| StepTake i t ts : workers_ p !! i = Some Ready -> tasks_ p = t :: ts ->
    step p (LWorker i) (MkPool (<[i := Running t]> (workers_ p)) ts (stop_ p) (callers p) (destructor p) (started p ++ [t]) (finished p))
| StepDone i t : workers_ p !! i = Some (Running t) ->
    step p (LWorker i) (MkPool (<[i := Ready]> (workers_ p)) (tasks_ p) (stop_ p) (callers p) (destructor p) (started p) (finished p ++ [t]))
| StepPush j f ch : callers p !! j = Some (Submit f) ->
    step p (LRun j ch) (MkPool (workers_ p) (tasks_ p ++ [f]) (stop_ p) (<[j := Signal]> (callers p)) (destructor p) (started p) (finished p))
| StepSignal0 j : callers p !! j = Some Signal -> Waiting ∉ workers_ p -> step p (LRun j None) (set_caller j Finished p)
| StepSignal1 j i : callers p !! j = Some Signal -> workers_ p !! i = Some Waiting ->
    step p (LRun j (Some i)) (set_caller j Finished (set_worker i Ready p))
| StepStop : destructor p = Alive -> Forall (fun c => c = Finished) (callers p) ->
    step p LDestroy (MkPool (workers_ p) (tasks_ p) true (callers p) Stopping (started p) (finished p))
| StepNotify : destructor p = Stopping -> step p LDestroy (set_dtor (Joining 0) (notify_all p))
| StepJoin i : destructor p = Joining i -> workers_ p !! i = Some Returned -> step p LDestroy (set_dtor (Joining (S i)) p)
| StepEnd i : destructor p = Joining i -> workers_ p !! i = None -> step p LDestroy (set_dtor Destroyed p)
| StepSpurious i : workers_ p !! i = Some Waiting -> step p (LSpurious i) (set_worker i Ready p).

Lemma all_finished (cs : list (caller T)) : forallb is_finished cs = true <-> Forall (fun c => c = Finished) cs.
Proof.
  rewrite list.Forall_forall, forallb_forall. split; intros H c Hc.
  - apply list_elem_of_In in Hc. specialize (H c Hc). by destruct c.
  - apply list_elem_of_In in Hc. by rewrite (H c Hc).
Qed.

Lemma none_waiting (ws : list (worker T)) : existsb waiting ws = false <-> Waiting ∉ ws.
Proof.
  split.
  - intros H Hin. apply list_elem_of_In in Hin. assert (existsb waiting ws = true) by (apply existsb_exists; by exists Waiting). congruence.
  - intros H. destruct (existsb waiting ws) eqn:E; [|done]. apply existsb_exists in E as (w & Hw & E). destruct w; try done.
    destruct H. by apply list_elem_of_In.
Qed.

Lemma exec_step l p q : exec l p = Some q <-> step p l q.
Proof.
  split.
  - destruct l as [i|j ch| |i]; cbn [exec]; unfold loop, run, destroy_pool, notify_one.
    + destruct (workers_ p !! i) as [w|] eqn:Ew; [|done].
      destruct w as [| |t|]; [|done| |done]; [|intros; simplify_eq; by constructor].
      destruct (tasks_ p) as [|t' ts] eqn:Et, (stop_ p) eqn:Es; cbn; intros H; try discriminate H; injection H as <-;
        try (rewrite <- Es); eauto using step.
    + destruct (callers p !! j) as [c|] eqn:Ec; [|done]. destruct c as [f| |]; [intros; simplify_eq; by constructor| |done].
      destruct ch as [i|].
      * destruct (workers_ p !! i) as [w|] eqn:Ew; [|done]. destruct w; try done. intros; simplify_eq/=. by constructor.
      * destruct (existsb waiting (workers_ p)) eqn:E; [done|]. intros; simplify_eq/=. constructor; [done|]. by apply none_waiting.
    + destruct (destructor p) as [| |i|] eqn:Ed; [destruct (forallb _ _) eqn:E; [|done]|..|done].
      * intros; simplify_eq. constructor; [done|]. by apply all_finished.
      * intros; simplify_eq. by constructor.
      * destruct (workers_ p !! i) as [w|] eqn:Ew; [destruct w; try done|]; intros; simplify_eq; econstructor; eassumption.
    + destruct (workers_ p !! i) as [w|] eqn:Ew; [|done]. destruct w; try done. intros; simplify_eq. by constructor.
  - intros H. destruct H; cbn [exec]; unfold loop, run, destroy_pool, notify_one;
      repeat match goal with E : workers_ p !! _ = _ |- _ => rewrite E; clear E | E : callers p !! _ = _ |- _ => rewrite E; clear E
        | E : tasks_ p = _ |- _ => rewrite E; cbn [is_nil negb orb andb] | E : stop_ p = _ |- _ => rewrite E; cbn [is_nil negb orb andb]
        | E : destructor p = _ |- _ => rewrite E; clear E end; try done.
    + by destruct (stop_ p).
    + by rewrite (proj2 (none_waiting _) H0).
    + by rewrite (proj2 (all_finished _) H0).
Qed.

(** * Invariants *)

Definition joining (d : dtor) : bool := match d with Joining _ | Destroyed => true | _ => false end.

Record ctl p : Prop := {
  c_stop : stop_ p = false <-> destructor p = Alive;
  c_callers : destructor p <> Alive -> Forall (fun c => c = Finished) (callers p);
  c_ret : Returned ∈ workers_ p -> stop_ p = true /\ tasks_ p = [];
  c_join : joining (destructor p) = true -> Waiting ∉ workers_ p;
  c_joined : forall i k, destructor p = Joining i -> (k < i)%nat -> workers_ p !! k = Some Returned;
  c_end : destructor p = Destroyed -> forall k w, workers_ p !! k = Some w -> w = Returned }.

Lemma wake_elem (w : worker T) (ws : list (worker T)) : w ∈ wake <$> ws -> w <> Waiting /\ (w = Ready \/ w ∈ ws).
Proof. intros (x & -> & Hx)%list_elem_of_fmap. destruct x; cbn; split; auto; done. Qed.

(** While a caller is unfinished the destructor has not begun. *)
Lemma caller_alive p j c : ctl p -> callers p !! j = Some c -> c <> Finished -> destructor p = Alive /\ stop_ p = false.
Proof.
  intros H Hc Hne. assert (destructor p = Alive) as E; [|split; [done|by apply (c_stop p H)]].
  destruct (destructor p) eqn:E; [done|..]; exfalso; apply Hne;
    (assert (F : destructor p <> Alive) by congruence); pose proof (c_callers p H F) as Hall;
    rewrite list.Forall_forall in Hall; apply Hall, list_elem_of_lookup; eauto.
Qed.

(** A worker that is not [Returned] changes: the returned ones stay. *)
Lemma returned_kept p i w x k : workers_ p !! i = Some w -> w <> Returned -> workers_ p !! k = Some Returned ->
  <[i := x]> (workers_ p) !! k = Some Returned.
Proof. intros Hi Hw Hk. rewrite list_lookup_insert_ne; [done|]. intros ->. congruence. Qed.

Lemma ctl_new n (fs : list T) : ctl (new_pool n fs).
Proof.
  constructor; cbn; try done. intros Hr. apply list_elem_of_lookup in Hr as [k Hk]. by apply lookup_replicate in Hk as [? _].
Qed.

(** A step of worker [i] that leaves the rest of the control state. *)
Lemma ctl_worker p i w x ts st fi :
  ctl p -> workers_ p !! i = Some w -> w <> Returned ->
  (x = Returned -> stop_ p = true /\ tasks_ p = []) -> (x = Waiting -> stop_ p = false) ->
  (tasks_ p = [] -> ts = []) ->
  ctl (MkPool (<[i := x]> (workers_ p)) ts (stop_ p) (callers p) (destructor p) st fi).
Proof.
  intros H Hi Hw Hx Hwait Hts. constructor; cbn; try apply H.
  - intros [<-|Hr]%insert_elem; [destruct Hx as [? ?]; [done|]; auto|]. destruct (c_ret p H Hr). auto.
  - intros Hj [<-|Hr]%insert_elem; [|by apply (c_join p H)]. rewrite (proj1 (c_stop p H) (Hwait eq_refl)) in Hj. done.
  - intros k k' Hd Hk. eapply returned_kept; [done|done|]. by eapply c_joined.
  - intros Hd. pose proof (c_end p H Hd i w Hi). congruence.
Qed.

Lemma ctl_step p l q : ctl p -> step p l q -> ctl q.
Proof.
  intros H Hs. destruct Hs as [i Hi Ht Hst|i Hi Ht Hst|i t ts Hi Ht|i t Hi|j f ch Hj|j Hj Hn|j i Hj Hi|Hd Hc|Hd|i Hd Hi|i Hd Hi|i Hi].
  - by eapply ctl_worker.
  - by eapply ctl_worker.
  - eapply ctl_worker; try done. congruence.
  - by eapply ctl_worker.
  - destruct (caller_alive _ _ _ H Hj) as [Ea Es]; [done|]. constructor; cbn; try apply H; try congruence.
    intros Hr. destruct (c_ret p H Hr). congruence.
  - destruct (caller_alive _ _ _ H Hj) as [Ea Es]; [done|]. constructor; cbn; try apply H. congruence.
  - destruct (caller_alive _ _ _ H Hj) as [Ea Es]; [done|]. pose proof (ctl_worker p i _ Ready (tasks_ p) (started p) (finished p) H Hi) as H'.
    specialize (H' ltac:(done) ltac:(done) ltac:(done) ltac:(done)). constructor; cbn; try apply H'. congruence.
  - constructor; cbn; try done. intros Hr. by destruct (c_ret p H Hr).
  - constructor; cbn; try done.
    + split; [|done]. intros E. apply (c_stop p H) in E. congruence.
    + intros _. apply (c_callers p H). congruence.
    + intros [_ [?|Hr]]%wake_elem; [done|]. by apply (c_ret p H).
    + intros _ [? _]%wake_elem. done.
    + intros i k [= <-]. lia.
  - constructor; cbn; try done.
    + split; [|done]. intros E. apply (c_stop p H) in E. congruence.
    + intros _. apply (c_callers p H). congruence.
    + apply (c_ret p H).
    + intros _. apply (c_join p H). by rewrite Hd.
    + intros i' k [= <-] Hk. destruct (decide (k = i)) as [->|]; [done|]. eapply c_joined; [done|exact Hd|lia].
  - constructor; cbn; try done.
    + split; [|done]. intros E. apply (c_stop p H) in E. congruence.
    + intros _. apply (c_callers p H). congruence.
    + apply (c_ret p H).
    + intros _. apply (c_join p H). by rewrite Hd.
    + intros _ k w Hk. pose proof (c_joined p H i k Hd) as Hr. apply lookup_lt_Some in Hk as Hlt. apply lookup_ge_None in Hi.
      rewrite Hr in Hk by lia. congruence.
  - by eapply ctl_worker.
Qed.

(** ** No wake-up is lost *)

Definition active (w : worker T) : Prop := match w with Ready | Running _ => True | _ => False end.

Definition alert p : Prop :=
  tasks_ p <> [] -> (exists k w, workers_ p !! k = Some w /\ active w) \/ Signal ∈ callers p.

(** After a step of worker [i] to an active state. *)
Lemma alert_worker p i w x : workers_ p !! i = Some w -> active x ->
  exists k w', <[i := x]> (workers_ p) !! k = Some w' /\ active w'.
Proof. intros Hi Hx. exists i, x. split; [|done]. apply list_lookup_insert_eq. by eapply lookup_lt_Some. Qed.

Lemma alert_step p l q : (0 < length (workers_ p))%nat -> ctl p -> alert p -> step p l q -> alert q.
Proof.
  intros Hn H Ha Hs. destruct Hs as [i Hi Ht Hst|i Hi Ht Hst|i t ts Hi Ht|i t Hi|j f ch Hj|j Hj Hno|j i Hj Hi|Hd Hc|Hd|i Hd Hi|i Hd Hi|i Hi];
    intros Hne; cbn in *; try congruence.
  - left. by eapply alert_worker.
  - left. by eapply alert_worker.
  - right. by eapply insert_elem_new.
  - left. destruct (lookup_lt_is_Some_2 (workers_ p) 0 Hn) as [w Hw]. exists 0%nat, w. split; [done|]. destruct w; try done.
    + apply Hno, list_elem_of_lookup. eauto.
    + destruct (c_ret p H) as [_ ?]; [apply list_elem_of_lookup; eauto|]. done.
  - left. by eapply alert_worker.
  - by apply Ha.
  - destruct (Ha Hne) as [(k & w & Hk & Hw)|?]; [|by right]. left. exists k, (wake w). rewrite list_lookup_fmap, Hk. split; [done|by destruct w].
  - by apply Ha.
  - by apply Ha.
  - left. by eapply alert_worker.
Qed.

(** ** Every task runs once *)

Definition running_task (w : worker T) : option T := match w with Running t => Some t | _ => None end.
Definition pending_task (c : caller T) : option T := match c with Submit f => Some f | _ => None end.

Definition running p : list T := omap running_task (workers_ p).
Definition pending p : list T := omap pending_task (callers p).

Definition account (fs : list T) p : Prop :=
  started p ++ tasks_ p ++ pending p ≡ₚ fs /\ started p ≡ₚ finished p ++ running p.

Lemma account_new n fs : account fs (new_pool n fs).
Proof.
  unfold account, pending, running. cbn. split.
  - apply Permutation_refl'. induction fs as [|f fs IH]; [done|]. cbn. f_equal. exact IH.
  - by induction n.
Qed.

(** Worker [i] changes without taking or finishing a task. *)
Lemma running_same p i w x : workers_ p !! i = Some w -> running_task w = None -> running_task x = None ->
  omap running_task (<[i := x]> (workers_ p)) ≡ₚ running p.
Proof. intros Hi Hw Hx. pose proof (omap_insert running_task i x w _ Hi) as E. rewrite Hw, Hx in E. cbn in E. by rewrite !app_nil_r in E. Qed.

Lemma running_wake (ws : list (worker T)) : omap running_task (wake <$> ws) = omap running_task ws.
Proof. induction ws as [|w ws IH]; [done|]. destruct w; cbn; rewrite IH; done. Qed.

Lemma account_step fs p l q : account fs p -> step p l q -> account fs q.
Proof.
  intros [Hp Hr] Hs. unfold account, pending, running in *.
  destruct Hs as [i Hi Ht Hst|i Hi Ht Hst|i t ts Hi Ht|i t Hi|j f ch Hj|j Hj Hno|j i Hj Hi|Hd Hc|Hd|i Hd Hi|i Hd Hi|i Hi]; cbn.
  - split; [done|]. by rewrite (running_same p i _ Waiting Hi).
  - split; [done|]. by rewrite (running_same p i _ Returned Hi).
  - pose proof (omap_insert running_task i (Running t) _ _ Hi) as E. cbn in E. rewrite app_nil_r in E. rewrite E. split.
    + rewrite Ht in Hp. rewrite <- app_assoc. exact Hp.
    + rewrite Hr at 1. by rewrite app_assoc.
  - pose proof (omap_insert running_task i Ready _ _ Hi) as E. cbn in E. rewrite app_nil_r in E. split; [done|].
    rewrite Hr, <- E. rewrite <- app_assoc. apply Permutation_app_head. apply Permutation_app_comm.
  - pose proof (omap_insert pending_task j Signal _ _ Hj) as E. cbn in E. rewrite app_nil_r in E. split; [|done].
    rewrite <- Hp, <- E. rewrite <- (app_assoc (tasks_ p)). apply Permutation_app_head, Permutation_app_head. apply Permutation_app_comm.
  - pose proof (omap_insert pending_task j Finished _ _ Hj) as E. cbn in E. rewrite !app_nil_r in E. by rewrite E.
  - pose proof (omap_insert pending_task j Finished _ _ Hj) as E. cbn in E. rewrite !app_nil_r in E. rewrite E. split; [done|].
    by rewrite (running_same p i _ Ready Hi).
  - done.
  - by rewrite running_wake.
  - done.
  - done.
  - split; [done|]. by rewrite (running_same p i _ Ready Hi).
Qed.

(** Tasks enter at the back and leave at the front. *)
Lemma order_step p l q : step p l q -> started p ++ tasks_ p `prefix_of` started q ++ tasks_ q.
Proof.
  intros Hs. destruct Hs as [| |i t ts Hi Ht| |j f ch Hj| | | | | | |]; cbn; try done.
  - rewrite Ht. by rewrite <- app_assoc.
  - exists [f]. by rewrite app_assoc.
Qed.

(** ** Executions end *)

Definition worker_weight (w : worker T) : nat := match w with Ready => 2 | Waiting => 1 | Running _ => 3 | Returned => 0 end.
Definition caller_weight (c : caller T) : nat := match c with Submit _ => 5 | Signal => 2 | Finished => 0 end.
Definition dtor_weight (n : nat) (d : dtor) : nat :=
  match d with Alive => 2 * n + 4 | Stopping => 2 * n + 3 | Joining i => n + 1 - i | Destroyed => 0 end.

Definition weight p : nat :=
  sum_list_with worker_weight (workers_ p) + 2 * length (tasks_ p) + sum_list_with caller_weight (callers p)
  + dtor_weight (length (workers_ p)) (destructor p).

Definition spurious (l : label) : bool := match l with LSpurious _ => true | _ => false end.

Lemma wake_weight (ws : list (worker T)) : (sum_list_with worker_weight (wake <$> ws) <= sum_list_with worker_weight ws + length ws)%nat.
Proof. induction ws as [|w ws IH]; [done|]. destruct w; cbn in *; lia. Qed.

Lemma weight_step p l q : ctl p -> step p l q -> (weight q + 1 <= weight p + (if spurious l then 2 else 0))%nat.
Proof.
  intros H Hs. unfold weight.
  destruct Hs as [i Hi Ht Hst|i Hi Ht Hst|i t ts Hi Ht|i t Hi|j f ch Hj|j Hj Hno|j i Hj Hi|Hd Hc|Hd|i Hd Hi|i Hd Hi|i Hi]; cbn;
    rewrite ?length_insert, ?length_fmap, ?length_app; cbn [length spurious].
  - pose proof (sum_insert worker_weight i Waiting _ _ Hi). cbn in *. lia.
  - pose proof (sum_insert worker_weight i Returned _ _ Hi). cbn in *. lia.
  - rewrite Ht. pose proof (sum_insert worker_weight i (Running t) _ _ Hi). cbn in *. lia.
  - pose proof (sum_insert worker_weight i Ready _ _ Hi). cbn in *. lia.
  - pose proof (sum_insert caller_weight j Signal _ _ Hj). cbn in *. lia.
  - pose proof (sum_insert caller_weight j Finished _ _ Hj). cbn in *. lia.
  - pose proof (sum_insert caller_weight j Finished _ _ Hj). pose proof (sum_insert worker_weight i Ready _ _ Hi). cbn in *. lia.
  - rewrite Hd. cbn. lia.
  - rewrite Hd. pose proof (wake_weight (workers_ p)). cbn. lia.
  - rewrite Hd. apply lookup_lt_Some in Hi. cbn. lia.
  - rewrite Hd. cbn. enough (i <= length (workers_ p))%nat by lia. destruct i as [|i]; [lia|].
    pose proof (c_joined p H _ i Hd ltac:(lia)) as Hk. apply lookup_lt_Some in Hk. lia.
  - pose proof (sum_insert worker_weight i Ready _ _ Hi). cbn in *. lia.
Qed.

(** ** Reachable states *)

Lemma runs_inv n fs ls p :
  runs (new_pool n fs) ls p ->
  length (workers_ p) = n /\ ctl p /\ account fs p /\ ((0 < n)%nat -> alert p) /\
  (length ls + weight p <= weight (new_pool n fs) + 2 * length (filter (fun l => spurious l = true) ls))%nat.
Proof.
  intros Hr. remember (new_pool n fs) as p0 eqn:E0. induction Hr as [p|p ls q l r Hr IH Hx]; subst.
  - split; [cbn; apply length_replicate|]. split; [apply ctl_new|]. split; [apply account_new|]. split; [by intros _ ?|]. cbn. lia.
  - destruct (IH eq_refl) as (Hn & Hc & Ha & Hal & Hw). apply exec_step in Hx.
    assert (length (workers_ r) = n) as Hn' by (destruct Hx; cbn; rewrite ?length_insert, ?length_fmap; done).
    split; [done|]. split; [by eapply ctl_step|]. split; [by eapply account_step|]. split.
    + intros H0. eapply alert_step; [| | |exact Hx]; [lia|done|auto].
    + pose proof (weight_step q l r Hc Hx). rewrite list.filter_app, !length_app, list.filter_cons, list.filter_nil. case_decide as Hsp; [rewrite Hsp in *|apply not_true_is_false in Hsp; rewrite Hsp in *]; cbn [length]; lia.
Qed.

(** No step but a spurious wake-up is possible. *)
Definition stuck p : Prop := forall l q, spurious l = false -> ~ step p l q.

Lemma stuck_workers p k w : stuck p -> workers_ p !! k = Some w -> w = Waiting \/ w = Returned.
Proof.
  intros Hs Hk. destruct w as [| |t|]; [exfalso|by left|exfalso|by right].
  - destruct (tasks_ p) as [|t ts] eqn:Et; [destruct (stop_ p) eqn:Es|].
    + eapply (Hs (LWorker k)); [done|]. by apply StepReturn.
    + eapply (Hs (LWorker k)); [done|]. by apply StepWait.
    + eapply (Hs (LWorker k)); [done|]. by eapply StepTake.
  - eapply (Hs (LWorker k)); [done|]. by eapply StepDone.
Qed.

Lemma stuck_callers p : stuck p -> Forall (fun c => c = Finished) (callers p).
Proof.
  intros Hs. apply list.Forall_forall. intros c [j Hj]%list_elem_of_lookup. destruct c as [f| |]; [exfalso|exfalso|done].
  - eapply (Hs (LRun j None)); [done|]. by eapply StepPush.
  - destruct (existsb waiting (workers_ p)) eqn:E.
    + apply existsb_exists in E as (w & Hw & E). destruct w; try done. apply list_elem_of_In, list_elem_of_lookup in Hw as [i Hi].
      eapply (Hs (LRun j (Some i))); [done|]. by apply StepSignal1.
    + eapply (Hs (LRun j None)); [done|]. apply StepSignal0; [done|]. by apply none_waiting.
Qed.

Lemma stuck_end n fs p :
  (0 < n)%nat -> length (workers_ p) = n -> ctl p -> account fs p -> alert p -> stuck p ->
  destructor p = Destroyed /\ Forall (fun w => w = Returned) (workers_ p) /\ finished p ≡ₚ fs.
Proof.
  intros Hn Hlen Hc [Hp Hr] Hal Hs. pose proof (stuck_callers p Hs) as Hfin.
  assert (Ht : tasks_ p = []).
  { destruct (tasks_ p) as [|t ts] eqn:Et; [done|]. exfalso. destruct Hal as [(k & w & Hk & Hw)|Hsig]; [by rewrite Et| |].
    - by destruct (stuck_workers p k w Hs Hk) as [-> | ->].
    - rewrite list.Forall_forall in Hfin. by specialize (Hfin _ Hsig). }
  assert (Hd : destructor p = Destroyed).
  { destruct (destructor p) as [| |i|] eqn:Ed; [exfalso..|done].
    - eapply (Hs LDestroy); [done|]. by apply StepStop.
    - eapply (Hs LDestroy); [done|]. by apply StepNotify.
    - destruct (workers_ p !! i) as [w|] eqn:Ew; [|eapply (Hs LDestroy); [done|]; by eapply StepEnd].
      destruct (stuck_workers p i w Hs Ew) as [-> | ->]; [|eapply (Hs LDestroy); [done|]; by eapply StepJoin].
      apply (c_join p Hc); [by rewrite Ed|]. apply list_elem_of_lookup. eauto. }
  assert (Hret : Forall (fun w => w = Returned) (workers_ p)).
  { apply list.Forall_forall. intros w [k Hk]%list_elem_of_lookup. by eapply c_end. }
  split; [done|]. split; [done|].
  assert (Er : running p = []) by (unfold running; clear -Hret; induction Hret as [|w ws -> _ IH]; done).
  assert (Ep : pending p = []) by (unfold pending; clear -Hfin; induction Hfin as [|c cs -> _ IH]; done).
  rewrite Ht, Ep, app_nil_r in Hp. rewrite Er, app_nil_r in Hr. by rewrite <- Hp, Hr.
Qed.

Lemma new_pool_weight n (fs : list T) : weight (new_pool n fs) = (4 * n + 5 * length fs + 4)%nat.
Proof.
  unfold weight, new_pool. cbn. rewrite length_replicate.
  replace (sum_list_with worker_weight (replicate n Ready)) with (2 * n)%nat by (induction n; cbn in *; lia).
  replace (sum_list_with caller_weight (Submit <$> fs)) with (5 * length fs)%nat by (induction fs; cbn in *; lia). lia.
Qed.

(** C28: in every interleaving of the threads of a pool with at least one worker the
    number of steps is bounded by 4 plus 4 per worker, 5 per task and 2 per spurious
    wake-up, and a state in which no thread can go on is the end: all tasks have run,
    all workers have returned and the destructor is done; no wake-up is lost and there
    is no deadlock. *)
Theorem thread_pool_liveness n fs ls p :
  (0 < n)%nat -> runs (new_pool n fs) ls p ->
  (length ls <= 4 * n + 5 * length fs + 4 + 2 * length (filter (fun l => spurious l = true) ls))%nat /\
  ((forall l, spurious l = false -> exec l p = None) ->
     destructor p = Destroyed /\ Forall (fun w => w = Returned) (workers_ p) /\ finished p ≡ₚ fs).
Proof.
  intros Hn Hr. destruct (runs_inv _ _ _ _ Hr) as (Hlen & Hc & Ha & Hal & Hw). rewrite new_pool_weight in Hw. split; [lia|].
  intros Hst. eapply stuck_end; eauto. intros l q Hl Hq. apply exec_step in Hq. rewrite Hst in Hq by done. done.
Qed.

(** C29: in every reachable state each submitted task is not yet queued, queued, running
    or finished, and exactly one of these; tasks start in the order in which they
    entered the queue, and when the destructor has returned every task has run exactly
    once. *)
Theorem thread_pool_runs_once n fs ls p ls' q :
  runs (new_pool n fs) ls p -> runs p ls' q ->
  started p ++ tasks_ p ++ pending p ≡ₚ fs /\ started p ≡ₚ finished p ++ running p /\
  started p ++ tasks_ p `prefix_of` started q ++ tasks_ q /\
  (destructor p = Destroyed -> (0 < n)%nat -> finished p ≡ₚ fs).
Proof.
  intros Hr Hr'. destruct (runs_inv _ _ _ _ Hr) as (Hlen & Hc & [Hp Hru] & Hal & _). split; [done|]. split; [done|]. split.
  - clear Hp Hru Hal Hc Hr. induction Hr' as [|p ls' q l r Hr IH Hx]; [done|]. etrans; [by apply IH|]. apply exec_step in Hx. by eapply order_step.
  - intros Hd Hn. assert (Hret : Forall (fun w => w = Returned) (workers_ p)).
    { apply list.Forall_forall. intros w [k Hk]%list_elem_of_lookup. by eapply c_end. }
    assert (Hfin : Forall (fun c => c = Finished) (callers p)) by (apply (c_callers p Hc); congruence).
    assert (Ht : tasks_ p = []).
    { apply (c_ret p Hc). destruct (lookup_lt_is_Some_2 (workers_ p) 0) as [w Hw]; [lia|].
      rewrite <- (c_end p Hc Hd _ _ Hw). apply list_elem_of_lookup. eauto. }
    assert (Er : running p = []) by (unfold running; clear -Hret; induction Hret as [|w ws -> _ IH]; done).
    assert (Ep : pending p = []) by (unfold pending; clear -Hfin; induction Hfin as [|c cs -> _ IH]; done).
    rewrite Ht, Ep, app_nil_r in Hp. rewrite Er, app_nil_r in Hru. by rewrite <- Hp, Hru.
Qed.
End Spec.

Lemma run_labels_runs {T} (ls ls0 : list label) (p0 p q : pool T) : runs p0 ls0 p -> run_labels ls p = Some q -> runs p0 (ls0 ++ ls) q.
Proof.
  revert ls0 p. induction ls as [|l ls IH]; intros ls0 p Hr H; cbn [run_labels] in H.
  - rewrite app_nil_r. by injection H as <-.
  - destruct (exec l p) as [p'|] eqn:E; [|done]. replace (ls0 ++ l :: ls) with ((ls0 ++ [l]) ++ ls) by (by rewrite <- app_assoc).
    eapply IH; [|exact H]. by eapply runs_snoc.
Qed.

Definition sample_labels : list label :=
  [LWorker 0; LRun 0 None; LRun 0 (Some 0%nat); LWorker 0; LWorker 0; LDestroy; LDestroy; LWorker 0; LDestroy; LDestroy].
Definition sample_end : pool Z := MkPool [Returned] [] true [Finished] Destroyed [7] [7].

Lemma sample_runs : runs (new_pool 1 [7]) sample_labels sample_end.
Proof. eapply (run_labels_runs sample_labels []); [constructor|reflexivity]. Qed.

(** One worker sleeps, is notified, runs the task and is joined. *)
Lemma thread_pool_liveness_witness : destructor sample_end = Destroyed /\ finished sample_end ≡ₚ [7].
Proof.
  destruct (thread_pool_liveness 1 [7] sample_labels sample_end) as [_ H]; [lia|exact sample_runs|].
  destruct H as (Hd & _ & Hf); [|by split].
  intros [[|i]|[|j] ch| |i] Hl; try reflexivity; try discriminate Hl; cbn; unfold loop, run; by rewrite lookup_nil || reflexivity.
Defined.

Lemma thread_pool_runs_once_witness : finished sample_end ≡ₚ [7].
Proof. destruct (thread_pool_runs_once 1 [7] sample_labels sample_end [] sample_end sample_runs (runs_nil _)) as (_ & _ & _ & H). apply H; [reflexivity|lia]. Defined.

(** [std::thread::hardware_concurrency()] may return 0: a pool without workers is
    destroyed without running its tasks. *)
Example pool_without_workers : exists p : pool Z, runs (new_pool 0 [7]) [LRun 0 None; LRun 0 None; LDestroy; LDestroy; LDestroy] p /\
  destructor p = Destroyed /\ tasks_ p = [7] /\ finished p = [].
Proof. eexists. split; [eapply (run_labels_runs _ []); [constructor|reflexivity]|]. done. Qed.
