(* ===== verification/BlockingQueue.v ===== *)
(** The bounded blocking queue of cpp/examples/blocking_queue.h, as an
    interleaving of the threads that use it.

    Each thread performs a list of operations.  A critical section under [mutex_]
    is one step, from taking the mutex to returning or to blocking on a
    condition variable.  A blocked thread goes on when it is notified, when its
    time is over (the operations with [timewait]) or spuriously; it then tests
    its predicate again. *)

From S2P Require Import Prelude.

Section Queue.
Context {T : Type}.

Inductive op :=
| Enqueue (task : T) | ForceEnqueue (task : T) | TryEnqueue (task : T) | EnqueueFront (task : T)
| Dequeue | TryDequeue | Size | Full | Empty | Clear | ClearAndDelete.

Inductive result := RVoid | RBool (b : bool) | RTask (task : T) | RTry (task : option T) | RSize (n : nat).

Inductive condvar := cv_full_ | cv_empty_.

(** A thread inside an operation: entering, blocked, notified, timed out. *)
Inductive phase := Entering | Blocked (c : condvar) | Notified | TimedOut.

Record thread := MkThread { phase_ : phase; program : list op }.

(** [history] lists the completed operations, with thread and result. *)
Record bqueue := MkQueue { capacity_ : nat; tasks : list T; threads : list thread; history : list (nat * op * result) }.

Definition new_queue (capacity : nat) (programs : list (list op)) : bqueue :=
  MkQueue capacity [] (MkThread Entering <$> programs) [].

(** What the critical section does: block, return with a new queue and the
    condition variable to notify, or run into undefined behaviour. *)
Inductive verdict := Wait (c : condvar) | Return (tasks : list T) (notify : option condvar) (r : result) | Undefined.

Definition section (cap : nat) (ts : list T) (ph : phase) (o : op) : verdict :=
  let room := (length ts <? cap)%nat in
  match o with
  | Enqueue t => if room then Return (ts ++ [t]) (Some cv_empty_) RVoid else Wait cv_full_
  | ForceEnqueue t => Return (ts ++ [t]) (Some cv_empty_) RVoid
  | TryEnqueue t =>
      if room then Return (ts ++ [t]) (Some cv_empty_) (RBool true)
      else match ph with TimedOut => Return ts None (RBool false) | _ => Wait cv_full_ end
  | EnqueueFront t => if room then Return (t :: ts) (Some cv_empty_) RVoid else Wait cv_full_
  | Dequeue => match ts with t :: r => Return r (Some cv_full_) (RTask t) | [] => Wait cv_empty_ end
  | TryDequeue =>
      match ts with
      | t :: r => Return r (Some cv_full_) (RTry (Some t))
      | [] => match ph with TimedOut => Return ts None (RTry None) | _ => Wait cv_empty_ end
      end
  | Size => Return ts None (RSize (length ts))
  | Full =>
      match ph with
      | Entering => if room then Return ts None (RBool false) else Wait cv_full_
      | _ => Return ts None (RBool (negb room))
      end
  | Empty => Return ts None (RBool (is_nil ts))
  | Clear => Return [] None RVoid
  | ClearAndDelete => if is_nil ts then Undefined else Return ts None RVoid
  end.

Definition same_cv (c d : condvar) : bool :=
  match c, d with cv_full_, cv_full_ | cv_empty_, cv_empty_ => true | _, _ => false end.

(** [notify_all] *)
Definition awake (c : condvar) (t : thread) : thread :=
  match phase_ t with Blocked d => if same_cv c d then MkThread Notified (program t) else t | _ => t end.

Definition notify (c : option condvar) (ths : list thread) : list thread :=
  match c with Some c => awake c <$> ths | None => ths end.

Definition timed (o : op) : bool := match o with TryEnqueue _ | TryDequeue | Full => true | _ => false end.

Inductive event := Go (i : nat) | Timeout (i : nat) | Spurious (i : nat).

Definition set_thread (i : nat) (t : thread) (q : bqueue) : bqueue :=
  MkQueue (capacity_ q) (tasks q) (<[i := t]> (threads q)) (history q).

(** [None]: the event is not possible. *)
Definition exec_event (e : event) (q : bqueue) : option (outcome bqueue) :=
  match e with
  | Go i =>
      match threads q !! i with
      | Some (MkThread ph (o :: os)) =>
          match ph with
          | Blocked _ => None
          | _ =>
              match section (capacity_ q) (tasks q) ph o with
              | Wait c => Some (Ok (set_thread i (MkThread (Blocked c) (o :: os)) q))
              | Return ts c r =>
                  Some (Ok (MkQueue (capacity_ q) ts (<[i := MkThread Entering os]> (notify c (threads q))) (history q ++ [(i, o, r)])))
              | Undefined => Some (Fault OutOfBounds)
              end
          end
      | _ => None
      end
  | Timeout i =>
      match threads q !! i with
      | Some (MkThread (Blocked _) (o :: os)) => if timed o then Some (Ok (set_thread i (MkThread TimedOut (o :: os)) q)) else None
      | _ => None
      end
  | Spurious i =>
      match threads q !! i with
      | Some (MkThread (Blocked _) os) => Some (Ok (set_thread i (MkThread Notified os) q))
      | _ => None
      end
  end.

Fixpoint run_events (es : list event) (q : bqueue) : option bqueue :=
  match es with
  | [] => Some q
  | e :: es => match exec_event e q with Some (Ok q') => run_events es q' | _ => None end
  end.

Inductive reaches : bqueue -> list event -> bqueue -> Prop :=
| reaches_nil q : reaches q [] q
| reaches_snoc q es q1 e q2 : reaches q es q1 -> exec_event e q1 = Some (Ok q2) -> reaches q (es ++ [e]) q2.

Lemma run_events_reaches es es0 q0 q1 q : reaches q0 es0 q1 -> run_events es q1 = Some q -> reaches q0 (es0 ++ es) q.
Proof.
  revert es0 q1. induction es as [|e es IH]; intros es0 q1 Hr H; cbn [run_events] in H.
  - rewrite app_nil_r. by injection H as <-.
  - destruct (exec_event e q1) as [[q2|]|] eqn:E; try done. replace (es0 ++ e :: es) with ((es0 ++ [e]) ++ es) by (by rewrite <- app_assoc).
    eapply IH; [|exact H]. by eapply reaches_snoc.
Qed.
End Queue.
Arguments op : clear implicits.
Arguments result : clear implicits.
Arguments thread : clear implicits.
Arguments bqueue : clear implicits.

(** Capacity 1: the second producer blocks until the consumer has taken. *)
Example queue_run :
  (history <$> run_events [Go 0; Go 1; Go 2; Go 1; Go 2] (new_queue 1 [[Enqueue 5]; [Enqueue 6]; [Dequeue; Dequeue]]))
  = Some [(0%nat, Enqueue 5, RVoid); (2%nat, Dequeue, RTask 5); (1%nat, Enqueue 6, RVoid); (2%nat, Dequeue, RTask 6)].
Proof. reflexivity. Qed.

(** [Clear] notifies nobody: the producer stays blocked on an empty queue, and no
    other event is possible. *)
Example clear_loses_wakeup :
  exists q, run_events [Go 0; Go 0; Go 1] (new_queue 1 [[Enqueue 5; Enqueue 6]; [Clear]]) = Some q /\
    tasks q = [] /\ (forall e, (forall i, e <> Spurious i) -> exec_event e q = None).
Proof.
  eexists. split; [reflexivity|]. split; [reflexivity|].
  intros [[|[|i]]|[|[|i]]|i] H; try reflexivity. by destruct (H i).
Qed.

(** [ClearAndDelete] takes from an empty queue and keeps a full one. *)
Example clear_and_delete_inverted :
  exec_event (Go 0) (new_queue 1 [[ClearAndDelete (T := Z)]]) = Some (Fault OutOfBounds) /\
  exists q, run_events [Go 0; Go 0] (new_queue 1 [[Enqueue 5; ClearAndDelete]]) = Some q /\ tasks q = [5].
Proof. split; [reflexivity|]. eexists. by split. Qed.

Section Spec.
Context {T : Type}.
Implicit Types (q : bqueue T) (ts : list T).

Definition blocked (ph : phase) : bool := match ph with Blocked _ => true | _ => false end.

(** The events as rules. *)
Inductive estep q : event -> bqueue T -> Prop :=
| EWait i ph o os c : threads q !! i = Some (MkThread ph (o :: os)) -> blocked ph = false ->
    section (capacity_ q) (tasks q) ph o = Wait c -> estep q (Go i) (set_thread i (MkThread (Blocked c) (o :: os)) q)
| EReturn i ph o os ts c r : threads q !! i = Some (MkThread ph (o :: os)) -> blocked ph = false ->
    section (capacity_ q) (tasks q) ph o = Return ts c r ->
    estep q (Go i) (MkQueue (capacity_ q) ts (<[i := MkThread Entering os]> (notify c (threads q))) (history q ++ [(i, o, r)]))
| ETimeout i c o os : threads q !! i = Some (MkThread (Blocked c) (o :: os)) -> timed o = true ->
    estep q (Timeout i) (set_thread i (MkThread TimedOut (o :: os)) q)
| ESpurious i c os : threads q !! i = Some (MkThread (Blocked c) os) -> estep q (Spurious i) (set_thread i (MkThread Notified os) q).

Lemma exec_estep e q q' : exec_event e q = Some (Ok q') -> estep q e q'.
Proof.
  destruct e as [i|i|i]; cbn; destruct (threads q !! i) as [[ph [|o os]]|] eqn:E; try done; try (by destruct ph).
  - destruct ph; try done; destruct (section _ _ _ o) as [c|ts c r|] eqn:S; intros; simplify_eq; econstructor; eauto.
  - destruct ph; try done. destruct (timed o) eqn:Et; intros; simplify_eq. by eapply ETimeout.
  - destruct ph; try done. intros; simplify_eq. by eapply ESpurious.
  - destruct ph; try done. intros; simplify_eq. by eapply ESpurious.
Qed.

(** * The queue as a sequential object *)

Inductive seq_step (cap : nat) : list T -> op T -> result T -> list T -> Prop :=
| SEnqueue ts t : (length ts < cap)%nat -> seq_step cap ts (Enqueue t) RVoid (ts ++ [t])
| SForce ts t : seq_step cap ts (ForceEnqueue t) RVoid (ts ++ [t])
| STry ts t : (length ts < cap)%nat -> seq_step cap ts (TryEnqueue t) (RBool true) (ts ++ [t])
| STryFail ts t : (cap <= length ts)%nat -> seq_step cap ts (TryEnqueue t) (RBool false) ts
| SFront ts t : (length ts < cap)%nat -> seq_step cap ts (EnqueueFront t) RVoid (t :: ts)
| SDequeue ts t : seq_step cap (t :: ts) Dequeue (RTask t) ts
| STryDequeue ts t : seq_step cap (t :: ts) TryDequeue (RTry (Some t)) ts
| STryDequeueFail : seq_step cap [] TryDequeue (RTry None) []
| SSize ts : seq_step cap ts Size (RSize (length ts)) ts
| SFull ts b : (b = true <-> (cap <= length ts)%nat) -> seq_step cap ts Full (RBool b) ts
| SEmpty ts b : (b = true <-> ts = []) -> seq_step cap ts Empty (RBool b) ts
| SClear ts : seq_step cap ts Clear RVoid []
| SClearAndDelete ts : ts <> [] -> seq_step cap ts ClearAndDelete RVoid ts.

Inductive replays (cap : nat) : list (nat * op T * result T) -> list T -> Prop :=
| replays_nil : replays cap [] []
| replays_snoc h ts i o r ts' : replays cap h ts -> seq_step cap ts o r ts' -> replays cap (h ++ [(i, o, r)]) ts'.

Lemma section_seq cap ts ph o ts' c r : section cap ts ph o = Return ts' c r -> seq_step cap ts o r ts'.
Proof.
  unfold section. cbv zeta. destruct (Nat.ltb_spec (length ts) cap) as [Hl|Hl], o; try destruct ph; try destruct ts; cbn; intros; simplify_eq;
    constructor; try done; split; intros; try done; lia.
Qed.

(** * What blocked threads wait for *)

Definition waits_on (o : op T) (c : condvar) : Prop :=
  match o, c with
  | (Enqueue _ | TryEnqueue _ | EnqueueFront _ | Full), cv_full_ => True
  | (Dequeue | TryDequeue), cv_empty_ => True
  | _, _ => False
  end.

Definition holds_up q (c : condvar) : Prop := match c with cv_full_ => (capacity_ q <= length (tasks q))%nat | cv_empty_ => tasks q = [] end.

Definition blocked_ok q : Prop :=
  forall i c os, threads q !! i = Some (MkThread (Blocked c) os) -> holds_up q c /\ exists o os', os = o :: os' /\ waits_on o c.

Lemma section_wait q ph o c : section (capacity_ q) (tasks q) ph o = Wait c -> waits_on o c /\ holds_up q c.
Proof.
  unfold section. cbv zeta. destruct (Nat.ltb_spec (length (tasks q)) (capacity_ q)) as [Hl|Hl], o; try destruct ph; try destruct (tasks q) eqn:E; cbn; intros;
    simplify_eq; cbn; rewrite ?E; done.
Qed.

Definition clears (o : op T) : bool := match o with Clear => true | _ => false end.

(** A completed operation keeps the reason of the threads it does not notify. *)
Lemma section_keeps q ph o ts c r (d : condvar) :
  section (capacity_ q) (tasks q) ph o = Return ts c r -> clears o = false -> c <> Some d ->
  holds_up q d -> holds_up (MkQueue (capacity_ q) ts (threads q) (history q)) d.
Proof.
  intros H Hc Hd. unfold section in H. cbv zeta in H.
  destruct (Nat.ltb_spec (length (tasks q)) (capacity_ q)) as [Hl|Hl], o; try done; try destruct ph; try destruct (tasks q) as [|t0 ts0] eqn:E;
    cbn in H; simplify_eq; destruct d; cbn in *; rewrite ?E; cbn in *; try done; rewrite ?length_app; cbn; intros; try lia; try done.
Qed.

Lemma awake_phase c (t : thread T) d os : awake c t = MkThread (Blocked d) os -> t = MkThread (Blocked d) os /\ c <> d.
Proof. destruct t as [[| c'| |] os']; cbn; try done. destruct c, c'; cbn; intros; simplify_eq; done. Qed.

Lemma notify_blocked c (ths : list (thread T)) k d os :
  notify c ths !! k = Some (MkThread (Blocked d) os) -> ths !! k = Some (MkThread (Blocked d) os) /\ c <> Some d.
Proof.
  destruct c as [c|]; cbn; [|done]. rewrite list_lookup_fmap. destruct (ths !! k) as [t|]; cbn; [|done].
  intros [= H]. apply awake_phase in H as [-> Hne]. split; [done|congruence].
Qed.

Definition all_ops q (P : op T -> Prop) : Prop := Forall (fun t => Forall P (program t)) (threads q).

Lemma all_ops_step q e q' P : all_ops q P -> estep q e q' -> all_ops q' P.
Proof.
  unfold all_ops. rewrite !list.Forall_forall. intros H Hs t Ht.
  destruct Hs as [i ph o os c Hi _ _|i ph o os ts c r Hi _ _|i c o os Hi _|i c os Hi]; cbn in Ht; apply insert_elem in Ht as [->|Ht]; try (by apply H);
    try (apply (H _ (list_elem_of_lookup_2 _ _ _ Hi))).
  - pose proof (H _ (list_elem_of_lookup_2 _ _ _ Hi)) as Ho. cbn in *. by inversion Ho.
  - destruct c as [c|]; cbn in Ht; [|by apply H]. apply list_elem_of_fmap in Ht as (x & -> & Hx). specialize (H x Hx).
    destruct x as [ph' os']; cbn in *. destruct ph' as [|d| |]; cbn; try done. unfold awake; cbn. by destruct (same_cv c d).
Qed.

Lemma blocked_ok_step q e q' : all_ops q (fun o => clears o = false) -> blocked_ok q -> estep q e q' -> blocked_ok q'.
Proof.
  intros Hall H Hs k d os' Hk.
  destruct Hs as [i ph o os c Hi Hb Hse|i ph o os ts c r Hi Hb Hse|i c o os Hi Ht|i c os Hi]; cbn in Hk;
    apply list_lookup_insert_Some in Hk as [(<- & [=] & _)|[Hne Hk]]; subst; try (destruct (H _ _ _ Hk) as [Hh Hw]; by split).
  - apply section_wait in Hse as [Hw Hh]. split; [done|]. eauto.
  - apply notify_blocked in Hk as [Hk Hd]. destruct (H _ _ _ Hk) as [Hh Hw]. split; [|done].
    unfold all_ops in Hall. rewrite list.Forall_forall in Hall. pose proof (Hall _ (list_elem_of_lookup_2 _ _ _ Hi)) as Ho. cbn in Ho. inversion Ho; subst.
    by eapply section_keeps.
Qed.

(** * Program order *)

Definition ops_of (i : nat) (h : list (nat * op T * result T)) : list (op T) :=
  omap (fun x => if (x.1.1 =? i)%nat then Some x.1.2 else None) h.

Definition in_order (ps : list (list (op T))) q : Prop :=
  forall i p, ps !! i = Some p -> exists t, threads q !! i = Some t /\ ops_of i (history q) ++ program t = p.

Lemma notify_program c (ths : list (thread T)) k t : ths !! k = Some t -> exists t', notify c ths !! k = Some t' /\ program t' = program t.
Proof.
  intros Hk. destruct c as [c|]; cbn; [|by exists t]. rewrite list_lookup_fmap, Hk. exists (awake c t). split; [done|].
  destruct t as [[|d| |] os]; try done. unfold awake. cbn. by destruct (same_cv c d).
Qed.

Lemma in_order_set ps q i ph ph' os :
  in_order ps q -> threads q !! i = Some (MkThread ph os) -> in_order ps (set_thread i (MkThread ph' os) q).
Proof.
  intros H Hi k p Hk. destruct (H k p Hk) as (t & Ht & E). cbn. destruct (decide (k = i)) as [->|Hne].
  - rewrite list_lookup_insert_eq by (by eapply lookup_lt_Some). eexists. split; [done|]. rewrite Ht in Hi. injection Hi as ->. exact E.
  - rewrite list_lookup_insert_ne by done. eauto.
Qed.

Lemma in_order_step ps q e q' : in_order ps q -> estep q e q' -> in_order ps q'.
Proof.
  intros H Hs. destruct Hs as [i ph o os c Hi _ _|i ph o os ts c r Hi _ _|i c o os Hi _|i c os Hi]; try (by eapply in_order_set).
  intros k p Hk. destruct (H k p Hk) as (t & Ht & E). cbn [threads history]. unfold ops_of. rewrite omap_app. fold (ops_of k (history q)). cbn.
  destruct (notify_program c _ _ _ Ht) as (t' & Ht' & Ep). destruct (Nat.eqb_spec i k) as [<-|Hne].
  - rewrite list_lookup_insert_eq by (by eapply lookup_lt_Some). eexists. split; [done|]. rewrite Ht in Hi. injection Hi as ->. cbn in *.
    by rewrite <- app_assoc.
  - rewrite list_lookup_insert_ne by done. exists t'. split; [done|]. by rewrite app_nil_r, Ep.
Qed.

(** * Executions end *)

Definition phase_weight (ph : phase) : nat := match ph with Entering | Notified => 3 | Blocked _ => 2 | TimedOut => 1 end.
Definition thread_weight (n : nat) (t : thread T) : nat := (n + 3) * length (program t) + phase_weight (phase_ t).
Definition queue_weight q : nat := sum_list_with (thread_weight (length (threads q))) (threads q).
Definition is_spurious (e : event) : bool := match e with Spurious _ => true | _ => false end.

Lemma notify_weight n c (ths : list (thread T)) :
  (sum_list_with (thread_weight n) (notify c ths) <= sum_list_with (thread_weight n) ths + length ths)%nat.
Proof.
  destruct c as [c|]; cbn [notify]; [|lia]. induction ths as [|t ths IH]; [done|]. cbn.
  enough (thread_weight n (awake c t) <= thread_weight n t + 1)%nat by (cbn in *; lia).
  destruct t as [[|d| |] os]; unfold awake, thread_weight; cbn; try lia. destruct (same_cv c d); cbn; lia.
Qed.

Lemma notify_length c (ths : list (thread T)) : length (notify c ths) = length ths.
Proof. destruct c; [apply length_fmap|done]. Qed.

(** Only operations with a time limit time out, and then they return. *)
Definition timed_ok q : Prop := forall i o os, threads q !! i = Some (MkThread TimedOut (o :: os)) -> timed o = true.

Lemma timed_ok_step q e q' : timed_ok q -> estep q e q' -> timed_ok q'.
Proof.
  intros H Hs k o' os' Hk. destruct Hs as [i ph o os c Hi _ _|i ph o os ts c r Hi _ _|i c o os Hi Ht|i c os Hi]; cbn in Hk;
    apply list_lookup_insert_Some in Hk as [(<- & [=] & _)|[Hne Hk]]; subst; try done; try (by eapply H).
  destruct c as [c|]; cbn in Hk; [|by eapply H]. rewrite list_lookup_fmap in Hk. destruct (threads q !! k) as [[ph' os'']|] eqn:Ek; [|done].
  cbn in Hk. unfold awake in Hk. cbn in Hk. destruct ph' as [|d| |]; try done; [destruct (same_cv c d); done|]. injection Hk as ->. by eapply H.
Qed.

Lemma timed_out_returns cap ts o c : section cap ts TimedOut o = Wait c -> timed o = false.
Proof. unfold section. cbv zeta. destruct (_ <? _)%nat, o; try destruct ts; cbn; done. Qed.

Lemma queue_weight_step q e q' : timed_ok q -> estep q e q' -> (queue_weight q' + 1 <= queue_weight q + (if is_spurious e then 2 else 0))%nat.
Proof.
  intros Hto Hs. unfold queue_weight.
  destruct Hs as [i ph o os c Hi Hb Hse|i ph o os ts c r Hi Hb Hse|i c o os Hi _|i c os Hi]; cbn [threads set_thread is_spurious];
    rewrite ?length_insert, ?notify_length.
  - pose proof (sum_insert (thread_weight (length (threads q))) i (MkThread (Blocked c) (o :: os)) _ _ Hi) as E.
    unfold thread_weight at 2 4 in E. cbn [program phase_ phase_weight] in E. destruct ph; cbn [phase_weight blocked] in *; try done; try lia.
    apply timed_out_returns in Hse. rewrite (Hto _ _ _ Hi) in Hse. done.
  - destruct (notify_program c _ _ _ Hi) as ([ph' os'] & Ht & Ep). cbn in Ep. subst os'.
    pose proof (sum_insert (thread_weight (length (threads q))) i (MkThread Entering os) _ _ Ht) as E.
    pose proof (notify_weight (length (threads q)) c (threads q)) as Hw.
    unfold thread_weight at 2 4 in E. cbn [program phase_ phase_weight length] in E. rewrite Nat.mul_succ_r in E.
    assert (1 <= phase_weight ph')%nat by (destruct ph'; cbn; lia). lia.
  - pose proof (sum_insert (thread_weight (length (threads q))) i (MkThread TimedOut (o :: os)) _ _ Hi) as E.
    unfold thread_weight at 2 4 in E. cbn [program phase_ phase_weight] in E. lia.
  - pose proof (sum_insert (thread_weight (length (threads q))) i (MkThread Notified os) _ _ Hi) as E.
    unfold thread_weight at 2 4 in E. cbn [program phase_ phase_weight] in E. lia.
Qed.

(** * Reachable states *)

Lemma seq_step_bound cap ts (o : op T) r ts' :
  seq_step cap ts o r ts' -> (length ts <= cap)%nat -> (forall t, o <> ForceEnqueue t) -> (length ts' <= cap)%nat.
Proof. intros H Hl Hf. destruct H; cbn in *; rewrite ?length_app; cbn; try lia. by destruct (Hf t). Qed.

Lemma new_queue_weight cap (ps : list (list (op T))) :
  queue_weight (new_queue cap ps) = ((length ps + 3) * sum_list_with length ps + 3 * length ps)%nat.
Proof.
  unfold queue_weight, new_queue. cbn [threads]. rewrite length_fmap.
  enough (forall n, sum_list_with (thread_weight n) (MkThread Entering <$> ps) = (n + 3) * sum_list_with length ps + 3 * length ps)%nat as -> by done.
  intros n. induction ps as [|p ps IH]; [cbn; lia|]. cbn in *. unfold thread_weight at 1. cbn. nia.
Qed.

Lemma reaches_inv cap ps es q :
  reaches (new_queue cap ps) es q ->
  capacity_ q = cap /\ replays cap (history q) (tasks q) /\ in_order ps q /\ length (threads q) = length ps /\ timed_ok q /\
  (length es + queue_weight q <= queue_weight (new_queue cap ps) + 2 * length (filter (fun e => is_spurious e = true) es))%nat.
Proof.
  intros Hr. remember (new_queue cap ps) as q0 eqn:E0. induction Hr as [q|q es q1 e q2 Hr IH Hx]; subst.
  - split; [done|]. split; [constructor|]. split.
    { intros i p Hp. cbn. rewrite list_lookup_fmap, Hp. eexists. split; [done|]. done. }
    split; [cbn; apply length_fmap|]. split; [|cbn; lia]. intros i o os Hi. cbn in Hi. rewrite list_lookup_fmap in Hi. by destruct (ps !! i).
  - destruct (IH eq_refl) as (Hc & Hre & Ho & Hn & Ht & Hw). apply exec_estep in Hx.
    split; [by destruct Hx|]. split.
    { destruct Hx; cbn; try done. eapply replays_snoc; [done|]. rewrite Hc in *. by eapply section_seq. }
    split; [by eapply in_order_step|]. split; [destruct Hx; cbn; rewrite length_insert, ?notify_length; done|].
    split; [by eapply timed_ok_step|]. pose proof (queue_weight_step _ _ _ Ht Hx).
    rewrite list.filter_app, !length_app, list.filter_cons, list.filter_nil.
    case_decide as Hsp; [rewrite Hsp in *|apply not_true_is_false in Hsp; rewrite Hsp in *]; cbn [length]; lia.
Qed.

Lemma blocked_ok_reaches cap ps es q :
  Forall (Forall (fun o => clears o = false)) ps -> reaches (new_queue cap ps) es q -> blocked_ok q.
Proof.
  intros Hps Hr. enough (all_ops q (fun o => clears o = false) /\ blocked_ok q) by tauto.
  remember (new_queue cap ps) as q0 eqn:E0. induction Hr as [q|q es q1 e q2 Hr IH Hx]; subst.
  - split.
    + unfold all_ops. cbn. apply list.Forall_fmap. eapply list.Forall_impl; [exact Hps|]. done.
    + intros i c os Hi. cbn in Hi. rewrite list_lookup_fmap in Hi. by destruct (ps !! i).
  - destruct (IH eq_refl) as [Ha Hb]. apply exec_estep in Hx. split; [by eapply all_ops_step|by eapply blocked_ok_step].
Qed.

(** Induction over an execution, for programs whose operations satisfy [P]. *)
Lemma reaches_ind_ops cap ps es q (P : op T -> Prop) (I : bqueue T -> Prop) :
  Forall (Forall P) ps -> reaches (new_queue cap ps) es q -> I (new_queue cap ps) ->
  (forall q e q', all_ops q P -> I q -> estep q e q' -> I q') -> all_ops q P /\ I q.
Proof.
  intros Hps Hr H0 Hstep. remember (new_queue cap ps) as q0 eqn:E0. induction Hr as [q|q es q1 e q2 Hr IH Hx]; subst.
  - split; [|done]. unfold all_ops. cbn. apply list.Forall_fmap. eapply list.Forall_impl; [exact Hps|]. done.
  - destruct (IH eq_refl H0) as [Ha Hb]. apply exec_estep in Hx. split; [by eapply all_ops_step|by eapply Hstep].
Qed.

Lemma all_ops_head q P i ph o os : all_ops q P -> threads q !! i = Some (MkThread ph (o :: os)) -> P o.
Proof.
  unfold all_ops. rewrite list.Forall_forall. intros H Hi. pose proof (H _ (list_elem_of_lookup_2 _ _ _ Hi)) as Ho. cbn in Ho. by inversion Ho.
Qed.

Definition forced (o : op T) : bool := match o with ForceEnqueue _ => true | _ => false end.

Lemma bounded cap ps es q :
  Forall (Forall (fun o => forced o = false)) ps -> reaches (new_queue cap ps) es q -> (length (tasks q) <= cap)%nat.
Proof.
  intros Hps Hr. assert (Hc : capacity_ q = cap) by apply (reaches_inv _ _ _ _ Hr). rewrite <- Hc.
  eapply (reaches_ind_ops cap ps es q _ (fun q => (length (tasks q) <= capacity_ q)%nat) Hps Hr); [cbn; lia|].
  intros q1 e q2 Ha Hl Hs. destruct Hs as [|i ph o os ts c r Hi Hb Hse| |]; cbn; try done.
  eapply seq_step_bound; [by eapply section_seq|done|]. intros t ->. pose proof (all_ops_head _ _ _ _ _ _ Ha Hi). done.
Qed.

(** ** Counting *)

Definition total (f : op T -> nat) q : nat :=
  sum_list_with (fun t => sum_list_with f (program t)) (threads q) + sum_list_with (fun x => f x.1.2) (history q).

Lemma total_notify f c (ths : list (thread T)) :
  sum_list_with (fun t => sum_list_with f (program t)) (notify c ths) = sum_list_with (fun t => sum_list_with f (program t)) ths.
Proof.
  destruct c as [c|]; [|done]. cbn. induction ths as [|t ths IH]; [done|]. cbn. rewrite IH. f_equal.
  destruct t as [[|d| |] os]; try done. unfold awake. cbn. by destruct (same_cv c d).
Qed.

Lemma total_step f q e q' : estep q e q' -> total f q' = total f q.
Proof.
  intros Hs. unfold total. set (g := fun t : thread T => sum_list_with f (program t)).
  destruct Hs as [i ph o os c Hi _ _|i ph o os ts c r Hi _ _|i c o os Hi _|i c os Hi]; cbn [threads set_thread history].
  - pose proof (sum_insert g i (MkThread (Blocked c) (o :: os)) _ _ Hi) as E. unfold g at 2 4 in E. cbn in E. lia.
  - destruct (notify_program c _ _ _ Hi) as ([ph' os'] & Ht & Ep). cbn in Ep. subst os'. pose proof (sum_insert g i (MkThread Entering os) _ _ Ht) as E.
    unfold g at 2 4 in E. cbn [program sum_list_with] in E. rewrite (total_notify f c (threads q) : sum_list_with g _ = _) in E. fold g in E.
    rewrite sum_list_with_app. cbn. lia.
  - pose proof (sum_insert g i (MkThread TimedOut (o :: os)) _ _ Hi) as E. unfold g at 2 4 in E. cbn in E. lia.
  - pose proof (sum_insert g i (MkThread Notified os) _ _ Hi) as E. unfold g at 2 4 in E. cbn in E. lia.
Qed.

Definition enqs (o : op T) : nat := match o with Enqueue _ | EnqueueFront _ => 1 | _ => 0 end.
Definition deqs (o : op T) : nat := match o with Dequeue => 1 | _ => 0 end.
Definition blocking (o : op T) : Prop := match o with Enqueue _ | EnqueueFront _ | Dequeue => True | _ => False end.

Lemma balance cap ps es q :
  Forall (Forall blocking) ps -> reaches (new_queue cap ps) es q ->
  all_ops q blocking /\ total enqs q = sum_list_with (sum_list_with enqs) ps /\ total deqs q = sum_list_with (sum_list_with deqs) ps /\
  sum_list_with (fun x => enqs x.1.2) (history q) = (sum_list_with (fun x => deqs x.1.2) (history q) + length (tasks q))%nat.
Proof.
  intros Hps Hr. eapply (reaches_ind_ops cap ps es q _ (fun q => total enqs q = _ /\ total deqs q = _ /\ _) Hps Hr).
  - unfold total. cbn. rewrite !Nat.add_0_r. repeat split; clear; induction ps; cbn in *; congruence.
  - intros q1 e q2 Ha (H1 & H2 & H3) Hs. rewrite !(total_step _ _ _ _ Hs). split; [done|]. split; [done|].
    destruct Hs as [|i ph o os ts c r Hi Hb Hse| |]; cbn [history tasks set_thread]; try done.
    pose proof (all_ops_head _ _ _ _ _ _ Ha Hi) as Hbl. apply section_seq in Hse. rewrite !sum_list_with_app. cbn.
    destruct Hse; cbn in *; rewrite ?length_app; cbn; try done; lia.
Qed.

(** * Properties *)

(** C30: in every interleaving the completed operations of a BlockingQueue, in the order
    of their critical sections, are a run of the sequential bounded queue with the same
    results; every thread completes its operations in program order, and without
    ForceEnqueue the capacity is never exceeded. *)
Theorem blocking_queue_linearizable cap ps es q :
  reaches (new_queue cap ps) es q ->
  replays cap (history q) (tasks q) /\
  (forall i p, ps !! i = Some p -> exists t, threads q !! i = Some t /\ ops_of i (history q) ++ program t = p) /\
  (Forall (Forall (fun o => forced o = false)) ps -> (length (tasks q) <= cap)%nat).
Proof.
  intros Hr. destruct (reaches_inv _ _ _ _ Hr) as (_ & Hre & Ho & _). split; [done|]. split; [exact Ho|]. intros Hf. by eapply bounded.
Qed.

(** In a state without further events every unfinished thread is blocked, all of
    them for the same reason. *)
Lemma stuck_queue cap q :
  (0 < cap)%nat -> capacity_ q = cap -> blocked_ok q -> timed_ok q ->
  (forall e, is_spurious e = false -> exec_event e q = None) ->
  forall i ph o os, threads q !! i = Some (MkThread ph (o :: os)) ->
    (o = Dequeue /\ tasks q = []) \/ ((exists t, o = Enqueue t \/ o = EnqueueFront t) /\ (cap <= length (tasks q))%nat).
Proof.
  intros Hcap Hc Hb Hto Hst i ph o os Hi. pose proof (Hst (Go i) eq_refl) as Hg. pose proof (Hst (Timeout i) eq_refl) as Ht.
  cbn in Hg, Ht. rewrite Hi in Hg, Ht. destruct ph as [|c| |]; try (by destruct (section _ _ _ _)).
  destruct (Hb _ _ _ Hi) as (Hh & o' & os' & [= <- <-] & Hw). destruct (timed o) eqn:E; [done|].
  destruct o, c; cbn in *; try done; rewrite <- ?Hc; eauto.
Qed.

(** What remains when nothing can happen. *)
Definition finished_all q : Prop := Forall (fun t => program t = []) (threads q).
Definition starved q : Prop := tasks q = [] /\ Forall (fun t => program t = [] \/ exists os, program t = Dequeue :: os) (threads q).
Definition full_up (cap : nat) q : Prop :=
  (cap <= length (tasks q))%nat /\
  Forall (fun t => program t = [] \/ exists x os, program t = Enqueue x :: os \/ program t = EnqueueFront x :: os) (threads q).

Lemma stuck_cases cap q :
  (0 < cap)%nat -> capacity_ q = cap -> blocked_ok q -> timed_ok q -> (forall e, is_spurious e = false -> exec_event e q = None) ->
  finished_all q \/ starved q \/ full_up cap q.
Proof.
  intros Hcap Hc Hb Ht Hst. pose proof (stuck_queue cap q Hcap Hc Hb Ht Hst) as Hs.
  destruct (forallb (fun t => is_nil (program t)) (threads q)) eqn:Ef.
  { left. apply list.Forall_forall. intros t Hi. rewrite forallb_forall in Ef. apply list_elem_of_In in Hi. specialize (Ef t Hi). by destruct (program t). }
  right. assert (exists i ph o os, threads q !! i = Some (MkThread ph (o :: os))) as (i0 & ph0 & o0 & os0 & Hi0).
  { destruct (existsb (fun t => negb (is_nil (program t))) (threads q)) eqn:E.
    - apply existsb_exists in E as ([ph [|o os]] & Hi & E); [done|]. apply list_elem_of_In, list_elem_of_lookup in Hi as [i Hi]. eauto.
    - assert (forallb (fun t => is_nil (program t)) (threads q) = true); [|congruence]. apply forallb_forall. intros t Hi.
      destruct (is_nil (program t)) eqn:Ei; [done|].
      assert (existsb (fun t => negb (is_nil (program t))) (threads q) = true); [|congruence]. apply existsb_exists. exists t. by rewrite Ei. }
  destruct (Hs _ _ _ _ Hi0) as [[_ E]|[_ E]].
  - left. split; [done|]. apply list.Forall_forall. intros [ph [|o os]] [i Hi]%list_elem_of_lookup; [by left|]. right.
    destruct (Hs _ _ _ _ Hi) as [[-> _]|[_ Hl]]; [eauto|]. rewrite E in Hl. cbn in Hl. lia.
  - right. split; [done|]. apply list.Forall_forall. intros [ph [|o os]] [i Hi]%list_elem_of_lookup; [by left|]. right.
    destruct (Hs _ _ _ _ Hi) as [[_ Hl]|[(x & [-> | ->]) _]]; [rewrite Hl in E; cbn in E; lia|eauto..].
Qed.

(** A producer only enqueues, a consumer only dequeues. *)
Definition producer (p : list (op T)) : Prop := Forall (fun o => enqs o = 1%nat) p.
Definition consumer (p : list (op T)) : Prop := Forall (fun o => o = Dequeue) p.

Lemma producer_deqs p : producer p -> sum_list_with deqs p = 0%nat /\ sum_list_with enqs p = length p.
Proof. induction 1 as [|o p Ho _ [IH1 IH2]]; [done|]. cbn. rewrite IH1, IH2. destruct o; done. Qed.

Lemma consumer_enqs p : consumer p -> sum_list_with enqs p = 0%nat /\ sum_list_with deqs p = length p.
Proof. induction 1 as [|o p -> _ [IH1 IH2]]; [done|]. cbn. by rewrite IH1, IH2. Qed.

Lemma programs_kept ps q t : in_order ps q -> length (threads q) = length ps -> t ∈ threads q -> exists p h, p ∈ ps /\ p = h ++ program t.
Proof.
  intros Ho Hl [i Hi]%list_elem_of_lookup. destruct (lookup_lt_is_Some_2 ps i) as [p Hp]; [apply lookup_lt_Some in Hi; lia|].
  destruct (Ho i p Hp) as (t' & Ht' & E). rewrite Hi in Ht'. injection Ht' as <-. exists p, (ops_of i (history q)). split; [by eapply list_elem_of_lookup_2|done].
Qed.

Lemma sum_zero {A} (f : A -> nat) (l : list A) : sum_list_with f l = 0%nat <-> Forall (fun x => f x = 0%nat) l.
Proof.
  split.
  - induction l as [|x l IH]; [constructor|]. cbn. intros H. constructor; [lia|]. apply IH. lia.
  - induction 1 as [|x l Hx _ IH]; cbn; lia.
Qed.

Lemma balanced_finishes ps q :
  Forall (fun p => producer p \/ consumer p) ps -> in_order ps q -> length (threads q) = length ps ->
  total enqs q = total deqs q ->
  sum_list_with (fun x => enqs x.1.2) (history q) = (sum_list_with (fun x => deqs x.1.2) (history q) + length (tasks q))%nat ->
  (0 < capacity_ q)%nat -> finished_all q \/ starved q \/ full_up (capacity_ q) q -> finished_all q /\ tasks q = [].
Proof.
  intros Hps Ho Hl Htot Hbal Hcap Hcases. unfold total in Htot.
  assert (Hpure : forall t, t ∈ threads q -> producer (program t) \/ consumer (program t)).
  { intros t Ht. destruct (programs_kept _ _ _ Ho Hl Ht) as (p & h & Hp & ->). rewrite list.Forall_forall in Hps.
    destruct (Hps _ Hp) as [H|H]; apply list.Forall_app in H as [_ H]; [by left|by right]. }
  assert (Hfin : forall f, finished_all q -> sum_list_with (fun t : thread T => sum_list_with f (program t)) (threads q) = 0%nat).
  { intros f Hf. apply sum_zero. eapply list.Forall_impl; [exact Hf|]. cbn. by intros t ->. }
  destruct Hcases as [Hf|[[Et Hs]|[Hful Hs]]].
  - split; [done|]. rewrite !Hfin in Htot by done. destruct (tasks q); [done|]. cbn in Hbal. lia.
  - split; [|done]. rewrite list.Forall_forall in Hs.
    assert (E0 : sum_list_with (fun t : thread T => sum_list_with enqs (program t)) (threads q) = 0%nat).
    { apply sum_zero, list.Forall_forall. intros t Ht. destruct (Hs t Ht) as [->|[os E]]; [done|]. destruct (Hpure t Ht) as [H|H]; [|by apply consumer_enqs].
      rewrite E in H. inversion H. done. }
    rewrite Et in Hbal. cbn in Hbal. assert (E1 : sum_list_with (fun t : thread T => sum_list_with deqs (program t)) (threads q) = 0%nat) by lia.
    apply sum_zero in E1. rewrite list.Forall_forall in E1. apply list.Forall_forall. intros t Ht. destruct (Hs t Ht) as [->|[os E]]; [done|].
    specialize (E1 t Ht). rewrite E in E1. done.
  - exfalso. rewrite list.Forall_forall in Hs.
    assert (E0 : sum_list_with (fun t : thread T => sum_list_with deqs (program t)) (threads q) = 0%nat).
    { apply sum_zero, list.Forall_forall. intros t Ht. destruct (Hs t Ht) as [->|(x & os & E)]; [done|]. destruct (Hpure t Ht) as [H|H]; [by apply producer_deqs|].
      destruct E as [E|E]; rewrite E in H; inversion H; done. }
    lia.
Qed.

(** C31: without Clear and with positive capacity every execution is finite up to
    spurious wake-ups, and when no thread can go on either all threads are done, or the
    queue is empty and all others wait in Dequeue, or it is full and all others wait to
    enqueue; producers and consumers with equal numbers of tasks always finish. *)
Theorem blocking_queue_progress cap ps es q :
  (0 < cap)%nat -> Forall (Forall (fun o => clears o = false)) ps -> reaches (new_queue cap ps) es q ->
  (length es <= (length ps + 3) * sum_list_with length ps + 3 * length ps + 2 * length (filter (fun e => is_spurious e = true) es))%nat /\
  ((forall e, is_spurious e = false -> exec_event e q = None) ->
    (finished_all q \/ starved q \/ full_up cap q) /\
    (Forall (fun p => producer p \/ consumer p) ps -> sum_list_with (sum_list_with enqs) ps = sum_list_with (sum_list_with deqs) ps ->
     finished_all q /\ tasks q = [])).
Proof.
  intros Hcap Hps Hr. destruct (reaches_inv _ _ _ _ Hr) as (Hc & _ & Ho & Hl & Ht & Hw). rewrite new_queue_weight in Hw.
  split; [lia|]. intros Hst. pose proof (stuck_cases cap q Hcap Hc (blocked_ok_reaches _ _ _ _ Hps Hr) Ht Hst) as Hcases. split; [done|].
  intros Hpure Heq. destruct (balance cap ps es q) as (_ & E1 & E2 & Hbal); [|done|].
  { eapply list.Forall_impl; [exact Hpure|]. cbn. intros p [H|H]; (eapply list.Forall_impl; [exact H|]); cbn; [by intros []|by intros ? ->]. }
  eapply balanced_finishes; try done; [congruence|by rewrite Hc|by rewrite Hc].
Qed.
End Spec.

(** Two producers and a consumer on a queue of capacity 1. *)
Definition sample_programs : list (list (op Z)) := [[Enqueue 5]; [Enqueue 6]; [Dequeue; Dequeue]].
Definition sample_events : list event := [Go 0; Go 1; Go 2; Go 1; Go 2].
Definition sample_final : bqueue Z :=
  MkQueue 1 [] [MkThread Entering []; MkThread Entering []; MkThread Entering []]
    [(0%nat, Enqueue 5, RVoid); (2%nat, Dequeue, RTask 5); (1%nat, Enqueue 6, RVoid); (2%nat, Dequeue, RTask 6)].

Lemma sample_reaches : reaches (new_queue 1 sample_programs) sample_events sample_final.
Proof. eapply (run_events_reaches sample_events []); [constructor|reflexivity]. Qed.

Lemma blocking_queue_linearizable_witness : replays 1 (history sample_final) (tasks sample_final) /\ (length (tasks sample_final) <= 1)%nat.
Proof.
  destruct (blocking_queue_linearizable 1 sample_programs sample_events sample_final sample_reaches) as (H1 & _ & H2).
  split; [exact H1|]. apply H2. repeat constructor.
Defined.

Lemma blocking_queue_progress_witness : finished_all sample_final /\ tasks sample_final = [].
Proof.
  destruct (blocking_queue_progress 1 sample_programs sample_events sample_final) as (_ & H); [lia|repeat constructor|exact sample_reaches|].
  destruct H as [_ H].
  - intros [[|[|[|i]]]|[|[|[|i]]]|i] He; try reflexivity; discriminate He.
  - apply H; [|reflexivity]. repeat (constructor; [try (left; repeat constructor; fail); right; repeat constructor|]). constructor.
Defined.
