(* ===== verification/Graph.v ===== *)
(** The adjacency lists of cpp/algorithm/lib/graph/graph.h, and walks in them:
    cost, splitting, and the removal of cycles that bounds the number of edges of
    a shortest walk.  The algorithms of the next files are proved against these
    notions. *)

From S2P Require Import Prelude.

(** [std::vector<std::vector<std::pair<int32_t, int32_t>>>]: successor and weight. *)
Definition Graph : Type := list (list (Z * Z)).

(** One entry [u, v, w] or [u, v] of the constructor's argument, nodes from 1. *)
Definition add_entry (g : Graph) (v : list Z) : outcome Graph :=
  w ← (if 2 <? zlen v then vget v 2 else Ok 0);
  u ← vget v 0;
  t ← vget v 1;
  l ← vget g (u - 1);
  vset g (u - 1) (l ++ [(t - 1, w)]).

Fixpoint add_entries (vec : list (list Z)) (g : Graph) : outcome Graph :=
  match vec with [] => Ok g | v :: vec => g ← add_entry g v; add_entries vec g end.

Definition new_graph (vec : list (list Z)) (n : Z) : outcome Graph := add_entries vec (zreplicate n []).

(** [INT32_MAX] marks a node that was not reached. *)
Definition INF : Z := int_max.

(** * Edges and walks *)

Definition edge (g : Graph) (u v w : Z) : Prop := exists l, zget g u = Some l /\ (v, w) ∈ l.

(** All successors are nodes and weights are at most [W] in absolute value. *)
Definition wf_graph (g : Graph) (W : Z) : Prop := forall u v w, edge g u v w -> 0 <= v < zlen g /\ - W <= w <= W.

(** A walk from [u] to [v], as the list of its steps (successor, weight). *)
Fixpoint walk (g : Graph) (u : Z) (es : list (Z * Z)) (v : Z) : Prop :=
  match es with
  | [] => v = u
  | (x, w) :: es => edge g u x w /\ walk g x es v
  end.

Fixpoint cost (es : list (Z * Z)) : Z := match es with [] => 0 | e :: es => e.2 + cost es end.

Definition reachable (g : Graph) (u v : Z) : Prop := exists es, walk g u es v.

(** A cycle of negative cost on the way from [s]. *)
Definition neg_cycle (g : Graph) (s : Z) : Prop := exists u es, reachable g s u /\ walk g u es u /\ cost es < 0.

(** [d] is the cost of a shortest walk. *)
Definition shortest (g : Graph) (u v d : Z) : Prop :=
  (exists es, walk g u es v /\ cost es = d) /\ forall es, walk g u es v -> d <= cost es.

Lemma edge_node g u v w : edge g u v w -> 0 <= u < zlen g.
Proof. intros (l & H & _). by eapply zget_bounds. Qed.

Lemma cost_app e1 e2 : cost (e1 ++ e2) = cost e1 + cost e2.
Proof. induction e1 as [|e e1 IH]; cbn; lia. Qed.

Lemma walk_app g u e1 e2 v : walk g u (e1 ++ e2) v <-> exists x, walk g u e1 x /\ walk g x e2 v.
Proof.
  revert u. induction e1 as [|[y w] e1 IH]; intros u; cbn.
  - split; [intros H; by exists u|intros (x & -> & H); done].
  - rewrite IH. split; [intros (He & x & H1 & H2); by exists x|intros (x & (He & H1) & H2); split; [done|by exists x]].
Qed.

Lemma walk_snoc g u es x v w : walk g u es x -> edge g x v w -> walk g u (es ++ [(v, w)]) v.
Proof. intros H He. apply walk_app. exists x. split; [done|]. cbn. done. Qed.

Lemma cost_snoc es v w : cost (es ++ [(v, w)]) = cost es + w.
Proof. rewrite cost_app. cbn. lia. Qed.

(** The end of a walk is determined by its steps. *)
Definition target (u : Z) (es : list (Z * Z)) : Z := List.last (u :: (fst <$> es)) u.

Lemma walk_target g u es v : walk g u es v -> v = target u es.
Proof.
  revert u. induction es as [|[x w] es IH]; intros u; cbn; [done|]. intros [_ H]. rewrite (IH _ H). unfold target. cbn.
  destruct (fst <$> es) as [|y l]; [done|]. cbn. clear. revert y. induction l as [|z l IHl]; intros y; [done|]. cbn in *. apply IHl.
Qed.

Lemma walk_node g W u es v : wf_graph g W -> 0 <= u < zlen g -> walk g u es v -> 0 <= v < zlen g.
Proof.
  intros Hg. revert u. induction es as [|[x w] es IH]; intros u Hu; cbn; [by intros ->|]. intros [He H]. eapply IH; [|exact H]. by eapply Hg.
Qed.

Lemma walk_cost_bound g W u es v : wf_graph g W -> walk g u es v -> - (W * zlen es) <= cost es <= W * zlen es.
Proof.
  intros Hg. revert u. induction es as [|[x w] es IH]; intros u; [intros _; unfold zlen; cbn; lia|]. intros [He H]. specialize (IH _ H). apply Hg in He as [_ He].
  rewrite zlen_cons. cbn. lia.
Qed.

Lemma zlen_snoc {A} (l : list A) x : zlen (l ++ [x]) = zlen l + 1.
Proof. by rewrite zlen_app. Qed.

(** * Removing cycles *)

Lemma dup_split {A} `{EqDecision A} (l : list A) : ~ NoDup l -> exists l1 x l2 l3, l = l1 ++ x :: l2 ++ x :: l3.
Proof.
  induction l as [|x l IH]; intros H; [destruct H; constructor|]. destruct (decide (x ∈ l)) as [Hx|Hx].
  - apply list_elem_of_split in Hx as (l2 & l3 & ->). by exists [], x, l2, l3.
  - destruct IH as (l1 & y & l2 & l3 & ->); [|by exists (x :: l1), y, l2, l3]. intros Hn. apply H. by constructor.
Qed.

(** A list of steps that visits a node twice, split at the two visits. *)
Lemma visits_split u (es : list (Z * Z)) l1 x l2 l3 :
  u :: (fst <$> es) = l1 ++ x :: l2 ++ x :: l3 ->
  exists e1 e2 e3, es = e1 ++ e2 ++ e3 /\ e2 <> [] /\ target u e1 = x /\ target x e2 = x.
Proof.
  revert u l1. induction es as [|[y w] es IH]; intros u l1 H.
  - exfalso. apply (f_equal length) in H. cbn in H. rewrite length_app in H. cbn in H. rewrite length_app in H. cbn in H. lia.
  - destruct l1 as [|z l1]; cbn in H; injection H as -> H.
    + exists []. change (y :: (fst <$> es)) with (fst <$> ((y, w) :: es)) in H.
      apply fmap_app_inv in H as (e2 & e3 & E2 & E3 & Ees). destruct e3 as [|[x' w'] e3]; [done|]. cbn in E3. injection E3 as <- E3.
      exists (e2 ++ [(x, w')]), e3. split; [cbn; by rewrite <- app_assoc|]. split; [destruct e2; discriminate|]. split; [done|].
      unfold target. rewrite fmap_app, app_comm_cons. apply List.last_last.
    + destruct (IH y l1) as (e1 & e2 & e3 & -> & Hne & T1 & T2); [exact H|]. exists ((y, w) :: e1), e2, e3. split; [done|]. split; [done|]. split; [|done].
      rewrite <- T1. unfold target. cbn. destruct (fst <$> e1) as [|a l]; [done|]. cbn. clear. revert a. induction l as [|b l IHl]; intros a; [done|]. cbn in *. apply IHl.
Qed.

Lemma walk_cycle g W u es v :
  wf_graph g W -> 0 <= u < zlen g -> walk g u es v -> zlen g <= zlen es ->
  exists e1 e2 e3 x, es = e1 ++ e2 ++ e3 /\ e2 <> [] /\ walk g u e1 x /\ walk g x e2 x /\ walk g x e3 v.
Proof.
  intros Hg Hu Hw Hlen. assert (Hd : ~ NoDup (u :: (fst <$> es))).
  { intros Hn. assert (Hsub : u :: (fst <$> es) ⊆+ seqZ 0 (zlen g)).
    { apply NoDup_submseteq; [done|]. intros y Hy. apply elem_of_seqZ. enough (0 <= y < zlen g) by lia. clear -Hg Hu Hw Hy.
      revert u Hu Hw Hy. induction es as [|[x w] es IH]; intros u Hu Hw Hy; cbn in *.
      - apply list_elem_of_singleton in Hy. by subst.
      - apply elem_of_cons in Hy as [->|Hy]; [done|]. destruct Hw as [He Hw]. apply (IH x); [by eapply Hg|done|done]. }
    apply submseteq_length in Hsub. cbn in Hsub. rewrite length_fmap, length_seqZ in Hsub. unfold zlen in *. lia. }
  apply dup_split in Hd as (l1 & x & l2 & l3 & E). apply visits_split in E as (e1 & e2 & e3 & -> & Hne & T1 & T2).
  apply walk_app in Hw as (y & Hw1 & Hw). apply walk_app in Hw as (z & Hw2 & Hw3).
  pose proof (walk_target _ _ _ _ Hw1) as Ey. rewrite T1 in Ey. subst y. pose proof (walk_target _ _ _ _ Hw2) as Ez. rewrite T2 in Ez. subst z.
  exists e1, e2, e3, x. done.
Qed.

(** Every walk has one with fewer edges than nodes between the same ends; it costs
    no more unless there is a negative cycle. *)
Lemma walk_shorten g W s es v :
  wf_graph g W -> 0 <= s < zlen g -> walk g s es v ->
  exists es', walk g s es' v /\ zlen es' < zlen g /\ (neg_cycle g s \/ cost es' <= cost es).
Proof.
  intros Hg Hs. remember (length es) as n eqn:En. revert es En. induction n as [n IH] using lt_wf_ind. intros es -> Hw.
  destruct (Z.lt_ge_cases (zlen es) (zlen g)) as [Hlt|Hge]; [exists es; split; [done|]; split; [done|right; lia]|].
  destruct (walk_cycle _ _ _ _ _ Hg Hs Hw Hge) as (e1 & e2 & e3 & x & -> & Hne & H1 & H2 & H3).
  destruct (IH (length (e1 ++ e3))) with (es := e1 ++ e3) as (es' & Hw' & Hl' & Hc'); [|done|apply walk_app; eauto|].
  { rewrite !length_app. destruct e2; [done|]. cbn. lia. }
  exists es'. split; [done|]. split; [done|]. destruct (Z.lt_ge_cases (cost e2) 0) as [Hneg|Hpos].
  - left. exists x, e2. split; [by exists e1|done].
  - destruct Hc' as [|Hc']; [by left|]. right. rewrite !cost_app in *. lia.
Qed.

(** The entry of a vector, for in-range indices. *)
Definition at_ (l : list Z) (i : Z) : Z := default 0 (zget l i).

Lemma vget_at l i : 0 <= i < zlen l -> vget l i = Ok (at_ l i).
Proof. intros Hi. destruct (zget_in_range l i Hi) as [x Hx]. rewrite (vget_some _ _ _ Hx). unfold at_. by rewrite Hx. Qed.

Lemma vset_at {A} (l : list A) i x : 0 <= i < zlen l -> vset l i x = Ok (zset l i x).
Proof. intros Hi. unfold vset. by replace (_ && _) with true by lia. Qed.

Lemma at_zset l i x j : 0 <= i < zlen l -> at_ (zset l i x) j = if j =? i then x else at_ l j.
Proof. intros Hi. unfold at_. destruct (Z.eqb_spec j i) as [->|Hne]; [by rewrite zget_zset_eq|by rewrite zget_zset_ne]. Qed.

Lemma at_replicate n x i : 0 <= i < n -> at_ (zreplicate n x) i = x.
Proof. intros Hi. unfold at_. by rewrite zget_replicate. Qed.

(** Sums of entries. *)
Definition zsum (l : list Z) : Z := foldr Z.add 0 l.

Lemma zsum_cons x l : zsum (x :: l) = x + zsum l.
Proof. reflexivity. Qed.

Lemma zsum_app l k : zsum (l ++ k) = zsum l + zsum k.
Proof. unfold zsum. induction l as [|x l IH]; cbn; lia. Qed.

Lemma zsum_zset l i x : 0 <= i < zlen l -> zsum (zset l i x) = zsum l - at_ l i + x.
Proof.
  intros Hi. destruct (zget_in_range l i Hi) as [y Hy]. unfold at_. rewrite Hy. cbn.
  pose proof (drop_zget l i y Hy) as Ed. rewrite <- (take_drop (Z.to_nat i) l), Ed.
  rewrite (zset_mid (take (Z.to_nat i) l) y x) by (unfold zlen in *; rewrite length_take; lia).
  rewrite !zsum_app. unfold zsum. cbn. lia.
Qed.

Lemma zsum_lower l b : (forall i, 0 <= i < zlen l -> b <= at_ l i) -> zlen l * b <= zsum l.
Proof.
  induction l as [|x l IH]; intros H; [unfold zlen; cbn; lia|]. rewrite zlen_cons. cbn [zsum foldr]. fold (zsum l).
  pose proof (H 0 ltac:(rewrite zlen_cons; pose proof (zlen_nonneg l); lia)) as H0. change (at_ (x :: l) 0) with x in H0. enough (zlen l * b <= zsum l) by lia. apply IH. intros i Hi.
  specialize (H (i + 1) ltac:(rewrite zlen_cons; lia)). unfold at_, zget in *. destruct (Z.ltb_spec (i + 1) 0), (Z.ltb_spec i 0); try lia.
  replace (Z.to_nat (i + 1)) with (S (Z.to_nat i)) in H by lia. exact H.
Qed.
