(* ===== verification/BellmanFord.v ===== *)
(** Bellman-Ford of cpp/algorithm/lib/graph/bellman_ford.h: shortest walks with
    negative weights, and whether a negative cycle is reachable.

    The 64-bit sums cannot overflow for fewer than 2^31 relaxations of 32-bit
    weights, so they are plain integers here. *)

From S2P Require Import Prelude Graph.

Record BellmanFord := MkBF { answer : list Z; graph_ : Graph }.

Definition new_bellman_ford (g : Graph) : BellmanFord := MkBF (zreplicate (zlen g) INF) g.

(** The body of the innermost loop, on [answer] and [flag]. *)
Definition relax (u : Z) (p : Z * Z) (st : list Z * bool) : outcome (list Z * bool) :=
  let '(answer, flag) := st in
  let '(v, w) := p in
  av ← vget answer v;
  au ← vget answer u;
  if au + w <? av then answer ← vset answer v (au + w); Ok (answer, true) else Ok (answer, flag).

(** One round over all nodes. *)
Definition bf_round (g : Graph) (answer : list Z) : outcome (list Z * bool) :=
  for_range 0 (zlen answer) (fun u st =>
    au ← vget st.1 u;
    if au =? INF then Ok st
    else l ← vget g u; for_each l (relax u) st) (answer, false).

(** [operator()]: the rounds, left by [break] when nothing was relaxed. *)
Definition bellman_ford (start_node : Z) (bf : BellmanFord) : outcome (bool * BellmanFord) :=
  answer ← vset (answer bf) start_node 0;
  r ← for_ret 0 (zlen answer) (fun _ (st : list Z * bool) =>
        '(answer, flag) ← bf_round (graph_ bf) st.1;
        if (flag : bool) then Ok (inl (answer, flag)) else Ok (inr (answer, flag))) (answer, false);
  match r with inl (answer, flag) | inr (answer, flag) => Ok (flag, MkBF answer (graph_ bf)) end.

(** A negative edge, and a negative cycle. *)
Example bellman_ford_run :
  (bf ← (g ← new_graph [[1; 2; 4]; [1; 3; 1]; [3; 2; -2]; [4; 1; 7]] 4; Ok (new_bellman_ford g));
   '(b, bf) ← bellman_ford 0 bf; Ok (b, answer bf)) = Ok (false, [0; -1; 1; INF]) /\
  (bf ← (g ← new_graph [[1; 2; 4]; [2; 1; -5]] 2; Ok (new_bellman_ford g));
   '(b, bf) ← bellman_ford 0 bf; Ok b) = Ok true.
Proof. by split. Qed.

Section Proof.
Context (g : Graph) (W s : Z).
Hypothesis Hg : wf_graph g W.
Hypothesis HW : 0 <= W.
Hypothesis Hs : 0 <= s < zlen g.
Hypothesis Hinf : zlen g * W < INF.

(** Every finite entry is the cost of a walk. *)
Definition sound (ans : list Z) : Prop :=
  zlen ans = zlen g /\ forall v, 0 <= v < zlen g -> at_ ans v <= INF /\ (at_ ans v <> INF -> exists es, walk g s es v /\ cost es = at_ ans v).

(** The entries only decrease. *)
Definition below (ans ans0 : list Z) : Prop := forall v, 0 <= v < zlen g -> at_ ans v <= at_ ans0 v.

(** The edge out of [u] does not improve on the entries of [ans0]. *)
Definition covered (ans ans0 : list Z) (u v w : Z) : Prop := at_ ans0 u <> INF -> at_ ans v <= at_ ans0 u + w.

(** During a round that began with [ans0]. *)
Record progress (ans0 ans : list Z) (flag : bool) : Prop := {
  p_sound : sound ans;
  p_below : below ans ans0;
  p_same : flag = false -> ans = ans0;
  p_less : flag = true -> exists v, 0 <= v < zlen g /\ at_ ans v < at_ ans0 v }.

Lemma relax_ok ans0 ans flag u v w :
  progress ans0 ans flag -> edge g u v w -> at_ ans u <> INF ->
  wp (relax u (v, w) (ans, flag)) (fun st => progress ans0 st.1 st.2 /\ below st.1 ans /\ covered st.1 ans0 u v w).
Proof.
  intros [[Hlen Hsound] Hb Hsame Hless] He Hau. pose proof (edge_node _ _ _ _ He) as Hun. destruct (Hg _ _ _ He) as [Hvn _].
  unfold relax. rewrite !vget_at by lia. cbn [mbind outcome_bind]. pose proof (Hb u Hun) as Hbu.
  destruct (Z.ltb_spec (at_ ans u + w) (at_ ans v)) as [Hlt|Hge].
  - rewrite vset_at by lia. cbn [mbind outcome_bind]. apply wp_ret. cbn [fst snd].
    assert (Eat : forall x, at_ (zset ans v (at_ ans u + w)) x = if x =? v then at_ ans u + w else at_ ans x) by (intros x; apply at_zset; lia).
    split; [|split].
    + constructor.
      * split; [by rewrite zlen_zset|]. intros x Hx. rewrite Eat. destruct (Z.eqb_spec x v) as [->|]; [|by apply Hsound].
        destruct (Hsound v Hvn) as [Hvi _]. split; [lia|]. intros _. destruct (proj2 (Hsound u Hun) Hau) as (es & Hw & Hc).
        exists (es ++ [(v, w)]). split; [by eapply walk_snoc|]. rewrite cost_snoc. lia.
      * intros x Hx. rewrite Eat. specialize (Hb x Hx). destruct (Z.eqb_spec x v) as [->|]; lia.
      * done.
      * intros _. exists v. split; [done|]. rewrite Eat, Z.eqb_refl. specialize (Hb v Hvn). lia.
    + intros x Hx. rewrite Eat. destruct (Z.eqb_spec x v) as [->|]; lia.
    + intros _. rewrite Eat, Z.eqb_refl. lia.
  - apply wp_ret. cbn [fst snd]. split; [by constructor|]. split; [by intros x _|]. intros _. lia.
Qed.

Lemma covered_below ans ans' ans0 u v w : edge g u v w -> below ans' ans -> covered ans ans0 u v w -> covered ans' ans0 u v w.
Proof. intros He Hb Hc Hu. specialize (Hc Hu). specialize (Hb v). destruct (Hg _ _ _ He). lia. Qed.

Lemma bf_round_ok ans0 :
  sound ans0 ->
  wp (bf_round g ans0) (fun st => progress ans0 st.1 st.2 /\ forall u v w, edge g u v w -> covered st.1 ans0 u v w).
Proof.
  intros Hs0. pose proof Hs0 as [Hlen0 Hsound0]. unfold bf_round. rewrite Hlen0.
  apply (wp_for_range (fun u0 st => progress ans0 st.1 st.2 /\ forall u v w, u < u0 -> edge g u v w -> covered st.1 ans0 u v w)).
  - lia.
  - cbn. split; [|intros u v w Hu He; pose proof (edge_node _ _ _ _ He); lia]. constructor; [done|by intros x _|done|done].
  - intros u [ans flag] Hu [Hp Hcov]. cbn [fst snd] in *. pose proof Hp as [[Hlen Hsound] Hb _ _]. rewrite vget_at by lia. cbn [mbind outcome_bind].
    destruct (Z.eqb_spec (at_ ans u) INF) as [Ei|Ei].
    + apply wp_ret. split; [done|]. intros u' v w Hu' He. destruct (Z.eq_dec u' u) as [->|]; [|apply Hcov; [lia|done]].
      intros Hne. specialize (Hb u Hu). destruct (Hsound0 u Hu). lia.
    + destruct (zget_in_range g u) as [l Hl]; [lia|]. rewrite (vget_some _ _ _ Hl). cbn [mbind outcome_bind].
      assert (Hedge : forall v w, edge g u v w <-> (v, w) ∈ l).
      { intros v w. split; [|intros; by exists l]. intros (l' & Hl' & Hin). congruence. }
      eapply wp_mono.
      * apply (wp_for_each (fun seen st => progress ans0 st.1 st.2 /\ below st.1 ans /\ forall v w, (v, w) ∈ seen -> covered st.1 ans0 u v w)).
        { cbn. split; [done|]. split; [by intros x _|]. intros v w Hin. by apply elem_of_nil in Hin. }
        intros seen [v w] rest [ans1 flag1] -> (Hp1 & Hb1 & Hc1). cbn [fst snd] in *.
        assert (He : edge g u v w) by (apply Hedge, elem_of_app; right; left).
        eapply wp_mono; [apply (relax_ok ans0); [done|done|]|].
        { specialize (Hb1 u Hu). destruct (Hsound u Hu). lia. }
        intros [ans2 flag2]. cbn. intros (Hp2 & Hb2 & Hc2). split; [done|]. split; [intros x Hx; specialize (Hb1 x Hx); specialize (Hb2 x Hx); lia|].
        intros v' w' [Hin|Hin]%elem_of_app.
        -- eapply covered_below; [|exact Hb2|by apply Hc1]. apply Hedge, elem_of_app. by left.
        -- apply list_elem_of_singleton in Hin. by injection Hin as -> ->.
      * intros [ans1 flag1]. cbn. intros (Hp1 & Hb1 & Hc1). split; [done|]. intros u' v w Hu' He.
        destruct (Z.eq_dec u' u) as [->|]; [by apply Hc1, Hedge|]. eapply covered_below; [done|exact Hb1|]. apply Hcov; [lia|done].
  - intros [ans flag] [Hp Hcov]. cbn in *. split; [done|]. intros u v w He. apply (Hcov u); [|done]. apply edge_node in He. lia.
Qed.

(** ** What the rounds achieve *)

(** The entries are at most the cost of walks with up to [k] edges. *)
Definition bounded_by (k : Z) (ans : list Z) : Prop := forall es v, walk g s es v -> zlen es <= k -> at_ ans v <= cost es.

(** Walks that end with an edge out of [x]. *)
Lemma walk_inv_snoc es v : walk g s es v -> es = [] \/ exists es' x w, es = es' ++ [(v, w)] /\ walk g s es' x /\ edge g x v w.
Proof.
  destruct es as [|[y w] es'] using rev_ind; [by left|]. intros H. right. apply walk_app in H as (x & H1 & He & Hv). cbn in Hv. subst y.
  exists es', x, w. done.
Qed.

Lemma bounded_step k ans0 ans :
  sound ans0 -> bounded_by k ans0 -> 0 <= k < zlen g -> below ans ans0 -> (forall u v w, edge g u v w -> covered ans ans0 u v w) -> bounded_by (k + 1) ans.
Proof.
  intros [_ Hs0] Hb Hk Hbel Hcov es v Hw Hl. pose proof (walk_node _ _ _ _ _ Hg Hs Hw) as Hv.
  destruct (Z.le_gt_cases (zlen es) k) as [Hle|Hgt]; [specialize (Hbel v Hv); specialize (Hb es v Hw Hle); lia|].
  apply walk_inv_snoc in Hw as [->|(es' & x & w & -> & Hw' & He)]; [unfold zlen in Hgt; cbn in Hgt; lia|].
  rewrite cost_snoc. rewrite zlen_snoc in *. pose proof (Hb es' x Hw' ltac:(lia)) as Hx.
  pose proof (walk_cost_bound _ _ _ _ _ Hg Hw') as Hc. assert (Hne : at_ ans0 x <> INF) by nia. specialize (Hcov _ _ _ He Hne). lia.
Qed.

(** No edge out of a reached node improves. *)
Definition relaxed (ans : list Z) : Prop := forall u v w, edge g u v w -> covered ans ans u v w.

Lemma relaxed_bounded ans k : sound ans -> relaxed ans -> at_ ans s <= 0 -> 0 <= k <= zlen g -> bounded_by k ans.
Proof.
  intros Hso Hr H0 [Hk1 Hk2]. revert Hk2. pattern k. apply natlike_ind; [..|done].
  - intros _ es v Hw Hl. destruct es as [|e es]; [cbn in *; by subst|]. rewrite zlen_cons in Hl. pose proof (zlen_nonneg es). lia.
  - intros j Hj IH Hj2. apply (bounded_step j ans ans); [done|apply IH; lia|lia|by intros x _|done].
Qed.

Lemma relaxed_finite ans v : sound ans -> relaxed ans -> at_ ans s <= 0 -> reachable g s v -> at_ ans v < INF.
Proof.
  intros Hso Hr H0 [es Hw]. destruct (walk_shorten _ _ _ _ _ Hg Hs Hw) as (es' & Hw' & Hl & _).
  pose proof (relaxed_bounded ans (zlen g) Hso Hr H0 ltac:(lia) es' v Hw' ltac:(lia)). pose proof (walk_cost_bound _ _ _ _ _ Hg Hw'). nia.
Qed.

Lemma relaxed_walk ans u es v :
  sound ans -> relaxed ans -> at_ ans s <= 0 -> reachable g s u -> walk g u es v -> at_ ans v <= at_ ans u + cost es.
Proof.
  intros Hso Hr H0. revert u. induction es as [|[x w] es IH]; intros u Hu; cbn; [intros ->; lia|]. intros [He Hw].
  assert (Hx : reachable g s x) by (destruct Hu as [e1 He1]; exists (e1 ++ [(x, w)]); by eapply walk_snoc).
  specialize (IH x Hx Hw). pose proof (relaxed_finite ans u Hso Hr H0 Hu). specialize (Hr _ _ _ He ltac:(lia)). lia.
Qed.

(** The results. *)
Definition distances (ans : list Z) : Prop :=
  zlen ans = zlen g /\ forall v, 0 <= v < zlen g -> (reachable g s v -> at_ ans v < INF /\ shortest g s v (at_ ans v)) /\ (~ reachable g s v -> at_ ans v = INF).

Lemma relaxed_distances ans : sound ans -> relaxed ans -> at_ ans s <= 0 -> distances ans /\ ~ neg_cycle g s.
Proof.
  intros Hso Hr H0. pose proof Hso as [Hlen Hsv]. split.
  - split; [done|]. intros v Hv. destruct (Hsv v Hv) as [Hle Hw]. split.
    + intros Hre. pose proof (relaxed_finite ans v Hso Hr H0 Hre) as Hf. split; [done|]. split; [apply Hw; lia|]. intros es Hes.
      pose proof (relaxed_walk ans s es v Hso Hr H0 ltac:(by exists []) Hes). lia.
    + intros Hno. destruct (Z.eq_dec (at_ ans v) INF) as [|Hne]; [done|]. destruct (Hw Hne) as (es & Hes & _). destruct Hno. by exists es.
  - intros (u & es & Hu & Hw & Hneg). pose proof (relaxed_walk ans u es u Hso Hr H0 Hu Hw). lia.
Qed.

(** A round that still improves after [n - 1] rounds has found a negative cycle. *)
Lemma improves_neg_cycle ans0 ans v :
  sound ans0 -> bounded_by (zlen g - 1) ans0 -> sound ans -> 0 <= v < zlen g -> at_ ans v < at_ ans0 v -> neg_cycle g s.
Proof.
  intros [_ H0] Hb [_ H1] Hv Hlt. destruct (H0 v Hv) as [Hi _]. destruct (proj2 (H1 v Hv) ltac:(lia)) as (es & Hw & Hc).
  destruct (walk_shorten _ _ _ _ _ Hg Hs Hw) as (es' & Hw' & Hl & [Hn|Hle]); [done|]. specialize (Hb es' v Hw' ltac:(lia)). lia.
Qed.

Lemma bellman_ford_ok :
  wp (bellman_ford s (new_bellman_ford g)) (fun r =>
    (r.1 = false -> distances (answer r.2) /\ ~ neg_cycle g s) /\ (r.1 = true -> neg_cycle g s)).
Proof.
  unfold bellman_ford. cbn [new_bellman_ford answer graph_]. rewrite vset_at by (rewrite zlen_replicate; lia). cbn [mbind outcome_bind].
  set (ans0 := zset _ s 0). assert (Hl0 : zlen ans0 = zlen g) by (unfold ans0; rewrite zlen_zset, zlen_replicate; lia).
  assert (Eat : forall v, 0 <= v < zlen g -> at_ ans0 v = if v =? s then 0 else INF).
  { intros v Hv. unfold ans0. rewrite at_zset by (rewrite zlen_replicate; lia). destruct (v =? s); [done|]. by apply at_replicate. }
  assert (Hso0 : sound ans0).
  { split; [done|]. intros v Hv. rewrite Eat by done. destruct (Z.eqb_spec v s) as [->|]; [|done]. split; [done|]. intros _. by exists []. }
  apply wp_bind. eapply wp_mono.
  - apply (wp_for_ret (fun i st => sound st.1 /\ at_ st.1 s <= 0 /\ (i = 0 \/ st.2 = true) /\ bounded_by (i `min` (zlen g - 1)) st.1 /\ (i = zlen g -> neg_cycle g s))
      (fun r => match r with inl st | inr st => (st.2 = false -> distances st.1 /\ ~ neg_cycle g s) /\ (st.2 = true -> neg_cycle g s) end)).
    + lia.
    + cbn. split; [done|]. split; [rewrite Eat, Z.eqb_refl by done; lia|]. split; [by left|]. split; [|lia].
      intros es v Hw Hl. destruct es as [|e es]; [cbn in *; subst; rewrite Eat, Z.eqb_refl by done; lia|].
      rewrite zlen_cons in Hl. pose proof (zlen_nonneg es). lia.
    + intros i [ans flag] Hi (Hso & Hz & _ & Hbd & _). cbn [fst snd] in *. apply wp_bind. eapply wp_mono; [by apply bf_round_ok|].
      intros [ans1 flag1]. cbn [fst snd]. intros ([Hso1 Hbel Hsame Hless] & Hcov). destruct flag1; apply wp_ret; cbn [fst snd].
      * split; [done|]. split; [specialize (Hbel s Hs); lia|]. split; [by right|]. split.
        -- destruct (Z.eq_dec i (zlen g - 1)) as [->|].
           ++ rewrite Z.min_r by lia. rewrite Z.min_l in Hbd by lia. intros es v Hw Hl. specialize (Hbd es v Hw Hl).
              specialize (Hbel v (walk_node _ _ _ _ _ Hg Hs Hw)). lia.
           ++ rewrite Z.min_l by lia. apply (bounded_step i ans ans1); try done; [|lia]. by rewrite Z.min_l in Hbd by lia.
        -- intros Ei. destruct (Hless eq_refl) as (v & Hv & Hlt). eapply (improves_neg_cycle ans ans1 v); try done.
           replace (i `min` (zlen g - 1)) with (zlen g - 1) in Hbd by lia. done.
      * split; [|done]. intros _. rewrite (Hsame eq_refl) in *. by apply relaxed_distances.
    + intros [ans flag] (Hso & _ & [H0|Hf] & _ & Hn); [lia|]. cbn in *. split; [congruence|]. intros _. by apply Hn.
  - intros [[ans flag]|[ans flag]] H; by apply wp_ret.
Qed.
End Proof.

(** C32: for weights whose largest absolute value times the number of nodes is below
    INT32_MAX, so that every simple path stays below it, BellmanFord returns true
    exactly when a negative cycle is reachable from the start node; otherwise answer
    holds the length of a shortest walk for each reachable node and INT32_MAX for the
    others. *)
Theorem bellman_ford_correct (g : Graph) (W s : Z) :
  wf_graph g W -> 0 <= W -> 0 <= s < zlen g -> zlen g * W < INF ->
  exists b bf, bellman_ford s (new_bellman_ford g) = Ok (b, bf) /\
    (b = true <-> neg_cycle g s) /\
    (b = false -> zlen (answer bf) = zlen g /\ forall v, 0 <= v < zlen g ->
       (reachable g s v -> shortest g s v (at_ (answer bf) v)) /\ (~ reachable g s v -> at_ (answer bf) v = INF)).
Proof.
  intros Hg HW Hs Hinf. destruct (bellman_ford_ok g W s Hg HW Hs Hinf) as ([b bf] & E & Hf & Ht). exists b, bf. split; [done|]. cbn in *. split.
  - split; [done|]. destruct b; [done|]. intros Hn. by destruct (Hf eq_refl).
  - intros ->. destruct (Hf eq_refl) as [[Hl Hd] _]. split; [done|]. intros v Hv. destruct (Hd v Hv) as [H1 H2]. split; [|done]. intros Hr. by apply H1.
Qed.

Definition sample_graph : Graph := [[(1, 4); (2, 1)]; []; [(1, -2)]; [(0, 7)]].

Lemma sample_graph_wf : wf_graph sample_graph 7.
Proof.
  intros u v w (l & Hl & Hin). pose proof (zget_bounds _ _ _ Hl) as Hu. change (zlen sample_graph) with 4 in *.
  assert (Hc : u = 0 \/ u = 1 \/ u = 2 \/ u = 3) by lia.
  destruct Hc as [->|[->|[->| ->]]]; cbn in Hl; injection Hl as <-; rewrite ?elem_of_cons, elem_of_nil in Hin;
    repeat destruct Hin as [Hin|Hin]; try done; injection Hin as -> ->; lia.
Qed.

Lemma bellman_ford_correct_witness :
  exists b bf, bellman_ford 0 (new_bellman_ford sample_graph) = Ok (b, bf) /\ (b = true <-> neg_cycle sample_graph 0).
Proof.
  destruct (bellman_ford_correct sample_graph 7 0) as (b & bf & E & Hn & _).
  - exact sample_graph_wf.
  - lia.
  - unfold zlen. cbn. lia.
  - reflexivity.
  - exists b, bf. split; [exact E|exact Hn].
Defined.
