(* ===== verification/SPFA.v ===== *)
(** The queue-based Bellman-Ford, class SPFA of
    cpp/algorithm/lib/graph/bellman_ford.h.

    Besides the distances the code keeps the number of edges of the walk that
    gave each distance; a count of [n] reveals a negative cycle.  Every update
    lowers the sum of the distances, which bounds the number of rounds. *)

From S2P Require Import Prelude Graph BellmanFord.

(** Distances, marks, edge counts and the queue inside [operator()]. *)
Record spfa_state := MkSpfa { ans : list Z; visit : list Z; count : list Z; q : list Z }.

Definition spfa_edge (u : Z) (p : Z * Z) (st : spfa_state) : outcome (spfa_state + bool * list Z) :=
  let '(v, w) := p in
  av ← vget (ans st) v;
  au ← vget (ans st) u;
  if au + w <? av then
    answer ← vset (ans st) v (au + w);
    cu ← vget (count st) u;
    cnt ← vset (count st) v (cu + 1);
    if zlen answer <=? cu + 1 then Ok (inr (false, answer))
    else
      m ← vget (visit st) v;
      if m =? 0
      then vis ← vset (visit st) v 1; Ok (inl (MkSpfa answer vis cnt (q st ++ [v])))
      else Ok (inl (MkSpfa answer (visit st) cnt (q st)))
  else Ok (inl st).

Definition spfa_step (g : Graph) (st : spfa_state) : outcome (spfa_state + bool * list Z) :=
  match q st with
  | [] => Ok (inr (true, ans st))
  | u :: rest =>
      vis ← vset (visit st) u 0;
      l ← vget g u;
      for_each_ret l (spfa_edge u) (MkSpfa (ans st) vis (count st) rest)
  end.

Definition spfa (fuel : nat) (start_node : Z) (sp : BellmanFord) : outcome (bool * BellmanFord) :=
  answer ← vset (answer sp) start_node 0;
  vis ← vset (zreplicate (zlen answer) 0) start_node 1;
  '(b, answer) ← while_fuel fuel (spfa_step (graph_ sp)) (MkSpfa answer vis (zreplicate (zlen answer) 0) [start_node]);
  Ok (b, MkBF answer (graph_ sp)).

Example spfa_run :
  (g ← new_graph [[1; 2; 4]; [1; 3; 1]; [3; 2; -2]; [4; 1; 7]] 4; '(b, sp) ← spfa 20 0 (new_bellman_ford g); Ok (b, answer sp))
    = Ok (true, [0; -1; 1; INF]) /\
  (g ← new_graph [[1; 2; 4]; [2; 1; -5]] 2; '(b, _) ← spfa 20 0 (new_bellman_ford g); Ok b) = Ok false.
Proof. by split. Qed.

Section Proof.
Context (g : Graph) (W s : Z).
Hypothesis Hg : wf_graph g W.
Hypothesis HW : 0 <= W.
Hypothesis Hs : 0 <= s < zlen g.
Hypothesis Hinf : zlen g * W < INF.

(** * The walks behind the entries *)

(** A walk whose prefixes are not better than the entries, and on which every
    return to a node has lowered the cost. *)
Record traced (a : list Z) (es : list (Z * Z)) : Prop := {
  t_prefix : forall e1 e2, es = e1 ++ e2 -> at_ a (target s e1) <= cost e1;
  t_cycle : forall e1 e2 e3, es = e1 ++ e2 ++ e3 -> e2 <> [] -> target s e1 = target s (e1 ++ e2) -> cost e2 < 0 }.

Definition entry_ok (a cnt : list Z) (v : Z) : Prop :=
  at_ a v <> INF -> exists es, walk g s es v /\ cost es = at_ a v /\ zlen es = at_ cnt v /\ traced a es.

Lemma target_nil u : target u [] = u.
Proof. done. Qed.

Lemma target_snoc u es v w : target u (es ++ [(v, w)]) = v.
Proof. unfold target. rewrite fmap_app, app_comm_cons. apply List.last_last. Qed.

Lemma traced_lower a a' es : (forall v, at_ a' v <= at_ a v) -> traced a es -> traced a' es.
Proof. intros H [H1 H2]. constructor; [|done]. intros e1 e2 E. specialize (H1 e1 e2 E). specialize (H (target s e1)). lia. Qed.

Lemma traced_snoc a es u v w :
  0 <= v < zlen a -> walk g s es u -> cost es = at_ a u -> traced a es -> at_ a u + w < at_ a v ->
  traced (zset a v (at_ a u + w)) (es ++ [(v, w)]).
Proof.
  intros Hv Hw Hc [H1 H2] Hlt. constructor.
  - intros e1 e2 E. rewrite at_zset by done. destruct e2 as [|e e2] using rev_ind.
    + rewrite app_nil_r in E. subst e1. rewrite target_snoc, Z.eqb_refl, cost_snoc. lia.
    + clear IHe2. rewrite app_assoc in E. apply app_inj_tail in E as [-> <-]. specialize (H1 e1 e2 eq_refl). destruct (Z.eqb_spec (target s e1) v) as [Ev|]; [rewrite Ev in H1|]; lia.
  - intros e1 e2 e3 E Hne Ht. destruct e3 as [|e e3] using rev_ind.
    + rewrite app_nil_r in E. rewrite <- E, target_snoc in Ht. destruct e2 as [|e e2] using rev_ind; [done|]. clear IHe2.
      rewrite app_assoc in E. apply app_inj_tail in E as [-> <-]. specialize (H1 e1 e2 eq_refl). rewrite Ht in H1. rewrite cost_app in Hc. rewrite cost_snoc. lia.
    + clear IHe3. rewrite !app_assoc in E. apply app_inj_tail in E as [-> <-]. apply (H2 e1 e2 e3); [by rewrite app_assoc|done|done].
Qed.

(** A traced walk with as many edges as nodes contains a negative cycle. *)
Lemma traced_neg_cycle a es v : walk g s es v -> traced a es -> zlen g <= zlen es -> neg_cycle g s.
Proof.
  intros Hw [_ H2] Hl. destruct (walk_cycle _ _ _ _ _ Hg Hs Hw Hl) as (e1 & e2 & e3 & x & -> & Hne & Hw1 & Hw2 & Hw3).
  exists x, e2. split; [by exists e1|]. split; [done|]. apply (H2 e1 e2 e3 eq_refl Hne).
  rewrite <- (walk_target g s e1 x Hw1). apply (walk_target g). apply walk_app. by exists x.
Qed.

(** * The invariant of the loops *)

Record marks (st : spfa_state) : Prop := {
  m_ans : zlen (ans st) = zlen g;
  m_visit : zlen (visit st) = zlen g;
  m_count : zlen (count st) = zlen g;
  m_inf : forall v, 0 <= v < zlen g -> at_ (ans st) v <= INF;
  m_entry : forall v, 0 <= v < zlen g -> entry_ok (ans st) (count st) v /\ at_ (count st) v < zlen g;
  m_start : at_ (ans st) s <= 0;
  m_queue : Forall (fun u => 0 <= u < zlen g /\ at_ (ans st) u <> INF) (q st);
  m_visited : forall v, 0 <= v < zlen g -> at_ (visit st) v <> 0 -> v ∈ q st }.

(** The sum of the entries over their least possible value, plus the queue. *)
Definition potential (st : spfa_state) : Z := zsum (ans st) + zlen g * (zlen g * W) + zlen (q st).

(** Edges out of the nodes that are not queued do not improve. *)
Definition quiet (st : spfa_state) (u v w : Z) : Prop := u ∈ q st \/ covered (ans st) (ans st) u v w.

Definition spfa_inv (st : spfa_state) : Prop := marks st /\ forall u v w, edge g u v w -> quiet st u v w.

(** While the edges of [u] are examined: those not yet seen are open. *)
Definition spfa_mid (u : Z) (seen : list (Z * Z)) (st : spfa_state) : Prop :=
  marks st /\ at_ (ans st) u <> INF /\ forall x v w, edge g x v w -> (x = u -> (v, w) ∈ seen) -> quiet st x v w.

(** The entries after an update. *)
Lemma marks_update st u v w vis qs :
  marks st -> edge g u v w -> at_ (ans st) u <> INF -> at_ (ans st) u + w < at_ (ans st) v -> at_ (count st) u + 1 < zlen g ->
  zlen vis = zlen g -> Forall (fun x => 0 <= x < zlen g /\ (x = v \/ x ∈ q st)) qs -> (forall x, 0 <= x < zlen g -> at_ vis x <> 0 -> x ∈ qs) ->
  marks (MkSpfa (zset (ans st) v (at_ (ans st) u + w)) vis (zset (count st) v (at_ (count st) u + 1)) qs).
Proof.
  intros [Ha Hv Hc Hi He H0 Hq Hvis] Hedge Hu Hlt Hcnt Hvl Hqs Hvq. destruct (Hg _ _ _ Hedge) as [Hvn _]. pose proof (edge_node _ _ _ _ Hedge) as Hun.
  assert (Eat : forall x, at_ (zset (ans st) v (at_ (ans st) u + w)) x = if x =? v then at_ (ans st) u + w else at_ (ans st) x) by (intros x; apply at_zset; lia).
  assert (Hlow : forall x, at_ (zset (ans st) v (at_ (ans st) u + w)) x <= at_ (ans st) x) by (intros x; rewrite Eat; destruct (Z.eqb_spec x v) as [->|]; lia).
  constructor; cbn [ans visit count q]; rewrite ?zlen_zset; try done.
  - intros x Hx. specialize (Hi x Hx). specialize (Hlow x). lia.
  - intros x Hx. destruct (He x Hx) as [Hex Hcx]. unfold entry_ok. rewrite Eat, !at_zset by lia. destruct (Z.eqb_spec x v) as [->|].
    + split; [|lia]. intros _. destruct (proj1 (He u Hun) Hu) as (es & Hw & Hco & Hl & Ht). exists (es ++ [(v, w)]).
      split; [by eapply walk_snoc|]. split; [rewrite cost_snoc; lia|]. split; [rewrite zlen_snoc; lia|]. eapply traced_snoc; try done. lia.
    + split; [|done]. intros Hx'. destruct (Hex Hx') as (es & Hw & Hco & Hl & Ht). exists es. split; [done|]. split; [done|]. split; [done|]. by eapply traced_lower.
  - specialize (Hlow s). lia.
  - eapply list.Forall_impl; [exact Hqs|]. cbn. intros x [Hx Hxv]. split; [done|]. rewrite Eat. destruct (Z.eqb_spec x v) as [->|Hne].
    + specialize (Hi v Hvn). lia.
    + destruct Hxv as [?|Hxq]; [done|]. rewrite list.Forall_forall in Hq. by apply Hq.
Qed.

Lemma quiet_update st u v w vis cnt qs x y z :
  zlen (ans st) = zlen g -> 0 <= v < zlen g -> at_ (ans st) u + w < at_ (ans st) v -> v ∈ qs -> (forall x, x ∈ q st -> x ∈ qs) -> edge g x y z ->
  quiet st x y z -> quiet (MkSpfa (zset (ans st) v (at_ (ans st) u + w)) vis cnt qs) x y z.
Proof.
  intros Hl Hv Hlt Hin Hsub He [Hx|Hx]; [left; by apply Hsub|]. destruct (Z.eq_dec x v) as [->|Hne]; [by left|]. right. unfold covered. cbn [ans].
  rewrite !at_zset by lia. destruct (Z.eqb_spec x v) as [|_]; [done|]. intros Hxi. specialize (Hx Hxi). destruct (Z.eqb_spec y v) as [->|]; lia.
Qed.

Lemma spfa_edge_ok u seen v w st :
  spfa_mid u seen st -> edge g u v w ->
  wp (spfa_edge u (v, w) st) (fun r => match r with
    | inl st' => spfa_mid u (seen ++ [(v, w)]) st' /\ potential st' <= potential st
    | inr r => r.1 = false /\ neg_cycle g s end).
Proof.
  intros (Hm & Hu & Hq) He. pose proof Hm as [Ha Hv Hc Hi Hen H0 Hqs Hvis]. destruct (Hg _ _ _ He) as [Hvn Hw]. pose proof (edge_node _ _ _ _ He) as Hun.
  unfold spfa_edge. rewrite !vget_at by lia. cbn [mbind outcome_bind]. destruct (Z.ltb_spec (at_ (ans st) u + w) (at_ (ans st) v)) as [Hlt|Hge].
  2:{ apply wp_ret. split; [|lia]. split; [done|]. split; [done|]. intros x y z Hxe Hx. destruct (decide (x = u /\ y = v /\ z = w)) as [(-> & -> & ->)|Hne].
    - right. intros _. lia.
    - apply Hq; [done|]. intros ->. specialize (Hx eq_refl). apply elem_of_app in Hx as [Hx|Hx]; [done|]. apply list_elem_of_singleton in Hx. injection Hx as -> ->. by destruct Hne. }
  do 3 (rewrite ?vget_at, ?vset_at by lia; cbn [mbind outcome_bind]).
  rewrite zlen_zset, Ha. destruct (Z.leb_spec (zlen g) (at_ (count st) u + 1)) as [Hcy|Hcy].
  { apply wp_ret. split; [done|]. destruct (proj1 (Hen u Hun) Hu) as (es & Hw' & Hco & Hl & Ht).
    eapply (traced_neg_cycle _ (es ++ [(v, w)]) v); [by eapply walk_snoc|eapply (traced_snoc (ans st)); [lia|done|done|done|done]|rewrite zlen_snoc; lia]. }
  rewrite ?vget_at by lia. cbn [mbind outcome_bind].
  assert (Hafter : forall vis qs, zlen vis = zlen g -> (forall x, x ∈ q st -> x ∈ qs) -> v ∈ qs -> Forall (fun x => 0 <= x < zlen g /\ (x = v \/ x ∈ q st)) qs ->
    (forall x, 0 <= x < zlen g -> at_ vis x <> 0 -> x ∈ qs) -> zlen qs <= zlen (q st) + 1 ->
    let st' := MkSpfa (zset (ans st) v (at_ (ans st) u + w)) vis (zset (count st) v (at_ (count st) u + 1)) qs in
    spfa_mid u (seen ++ [(v, w)]) st' /\ potential st' <= potential st).
  { intros vis qs Hvl Hsub Hin Hall Hvq Hlen st'. split; [split|].
    - by apply marks_update.
    - split; [cbn; rewrite at_zset by lia; specialize (Hi v Hvn); destruct (u =? v); lia|].
      intros x y z Hxe Hx. destruct (decide (x = u /\ y = v /\ z = w)) as [(-> & -> & ->)|Hne].
      + destruct (Z.eq_dec u v) as [->|Huv]; [by left|]. right. intros _. cbn [ans st']. rewrite !at_zset, Z.eqb_refl by lia.
        destruct (Z.eqb_spec u v); [done|lia].
      + apply quiet_update; try done. apply Hq; [done|]. intros ->. specialize (Hx eq_refl). apply elem_of_app in Hx as [Hx|Hx]; [done|].
        apply list_elem_of_singleton in Hx. injection Hx as -> ->. by destruct Hne.
    - unfold potential, st'. cbn [ans q]. rewrite zsum_zset by lia. lia. }
  assert (Hold : Forall (fun x => 0 <= x < zlen g /\ (x = v \/ x ∈ q st)) (q st)).
  { apply list.Forall_forall. intros x Hx. rewrite list.Forall_forall in Hqs. split; [by apply Hqs|by right]. }
  destruct (Z.eqb_spec (at_ (visit st) v) 0) as [Hz|Hnz].
  - rewrite ?vset_at by lia. cbn [mbind outcome_bind]. apply wp_ret. apply Hafter.
    + by rewrite zlen_zset.
    + intros x Hx. apply elem_of_app. by left.
    + apply elem_of_app. right. left.
    + apply list.Forall_app. split; [done|]. constructor; [|constructor]. split; [done|by left].
    + intros x Hx Hm'. rewrite at_zset in Hm' by lia. apply elem_of_app. destruct (Z.eqb_spec x v) as [->|]; [right; left|]. left. by apply Hvis.
    + rewrite zlen_snoc. lia.
  - apply wp_ret. apply Hafter; try done; [by apply Hvis|lia].
Qed.

(** All edges of [u]. *)
Lemma spfa_edges_ok u l st :
  zget g u = Some l -> spfa_mid u [] st ->
  wp (for_each_ret l (spfa_edge u) st) (fun r => match r with
    | inl st' => spfa_inv st' /\ potential st' <= potential st
    | inr r => r.1 = false /\ neg_cycle g s end).
Proof.
  intros Hl H0. enough (G : forall l' seen st', l = seen ++ l' -> spfa_mid u seen st' -> potential st' <= potential st ->
    wp (for_each_ret l' (spfa_edge u) st') (fun r => match r with
      | inl st' => spfa_inv st' /\ potential st' <= potential st | inr r => r.1 = false /\ neg_cycle g s end)) by (apply (G l []); [done|done|lia]).
  induction l' as [|[v w] l' IH]; intros seen st' -> Hmid Hp; cbn [for_each_ret].
  - apply wp_ret. rewrite app_nil_r in Hl. split; [|done]. destruct Hmid as (Hm & _ & Hq). split; [done|]. intros x y z He. apply Hq; [done|].
    intros ->. destruct He as (l & Hl' & Hin). congruence.
  - assert (He : edge g u v w) by (exists (seen ++ (v, w) :: l'); split; [done|]; apply elem_of_app; right; left).
    apply wp_bind. eapply wp_mono; [by apply (spfa_edge_ok u seen)|]. intros [st''|r]; [|by intros H; apply wp_ret].
    intros [Hm' Hp']. apply (IH (seen ++ [(v, w)])); [by rewrite <- app_assoc|done|lia].
Qed.

(** Entries are costs of walks with fewer than [n] edges, so the potential stays
    non-negative. *)
Lemma entry_lower st v : marks st -> 0 <= v < zlen g -> - (zlen g * W) <= at_ (ans st) v.
Proof.
  intros Hm Hv. destruct (Z.eq_dec (at_ (ans st) v) INF) as [->|Hne]; [nia|]. destruct (m_entry st Hm v Hv) as [He Hc].
  destruct (He Hne) as (es & Hw & Hco & Hl & _). pose proof (walk_cost_bound _ _ _ _ _ Hg Hw). nia.
Qed.

Lemma potential_nonneg st : marks st -> 0 <= potential st.
Proof.
  intros Hm. unfold potential. pose proof (zlen_nonneg (q st)). pose proof (m_ans st Hm) as Hl.
  pose proof (zsum_lower (ans st) (- (zlen g * W))) as H'. rewrite Hl in H'. specialize (H' ltac:(intros i Hi; by apply entry_lower)). lia.
Qed.

Lemma spfa_step_ok st :
  spfa_inv st ->
  wp (spfa_step g st) (fun r => match r with
    | inl st' => spfa_inv st' /\ potential st' < potential st
    | inr (b, a) => (b = true -> sound g s a /\ relaxed g a /\ at_ a s <= 0) /\ (b = false -> neg_cycle g s) end).
Proof.
  intros [Hm Hq]. pose proof Hm as [Ha Hv Hc Hi Hen H0 Hqs Hvis]. unfold spfa_step. destruct (q st) as [|u rest] eqn:Eq.
  - apply wp_ret. split; [|done]. intros _. split; [|split; [|done]].
    + split; [done|]. intros v Hvn. split; [by apply Hi|]. intros Hne. destruct (proj1 (Hen v Hvn) Hne) as (es & Hw & Hco & _). by exists es.
    + intros u v w He. destruct (Hq u v w He) as [Hin|Hcov]; [|done]. rewrite Eq in Hin. by apply elem_of_nil in Hin.
  - rewrite list.Forall_cons in Hqs. destruct Hqs as [[Hun Hui] Hrest]. rewrite vset_at by lia. cbn [mbind outcome_bind].
    destruct (zget_in_range g u Hun) as [l Hl]. rewrite (vget_some _ _ _ Hl). cbn [mbind outcome_bind]. eapply wp_mono; [apply spfa_edges_ok; [done|]|].
    + split.
      { constructor; cbn [ans visit count q]; rewrite ?zlen_zset; try done. intros v Hvn Hm'. rewrite at_zset in Hm' by lia.
        destruct (Z.eqb_spec v u) as [|Hne]; [done|]. specialize (Hvis v Hvn Hm'). apply elem_of_cons in Hvis as [?|?]; done. }
      split; [done|]. intros x v w He Hx. destruct (Z.eq_dec x u) as [->|Hne]; [specialize (Hx eq_refl); by apply elem_of_nil in Hx|].
      destruct (Hq x v w He) as [Hin|Hcov]; [|by right]. rewrite Eq in Hin. apply elem_of_cons in Hin as [?|?]; [done|by left].
    + intros [st'|[b a]]; cbn.
      * intros [Hinv Hp]. split; [done|]. unfold potential in *. cbn [ans q] in Hp. rewrite Eq, zlen_cons. lia.
      * intros [-> Hneg]. done.
Qed.

Definition spfa_fuel : nat := S (Z.to_nat (zlen g * INF + zlen g * (zlen g * W) + 1)).

Lemma spfa_ok fuel :
  (spfa_fuel <= fuel)%nat ->
  wp (spfa fuel s (new_bellman_ford g)) (fun r =>
    (r.1 = true -> distances g s (answer r.2) /\ ~ neg_cycle g s) /\ (r.1 = false -> neg_cycle g s)).
Proof.
  intros Hf. unfold spfa. cbn [new_bellman_ford answer graph_]. do 3 (rewrite ?vset_at by (rewrite ?zlen_zset, ?zlen_replicate; lia); cbn [mbind outcome_bind]).
  set (a0 := zset _ s 0). assert (Hl0 : zlen a0 = zlen g) by (unfold a0; rewrite zlen_zset, zlen_replicate; lia).
  assert (Eat : forall v, 0 <= v < zlen g -> at_ a0 v = if v =? s then 0 else INF).
  { intros v Hv. unfold a0. rewrite at_zset by (rewrite zlen_replicate; lia). destruct (v =? s); [done|]. by apply at_replicate. }
  rewrite Hl0. set (st0 := MkSpfa _ _ _ _).
  assert (H0 : spfa_inv st0).
  { split; [constructor; cbn [ans visit count q st0]|].
    - done.
    - rewrite zlen_zset, zlen_replicate. lia.
    - rewrite zlen_replicate. lia.
    - intros v Hv. rewrite Eat by done. destruct (v =? s); lia || (unfold INF, int_max; lia).
    - intros v Hv. rewrite at_replicate by lia. split; [|lia]. intros Hne. rewrite Eat in * by done. destruct (Z.eqb_spec v s) as [->|]; [|done].
      exists []. split; [done|]. split; [done|]. rewrite at_replicate by lia. split; [done|]. constructor.
      + intros e1 e2 E. symmetry in E. apply app_nil in E as [-> ->]. rewrite target_nil, Eat, Z.eqb_refl by done. done.
      + intros e1 e2 e3 E Hne'. symmetry in E. apply app_nil in E as [_ E]. apply app_nil in E as [-> _]. done.
    - by rewrite Eat, Z.eqb_refl by done.
    - constructor; [|constructor]. split; [done|]. rewrite Eat, Z.eqb_refl by done. done.
    - intros v Hv. rewrite at_zset by (rewrite zlen_replicate; lia). destruct (Z.eqb_spec v s) as [->|]; [intros _; left|]. rewrite at_replicate by lia. done.
    - intros u v w He. unfold quiet, covered. cbn [ans q st0]. pose proof (edge_node _ _ _ _ He). rewrite (Eat u) by done.
      destruct (Z.eqb_spec u s) as [->|]; [left; left|]. right. done. }
  assert (Hp0 : potential st0 <= zlen g * INF + zlen g * (zlen g * W) + 1).
  { unfold potential. cbn [ans q st0]. unfold a0. rewrite zsum_zset by (rewrite zlen_replicate; lia). rewrite at_replicate by lia.
    change (zlen [s]) with 1. enough (zsum (zreplicate (zlen g) INF) = zlen g * INF) by (unfold INF, int_max in *; lia).
    unfold zreplicate, zlen. rewrite Nat2Z.id. clear. induction (length g) as [|k IH]; [done|]. cbn [replicate zsum foldr]. unfold zsum in IH. lia. }
  apply wp_bind. eapply wp_mono.
  - apply (wp_while spfa_inv (fun st => Z.to_nat (potential st))
      (fun r => (r.1 = true -> sound g s r.2 /\ relaxed g r.2 /\ at_ r.2 s <= 0) /\ (r.1 = false -> neg_cycle g s))); [done|unfold spfa_fuel in Hf; lia|].
    intros st Hst. eapply wp_mono; [by apply spfa_step_ok|]. intros [st'|[b a]]; [|done]. intros [Hst' Hp]. split; [done|].
    pose proof (potential_nonneg st (proj1 Hst)). pose proof (potential_nonneg st' (proj1 Hst')). lia.
  - intros [b a] [Ht Hff]. apply wp_ret. cbn in *. split; [|done]. intros ->. destruct (Ht eq_refl) as (H1 & H2 & H3). by apply (relaxed_distances g W s).
Qed.
End Proof.

(** C33: under the same bound SPFA terminates, also on graphs with negative cycles: it
    returns false exactly when one is reachable, and otherwise the shortest distances;
    the number of rounds is bounded by a potential over the distances and the queue. *)
Theorem spfa_correct (g : Graph) (W s : Z) (fuel : nat) :
  wf_graph g W -> 0 <= W -> 0 <= s < zlen g -> zlen g * W < INF -> (spfa_fuel g W <= fuel)%nat ->
  exists b sp, spfa fuel s (new_bellman_ford g) = Ok (b, sp) /\
    (b = false <-> neg_cycle g s) /\
    (b = true -> zlen (answer sp) = zlen g /\ forall v, 0 <= v < zlen g ->
       (reachable g s v -> shortest g s v (at_ (answer sp) v)) /\ (~ reachable g s v -> at_ (answer sp) v = INF)).
Proof.
  intros Hg HW Hs Hinf Hf. destruct (spfa_ok g W s Hg HW Hs Hinf fuel Hf) as ([b sp] & E & Ht & Hff). exists b, sp. split; [done|]. cbn in *. split.
  - split; [done|]. destruct b; [|done]. intros Hn. by destruct (Ht eq_refl).
  - intros ->. destruct (Ht eq_refl) as [[Hl Hd] _]. split; [done|]. intros v Hv. destruct (Hd v Hv) as [H1 H2]. split; [|done]. intros Hr. by apply H1.
Qed.

Lemma spfa_correct_witness :
  exists b sp, spfa (spfa_fuel sample_graph 7) 0 (new_bellman_ford sample_graph) = Ok (b, sp) /\ (b = false <-> neg_cycle sample_graph 0).
Proof.
  destruct (spfa_correct sample_graph 7 0 (spfa_fuel sample_graph 7)) as (b & sp & E & Hn & _).
  - exact sample_graph_wf.
  - lia.
  - unfold zlen. cbn. lia.
  - reflexivity.
  - apply le_n.
  - exists b, sp. split; [exact E|exact Hn].
Defined.
