(* ===== verification/Dijkstra.v ===== *)
(** Dijkstra's algorithm of cpp/algorithm/lib/graph/dijkstra.h: the quadratic
    [force] and [dijkstra] with a priority queue, for non-negative weights.

    Which of several least entries [std::priority_queue] puts on top is not
    specified, so the choice is a parameter. *)

From S2P Require Import Prelude Graph BellmanFord.

Record Dijkstra := MkDijkstra { d_answer : list Z; visit_ : list Z; d_graph : Graph }.

Definition new_dijkstra (g : Graph) : Dijkstra := MkDijkstra (zreplicate (zlen g) INF) (zreplicate (zlen g) 0) g.

Definition d_reset (d : Dijkstra) : outcome Dijkstra :=
  '(a, v) ← for_range 0 (zlen (d_answer d)) (fun i st => a ← vset st.1 i INF; v ← vset st.2 i 0; Ok (a, v)) (d_answer d, visit_ d);
  Ok (MkDijkstra a v (d_graph d)).

(** The relaxation of one edge. *)
Definition d_relax (u : Z) (p : Z * Z) (ans : list Z) : outcome (list Z) :=
  let '(v, w) := p in
  av ← vget ans v;
  au ← vget ans u;
  if au + w <? av then vset ans v (au + w) else Ok ans.

(** The inner search: the least entry that is not visited, -1 when there is none. *)
Definition select_min (ans visit : list Z) : outcome (Z * Z) :=
  for_range 0 (zlen ans) (fun j st =>
    m ← vget visit j;
    a ← vget ans j;
    Ok (if (m =? 0) && (a <? st.2) then (j, a) else st)) (-1, INF).

Definition force_round (g : Graph) (st : list Z * list Z) : outcome (list Z * list Z) :=
  let '(ans, visit) := st in
  '(u, _) ← select_min ans visit;
  visit ← vset visit u 1;
  l ← vget g u;
  ans ← for_each l (d_relax u) ans;
  Ok (ans, visit).

Definition force (start_node : Z) (d : Dijkstra) : outcome Dijkstra :=
  ans ← vset (d_answer d) start_node 0;
  '(ans, visit) ← for_range 0 (zlen ans) (fun _ st => force_round (d_graph d) st) (ans, visit_ d);
  Ok (MkDijkstra ans visit (d_graph d)).

Section PriorityQueue.
(** The index of [top]. *)
Context (pick : list (Z * Z) -> nat).

(** Entries are pairs of node and weight. *)
Definition push_edge (u : Z) (p : Z * Z) (st : list Z * list (Z * Z)) : outcome (list Z * list (Z * Z)) :=
  let '(ans, q) := st in
  let '(v, w) := p in
  av ← vget ans v;
  au ← vget ans u;
  if au + w <? av then ans ← vset ans v (au + w); Ok (ans, q ++ [(v, au + w)]) else Ok (ans, q).

Definition dijkstra_step (g : Graph) (st : list Z * list Z * list (Z * Z)) : outcome (list Z * list Z * list (Z * Z) + list Z * list Z) :=
  let '(ans, visit, q) := st in
  match q with
  | [] => Ok (inr (ans, visit))
  | _ =>
      '(u, _) ← match q !! pick q with Some e => Ok e | None => Fault OutOfBounds end;
      let q := delete (pick q) q in
      m ← vget visit u;
      if negb (m =? 0) then Ok (inl (ans, visit, q))
      else
        visit ← vset visit u 1;
        l ← vget g u;
        '(ans, q) ← for_each l (push_edge u) (ans, q);
        Ok (inl (ans, visit, q))
  end.

Definition edge_count (g : Graph) : nat := sum_list_with length g.

Definition dijkstra (start_node : Z) (d : Dijkstra) : outcome Dijkstra :=
  ans ← vset (d_answer d) start_node 0;
  '(ans, visit) ← while_fuel (edge_count (d_graph d) + 2) (dijkstra_step (d_graph d)) (ans, visit_ d, [(start_node, 0)]);
  Ok (MkDijkstra ans visit (d_graph d)).
End PriorityQueue.

(** A heap that returns the first least entry. *)
Fixpoint first_min (q : list (Z * Z)) : nat :=
  match q with
  | [] | [_] => 0
  | e :: q => match q !! first_min q with Some e' => if e'.2 <? e.2 then S (first_min q) else 0 | None => 0 end
  end.

Example dijkstra_run :
  (g ← new_graph [[1; 2; 4]; [1; 3; 1]; [3; 2; 2]; [4; 1; 7]] 4; d ← dijkstra first_min 0 (new_dijkstra g); Ok (d_answer d)) = Ok [0; 3; 1; INF] /\
  (g ← new_graph [[1; 2; 4]; [1; 3; 1]; [3; 2; 2]; [3; 4; 7]] 4; d ← force 0 (new_dijkstra g); Ok (d_answer d)) = Ok [0; 3; 1; 8] /\
  (g ← new_graph [[1; 2; 4]; [1; 3; 1]; [3; 2; 2]; [4; 1; 7]] 4; force 0 (new_dijkstra g)) = Fault OutOfBounds.
Proof. by split. Qed.

Section Proof.
Context (g : Graph) (W s : Z).
Hypothesis Hg : wf_graph g W.
Hypothesis HW : 0 <= W.
Hypothesis Hpos : forall u v w, edge g u v w -> 0 <= w.
Hypothesis Hs : 0 <= s < zlen g.
Hypothesis Hinf : zlen g * W < INF.

Definition node (v : Z) : Prop := 0 <= v < zlen g.

(** The visited nodes are closer than the others, and the edges out of them have
    been relaxed; those out of [u] only as far as they are in [seen]. *)
Record settled (ans vis : list Z) (u : option Z) (seen : list (Z * Z)) : Prop := {
  j_sound : sound g s ans;
  j_vis : zlen vis = zlen g;
  j_01 : forall v, node v -> at_ vis v = 0 \/ at_ vis v = 1;
  j_fin : forall v, node v -> at_ vis v = 1 -> at_ ans v <> INF;
  j_order : forall y x, node y -> node x -> at_ vis y = 1 -> at_ vis x = 0 -> at_ ans y <= at_ ans x;
  j_max : forall x y, u = Some x -> node y -> at_ vis y = 1 -> at_ ans y <= at_ ans x;
  j_cov : forall y v w, edge g y v w -> at_ vis y = 1 -> (u = Some y -> (v, w) ∈ seen) -> at_ ans v <= at_ ans y + w;
  j_cur : forall x, u = Some x -> node x /\ at_ vis x = 1;
  j_start : at_ ans s <= 0 }.

(** [u] is chosen among the nodes that are not visited. *)
Lemma settled_visit ans vis u :
  settled ans vis None [] -> node u -> at_ vis u = 0 -> at_ ans u <> INF -> (forall x, node x -> at_ vis x = 0 -> at_ ans u <= at_ ans x) ->
  settled ans (zset vis u 1) (Some u) [].
Proof.
  intros [Hso Hv H01 Hf Ho _ Hc _ H0] Hu Hvu Hui Hmin. unfold node in *.
  assert (Eat : forall x, at_ (zset vis u 1) x = if x =? u then 1 else at_ vis x) by (intros x; apply at_zset; lia).
  constructor; try done; rewrite ?zlen_zset; try done.
  - intros x Hx. rewrite Eat. destruct (x =? u); [by right|by apply H01].
  - intros x Hx. rewrite Eat. destruct (Z.eqb_spec x u) as [->|]; [done|by apply Hf].
  - intros y x Hy Hx. rewrite !Eat. destruct (Z.eqb_spec y u) as [->|], (Z.eqb_spec x u) as [->|]; try done; intros; [by apply Hmin|by apply Ho].
  - intros x y [= <-] Hy. rewrite Eat. destruct (Z.eqb_spec y u) as [->|]; [done|]. intros. by apply Ho.
  - intros y v w He. rewrite Eat. destruct (Z.eqb_spec y u) as [->|]; [|intros; by apply Hc]. intros _ Hin. specialize (Hin eq_refl). by apply elem_of_nil in Hin.
  - intros x [= <-]. split; [done|]. by rewrite Eat, Z.eqb_refl.
Qed.

(** What relaxing an edge does to the entries. *)
Definition relaxed_entry (ans : list Z) (u v w : Z) : list Z :=
  if at_ ans u + w <? at_ ans v then zset ans v (at_ ans u + w) else ans.

Lemma settled_relax ans vis u seen v w :
  settled ans vis (Some u) seen -> edge g u v w ->
  settled (relaxed_entry ans u v w) vis (Some u) (seen ++ [(v, w)]) /\ (at_ ans u + w < at_ ans v -> at_ vis v = 0).
Proof.
  intros [Hso Hv H01 Hf Ho Hm Hc Hcu H0] He. pose proof Hso as [Hlen Hsound]. unfold node in *.
  destruct (Hg _ _ _ He) as [Hvn _]. pose proof (edge_node _ _ _ _ He) as Hun. pose proof (Hpos _ _ _ He) as Hw. destruct (Hcu u eq_refl) as [_ Hvu].
  unfold relaxed_entry. destruct (Z.ltb_spec (at_ ans u + w) (at_ ans v)) as [Hlt|Hge].
  - assert (Hv0 : at_ vis v = 0).
    { destruct (H01 v Hvn) as [|Hv1]; [done|]. specialize (Hm u v eq_refl Hvn Hv1). lia. }
    split; [|done]. assert (Eat : forall x, at_ (zset ans v (at_ ans u + w)) x = if x =? v then at_ ans u + w else at_ ans x) by (intros x; apply at_zset; lia).
    assert (Hvis : forall y, node y -> at_ vis y = 1 -> at_ (zset ans v (at_ ans u + w)) y = at_ ans y).
    { intros y Hy Hy1. rewrite Eat. destruct (Z.eqb_spec y v) as [->|]; [congruence|done]. }
    constructor; try done.
    + split; [by rewrite zlen_zset|]. intros x Hx. rewrite Eat. destruct (Z.eqb_spec x v) as [->|]; [|by apply Hsound].
      destruct (Hsound v Hvn) as [Hvi _]. split; [lia|]. intros _. destruct (proj2 (Hsound u Hun) (Hf u Hun Hvu)) as (es & Hwk & Hco).
      exists (es ++ [(v, w)]). split; [by eapply walk_snoc|]. rewrite cost_snoc. lia.
    + intros y Hy Hy1. rewrite Hvis by done. by apply Hf.
    + intros y x Hy Hx Hy1 Hx0. rewrite Hvis by done. rewrite Eat. destruct (Z.eqb_spec x v) as [->|]; [|by apply Ho]. specialize (Hm u y eq_refl Hy Hy1). lia.
    + intros x y [= <-] Hy Hy1. rewrite !Hvis by done. by apply Hm.
    + intros y v' w' He' Hy1 Hin. pose proof (edge_node _ _ _ _ He') as Hyn. rewrite (Hvis y) by done. rewrite Eat. destruct (Z.eqb_spec v' v) as [->|Hne].
      * destruct (Z.eq_dec y u) as [->|Hyu].
        -- specialize (Hin eq_refl). apply elem_of_app in Hin as [Hin|Hin].
           ++ specialize (Hc u v w' He' Hvu ltac:(done)). lia.
           ++ apply list_elem_of_singleton in Hin. injection Hin as ->. lia.
        -- specialize (Hc y v w' He' Hy1 ltac:(congruence)). lia.
      * apply Hc; [done|done|]. intros [= ->]. specialize (Hin eq_refl). apply elem_of_app in Hin as [Hin|Hin]; [done|].
        apply list_elem_of_singleton in Hin. by injection Hin as -> ->.
    + rewrite Eat. destruct (Z.eqb_spec s v) as [->|]; [|done]. lia.
  - split; [|lia]. constructor; try done. intros y v' w' He' Hy1 Hin. destruct (decide (y = u /\ v' = v /\ w' = w)) as [(-> & -> & ->)|Hne]; [done|].
    apply Hc; [done|done|]. intros [= ->]. specialize (Hin eq_refl). apply elem_of_app in Hin as [Hin|Hin]; [done|].
    apply list_elem_of_singleton in Hin. injection Hin as -> ->. by destruct Hne.
Qed.

Lemma settled_done ans vis u l : zget g u = Some l -> settled ans vis (Some u) l -> settled ans vis None [].
Proof.
  intros Hl [Hso Hv H01 Hf Ho Hm Hc Hcu H0]. constructor; try done. intros y v w He Hy1 _. apply Hc; [done|done|]. intros [= ->].
  destruct He as (l' & Hl' & Hin). congruence.
Qed.

Lemma settled_start : settled (zset (zreplicate (zlen g) INF) s 0) (zreplicate (zlen g) 0) None [].
Proof.
  unfold node in *. assert (Hlr : zlen (zreplicate (zlen g) INF) = zlen g) by (rewrite zlen_replicate; lia).
  assert (Eat : forall v, 0 <= v < zlen g -> at_ (zset (zreplicate (zlen g) INF) s 0) v = if v =? s then 0 else INF).
  { intros v Hv. rewrite at_zset by lia. destruct (v =? s); [done|]. by apply at_replicate. }
  constructor; unfold node; try done.
  - split; [by rewrite zlen_zset|]. intros v Hv. rewrite Eat by done. destruct (Z.eqb_spec v s) as [->|]; [|done]. split; [done|]. intros _. by exists [].
  - rewrite zlen_replicate. lia.
  - intros v Hv. left. by apply at_replicate.
  - intros v Hv. by rewrite at_replicate.
  - intros y x Hy Hx. by rewrite at_replicate.
  - intros y v w He. apply edge_node in He. by rewrite at_replicate.
  - by rewrite Eat, Z.eqb_refl by done.
Qed.

(** When every reached node is visited the entries are the distances. *)
Lemma settled_distances ans vis :
  settled ans vis None [] -> (forall v, node v -> at_ ans v <> INF -> at_ vis v = 1) -> distances g s ans.
Proof.
  intros H Hall. apply (relaxed_distances g W s); try done; [apply H| |apply H].
  intros u v w He Hu. apply (j_cov _ _ _ _ H); [done| |done]. apply Hall; [|done]. by eapply edge_node.
Qed.

(** * The quadratic search *)

Lemma select_min_ok ans vis :
  settled ans vis None [] ->
  wp (select_min ans vis) (fun r =>
    (r.1 = -1 /\ forall x, node x -> at_ vis x = 0 -> at_ ans x = INF) \/
    (node r.1 /\ at_ vis r.1 = 0 /\ at_ ans r.1 <> INF /\ forall x, node x -> at_ vis x = 0 -> at_ ans r.1 <= at_ ans x)).
Proof.
  intros [[Hlen Hsound] Hv H01 _ _ _ _ _ _]. unfold select_min, node in *. rewrite Hlen.
  apply (wp_for_range (fun j st =>
    (st.1 = -1 /\ st.2 = INF /\ forall x, 0 <= x < j -> at_ vis x = 0 -> at_ ans x = INF) \/
    (0 <= st.1 < zlen g /\ at_ vis st.1 = 0 /\ st.2 = at_ ans st.1 /\ st.2 < INF /\ forall x, 0 <= x < j -> at_ vis x = 0 -> st.2 <= at_ ans x))).
  - lia.
  - left. cbn. split; [done|]. split; [done|]. lia.
  - intros j [u m] Hj HI. cbn [fst snd] in *. rewrite !vget_at by lia. cbn [mbind outcome_bind]. apply wp_ret. destruct (Hsound j Hj) as [Hji _].
    destruct (Z.eqb_spec (at_ vis j) 0) as [Hj0|Hj1]; cbn [andb].
    + destruct (Z.ltb_spec (at_ ans j) m) as [Hlt|Hge]; cbn [fst snd].
      * right. split; [lia|]. split; [done|]. split; [done|]. split; [destruct HI as [(_ & -> & _)|(_ & _ & _ & Hm & _)]; lia|].
        intros x Hx Hx0. destruct (Z.eq_dec x j) as [->|]; [lia|]. destruct HI as [(_ & -> & HI)|(_ & _ & _ & _ & HI)]; [rewrite (HI x) by (done || lia); lia|].
        specialize (HI x ltac:(lia) Hx0). lia.
      * destruct HI as [(-> & -> & HI)|(Hu & Hu0 & Em & Hm & HI)]; [left|right].
        -- split; [done|]. split; [done|]. intros x Hx Hx0. destruct (Z.eq_dec x j) as [->|]; [lia|]. apply HI; [lia|done].
        -- split; [done|]. split; [done|]. split; [done|]. split; [done|]. intros x Hx Hx0. destruct (Z.eq_dec x j) as [->|]; [lia|]. apply HI; [lia|done].
    + destruct HI as [(-> & -> & HI)|(Hu & Hu0 & Em & Hm & HI)]; [left|right].
      * split; [done|]. split; [done|]. intros x Hx Hx0. apply HI; [|done]. assert (x <> j) by congruence. lia.
      * split; [done|]. split; [done|]. split; [done|]. split; [done|]. intros x Hx Hx0. apply HI; [|done]. assert (x <> j) by congruence. lia.
  - intros [u m]. cbn. intros [(-> & -> & HI)|(Hu & Hu0 & -> & Hm & HI)]; [by left|]. right. split; [done|]. split; [done|]. split; [lia|done].
Qed.

Lemma force_edges_ok ans vis u l :
  zget g u = Some l -> settled ans vis (Some u) [] -> wp (for_each l (d_relax u) ans) (fun ans' => settled ans' vis None []).
Proof.
  intros Hl H. eapply wp_mono; [apply (wp_for_each (fun seen ans' => settled ans' vis (Some u) seen)); [done|]|].
  - intros seen [v w] rest ans' -> H'. assert (He : edge g u v w) by (exists (seen ++ (v, w) :: rest); split; [done|]; apply elem_of_app; right; left).
    destruct (settled_relax _ _ _ _ _ _ H' He) as [H'' _]. destruct (j_sound _ _ _ _ H') as [Hlen _].
    destruct (Hg _ _ _ He) as [Hvn _]. pose proof (edge_node _ _ _ _ He) as Hun. unfold d_relax, relaxed_entry in *. rewrite !vget_at by lia. cbn [mbind outcome_bind].
    destruct (_ <? _); [rewrite vset_at by lia|]; apply wp_ret; done.
  - intros ans' H'. by eapply settled_done.
Qed.

(** A round visits one more node, or finds that no node can be reached any more. *)
Lemma force_round_ok ans vis :
  settled ans vis None [] ->
  (exists ans' vis', force_round g (ans, vis) = Ok (ans', vis') /\ settled ans' vis' None [] /\ zsum vis' = zsum vis + 1) \/
  (force_round g (ans, vis) = Fault OutOfBounds /\ forall x, node x -> at_ vis x = 0 -> at_ ans x = INF).
Proof.
  intros H. destruct (select_min_ok ans vis H) as ([u m] & E & Hr). unfold force_round. rewrite E. cbn [mbind outcome_bind fst snd] in *.
  pose proof (j_vis _ _ _ _ H) as Hvl. unfold node in *. destruct Hr as [[-> Hr]|(Hu & Hu0 & Hui & Hmin)].
  - right. split; [|done]. reflexivity.
  - left. destruct (zget_in_range g u Hu) as [l Hl]. rewrite vset_at by lia. cbn [mbind outcome_bind]. rewrite (vget_some _ _ _ Hl). cbn [mbind outcome_bind].
    destruct (force_edges_ok ans (zset vis u 1) u l Hl) as (ans' & E' & H'); [by apply settled_visit|]. rewrite E'. cbn [mbind outcome_bind].
    exists ans', (zset vis u 1). split; [done|]. split; [done|]. rewrite zsum_zset by lia. lia.
Qed.

(** All marks are set when their sum is the number of nodes. *)
Lemma all_visited (vis : list Z) v :
  (forall v, 0 <= v < zlen vis -> at_ vis v <= 1) -> zsum vis = zlen vis -> 0 <= v < zlen vis -> at_ vis v = 1.
Proof.
  intros H1 Hsum Hv. pose proof (H1 v Hv) as Hv1. destruct (Z.eq_dec (at_ vis v) 1) as [|Hne]; [done|]. exfalso.
  assert (Hup : forall l, (forall i, 0 <= i < zlen l -> at_ l i <= 1) -> zsum l <= zlen l).
  { clear. induction l as [|x l IH]; intros H; [done|]. rewrite zlen_cons. cbn [zsum foldr]. fold (zsum l).
    pose proof (H 0 ltac:(rewrite zlen_cons; pose proof (zlen_nonneg l); lia)) as H0. change (at_ (x :: l) 0) with x in H0.
    enough (zsum l <= zlen l) by lia. apply IH. intros i Hi. specialize (H (i + 1) ltac:(rewrite zlen_cons; lia)). unfold at_, zget in *.
    destruct (Z.ltb_spec (i + 1) 0), (Z.ltb_spec i 0); try lia. replace (Z.to_nat (i + 1)) with (S (Z.to_nat i)) in H by lia. exact H. }
  specialize (Hup (zset vis v 1)). rewrite zlen_zset, zsum_zset in Hup by done.
  enough (zsum vis - at_ vis v + 1 <= zlen vis) by lia. apply Hup. intros i Hi. rewrite at_zset by done. destruct (i =? v); [lia|]. by apply H1.
Qed.

(** The rounds that remain: all nodes are visited, or the index -1 is used. *)
Lemma force_rounds_ok k i ans vis :
  settled ans vis None [] -> zsum vis + Z.of_nat k = zlen g ->
  (exists ans' vis', for_up k i (fun _ st => force_round g st) (ans, vis) = Ok (ans', vis') /\ settled ans' vis' None [] /\ zsum vis' = zlen g) \/
  (for_up k i (fun _ st => force_round g st) (ans, vis) = Fault OutOfBounds /\
   exists ans' vis', settled ans' vis' None [] /\ zsum vis' < zlen g /\ forall x, node x -> at_ vis' x = 0 -> at_ ans' x = INF).
Proof.
  revert i ans vis. induction k as [|k IH]; intros i ans vis H Hk; cbn [for_up].
  - left. exists ans, vis. split; [done|]. split; [done|lia].
  - destruct (force_round_ok ans vis H) as [(ans' & vis' & E & H' & Hsum)|[E Hno]]; rewrite E; cbn [mbind outcome_bind].
    + apply IH; [done|lia].
    + right. split; [done|]. exists ans, vis. split; [done|]. split; [lia|done].
Qed.

Lemma force_ok :
  (exists d, force s (new_dijkstra g) = Ok d /\ distances g s (d_answer d) /\ forall v, node v -> reachable g s v) \/
  (force s (new_dijkstra g) = Fault OutOfBounds /\ exists v, node v /\ ~ reachable g s v).
Proof.
  unfold force. cbn [new_dijkstra d_answer visit_ d_graph]. rewrite vset_at by (rewrite zlen_replicate; lia). cbn [mbind outcome_bind].
  rewrite zlen_zset, zlen_replicate, Z.max_r by lia. unfold for_range.
  assert (Hz : zsum (zreplicate (zlen g) 0) = 0) by (unfold zreplicate; generalize (Z.to_nat (zlen g)); clear; induction n as [|n IH]; [done|exact IH]).
  destruct (force_rounds_ok (Z.to_nat (zlen g - 0)) 0 _ _ settled_start) as [(ans & vis & E & H & Hsum)|(E & ans & vis & H & Hsum & Hno)]; [lia|..]; rewrite E; cbn [mbind outcome_bind].
  - left. eexists. split; [done|]. cbn [d_answer].
    assert (Hall : forall v, node v -> at_ vis v = 1).
    { intros v Hv. pose proof (j_vis _ _ _ _ H) as Hl. unfold node in *. apply all_visited; [|lia|lia]. intros x Hx. destruct (j_01 _ _ _ _ H x ltac:(unfold node; lia)); lia. }
    split; [apply (settled_distances ans vis H); auto|]. intros v Hv. pose proof (j_fin _ _ _ _ H v Hv (Hall v Hv)) as Hf.
    destruct (j_sound _ _ _ _ H) as [_ Hs']. destruct (proj2 (Hs' v Hv) Hf) as (es & Hes & _). by exists es.
  - right. split; [done|]. pose proof (j_vis _ _ _ _ H) as Hl.
    assert (Hex : exists v, node v /\ at_ vis v = 0).
    { destruct (existsb (fun v => at_ vis v =? 0) (seqZ 0 (zlen g))) eqn:Ee.
      - apply existsb_exists in Ee as (v & Hv & E0). apply list_elem_of_In, elem_of_seqZ in Hv. exists v. split; [unfold node; lia|lia].
      - exfalso. enough (Hge : zlen vis * 1 <= zsum vis) by lia. apply zsum_lower. intros i Hi.
        destruct (j_01 _ _ _ _ H i ltac:(unfold node; lia)) as [E0|]; [|lia]. exfalso.
        assert (existsb (fun v => at_ vis v =? 0) (seqZ 0 (zlen g)) = true); [|congruence]. apply existsb_exists. exists i. split; [|by rewrite E0].
        apply list_elem_of_In, elem_of_seqZ. lia. }
    destruct Hex as (v & Hv & Hv0). exists v. split; [done|]. intros Hr.
    destruct (settled_distances ans vis H) as [_ Hd].
    { intros x Hx Hf. destruct (j_01 _ _ _ _ H x Hx) as [E0|]; [|done]. destruct Hf. by apply Hno. }
    destruct (Hd v Hv) as [Hr' _]. destruct (Hr' Hr). specialize (Hno v Hv Hv0). lia.
Qed.

(** * The priority queue *)

Context (pick : list (Z * Z) -> nat).
(** [top] is an entry of least weight. *)
Hypothesis Hpick : forall q, q <> [] -> exists e, q !! pick q = Some e /\ forall e', e' ∈ q -> e.2 <= e'.2.

Record queued (ans vis : list Z) (q : list (Z * Z)) : Prop := {
  k_entry : forall v wt, (v, wt) ∈ q -> node v /\ at_ ans v <= wt /\ at_ ans v <> INF;
  k_open : forall v, node v -> at_ vis v = 0 -> at_ ans v <> INF -> (v, at_ ans v) ∈ q }.

Lemma push_edge_ok ans vis q u seen v w :
  settled ans vis (Some u) seen -> queued ans vis q -> edge g u v w ->
  wp (push_edge u (v, w) (ans, q)) (fun st =>
    settled st.1 vis (Some u) (seen ++ [(v, w)]) /\ queued st.1 vis st.2 /\ (length st.2 <= length q + 1)%nat).
Proof.
  intros H [Hent Hop] He. destruct (settled_relax _ _ _ _ _ _ H He) as [H' Hv0]. destruct (j_sound _ _ _ _ H) as [Hlen Hsound].
  destruct (Hg _ _ _ He) as [Hvn _]. pose proof (edge_node _ _ _ _ He) as Hun. unfold push_edge, relaxed_entry, node in *. rewrite !vget_at by lia. cbn [mbind outcome_bind].
  destruct (Z.ltb_spec (at_ ans u + w) (at_ ans v)) as [Hlt|Hge].
  - rewrite vset_at by lia. cbn [mbind outcome_bind]. apply wp_ret. cbn [fst snd]. split; [done|]. split; [|rewrite length_app; cbn; lia].
    specialize (Hv0 Hlt). destruct (Hsound v Hvn) as [Hvi _].
    assert (Eat : forall x, at_ (zset ans v (at_ ans u + w)) x = if x =? v then at_ ans u + w else at_ ans x) by (intros x; apply at_zset; lia).
    constructor.
    + intros x wt [Hin|Hin]%elem_of_app; rewrite Eat.
      * destruct (Hent x wt Hin) as (Hx & Hwt & Hxi). destruct (Z.eqb_spec x v) as [->|]; [|done]. split; [done|]. lia.
      * apply list_elem_of_singleton in Hin. injection Hin as -> ->. rewrite Z.eqb_refl. unfold node. split; [done|]. lia.
    + intros x Hx Hx0. rewrite Eat. intros Hxi. apply elem_of_app. destruct (Z.eqb_spec x v) as [->|]; [right; left|left; by apply Hop].
  - apply wp_ret. cbn [fst snd]. split; [done|]. split; [done|lia].
Qed.

Lemma push_edges_ok ans vis q u l :
  zget g u = Some l -> settled ans vis (Some u) [] -> queued ans vis q ->
  wp (for_each l (push_edge u) (ans, q)) (fun st => settled st.1 vis None [] /\ queued st.1 vis st.2 /\ (length st.2 <= length q + length l)%nat).
Proof.
  intros Hl H Hq. eapply wp_mono;
    [apply (wp_for_each (fun seen st => settled st.1 vis (Some u) seen /\ queued st.1 vis st.2 /\ (length st.2 <= length q + length seen)%nat)); [cbn; split; [done|]; split; [done|lia]|]|].
  - intros seen [v w] rest [ans' q'] -> (H' & Hq' & Hn). cbn [fst snd] in *.
    assert (He : edge g u v w) by (exists (seen ++ (v, w) :: rest); split; [done|]; apply elem_of_app; right; left).
    eapply wp_mono; [by apply push_edge_ok|]. intros [ans'' q'']. cbn. intros (H'' & Hq'' & Hn'). split; [done|]. split; [done|]. rewrite length_app. cbn. lia.
  - intros [ans' q'] (H' & Hq' & Hn). split; [by eapply settled_done|done].
Qed.

(** The edges out of the nodes that are not visited bound the further pushes. *)
Definition open_weight (p : Z * list (Z * Z)) : nat := if p.1 =? 0 then length p.2 else 0%nat.
Definition open_edges (vis : list Z) : nat := sum_list_with open_weight (zip vis g).

Lemma open_visit vis u l :
  zlen vis = zlen g -> node u -> zget g u = Some l -> at_ vis u = 0 -> (open_edges (zset vis u 1%Z) + length l = open_edges vis)%nat.
Proof.
  intros Hlen Hu Hl Hv. unfold open_edges, node in *. destruct (zget_in_range vis u) as [x Hx]; [lia|]. unfold at_ in Hv. rewrite Hx in Hv. cbn in Hv. subst x.
  unfold zset, zget in *. destruct (Z.ltb_spec u 0); [lia|].
  assert (E : zip (<[Z.to_nat u := 1]> vis) g = <[Z.to_nat u := (1, l)]> (zip vis g)).
  { rewrite <- (list_insert_id g (Z.to_nat u) l Hl) at 1. symmetry. apply (insert_zip_with pair). }
  rewrite E. pose proof (sum_insert open_weight (Z.to_nat u) (1, l) (0, l) (zip vis g)) as Hs'. unfold open_weight at 2 4 in Hs'. cbn in Hs'. rewrite Nat.add_0_r in Hs'.
  apply Hs'. rewrite lookup_zip_with, Hx, Hl. done.
Qed.

Lemma dijkstra_step_ok ans vis q :
  settled ans vis None [] -> queued ans vis q ->
  wp (dijkstra_step pick g (ans, vis, q)) (fun r => match r with
    | inl (ans', vis', q') => settled ans' vis' None [] /\ queued ans' vis' q' /\ (length q' + open_edges vis' < length q + open_edges vis)%nat
    | inr (ans', vis') => distances g s ans' end).
Proof.
  intros H Hq. unfold dijkstra_step. destruct (decide (q = [])) as [->|Hne].
  - apply wp_ret. apply (settled_distances ans vis H). intros v Hv Hf. destruct (j_01 _ _ _ _ H v Hv) as [E0|]; [|done].
    pose proof (k_open _ _ _ Hq v Hv E0 Hf) as Hin. by apply elem_of_nil in Hin.
  - destruct (Hpick q Hne) as ([u wt] & E & Hmin). rewrite E. cbn [mbind outcome_bind]. destruct q as [|e0 q0] eqn:Eq; [done|]. rewrite <- Eq in *. clear Hne.
    pose proof (delete_Permutation q (pick q) (u, wt) E) as HP. pose proof (Permutation_length HP) as HPl. cbn in HPl.
    assert (Hin : (u, wt) ∈ q) by (by eapply list_elem_of_lookup_2). destruct (k_entry _ _ _ Hq u wt Hin) as (Hu & Hwt & Hui).
    pose proof (j_vis _ _ _ _ H) as Hvl. unfold node in Hu. rewrite vget_at by lia. cbn [mbind outcome_bind].
    assert (Hkeep : forall vis', (forall v, node v -> at_ vis' v = 0 -> v <> u /\ at_ vis v = 0) -> queued ans vis' (delete (pick q) q)).
    { intros vis' Hvis'. constructor.
      - intros v wt' Hv. apply (k_entry _ _ _ Hq). rewrite HP. by right.
      - intros v Hv Hv0 Hf. destruct (Hvis' v Hv Hv0) as [Hvu Hv0']. pose proof (k_open _ _ _ Hq v Hv Hv0' Hf) as Hin'. rewrite HP in Hin'.
        apply elem_of_cons in Hin' as [[= ->]|]; done. }
    destruct (Z.eqb_spec (at_ vis u) 0) as [Hu0|Hu1]; cbn [negb].
    + rewrite vset_at by lia. cbn [mbind outcome_bind]. destruct (zget_in_range g u Hu) as [l Hl]. rewrite (vget_some _ _ _ Hl). cbn [mbind outcome_bind].
      assert (Hset : settled ans (zset vis u 1) (Some u) []).
      { apply settled_visit; [done|done|done|done|]. intros x Hx Hx0. destruct (Z.eq_dec (at_ ans x) INF) as [Ei|Hne].
        - destruct (j_sound _ _ _ _ H) as [_ Hso]. destruct (Hso u Hu) as [Hle _]. lia.
        - pose proof (k_open _ _ _ Hq x Hx Hx0 Hne) as Hinx. specialize (Hmin _ Hinx). cbn in Hmin. lia. }
      assert (Hqd : queued ans (zset vis u 1) (delete (pick q) q)).
      { apply Hkeep. intros v Hv. rewrite at_zset by lia. destruct (Z.eqb_spec v u); done. }
      apply wp_bind. eapply wp_mono; [by apply (push_edges_ok ans (zset vis u 1) (delete (pick q) q) u l)|]. intros [ans' q']. cbn [fst snd]. intros (H' & Hq' & Hn). apply wp_ret.
      split; [done|]. split; [done|]. pose proof (open_visit vis u l Hvl Hu Hl Hu0). lia.
    + apply wp_ret. split; [done|]. split; [|lia]. apply Hkeep. intros v Hv Hv0. split; [|done]. intros ->. done.
Qed.

Lemma open_start : (open_edges (zreplicate (zlen g) 0%Z) <= edge_count g)%nat.
Proof.
  unfold open_edges, edge_count, zreplicate, zlen. rewrite Nat2Z.id. clear.
  enough (sum_list_with open_weight (zip (replicate (length g) 0%Z) g) = sum_list_with length g) as -> by lia.
  induction g as [|l g' IH]; [done|]. cbn. f_equal. exact IH.
Qed.

Lemma dijkstra_ok : exists d, dijkstra pick s (new_dijkstra g) = Ok d /\ distances g s (d_answer d).
Proof.
  unfold dijkstra. cbn [new_dijkstra d_answer visit_ d_graph]. rewrite vset_at by (rewrite zlen_replicate; lia). cbn [mbind outcome_bind].
  set (ans0 := zset _ s 0). pose proof settled_start as H0. fold ans0 in H0.
  assert (Eat : forall v, 0 <= v < zlen g -> at_ ans0 v = if v =? s then 0 else INF).
  { intros v Hv. unfold ans0. rewrite at_zset by (rewrite zlen_replicate; lia). destruct (v =? s); [done|]. by apply at_replicate. }
  assert (Hq0 : queued ans0 (zreplicate (zlen g) 0) [(s, 0)]).
  { constructor.
    - intros v wt Hin. apply list_elem_of_singleton in Hin. injection Hin as -> ->. split; [done|]. by rewrite Eat, Z.eqb_refl.
    - intros v Hv _. rewrite Eat by done. destruct (Z.eqb_spec v s) as [->|]; [intros _; left|done]. }
  edestruct (wp_while (fun st => settled st.1.1 st.1.2 None [] /\ queued st.1.1 st.1.2 st.2) (fun st => length st.2 + open_edges st.1.2)%nat
    (fun r => distances g s r.1) (edge_count g + 2) (dijkstra_step pick g) (ans0, zreplicate (zlen g) 0, [(s, 0)])) as ([ans vis] & E & Hd).
  - done.
  - pose proof open_start. cbn [fst snd length]. lia.
  - intros [[ans vis] q] [H Hq]. cbn [fst snd] in *. eapply wp_mono; [by apply dijkstra_step_ok|]. intros [[[ans' vis'] q']|[ans' vis']]; [|done]. cbn. intros (? & ? & ?). done.
  - rewrite E. cbn [mbind outcome_bind]. eexists. by split.
Qed.
End Proof.

Lemma first_min_ok q : q <> [] -> exists e, q !! first_min q = Some e /\ forall e', e' ∈ q -> e.2 <= e'.2.
Proof.
  induction q as [|e q IH]; [done|]. intros _. destruct q as [|e1 q].
  - exists e. split; [done|]. intros e' ->%list_elem_of_singleton. lia.
  - destruct IH as (em & Em & Hm); [done|]. set (q' := e1 :: q) in *. assert (Ef : first_min (e :: q') = if em.2 <? e.2 then S (first_min q') else 0%nat).
    { change (first_min (e :: q')) with (match q' !! first_min q' with Some e' => if e'.2 <? e.2 then S (first_min q') else 0%nat | None => 0%nat end).
      by rewrite Em. }
    rewrite Ef. destruct (Z.ltb_spec em.2 e.2).
    + exists em. split; [done|]. intros e' [->|He']%elem_of_cons; [lia|by apply Hm].
    + exists e. split; [done|]. intros e' [->|He']%elem_of_cons; [lia|]. specialize (Hm e' He'). lia.
Qed.

(** [reset] makes the object as new. *)
Lemma d_reset_ok d : zlen (d_answer d) = zlen (d_graph d) -> zlen (visit_ d) = zlen (d_graph d) -> d_reset d = Ok (new_dijkstra (d_graph d)).
Proof.
  intros Ha Hv. unfold d_reset, new_dijkstra. rewrite Ha. set (n := zlen (d_graph d)) in *. pose proof (zlen_nonneg (d_graph d)) as Hn. fold n in Hn.
  destruct (wp_for_range (fun i st => zlen st.1 = n /\ zlen st.2 = n /\ forall j, 0 <= j < i -> at_ st.1 j = INF /\ at_ st.2 j = 0)
    (fun st => st = (zreplicate n INF, zreplicate n 0)) 0 n (fun i st => a ← vset st.1 i INF; v ← vset st.2 i 0; Ok (a, v)) (d_answer d, visit_ d)) as (st & E & ->).
  - done.
  - cbn. split; [done|]. split; [done|]. lia.
  - intros i [a v] Hi (H1 & H2 & H3). cbn [fst snd] in *. rewrite !vset_at by lia. cbn [mbind outcome_bind]. apply wp_ret. cbn [fst snd]. rewrite !zlen_zset.
    split; [done|]. split; [done|]. intros j Hj. rewrite !at_zset by lia. destruct (Z.eqb_spec j i); [done|]. apply H3. lia.
  - intros [a v] (H1 & H2 & H3). cbn [fst snd] in *.
    assert (Hx : forall l x, zlen l = n -> (forall j, 0 <= j < n -> at_ l j = x) -> l = zreplicate n x).
    { intros l x Hl Hj. apply zvec_ext; [rewrite zlen_replicate; lia|]. intros i Hi. rewrite zget_replicate by lia. destruct (zget_in_range l i Hi) as [y Hy].
      rewrite Hy. f_equal. rewrite <- (Hj i) by lia. unfold at_. by rewrite Hy. }
    f_equal; apply Hx; try done; intros j Hj; by apply H3.
  - rewrite E. done.
Qed.

(** C34: for non-negative weights whose maximum times the number of nodes is below
    INT32_MAX (the value that stands for unreachable), dijkstra with any priority queue
    that returns a minimal entry computes the shortest distances, and INT32_MAX for
    unreachable nodes; force computes the same when every node is reachable, and
    otherwise indexes with -1. *)
Theorem dijkstra_correct (g : Graph) (W s : Z) (pick : list (Z * Z) -> nat) :
  wf_graph g W -> 0 <= W -> (forall u v w, edge g u v w -> 0 <= w) -> 0 <= s < zlen g -> zlen g * W < INF ->
  (forall q, q <> [] -> exists e, q !! pick q = Some e /\ forall e', e' ∈ q -> e.2 <= e'.2) ->
  exists d, dijkstra pick s (new_dijkstra g) = Ok d /\ zlen (d_answer d) = zlen g /\
    (forall v, 0 <= v < zlen g -> (reachable g s v -> shortest g s v (at_ (d_answer d) v)) /\ (~ reachable g s v -> at_ (d_answer d) v = INF)) /\
    ((forall v, 0 <= v < zlen g -> reachable g s v) -> exists d', force s (new_dijkstra g) = Ok d' /\ d_answer d' = d_answer d) /\
    ((exists v, 0 <= v < zlen g /\ ~ reachable g s v) -> force s (new_dijkstra g) = Fault OutOfBounds).
Proof.
  intros Hg HW Hpos Hs Hinf Hpick. destruct (dijkstra_ok g W s Hg HW Hpos Hs Hinf pick Hpick) as (d & E & Hl & Hd). exists d. split; [done|]. split; [done|].
  split; [intros v Hv; destruct (Hd v Hv) as [H1 H2]; split; [intros Hr; by apply H1|done]|].
  destruct (force_ok g W s Hg HW Hpos Hs Hinf) as [(d' & E' & [Hl' Hd'] & Hall)|[E' (x & Hx & Hnr)]].
  - split.
    + intros Hre. exists d'. split; [done|]. apply zvec_ext; [lia|]. intros i Hi. rewrite Hl' in Hi. destruct (Hd i Hi) as [H1 _], (Hd' i Hi) as [H1' _].
      destruct (H1 (Hre i Hi)) as (_ & (e1 & Hw1 & Hc1) & Hm1), (H1' (Hre i Hi)) as (_ & (e2 & Hw2 & Hc2) & Hm2).
      specialize (Hm1 _ Hw2). specialize (Hm2 _ Hw1). unfold at_ in *.
      destruct (zget_in_range (d_answer d) i) as [a Ha]; [lia|]. destruct (zget_in_range (d_answer d') i) as [a' Ha']; [lia|]. rewrite Ha, Ha' in *. cbn in *. f_equal. lia.
    + intros (v & Hv & Hnr). destruct Hnr. by apply Hall.
  - split; [|done]. intros Hre. destruct Hnr. by apply Hre.
Qed.

Definition road_graph : Graph := [[(1, 4); (2, 1)]; []; [(1, 2)]].

Lemma road_edges u v w : edge road_graph u v w -> 0 <= v < 3 /\ 0 <= w <= 4.
Proof.
  intros (l & Hl & Hin). pose proof (zget_bounds _ _ _ Hl) as Hu. change (zlen road_graph) with 3 in *.
  assert (Hc : u = 0 \/ u = 1 \/ u = 2) by lia. destruct Hc as [->|[->| ->]]; cbn in Hl; injection Hl as <-; rewrite ?elem_of_cons, elem_of_nil in Hin;
    repeat destruct Hin as [Hin|Hin]; try done; injection Hin as -> ->; lia.
Qed.

Lemma dijkstra_correct_witness : exists d, dijkstra first_min 0 (new_dijkstra road_graph) = Ok d /\ zlen (d_answer d) = 3.
Proof.
  destruct (dijkstra_correct road_graph 4 0 first_min) as (d & E & Hl & _).
  - intros u v w He. apply road_edges in He. unfold zlen. cbn. lia.
  - lia.
  - intros u v w He. apply road_edges in He. lia.
  - unfold zlen. cbn. lia.
  - reflexivity.
  - exact first_min_ok.
  - exists d. split; [exact E|exact Hl].
Defined.
