(* ===== verification/Matrix.v ===== *)
(** Vectors of vectors, [std::vector<std::vector<T>>], accessed as [m[u][v]]:
    used by floyd.h, kmp.h and sparse_table.h. *)

From S2P Require Import Prelude Graph.

(** [m[u][v]] and [m[u][v] = x] *)
Definition mget (m : list (list Z)) (u v : Z) : outcome Z := row ← vget m u; vget row v.
Definition mset (m : list (list Z)) (u v x : Z) : outcome (list (list Z)) := row ← vget m u; row ← vset row v x; vset m u row.

(** [n] rows of width [w]. *)
Definition grid (n w : Z) (m : list (list Z)) : Prop :=
  zlen m = n /\ forall i, 0 <= i < n -> exists row, zget m i = Some row /\ zlen row = w.

Lemma grid_replicate n w x : 0 <= n -> 0 <= w -> grid n w (zreplicate n (zreplicate w x)).
Proof.
  intros Hn Hw. split; [rewrite zlen_replicate; lia|]. intros i Hi. exists (zreplicate w x).
  split; [by apply zget_replicate|rewrite zlen_replicate; lia].
Qed.

Lemma grid_mget n w m i j : grid n w m -> 0 <= i < n -> 0 <= j < w -> exists x, mget m i j = Ok x.
Proof.
  intros [_ H] Hi Hj. destruct (H i Hi) as (row & E & Hl). unfold mget. rewrite (vget_some _ _ _ E).
  cbn [mbind outcome_bind]. rewrite vget_at by lia. eauto.
Qed.

Lemma grid_mset n w m i j x :
  grid n w m -> 0 <= i < n -> 0 <= j < w ->
  exists m', mset m i j x = Ok m' /\ grid n w m' /\ mget m' i j = Ok x /\
    forall a b, 0 <= a < n -> a <> i \/ b <> j -> mget m' a b = mget m a b.
Proof.
  intros [Hn H] Hi Hj. destruct (H i Hi) as (row & E & Hl). unfold mset. rewrite (vget_some _ _ _ E). cbn [mbind outcome_bind].
  rewrite vset_at by lia. cbn [mbind outcome_bind]. rewrite vset_at by lia. eexists. split; [done|].
  assert (Ei : zget (zset m i (zset row j x)) i = Some (zset row j x)) by (apply zget_zset_eq; lia). split; [split; [by rewrite zlen_zset|]|split].
  - intros a Ha. destruct (Z.eq_dec a i) as [->|Hne]; [exists (zset row j x); by rewrite zlen_zset|]. rewrite zget_zset_ne by done. by apply H.
  - unfold mget. rewrite (vget_some _ _ _ Ei). cbn [mbind outcome_bind]. apply vget_some. apply zget_zset_eq. lia.
  - intros a b Ha Hne. unfold mget. destruct (Z.eq_dec a i) as [->|Hai].
    + rewrite (vget_some _ _ _ Ei), (vget_some _ _ _ E). cbn [mbind outcome_bind]. unfold vget. rewrite zget_zset_ne; [done|]. destruct Hne; [done|]. by apply not_eq_sym.
    + destruct (H a Ha) as (row' & E' & _). rewrite (vget_some _ _ _ E'). rewrite (vget_some (zset m i (zset row j x)) a row'); [done|]. by rewrite zget_zset_ne.
Qed.
