(* ===== verification/Floyd.v ===== *)
(** Floyd's algorithm of cpp/algorithm/lib/graph/floyd.h: all shortest walks by
    dynamic programming over the intermediate nodes. *)

From S2P Require Import Prelude Graph Matrix.

(** The constructor: the last of several edges from [u] to [v] counts. *)
Definition new_floyd (g : Graph) : outcome (list (list Z)) :=
  m ← for_range 0 (zlen g) (fun u m =>
        l ← vget g u;
        for_range 0 (zlen l) (fun i m => '(v, w) ← vget l i; mset m u v w) m)
      (zreplicate (zlen g) (zreplicate (zlen g) INF));
  for_range 0 (zlen m) (fun u m => mset m u u 0) m.

(** One entry of round [k]. *)
Definition floyd_entry (k u v : Z) (m : list (list Z)) : outcome (list (list Z)) :=
  a ← mget m u v;
  b ← mget m u k;
  c ← mget m k v;
  mset m u v (Z.min a (b + c)).

Definition floyd (m : list (list Z)) : outcome (list (list Z)) :=
  let n := zlen m in
  for_range 0 n (fun k m => for_range 0 n (fun u m => for_range 0 n (fun v m => floyd_entry k u v m) m) m) m.

Example floyd_run : (m ← new_floyd [[(1, 4); (2, 1)]; []; [(1, 2)]]; floyd m) = Ok [[0; 3; 1]; [INF; 0; INF]; [INF; 2; 0]].
Proof. reflexivity. Qed.

(** A negative edge turns "unreachable" into a number: node 1 cannot be reached
    from node 2. *)
Example floyd_negative_unreachable : (m ← new_floyd [[(1, -1)]; []; []]; m ← floyd m; mget m 2 1) = Ok (INF - 1).
Proof. reflexivity. Qed.

(** Of parallel edges the last one counts, not the cheapest. *)
Example floyd_parallel : (m ← new_floyd [[(1, 1); (1, 9)]; []]; m ← floyd m; mget m 0 1) = Ok 9.
Proof. reflexivity. Qed.

(** * Matrices as functions *)

Definition rep (n : Z) (m : list (list Z)) (f : Z -> Z -> Z) : Prop :=
  zlen m = n /\ forall u, 0 <= u < n -> exists row, zget m u = Some row /\ zlen row = n /\ forall v, 0 <= v < n -> at_ row v = f u v.

Lemma rep_mget n m f u v : rep n m f -> 0 <= u < n -> 0 <= v < n -> mget m u v = Ok (f u v).
Proof. intros [_ H] Hu Hv. destruct (H u Hu) as (row & E & Hl & Hr). unfold mget. rewrite (vget_some _ _ _ E). cbn [mbind outcome_bind]. rewrite vget_at by lia. by rewrite Hr. Qed.

Lemma rep_mset n m f u v x :
  rep n m f -> 0 <= u < n -> 0 <= v < n ->
  exists m', mset m u v x = Ok m' /\ rep n m' (fun a b => if (a =? u) && (b =? v) then x else f a b).
Proof.
  intros [Hn H] Hu Hv. destruct (H u Hu) as (row & E & Hl & Hr). unfold mset. rewrite (vget_some _ _ _ E). cbn [mbind outcome_bind].
  rewrite vset_at by lia. cbn [mbind outcome_bind]. rewrite vset_at by lia. eexists. split; [done|]. split; [by rewrite zlen_zset|].
  intros a Ha. destruct (Z.eqb_spec a u) as [->|Hne].
  - exists (zset row v x). split; [apply zget_zset_eq; lia|]. split; [by rewrite zlen_zset|]. intros b Hb. rewrite at_zset by lia. cbn [andb]. destruct (b =? v); [done|]. by apply Hr.
  - destruct (H a Ha) as (row' & E' & Hl' & Hr'). exists row'. split; [by rewrite zget_zset_ne|]. done.
Qed.

Lemma rep_ext n m f f' : (forall u v, 0 <= u < n -> 0 <= v < n -> f u v = f' u v) -> rep n m f -> rep n m f'.
Proof. intros E [Hn H]. split; [done|]. intros u Hu. destruct (H u Hu) as (row & Er & Hl & Hr). exists row. split; [done|]. split; [done|]. intros v Hv. by rewrite Hr, E. Qed.

(** A loop that sets the entries of row [u] one after the other. *)
Definition upto (u v : Z) (f f' : Z -> Z -> Z) : Z -> Z -> Z := fun a b => if (a <? u) || ((a =? u) && (b <? v)) then f' a b else f a b.

Lemma floyd_round n k m f :
  0 <= k < n -> rep n m f -> (forall x, 0 <= x < n -> f x x = 0) -> (forall u v, 0 <= u < n -> 0 <= v < n -> 0 <= f u v) ->
  wp (for_range 0 n (fun u m => for_range 0 n (fun v m => floyd_entry k u v m) m) m) (fun m' => rep n m' (fun u v => Z.min (f u v) (f u k + f k v))).
Proof.
  intros Hk Hm Hd Hpos. set (f' := fun u v => Z.min (f u v) (f u k + f k v)).
  assert (Hcol : forall u, 0 <= u < n -> f' u k = f u k) by (intros u Hu; unfold f'; rewrite (Hd k Hk); lia).
  assert (Hrow : forall v, 0 <= v < n -> f' k v = f k v) by (intros v Hv; unfold f'; rewrite (Hd k Hk); lia).
  apply (wp_for_range (fun u m => rep n m (upto u 0 f f'))).
  - lia.
  - eapply rep_ext; [|exact Hm]. intros a b Ha Hb. unfold upto. destruct (Z.ltb_spec a 0), (Z.ltb_spec b 0); try lia. cbn. by rewrite andb_false_r.
  - intros u m1 Hu H1. apply (wp_for_range (fun v m => rep n m (upto u v f f'))).
    + lia.
    + done.
    + intros v m2 Hv H2. unfold floyd_entry. rewrite !(rep_mget _ _ _ _ _ H2) by lia. cbn [mbind outcome_bind].
      assert (E1 : upto u v f f' u v = f u v) by (unfold upto; rewrite Z.ltb_irrefl, Z.eqb_refl, Z.ltb_irrefl; done).
      assert (E2 : upto u v f f' u k = f u k) by (unfold upto; destruct (_ || _); [by apply Hcol|done]).
      assert (E3 : upto u v f f' k v = f k v) by (unfold upto; destruct (_ || _); [by apply Hrow|done]).
      rewrite E1, E2, E3. destruct (rep_mset _ _ _ u v (Z.min (f u v) (f u k + f k v)) H2 Hu Hv) as (m3 & -> & H3). apply wp_ret.
      eapply rep_ext; [|exact H3]. intros a b Ha Hb. unfold upto. cbn.
      destruct (Z.eqb_spec a u) as [->|], (Z.eqb_spec b v) as [->|]; cbn; rewrite ?Z.ltb_irrefl; cbn.
      * replace (v <? v + 1) with true by lia. done.
      * destruct (Z.ltb_spec b v), (Z.ltb_spec b (v + 1)); try lia; done.
      * by rewrite orb_false_r.
      * by rewrite orb_false_r.
    + intros m2 H2. eapply rep_ext; [|exact H2]. intros a b Ha Hb. unfold upto.
      destruct (Z.ltb_spec a u), (Z.ltb_spec a (u + 1)), (Z.eqb_spec a u), (Z.eqb_spec a (u + 1)), (Z.ltb_spec b n), (Z.ltb_spec b 0); try lia; done.
  - intros m' H'. eapply rep_ext; [|exact H']. intros a b Ha Hb. unfold upto. destruct (Z.ltb_spec a n); [done|lia].
Qed.

(** * The initial matrix *)

Section Proof.
Context (g : Graph) (W : Z).
Hypothesis Hg : wf_graph g W.
Hypothesis Hpos : forall u v w, edge g u v w -> 0 <= w.
Hypothesis Hsimple : forall u v w w', edge g u v w -> edge g u v w' -> w = w'.
Hypothesis HW : 0 <= W.
Hypothesis Hinf : zlen g * W < INF.

Definition from_edges (f : Z -> Z -> Z) : Prop := forall a b, f a b = INF \/ edge g a b (f a b).

Lemma edges_row n m f u l :
  n = zlen g -> zget g u = Some l -> rep n m f -> from_edges f -> (forall a b w, a < u -> edge g a b w -> f a b = w) ->
  wp (for_range 0 (zlen l) (fun i m => '(v, w) ← vget l i; mset m u v w) m)
     (fun m' => exists f', rep n m' f' /\ from_edges f' /\ forall a b w, a < u + 1 -> edge g a b w -> f' a b = w).
Proof.
  intros -> Hl Hm Hf Hdone. pose proof (zget_bounds _ _ _ Hl) as Hu.
  apply (wp_for_range (fun i m => exists f', rep (zlen g) m f' /\ from_edges f' /\ (forall a b w, a < u -> edge g a b w -> f' a b = w) /\
    forall j b w, j < i -> zget l j = Some (b, w) -> f' u b = w)).
  - apply zlen_nonneg.
  - exists f. split; [done|]. split; [done|]. split; [done|]. intros j b w Hj Hz. apply zget_bounds in Hz. lia.
  - intros i m1 Hi (f1 & H1 & Hf1 & Ha & Hb). destruct (zget_in_range l i Hi) as [[v w] Hvw]. rewrite (vget_some _ _ _ Hvw). cbn [mbind outcome_bind].
    assert (He : edge g u v w) by (exists l; split; [done|by eapply zget_elem]). destruct (Hg _ _ _ He) as [Hv _].
    destruct (rep_mset _ _ _ u v w H1 Hu Hv) as (m2 & -> & H2). apply wp_ret. eexists. split; [exact H2|]. split; [|split].
    + intros a b. destruct (Z.eqb_spec a u) as [->|], (Z.eqb_spec b v) as [->|]; cbn; try apply Hf1. by right.
    + intros a b w' Hau He'. destruct (Z.eqb_spec a u) as [->|]; [lia|]. by apply Ha.
    + intros j b w' Hj Hz. rewrite Z.eqb_refl. cbn. destruct (Z.eqb_spec b v) as [->|].
      * eapply Hsimple; [exact He|]. exists l. split; [done|by eapply zget_elem].
      * apply (Hb j); [|done]. assert (j <> i) by congruence. lia.
  - intros m1 (f1 & H1 & Hf1 & Ha & Hb). exists f1. split; [done|]. split; [done|]. intros a b w Hau He. destruct (Z.eq_dec a u) as [->|]; [|apply Ha; [lia|done]].
    destruct He as (l' & Hl' & Hin). assert (l' = l) as -> by congruence. apply list_elem_of_lookup in Hin as [j Hj].
    apply (Hb (Z.of_nat j)); [|by rewrite zget_nat]. apply lookup_lt_Some in Hj. unfold zlen. lia.
Qed.

Lemma new_floyd_ok :
  wp (new_floyd g) (fun m => exists f, rep (zlen g) m f /\ (forall u, f u u = 0) /\ (forall u v, u <> v -> f u v = INF \/ edge g u v (f u v)) /\
    forall u v w, u <> v -> edge g u v w -> f u v = w).
Proof.
  unfold new_floyd. pose proof (zlen_nonneg g) as Hn. apply wp_bind. eapply wp_mono.
  - apply (wp_for_range (fun u m => exists f, rep (zlen g) m f /\ from_edges f /\ forall a b w, a < u -> edge g a b w -> f a b = w)
      (fun m => exists f, rep (zlen g) m f /\ from_edges f /\ forall a b w, edge g a b w -> f a b = w)).
    + done.
    + exists (fun _ _ => INF). split; [|split; [by left|]].
      * split; [rewrite zlen_replicate; lia|]. intros u Hu. eexists. split; [by apply zget_replicate|]. split; [rewrite zlen_replicate; lia|]. intros v Hv. by apply at_replicate.
      * intros a b w Ha He. apply edge_node in He. lia.
    + intros u m Hu (f & Hm & Hf & Hd). destruct (zget_in_range g u Hu) as [l Hl]. rewrite (vget_some _ _ _ Hl). cbn [mbind outcome_bind]. by eapply edges_row.
    + intros m (f & Hm & Hf & Hd). exists f. split; [done|]. split; [done|]. intros a b w He. apply Hd; [|done]. apply edge_node in He. lia.
  - intros m (f & Hm & Hf & Hd). rewrite (proj1 Hm). eapply wp_for_range with (I := fun u m => rep (zlen g) m (fun a b => if (a =? b) && (a <? u) then 0 else f a b)).
    + done.
    + eapply rep_ext; [|exact Hm]. intros a b Ha Hb. destruct (Z.ltb_spec a 0); [lia|]. by rewrite andb_false_r.
    + intros u m1 Hu H1. destruct (rep_mset _ _ _ u u 0 H1 Hu Hu) as (m2 & -> & H2). apply wp_ret. eapply rep_ext; [|exact H2]. intros a b Ha Hb. cbn.
      destruct (Z.eqb_spec a u), (Z.eqb_spec b u), (Z.eqb_spec a b), (Z.ltb_spec a u), (Z.ltb_spec a (u + 1)); subst; try lia; done.
    + intros m1 H1. exists (fun a b => if a =? b then 0 else f a b). split.
      * eapply rep_ext; [|exact H1]. intros a b Ha Hb. cbn. destruct (Z.ltb_spec a (zlen g)); [|lia]. by rewrite andb_true_r.
      * split; [intros u; by rewrite Z.eqb_refl|]. split.
        -- intros u v Huv. destruct (Z.eqb_spec u v); [done|]. apply Hf.
        -- intros u v w Huv He. destruct (Z.eqb_spec u v); [done|]. by apply Hd.
Qed.

(** * Intermediate nodes *)

(** All nodes strictly between the ends of the walk are below [k]. *)
Fixpoint inner_lt (k : Z) (es : list (Z * Z)) : Prop :=
  match es with [] => True | [_] => True | (x, _) :: es => x < k /\ inner_lt k es end.

Lemma inner_all g' u es v : wf_graph g' W -> walk g' u es v -> inner_lt (zlen g') es.
Proof.
  intros Hg'. revert u. induction es as [|[x w] es IH]; intros u; [done|]. intros [He Hw]. destruct es as [|e es]; [done|]. split; [by eapply Hg'|by eapply IH].
Qed.

(** A walk whose inner nodes are at most [k] passes through [k] or not. *)
Lemma inner_split k es u v :
  walk g u es v -> inner_lt (k + 1) es -> inner_lt k es \/ exists e1 e2, es = e1 ++ e2 /\ e2 <> [] /\ (length e1 > 0)%nat /\ walk g u e1 k /\ walk g k e2 v /\ inner_lt k e1 /\ inner_lt (k + 1) e2.
Proof.
  revert u. induction es as [|[x w] es IH]; intros u; [by left|]. intros [He Hw] Hin. destruct es as [|e es]; [by left|]. destruct Hin as [Hx Hin].
  destruct (Z.eq_dec x k) as [->|Hne].
  - right. exists [(k, w)], (e :: es). split; [done|]. split; [done|]. split; [cbn; lia|]. split; [cbn; done|]. done.
  - destruct (IH x Hw Hin) as [Hl|(e1 & e2 & E & Hne2 & Hl1 & Hw1 & Hw2 & Hi1 & Hi2)].
    + left. split; [lia|done].
    + right. exists ((x, w) :: e1), e2. split; [by rewrite E|]. split; [done|]. split; [cbn; lia|]. split; [done|]. split; [done|]. split; [|done].
      destruct e1; [cbn in Hl1; lia|]. split; [lia|done].
Qed.

Lemma walk_nonneg u es v : walk g u es v -> 0 <= cost es.
Proof. revert u. induction es as [|[x w] es IH]; intros u; cbn; [lia|]. intros [He Hw]. specialize (IH _ Hw). pose proof (Hpos _ _ _ He). lia. Qed.

Record floyd_inv (k : Z) (f : Z -> Z -> Z) : Prop := {
  f_diag : forall u, 0 <= u < zlen g -> f u u = 0;
  f_range : forall u v, 0 <= u < zlen g -> 0 <= v < zlen g -> 0 <= f u v <= INF;
  f_walk : forall u v, 0 <= u < zlen g -> 0 <= v < zlen g -> f u v <> INF -> exists es, walk g u es v /\ cost es = f u v;
  f_best : forall u v es, 0 <= u < zlen g -> walk g u es v -> inner_lt k es -> f u v <= cost es }.

Lemma floyd_inv_start f :
  (forall u, f u u = 0) -> (forall u v, u <> v -> f u v = INF \/ edge g u v (f u v)) -> (forall u v w, u <> v -> edge g u v w -> f u v = w) -> floyd_inv 0 f.
Proof.
  intros Hd Hf He. constructor.
  - done.
  - intros u v Hu Hv. destruct (Z.eq_dec u v) as [->|Hne]; [rewrite Hd; unfold INF, int_max; lia|]. destruct (Hf u v Hne) as [->|E]; [unfold INF, int_max; lia|].
    pose proof (Hpos _ _ _ E). destruct (Hg _ _ _ E) as [_ ?]. nia.
  - intros u v Hu Hv Hi. destruct (Z.eq_dec u v) as [->|Hne]; [exists []; by rewrite Hd|]. destruct (Hf u v Hne) as [|E]; [done|]. exists [(v, f u v)]. split; [by split|]. cbn. lia.
  - intros u v es Hu Hw Hin. destruct es as [|[x w] es]; [cbn in Hw; subst; by rewrite Hd|]. destruct Hw as [E Hw]. destruct es as [|e es].
    + cbn in Hw. subst v. cbn. pose proof (Hpos _ _ _ E). destruct (Z.eq_dec u x) as [->|Hne]; [rewrite Hd; lia|]. rewrite (He u x w Hne E). lia.
    + destruct Hin as [Hx _]. destruct (Hg _ _ _ E). lia.
Qed.

Lemma floyd_inv_step k f : 0 <= k < zlen g -> floyd_inv k f -> floyd_inv (k + 1) (fun u v => Z.min (f u v) (f u k + f k v)).
Proof.
  intros Hk [Hd Hr Hw Hb]. constructor.
  - intros u Hu. rewrite Hd by done. pose proof (Hr u k Hu Hk). pose proof (Hr k u Hk Hu). lia.
  - intros u v Hu Hv. pose proof (Hr u v Hu Hv). pose proof (Hr u k Hu Hk). pose proof (Hr k v Hk Hv). lia.
  - intros u v Hu Hv Hi. pose proof (Hr u v Hu Hv). pose proof (Hr u k Hu Hk). pose proof (Hr k v Hk Hv). destruct (Z.le_gt_cases (f u v) (f u k + f k v)).
    + rewrite Z.min_l in * by lia. by apply Hw.
    + rewrite Z.min_r in * by lia. destruct (Hw u k Hu Hk ltac:(lia)) as (e1 & Hw1 & Hc1), (Hw k v Hk Hv ltac:(lia)) as (e2 & Hw2 & Hc2).
      exists (e1 ++ e2). split; [apply walk_app; by exists k|]. rewrite cost_app. lia.
  - assert (Hfrom : forall es v, walk g k es v -> inner_lt (k + 1) es -> f k v <= cost es).
    { intros es. remember (length es) as n eqn:En. revert es En. induction n as [n IH] using lt_wf_ind. intros es -> v Hes Hin.
      destruct (inner_split k es k v Hes Hin) as [Hl|(e1 & e2 & -> & Hne & Hl1 & Hw1 & Hw2 & Hi1 & Hi2)]; [by apply Hb|].
      rewrite length_app in IH. specialize (IH (length e2) ltac:(lia) e2 eq_refl v Hw2 Hi2). rewrite cost_app. pose proof (walk_nonneg _ _ _ Hw1). lia. }
    intros u v es Hu Hes Hin. destruct (inner_split k es u v Hes Hin) as [Hl|(e1 & e2 & -> & _ & _ & Hw1 & Hw2 & Hi1 & Hi2)].
    + specialize (Hb u v es Hu Hes Hl). lia.
    + rewrite cost_app. specialize (Hb u k e1 Hu Hw1 Hi1). specialize (Hfrom e2 v Hw2 Hi2). lia.
Qed.

Lemma floyd_ok : wp (m ← new_floyd g; floyd m) (fun m => exists f, rep (zlen g) m f /\ floyd_inv (zlen g) f).
Proof.
  apply wp_bind. eapply wp_mono; [apply new_floyd_ok|]. intros m (f & Hm & Hd & Hf & He). unfold floyd. rewrite (proj1 Hm).
  apply (wp_for_range (fun k m => exists f, rep (zlen g) m f /\ floyd_inv k f)); [apply zlen_nonneg| | |done].
  - exists f. split; [done|]. by apply floyd_inv_start.
  - intros k m1 Hk (f1 & H1 & Hi1). eapply wp_mono; [apply (floyd_round _ k m1 f1 Hk H1); [apply Hi1|intros; by apply Hi1]|].
    intros m2 H2. eexists. split; [exact H2|]. by apply floyd_inv_step.
Qed.
End Proof.

(** C35: for non-negative weights without conflicting parallel edges, whose maximum
    times the number of nodes is below INT32_MAX (the value that stands for
    unreachable), Floyd computes for every pair of nodes the length of a shortest walk,
    and INT32_MAX when there is none. *)
Theorem floyd_correct (g : Graph) (W : Z) :
  wf_graph g W -> (forall u v w, edge g u v w -> 0 <= w) -> (forall u v w w', edge g u v w -> edge g u v w' -> w = w') -> 0 <= W -> zlen g * W < INF ->
  exists m, (m ← new_floyd g; floyd m) = Ok m /\ forall u v, 0 <= u < zlen g -> 0 <= v < zlen g -> exists d, mget m u v = Ok d /\
    (reachable g u v -> shortest g u v d) /\ (~ reachable g u v -> d = INF).
Proof.
  intros Hg Hpos Hsi HW Hinf. destruct (floyd_ok g W Hg Hpos Hsi Hinf) as (m & E & f & Hm & [Hd Hr Hw Hb]). exists m. split; [done|].
  intros u v Hu Hv. exists (f u v). split; [by apply (rep_mget (zlen g))|]. split.
  - intros [es Hes]. destruct (walk_shorten g W u es v Hg Hu Hes) as (es' & Hes' & Hl & _). pose proof (walk_cost_bound _ _ _ _ _ Hg Hes') as Hc.
    pose proof (Hb u v es' Hu Hes' (inner_all W g u es' v Hg Hes')) as Hbest. assert (Hlt : f u v < INF) by nia. split; [apply Hw; [done|done|lia]|].
    intros es2 Hes2. apply Hb; [done|done|]. by eapply inner_all.
  - intros Hno. destruct (Z.eq_dec (f u v) INF) as [|Hne]; [done|]. destruct (Hw u v Hu Hv Hne) as (es & Hes & _). destruct Hno. by exists es.
Qed.

Lemma floyd_correct_witness : exists m, (m ← new_floyd [[(1, 5)]; []]; floyd m) = Ok m /\ exists d, mget m 0 1 = Ok d /\ (reachable [[(1, 5)]; []] 0 1 -> shortest [[(1, 5)]; []] 0 1 d).
Proof.
  assert (He : forall u v w, edge [[(1, 5)]; []] u v w -> u = 0 /\ v = 1 /\ w = 5).
  { intros u v w (l & Hl & Hin). pose proof (zget_bounds _ _ _ Hl) as Hu. unfold zlen in Hu. cbn in Hu. assert (Hc : u = 0 \/ u = 1) by lia.
    destruct Hc as [-> | ->]; cbn in Hl; injection Hl as <-; rewrite ?elem_of_cons, elem_of_nil in Hin; [destruct Hin as [Hin|Hin]; [|done]; by injection Hin as -> ->|done]. }
  destruct (floyd_correct [[(1, 5)]; []] 5) as (m & E & H).
  - intros u v w H. apply He in H. unfold zlen. cbn. lia.
  - intros u v w H. apply He in H. lia.
  - intros u v w w' H H'. apply He in H, H'. lia.
  - lia.
  - reflexivity.
  - exists m. split; [exact E|]. destruct (H 0 1) as (d & Ed & Hs & _); [unfold zlen; cbn; lia..|]. exists d. split; [exact Ed|exact Hs].
Defined.
