(* ===== verification/TopoSort.v ===== *)
(** The topological sort of cpp/algorithm/lib/graph/topological_sort.h.

    [operator()] takes the in-degrees and the successor lists; it appends to the
    member [answer], which it does not clear. *)

From S2P Require Import Prelude Graph.

(** In-degrees, queue and [answer]. *)
Definition topo_state : Type := list Z * list Z * list Z.

Definition sources (indeg : list Z) : outcome (list Z) :=
  for_range 0 (zlen indeg) (fun v q => d ← vget indeg v; Ok (if d =? 0 then q ++ [v] else q)) [].

(** [if (--in[v] == 0) q.push(v)] *)
Definition release (v : Z) (st : list Z * list Z) : outcome (list Z * list Z) :=
  let '(indeg, q) := st in
  d ← vget indeg v;
  indeg ← vset indeg v (d - 1);
  Ok (indeg, if d - 1 =? 0 then q ++ [v] else q).

Definition topo_step (graph : list (list Z)) (st : topo_state) : outcome (topo_state + list Z) :=
  let '(indeg, q, answer) := st in
  match q with
  | [] => Ok (inr answer)
  | u :: q =>
      l ← vget graph u;
      '(indeg, q) ← for_each l release (indeg, q);
      Ok (inl (indeg, q, answer ++ [u]))
  end.

Definition topological_sort (indeg : list Z) (graph : list (list Z)) (answer : list Z) : outcome (bool * list Z) :=
  q ← sources indeg;
  answer ← while_fuel (length indeg + 1) (topo_step graph) (indeg, q, answer);
  Ok (zlen answer =? zlen graph, answer).

Example topo_run : topological_sort [0; 1; 2] [[1; 2]; [2]; []] [] = Ok (true, [0; 1; 2]) /\
  topological_sort [0; 2; 1] [[1]; [2]; [1]] [] = Ok (false, [0]) /\
  (* a second call on the same object *)
  topological_sort [0; 1] [[1]; []] [0; 1] = Ok (false, [0; 1; 0; 1]).
Proof. by split. Qed.

(** The graph with weights 0. *)
Definition zero_weights (l : list Z) : list (Z * Z) := (fun v => (v, 0)) <$> l.
Definition unweighted (graph : list (list Z)) : Graph := zero_weights <$> graph.

Definition arc (graph : list (list Z)) (u v : Z) : Prop := exists l, zget graph u = Some l /\ v ∈ l.

Definition acyclic (graph : list (list Z)) : Prop := ~ exists u es, es <> [] /\ walk (unweighted graph) u es u.

Lemma zget_fmap {A B} (f : A -> B) (l : list A) i : zget (f <$> l) i = f <$> zget l i.
Proof. unfold zget. destruct (i <? 0); [done|]. apply list_lookup_fmap. Qed.

Lemma arc_edge graph u v w : edge (unweighted graph) u v w <-> arc graph u v /\ w = 0.
Proof.
  unfold edge, arc, unweighted. split.
  - intros (l & Hl & Hin). rewrite zget_fmap in Hl. destruct (zget graph u) as [l'|]; [|done]. cbn in Hl. injection Hl as <-.
    apply list_elem_of_fmap in Hin as (x & [= -> ->] & Hx). split; [|done]. by exists l'.
  - intros ((l & Hl & Hin) & ->). exists (zero_weights l). split; [by rewrite zget_fmap, Hl|]. apply list_elem_of_fmap. by exists v.
Qed.

(** * Counting arcs *)

(** How often [v] occurs. *)
Definition occurs (v : Z) (l : list Z) : Z := zlen (filter (fun x => x = v) l).

Definition succs (graph : list (list Z)) (u : Z) : list Z := default [] (zget graph u).

(** The arcs into [v] from nodes outside [done]. *)
Definition pending (graph : list (list Z)) (done : list Z) (v : Z) : Z :=
  zsum ((fun u => if decide (u ∈ done) then 0 else occurs v (succs graph u)) <$> seqZ 0 (zlen graph)).

Definition indegrees (graph : list (list Z)) : list Z := (fun v => pending graph [] v) <$> seqZ 0 (zlen graph).

Lemma occurs_cons v x l : occurs v (x :: l) = (if x =? v then 1 else 0) + occurs v l.
Proof. unfold occurs. rewrite list.filter_cons. destruct (Z.eqb_spec x v); case_decide; try done. rewrite zlen_cons. lia. Qed.

Lemma occurs_nonneg v l : 0 <= occurs v l.
Proof. apply zlen_nonneg. Qed.

Lemma occurs_pos v l : v ∈ l <-> 0 < occurs v l.
Proof.
  induction l as [|x l IH]; [split; [by intros ?%elem_of_nil|by cbn]|]. rewrite elem_of_cons, occurs_cons, IH. pose proof (occurs_nonneg v l).
  destruct (Z.eqb_spec x v) as [->|Hne]; [split; [lia|by left]|]. split; [intros [->|]; [done|lia]|intros; right; lia].
Qed.

Lemma zsum_fmap_le (f h : Z -> Z) (l : list Z) : (forall x, x ∈ l -> f x <= h x) -> zsum (f <$> l) <= zsum (h <$> l).
Proof.
  induction l as [|x l IH]; intros H; [done|]. cbn. pose proof (H x ltac:(left)). enough (zsum (f <$> l) <= zsum (h <$> l)) by (unfold zsum in *; lia).
  apply IH. intros y Hy. apply H. by right.
Qed.

Lemma zsum_fmap_ext (f h : Z -> Z) (l : list Z) : (forall x, x ∈ l -> f x = h x) -> zsum (f <$> l) = zsum (h <$> l).
Proof. intros H. apply Z.le_antisymm; apply zsum_fmap_le; intros x Hx; rewrite (H x Hx); lia. Qed.

(** A sum that changes at one element. *)
Lemma zsum_fmap_at (f h : Z -> Z) (l : list Z) u : NoDup l -> u ∈ l -> (forall x, x ∈ l -> x <> u -> f x = h x) -> zsum (f <$> l) = zsum (h <$> l) - h u + f u.
Proof.
  intros Hnd Hu Hf. apply list_elem_of_split in Hu as (l1 & l2 & ->). apply list.NoDup_app in Hnd as (_ & H1 & Hnd). apply list.NoDup_cons in Hnd as [H2 _].
  rewrite !fmap_app, !fmap_cons, !zsum_app, !zsum_cons. rewrite (zsum_fmap_ext f h l1), (zsum_fmap_ext f h l2).
  - lia.
  - intros x Hx. apply Hf; [apply elem_of_app; right; by right|]. by intros ->.
  - intros x Hx. apply Hf; [apply elem_of_app; by left|]. intros ->. apply (H1 u Hx). left.
Qed.

Section Proof.
Context (graph : list (list Z)).
Hypothesis Hwf : forall u v, arc graph u v -> 0 <= v < zlen graph.

Definition vertex (v : Z) : Prop := 0 <= v < zlen graph.

Lemma succs_arc u v : vertex u -> (v ∈ succs graph u <-> arc graph u v).
Proof.
  intros Hu. unfold succs, arc. destruct (zget_in_range graph u Hu) as [l Hl]. rewrite Hl. cbn. split; [intros; by exists l|]. intros (l' & [= <-] & H). done.
Qed.

Lemma pending_add done u v : vertex u -> u ∉ done -> pending graph (done ++ [u]) v = pending graph done v - occurs v (succs graph u).
Proof.
  intros Hu Hnd. unfold pending. rewrite (zsum_fmap_at _ (fun x => if decide (x ∈ done) then 0 else occurs v (succs graph x)) _ u).
  - rewrite decide_False by done. rewrite decide_True by (apply elem_of_app; right; left). lia.
  - apply NoDup_seqZ.
  - apply elem_of_seqZ. unfold vertex in Hu. lia.
  - intros x _ Hne. destruct (decide (x ∈ done)) as [Hx|Hx].
    + rewrite decide_True; [done|]. apply elem_of_app. by left.
    + rewrite decide_False; [done|]. intros [|Hx'%list_elem_of_singleton]%elem_of_app; done.
Qed.

Lemma pending_nonneg done v : 0 <= pending graph done v.
Proof.
  unfold pending. etrans; [|apply (zsum_fmap_le (fun _ => 0))].
  - generalize (seqZ 0 (zlen graph)). induction l as [|x l IH]; [done|]. exact IH.
  - intros x _. cbn. case_decide; [done|]. apply occurs_nonneg.
Qed.

(** A positive number of pending arcs has a source. *)
Lemma pending_pred done v : 0 < pending graph done v -> exists u, vertex u /\ (u ∉ done) /\ arc graph u v.
Proof.
  unfold pending. intros H. assert (Hex : exists u, u ∈ seqZ 0 (zlen graph) /\ 0 < (if decide (u ∈ done) then 0 else occurs v (succs graph u))).
  { revert H. generalize (seqZ 0 (zlen graph)). induction l as [|x l IH]; [done|]. cbn. intros H.
    destruct (Z.lt_ge_cases 0 (if decide (x ∈ done) then 0 else occurs v (succs graph x))) as [Hx|Hx]; [exists x; split; [left|done]|].
    destruct IH as (u & Hu & Hp); [unfold zsum in *; lia|]. exists u. split; [by right|done]. }
  destruct Hex as (u & Hu & Hp). apply elem_of_seqZ in Hu. case_decide; [done|]. exists u. split; [unfold vertex; lia|]. split; [done|].
  apply succs_arc; [unfold vertex; lia|]. by apply occurs_pos.
Qed.

Lemma pending_zero done u v : pending graph done v = 0 -> arc graph u v -> u ∈ done.
Proof.
  intros H Ha. destruct (decide (u ∈ done)) as [|Hu]; [done|]. exfalso.
  assert (Hv : vertex u) by (destruct Ha as (l & Hl & _); by eapply zget_bounds).
  pose proof (pending_add done u v Hv Hu) as E. pose proof (pending_nonneg (done ++ [u]) v). apply succs_arc in Ha; [|done]. apply occurs_pos in Ha. lia.
Qed.

(** * The invariant *)

(** Every node comes after all its predecessors. *)
Definition ordered (l : list Z) : Prop := forall l1 v l2, l = l1 ++ v :: l2 -> forall u, arc graph u v -> u ∈ l1.

(** [done] is processed, [q] is queued; arcs in [rest] leave the last node of
    [done] and are not yet released. *)
Record topo (done q rest indeg : list Z) : Prop := {
  o_len : zlen indeg = zlen graph;
  o_nodup : NoDup (done ++ q);
  o_vertex : forall v, v ∈ done ++ q -> vertex v;
  o_indeg : forall v, vertex v -> at_ indeg v = pending graph done v + occurs v rest;
  o_zero : forall v, vertex v -> (v ∈ done ++ q <-> at_ indeg v = 0);
  o_rest : forall v, v ∈ rest -> vertex v;
  o_order : ordered (done ++ q) }.

Lemma ordered_snoc l v : ordered l -> (forall u, arc graph u v -> u ∈ l) -> ordered (l ++ [v]).
Proof.
  intros Ho Hv l1 x l2 E u Ha. destruct l2 as [|y l2] using rev_ind.
  - apply app_inj_tail in E as [-> ->]. by apply Hv.
  - clear IHl2. rewrite app_comm_cons, app_assoc in E. apply app_inj_tail in E as [-> _]. by apply (Ho l1 x l2 eq_refl).
Qed.

Lemma release_arc_ok done q v rest indeg :
  topo done q (v :: rest) indeg -> wp (release v (indeg, q)) (fun st => topo done st.2 rest st.1 /\ (length st.2 <= length q + 1)%nat).
Proof.
  intros [Hl Hnd Hv Hi Hz Hr Ho]. assert (Hvv : vertex v) by (apply Hr; left). pose proof (Hi v Hvv) as Hiv. rewrite occurs_cons, Z.eqb_refl in Hiv.
  pose proof (pending_nonneg done v) as Hp. pose proof (occurs_nonneg v rest) as Hoc. unfold release, vertex in *. rewrite vget_at by lia. cbn [mbind outcome_bind].
  rewrite vset_at by lia. cbn [mbind outcome_bind]. apply wp_ret. cbn [fst snd].
  assert (Eat : forall x, at_ (zset indeg v (at_ indeg v - 1)) x = if x =? v then at_ indeg v - 1 else at_ indeg x) by (intros x; apply at_zset; lia).
  assert (Hind : forall x, 0 <= x < zlen graph -> at_ (zset indeg v (at_ indeg v - 1)) x = pending graph done x + occurs x rest).
  { intros x Hx. rewrite Eat, (Hi x Hx), occurs_cons. rewrite (Z.eqb_sym v x). destruct (Z.eqb_spec x v) as [->|]; lia. }
  assert (Hvn : v ∉ done ++ q) by (intros Hin; apply Hz in Hin; [lia|done]).
  destruct (Z.eqb_spec (at_ indeg v - 1) 0) as [E0|E0].
  - split; [|rewrite length_app; cbn; lia]. constructor; rewrite ?zlen_zset; try done.
    + rewrite app_assoc. apply list.NoDup_app. split; [done|]. split; [|apply NoDup_singleton]. intros x Hx ->%list_elem_of_singleton. done.
    + intros x. rewrite app_assoc, elem_of_app, list_elem_of_singleton. intros [Hx| ->]; [by apply Hv|done].
    + intros x Hx. rewrite Eat, app_assoc, elem_of_app, list_elem_of_singleton. destruct (Z.eqb_spec x v) as [->|Hne]; [split; [done|by right]|].
      rewrite <- (Hz x Hx). split; [intros [|]; done|by left].
    + intros x Hx. apply Hr. by right.
    + rewrite app_assoc. apply ordered_snoc; [done|]. intros u Ha. apply elem_of_app. left. apply (pending_zero done u v); [lia|done].
  - split; [|lia]. constructor; rewrite ?zlen_zset; try done.
    + intros x Hx. rewrite Eat. destruct (Z.eqb_spec x v) as [->|Hne]; [|by apply Hz]. split; [intros; done|lia].
    + intros x Hx. apply Hr. by right.
Qed.

Lemma release_all_ok done l q indeg :
  topo done q l indeg -> wp (for_each l release (indeg, q)) (fun st => topo done st.2 [] st.1).
Proof.
  revert q indeg. induction l as [|v l IH]; intros q indeg H; cbn [for_each]; [by apply wp_ret|]. apply wp_bind.
  eapply wp_mono; [by apply release_arc_ok|]. intros [indeg' q'] [H' _]. by apply IH.
Qed.

(** Taking [u] from the queue. *)
Lemma topo_take done u q indeg : topo done (u :: q) [] indeg -> topo (done ++ [u]) q (succs graph u) indeg.
Proof.
  intros [Hl Hnd Hv Hi Hz Hr Ho]. assert (Hu : vertex u) by (apply Hv, elem_of_app; right; left).
  assert (Hun : u ∉ done) by (apply list.NoDup_app in Hnd as (_ & Hd & _); intros Hin; apply (Hd u Hin); left).
  constructor; rewrite <- ?app_assoc; cbn [app]; try done.
  - intros v Hvv. rewrite (Hi v Hvv), pending_add by done. change (occurs v []) with 0. lia.
  - intros v Hin. apply (Hwf u). by apply succs_arc.
Qed.

Lemma sources_ok indeg : zlen indeg = zlen graph -> wp (sources indeg) (fun q => NoDup q /\ forall v, v ∈ q <-> vertex v /\ at_ indeg v = 0).
Proof.
  intros Hl. unfold sources, vertex. rewrite Hl. apply (wp_for_range (fun i q => NoDup q /\ forall v, v ∈ q <-> 0 <= v < i /\ at_ indeg v = 0)); [apply zlen_nonneg| | |done].
  - split; [constructor|]. intros v. rewrite elem_of_nil. lia.
  - intros i q Hi [Hnd Hq]. rewrite vget_at by lia. cbn [mbind outcome_bind]. apply wp_ret. destruct (Z.eqb_spec (at_ indeg i) 0) as [E|E].
    + split.
      * apply list.NoDup_app. split; [done|]. split; [|apply NoDup_singleton]. intros x Hx ->%list_elem_of_singleton. apply Hq in Hx. lia.
      * intros v. rewrite elem_of_app, list_elem_of_singleton, Hq. destruct (Z.eq_dec v i) as [->|]; [split; [split; [lia|done]|by right]|].
        split; [intros [[? ?]|?]; [split; [lia|done]|done]|intros [? ?]; left; split; [lia|done]].
    + split; [done|]. intros v. rewrite Hq. destruct (Z.eq_dec v i) as [->|]; [split; [lia|intros [_ ?]; done]|].
      split; intros [? ?]; (split; [lia|done]).
Qed.

Lemma topo_ok :
  wp (topological_sort (indegrees graph) graph []) (fun r => r.1 = (zlen r.2 =? zlen graph) /\ exists indeg, topo r.2 [] [] indeg).
Proof.
  unfold topological_sort. assert (Hlen : zlen (indegrees graph) = zlen graph) by (unfold indegrees; apply zlen_fmap_seqZ, zlen_nonneg).
  assert (Hat : forall v, vertex v -> at_ (indegrees graph) v = pending graph [] v).
  { intros v Hv. unfold at_, indegrees. rewrite zget_fmap_seqZ by done. by rewrite Z.add_0_l. }
  apply wp_bind. eapply wp_mono; [by apply sources_ok|]. intros q0 [Hnd Hq0].
  assert (H0 : topo [] q0 [] (indegrees graph)).
  { constructor; cbn [app]; try done.
    - intros v Hv. by apply Hq0.
    - intros v Hv. rewrite Hat by done. change (occurs v []) with 0. lia.
    - intros v Hv. rewrite Hq0. tauto.
    - intros v Hv. by apply elem_of_nil in Hv.
    - intros l1 v l2 E u Ha. assert (Hv : v ∈ q0) by (rewrite E; apply elem_of_app; right; left). apply Hq0 in Hv as [Hv Hz]. rewrite Hat in Hz by done.
      pose proof (pending_zero [] u v Hz Ha) as Hin. by apply elem_of_nil in Hin. }
  apply wp_bind. eapply wp_mono.
  - apply (wp_while (fun st => topo st.2 st.1.2 [] st.1.1) (fun st => length graph - length st.2)%nat (fun a => exists indeg, topo a [] [] indeg)); [done| |].
    + cbn. unfold zlen in Hlen. lia.
    + intros [[indeg q] done] H. cbn [fst snd] in *. unfold topo_step. destruct q as [|u q]; [apply wp_ret; by exists indeg|].
      pose proof (o_vertex _ _ _ _ H u ltac:(apply elem_of_app; right; left)) as Hu. destruct (zget_in_range graph u Hu) as [l El].
      rewrite (vget_some _ _ _ El). cbn [mbind outcome_bind]. assert (Es : succs graph u = l) by (unfold succs; by rewrite El).
      pose proof (topo_take _ _ _ _ H) as Ht. rewrite Es in Ht. apply wp_bind. eapply wp_mono; [by apply release_all_ok|]. intros [indeg' q'] H'. apply wp_ret.
      cbn [fst snd] in *. split; [done|]. rewrite length_app. cbn.
      assert (Hsub : done ++ [u] ⊆+ seqZ 0 (zlen graph)).
      { pose proof (o_nodup _ _ _ _ H') as Hn'. apply list.NoDup_app in Hn' as (Hn' & _ & _). apply NoDup_submseteq; [done|]. intros x Hx. apply elem_of_seqZ.
        pose proof (o_vertex _ _ _ _ H' x ltac:(apply elem_of_app; by left)). unfold vertex in *. lia. }
      apply submseteq_length in Hsub. rewrite length_app, length_seqZ in Hsub. cbn in Hsub. unfold zlen in Hsub. lia.
  - intros a [indeg Ha]. apply wp_ret. cbn. split; [done|]. by exists indeg.
Qed.

(** * Order and cycles *)

Lemma ordered_walk l u es v l1 l2 :
  ordered l -> es <> [] -> walk (unweighted graph) u es v -> l = l1 ++ v :: l2 -> u ∈ l1.
Proof.
  intros Ho. revert u v l1 l2. induction es as [|[x w] es IH]; intros u v l1 l2 Hne; [done|]. intros [He Hw] ->. apply arc_edge in He as [Ha _].
  destruct es as [|e es]; [cbn in Hw; subst; by eapply Ho|]. assert (Hx : x ∈ l1) by (by eapply IH). apply list_elem_of_split in Hx as (l3 & l4 & ->).
  apply elem_of_app. left. eapply (Ho l3 x (l4 ++ v :: l2)); [by rewrite <- app_assoc|done].
Qed.

Lemma complete_acyclic l : NoDup l -> ordered l -> (forall v, vertex v -> v ∈ l) -> acyclic graph.
Proof.
  intros Hnd Ho Hall (u & es & Hne & Hw). assert (Hu : vertex u).
  { destruct es as [|[x w] es]; [done|]. destruct Hw as [He _]. apply arc_edge in He as [(l' & Hl' & _) _]. by eapply zget_bounds. }
  apply Hall, list_elem_of_split in Hu as (l1 & l2 & ->). pose proof (ordered_walk _ u es u l1 l2 Ho Hne Hw eq_refl) as Hin.
  apply list.NoDup_app in Hnd as (_ & Hd & _). apply (Hd u Hin). left.
Qed.

(** Outside [done] every node has a predecessor outside, hence walks of any length. *)
Lemma backward_walk done indeg v k :
  topo done [] [] indeg -> vertex v -> v ∉ done -> exists u es, vertex u /\ (u ∉ done) /\ walk (unweighted graph) u es v /\ length es = k.
Proof.
  intros [Hl Hnd Hv Hi Hz Hr Ho] Hvv Hvd. induction k as [|k (u & es & Hu & Hud & Hw & Hk)]; [by exists v, []|].
  assert (Hpos : 0 < pending graph done u).
  { pose proof (pending_nonneg done u). pose proof (Hi u Hu) as E. change (occurs u []) with 0 in E. destruct (Z.eq_dec (at_ indeg u) 0) as [E0|]; [|lia].
    apply Hz in E0; [|done]. rewrite app_nil_r in E0. done. }
  apply pending_pred in Hpos as (x & Hx & Hxd & Ha). exists x, ((u, 0) :: es). split; [done|]. split; [done|]. split; [split; [by apply arc_edge|done]|]. cbn. by rewrite Hk.
Qed.

Lemma acyclic_complete done indeg : topo done [] [] indeg -> acyclic graph -> forall v, vertex v -> v ∈ done.
Proof.
  intros H Hac v Hv. destruct (decide (v ∈ done)) as [|Hvd]; [done|]. exfalso. destruct (backward_walk done indeg v (length graph) H Hv Hvd) as (u & es & Hu & _ & Hw & Hk).
  assert (Hlen : zlen (unweighted graph) = zlen graph) by (unfold zlen, unweighted; by rewrite length_fmap).
  destruct (walk_cycle (unweighted graph) 0 u es v) as (e1 & e2 & e3 & x & _ & Hne & _ & Hc & _).
  - intros a b w He. apply arc_edge in He as [Ha ->]. rewrite Hlen. split; [by eapply Hwf|lia].
  - by rewrite Hlen.
  - done.
  - unfold zlen in *. lia.
  - apply Hac. by exists x, e2.
Qed.
End Proof.

(** C37: called with the in-degrees of a graph, TopoLogicalSort returns true exactly
    when the graph has no cycle; answer never repeats a node, every node in it comes
    after all its predecessors, and on success it holds all nodes. *)
Theorem topological_sort_correct (graph : list (list Z)) :
  (forall u v, arc graph u v -> 0 <= v < zlen graph) ->
  exists b answer, topological_sort (indegrees graph) graph [] = Ok (b, answer) /\
    NoDup answer /\ (forall l1 v l2, answer = l1 ++ v :: l2 -> forall u, arc graph u v -> u ∈ l1) /\
    (b = true <-> acyclic graph) /\ (b = true -> answer ≡ₚ seqZ 0 (zlen graph)).
Proof.
  intros Hwf. destruct (topo_ok graph Hwf) as ([b a] & E & Hb & indeg & Ht). cbn in *. exists b, a. split; [done|].
  pose proof (o_nodup _ _ _ _ _ Ht) as Hnd. pose proof (o_order _ _ _ _ _ Ht) as Ho. pose proof (o_vertex _ _ _ _ _ Ht) as Hv. rewrite app_nil_r in *.
  assert (Hsub : a ⊆+ seqZ 0 (zlen graph)).
  { apply NoDup_submseteq; [done|]. intros x Hx. apply elem_of_seqZ. specialize (Hv x Hx). unfold vertex in Hv. lia. }
  assert (Hperm : b = true -> a ≡ₚ seqZ 0 (zlen graph)).
  { intros ->. apply submseteq_length_Permutation; [done|]. rewrite length_seqZ. unfold zlen in *. lia. }
  split; [done|]. split; [exact Ho|]. split; [|done]. split.
  - intros Hbt. specialize (Hperm Hbt). eapply complete_acyclic; [exact Hnd|exact Ho|]. intros v Hvv. rewrite Hperm. apply elem_of_seqZ. unfold vertex in Hvv. lia.
  - intros Hac. rewrite Hb. apply Z.eqb_eq. pose proof (acyclic_complete graph Hwf a indeg Ht Hac) as Hall.
    assert (Hsub' : seqZ 0 (zlen graph) ⊆+ a).
    { apply NoDup_submseteq; [apply NoDup_seqZ|]. intros x Hx%elem_of_seqZ. apply Hall. unfold vertex. lia. }
    apply submseteq_length in Hsub, Hsub'. rewrite length_seqZ in *. unfold zlen in *. lia.
Qed.

Lemma topological_sort_correct_witness :
  exists b answer, topological_sort (indegrees [[1; 2]; [2]; []]) [[1; 2]; [2]; []] [] = Ok (b, answer) /\ (b = true <-> acyclic [[1; 2]; [2]; []]).
Proof.
  destruct (topological_sort_correct [[1; 2]; [2]; []]) as (b & a & E & _ & _ & H & _); [|exists b, a; split; [exact E|exact H]].
  intros u v (l & Hl & Hin). pose proof (zget_bounds _ _ _ Hl) as Hu. unfold zlen in *. cbn in *. assert (Hc : u = 0 \/ u = 1 \/ u = 2) by lia.
  destruct Hc as [->|[->| ->]]; cbn in Hl; injection Hl as <-; rewrite ?elem_of_cons, elem_of_nil in Hin; repeat destruct Hin as [Hin|Hin]; subst; lia || done.
Defined.
