(* ===== verification/Tarjan.v ===== *)
(** The strongly connected components of [tarjan.h].

    The algorithm is written there outside of any function, over names that the
    header does not declare: the heads [h] and the edges [e] of linked adjacency
    lists and the bound [N] of the arrays.  They are parameters here; the class
    [Tarjan] above it has an empty body.  Nodes are 1 to N - 1 and index 0 ends a
    list, as the loop condition says.  The arrays are global, so they start with
    zeros.  The counters are [Z]: none of them exceeds the number of visited nodes,
    which is below N, an [int].

    The search is followed with three lists: the active calls, the visited nodes in
    the order of their numbers, and the stack. *)

From stdpp Require Import relations.
From S2P Require Import Prelude.
Local Open Scope Z_scope.

(** * The algorithm *)

Record edge_t := MkEdge { nex : Z; t : Z }.

Record tarjan_state := MkTarjan {
  dfn : list Z; low : list Z; dfncnt : Z;
  s_ : list Z; in_stack : list Z; tp : Z;
  scc : list Z; sc : Z; sz : list Z
}.

Definition new_tarjan (N : Z) : tarjan_state :=
  let a := zreplicate N 0 in MkTarjan a a 0 a a 0 a 0 a.

(** [low[u] = dfn[u] = ++dfncnt, s[++tp] = u, in_stack[u] = 1] *)
Definition enter (u : Z) (st : tarjan_state) : outcome tarjan_state :=
  let cnt := dfncnt st + 1 in
  dfn' ← vset (dfn st) u cnt;
  low' ← vset (low st) u cnt;
  s' ← vset (s_ st) (tp st + 1) u;
  in' ← vset (in_stack st) u 1;
  Ok (MkTarjan dfn' low' cnt s' in' (tp st + 1) (scc st) (sc st) (sz st)).

(** [low[u] = min(low[u], x)] *)
Definition lower (u x : Z) (st : tarjan_state) : outcome tarjan_state :=
  l ← vget (low st) u;
  low' ← vset (low st) u (Z.min l x);
  Ok (MkTarjan (dfn st) low' (dfncnt st) (s_ st) (in_stack st) (tp st) (scc st) (sc st) (sz st)).

(** The node on top of the stack joins component [sc] and leaves the stack. *)
Definition pop (st : tarjan_state) : outcome tarjan_state :=
  x ← vget (s_ st) (tp st);
  scc' ← vset (scc st) x (sc st);
  n ← vget (sz st) (sc st);
  sz' ← vset (sz st) (sc st) (n + 1);
  in' ← vset (in_stack st) x 0;
  Ok (MkTarjan (dfn st) (low st) (dfncnt st) (s_ st) in' (tp st - 1) scc' (sc st) sz').

(** [while (s[tp] != u)] *)
Definition pop_step (u : Z) (st : tarjan_state) : outcome (tarjan_state + tarjan_state) :=
  x ← vget (s_ st) (tp st);
  if negb (x =? u) then st ← pop st; Ok (inl st) else Ok (inr st).

(** The body of [if (dfn[u] == low[u])]. *)
Definition component (u : Z) (st : tarjan_state) : outcome tarjan_state :=
  let st := MkTarjan (dfn st) (low st) (dfncnt st) (s_ st) (in_stack st) (tp st) (scc st) (sc st + 1) (sz st) in
  st ← while_fuel (S (Z.to_nat (tp st))) (pop_step u) st;
  pop st.

(** The body of the loop over the edges of [u]; [rec] is the recursive call. *)
Definition visit_edge (rec : Z -> tarjan_state -> outcome tarjan_state) (u v : Z) (st : tarjan_state)
  : outcome tarjan_state :=
  d ← vget (dfn st) v;
  if d =? 0 then
    st ← rec v st;
    l ← vget (low st) v;
    lower u l st
  else
    b ← vget (in_stack st) v;
    if negb (b =? 0) then lower u d st else Ok st.

Section Algorithm.
Context (h : list Z) (e : list edge_t).

(** [for (int i = h[u]; i; i = e[i].nex)]; [efuel] bounds the length of a list. *)
Fixpoint edge_loop (rec : Z -> tarjan_state -> outcome tarjan_state) (efuel : nat) (u i : Z) (st : tarjan_state)
  : outcome tarjan_state :=
  match efuel with
  | O => Fault OutOfFuel
  | S efuel =>
      if i =? 0 then Ok st
      else
        x ← vget e i;
        st ← visit_edge rec u (t x) st;
        edge_loop rec efuel u (nex x) st
  end.

(** [fuel] bounds the depth of the recursion. *)
Fixpoint tarjan (efuel fuel : nat) (u : Z) (st : tarjan_state) : outcome tarjan_state :=
  match fuel with
  | O => Fault OutOfFuel
  | S fuel =>
      st ← enter u st;
      i ← vget h u;
      st ← edge_loop (tarjan efuel fuel) efuel u i st;
      d ← vget (dfn st) u;
      l ← vget (low st) u;
      if d =? l then component u st else Ok st
  end.
End Algorithm.

(** * Arrays as functions *)

Definition get (a : list Z) (i : Z) : Z := default 0 (zget a i).

Lemma vget_get a i : 0 <= i < zlen a -> vget a i = Ok (get a i).
Proof. intros Hi. destruct (zget_in_range a i Hi) as [x Hx]. unfold vget, get. by rewrite Hx. Qed.

Lemma vset_in {A} (a : list A) i x : 0 <= i < zlen a -> vset a i x = Ok (zset a i x).
Proof. intros Hi. unfold vset. by replace (_ && _) with true by lia. Qed.

Lemma get_zset a i x j : 0 <= i < zlen a -> get (zset a i x) j = if decide (i = j) then x else get a j.
Proof. intros Hi. unfold get. rewrite zget_zset by done. by case_decide. Qed.

Lemma get_replicate n i : get (zreplicate n 0) i = 0.
Proof.
  unfold get. destruct (zget (zreplicate n 0) i) as [x|] eqn:E; [|done]. cbn.
  pose proof (zget_bounds _ _ _ E) as Hb. rewrite zlen_replicate in Hb.
  rewrite zget_replicate in E by lia. by inversion E.
Qed.

(** How often [k] occurs. *)
Definition occurrences (a : list Z) (k : Z) : Z := zlen (filter (.= k) a).

Lemma occurrences_zset a i x k :
  0 <= i < zlen a -> get a i <> k ->
  occurrences (zset a i x) k = occurrences a k + (if decide (x = k) then 1 else 0).
Proof.
  intros Hi Hk. destruct (zget_in_range a i Hi) as [y Hy]. unfold get in Hk. rewrite Hy in Hk. cbn in Hk.
  assert (exists p q, a = p ++ y :: q /\ i = zlen p) as (p & q & -> & ->).
  { exists (take (Z.to_nat i) a), (drop (Z.to_nat (i + 1)) a). rewrite <- (drop_zget _ _ _ Hy), take_drop.
    split; [done|]. unfold zlen in *. rewrite length_take. lia. }
  rewrite zset_mid by done. unfold occurrences. rewrite !list.filter_app, !list.filter_cons, !zlen_app.
  destruct (decide (y = k)); [done|]. destruct (decide (x = k)); rewrite ?zlen_cons; lia.
Qed.

(** * The order of the visits *)

(** [V] are the visited nodes, the newest first; [num V v] is the number of [v] in
    this order, 0 for a node that was not visited. *)
Fixpoint num (V : list Z) (v : Z) : Z :=
  match V with [] => 0 | x :: V => if decide (x = v) then zlen V + 1 else num V v end.

Lemma num_bounds V v : 0 <= num V v <= zlen V.
Proof. induction V as [|x V IH]; cbn; [done|]. pose proof (zlen_nonneg V). rewrite zlen_cons. case_decide; lia. Qed.

Lemma num_visited V v : v ∈ V <-> num V v <> 0.
Proof.
  induction V as [|x V IH]; cbn; [by rewrite elem_of_nil|]. rewrite elem_of_cons. pose proof (zlen_nonneg V).
  case_decide; [split; [lia|by left]|]. rewrite <- IH. split; [intros [?|?]; [congruence|done]|by right].
Qed.

Lemma num_app_r A B v : v ∉ A -> num (A ++ B) v = num B v.
Proof.
  induction A as [|x A IH]; [done|]. rewrite elem_of_cons. intros Hv. cbn. case_decide; [subst; tauto|]. apply IH. tauto.
Qed.

Lemma num_app_l A B v : v ∈ A -> zlen B < num (A ++ B) v.
Proof.
  induction A as [|x A IH]; [by rewrite elem_of_nil|]. rewrite elem_of_cons. intros Hv. cbn.
  case_decide; [rewrite zlen_app; pose proof (zlen_nonneg A); lia|]. apply IH. by destruct Hv.
Qed.

Lemma num_old A B v : NoDup (A ++ B) -> v ∈ B -> num (A ++ B) v = num B v.
Proof. intros Hnd Hv. apply num_app_r. intros HA. apply list.NoDup_app in Hnd as (_ & Hd & _). by apply (Hd v). Qed.

(** * The arrays *)

Section Arrays.
Context (N : Z).

Definition node (v : Z) : Prop := 1 <= v < N.

(** The visited nodes [V] and the stack [K], its top first, as the arrays hold
    them; a node that is visited but not on the stack has its component. *)
Record base (V K : list Z) (st : tarjan_state) : Prop := {
  b_len : zlen (dfn st) = N /\ zlen (low st) = N /\ zlen (s_ st) = N /\ zlen (in_stack st) = N /\
          zlen (scc st) = N /\ zlen (sz st) = N;
  b_V : NoDup V;
  b_nodes : Forall node V;
  b_K : NoDup K;
  b_sub : forall v, v ∈ K -> v ∈ V;
  b_cnt : dfncnt st = zlen V;
  b_dfn : forall v, node v -> get (dfn st) v = num V v;
  b_tp : tp st = zlen K;
  b_stack : forall A x B, K = A ++ x :: B -> get (s_ st) (zlen B + 1) = x;
  b_in : forall v, node v -> get (in_stack st) v = if decide (v ∈ K) then 1 else 0;
  b_open : forall v, node v -> v ∉ V \/ v ∈ K -> get (scc st) v = 0;
  b_sz : forall k, 1 <= k < N -> get (sz st) k = occurrences (scc st) k
}.

Lemma node_of V v : Forall node V -> v ∈ V -> node v.
Proof. rewrite list.Forall_forall. auto. Qed.

(** Distinct nodes are fewer than [N]. *)
Lemma nodes_room V : NoDup V -> Forall node V -> V <> [] -> zlen V < N.
Proof.
  intros Hnd Hn Hne. destruct V as [|v V]; [done|]. apply list.Forall_cons in Hn as Hv. destruct Hv as [Hv _].
  assert (Hs : v :: V ⊆+ seqZ 1 (N - 1)).
  { apply NoDup_submseteq; [done|]. intros x Hx. apply elem_of_seqZ. pose proof (node_of _ _ Hn Hx) as Hx'.
    unfold node in *. lia. }
  apply submseteq_length in Hs. rewrite length_seqZ in Hs. unfold zlen, node in *. lia.
Qed.

(** The stack is not longer than the list of visited nodes. *)
Lemma base_stack_len V K st : base V K st -> zlen K <= zlen V.
Proof.
  intros Hb. assert (Hs : K ⊆+ V) by (apply NoDup_submseteq; [apply Hb|intros x; apply Hb]).
  apply submseteq_length in Hs. unfold zlen. lia.
Qed.

(** ** Entering a node *)

Definition entered (u : Z) (st : tarjan_state) : tarjan_state :=
  MkTarjan (zset (dfn st) u (dfncnt st + 1)) (zset (low st) u (dfncnt st + 1)) (dfncnt st + 1)
    (zset (s_ st) (tp st + 1) u) (zset (in_stack st) u 1) (tp st + 1) (scc st) (sc st) (sz st).

Lemma enter_ok V K st u :
  base V K st -> node u -> u ∉ V ->
  enter u st = Ok (entered u st) /\ base (u :: V) (u :: K) (entered u st) /\
  zlen K + 1 < N.
Proof.
  intros Hb Hu Hnew. pose proof (base_stack_len _ _ _ Hb) as HKV.
  assert (HV : NoDup (u :: V)) by (apply list.NoDup_cons; split; [done|apply Hb]).
  assert (Hn : Forall node (u :: V)) by (constructor; [done|apply Hb]).
  pose proof (nodes_room _ HV Hn ltac:(done)) as Hroom. rewrite zlen_cons in Hroom.
  pose proof (zlen_nonneg K). destruct Hb as [(L1 & L2 & L3 & L4 & L5 & L6) _ Hnodes HK Hsub Hcnt Hdfn Htp Hs Hin Hopen Hsz].
  unfold node in Hu. split; [|split; [|lia]].
  { unfold enter. rewrite !vset_in by lia. done. }
  split; cbn [dfn low dfncnt s_ in_stack tp scc sc sz entered]; rewrite ?zlen_zset; try done.
  - apply list.NoDup_cons. split; [|done]. intros Hin'. by apply Hnew, Hsub.
  - intros v. rewrite !elem_of_cons. intros [?|?]; auto.
  - rewrite zlen_cons. lia.
  - intros v Hv. rewrite get_zset by lia. cbn. rewrite Hcnt. case_decide; [done|]. by apply Hdfn.
  - rewrite zlen_cons. lia.
  - intros [|a A] x B E; injection E as <- E.
    + subst B. rewrite get_zset by lia. rewrite Htp. by rewrite decide_True.
    + rewrite get_zset by lia. assert (zlen B + 1 <= zlen K) by (rewrite E, zlen_app, zlen_cons; pose proof (zlen_nonneg A); lia).
      rewrite decide_False by lia. by eapply Hs.
  - intros v Hv. rewrite get_zset by lia. destruct (decide (u = v)) as [->|Hne].
    + by rewrite decide_True by (apply elem_of_cons; by left).
    + rewrite Hin by done. destruct (decide (v ∈ K)) as [Hk|Hk].
      * by rewrite decide_True by (apply elem_of_cons; by right).
      * rewrite decide_False; [done|]. rewrite elem_of_cons. intros [?|?]; [congruence|done].
  - intros v Hv Ho. apply Hopen; [done|]. rewrite !elem_of_cons in Ho.
    destruct (decide (v = u)) as [->|]; [by left|]. destruct Ho as [Ho|[?|Ho]]; [left; tauto|congruence|by right].
Qed.

(** ** Leaving the stack *)

(** What popping does not change. *)
Definition same_search (st st' : tarjan_state) : Prop :=
  dfn st' = dfn st /\ low st' = low st /\ sc st' = sc st.

Lemma same_search_trans a b c : same_search a b -> same_search b c -> same_search a c.
Proof. intros (? & ? & ?) (? & ? & ?). repeat split; congruence. Qed.

Lemma top_of_stack V x K st : base V (x :: K) st -> vget (s_ st) (tp st) = Ok x.
Proof.
  intros Hb. destruct (b_len _ _ _ Hb) as (_ & _ & L3 & _). pose proof (base_stack_len _ _ _ Hb).
  assert (zlen V < N). { apply nodes_room; [apply Hb..|]. intros ->. rewrite zlen_cons in *. pose proof (zlen_nonneg K). change (zlen []) with 0 in *. lia. }
  rewrite zlen_cons in *. pose proof (zlen_nonneg K). rewrite vget_get; rewrite (b_tp _ _ _ Hb), zlen_cons; [|lia].
  f_equal. by apply (b_stack _ _ _ Hb []).
Qed.

Lemma stack_pop_top V x K st :
  base V (x :: K) st -> 1 <= sc st < N ->
  exists st', pop st = Ok st' /\ base V K st' /\ same_search st st' /\
    forall v, get (scc st') v = if decide (v = x) then sc st else get (scc st) v.
Proof.
  intros Hb Hsc. unfold pop. rewrite (top_of_stack _ _ _ _ Hb). cbn [mbind outcome_bind].
  assert (Hx : node x) by (apply (node_of V); [apply Hb|apply (b_sub _ _ _ Hb), elem_of_cons; by left]).
  pose proof Hb as Hb0. destruct Hb as [(L1 & L2 & L3 & L4 & L5 & L6) HV Hnodes HK Hsub Hcnt Hdfn Htp Hs Hin Hopen Hsz].
  apply list.NoDup_cons in HK as [HxK HK]. unfold node in Hx.
  rewrite (vset_in (scc st)) by lia. cbn [mbind outcome_bind].
  rewrite (vget_get (sz st)) by lia. cbn [mbind outcome_bind].
  rewrite (vset_in (sz st)) by lia. cbn [mbind outcome_bind].
  rewrite (vset_in (in_stack st)) by lia. cbn [mbind outcome_bind].
  eexists. split; [reflexivity|].
  assert (Hscc : forall v, get (zset (scc st) x (sc st)) v = if decide (v = x) then sc st else get (scc st) v).
  { intros v. rewrite get_zset by lia. destruct (decide (x = v)), (decide (v = x)); congruence. }
  split; [|split; [done|exact Hscc]].
  split; cbn [dfn low dfncnt s_ in_stack tp scc sc sz]; rewrite ?zlen_zset; try done.
  - intros v Hv. apply Hsub, elem_of_cons. by right.
  - rewrite zlen_cons in Htp. lia.
  - intros A y B ->. by apply (Hs (x :: A)).
  - intros v Hv. rewrite get_zset by lia. destruct (decide (x = v)) as [->|Hne]; [by rewrite decide_False|].
    rewrite Hin by done. destruct (decide (v ∈ K)) as [Hk|Hk].
    + by rewrite decide_True by (apply elem_of_cons; by right).
    + rewrite decide_False; [done|]. rewrite elem_of_cons. intros [?|?]; [congruence|done].
  - intros v Hv Ho. rewrite Hscc, decide_False.
    + apply Hopen; [done|]. rewrite elem_of_cons. tauto.
    + intros ->. destruct Ho as [Ho|Ho]; [|done]. apply Ho, Hsub, elem_of_cons. by left.
  - intros k Hk. rewrite get_zset by lia. rewrite occurrences_zset.
    + rewrite !Hsz by lia. destruct (decide (sc st = k)) as [->|]; lia.
    + lia.
    + rewrite (Hopen x); [lia|done|]. right. apply elem_of_cons. by left.
Qed.

Lemma pop_loop V K1 u K st fuel :
  base V (K1 ++ u :: K) st -> 1 <= sc st < N -> (length K1 < fuel)%nat ->
  exists st', while_fuel fuel (pop_step u) st = Ok st' /\ base V (u :: K) st' /\ same_search st st' /\
    forall v, get (scc st') v = if decide (v ∈ K1) then sc st else get (scc st) v.
Proof.
  revert st fuel. induction K1 as [|x K1 IH]; intros st [|fuel] Hb Hsc Hf; try (cbn in Hf; lia); cbn [while_fuel].
  - unfold pop_step. rewrite (top_of_stack _ _ _ _ Hb). cbn [mbind outcome_bind]. rewrite Z.eqb_refl. cbn [negb mbind outcome_bind].
    exists st. split; [done|]. split; [done|]. split; [done|]. intros v. by rewrite decide_False by apply not_elem_of_nil.
  - cbn [app] in Hb.
    assert (Hne : x <> u).
    { intros ->. pose proof (b_K _ _ _ Hb) as HK. apply list.NoDup_cons in HK as [HK _]. apply HK, elem_of_app. right.
      apply elem_of_cons. by left. }
    destruct (stack_pop_top _ _ _ _ Hb Hsc) as (st1 & E1 & Hb1 & Hs1 & Hscc1).
    assert (Es : pop_step u st = Ok (inl st1)).
    { unfold pop_step. rewrite (top_of_stack _ _ _ _ Hb). cbn [mbind outcome_bind].
      rewrite (proj2 (Z.eqb_neq _ _) Hne). cbn [negb]. by rewrite E1. }
    rewrite Es. cbn [mbind outcome_bind].
    pose proof Hs1 as (_ & _ & E3). destruct (IH st1 fuel Hb1) as (st2 & -> & Hb2 & Hs2 & Hscc2); [lia|cbn in Hf; lia|].
    exists st2. split; [done|]. split; [done|]. split; [by eapply same_search_trans|].
    intros v. rewrite Hscc2, Hscc1, E3. destruct (decide (v ∈ K1)) as [Hv|Hv].
    + by rewrite decide_True by (apply elem_of_cons; by right).
    + destruct (decide (v = x)) as [->|]; [by rewrite decide_True by (apply elem_of_cons; by left)|].
      rewrite decide_False; [done|]. rewrite elem_of_cons. tauto.
Qed.

(** The nodes down to [u] get the next component number. *)
Lemma component_ok V K1 u K st :
  base V (K1 ++ u :: K) st -> 0 <= sc st -> sc st + 1 < N ->
  exists st', component u st = Ok st' /\ base V K st' /\ dfn st' = dfn st /\ low st' = low st /\
    sc st' = sc st + 1 /\
    forall v, get (scc st') v = if decide (v ∈ K1 ++ [u]) then sc st + 1 else get (scc st) v.
Proof.
  intros Hb H0 Hsc. unfold component.
  match goal with |- context [while_fuel _ _ ?st0] => set (st1 := st0) end.
  assert (Hb1 : base V (K1 ++ u :: K) st1) by (destruct Hb; by split).
  destruct (pop_loop V K1 u K st1 (S (Z.to_nat (tp st)))) as (st2 & E2 & Hb2 & (F1 & F2 & F3) & Hscc2).
  { done. } { cbn. lia. } { rewrite (b_tp _ _ _ Hb). unfold zlen. rewrite length_app. cbn. lia. }
  change (tp st1) with (tp st). rewrite E2. cbn [mbind outcome_bind].
  destruct (stack_pop_top V u K st2 Hb2) as (st3 & -> & Hb3 & (G1 & G2 & G3) & Hscc3); [rewrite F3; cbn; lia|].
  exists st3. split; [done|]. split; [done|]. split; [by rewrite G1, F1|]. split; [by rewrite G2, F2|].
  split; [by rewrite G3, F3|]. intros v. rewrite Hscc3, Hscc2, F3. change (sc st1) with (sc st + 1).
  change (scc st1) with (scc st). destruct (decide (v = u)) as [->|Hne].
  - rewrite decide_True; [done|]. apply elem_of_app. right. by apply list_elem_of_singleton.
  - destruct (decide (v ∈ K1)) as [Hv|Hv].
    + by rewrite decide_True by (apply elem_of_app; by left).
    + rewrite decide_False; [done|]. rewrite elem_of_app, list_elem_of_singleton. tauto.
Qed.
End Arrays.

(** * The search *)

Section Search.
Context (N : Z) (h : list Z) (e : list edge_t) (efuel : nat) (adj : Z -> list Z).

(** The linked list that starts at [i] holds the successors [l]. *)
Fixpoint chain (i : Z) (l : list Z) : Prop :=
  match l with
  | [] => i = 0
  | v :: l => i <> 0 /\ exists x, zget e i = Some x /\ t x = v /\ chain (nex x) l
  end.

(** [h] and [e] hold the graph [adj] on the nodes 1 to N - 1. *)
Definition represents : Prop := forall u, node N u ->
  (exists i, zget h u = Some i /\ chain i (adj u)) /\ (length (adj u) < efuel)%nat /\ Forall (node N) (adj u).

Definition arc (u v : Z) : Prop := node N u /\ v ∈ adj u.
Definition reach : Z -> Z -> Prop := rtc arc.

Lemma reach_closed (S : Z -> Prop) v w :
  (forall x y, S x -> arc x y -> S y) -> S v -> reach v w -> S w.
Proof. intros HS Hv Hr. induction Hr; eauto. Qed.

(** The path [P] of active calls, the innermost first; every node on the stack
    reaches one of them that is older; what left the stack is closed under arcs and
    carries the components. *)
Record inv (P V K : list Z) (st : tarjan_state) : Prop := {
  v_base : base N V K st;
  v_path : forall p, p ∈ P -> p ∈ K;
  v_black : forall v w, v ∈ V -> v ∉ P -> arc v w -> w ∈ V;
  v_back : forall y, y ∈ K -> exists p, p ∈ P /\ num V p <= num V y /\ reach y p;
  v_closed : forall v w, v ∈ V -> v ∉ K -> arc v w -> (w ∈ V /\ w ∉ K) /\ get (scc st) w <= get (scc st) v;
  v_scc : forall v, v ∈ V -> v ∉ K -> 1 <= get (scc st) v <= sc st;
  v_mutual : forall v w, v ∈ V -> v ∉ K -> w ∈ V -> w ∉ K ->
    get (scc st) v = get (scc st) w <-> reach v w /\ reach w v;
  v_sc : 0 <= sc st /\ sc st + zlen K <= zlen V
}.

Lemma inv_initial : 0 < N -> inv [] [] [] (new_tarjan N).
Proof.
  intros HN. split; try (intros *; by rewrite elem_of_nil).
  - split; cbn; rewrite ?zlen_replicate; try done; try (intros; apply get_replicate); try (by repeat constructor).
    + repeat split; lia.
    + intros [|? ?]; discriminate.
    + intros k Hk. rewrite get_replicate. unfold occurrences, zreplicate. symmetry.
      induction (Z.to_nat N) as [|n IH]; [done|]. cbn [replicate]. rewrite list.filter_cons, decide_False by lia. done.
  - cbn. lia.
Qed.

Lemma enter_inv P V K st u : inv P V K st -> node N u -> u ∉ V -> inv (u :: P) (u :: V) (u :: K) (entered u st).
Proof.
  intros Hi Hu Hnew. destruct Hi as [Hb Hp Hbl Hba Hcl Hs Hm Hsc].
  assert (HuK : u ∉ K) by (intros H; by apply Hnew, Hb).
  destruct (enter_ok N V K st u Hb Hu Hnew) as (_ & Hb' & _).
  assert (Hold : forall v, v ∈ u :: V -> v ∉ u :: K -> v ∈ V /\ v ∉ K).
  { intros v. rewrite !elem_of_cons. tauto. }
  split; cbn [scc sc entered]; [done|..].
  - intros p. rewrite !elem_of_cons. intros [?|?]; auto.
  - intros v w Hv HvP Ha. rewrite !elem_of_cons in *. right. apply (Hbl v); tauto.
  - intros y Hy. apply elem_of_cons in Hy as [->|Hy].
    + exists u. split; [apply elem_of_cons; by left|]. split; [done|]. apply rtc_refl.
    + destruct (Hba y Hy) as (p & HpP & Hn & Hr). exists p. split; [apply elem_of_cons; by right|]. split; [|done].
      assert (p ∈ V) by by apply Hb, Hp. assert (y ∈ V) by by apply Hb. cbn.
      rewrite !decide_False by congruence. done.
  - intros v w Hv HvK Ha. destruct (Hold v Hv HvK) as [Hv' HvK']. destruct (Hcl v w Hv' HvK' Ha) as ((H1 & H2) & H3).
    rewrite !elem_of_cons. split; [|done]. split; [by right|]. intros [->|?]; [done|tauto].
  - intros v Hv HvK. destruct (Hold v Hv HvK). by apply Hs.
  - intros v w Hv HvK Hw HwK. destruct (Hold v Hv HvK), (Hold w Hw HwK). by apply Hm.
  - rewrite !zlen_cons. lia.
Qed.

(** [low] is not part of the invariant. *)
Lemma lower_inv P V K st u x :
  inv P V K st -> node N u ->
  exists st', lower u x st = Ok st' /\ inv P V K st' /\
    forall v, get (low st') v = if decide (u = v) then Z.min (get (low st) u) x else get (low st) v.
Proof.
  intros Hi Hu. destruct (b_len _ _ _ _ (v_base _ _ _ _ Hi)) as (_ & L2 & _). unfold node in Hu.
  unfold lower. rewrite vget_get by lia. cbn [mbind outcome_bind]. rewrite vset_in by lia. cbn [mbind outcome_bind].
  eexists. split; [reflexivity|]. split; [|intros v; cbn; by apply get_zset; lia].
  destruct Hi as [Hb Hp Hbl Hba Hcl Hs Hm Hsc]. split; try done.
  destruct Hb as [(? & ? & ?) ? ? ? ? ? ? ? ? ? ? ?]. split; cbn; rewrite ?zlen_zset; done.
Qed.

(** ** The end of a call *)

(** The stack around the current node, with what the loop has established. *)
Record done_loop (u : Z) (P V K V1 K1 : list Z) (st : tarjan_state) : Prop := {
  d_inv : inv (u :: P) (V1 ++ u :: V) (K1 ++ u :: K) st;
  d_pathK : forall p, p ∈ P -> p ∈ K;
  d_oldK : forall y, y ∈ K -> y ∈ V;
  d_new : forall x, x ∈ V1 -> reach u x;
  d_stack1 : forall x, x ∈ K1 -> x ∈ V1;
  d_le : get (low st) u <= zlen V + 1;
  d_low : exists y, y ∈ u :: K /\ num (u :: V) y = get (low st) u /\ reach u y;
  d_cross : forall x y, x ∈ K1 -> y ∈ K -> arc x y -> get (low st) u <= num V y
}.

Lemma done_nodup u P V K V1 K1 st : done_loop u P V K V1 K1 st -> NoDup (V1 ++ u :: V) /\ NoDup (K1 ++ u :: K).
Proof. intros Hd. pose proof (v_base _ _ _ _ (d_inv _ _ _ _ _ _ _ Hd)) as Hb. split; apply Hb. Qed.

(** The numbers of the current node and of the nodes below it. *)
Lemma done_num u P V K V1 K1 st :
  done_loop u P V K V1 K1 st ->
  num (V1 ++ u :: V) u = zlen V + 1 /\
  forall y, y ∈ K -> num (V1 ++ u :: V) y = num V y /\ num V y <= zlen V /\ y <> u.
Proof.
  intros Hd. destruct (done_nodup _ _ _ _ _ _ _ Hd) as [HV _]. split.
  - rewrite num_old; [cbn; by rewrite decide_True|done|apply elem_of_cons; by left].
  - intros y Hy. apply (d_oldK _ _ _ _ _ _ _ Hd) in Hy.
    assert (Hne : y <> u).
    { intros ->. apply list.NoDup_app in HV as (_ & _ & HV). by apply list.NoDup_cons in HV as [? _]. }
    rewrite num_old; [|done|apply elem_of_cons; by right]. cbn. rewrite decide_False by congruence.
    split; [done|]. split; [apply num_bounds|done].
Qed.

Section Finish.
Context (u : Z) (P V K V1 K1 : list Z) (st : tarjan_state).
Hypothesis Hd : done_loop u P V K V1 K1 st.
(** All arcs of [u] were followed. *)
Hypothesis Harcs : forall v, arc u v -> v ∈ V1 ++ u :: V /\ (v ∈ K -> get (low st) u <= num V v).

(** The node stays on the stack: it reaches an older one. *)
Lemma finish_keep : get (low st) u < zlen V + 1 -> inv P (V1 ++ u :: V) ((K1 ++ [u]) ++ K) st.
Proof.
  intros Hlow. destruct (done_num _ _ _ _ _ _ _ Hd) as [Hu Hold].
  destruct Hd as [Hi HpK HoK Hnew Hs1 Hle (y & Hy & Hny & Hry) Hcr].
  assert (HyK : y ∈ K).
  { apply elem_of_cons in Hy as [->|Hy]; [|done]. cbn in Hny. rewrite decide_True in Hny by done. lia. }
  destruct Hi as [Hb Hp Hbl Hba Hcl Hs Hm Hsc]. rewrite <- app_assoc. cbn [app]. split; try done.
  - intros p Hp'. apply elem_of_app. right. apply elem_of_cons. right. by apply HpK.
  - intros v w Hv HvP Ha. destruct (decide (v = u)) as [->|Hne]; [by apply Harcs|].
    apply (Hbl v w Hv); [|done]. rewrite elem_of_cons. tauto.
  - assert (Hub : exists p, p ∈ P /\ num (V1 ++ u :: V) p <= num (V1 ++ u :: V) u /\ reach u p).
    { destruct (Hba y) as (p & HpP & Hn & Hr); [apply elem_of_app; right; apply elem_of_cons; by right|].
      destruct (Hold y HyK) as (E1 & E2 & E3). apply elem_of_cons in HpP as [->|HpP].
      - exfalso. rewrite Hu in Hn. rewrite E1 in Hn. lia.
      - exists p. split; [done|]. rewrite Hu. destruct (Hold p (HpK p HpP)) as (F1 & F2 & _).
        rewrite F1. split; [lia|]. by eapply rtc_trans. }
    intros z Hz. destruct (Hba z Hz) as (p & HpP & Hn & Hr). apply elem_of_cons in HpP as [->|HpP]; [|by exists p].
    destruct Hub as (p & HpP & Hn' & Hr'). exists p. split; [done|]. split; [lia|]. by eapply rtc_trans.
Qed.

(** No arc leaves the nodes above and at [u] for the older part of the stack. *)
Hypothesis Hroot : get (low st) u = zlen V + 1.

Lemma no_escape x w : x ∈ K1 ++ [u] -> arc x w -> w ∈ V1 ++ u :: V /\ w ∉ K.
Proof.
  destruct (done_num _ _ _ _ _ _ _ Hd) as [_ Hold]. destruct Hd as [Hi HpK HoK Hnew Hs1 Hle _ Hcr].
  intros Hx Ha. apply elem_of_app in Hx as [Hx|Hx%list_elem_of_singleton].
  - assert (Hxne : x <> u).
    { intros ->. pose proof (b_K _ _ _ _ (v_base _ _ _ _ Hi)) as HK. apply list.NoDup_app in HK as (_ & HK & _).
      apply (HK u Hx), elem_of_cons. by left. }
    split.
    + apply (v_black _ _ _ _ Hi x); [apply elem_of_app; left; by apply Hs1| |done]. rewrite elem_of_cons. intros [?|HP]; [done|].
      pose proof (b_K _ _ _ _ (v_base _ _ _ _ Hi)) as HK. apply list.NoDup_app in HK as (_ & HK & _).
      apply (HK x Hx), elem_of_cons. right. by apply HpK.
    + intros Hw. pose proof (Hcr x w Hx Hw Ha). destruct (Hold w Hw) as (_ & ? & _). lia.
  - subst x. destruct (Harcs w Ha) as [Hw Hl]. split; [done|]. intros HwK. specialize (Hl HwK).
    destruct (Hold w HwK) as (_ & ? & _). lia.
Qed.

(** So the visited nodes outside the older stack are closed under arcs. *)
Lemma region_closed x w : x ∈ V1 ++ u :: V -> x ∉ K -> reach x w -> w ∈ V1 ++ u :: V /\ w ∉ K.
Proof.
  intros Hx HxK Hr. apply (reach_closed (fun z => z ∈ V1 ++ u :: V /\ z ∉ K) x w); [|done|done].
  intros a b [Ha HaK] Hab. destruct (decide (a ∈ K1 ++ [u])) as [Hin|Hout]; [by eapply no_escape|].
  destruct (v_closed _ _ _ _ (d_inv _ _ _ _ _ _ _ Hd) a b) as ((? & Hb) & _); [done| |done|].
  - rewrite elem_of_app, list_elem_of_singleton in Hout. rewrite elem_of_app, elem_of_cons. tauto.
  - split; [done|]. intros HbK. apply Hb, elem_of_app. right. apply elem_of_cons. by right.
Qed.

(** The nodes that left the stack earlier do not reach the stack. *)
Lemma popped_stay x w : x ∈ V1 ++ u :: V -> x ∉ K1 ++ u :: K -> reach x w -> w ∈ V1 ++ u :: V /\ w ∉ K1 ++ u :: K.
Proof.
  intros Hx HxK Hr. apply (reach_closed (fun z => z ∈ V1 ++ u :: V /\ z ∉ K1 ++ u :: K) x w); [|done|done].
  intros a b [Ha HaK] Hab. destruct (v_closed _ _ _ _ (d_inv _ _ _ _ _ _ _ Hd) a b Ha HaK Hab) as [? _]. done.
Qed.

(** The nodes from [u] upwards reach each other. *)
Lemma top_connected x : x ∈ K1 ++ [u] -> reach u x /\ reach x u.
Proof.
  intros Hx. destruct Hd as [Hi HpK HoK Hnew Hs1 Hle _ Hcr]. split.
  - apply elem_of_app in Hx as [Hx|Hx%list_elem_of_singleton]; [by apply Hnew, Hs1|subst; apply rtc_refl].
  - destruct (v_back _ _ _ _ Hi x) as (p & HpP & _ & Hr).
    { rewrite elem_of_app, list_elem_of_singleton in Hx. rewrite elem_of_app, elem_of_cons. tauto. }
    apply elem_of_cons in HpP as [->|HpP]; [done|]. exfalso.
    assert (HxK : x ∉ K).
    { intros H. pose proof (b_K _ _ _ _ (v_base _ _ _ _ Hi)) as HK. apply list.NoDup_app in HK as (_ & HK1 & HK2).
      apply list.NoDup_cons in HK2 as [HK2 _]. apply elem_of_app in Hx as [Hx|Hx%list_elem_of_singleton]; [|by subst].
      apply (HK1 x Hx), elem_of_cons. by right. }
    assert (HxW : x ∈ V1 ++ u :: V).
    { rewrite elem_of_app, elem_of_cons. apply elem_of_app in Hx as [Hx|Hx%list_elem_of_singleton]; auto. }
    destruct (region_closed x p HxW HxK Hr) as [_ Hno]. by apply Hno, HpK.
Qed.

(** A node below the older stack entries, but not from [u] upwards, left earlier. *)
Lemma left_earlier v : v ∉ K -> v ∉ K1 ++ [u] -> v ∉ K1 ++ u :: K.
Proof. rewrite !elem_of_app, list_elem_of_singleton, elem_of_cons. tauto. Qed.

(** With a new number for the nodes from [u] upwards, equal numbers are mutual
    reachability. *)
Lemma finish_mutual (c : Z -> Z) (k : Z) :
  (forall v, v ∈ K1 ++ [u] -> c v = k) ->
  (forall v, v ∈ V1 ++ u :: V -> v ∉ K -> v ∉ K1 ++ [u] -> c v = get (scc st) v /\ c v < k) ->
  forall v w, v ∈ V1 ++ u :: V -> v ∉ K -> w ∈ V1 ++ u :: V -> w ∉ K -> c v = c w <-> reach v w /\ reach w v.
Proof.
  intros Htop Hold. pose proof (d_inv _ _ _ _ _ _ _ Hd) as Hi.
  assert (Hsep : forall v w, v ∈ K1 ++ [u] -> w ∈ V1 ++ u :: V -> w ∉ K -> w ∉ K1 ++ [u] -> reach w v -> False).
  { intros v w Hv Hw HwK Hw1 Hr. destruct (popped_stay w v Hw (left_earlier w HwK Hw1) Hr) as [_ Hno]. apply Hno.
    rewrite elem_of_app, list_elem_of_singleton in Hv. rewrite elem_of_app, elem_of_cons. tauto. }
  intros v w Hv HvK Hw HwK. destruct (decide (v ∈ K1 ++ [u])) as [Hv1|Hv1], (decide (w ∈ K1 ++ [u])) as [Hw1|Hw1].
  - rewrite !Htop by done. destruct (top_connected v Hv1) as [A1 A2], (top_connected w Hw1) as [B1 B2].
    split; [|done]. intros _. split; [exact (rtc_trans _ _ _ A2 B1)|exact (rtc_trans _ _ _ B2 A1)].
  - rewrite (Htop v) by done. destruct (Hold w Hw HwK Hw1). split; [lia|].
    intros [_ Hr]. exfalso. exact (Hsep v w Hv1 Hw HwK Hw1 Hr).
  - rewrite (Htop w) by done. destruct (Hold v Hv HvK Hv1). split; [lia|].
    intros [Hr _]. exfalso. exact (Hsep w v Hw1 Hv HvK Hv1 Hr).
  - destruct (Hold v Hv HvK Hv1) as [-> _], (Hold w Hw HwK Hw1) as [-> _].
    apply (v_mutual _ _ _ _ Hi); [done|by apply left_earlier|done|by apply left_earlier].
Qed.

(** The root of a component takes it off the stack. *)
Lemma finish_pop :
  exists st', component u st = Ok st' /\ inv P (V1 ++ u :: V) K st' /\ low st' = low st.
Proof.
  destruct Hd as [Hi HpK HoK Hnew Hs1 Hle _ Hcr]. pose proof (v_base _ _ _ _ Hi) as Hb.
  destruct (v_sc _ _ _ _ Hi) as [Hsc0 Hsc1].
  assert (HN : zlen (V1 ++ u :: V) < N) by (apply nodes_room; [apply Hb..|]; by destruct V1).
  rewrite zlen_app, zlen_cons in Hsc1 at 1. pose proof (zlen_nonneg K1). pose proof (zlen_nonneg K).
  destruct (component_ok N (V1 ++ u :: V) K1 u K st Hb) as (st' & Ec & Hb' & _ & Hlow & Esc & Hscc); [lia|lia|].
  exists st'. split; [done|]. split; [|done]. clear Ec Hlow.
  assert (Hnum : forall v, v ∈ V1 ++ u :: V -> v ∉ K -> v ∉ K1 ++ [u] -> get (scc st') v = get (scc st) v /\ 1 <= get (scc st) v <= sc st).
  { intros v Hv HvK Hv1. rewrite Hscc, decide_False by done. split; [done|]. apply (v_scc _ _ _ _ Hi); [done|]. by apply left_earlier. }
  split; [done|done|..].
  - intros v w Hv HvP Ha. destruct (decide (v = u)) as [->|Hne]; [by apply Harcs|].
    apply (v_black _ _ _ _ Hi v w Hv); [|done]. rewrite elem_of_cons. tauto.
  - intros y Hy. destruct (done_num _ _ _ _ _ _ _ Hd) as [Hu Hold]. destruct (Hold y Hy) as (E1 & E2 & _).
    destruct (v_back _ _ _ _ Hi y) as (p & HpP & Hn & Hr); [apply elem_of_app; right; apply elem_of_cons; by right|].
    apply elem_of_cons in HpP as [->|HpP]; [rewrite Hu, E1 in Hn; lia|by exists p].
  - intros v w Hv HvK Ha. destruct (region_closed v w Hv HvK (rtc_once _ _ Ha)) as [Hw HwK]. split; [done|].
    destruct (decide (v ∈ K1 ++ [u])) as [Hv1|Hv1].
    + rewrite (Hscc v), decide_True by done. rewrite Hscc. case_decide as Hw1; [lia|].
      destruct (Hnum w Hw HwK Hw1). lia.
    + destruct (v_closed _ _ _ _ Hi v w Hv (left_earlier v HvK Hv1) Ha) as [[_ HwK'] Hle'].
      assert (Hw1 : w ∉ K1 ++ [u]).
      { intros H1. apply HwK'. rewrite elem_of_app, list_elem_of_singleton in H1. rewrite elem_of_app, elem_of_cons. tauto. }
      destruct (Hnum v Hv HvK Hv1) as [-> _], (Hnum w Hw HwK Hw1) as [-> _]. done.
  - intros v Hv HvK. rewrite Esc. rewrite Hscc. case_decide as Hv1; [lia|].
    destruct (Hnum v Hv HvK Hv1). lia.
  - apply (finish_mutual (get (scc st')) (sc st + 1)).
    + intros v Hv. by rewrite Hscc, decide_True.
    + intros v Hv HvK Hv1. destruct (Hnum v Hv HvK Hv1). lia.
  - rewrite Esc. lia.
Qed.
End Finish.

(** ** The loop over the arcs *)

(** What a call for the new node [u] achieves. *)
Definition call_post (u : Z) (P V K : list Z) (st st' : tarjan_state) : Prop :=
  exists V1 K1, inv P (V1 ++ u :: V) (K1 ++ K) st' /\
    (forall x, x ∈ V1 -> reach u x) /\ (forall x, x ∈ K1 -> x = u \/ x ∈ V1) /\
    (forall v, v ∈ V -> get (low st') v = get (low st) v) /\
    ((K1 = [] /\ get (low st') u = zlen V + 1) \/
     exists y, y ∈ K /\ num V y = get (low st') u /\ reach u y) /\
    (forall x y, x ∈ K1 -> y ∈ K -> arc x y -> get (low st') u <= num V y).

(** The loop of [u] after the arcs to [seen]. *)
Definition loop_inv (u : Z) (P V K : list Z) (st0 : tarjan_state) (seen : list Z) (st : tarjan_state) : Prop :=
  exists V1 K1, done_loop u P V K V1 K1 st /\
    (forall v, v ∈ V -> get (low st) v = get (low st0) v) /\
    (forall v, v ∈ seen -> v ∈ V1 ++ u :: V /\ (v ∈ K -> get (low st) u <= num V v)).

(** A node on the stack with a number below that of [u] is in the older part. *)
Lemma stack_small u V K V1 K1 y :
  NoDup (V1 ++ u :: V) -> (forall x, x ∈ K1 -> x ∈ V1) -> (forall z, z ∈ K -> z ∈ V) ->
  y ∈ K1 ++ u :: K -> num (V1 ++ u :: V) y < zlen V + 1 ->
  y ∈ K /\ num (u :: V) y = num (V1 ++ u :: V) y /\ num V y = num (V1 ++ u :: V) y.
Proof.
  intros HV Hs1 HoK Hy Hn. assert (HyK : y ∈ K).
  { apply elem_of_app in Hy as [Hy|Hy].
    - pose proof (num_app_l V1 (u :: V) y (Hs1 y Hy)) as Hl. rewrite zlen_cons in Hl. lia.
    - apply elem_of_cons in Hy as [->|Hy]; [|done]. rewrite num_old in Hn; [|done|apply elem_of_cons; by left].
      cbn in Hn. rewrite decide_True in Hn by done. lia. }
  split; [done|]. rewrite num_old; [|done|apply elem_of_cons; right; by apply HoK]. split; [done|].
  cbn. rewrite decide_False; [done|]. intros ->. apply list.NoDup_app in HV as (_ & _ & HV).
  apply list.NoDup_cons in HV as [HV _]. by apply HV, HoK.
Qed.

(** [low[u] = min(low[u], x)] when [x] is no number of the stack, or that of a node
    that [u] reaches. *)
Lemma lower_loop u P V K st0 seen V1 K1 st x :
  inv (u :: P) (V1 ++ u :: V) (K1 ++ u :: K) st -> node N u ->
  (forall p, p ∈ P -> p ∈ K) -> (forall y, y ∈ K -> y ∈ V) ->
  (forall z, z ∈ V1 -> reach u z) -> (forall z, z ∈ K1 -> z ∈ V1) ->
  get (low st) u <= zlen V + 1 ->
  (exists y, y ∈ u :: K /\ num (u :: V) y = get (low st) u /\ reach u y) ->
  (x < zlen V + 1 -> exists y, y ∈ K1 ++ u :: K /\ num (V1 ++ u :: V) y = x /\ reach u y) ->
  (forall a b, a ∈ K1 -> b ∈ K -> arc a b -> Z.min (get (low st) u) x <= num V b) ->
  (forall v, v ∈ V -> get (low st) v = get (low st0) v) ->
  (forall v, v ∈ seen -> v ∈ V1 ++ u :: V /\ (v ∈ K -> Z.min (get (low st) u) x <= num V v)) ->
  exists st', lower u x st = Ok st' /\ loop_inv u P V K st0 seen st'.
Proof.
  intros Hi Hu HpK HoK Hnew Hs1 Hle Hlo Hx Hcr Hfr Hseen.
  pose proof (b_V _ _ _ _ (v_base _ _ _ _ Hi)) as HV.
  assert (HuV : u ∉ V) by (apply list.NoDup_app in HV as (_ & _ & HV'); by apply list.NoDup_cons in HV' as [? _]).
  destruct (lower_inv _ _ _ _ u x Hi Hu) as (st' & E & Hi' & Hlow). exists st'. split; [done|].
  assert (Hlu : get (low st') u = Z.min (get (low st) u) x) by (rewrite Hlow; by rewrite decide_True).
  exists V1, K1. split; [split; try done|split]; rewrite ?Hlu; try done.
  - lia.
  - destruct (Z.lt_ge_cases x (get (low st) u)) as [Hlt|Hge]; [|by rewrite Z.min_l by lia].
    destruct Hx as (y & Hy & Hny & Hry); [lia|]. exists y.
    destruct (stack_small u V K V1 K1 y HV Hs1 HoK Hy) as (HyK & Hn1 & _); [lia|].
    split; [apply elem_of_cons; by right|]. split; [lia|done].
  - intros v Hv. rewrite Hlow, decide_False by congruence. by apply Hfr.
Qed.

(** ** One arc *)

(** After the call for a new successor [v]. *)
Lemma visit_white u P V K st0 seen v V1 K1 st st1 :
  arc u v -> node N v -> done_loop u P V K V1 K1 st ->
  (forall v, v ∈ V -> get (low st) v = get (low st0) v) ->
  (forall v, v ∈ seen -> v ∈ V1 ++ u :: V /\ (v ∈ K -> get (low st) u <= num V v)) ->
  v ∉ V1 ++ u :: V ->
  call_post v (u :: P) (V1 ++ u :: V) (K1 ++ u :: K) st st1 ->
  exists st', (l ← vget (low st1) v; lower u l st1) = Ok st' /\ loop_inv u P V K st0 (seen ++ [v]) st'.
Proof.
  intros Ha Hv Hd Hfr Hseen Hnew (V2 & K2 & Hi & Hr2 & HK2 & Hlow & Hcase & Hcr2). pose proof Ha as [Hu _].
  destruct (done_num _ _ _ _ _ _ _ Hd) as [_ Hold]. destruct Hd as [_ HpK HoK Hn Hs1 Hle Hlo Hcr].
  assert (EV : V2 ++ v :: V1 ++ u :: V = (V2 ++ v :: V1) ++ u :: V) by by rewrite <- app_assoc.
  rewrite EV, (app_assoc K2 K1 (u :: K)) in Hi. clear EV.
  destruct (b_len _ _ _ _ (v_base _ _ _ _ Hi)) as (_ & L2 & _).
  rewrite vget_get by (unfold node in Hv; lia). cbn [mbind outcome_bind].
  assert (Hlu : get (low st1) u = get (low st) u) by (apply Hlow, elem_of_app; right; apply elem_of_cons; by left).
  apply (lower_loop _ _ _ _ _ _ (V2 ++ v :: V1) (K2 ++ K1)); try done; rewrite ?Hlu; try done.
  - intros z Hz. rewrite elem_of_app, elem_of_cons in Hz. destruct Hz as [Hz|[->|Hz]].
    + eapply rtc_l; [exact Ha|]. by apply Hr2.
    + by apply rtc_once.
    + by apply Hn.
  - intros z Hz. rewrite elem_of_app, elem_of_cons. apply elem_of_app in Hz as [Hz|Hz].
    + destruct (HK2 z Hz); tauto.
    + right. right. by apply Hs1.
  - intros Hx. destruct Hcase as [[_ Hl]|(y & Hy & Hny & Hry)].
    { rewrite Hl, zlen_app, zlen_cons in Hx. pose proof (zlen_nonneg V1). lia. }
    exists y. rewrite <- app_assoc. split; [apply elem_of_app; by right|]. split; [|by eapply rtc_l].
    rewrite <- Hny. pose proof (b_V _ _ _ _ (v_base _ _ _ _ Hi)) as HV.
    assert (EV : (V2 ++ v :: V1) ++ u :: V = (V2 ++ [v]) ++ V1 ++ u :: V) by by rewrite <- !app_assoc.
    rewrite EV in HV |- *. apply num_old; [done|]. rewrite elem_of_app, elem_of_cons.
    rewrite elem_of_app, elem_of_cons in Hy. destruct Hy as [Hy|[Hy|Hy]]; auto.
  - intros a b Hxa Hb Hab. destruct (Hold b Hb) as [E _]. apply elem_of_app in Hxa as [Hxa|Hxa].
    + specialize (Hcr2 a b Hxa). rewrite E in Hcr2. rewrite Z.min_le_iff. right. apply Hcr2; [|done].
      rewrite elem_of_app, elem_of_cons. auto.
    + specialize (Hcr a b Hxa Hb Hab). lia.
  - intros w Hw. rewrite Hlow; [by apply Hfr|]. rewrite elem_of_app, elem_of_cons. auto.
  - intros w Hw. rewrite elem_of_app, !elem_of_cons, elem_of_app, elem_of_cons.
    apply elem_of_app in Hw as [Hw|Hw%list_elem_of_singleton].
    + destruct (Hseen w Hw) as [Hin Hl]. rewrite elem_of_app, elem_of_cons in Hin.
      split; [tauto|]. intros HwK. specialize (Hl HwK). lia.
    + subst w. split; [tauto|]. intros HvK. exfalso. apply Hnew. rewrite elem_of_app, elem_of_cons. auto.
Qed.

Lemma visit_edge_ok rec u P V K st0 seen v st :
  arc u v -> node N v -> loop_inv u P V K st0 seen st ->
  (forall P' V' K' st1, inv P' V' K' st1 -> v ∉ V' -> zlen V < zlen V' ->
     exists st', rec v st1 = Ok st' /\ call_post v P' V' K' st1 st') ->
  exists st', visit_edge rec u v st = Ok st' /\ loop_inv u P V K st0 (seen ++ [v]) st'.
Proof.
  intros Ha Hv (V1 & K1 & Hd & Hfr & Hseen) Hrec. pose proof Ha as [Hu _].
  pose proof (v_base _ _ _ _ (d_inv _ _ _ _ _ _ _ Hd)) as Hb.
  destruct (b_len _ _ _ _ Hb) as (L1 & L2 & _ & L4 & _). unfold visit_edge.
  rewrite (vget_get (dfn st)) by (unfold node in Hv; lia). cbn [mbind outcome_bind]. rewrite (b_dfn _ _ _ _ Hb v Hv).
  destruct (Z.eqb_spec (num (V1 ++ u :: V) v) 0) as [Hw|Hvis].
  - assert (Hnew : v ∉ V1 ++ u :: V) by (rewrite num_visited; lia).
    destruct (Hrec _ _ _ _ (d_inv _ _ _ _ _ _ _ Hd) Hnew) as (st1 & -> & Hpost).
    { rewrite zlen_app, zlen_cons. pose proof (zlen_nonneg V1). lia. }
    cbn [mbind outcome_bind]. by eapply visit_white.
  - assert (Hin : v ∈ V1 ++ u :: V) by by apply num_visited.
    rewrite (vget_get (in_stack st)) by (unfold node in Hv; lia). cbn [mbind outcome_bind]. rewrite (b_in _ _ _ _ Hb v Hv).
    destruct (decide (v ∈ K1 ++ u :: K)) as [Hk|Hk]; cbn [Z.eqb negb].
    + destruct (done_num _ _ _ _ _ _ _ Hd) as [_ Hold].
      destruct Hd as [Hi HpK HoK Hn Hs1 Hle Hlo Hcr]. apply (lower_loop _ _ _ _ _ _ V1 K1); try done.
      * intros _. exists v. split; [done|]. split; [done|]. by apply rtc_once.
      * intros x y Hx Hy Hxy. specialize (Hcr x y Hx Hy Hxy). lia.
      * intros w Hw. apply elem_of_app in Hw as [Hw|Hw%list_elem_of_singleton].
        -- destruct (Hseen w Hw) as [? Hl]. split; [done|]. intros HwK. specialize (Hl HwK). lia.
        -- subst w. split; [done|]. intros HvK. destruct (Hold v HvK) as [-> _]. lia.
    + exists st. split; [done|]. exists V1, K1. split; [done|]. split; [done|].
      intros w Hw. apply elem_of_app in Hw as [Hw|Hw%list_elem_of_singleton]; [by apply Hseen|]. subst w. split; [done|].
      intros HvK. exfalso. apply Hk, elem_of_app. right. apply elem_of_cons. by right.
Qed.

(** ** All arcs of a node *)

Lemma edge_loop_ok rec u P V K st0 :
  node N u ->
  (forall v P' V' K' st1, node N v -> inv P' V' K' st1 -> v ∉ V' -> zlen V < zlen V' ->
     exists st', rec v st1 = Ok st' /\ call_post v P' V' K' st1 st') ->
  forall l ef i seen st,
    chain i l -> (forall v, v ∈ l -> v ∈ adj u) -> Forall (node N) l -> (length l < ef)%nat ->
    loop_inv u P V K st0 seen st ->
    exists st', edge_loop e rec ef u i st = Ok st' /\ loop_inv u P V K st0 (seen ++ l) st'.
Proof.
  intros Hu Hrec l. induction l as [|v l IH]; intros [|ef] i seen st Hc Hadj Hn Hf Hl; try (cbn in Hf; lia); cbn [edge_loop].
  - cbn in Hc. subst i. cbn. exists st. by rewrite app_nil_r.
  - destruct Hc as (Hi & x & Hx & Ht & Hc). apply list.Forall_cons in Hn as [Hv Hn].
    rewrite (proj2 (Z.eqb_neq _ _) Hi). unfold vget. rewrite Hx. cbn [mbind outcome_bind]. rewrite Ht.
    destruct (visit_edge_ok rec u P V K st0 seen v st) as (st1 & -> & Hl1); [|done|done|..].
    { split; [done|]. apply Hadj, elem_of_cons. by left. }
    { intros P' V' K' st1. by apply Hrec. }
    cbn [mbind outcome_bind]. rewrite cons_middle, app_assoc.
    apply IH; [done| |done|cbn in Hf; lia|done]. intros w Hw. apply Hadj, elem_of_cons. by right.
Qed.

(** ** A call *)

(** The loop starts with the node alone. *)
Lemma loop_start u P V K st :
  inv P V K st -> node N u -> u ∉ V -> loop_inv u P V K st [] (entered u st).
Proof.
  intros Hi Hu Hnew. pose proof (v_base _ _ _ _ Hi) as Hb. destruct (b_len _ _ _ _ Hb) as (_ & L2 & _).
  assert (Hlow : forall v, get (low (entered u st)) v = if decide (u = v) then zlen V + 1 else get (low st) v).
  { intros v. cbn. rewrite (b_cnt _ _ _ _ Hb). apply get_zset. unfold node in Hu. lia. }
  exists [], []. split; [|split].
  - split; cbn [app]; try (intros x; by rewrite elem_of_nil).
    + by apply enter_inv.
    + apply Hi.
    + apply Hb.
    + rewrite Hlow, decide_True by done. done.
    + exists u. split; [apply elem_of_cons; by left|]. rewrite Hlow, decide_True by done. cbn.
      rewrite decide_True by done. split; [done|apply rtc_refl].
    + intros x y. by rewrite elem_of_nil.
  - intros v Hv. rewrite Hlow, decide_False by congruence. done.
  - intros v. by rewrite elem_of_nil.
Qed.

(** After the loop: the node is the root of a component or stays on the stack. *)
Lemma call_end u P V K st0 st :
  node N u -> loop_inv u P V K st0 (adj u) st ->
  exists st', (d ← vget (dfn st) u; l ← vget (low st) u; if d =? l then component u st else Ok st) = Ok st' /\
    call_post u P V K st0 st'.
Proof.
  intros Hu (V1 & K1 & Hd & Hfr & Hseen). pose proof (v_base _ _ _ _ (d_inv _ _ _ _ _ _ _ Hd)) as Hb.
  destruct (b_len _ _ _ _ Hb) as (L1 & L2 & _). destruct (done_num _ _ _ _ _ _ _ Hd) as [Hnu _].
  assert (Harcs : forall v, arc u v -> v ∈ V1 ++ u :: V /\ (v ∈ K -> get (low st) u <= num V v)).
  { intros v [_ Hv]. by apply Hseen. }
  rewrite (vget_get (dfn st)) by (unfold node in Hu; lia). cbn [mbind outcome_bind].
  rewrite (vget_get (low st)) by (unfold node in Hu; lia). cbn [mbind outcome_bind].
  rewrite (b_dfn _ _ _ _ Hb u Hu), Hnu. pose proof (d_new _ _ _ _ _ _ _ Hd) as Hn.
  destruct (Z.eqb_spec (zlen V + 1) (get (low st) u)) as [E|E].
  - destruct (finish_pop _ _ _ _ _ _ _ Hd Harcs (eq_sym E)) as (st' & -> & Hi & Hlow). exists st'. split; [done|].
    exists V1, []. rewrite Hlow. split; [done|]. split; [done|]. split; [intros x; by rewrite elem_of_nil|].
    split; [done|]. split; [by left|]. intros x y. by rewrite elem_of_nil.
  - pose proof (d_le _ _ _ _ _ _ _ Hd) as Hle. exists st. split; [done|]. exists V1, (K1 ++ [u]).
    split; [apply finish_keep; [done|done|lia]|]. split; [done|]. split; [|split; [done|split]].
    + intros x. rewrite elem_of_app, list_elem_of_singleton. intros [Hx|Hx]; [right|by left].
      by apply (d_stack1 _ _ _ _ _ _ _ Hd).
    + right. destruct (d_low _ _ _ _ _ _ _ Hd) as (y & Hy & Hny & Hr). exists y. cbn in Hny.
      apply elem_of_cons in Hy as [->|Hy]; [rewrite decide_True in Hny by done; lia|].
      rewrite decide_False in Hny; [done|]. intros ->. destruct (done_nodup _ _ _ _ _ _ _ Hd) as [_ HK].
      apply list.NoDup_app in HK as (_ & _ & HK). by apply list.NoDup_cons in HK as [? _].
    + intros x y Hx Hy Hxy. apply elem_of_app in Hx as [Hx|Hx%list_elem_of_singleton].
      * by apply (d_cross _ _ _ _ _ _ _ Hd x y).
      * subst x. by apply Harcs.
Qed.

(** A call on a new node returns, with fuel for the nodes that are not visited yet. *)
Lemma tarjan_ok fuel u P V K st :
  represents -> inv P V K st -> node N u -> u ∉ V -> N - 1 - zlen V <= Z.of_nat fuel ->
  exists st', tarjan h e efuel fuel u st = Ok st' /\ call_post u P V K st st'.
Proof.
  intros Hrep. revert u P V K st. induction fuel as [|fuel IH]; intros u P V K st Hi Hu Hnew Hf.
  - exfalso. assert (zlen (u :: V) < N); [|rewrite zlen_cons in *; lia].
    pose proof (v_base _ _ _ _ Hi) as Hb. apply nodes_room; [|constructor; [done|apply Hb]|done].
    apply list.NoDup_cons. split; [done|apply Hb].
  - cbn [tarjan]. destruct (enter_ok N V K st u (v_base _ _ _ _ Hi) Hu Hnew) as (-> & _ & _). cbn [mbind outcome_bind].
    destruct (Hrep u Hu) as ((i & Hh & Hc) & Hlen & Hnodes).
    assert (Eh : vget h u = Ok i) by (unfold vget; by rewrite Hh). rewrite Eh. cbn [mbind outcome_bind].
    destruct (edge_loop_ok (tarjan h e efuel fuel) u P V K st Hu) with (l := adj u) (ef := efuel) (i := i)
      (seen := @nil Z) (st := entered u st) as (st1 & -> & Hl); try done.
    { intros v P' V' K' st1 Hv Hi1 Hn1 Hlt. apply IH; [done..|lia]. }
    { by apply loop_start. }
    cbn [mbind outcome_bind]. by apply call_end.
Qed.

(** ** Calls from outside *)

(** The states between calls on nodes that were not visited; [fuel] is the depth
    allowed to a call. *)
Inductive searched (fuel : nat) : tarjan_state -> Prop :=
| searched_new : searched fuel (new_tarjan N)
| searched_call u st st' :
    searched fuel st -> node N u -> get (dfn st) u = 0 ->
    tarjan h e efuel fuel u st = Ok st' -> searched fuel st'.

(** A call without active calls empties its stack. *)
Lemma outer_call fuel u V st :
  represents -> inv [] V [] st -> node N u -> u ∉ V -> N - 1 <= Z.of_nat fuel ->
  exists st' V1, tarjan h e efuel fuel u st = Ok st' /\ inv [] (V1 ++ u :: V) [] st' /\
    forall x, x ∈ V1 -> reach u x.
Proof.
  intros Hrep Hi Hu Hnew Hf. pose proof (zlen_nonneg V).
  destruct (tarjan_ok fuel u [] V [] st) as (st' & E & V1 & K1 & Hi' & Hr & _); [done..|lia|].
  exists st', V1. split; [done|]. split; [|done]. rewrite app_nil_r in Hi'. destruct K1 as [|y K1]; [done|].
  exfalso. destruct (v_back _ _ _ _ Hi' y) as (p & Hp & _); [apply elem_of_cons; by left|]. by apply elem_of_nil in Hp.
Qed.

Lemma searched_inv fuel st :
  represents -> 0 < N -> N - 1 <= Z.of_nat fuel -> searched fuel st -> exists V, inv [] V [] st.
Proof.
  intros Hrep HN Hf Hs. induction Hs as [|u st st' _ [V Hi] Hu Hd E]; [exists []; by apply inv_initial|].
  rewrite (b_dfn _ _ _ _ (v_base _ _ _ _ Hi) u Hu) in Hd.
  destruct (outer_call fuel u V st) as (st1 & V1 & E1 & Hi1 & _); [done..|rewrite num_visited; lia|done|].
  rewrite E1 in E. injection E as <-. by exists (V1 ++ u :: V).
Qed.

(** Visited nodes in terms of [dfn]. *)
Lemma visited_dfn P V K st v : inv P V K st -> node N v -> v ∈ V <-> get (dfn st) v <> 0.
Proof. intros Hi Hv. rewrite (b_dfn _ _ _ _ (v_base _ _ _ _ Hi) v Hv). apply num_visited. Qed.

Lemma reach_visited V st v w : inv [] V [] st -> v ∈ V -> reach v w -> w ∈ V.
Proof.
  intros Hi. apply (reach_closed (fun z => z ∈ V)). intros x y Hx.
  apply (v_black _ _ _ _ Hi x y Hx). apply not_elem_of_nil.
Qed.

(** C36: the strongly connected components of tarjan.h: between calls on new nodes of a
    graph held in linked adjacency lists the stack is empty, two visited nodes have the
    same component number exactly when they reach each other, an arc never leads to a
    larger number, and sz counts the nodes of each component; a further call with
    recursion depth for all nodes returns and visits exactly the nodes that its start
    reaches. *)
Theorem tarjan_components fuel st :
  represents -> 0 < N -> N - 1 <= Z.of_nat fuel -> searched fuel st ->
  tp st = 0 /\
  (forall v w, node N v -> node N w -> get (dfn st) v <> 0 -> get (dfn st) w <> 0 ->
     get (scc st) v = get (scc st) w <-> reach v w /\ reach w v) /\
  (forall v w, get (dfn st) v <> 0 -> arc v w -> get (dfn st) w <> 0 /\ get (scc st) w <= get (scc st) v) /\
  (forall k, 1 <= k < N -> get (sz st) k = occurrences (scc st) k) /\
  (forall u, node N u -> get (dfn st) u = 0 ->
     exists st', tarjan h e efuel fuel u st = Ok st' /\
       forall v, node N v -> get (dfn st') v <> 0 <-> get (dfn st) v <> 0 \/ reach u v).
Proof.
  intros Hrep HN Hf Hs. destruct (searched_inv fuel st Hrep HN Hf Hs) as [V Hi].
  pose proof (v_base _ _ _ _ Hi) as Hb. pose proof (fun v => visited_dfn _ _ _ _ v Hi) as Hvis.
  pose proof (fun x => not_elem_of_nil x : x ∉ ([] : list Z)) as Hnil.
  split; [by rewrite (b_tp _ _ _ _ Hb)|]. split; [|split; [|split; [apply Hb|]]].
  - intros v w Hv Hw Hv' Hw'. by apply (v_mutual _ _ _ _ Hi); try apply Hvis.
  - intros v w Hd [Hv Hw]. assert (Hn : node N w) by (destruct (Hrep v Hv) as (_ & _ & Hn); by apply (node_of N (adj v))).
    rewrite <- Hvis by done. destruct (v_closed _ _ _ _ Hi v w) as [[? _] ?]; [by apply Hvis|done|done|done].
  - intros u Hu Hd. assert (Hnew : u ∉ V) by (rewrite Hvis by done; lia).
    destruct (outer_call fuel u V st Hrep Hi Hu Hnew Hf) as (st' & V1 & E & Hi' & Hr). exists st'. split; [done|].
    intros v Hv. rewrite <- (Hvis v Hv), <- (visited_dfn _ _ _ _ v Hi' Hv), elem_of_app, elem_of_cons. split.
    + intros [H|[->|H]]; [right; by apply Hr|right; apply rtc_refl|by left].
    + intros [H|H]; [auto|]. rewrite <- elem_of_cons, <- elem_of_app. apply (reach_visited _ _ u v Hi'); [|done].
      rewrite elem_of_app, elem_of_cons. auto.
Qed.
End Search.

(** The arcs 1 -> 2, 2 -> 1 and 2 -> 3. *)
Definition sample_h : list Z := [0; 1; 2; 0].
Definition sample_e : list edge_t := [MkEdge 0 0; MkEdge 0 2; MkEdge 3 1; MkEdge 0 3].
Definition sample_adj (u : Z) : list Z := if u =? 1 then [2] else if u =? 2 then [1; 3] else [].

Lemma sample_represents : represents 4 sample_h sample_e 3 sample_adj.
Proof.
  intros u Hu. assert (u = 1 \/ u = 2 \/ u = 3) as [-> | [-> | ->]] by (unfold node in Hu; lia); cbn.
  - split; [exists 1|split; [lia|repeat constructor; done]]. split; [done|]. split; [done|].
    exists (MkEdge 0 2). done.
  - split; [exists 2|split; [lia|repeat constructor; done]]. split; [done|]. split; [done|].
    exists (MkEdge 3 1). split; [done|]. split; [done|]. split; [done|]. exists (MkEdge 0 3). done.
  - split; [by exists 0|]. split; [lia|constructor].
Qed.

Lemma tarjan_components_witness :
  exists st, tarjan sample_h sample_e 3 3 1 (new_tarjan 4) = Ok st /\ scc st = [0; 2; 2; 1] /\ sz st = [0; 1; 2; 0] /\
    reach 4 sample_adj 1 2 /\ reach 4 sample_adj 2 1 /\ ~ (reach 4 sample_adj 2 3 /\ reach 4 sample_adj 3 2).
Proof.
  eexists. split; [vm_compute; reflexivity|]. split; [reflexivity|]. split; [reflexivity|].
  pose proof (tarjan_components 4 sample_h sample_e 3 sample_adj 3) as H.
  edestruct H as (_ & Hm & _); [exact sample_represents|lia|lia|..].
  - eapply searched_call with (u := 1); [apply searched_new|unfold node; lia|reflexivity|vm_compute; reflexivity].
  - cbn [dfn scc] in Hm. destruct (proj1 (Hm 1 2 ltac:(done) ltac:(done) ltac:(done) ltac:(done)) eq_refl) as [H12 H21].
    split; [exact H12|]. split; [exact H21|]. intros H23.
    pose proof (proj2 (Hm 2 3 ltac:(done) ltac:(done) ltac:(done) ltac:(done)) H23) as E. vm_compute in E. discriminate E.
Defined.
