(* ===== verification/Kmp.v ===== *)
(** The prefix function and the matching automaton of
    cpp/algorithm/string/kmp.h.  Strings are lists of character codes; their length is
    truncated to [int32_t], and a vector of negative size throws. *)

From S2P Require Import Prelude Graph Matrix.

(** [while (j > 0 && s[i] != s[j]) j = pi[j - 1]] *)
Definition fall_back (s pi : list Z) (i j : Z) : outcome (Z + Z) :=
  if 0 <? j then
    a ← vget s i; b ← vget s j;
    if negb (a =? b) then j ← vget pi (j - 1); Ok (inl j) else Ok (inr j)
  else Ok (inr j).

Definition prefix_function (s : list Z) : outcome (list Z) :=
  let n := s32 (zlen s) in
  require (0 <=? n) LengthError;;
  for_range 1 n (fun i pi =>
    j ← vget pi (i - 1);
    j ← while_fuel (S (Z.to_nat j)) (fall_back s pi i) j;
    a ← vget s i; b ← vget s j;
    vset pi i (if a =? b then j + 1 else j)) (zreplicate n 0).

(** ['a'] and ['#'] *)
Definition char_a : Z := 97.
Definition char_hash : Z := 35.

Definition aut_entry (s pi : list Z) (i c : Z) (aut : list (list Z)) : outcome (list (list Z)) :=
  a ← vget s i;
  if (0 <? i) && negb (char_a + c =? a) then p ← vget pi (i - 1); x ← mget aut p c; mset aut i c x
  else mset aut i c (i + (if char_a + c =? a then 1 else 0)).

Definition compute_automaton (s : list Z) : outcome (list (list Z)) :=
  let s := s ++ [char_hash] in
  let n := s32 (zlen s) in
  pi ← prefix_function s;
  require (0 <=? n) LengthError;;
  for_range 0 n (fun i aut => for_range 0 26 (fun c aut => aut_entry s pi i c aut) aut) (zreplicate n (zreplicate 26 0)).

(** "abacaba", and two rows of the automaton of "aba". *)
Example prefix_run : prefix_function [97; 98; 97; 99; 97; 98; 97] = Ok [0; 0; 1; 0; 1; 2; 3].
Proof. reflexivity. Qed.

Example automaton_run :
  (aut ← compute_automaton [97; 98; 97]; a ← mget aut 3 0; b ← mget aut 3 1; c ← mget aut 2 0; d ← mget aut 2 2; Ok [a; b; c; d]) = Ok [1; 2; 3; 0].
Proof. reflexivity. Qed.

(** From 2^31 to below 2^32 characters the size is negative. *)
Lemma prefix_function_long s : 2 ^ 31 <= zlen s < 2 ^ 32 -> prefix_function s = Fault LengthError.
Proof.
  intros Hn. unfold prefix_function. rewrite s32_upper by done.
  by destruct (Z.leb_spec 0 (zlen s - 2 ^ 32)); [lia|].
Qed.

(** * Borders *)

(** The prefix of length [b] is a proper suffix of the prefix of length [l]. *)
Definition border (s : list Z) (l b : Z) : Prop := 0 <= b < l /\ forall k, 0 <= k < b -> at_ s k = at_ s (l - b + k).

Definition longest_border (s : list Z) (l p : Z) : Prop := border s l p /\ forall b, border s l b -> b <= p.

Lemma border_zero s l : 0 < l -> border s l 0.
Proof. intros H. split; lia. Qed.

(** Borders of a border, and smaller borders next to it. *)
Lemma border_trans s l b c : border s l b -> border s b c -> border s l c.
Proof.
  intros [Hb1 Hb2] [Hc1 Hc2]. split; [lia|]. intros k Hk. rewrite (Hc2 k Hk), (Hb2 (b - c + k)) by lia. f_equal. lia.
Qed.

Lemma border_nested s l b c : border s l b -> border s l c -> c < b -> border s b c.
Proof.
  intros [Hb1 Hb2] [Hc1 Hc2] Hlt. split; [lia|]. intros k Hk. rewrite (Hc2 k Hk), (Hb2 (b - c + k)) by lia. f_equal. lia.
Qed.

(** Extending by one character. *)
Lemma border_extend s l b : border s l b -> at_ s b = at_ s l -> border s (l + 1) (b + 1).
Proof.
  intros [Hb1 Hb2] E. split; [lia|]. intros k Hk. destruct (Z.eq_dec k b) as [->|]; [rewrite E; f_equal; lia|]. rewrite Hb2 by lia. f_equal. lia.
Qed.

Lemma border_shrink s l b : border s (l + 1) (b + 1) -> 0 <= b -> border s l b /\ at_ s b = at_ s l.
Proof.
  intros [Hb1 Hb2] Hb. split; [split; [lia|]|].
  - intros k Hk. rewrite Hb2 by lia. f_equal. lia.
  - rewrite Hb2 by lia. f_equal. lia.
Qed.

Section Prefix.
Context (s : list Z).

Definition pi_upto (pi : list Z) (i : Z) : Prop := zlen pi = zlen s /\ forall x, 0 <= x < i -> longest_border s (x + 1) (at_ pi x).

(** The inner loop: [j] is a border, and no border that could be extended is
    longer. *)
Lemma fall_back_ok pi i j :
  pi_upto pi i -> 1 <= i < zlen s -> border s i j -> (forall b, border s (i + 1) (b + 1) -> 0 <= b -> b <= j) ->
  wp (while_fuel (S (Z.to_nat j)) (fall_back s pi i) j) (fun j' => border s i j' /\ (forall b, border s (i + 1) (b + 1) -> 0 <= b -> b <= j') /\
    (j' = 0 \/ at_ s j' = at_ s i)).
Proof.
  intros [Hl Hpi] Hi Hj Hmax. apply (wp_while (fun j => border s i j /\ forall b, border s (i + 1) (b + 1) -> 0 <= b -> b <= j) Z.to_nat); [done|lia|].
  clear j Hj Hmax. intros j [Hj Hmax]. pose proof Hj as [Hj1 _]. unfold fall_back. destruct (Z.ltb_spec 0 j) as [H0|H0].
  - rewrite !vget_at by lia. cbn [mbind outcome_bind]. destruct (Z.eqb_spec (at_ s i) (at_ s j)) as [E|E]; cbn [negb].
    + apply wp_ret. split; [done|]. split; [done|]. right. done.
    + rewrite ?vget_at by lia. cbn [mbind outcome_bind]. apply wp_ret. destruct (Hpi (j - 1) ltac:(lia)) as [Hp1 Hp2]. replace (j - 1 + 1) with j in * by lia.
      split; [split|destruct Hp1; lia].
      * by eapply border_trans.
      * intros b Hb Hb0. destruct (border_shrink _ _ _ Hb Hb0) as [Hbi Eb]. specialize (Hmax b Hb Hb0). assert (b <> j) by congruence.
        apply Hp2. eapply border_nested; [exact Hj|done|lia].
  - apply wp_ret. split; [done|]. split; [done|]. left. lia.
Qed.

Lemma prefix_function_ok : zlen s < 2 ^ 31 -> wp (prefix_function s) (fun pi => pi_upto pi (zlen s)).
Proof.
  intros H31. unfold prefix_function. pose proof (zlen_nonneg s) as Hn. rewrite s32_id by (unfold is_s32; lia).
  rewrite (proj2 (Z.leb_le _ _) Hn). cbn [require mbind outcome_bind].
  assert (H0 : pi_upto (zreplicate (zlen s) 0) (Z.min 1 (zlen s))).
  { split; [rewrite zlen_replicate; lia|]. intros x Hx. replace x with 0 by lia. rewrite at_replicate by lia. split; [apply border_zero; lia|]. intros b [Hb _]. lia. }
  destruct (Z.le_gt_cases (zlen s) 1) as [Hs|Hs].
  { rewrite for_range_empty by lia. apply wp_ret. by replace (Z.min 1 (zlen s)) with (zlen s) in H0 by lia. }
  apply (wp_for_range (fun i pi => pi_upto pi i)); [lia|by replace (Z.min 1 (zlen s)) with 1 in H0 by lia| |done].
  intros i pi Hi Hpi. pose proof Hpi as [Hl Hall]. rewrite (vget_at pi (i - 1)) by lia. cbn [mbind outcome_bind].
  destruct (Hall (i - 1) ltac:(lia)) as [Hp1 Hp2]. replace (i - 1 + 1) with i in * by lia.
  apply wp_bind. eapply wp_mono; [apply fall_back_ok; [done|lia|exact Hp1|]|].
  { intros b Hb Hb0. apply Hp2. by apply border_shrink. }
  intros j (Hj & Hmax & Hex). pose proof Hj as [Hj1 _]. rewrite !vget_at by lia. cbn [mbind outcome_bind]. rewrite vset_at by lia. apply wp_ret.
  split; [by rewrite zlen_zset|]. intros x Hx. rewrite at_zset by lia. destruct (Z.eqb_spec x i) as [->|]; [|apply Hall; lia].
  destruct (Z.eqb_spec (at_ s i) (at_ s j)) as [E|E].
  - split; [by apply border_extend|]. intros b Hb. destruct (Z.eq_dec b 0) as [->|]; [lia|]. pose proof Hb as [Hb1 _].
    specialize (Hmax (b - 1)). replace (b - 1 + 1) with b in Hmax by lia. specialize (Hmax Hb ltac:(lia)). lia.
  - destruct Hex as [->|]; [|congruence]. split; [apply border_zero; lia|]. intros b Hb. destruct (Z.eq_dec b 0) as [->|]; [lia|]. pose proof Hb as [Hb1 _].
    assert (Hb' : border s (i + 1) (b - 1 + 1)) by (by replace (b - 1 + 1) with b by lia). specialize (Hmax (b - 1) Hb' ltac:(lia)). assert (b = 1) as -> by lia.
    destruct (border_shrink _ _ _ Hb' ltac:(lia)) as [_ Eb]. change (1 - 1) with 0 in Eb. congruence.
Qed.
End Prefix.

(** * The automaton *)

(** After the prefix of length [i] and the character [ch], the prefix of length
    [b] is a suffix of what was read. *)
Definition matches (s : list Z) (i ch b : Z) : Prop :=
  0 <= b <= i + 1 /\ (0 < b -> at_ s (b - 1) = ch /\ forall k, 0 <= k < b - 1 -> at_ s k = at_ s (i - (b - 1) + k)).

Definition next_state (s : list Z) (i ch b : Z) : Prop := matches s i ch b /\ forall b', matches s i ch b' -> b' <= b.

Lemma matches_border s i ch b : 0 < b <= i -> (matches s i ch b <-> border s i (b - 1) /\ at_ s (b - 1) = ch).
Proof.
  intros Hb. split.
  - intros [_ H]. destruct (H ltac:(lia)) as [E Hk]. split; [|done]. split; [lia|done].
  - intros [[_ Hk] E]. split; [lia|]. intros _. done.
Qed.

Section Automaton.
Context (s : list Z) (pi : list Z).
Hypothesis Hpi : pi_upto s pi (zlen s).

Lemma next_state_match i : 0 <= i -> next_state s i (at_ s i) (i + 1).
Proof.
  intros Hi. split; [|intros b [Hb _]; lia]. split; [lia|]. intros _. replace (i + 1 - 1) with i by lia. split; [done|]. intros k Hk. f_equal. lia.
Qed.

Lemma next_state_zero ch : at_ s 0 <> ch -> next_state s 0 ch 0.
Proof.
  intros Hne. split; [split; [lia|lia]|]. intros b [Hb Hm]. destruct (Z.eq_dec b 0) as [->|]; [lia|]. destruct (Hm ltac:(lia)) as [E _]. replace (b - 1) with 0 in E by lia. done.
Qed.

(** On a mismatch the automaton behaves as after the longest border. *)
Lemma next_state_border i ch x :
  0 < i < zlen s -> at_ s i <> ch -> next_state s (at_ pi (i - 1)) ch x -> next_state s i ch x.
Proof.
  intros Hi Hne [Hx Hmax]. destruct Hpi as [_ Hall]. destruct (Hall (i - 1) ltac:(lia)) as [Hb Hlong]. replace (i - 1 + 1) with i in * by lia.
  set (p := at_ pi (i - 1)) in *. pose proof Hb as [Hb1 _]. split.
  - destruct (Z.eq_dec x 0) as [->|Hx0]; [split; lia|]. destruct Hx as [Hx1 Hx2]. apply matches_border; [lia|]. destruct (Hx2 ltac:(lia)) as [E Hk].
    split; [|done]. destruct (Z.eq_dec (x - 1) p) as [->|Hxp]; [done|]. eapply border_trans; [exact Hb|]. split; [lia|done].
  - intros b Hbm. pose proof Hbm as [Hbr Hb2]. destruct (Z.eq_dec b 0) as [->|]; [destruct Hx; lia|]. destruct (Hb2 ltac:(lia)) as [Eb _].
    assert (b <> i + 1) by (intros ->; replace (i + 1 - 1) with i in Eb by lia; done).
    apply matches_border in Hbm as [Hbo _]; [|lia]. pose proof (Hlong _ Hbo) as Hle. apply Hmax. destruct (Z.eq_dec (b - 1) p) as [Ep|Hbp].
    + split; [lia|]. intros _. split; [done|]. rewrite Ep. intros k Hk. f_equal. lia.
    + apply matches_border; [lia|]. split; [|done]. eapply border_nested; [exact Hb|done|lia].
Qed.
End Automaton.

Section Build.
Context (s : list Z) (pi : list Z).
Hypothesis Hpi : pi_upto s pi (zlen s).

(** The rows below [i] and the entries of row [i] below [c] are transitions. *)
Definition built (i c : Z) (m : list (list Z)) : Prop :=
  grid (zlen s) 26 m /\ forall a b, 0 <= a < zlen s -> 0 <= b < 26 -> a < i \/ (a = i /\ b < c) -> exists x, mget m a b = Ok x /\ next_state s a (char_a + b) x.

Lemma aut_entry_ok i c m : 0 <= i < zlen s -> 0 <= c < 26 -> built i c m -> wp (aut_entry s pi i c m) (built i (c + 1)).
Proof.
  intros Hi Hc [Hm Hb]. unfold aut_entry. rewrite (vget_at s i) by lia. cbn [mbind outcome_bind].
  assert (Hset : forall x, next_state s i (char_a + c) x -> wp (mset m i c x) (built i (c + 1))).
  { intros x Hx. destruct (grid_mset _ _ m i c x Hm Hi Hc) as (m' & -> & Hm' & Eic & Hoth). apply wp_ret. split; [done|]. intros a b Ha Hbb Hab.
    destruct (decide (a = i /\ b = c)) as [[-> ->]|Hne]; [by exists x|]. assert (a <> i \/ b <> c) by (destruct (Z.eq_dec a i); [right; intros ->; by apply Hne|by left]).
    rewrite Hoth by done. apply Hb; [done|done|]. lia. }
  destruct (Z.eqb_spec (char_a + c) (at_ s i)) as [E|E]; cbn [negb].
  - rewrite andb_false_r. apply Hset. rewrite E. apply next_state_match. lia.
  - rewrite andb_true_r. destruct (Z.ltb_spec 0 i) as [H0|H0].
    + pose proof Hpi as [Hl Hall]. destruct (Hall (i - 1) ltac:(lia)) as [[Hp _] _]. replace (i - 1 + 1) with i in * by lia.
      rewrite vget_at by lia. cbn [mbind outcome_bind]. destruct (Hb (at_ pi (i - 1)) c) as (x & -> & Hx); [lia|lia|lia|]. cbn [mbind outcome_bind].
      apply Hset. apply (next_state_border s pi Hpi); [lia|congruence|done].
    + replace i with 0 in * by lia. apply Hset. apply next_state_zero. congruence.
Qed.
End Build.

(** C38: for strings below 2^31 - 1 characters (the lengths are int) prefix_function
    returns for every prefix the length of its longest proper border, and
    compute_automaton the string-matching automaton: entry [i][c] is the length of the
    longest prefix of the pattern that is a suffix of its first i characters followed by
    c. *)
Theorem kmp_correct (s : list Z) :
  zlen s < 2 ^ 31 - 1 ->
  (exists pi, prefix_function s = Ok pi /\ zlen pi = zlen s /\ forall i, 0 <= i < zlen s -> longest_border s (i + 1) (at_ pi i)) /\
  (exists aut, compute_automaton s = Ok aut /\ forall i c, 0 <= i <= zlen s -> 0 <= c < 26 ->
     exists x, mget aut i c = Ok x /\ next_state (s ++ [char_hash]) i (char_a + c) x).
Proof.
  intros H31. split.
  - destruct (prefix_function_ok s ltac:(lia)) as (pi & E & Hl & Hp). by exists pi.
  - unfold compute_automaton. set (t := s ++ [char_hash]). assert (Ht : zlen t = zlen s + 1) by apply zlen_snoc.
    destruct (prefix_function_ok t ltac:(lia)) as (pi & E & Hpi). rewrite E. cbn [mbind outcome_bind]. pose proof (zlen_nonneg s) as Hn.
    rewrite s32_id by (unfold is_s32; lia). rewrite (proj2 (Z.leb_le 0 (zlen t))) by lia. cbn [require mbind outcome_bind].
    destruct (wp_for_range (fun i m => built t i 0 m) (fun m => built t (zlen t) 0 m) 0 (zlen t)
      (fun i aut => for_range 0 26 (fun c aut => aut_entry t pi i c aut) aut) (zreplicate (zlen t) (zreplicate 26 0))) as (aut & Ea & _ & Hb); [lia| | |done|].
    + split; [|lia]. apply grid_replicate; lia.
    + intros i m Hi Hm. apply (wp_for_range (fun c m => built t i c m)); [lia|done| |].
      * intros c m' Hc Hm'. by apply aut_entry_ok.
      * intros m' [H1 H2]. split; [done|]. intros a b Ha Hbb Hab. apply H2; [done|done|lia].
    + exists aut. split; [exact Ea|]. intros i c Hi Hc. apply Hb; lia.
Qed.

Lemma kmp_correct_witness :
  exists pi, prefix_function [97; 98; 97] = Ok pi /\ longest_border [97; 98; 97] 3 (at_ pi 2).
Proof.
  destruct (proj1 (kmp_correct [97; 98; 97] eq_refl)) as (pi & E & _ & H). exists pi. split; [exact E|].
  apply (H 2). vm_compute. split; [discriminate|reflexivity].
Defined.
