(* ===== verification/SparseTable.v ===== *)
(** The sparse table of cpp/datastructure/table/sparse_table.h, for an arbitrary
    operation.  [ceil(log2(x))] of an [int] is [Z.log2_up], which the doubles give
    exactly. *)

From S2P Require Import Prelude Graph Matrix.

Section Table.
Context (op : Z -> Z -> Z).

(** One entry of column [j]; the guard of the loop is [i + 2^(j-1) < len]. *)
Definition fill_entry (j i : Z) (t : list (list Z)) : outcome (list (list Z)) :=
  a ← mget t i (j - 1);
  b ← mget t (i + Z.shiftl 1 (j - 1)) (j - 1);
  mset t i j (op a b).

Definition fill_column (len j : Z) (t : list (list Z)) : outcome (list (list Z)) :=
  let pj := Z.shiftl 1 (j - 1) in
  for_range 0 (len - pj) (fill_entry j) t.

(** [log2(0)] has no value of type [int]: the constructor of an empty table is
    undefined. *)
Definition sparse_table (v : list Z) : outcome (list (list Z)) :=
  let len := zlen v in
  l1 ← (if len =? 0 then Fault AssertFail else Ok (Z.log2_up len + 1));
  t ← for_range 0 len (fun i t => x ← vget v i; mset t i 0 x) (zreplicate len (zreplicate l1 0));
  for_range 1 l1 (fill_column len) t.

(** [1 << q] with a negative [q] is undefined; the first index faults before. *)
Definition sparse_query (l r : Z) (t : list (list Z)) : outcome Z :=
  let lt := r - l + 1 in
  let q := Z.log2_up lt - 1 in
  a ← mget t l q;
  b ← mget t (r - Z.shiftl 1 q + 1) q;
  Ok (op a b).
End Table.

Example sparse_run :
  (t ← sparse_table Z.max [3; -1; 4; -1; 5; -9; 2]; a ← sparse_query Z.max 0 6 t; b ← sparse_query Z.max 5 6 t; c ← sparse_query Z.max 1 3 t; Ok [a; b; c])
  = Ok [5; 2; 4].
Proof. reflexivity. Qed.

(** A range of one element reads column -1. *)
Example sparse_single : (t ← sparse_table Z.max [3; -1; 4]; sparse_query Z.max 1 1 t) = Fault OutOfBounds.
Proof. reflexivity. Qed.

Section Proof.
Context (op : Z -> Z -> Z).
Hypothesis Hassoc : forall a b c, op a (op b c) = op (op a b) c.
Hypothesis Hidem : forall a, op a a = a.

(** [op] over the [n + 1] entries from [i]. *)
Fixpoint over (v : list Z) (i : Z) (n : nat) : Z :=
  match n with O => at_ v i | S n => op (at_ v i) (over v (i + 1) n) end.

Lemma over_split v i n m : over v i (S (n + m)) = op (over v i n) (over v (i + Z.of_nat n + 1) m).
Proof.
  revert i. induction n as [|n IH]; intros i; cbn [over Nat.add].
  - by replace (i + Z.of_nat 0 + 1) with (i + 1) by lia.
  - change (op (at_ v (i + 1)) (over v (i + 1 + 1) (n + m))) with (over v (i + 1) (S (n + m))). rewrite IH, Hassoc. do 2 f_equal. lia.
Qed.

(** Overlapping ranges. *)
Lemma over_overlap v i a b c : over v i (S (a + (b + c))) = op (over v i (S (a + b))) (over v (i + Z.of_nat a + 1) (b + c)).
Proof.
  rewrite (over_split v i a (b + c)), (over_split v i a b). rewrite <- Hassoc. f_equal. destruct c as [|c].
  - by rewrite Nat.add_0_r, Hidem.
  - replace (b + S c)%nat with (S (b + c)) by lia. rewrite (over_split v _ b c). by rewrite Hassoc, Hidem.
Qed.

(** The two windows of length [n + 1] at the ends of a range that they cover. *)
Lemma over_windows v l k n : (k <= S n)%nat ->
  op (over v l n) (over v (l + Z.of_nat k) n) = over v l (n + k).
Proof.
  intros Hk. destruct k as [|k].
  - rewrite Nat.add_0_r. replace (l + Z.of_nat 0) with l by lia. apply Hidem.
  - replace (l + Z.of_nat (S k)) with (l + Z.of_nat k + 1) by lia. destruct (decide (k = n)) as [->|Hne].
    + rewrite Nat.add_succ_r. symmetry. apply over_split.
    + replace n with (S (k + (n - S k)))%nat at 1 by lia. replace n with ((n - S k) + S k)%nat at 2 by lia.
      rewrite <- over_overlap. f_equal. lia.
Qed.

Context (v : list Z).
Hypothesis Hv : 0 < zlen v.

(** Entry [(i, c)] with its window inside the vector. *)
Definition entry (t : list (list Z)) (c i : Z) : Prop :=
  i + 2 ^ c <= zlen v -> mget t i c = Ok (over v i (Z.to_nat (2 ^ c - 1))).

(** The columns below [j], and the first [i] entries of column [j]. *)
Definition columns (w j i : Z) (t : list (list Z)) : Prop :=
  grid (zlen v) w t /\ forall c a, 0 <= a < zlen v -> 0 <= c < j \/ (c = j /\ a < i) -> entry t c a.

Lemma columns_set w j i t x :
  columns w j i t -> 0 <= j < w -> 0 <= i < zlen v ->
  (i + 2 ^ j <= zlen v -> x = over v i (Z.to_nat (2 ^ j - 1))) ->
  wp (mset t i j x) (columns w j (i + 1)).
Proof.
  intros [Hg Hc] Hj Hi Hx. destruct (grid_mset _ _ _ _ _ x Hg Hi Hj) as (t' & -> & Hg' & Eij & Hne). apply wp_ret.
  split; [done|]. intros c a Ha Hca Hle. destruct (decide (c = j /\ a = i)) as [[-> ->]|Hother]; [by rewrite Eij, Hx|].
  rewrite (Hne a c Ha) by (destruct (Z.eq_dec a i); [right; intros ->; tauto|by left]). apply Hc; [done| |done]. lia.
Qed.

Lemma fill_entry_ok w j i t :
  columns w j i t -> 0 < j < w -> 0 <= i < zlen v - 2 ^ (j - 1) -> wp (fill_entry op j i t) (columns w j (i + 1)).
Proof.
  intros H Hj Hi. pose proof (Z.pow_pos_nonneg 2 (j - 1) ltac:(lia) ltac:(lia)) as Hp.
  unfold fill_entry. rewrite Z.shiftl_1_l. pose proof H as [Hg Hc].
  destruct (grid_mget _ _ _ i (j - 1) Hg ltac:(lia) ltac:(lia)) as [a Ea].
  destruct (grid_mget _ _ _ (i + 2 ^ (j - 1)) (j - 1) Hg ltac:(lia) ltac:(lia)) as [b Eb].
  rewrite Ea, Eb. cbn [mbind outcome_bind]. apply columns_set; [done|lia|lia|]. intros Hle.
  assert (E2 : 2 ^ j = 2 ^ (j - 1) + 2 ^ (j - 1)) by (replace j with (Z.succ (j - 1)) at 1 by lia; rewrite Z.pow_succ_r by lia; lia).
  rewrite (Hc (j - 1) i) in Ea by lia. rewrite (Hc (j - 1) (i + 2 ^ (j - 1))) in Eb by lia. injection Ea as <-. injection Eb as <-.
  replace (i + 2 ^ (j - 1)) with (i + Z.of_nat (Z.to_nat (2 ^ (j - 1)))) by lia. rewrite over_windows by lia. f_equal. lia.
Qed.

Lemma sparse_table_ok : wp (sparse_table op v) (columns (Z.log2_up (zlen v) + 1) (Z.log2_up (zlen v) + 1) 0).
Proof.
  unfold sparse_table. replace (zlen v =? 0) with false by lia. cbn [mbind outcome_bind].
  set (w := Z.log2_up (zlen v) + 1). assert (Hw : 0 < w) by (pose proof (Z.log2_up_nonneg (zlen v)); lia).
  apply wp_bind. apply (wp_for_range (fun i t => columns w 0 i t)).
  - lia.
  - split; [apply grid_replicate; lia|]. intros c a Ha. lia.
  - intros i t Hi Ht. rewrite vget_at by lia. cbn [mbind outcome_bind]. by apply columns_set; [..|intros _].
  - intros t [Hg Ht]. apply (wp_for_range (fun j t => columns w j 0 t)).
    + lia.
    + split; [done|]. intros c a Ha [Hc|[-> Hc]]; [|lia]. apply Ht; lia.
    + intros j t' Hj [Hg' Ht']. unfold fill_column. rewrite Z.shiftl_1_l. pose proof (Z.pow_pos_nonneg 2 (j - 1) ltac:(lia) ltac:(lia)) as Hp.
      assert (E2 : 2 ^ j = 2 ^ (j - 1) + 2 ^ (j - 1)) by (replace j with (Z.succ (j - 1)) at 1 by lia; rewrite Z.pow_succ_r by lia; lia).
      destruct (Z.le_gt_cases 0 (zlen v - 2 ^ (j - 1))) as [Hle|Hgt].
      * apply (wp_for_range (fun i t => columns w j i t)); [lia|done| |].
        -- intros i t1 Hi H1. apply fill_entry_ok; [done|lia|lia].
        -- intros t1 [Hg1 H1]. split; [done|]. intros c a Ha Hc Hin. destruct (Z.eq_dec c j) as [->|]; apply H1; try done; lia.
      * rewrite for_range_empty by lia. apply wp_ret. split; [done|]. intros c a Ha Hc Hin. destruct (Z.eq_dec c j) as [->|]; [lia|]. apply Ht'; [done| |done]. lia.
    + done.
Qed.
End Proof.

(** for every associative and idempotent operation the table of a non-empty vector
    answers query(l, r) with l < r with the operation over the entries l to r; query(l,
    l) indexes column -1. *)
Theorem sparse_table_correct (op : Z -> Z -> Z) (v : list Z) :
  (forall a b c, op a (op b c) = op (op a b) c) -> (forall a, op a a = a) -> v <> [] ->
  exists t, sparse_table op v = Ok t /\
    (forall l r, 0 <= l < r -> r < zlen v -> sparse_query op l r t = Ok (over op v l (Z.to_nat (r - l)))) /\
    (forall l, sparse_query op l l t = Fault OutOfBounds).
Proof.
  intros Hassoc Hidem Hne.
  assert (Hv : 0 < zlen v) by (destruct v as [|x v]; [done|rewrite zlen_cons; pose proof (zlen_nonneg v); lia]).
  destruct (sparse_table_ok op Hassoc Hidem v Hv) as (t & Et & Hg & Ht). exists t. split; [done|]. split.
  - intros l r Hl Hr. unfold sparse_query. set (q := Z.log2_up (r - l + 1) - 1).
    destruct (Z.log2_up_spec (r - l + 1) ltac:(lia)) as [Hlo Hhi]. pose proof (Z.log2_up_pos (r - l + 1) ltac:(lia)) as Hpos.
    rewrite Z.shiftl_1_l. change (Z.pred (Z.log2_up (r - l + 1))) with q in Hlo.
    assert (E2 : 2 ^ Z.log2_up (r - l + 1) = 2 * 2 ^ q) by (rewrite <- Z.pow_succ_r by lia; f_equal; lia).
    pose proof (Z.pow_pos_nonneg 2 q ltac:(lia) ltac:(lia)) as Hp.
    pose proof (Z.log2_up_le_mono (r - l + 1) (zlen v) ltac:(lia)) as Hmono.
    rewrite (Ht q l) by lia. rewrite (Ht q (r - 2 ^ q + 1)) by lia. cbn [mbind outcome_bind].
    replace (r - 2 ^ q + 1) with (l + Z.of_nat (Z.to_nat (r - 2 ^ q + 1 - l))) by lia.
    rewrite (over_windows op Hassoc Hidem) by lia. do 2 f_equal. lia.
  - intros l. unfold sparse_query. replace (l - l + 1) with 1 by lia. change (Z.log2_up 1 - 1) with (-1).
    assert (E : mget t l (-1) = Fault OutOfBounds) by (unfold mget, vget; destruct (zget t l); reflexivity). by rewrite E.
Qed.

Lemma sparse_table_correct_witness : exists t, sparse_table Z.max [3; -1; 4] = Ok t /\ sparse_query Z.max 0 2 t = Ok 4.
Proof.
  destruct (sparse_table_correct Z.max [3; -1; 4] Z.max_assoc Z.max_id ltac:(done)) as (t & Et & Hq & _). exists t. split; [done|].
  by rewrite Hq.
Defined.
