(* ===== verification/Store.v ===== *)
(** Nodes allocated with [new] and released with [delete], as a map from
    addresses to live nodes: the memory of stack.h, trie.h and pair_heap.h.
    Reading, writing or deleting a node that is not live is a fault. *)

From stdpp Require Export gmap.
From S2P Require Import Prelude.

Definition nullptr : Z := 0.

Record store (N : Type) := MkStore { cells : gmap Z N; next_addr : Z }.
Arguments MkStore {N} _ _.
Arguments cells {N} _.
Arguments next_addr {N} _.

Section Store.
Context {N : Type}.
Implicit Types (h : store N) (a : Z) (n : N).

Definition empty_store : store N := MkStore ∅ 1.

Definition load h a : outcome N := match cells h !! a with Some n => Ok n | None => Fault NullDeref end.

Definition write h a n : outcome (store N) :=
  match cells h !! a with Some _ => Ok (MkStore (<[a := n]> (cells h)) (next_addr h)) | None => Fault NullDeref end.

(** [new N(...)]: the address and the memory. *)
Definition alloc h n : Z * store N := (next_addr h, MkStore (<[next_addr h := n]> (cells h)) (next_addr h + 1)).

(** [delete a]; deleting the null pointer does nothing. *)
Definition free h a : outcome (store N) :=
  if a =? nullptr then Ok h
  else match cells h !! a with Some _ => Ok (MkStore (delete a (cells h)) (next_addr h)) | None => Fault NullDeref end.

(** Live addresses lie below the next fresh one and are not null. *)
Definition wf_store h : Prop := 0 < next_addr h /\ forall a n, cells h !! a = Some n -> 0 < a < next_addr h.

Lemma wf_empty_store : wf_store empty_store.
Proof. split; [done|]. intros a n. cbn. by rewrite lookup_empty. Qed.

Lemma load_some h a n : cells h !! a = Some n -> load h a = Ok n.
Proof. unfold load. by intros ->. Qed.

Lemma write_some h a n n' : cells h !! a = Some n -> write h a n' = Ok (MkStore (<[a := n']> (cells h)) (next_addr h)).
Proof. unfold write. by intros ->. Qed.

Lemma free_some h a n : wf_store h -> cells h !! a = Some n -> free h a = Ok (MkStore (delete a (cells h)) (next_addr h)).
Proof. unfold free. intros [_ Hw] E. specialize (Hw _ _ E). unfold nullptr. destruct (Z.eqb_spec a 0); [lia|]. by rewrite E. Qed.

Lemma wf_not_null h a n : wf_store h -> cells h !! a = Some n -> a <> nullptr.
Proof. intros [_ Hw] E. specialize (Hw _ _ E). unfold nullptr. lia. Qed.

Lemma wf_fresh h : wf_store h -> cells h !! next_addr h = None.
Proof. intros [_ Hw]. destruct (cells h !! next_addr h) as [n|] eqn:E; [|done]. specialize (Hw _ _ E). lia. Qed.

Lemma wf_alloc h n : wf_store h -> wf_store (alloc h n).2.
Proof.
  intros [H0 Hw]. split; cbn; [lia|]. intros a n'. rewrite lookup_insert_Some. intros [[<- _]|[_ E]]; [lia|].
  specialize (Hw _ _ E). lia.
Qed.

Lemma wf_write h a n n' : wf_store h -> cells h !! a = Some n -> wf_store (MkStore (<[a := n']> (cells h)) (next_addr h)).
Proof.
  intros [H0 Hw] Ea. split; [done|]. cbn. intros b nb. rewrite lookup_insert_Some. intros [[<- _]|[_ E]]; [by eapply Hw|].
  by eapply Hw.
Qed.

Lemma wf_free h a : wf_store h -> wf_store (MkStore (delete a (cells h)) (next_addr h)).
Proof. intros [H0 Hw]. split; [done|]. cbn. intros b nb. rewrite lookup_delete_Some. intros [_ E]. by eapply Hw. Qed.
End Store.
Arguments empty_store : clear implicits.

Create HintDb store.
#[export] Hint Resolve wf_empty_store wf_alloc wf_write wf_free wf_not_null : store.
