(* ===== verification/Stack.v ===== *)
(** The linked stack of cpp/datastructure/stack/stack.h refines a list. *)

From S2P Require Import Store Prelude.

Section Stack.
Context {T : Type} (minus_one : T).

Record Node := MkNode { value : T; next : Z }.

Record Stack := MkStack { nodes : store Node; size_ : Z; tail_ : Z }.

Definition new_stack : Stack := MkStack (empty_store Node) 0 nullptr.

Definition empty (s : Stack) : bool := tail_ s =? nullptr.
Definition size (s : Stack) : Z := size_ s.
Definition top (s : Stack) : outcome T := n ← load (nodes s) (tail_ s); Ok (value n).

Definition push (v : T) (s : Stack) : outcome Stack :=
  let '(node, h) := alloc (nodes s) (MkNode v nullptr) in
  h ← (if empty s then Ok h else n ← load h node; write h node (MkNode (value n) (tail_ s)));
  Ok (MkStack h (u64 (size_ s + 1)) node).

Definition pop (s : Stack) : outcome (T * Stack) :=
  if empty s then Ok (minus_one, s)
  else
    let node := tail_ s in
    n ← load (nodes s) (tail_ s);
    let tail := next n in
    n ← load (nodes s) node;
    let v := value n in
    h ← free (nodes s) node;
    Ok (v, MkStack h (u64 (size_ s - 1)) tail).

(** The loop of the destructor; one round per node. *)
Definition destroy_step (st : store Node * Z) : outcome (store Node * Z + store Node) :=
  let '(h, tail) := st in
  if tail =? nullptr then Ok (inr h)
  else n ← load h tail; h ← free h tail; Ok (inl (h, next n)).

Definition destroy_stack (s : Stack) : outcome (store Node) :=
  while_fuel (S (base.size (cells (nodes s)))) destroy_step (nodes s, tail_ s).

(** * Operations as data, on the stack and on a list *)

Inductive stack_op := Push (v : T) | Pop | Top | Empty | Size.
Inductive answer := AUnit | AVal (v : T) | ABool (b : bool) | ANum (n : Z).

Definition stack_step (o : stack_op) (s : Stack) : outcome (answer * Stack) :=
  match o with
  | Push v => s ← push v s; Ok (AUnit, s)
  | Pop => '(v, s) ← pop s; Ok (AVal v, s)
  | Top => v ← top s; Ok (AVal v, s)
  | Empty => Ok (ABool (empty s), s)
  | Size => Ok (ANum (size s), s)
  end.

Fixpoint stack_run (os : list stack_op) (s : Stack) : outcome (list answer * Stack) :=
  match os with
  | [] => Ok ([], s)
  | o :: os => '(a, s) ← stack_step o s; '(l, s) ← stack_run os s; Ok (a :: l, s)
  end.

Definition list_step (o : stack_op) (l : list T) : outcome (answer * list T) :=
  match o, l with
  | Push v, _ => Ok (AUnit, v :: l)
  | Pop, [] => Ok (AVal minus_one, [])
  | Pop, v :: l => Ok (AVal v, l)
  | Top, [] => Fault NullDeref
  | Top, v :: _ => Ok (AVal v, l)
  | Empty, _ => Ok (ABool (is_nil l), l)
  | Size, _ => Ok (ANum (zlen l), l)
  end.

Fixpoint list_run (os : list stack_op) (l : list T) : outcome (list answer * list T) :=
  match os with
  | [] => Ok ([], l)
  | o :: os => '(a, l) ← list_step o l; '(r, l) ← list_run os l; Ok (a :: r, l)
  end.
End Stack.

(** * The chain of nodes *)

Section Refinement.
Context {T : Type} (minus_one : T).
Implicit Types (l : list T) (p : Z) (m : gmap Z (@Node T)).

(** [m] is exactly the chain from [p] that holds [l]. *)
Fixpoint chain m p l : Prop :=
  match l with
  | [] => p = nullptr /\ m = ∅
  | v :: l => exists q, m !! p = Some (MkNode v q) /\ chain (delete p m) q l
  end.

Definition rep (s : @Stack T) l : Prop :=
  wf_store (nodes s) /\ chain (cells (nodes s)) (tail_ s) l /\ size_ s = u64 (zlen l).

Lemma chain_empty s l : rep s l -> empty s = is_nil l.
Proof.
  intros (Hw & Hc & _). unfold empty. destruct l as [|v l]; [destruct Hc as [-> _]; done|].
  destruct Hc as (q & E & _). apply (wf_not_null _ _ _ Hw) in E. cbn. by apply Z.eqb_neq.
Qed.

Lemma chain_size m p l : chain m p l -> length l = base.size m.
Proof.
  revert m p. induction l as [|v l IH]; intros m p; cbn [chain length].
  - intros [_ ->]. by rewrite map_size_empty.
  - intros (q & E & Hc). apply IH in Hc. rewrite Hc, map_size_delete_Some by eauto.
    assert (base.size m <> 0%nat); [|lia]. rewrite map_size_non_empty_iff. intros ->. by rewrite lookup_empty in E.
Qed.

Lemma stack_push_ok v s l : rep s l -> wp (push v s) (fun s' => rep s' (v :: l)).
Proof.
  intros Hr. pose proof (chain_empty _ _ Hr) as He. destruct Hr as (Hw & Hc & Hs). pose proof (wf_fresh _ Hw) as Hf.
  assert (Hd : forall x, delete (next_addr (nodes s)) (<[next_addr (nodes s) := x]> (cells (nodes s))) = cells (nodes s)).
  { intros x. by rewrite delete_insert_id. }
  pose proof (wf_alloc _ (MkNode v nullptr) Hw) as Hwa. unfold push, alloc in *. cbn in Hwa.
  assert (Hz : u64 (size_ s + 1) = u64 (zlen (v :: l))) by (rewrite Hs, u64_add_l, zlen_cons; done).
  rewrite He. destruct l as [|w l]; cbn [is_nil].
  - apply wp_ret. split; [done|]. split; [|done]. exists nullptr. cbn [nodes tail_ cells].
    rewrite lookup_insert_eq, Hd. destruct Hc as [_ Hc]. split; [done|]. by split.
  - unfold load. cbn [cells next_addr]. rewrite lookup_insert_eq. cbn [mbind outcome_bind value].
    unfold write. cbn [cells next_addr]. rewrite lookup_insert_eq. cbn [mbind outcome_bind]. apply wp_ret. split; [|split; [|done]].
    + exact (wf_write _ _ (MkNode v nullptr) _ Hwa (lookup_insert_eq _ _ _)).
    + cbn [nodes tail_ cells chain]. exists (tail_ s). rewrite insert_insert_eq, lookup_insert_eq, Hd. auto.
Qed.

Lemma stack_pop_ok s l :
  rep s l ->
  wp (pop minus_one s) (fun r => match l with [] => r = (minus_one, s) | v :: l => r.1 = v /\ rep r.2 l end).
Proof.
  intros Hr. pose proof (chain_empty _ _ Hr) as He. destruct Hr as (Hw & Hc & Hs). unfold pop. rewrite He.
  destruct l as [|v l]; cbn [is_nil]; [by apply wp_ret|]. destruct Hc as (q & E & Hc).
  rewrite (load_some _ _ _ E). cbn [mbind outcome_bind]. rewrite (free_some _ _ _ Hw E). cbn [mbind outcome_bind].
  apply wp_ret. cbn. split; [done|]. split; [by apply wf_free|]. split; [done|]. cbn. rewrite Hs, u64_sub_l, zlen_cons. f_equal. lia.
Qed.

Lemma stack_step_ok o s l r l' :
  rep s l -> list_step minus_one o l = Ok (r, l') -> zlen l' < 2 ^ 64 -> zlen l < 2 ^ 64 ->
  exists s', stack_step minus_one o s = Ok (r, s') /\ rep s' l'.
Proof.
  intros Hr E Hl' Hl. pose proof Hr as (Hw & Hc & Hs). destruct o as [v| | | |]; cbn [stack_step list_step] in *.
  - injection E as <- <-. destruct (stack_push_ok v s l Hr) as (s' & -> & Hs'). by exists s'.
  - destruct (stack_pop_ok s l Hr) as ([w s'] & -> & Hp). cbn. destruct l as [|v l]; injection E as <- <-.
    + injection Hp as -> ->. by exists s.
    + cbn in Hp. destruct Hp as [-> Hp]. by exists s'.
  - destruct l as [|v l]; [done|]. injection E as <- <-. destruct Hc as (q & Eq & Hc). unfold top. rewrite (load_some _ _ _ Eq).
    cbn. by exists s.
  - injection E as <- <-. exists s. by rewrite (chain_empty _ _ Hr).
  - injection E as <- <-. exists s. split; [|done]. unfold size. rewrite Hs, u64_id; [done|]. unfold is_u64. pose proof (zlen_nonneg l). lia.
Qed.

Lemma stack_destroy_ok m p l f :
  wf_store (MkStore m f) -> chain m p l ->
  exists h, while_fuel (S (length l)) destroy_step (MkStore m f, p) = Ok h /\ cells h = ∅.
Proof.
  revert m p. induction l as [|v l IH]; intros m p Hw Hc; cbn [length].
  - destruct Hc as [-> ->]. exists (MkStore ∅ f). done.
  - destruct Hc as (q & E & Hc). destruct (IH _ _ (wf_free (MkStore m f) p Hw) Hc) as (h & Eh & Hh). exists h. split; [|done].
    rewrite <- Eh. remember (S (length l)) as k. cbn [while_fuel]. cbn [destroy_step]. pose proof (wf_not_null (MkStore m f) _ _ Hw E).
    replace (p =? nullptr) with false by lia. rewrite (load_some (MkStore m f) _ _ E). cbn [mbind outcome_bind].
    rewrite (free_some (MkStore m f) _ _ Hw E). done.
Qed.

Lemma stack_run_ok os s l :
  rep s l -> zlen l + zlen os < 2 ^ 64 ->
  match list_run minus_one os l with
  | Ok (r, l') => exists s', stack_run minus_one os s = Ok (r, s') /\ rep s' l'
  | Fault e => stack_run minus_one os s = Fault e
  end.
Proof.
  revert s l. induction os as [|o os IH]; intros s l Hr Hb; cbn [list_run stack_run]; [by exists s|].
  rewrite zlen_cons in Hb. pose proof (zlen_nonneg os).
  destruct (list_step minus_one o l) as [[a l1]|e] eqn:E; cbn [mbind outcome_bind].
  - assert (Hl1 : zlen l1 <= zlen l + 1).
    { destruct o, l; cbn in E; try discriminate E; injection E as <- <-; rewrite ?zlen_cons; lia. }
    destruct (stack_step_ok o s l a l1 Hr E) as (s1 & -> & Hr1); [lia|lia|]. cbn [mbind outcome_bind].
    specialize (IH s1 l1 Hr1 ltac:(lia)). destruct (list_run minus_one os l1) as [[r l2]|e].
    + destruct IH as (s2 & -> & Hr2). by exists s2.
    + by rewrite IH.
  - destruct o, l; cbn in E; try discriminate E. injection E as <-. cbn [stack_step]. unfold top, load.
    destruct Hr as (_ & [_ ->] & _). by rewrite lookup_empty.
Qed.

(** Every sequence of operations on a new stack answers as on a list: the last
    value pushed is the first popped, [pop] of the empty stack returns [T(-1)],
    [top] of the empty stack is the only fault; the destructor frees all nodes. *)
Theorem stack_refines_list os :
  zlen os < 2 ^ 64 ->
  match list_run minus_one os [] with
  | Ok (r, l) => exists s, stack_run minus_one os new_stack = Ok (r, s) /\
      exists h, destroy_stack s = Ok h /\ cells h = ∅
  | Fault e => stack_run minus_one os new_stack = Fault e
  end.
Proof.
  intros Hb. assert (Hr : rep new_stack []) by (split; [apply wf_empty_store|done]).
  pose proof (stack_run_ok os new_stack [] Hr Hb) as H. destruct (list_run minus_one os []) as [[r l]|e]; [|done].
  destruct H as (s & E & (Hw & Hc & _)). exists s. split; [done|]. unfold destroy_stack. rewrite <- (chain_size _ _ _ Hc).
  destruct s as [[m f] z t]. by apply stack_destroy_ok.
Qed.
End Refinement.

Example stack_example :
  (r ← stack_run (-1) [Push 4; Push 5; Top; Pop; Size; Pop; Pop; Empty] new_stack; Ok r.1)
  = Ok [AUnit; AUnit; AVal 5; AVal 5; ANum 1; AVal 4; AVal (-1); ABool true].
Proof. reflexivity. Qed.
