(* ===== verification/Trie.v ===== *)
(** The trie of cpp/datastructure/tree/trie.h refines a set of strings.  Characters
    are [Z]; the order in which the destructor visits the children of a node, that
    of an [unordered_map], is the order of [map_to_list]. *)

From S2P Require Import Store Prelude.

Record Node := MkNode { end_ : bool; children : gmap Z Z }.

Record Trie := MkTrie { nodes : store Node; root_ : Z }.

(** [Node()] *)
Definition new_node : Node := MkNode false ∅.

Definition new_trie : Trie := let '(a, h) := alloc (empty_store Node) new_node in MkTrie h a.

(** [tmp->children[ch]], which adds a null pointer for a missing key. *)
Definition subscript (h : store Node) (tmp ch : Z) : outcome (store Node * Z) :=
  n ← load h tmp;
  match children n !! ch with
  | Some a => Ok (h, a)
  | None => h ← write h tmp (MkNode (end_ n) (<[ch := nullptr]> (children n))); Ok (h, nullptr)
  end.

(** [tmp->children[ch] = a] *)
Definition set_subscript (h : store Node) (tmp ch a : Z) : outcome (store Node) :=
  n ← load h tmp; write h tmp (MkNode (end_ n) (<[ch := a]> (children n))).

Definition insert_step (ch : Z) (st : store Node * Z) : outcome (store Node * Z) :=
  let '(h, tmp) := st in
  n ← load h tmp;
  h ← (match children n !! ch with
       | None => let '(a, h) := alloc h new_node in set_subscript h tmp ch a
       | Some _ => Ok h
       end);
  subscript h tmp ch.

Definition insert (s : list Z) (t : Trie) : outcome (bool * Trie) :=
  '(h, tmp) ← for_each s insert_step (nodes t, root_ t);
  n ← load h tmp;
  h ← write h tmp (MkNode true (children n));
  Ok (true, MkTrie h (root_ t)).

(** The loop that [query] and [start_with] share. *)
Definition descend (ch : Z) (st : store Node * Z) : outcome (store Node * Z + bool) :=
  let '(h, tmp) := st in
  n ← load h tmp;
  match children n !! ch with
  | Some _ => st ← subscript h tmp ch; Ok (inl st)
  | None => Ok (inr false)
  end.

Definition query (s : list Z) (t : Trie) : outcome (bool * Trie) :=
  r ← for_each_ret s descend (nodes t, root_ t);
  match r with
  | inl (h, tmp) => n ← load h tmp; Ok (end_ n, MkTrie h (root_ t))
  | inr b => Ok (b, t)
  end.

Definition start_with (s : list Z) (t : Trie) : outcome (bool * Trie) :=
  r ← for_each_ret s descend (nodes t, root_ t);
  match r with inl (h, tmp) => Ok (true, MkTrie h (root_ t)) | inr b => Ok (b, t) end.

(** [_destroy]; a child is allocated after its parent, so the addresses bound the
    depth. *)
Fixpoint destroy (fuel : nat) (node : Z) (h : store Node) : outcome (store Node) :=
  match fuel with
  | O => Fault OutOfFuel
  | S fuel =>
      if node =? nullptr then Ok h
      else
        n ← load h node;
        h ← for_each (map_to_list (children n)) (fun p h => destroy fuel p.2 h) h;
        free h node
  end.

Definition destroy_trie (t : Trie) : outcome (store Node) := destroy (Z.to_nat (next_addr (nodes t))) (root_ t) (nodes t).

(** * Operations as data, on the trie and on a set *)

Inductive trie_op := Insert (s : list Z) | Query (s : list Z) | StartWith (s : list Z).

Definition trie_step (o : trie_op) (t : Trie) : outcome (bool * Trie) :=
  match o with Insert s => insert s t | Query s => query s t | StartWith s => start_with s t end.

Fixpoint trie_run (os : list trie_op) (t : Trie) : outcome (list bool * Trie) :=
  match os with
  | [] => Ok ([], t)
  | o :: os => '(b, t) ← trie_step o t; '(bs, t) ← trie_run os t; Ok (b :: bs, t)
  end.

Definition has_prefix (s : list Z) (W : gset (list Z)) : Prop := s = [] \/ set_Exists (fun w => s `prefix_of` w) W.

#[export] Instance has_prefix_dec s W : Decision (has_prefix s W).
Proof. unfold has_prefix. apply _. Defined.

Definition set_step (o : trie_op) (W : gset (list Z)) : bool * gset (list Z) :=
  match o with
  | Insert s => (true, {[ s ]} ∪ W)
  | Query s => (bool_decide (s ∈ W), W)
  | StartWith s => (bool_decide (has_prefix s W), W)
  end.

Fixpoint set_run (os : list trie_op) (W : gset (list Z)) : list bool :=
  match os with [] => [] | o :: os => let '(b, W) := set_step o W in b :: set_run os W end.

Example trie_example :
  (r ← trie_run [Insert [97; 98]; Query [97]; StartWith [97]; Query [97; 98]; Insert []; Query []; StartWith [98]] new_trie; Ok r.1)
  = Ok [true; false; true; true; true; true; false].
Proof. vm_compute. reflexivity. Qed.

(** * Paths

    [P] gives the address of the node of each path from the root, [W] the words. *)

Record shape (P : gmap (list Z) Z) (W : gset (list Z)) (h : store Node) : Prop := {
  s_wf : wf_store h;
  s_inj : forall p q a, P !! p = Some a -> P !! q = Some a -> p = q;
  s_node : forall p a, P !! p = Some a -> exists n, cells h !! a = Some n /\ end_ n = bool_decide (p ∈ W) /\ forall c, children n !! c = P !! (p ++ [c]);
  s_owned : forall a n, cells h !! a = Some n -> exists p, P !! p = Some a;
  s_closed : forall p c, is_Some (P !! (p ++ [c])) -> is_Some (P !! p);
  s_later : forall p c a b, P !! p = Some a -> P !! (p ++ [c]) = Some b -> a < b;
  s_words : forall w, w ∈ W -> is_Some (P !! w) }.

(** Every path leads to a word, up to the part [s] under construction. *)
Definition live (P : gmap (list Z) Z) (W : gset (list Z)) (s : list Z) : Prop := forall p a, P !! p = Some a -> p `prefix_of` s \/ has_prefix p W.

Definition trie_rep (W : gset (list Z)) (t : Trie) : Prop :=
  exists P, shape P W (nodes t) /\ P !! [] = Some (root_ t) /\ live P W [].

Lemma closed_app P W h p q : shape P W h -> is_Some (P !! (p ++ q)) -> is_Some (P !! p).
Proof.
  intros Hs. revert p. induction q as [|c q IH]; intros p H; [by rewrite app_nil_r in H|].
  rewrite cons_middle, app_assoc in H. apply IH in H. by eapply s_closed.
Qed.

Lemma shape_load P W h p a : shape P W h -> P !! p = Some a -> exists n, load h a = Ok n /\ cells h !! a = Some n /\ end_ n = bool_decide (p ∈ W) /\ forall c, children n !! c = P !! (p ++ [c]).
Proof. intros Hs E. destruct (s_node _ _ _ Hs _ _ E) as (n & En & Hn). exists n. split; [by apply load_some|by split]. Qed.

Lemma descend_ok P W h p a c :
  shape P W h -> P !! p = Some a -> descend c (h, a) = Ok (match P !! (p ++ [c]) with Some b => inl (h, b) | None => inr false end).
Proof.
  intros Hs E. destruct (shape_load _ _ _ _ _ Hs E) as (n & El & _ & _ & Hc). unfold descend, subscript. rewrite El. cbn [mbind outcome_bind].
  rewrite Hc. destruct (P !! (p ++ [c])) as [b|]; done.
Qed.

Lemma descend_all P W h s p a :
  shape P W h -> P !! p = Some a ->
  for_each_ret s descend (h, a) = Ok (match P !! (p ++ s) with Some b => inl (h, b) | None => inr false end).
Proof.
  intros Hs. revert p a. induction s as [|c s IH]; intros p a E; cbn [for_each_ret]; [by rewrite app_nil_r, E|].
  rewrite (descend_ok _ _ _ _ _ _ Hs E). cbn [mbind outcome_bind]. rewrite (cons_middle c p s), app_assoc.
  destruct (P !! (p ++ [c])) as [b|] eqn:Eb; [by apply IH|]. destruct (P !! ((p ++ [c]) ++ s)) as [x|] eqn:Ex; [|done].
  destruct (closed_app _ _ _ (p ++ [c]) s Hs); [by eexists|congruence].
Qed.

Lemma trie_query_ok W t s : trie_rep W t -> query s t = Ok (bool_decide (s ∈ W), t).
Proof.
  intros (P & Hs & Hr & _). unfold query. rewrite (descend_all _ _ _ s _ _ Hs Hr). cbn [mbind outcome_bind app].
  destruct (P !! s) as [b|] eqn:E.
  - destruct (shape_load _ _ _ _ _ Hs E) as (n & -> & _ & He & _). cbn [mbind outcome_bind]. rewrite He. by destruct t.
  - rewrite bool_decide_false; [done|]. intros Hw. apply (s_words _ _ _ Hs) in Hw as [x Hx]. congruence.
Qed.

Lemma start_with_ok W t s : trie_rep W t -> start_with s t = Ok (bool_decide (has_prefix s W), t).
Proof.
  intros (P & Hs & Hr & Hl). unfold start_with. rewrite (descend_all _ _ _ s _ _ Hs Hr). cbn [mbind outcome_bind app].
  destruct (P !! s) as [b|] eqn:E.
  - rewrite bool_decide_true; [by destruct t|]. destruct (Hl _ _ E) as [H|H]; [|done]. left. by apply prefix_nil_inv.
  - rewrite bool_decide_false; [done|]. intros [->|(w & Hw & [k ->])]; [congruence|].
    apply (s_words _ _ _ Hs) in Hw. destruct (closed_app _ _ _ s k Hs Hw). congruence.
Qed.

Lemma shape_below P W h p a : shape P W h -> P !! p = Some a -> 0 < a < next_addr h.
Proof. intros Hs E. destruct (s_node _ _ _ Hs _ _ E) as (n & En & _). by apply (s_wf _ _ _ Hs) in En. Qed.

(** A new node below the node of [p]. *)
Lemma shape_extend P W h p c a n :
  shape P W h -> P !! p = Some a -> cells h !! a = Some n -> P !! (p ++ [c]) = None ->
  shape (<[p ++ [c] := next_addr h]> P) W
    (MkStore (<[a := MkNode (end_ n) (<[c := next_addr h]> (children n))]> (<[next_addr h := new_node]> (cells h))) (next_addr h + 1)).
Proof.
  intros Hs Ea En Enone. set (f := next_addr h). pose proof (shape_below _ _ _ _ _ Hs Ea) as Hlt. fold f in Hlt.
  assert (Hpc : p <> p ++ [c]) by (intros E; apply (f_equal length) in E; rewrite length_app in E; cbn in E; lia).
  assert (Hbelow : forall q b, P !! q = Some b -> b <> f) by (intros q b E; pose proof (shape_below _ _ _ _ _ Hs E); unfold f; lia).
  assert (Hdeep : forall c', P !! ((p ++ [c]) ++ [c']) = None).
  { intros c'. destruct (P !! ((p ++ [c]) ++ [c'])) eqn:E; [|done]. destruct (s_closed _ _ _ Hs (p ++ [c]) c'); [by eexists|congruence]. }
  split; cbn [cells next_addr].
  - assert (Ea' : (<[f := new_node]> (cells h)) !! a = Some n) by (by rewrite lookup_insert_ne by lia).
    exact (wf_write _ a n _ (wf_alloc h new_node (s_wf _ _ _ Hs)) Ea').
  - intros q r b. rewrite !lookup_insert_Some. intros [[<- <-]|[Hq E1]] [[<- E]|[Hr E2]]; try done.
    + by destruct (Hbelow _ _ E2).
    + by destruct (Hbelow _ _ E1).
    + by eapply s_inj.
  - intros q b. rewrite lookup_insert_Some. intros [[<- <-]|[Hq E]].
    + exists new_node. rewrite lookup_insert_ne by lia. rewrite lookup_insert_eq. split; [done|]. split.
      * symmetry. apply bool_decide_false. intros Hw. apply (s_words _ _ _ Hs) in Hw as [x Hx]. congruence.
      * intros c'. cbn. rewrite lookup_empty, lookup_insert_ne; [done|]. intros E. apply (f_equal length) in E. rewrite !length_app in E. cbn in E. lia.
    + destruct (decide (b = a)) as [->|Hb].
      * assert (q = p) as -> by (by eapply s_inj). eexists. rewrite lookup_insert_eq. split; [done|].
        destruct (s_node _ _ _ Hs _ _ Ea) as (n' & En' & He & Hc). rewrite En in En'. injection En' as <-. split; [done|]. cbn. intros c'.
        destruct (decide (c' = c)) as [->|Hne]; [by rewrite !lookup_insert_eq|]. rewrite lookup_insert_ne by done.
        rewrite lookup_insert_ne by (intros E'; apply app_inj_tail in E' as [_ ?]; done). apply Hc.
      * destruct (s_node _ _ _ Hs _ _ E) as (n' & En' & He & Hc). exists n'. rewrite lookup_insert_ne by done.
        rewrite lookup_insert_ne by (specialize (Hbelow _ _ E); done). split; [done|]. split; [done|]. intros c'.
        rewrite lookup_insert_ne; [done|]. intros E'. apply app_inj_tail in E' as [<- _]. congruence.
  - intros b nb. rewrite !lookup_insert_Some. intros [[<- _]|[Hb [[<- _]|[Hb' E]]]].
    + exists p. by rewrite lookup_insert_ne by done.
    + exists (p ++ [c]). by rewrite lookup_insert_eq.
    + destruct (s_owned _ _ _ Hs _ _ E) as [q Hq]. exists q. rewrite lookup_insert_ne; [done|]. intros <-. congruence.
  - intros q c' H. destruct (decide (q = p ++ [c])) as [->|Hq]; [rewrite lookup_insert_eq; by eexists|]. rewrite lookup_insert_ne by done.
    destruct (decide (q ++ [c'] = p ++ [c])) as [E|Hne]; [apply app_inj_tail in E as [-> _]; by eexists|].
    rewrite lookup_insert_ne in H by done. by eapply s_closed.
  - intros q c' x y. rewrite !lookup_insert_Some. intros [[<- <-]|[Hq E1]] [[E <-]|[Hr E2]].
    + apply (f_equal length) in E. rewrite !length_app in E. cbn in E. lia.
    + by rewrite Hdeep in E2.
    + pose proof (shape_below _ _ _ _ _ Hs E1). unfold f. lia.
    + by eapply s_later.
  - intros w Hw. destruct (decide (p ++ [c] = w)) as [<-|Hne]; [rewrite lookup_insert_eq; by eexists|]. rewrite lookup_insert_ne by done. by eapply s_words.
Qed.

(** [st] stands at path [p] of a trie for [W] that has been extended along [p]. *)
Definition at_path (W : gset (list Z)) (root : Z) (p : list Z) (st : store Node * Z) : Prop :=
  exists P, shape P W st.1 /\ P !! [] = Some root /\ live P W p /\ P !! p = Some st.2.

Lemma trie_insert_step_ok W root p c st : at_path W root p st -> wp (insert_step c st) (at_path W root (p ++ [c])).
Proof.
  destruct st as [h a]. intros (P & Hs & Hr & Hl & Ea). cbn [fst snd] in *. destruct (shape_load _ _ _ _ _ Hs Ea) as (n & El & En & He & Hc).
  unfold insert_step. rewrite El. cbn [mbind outcome_bind]. rewrite Hc. destruct (P !! (p ++ [c])) as [b|] eqn:Eb.
  - unfold subscript. cbn [mbind outcome_bind]. rewrite El. cbn [mbind outcome_bind]. rewrite Hc, Eb. apply wp_ret. exists P.
    split; [done|]. split; [done|]. split; [|done]. intros q x Hq. destruct (Hl _ _ Hq) as [H|H]; [left; by apply prefix_app_r|by right].
  - pose proof (shape_extend _ _ _ _ _ _ _ Hs Ea En Eb) as Hs'. pose proof (shape_below _ _ _ _ _ Hs Ea) as Hlt.
    assert (Ea' : (<[next_addr h := new_node]> (cells h)) !! a = Some n) by (by rewrite lookup_insert_ne by lia).
    unfold alloc, set_subscript. rewrite (load_some (MkStore _ _) a n Ea'). cbn [mbind outcome_bind].
    rewrite (write_some (MkStore _ _) a n _ Ea'). cbn [mbind outcome_bind cells next_addr].
    unfold subscript. rewrite (load_some (MkStore _ _) a _ (lookup_insert_eq _ _ _)). cbn [mbind outcome_bind children]. rewrite lookup_insert_eq.
    apply wp_ret. eexists. split; [exact Hs'|]. split; [|split; [|apply lookup_insert_eq]].
    + rewrite lookup_insert_ne; [done|]. by destruct p.
    + intros q x. rewrite lookup_insert_Some. intros [[<- _]|[_ Hq]]; [by left|]. destruct (Hl _ _ Hq) as [H|H]; [left; by apply prefix_app_r|by right].
Qed.

Lemma insert_ok W t s : trie_rep W t -> wp (insert s t) (fun r => r.1 = true /\ trie_rep ({[ s ]} ∪ W) r.2).
Proof.
  intros (P & Hs & Hr & Hl). unfold insert. apply wp_bind. eapply wp_mono.
  - apply (wp_for_each (fun seen st => at_path W (root_ t) seen st)); [by exists P|]. intros seen c rest st _ H. by apply trie_insert_step_ok.
  - intros [h a] (Q & HQ & HQr & HQl & Ea). cbn [fst snd] in *. destruct (shape_load _ _ _ _ _ HQ Ea) as (n & El & En & He & Hc).
    rewrite El. cbn [mbind outcome_bind]. rewrite (write_some _ _ _ _ En). cbn [mbind outcome_bind]. apply wp_ret. cbn [fst snd]. split; [done|].
    exists Q. split; [|split; [done|]]; cbn [nodes root_].
    + destruct HQ as [Hwf Hinj Hnode Hown Hcl Hlater Hwords]. split; cbn [cells next_addr]; try done.
      * by eapply wf_write.
      * intros p b Eb. destruct (decide (b = a)) as [->|Hne].
        -- assert (p = s) as -> by (by eapply Hinj). eexists. rewrite lookup_insert_eq. split; [done|]. split; [|done]. symmetry. apply bool_decide_true. apply elem_of_union_l, elem_of_singleton_2. done.
        -- rewrite lookup_insert_ne by done. destruct (Hnode _ _ Eb) as (n' & En' & He' & Hc'). exists n'. split; [done|]. split; [|done]. rewrite He'.
           apply bool_decide_ext. rewrite elem_of_union, elem_of_singleton. split; [by right|]. intros [->|H]; [congruence|done].
      * intros b nb. rewrite lookup_insert_Some. intros [[<- _]|[_ E]]; [by exists s|]. by eapply Hown.
      * intros w [->%elem_of_singleton|Hw]%elem_of_union; [by eexists|by apply Hwords].
    + intros p b Eb. destruct (HQl _ _ Eb) as [H|[->|(w & Hw & H)]]; [right; right| |right; right].
      * exists s. split; [|done]. apply elem_of_union_l. by apply elem_of_singleton_2.
      * by left.
      * exists w. split; [|done]. by apply elem_of_union_r.
Qed.

(** * The destructor *)

Section Destroy.
Context (P : gmap (list Z) Z) (W : gset (list Z)) (h0 : store Node).
Hypothesis Hs : shape P W h0.

(** The nodes below path [p] are as in [h0]; [h'] is [h] without them. *)
Definition intact (p : list Z) (h : store Node) : Prop := forall q a, P !! (p ++ q) = Some a -> cells h !! a = cells h0 !! a.
Definition removed (p : list Z) (h h' : store Node) : Prop :=
  wf_store h' /\ (forall q b, P !! (p ++ q) = Some b -> cells h' !! b = None) /\
  (forall b, (forall q, P !! (p ++ q) <> Some b) -> cells h' !! b = cells h !! b).

(** The children [seen] and what is below them are gone. *)
Definition pruned (p : list Z) (seen : list (Z * Z)) (h h' : store Node) : Prop :=
  wf_store h' /\ (forall c q b, c ∈ seen.*1 -> P !! (p ++ c :: q) = Some b -> cells h' !! b = None) /\
  (forall b, (forall c q, c ∈ seen.*1 -> P !! (p ++ c :: q) <> Some b) -> cells h' !! b = cells h !! b).

Lemma pruned_snoc p seen c b h h1 h2 :
  (forall q x, P !! (p ++ c :: q) = Some x -> forall c' q', c' ∈ seen.*1 -> P !! (p ++ c' :: q') <> Some x) ->
  pruned p seen h h1 -> removed (p ++ [c]) h1 h2 -> pruned p (seen ++ [(c, b)]) h h2.
Proof.
  intros Hdis (Hw1 & Hg1 & Hk1) (Hw2 & Hg2 & Hk2).
  assert (Hc : forall q, (p ++ [c]) ++ q = p ++ c :: q) by (intros q; by rewrite <- app_assoc).
  split; [done|]. split.
  - intros c' q x Hin Ex. rewrite fmap_app, elem_of_app in Hin. cbn in Hin. destruct Hin as [Hin| ->%list_elem_of_singleton].
    + rewrite Hk2; [by eapply Hg1|]. intros q' Eq'. rewrite Hc in Eq'. exact (Hdis _ _ Eq' _ _ Hin Ex).
    + eapply Hg2. by rewrite Hc.
  - intros x Hx. rewrite Hk2.
    + apply Hk1. intros c' q Hin. apply Hx. rewrite fmap_app, elem_of_app. by left.
    + intros q. rewrite Hc. apply Hx. rewrite fmap_app, elem_of_app. right. by apply list_elem_of_singleton.
Qed.

Lemma trie_destroy_ok fuel p a h :
  P !! p = Some a -> wf_store h -> intact p h -> (Z.to_nat (next_addr h0 - a) <= fuel)%nat -> wp (destroy fuel a h) (removed p h).
Proof.
  revert p a h. induction fuel as [|fuel IH]; intros p a h Ea Hw Hin Hf.
  { pose proof (shape_below _ _ _ _ _ Hs Ea). lia. }
  destruct (s_node _ _ _ Hs _ _ Ea) as (n & En & _ & Hc). assert (En' : cells h !! a = Some n) by (rewrite (Hin [] a); [done|by rewrite app_nil_r]).
  cbn [destroy]. pose proof (wf_not_null _ _ _ Hw En') as Hnn. replace (a =? nullptr) with false by lia. rewrite (load_some _ _ _ En'). cbn [mbind outcome_bind].
  assert (Hkeys : NoDup (map_to_list (children n)).*1) by apply NoDup_fst_map_to_list. apply wp_bind. eapply wp_mono.
  - apply (wp_for_each (fun seen h' => pruned p seen h h')).
    + split; [done|]. split; [|done]. by intros c q b Hb%elem_of_nil.
    + intros seen [c b] rest h1 E H1. assert (Eb : children n !! c = Some b) by (apply elem_of_map_to_list; rewrite E; apply elem_of_app; right; by left).
      rewrite Hc in Eb. rewrite E, fmap_app in Hkeys. cbn in Hkeys. apply list.NoDup_app in Hkeys as (_ & Hnd & _).
      assert (Hdis : forall q x, P !! (p ++ c :: q) = Some x -> forall c' q', c' ∈ seen.*1 -> P !! (p ++ c' :: q') <> Some x).
      { intros q x Ex c' q' Hin' Ex'. pose proof (s_inj _ _ _ Hs _ _ _ Ex Ex') as Eq. apply app_inv_head in Eq. injection Eq as <- _. apply (Hnd c Hin'). by left. }
      pose proof H1 as (Hw1 & Hg1 & Hk1). eapply wp_mono; [apply (IH (p ++ [c]) b h1 Eb Hw1)|].
      * intros q x Ex. rewrite <- app_assoc in Ex. cbn in Ex. rewrite Hk1; [by apply (Hin (c :: q))|]. by apply (Hdis q).
      * pose proof (s_later _ _ _ Hs _ _ _ _ Ea Eb). pose proof (shape_below _ _ _ _ _ Hs Eb). lia.
      * intros h2 H2. by eapply pruned_snoc.
  - intros h' (Hw' & Hg & Hk). assert (Ea' : cells h' !! a = Some n).
    { rewrite Hk; [done|]. intros c q _ Ex. pose proof (s_inj _ _ _ Hs _ _ _ Ea Ex) as Eq. apply (f_equal length) in Eq. rewrite length_app in Eq. cbn in Eq. lia. }
    rewrite (free_some _ _ _ Hw' Ea'). apply wp_ret. split; [by apply wf_free|]. cbn [cells]. split.
    + intros [|c q] b Eb; [rewrite app_nil_r in Eb; assert (b = a) as -> by congruence; apply lookup_delete_eq|].
      apply lookup_delete_None. right. eapply Hg; [|exact Eb]. apply list_elem_of_fmap.
      destruct (closed_app _ _ _ (p ++ [c]) q Hs) as [b' Eb']; [rewrite <- app_assoc; by eexists|].
      exists (c, b'). split; [done|]. apply elem_of_map_to_list. by rewrite Hc.
    + intros b Hb. rewrite lookup_delete_ne by (intros <-; apply (Hb []); by rewrite app_nil_r). apply Hk. intros c q _. apply Hb.
Qed.
End Destroy.

Lemma destroy_trie_ok W t : trie_rep W t -> exists h, destroy_trie t = Ok h /\ cells h = ∅.
Proof.
  intros (P & Hs & Hr & _). destruct (trie_destroy_ok _ _ _ Hs (Z.to_nat (next_addr (nodes t))) [] (root_ t) (nodes t) Hr (s_wf _ _ _ Hs)) as (h & E & _ & Hg & Hk).
  - done.
  - pose proof (shape_below _ _ _ _ _ Hs Hr). lia.
  - exists h. split; [done|]. apply map_eq. intros a. rewrite lookup_empty. destruct (cells (nodes t) !! a) as [n|] eqn:En.
    + destruct (s_owned _ _ _ Hs _ _ En) as [p Hp]. by apply (Hg p).
    + rewrite Hk; [done|]. intros q Hq. destruct (s_node _ _ _ Hs _ _ Hq) as (n & En' & _). congruence.
Qed.

Lemma trie_rep_new : trie_rep ∅ new_trie.
Proof.
  exists {[ [] := 1 ]}. split; [|split].
  - split; cbn [new_trie alloc empty_store nodes cells next_addr].
    + apply (wf_alloc (empty_store Node) new_node). apply wf_empty_store.
    + intros p q a [<- _]%lookup_singleton_Some [<- _]%lookup_singleton_Some. done.
    + intros p a [<- <-]%lookup_singleton_Some. exists new_node. rewrite lookup_insert_eq. split; [done|]. split; [done|]. intros c. cbn.
      by rewrite lookup_empty, lookup_singleton_ne.
    + intros a n. rewrite lookup_insert_Some, lookup_empty. intros [[<- _]|[_ ?]]; [|done]. exists []. apply lookup_singleton_eq.
    + intros p c [x [E _]%lookup_singleton_Some]. by destruct p.
    + intros p c a b _ [E _]%lookup_singleton_Some. by destruct p.
    + intros w Hw. by apply elem_of_empty in Hw.
  - apply lookup_singleton_eq.
  - intros p a [<- _]%lookup_singleton_Some. by left.
Qed.

Lemma trie_run_ok os W t : trie_rep W t -> exists t' W', trie_run os t = Ok (set_run os W, t') /\ trie_rep W' t'.
Proof.
  revert W t. induction os as [|o os IH]; intros W t H; cbn [trie_run set_run]; [eauto|].
  assert (Hstep : exists t1, trie_step o t = Ok ((set_step o W).1, t1) /\ trie_rep (set_step o W).2 t1).
  { destruct o as [s|s|s]; cbn [trie_step set_step fst snd].
    - destruct (insert_ok W t s H) as ([b t1] & -> & Hb & Ht). cbn in *. subst. eauto.
    - rewrite (trie_query_ok W) by done. eauto.
    - rewrite (start_with_ok W) by done. eauto. }
  destruct Hstep as (t1 & -> & Ht1). destruct (set_step o W) as [b W1]. cbn [fst snd] in *. cbn [mbind outcome_bind].
  destruct (IH W1 t1 Ht1) as (t2 & W2 & -> & Ht2). eauto.
Qed.

(** C40: any sequence of insert, query and start_with on a new trie answers as a set of
    strings does: query is membership, start_with tells whether a word has the prefix
    (the empty prefix always); no null or freed node is touched and the destructor frees
    every node. *)
Theorem trie_refines_set (os : list trie_op) :
  exists t, trie_run os new_trie = Ok (set_run os ∅, t) /\ exists h, destroy_trie t = Ok h /\ cells h = ∅.
Proof.
  destruct (trie_run_ok os ∅ new_trie trie_rep_new) as (t & W & E & Ht). exists t. split; [done|]. by eapply destroy_trie_ok.
Qed.
