(* ===== verification/PairHeap.v ===== *)
(** The pairing heap of cpp/datastructure/tree/pair_heap.h: nodes with a first
    child, a next brother and a [father], which is the parent of a first child and
    the previous brother of the others.  Read with [child] as left and [brother] as
    right subtree it is a binary tree with parent pointers; the order is that a
    node is not larger than what is below its child.

    [push], [top], [update] and the merge functions are correct; [pop] applies the
    merge to the root instead of its children, so it removes nothing, and the
    destructor then uses a node it has deleted. *)

From S2P Require Import Store Prelude.

Section PairTree.
Context {T : Type} `{StrictWeak T}.

Record Node := MkNode { value : T; child : Z; brother : Z; father : Z }.

Record PairTree := MkPairTree { nodes : store Node; root_ : Z }.

Definition new_pair_tree : PairTree := MkPairTree (empty_store Node) nullptr.

(** [Node(v)], allocated by the client. *)
Definition new_node (v : T) : Node := MkNode v nullptr nullptr nullptr.

Definition set_value (h : store Node) (a : Z) (v : T) : outcome (store Node) := n ← load h a; write h a (MkNode v (child n) (brother n) (father n)).
Definition set_child (h : store Node) (a p : Z) : outcome (store Node) := n ← load h a; write h a (MkNode (value n) p (brother n) (father n)).
Definition set_brother (h : store Node) (a p : Z) : outcome (store Node) := n ← load h a; write h a (MkNode (value n) (child n) p (father n)).
Definition set_father (h : store Node) (a p : Z) : outcome (store Node) := n ← load h a; write h a (MkNode (value n) (child n) (brother n) p).

Definition merge (h : store Node) (a b : Z) : outcome (store Node * Z) :=
  if a =? nullptr then Ok (h, b)
  else if b =? nullptr then Ok (h, a)
  else
    na ← load h a;
    nb ← load h b;
    let '(a, b) := if ltb (value nb) (value na) then (b, a) else (a, b) in
    na ← load h a;
    h ← (if child na =? nullptr then Ok h else set_father h (child na) b);
    na ← load h a;
    h ← set_brother h b (child na);
    h ← set_father h b a;
    h ← set_child h a b;
    Ok (h, a).

(** [_merges]; the two arguments of the last [_merge] touch different nodes, and
    are evaluated from left to right here. *)
Fixpoint merges (fuel : nat) (h : store Node) (root : Z) : outcome (store Node * Z) :=
  match fuel with
  | O => Fault OutOfFuel
  | S fuel =>
      if root =? nullptr then Ok (h, root)
      else
        h ← set_father h root nullptr;
        n ← load h root;
        if brother n =? nullptr then Ok (h, root)
        else
          let brother_ := brother n in
          nb ← load h brother_;
          let next_brother := brother nb in
          h ← set_father h brother_ nullptr;
          h ← set_brother h brother_ nullptr;
          h ← set_brother h root nullptr;
          '(h, x) ← merges fuel h next_brother;
          '(h, y) ← merge h root brother_;
          merge h x y
  end.

Definition empty (t : PairTree) : bool := root_ t =? nullptr.
Definition top (t : PairTree) : Z := root_ t.

Definition push (node : Z) (t : PairTree) : outcome PairTree :=
  '(h, r) ← merge (nodes t) node (root_ t); Ok (MkPairTree h r).

(** [update] from the test for the father on: takes the node out of the tree. *)
Definition detach (h : store Node) (node : Z) : outcome (store Node) :=
  n ← load h node;
  f ← load h (father n);
  h ← (if child f =? node then set_child h (father n) (brother n) else set_brother h (father n) (brother n));
  n ← load h node;
  h ← (if brother n =? nullptr then Ok h else set_father h (brother n) (father n));
  h ← set_brother h node nullptr;
  set_father h node nullptr.

Definition update (node : Z) (v : T) (t : PairTree) : outcome (Z * PairTree) :=
  h ← set_value (nodes t) node v;
  if node =? root_ t then Ok (root_ t, MkPairTree h (root_ t))
  else
    h ← detach h node;
    '(h, r) ← merge h (root_ t) node;
    Ok (r, MkPairTree h r).

Definition pop (t : PairTree) : outcome (Z * PairTree) :=
  let res := root_ t in
  '(h, r) ← merges (S (size (cells (nodes t)))) (nodes t) (root_ t);
  h ← set_brother h res nullptr;
  h ← set_father h res nullptr;
  Ok (res, MkPairTree h r).

(** A round of the destructor. *)
Definition destroy_step (t : PairTree) : outcome (PairTree + store Node) :=
  if root_ t =? nullptr then Ok (inr (nodes t))
  else '(node, t) ← pop t; h ← free (nodes t) node; Ok (inl (MkPairTree h (root_ t))).

Definition destroy_pair_tree (fuel : nat) (t : PairTree) : outcome (store Node) := while_fuel fuel destroy_step t.

(** * Trees *)

Inductive tree := Leaf | Bin (a : Z) (v : T) (l r : tree).

Definition ptr (t : tree) : Z := match t with Leaf => nullptr | Bin a _ _ _ => a end.

Fixpoint elems (t : tree) : list (Z * T) := match t with Leaf => [] | Bin a v l r => (a, v) :: elems l ++ elems r end.
Definition ids (t : tree) : list Z := (elems t).*1.

(** [m] holds [t] with [f] as the father of its root. *)
Fixpoint rep (m : gmap Z Node) (f : Z) (t : tree) : Prop :=
  match t with
  | Leaf => True
  | Bin a v l r => a <> nullptr /\ m !! a = Some (MkNode v (ptr l) (ptr r) f) /\ rep m a l /\ rep m a r
  end.

Fixpoint ordered (t : tree) : Prop :=
  match t with Leaf => True | Bin a v l r => Forall (fun e => leT v e.2) (elems l) /\ ordered l /\ ordered r end.

(** A single heap: its root has no brother. *)
Definition lone (t : tree) : Prop := match t with Leaf => True | Bin _ _ _ r => r = Leaf end.

Definition link (t u : tree) : tree :=
  match t, u with
  | Leaf, _ => u
  | _, Leaf => t
  | Bin a va la _, Bin b vb lb _ => if ltb vb va then Bin b vb (Bin a va la lb) Leaf else Bin a va (Bin b vb lb la) Leaf
  end.

(** [t] without [x], whose value and children are returned. *)
Fixpoint cut (x : Z) (t : tree) : option (T * tree * tree) :=
  match t with
  | Leaf => None
  | Bin a v l r =>
      if a =? x then Some (v, l, r)
      else match cut x l with
           | Some (v', l', t') => Some (v', l', Bin a v t' r)
           | None => match cut x r with Some (v', l', t') => Some (v', l', Bin a v l t') | None => None end
           end
  end.

Lemma ids_bin a v l r : ids (Bin a v l r) = a :: ids l ++ ids r.
Proof. unfold ids. cbn. by rewrite fmap_app. Qed.

Lemma rep_frame m m' f t : (forall a, a ∈ ids t -> m' !! a = m !! a) -> rep m f t -> rep m' f t.
Proof.
  revert f. induction t as [|a v l IHl r IHr]; intros f E; [done|]. rewrite ids_bin in E. cbn [rep]. intros (Hn & Ha & Hl & Hr).
  split; [done|]. split; [rewrite E; [done|by left]|]. split; [apply IHl|apply IHr]; try done; intros b Hb; apply E; right; apply elem_of_app; auto.
Qed.

Lemma rep_insert_ne m f t a n : a ∉ ids t -> rep m f t -> rep (<[a := n]> m) f t.
Proof. intros Ha. apply rep_frame. intros b Hb. apply lookup_insert_ne. by intros ->. Qed.

Lemma rep_elem m f t a : rep m f t -> a ∈ ids t -> a <> nullptr /\ is_Some (m !! a).
Proof.
  revert f. induction t as [|b v l IHl r IHr]; intros f; [by intros _ Ha%elem_of_nil|]. rewrite ids_bin. intros (Hn & Hb & Hl & Hr) Ha.
  apply elem_of_cons in Ha as [->|[Ha|Ha]%elem_of_app]; [split; [done|by eexists]|by eapply IHl|by eapply IHr].
Qed.

Lemma ptr_ids t : ptr t <> nullptr -> ptr t ∈ ids t.
Proof. destruct t; [done|]. rewrite ids_bin. by left. Qed.

(** Giving the root of [t] another father. *)
Definition refather (m : gmap Z Node) (f : Z) (t : tree) : gmap Z Node :=
  match t with Leaf => m | Bin a v l r => <[a := MkNode v (ptr l) (ptr r) f]> m end.

Lemma refather_rep m f f' t : NoDup (ids t) -> rep m f t -> rep (refather m f' t) f' t.
Proof.
  destruct t as [|a v l r]; [done|]. rewrite ids_bin. intros [Ha _]%list.NoDup_cons (Hn & Ea & Hl & Hr). rewrite not_elem_of_app in Ha.
  cbn [refather rep]. split; [done|]. rewrite lookup_insert_eq. split; [done|]. split; apply rep_insert_ne; tauto.
Qed.

Lemma refather_ne m f t a : a ∉ ids t -> refather m f t !! a = m !! a.
Proof. destruct t as [|b v l r]; [done|]. rewrite ids_bin, not_elem_of_cons. intros [Hb _]. by apply lookup_insert_ne. Qed.

(** The assignments to fields of a live node. *)
Lemma set_value_some h a n v : cells h !! a = Some n -> set_value h a v = Ok (MkStore (<[a := MkNode v (child n) (brother n) (father n)]> (cells h)) (next_addr h)).
Proof. intros E. unfold set_value. rewrite (load_some _ _ _ E). by apply write_some with n. Qed.

Lemma set_child_some h a n p : cells h !! a = Some n -> set_child h a p = Ok (MkStore (<[a := MkNode (value n) p (brother n) (father n)]> (cells h)) (next_addr h)).
Proof. intros E. unfold set_child. rewrite (load_some _ _ _ E). by apply write_some with n. Qed.

Lemma set_brother_some h a n p : cells h !! a = Some n -> set_brother h a p = Ok (MkStore (<[a := MkNode (value n) (child n) p (father n)]> (cells h)) (next_addr h)).
Proof. intros E. unfold set_brother. rewrite (load_some _ _ _ E). by apply write_some with n. Qed.

Lemma set_father_some h a n p : cells h !! a = Some n -> set_father h a p = Ok (MkStore (<[a := MkNode (value n) (child n) (brother n) p]> (cells h)) (next_addr h)).
Proof. intros E. unfold set_father. rewrite (load_some _ _ _ E). by apply write_some with n. Qed.

Lemma refather_code h f f' t :
  rep (cells h) f t -> (if ptr t =? nullptr then Ok h else set_father h (ptr t) f') = Ok (MkStore (refather (cells h) f' t) (next_addr h)).
Proof.
  destruct t as [|a v l r]; [by destruct h|]. intros (Hn & Ea & _). cbn [ptr refather]. destruct (Z.eqb_spec a nullptr); [done|].
  by rewrite (set_father_some _ _ _ _ Ea).
Qed.

(** * Merging *)

Lemma link_ids t u : lone t -> lone u -> elems (link t u) ≡ₚ elems t ++ elems u.
Proof.
  destruct t as [|a va la ra], u as [|b vb lb rb]; cbn [link]; intros Ht Hu; cbn in Ht, Hu; subst; cbn [elems]; rewrite ?app_nil_r; try done.
  destruct (ltb vb va); cbn [elems]; rewrite ?app_nil_r; cbn.
  - rewrite (Permutation_app_comm (elems la) ((b, vb) :: elems lb)). cbn. rewrite (Permutation_app_comm (elems la)). constructor.
  - constructor. rewrite <- Permutation_middle. constructor. apply Permutation_app_comm.
Qed.

Lemma link_lone t u : lone t -> lone u -> lone (link t u).
Proof. destruct t, u; cbn; try done. by destruct (ltb _ _). Qed.

Lemma link_ordered t u : lone t -> lone u -> ordered t -> ordered u -> ordered (link t u).
Proof.
  destruct t as [|a va la ra], u as [|b vb lb rb]; cbn [link lone]; try done. intros -> -> (Ha & Hla & _) (Hb & Hlb & _).
  assert (Hmono : forall x y (l : list (Z * T)), leT x y -> Forall (fun e => leT y e.2) l -> Forall (fun e => leT x e.2) l).
  { intros x y l Hxy Hl. eapply list.Forall_impl; [exact Hl|]. cbn. intros e He. by etrans. }
  destruct (ltb vb va) eqn:E; cbn [ordered elems].
  - apply ltb_true_leT in E. split; [constructor; [done|apply Forall_app; split; [by eapply Hmono|done]]|]. by split.
  - split; [constructor; [done|apply Forall_app; split; [by eapply Hmono|done]]|]. by split.
Qed.

(** The part of [merge] after the comparison: [b] becomes the first child of [a]. *)
Lemma link_under h a va la b vb lb :
  rep (cells h) nullptr (Bin a va la Leaf) -> rep (cells h) nullptr (Bin b vb lb Leaf) -> NoDup (a :: ids la ++ b :: ids lb) ->
  exists m, (na ← load h a;
    h ← (if child na =? nullptr then Ok h else set_father h (child na) b);
    na ← load h a;
    h ← set_brother h b (child na);
    h ← set_father h b a;
    h ← set_child h a b;
    Ok (h, a)) = Ok (MkStore m (next_addr h), a) /\
  rep m nullptr (Bin a va (Bin b vb lb la) Leaf) /\ forall x, x <> a -> x <> b -> x ∉ ids la -> m !! x = cells h !! x.
Proof.
  intros (Hna & Ea & Hla & _) (Hnb & Eb & Hlb & _) Hnd. apply list.NoDup_cons in Hnd as [Ha Hnd]. apply list.NoDup_app in Hnd as (Hndl & Hdis & Hnd).
  apply list.NoDup_cons in Hnd as [Hb Hndb]. apply not_elem_of_app in Ha as [Hala Ha]. apply not_elem_of_cons in Ha as [Hab Halb].
  assert (Hbla : b ∉ ids la) by (intros Hx; apply (Hdis b Hx); by left).
  assert (Hlalb : forall x, x ∈ ids lb -> x ∉ ids la) by (intros x Hx Hx'; apply (Hdis x Hx'); by right).
  rewrite (load_some _ _ _ Ea). cbn [mbind outcome_bind child]. rewrite (refather_code h a b la Hla). cbn [mbind outcome_bind].
  set (m1 := refather (cells h) b la).
  assert (Ea1 : m1 !! a = Some (MkNode va (ptr la) (ptr Leaf) nullptr)) by (unfold m1; by rewrite refather_ne).
  assert (Eb1 : m1 !! b = Some (MkNode vb (ptr lb) (ptr Leaf) nullptr)) by (unfold m1; by rewrite refather_ne).
  rewrite (load_some (MkStore m1 _) a _ Ea1). cbn [mbind outcome_bind child].
  rewrite (set_brother_some (MkStore m1 _) b _ _ Eb1). cbn [mbind outcome_bind cells next_addr value child brother father].
  rewrite (set_father_some (MkStore _ _) b _ _ (lookup_insert_eq _ _ _)). cbn [mbind outcome_bind cells next_addr value child brother].
  rewrite insert_insert_eq. set (m2 := <[b := MkNode vb (ptr lb) (ptr la) a]> m1).
  assert (Ea2 : m2 !! a = Some (MkNode va (ptr la) (ptr Leaf) nullptr)) by (unfold m2; by rewrite lookup_insert_ne).
  rewrite (set_child_some (MkStore m2 _) a _ _ Ea2). cbn [mbind outcome_bind cells next_addr value child brother father].
  eexists. split; [done|]. split.
  - cbn [rep ptr]. split; [done|]. rewrite lookup_insert_eq. split; [done|]. split; [|done].
    rewrite lookup_insert_ne by done. unfold m2. rewrite lookup_insert_eq. split; [done|]. split; [done|]. split.
    + do 2 (apply rep_insert_ne; [done|]). eapply rep_frame; [|exact Hlb]. intros x Hx. apply refather_ne. by apply Hlalb.
    + do 2 (apply rep_insert_ne; [done|]). by eapply refather_rep.
  - intros x Hxa Hxb Hx. unfold m2. rewrite !lookup_insert_ne by done. by apply refather_ne.
Qed.

Lemma pair_merge_ok h t u :
  rep (cells h) nullptr t -> rep (cells h) nullptr u -> lone t -> lone u -> NoDup (ids t ++ ids u) ->
  exists m, merge h (ptr t) (ptr u) = Ok (MkStore m (next_addr h), ptr (link t u)) /\ rep m nullptr (link t u) /\
    forall x, x ∉ ids t -> x ∉ ids u -> m !! x = cells h !! x.
Proof.
  intros Rt Ru Lt Lu Hnd. destruct t as [|a va la ra]; [exists (cells h); cbn; by destruct h|]. destruct u as [|b vb lb rb].
  { exists (cells h). destruct Rt as (Hna & Hrest). cbn [ptr link]. unfold merge. replace (a =? nullptr) with false by lia. cbn. destruct h. done. }
  cbn in Lt, Lu. subst. pose proof Rt as (Hna & Ea & _). pose proof Ru as (Hnb & Eb & _). rewrite !ids_bin in Hnd. change (ids Leaf) with (@nil Z) in Hnd. rewrite !app_nil_r in Hnd.
  unfold merge. cbn [ptr]. replace (a =? nullptr) with false by lia. replace (b =? nullptr) with false by lia.
  rewrite (load_some _ _ _ Ea), (load_some _ _ _ Eb). cbn [mbind outcome_bind value link]. destruct (ltb vb va).
  - destruct (link_under h b vb lb a va la Ru Rt) as (m & -> & Hm & Hf).
    { change (NoDup ((b :: ids lb) ++ a :: ids la)). by rewrite Permutation_app_comm. }
    exists m. split; [done|]. split; [done|]. intros x. rewrite !ids_bin. cbn. rewrite !app_nil_r, !not_elem_of_cons. intros [] []. by apply Hf.
  - destruct (link_under h a va la b vb lb Rt Ru Hnd) as (m & -> & Hm & Hf).
    exists m. split; [done|]. split; [done|]. intros x. rewrite !ids_bin. cbn. rewrite !app_nil_r, !not_elem_of_cons. intros [] []. by apply Hf.
Qed.

(** * Merging a list of brothers in pairs *)

Fixpoint merges_tree (t : tree) : tree :=
  match t with
  | Leaf => Leaf
  | Bin a v l Leaf => Bin a v l Leaf
  | Bin a v l (Bin b w k r) => link (merges_tree r) (link (Bin a v l Leaf) (Bin b w k Leaf))
  end.

Lemma brothers_ind (Q : tree -> Prop) :
  Q Leaf -> (forall a v l, Q (Bin a v l Leaf)) -> (forall a v l b w k r, Q r -> Q (Bin a v l (Bin b w k r))) -> forall t, Q t.
Proof.
  intros H0 H1 H2 t. enough (Q t /\ forall a v l, Q (Bin a v l t)) by tauto. induction t as [|a v l _ r [IH1 IH2]]; [done|]. split; [apply IH2|].
  intros a' v' l'. by apply H2.
Qed.

Lemma merges_tree_spec t :
  lone (merges_tree t) /\ elems (merges_tree t) ≡ₚ elems t /\ (ordered t -> ordered (merges_tree t)).
Proof.
  induction t as [|a v l|a v l b w k r (Hl & He & Ho)] using brothers_ind; [done|done|]. cbn [merges_tree].
  assert (Hl1 : lone (link (Bin a v l Leaf) (Bin b w k Leaf))) by (by apply link_lone).
  split; [by apply link_lone|]. split.
  - rewrite link_ids, link_ids, He by done. cbn [elems]. rewrite !app_nil_r. rewrite Permutation_app_comm. cbn. by rewrite <- !app_assoc.
  - intros (Hv & Hol & Hw & Hok & Hor). apply link_ordered; auto. by apply link_ordered.
Qed.

Lemma nodup_ids t u : elems t ≡ₚ elems u -> NoDup (ids u) -> NoDup (ids t).
Proof. intros E. unfold ids. by rewrite E. Qed.

Lemma elem_ids t u x : elems t ≡ₚ elems u -> x ∈ ids t <-> x ∈ ids u.
Proof. intros E. unfold ids. by rewrite E. Qed.

(** The memory after the first two brothers [a] and [b] are taken out. *)
Definition singles (m : gmap Z Node) a v l b w k : gmap Z Node :=
  <[a := MkNode v (ptr l) nullptr nullptr]> (<[b := MkNode w (ptr k) nullptr nullptr]> m).

Lemma singles_rep m f a v l b w k r :
  rep m f (Bin a v l (Bin b w k r)) -> NoDup (ids (Bin a v l (Bin b w k r))) ->
  rep (singles m a v l b w k) nullptr (Bin a v l Leaf) /\ rep (singles m a v l b w k) nullptr (Bin b w k Leaf) /\ rep (singles m a v l b w k) b r.
Proof.
  intros (Hna & Ea & Hl & Hnb & Eb & Hk & Hr) Hnd. rewrite !ids_bin in Hnd.
  apply list.NoDup_cons in Hnd as [Ha Hnd]. apply list.NoDup_app in Hnd as (_ & Hdl & Hnd). apply list.NoDup_cons in Hnd as [Hb _].
  rewrite not_elem_of_app, not_elem_of_cons, not_elem_of_app in Ha. destruct Ha as (Hal & Hab & Hak & Har). rewrite not_elem_of_app in Hb.
  destruct Hb as [Hbk Hbr]. assert (Hbl : b ∉ ids l) by (intros Hx; apply (Hdl b Hx); by left).
  assert (Hframe : forall g t, a ∉ ids t -> b ∉ ids t -> rep m g t -> rep (singles m a v l b w k) g t) by (intros g t H1 H2 H3; by do 2 (apply rep_insert_ne; [done|])).
  split; [|split; [|by apply Hframe]]; cbn [rep ptr]; unfold singles.
  - rewrite lookup_insert_eq. split; [done|]. split; [done|]. split; [by apply Hframe|done].
  - rewrite lookup_insert_ne, lookup_insert_eq by done. split; [done|]. split; [done|]. split; [by apply Hframe|done].
Qed.

Lemma merges_ok fuel h f t :
  rep (cells h) f t -> NoDup (ids t) -> (length (elems t) < fuel)%nat ->
  exists m, merges fuel h (ptr t) = Ok (MkStore m (next_addr h), ptr (merges_tree t)) /\ rep m nullptr (merges_tree t) /\
    forall x, x ∉ ids t -> m !! x = cells h !! x.
Proof.
  revert fuel h f. induction t as [|a v l|a v l b w k r IH] using brothers_ind; intros fuel h f Hr Hnd Hf; (destruct fuel as [|fuel]; [lia|]).
  - exists (cells h). by destruct h.
  - pose proof Hr as (Hn & Ea & Hl & _). cbn [merges ptr]. replace (a =? nullptr) with false by lia.
    rewrite (set_father_some _ _ _ _ Ea). cbn [mbind outcome_bind value child brother].
    rewrite (load_some (MkStore _ _) a _ (lookup_insert_eq _ _ _)). cbn [mbind outcome_bind brother ptr Z.eqb nullptr]. eexists. split; [done|]. split.
    + exact (refather_rep (cells h) f nullptr (Bin a v l Leaf) Hnd Hr).
    + intros x Hx. apply lookup_insert_ne. intros <-. apply Hx. rewrite ids_bin. by left.
  - pose proof (singles_rep _ _ _ _ _ _ _ _ _ Hr Hnd) as (Ra & Rb & Rr). destruct Hr as (Hna & Ea & _ & Hnb & Eb & _). assert (Hab : a <> b).
    { rewrite !ids_bin in Hnd. apply list.NoDup_cons in Hnd as [Ha _]. rewrite not_elem_of_app, not_elem_of_cons in Ha. tauto. }
    cbn [merges ptr]. replace (a =? nullptr) with false by lia. rewrite (set_father_some _ _ _ _ Ea). cbn [mbind outcome_bind value child brother].
    rewrite (load_some (MkStore _ _) a _ (lookup_insert_eq _ _ _)). cbn [mbind outcome_bind brother ptr]. replace (b =? nullptr) with false by lia.
    assert (Eb1 : forall n, <[a := n]> (cells h) !! b = Some (MkNode w (ptr k) (ptr r) a)) by (intros n; by rewrite lookup_insert_ne).
    rewrite (load_some (MkStore _ _) b _ (Eb1 _)). cbn [mbind outcome_bind brother].
    rewrite (set_father_some (MkStore _ _) b _ _ (Eb1 _)). cbn [mbind outcome_bind value child brother cells next_addr].
    rewrite (set_brother_some (MkStore _ _) b _ _ (lookup_insert_eq _ _ _)). cbn [mbind outcome_bind value child father cells next_addr].
    rewrite insert_insert_eq, (insert_insert_ne _ b a) by done.
    rewrite (set_brother_some (MkStore _ _) a _ _ (lookup_insert_eq _ _ _)). cbn [mbind outcome_bind value child father cells next_addr].
    rewrite insert_insert_eq. fold (singles (cells h) a v l b w k). set (m1 := singles (cells h) a v l b w k) in *.
    set (A := Bin a v l Leaf) in *. set (B := Bin b w k Leaf) in *.
    assert (Hids : ids (Bin a v l (Bin b w k r)) ≡ₚ ids r ++ ids A ++ ids B).
    { unfold A, B. rewrite !ids_bin. change (ids Leaf) with (@nil Z). rewrite !app_nil_r. rewrite (Permutation_app_comm (ids r)). cbn. by rewrite <- !app_assoc. }
    rewrite Hids in Hnd. apply list.NoDup_app in Hnd as (Hndr & Hdr & HndAB).
    destruct (IH fuel (MkStore m1 (next_addr h)) b Rr Hndr) as (m2 & -> & R2 & F2).
    { cbn [elems] in Hf. rewrite !length_cons, !length_app, !length_cons, !length_app in Hf. lia. }
    cbn [mbind outcome_bind cells next_addr] in *.
    assert (HA : rep m2 nullptr A) by (eapply rep_frame; [|exact Ra]; intros x Hx; apply F2; intros Hx'; apply (Hdr x Hx'), elem_of_app; by left).
    assert (HB : rep m2 nullptr B) by (eapply rep_frame; [|exact Rb]; intros x Hx; apply F2; intros Hx'; apply (Hdr x Hx'), elem_of_app; by right).
    destruct (pair_merge_ok (MkStore m2 (next_addr h)) A B HA HB eq_refl eq_refl HndAB) as (m3 & EM & R3 & F3). cbn [ptr A B] in EM. rewrite EM. cbn [mbind outcome_bind cells next_addr] in *.
    destruct (merges_tree_spec r) as (Lr & Er & _). assert (HAB : lone (link A B)) by (by apply link_lone).
    assert (EAB : forall x, x ∈ ids (link A B) <-> x ∈ ids A ++ ids B) by (intros x; unfold ids; rewrite link_ids, fmap_app by done; done).
    assert (Hr3 : rep m3 nullptr (merges_tree r)).
    { eapply rep_frame; [|exact R2]. intros x Hx. rewrite (elem_ids _ _ x Er) in Hx. specialize (Hdr x Hx). apply not_elem_of_app in Hdr as []. by apply F3. }
    destruct (pair_merge_ok (MkStore m3 (next_addr h)) (merges_tree r) (link A B) Hr3 R3 Lr HAB) as (m4 & -> & R4 & F4).
    { unfold ids. rewrite link_ids, Er, fmap_app by done. apply list.NoDup_app. split; [done|]. by split. }
    exists m4. split; [done|]. split; [done|]. cbn [cells] in *. intros x Hx. rewrite Hids, !not_elem_of_app in Hx. destruct Hx as (Hxr & HxA & HxB).
    rewrite F4, F3, F2 by (rewrite ?(elem_ids _ _ x Er), ?EAB, ?not_elem_of_app; auto). unfold m1, singles.
    rewrite !lookup_insert_ne; [done| |]; intros <-; [apply HxB|apply HxA]; unfold A, B; rewrite ids_bin; by left.
Qed.

(** * Taking a node out *)

Lemma detach_code h x v l r a na :
  cells h !! x = Some (MkNode v (ptr l) (ptr r) a) -> cells h !! a = Some na -> rep (cells h) x r -> a <> x -> x ∉ ids r -> a ∉ ids r ->
  detach h x = Ok (MkStore (<[x := MkNode v (ptr l) nullptr nullptr]> (refather
    (<[a := if child na =? x then MkNode (value na) (ptr r) (brother na) (father na) else MkNode (value na) (child na) (ptr r) (father na)]> (cells h)) a r)) (next_addr h)).
Proof.
  intros Ex Ea Hr Hax Hxr Har. unfold detach. rewrite (load_some _ _ _ Ex). cbn [mbind outcome_bind father brother]. rewrite (load_some _ _ _ Ea). cbn [mbind outcome_bind].
  set (n' := if child na =? x then MkNode (value na) (ptr r) (brother na) (father na) else MkNode (value na) (child na) (ptr r) (father na)).
  assert (Es : (if child na =? x then set_child h a (ptr r) else set_brother h a (ptr r)) = Ok (MkStore (<[a := n']> (cells h)) (next_addr h))).
  { unfold n'. destruct (child na =? x); [by rewrite (set_child_some _ _ _ _ Ea)|by rewrite (set_brother_some _ _ _ _ Ea)]. }
  rewrite Es. cbn [mbind outcome_bind]. assert (Ex1 : <[a := n']> (cells h) !! x = Some (MkNode v (ptr l) (ptr r) a)) by (by rewrite lookup_insert_ne).
  rewrite (load_some (MkStore _ _) x _ Ex1). cbn [mbind outcome_bind father brother].
  rewrite (refather_code (MkStore (<[a := n']> (cells h)) (next_addr h)) x a r) by (by apply rep_insert_ne). cbn [mbind outcome_bind cells next_addr].
  assert (Ex2 : refather (<[a := n']> (cells h)) a r !! x = Some (MkNode v (ptr l) (ptr r) a)) by (by rewrite refather_ne).
  rewrite (set_brother_some (MkStore _ _) x _ _ Ex2). cbn [mbind outcome_bind cells next_addr value child father].
  rewrite (set_father_some (MkStore _ _) x _ _ (lookup_insert_eq _ _ _)). cbn [cells next_addr value child brother]. by rewrite insert_insert_eq.
Qed.

Lemma cut_elems x t v l t' : cut x t = Some (v, l, t') -> elems t ≡ₚ (x, v) :: elems l ++ elems t'.
Proof.
  revert t'. induction t as [|a va la IHl ra IHr]; intros t'; cbn [cut]; [done|]. destruct (Z.eqb_spec a x) as [->|Hne]; [by intros [= -> -> ->]|].
  destruct (cut x la) as [[[v1 l1] t1]|] eqn:El; [intros [= -> -> <-]|destruct (cut x ra) as [[[v1 l1] t1]|] eqn:Er; [intros [= -> -> <-]|done]]; cbn [elems].
  - rewrite (IHl _ eq_refl). cbn. rewrite <- Permutation_middle, perm_swap. do 2 constructor. by rewrite <- !app_assoc.
  - rewrite (IHr _ eq_refl). rewrite <- Permutation_middle, perm_swap. constructor. rewrite <- Permutation_middle. constructor.
    rewrite !app_assoc. apply Permutation_app_tail. apply Permutation_app_comm.
Qed.

Lemma cut_some x t : x ∈ ids t -> is_Some (cut x t).
Proof.
  induction t as [|a v l IHl r IHr]; [by intros Hx%elem_of_nil|]. rewrite ids_bin. cbn [cut]. destruct (Z.eqb_spec a x) as [|Hne]; [by eexists|].
  intros [|[Hx|Hx]%elem_of_app]%elem_of_cons; [congruence|destruct (IHl Hx) as [[[] ] ->]; by eexists|].
  destruct (cut x l) as [[[] ]|]; [by eexists|]. destruct (IHr Hx) as [[[] ] ->]. by eexists.
Qed.

Lemma cut_ids x t : is_Some (cut x t) -> x ∈ ids t.
Proof. intros [[[v l] t'] E]. unfold ids. rewrite (cut_elems _ _ _ _ _ E). by left. Qed.

(** The subtrees that are only passed by. *)
Lemma detach_kept m f a x r t n n' :
  x ∉ ids t -> a ∉ ids t -> (forall y, y ∈ ids t -> y ∉ ids r) -> rep m f t -> rep (<[x := n]> (refather (<[a := n']> m) a r)) f t.
Proof.
  intros H1 H2 H3 H4. apply rep_insert_ne; [done|]. eapply rep_frame; [|exact H4]. intros y Hy. rewrite refather_ne by auto.
  apply lookup_insert_ne. by intros ->.
Qed.

(** Detaching a child of the root: the left (first child) or the right (brother). *)
Lemma detach_left h f a va x v l r ra :
  rep (cells h) f (Bin a va (Bin x v l r) ra) -> NoDup (ids (Bin a va (Bin x v l r) ra)) ->
  exists m, detach h x = Ok (MkStore m (next_addr h)) /\ rep m f (Bin a va r ra) /\ rep m nullptr (Bin x v l Leaf) /\
    forall y, y ∉ ids (Bin a va (Bin x v l r) ra) -> m !! y = cells h !! y.
Proof.
  intros (Hna & Ea & (Hnx & Ex & Hl & Hr) & Hra) Hnd. rewrite !ids_bin in *. apply list.NoDup_cons in Hnd as [Ha Hnd]. cbn in Ha, Hnd.
  apply list.NoDup_cons in Hnd as [Hx Hnd]. rewrite !not_elem_of_app in Hx. rewrite not_elem_of_cons, !not_elem_of_app in Ha. apply list.NoDup_app in Hnd as (Hnd & Hd & Hnda).
  apply list.NoDup_app in Hnd as (Hndl & Hdl & Hndr). destruct Hx as [[Hxl Hxr] Hxa], Ha as [Hax [[Hal Har] Haa]].
  eexists. split; [by eapply detach_code|]. cbn [child]. rewrite Z.eqb_refl. cbn [value brother father ptr].
  split; [|split].
  - cbn [rep]. rewrite lookup_insert_ne, refather_ne, lookup_insert_eq by done. split; [done|]. split; [done|]. split.
    + apply rep_insert_ne; [done|]. eapply refather_rep; [done|]. by apply rep_insert_ne.
    + apply detach_kept; try done. intros y Hy Hy'. apply (Hd y); [apply elem_of_app; by right|done].
  - cbn [rep]. rewrite lookup_insert_eq. split; [done|]. split; [done|]. split; [|done]. apply detach_kept; auto.
  - intros y. rewrite not_elem_of_cons, !not_elem_of_app, not_elem_of_cons, not_elem_of_app. intros (? & (? & ? & ?) & ?). rewrite lookup_insert_ne, refather_ne, lookup_insert_ne by auto. done.
Qed.

Lemma detach_right h f a va la x v l r :
  rep (cells h) f (Bin a va la (Bin x v l r)) -> NoDup (ids (Bin a va la (Bin x v l r))) ->
  exists m, detach h x = Ok (MkStore m (next_addr h)) /\ rep m f (Bin a va la r) /\ rep m nullptr (Bin x v l Leaf) /\
    forall y, y ∉ ids (Bin a va la (Bin x v l r)) -> m !! y = cells h !! y.
Proof.
  intros (Hna & Ea & Hla & (Hnx & Ex & Hl & Hr)) Hnd. rewrite !ids_bin in *. apply list.NoDup_cons in Hnd as [Ha Hnd].
  apply list.NoDup_app in Hnd as (Hndla & Hd & Hnd). apply list.NoDup_cons in Hnd as [Hx Hnd]. rewrite not_elem_of_app in Hx. rewrite not_elem_of_app, not_elem_of_cons, not_elem_of_app in Ha.
  apply list.NoDup_app in Hnd as (Hndl & Hdl & Hndr). destruct Hx as [Hxl Hxr], Ha as (Haa & Hax & Hal & Har).
  assert (Hxa : x ∉ ids la) by (intros Hx; apply (Hd x Hx); by left).
  eexists. split; [by eapply detach_code|]. cbn [child]. assert (Hc : (ptr la =? x) = false).
  { apply Z.eqb_neq. intros E. destruct (decide (ptr la = nullptr)) as [E0|Hn]; [congruence|]. apply ptr_ids in Hn. congruence. }
  rewrite Hc. cbn [value child father].
  split; [|split].
  - cbn [rep]. rewrite lookup_insert_ne, refather_ne, lookup_insert_eq by done. split; [done|]. split; [done|]. split.
    + apply detach_kept; try done. intros y Hy Hy'. apply (Hd y Hy). right. apply elem_of_app. by right.
    + apply rep_insert_ne; [done|]. eapply refather_rep; [done|]. by apply rep_insert_ne.
  - cbn [rep]. rewrite lookup_insert_eq. split; [done|]. split; [done|]. split; [|done]. apply detach_kept; auto.
  - intros y. rewrite not_elem_of_cons, !not_elem_of_app, not_elem_of_cons, not_elem_of_app. intros (? & ? & ? & ? & ?). rewrite lookup_insert_ne, refather_ne, lookup_insert_ne by auto. done.
Qed.

Lemma cut_ptr x t v l t' : cut x t = Some (v, l, t') -> ptr t <> x -> ptr t' = ptr t.
Proof.
  destruct t as [|b w k r]; [done|]. cbn. destruct (Z.eqb_spec b x); [done|]. destruct (cut x k) as [[[] ]|]; [by intros [= _ _ <-]|].
  destruct (cut x r) as [[[] ]|]; [by intros [= _ _ <-]|done].
Qed.

Lemma detach_ok h f t x v l t' :
  rep (cells h) f t -> NoDup (ids t) -> cut x t = Some (v, l, t') -> ptr t <> x ->
  exists m, detach h x = Ok (MkStore m (next_addr h)) /\ rep m f t' /\ rep m nullptr (Bin x v l Leaf) /\ forall y, y ∉ ids t -> m !! y = cells h !! y.
Proof.
  revert f t'. induction t as [|a va la IHl ra IHr]; intros f t' Hr Hnd; cbn [cut ptr]; [done|]. intros Hcut Hne. destruct (Z.eqb_spec a x); [done|].
  pose proof Hr as (Hna & Ea & Hla & Hra). pose proof Hnd as Hnd'. rewrite ids_bin in Hnd'. apply list.NoDup_cons in Hnd' as [Ha Hnd']. apply list.NoDup_app in Hnd' as (Hndl & Hd & Hndr).
  rewrite not_elem_of_app in Ha. destruct Ha as [Hal Har]. destruct (cut x la) as [[[v1 l1] t1]|] eqn:El.
  - injection Hcut as -> -> <-. destruct (decide (ptr la = x)) as [E|Hp].
    + destruct la as [|b w k r]; [done|]. cbn in E, El. subst b. rewrite Z.eqb_refl in El. injection El as -> -> ->. by apply detach_left.
    + destruct (IHl a t1 Hla Hndl eq_refl Hp) as (m & E & Ht1 & Hx & Hf). exists m. split; [done|]. split; [|split; [done|]].
      * pose proof (cut_ptr _ _ _ _ _ El Hp) as Hp1.
        cbn [rep]. rewrite Hp1, Hf by done. split; [done|]. split; [done|]. split; [done|]. eapply rep_frame; [|exact Hra]. intros y Hy. apply Hf. intros Hy'. by apply (Hd y).
      * intros y. rewrite ids_bin, not_elem_of_cons, not_elem_of_app. intros (_ & Hy & _). by apply Hf.
  - destruct (cut x ra) as [[[v1 l1] t1]|] eqn:Er; [|done]. injection Hcut as -> -> <-. destruct (decide (ptr ra = x)) as [E|Hp].
    + destruct ra as [|b w k r]; [done|]. cbn in E, Er. subst b. rewrite Z.eqb_refl in Er. injection Er as -> -> ->. by apply detach_right.
    + destruct (IHr a t1 Hra Hndr eq_refl Hp) as (m & E & Ht1 & Hx & Hf). exists m. split; [done|]. split; [|split; [done|]].
      * pose proof (cut_ptr _ _ _ _ _ Er Hp) as Hp1.
        cbn [rep]. rewrite Hp1, Hf by done. split; [done|]. split; [done|]. split; [|done]. eapply rep_frame; [|exact Hla]. intros y Hy. apply Hf. intros Hy'. by apply (Hd y).
      * intros y. rewrite ids_bin, not_elem_of_cons, not_elem_of_app. intros (_ & _ & Hy). by apply Hf.
Qed.

(** * Changing a value *)

Fixpoint setval (x : Z) (v : T) (t : tree) : tree :=
  match t with Leaf => Leaf | Bin a w l r => Bin a (if a =? x then v else w) (setval x v l) (setval x v r) end.

Lemma setval_ptr x v t : ptr (setval x v t) = ptr t.
Proof. by destruct t. Qed.

Lemma setval_ids x v t : ids (setval x v t) = ids t.
Proof. induction t as [|a w l IHl r IHr]; [done|]. cbn [setval]. by rewrite !ids_bin, IHl, IHr. Qed.

Lemma setval_id x v t : x ∉ ids t -> setval x v t = t.
Proof.
  induction t as [|a w l IHl r IHr]; [done|]. rewrite ids_bin, not_elem_of_cons, not_elem_of_app. intros (Ha & Hl & Hr). cbn [setval].
  rewrite IHl, IHr by done. by destruct (Z.eqb_spec a x); [congruence|].
Qed.

Lemma setval_rep m f t x v n :
  rep m f t -> NoDup (ids t) -> m !! x = Some n -> rep (<[x := MkNode v (child n) (brother n) (father n)]> m) f (setval x v t).
Proof.
  revert f. induction t as [|a w l IHl r IHr]; intros f; [done|]. rewrite ids_bin. intros (Hn & Ea & Hl & Hr) Hnd Ex.
  apply list.NoDup_cons in Hnd as [Ha Hnd]. apply list.NoDup_app in Hnd as (Hndl & _ & Hndr). cbn [setval rep]. rewrite !setval_ptr. split; [done|]. split; [|by auto].
  destruct (Z.eqb_spec a x) as [->|Hne]; [rewrite lookup_insert_eq; rewrite Ea in Ex; by injection Ex as <-|by rewrite lookup_insert_ne].
Qed.

Lemma cut_setval x w t v l t' : NoDup (ids t) -> cut x t = Some (v, l, t') -> cut x (setval x w t) = Some (w, l, t').
Proof.
  revert t'. induction t as [|a va la IHl ra IHr]; intros t'; [done|]. rewrite ids_bin. intros Hnd Hcut. apply list.NoDup_cons in Hnd as [Ha Hnd].
  apply list.NoDup_app in Hnd as (Hndl & Hd & Hndr). apply not_elem_of_app in Ha as [Hal Har]. cbn [cut setval] in *. destruct (Z.eqb_spec a x) as [->|Hne].
  - injection Hcut as -> -> ->. by rewrite !setval_id.
  - destruct (cut x la) as [[[v1 l1] t1]|] eqn:El.
    + injection Hcut as -> -> <-. rewrite (IHl _ Hndl eq_refl). rewrite (setval_id x w ra); [done|]. intros Hx. apply (Hd x); [apply cut_ids; by rewrite El|done].
    + destruct (cut x ra) as [[[v1 l1] t1]|] eqn:Er; [|done]. injection Hcut as -> -> <-. assert (Hx : x ∈ ids ra) by (apply cut_ids; by rewrite Er).
      rewrite (setval_id x w la) by (intros Hx'; by apply (Hd x)). rewrite El. by rewrite (IHr _ Hndr eq_refl).
Qed.

Lemma cut_ordered x t v l t' :
  ordered t -> cut x t = Some (v, l, t') -> Forall (fun e => leT v e.2) (elems l) /\ ordered l /\ ordered t'.
Proof.
  revert t'. induction t as [|a va la IHl ra IHr]; intros t'; [done|]. cbn [cut ordered]. intros (Hv & Hol & Hor) Hcut. destruct (Z.eqb_spec a x) as [->|Hne]; [by injection Hcut as -> -> ->|].
  destruct (cut x la) as [[[v1 l1] t1]|] eqn:El.
  - injection Hcut as -> -> <-. destruct (IHl _ Hol eq_refl) as (H1 & H2 & H3). split; [done|]. split; [done|]. cbn [ordered]. split; [|done].
    rewrite (cut_elems _ _ _ _ _ El) in Hv. apply list.Forall_cons in Hv as [_ Hv]. by apply Forall_app in Hv as [_ Hv].
  - destruct (cut x ra) as [[[v1 l1] t1]|] eqn:Er; [|done]. injection Hcut as -> -> <-. destruct (IHr _ Hor eq_refl) as (H1 & H2 & H3). by split.
Qed.

(** * The heap as a collection of handles with values *)

Inductive heap_op := Push (v : T) | Update (node : Z) (v : T).

Definition heap_step (o : heap_op) (t : PairTree) : outcome PairTree :=
  match o with
  | Push v => let '(a, h) := alloc (nodes t) (new_node v) in push a (MkPairTree h (root_ t))
  | Update node v => '(_, t) ← update node v t; Ok t
  end.

Fixpoint heap_run (os : list heap_op) (t : PairTree) : outcome PairTree :=
  match os with [] => Ok t | o :: os => t ← heap_step o t; heap_run os t end.

(** A value may only be decreased: [update] does not move the children. *)
Definition coll_step (o : heap_op) (E : list (Z * T)) : option (list (Z * T)) :=
  match o with
  | Push v => Some ((zlen E + 1, v) :: E)
  | Update x v => if existsb (fun e => (e.1 =? x) && negb (ltb e.2 v)) E then Some ((fun e => if e.1 =? x then (x, v) else e) <$> E) else None
  end.

Fixpoint coll_run (os : list heap_op) (E : list (Z * T)) : option (list (Z * T)) :=
  match os with [] => Some E | o :: os => match coll_step o E with Some E => coll_run os E | None => None end end.

Record holds (s : PairTree) (E : list (Z * T)) (t : tree) : Prop := {
  h_rep : rep (cells (nodes s)) nullptr t;
  h_root : root_ s = ptr t;
  h_lone : lone t;
  h_order : ordered t;
  h_elems : elems t ≡ₚ E;
  h_nodup : NoDup (ids t);
  h_range : forall a, a ∈ ids t -> 0 < a < next_addr (nodes s);
  h_next : next_addr (nodes s) = zlen E + 1 }.

Lemma holds_new : holds new_pair_tree [] Leaf.
Proof. split; try done; [apply NoDup_nil_2|]. by intros a Ha%elem_of_nil. Qed.

Lemma pair_push_ok s E t v : holds s E t -> exists s' t', heap_step (Push v) s = Ok s' /\ holds s' ((zlen E + 1, v) :: E) t'.
Proof.
  intros [Hr Hroot Hl Ho He Hnd Hrg Hnx]. cbn [heap_step alloc]. set (a := next_addr (nodes s)) in *. pose proof (zlen_nonneg E) as HE.
  assert (Ha : a ∉ ids t) by (intros Ha; specialize (Hrg a Ha); lia). set (m := <[a := new_node v]> (cells (nodes s))).
  assert (Hn : rep m nullptr (Bin a v Leaf Leaf)) by (cbn; unfold m, nullptr; rewrite lookup_insert_eq; split; [lia|done]).
  destruct (pair_merge_ok (MkStore m (a + 1)) (Bin a v Leaf Leaf) t Hn ltac:(by apply rep_insert_ne) eq_refl Hl) as (m' & Em & Rm & _).
  { change (NoDup (a :: ids t)). by apply list.NoDup_cons. }
  unfold push. cbn [nodes root_]. rewrite Hroot. cbn [ptr next_addr] in Em. rewrite Em. cbn [mbind outcome_bind].
  exists (MkPairTree (MkStore m' (a + 1)) (ptr (link (Bin a v Leaf Leaf) t))), (link (Bin a v Leaf Leaf) t). split; [done|].
  assert (Eel : elems (link (Bin a v Leaf Leaf) t) ≡ₚ (a, v) :: elems t) by (by rewrite link_ids).
  split; cbn [nodes root_ cells next_addr]; try done.
  - by apply link_lone.
  - by apply link_ordered.
  - rewrite Eel, He. by rewrite Hnx.
  - eapply (nodup_ids _ (Bin a v Leaf t)); [by rewrite Eel|]. rewrite ids_bin. cbn. by apply list.NoDup_cons.
  - intros b. unfold ids. rewrite Eel. cbn. intros [->|Hb]%elem_of_cons; [lia|]. specialize (Hrg b Hb). lia.
  - rewrite zlen_cons. lia.
Qed.

(** Replacing the value of one key of a collection without repeated keys. *)
Lemma replace_value (E E0 : list (Z * T)) x v0 v :
  NoDup E.*1 -> E ≡ₚ (x, v0) :: E0 -> ((fun e => if e.1 =? x then (x, v) else e) <$> E) ≡ₚ (x, v) :: E0.
Proof.
  intros Hnd HE. rewrite HE in *. cbn in *. rewrite Z.eqb_refl. constructor. apply list.NoDup_cons in Hnd as [Hx _].
  clear HE. induction E0 as [|[b w] l IH]; [done|]. cbn in *. apply not_elem_of_cons in Hx as [Hb Hx].
  replace (b =? x) with false by lia. constructor. by apply IH.
Qed.

Lemma update_ok s E t x v v0 :
  holds s E t -> (x, v0) ∈ E -> leT v v0 ->
  exists s' t', heap_step (Update x v) s = Ok s' /\ holds s' ((fun e => if e.1 =? x then (x, v) else e) <$> E) t'.
Proof.
  intros [Hr Hroot Hl Ho He Hnd Hrg Hnx] Hin Hle. rewrite <- He in Hin. assert (Hx : x ∈ ids t) by (apply list_elem_of_fmap; by exists (x, v0)).
  assert (HndE : NoDup E.*1) by (unfold ids in Hnd; by rewrite He in Hnd). destruct (cut_some _ _ Hx) as [[[v1 l] t'] Hcut].
  pose proof (cut_elems _ _ _ _ _ Hcut) as Ec. assert (v1 = v0) as ->.
  { pose proof Hnd as Hnd1. unfold ids in Hnd1. rewrite Ec in Hnd1, Hin. cbn in Hnd1. apply list.NoDup_cons in Hnd1 as [Hx1 _]. apply elem_of_cons in Hin as [[=]|Hin]; [done|].
    destruct Hx1. apply list_elem_of_fmap. by exists (x, v0). }
  pose proof (cut_ordered _ _ _ _ _ Ho Hcut) as (Hv & Hol & Hot). assert (EE : E ≡ₚ (x, v0) :: elems l ++ elems t') by (by rewrite <- He).
  pose proof (replace_value _ _ _ _ v HndE EE) as Er. assert (Hv' : Forall (fun e => leT v e.2) (elems l)) by (eapply list.Forall_impl; [exact Hv|]; cbn; intros e ?; by etrans).
  destruct (rep_elem _ _ _ _ Hr Hx) as [Hxn [n En]]. cbn [heap_step]. unfold update. rewrite (set_value_some _ _ _ _ En). cbn [mbind outcome_bind].
  set (m := <[x := _]> _). assert (Hm : rep m nullptr (setval x v t)) by (by apply setval_rep). rewrite Hroot.
  assert (Hrng : forall u, elems u ≡ₚ (x, v) :: elems l ++ elems t' -> NoDup (ids u) /\ forall a, a ∈ ids u -> 0 < a < next_addr (nodes s)).
  { intros u Eu. assert (Eids : ids u ≡ₚ ids t) by (unfold ids; rewrite Eu, Ec; done). rewrite Eids. split; [done|]. intros a Ha. apply Hrg. by rewrite <- Eids. }
  assert (Hlen : zlen ((fun e : Z * T => if e.1 =? x then (x, v) else e) <$> E) = zlen E) by (unfold zlen; by rewrite length_fmap).
  destruct (Z.eqb_spec x (ptr t)) as [E0|E0].
  - destruct t as [|a w k r]; [done|]. cbn in E0, Hl, Hcut. subst a r. rewrite Z.eqb_refl in Hcut. injection Hcut as -> <- <-. cbn [elems] in Er. rewrite app_nil_r in Er.
    exists (MkPairTree (MkStore m (next_addr (nodes s))) x), (Bin x v k Leaf). split; [done|]. destruct (Hrng (Bin x v k Leaf)) as [H1 H2]; [done|].
    rewrite ids_bin in Hnd. apply list.NoDup_cons in Hnd as [Hxk _]. rewrite not_elem_of_app in Hxk. destruct Hxk as [Hxk _].
    split; cbn [nodes root_ cells next_addr]; try done; [|by rewrite Er; cbn; rewrite app_nil_r|by rewrite Hlen].
    cbn [setval] in Hm. rewrite Z.eqb_refl, (setval_id x v k) in Hm by done. exact Hm.
  - destruct (detach_ok (MkStore m (next_addr (nodes s))) nullptr (setval x v t) x v l t' Hm) as (m1 & -> & Rt & Rx & _).
    { by rewrite setval_ids. } { by eapply cut_setval. } { by rewrite setval_ptr. }
    cbn [mbind outcome_bind next_addr]. pose proof (cut_ptr _ _ _ _ _ Hcut (not_eq_sym E0)) as Hp. rewrite <- Hp. assert (Lt : lone t').
    { destruct t as [|a w k r]; [done|]. cbn in Hl, Hcut, E0. subst r. destruct (Z.eqb_spec a x); [congruence|]. destruct (cut x k) as [[[] ]|]; [by injection Hcut as _ _ <-|done]. }
    assert (Hnd' : NoDup (ids t' ++ ids (Bin x v l Leaf))).
    { rewrite ids_bin, app_nil_r. unfold ids in *. rewrite Ec in Hnd. cbn in Hnd. rewrite fmap_app in Hnd. rewrite <- Permutation_middle. by rewrite (Permutation_app_comm (elems t').*1). }
    destruct (pair_merge_ok (MkStore m1 (next_addr (nodes s))) t' (Bin x v l Leaf) Rt Rx Lt eq_refl Hnd') as (m2 & Em & Rm & _). cbn [ptr next_addr] in Em. rewrite Em. cbn [mbind outcome_bind].
    assert (Eel : elems (link t' (Bin x v l Leaf)) ≡ₚ (x, v) :: elems l ++ elems t').
    { rewrite link_ids by done. cbn [elems]. rewrite app_nil_r, <- Permutation_middle. by rewrite Permutation_app_comm. }
    exists (MkPairTree (MkStore m2 (next_addr (nodes s))) (ptr (link t' (Bin x v l Leaf)))), (link t' (Bin x v l Leaf)). split; [done|]. destruct (Hrng _ Eel) as [H1 H2].
    split; cbn [nodes root_ cells next_addr]; try done.
    + by apply link_lone.
    + by apply link_ordered.
    + by rewrite Er.
    + by rewrite Hlen.
Qed.

Lemma heap_run_ok os s E t E' : holds s E t -> coll_run os E = Some E' -> exists s' t', heap_run os s = Ok s' /\ holds s' E' t'.
Proof.
  revert s E t. induction os as [|o os IH]; intros s E t Hs Hrun; cbn [coll_run heap_run] in *; [injection Hrun as <-; eauto|].
  destruct (coll_step o E) as [E1|] eqn:E1s; [|done].
  assert (Hstep : exists s1 t1, heap_step o s = Ok s1 /\ holds s1 E1 t1).
  { destruct o as [v|x v]; cbn [coll_step] in E1s; [injection E1s as <-; by eapply pair_push_ok|]. destruct (existsb _ E) eqn:Ex; [|done]. injection E1s as <-.
    apply existsb_exists in Ex as ([y v0] & Hin & Hc). cbn [fst snd] in Hc. apply andb_true_iff in Hc as [->%Z.eqb_eq Hc]. apply list_elem_of_In in Hin.
    eapply update_ok; [done|exact Hin|]. by apply negb_true_iff in Hc. }
  destruct Hstep as (s1 & t1 & -> & Hs1). cbn [mbind outcome_bind]. by eapply IH.
Qed.

(** [pop] returns the root and changes nothing. *)
Lemma pop_keeps s E t : holds s E t -> E <> [] -> pop s = Ok (root_ s, s).
Proof.
  intros [Hr Hroot Hl _ He _ _ _] Hne. destruct t as [|a v l r]; [by apply Permutation_nil in He|]. cbn in Hl. subst r. cbn [ptr] in Hroot. destruct Hr as (Hn & Ea & _). change (ptr Leaf) with nullptr in Ea.
  destruct s as [[m f] r]. cbn [nodes root_ cells next_addr] in *. subst r. unfold pop. cbn [nodes root_ cells merges]. replace (a =? nullptr) with false by lia.
  assert (Eid : forall n, m !! a = Some n -> MkStore (<[a := n]> m) f = MkStore m f) by (intros n En; by rewrite insert_id).
  rewrite (set_father_some (MkStore m f) a _ _ Ea). cbn [mbind outcome_bind cells next_addr value child brother ptr]. rewrite (Eid _ Ea).
  rewrite (load_some (MkStore m f) a _ Ea). cbn [mbind outcome_bind brother ptr Z.eqb nullptr].
  rewrite (set_brother_some (MkStore m f) a _ _ Ea). cbn [mbind outcome_bind cells next_addr value child father]. rewrite (Eid _ Ea).
  rewrite (set_father_some (MkStore m f) a _ _ Ea). cbn [mbind outcome_bind cells next_addr value child brother]. by rewrite (Eid _ Ea).
Qed.

(** The second round of the destructor reads the node deleted in the first. *)
Lemma destroy_faults s E t k : holds s E t -> E <> [] -> destroy_pair_tree (S (S k)) s = Fault NullDeref.
Proof.
  intros Hs Hne. pose proof (pop_keeps _ _ _ Hs Hne) as Hp. destruct Hs as [Hr Hroot _ _ He _ _ _]. destruct t as [|a v l r]; [by apply Permutation_nil in He|].
  destruct Hr as (Hn & Ea & _). cbn [ptr] in Hroot. set (s1 := MkPairTree (MkStore (delete a (cells (nodes s))) (next_addr (nodes s))) a).
  assert (E1 : destroy_step s = Ok (inl s1)).
  { unfold destroy_step. rewrite Hp, Hroot. replace (a =? nullptr) with false by lia. cbn [mbind outcome_bind]. unfold free. replace (a =? nullptr) with false by lia. rewrite Ea. cbn [mbind outcome_bind]. by rewrite Hroot. }
  assert (E2 : destroy_step s1 = Fault NullDeref).
  { unfold destroy_step, pop. cbn [root_ nodes merges s1]. replace (a =? nullptr) with false by lia. unfold set_father, load. cbn [cells]. by rewrite lookup_delete_eq. }
  unfold destroy_pair_tree. cbn [while_fuel]. rewrite E1. cbn [mbind outcome_bind]. by rewrite E2.
Qed.

Definition minimum (E : list (Z * T)) (a : Z) : Prop := exists v, (a, v) ∈ E /\ Forall (fun e => leT v e.2) E.

Lemma root_minimum t E : ordered t -> lone t -> elems t ≡ₚ E -> E <> [] -> minimum E (ptr t).
Proof.
  intros Ho Hl He Hne. destruct t as [|a v l r]; [by apply Permutation_nil in He|]. cbn in Hl. subst r. exists v. rewrite <- He. cbn [elems ptr].
  rewrite app_nil_r. split; [by left|]. constructor; [cbn; reflexivity|]. by destruct Ho as [Ho _].
Qed.

(** What [pop] leaves out: merging the children of the root gives a heap of the
    other values. *)
Lemma merge_children s E t :
  holds s E t -> E <> [] ->
  exists v n m u E0, E ≡ₚ (root_ s, v) :: E0 /\ load (nodes s) (root_ s) = Ok n /\ value n = v /\
    merges (S (length E)) (nodes s) (child n) = Ok (MkStore m (next_addr (nodes s)), ptr u) /\ rep m nullptr u /\ elems u ≡ₚ E0 /\ (E0 <> [] -> minimum E0 (ptr u)).
Proof.
  intros [Hr Hroot Hl Ho He Hnd _ _] Hne. destruct t as [|a v l r]; [by apply Permutation_nil in He|]. cbn in Hl. subst r. destruct Hr as (Hn & Ea & Hla & _).
  rewrite ids_bin, app_nil_r in Hnd. apply list.NoDup_cons in Hnd as [_ Hnd]. cbn [elems] in He. rewrite app_nil_r in He.
  destruct (merges_ok (S (length E)) (nodes s) a l Hla Hnd) as (m & Em & Rm & _); [rewrite <- He; cbn; lia|]. destruct (merges_tree_spec l) as (Ll & El & Ol).
  cbn [ptr] in Hroot. exists v, (MkNode v (ptr l) nullptr nullptr), m, (merges_tree l), (elems l). rewrite Hroot. rewrite (load_some _ _ _ Ea). repeat split; try done.
  intros Hne0. apply root_minimum; try done. apply Ol. by destruct Ho as (_ & Ho & _).
Qed.
End PairTree.

(** after any sequence of push and decreasing update the top of the pairing heap is
    a minimum of the values; pop returns it and changes nothing, so the destructor of a
    non-empty heap reads a node it has deleted; merging the children of the root, which
    pop leaves out, gives a heap of exactly the other values with their minimum at its
    root. *)
Theorem pair_heap_spec {T} `{StrictWeak T} (os : list heap_op) (E : list (Z * T)) :
  coll_run os [] = Some E ->
  exists s, heap_run os new_pair_tree = Ok s /\ empty s = is_nil E /\
    (E <> [] -> minimum E (top s) /\ pop s = Ok (top s, s) /\ (forall k, destroy_pair_tree (S (S k)) s = Fault NullDeref) /\
      exists v n m u E0, E ≡ₚ (top s, v) :: E0 /\ load (nodes s) (top s) = Ok n /\ value n = v /\
        merges (S (length E)) (nodes s) (child n) = Ok (MkStore m (next_addr (nodes s)), ptr u) /\ rep m nullptr u /\ elems u ≡ₚ E0 /\ (E0 <> [] -> minimum E0 (ptr u))).
Proof.
  intros Hrun. destruct (heap_run_ok os _ _ _ E holds_new Hrun) as (s & t & Es & Hs). exists s. split; [done|]. unfold top. split.
  - unfold empty. rewrite (h_root _ _ _ Hs). pose proof (h_elems _ _ _ Hs) as He. pose proof (h_rep _ _ _ Hs) as Hr. destruct t as [|a v l r].
    + cbn in He. apply Permutation_nil_l in He as <-. done.
    + destruct Hr as (Hn & _). cbn. replace (a =? nullptr) with false by lia. destruct E; [by apply Permutation_nil_r in He|done].
  - intros Hne. split; [|split; [|split]].
    + rewrite (h_root _ _ _ Hs). eapply root_minimum; [apply Hs..|done].
    + by eapply pop_keeps.
    + intros k. by eapply destroy_faults.
    + by eapply merge_children.
Qed.

(** Three values, one of them decreased. *)
Lemma pair_heap_spec_witness : exists s : @PairTree Z, heap_run [Push 5; Push 3; Push 9; Update 3 1] new_pair_tree = Ok s /\ minimum [(3, 1); (2, 3); (1, 5)] (top s).
Proof.
  destruct (pair_heap_spec (T := Z) (H := Z_strict_weak) [Push 5; Push 3; Push 9; Update 3 1] [(3, 1); (2, 3); (1, 5)] eq_refl) as (s & Es & _ & Hm). exists s. split; [done|]. by apply Hm.
Defined.
