(* ===== verification/RollHash.v ===== *)
(** The rolling hash of cpp/datastructure/hash/string_roll_hash.h: finds a
    substring of a given length that occurs twice.  Characters are signed; added to
    a [uint64_t] they wrap around. *)

From stdpp Require Import gmap.
From S2P Require Import Graph Prelude.

Definition b : Z := 97755331.

(** [s[i]]; the position behind the last character holds the terminator. *)
Definition char_at (s : list Z) (i : Z) : outcome Z := vget (s ++ [0]) i.

(** The first loop: the hash of the first window and the power of [b]. *)
Definition first_step (s : list Z) (i : Z) (st : Z * Z) : outcome (Z * Z) :=
  let '(h, p) := st in
  c ← char_at s i;
  Ok (u64 (h * b + c), u64 (p * b)).

(** The second loop: [h] of the next window; returns its last index when [h] is
    in the set. *)
Definition roll_step (s : list Z) (size p idx : Z) (st : Z * gset Z) : outcome (Z * gset Z + Z) :=
  let '(h, hs) := st in
  out ← char_at s (idx - size);
  inn ← char_at s idx;
  let h := u64 (h * b - p * out + inn) in
  if decide (h ∈ hs) then Ok (inr idx) else Ok (inl (h, {[ h ]} ∪ hs)).

(** [idx < s.size()] compares as unsigned numbers. *)
Definition roll_hash (s : list Z) (size start : Z) : outcome Z :=
  '(h, p) ← for_range start size (first_step s) (0, 1);
  if start + size <? 0 then Ok 0
  else
    r ← for_ret (start + size) (zlen s) (roll_step s size p) (h, {[ h ]});
    match r with inl _ => Ok 0 | inr idx => Ok idx end.

Example roll_run : roll_hash [97; 98; 99; 97; 98] 2 0 = Ok 4 /\ roll_hash [97; 98; 99] 2 0 = Ok 0.
Proof. split; vm_compute; reflexivity. Qed.

(** With a start index the first loop stops too early: of "xaba" from index 1 the
    substrings "ab" and "ba" differ, but an index is returned. *)
Example roll_start : roll_hash [120; 97; 98; 97] 2 1 = Ok 3 /\ roll_hash [97; 98; 97] 2 0 = Ok 0.
Proof. split; vm_compute; reflexivity. Qed.

(** * Windows and their polynomials *)

Definition poly (l : list Z) : Z := foldl (fun h c => h * b + c) 0 l.

Definition window (s : list Z) (n i : Z) : list Z := take (Z.to_nat n) (drop (Z.to_nat i) s).

Lemma poly_snoc l c : poly (l ++ [c]) = poly l * b + c.
Proof. unfold poly. by rewrite foldl_app. Qed.

Lemma poly_cons x l : poly (x :: l) = x * b ^ zlen l + poly l.
Proof.
  induction l as [|c l IH] using rev_ind; [change (zlen (@nil Z)) with 0; rewrite Z.pow_0_r; unfold poly; cbn [foldl]; lia|]. rewrite app_comm_cons, !poly_snoc, IH, zlen_snoc, Z.pow_add_r, Z.pow_1_r by (try lia; apply zlen_nonneg). lia.
Qed.

Section Windows.
Context (s : list Z) (n : Z).
Hypothesis Hn : 0 <= n.

Lemma window_cons i : 0 < n -> 0 <= i < zlen s -> window s n i = at_ s i :: window s (n - 1) (i + 1).
Proof.
  intros Hp Hi. unfold window. destruct (zget_in_range s i Hi) as [x Hx]. rewrite (drop_zget _ _ _ Hx). unfold at_. rewrite Hx.
  replace (Z.to_nat n) with (S (Z.to_nat (n - 1))) by lia. cbn [take]. by replace (Z.to_nat (i + 1)) with (S (Z.to_nat i)) by lia.
Qed.

Lemma window_snoc i : 0 <= i -> i + n < zlen s -> window s (n + 1) i = window s n i ++ [at_ s (i + n)].
Proof.
  intros Hi Hlt. unfold window. replace (Z.to_nat (n + 1)) with (S (Z.to_nat n)) by lia. destruct (zget_in_range s (i + n) ltac:(lia)) as [x Hx].
  unfold at_. rewrite Hx. unfold zget in Hx. destruct (Z.ltb_spec (i + n) 0); [lia|]. apply take_S_r. rewrite lookup_drop.
  by replace (Z.to_nat i + Z.to_nat n)%nat with (Z.to_nat (i + n)) by lia.
Qed.

Lemma zlen_window i : 0 <= i -> i + n <= zlen s -> zlen (window s n i) = n.
Proof. intros Hi Hle. unfold window, zlen in *. rewrite length_take, length_drop. lia. Qed.
End Windows.

(** The step of the hash from one window to the next. *)
Lemma poly_roll s n i : 0 < n -> 0 <= i -> i + n < zlen s ->
  poly (window s n (i + 1)) = poly (window s n i) * b - b ^ n * at_ s i + at_ s (i + n).
Proof.
  intros Hn Hi Hlt. pose proof (window_snoc s n ltac:(lia) i Hi Hlt) as E1.
  rewrite (window_cons s (n + 1) i) in E1 by lia. replace (n + 1 - 1) with n in E1 by lia.
  apply (f_equal poly) in E1. rewrite poly_cons, poly_snoc, zlen_window in E1 by lia. lia.
Qed.

Definition hash (s : list Z) (n i : Z) : Z := u64 (poly (window s n i)).

Lemma char_at_ok s i : 0 <= i < zlen s -> char_at s i = Ok (at_ s i).
Proof.
  intros Hi. unfold char_at. destruct (zget_in_range s i Hi) as [x Hx]. unfold at_. rewrite Hx. apply vget_some. by rewrite zget_app_l by lia.
Qed.

Lemma first_ok s n : 0 <= n <= zlen s -> wp (for_range 0 n (first_step s) (0, 1)) (fun r => r = (hash s n 0, u64 (b ^ n))).
Proof.
  intros Hn. apply (wp_for_range (fun i r => r = (hash s i 0, u64 (b ^ i)))); [lia|done| |done].
  intros i r Hi ->. unfold first_step. rewrite char_at_ok by lia. cbn [mbind outcome_bind]. apply wp_ret. f_equal.
  - unfold hash. rewrite window_snoc, poly_snoc by lia. cbn [Z.add]. rewrite <- u64_add_l, u64_mul_l, u64_add_l. done.
  - rewrite u64_mul_l, Z.pow_add_r, Z.pow_1_r by lia. done.
Qed.

(** The hashes of the windows that start before [i] are different. *)
Definition distinct (s : list Z) (n i : Z) : Prop := forall j k, 0 <= j < i -> 0 <= k < i -> hash s n j = hash s n k -> j = k.

Definition rolled (s : list Z) (n idx : Z) (st : Z * gset Z) : Prop :=
  st.1 = hash s n (idx - n) /\ (forall x, x ∈ st.2 <-> exists j, 0 <= j <= idx - n /\ x = hash s n j) /\ distinct s n (idx - n + 1).

Lemma roll_step_ok s n idx st :
  0 < n -> n <= idx < zlen s -> rolled s n idx st ->
  wp (roll_step s n (u64 (b ^ n)) idx st) (fun r => match r with
    | inl st' => rolled s n (idx + 1) st'
    | inr x => x = idx /\ distinct s n (idx - n + 1) /\ exists j, 0 <= j <= idx - n /\ hash s n j = hash s n (idx - n + 1) end).
Proof.
  intros Hn Hi. destruct st as [h hs]. intros (E0 & Hs & Hd). cbn [fst snd] in *. subst h. unfold roll_step. rewrite !char_at_ok by lia. cbn [mbind outcome_bind].
  assert (Eh : u64 (hash s n (idx - n) * b - u64 (b ^ n) * at_ s (idx - n) + at_ s idx) = hash s n (idx - n + 1)).
  { unfold hash at 2. rewrite (poly_roll s n (idx - n)) by lia. replace (idx - n + n) with idx by lia.
    rewrite <- u64_add_l. rewrite <- (u64_add_l (_ - _)). f_equal. f_equal. rewrite <- u64_sub_r, u64_mul_l, u64_sub_r. rewrite <- u64_sub_l. unfold hash. by rewrite u64_mul_l, u64_sub_l. }
  rewrite Eh. case_decide as Hin; apply wp_ret.
  - split; [done|]. split; [done|]. apply Hs in Hin as (j & Hj & E). by exists j.
  - unfold rolled. replace (idx + 1 - n) with (idx - n + 1) by lia. split; [done|]. cbn [fst snd]. split.
    + intros x. rewrite elem_of_union, elem_of_singleton, Hs. split.
      * intros [->|(j & Hj & ->)]; [exists (idx - n + 1)|exists j]; (split; [lia|done]).
      * intros (j & Hj & ->). destruct (Z.eq_dec j (idx - n + 1)) as [->|Hne]; [by left|]. right. exists j. split; [lia|done].
    + assert (Hnew : forall j, 0 <= j <= idx - n -> hash s n j <> hash s n (idx - n + 1)) by (intros j Hj E; apply Hin, Hs; exists j; by rewrite E).
      intros j k Hj Hk E. destruct (Z.eq_dec j (idx - n + 1)) as [->|Hj'], (Z.eq_dec k (idx - n + 1)) as [->|Hk']; [done| | |].
      * by destruct (Hnew k ltac:(lia)).
      * by destruct (Hnew j ltac:(lia)).
      * apply Hd; [lia|lia|done].
Qed.

(** The result 0 means that no substring of length [n] occurs twice; another result
    is the end of the first window whose hash is that of an earlier one. *)
Theorem roll_hash_correct (s : list Z) (n : Z) :
  0 < n <= zlen s ->
  exists r, roll_hash s n 0 = Ok r /\
    (r = 0 -> forall j k, 0 <= j -> 0 <= k -> j + n <= zlen s -> k + n <= zlen s -> window s n j = window s n k -> j = k) /\
    (r <> 0 -> n <= r < zlen s /\ (exists j, 0 <= j <= r - n /\ hash s n j = hash s n (r - n + 1)) /\
       forall j k, 0 <= j <= r - n -> 0 <= k <= r - n -> window s n j = window s n k -> j = k).
Proof.
  intros Hn. assert (Hhash : forall i, distinct s n i -> forall j k, 0 <= j < i -> 0 <= k < i -> window s n j = window s n k -> j = k).
  { intros i Hd j k Hj Hk E. apply Hd; [done|done|]. unfold hash. by rewrite E. }
  unfold roll_hash. destruct (first_ok s n ltac:(lia)) as ([h p] & -> & E). injection E as -> ->. cbn [mbind outcome_bind]. replace (0 + n <? 0) with false by lia.
  destruct (wp_for_ret (rolled s n) (fun r => match r with inl _ => distinct s n (zlen s - n + 1)
      | inr x => n <= x < zlen s /\ distinct s n (x - n + 1) /\ exists j, 0 <= j <= x - n /\ hash s n j = hash s n (x - n + 1) end)
    (0 + n) (zlen s) (roll_step s n (u64 (b ^ n))) (hash s n 0, {[ hash s n 0 ]})) as (r & -> & Hr).
  - lia.
  - replace (0 + n) with n by lia. split; [f_equal; cbn; f_equal; lia|]. cbn [fst snd]. replace (n - n) with 0 by lia. split; [|intros j k Hj Hk _; lia].
    intros x. rewrite elem_of_singleton. split; [intros ->; exists 0; split; [lia|done]|]. intros (j & Hj & ->). by replace j with 0 by lia.
  - intros i st Hi Hst. eapply wp_mono; [apply roll_step_ok; [lia|lia|done]|]. intros [st'|x]; [done|]. intros (-> & Hd & Hj). split; [lia|]. by split.
  - intros st (_ & _ & Hd). by replace (zlen s - n + 1) with (zlen s - n + 1) by lia.
  - cbn [mbind outcome_bind]. destruct r as [st|x].
    + exists 0. split; [done|]. split; [|done]. intros _ j k Hj Hk Hjl Hkl. apply (Hhash _ Hr); lia.
    + destruct Hr as (Hx & Hd & Hj). exists x. split; [done|]. split; [lia|]. intros _. split; [done|]. split; [done|]. intros j k Hj' Hk'. apply (Hhash _ Hd); lia.
Qed.

Lemma roll_hash_correct_witness : exists r, roll_hash [97; 98; 99; 97; 98] 2 0 = Ok r /\ r <> 0 /\ 2 <= r < 5.
Proof.
  destruct (roll_hash_correct [97; 98; 99; 97; 98] 2) as (r & E & _ & Hr); [split; [lia|done]|]. exists r. split; [done|].
  assert (r <> 0) by (vm_compute in E; injection E as <-; done). split; [done|]. by apply Hr.
Defined.
