(* ===== verification/Numbers.v ===== *)
(** The number algorithms of cpp/algorithm/lib/math: bin_pow of math.cc and
    permutation of combine_number/permutation.h.  Signed overflow, which is
    undefined in the source, wraps around as on the usual machines. *)

From S2P Require Import Prelude.

Lemma s64_mul_l a b : s64 (s64 a * b) = s64 (a * b).
Proof. apply s64_congr. by rewrite Z.mul_mod, s64_mod, <- Z.mul_mod by lia. Qed.

Lemma s64_mul_r a b : s64 (a * s64 b) = s64 (a * b).
Proof. rewrite Z.mul_comm, s64_mul_l. f_equal. lia. Qed.

(** * bin_pow *)

Definition bin_pow_step (st : Z * Z * Z) : outcome (Z * Z * Z + Z) :=
  let '(result, v, p) := st in
  if 0 <? p then
    let result := if Z.land p 1 =? 0 then result else s64 (result * v) in
    let v := s64 (v * v) in
    let p := Z.shiftr p 1 in
    Ok (inl (result, v, p))
  else Ok (inr result).

(** [p] has 63 bits. *)
Definition bin_pow (v p : Z) : outcome Z := while_fuel 64 bin_pow_step (1, v, p).

Example bin_pow_run : bin_pow 3 13 = Ok 1594323 /\ bin_pow 7 0 = Ok 1 /\ bin_pow 2 63 = Ok (- 2 ^ 63) /\ bin_pow 5 (-3) = Ok 1.
Proof. repeat split. Qed.

Lemma s64_pow v n : 0 <= n -> s64 (s64 v ^ n) = s64 (v ^ n).
Proof.
  intros Hn. pattern n. apply natlike_ind; [done| |done]. clear n Hn. intros n Hn IH. rewrite !Z.pow_succ_r by done.
  rewrite s64_mul_l, <- (s64_mul_r v (s64 v ^ n)), IH. by rewrite s64_mul_r.
Qed.

Lemma bin_pow_step_pos r v p :
  0 < p -> bin_pow_step (r, v, p) = Ok (inl (if p mod 2 =? 0 then r else s64 (r * v), s64 (v * v), p / 2)).
Proof.
  intros Hp. unfold bin_pow_step. replace (0 <? p) with true by lia. rewrite Z.shiftr_div_pow2 by lia. change (2 ^ 1) with 2.
  change (Z.land p 1) with (Z.land p (Z.ones 1)). by rewrite Z.land_ones by lia.
Qed.

Lemma bin_pow_loop fuel r v p :
  0 <= p < 2 ^ Z.of_nat fuel -> wp (while_fuel (S fuel) bin_pow_step (r, v, p)) (fun x => s64 x = s64 (r * v ^ p) /\ (x = r \/ x = s64 x)).
Proof.
  revert r v p. induction fuel as [|fuel IH]; intros r v p Hp.
  - assert (p = 0) as -> by (change (2 ^ Z.of_nat 0) with 1 in Hp; lia). cbn. apply wp_ret. split; [f_equal; lia|by left].
  - remember (S fuel) as k. cbn [while_fuel]. destruct (Z.ltb_spec 0 p) as [H0|H0].
    + subst k. rewrite bin_pow_step_pos by done. cbn [mbind outcome_bind].
      assert (Hp2 : 0 <= p / 2 < 2 ^ Z.of_nat fuel).
      { rewrite Nat2Z.inj_succ, Z.pow_succ_r in Hp by lia. split; [apply Z.div_pos; lia|]. apply Z.div_lt_upper_bound; lia. }
      set (r' := if p mod 2 =? 0 then r else s64 (r * v)). eapply wp_mono; [apply (IH r' (s64 (v * v)) (p / 2) Hp2)|]. cbn beta.
      intros x [Hx Hx']. pose proof (Z.div_mod p 2 ltac:(lia)) as Hdm. pose proof (Z.mod_pos_bound p 2 ltac:(lia)) as Hmb.
      assert (Ev : s64 (r' * s64 (v * v) ^ (p / 2)) = s64 (r * v ^ p)).
      { rewrite <- s64_mul_r, s64_pow, s64_mul_r by lia. rewrite <- (Z.pow_2_r v), <- Z.pow_mul_r by lia. unfold r'. destruct (Z.eqb_spec (p mod 2) 0) as [E|E].
        - do 2 f_equal. f_equal. lia.
        - rewrite s64_mul_l. f_equal. replace p with (2 * (p / 2) + 1) at 2 by lia. rewrite Z.pow_add_r, Z.pow_1_r by lia. lia. }
      split; [by rewrite Hx, Ev|]. destruct Hx' as [->|Hx']; [|by right]. unfold r'. destruct (p mod 2 =? 0); [by left|]. right. apply s64_congr. by rewrite s64_mod.
    + assert (p = 0) as -> by lia. apply wp_ret. split; [f_equal; lia|by left].
Qed.

(** [bin_pow] is the power, modulo 2^64 in the signed range. *)
Theorem bin_pow_correct v p : - 2 ^ 63 <= p < 2 ^ 63 -> bin_pow v p = Ok (if 0 <=? p then s64 (v ^ p) else 1).
Proof.
  intros Hp. destruct (Z.leb_spec 0 p) as [H0|H0].
  - destruct (bin_pow_loop 63 1 v p ltac:(change (Z.of_nat 63) with 63; lia)) as (x & E & Hx & Hx'). unfold bin_pow. rewrite E. f_equal. rewrite Z.mul_1_l in Hx.
    rewrite <- Hx. destruct Hx' as [->|Hx']; [by rewrite s64_id|done].
  - unfold bin_pow. remember 63%nat as k. cbn [while_fuel]. unfold bin_pow_step. by replace (0 <? p) with false by lia.
Qed.

(** * permutation *)

(** One call per value of [m]. *)
Fixpoint permutation_fuel (fuel : nat) (n m : Z) : outcome Z :=
  match fuel with
  | O => Fault OutOfFuel
  | S fuel =>
      if (n =? m) || (m =? 0) then Ok 1
      else r ← permutation_fuel fuel n (m - 1); Ok (Z.quot (s64 (r * (n - m + 1))) m)
  end.

Definition permutation (n m : Z) : outcome Z := permutation_fuel (S (Z.to_nat m)) n m.

Fixpoint choose (n k : nat) : nat :=
  match n, k with
  | _, O => 1
  | O, S _ => 0
  | S n, S k => choose n k + choose n (S k)
  end.

Example permutation_run : permutation 5 2 = Ok 10 /\ permutation 40 20 = Ok 137846528820 /\ permutation 3 5 = Ok 0.
Proof. repeat split. Qed.

Lemma choose_diag n k : (n < k)%nat -> choose n k = 0%nat.
Proof. revert k. induction n as [|n IH]; intros [|k] Hk; cbn; try lia. rewrite !IH by lia. done. Qed.

Lemma choose_full n : choose n n = 1%nat.
Proof. induction n as [|n IH]; cbn; [done|]. rewrite IH, choose_diag by lia. done. Qed.

(** [(k + 1) C(n, k + 1) = (n - k) C(n, k)] *)
Lemma choose_absorb n k : Z.of_nat (S k) * Z.of_nat (choose n (S k)) = (Z.of_nat n - Z.of_nat k) * Z.of_nat (choose n k).
Proof.
  revert k. induction n as [|n IH]; intros k; [destruct k; cbn; lia|].
  change (choose (S n) (S k)) with (choose n k + choose n (S k))%nat. destruct k as [|k].
  - specialize (IH 0%nat). assert (choose n 0 = 1%nat) as E0 by (by destruct n). change (choose (S n) 0) with 1%nat. rewrite E0 in *. lia.
  - change (choose (S n) (S k)) with (choose n k + choose n (S k))%nat. pose proof (IH k) as E1. pose proof (IH (S k)) as E2. nia.
Qed.

Lemma permutation_ok n m :
  (forall k, (0 < k <= m)%nat -> Z.of_nat k * Z.of_nat (choose n k) < 2 ^ 63) ->
  forall fuel, (m < fuel)%nat -> permutation_fuel fuel (Z.of_nat n) (Z.of_nat m) = Ok (Z.of_nat (choose n m)).
Proof.
  intros Hb fuel. revert m Hb. induction fuel as [|fuel IH]; intros m Hb Hf; [lia|]. cbn [permutation_fuel].
  destruct (Z.eqb_spec (Z.of_nat n) (Z.of_nat m)) as [E|E]; cbn [orb]; [assert (n = m) as -> by lia; by rewrite choose_full|].
  destruct m as [|m]; [by destruct n|]. change (Z.of_nat (S m) =? 0) with false. cbv iota. replace (Z.of_nat (S m) - 1) with (Z.of_nat m) by lia.
  rewrite IH by (try lia; intros k Hk; apply Hb; lia). cbn [mbind outcome_bind]. pose proof (choose_absorb n m) as Ea. specialize (Hb (S m) ltac:(lia)).
  replace (Z.of_nat (choose n m) * (Z.of_nat n - Z.of_nat (S m) + 1)) with (Z.of_nat (choose n (S m)) * Z.of_nat (S m)) by lia.
  rewrite s64_id by nia. rewrite Z.quot_mul by lia. done.
Qed.

(** [permutation] is the binomial coefficient, as long as [k C(n, k)] fits 63 bits
    up to [m]. *)
Theorem permutation_correct (n m : nat) :
  (forall k, (0 < k <= m)%nat -> Z.of_nat k * Z.of_nat (choose n k) < 2 ^ 63) ->
  permutation (Z.of_nat n) (Z.of_nat m) = Ok (Z.of_nat (choose n m)).
Proof. intros Hb. unfold permutation. apply permutation_ok; [done|lia]. Qed.
