(* ===== verification/SimdSum.v ===== *)
(** The vector sum of cpp/examples/simd_sum.h.  The addition of [T] is a
    parameter; an SSE or AVX addition of 4 or 8 floats adds the lanes one by one,
    after both operands have been loaded. *)

From S2P Require Import Prelude.

Section Sum.
Context {T : Type} (add : T -> T -> T).

(** The [n] entries from [i]: [_mm_loadu_ps] and the like, and the store. *)
Fixpoint load_lanes (v : list T) (i : Z) (n : nat) : outcome (list T) :=
  match n with O => Ok [] | S n => x ← vget v i; l ← load_lanes v (i + 1) n; Ok (x :: l) end.

Fixpoint store_lanes (v : list T) (i : Z) (l : list T) : outcome (list T) :=
  match l with [] => Ok v | x :: l => v ← vset v i x; store_lanes v (i + 1) l end.

(** [sum_add_kernel<4>] and [sum_add_kernel<8>] at offset [i]. *)
Definition add_lanes (n : nat) (src : list T) (i : Z) (dst : list T) : outcome (list T) :=
  a ← load_lanes dst i n;
  b ← load_lanes src i n;
  store_lanes dst i (zip_with add a b).

(** [sum_add_kernel<1>] *)
Definition add_one (src : list T) (i : Z) (dst : list T) : outcome (list T) :=
  a ← vget dst i; b ← vget src i; vset dst i (add a b).

(** [sum_add_kernel<N>]; the recursion is over the template argument. *)
Fixpoint sum_add_kernel (fuel N : nat) (src : list T) (i : Z) (dst : list T) : outcome (list T) :=
  match N, fuel with
  | O, _ => Ok dst
  | _, O => Fault OutOfFuel
  | _, S fuel =>
      if (8 <=? N)%nat then dst ← add_lanes 8 src i dst; sum_add_kernel fuel (N - 8) src (i + 8) dst
      else if (4 <=? N)%nat then dst ← add_lanes 4 src i dst; sum_add_kernel fuel (N - 4) src (i + 4) dst
      else dst ← add_one src i dst; sum_add_kernel fuel (N - 1) src (i + 1) dst
  end.

(** The switch has cases 1 to 16 and no default. *)
Definition sum_kernel_n (block_size : Z) (src dst : list T) : outcome (list T) :=
  if (1 <=? block_size) && (block_size <=? 16) then sum_add_kernel (Z.to_nat block_size) (Z.to_nat block_size) src 0 dst else Ok dst.

(** The general [SumImpl<T>]: one entry after the other. *)
Definition sum_impl (src dst : list T) (size : Z) : outcome (list T) := for_range 0 size (add_one src) dst.

(** [SumImpl<float>]: the pointers are not advanced. *)
Definition block_size : Z := 16.
Definition sum_float_step (src : list T) (size : Z) (st : Z * list T) : outcome (Z * list T + list T) :=
  let '(i, dst) := st in
  if i <? size then dst ← sum_kernel_n block_size src dst; Ok (inl (i + block_size, dst)) else Ok (inr dst).

Definition sum_float (src dst : list T) (size : Z) : outcome (list T) :=
  while_fuel (S (Z.to_nat size)) (sum_float_step src size) (0, dst).

(** [Sum<float>] and [Sum<T>] *)
Definition Sum_float (dst src : list T) : outcome (list T) :=
  if zlen dst =? zlen src then sum_float src dst (zlen src) else Fault AssertFail.
Definition Sum (dst src : list T) : outcome (list T) :=
  if zlen dst =? zlen src then sum_impl src dst (zlen src) else Fault AssertFail.

(** * Blocks *)

(** A memory split at offset [i]: [done], then [a], then [rest]. *)
Lemma load_lanes_ok (pre a rest : list T) i : i = zlen pre -> load_lanes (pre ++ a ++ rest) i (length a) = Ok a.
Proof.
  revert pre i. induction a as [|x a IH]; intros pre i ->; cbn [load_lanes length]; [done|]. cbn [app]. rewrite (vget_mid pre x) by done. cbn [mbind outcome_bind].
  replace (pre ++ x :: a ++ rest) with ((pre ++ [x]) ++ a ++ rest) by (by rewrite <- app_assoc). rewrite (IH (pre ++ [x])); [done|]. rewrite zlen_app. done.
Qed.

Lemma store_lanes_ok (pre a b rest : list T) i : i = zlen pre -> length a = length b -> store_lanes (pre ++ a ++ rest) i b = Ok (pre ++ b ++ rest).
Proof.
  revert pre b i. induction a as [|x a IH]; intros pre b i -> Hl; destruct b as [|y b]; try discriminate Hl; cbn [store_lanes]; [done|]. cbn [app]. rewrite (vset_mid pre x) by done. cbn [mbind outcome_bind].
  replace (pre ++ y :: a ++ rest) with ((pre ++ [y]) ++ a ++ rest) by (by rewrite <- app_assoc). rewrite (IH (pre ++ [y]) b); [by rewrite <- app_assoc| |by injection Hl]. rewrite zlen_app. done.
Qed.

Lemma add_lanes_ok n (d a dr s b sr : list T) i :
  i = zlen d -> zlen s = zlen d -> length a = n -> length b = n -> add_lanes n (s ++ b ++ sr) i (d ++ a ++ dr) = Ok (d ++ zip_with add a b ++ dr).
Proof.
  intros Hi Hs Ha Hb. unfold add_lanes. rewrite <- Ha at 1. rewrite load_lanes_ok by done. cbn [mbind outcome_bind]. rewrite <- Hb. rewrite load_lanes_ok by lia. cbn [mbind outcome_bind].
  apply store_lanes_ok; [done|]. rewrite length_zip_with. lia.
Qed.

Lemma add_one_ok (d dr s sr : list T) x y i :
  i = zlen d -> zlen s = zlen d -> add_one (s ++ y :: sr) i (d ++ x :: dr) = Ok (d ++ add x y :: dr).
Proof. intros Hi Hs. unfold add_one. rewrite !vget_mid by lia. cbn [mbind outcome_bind]. by rewrite vset_mid. Qed.

(** One vector step of width [n] followed by the rest. *)
Lemma kernel_ok fuel N (d a dr s b sr : list T) i :
  i = zlen d -> zlen s = zlen d -> length a = N -> length b = N -> (N <= fuel)%nat ->
  sum_add_kernel fuel N (s ++ b ++ sr) i (d ++ a ++ dr) = Ok (d ++ zip_with add a b ++ dr).
Proof.
  revert N d a s b i. induction fuel as [|fuel IH]; intros N d a s b i Hi Hs Ha Hb Hf.
  { destruct N; [|lia]. by destruct a, b. }
  destruct N as [|N]; [by destruct a, b|].
  assert (Hsplit : forall k, (1 <= k <= S N)%nat -> add_lanes k (s ++ b ++ sr) i (d ++ a ++ dr) = Ok ((d ++ zip_with add (take k a) (take k b)) ++ drop k a ++ dr) ->
    (dst ← add_lanes k (s ++ b ++ sr) i (d ++ a ++ dr); sum_add_kernel fuel (S N - k) (s ++ b ++ sr) (i + Z.of_nat k) dst) = Ok (d ++ zip_with add a b ++ dr)).
  { intros k Hk ->. cbn [mbind outcome_bind]. rewrite <- (take_drop k b) at 1. rewrite <- app_assoc, (app_assoc s).
    rewrite (IH (S N - k)%nat (d ++ zip_with add (take k a) (take k b)) (drop k a) (s ++ take k b) (drop k b)).
    - rewrite <- app_assoc. do 2 f_equal. rewrite app_assoc, <- zip_with_app by (rewrite !length_take; lia). by rewrite !take_drop.
    - rewrite zlen_app. unfold zlen in *. rewrite length_zip_with, !length_take. lia.
    - rewrite !zlen_app. unfold zlen in *. rewrite length_zip_with, !length_take. lia.
    - rewrite length_drop. lia.
    - rewrite length_drop. lia.
    - lia. }
  assert (Hlanes : forall k, (1 <= k <= S N)%nat -> add_lanes k (s ++ b ++ sr) i (d ++ a ++ dr) = Ok ((d ++ zip_with add (take k a) (take k b)) ++ drop k a ++ dr)).
  { intros k Hk. rewrite <- (take_drop k b) at 1. rewrite <- (take_drop k a) at 1. rewrite <- !(app_assoc (take k _)).
    rewrite add_lanes_ok; [by rewrite <- app_assoc|done|done|rewrite length_take; lia|rewrite length_take; lia]. }
  cbn [sum_add_kernel]. destruct (Nat.leb_spec 8 (S N)); [by apply (Hsplit 8%nat); [lia|apply Hlanes; lia]|].
  destruct (Nat.leb_spec 4 (S N)); [by apply (Hsplit 4%nat); [lia|apply Hlanes; lia]|].
  destruct a as [|x a], b as [|y b]; try discriminate. cbn [app]. rewrite add_one_ok by done. cbn [mbind outcome_bind]. rewrite Nat.sub_1_r. cbn [Nat.pred].
  replace (s ++ y :: b ++ sr) with ((s ++ [y]) ++ b ++ sr) by (by rewrite <- app_assoc). replace (d ++ add x y :: a ++ dr) with ((d ++ [add x y]) ++ a ++ dr) by (by rewrite <- app_assoc).
  rewrite (IH N (d ++ [add x y]) a (s ++ [y]) b); [by rewrite <- app_assoc|unfold zlen in *; rewrite length_app; cbn; lia|unfold zlen in *; rewrite !length_app; cbn; lia|by injection Ha|by injection Hb|lia].
Qed.

Lemma sum_impl_ok (dst src : list T) k : length dst = length src -> (k <= length dst)%nat ->
  sum_impl src dst (Z.of_nat k) = Ok (zip_with add (take k dst) (take k src) ++ drop k dst).
Proof.
  intros Hl. unfold sum_impl. induction k as [|k IH]; intros Hk; [by rewrite for_range_empty|]. rewrite (for_range_split 0 (Z.of_nat k)) by lia. rewrite IH by lia. cbn [mbind outcome_bind].
  rewrite for_range_step by lia.
  destruct (lookup_lt_is_Some_2 dst k ltac:(lia)) as [x Hx]. destruct (lookup_lt_is_Some_2 src k ltac:(lia)) as [y Hy].
  rewrite (take_S_r _ _ _ Hx), (take_S_r _ _ _ Hy), (drop_S _ _ _ Hx). rewrite <- (take_drop_middle src k y Hy) at 1.
  rewrite add_one_ok; [|unfold zlen; rewrite length_zip_with, !length_take; lia|unfold zlen; rewrite length_zip_with, !length_take; lia].
  cbn [mbind outcome_bind]. rewrite for_range_empty by lia. rewrite zip_with_app by (rewrite !length_take; lia). by rewrite <- app_assoc.
Qed.
End Sum.

(** The vector kernel adds the first [block_size] entries, as the scalar loop does. *)
Theorem simd_kernel_is_scalar_sum {T} (add : T -> T -> T) (n : Z) (dst src : list T) :
  1 <= n <= 16 -> n <= zlen dst -> zlen src = zlen dst -> sum_kernel_n add n src dst = sum_impl add src dst n.
Proof.
  intros Hn Hd Hs. unfold sum_kernel_n. replace ((1 <=? n) && (n <=? 16)) with true by lia. unfold zlen in *.
  assert (E : sum_impl add src dst n = Ok (zip_with add (take (Z.to_nat n) dst) (take (Z.to_nat n) src) ++ drop (Z.to_nat n) dst)).
  { rewrite <- sum_impl_ok by lia. f_equal. lia. }
  rewrite E. rewrite <- (take_drop (Z.to_nat n) src) at 1. rewrite <- (take_drop (Z.to_nat n) dst) at 1.
  apply (kernel_ok add (Z.to_nat n) (Z.to_nat n) [] _ _ [] _ _ 0); [done|done|rewrite length_take; lia|rewrite length_take; lia|lia].
Qed.

(** [Sum<float>] of 32 entries adds the first 16 twice and the others not at all;
    of fewer than 16 it leaves the vectors. *)
Example sum_float_wrong :
  Sum_float Z.add (replicate 32 1) (replicate 32 1) = Ok (replicate 16 3 ++ replicate 16 1) /\
  Sum Z.add (replicate 32 1) (replicate 32 1) = Ok (replicate 32 2) /\
  Sum_float Z.add (replicate 5 1) (replicate 5 1) = Fault OutOfBounds.
Proof. repeat split. Qed.
