(* ===== verification/Singleton.v ===== *)
(** The double-checked singletons of cpp/examples/singleton.h and
    cpp/design_patterns/creational_patterns/singleton.h: any number of threads call
    [Instance].  Reads and writes of [instance_] are single steps in a sequentially
    consistent order (the source does not make [instance_] atomic). *)

From S2P Require Import Prelude.

(** Where a call stands: before the first test, before the lock, before the second
    test with the lock, before the assignment with the constructed object, before
    the unlock, before the return, returned with the pointer read. *)
Inductive pos := First | Lock | Second | Assign (object : Z) | Unlock | Return | Done (result : Z).

(** [constructed] counts the constructor calls; objects are numbered from 1. *)
Record singleton := MkSingleton { instance_ : Z; mutex : option nat; constructed : Z; calls : list pos }.

Definition new_singleton (threads : nat) : singleton := MkSingleton 0 None 0 (replicate threads First).

Definition go (i : nat) (p : pos) (s : singleton) : singleton := MkSingleton (instance_ s) (mutex s) (constructed s) (<[i := p]> (calls s)).

(** The next step of call [i]; a taken lock blocks. *)
Definition instance_step (i : nat) (s : singleton) : option singleton :=
  match calls s !! i with
  | Some First => Some (go i (if instance_ s =? 0 then Lock else Return) s)
  | Some Lock => match mutex s with None => Some (MkSingleton (instance_ s) (Some i) (constructed s) (<[i := Second]> (calls s))) | Some _ => None end
  | Some Second =>
      if instance_ s =? 0 then Some (MkSingleton (instance_ s) (mutex s) (constructed s + 1) (<[i := Assign (constructed s + 1)]> (calls s)))
      else Some (go i Unlock s)
  | Some (Assign o) => Some (MkSingleton o (mutex s) (constructed s) (<[i := Unlock]> (calls s)))
  | Some Unlock => Some (MkSingleton (instance_ s) None (constructed s) (<[i := Return]> (calls s)))
  | Some Return => Some (go i (Done (instance_ s)) s)
  | _ => None
  end.

Fixpoint instance_run (sched : list nat) (s : singleton) : option singleton :=
  match sched with [] => Some s | i :: sched => match instance_step i s with Some s => instance_run sched s | None => None end end.

(** Inside the critical section. *)
Definition inside (p : pos) : bool := match p with Second | Assign _ | Unlock => true | _ => false end.

Record single_inv (s : singleton) : Prop := {
  s_count : (instance_ s = 0 /\ constructed s = 0) \/ (instance_ s = 0 /\ constructed s = 1 /\ exists i, mutex s = Some i /\ calls s !! i = Some (Assign 1)) \/ (instance_ s = 1 /\ constructed s = 1);
  s_mutex : forall i p, calls s !! i = Some p -> inside p = true -> mutex s = Some i;
  s_assign : forall i o, calls s !! i = Some (Assign o) -> o = 1 /\ instance_ s = 0 /\ constructed s = 1;
  s_set : forall i p, calls s !! i = Some p -> (p = Unlock \/ p = Return \/ exists r, p = Done r) -> instance_ s = 1;
  s_done : forall i r, calls s !! i = Some (Done r) -> r = 1;
  s_owner : forall i, mutex s = Some i -> exists p, calls s !! i = Some p /\ inside p = true }.

Lemma single_inv_new n : single_inv (new_singleton n).
Proof.
  assert (Hr : forall i p, replicate n First !! i = Some p -> p = First) by (by intros i p [-> _]%lookup_replicate).
  split; cbn; try done; [by left|..]; intros i p Hi; apply Hr in Hi; try done; subst; [done|]. by intros [?|[?|[? ?]]].
Qed.

Ltac at_call i k H := destruct (decide (k = i)) as [->|]; [rewrite list_lookup_insert_eq in H by (by eapply lookup_lt_Some)|rewrite list_lookup_insert_ne in H by done].

Lemma single_inv_step i s s' : single_inv s -> instance_step i s = Some s' -> single_inv s'.
Proof.
  intros [Hc Hm Ha Hs Hd Ho] E. unfold instance_step in E. destruct (calls s !! i) as [p|] eqn:Ei; [|done].
  assert (Hne : forall j q x, calls s !! j = Some q -> q <> p -> <[i := x]> (calls s) !! j = Some q) by (intros j q x Hj Hq; rewrite list_lookup_insert_ne; [done|]; intros ->; congruence).
  assert (Hlt : (i < length (calls s))%nat) by (by eapply lookup_lt_Some).
  destruct p as [| | |o| | |r]; [| | | | | |done].
  - simplify_eq. unfold go. assert (Hx : forall x, (x = Lock \/ x = Return /\ instance_ s = 1) -> single_inv (MkSingleton (instance_ s) (mutex s) (constructed s) (<[i := x]> (calls s)))).
    { intros x Hx. split; cbn.
      - destruct Hc as [?|[(? & ? & j & Hj & Hp)|?]]; [by left| |by right; right]. right; left. split; [done|]. split; [done|]. exists j. split; [done|]. by apply Hne.
      - intros k q Hk Hq. at_call i k Hk; [injection Hk as <-; by destruct Hx as [->|[-> _]]|by eapply Hm].
      - intros k q Hk. at_call i k Hk; [injection Hk as Hk; destruct Hx as [->|[-> _]]; done|by eapply Ha].
      - intros k q Hk Hq. at_call i k Hk; [injection Hk as <-; destruct Hx as [->|[-> ?]]; [|done]; by destruct Hq as [?|[?|[? ?]]]|by eapply Hs].
      - intros k q Hk. at_call i k Hk; [injection Hk as Hk; destruct Hx as [->|[-> _]]; done|by eapply Hd].
      - intros k Hk. destruct (Ho k Hk) as (q & Hq & Hi). exists q. split; [|done]. apply Hne; [done|]. by intros ->. }
    apply Hx. destruct (Z.eqb_spec (instance_ s) 0); [by left|]. right. split; [done|]. lia.
  - destruct (mutex s) as [j|] eqn:Em; [done|]. simplify_eq.
    assert (Hno : forall k q, calls s !! k = Some q -> inside q = false) by (intros k q Hk; destruct (inside q) eqn:Eq; [|done]; by specialize (Hm k q Hk Eq)).
    split; cbn.
    + destruct Hc as [?|[(? & ? & j & Hj & Hp)|?]]; [by left|done|by right; right].
    + intros k q Hk Hq. at_call i k Hk; [done|]. by rewrite (Hno k q Hk) in Hq.
    + intros k q Hk. at_call i k Hk; [done|by eapply Ha].
    + intros k q Hk Hq. at_call i k Hk; [injection Hk as <-; by destruct Hq as [?|[?|[? ?]]]|by eapply Hs].
    + intros k q Hk. at_call i k Hk; [done|by eapply Hd].
    + intros k [= <-]. exists Second. by rewrite list_lookup_insert_eq.
  - pose proof (Hm i Second Ei eq_refl) as Hmi. assert (Honly : forall k q, calls s !! k = Some q -> inside q = true -> k = i) by (intros k q Hk Hq; specialize (Hm k q Hk Hq); congruence).
    destruct (Z.eqb_spec (instance_ s) 0) as [E0|E0]; simplify_eq.
    + assert (Ec : constructed s = 0) by (destruct Hc as [[_ ?]|[(_ & _ & j & Hj & Hp)|[? _]]]; [done| |lia]; assert (j = i) as -> by congruence; congruence).
      rewrite Ec. split; cbn.
      * right; left. split; [done|]. split; [done|]. exists i. split; [done|]. by rewrite list_lookup_insert_eq.
      * intros k q Hk Hq. at_call i k Hk; [done|by eapply Hm].
      * intros k q Hk. at_call i k Hk; [by injection Hk as <-|]. by destruct (Honly k (Assign q) Hk eq_refl).
      * intros k q Hk Hq. at_call i k Hk; [injection Hk as <-; by destruct Hq as [?|[?|[? ?]]]|]. specialize (Hs k q Hk Hq). lia.
      * intros k q Hk. at_call i k Hk; [done|by eapply Hd].
      * intros k Hk. assert (k = i) as -> by congruence. exists (Assign 1). by rewrite list_lookup_insert_eq.
    + assert (E1 : instance_ s = 1) by lia. unfold go. split; cbn.
      * right; right. lia.
      * intros k q Hk Hq. at_call i k Hk; [done|by eapply Hm].
      * intros k q Hk. at_call i k Hk; [done|by eapply Ha].
      * done.
      * intros k q Hk. at_call i k Hk; [done|by eapply Hd].
      * intros k Hk. assert (k = i) as -> by congruence. exists Unlock. by rewrite list_lookup_insert_eq.
  - pose proof (Hm i (Assign o) Ei eq_refl) as Hmi. destruct (Ha i o Ei) as (-> & E0 & Ec). simplify_eq.
    assert (Honly : forall k q, calls s !! k = Some q -> inside q = true -> k = i) by (intros k q Hk Hq; specialize (Hm k q Hk Hq); congruence).
    split; cbn.
    + right; right. done.
    + intros k q Hk Hq. at_call i k Hk; [done|by eapply Hm].
    + intros k q Hk. at_call i k Hk; [done|]. by destruct (Honly k (Assign q) Hk eq_refl).
    + done.
    + intros k q Hk. at_call i k Hk; [done|by eapply Hd].
    + intros k Hk. assert (k = i) as -> by congruence. exists Unlock. by rewrite list_lookup_insert_eq.
  - pose proof (Hm i Unlock Ei eq_refl) as Hmi. assert (E1 : instance_ s = 1) by (apply (Hs i Unlock Ei); by left). simplify_eq.
    assert (Honly : forall k q, calls s !! k = Some q -> inside q = true -> k = i) by (intros k q Hk Hq; specialize (Hm k q Hk Hq); congruence).
    split; cbn.
    + destruct Hc as [?|[(? & ? & j & Hj & Hp)|?]]; [lia|lia|by right; right].
    + intros k q Hk Hq. at_call i k Hk; [by injection Hk as <-|]. by destruct (Honly k q Hk Hq).
    + intros k q Hk. at_call i k Hk; [done|by eapply Ha].
    + done.
    + intros k q Hk. at_call i k Hk; [done|by eapply Hd].
    + done.
  - assert (E1 : instance_ s = 1) by (apply (Hs i Return Ei); by right; left). simplify_eq. unfold go. split; cbn.
    + destruct Hc as [?|[(? & ? & j & Hj & Hp)|?]]; [lia|lia|by right; right].
    + intros k q Hk Hq. at_call i k Hk; [by injection Hk as <-|by eapply Hm].
    + intros k q Hk. at_call i k Hk; [done|by eapply Ha].
    + done.
    + intros k q Hk. at_call i k Hk; [by injection Hk as <-|by eapply Hd].
    + intros k Hk. destruct (Ho k Hk) as (q & Hq & Hi). exists q. split; [|done]. apply Hne; [done|]. by intros ->.
Qed.

Lemma single_inv_run sched s s' : single_inv s -> instance_run sched s = Some s' -> single_inv s'.
Proof.
  revert s. induction sched as [|i sched IH]; intros s Hs E; cbn in E; [by injection E as <-|].
  destruct (instance_step i s) as [s1|] eqn:E1; [|done]. eapply IH; [|exact E]. by eapply single_inv_step.
Qed.

(** Whatever the interleaving, the constructor runs at most once and every call
    returns the one object; a state without further steps has no waiting call. *)
Theorem singleton_unique n sched s :
  instance_run sched (new_singleton n) = Some s ->
  constructed s <= 1 /\ (forall i r, calls s !! i = Some (Done r) -> r = 1 /\ instance_ s = 1 /\ constructed s = 1) /\
  ((forall i, instance_step i s = None) -> Forall (fun p => p = Done 1) (calls s)).
Proof.
  intros Hr. pose proof (single_inv_run _ _ _ (single_inv_new n) Hr) as [Hc Hm Ha Hs Hd Ho]. split; [destruct Hc as [?|[(_ & ? & _)|?]]; lia|]. split.
  - intros i r Hi. pose proof (Hs i (Done r) Hi ltac:(right; right; by eexists)) as E1. split; [by eapply Hd|]. split; [done|]. destruct Hc as [?|[(? & _)|?]]; lia.
  - intros Hst. assert (Hfree : forall i p, calls s !! i = Some p -> (p = Lock /\ mutex s <> None) \/ exists r, p = Done r).
    { intros i p Hi. specialize (Hst i). unfold instance_step in Hst. rewrite Hi in Hst. destruct p; try done; [|by destruct (instance_ s =? 0)|right; by eexists]. left. by destruct (mutex s). }
    apply list.Forall_forall. intros p [i Hi]%list_elem_of_lookup. destruct (Hfree i p Hi) as [[_ Hmu]|[r ->]]; [|by rewrite (Hd i r Hi)]. exfalso.
    destruct (mutex s) as [j|]; [|done]. destruct (Ho j eq_refl) as (q & Hq & Hin). destruct (Hfree j q Hq) as [[-> _]|[r ->]]; done.
Qed.

Example singleton_race : (instance_ <$> instance_run [0; 1; 0; 0; 0; 0; 1; 1; 1; 1; 0]%nat (new_singleton 2)) = Some 1.
Proof. reflexivity. Qed.
