(* ===== verification/Scheduler.v ===== *)
(** The parts of function_schduler.h that have a body - the scheduled function
    [RepeatFunc] with its next run time and the order of the heap - and the stopwatch
    of timer.h.

    A time point of the steady clock is a number of nanoseconds in 64 bits.  The
    functors of a scheduled function may have state (a random generator, say); this
    state is the [World] that they take and return.  The member functions that
    function_schduler.h only declares are not in the repository. *)

From S2P Require Import Prelude.
Local Open Scope Z_scope.

(** * Scheduled functions *)

Section RepeatFunc.
Context {World Callback : Type}.

(** [time_point + microseconds] *)
Definition after_us (tp us : Z) : Z := s64 (tp + s64 (us * 1000)).

Definition IntervalDistributionFunc : Type := World -> Z * World.
Definition NextRunTimeFunc : Type := Z -> Z -> World -> Z * World.

Record RepeatFunc := MkRepeatFunc {
  cb : option Callback;
  nextRunTimeFunc : NextRunTimeFunc;
  nextRunTime : Z;
  name : list Z;
  startDelay : Z;
  intervalDescr : list Z;
  runOnce : bool
}.

Definition getNextRunTimeFunc (intervalFn : IntervalDistributionFunc) : NextRunTimeFunc :=
  fun _ curTime w => let (i, w) := intervalFn w in (after_us curTime i, w).

(** The constructor with a functor for the next run time. *)
Definition new_RepeatFunc (cback : option Callback) (nextRunTimeFn : NextRunTimeFunc) (nameID descr : list Z)
  (delay : Z) (once : bool) : RepeatFunc :=
  MkRepeatFunc cback nextRunTimeFn 0 nameID delay descr once.

(** The constructor with a functor for the interval. *)
Definition new_interval (cback : option Callback) (intervalFn : IntervalDistributionFunc) (nameID descr : list Z)
  (delay : Z) (once : bool) : RepeatFunc :=
  new_RepeatFunc cback (getNextRunTimeFunc intervalFn) nameID descr delay once.

Definition getNextRunTime (f : RepeatFunc) : Z := nextRunTime f.

Definition set_time (f : RepeatFunc) (x : Z) : RepeatFunc :=
  MkRepeatFunc (cb f) (nextRunTimeFunc f) x (name f) (startDelay f) (intervalDescr f) (runOnce f).

Definition setNextRunTimeStrict (curTime : Z) (f : RepeatFunc) (w : World) : RepeatFunc * World :=
  let (x, w) := nextRunTimeFunc f (nextRunTime f) curTime w in (set_time f x, w).

Definition setNextRunTimeSteady (f : RepeatFunc) (w : World) : RepeatFunc * World :=
  let (x, w) := nextRunTimeFunc f (nextRunTime f) (nextRunTime f) w in (set_time f x, w).

Definition resetNextRunTime (curTime : Z) (f : RepeatFunc) : RepeatFunc :=
  set_time f (after_us curTime (startDelay f)).

Definition cancel (f : RepeatFunc) : RepeatFunc :=
  MkRepeatFunc None (nextRunTimeFunc f) (nextRunTime f) (name f) (startDelay f) (intervalDescr f) (runOnce f).

Definition isValid (f : RepeatFunc) : bool := match cb f with Some _ => true | None => false end.

(** The order of the heap. *)
Definition RunTimeOrder (f1 f2 : RepeatFunc) : bool := getNextRunTime f1 >? getNextRunTime f2.

(** ** Schedules *)

(** [n] runs in a steady scheduler, and a run at each of the times [cs] in one that
    is not. *)
Fixpoint steady_runs (n : nat) (f : RepeatFunc) (w : World) : RepeatFunc * World :=
  match n with O => (f, w) | S n => let (f, w) := setNextRunTimeSteady f w in steady_runs n f w end.

Fixpoint strict_runs (cs : list Z) (f : RepeatFunc) (w : World) : RepeatFunc * World :=
  match cs with [] => (f, w) | c :: cs => let (f, w) := setNextRunTimeStrict c f w in strict_runs cs f w end.

Lemma after_us_small tp us : 0 <= us -> 0 <= tp -> tp + us * 1000 < 2 ^ 63 -> after_us tp us = tp + us * 1000.
Proof. intros Hu Ht Hb. unfold after_us. rewrite !s64_id; rewrite ?s64_id; lia. Qed.

Section Intervals.
Context (interval : IntervalDistributionFunc) (lo hi : Z).
(** The interval functor stays between two bounds. *)
Hypothesis Hinterval : forall w, lo <= (interval w).1 <= hi.
Hypothesis Hlo : 0 <= lo.

Lemma steady_step f w :
  nextRunTimeFunc f = getNextRunTimeFunc interval -> 0 <= nextRunTime f -> nextRunTime f + hi * 1000 < 2 ^ 63 ->
  exists i w', lo <= i <= hi /\ setNextRunTimeSteady f w = (set_time f (nextRunTime f + i * 1000), w').
Proof.
  intros Hf H0 Hb. unfold setNextRunTimeSteady. rewrite Hf. unfold getNextRunTimeFunc.
  pose proof (Hinterval w) as Hi. destruct (interval w) as [i w']. cbn [fst] in Hi. exists i, w'. split; [done|].
  by rewrite after_us_small by lia.
Qed.

Lemma steady_runs_between n f w :
  nextRunTimeFunc f = getNextRunTimeFunc interval -> 0 <= nextRunTime f ->
  nextRunTime f + Z.of_nat n * hi * 1000 < 2 ^ 63 ->
  nextRunTime f + Z.of_nat n * lo * 1000 <= nextRunTime (steady_runs n f w).1 <= nextRunTime f + Z.of_nat n * hi * 1000.
Proof.
  revert f w. induction n as [|n IH]; intros f w Hf H0 Hb; [cbn; lia|].
  assert (Hhi : lo <= hi) by (pose proof (Hinterval w); lia).
  destruct (steady_step f w Hf H0) as (i & w' & Hi & E); [nia|]. cbn [steady_runs]. rewrite E.
  specialize (IH (set_time f (nextRunTime f + i * 1000)) w' Hf). cbn [nextRunTime set_time] in IH. nia.
Qed.

(** A steady scheduler does not drift: after a reset at time [t0] the run [n] is due
    between [n] shortest and [n] longest intervals after the start delay, however late
    the runs before it were. *)
Theorem steady_schedule cback nameID descr delay once t0 n w :
  0 <= t0 -> 0 <= delay -> t0 + (delay + Z.of_nat n * hi) * 1000 < 2 ^ 63 ->
  let f := resetNextRunTime t0 (new_interval cback interval nameID descr delay once) in
  t0 + (delay + Z.of_nat n * lo) * 1000 <= getNextRunTime (steady_runs n f w).1 <= t0 + (delay + Z.of_nat n * hi) * 1000.
Proof.
  intros H0 Hd Hb f. assert (Hhi : lo <= hi) by (pose proof (Hinterval w); lia).
  assert (Ef : nextRunTime f = t0 + delay * 1000) by (apply after_us_small; [done|done|nia]).
  pose proof (steady_runs_between n f w eq_refl) as H. rewrite Ef in H. unfold getNextRunTime. lia.
Qed.

(** Without the steady flag only the time of the last run counts: its lateness is
    carried over to the next run. *)
Theorem strict_schedule cback nameID descr delay once t0 cs c w :
  0 <= c -> c + hi * 1000 < 2 ^ 63 ->
  let f := resetNextRunTime t0 (new_interval cback interval nameID descr delay once) in
  c + lo * 1000 <= getNextRunTime (strict_runs (cs ++ [c]) f w).1 <= c + hi * 1000.
Proof.
  intros H0 Hb f. assert (Hf : nextRunTimeFunc f = getNextRunTimeFunc interval) by done.
  clearbody f. revert f w Hf. induction cs as [|d cs IH]; intros f w Hf; cbn [app strict_runs]; unfold setNextRunTimeStrict;
    rewrite Hf; unfold getNextRunTimeFunc; pose proof (Hinterval w) as Hi; destruct (interval w) as [i w']; cbn [fst] in Hi.
  - cbn. rewrite after_us_small; lia.
  - by apply IH.
Qed.
End Intervals.

(** A run on time schedules alike in both modes. *)
Lemma strict_on_time f w : setNextRunTimeStrict (nextRunTime f) f w = setNextRunTimeSteady f w.
Proof. done. Qed.

(** Cancelling makes a function invalid; updates of the time and resets do not
    revive it. *)
Lemma cancel_final n f w t0 :
  isValid (steady_runs n (resetNextRunTime t0 (cancel f)) w).1 = false.
Proof.
  assert (H : isValid (resetNextRunTime t0 (cancel f)) = false) by done. revert H.
  generalize (resetNextRunTime t0 (cancel f)) as g. revert w. induction n as [|n IH]; intros w g Hg; cbn [steady_runs]; [done|].
  unfold setNextRunTimeSteady. destruct (nextRunTimeFunc g _ _ w) as [x w']. by apply IH.
Qed.

(** [RunTimeOrder] is a strict weak order, as the heap functions of the library
    demand, and the function on top of the heap is one that is due first. *)
Lemma RunTimeOrder_strict_weak :
  (forall f, RunTimeOrder f f = false) /\
  (forall f g k, RunTimeOrder f g = true -> RunTimeOrder g k = true -> RunTimeOrder f k = true) /\
  (forall f g k, RunTimeOrder f g = false -> RunTimeOrder g k = false -> RunTimeOrder f k = false) /\
  (forall top g, RunTimeOrder top g = false <-> getNextRunTime top <= getNextRunTime g).
Proof. unfold RunTimeOrder. repeat split; intros; lia. Qed.
End RepeatFunc.

(** * The stopwatch *)

Record timer := MkTimer { start_ : Z }.

(** [now] is the reading of the clock in the call. *)
Definition new_timer (now : Z) : timer := MkTimer now.
Definition start (now : Z) (_ : timer) : timer := MkTimer now.

(** [duration_cast] divides and drops the fraction. *)
Definition elapsed (unit now : Z) (c : timer) : Z := u64 (Z.quot (s64 (now - start_ c)) unit).

Definition ns (now : Z) (c : timer) : Z := elapsed 1 now c.
Definition us (now : Z) (c : timer) : Z := elapsed 1000 now c.
Definition ms (now : Z) (c : timer) : Z := elapsed 1000000 now c.
Definition s (now : Z) (c : timer) : Z := elapsed 1000000000 now c.

Lemma elapsed_div unit now c :
  0 < unit -> 0 <= start_ c <= now -> now < 2 ^ 63 -> elapsed unit now c = (now - start_ c) / unit.
Proof.
  intros Hu Hs Hn. unfold elapsed. rewrite s64_id by lia. rewrite Z.quot_div_nonneg by lia. apply u64_id.
  pose proof (Z.div_le_upper_bound (now - start_ c) unit (now - start_ c) Hu). pose proof (Z.div_pos (now - start_ c) unit).
  unfold is_u64. nia.
Qed.

(** On a clock that does not run backwards the four readings are the same time, each
    rounded down to its unit. *)
Theorem timer_units now c :
  0 <= start_ c <= now -> now < 2 ^ 63 ->
  ns now c = now - start_ c /\ us now c = ns now c / 1000 /\ ms now c = us now c / 1000 /\ s now c = ms now c / 1000.
Proof.
  intros Hs Hn. unfold ns, us, ms, s. rewrite !elapsed_div by lia. rewrite Z.div_1_r, !Z.div_div by lia. done.
Qed.

Example timer_sample : (s 5999999999 (new_timer 1000), ms 5999999999 (new_timer 1000)) = (5, 5999).
Proof. reflexivity. Qed.

(** A function every five microseconds that starts after seven. *)
Example schedule_sample :
  let f := resetNextRunTime 100 (new_interval (Callback := unit) (Some tt) (fun w : unit => (5, w)) [] [] 7 false) in
  (getNextRunTime (steady_runs 3 f tt).1, getNextRunTime (strict_runs [8000; 13500; 18900] f tt).1, isValid (cancel f)) = (22100, 23900, false).
Proof. reflexivity. Qed.
