(* ===== verification/Reactor.v ===== *)
(** The reactor server (src/reactor): handlers of sockets, the demultiplexer over
    epoll, and the closures that the worker threads run.

    The operating system is a class [Kernel] of the calls the program makes.
    Handlers are shared objects, addressed by an identity; [~Handler] runs when the
    last [shared_ptr] goes, which are those in [fd_to_handler_], in the closures
    queued in the thread pool, and the local ones of the running threads ([held]).

    The event loop and the closures are programs of atomic actions, one for each
    access to an object that threads share and for each system call; a schedule
    interleaves the actions of the loop and of any number of workers in any order.
    The mutex of a handler is held as in the code.  One action are: the successive
    calls of [read] for a message, and the loop with which a worker moves the
    requests to the responses (it holds the mutex, and a request that [Read] appends
    meanwhile is as if it had been appended before or after the loop). *)

From stdpp Require Export gmap.
From S2P Require Import Prelude.

(** * The system calls *)

Inductive ctl := EPOLL_CTL_ADD | EPOLL_CTL_MOD | EPOLL_CTL_DEL.

(** One [read]: data, or a result [<= 0] with the value that [errno] has then; a
    result 0 leaves [errno] as it was. *)
Inductive read_result := Data (bytes : list Z) | End (errno : Z) | Failed (errno : Z).

Class Kernel (K : Type) := {
  epoll_ctl : ctl -> Z -> Z -> K -> bool * K;           (* whether it returned 0 *)
  epoll_wait : Z -> K -> option (list (Z * Z)) * K;      (* maxevents; (fd, events), or -1 *)
  close : Z -> K -> K;
  accept : Z -> K -> Z * list Z * K;                     (* fd or -1, address as text *)
  fcntl_getfl : Z -> K -> Z * K;                         (* F_GETFL: flags or -1 *)
  fcntl_setfl : Z -> Z -> K -> bool * K;                 (* F_SETFL: whether it succeeded *)
  read : Z -> K -> list read_result * K }.               (* the results of successive calls *)

Definition EPOLLIN : Z := 1.
Definition EPOLLOUT : Z := 4.
Definition EPOLLERR : Z := 8.
Definition EPOLLRDHUP : Z := 8192.
Definition EPOLLET : Z := 2 ^ 31.
Definition EINTR : Z := 4.
Definition EAGAIN : Z := 11.
Definition O_NONBLOCK : Z := 2048.

(** * Handlers *)

Inductive EventType := kAccept | kRead | kWrite | kError.

#[export] Instance EventType_eq_dec : EqDecision EventType.
Proof. solve_decision. Defined.

Record Handler := MkHandler {
  fd_ : Z; address_ : list Z; event_type_ : EventType; registered_ : bool;
  buffer_ : list Z; request_q_ : list (list Z); response_q_ : list (list Z) }.

Definition new_handler (fd : Z) (t : EventType) (address : list Z) : Handler := MkHandler fd address t false [] [] [].

Definition with_type (t : EventType) (n : Handler) : Handler := MkHandler (fd_ n) (address_ n) t (registered_ n) (buffer_ n) (request_q_ n) (response_q_ n).
Definition with_registered (b : bool) (n : Handler) : Handler := MkHandler (fd_ n) (address_ n) (event_type_ n) b (buffer_ n) (request_q_ n) (response_q_ n).
Definition with_queues (req resp : list (list Z)) (n : Handler) : Handler := MkHandler (fd_ n) (address_ n) (event_type_ n) (registered_ n) (buffer_ n) req resp.

(** * The state of the server *)

(** [handlers]: the live handlers; [events_size]: the length of the vector [events]
    of the event loop; [ready]: its entries not yet handled; [tasks]: the handlers of
    the queued closures; [held]: those of the local [shared_ptr]s of all threads;
    [locked]: the handlers whose [mutex_] is held. *)
Record reactor (K : Type) := MkReactor {
  kernel : K; handlers : gmap Z Handler; next_id : Z;
  server_fd_ : Z; acceptor_ : bool; epoll_event_count_ : Z; fd_to_handler_ : gmap Z Z;
  events_size : Z; ready : list (Z * Z); tasks : list Z; held : list Z; locked : list Z }.
Arguments MkReactor {K} _ _ _ _ _ _ _ _ _ _ _ _.
Arguments kernel {K} _.
Arguments handlers {K} _.
Arguments next_id {K} _.
Arguments server_fd_ {K} _.
Arguments acceptor_ {K} _.
Arguments epoll_event_count_ {K} _.
Arguments fd_to_handler_ {K} _.
Arguments events_size {K} _.
Arguments ready {K} _.
Arguments tasks {K} _.
Arguments held {K} _.
Arguments locked {K} _.

(** What ends a run: a failed CHECK of a system call, the failed CHECK that a ready
    descriptor has a handler, an access to a destroyed handler, [front] of an empty
    queue, more events than the vector [events] holds, an unterminated read buffer,
    reading that never ends. *)
Inductive failure := SyscallCheck | NoHandler | Dangling | EmptyQueue | EventsOverflow | Unterminated | Endless.

Inductive result (A : Type) := Done (a : A) | Fail (e : failure).
Arguments Done {A} _.
Arguments Fail {A} _.

(** An atomic action. *)
Definition R (K A : Type) : Type := reactor K -> result (A * reactor K).
#[export] Instance R_ret K : MRet (R K) := fun _ a s => Done (a, s).
#[export] Instance R_bind K : MBind (R K) := fun _ _ k m s => match m s with Done (a, s') => k a s' | Fail e => Fail e end.

(** The program of a thread: an action and what follows, or waiting for the mutex of
    a handler. *)
Inductive prog (K A : Type) : Type :=
| Ret (a : A)
| Act {B : Type} (m : R K B) (k : B -> prog K A)
| Lock (h : Z) (k : prog K A).
Arguments Ret {K A} _.
Arguments Act {K A B} _ _.
Arguments Lock {K A} _ _.

#[export] Instance prog_ret K : MRet (prog K) := fun _ a => Ret a.
#[export] Instance prog_bind K : MBind (prog K) := fun A B f =>
  fix bind (p : prog K A) : prog K B :=
    match p with Ret a => f a | Act m k => Act m (fun b => bind (k b)) | Lock h k => Lock h (bind k) end.

Section Server.
Context {K : Type} `{Kernel K}.

Definition atomic {A} (m : R K A) : prog K A := Act m Ret.

Definition fail {A} (e : failure) : R K A := fun _ => Fail e.
Definition get {A} (f : reactor K -> A) : R K A := fun s => Done (f s, s).
Definition modify (f : reactor K -> reactor K) : R K unit := fun s => Done (tt, f s).

(** [CHECK(b)] *)
Definition check (b : bool) : prog K unit := if b then mret tt else atomic (fail SyscallCheck).

Definition set_kernel (k : K) (s : reactor K) : reactor K := MkReactor k (handlers s) (next_id s) (server_fd_ s) (acceptor_ s) (epoll_event_count_ s) (fd_to_handler_ s) (events_size s) (ready s) (tasks s) (held s) (locked s).
Definition set_handlers (m : gmap Z Handler) (s : reactor K) : reactor K := MkReactor (kernel s) m (next_id s) (server_fd_ s) (acceptor_ s) (epoll_event_count_ s) (fd_to_handler_ s) (events_size s) (ready s) (tasks s) (held s) (locked s).
Definition set_map (m : gmap Z Z) (s : reactor K) : reactor K := MkReactor (kernel s) (handlers s) (next_id s) (server_fd_ s) (acceptor_ s) (epoll_event_count_ s) m (events_size s) (ready s) (tasks s) (held s) (locked s).
Definition set_count (c : Z) (s : reactor K) : reactor K := MkReactor (kernel s) (handlers s) (next_id s) (server_fd_ s) (acceptor_ s) c (fd_to_handler_ s) (events_size s) (ready s) (tasks s) (held s) (locked s).
Definition set_tasks (l : list Z) (s : reactor K) : reactor K := MkReactor (kernel s) (handlers s) (next_id s) (server_fd_ s) (acceptor_ s) (epoll_event_count_ s) (fd_to_handler_ s) (events_size s) (ready s) l (held s) (locked s).
Definition set_ready (l : list (Z * Z)) (s : reactor K) : reactor K := MkReactor (kernel s) (handlers s) (next_id s) (server_fd_ s) (acceptor_ s) (epoll_event_count_ s) (fd_to_handler_ s) (events_size s) l (tasks s) (held s) (locked s).
Definition set_server (fd : Z) (s : reactor K) : reactor K := MkReactor (kernel s) (handlers s) (next_id s) fd (acceptor_ s) (epoll_event_count_ s) (fd_to_handler_ s) (events_size s) (ready s) (tasks s) (held s) (locked s).
Definition set_acceptor (s : reactor K) : reactor K := MkReactor (kernel s) (handlers s) (next_id s) (server_fd_ s) true (epoll_event_count_ s) (fd_to_handler_ s) (events_size s) (ready s) (tasks s) (held s) (locked s).
Definition set_held (l : list Z) (s : reactor K) : reactor K := MkReactor (kernel s) (handlers s) (next_id s) (server_fd_ s) (acceptor_ s) (epoll_event_count_ s) (fd_to_handler_ s) (events_size s) (ready s) (tasks s) l (locked s).
Definition set_locked (l : list Z) (s : reactor K) : reactor K := MkReactor (kernel s) (handlers s) (next_id s) (server_fd_ s) (acceptor_ s) (epoll_event_count_ s) (fd_to_handler_ s) (events_size s) (ready s) (tasks s) (held s) l.
Definition set_events (n : Z) (s : reactor K) : reactor K := MkReactor (kernel s) (handlers s) (next_id s) (server_fd_ s) (acceptor_ s) (epoll_event_count_ s) (fd_to_handler_ s) n (ready s) (tasks s) (held s) (locked s).

(** A call of the kernel. *)
Definition syscall {A} (f : K -> A * K) : R K A := fun s => let '(a, k) := f (kernel s) in Done (a, set_kernel k s).

Definition handler (h : Z) : R K Handler := fun s => match handlers s !! h with Some n => Done (n, s) | None => Fail Dangling end.
Definition change (h : Z) (f : Handler -> Handler) : R K unit := n ← handler h; modify (fun s => set_handlers (<[h := f n]> (handlers s)) s).
Definition SetType (h : Z) (t : EventType) : R K unit := change h (with_type t).

(** ** Shared pointers *)

(** Whether a [shared_ptr] to [h] is stored somewhere. *)
Definition referenced (h : Z) (s : reactor K) : bool :=
  existsb (fun x => x =? h) (held s) || existsb (fun p => p.2 =? h) (map_to_list (fd_to_handler_ s)) || existsb (fun x => x =? h) (tasks s).

(** A [shared_ptr] to [h] is gone: after the last one [~Handler] closes the file
    descriptor. *)
Definition collect (h : Z) : R K unit := fun s =>
  match handlers s !! h with
  | Some n => if referenced h s then Done (tt, s) else Done (tt, set_handlers (delete h (handlers s)) (set_kernel (close (fd_ n) (kernel s)) s))
  | None => Done (tt, s)
  end.

(** A local [shared_ptr] begins and ends. *)
Fixpoint remove_one (h : Z) (l : list Z) : list Z := match l with [] => [] | x :: l => if x =? h then l else x :: remove_one h l end.

Definition ref (h : Z) : R K unit := modify (fun s => set_held (h :: held s) s).
Definition unref (h : Z) : R K unit := modify (fun s => set_held (remove_one h (held s)) s);; collect h.

(** [std::make_shared<Handler>(...)] into a local variable. *)
Definition make_handler (n : Handler) : R K Z := fun s =>
  let h := next_id s in
  Done (h, set_held (h :: held s)
             (MkReactor (kernel s) (<[h := n]> (handlers s)) (h + 1) (server_fd_ s) (acceptor_ s) (epoll_event_count_ s)
                (fd_to_handler_ s) (events_size s) (ready s) (tasks s) (held s) (locked s))).

Definition unlock (h : Z) : R K unit := modify (fun s => set_locked (remove_one h (locked s)) s).

(** * The demultiplexer *)

Definition nullptr : Z := 0.

Definition event_mask (t : EventType) : Z :=
  Z.lor (Z.lor EPOLLRDHUP EPOLLET) (match t with kAccept | kRead => EPOLLIN | kWrite => EPOLLOUT | kError => 0 end).

(** [fd_to_handler_[fd] = h] and [fd_to_handler_.erase(fd)]: the old pointer ends. *)
Definition assign (fd h : Z) : R K unit :=
  m ← get fd_to_handler_;
  modify (set_map (<[fd := h]> m));;
  match m !! fd with Some old => collect old | None => mret tt end.

Definition erase (fd : Z) : R K unit :=
  m ← get fd_to_handler_;
  modify (set_map (delete fd m));;
  match m !! fd with Some old => collect old | None => mret tt end.

(** [epoll_event_count_ += d], a load and a store. *)
Definition add_count (d : Z) : prog K unit :=
  c ← atomic (get epoll_event_count_);
  atomic (modify (set_count (c + d))).

Definition RegisterEventHandler (h : Z) : prog K Z :=
  if h =? nullptr then mret (-1)
  else
    n ← atomic (handler h);
    (match event_type_ n with kAccept => atomic (modify (set_server (fd_ n))) | _ => mret tt end);;
    m ← atomic (handler h);
    let op := if registered_ m then EPOLL_CTL_MOD else EPOLL_CTL_ADD in
    ok ← atomic (syscall (epoll_ctl op (fd_ n) (event_mask (event_type_ n))));
    if negb ok then mret (-1)
    else
      add_count 1;;
      atomic (change h (with_registered true));;
      atomic (assign (fd_ n) h);;
      mret 0.

Definition ClearEventHandler (h : Z) : prog K Z :=
  if h =? nullptr then mret (-1)
  else
    n ← atomic (handler h);
    ok ← atomic (syscall (epoll_ctl EPOLL_CTL_DEL (fd_ n) 0));
    if negb ok then mret (-1)
    else
      atomic (erase (fd_ n));;
      add_count (-1);;
      atomic (syscall (fun k => (tt, close (fd_ n) k)));;
      mret 0.

(** * Reading and writing *)

Definition SIZE : nat := 1024.

(** [data += buffer]: the bytes up to the first zero; [buffer[SIZE]] is not
    initialised, so a full buffer without a zero has no end. *)
Fixpoint c_string (l : list Z) : list Z := match l with [] => [] | c :: l => if c =? 0 then [] else c :: c_string l end.

Definition append_buffer (data bytes : list Z) : result (list Z) :=
  if (length (c_string bytes) <? SIZE)%nat then Done (data ++ c_string bytes) else Fail Unterminated.

(** The loop of [Read] over the results of [read]: the data, or an error.  A list
    that does not end the loop stands for calls that never do: a client that sends
    for ever, or the end of the file when [errno] is [EINTR] from an earlier call. *)
Fixpoint read_loop (rs : list read_result) (data : list Z) : result (option (list Z)) :=
  match rs with
  | [] => Fail Endless
  | Data bytes :: rs => match append_buffer data bytes with Done data => read_loop rs data | Fail e => Fail e end
  | End errno :: rs => if errno =? EINTR then read_loop rs data else Done (Some data)
  | Failed errno :: rs => if errno =? EINTR then read_loop rs data else if errno =? EAGAIN then Done (Some data) else Done None
  end.

Definition lift {A} (o : result A) : R K A := fun s => match o with Done a => Done (a, s) | Fail e => Fail e end.

(** [request_q_.push(data)] *)
Definition push_request (h : Z) (data : list Z) : R K unit := change h (fun n => with_queues (request_q_ n ++ [data]) (response_q_ n) n).

Definition Read (h : Z) : prog K Z :=
  n ← atomic (handler h);
  rs ← atomic (syscall (read (fd_ n)));
  r ← atomic (lift (read_loop rs (buffer_ n)));
  match r with
  | None => atomic (SetType h kError);; mret (-1)
  | Some data =>
      atomic (push_request h data);;
      n ← atomic (handler h);
      (if is_nil (request_q_ n) then mret tt else atomic (modify (fun s => set_tasks (tasks s ++ [h]) s)));;
      mret 0
  end.

(** [response_q_.front()] and [pop()] under the mutex *)
Definition pop_response (h : Z) : R K unit :=
  n ← handler h;
  match response_q_ n with [] => fail EmptyQueue | _ :: _ => change h (fun n => with_queues (request_q_ n) (tail (response_q_ n)) n) end.

Definition Write (h : Z) : prog K Z := Lock h (atomic (pop_response h);; atomic (unlock h);; mret 0).

(** "I am server" *)
Definition processor : list Z := [73; 32; 97; 109; 32; 115; 101; 114; 118; 101; 114].

(** The loop of the closure that [Read] gives to the thread pool. *)
Definition answer (h : Z) : R K unit := change h (fun n => with_queues [] (response_q_ n ++ ((fun _ => processor) <$> request_q_ n)) n).

(** The closure, with the callback of [Dispatch]; in the end the closure and its
    [shared_ptr] are destroyed. *)
Definition run_task (h : Z) : prog K unit :=
  Lock h (atomic (answer h);;
          atomic (SetType h kWrite);;
          RegisterEventHandler h;;
          atomic (unlock h);;
          atomic (unref h)).

(** * Events *)

(** A failed [accept] is logged only. *)
Definition Accept (fd : Z) : prog K (Z * list Z) := atomic (syscall (accept fd)).

Definition SetNonblock (fd : Z) : prog K unit :=
  flags ← atomic (syscall (fcntl_getfl fd));
  check (negb (flags =? -1));;
  ok ← atomic (syscall (fcntl_setfl fd (Z.lor flags O_NONBLOCK)));
  check ok.

Definition Dispatch (h : Z) : prog K Z :=
  n ← atomic (handler h);
  match event_type_ n with
  | kAccept =>
      atomic (modify set_acceptor);;
      '(fd, address) ← Accept (fd_ n);
      SetNonblock fd;;
      c ← atomic (make_handler (new_handler fd kRead address));
      r ← RegisterEventHandler c;
      check (r =? 0);;
      atomic (unref c);;
      mret 0
  | kRead => Read h;; mret 0
  | kWrite =>
      Write h;;
      atomic (SetType h kRead);;
      r ← RegisterEventHandler h;
      check (r =? 0);;
      mret 0
  | kError =>
      r ← ClearEventHandler h;
      check (r =? 0);;
      mret 0
  end.

(** [CHECK(fd_to_handler_.find(fd) != end)], then [auto handler = fd_to_handler_[fd]] *)
Definition find_handler (fd : Z) : R K unit :=
  m ← get fd_to_handler_;
  match m !! fd with None => fail NoHandler | Some _ => mret tt end.

Definition take_handler (fd : Z) : R K Z :=
  m ← get fd_to_handler_;
  match m !! fd with None => fail Dangling | Some h => ref h;; mret h end.

(** One iteration of the inner loop of [WaitForEvents]. *)
Definition handle_event (fd events : Z) : prog K unit :=
  atomic (find_handler fd);;
  h ← atomic (take_handler fd);
  (if Z.land events EPOLLERR =? 0 then mret tt else atomic (SetType h kError));;
  (if Z.land events EPOLLRDHUP =? 0 then Dispatch h;; mret tt
   else r ← ClearEventHandler h; check (r =? 0));;
  atomic (unref h).

(** The call of [epoll_wait], which writes into [events]. *)
Definition fetch (maxevents : Z) : R K unit :=
  r ← syscall (epoll_wait maxevents);
  match r with
  | None => fail SyscallCheck
  | Some l =>
      size ← get events_size;
      if zlen l <=? size then modify (set_ready l) else fail EventsOverflow
  end.

Definition wait : prog K unit :=
  c ← atomic (get epoll_event_count_);
  atomic (fetch c).

(** The next event of the vector. *)
Definition next_event : R K (option (Z * Z)) :=
  l ← get ready;
  match l with [] => mret None | e :: rest => modify (set_ready rest);; mret (Some e) end.

(** One round of the event loop: the next event, or the next [epoll_wait]. *)
Definition iteration : prog K unit :=
  e ← atomic next_event;
  match e with None => wait | Some (fd, events) => handle_event fd events end.

(** [Reactor::RegisterEventHandler] and [Reactor::ClearEventHandler]; [dm]: the
    demultiplexer is not null. *)
Definition ReactorRegister (dm : bool) (h : Z) : prog K Z := check dm;; RegisterEventHandler h.
Definition ReactorClear (dm : bool) (h : Z) : prog K unit := check dm;; ClearEventHandler h;; mret tt.

(** [Reactor::Run] up to the loop: the vector [events] gets its length. *)
Definition ReactorRun (dm : bool) : prog K unit :=
  check dm;;
  c ← atomic (get epoll_event_count_);
  atomic (modify (set_events c)).

(** [main] from the creation of the reactor to the start of the loop; handler 1 is
    that of the listening socket. *)
Definition start : prog K unit := ReactorRegister true 1;; ReactorRun true.

(** * Executions *)

(** The server with its threads: what the main thread and the workers have still to
    do. *)
Record system := MkSystem { state : reactor K; main : prog K unit; workers : list (prog K unit) }.

Definition new_reactor (k : K) (fd : Z) : reactor K :=
  MkReactor k {[ 1 := new_handler fd kAccept [] ]} 2 0 false 0 ∅ 0 [] [] [1] [].

Definition new_system (k : K) (fd : Z) : system := MkSystem (new_reactor k fd) start [].

(** One action of a thread; a thread waits while the mutex is held. *)
Definition advance (p : prog K unit) (s : reactor K) : result (prog K unit * reactor K) :=
  match p with
  | Ret a => Done (Ret a, s)
  | Act m k => match m s with Done (b, s') => Done (k b, s') | Fail e => Fail e end
  | Lock h k => if bool_decide (h ∈ locked s) then Done (p, s) else Done (k, set_locked (h :: locked s) s)
  end.

(** The main thread goes on, a worker takes the [i]-th queued task, or the [j]-th
    worker goes on. *)
Inductive choice := Main | Take (i : nat) | Work (j : nat).

Definition step (c : choice) (w : system) : result system :=
  match c with
  | Main =>
      match main w with
      | Ret _ => Done (MkSystem (state w) iteration (workers w))
      | p => match advance p (state w) with Done (p, s) => Done (MkSystem s p (workers w)) | Fail e => Fail e end
      end
  | Take i =>
      match tasks (state w) !! i with
      | None => Done w
      | Some h => Done (MkSystem (set_held (h :: held (state w)) (set_tasks (delete i (tasks (state w))) (state w))) (main w) (workers w ++ [run_task h]))
      end
  | Work j =>
      match workers w !! j with
      | None => Done w
      | Some p => match advance p (state w) with Done (p, s) => Done (MkSystem s (main w) (<[j := p]> (workers w))) | Fail e => Fail e end
      end
  end.

Fixpoint steps (cs : list choice) (w : system) : result system :=
  match cs with [] => Done w | c :: cs => match step c w with Done w => steps cs w | Fail e => Fail e end end.
End Server.
Arguments system K : clear implicits.
