(* ===== verification/ReactorSpec.v ===== *)
(** Properties of the reactor server, for every kernel that keeps its epoll
    interest list as documented and for every schedule of the atomic actions of the
    event loop and of the worker threads.

    Each thread has a ghost [claim]: the handlers its local pointers hold, what it
    knows about them, and what it is about to do.  The invariant relates the state to
    the claims of all threads; an action of one thread may change its own claim only,
    whatever the claims of the others are. *)

From S2P Require Import Reactor Prelude.

(** What epoll_ctl(2), epoll_wait(2), close(2) and read(2) say about the interest
    list: adding and deleting, no other call extends it, an fd is reported once and
    only when it is in the list. *)
Class KernelLaws (K : Type) {KO : Kernel K} := {
  interest : K -> gset Z;
  ctl_interest : forall op fd ev k r k', epoll_ctl op fd ev k = (r, k') ->
    forall x, x ∈ interest k' -> (x ∈ interest k \/ (op = EPOLL_CTL_ADD /\ r = true /\ x = fd)) /\ ~ (op = EPOLL_CTL_DEL /\ r = true /\ x = fd);
  wait_interest : forall n k r k', epoll_wait n k = (r, k') -> interest k' ⊆ interest k /\
    match r with Some l => NoDup l.*1 /\ forall fd, fd ∈ l.*1 -> fd ∈ interest k | None => True end;
  close_interest : forall fd k, interest (close fd k) ⊆ interest k;
  accept_interest : forall fd k c a k', accept fd k = (c, a, k') -> interest k' ⊆ interest k;
  getfl_interest : forall fd k r k', fcntl_getfl fd k = (r, k') -> interest k' ⊆ interest k;
  setfl_interest : forall fd f k r k', fcntl_setfl fd f k = (r, k') -> interest k' ⊆ interest k;
  read_interest : forall fd k l k', read fd k = (l, k') -> interest k' ⊆ interest k }.

(** * Claims *)

(** [c_loop]: the main thread; [c_held]: its local pointers; [c_reg]: handlers that
    are registered; [c_fds]: handlers with their descriptors; [c_event]: a reported
    descriptor before its handler is looked up; [c_cur]: the descriptor of the event
    that is handled; [c_gone]: it is deleted from the interest list; [c_new]: a
    descriptor added to the interest list and not yet to the map; [c_task]: a request
    pushed whose task is not queued, or a task whose requests are not answered;
    [c_due]: a response that the thread will take or announce; [c_off]: a handler
    whose type the loop will set to [kRead]. *)
Record claim := MkClaim {
  c_loop : bool; c_held : list Z; c_reg : list Z; c_fds : list (Z * Z);
  c_event : option Z; c_cur : option Z; c_gone : option Z; c_new : option Z;
  c_task : option Z; c_due : option Z; c_off : option Z }.

Definition w_held l c := MkClaim (c_loop c) l (c_reg c) (c_fds c) (c_event c) (c_cur c) (c_gone c) (c_new c) (c_task c) (c_due c) (c_off c).
Definition w_reg l c := MkClaim (c_loop c) (c_held c) l (c_fds c) (c_event c) (c_cur c) (c_gone c) (c_new c) (c_task c) (c_due c) (c_off c).
Definition w_fds l c := MkClaim (c_loop c) (c_held c) (c_reg c) l (c_event c) (c_cur c) (c_gone c) (c_new c) (c_task c) (c_due c) (c_off c).
Definition w_gone o c := MkClaim (c_loop c) (c_held c) (c_reg c) (c_fds c) (c_event c) (c_cur c) o (c_new c) (c_task c) (c_due c) (c_off c).
Definition w_new o c := MkClaim (c_loop c) (c_held c) (c_reg c) (c_fds c) (c_event c) (c_cur c) (c_gone c) o (c_task c) (c_due c) (c_off c).
Definition w_marks t d o c := MkClaim (c_loop c) (c_held c) (c_reg c) (c_fds c) (c_event c) (c_cur c) (c_gone c) (c_new c) t d o.

(** How many claims mark [h], and how often it is queued. *)
Definition mark (f : claim -> option Z) (h : Z) (c : claim) : nat := if decide (f c = Some h) then 1 else 0.
Definition cnt (f : claim -> option Z) (h : Z) (cs : list claim) : nat := sum_list_with (mark f h) cs.
Definition queued (h : Z) (l : list Z) : nat := length (filter (fun x => x = h) l).
Definition loops (cs : list claim) : nat := sum_list_with (fun c => if c_loop c then 1%nat else 0%nat) cs.

#[local] Arguments queued : simpl never.

(** A handler in state [kWrite] is owed a write, unless the loop will reset it. *)
Definition owed (off : nat) (n : Handler) : nat := match event_type_ n, off with kWrite, O => 1 | _, _ => 0 end.

(** Each task and each write still due has a request or a response. *)
Definition q_ok (n : Handler) (off due t : nat) : Prop :=
  (owed off n + due <= length (response_q_ n) /\ owed off n + due + t <= length (request_q_ n) + length (response_q_ n))%nat.

Section Spec.
Context {K : Type} {KO : Kernel K} {KL : KernelLaws K}.
Implicit Types (s : reactor K) (h fd : Z) (n : Handler) (c : claim) (cs rest : list claim).
Implicit Types (k : K) (hs : gmap Z Handler) (m : gmap Z Z) (rd : list (Z * Z)) (ts hl : list Z).

(** * The invariant *)

Record claim_ok k hs m rd c : Prop := {
  k_held : forall h, h ∈ c_held c -> is_Some (hs !! h);
  k_reg : forall h, h ∈ c_reg c -> h ∈ c_held c /\ exists n, hs !! h = Some n /\ registered_ n = true;
  k_fds : forall h fd, (h, fd) ∈ c_fds c -> h ∈ c_held c /\ exists n, hs !! h = Some n /\ fd_ n = fd;
  k_role : c_loop c = true \/ (c_event c = None /\ c_cur c = None /\ c_gone c = None /\ c_new c = None /\ c_off c = None);
  k_event : forall fd, c_event c = Some fd -> (fd ∉ rd.*1) /\ is_Some (m !! fd);
  k_cur : forall fd, c_cur c = Some fd -> fd ∉ rd.*1;
  k_gone : forall fd, c_gone c = Some fd -> fd ∉ interest k;
  k_marks : forall h, c_task c = Some h \/ c_due c = Some h \/ c_off c = Some h -> h ∈ c_held c }.

Record invariant k hs (nx : Z) m rd ts hl cs : Prop := {
  i_claims : forall c, c ∈ cs -> claim_ok k hs m rd c;
  i_loop : (loops cs <= 1)%nat;
  i_held : hl ≡ₚ concat (c_held <$> cs);
  i_interest : forall fd, fd ∈ interest k -> is_Some (m !! fd) \/ exists c, c ∈ cs /\ c_new c = Some fd;
  i_ready : NoDup rd.*1 /\ forall fd, fd ∈ rd.*1 -> is_Some (m !! fd);
  i_map : forall fd h, m !! fd = Some h -> exists n, hs !! h = Some n /\ fd_ n = fd /\ registered_ n = true;
  i_tasks : forall h, h ∈ ts -> exists n, hs !! h = Some n /\ registered_ n = true;
  i_queue : forall h n, hs !! h = Some n -> q_ok n (cnt c_off h cs) (cnt c_due h cs) (queued h ts + cnt c_task h cs);
  i_ids : 0 < nx /\ forall h, is_Some (hs !! h) -> 0 < h < nx }.

Definition inv s cs : Prop := invariant (kernel s) (handlers s) (next_id s) (fd_to_handler_ s) (ready s) (tasks s) (held s) cs.

Lemma cnt_cons f h c cs : cnt f h (c :: cs) = (mark f h c + cnt f h cs)%nat.
Proof. done. Qed.

Lemma loops_cons c cs : loops (c :: cs) = ((if c_loop c then 1 else 0) + loops cs)%nat.
Proof. done. Qed.

Lemma loops_none cs c : loops cs = 0%nat -> c ∈ cs -> c_loop c = false.
Proof.
  induction cs as [|x cs IH]; [by intros _ ?%elem_of_nil|]. rewrite loops_cons. intros E [->|Hc]%elem_of_cons; [by destruct (c_loop x)|].
  apply IH; [lia|done].
Qed.

Lemma inv_perm s cs cs' : cs ≡ₚ cs' -> inv s cs -> inv s cs'.
Proof.
  intros Hp [H1 H2 H3 H4 H5 H6 H7 H8 H9].
  assert (Hc : forall f h, cnt f h cs' = cnt f h cs) by (intros f h; unfold cnt; by rewrite Hp).
  split; try done.
  - intros c Hc'. apply H1. by rewrite Hp.
  - unfold loops in *. by rewrite <- Hp.
  - by rewrite H3, Hp.
  - intros fd Hfd. destruct (H4 fd Hfd) as [?|(c & Hc' & E)]; [by left|]. right. exists c. by rewrite <- Hp.
  - intros h n Hn. rewrite !Hc. by apply H8.
Qed.

(** The others of the main thread are workers. *)
Lemma rest_workers s c rest x : inv s (c :: rest) -> c_loop c = true -> x ∈ rest ->
  c_event x = None /\ c_cur x = None /\ c_gone x = None /\ c_new x = None /\ c_off x = None.
Proof.
  intros Hs Hc Hx. pose proof (i_loop _ _ _ _ _ _ _ _ Hs) as Hl. rewrite loops_cons, Hc in Hl.
  destruct (k_role _ _ _ _ _ (i_claims _ _ _ _ _ _ _ _ Hs x ltac:(by right))) as [E|?]; [|done].
  rewrite (loops_none rest x) in E; [done|lia|done].
Qed.

(** * Changes of the state *)

Lemma claim_ok_change k hs m rd c h n n' :
  hs !! h = Some n -> fd_ n' = fd_ n -> (registered_ n = true -> registered_ n' = true) ->
  claim_ok k hs m rd c -> claim_ok k (<[h := n']> hs) m rd c.
Proof.
  intros Hn Hfd Hr [H1 H2 H3 H4 H5 H6 H7 H8].
  assert (Hins : forall x y, hs !! x = Some y -> exists y', <[h := n']> hs !! x = Some y' /\ fd_ y' = fd_ y /\ (registered_ y = true -> registered_ y' = true)).
  { intros x y Hy. destruct (decide (x = h)) as [->|Hne].
    - exists n'. rewrite lookup_insert_eq. split; [done|]. assert (y = n) as -> by congruence. done.
    - exists y. by rewrite lookup_insert_ne. }
  split; try done.
  - intros x Hx. destruct (H1 x Hx) as [y Hy]. destruct (Hins x y Hy) as (y' & ? & _). by exists y'.
  - intros x Hx. destruct (H2 x Hx) as [? (y & Hy & Hry)]. destruct (Hins x y Hy) as (y' & ? & _ & ?). split; [done|]. exists y'. auto.
  - intros x fd Hx. destruct (H3 x fd Hx) as [? (y & Hy & Hry)]. destruct (Hins x y Hy) as (y' & ? & E & _). split; [done|]. exists y'. split; [done|congruence].
Qed.

(** A handler changes, and the claim of the thread with it. *)
Lemma inv_change s c c' rest h n n' :
  inv s (c :: rest) -> handlers s !! h = Some n -> fd_ n' = fd_ n -> (registered_ n = true -> registered_ n' = true) ->
  c_loop c' = c_loop c -> c_held c' = c_held c -> c_new c' = c_new c ->
  claim_ok (kernel s) (<[h := n']> (handlers s)) (fd_to_handler_ s) (ready s) c' ->
  (forall x y, <[h := n']> (handlers s) !! x = Some y ->
    q_ok y (mark c_off x c' + cnt c_off x rest) (mark c_due x c' + cnt c_due x rest) (queued x (tasks s) + (mark c_task x c' + cnt c_task x rest))) ->
  inv (set_handlers (<[h := n']> (handlers s)) s) (c' :: rest).
Proof.
  intros [H1 H2 H3 H4 H5 H6 H7 H8 H9] Hn Hfd Hr El Eh En Hc Hq. unfold inv. cbn.
  assert (Hins : forall x, (exists y, handlers s !! x = Some y /\ registered_ y = true) -> exists y, <[h := n']> (handlers s) !! x = Some y /\ registered_ y = true).
  { intros x (y & Hy & Hry). destruct (decide (x = h)) as [->|Hne].
    - exists n'. rewrite lookup_insert_eq. split; [done|]. apply Hr. congruence.
    - exists y. by rewrite lookup_insert_ne. }
  split.
  - intros x [->|Hx]%elem_of_cons; [done|]. apply (claim_ok_change _ _ _ _ _ h n); [done..|]. apply H1. by right.
  - rewrite loops_cons in *. by rewrite El.
  - rewrite H3. cbn. by rewrite Eh.
  - intros fd Hx. destruct (H4 fd Hx) as [?|(x & [->|Hin]%elem_of_cons & E)]; [by left|right; exists c'|right; exists x]; (split; [|congruence]); [by left|by right].
  - done.
  - intros fd x Hx. destruct (H6 fd x Hx) as (y & Hy & Ef & Hry). destruct (decide (x = h)) as [->|Hne].
    + exists n'. rewrite lookup_insert_eq. assert (y = n) as -> by congruence. split; [done|]. split; [congruence|auto].
    + exists y. by rewrite lookup_insert_ne.
  - intros x Hx. by apply Hins, H7.
  - intros x y Hy. rewrite !cnt_cons. by apply Hq.
  - destruct H9 as [H0 H9]. split; [done|]. intros x Hx. apply H9. destruct (decide (x = h)) as [->|Hne]; [by eexists|]. by rewrite lookup_insert_ne in Hx.
Qed.

(** Only the claim changes. *)
Lemma inv_claim s c c' rest :
  inv s (c :: rest) -> c_loop c' = c_loop c -> c_held c' = c_held c ->
  (forall fd, c_new c = Some fd -> c_new c' = Some fd \/ is_Some (fd_to_handler_ s !! fd)) ->
  claim_ok (kernel s) (handlers s) (fd_to_handler_ s) (ready s) c' ->
  (forall x y, handlers s !! x = Some y ->
    q_ok y (mark c_off x c' + cnt c_off x rest) (mark c_due x c' + cnt c_due x rest) (queued x (tasks s) + (mark c_task x c' + cnt c_task x rest))) ->
  inv s (c' :: rest).
Proof.
  intros [H1 H2 H3 H4 H5 H6 H7 H8 H9] El Eh En Hc Hq. split; try done.
  - intros x [->|Hx]%elem_of_cons; [done|]. apply H1. by right.
  - rewrite loops_cons in *. by rewrite El.
  - rewrite H3. cbn. by rewrite Eh.
  - intros fd Hx. destruct (H4 fd Hx) as [?|(x & [->|Hin]%elem_of_cons & E)]; [by left| |right; exists x; split; [by right|done]].
    destruct (En fd E) as [?|?]; [right; exists c'; split; [by left|done]|by left].
Qed.

(** The queues with the marks of the claim written out. *)
Lemma inv_queue s c rest x y : inv s (c :: rest) -> handlers s !! x = Some y ->
  q_ok y (mark c_off x c + cnt c_off x rest) (mark c_due x c + cnt c_due x rest) (queued x (tasks s) + (mark c_task x c + cnt c_task x rest)).
Proof. intros Hs Hy. by apply (i_queue _ _ _ _ _ _ _ _ Hs x y). Qed.

Lemma inv_head s c rest : inv s (c :: rest) -> claim_ok (kernel s) (handlers s) (fd_to_handler_ s) (ready s) c.
Proof. intros Hs. apply (i_claims _ _ _ _ _ _ _ _ Hs). by left. Qed.

(** The interest list shrinks. *)
Lemma inv_kernel k s cs : inv s cs -> interest k ⊆ interest (kernel s) -> inv (set_kernel k s) cs.
Proof.
  intros [H1 H2 H3 H4 H5 H6 H7 H8 H9] Hk. unfold inv. cbn. split; try done.
  - intros c Hc. destruct (H1 c Hc) as [? ? ? ? ? ? K7 ?]. split; try done. intros fd E Hfd. by apply (K7 fd E), Hk.
  - intros fd Hfd. by apply H4, Hk.
Qed.

(** [h] is added to the map for its descriptor; the claim may give up [c_new]. *)
Lemma inv_assign s c rest h fd n :
  inv s (c :: rest) -> handlers s !! h = Some n -> fd_ n = fd -> registered_ n = true ->
  c_new c = None \/ c_new c = Some fd ->
  inv (set_map (<[fd := h]> (fd_to_handler_ s)) s) (w_new None c :: rest).
Proof.
  intros Hs Hn Hfd Hr Hnew. pose proof Hs as [H1 H2 H3 H4 H5 H6 H7 H8 H9].
  assert (Hins : forall x, is_Some (fd_to_handler_ s !! x) -> is_Some (<[fd := h]> (fd_to_handler_ s) !! x)).
  { intros x Hx. destruct (decide (fd = x)) as [<-|Hne]; [rewrite lookup_insert_eq; by eexists|by rewrite lookup_insert_ne]. }
  unfold inv. cbn. split; try done.
  - intros x [->|Hx]%elem_of_cons; [destruct (inv_head s c rest Hs) as [? ? ? K4 K5 ? ? ?]|destruct (H1 x ltac:(by right)) as [? ? ? K4 K5 ? ? ?]]; split; try done.
    + destruct K4 as [?|(? & ? & ? & ? & ?)]; [by left|by right].
    + intros y Hy. destruct (K5 y Hy). auto.
    + intros y Hy. destruct (K5 y Hy). auto.
  - intros x Hx. destruct (H4 x Hx) as [?|(y & [->|Hin]%elem_of_cons & E)]; [left; auto| |right; exists y; split; [by right|done]].
    left. destruct Hnew as [?|?]; [congruence|]. replace x with fd by congruence. rewrite lookup_insert_eq. by eexists.
  - destruct H5 as [Hnd H5]. split; [done|]. intros x Hx. auto.
  - intros x y. rewrite lookup_insert_Some. intros [[<- <-]|[_ Hy]]; [by exists n|by apply H6].
Qed.

(** A descriptor that is in neither list is removed from the map. *)
Lemma inv_erase s c rest fd :
  inv s (c :: rest) -> c_loop c = true -> c_event c = None -> c_cur c = Some fd -> c_gone c = Some fd ->
  inv (set_map (delete fd (fd_to_handler_ s)) s) (c :: rest).
Proof.
  intros Hs Hl He Hc Hg. pose proof Hs as [H1 H2 H3 H4 H5 H6 H7 H8 H9]. pose proof (inv_head _ _ _ Hs) as Hk.
  assert (Hfd : fd ∉ (ready s).*1) by by apply (k_cur _ _ _ _ _ Hk).
  assert (Hint : fd ∉ interest (kernel s)) by by apply (k_gone _ _ _ _ _ Hk).
  unfold inv. cbn. split; try done.
  - intros x Hx. destruct (H1 x Hx) as [? ? ? ? K5 ? ? ?]. split; try done. intros y Hy.
    apply elem_of_cons in Hx as [->|Hx]; [congruence|]. destruct (rest_workers s c rest x Hs Hl Hx). congruence.
  - intros x Hx. rewrite lookup_delete_ne by (by intros ->). by apply H4.
  - destruct H5 as [Hnd H5]. split; [done|]. intros x Hx. rewrite lookup_delete_ne by (by intros ->). by apply H5.
  - intros x y [_ Hy]%lookup_delete_Some. by apply H6.
Qed.

Lemma existsb_none h (l : list Z) : existsb (fun x => x =? h) l = false -> h ∉ l.
Proof. intros E Hin. apply not_true_iff_false in E. apply E, existsb_exists. exists h. split; [by apply list_elem_of_In|apply Z.eqb_refl]. Qed.

Lemma referenced_spec h s : referenced h s = false -> (h ∉ held s) /\ (forall fd, fd_to_handler_ s !! fd <> Some h) /\ h ∉ tasks s.
Proof.
  unfold referenced. rewrite !orb_false_iff. intros [[Hp Hm] Ht]. split; [by apply existsb_none|]. split; [|by apply existsb_none].
  intros fd Hfd. apply not_true_iff_false in Hm. apply Hm. apply existsb_exists. exists (fd, h). split; [|apply Z.eqb_refl].
  apply list_elem_of_In. by apply elem_of_map_to_list.
Qed.

(** The last pointer to a handler is gone. *)
Lemma inv_collect s cs h : inv s cs -> match collect h s with Done (_, s') => inv s' cs | Fail _ => False end.
Proof.
  intros Hs. unfold collect. destruct (handlers s !! h) as [n|] eqn:En; [|done]. destruct (referenced h s) eqn:Er; [done|].
  apply referenced_spec in Er as (Hh & Hm & Ht). pose proof (inv_kernel _ s cs Hs (close_interest (fd_ n) (kernel s))) as Hs'. destruct Hs' as [H1 H2 H3 H4 H5 H6 H7 H8 H9].
  assert (Hc : forall c, c ∈ cs -> h ∉ c_held c).
  { intros c Hc Hin. apply Hh. cbn in H3. rewrite H3. apply list_elem_of_In, in_concat. exists (c_held c). split; [|by apply list_elem_of_In].
    apply list_elem_of_In, list_elem_of_fmap. by exists c. }
  unfold inv. cbn in *. split; try done.
  - intros c Hin. destruct (H1 c Hin) as [K1 K2 K3 ? ? ? ? ?]. specialize (Hc c Hin). split; try done.
    + intros x Hx. rewrite lookup_delete_ne by (by intros ->). auto.
    + intros x Hx. destruct (K2 x Hx) as [? ?]. rewrite lookup_delete_ne by (by intros ->). auto.
    + intros x fd Hx. destruct (K3 x fd Hx) as [? ?]. rewrite lookup_delete_ne by (by intros ->). auto.
  - intros fd x Hx. rewrite lookup_delete_ne by (intros ->; by apply (Hm fd)). by apply H6.
  - intros x Hx. rewrite lookup_delete_ne by (by intros ->). by apply H7.
  - intros x y [_ Hy]%lookup_delete_Some. by apply H8.
  - destruct H9 as [H0 H9]. split; [done|]. intros x [y [_ Hy]%lookup_delete_Some]. apply H9. by eexists.
Qed.

Lemma queued_none h l : h ∉ l -> queued h l = 0%nat.
Proof.
  unfold queued. induction l as [|x l IH]; [done|]. rewrite not_elem_of_cons. intros [Hx Hl]. rewrite filter_cons_False by (by intros ->). by apply IH.
Qed.

Lemma cnt_none f h cs : (forall c, c ∈ cs -> f c <> Some h) -> cnt f h cs = 0%nat.
Proof.
  induction cs as [|c cs IH]; [done|]. intros Hf. rewrite cnt_cons, IH by (intros x Hx; apply Hf; by right). unfold mark.
  by rewrite decide_False by (apply Hf; by left).
Qed.

Lemma queued_app h l x : queued h (l ++ [x]) = (queued h l + if decide (x = h) then 1 else 0)%nat.
Proof. unfold queued. rewrite list.filter_app, length_app. cbn. destruct (decide (x = h)); cbn; lia. Qed.

Lemma queued_delete (i : nat) h x l : l !! i = Some x -> queued h l = (queued h (delete i l) + if decide (x = h) then 1 else 0)%nat.
Proof.
  intros Hi. unfold queued. rewrite (delete_Permutation l i x Hi) at 1. destruct (decide (x = h)) as [->|Hne].
  - rewrite filter_cons_True by done. cbn. lia.
  - rewrite filter_cons_False by done. lia.
Qed.

(** A new handler in a local pointer of the main thread. *)
Lemma inv_make s c rest n :
  inv s (c :: rest) -> event_type_ n = kRead ->
  match make_handler n s with
  | Done (h, s') => inv s' (w_held (h :: c_held c) (w_fds ((h, fd_ n) :: c_fds c) c) :: rest) /\ h ∉ c_held c
  | Fail _ => False
  end.
Proof.
  intros Hs Ht. pose proof Hs as [H1 H2 H3 H4 H5 H6 H7 H8 [H0 H9]]. cbn.
  assert (Hf : handlers s !! next_id s = None).
  { destruct (handlers s !! next_id s) eqn:E; [|done]. specialize (H9 (next_id s) ltac:(by eexists)). lia. }
  assert (Hno : forall x, x ∈ c :: rest -> next_id s ∉ c_held x).
  { intros x Hx Hin. destruct (k_held _ _ _ _ _ (H1 x Hx) _ Hin). congruence. }
  assert (Hold : forall x y, handlers s !! x = Some y -> <[next_id s := n]> (handlers s) !! x = Some y).
  { intros x y Hy. rewrite lookup_insert_ne; [done|]. intros <-. congruence. }
  assert (Hcl : forall x, x ∈ c :: rest -> claim_ok (kernel s) (<[next_id s := n]> (handlers s)) (fd_to_handler_ s) (ready s) x).
  { intros x Hx. destruct (H1 x Hx) as [K1 K2 K3 ? ? ? ? ?]. split; try done.
    - intros y Hy. destruct (K1 y Hy) as [z Hz]. exists z. auto.
    - intros y Hy. destruct (K2 y Hy) as (? & z & Hz & ?). split; [done|]. exists z. auto.
    - intros y fd Hy. destruct (K3 y fd Hy) as (? & z & Hz & ?). split; [done|]. exists z. auto. }
  split; [|apply Hno; by left]. unfold inv. cbn. split; try done.
  - intros x [->|Hx]%elem_of_cons; [|apply Hcl; by right]. destruct (Hcl c ltac:(by left)) as [K1 K2 K3 K4 K5 K6 K7 K8]. split; try done; cbn.
    + intros y [->|Hy]%elem_of_cons; [rewrite lookup_insert_eq; by eexists|by apply K1].
    + intros y Hy. destruct (K2 y Hy) as [? ?]. split; [by right|done].
    + intros y fd [E|Hy]%elem_of_cons; [injection E as -> ->; split; [by left|]; exists n; by rewrite lookup_insert_eq|].
      destruct (K3 y fd Hy) as [? ?]. split; [by right|done].
    + intros y Hy. right. by apply K8.
  - rewrite H3. cbn. done.
  - intros fd Hfd. destruct (H4 fd Hfd) as [?|(x & [->|Hx]%elem_of_cons & E)]; [by left| |right; exists x; split; [by right|done]].
    right. eexists. split; [by left|]. done.
  - intros fd h Hh. destruct (H6 fd h Hh) as (y & Hy & ?). exists y. split; [by apply Hold|done].
  - intros h Hh. destruct (H7 h Hh) as (y & Hy & ?). exists y. split; [by apply Hold|done].
  - intros h y. rewrite lookup_insert_Some. intros [[<- <-]|[_ Hy]]; [|by apply H8].
    change (cnt c_off (next_id s) (_ :: rest)) with (cnt c_off (next_id s) (c :: rest)).
    change (cnt c_due (next_id s) (_ :: rest)) with (cnt c_due (next_id s) (c :: rest)).
    change (cnt c_task (next_id s) (_ :: rest)) with (cnt c_task (next_id s) (c :: rest)).
    rewrite queued_none, !cnt_none.
    { unfold q_ok, owed. rewrite Ht. cbn. lia. }
    all: try (intros x Hx E; apply (Hno x Hx), (k_marks _ _ _ _ _ (H1 x Hx)); auto).
    intros Hin. destruct (H7 _ Hin) as (? & ? & _). congruence.
  - split; [lia|]. intros h [y Hy]. apply lookup_insert_Some in Hy as [[<- _]|[_ Hy]]; [lia|]. specialize (H9 h ltac:(by eexists)). lia.
Qed.

(** * Local pointers, tasks and events *)

Lemma remove_one_perm h l : h ∈ l -> l ≡ₚ h :: remove_one h l.
Proof.
  induction l as [|x l IH]; [by intros ?%elem_of_nil|]. intros Hin. cbn. destruct (Z.eqb_spec x h) as [->|Hne]; [done|].
  apply elem_of_cons in Hin as [->|Hin]; [done|]. rewrite perm_swap. by rewrite <- IH.
Qed.

(** The claim of a thread gets a pointer to a live and registered handler. *)
Lemma inv_ref s c c' rest h n fd :
  inv s (c :: rest) -> handlers s !! h = Some n -> fd_ n = fd -> registered_ n = true ->
  c_loop c' = c_loop c -> c_held c' = h :: c_held c -> c_reg c' = h :: c_reg c -> c_fds c' = (h, fd) :: c_fds c ->
  c_event c' = None -> (forall x, c_cur c' = Some x -> c_cur c = Some x \/ c_event c = Some x) -> (c_loop c = false -> c_cur c' = None) ->
  c_gone c' = c_gone c -> c_new c' = c_new c -> c_task c' = c_task c -> c_due c' = c_due c -> c_off c' = c_off c ->
  inv (set_held (h :: held s) s) (c' :: rest).
Proof.
  intros Hs Hn Hfd Hr El Eh Er Ef Ee Ec Ew Eg En Et Ed Eo. pose proof (inv_head _ _ _ Hs) as [K1 K2 K3 K4 K5 K6 K7 K8].
  destruct Hs as [H1 H2 H3 H4 H5 H6 H7 H8 H9]. unfold inv. cbn. split; try done.
  - intros x [->|Hx]%elem_of_cons; [|apply H1; by right]. split; rewrite ?Eh, ?Er, ?Ef, ?El, ?Eg, ?En, ?Et, ?Ed, ?Eo.
    + intros x [->|Hx]%elem_of_cons; [by eexists|by apply K1].
    + intros x [->|Hx]%elem_of_cons; [split; [by left|by exists n]|]. destruct (K2 x Hx). split; [by right|done].
    + intros x y [E|Hx]%elem_of_cons; [injection E as -> ->; split; [by left|by exists n]|]. destruct (K3 x y Hx). split; [by right|done].
    + destruct K4 as [?|(? & ? & ? & ? & ?)]; [by left|]. destruct (c_loop c) eqn:E; [by left|right]. rewrite Ew by done. done.
    + intros x Hx. congruence.
    + intros x Hx. destruct (Ec x Hx) as [?|?]; [by apply K6|by apply K5].
    + done.
    + intros x Hx. right. by apply K8.
  - rewrite loops_cons in *. by rewrite El.
  - rewrite H3. cbn. by rewrite Eh.
  - intros x Hx. destruct (H4 x Hx) as [?|(y & [->|Hy]%elem_of_cons & E)]; [by left|right; exists c'|right; exists y]; (split; [|congruence]); [by left|by right].
  - intros x y Hy. rewrite !cnt_cons. unfold mark. rewrite Et, Ed, Eo. by apply H8.
Qed.

(** A local pointer ends; the claim no longer speaks of the handler. *)
Definition drop h c : claim :=
  MkClaim (c_loop c) (remove_one h (c_held c)) (filter (fun x => x <> h) (c_reg c)) (filter (fun p => p.1 <> h) (c_fds c))
    (c_event c) None None (c_new c) (c_task c) (c_due c) (c_off c).

Lemma inv_unref s c rest h :
  inv s (c :: rest) -> h ∈ c_held c -> c_task c <> Some h -> c_due c <> Some h -> c_off c <> Some h ->
  inv (set_held (remove_one h (held s)) s) (drop h c :: rest).
Proof.
  intros Hs Hh Ht Hd Ho. pose proof (inv_head _ _ _ Hs) as [K1 K2 K3 K4 K5 K6 K7 K8].
  assert (Hin : forall x, x ∈ c_held c -> x <> h -> x ∈ remove_one h (c_held c)).
  { intros x Hx Hne. rewrite (remove_one_perm h _ Hh) in Hx. by apply elem_of_cons in Hx as [?|?]. }
  assert (Hout : forall x, x ∈ remove_one h (c_held c) -> x ∈ c_held c) by (intros x Hx; rewrite (remove_one_perm h _ Hh); by right).
  destruct Hs as [H1 H2 H3 H4 H5 H6 H7 H8 H9]. unfold inv. cbn. split; try done.
  - intros x [->|Hx]%elem_of_cons; [|apply H1; by right]. split; cbn; try done.
    + intros x Hx. by apply K1, Hout.
    + intros x [Hne Hx]%list_elem_of_filter. destruct (K2 x Hx). auto.
    + intros x y [Hne Hx]%list_elem_of_filter. destruct (K3 x y Hx). auto.
    + destruct K4 as [?|(? & ? & ? & ? & ?)]; [by left|by right].
    + intros x Hx. apply Hin; [by apply K8|]. intros ->. by destruct Hx as [?|[?|?]].
  - apply (Permutation_cons_inv (a := h)). rewrite <- remove_one_perm.
    + rewrite H3. cbn. rewrite (remove_one_perm h _ Hh) at 1. done.
    + rewrite H3. cbn. apply elem_of_app. by left.
  - intros x Hx. destruct (H4 x Hx) as [?|(y & [->|Hy]%elem_of_cons & E)]; [by left|right; eexists; split; [by left|done]|right; exists y; split; [by right|done]].
Qed.

(** A task is queued for the request that was pushed. *)
Lemma inv_enqueue s c rest h :
  inv s (c :: rest) -> h ∈ c_reg c -> c_task c = Some h -> inv (set_tasks (tasks s ++ [h]) s) (w_marks None (c_due c) (c_off c) c :: rest).
Proof.
  intros Hs Hr Ht. pose proof (inv_head _ _ _ Hs) as [K1 K2 K3 K4 K5 K6 K7 K8]. pose proof (inv_queue s c rest) as Hq.
  pose proof Hs as [H1 H2 H3 H4 H5 H6 H7 H8 H9]. unfold inv. cbn. split; try done.
  - intros x [->|Hx]%elem_of_cons; [|apply H1; by right]. split; try done. cbn. intros x [?|?]; [done|]. apply K8. by right.
  - intros x Hx. destruct (H4 x Hx) as [?|(y & [->|Hy]%elem_of_cons & E)]; [by left|right; eexists; split; [by left|done]|right; exists y; split; [by right|done]].
  - intros x [Hx| ->%list_elem_of_singleton]%elem_of_app; [by apply H7|]. by apply K2.
  - intros x y Hy. specialize (Hq x y Hs Hy). rewrite queued_app, !cnt_cons. unfold mark in *. cbn. rewrite Ht in Hq. rewrite (decide_False (P := None = Some x)) by done.
    destruct (decide (h = x)) as [->|Hne]; [rewrite (decide_True (P := Some x = Some x)) in Hq by done|rewrite (decide_False (P := Some h = Some x)) in Hq by congruence]; unfold q_ok in *; cbn; lia.
Qed.

(** The claim of a worker that has taken a task. *)
Definition worker h : claim := MkClaim false [h] [h] [] None None None None (Some h) None None.

Lemma inv_take s cs (i : nat) h :
  inv s cs -> tasks s !! i = Some h -> inv (set_held (h :: held s) (set_tasks (delete i (tasks s)) s)) (worker h :: cs).
Proof.
  intros [H1 H2 H3 H4 H5 H6 H7 H8 H9] Hi. destruct (H7 h) as (n & Hn & Hr); [by eapply list_elem_of_lookup_2|]. unfold inv. cbn. split; try done.
  - intros c [->|Hc]%elem_of_cons; [|by apply H1]. split; cbn; try done.
    + intros x ->%list_elem_of_singleton. by eexists.
    + intros x ->%list_elem_of_singleton. split; [by left|by exists n].
    + by intros x y ?%elem_of_nil.
    + by right.
    + intros x [E|[?|?]]; [|done..]. injection E as <-. by left.
  - by rewrite H3.
  - intros x Hx. destruct (H4 x Hx) as [?|(c & Hc & E)]; [by left|right; exists c; split; [by right|done]].
  - intros x Hx. apply H7. rewrite (delete_Permutation (tasks s) i h Hi). by right.
  - intros x y Hy. specialize (H8 x y Hy). rewrite (queued_delete i x h _ Hi) in H8. rewrite !cnt_cons. unfold mark, worker. cbn. rewrite !(decide_False (P := None = Some x)) by done.
    destruct (decide (h = x)) as [->|Hne]; [rewrite (decide_True (P := Some x = Some x)) by done|rewrite (decide_False (P := Some h = Some x)) by congruence]; unfold q_ok in *; cbn in *; lia.
Qed.

(** * Programs *)

(** The failures that the program can have: those of system calls and of the two
    fixed buffers, and reading that never ends. *)
Definition allowed (e : failure) : Prop := e = SyscallCheck \/ e = EventsOverflow \/ e = Unterminated \/ e = Endless.

(** An action of a thread with claim [c] keeps the invariant, whatever the others
    claim. *)
Definition atom {A} c (a : R K A) (Q : A -> claim -> Prop) : Prop := forall s rest, inv s (c :: rest) ->
  match a s with Done (b, s') => exists c', inv s' (c' :: rest) /\ Q b c' | Fail e => allowed e end.

Fixpoint safe {A} (p : prog K A) c (Q : A -> claim -> Prop) : Prop :=
  match p with Ret a => Q a c | Act a p => atom c a (fun b c' => safe (p b) c' Q) | Lock _ p => safe p c Q end.

Lemma atom_mono {A} c (a : R K A) (P Q : A -> claim -> Prop) : atom c a P -> (forall b c', P b c' -> Q b c') -> atom c a Q.
Proof. intros Ha HPQ s rest Hs. specialize (Ha s rest Hs). destruct (a s) as [[b s']|e]; [|done]. destruct Ha as (c' & ? & ?). exists c'. auto. Qed.

Lemma safe_mono {A} (p : prog K A) c (P Q : A -> claim -> Prop) : safe p c P -> (forall b c', P b c' -> Q b c') -> safe p c Q.
Proof.
  intros Hp HPQ. revert c Hp. induction p as [a|B a p IH|h p IH]; intros c Hp; cbn in *; [auto| |auto].
  eapply atom_mono; [exact Hp|]. intros b c' Hb. by apply IH.
Qed.

Lemma safe_bind {A B} (p : prog K A) (f : A -> prog K B) c (Q : B -> claim -> Prop) :
  safe p c (fun a c' => safe (f a) c' Q) -> safe (a ← p; f a) c Q.
Proof.
  revert c. induction p as [a|X a p IH|h p IH]; intros c Hp; cbn in *; [done| |by apply IH].
  eapply atom_mono; [exact Hp|]. intros b c' Hb. by apply IH.
Qed.

Lemma safe_atomic {A} c (a : R K A) (Q : A -> claim -> Prop) : atom c a Q -> safe (atomic a) c Q.
Proof. done. Qed.

(** An action and the rest of the program. *)
Lemma safe_act {A B} (a : R K A) (f : A -> prog K B) c (Q : B -> claim -> Prop) :
  atom c a (fun b c' => safe (f b) c' Q) -> safe (b ← atomic a; f b) c Q.
Proof. intros Ha. by apply safe_bind, safe_atomic. Qed.

Lemma safe_check c b (Q : unit -> claim -> Prop) : Q tt c -> safe (check b) c Q.
Proof. intros HQ. destruct b; [done|]. intros s rest Hs. by left. Qed.

(** ** Actions that leave the claim alone *)

(** The state changes in parts that the invariant does not speak of. *)
Lemma atom_modify c (f : reactor K -> reactor K) (Q : unit -> claim -> Prop) :
  (forall s cs, inv s cs -> inv (f s) cs) -> Q tt c -> atom c (modify f) Q.
Proof. intros Hf HQ s rest Hs. exists c. split; [by apply Hf|done]. Qed.

Lemma atom_get {A} c (f : reactor K -> A) (Q : A -> claim -> Prop) : (forall a, Q a c) -> atom c (get f) Q.
Proof. intros HQ s rest Hs. exists c. split; [done|apply HQ]. Qed.

Lemma atom_syscall {A} c (f : K -> A * K) (Q : A -> claim -> Prop) :
  (forall k a k', f k = (a, k') -> interest k' ⊆ interest k) -> (forall a, Q a c) -> atom c (syscall f) Q.
Proof.
  intros Hf HQ s rest Hs. unfold syscall. destruct (f (kernel s)) as [a k] eqn:E. exists c. split; [|apply HQ]. apply inv_kernel; [done|]. by eapply Hf.
Qed.

Lemma safe_count c d (Q : unit -> claim -> Prop) : Q tt c -> safe (add_count d) c Q.
Proof. intros HQ. apply safe_act, atom_get. intros x. apply safe_atomic, atom_modify; [|done]. by intros s cs Hs. Qed.

(** ** Actions on a held handler *)

Lemma held_live s c rest h : inv s (c :: rest) -> h ∈ c_held c -> exists n, handlers s !! h = Some n.
Proof. intros Hs Hh. apply (k_held _ _ _ _ _ (inv_head _ _ _ Hs) h Hh). Qed.

(** Reading a handler: the claim learns its descriptor. *)
Definition learn h fd c : claim := w_fds ((h, fd) :: c_fds c) c.

Lemma inv_learn s c rest h n : inv s (c :: rest) -> h ∈ c_held c -> handlers s !! h = Some n -> inv s (learn h (fd_ n) c :: rest).
Proof.
  intros Hs Hh Hn. pose proof (inv_head _ _ _ Hs) as [K1 K2 K3 K4 K5 K6 K7 K8]. apply (inv_claim s c); try done; [by left| |].
  - split; try done. cbn. intros x y [E|Hx]%elem_of_cons; [injection E as -> ->; split; [done|by exists n]|by apply K3].
  - intros x y Hy. by apply (inv_queue s c rest).
Qed.

Lemma atom_handler c h (Q : Handler -> claim -> Prop) : h ∈ c_held c -> (forall n, Q n (learn h (fd_ n) c)) -> atom c (handler h) Q.
Proof.
  intros Hh HQ s rest Hs. destruct (held_live s c rest h Hs Hh) as [n Hn]. unfold handler. rewrite Hn. exists (learn h (fd_ n) c).
  split; [by apply inv_learn|apply HQ].
Qed.

(** The same with what the handler is at that moment. *)
Lemma atom_handler_at c h (Q : Handler -> claim -> Prop) :
  h ∈ c_held c -> (forall s rest n, inv s (c :: rest) -> handlers s !! h = Some n -> exists c', inv s (c' :: rest) /\ Q n c') -> atom c (handler h) Q.
Proof. intros Hh HQ s rest Hs. destruct (held_live s c rest h Hs Hh) as [n Hn]. unfold handler. rewrite Hn. by apply HQ. Qed.

(** A change of a handler that keeps the descriptor and the marks of the claim. *)
Lemma atom_change c c' h f (Q : unit -> claim -> Prop) :
  h ∈ c_held c -> (forall n, fd_ (f n) = fd_ n) -> (forall n, registered_ n = true -> registered_ (f n) = true) ->
  c_loop c' = c_loop c -> c_held c' = c_held c -> c_new c' = c_new c ->
  (forall s rest n, inv s (c :: rest) -> handlers s !! h = Some n ->
     claim_ok (kernel s) (<[h := f n]> (handlers s)) (fd_to_handler_ s) (ready s) c' /\
     forall x y, <[h := f n]> (handlers s) !! x = Some y ->
       q_ok y (mark c_off x c' + cnt c_off x rest) (mark c_due x c' + cnt c_due x rest) (queued x (tasks s) + (mark c_task x c' + cnt c_task x rest))) ->
  Q tt c' -> atom c (change h f) Q.
Proof.
  intros Hh Hfd Hr El Eh En Hc HQ s rest Hs. destruct (held_live s c rest h Hs Hh) as [n Hn]. unfold change, mbind, R_bind, handler, modify. rewrite Hn.
  exists c'. split; [|done]. destruct (Hc s rest n Hs Hn).
  apply (inv_change s c c' rest h n); [done|done|apply Hfd|apply Hr|done..].
Qed.

Lemma claim_ok_marks k hs m rd c t d o :
  claim_ok k hs m rd c -> (c_loop c = true \/ o = None) -> (forall h, t = Some h \/ d = Some h \/ o = Some h -> h ∈ c_held c) ->
  claim_ok k hs m rd (w_marks t d o c).
Proof.
  intros [K1 K2 K3 K4 K5 K6 K7 K8] Ho Hm. split; try done. cbn. destruct Ho as [?| ->]; [by left|]. destruct K4 as [?|(? & ? & ? & ? & ?)]; [by left|by right].
Qed.

(** Marks and queues of one handler; the others keep theirs. *)
Lemma atom_marks c h f t d o (Q : unit -> claim -> Prop) :
  h ∈ c_held c -> (forall n, fd_ (f n) = fd_ n) -> (forall n, registered_ (f n) = registered_ n) ->
  (c_loop c = true \/ o = None) ->
  (forall g, g ∈ [c_task c; c_due c; c_off c; t; d; o] -> g = None \/ g = Some h) ->
  (forall n off due tk, q_ok n (mark c_off h c + off) (mark c_due h c + due) (mark c_task h c + tk) ->
     q_ok (f n) (mark c_off h (w_marks t d o c) + off) (mark c_due h (w_marks t d o c) + due) (mark c_task h (w_marks t d o c) + tk)) ->
  Q tt (w_marks t d o c) -> atom c (change h f) Q.
Proof.
  intros Hh Hfd Hr Ho Hg Hq HQ. apply (atom_change c (w_marks t d o c)); try done; [intros n; by rewrite Hr|].
  assert (Hm : forall x (g : option Z), x <> h -> g ∈ [c_task c; c_due c; c_off c; t; d; o] -> g <> Some x).
  { intros x g Hne Hin E. destruct (Hg g Hin); congruence. }
  intros s rest n Hs Hn. split.
  - apply (claim_ok_change _ _ _ _ _ h n); [done|done|by rewrite Hr|]. apply claim_ok_marks; [by apply (inv_head s c rest)|done|].
    intros x Hx. destruct (decide (x = h)) as [->|Hne]; [done|]. exfalso. destruct Hx as [E|[E|E]]; apply (Hm x _ Hne) in E; try done;
      rewrite !elem_of_cons; tauto.
  - intros x y. rewrite lookup_insert_Some. intros [[<- <-]|[Hne Hy]].
    + pose proof (inv_queue s c rest h n Hs Hn) as H1. specialize (Hq n (cnt c_off h rest) (cnt c_due h rest) (queued h (tasks s) + cnt c_task h rest)%nat).
      replace (queued h (tasks s) + (mark c_task h c + cnt c_task h rest))%nat with (mark c_task h c + (queued h (tasks s) + cnt c_task h rest))%nat in H1 by lia.
      specialize (Hq H1). by replace (queued h (tasks s) + (mark c_task h (w_marks t d o c) + cnt c_task h rest))%nat
        with (mark c_task h (w_marks t d o c) + (queued h (tasks s) + cnt c_task h rest))%nat by lia.
    + pose proof (inv_queue s c rest x y Hs Hy) as H1. unfold mark in *. cbn.
      rewrite (decide_False (P := c_off c = Some x)), (decide_False (P := c_due c = Some x)), (decide_False (P := c_task c = Some x)) in H1
        by (apply Hm; [done|rewrite !elem_of_cons; tauto]).
      rewrite (decide_False (P := o = Some x)), (decide_False (P := d = Some x)), (decide_False (P := t = Some x))
        by (apply Hm; [done|rewrite !elem_of_cons; tauto]). done.
Qed.


(** * Registration *)

(** [c'] knows more than [c] and is otherwise the same. *)
Record more c c' : Prop := {
  m_loop : c_loop c' = c_loop c; m_held : c_held c' = c_held c; m_event : c_event c' = c_event c; m_cur : c_cur c' = c_cur c;
  m_gone : c_gone c' = c_gone c; m_new : c_new c' = c_new c; m_task : c_task c' = c_task c; m_due : c_due c' = c_due c; m_off : c_off c' = c_off c;
  m_reg : forall h, h ∈ c_reg c -> h ∈ c_reg c'; m_fds : forall p, p ∈ c_fds c -> p ∈ c_fds c' }.

Lemma more_refl c : more c c.
Proof. by split. Qed.

Lemma more_learn h fd c : more c (learn h fd c).
Proof. split; try done. intros p Hp. by right. Qed.

(** [SetRegistered(true)] *)
Lemma atom_registered c h (Q : unit -> claim -> Prop) :
  h ∈ c_held c -> Q tt (w_reg (h :: c_reg c) c) -> atom c (change h (with_registered true)) Q.
Proof.
  intros Hh HQ. apply (atom_change c (w_reg (h :: c_reg c) c)); try done. intros s rest n Hs Hn. split.
  - pose proof (claim_ok_change _ _ _ _ c h n (with_registered true n) Hn eq_refl ltac:(done) (inv_head _ _ _ Hs)) as [K1 K2 K3 K4 K5 K6 K7 K8].
    split; try done. cbn. intros x [->|Hx]%elem_of_cons; [|by apply K2]. split; [done|]. eexists. by rewrite lookup_insert_eq.
  - intros x y. rewrite lookup_insert_Some. intros [[<- <-]|[_ Hy]]; [exact (inv_queue s c rest h n Hs Hn)|exact (inv_queue s c rest x y Hs Hy)].
Qed.

(** [fd_to_handler_[fd] = h] *)
Lemma atom_assign c h fd (Q : unit -> claim -> Prop) :
  h ∈ c_reg c -> (h, fd) ∈ c_fds c -> c_new c = None \/ c_new c = Some fd -> Q tt (w_new None c) -> atom c (assign fd h) Q.
Proof.
  intros Hr Hf Hn HQ s rest Hs. destruct (k_reg _ _ _ _ _ (inv_head _ _ _ Hs) h Hr) as (_ & n & En & Er).
  destruct (k_fds _ _ _ _ _ (inv_head _ _ _ Hs) h fd Hf) as (_ & n' & En' & Ef). assert (n' = n) as -> by congruence.
  pose proof (inv_assign s c rest h fd n Hs En Ef Er Hn) as Hs'. unfold assign, mbind, R_bind, get, modify.
  destruct (fd_to_handler_ s !! fd) as [old|]; [|by exists (w_new None c)].
  pose proof (inv_collect _ _ old Hs') as Hc. destruct (collect old _) as [[[] s']|e]; [|done]. by exists (w_new None c).
Qed.

(** The rest of [RegisterEventHandler] after [epoll_ctl] has succeeded. *)
Lemma safe_registered c h fd (Q : Z -> claim -> Prop) :
  h ∈ c_held c -> (h, fd) ∈ c_fds c -> c_new c = None \/ c_new c = Some fd -> Q 0 (w_new None (w_reg (h :: c_reg c) c)) ->
  safe (add_count 1;; atomic (change h (with_registered true));; atomic (assign fd h);; mret 0) c Q.
Proof.
  intros Hh Hf Hn HQ. apply safe_bind, safe_count, safe_act, atom_registered; [done|]. apply safe_act, atom_assign; [by left|exact Hf|exact Hn|exact HQ].
Qed.

(** A registered handler is registered again; workers do only this. *)
Lemma safe_register h c : h ∈ c_held c -> h ∈ c_reg c -> c_new c = None -> safe (RegisterEventHandler h) c (fun _ => more c).
Proof.
  intros Hh Hr Hn. unfold RegisterEventHandler. destruct (h =? nullptr); [apply more_refl|].
  apply safe_act, atom_handler; [done|]. intros n. set (c1 := learn h (fd_ n) c). apply safe_bind.
  enough (G : safe (m ← atomic (handler h); let op := if registered_ m then EPOLL_CTL_MOD else EPOLL_CTL_ADD in
    ok ← atomic (syscall (epoll_ctl op (fd_ n) (event_mask (event_type_ n)))); if negb ok then mret (-1) else
    add_count 1;; atomic (change h (with_registered true));; atomic (assign (fd_ n) h);; mret 0) c1 (fun _ => more c)).
  { destruct (event_type_ n); try exact G. apply safe_atomic, atom_modify; [by intros s cs|exact G]. }
  apply safe_act, atom_handler_at; [done|]. intros s rest m Hs Hm. exists c1. split; [done|].
  destruct (k_reg _ _ _ _ _ (inv_head _ _ _ Hs) h Hr) as (_ & m' & Em & Er). assert (m' = m) as -> by congruence. rewrite Er. cbv zeta.
  apply safe_act, atom_syscall.
  { intros k r k' E x Hx. by destruct (ctl_interest _ _ _ _ _ _ E x Hx) as [[?|(? & _)] _]. }
  intros [|]; [|apply more_learn]. apply safe_registered; [done|by left|by left|]. split; try done; cbn.
  - intros x Hx. by right.
  - intros x Hx. by right.
Qed.

(** [EPOLL_CTL_ADD] by the main thread. *)
Lemma inv_add s c rest k fd :
  inv s (c :: rest) -> c_loop c = true -> c_gone c = None -> c_new c = None ->
  (forall x, x ∈ interest k -> x ∈ interest (kernel s) \/ x = fd) -> inv (set_kernel k s) (w_new (Some fd) c :: rest).
Proof.
  intros Hs Hl Hg Hn Hk. pose proof Hs as [H1 H2 H3 H4 H5 H6 H7 H8 H9]. unfold inv. cbn. split; try done.
  - intros x [->|Hx]%elem_of_cons.
    + destruct (inv_head _ _ _ Hs) as [? ? ? ? ? ? ? ?]. split; try done; [by left|]. cbn. intros y E. congruence.
    + destruct (H1 x ltac:(by right)) as [? ? ? ? ? ? ? ?]. split; try done. intros y E. destruct (rest_workers s c rest x Hs Hl Hx) as (_ & _ & ? & _). congruence.
  - intros x Hx. destruct (Hk x Hx) as [Hx'| ->]; [|right; eexists; split; [by left|done]].
    destruct (H4 x Hx') as [?|(y & [->|Hy]%elem_of_cons & E)]; [by left|congruence|right; exists y; split; [by right|done]].
Qed.

(** The main thread registers any handler that it holds. *)
Lemma safe_register_new h c : h ∈ c_held c -> c_loop c = true -> c_gone c = None -> c_new c = None -> safe (RegisterEventHandler h) c (fun _ => more c).
Proof.
  intros Hh Hl Hg Hn. unfold RegisterEventHandler. destruct (h =? nullptr); [apply more_refl|].
  apply safe_act, atom_handler; [done|]. intros n. set (c1 := learn h (fd_ n) c). apply safe_bind.
  enough (G : safe (m ← atomic (handler h); let op := if registered_ m then EPOLL_CTL_MOD else EPOLL_CTL_ADD in
    ok ← atomic (syscall (epoll_ctl op (fd_ n) (event_mask (event_type_ n)))); if negb ok then mret (-1) else
    add_count 1;; atomic (change h (with_registered true));; atomic (assign (fd_ n) h);; mret 0) c1 (fun _ => more c)).
  { destruct (event_type_ n); try exact G. apply safe_atomic, atom_modify; [by intros s cs|exact G]. }
  apply safe_act, atom_handler_at; [done|]. intros s rest m Hs Hm. exists c1. split; [done|]. clear s rest Hs Hm. cbv zeta.
  apply safe_act. intros s rest Hs. unfold syscall. destruct (epoll_ctl _ _ _ _) as [[|] k] eqn:E; cbn [negb].
  - exists (w_new (Some (fd_ n)) c1). split.
    + apply (inv_add s c1); try done. intros x Hx. destruct (ctl_interest _ _ _ _ _ _ E x Hx) as [[?|(_ & _ & ->)] _]; auto.
    + apply safe_registered; [done|by left|by right|]. split; try done; cbn; intros x Hx; by right.
  - exists c1. split; [|apply more_learn]. apply inv_kernel; [done|]. intros x Hx. by destruct (ctl_interest _ _ _ _ _ _ E x Hx) as [[?|(_ & ? & _)] _].
Qed.

(** * Clearing *)

(** The main thread handles an event of [h]; [calm]: it has only the pointer left. *)
Record calm h c : Prop := {
  a_loop : c_loop c = true; a_held : c_held c = [h; 1]; a_event : c_event c = None; a_new : c_new c = None;
  a_task : c_task c = None; a_due : c_due c = None; a_off : c_off c = None }.

Record active h fd c : Prop := {
  a_calm : calm h c; a_cur : c_cur c = Some fd; a_gone : c_gone c = None; a_reg : h ∈ c_reg c; a_fds : (h, fd) ∈ c_fds c }.

Lemma active_held h fd c : active h fd c -> h ∈ c_held c.
Proof. intros [[_ -> _ _ _ _ _] _ _ _ _]. by left. Qed.

Lemma active_more h fd c c' : active h fd c -> more c c' -> active h fd c'.
Proof. intros [[] ? ? ? ?] []. split; [split|..]; try congruence; auto. Qed.

Lemma active_fd h fd c s rest n : active h fd c -> inv s (c :: rest) -> handlers s !! h = Some n -> fd_ n = fd.
Proof.
  intros Ha Hs Hn. destruct (k_fds _ _ _ _ _ (inv_head _ _ _ Hs) h fd (a_fds _ _ _ Ha)) as (_ & n' & En & Ef). congruence.
Qed.

Lemma safe_clear h fd c : active h fd c -> safe (ClearEventHandler h) c (fun _ => calm h).
Proof.
  intros Ha. pose proof (a_calm _ _ _ Ha) as Hc. unfold ClearEventHandler. destruct (h =? nullptr); [done|].
  apply safe_act, atom_handler_at; [by eapply active_held|]. intros s rest n Hs Hn. exists c. split; [done|].
  rewrite (active_fd h fd c s rest n Ha Hs Hn). clear s rest n Hs Hn. apply safe_act. intros s rest Hs.
  unfold syscall. destruct (epoll_ctl _ _ _ _) as [[|] k] eqn:E; cbn [negb].
  - assert (Hk : interest k ⊆ interest (kernel s)) by (intros x Hx; by destruct (ctl_interest _ _ _ _ _ _ E x Hx) as [[?|(? & _)] _]).
    assert (Hfd : fd ∉ interest k) by (intros Hx; destruct (ctl_interest _ _ _ _ _ _ E fd Hx) as [_ Hne]; by apply Hne).
    pose proof (inv_kernel k s _ Hs Hk) as Hs'. exists (w_gone (Some fd) c). split.
    + apply (inv_claim _ c); try done; [by left| |intros x y Hy; by apply (inv_queue _ c rest x y Hs')].
      destruct (inv_head _ _ _ Hs') as [? ? ? ? ? ? ? ?]. split; try done; [left; apply Hc|]. cbn. intros x Ex. by injection Ex as <-.
    + apply safe_act. intros s1 rest1 Hs1. pose proof (inv_erase s1 _ rest1 fd Hs1 (a_loop _ _ Hc) (a_event _ _ Hc) (a_cur _ _ _ Ha) eq_refl) as Hs2.
      unfold erase, mbind, R_bind, get, modify.
      assert (Hend : safe (add_count (-1);; atomic (syscall (fun k => (tt, close fd k)));; mret 0) (w_gone (Some fd) c) (fun _ => calm h)).
      { apply safe_bind, safe_count, safe_act, atom_syscall; [intros k1 [] k2 Ek; injection Ek as <-; apply close_interest|]. intros []. by destruct Hc. }
      destruct (fd_to_handler_ s1 !! fd) as [old|]; [|by eexists].
      pose proof (inv_collect _ _ old Hs2) as Hcol. destruct (collect old _) as [[[] s']|e]; [|done]. by eexists.
  - exists c. split; [|done]. apply inv_kernel; [done|]. intros x Hx. by destruct (ctl_interest _ _ _ _ _ _ E x Hx) as [[?|(? & _)] _].
Qed.

Lemma atom_unref c h (Q : unit -> claim -> Prop) :
  h ∈ c_held c -> c_task c <> Some h -> c_due c <> Some h -> c_off c <> Some h -> Q tt (drop h c) -> atom c (unref h) Q.
Proof.
  intros Hh Ht Hd Ho HQ s rest Hs. pose proof (inv_unref s c rest h Hs Hh Ht Hd Ho) as Hs'. unfold unref, mbind, R_bind, modify.
  pose proof (inv_collect _ _ h Hs') as Hc. destruct (collect h _) as [[[] s']|e]; [|done]. by exists (drop h c).
Qed.


(** * Reading and writing *)

Lemma mark_none f h c : f c = None -> mark f h c = 0%nat.
Proof. intros E. unfold mark. by rewrite decide_False by congruence. Qed.

Lemma mark_some f h c : f c = Some h -> mark f h c = 1%nat.
Proof. intros E. unfold mark. by rewrite decide_True. Qed.

Lemma mark_task0 h d o c : mark c_task h (w_marks None d o c) = 0%nat.
Proof. by apply mark_none. Qed.
Lemma mark_due0 h t o c : mark c_due h (w_marks t None o c) = 0%nat.
Proof. by apply mark_none. Qed.
Lemma mark_off0 h t d c : mark c_off h (w_marks t d None c) = 0%nat.
Proof. by apply mark_none. Qed.

(** A type other than [kWrite] owes nothing. *)
Lemma owed_quiet off n t : t <> kWrite -> owed off (with_type t n) = 0%nat.
Proof. by destruct t. Qed.

Lemma owed_le off n : (owed off n <= 1)%nat.
Proof. unfold owed. destruct (event_type_ n), off; lia. Qed.

(** [SetType] to a quiet type by a thread without marks on other handlers. *)
Lemma atom_quiet c h t (Q : unit -> claim -> Prop) :
  t <> kWrite -> h ∈ c_held c -> c_task c = None -> c_due c = None -> c_off c = None \/ c_off c = Some h ->
  Q tt (w_marks None None None c) -> atom c (SetType h t) Q.
Proof.
  intros Ht Hh Et Ed Eo HQ. apply (atom_marks c h (with_type t) None None None); try done; [by right| |].
  - intros g Hg. repeat (apply elem_of_cons in Hg as [->|Hg]; [auto|]). by apply elem_of_nil in Hg.
  - intros n off due tk. rewrite (mark_none c_task h c Et), (mark_none c_due h c Ed). rewrite ?mark_task0, ?mark_due0, ?mark_off0.
    unfold q_ok. rewrite owed_quiet by done. destruct n; cbn. lia.
Qed.

Lemma calm_marks h c : calm h c -> w_marks None None None c = c.
Proof. intros []. destruct c. cbn in *. by subst. Qed.

Lemma active_marks h fd c : active h fd c -> w_marks None None None c = c.
Proof. intros [Hc _ _ _ _]. by apply (calm_marks h). Qed.

Lemma read_loop_allowed rs data e : read_loop rs data = Fail e -> allowed e.
Proof.
  unfold allowed. revert data. induction rs as [|r rs IH]; intros data; cbn; [intros E; injection E as <-; auto|]. destruct r as [bytes|x|x].
  - unfold append_buffer. destruct (_ <? SIZE)%nat; [apply IH|]. intros E. injection E as <-. auto.
  - destruct (x =? EINTR); [apply IH|done].
  - destruct (x =? EINTR); [apply IH|by destruct (x =? EAGAIN)].
Qed.

Lemma safe_read h fd c : active h fd c -> safe (Read h) c (fun _ => calm h).
Proof.
  intros Ha. unfold Read. apply safe_act, atom_handler; [by eapply active_held|]. intros n.
  apply (active_more _ _ _ (learn h (fd_ n) c)) in Ha; [|apply more_learn]. clearbody c || (generalize dependent (learn h (fd_ n) c); clear c; intros c Ha).
  apply safe_act, atom_syscall; [intros k a k'; apply read_interest|]. intros rs. apply safe_act. intros s rest Hs. unfold lift.
  destruct (read_loop rs (buffer_ n)) as [r|e] eqn:E; [|by eapply read_loop_allowed]. exists c. split; [done|]. clear s rest Hs E.
  pose proof (active_held _ _ _ Ha) as Hh. pose proof (a_calm _ _ _ Ha) as Hc. pose proof (active_marks _ _ _ Ha) as Em. destruct r as [data|].
  - apply safe_act, (atom_marks c h _ (Some h) None None); try done; [by right| | |].
    + destruct Hc as [_ _ _ _ -> -> ->]. intros g Hg. repeat (apply elem_of_cons in Hg as [->|Hg]; [auto|]). by apply elem_of_nil in Hg.
    + intros m off due tk. destruct Hc as [_ _ _ _ Et Ed Eo]. rewrite (mark_none c_task h c Et), (mark_none c_due h c Ed), (mark_none c_off h c Eo).
      rewrite (mark_some c_task) by done. rewrite ?mark_task0, ?mark_due0, ?mark_off0. unfold q_ok, owed. cbn. rewrite length_app. cbn. lia.
    + apply safe_act, atom_handler_at; [done|]. intros s rest m Hs Hm. destruct (is_nil (request_q_ m)).
      * exists c. split; [|done]. apply (inv_claim s (w_marks (Some h) None None c)); try done; [by left| |].
        -- rewrite <- Em. apply (claim_ok_marks _ _ _ _ (w_marks (Some h) None None c)); [by apply (inv_head s _ rest)|by right|]. by intros x [?|[?|?]].
        -- intros x y Hy. pose proof (inv_queue s _ rest x y Hs Hy) as Hq. destruct Hc as [_ _ _ _ Et Ed Eo].
           rewrite (mark_none c_task x c Et), (mark_none c_due x c Ed), (mark_none c_off x c Eo).
           rewrite (mark_none c_due), (mark_none c_off) in Hq by done. unfold q_ok in *. lia.
      * exists (w_marks (Some h) None None c). split; [done|]. apply safe_act. intros s1 rest1 Hs1. exists (w_marks None None None c). split.
        -- apply (inv_enqueue s1 (w_marks (Some h) None None c)); [done|apply Ha|done].
        -- by rewrite Em.
  - apply safe_act, atom_quiet; try done; [apply Hc|apply Hc|left; apply Hc|]. by rewrite Em.
Qed.

(** A thread that has a response to take. *)
Lemma safe_write h c (Q : Z -> claim -> Prop) :
  h ∈ c_held c -> c_loop c = true -> c_task c = None -> c_due c = Some h -> c_off c = Some h ->
  Q 0 (w_marks None None (Some h) c) -> safe (Write h) c Q.
Proof.
  intros Hh Hl Et Ed Eo HQ. unfold Write. cbn [safe]. apply safe_act.
  enough (G : atom c (change h (fun n => with_queues (request_q_ n) (tail (response_q_ n)) n))
    (fun _ c' => safe (atomic (unlock h);; mret 0) c' Q)).
  { intros s rest Hs. specialize (G s rest Hs). destruct (held_live s c rest h Hs Hh) as [n Hn].
    unfold pop_response, mbind at 1, R_bind at 1, handler. rewrite Hn. destruct (response_q_ n) eqn:Er; [|exact G].
    pose proof (inv_queue s c rest h n Hs Hn) as [Hq _]. rewrite (mark_some c_due h c Ed), Er in Hq. cbn in Hq. lia. }
  apply (atom_marks c h _ None None (Some h)); try done; [by left| | |].
  - rewrite Et, Ed, Eo. intros g Hg. repeat (apply elem_of_cons in Hg as [->|Hg]; [auto|]). by apply elem_of_nil in Hg.
  - intros n off due tk. rewrite (mark_none c_task h c Et), (mark_some c_due h c Ed), (mark_some c_off h c Eo).
    rewrite (mark_some c_off) by done. rewrite ?mark_task0, ?mark_due0, ?mark_off0. unfold q_ok, owed. cbn. destruct (event_type_ n), (response_q_ n); cbn; lia.
  - apply safe_act, atom_modify; [by intros s cs|]. exact HQ.
Qed.

(** * Events *)

Lemma safe_nonblock fd c (Q : unit -> claim -> Prop) : Q tt c -> safe (SetNonblock fd) c Q.
Proof.
  intros HQ. unfold SetNonblock. apply safe_act, atom_syscall; [intros k a k'; apply getfl_interest|]. intros f. apply safe_bind, safe_check.
  apply safe_act, atom_syscall; [intros k a k'; apply setfl_interest|]. intros ok. by apply safe_check.
Qed.

(** The type of the handler is [kWrite]: the main thread will write and reset it. *)
Lemma inv_commit s c rest h n :
  inv s (c :: rest) -> calm h c -> handlers s !! h = Some n -> event_type_ n = kWrite -> inv s (w_marks None (Some h) (Some h) c :: rest).
Proof.
  intros Hs Hc Hn Ht. pose proof Hc as [Hl Hh _ _ Et Ed Eo]. apply (inv_claim s c); try done; [by left| |].
  - apply claim_ok_marks; [by apply (inv_head s c rest)|by left|]. rewrite Hh. intros x [E|[E|E]]; [done|injection E as <-; by left..].
  - intros x y Hy. pose proof (inv_queue s c rest x y Hs Hy) as Hq.
    rewrite (mark_none c_task x c Et), (mark_none c_due x c Ed), (mark_none c_off x c Eo) in Hq. rewrite (mark_none c_task) by done.
    destruct (decide (x = h)) as [->|Hne].
    + assert (y = n) as -> by congruence. rewrite (mark_some c_due), (mark_some c_off) by done.
      assert (E : cnt c_off h rest = 0%nat).
      { apply cnt_none. intros z Hz. destruct (rest_workers s c rest z Hs Hl Hz) as (_ & _ & _ & _ & ->). done. }
      rewrite E in *. unfold q_ok, owed in *. rewrite Ht in *. cbn in *. lia.
    + unfold mark. cbn. rewrite !(decide_False (P := Some h = Some x)) by congruence. done.
Qed.

Lemma safe_dispatch h fd c : active h fd c -> safe (Dispatch h) c (fun _ => calm h).
Proof.
  intros Ha. pose proof (active_held _ _ _ Ha) as Hh. pose proof (a_calm _ _ _ Ha) as Hc. pose proof Hc as [Hl Hd He Hn Et Ed Eo].
  unfold Dispatch. apply safe_act, atom_handler_at; [done|]. intros s rest n Hs En. destruct (event_type_ n) eqn:Ty.
  - exists c. split; [done|]. clear s rest Hs En. apply safe_act, atom_modify; [by intros s cs|]. apply safe_act, atom_syscall.
    { intros k [x a] k' E. by eapply accept_interest. }
    intros [x a]. apply safe_bind, safe_nonblock, safe_act. intros s rest Hs. pose proof (inv_make s c rest (new_handler x kRead a) Hs eq_refl) as Hm.
    destruct (make_handler _ s) as [[y s']|e]; [|done]. destruct Hm as [Hm Hy]. eexists. split; [exact Hm|]. clear s s' rest Hs Hm.
    apply safe_bind. eapply safe_mono; [apply safe_register_new; [by left|done|apply Ha|done]|]. intros r c' [M1 M2 M3 M4 M5 M6 M7 M8 M9 _ _]. cbn in *.
    apply safe_bind, safe_check, safe_act, atom_unref; try congruence; [rewrite M2; by left|]. split; cbn; try congruence.
    rewrite M2. cbn. by rewrite Z.eqb_refl.
  - exists c. split; [done|]. apply safe_bind. eapply safe_mono; [by eapply safe_read|]. by intros r c' Hc'.
  - exists (w_marks None (Some h) (Some h) c). split; [by apply (inv_commit s c rest h n)|]. apply safe_bind, safe_write; try done.
    apply safe_act, atom_quiet; try done; [by right|].
    change (w_marks None None None (w_marks None None (Some h) (w_marks None (Some h) (Some h) c))) with (w_marks None None None c). rewrite (calm_marks h c Hc).
    apply safe_bind. eapply safe_mono; [apply safe_register; [done|apply Ha|done]|]. intros r c' Hm. apply safe_bind, safe_check.
    apply (active_more _ _ _ _ Ha) in Hm. apply Hm.
  - exists c. split; [done|]. apply safe_bind. eapply safe_mono; [by eapply safe_clear|]. intros r c' Hc'. by apply safe_bind, safe_check.
Qed.

(** The main thread between two events. *)
Record idle c : Prop := {
  d_loop : c_loop c = true; d_held : c_held c = [1]; d_event : c_event c = None; d_cur : c_cur c = None; d_gone : c_gone c = None;
  d_new : c_new c = None; d_task : c_task c = None; d_due : c_due c = None; d_off : c_off c = None }.

Definition w_event e c := MkClaim (c_loop c) (c_held c) (c_reg c) (c_fds c) e (c_cur c) (c_gone c) (c_new c) (c_task c) (c_due c) (c_off c).

(** The claim with the pointer to the handler of the event. *)
Definition taken h fd c : claim :=
  MkClaim (c_loop c) (h :: c_held c) (h :: c_reg c) ((h, fd) :: c_fds c) None (Some fd) (c_gone c) (c_new c) (c_task c) (c_due c) (c_off c).

Lemma atom_take c fd (Q : Z -> claim -> Prop) :
  idle c -> (forall h, Q h (taken h fd c)) -> atom (w_event (Some fd) c) (take_handler fd) Q.
Proof.
  intros [] HQ s rest Hs. destruct (k_event _ _ _ _ _ (inv_head _ _ _ Hs) fd eq_refl) as [Hf [h Hh]].
  destruct (i_map _ _ _ _ _ _ _ _ Hs fd h Hh) as (n & Hn & Ef & Er). unfold take_handler, mbind, R_bind, get. rewrite Hh.
  exists (taken h fd c). split; [|apply HQ]. apply (inv_ref s (w_event (Some fd) c) (taken h fd c) rest h n fd); try done; cbn; [|congruence].
  intros x E. by right.
Qed.

Lemma safe_handle_event c fd ev : idle c -> safe (handle_event fd ev) (w_event (Some fd) c) (fun _ => idle).
Proof.
  intros Hi. unfold handle_event. apply safe_act. intros s rest Hs. unfold find_handler, mbind, R_bind, get.
  destruct (k_event _ _ _ _ _ (inv_head _ _ _ Hs) fd eq_refl) as [Hf [x Hx]]. rewrite Hx. eexists. split; [exact Hs|]. clear s rest Hs x Hx Hf.
  apply safe_act, atom_take; [done|]. intros h. assert (Ha : active h fd (taken h fd c)).
  { destruct Hi. split; [split|..]; cbn; try done; [by rewrite d_held0|by left|by left]. }
  revert Ha. generalize (taken h fd c). clear c Hi. intros c Ha. apply safe_bind.
  assert (G : safe ((if Z.land ev EPOLLRDHUP =? 0 then Dispatch h;; mret tt else r ← ClearEventHandler h; check (r =? 0));; atomic (unref h)) c (fun _ => idle)).
  { apply safe_bind. eapply (safe_mono _ _ (fun _ => calm h)).
    - destruct (Z.land ev EPOLLRDHUP =? 0); apply safe_bind; (eapply safe_mono; [first [by eapply safe_dispatch|by eapply safe_clear]|]); intros r c' Hc'; [done|by apply safe_check].
    - intros _ c' [Hl Hh He Hn Et Ed Eo]. apply safe_atomic, atom_unref; try congruence; [rewrite Hh; by left|].
      split; cbn; try done. rewrite Hh. cbn. by rewrite Z.eqb_refl. }
  destruct (Z.land ev EPOLLERR =? 0); [exact G|]. pose proof (a_calm _ _ _ Ha) as Hc. apply safe_atomic, atom_quiet; try done;
    [by eapply active_held|apply Hc|apply Hc|left; apply Hc|]. by rewrite (calm_marks h c Hc).
Qed.

Lemma atom_next c (Q : option (Z * Z) -> claim -> Prop) :
  idle c -> Q None c -> (forall fd ev, Q (Some (fd, ev)) (w_event (Some fd) c)) -> atom c next_event Q.
Proof.
  intros Hi HN HS s rest Hs. unfold next_event, mbind, R_bind, get. destruct (ready s) as [|[fd ev] l] eqn:Er; [by exists c|]. unfold modify, mret, R_ret.
  exists (w_event (Some fd) c). split; [|apply HS]. pose proof Hs as [H1 H2 H3 H4 [Hnd H5] H6 H7 H8 H9]. rewrite Er in *. cbn in Hnd, H5.
  apply list.NoDup_cons in Hnd as [Hf Hnd]. unfold inv. cbn. split; try done.
  - intros x [->|Hx]%elem_of_cons; [destruct (H1 c ltac:(by left)) as [? ? ? ? K5 K6 ? ?]|destruct (H1 x ltac:(by right)) as [? ? ? ? K5 K6 ? ?]]; split; try done; cbn in *.
    + left. apply Hi.
    + intros y E. injection E as <-. split; [done|]. apply H5. by left.
    + intros y E. destruct Hi. congruence.
    + intros y E. destruct (K5 y E) as [Hy ?]. split; [|done]. intros Hin. apply Hy. by right.
    + intros y E Hin. apply (K6 y E). by right.
  - intros x Hx. destruct (H4 x Hx) as [?|(y & [->|Hy]%elem_of_cons & E)]; [by left|destruct Hi; congruence|right; exists y; split; [by right|done]].
  - split; [done|]. intros x Hx. apply H5. by right.
Qed.

Lemma atom_fetch c (x : Z) : idle c -> atom c (fetch x) (fun _ => idle).
Proof.
  intros Hi s rest Hs. unfold fetch, mbind, R_bind, syscall. destruct (epoll_wait x (kernel s)) as [[l|] k] eqn:Ek; [|by left].
  destruct (wait_interest _ _ _ _ Ek) as (Hk & Hnd & Hin). unfold get. cbn [events_size set_kernel]. destruct (zlen l <=? events_size s); [|by right; left].
  exists c. split; [|done]. pose proof (inv_kernel k s _ Hs Hk) as [H1 H2 H3 H4 H5 H6 H7 H8 H9]. unfold inv. cbn in *. split; try done.
  - clear x Ek. intros x Hx. destruct (H1 x Hx) as [? ? ? ? K5 K6 ? ?].
    assert (E : c_event x = None /\ c_cur x = None).
    { apply elem_of_cons in Hx as [->|Hx]; [by destruct Hi|]. by destruct (rest_workers s c rest x Hs (d_loop _ Hi) Hx) as (? & ? & _). }
    destruct E. split; try done; intros y Ey; congruence.
  - split; [done|]. clear x Ek. intros x Hx. destruct (i_interest _ _ _ _ _ _ _ _ Hs x (Hin x Hx)) as [?|(y & Hy & E)]; [done|]. exfalso.
    apply elem_of_cons in Hy as [->|Hy]; [destruct Hi; congruence|]. destruct (rest_workers s c rest y Hs (d_loop _ Hi) Hy) as (_ & _ & _ & ? & _). congruence.
Qed.

Lemma safe_iteration c : idle c -> safe iteration c (fun _ => idle).
Proof.
  intros Hi. unfold iteration. apply safe_act, atom_next; [done| |].
  - unfold wait. apply safe_act, atom_get. intros m. by apply safe_atomic, atom_fetch.
  - intros fd ev. by apply safe_handle_event.
Qed.

Lemma safe_task h : safe (run_task h) (worker h) (fun _ _ => True).
Proof.
  unfold run_task. cbn [safe]. apply safe_act, (atom_marks (worker h) h _ None (Some h) None); try done; [by left|by right| | |].
  - intros g Hg. cbn in Hg. repeat (apply elem_of_cons in Hg as [->|Hg]; [auto|]). by apply elem_of_nil in Hg.
  - intros n off due tk. rewrite (mark_some c_task), (mark_none c_due), (mark_none c_off) by done. rewrite (mark_none c_task), (mark_some c_due), (mark_none c_off) by done.
    unfold q_ok, owed. cbn. rewrite length_app, length_fmap. lia.
  - set (c := w_marks None (Some h) None (worker h)). apply safe_act, (atom_marks c h _ None None None); try done; [by left|by right| | |].
    + intros g Hg. cbn in Hg. repeat (apply elem_of_cons in Hg as [->|Hg]; [auto|]). by apply elem_of_nil in Hg.
    + intros n off due tk. rewrite (mark_none c_task), (mark_some c_due), (mark_none c_off) by done. rewrite ?mark_task0, ?mark_due0, ?mark_off0.
      pose proof (owed_le off (with_type kWrite n)). unfold q_ok in *. destruct n; cbn in *. lia.
    + apply safe_bind. eapply safe_mono; [apply safe_register; [by left|by left|done]|]. intros _ c' [M1 M2 M3 M4 M5 M6 M7 M8 M9 _ _]. cbn in M2, M7, M8, M9.
      apply safe_act, atom_modify; [by intros s cs|]. apply safe_atomic, atom_unref; try congruence; [rewrite M2; by left|done].
Qed.

(** * Executions *)

Definition main_claim : claim := MkClaim true [1] [] [] None None None None None None None.

Lemma safe_start : safe (start (K := K)) main_claim (fun _ => idle).
Proof.
  unfold start, ReactorRegister, ReactorRun. apply safe_bind, safe_bind, safe_check. eapply safe_mono; [apply safe_register_new; [by left|done..]|].
  intros _ c [M1 M2 M3 M4 M5 M6 M7 M8 M9 _ _]. apply safe_bind, safe_check, safe_act, atom_get. intros x. apply safe_atomic, atom_modify; [by intros s cs|]. by split.
Qed.

Lemma advance_safe {s c rest} p Q : inv s (c :: rest) -> safe p c Q ->
  match advance p s with Done (p', s') => exists c', inv s' (c' :: rest) /\ safe p' c' Q | Fail e => allowed e end.
Proof.
  intros Hs Hp. destruct p as [a|B a p|h p]; cbn in *; [by exists c| |case_bool_decide; by exists c]. specialize (Hp s rest Hs).
  destruct (a s) as [[b s']|e]; [|done]. destruct Hp as (c' & ? & ?). by exists c'.
Qed.

(** The claims of all threads. *)
Definition sound (w : system K) : Prop := exists c rest, inv (state w) (c :: rest) /\ safe (main w) c (fun _ => idle) /\
  Forall2 (fun p c => safe p c (fun _ _ => True)) (workers w) rest.

Lemma step_sound ch (w : system K) : sound w -> match step ch w with Done w' => sound w' | Fail e => allowed e end.
Proof.
  intros (c & rest & Hs & Hm & Hw). destruct ch as [|i|j]; cbn [step].
  - assert (G : match advance (main w) (state w) with Done (p, s) => sound (MkSystem s p (workers w)) | Fail e => allowed e end).
    { pose proof (advance_safe (main w) _ Hs Hm) as Ha. destruct (advance (main w) (state w)) as [[p s]|e]; [|done]. destruct Ha as (c' & ? & ?). by exists c', rest. }
    destruct (main w) as [a|B a p|h p] eqn:Em;
      [|destruct (advance (Act a p) (state w)) as [[? ?]|]; exact G|destruct (advance (Lock h p) (state w)) as [[? ?]|]; exact G]. exists c, rest. split; [done|]. split; [|done]. by apply safe_iteration.
  - destruct (tasks (state w) !! i) as [h|] eqn:Ei; [|by exists c, rest]. exists c, (rest ++ [worker h]). split; [|split; [done|]].
    + apply (inv_perm _ (worker h :: c :: rest)); [by rewrite (Permutation_app_comm rest), perm_swap|]. by apply inv_take.
    + apply Forall2_app; [done|]. constructor; [apply safe_task|constructor].
  - destruct (workers w !! j) as [p|] eqn:Ej; [|by exists c, rest]. destruct (Forall2_lookup_l _ _ _ _ _ Hw Ej) as (d & Hd & Hp).
    assert (Hperm : c :: rest ≡ₚ d :: c :: delete j rest) by (rewrite (delete_Permutation rest j d Hd) at 1; apply perm_swap).
    apply (inv_perm _ _ _ Hperm) in Hs. pose proof (advance_safe p _ Hs Hp) as Ha. destruct (advance p (state w)) as [[p' s']|e]; [|done].
    destruct Ha as (d' & Hs' & Hp'). exists c, (<[j := d']> rest). split; [|split; [done|by apply Forall2_insert]].
    apply (inv_perm _ _ _ (perm_swap c d' (delete j rest))) in Hs'. apply (inv_perm _ (c :: d' :: delete j rest)); [|done]. constructor.
    rewrite insert_take_drop by by eapply lookup_lt_Some. rewrite delete_take_drop. apply Permutation_middle.
Qed.


Lemma steps_sound chs (w : system K) : sound w -> match steps chs w with Done w' => sound w' | Fail e => allowed e end.
Proof.
  revert w. induction chs as [|ch chs IH]; intros w Hw; [done|]. cbn [steps]. pose proof (step_sound ch w Hw) as Hs. destruct (step ch w) as [w'|e]; [|done]. by apply IH.
Qed.

Lemma start_sound k fd : interest k = ∅ -> sound (new_system k fd).
Proof.
  intros Hk. exists main_claim, []. split; [|split; [apply safe_start|constructor]]. unfold inv. cbn. split; try done.
  - intros c ->%list_elem_of_singleton. split; cbn; try done.
    + intros h ->%list_elem_of_singleton. rewrite lookup_singleton_eq. by eexists.
    + by intros h ?%elem_of_nil.
    + by intros h x ?%elem_of_nil.
    + by left.
    + by intros h [?|[?|?]].
  - intros x. by rewrite Hk.
  - split; [apply NoDup_nil_2|]. by intros x Hx%elem_of_nil.
  - by intros h Hx%elem_of_nil.
  - intros h n [<- <-]%lookup_singleton_Some. rewrite !cnt_none by (intros c ->%list_elem_of_singleton; done). unfold q_ok, owed, queued. cbn. lia.
  - split; [done|]. intros h [n [<- _]%lookup_singleton_Some]. lia.
Qed.

(** Between two events no descriptor is half registered and no write is under way. *)
Lemma idle_quiet s c rest : inv s (c :: rest) -> idle c ->
  (forall x, x ∈ interest (kernel s) -> is_Some (fd_to_handler_ s !! x)) /\
  (forall h n, handlers s !! h = Some n -> event_type_ n = kWrite -> response_q_ n <> []).
Proof.
  intros Hs Hi. pose proof (d_loop _ Hi) as Hl. split.
  - intros x Hx. destruct (i_interest _ _ _ _ _ _ _ _ Hs x Hx) as [?|(y & Hy & E)]; [done|]. exfalso.
    apply elem_of_cons in Hy as [->|Hy]; [destruct Hi; congruence|]. destruct (rest_workers s c rest y Hs Hl Hy) as (_ & _ & _ & ? & _). congruence.
  - intros h n Hn Ht Hr. destruct (i_queue _ _ _ _ _ _ _ _ Hs h n Hn) as [Hq _].
    assert (E : cnt c_off h (c :: rest) = 0%nat).
    { apply cnt_none. intros y [->|Hy]%elem_of_cons; [by rewrite (d_off _ Hi)|]. by destruct (rest_workers s c rest y Hs Hl Hy) as (_ & _ & _ & _ & ->). }
    unfold owed in Hq. rewrite E, Ht, Hr in Hq. cbn in Hq. lia.
Qed.
End Spec.

(** C39: for every kernel that keeps its epoll interest list as documented, and every
    schedule that interleaves, access by access to the shared objects and call by call,
    the event loop with any number of worker threads running the closures of Read (each
    access atomic; that the accesses are C++ data races is a finding): no destroyed
    handler is accessed, no empty response queue is read, and the CHECK that a ready
    descriptor has a handler never fails; the map leads from each descriptor to a live
    handler of that descriptor, queued tasks and local pointers to live handlers, and
    between two events every descriptor of the interest list has a handler and every
    handler in state kWrite has a response. A run can only end in a failed CHECK of a
    system call, more events than the event vector holds, an unterminated read buffer,
    or reading that never ends. *)
Theorem reactor_safe {K} {KO : Kernel K} {KL : KernelLaws K} (k : K) (fd : Z) (chs : list choice) :
  interest k = ∅ ->
  match steps chs (new_system k fd) with
  | Done w =>
      (forall x h, fd_to_handler_ (state w) !! x = Some h -> exists n, handlers (state w) !! h = Some n /\ fd_ n = x) /\
      (forall x, x ∈ (ready (state w)).*1 -> is_Some (fd_to_handler_ (state w) !! x)) /\
      (forall h, h ∈ tasks (state w) \/ h ∈ held (state w) -> is_Some (handlers (state w) !! h)) /\
      (main w = Ret tt ->
         (forall x, x ∈ interest (kernel (state w)) -> is_Some (fd_to_handler_ (state w) !! x)) /\
         (forall h n, handlers (state w) !! h = Some n -> event_type_ n = kWrite -> response_q_ n <> []))
  | Fail e => e = SyscallCheck \/ e = EventsOverflow \/ e = Unterminated \/ e = Endless
  end.
Proof.
  intros Hk. pose proof (steps_sound chs _ (start_sound k fd Hk)) as Hw. destruct (steps chs (new_system k fd)) as [w|e]; [|done].
  destruct Hw as (c & rest & Hs & Hm & _). split; [|split; [|split]].
  - intros x h Hh. destruct (i_map _ _ _ _ _ _ _ _ Hs x h Hh) as (n & ? & ? & _). by exists n.
  - apply (i_ready _ _ _ _ _ _ _ _ Hs).
  - intros h [Hh|Hh]; [destruct (i_tasks _ _ _ _ _ _ _ _ Hs h Hh) as (n & ? & _); by exists n|].
    rewrite (i_held _ _ _ _ _ _ _ _ Hs) in Hh. apply list_elem_of_In, in_concat in Hh as (l & Hl & Hh). apply list_elem_of_In in Hl, Hh.
    apply list_elem_of_fmap in Hl as (y & -> & Hy). by apply (k_held _ _ _ _ _ (i_claims _ _ _ _ _ _ _ _ Hs y Hy)).
  - intros E. rewrite E in Hm. by apply (idle_quiet (state w) c rest).
Qed.

(** * A simulated kernel *)

(** The interest list, the open descriptors, the batches of events to report and
    the results of reading a message. *)
Record sim := MkSim { sim_interest : gset Z; sim_open : gset Z; sim_script : list (list (Z * Z)); sim_input : list read_result }.

Definition possible (n : Z) (k : sim) (l : list (Z * Z)) : bool :=
  bool_decide (NoDup l.*1) && forallb (fun x => bool_decide (x ∈ sim_interest k)) l.*1 && (zlen l <=? n).

#[export] Instance sim_kernel : Kernel sim := {|
  epoll_ctl op fd _ k :=
    match op with
    | EPOLL_CTL_ADD => if bool_decide (fd ∈ sim_interest k) then (false, k) else (true, MkSim ({[ fd ]} ∪ sim_interest k) (sim_open k) (sim_script k) (sim_input k))
    | EPOLL_CTL_MOD => (bool_decide (fd ∈ sim_interest k), k)
    | EPOLL_CTL_DEL => if bool_decide (fd ∈ sim_interest k) then (true, MkSim (sim_interest k ∖ {[ fd ]}) (sim_open k) (sim_script k) (sim_input k)) else (false, k)
    end;
  epoll_wait n k :=
    match sim_script k with
    | [] => (Some [], k)
    | l :: rest => (if possible n k l then Some l else None, MkSim (sim_interest k) (sim_open k) rest (sim_input k))
    end;
  close fd k := MkSim (sim_interest k ∖ {[ fd ]}) (sim_open k ∖ {[ fd ]}) (sim_script k) (sim_input k);
  accept _ k := let fd := List.hd (-1) (filter (fun x => x ∉ sim_open k) (seqZ 4 60)) in
                (fd, [], MkSim (sim_interest k) ({[ fd ]} ∪ sim_open k) (sim_script k) (sim_input k));
  fcntl_getfl fd k := (if bool_decide (fd ∈ sim_open k) then 0 else -1, k);
  fcntl_setfl fd _ k := (bool_decide (fd ∈ sim_open k), k);
  read _ k := (sim_input k, k) |}.

#[export] Instance sim_laws : KernelLaws sim.
Proof.
  refine {| interest := sim_interest |}.
  - intros op fd ev k r k' E x Hx. destruct op; cbn in E.
    + case_bool_decide; simplify_eq; cbn in Hx; [split; [by left|by intros [? _]]|]. apply elem_of_union in Hx as [->%elem_of_singleton|Hx]; (split; [auto|by intros [? _]]).
    + simplify_eq. split; [by left|by intros [? _]].
    + case_bool_decide; simplify_eq; cbn in Hx; [|split; [by left|by intros (_ & ? & _)]]. apply elem_of_difference in Hx as [Hx Hn]. split; [by left|]. intros (_ & _ & ->). by apply Hn, elem_of_singleton.
  - intros n k l k' E. cbn in E. destruct (sim_script k) as [|b rest]; [simplify_eq; split; [done|]; split; [apply NoDup_nil_2|]; by intros x Hx%elem_of_nil|].
    destruct (possible n k b) eqn:Ep; simplify_eq; (split; [done|]); [|done].
    unfold possible in Ep. rewrite !andb_true_iff, bool_decide_eq_true in Ep. destruct Ep as [[Hnd Hall] _]. split; [done|]. intros x Hx.
    rewrite forallb_forall in Hall. specialize (Hall x). rewrite bool_decide_eq_true in Hall. apply Hall. by apply list_elem_of_In.
  - intros fd k x Hx. cbn in Hx. by apply elem_of_difference in Hx as [Hx _].
  - intros fd k c a k' E. cbn in E. by simplify_eq.
  - intros fd k r k' E. cbn in E. by simplify_eq.
  - intros fd f k r k' E. cbn in E. by simplify_eq.
  - intros fd k l k' E. cbn in E. by simplify_eq.
Defined.

(** A message "hi" on every read. *)
Definition hi : list read_result := [Data [104; 105]; Failed EAGAIN].
Definition sim_start (script : list (list (Z * Z))) : sim := MkSim ∅ {[ 3 ]} script hi.

Definition sim_run (k : sim) (chs : list choice) : result (system sim) := steps chs (new_system k 3).

(** The main thread runs until it is between two events; a worker takes a task and
    runs it to its end. *)
Definition mains (n : nat) : list choice := replicate n Main.
Definition works (j n : nat) : list choice := replicate n (Work j).
Definition view {A} (r : result (system sim)) (f : system sim -> A) : result A := match r with Done w => Done (f w) | Fail e => Fail e end.

(** A client connects, sends a request and gets its response; the handler waits
    for the next request.  The counter is 4 for two sockets. *)
Example reactor_echo :
  view (sim_run (sim_start [[(3, EPOLLIN)]; [(4, EPOLLIN)]; [(4, EPOLLOUT)]]) (mains 49 ++ [Take 0] ++ works 0 12 ++ mains 40))
    (fun w => (handlers (state w) !! 2, epoll_event_count_ (state w))) = Done (Some (MkHandler 4 [] kRead true [] [] []), 4).
Proof. vm_compute. reflexivity. Qed.

(** After the first client the kernel may report two events, the vector has room
    for one. *)
Example reactor_overflow : sim_run (sim_start [[(3, EPOLLIN)]; [(3, EPOLLIN); (4, EPOLLIN)]]) (mains 60) = Fail EventsOverflow.
Proof. vm_compute. reflexivity. Qed.

(** A client disconnects before its task has run, and its descriptor is given to
    a second client: the task takes over the descriptor, and the handler of the
    second client is destroyed, which closes the connection. *)
Example reactor_stale_task :
  view (sim_run (sim_start [[(3, EPOLLIN)]; [(4, EPOLLIN)]; [(4, EPOLLRDHUP)]; [(3, EPOLLIN)]]) (mains 90 ++ [Take 0] ++ works 0 12))
    (fun w => (fd_to_handler_ (state w) !! 4, handlers (state w) !! 3, bool_decide (4 ∈ sim_open (kernel (state w))))) = Done (Some 2, None, false).
Proof. vm_compute. reflexivity. Qed.

(** A race: a second task announces its response between [Write] and
    [SetType(kRead)] of the main thread, which overwrites the announcement: the
    response stays in the queue, and the handler waits for the client. *)
Example reactor_lost_response :
  view (sim_run (sim_start [[(3, EPOLLIN)]; [(4, EPOLLIN)]; [(4, EPOLLIN)]; [(4, EPOLLOUT)]])
         (mains 65 ++ [Take 0; Take 0] ++ works 0 12 ++ mains 12 ++ works 1 12 ++ mains 40))
    (fun w => (handlers (state w) !! 2, tasks (state w))) = Done (Some (MkHandler 4 [] kRead true [] [] [processor]), []).
Proof. vm_compute. reflexivity. Qed.

(** A read is interrupted and the next one is at the end of the file: [errno] is still
    [EINTR], and the loop of [Read] does not end. *)
Example reactor_endless :
  sim_run (MkSim ∅ {[ 3 ]} [[(3, EPOLLIN)]; [(4, EPOLLIN)]] [Failed EINTR; End EINTR]) (mains 60) = Fail Endless.
Proof. vm_compute. reflexivity. Qed.

Lemma reactor_safe_witness :
  match sim_run (sim_start [[(3, EPOLLIN)]; [(4, EPOLLIN)]]) (mains 49) with
  | Done w => tasks (state w) = [2] /\ is_Some (handlers (state w) !! 2)
  | Fail _ => False
  end.
Proof.
  pose proof (reactor_safe (sim_start [[(3, EPOLLIN)]; [(4, EPOLLIN)]]) 3 (mains 49) eq_refl) as H. unfold sim_run.
  destruct (steps (mains 49) (new_system (sim_start [[(3, EPOLLIN)]; [(4, EPOLLIN)]]) 3)) as [w|e] eqn:E.
  - assert (Ht : view (sim_run (sim_start [[(3, EPOLLIN)]; [(4, EPOLLIN)]]) (mains 49)) (fun w => tasks (state w)) = Done [2]) by (vm_compute; reflexivity).
    unfold sim_run in Ht. rewrite E in Ht. injection Ht as Ht. split; [done|]. destruct H as (_ & _ & H & _). apply H. left. rewrite Ht. by left.
  - assert (Hf : match sim_run (sim_start [[(3, EPOLLIN)]; [(4, EPOLLIN)]]) (mains 49) with Done _ => true | Fail _ => false end = true) by (vm_compute; reflexivity).
    unfold sim_run in Hf. rewrite E in Hf. discriminate Hf.
Defined.
