(* ===== verification/Client.v ===== *)
(** The card game client ([spades_three/client.h], [network.h], [main.cc]).

    The system calls and the generated protobuf class are parameters: [net] holds
    the results of the calls that set up the connection, [reads n] is the result
    of the [n]-th [read], and [parsed_id s] the field [id] of a [Player] after
    [ParseFromString(s)].  [CHECK] ends the process ([AssertFail]).  [errno] is
    kept because [wait_for_others] looks at it after a [read] that returned 0,
    which does not set it.  Logging, the mutex and the members that are never read
    ([hand_up_], [player_]) are not modelled. *)

From S2P Require Import Prelude CString.

(** * System calls *)

Definition EAGAIN : Z := 11.

(** What a [read] of at most 17 bytes can do; [Failed e] is -1 with [errno] e. *)
Inductive read_result := Got (data : list Z) | Eof | Failed (e : Z).

Record net := MkNet {
  socket_fd : Z;          (* socket(...) *)
  getfl : Z; setfl : Z;   (* the two fcntl calls *)
  pton : Z;               (* inet_pton(...) *)
  connected : Z;          (* connect(...) *)
  sent : Z                (* send(server_, id, 10, 0) *)
}.

(** * network.h *)

Definition SetNonblock (n : net) : outcome unit :=
  require (negb (getfl n =? -1)) AssertFail;; require (negb (setfl n =? -1)) AssertFail.

Definition Connect (n : net) : outcome Z :=
  require (negb (socket_fd n =? -1)) AssertFail;;
  SetNonblock n;;
  require (pton n =? 1) AssertFail;;
  require (negb (connected n =? -1)) AssertFail;;
  Ok (socket_fd n).

(** * client.h *)

Record Client := MkClient {
  start_ : bool; stop_ : bool; connect_ : bool; id_ : Z; server_ : Z; topic_ : list Z;
  errno : Z; n_reads : nat
}.

(** The constructor; [server_] is uninitialised. *)
Definition new_client (junk id : Z) : Client := MkClient false false false id junk [] 0 0.

(** [std::to_string] of an [int32_t]. *)
Definition to_dec (n : Z) : list Z := if n <? 0 then 45 :: dec_digits 10 (- n) else dec_digits 10 n.

(** [std::string(count, ch)]; the call in [send_id] passes '0' as the count. *)
Definition fill_string (count ch : Z) : list Z := zreplicate count (u8 ch).

(** [std::string(buf)] of the 17 characters: up to the first NUL. *)
Definition c_string (buf : list Z) : outcome (list Z) :=
  match span (fun c => negb (c =? 0)) buf with
  | (s, _ :: _) => Ok s
  | (_, []) => Fault OutOfBounds
  end.

Section Client.
Context (n : net) (reads : nat -> read_result) (parsed_id : list Z -> list Z).

Definition connect (c : Client) : outcome Client :=
  fd ← Connect n;
  Ok (MkClient (start_ c) (stop_ c) true (id_ c) fd (topic_ c) (errno c) (n_reads c)).

(** The string that is sent. *)
Definition id_message (id : Z) : list Z :=
  let s := to_dec id in
  if negb (zlen s =? 10) then fill_string 48 (u64 (10 - zlen s)) ++ s else s.

Definition send_id (c : Client) : outcome (list Z) :=
  let id := id_message (id_ c) in
  require (zlen id =? 10) AssertFail;;
  require (sent n =? 10) AssertFail;;
  Ok id.

Definition disconnect (c : Client) : Client :=
  MkClient (start_ c) (stop_ c) false (id_ c) (server_ c) (topic_ c) (errno c) (n_reads c).

(** [memset(buf, 0, 17); byte = read(server_, buf, 17)]: the result, the buffer
    and [errno]. *)
Definition read_buf (r : read_result) (errno : Z) : Z * list Z * Z :=
  match r with
  | Got data => (zlen data, data ++ zreplicate (17 - zlen data) 0, errno)
  | Eof => (0, zreplicate 17 0, errno)
  | Failed e => (-1, zreplicate 17 0, e)
  end.

(** The loop of [wait_for_others]: [bytes], [topic] and the client. *)
Definition wait_step (st : Z * list Z * Client) : outcome (Z * list Z * Client + list Z * Client) :=
  let '(bytes, topic, c) := st in
  if (bytes <? 16) && negb (stop_ c) then
    let '(byte, buf, err) := read_buf (reads (n_reads c)) (errno c) in
    let c := MkClient (start_ c) (stop_ c) (connect_ c) (id_ c) (server_ c) (topic_ c) err (S (n_reads c)) in
    if (byte <=? 0) && (err =? EAGAIN) then Ok (inl (bytes, topic, c))
    else
      let stop := stop_ c || (byte <=? 0) in
      let c := MkClient (start_ c) stop (connect_ c) (id_ c) (server_ c) (topic_ c) (errno c) (n_reads c) in
      s ← c_string buf;
      Ok (inl (bytes + byte, topic ++ s, c))
  else Ok (inr (topic, c)).

(** The number of reads is not bounded; [fuel] is. *)
Definition wait_for_others (fuel : nat) (c : Client) : outcome Client :=
  '(topic, c) ← while_fuel fuel wait_step (0, [], c);
  if stop_ c then Ok c
  else
    require (zlen topic =? 16) AssertFail;;
    Ok (MkClient (start_ c) (stop_ c) (connect_ c) (id_ c) (server_ c) topic (errno c) (n_reads c)).

(** The messages are not received yet: every player is parsed from the empty
    string, and the game is over at once. *)
Definition run (c : Client) : outcome Client :=
  r ← for_ret 0 4 (fun _ _ =>
        let player := parsed_id [] in
        Ok (if bool_decide (player = to_dec (id_ c)) then inr player else inl player)) [];
  let player := match r with inl p => p | inr p => p end in
  require (bool_decide (player = to_dec (id_ c))) AssertFail;;
  Ok c.

Definition start (fuel : nat) (c : Client) : outcome Client :=
  c ← connect c;
  _ ← send_id c;
  c ← wait_for_others fuel c;
  if stop_ c then Ok (disconnect c)
  else run (MkClient true (stop_ c) (connect_ c) (id_ c) (server_ c) (topic_ c) (errno c) (n_reads c)).

(** What the loop of [Game] does with the flags it reads. *)
Inductive polled := Waiting | Cancelled | Begun.

Definition Game_poll (c : Client) : polled :=
  if start_ c then Begun else if stop_ c then Cancelled else Waiting.
End Client.

(** * The id *)

(** CHECK in send_id holds exactly for ids whose decimal form has ten characters:
    a shorter one is not padded, since the arguments of the constructor are swapped. *)
Theorem send_id_iff (n : net) (c : Client) :
  sent n = 10 ->
  (exists s, send_id n c = Ok s) <-> zlen (to_dec (id_ c)) = 10.
Proof.
  intros Hs. unfold send_id, id_message. rewrite Hs.
  destruct (Z.eqb_spec (zlen (to_dec (id_ c))) 10) as [E|E]; cbn [negb].
  - rewrite E. cbn. split; [done|by eexists].
  - split; [|done]. intros [s Hr]. exfalso. rewrite zlen_app in Hr. unfold fill_string in Hr.
    rewrite zlen_replicate in Hr. pose proof (zlen_nonneg (to_dec (id_ c))).
    destruct (Z.eqb_spec (Z.max 0 48 + zlen (to_dec (id_ c))) 10); [lia|discriminate Hr].
Qed.

Lemma send_id_iff_witness :
  exists s, send_id (MkNet 3 0 0 1 0 10) (new_client 0 1234567890) = Ok s.
Proof. apply (send_id_iff (MkNet 3 0 0 1 0 10) (new_client 0 1234567890)); vm_compute; reflexivity. Defined.

(** [main] creates the client with id 0, which does not pass. *)
Example main_client_aborts reads parsed_id fuel :
  start (MkNet 3 0 0 1 0 10) reads parsed_id fuel (new_client 0 0) = Fault AssertFail.
Proof. reflexivity. Qed.

(** * A game never runs to its end *)

Lemma to_dec_nonempty n : to_dec n <> [].
Proof.
  unfold to_dec. destruct (n <? 0); [done|]. cbn [dec_digits]. destruct (n <? 10); [done|].
  intros [_ ?]%app_nil. done.
Qed.

(** Parsing the empty string gives a message with default fields (proto3): then
    [start] returns only when waiting was stopped; otherwise the process ends in a
    CHECK. *)
Theorem start_only_stops (n : net) (reads : nat -> read_result) (parsed_id : list Z -> list Z)
    (fuel : nat) (c c' : Client) :
  parsed_id [] = [] -> start n reads parsed_id fuel c = Ok c' -> stop_ c' = true /\ connect_ c' = false.
Proof.
  intros Hp. unfold start. destruct (connect n c) as [c1|]; [|done]. cbn [mbind outcome_bind].
  destruct (send_id n c1); [|done]. cbn [mbind outcome_bind].
  destruct (wait_for_others reads fuel c1) as [c2|]; [|done]. cbn [mbind outcome_bind].
  destruct (stop_ c2) eqn:Es; [by intros [= <-]|]. unfold run. rewrite Hp. cbn [id_].
  assert (Hne : bool_decide ([] = to_dec (id_ c2)) = false)
    by (apply bool_decide_eq_false_2; intros E; by apply (to_dec_nonempty (id_ c2))).
  change (for_ret 0 4 ?b ?i) with (for_ret_up 4 0 b i). cbn [for_ret_up]. rewrite Hne.
  cbn [mbind outcome_bind]. by rewrite Hne.
Qed.

Lemma start_only_stops_witness :
  exists c', start (MkNet 3 0 0 1 0 10) (fun _ => Eof) (fun _ => []) 3 (new_client 0 1234567890) = Ok c' /\
    stop_ c' = true.
Proof.
  eexists. split; [vm_compute; reflexivity|].
  by apply (start_only_stops (MkNet 3 0 0 1 0 10) (fun _ => Eof) (fun _ => []) 3 (new_client 0 1234567890)).
Defined.

(** * Waiting for the topic *)

(** The bytes that a sequence of reads delivers. *)
Definition delivered (rs : list read_result) : list Z :=
  concat ((fun r => match r with Got data => data | _ => [] end) <$> rs).

(** A read that is not ready yet, or one with at least one byte and no NUL. *)
Definition regular (r : read_result) : Prop :=
  match r with
  | Got data => data <> [] /\ Forall (fun b => b <> 0) data
  | Eof => False
  | Failed e => e = EAGAIN
  end.

Lemma c_string_padded data k :
  Forall (fun b => b <> 0) data -> 0 < k -> c_string (data ++ zreplicate k 0) = Ok data.
Proof.
  intros Hd Hk. unfold c_string, zreplicate. replace (Z.to_nat k) with (S (Z.to_nat (k - 1))) by lia.
  cbn [replicate]. rewrite span_stop; [done| |done].
  eapply list.Forall_impl; [exact Hd|]. intros b Hb. cbn. by rewrite (proj2 (Z.eqb_neq _ _) Hb).
Qed.

Lemma wait_loop reads rs fuel bytes topic c :
  Forall regular rs -> (forall k r, rs !! k = Some r -> reads (n_reads c + k)%nat = r) ->
  stop_ c = false -> bytes + zlen (delivered rs) = 16 -> 0 <= bytes -> (length rs < fuel)%nat ->
  wp (while_fuel fuel (wait_step reads) (bytes, topic, c)) (fun r =>
    r.1 = topic ++ delivered rs /\ stop_ r.2 = false /\ id_ r.2 = id_ c /\ server_ r.2 = server_ c).
Proof.
  intros Hrs. revert fuel bytes topic c.
  induction Hrs as [|r rs Hr _ IH]; intros [|fuel] bytes topic c Hreads Hstop Hb H0 Hf; try (cbn in Hf; lia);
    cbn [while_fuel].
  - change (zlen (delivered [])) with 0 in Hb. unfold wait_step. destruct (Z.ltb_spec bytes 16); [lia|].
    apply wp_ret. cbn. by rewrite app_nil_r.
  - assert (Hnext : forall k x, rs !! k = Some x -> reads (S (n_reads c) + k)%nat = x).
    { intros k x Hk. replace (S (n_reads c) + k)%nat with (n_reads c + S k)%nat by lia. by apply Hreads. }
    assert (Er : reads (n_reads c) = r) by (rewrite <- (Nat.add_0_r (n_reads c)); by apply Hreads).
    pose proof (zlen_nonneg (delivered rs)). cbn in Hf.
    destruct r as [data| |e]; [|done|].
    + destruct Hr as [Hne Hnz]. change (delivered (Got data :: rs)) with (data ++ delivered rs) in *.
      rewrite zlen_app in Hb. assert (Hd : 0 < zlen data) by (destruct data; [done|rewrite zlen_cons; pose proof (zlen_nonneg data); lia]).
      cbn [wait_step]. rewrite Hstop, Er. destruct (Z.ltb_spec bytes 16); [|lia]. cbn [andb negb read_buf].
      destruct (Z.leb_spec (zlen data) 0); [lia|]. cbn [andb orb stop_].
      rewrite c_string_padded by (done || lia). cbn [mbind outcome_bind].
      eapply wp_mono; [apply IH; cbn [stop_ n_reads]; [done|done|lia|lia|lia]|].
      intros [t c'] (-> & ? & ? & ?). by rewrite <- app_assoc.
    + cbn in Hr. subst e. change (delivered (Failed EAGAIN :: rs)) with (delivered rs) in *.
      cbn [wait_step]. rewrite Hstop, Er. cbn [read_buf].
      destruct (Z.ltb_spec bytes 16) as [|Hge]; cbn [andb negb].
      * cbn [Z.leb Z.compare andb]. rewrite Z.eqb_refl. cbn [mbind outcome_bind].
        eapply wp_mono; [apply IH; cbn [stop_ n_reads]; [done|done|lia|lia|lia]|]. done.
      * apply wp_ret. cbn. assert (E : delivered rs = []) by (destruct (delivered rs); [done|rewrite zlen_cons in *; pose proof (zlen_nonneg l); lia]).
        by rewrite E, app_nil_r.
Qed.

(** However the sixteen characters of the topic are split into packets, and however
    often the socket is not ready in between, wait_for_others returns with the
    topic. *)
Theorem wait_for_others_topic (reads : nat -> read_result) (rs : list read_result) (fuel : nat) (c : Client) :
  Forall regular rs -> (forall k r, rs !! k = Some r -> reads (n_reads c + k)%nat = r) ->
  stop_ c = false -> zlen (delivered rs) = 16 -> (length rs < fuel)%nat ->
  exists c', wait_for_others reads fuel c = Ok c' /\ topic_ c' = delivered rs /\ stop_ c' = false.
Proof.
  intros Hr Hreads Hs Hl Hf. unfold wait_for_others.
  destruct (wait_loop reads rs fuel 0 [] c) as ([t c1] & -> & Ht & Hs1 & _); [done..|lia|done|].
  cbn [mbind outcome_bind]. cbn in Ht, Hs1. rewrite Hs1, Ht, Hl. cbn. by eexists.
Qed.

Lemma wait_for_others_topic_witness :
  exists c', wait_for_others (fun k => match k with 1%nat => Failed EAGAIN | _ => Got [65; 66; 67; 68; 69; 70; 71; 72] end)
    10 (new_client 0 0) = Ok c' /\
    topic_ c' = [65; 66; 67; 68; 69; 70; 71; 72; 65; 66; 67; 68; 69; 70; 71; 72].
Proof.
  destruct (wait_for_others_topic
    (fun k => match k with 1%nat => Failed EAGAIN | _ => Got [65; 66; 67; 68; 69; 70; 71; 72] end)
    [Got [65; 66; 67; 68; 69; 70; 71; 72]; Failed EAGAIN; Got [65; 66; 67; 68; 69; 70; 71; 72]] 10 (new_client 0 0))
    as (c' & E & Ht & _).
  - repeat constructor; done.
  - intros [|[|[|k]]] r Hk; [injection Hk as <-; reflexivity..|discriminate Hk].
  - reflexivity.
  - reflexivity.
  - cbn. lia.
  - exists c'. split; [exact E|exact Ht].
Defined.

(** When the server closes the connection after a read that was not ready, errno
    still says EAGAIN and the loop never ends. *)
Theorem wait_spins_after_close (reads : nat -> read_result) (fuel : nat) (c : Client) :
  errno c = EAGAIN -> stop_ c = false -> (forall k, (n_reads c <= k)%nat -> reads k = Eof) ->
  wait_for_others reads fuel c = Fault OutOfFuel.
Proof.
  intros He Hs Hr. unfold wait_for_others.
  rewrite (while_fuel_diverges (fun st => let '(bytes, _, c') := st in
    bytes = 0 /\ errno c' = EAGAIN /\ stop_ c' = false /\ (n_reads c <= n_reads c')%nat)); [done|done|].
  intros [[bytes topic] c'] (-> & He' & Hs' & Hn). unfold wait_step. cbn beta iota. rewrite Hs', (Hr _ Hn), He'. cbn.
  eexists. split; [reflexivity|]. cbn. repeat split; try done. lia.
Qed.

Lemma wait_spins_after_close_witness :
  wait_for_others (fun _ => Eof) 100 (MkClient false false true 0 3 [] EAGAIN 1) = Fault OutOfFuel.
Proof. by apply (wait_spins_after_close (fun _ => Eof) 100 (MkClient false false true 0 3 [] EAGAIN 1)). Defined.
